(* ===== verification/_CoqProject ===== *)
-Q . S2P
Prelude.v
WordSearch.v
Kmp.v
AhoCorasick.v
AcMain.v
Monitor.v
Transaction.v
TxSteps.v
TxLocks.v
TxDeadlock.v
TxSerial.v
TxProgress.v
Snapshot.v
Text.v
ListHeap.v
CoarseList.v
FineList.v
OptimisticList.v
ListMain.v
Mains.v
RingQueue.v
Primes.v
PrimeCond.v
PrimePool.v
Timers.v
Counter.v
Queues.v
QueuesSpec.v
Tree.v
TreeRep.v
TreeInsert.v
TreeSpec.v
TreeDelete.v
TreeScan.v
TreeCursor.v
Hash.v
HashRep.v
HashTable.v
HashInsert.v
HashSplit.v
HashDelete.v
HashSpec.v
HashOps.v
HashUpdate.v
HashWhole.v
IntStr.v
IntStrSpec.v
StrToll.v
StrToInt.v
Qsort.v
QsortSpec.v
Bits.v
DynArray.v
DynArraySpec.v
DList.v
DListSpec.v
LfArray.v
LfArraySpec.v
LfAlloc.v
LfAllocInv.v
LfAllocSpec.v
LfHash.v
LfOrder.v
LfInv.v
LfSteps.v
LfChain.v
LfFind.v
LfOps.v
LfBuckets.v
LfMain.v
Base64.v
Base64Spec.v
Bitmap.v
BitmapSpec.v
BitmapQuery.v
BitmapPrefix.v
RecLock.v
RecLockSeq.v
RecLockGc.v
RecLockConc.v
