(* ===== verification/Prelude.v ===== *)
(** * Verification of the ITE4065 programs

    The repository holds the laboratories and projects of a course on multi-core
    programming: small multi-threaded programs in C++, and, for the last project, a MariaDB
    server whose InnoDB lock manager was changed.  This library translates them into
    executable Rocq definitions and proves what they compute, under every schedule of
    their threads where they have threads.

    ** How programs are modelled

    A function that may run into undefined behaviour returns an [outcome] (below in this file):
    [Ret] a value, [UB] (an index out of bounds, a null or freed pointer, a division by zero, signed
    overflow) or [NoFuel] (a loop that is not structural was not followed to its end).  The
    theorems exclude [UB] and [NoFuel]: they state that the result is [Ret].  A machine
    with threads is a state with one program counter per thread and an executable step
    function, one access to shared state per step; an inductive relation lets any enabled
    thread take the next step, and the theorems are about all its reachable states.
    Machine integers are numbers in [Z] whose overflow is written out: [int_op] is undefined
    outside [int], [wrap32] and [u32] wrap.  Text is a list of character codes.

    ** Parts, files and sources

    Project 1, searching many words in a text (src/project1).  [WordSearch] is the protocol
    both solutions have to follow.  [Kmp] models kmp_solution/ref_solution.cpp: [getPi], [kmp], the
    batches of threads that store their hits in any order, sorting and printing.
    [AhoCorasick] models the class of ahocorasick.h and ahocorasick.cpp (the transition table, [addWord],
    [deleteWord], [makeGraph], [search]), [AcMain] the command loop of ref_solution.cpp.
    Theorems: each program prints what the protocol asks for, hence both print the same, on
    sessions of lowercase words in which no word is deleted while it is still buffered;
    [pending_delete_reported] shows that this restriction is needed.

    Project 2, transactions with a lock manager (src/project2).  [Monitor] models the queues of lock
    requests, the graph of dependencies and [deadlock_check] (lockinfo.h, rwlock.h, record.h,
    monitor.cpp).  [Transaction] is the machine of the worker threads (transaction.cpp, random.h,
    rwlock.h) with the checker test.py; [TxSteps] reads its step function as a relation.
    [TxLocks] has the invariants of mutex, queues and rw locks; [TxDeadlock] shows exclusion and
    that the waits of the threads have no cycle; [TxSerial] that the log is accepted by
    test.py in every reachable state and describes the final table; [TxProgress] which undefined
    behaviour can be reached (overflow, and four kinds of data races), and a livelock of the rw lock.  A pass over a
    queue is one step of the machine, also where the code makes it without the global mutex; what the races
    do to such a pass is not followed.  [Mains] is the main program:
    reading the arguments, the messages and exceptions, and the composition with the machine of the workers.

    Project 3, a wait-free snapshot (src/project3).  [Snapshot] models stampedsnap.h, wfsnapshot.h and
    the thread pool.  A scan can always take its next step and ends within a fixed number of its own steps, and returns values that
    were current during it; but it is not atomic, because copying an entry resets its stamp.  [Mains] has the
    main program of this project too.

    Lab 11, three concurrent sorted lists (src/lab11).  [ListHeap] has the memory of nodes and the
    abstract set; [CoarseList], [FineList] and [OptimisticList] are the machines of the three programs,
    one memory access per step, with memory safety and linearizability including the values returned, as long as no call has the
    key INT_MAX of the tail, and what goes wrong with that key; [ListMain] is the
    main program around them, with the text of [Text].

    Other labs.  [Primes] counts primes (labs 3, 4 and 7), [PrimeCond] does so with a condition
    variable (lab 4), [PrimePool] with a pool of threads (lab 7), whose worker function lacks a return statement (the two readings of which are
    a parameter), [Timers] are the handlers of lab 6, [Counter] is the shared counter of
    lab 2, [RingQueue] the ring buffer of lab 13.

    Project 4, record locks without latches in InnoDB (src/project4/mariadb/server/storage/innobase).
    [RecLock] is the machine of the changed code in lock0lock.cc, trx0trx.cc and hash0hash.cc for one
    cell of the hash table.  [RecLockSeq] and [RecLockGc]: when operations do not overlap,
    the list refines a queue, commits terminate, and what is freed is older than every active
    transaction.  [RecLockConc]: acquisitions may overlap with each other in any way; an
    acquisition that overlaps a commit may abort the server, and two commits may lose a lock.

    Utilities of the server (src/project4/mariadb/server/mysys, strings and include).  Each has a file with the
    code and one or more with its theorems:

    - [Bits]: my_bit.h and my_bit.c;
    - [Bitmap], with the specification as sets of numbers in [BitmapSpec], [BitmapQuery] and [BitmapPrefix]: my_bitmap.c;
    - [Queues] and [QueuesSpec] (heap order, contents and positions): queues.c;
    - [Base64] and [Base64Spec] (round trip): base64.c;
    - [Tree], [TreeRep], [TreeInsert], [TreeSpec], [TreeDelete], [TreeScan], [TreeCursor]: tree.c.  Insertion and deletion keep the
      order, the colours and the heights, and refine a map; walks and cursors visit the elements in their order;
    - [Hash], [HashRep], [HashTable], [HashSpec], [HashSplit], [HashInsert], [HashDelete], [HashOps], [HashUpdate], [HashWhole]: hash.c.  The chains within the array
      are those of the records by their hash numbers, before and after each operation;
    - [IntStr], [IntStrSpec], [StrToll], [StrToInt]: int2str.c, longlong2str.c, llstr.c, my_strtoll10.c, str2int.c, as printing and
      reading of integers in a radix, with the overflow each of them reports;
    - [Qsort] and [QsortSpec]: mf_qsort.c, an ordered permutation without leaving the array or the stack;
    - [DynArray] and [DynArraySpec]: array.c, sequences of operations refine operations on lists;
    - [DList] and [DListSpec]: list.c, sequences of operations refine operations on sequences.

    The lock-free structures (lf_dynarray.c, lf_alloc-pin.c, lf_hash.c), each a machine with one access to shared memory per step, for any number of
    threads.  [LfArray] is the wait-free dynamic array; [LfArraySpec] shows that an index has one element for all threads and that no block is lost.  [LfAlloc] is
    the allocator with its stack of free objects, the pins and the purgatory; [LfAllocInv] has its invariant, and [LfAllocSpec] shows that every object
    is at any time in exactly one place.  [LfHash] is the machine of the hash table.  [LfOrder] has the order of the list, the buckets and the history; [LfInv] the invariant: the list of linked
    nodes, the owner of each node that is not linked, and what a thread knows at each point; [LfSteps] what a thread keeps when
    another one steps, and the changes of the table, [LfChain] those of the list; [LfFind], [LfOps] and [LfBuckets] the steps
    of [l_find], of the operations on the list, and of [initialize_bucket] and [lf_pinbox_real_free].  [LfMain] puts them
    together: no thread ever touches a freed node or frees one twice, and the table is linearizable.

    ** Interfaces and parameters

    Code that is not in the repository is a parameter: the comparison function of queues, trees, sorting and
    the lock-free table (class [Comparison]), the collation of a hash table (class [Collation]), a hash function that does not
    separate equal keys (class [SameHash]), memory that may run out (classes [Allocator] and [Malloc]), each class with an
    instance; the numbers drawn by [std::mt19937] and the order of an
    [unordered_set] (arbitrary inputs of the steps), the address [malloc] returns (any free one), the
    scheduler, the wake-ups of condition variables and the order in which boost::asio calls handlers (any step at any time).

    ** Fuel and bounds

    Loops that are not structural take fuel that the calling definition computes from the data:
    the length of a text or list, the number of bits or elements, a number of turns such as
    [n (n + 2)] reads for a scan.  Each such loop is proved to end within its fuel on the states the
    theorems speak about.  Positions in texts, list lengths and queue indices are assumed to
    fit their machine types where the header of the file says so.  The lock-free table is followed as long as it has less
    than 2^30 elements: beyond that the code doubles its size in an [int].

    ** Not modelled

    The demonstrations of tools in
    labs 3, 5, 7 and 12, with the program of lab 5 that was made to show races and leaks; lab 14,
    which does not compile; the skeleton list_template.cpp of lab 11; weak memory (shared
    accesses are sequentially consistent); torn copies of a snapshot entry; the measuring of times; of the utilities [tree_record_pos], an
    estimate in floating-point numbers, of the lock-free structures iteration and destruction of the hash table and the stack of unused
    pins; and the rest of the
    MariaDB server, about two million lines that the course did not write, of which
    only the code changed by project 4 and the utilities above are treated.

    This file: outcomes, arrays, machine integers, and lemmas on lists and sums that the
    other files share. *)

From stdpp Require Export base tactics list gmap sorting relations.
From Stdlib Require Export ZArith Lia.

#[global] Open Scope Z_scope.

(** ** Outcomes of C++ code

    [Ret a] is a normal return, [UB] is undefined behaviour (an index out of
    the bounds of a vector, a division by zero, a null dereference), [NoFuel]
    says that a loop was not followed to its end. *)

Inductive outcome (A : Type) : Type :=
| Ret (a : A)
| UB
| NoFuel.
Arguments Ret {A} a.
Arguments UB {A}.
Arguments NoFuel {A}.

#[global] Instance outcome_ret : MRet outcome := @Ret.
#[global] Instance outcome_bind : MBind outcome := λ A B k m,
  match m with
  | Ret a => k a
  | UB => UB
  | NoFuel => NoFuel
  end.

(** Run the head of a bind without unfolding the functions it calls. *)
Ltac obind := cbn [mbind outcome_bind mret outcome_ret].

Definition of_option {A} (o : option A) : outcome A :=
  match o with Some a => Ret a | None => UB end.

Lemma bind_Ret_inv {A B} (m : outcome A) (k : A → outcome B) b :
  m ≫= k = Ret b → ∃ a, m = Ret a ∧ k a = Ret b.
Proof. destruct m; simpl; [eauto | done | done]. Qed.

(** [x[i]] and [x[i] = v] on a [std::vector] or an array: out of bounds is
    undefined behaviour. *)
Definition vget {A} (l : list A) (i : Z) : outcome A :=
  if bool_decide (0 ≤ i) then of_option (l !! Z.to_nat i) else UB.

Definition vset {A} (l : list A) (i : Z) (x : A) : outcome (list A) :=
  if bool_decide (0 ≤ i < Z.of_nat (length l)) then Ret (<[Z.to_nat i := x]> l)
  else UB.

Declare Scope vec_scope.
Delimit Scope vec_scope with vec.
Notation "l .[ i ]" := (vget l i) (at level 2, left associativity, format "l .[ i ]") : vec_scope.
Notation "l .[ i := x ]" := (vset l i x) (at level 2, left associativity, format "l .[ i  :=  x ]") : vec_scope.
#[global] Open Scope vec_scope.

(** The same on indices that are natural numbers, and an update in place. *)
Definition at_ {A} (l : list A) (i : nat) : outcome A := of_option (l !! i).

Definition update {A} (l : list A) (i : nat) (f : A → A) : outcome (list A) :=
  x ← at_ l i; Ret (<[i := f x]> l).

Lemma at_lookup {A} (l : list A) i x : l !! i = Some x → at_ l i = Ret x.
Proof. intros H. unfold at_. by rewrite H. Qed.

Lemma update_insert {A} (l : list A) i f x : l !! i = Some x → update l i f = Ret (<[i := f x]> l).
Proof. intros H. unfold update, at_. by rewrite H. Qed.

Lemma at_inv {A} (l : list A) i x : at_ l i = Ret x → l !! i = Some x.
Proof. unfold at_, of_option. destruct (l !! i); naive_solver. Qed.

Lemma update_inv {A} (l l' : list A) i f :
  update l i f = Ret l' → ∃ x, l !! i = Some x ∧ l' = <[i := f x]> l.
Proof.
  unfold update. intros (x & Hx%at_inv & [= <-])%bind_Ret_inv. eauto.
Qed.

(** Read a hypothesis [m ≫= k = Ret b] as the successive results. *)
Ltac bind_inv H :=
  lazymatch type of H with
  | _ ≫= _ = Ret _ =>
      let x := fresh "x" in let H1 := fresh H in
      apply bind_Ret_inv in H as (x & H1 & H)
  end.

(** ** Machine integers

    A conversion to [int] wraps; signed arithmetic that leaves the range of
    [int] is undefined behaviour. *)

Definition int_min : Z := - 2 ^ 31.
Definition int_max : Z := 2 ^ 31 - 1.
Definition in_int (z : Z) : Prop := int_min ≤ z ≤ int_max.
#[global] Instance in_int_dec z : Decision (in_int z).
Proof. unfold in_int. apply _. Defined.

Definition wrap32 (z : Z) : Z := (z + 2 ^ 31) mod 2 ^ 32 - 2 ^ 31.

Definition int_op (z : Z) : outcome Z := if bool_decide (in_int z) then Ret z else UB.

Lemma wrap32_id z : in_int z → wrap32 z = z.
Proof.
  unfold in_int, int_min, int_max, wrap32. intros H. rewrite Z.mod_small; lia.
Qed.

Lemma int_op_Ret z : in_int z → int_op z = Ret z.
Proof. intros H. unfold int_op. by rewrite bool_decide_true. Qed.

Lemma int_op_inv z v : int_op z = Ret v → v = z ∧ in_int z.
Proof. unfold int_op. case_bool_decide; naive_solver. Qed.

Ltac int_range := unfold in_int, int_min, int_max in *; lia.

Create HintDb outcome.
#[export] Hint Extern 2 (in_int _) => int_range : outcome.
#[export] Hint Extern 2 (_ ≤ _) => lia : outcome.
#[export] Hint Extern 2 (_ < _) => lia : outcome.

(** ** Strings

    A [std::string] is the list of its character codes.  [s[i]] is the
    terminating NUL character when [i] is the length of the string. *)

Abbreviation str := (list Z).

Definition char_at (s : str) (i : Z) : outcome Z :=
  if bool_decide (i = Z.of_nat (length s)) then Ret 0 else vget s i.

Lemma vget_nat {A} (l : list A) (i : nat) x :
  l !! i = Some x → vget l (Z.of_nat i) = Ret x.
Proof.
  intros H. unfold vget. rewrite bool_decide_true by lia. by rewrite Nat2Z.id, H.
Qed.

Lemma vset_nat {A} (l : list A) (i : nat) x :
  (i < length l)%nat → vset l (Z.of_nat i) x = Ret (<[i := x]> l).
Proof.
  intros H. unfold vset. rewrite bool_decide_true by lia. by rewrite Nat2Z.id.
Qed.

Lemma char_at_nat (s : str) (i : nat) c :
  s !! i = Some c → char_at s (Z.of_nat i) = Ret c.
Proof.
  intros H. pose proof (lookup_lt_Some _ _ _ H). unfold char_at.
  rewrite bool_decide_false by lia. by apply vget_nat.
Qed.

#[export] Hint Resolve vget_nat vset_nat char_at_nat at_lookup update_insert int_op_Ret : outcome.
#[export] Hint Rewrite int_op_Ret using (solve [auto with outcome]) : outcome.

(** Run a chain of operations that succeed. *)
Ltac orun := repeat (progress (autorewrite with outcome; obind)).

(** ** Logic *)

Lemma impl_proper_l (P Q R : Prop) : (P → Q ↔ R) → (P → Q) ↔ (P → R).
Proof. tauto. Qed.

Lemma dec_stable_iff (P : Prop) `{Decision P} : ¬ ¬ P ↔ P.
Proof. split; [apply dec_stable | tauto]. Qed.

(** ** Comparison functions

    What the queues and trees of the server require of the function they are given: it is the
    comparison of a total preorder. *)

Class Comparison {A} (compare : A → A → Z) : Prop := {
  compare_sym x y : compare x y < 0 ↔ compare y x > 0;
  compare_trans x y z : compare x y ≤ 0 → compare y z ≤ 0 → compare x z ≤ 0
}.

(** ** Lists *)

Lemma NoDup_omap_inj {A B} (f : A → option B) (l : list A) :
  (∀ x y z, x ∈ l → y ∈ l → f x = Some z → f y = Some z → x = y) →
  NoDup l → NoDup (omap f l).
Proof.
  intros Hinj. induction 1 as [| x l Hx Hnd IH]; [constructor |]. simpl.
  destruct (f x) as [z |] eqn:E; cycle 1.
  { apply IH. intros y y' z' Hy Hy'. apply Hinj; by right. }
  constructor.
  - intros (y & Hy & Ef)%list_elem_of_omap.
    assert (x = y) as -> by (apply (Hinj x y z); [by left | by right | done | done]). done.
  - apply IH. intros y y' z' Hy Hy'. apply Hinj; by right.
Qed.

Lemma filter_ext_in {A} (P Q : A → Prop) `{∀ x, Decision (P x)} `{∀ x, Decision (Q x)} (l : list A) :
  (∀ x, x ∈ l → P x ↔ Q x) → filter P l = filter Q l.
Proof.
  induction l as [| x l IH]; intros HPQ; [done |]. rewrite !filter_cons, IH by set_solver.
  pose proof (HPQ x ltac:(by left)). repeat destruct (decide _); tauto || done.
Qed.

Lemma list_filter_total {A} (P : A → Prop) `{∀ x, Decision (P x)} (l : list A) : (∀ x, P x) → filter P l = l.
Proof. intros HP. induction l as [| x l IH]; [done |]. rewrite filter_cons_True by done. by rewrite IH. Qed.

Lemma filter_none {A} (P : A → Prop) `{∀ x, Decision (P x)} (l : list A) : filter P l = [] ↔ Forall (λ x, ¬ P x) l.
Proof.
  induction l as [| x l IH]; [done |]. rewrite filter_cons, Forall_cons, <- IH. case_decide; naive_solver.
Qed.

Lemma filter_fmap {A B} (P : B → Prop) `{∀ x, Decision (P x)} (f : A → B) (l : list A) :
  filter P (f <$> l) = f <$> filter (λ x, P (f x)) l.
Proof. induction l as [| x l IH]; [done |]. cbn [fmap list_fmap]. rewrite !filter_cons. case_decide; cbn; by rewrite IH. Qed.

Lemma filter_fmap_length {A B} (P : B → Prop) `{∀ x, Decision (P x)} (f : A → B) (l : list A) :
  length (filter P (f <$> l)) = length (filter (λ x, P (f x)) l).
Proof. by rewrite filter_fmap, length_fmap. Qed.

(** ** Sums over a list of threads *)

Definition total {A} (f : nat → A → nat) (ths : list A) : nat := sum_list (imap f ths).

Lemma total_insert {A} (f : nat → A → nat) ths t th th' :
  ths !! t = Some th → (total f (<[t := th']> ths) + f t th = total f ths + f t th')%nat.
Proof.
  unfold total. revert f t. induction ths as [| x ths IH]; intros f t Hl; [done |].
  destruct t as [| t]; simpl in *; [simplify_eq; lia |].
  specialize (IH (f ∘ S) t Hl). simpl in IH. lia.
Qed.

Lemma total_ge {A} (f : nat → A → nat) ths t th : ths !! t = Some th → (f t th ≤ total f ths)%nat.
Proof.
  unfold total. revert f t. induction ths as [| x ths IH]; intros f t Hl; [done |].
  destruct t as [| t]; simpl in *; [simplify_eq; lia |].
  specialize (IH (f ∘ S) t Hl). simpl in IH. lia.
Qed.

Lemma total_ge_two {A} (f : nat → A → nat) ths t u th uh :
  t ≠ u → ths !! t = Some th → ths !! u = Some uh → (f t th + f u uh ≤ total f ths)%nat.
Proof.
  unfold total. revert f t u. induction ths as [| x ths IH]; intros f t u Hne Ht Hu; [done |].
  destruct t as [| t], u as [| u]; simpl in *; simplify_eq.
  - pose proof (total_ge (f ∘ S) ths u uh Hu) as H. unfold total in H. simpl in H. lia.
  - pose proof (total_ge (f ∘ S) ths t th Ht) as H. unfold total in H. simpl in H. lia.
  - specialize (IH (f ∘ S) t u). simpl in IH. assert (t ≠ u) by congruence. specialize (IH ltac:(done) Ht Hu). lia.
Qed.

Lemma total_mono {A} (f g : nat → A → nat) ths :
  (∀ t th, ths !! t = Some th → f t th ≤ g t th)%nat → (total f ths ≤ total g ths)%nat.
Proof.
  unfold total. revert f g. induction ths as [| x ths IH]; intros f g H; [done |]. simpl.
  pose proof (H 0%nat x eq_refl). specialize (IH (f ∘ S) (g ∘ S) (λ t, H (S t))). lia.
Qed.

Lemma total_zero {A} (ths : list A) : total (λ _ _, 0%nat) ths = 0%nat.
Proof. unfold total. induction ths as [| x ths IH]; [done |]. exact IH. Qed.

Lemma total_replicate {A} (f : nat → A → nat) n th : (∀ t, f t th = 0%nat) → total f (replicate n th) = 0%nat.
Proof.
  unfold total. revert f. induction n as [| n IH]; intros f H; [done |]. simpl.
  rewrite H, IH; [done |]. intros t. apply H.
Qed.

Lemma total_bound {A} (f : nat → A → nat) ths c :
  (∀ t th, ths !! t = Some th → f t th ≤ c)%nat → (total f ths ≤ length ths * c)%nat.
Proof.
  unfold total. revert f. induction ths as [| x ths IH]; intros f H; [done |]. simpl.
  pose proof (H 0%nat x eq_refl). specialize (IH (f ∘ S) (λ t, H (S t))). lia.
Qed.
