(* ===== verification/WordSearch.v ===== *)
(** * What project 1 has to compute

    The word-search protocol served by both solutions of project 1: a set of
    words is maintained by the commands [A] and [D], and a query [Q] prints the
    words of the set that occur in the query string, ordered by the position
    of their first occurrence (shorter words first on a tie), separated by
    ["|"], or ["-1"] when there is none.  This file is the specification; the
    KMP and the Aho-Corasick solutions refine it. *)

From S2P Require Import Prelude.

(** ** Lexicographic order of [std::string] *)

Fixpoint str_le (s t : str) : Prop :=
  match s, t with
  | [], _ => True
  | _ :: _, [] => False
  | c :: s, d :: t => c < d ∨ (c = d ∧ str_le s t)
  end.

#[global] Instance str_le_dec : RelDecision str_le.
Proof.
  intros s. unfold Decision. induction s as [| c s IH]; intros [| d t]; simpl.
  - left; exact I.
  - left; exact I.
  - right; intros [].
  - pose (IH t : Decision (str_le s t)).
    exact (_ : Decision (c < d ∨ (c = d ∧ str_le s t))).
Defined.

#[global] Instance str_le_trans : Transitive str_le.
Proof.
  intros s. induction s as [| c s IH]; intros [| d t] [| e u]; simpl; try done.
  intros [? | [-> ?]] [? | [-> ?]]; first [left; lia | right; eauto].
Qed.

#[global] Instance str_le_total : Total str_le.
Proof.
  intros s. induction s as [| c s IH]; intros [| d t]; simpl; auto.
  destruct (Z.lt_trichotomy c d) as [? | [-> | ?]]; auto.
  destruct (IH t); auto.
Qed.

#[global] Instance str_le_antisym : AntiSymm (=) str_le.
Proof.
  intros s. induction s as [| c s IH]; intros [| d t]; simpl; try done.
  intros [? | [-> ?]] [? | [? ?]]; try lia. f_equal. by apply IH.
Qed.

#[global] Instance str_le_refl : Reflexive str_le.
Proof. intros s. destruct (str_le_total s s); done. Qed.

Lemma str_le_prefix (s t : str) : s `prefix_of` t → str_le s t.
Proof.
  intros [k ->]. induction s as [| c s IH]; simpl; auto.
Qed.

(** Iteration over a [std::set<string>] is in increasing order. *)
Definition set_iter (s : gset str) : list str := merge_sort str_le (elements s).

Lemma set_iter_perm s : set_iter s ≡ₚ elements s.
Proof. apply merge_sort_Permutation. Qed.

Lemma elem_of_set_iter s w : w ∈ set_iter s ↔ w ∈ s.
Proof. rewrite set_iter_perm. apply elem_of_elements. Qed.

Lemma NoDup_set_iter s : NoDup (set_iter s).
Proof. rewrite set_iter_perm. apply NoDup_elements. Qed.

(** ** Occurrences *)

(** The word [w] occurs in [s] at position [i]. *)
Definition occurs_at (w s : str) (i : nat) : Prop :=
  ∀ k, (k < length w)%nat → s !! (i + k)%nat = w !! k.

Definition occurs_atb (w s : str) (i : nat) : bool :=
  bool_decide (take (length w) (drop i s) = w).

Lemma occurs_atb_spec w s i : occurs_atb w s i ↔ occurs_at w s i.
Proof.
  unfold occurs_atb, occurs_at. rewrite bool_decide_spec. split.
  - intros H k Hk. trans (take (length w) (drop i s) !! k); [| by rewrite H].
    rewrite lookup_take_lt by done. by rewrite lookup_drop.
  - intros H. apply list_eq. intros k.
    destruct (decide (k < length w)%nat) as [Hk | Hk].
    + rewrite lookup_take_lt by done. rewrite lookup_drop. by apply H.
    + rewrite lookup_take_ge by lia. symmetry. apply lookup_ge_None. lia.
Qed.

(** The position of the first occurrence, by naive search. *)
Fixpoint search_from (w s : str) (n i : nat) : option nat :=
  match n with
  | O => None
  | S n => if occurs_atb w s i then Some i else search_from w s n (S i)
  end.

Definition first_pos (w s : str) : option nat := search_from w s (length s) 0.

Lemma search_from_Some w s n i j :
  search_from w s n i = Some j →
  (i ≤ j)%nat ∧ occurs_at w s j ∧ ∀ k, (i ≤ k < j)%nat → ¬ occurs_at w s k.
Proof.
  revert i. induction n as [| n IH]; intros i; simpl; [done |].
  destruct (occurs_atb w s i) eqn:E.
  - intros [= <-]. split; [lia |]. split; [by apply occurs_atb_spec; rewrite E | lia].
  - intros H. apply IH in H as (Hle & Ho & Hn). split; [lia |]. split; [done |].
    intros k Hk. destruct (decide (k = i)) as [-> | Hne].
    + rewrite <- occurs_atb_spec, E. by intros [].
    + apply Hn. lia.
Qed.

Lemma search_from_None w s n i :
  search_from w s n i = None → ∀ k, (i ≤ k < i + n)%nat → ¬ occurs_at w s k.
Proof.
  revert i. induction n as [| n IH]; intros i; simpl; [lia |].
  destruct (occurs_atb w s i) eqn:E; [done |].
  intros H k Hk. destruct (decide (k = i)) as [-> | Hne].
  - rewrite <- occurs_atb_spec, E. by intros [].
  - apply (IH (S i)); [done | lia].
Qed.

Lemma occurs_at_bound w s i :
  w ≠ [] → occurs_at w s i → (i + length w ≤ length s)%nat.
Proof.
  intros Hw H. destruct w as [| c w]; [done |].
  specialize (H (length w)). simpl in *.
  destruct (lookup_lt_is_Some_2 (c :: w) (length w)) as [x Hx]; [simpl; lia |].
  rewrite Hx in H. apply (lookup_lt_Some s (i + length w) x) in H; lia.
Qed.

Lemma first_pos_Some w s i :
  w ≠ [] →
  first_pos w s = Some i ↔
  occurs_at w s i ∧ ∀ k, (k < i)%nat → ¬ occurs_at w s k.
Proof.
  intros Hw. unfold first_pos. split.
  - intros H. apply search_from_Some in H as (_ & ? & Hn). split; [done |].
    intros k Hk. apply Hn. lia.
  - intros [Ho Hn]. destruct (search_from w s (length s) 0) as [j |] eqn:E.
    + apply search_from_Some in E as (_ & Hoj & Hnj).
      destruct (Nat.lt_trichotomy i j) as [? | [-> | ?]]; [| done |].
      * exfalso. apply (Hnj i); [lia | done].
      * exfalso. by apply (Hn j).
    + exfalso. apply (search_from_None _ _ _ _ E i); [| done].
      pose proof (occurs_at_bound w s i Hw Ho).
      destruct w; [done | simpl in *; lia].
Qed.

Lemma first_pos_None w s :
  w ≠ [] → first_pos w s = None ↔ ∀ i, ¬ occurs_at w s i.
Proof.
  intros Hw. split.
  - intros H i Ho. apply (search_from_None _ _ _ _ H i); [| done].
    pose proof (occurs_at_bound w s i Hw Ho). destruct w; [done | simpl in *; lia].
  - intros H. destruct (first_pos w s) eqn:E; [| done].
    apply first_pos_Some in E as [Ho _]; [| done]. by apply H in Ho.
Qed.

(** ** Answers to a query *)

Definition found_le (a b : nat * str) : Prop :=
  (a.1 < b.1)%nat ∨ (a.1 = b.1 ∧ str_le a.2 b.2).

#[global] Instance found_le_dec : RelDecision found_le.
Proof. intros a b. unfold found_le. apply _. Defined.

#[global] Instance found_le_trans : Transitive found_le.
Proof.
  intros [i v] [j w] [k x]. unfold found_le; simpl.
  intros [? | [-> ?]] [? | [-> ?]]; [left; lia | left; lia | left; lia |].
  right. split; [done |]. by trans w.
Qed.

#[global] Instance found_le_total : Total found_le.
Proof.
  intros [i v] [j w]. unfold found_le; simpl.
  destruct (Nat.lt_trichotomy i j) as [? | [-> | ?]]; auto.
  destruct (str_le_total v w); auto.
Qed.

#[global] Instance found_le_antisym : AntiSymm (=) found_le.
Proof.
  intros [i v] [j w]. unfold found_le; simpl.
  intros [? | [-> ?]] [? | [? ?]]; try lia. f_equal. by apply (anti_symm str_le).
Qed.

(** The words found, each with the position of its first occurrence. *)
Definition found (ws : list str) (q : str) : list (nat * str) :=
  omap (λ w, (λ i, (i, w)) <$> first_pos w q) ws.

Definition answer (live : gset str) (q : str) : list str :=
  snd <$> merge_sort found_le (found (elements live) q).

Lemma elem_of_found ws q i w :
  (i, w) ∈ found ws q ↔ w ∈ ws ∧ first_pos w q = Some i.
Proof.
  unfold found. rewrite list_elem_of_omap. split.
  - intros (v & Hv & H). destruct (first_pos v q) eqn:E; simpl in H; simplify_eq. done.
  - intros [Hw H]. exists w. by rewrite H.
Qed.

Lemma NoDup_found ws q : NoDup ws → NoDup (found ws q).
Proof.
  induction 1 as [| w ws Hw Hnd IH]; [constructor |]. unfold found. simpl.
  destruct (first_pos w q) as [i |] eqn:E; simpl; [| done].
  constructor; [| done]. intros [Hin _]%elem_of_found. done.
Qed.

(** The answer is the only sorted enumeration of the words found. *)
Lemma answer_unique live q l :
  StronglySorted found_le l → NoDup l →
  (∀ i w, (i, w) ∈ l ↔ w ∈ live ∧ first_pos w q = Some i) →
  answer live q = snd <$> l.
Proof.
  intros Hs Hnd Hl. unfold answer. f_equal.
  apply (StronglySorted_unique found_le); [apply StronglySorted_merge_sort; apply _ | done |].
  rewrite merge_sort_Permutation. apply NoDup_Permutation.
  - apply NoDup_found, NoDup_elements.
  - done.
  - intros [i w]. rewrite elem_of_found, Hl. by rewrite elem_of_elements.
Qed.

(** ["|"], [newline] and ["-1"]. *)
Definition bar : Z := 124.
Definition newline : Z := 10.
Definition minus_one : str := [45; 49].

Fixpoint join_bar (l : list str) : str :=
  match l with
  | [] => []
  | [w] => w
  | w :: l => w ++ bar :: join_bar l
  end.

(** The line printed for an answer. *)
Definition render (ans : list str) : str :=
  match ans with
  | [] => minus_one ++ [newline]
  | _ => join_bar ans ++ [newline]
  end.

(** ** The protocol

    A command is the letter read by [cin >> cmd] and the rest of its line. *)

Definition cmd_Q : Z := 81.
Definition cmd_A : Z := 65.
Definition cmd_D : Z := 68.

Definition command : Type := Z * str.

Definition spec_step (live : gset str) (c : command) : gset str * list str :=
  if bool_decide (c.1 = cmd_Q) then (live, [render (answer live c.2)])
  else if bool_decide (c.1 = cmd_A) then ({[c.2]} ∪ live, [])
  else if bool_decide (c.1 = cmd_D) then (live ∖ {[c.2]}, [])
  else (live, []).

Fixpoint spec_run (live : gset str) (cs : list command) : list str :=
  match cs with
  | [] => []
  | c :: cs => let '(live', out) := spec_step live c in out ++ spec_run live' cs
  end.
