(* ===== verification/Kmp.v ===== *)
(** * The multi-threaded KMP solution of project 1
    (src/project1/kmp_solution/ref_solution.cpp) *)

From S2P Require Import Prelude WordSearch.

(** ** The failure function and the matcher *)

(** [while (j > 0 && t[i] != p[j]) j = pi[j-1];], the loop shared by [getPi]
    (where [t] is [p]) and [kmp] (where [t] is the query). *)
Fixpoint fall_back (fuel : nat) (t p : str) (pi : list Z) (i j : Z) : outcome Z :=
  match fuel with
  | O => NoFuel
  | S fuel =>
      if bool_decide (j > 0) then
        ti ← char_at t i;
        pj ← char_at p j;
        if bool_decide (ti ≠ pj) then
          j' ← pi.[j - 1];
          fall_back fuel t p pi i j'
        else Ret j
      else Ret j
  end.

(** The [for] loop of [getPi]; [n] counts the iterations left. *)
Fixpoint getPi_loop (n : nat) (p : str) (i j : Z) (pi : list Z) : outcome (list Z) :=
  match n with
  | O => Ret pi
  | S n =>
      j ← fall_back (S (Z.to_nat j)) p p pi i j;
      ci ← char_at p i;
      cj ← char_at p j;
      if bool_decide (ci = cj) then
        pi' ← pi.[i := j + 1];
        getPi_loop n p (i + 1) (j + 1) pi'
      else getPi_loop n p (i + 1) j pi
  end.

Definition getPi (p : str) : outcome (list Z) :=
  let m := length p in
  getPi_loop (m - 1) p 1 0 (replicate m 0).

(** The [for] loop of [kmp]: the position that [result[word]] receives. *)
Fixpoint kmp_loop (n : nat) (input word : str) (pi : list Z) (i j : Z) : outcome Z :=
  match n with
  | O => Ret (-1)
  | S n =>
      let m := Z.of_nat (length word) in
      j ← fall_back (S (Z.to_nat j)) input word pi i j;
      ci ← char_at input i;
      cj ← char_at word j;
      if bool_decide (ci = cj) then
        if bool_decide (j = m - 1) then Ret (i - m + 1)
        else kmp_loop n input word pi (i + 1) (j + 1)
      else kmp_loop n input word pi (i + 1) j
  end.

(** One [kmp] thread: it stores one entry of [result] under the mutex. *)
Definition kmp (input word : str) (result : gmap str Z) : outcome (gmap str Z) :=
  pi ← getPi word;
  pos ← kmp_loop (length input) input word pi 0 0;
  Ret (<[word := pos]> result).

(** ** Prefixes of the pattern that end at a position *)

(** The prefix of [p] of length [b] is a suffix of the first [i] characters
    of [t]. *)
Definition ends_at (t p : str) (i b : nat) : Prop :=
  (b ≤ i)%nat ∧ ∀ k, (k < b)%nat → t !! (i - b + k)%nat = p !! k.

(** [v] is the length of the longest proper border of the first [k]
    characters of [p]. *)
Definition longest_border (p : str) (k v : nat) : Prop :=
  (v < k)%nat ∧ ends_at p p k v ∧
  ∀ b, (b < k)%nat → ends_at p p k b → (b ≤ v)%nat.

(** The first [n] entries of the failure table are right. *)
Definition pi_ok (p : str) (pi : list Z) (n : nat) : Prop :=
  ∀ k, (k < n)%nat → ∃ v, pi !! k = Some (Z.of_nat v) ∧ longest_border p (S k) v.

Section ends_at.
Implicit Types t p : str.
Implicit Types i j b : nat.

Lemma ends_at_0 t p i : ends_at t p i 0.
Proof. split; lia. Qed.

Lemma ends_at_S t p i b :
  ends_at t p (S i) (S b) ↔ ends_at t p i b ∧ t !! i = p !! b.
Proof.
  unfold ends_at. split.
  - intros [Hb H]. split; [split; [lia |] |].
    + intros k Hk. rewrite <- H by lia. f_equal; lia.
    + rewrite <- (H b) by lia. f_equal; lia.
  - intros [[Hb H] Hi]. split; [lia |]. intros k Hk.
    destruct (decide (k = b)) as [-> | Hne].
    + rewrite <- Hi. f_equal; lia.
    + rewrite <- H by lia. f_equal; lia.
Qed.

(** A shorter match inside a longer one is a border of the longer one, and
    conversely. *)
Lemma ends_at_border t p i j b :
  ends_at t p i j → (b ≤ j)%nat → ends_at t p i b ↔ ends_at p p j b.
Proof.
  intros [Hj H] Hb. unfold ends_at. split; intros [_ Hb']; (split; [lia |]);
    intros k Hk; rewrite <- (Hb' k) by lia;
    rewrite <- (H (j - b + k)%nat) by lia; f_equal; lia.
Qed.

End ends_at.

(** ** The two loops *)

(** The fall-back loop returns, within [j + 1] rounds, the longest prefix of
    length at most [j] that can be extended by [t[i]], or 0. *)
Lemma fall_back_spec t p pi n i (lim : nat) fuel j :
  (i < length t)%nat → (j < length p)%nat → pi_ok p pi n → (j ≤ n)%nat →
  ends_at t p i j →
  (∀ b, (b < lim)%nat → ends_at t p i b → t !! i = p !! b → (b ≤ j)%nat) →
  (j < fuel)%nat →
  ∃ j', fall_back fuel t p pi (Z.of_nat i) (Z.of_nat j) = Ret (Z.of_nat j') ∧
    (j' ≤ j)%nat ∧ ends_at t p i j' ∧ (t !! i = p !! j' ∨ j' = 0%nat) ∧
    (∀ b, (b < lim)%nat → ends_at t p i b → t !! i = p !! b → (b ≤ j')%nat).
Proof.
  intros Hi Hj Hpi Hn He Hmax Hfuel.
  revert j Hj Hn He Hmax Hfuel. induction fuel as [| fuel IH]; [lia |].
  intros j Hj Hn He Hmax Hfuel. simpl.
  destruct (bool_decide_reflect (Z.of_nat j > 0)) as [Hpos | Hzero]; cycle 1.
  { exists j. repeat split; try apply He; auto. right; lia. }
  destruct (lookup_lt_is_Some_2 t i Hi) as [ti Hti].
  destruct (lookup_lt_is_Some_2 p j Hj) as [pj Hpj].
  rewrite (char_at_nat _ _ _ Hti), (char_at_nat _ _ _ Hpj). simpl.
  destruct (bool_decide_reflect (ti ≠ pj)) as [Hne | Heq]; cycle 1.
  { exists j. repeat split; try apply He; auto. left. rewrite Hti, Hpj.
    destruct (decide (ti = pj)); [by f_equal | tauto]. }
  destruct (Hpi (j - 1)%nat) as (v & Hv & Hvlt & Hve & Hvmax); [lia |].
  replace (S (j - 1)) with j in * by lia.
  replace (Z.of_nat j - 1) with (Z.of_nat (j - 1)) by lia.
  rewrite (vget_nat _ _ _ Hv). simpl.
  edestruct (IH v) as (j' & -> & Hj' & Hrest); try lia.
  - by apply (ends_at_border t p i j v He); [lia |].
  - intros b Hb Hbe Hbc.
    assert (b ≤ j)%nat as Hbj by auto.
    assert (b ≠ j) by congruence.
    apply Hvmax; [lia |]. by apply (ends_at_border t p i j b He).
  - exists j'. split; [done |]. split; [lia | done].
Qed.

(** After one more round the longest match is the extended one, or empty. *)
Lemma longest_step t p i (lim : nat) j :
  ends_at t p i j → (t !! i = p !! j ∨ j = 0%nat) →
  (∀ b, (b < lim)%nat → ends_at t p i b → t !! i = p !! b → (b ≤ j)%nat) →
  ∀ b, (b < S lim)%nat → ends_at t p (S i) b →
    (b ≤ if decide (t !! i = p !! j) then S j else 0)%nat.
Proof.
  intros He Hor Hmax [| b] Hb Hbe; [lia |].
  apply ends_at_S in Hbe as [Hbe Hbc].
  assert (b ≤ j)%nat as Hbj by (apply Hmax; auto; lia).
  case_decide as Hd; [lia |].
  destruct Hor as [? | ->]; [done |]. replace b with 0%nat in Hbc by lia. done.
Qed.

Lemma getPi_loop_spec p n i j pi :
  (i + n = length p)%nat → (0 < i)%nat → length pi = length p →
  pi_ok p pi i → longest_border p i j →
  (∀ k, (i ≤ k < length p)%nat → pi !! k = Some 0) →
  ∃ pi', getPi_loop n p (Z.of_nat i) (Z.of_nat j) pi = Ret pi' ∧
    length pi' = length p ∧ pi_ok p pi' (length p).
Proof.
  revert i j pi. induction n as [| n IH]; intros i j pi Hin Hi Hlen Hok Hlb Hz.
  { simpl. exists pi. split; [done |]. split; [done |]. by replace (length p) with i by lia. }
  cbn [getPi_loop]. destruct Hlb as (Hj & Hje & Hjmax).
  destruct (fall_back_spec p p pi i i i (S (Z.to_nat (Z.of_nat j))) j)
    as (j' & -> & Hj' & Hje' & Hor & Hmax); auto; try lia.
  destruct (lookup_lt_is_Some_2 p i) as [ci Hci]; [lia |].
  destruct (lookup_lt_is_Some_2 p j') as [cj Hcj]; [lia |].
  obind. rewrite (char_at_nat _ _ _ Hci), (char_at_nat _ _ _ Hcj). obind.
  pose proof (longest_step p p i i j' Hje' Hor Hmax) as Hnext.
  rewrite Hci, Hcj in Hnext.
  destruct (bool_decide_reflect (ci = cj)) as [<- | Hne].
  - rewrite decide_True in Hnext by done.
    rewrite vset_nat by lia. obind.
    assert (longest_border p (S i) (S j')) as Hlb.
    { split; [lia |]. split; [| done]. apply ends_at_S. split; [done | congruence]. }
    replace (Z.of_nat i + 1) with (Z.of_nat (S i)) by lia.
    replace (Z.of_nat j' + 1) with (Z.of_nat (S j')) by lia.
    apply IH; auto; try lia.
    + by rewrite length_insert.
    + intros k Hk. destruct (decide (k = i)) as [-> | Hki].
      * exists (S j'). rewrite list_lookup_insert_eq by lia. done.
      * rewrite list_lookup_insert_ne by done. apply Hok. lia.
    + intros k Hk. rewrite list_lookup_insert_ne by lia. apply Hz. lia.
  - rewrite decide_False in Hnext by congruence.
    destruct Hor as [Heq | ->]; [congruence |].
    assert (longest_border p (S i) 0) as Hlb.
    { split; [lia |]. split; [apply ends_at_0 | done]. }
    replace (Z.of_nat i + 1) with (Z.of_nat (S i)) by lia.
    apply IH; auto; try lia.
    + intros k Hk. destruct (decide (k = i)) as [-> | Hki].
      * exists 0%nat. rewrite Hz by lia. done.
      * apply Hok. lia.
    + intros k Hk. apply Hz. lia.
Qed.

Lemma getPi_ok p :
  ∃ pi, getPi p = Ret pi ∧ length pi = length p ∧ pi_ok p pi (length p).
Proof.
  unfold getPi. destruct p as [| c p].
  { simpl. exists []. repeat split; try done. intros k Hk. simpl in Hk. lia. }
  apply (getPi_loop_spec (c :: p) (length (c :: p) - 1) 1 0); simpl; try lia.
  - by rewrite length_replicate.
  - intros k Hk. assert (k = 0%nat) as -> by lia. exists 0%nat.
    split; [done |]. split; [lia |]. split; [apply ends_at_0 |]. lia.
  - split; [lia |]. split; [apply ends_at_0 |]. lia.
  - intros k Hk. apply (lookup_replicate_2 (S (length p))). lia.
Qed.

(** The position stored for a word: that of its first occurrence, or -1. *)
Definition pos_of (w q : str) : Z :=
  match first_pos w q with Some i => Z.of_nat i | None => -1 end.

Lemma occurs_ends_at w q st :
  occurs_at w q st ↔ ends_at q w (st + length w) (length w).
Proof.
  unfold occurs_at, ends_at. split.
  - intros H. split; [lia |]. intros k Hk. rewrite <- H by done. f_equal; lia.
  - intros [_ H] k Hk. rewrite <- H by done. f_equal; lia.
Qed.

Lemma kmp_loop_spec input word pi n i j :
  word ≠ [] → (i + n = length input)%nat → (j < length word)%nat →
  pi_ok word pi (length word) → ends_at input word i j →
  (∀ b, (b < length word)%nat → ends_at input word i b → (b ≤ j)%nat) →
  (∀ st, (st + length word ≤ i)%nat → ¬ occurs_at word input st) →
  kmp_loop n input word pi (Z.of_nat i) (Z.of_nat j) = Ret (pos_of word input).
Proof.
  intros Hw. revert i j. induction n as [| n IH]; intros i j Hin Hj Hok Hje Hjmax Hno.
  { cbn [kmp_loop]. f_equal. unfold pos_of.
    destruct (first_pos word input) as [st |] eqn:E; [| done].
    apply first_pos_Some in E as [Ho _]; [| done].
    exfalso. apply (Hno st); [| done].
    pose proof (occurs_at_bound _ _ _ Hw Ho). lia. }
  cbn [kmp_loop].
  destruct (fall_back_spec input word pi (length word) i (length word)
              (S (Z.to_nat (Z.of_nat j))) j)
    as (j' & -> & Hj' & Hje' & Hor & Hmax); auto; try lia.
  destruct (lookup_lt_is_Some_2 input i) as [ci Hci]; [lia |].
  destruct (lookup_lt_is_Some_2 word j') as [cj Hcj]; [lia |].
  obind. rewrite (char_at_nat _ _ _ Hci), (char_at_nat _ _ _ Hcj). obind.
  pose proof (longest_step input word i (length word) j' Hje' Hor Hmax) as Hnext.
  rewrite Hci, Hcj in Hnext.
  assert (∀ jn, (∀ b, (b < S (length word))%nat → ends_at input word (S i) b → (b ≤ jn)%nat) →
     (jn < length word)%nat →
     ∀ st, (st + length word ≤ S i)%nat → ¬ occurs_at word input st) as Hno'.
  { intros jn Hjn Hlt st Hst Ho. destruct (decide (st + length word ≤ i)%nat).
    - by apply (Hno st).
    - apply occurs_ends_at in Ho. replace (st + length word)%nat with (S i) in Ho by lia.
      apply Hjn in Ho; lia. }
  replace (Z.of_nat i + 1) with (Z.of_nat (S i)) by lia.
  replace (Z.of_nat j' + 1) with (Z.of_nat (S j')) by lia.
  destruct (bool_decide_reflect (ci = cj)) as [<- | Hne].
  - rewrite decide_True in Hnext by done.
    assert (ends_at input word (S i) (S j')) as He
      by (apply ends_at_S; split; [done | congruence]).
    destruct (bool_decide_reflect (Z.of_nat j' = Z.of_nat (length word) - 1)) as [Hlast | Hmore].
    + assert (occurs_at word input (S i - length word)) as Ho.
      { apply occurs_ends_at. replace (S j') with (length word) in He by lia.
        destruct He as [Hle He]. replace (S i - length word + length word)%nat with (S i) by lia.
        by split. }
      assert (first_pos word input = Some (S i - length word)%nat) as E.
      { apply first_pos_Some; [done |]. split; [done |]. intros k Hk. apply Hno. lia. }
      unfold pos_of. rewrite E. f_equal. destruct He as [Hle _]. lia.
    + apply IH; auto; try lia. apply (Hno' (S j')); [done | lia].
  - rewrite decide_False in Hnext by congruence.
    destruct Hor as [Heq | ->]; [congruence |].
    apply IH; auto; try lia.
    + apply ends_at_0.
    + apply (Hno' 0%nat); [done | lia].
Qed.

Lemma kmp_spec input word r :
  word ≠ [] → kmp input word r = Ret (<[word := pos_of word input]> r).
Proof.
  intros Hw. unfold kmp. destruct (getPi_ok word) as (pi & -> & Hlen & Hok). obind.
  change 0 with (Z.of_nat 0).
  rewrite kmp_loop_spec; auto; try done.
  - destruct word; [done | simpl; lia].
  - apply ends_at_0.
  - intros b Hb [Hb0 _]. lia.
  - intros st Hst. destruct word; [done | simpl in *; lia].
Qed.

(** ** Serving a query *)

(** The inner [for]: at most 47 threads are started before they are joined. *)
Definition batch_size : nat := 47.

Fixpoint batches (fuel : nat) (ws : list str) : list (list str) :=
  match fuel, ws with
  | O, _ | _, [] => []
  | S fuel, _ => take batch_size ws :: batches fuel (drop batch_size ws)
  end.

(** The threads of a batch store their results in some order. *)
Fixpoint run_threads (input : str) (order : list str) (r : gmap str Z) : outcome (gmap str Z) :=
  match order with
  | [] => Ret r
  | w :: order => r ← kmp input w r; run_threads input order r
  end.

(** Every interleaving of the batches: within a batch the critical sections of
    the threads run in any order; a batch is joined before the next starts. *)
Inductive query_threads (input : str) :
  list (list str) → gmap str Z → gmap str Z → Prop :=
| qt_done r : query_threads input [] r r
| qt_batch b order bs r r' r'' :
    order ≡ₚ b → run_threads input order r = Ret r' →
    query_threads input bs r' r'' → query_threads input (b :: bs) r r''.

(** The comparison handed to [std::sort]. *)
Definition str_lt (s t : str) : Prop := str_le s t ∧ s ≠ t.

Definition cmp (a b : str * Z) : Prop :=
  if decide (a.2 ≠ b.2) then a.2 < b.2 else str_lt a.1 b.1.

#[global] Instance cmp_dec : RelDecision cmp.
Proof. intros a b. unfold cmp, str_lt. destruct (decide (a.2 ≠ b.2)); apply _. Defined.

(** [a] may precede [b] in the sorted vector. *)
Definition not_after (a b : str * Z) : Prop := ¬ cmp b a.

#[global] Instance not_after_dec : RelDecision not_after.
Proof. intros a b. unfold not_after. apply _. Defined.

(** The printing loop: [cnt != 1] holds unless the entry is the last one. *)
Fixpoint print_loop (v : list (str * Z)) (find : bool) (out : str) : bool * str :=
  match v with
  | [] => (find, out)
  | (w, pos) :: v =>
      if bool_decide (pos ≠ -1) then
        print_loop v true (out ++ w ++ match v with [] => [] | _ => [bar] end)
      else print_loop v find out
  end.

Definition print_result (result : gmap str Z) : str :=
  let '(find, out) := print_loop (merge_sort not_after (map_to_list result)) false [] in
  (if find then out else out ++ minus_one) ++ [newline].

(** One round of the [while] loop of [main] ([result] is empty between rounds). *)
Inductive kmp_step (word_list : gset str) : command → gset str → list str → Prop :=
| kmp_Q buf result :
    query_threads buf (batches (size word_list) (set_iter word_list)) ∅ result →
    kmp_step word_list (cmd_Q, buf) word_list [print_result result]
| kmp_A buf : kmp_step word_list (cmd_A, buf) ({[buf]} ∪ word_list) []
| kmp_D buf : kmp_step word_list (cmd_D, buf) (word_list ∖ {[buf]}) []
| kmp_other c buf :
    c ≠ cmd_Q → c ≠ cmd_A → c ≠ cmd_D → kmp_step word_list (c, buf) word_list [].

Inductive kmp_rounds : gset str → list command → list str → Prop :=
| kr_eof wl : kmp_rounds wl [] []
| kr_cmd wl c wl' out cs outs :
    kmp_step wl c wl' out → kmp_rounds wl' cs outs → kmp_rounds wl (c :: cs) (out ++ outs).

(** [main]: the initial words, the line ["R"], then the commands. *)
Definition ready : str := [82; newline].

Definition kmp_main (init : list str) (cs : list command) (outs : list str) : Prop :=
  ∃ outs', kmp_rounds (list_to_set init) cs outs' ∧ outs = ready :: outs'.

(** ** The query prints the answer *)

Lemma batches_concat fuel ws : (length ws ≤ fuel)%nat → concat (batches fuel ws) = ws.
Proof.
  revert ws. induction fuel as [| fuel IH]; intros [| w ws] H; simpl in H; try done; [lia |].
  cbn [batches concat]. rewrite IH.
  - apply take_drop.
  - rewrite length_drop. simpl. lia.
Qed.

Definition expected (input : str) (ws : list str) (r : gmap str Z) : gmap str Z :=
  foldr (λ w, <[w := pos_of w input]>) r ws.

Lemma lookup_expected input ws r w :
  expected input ws r !! w = if decide (w ∈ ws) then Some (pos_of w input) else r !! w.
Proof.
  induction ws as [| v ws IH]; simpl; [done |].
  destruct (decide (v = w)) as [-> | Hne].
  - rewrite lookup_insert_eq. by rewrite decide_True by left.
  - rewrite lookup_insert_ne, IH by done.
    destruct (decide (w ∈ ws)), (decide (w ∈ v :: ws)); try done; set_solver.
Qed.

Lemma run_threads_spec input order r r' :
  [] ∉ order → run_threads input order r = Ret r' → r' = expected input order r.
Proof.
  revert r. induction order as [| w order IH]; intros r Hne; simpl; [by intros [= ->] |].
  rewrite kmp_spec by set_solver. obind. intros ->%IH; [| set_solver].
  apply map_eq. intros k. rewrite !lookup_expected, lookup_insert.
  rewrite lookup_insert, lookup_expected. repeat case_decide; simplify_eq; done.
Qed.

Lemma run_threads_total input order r :
  [] ∉ order → ∃ r', run_threads input order r = Ret r'.
Proof.
  revert r. induction order as [| w order IH]; intros r Hne; simpl; [eauto |].
  rewrite kmp_spec by set_solver. obind. apply IH. set_solver.
Qed.

Lemma query_threads_spec input bs r r' :
  [] ∉ concat bs → query_threads input bs r r' → r' = expected input (concat bs) r.
Proof.
  intros Hne Hq. induction Hq as [r | b order bs r r' r'' Hp Hrun Hq IH]; [done |].
  simpl in Hne. apply run_threads_spec in Hrun; [| rewrite Hp; set_solver]. subst r'.
  rewrite IH by set_solver. apply map_eq. intros k. simpl.
  rewrite !lookup_expected. assert (k ∈ order ↔ k ∈ b) as Hk by (by rewrite Hp).
  pose proof (elem_of_app b (concat bs) k). repeat case_decide; set_solver.
Qed.

Lemma query_threads_total input bs r :
  [] ∉ concat bs → ∃ r', query_threads input bs r r'.
Proof.
  revert r. induction bs as [| b bs IH]; intros r Hne; [eexists; constructor |].
  simpl in Hne. destruct (run_threads_total input b r) as [r' Hr]; [set_solver |].
  destruct (IH r') as [r'' Hq]; [set_solver |].
  exists r''. by econstructor.
Qed.

Lemma not_after_pos a b : not_after a b → a.2 ≤ b.2.
Proof. unfold not_after, cmp. intros H. destruct (decide (b.2 ≠ a.2)); lia. Qed.

Lemma not_after_str a b : not_after a b → a.2 = b.2 → str_le a.1 b.1.
Proof.
  unfold not_after, cmp, str_lt. intros H Heq.
  rewrite decide_False in H by congruence.
  destruct (str_le_total a.1 b.1) as [? | Hle]; [done |].
  destruct (decide (b.1 = a.1)) as [-> | Hne]; [done |]. tauto.
Qed.

#[local] Instance not_after_total : Total not_after.
Proof.
  intros a b. unfold not_after. destruct (decide (cmp b a)) as [H | H]; [right | by left].
  unfold cmp, str_lt in *. intros H'.
  destruct (decide (b.2 ≠ a.2)), (decide (a.2 ≠ b.2)); try lia.
  destruct H as [Hle Hne], H' as [Hle' _]. apply Hne. by apply (anti_symm str_le).
Qed.

#[local] Instance not_after_trans : Transitive not_after.
Proof.
  intros a b c Hab Hbc.
  pose proof (not_after_pos _ _ Hab). pose proof (not_after_pos _ _ Hbc).
  unfold not_after, cmp, str_lt. intros Hca.
  destruct (decide (c.2 ≠ a.2)) as [? | Heq]; [lia |].
  destruct Hca as [Hca Hne]. apply Hne. apply (anti_symm str_le); [done |].
  trans b.1; apply not_after_str; auto; lia.
Qed.

(** The words printed: those whose position is not -1. *)
Definition printed (v : list (str * Z)) : list str :=
  (filter (λ e, e.2 ≠ -1) v).*1.

Lemma print_loop_spec (v : list (str * Z)) find out :
  StronglySorted not_after v → Forall (λ e, -1 ≤ e.2) v →
  print_loop v find out =
  (find || negb (bool_decide (printed v = [])), out ++ join_bar (printed v)).
Proof.
  revert find out. induction v as [| [w pos] v IH]; intros find out Hs Hge; simpl.
  { by rewrite orb_false_r, app_nil_r. }
  apply StronglySorted_inv in Hs as [Hs Hall]. inversion Hge as [| ? ? Hpos Hge']; subst.
  unfold printed in *. rewrite filter_cons. simpl in *.
  destruct (bool_decide_reflect (pos ≠ -1)) as [Hp | Hp].
  - rewrite decide_True by done. rewrite IH by done. f_equal.
    { by rewrite orb_true_r. }
    destruct v as [| [w' pos'] v]; simpl; [by rewrite !app_nil_r |].
    assert (pos' ≠ -1) as Hp'.
    { inversion Hall as [| ? ? Hle]; subst. apply not_after_pos in Hle. simpl in Hle. lia. }
    rewrite filter_cons, decide_True by done. simpl. by rewrite <- !app_assoc.
  - rewrite decide_False by done. by apply IH.
Qed.

Definition to_found (e : str * Z) : option (nat * str) :=
  if decide (e.2 ≠ -1) then Some (Z.to_nat e.2, e.1) else None.

Lemma printed_found (v : list (str * Z)) : printed v = (omap to_found v).*2.
Proof.
  unfold printed, to_found. induction v as [| [w pos] v IH]; [done |].
  rewrite filter_cons. simpl. case_decide; simpl; first [f_equal; exact IH | exact IH].
Qed.

Lemma found_sorted (v : list (str * Z)) :
  StronglySorted not_after v → Forall (λ e, -1 ≤ e.2) v →
  StronglySorted found_le (omap to_found v).
Proof.
  induction v as [| e v IH]; intros Hs Hge; simpl; [constructor |].
  apply StronglySorted_inv in Hs as [Hs Hall]. inversion Hge as [| ? ? Hpos Hge']; subst.
  unfold to_found at 1. case_decide as Hp; [| by apply IH].
  constructor; [by apply IH |]. apply Forall_forall. intros [i w] Hin.
  apply list_elem_of_omap in Hin as (e' & He' & Hf).
  unfold to_found in Hf. case_decide as Hp'; simplify_eq.
  rewrite Forall_forall in Hall. specialize (Hall e' He').
  pose proof (not_after_pos _ _ Hall) as Hle. unfold found_le. simpl.
  destruct (decide (e.2 = e'.2)) as [Heq | Hne].
  - right. split; [by rewrite Heq |]. by apply not_after_str.
  - left. lia.
Qed.

Lemma set_iter_batches wl :
  concat (batches (size wl) (set_iter wl)) = set_iter wl.
Proof.
  apply batches_concat. rewrite (Permutation_length (set_iter_perm wl)). done.
Qed.

Lemma pos_of_ge w q : -1 ≤ pos_of w q.
Proof. unfold pos_of. destruct (first_pos w q); lia. Qed.

(** Whatever order the threads finish in, the line printed is the answer. *)
Lemma query_prints_answer wl buf result :
  [] ∉ wl →
  query_threads buf (batches (size wl) (set_iter wl)) ∅ result →
  print_result result = render (answer wl buf).
Proof.
  intros Hne Hq.
  apply query_threads_spec in Hq; [| rewrite set_iter_batches; by rewrite elem_of_set_iter].
  rewrite set_iter_batches in Hq.
  assert (∀ w pos, (w, pos) ∈ merge_sort not_after (map_to_list result) ↔
            w ∈ wl ∧ pos = pos_of w buf) as Hin.
  { intros w pos. rewrite merge_sort_Permutation, elem_of_map_to_list, Hq.
    rewrite lookup_expected, lookup_empty. rewrite <- elem_of_set_iter.
    case_decide; naive_solver. }
  assert (NoDup (merge_sort not_after (map_to_list result))) as Hnd
    by (rewrite merge_sort_Permutation; apply NoDup_map_to_list).
  pose proof (StronglySorted_merge_sort not_after (map_to_list result)) as Hs.
  unfold print_result. revert Hin Hnd Hs.
  generalize (merge_sort not_after (map_to_list result)). intros v Hin Hnd Hs.
  assert (Forall (λ e, -1 ≤ e.2) v) as Hge.
  { apply Forall_forall. intros [w pos] [_ ->]%Hin. apply pos_of_ge. }
  rewrite print_loop_spec by done. simpl.
  rewrite (answer_unique wl buf (omap to_found v)).
  - rewrite <- printed_found. destruct (printed v); simpl; [done |]. done.
  - by apply found_sorted.
  - apply NoDup_omap_inj; [| done].
    intros [w pos] [w' pos'] [i x] [_ Hpos]%Hin [_ Hpos']%Hin Hf Hf'.
    unfold to_found in *. simpl in *. repeat case_decide; simplify_eq. done.
  - intros i w. rewrite list_elem_of_omap. split.
    + intros ([w' pos] & [Hw ->]%Hin & Hf). unfold to_found, pos_of in Hf.
      case_decide; simplify_eq/=. split; [done |].
      destruct (first_pos w buf); [f_equal; lia | done].
    + intros [Hw E]. exists (w, pos_of w buf). split; [by apply Hin |].
      unfold to_found, pos_of. simpl. rewrite E. rewrite decide_True by lia.
      by rewrite Nat2Z.id.
Qed.

(** ** Theorems *)

(** Words are not empty: no [A] command carries an empty line. *)
Definition words_nonempty (cs : list command) : Prop :=
  Forall (λ c, c.1 = cmd_A → c.2 ≠ []) cs.

Lemma kmp_step_spec wl c wl' out :
  [] ∉ wl → kmp_step wl c wl' out → (wl', out) = spec_step wl c.
Proof.
  intros Hne Hs. destruct Hs as [buf r Hq | | | c buf HQ HA HD]; unfold spec_step; simpl; try done.
  - by rewrite (query_prints_answer wl buf r).
  - by rewrite !bool_decide_false by done.
Qed.

Lemma kmp_step_total wl c :
  [] ∉ wl → kmp_step wl c (spec_step wl c).1 (spec_step wl c).2.
Proof.
  intros Hne. destruct c as [c buf]. unfold spec_step. simpl.
  destruct (bool_decide_reflect (c = cmd_Q)) as [-> | ?]; simpl.
  { destruct (query_threads_total buf (batches (size wl) (set_iter wl)) ∅) as [r Hr].
    { rewrite set_iter_batches. by rewrite elem_of_set_iter. }
    rewrite <- (query_prints_answer wl buf r) by done. by constructor. }
  destruct (bool_decide_reflect (c = cmd_A)) as [-> | ?]; simpl; [constructor |].
  destruct (bool_decide_reflect (c = cmd_D)) as [-> | ?]; simpl; by constructor.
Qed.

Lemma spec_step_nonempty wl c :
  [] ∉ wl → (c.1 = cmd_A → c.2 ≠ []) → [] ∉ (spec_step wl c).1.
Proof. intros H Hc. unfold spec_step. repeat case_bool_decide; set_solver. Qed.

Lemma kmp_rounds_spec wl cs outs :
  [] ∉ wl → words_nonempty cs → kmp_rounds wl cs outs ↔ outs = spec_run wl cs.
Proof.
  intros Hne Hcs. revert wl outs Hne.
  induction Hcs as [| c cs Hc Hcs IH]; intros wl outs Hne; split.
  - by inversion 1.
  - intros ->. constructor.
  - inversion 1 as [| ? ? wl' out ? outs' Hs Hr]; subst. simpl.
    pose proof (spec_step_nonempty wl c Hne Hc) as Hne'.
    apply kmp_step_spec in Hs; [| done]. rewrite <- Hs in *. simpl in *. f_equal. by apply IH.
  - intros ->. simpl.
    pose proof (spec_step_nonempty wl c Hne Hc) as Hne'.
    pose proof (kmp_step_total wl c Hne) as Hs.
    destruct (spec_step wl c) as [wl' out]. econstructor; [done | by apply IH].
Qed.

(** The failure table computed by [getPi] is the prefix function of the
    pattern: for every index the loop terminates without reading out of bounds
    and stores the length of the longest proper border of that prefix. *)
Theorem getPi_prefix_function (p : str) :
  ∃ pi, getPi p = Ret pi ∧ length pi = length p ∧
    ∀ k, (k < length p)%nat →
      ∃ v, pi !! k = Some (Z.of_nat v) ∧ longest_border p (S k) v.
Proof. apply getPi_ok. Qed.

(** A [kmp] thread terminates and stores exactly the position found by
    naive search (the first occurrence, or -1) for its non-empty word. *)
Theorem kmp_is_naive_search (input word : str) (r : gmap str Z) :
  word ≠ [] → kmp input word r = Ret (<[word := pos_of word input]> r).
Proof. apply kmp_spec. Qed.

(** C33: Under every scheduling of the worker threads the program prints, for
    every command sequence without empty words, exactly the lines of the
    specification, and it always can finish. *)
Theorem kmp_main_refines_spec (init : list str) (cs : list command) (outs : list str) :
  [] ∉ init → words_nonempty cs →
  kmp_main init cs outs ↔ outs = ready :: spec_run (list_to_set init) cs.
Proof.
  intros Hne Hcs. unfold kmp_main.
  assert ([] ∉ (list_to_set init : gset str)) as Hne' by set_solver.
  split.
  - intros (outs' & Hr & ->). f_equal. by apply kmp_rounds_spec.
  - intros ->. exists (spec_run (list_to_set init) cs). split; [| done].
    by apply kmp_rounds_spec.
Qed.

(** ** Witnesses *)

(** "ab" in "aab". *)
Lemma kmp_is_naive_search_witness :
  kmp [97; 97; 98] [97; 98] ∅ = Ret {[ [97; 98] := 1 ]}.
Proof. refine (kmp_is_naive_search [97; 97; 98] [97; 98] ∅ _). discriminate. Defined.

Lemma kmp_main_refines_spec_witness :
  kmp_main [[97; 98]] [(cmd_Q, [97; 97; 98]); (cmd_A, [98]); (cmd_Q, [98])]
    [ready; [97; 98; newline]; [98; newline]].
Proof.
  apply (kmp_main_refines_spec [[97; 98]]
    [(cmd_Q, [97; 97; 98]); (cmd_A, [98]); (cmd_Q, [98])]); [set_solver | | vm_compute; reflexivity].
  repeat constructor; simpl; discriminate.
Defined.
