(* ===== verification/AhoCorasick.v ===== *)
(** * The automaton of project 1
    (src/project1/ahocorasick.h, src/project1/ahocorasick.cpp)

    The class keeps the words in insertion order and a transition table whose
    rows are the states of a trie: row [i] below [init_state] is the final
    state of word [i], row [init_state] is the root, and the rows above it are
    the inner states.  A missing edge is -1.  The numbers of states and words, which
    the code keeps in [int], are integers without a bound: the words are taken to
    have less than 2^30 characters together. *)

From S2P Require Import Prelude WordSearch.

(** ** The transition table *)

Definition MAX_ALPHA : nat := 26.
Definition char_a : Z := 97.

Definition blank_row : list Z := replicate MAX_ALPHA (-1).

(** [graph[r][k]] *)
Definition edge (g : list (list Z)) (r k : Z) : outcome Z :=
  row ← g.[r]; row.[k].

(** [graph[r][k] = v] *)
Definition set_edge (g : list (list Z)) (r k v : Z) : outcome (list (list Z)) :=
  row ← g.[r];
  row' ← row.[k := v];
  vset g r row'.

(** [swap(graph[a], graph[b])] *)
Definition swap_rows (g : list (list Z)) (a b : Z) : outcome (list (list Z)) :=
  ra ← g.[a];
  rb ← g.[b];
  g ← g.[a := rb];
  vset g b ra.

(** [v.resize(n, x)] *)
Definition resize {A} (l : list A) (n : Z) (x : A) : list A :=
  take (Z.to_nat n) l ++ replicate (Z.to_nat n - length l) x.

(** ** The class *)

Record AhoCorasick := mkAC {
  graph : list (list Z);
  words : list str;
  result : list str;
  del : gset Z;
  init_state : Z;
  patternNum : Z;
  state_num : Z;
  cur_size : Z;
  patternLen : Z
}.

(** [AhoCorasick(int patternNum, int patternLen)] *)
Definition new_AhoCorasick (patternNum patternLen : Z) : AhoCorasick := {|
  graph := resize [] (patternNum + patternLen * 2 + 1) blank_row;
  words := [];
  result := [];
  del := ∅;
  init_state := 0;
  patternNum := 0;
  state_num := 1;
  cur_size := patternNum + patternLen * 2 + 1;
  patternLen := 0
|}.

(** [AhoCorasick()] *)
Definition default_AhoCorasick : AhoCorasick := {|
  graph := resize [] 1 blank_row;
  words := [];
  result := [];
  del := ∅;
  init_state := 0;
  patternNum := 0;
  state_num := 1;
  cur_size := 1;
  patternLen := 0
|}.

(** The loop over the characters of one word in [makeGraph]; the list is what
    is left of [cur_word] from [index] on.  It returns the table, [state_num]
    and [final_state]. *)
Fixpoint insert_word (w : str) (g : list (list Z)) (cur_state state_num final_state : Z)
  : outcome (list (list Z) * Z * Z) :=
  match w with
  | [] => Ret (g, state_num, final_state)
  | c :: w' =>
      let k := c - char_a in
      e ← edge g cur_state k;
      if bool_decide (e = -1) then
        g ← set_edge g cur_state k state_num;
        if bool_decide (w' = []) then
          g ← set_edge g cur_state k final_state;
          g ← swap_rows g state_num final_state;
          insert_word w' g state_num (state_num + 1) (final_state + 1)
        else insert_word w' g state_num (state_num + 1) final_state
      else if bool_decide (w' = []) then
        next ← edge g cur_state k;
        g ← swap_rows g next final_state;
        g ← set_edge g cur_state k final_state;
        cur ← edge g cur_state k;
        insert_word w' g cur state_num (final_state + 1)
      else
        cur ← edge g cur_state k;
        insert_word w' g cur state_num final_state
  end.

(** The loop over the words in [makeGraph]. *)
Fixpoint insert_words (ws : list str) (g : list (list Z)) (init_state state_num final_state : Z)
  : outcome (list (list Z) * Z * Z) :=
  match ws with
  | [] => Ret (g, state_num, final_state)
  | w :: ws =>
      r ← insert_word w g init_state state_num final_state;
      let '(g, state_num, final_state) := r in
      insert_words ws g init_state state_num final_state
  end.

Definition makeGraph (this : AhoCorasick) : outcome AhoCorasick :=
  let init_state := Z.of_nat (length (words this)) in
  let patternNum := Z.of_nat (length (words this)) in
  let grow := bool_decide (cur_size this < patternNum + patternLen this + 1) in
  let size := if grow then patternNum + patternLen this * 2 + 1 else cur_size this in
  let g := if grow then resize (graph this) size blank_row else graph this in
  let g := (λ row : list Z, replicate (length row) (-1)) <$> g in
  r ← insert_words (words this) g init_state (init_state + 1) 0;
  let '(g, state_num, _) := r in
  Ret {| graph := g; words := words this; result := result this; del := del this;
         init_state := init_state; patternNum := patternNum; state_num := state_num;
         cur_size := size; patternLen := patternLen this |}.

Definition total_length (ws : list str) : Z := foldr (λ w n, Z.of_nat (length w) + n) 0 ws.

Definition addWord (this : AhoCorasick) (ws : list str) : outcome AhoCorasick :=
  makeGraph {| graph := graph this; words := words this ++ ws; result := result this;
               del := del this; init_state := init_state this; patternNum := patternNum this;
               state_num := state_num this; cur_size := cur_size this;
               patternLen := patternLen this + total_length ws |}.

(** The inner loop of [search]: follow edges from [cur_state] along [rest]. *)
Fixpoint search_inner (this : AhoCorasick) (rest : str) (cur_state : Z) (s : str)
    (check : gmap str bool) (result : list str) : outcome (gmap str bool * list str) :=
  match rest with
  | [] => Ret (check, result)
  | c :: rest =>
      cur_state ← edge (graph this) cur_state (c - char_a);
      let s := s ++ [c] in
      if bool_decide (cur_state = -1) then Ret (check, result)
      else if bool_decide (cur_state < init_state this) then
        let seen := default false (check !! s) in
        let check := <[s := seen]> check in
        if negb seen && bool_decide (cur_state ∉ del this) then
          search_inner this rest cur_state s (<[s := true]> check) (result ++ [s])
        else search_inner this rest cur_state s check result
      else search_inner this rest cur_state s check result
  end.

(** The outer loop: [input] is what is left from [start] on. *)
Fixpoint search_outer (this : AhoCorasick) (input : str)
    (check : gmap str bool) (result : list str) : outcome (gmap str bool * list str) :=
  match input with
  | [] => Ret (check, result)
  | _ :: rest =>
      r ← search_inner this input (init_state this) [] check result;
      let '(check, result) := r in
      search_outer this rest check result
  end.

Definition search (this : AhoCorasick) (input : str) : outcome (AhoCorasick * list str) :=
  let check := foldr (λ w m, <[w := false]> m) ∅ (words this) in
  r ← search_outer this input check [];
  let '(_, result) := r in
  Ret ({| graph := graph this; words := words this; result := result; del := del this;
          init_state := init_state this; patternNum := patternNum this;
          state_num := state_num this; cur_size := cur_size this;
          patternLen := patternLen this |}, result).

(** Indices of the words equal to [word], from index [i] on. *)
Fixpoint indices_of (word : str) (ws : list str) (i : Z) : gset Z :=
  match ws with
  | [] => ∅
  | w :: ws => (if bool_decide (w = word) then {[i]} else ∅) ∪ indices_of word ws (i + 1)
  end.

Definition deleteWord (this : AhoCorasick) (word : str) : AhoCorasick :=
  {| graph := graph this; words := words this; result := result this;
     del := del this ∪ indices_of word (words this) 0;
     init_state := init_state this; patternNum := patternNum this;
     state_num := state_num this; cur_size := cur_size this;
     patternLen := patternLen this |}.

(** "he", "she", "his", "hers"; searching "ushers". *)
Example search_ushers :
  (fsa ← addWord (new_AhoCorasick 4 12)
     [[104;101]; [115;104;101]; [104;105;115]; [104;101;114;115]];
   r ← search fsa [117;115;104;101;114;115];
   Ret r.2) = Ret [[115;104;101]; [104;101]; [104;101;114;115]].
Proof. vm_compute. reflexivity. Qed.

(** ** The table as a function *)

(** The entry of the table, -1 outside of it. *)
Definition entry (g : list (list Z)) (r k : Z) : Z :=
  match edge g r k with Ret v => v | _ => -1 end.

Definition table_wf (g : list (list Z)) : Prop := Forall (λ row, length row = MAX_ALPHA) g.

Definition row_in (g : list (list Z)) (r : Z) : Prop := 0 ≤ r < Z.of_nat (length g).
Definition letter (k : Z) : Prop := 0 ≤ k < Z.of_nat MAX_ALPHA.

Lemma vget_in {A} (l : list A) i :
  0 ≤ i < Z.of_nat (length l) → ∃ x, l !! Z.to_nat i = Some x ∧ vget l i = Ret x.
Proof.
  intros Hi. destruct (lookup_lt_is_Some_2 l (Z.to_nat i)) as [x Hx]; [lia |].
  exists x. split; [done |]. unfold vget. rewrite bool_decide_true by lia. by rewrite Hx.
Qed.

Lemma vset_in {A} (l : list A) i x :
  0 ≤ i < Z.of_nat (length l) → vset l i x = Ret (<[Z.to_nat i := x]> l).
Proof. intros Hi. unfold vset. by rewrite bool_decide_true. Qed.

Lemma table_row g r :
  table_wf g → row_in g r →
  ∃ row, g !! Z.to_nat r = Some row ∧ vget g r = Ret row ∧ length row = MAX_ALPHA.
Proof.
  intros Hwf Hr. destruct (vget_in g r Hr) as (row & Hl & Hg). exists row.
  repeat split; try done. by apply (Forall_lookup_1 _ _ _ _ Hwf Hl).
Qed.

Lemma edge_entry g r k :
  table_wf g → row_in g r → letter k → edge g r k = Ret (entry g r k).
Proof.
  intros Hwf Hr Hk. unfold entry, edge.
  destruct (table_row g r Hwf Hr) as (row & _ & -> & Hlen). obind.
  destruct (vget_in row k) as (v & _ & ->); [unfold letter in Hk; lia |]. done.
Qed.

Lemma set_edge_spec g r k v :
  table_wf g → row_in g r → letter k →
  ∃ g', set_edge g r k v = Ret g' ∧ table_wf g' ∧ length g' = length g ∧
    ∀ r' k', row_in g r' → letter k' →
      entry g' r' k' = if decide (r' = r ∧ k' = k) then v else entry g r' k'.
Proof.
  intros Hwf Hr Hk. unfold set_edge.
  destruct (table_row g r Hwf Hr) as (row & Hrow & -> & Hlen). obind.
  rewrite vset_in by (unfold letter in Hk; lia). obind. rewrite vset_in by done.
  eexists. split; [done |]. split; [| split].
  - apply Forall_insert; [done |]. by rewrite length_insert.
  - apply length_insert.
  - intros r' k' Hr' Hk'. unfold entry, edge, vget.
    unfold row_in, letter in *. rewrite !bool_decide_true by lia.
    destruct (decide (r' = r)) as [-> | Hne].
    + rewrite list_lookup_insert_eq by lia. rewrite Hrow. simpl.
      destruct (decide (k' = k)) as [-> | Hnk].
      * rewrite list_lookup_insert_eq by lia. rewrite decide_True by done. done.
      * rewrite list_lookup_insert_ne by lia. rewrite decide_False by tauto. done.
    + rewrite list_lookup_insert_ne by lia. rewrite decide_False by tauto. done.
Qed.

(** The row found at [r] after rows [a] and [b] are exchanged. *)
Definition swapped (a b r : Z) : Z :=
  if decide (r = b) then a else if decide (r = a) then b else r.

Lemma swap_rows_spec g a b :
  table_wf g → row_in g a → row_in g b →
  ∃ g', swap_rows g a b = Ret g' ∧ table_wf g' ∧ length g' = length g ∧
    ∀ r' k', row_in g r' → letter k' → entry g' r' k' = entry g (swapped a b r') k'.
Proof.
  intros Hwf Ha Hb. unfold swap_rows.
  destruct (table_row g a Hwf Ha) as (ra & Hra & -> & Hla).
  destruct (table_row g b Hwf Hb) as (rb & Hrb & -> & Hlb). obind.
  rewrite vset_in by done. obind.
  rewrite vset_in by (rewrite length_insert; done).
  eexists. split; [done |]. split; [| split].
  - by do 2 (apply Forall_insert; [| done]).
  - by rewrite !length_insert.
  - intros r' k' Hr' Hk'. unfold entry, edge, vget, swapped.
    unfold row_in in *. rewrite (bool_decide_true (0 ≤ r')) by lia.
    destruct (decide (r' = b)) as [-> | Hnb].
    + rewrite list_lookup_insert_eq by (rewrite length_insert; lia).
      rewrite (bool_decide_true (0 ≤ a)) by lia. by rewrite Hra.
    + rewrite list_lookup_insert_ne by lia. destruct (decide (r' = a)) as [-> | Hna].
      * rewrite list_lookup_insert_eq by lia. rewrite (bool_decide_true (0 ≤ b)) by lia. by rewrite Hrb.
      * rewrite list_lookup_insert_ne by lia. by rewrite (bool_decide_true (0 ≤ r')) by lia.
Qed.

(** ** The trie invariant *)

(** Index of the last word equal to [s], counting from [i]. *)
Fixpoint last_idx (ws : list str) (s : str) (i : Z) : option Z :=
  match ws with
  | [] => None
  | w :: ws =>
      match last_idx ws s (i + 1) with
      | Some j => Some j
      | None => if bool_decide (w = s) then Some i else None
      end
  end.

Lemma last_idx_app ws ws' s i :
  last_idx (ws ++ ws') s i =
  match last_idx ws' s (i + Z.of_nat (length ws)) with
  | Some j => Some j
  | None => last_idx ws s i
  end.
Proof.
  revert i. induction ws as [| w ws IH]; intros i; simpl.
  - rewrite Z.add_0_r. by destruct (last_idx ws' s i).
  - rewrite IH. replace (i + 1 + Z.of_nat (length ws)) with (i + Z.of_nat (S (length ws))) by lia.
    by destruct (last_idx ws' s (i + Z.of_nat (S (length ws)))).
Qed.

Lemma last_idx_snoc ws w s :
  last_idx (ws ++ [w]) s 0 = if decide (w = s) then Some (Z.of_nat (length ws)) else last_idx ws s 0.
Proof.
  rewrite last_idx_app. simpl. destruct (decide (w = s)) as [-> | Hne].
  - by rewrite bool_decide_true.
  - by rewrite bool_decide_false.
Qed.

Lemma last_idx_bound ws s i j :
  last_idx ws s i = Some j → i ≤ j < i + Z.of_nat (length ws).
Proof.
  revert i. induction ws as [| w ws IH]; intros i; simpl; [done |].
  destruct (last_idx ws s (i + 1)) eqn:E.
  - intros [= <-]. apply IH in E. lia.
  - case_bool_decide; intros [= <-]. lia.
Qed.

Lemma last_idx_elem ws s i : is_Some (last_idx ws s i) ↔ s ∈ ws.
Proof.
  revert i. induction ws as [| w ws IH]; intros i; simpl.
  - split; [by intros [] | by intros ?%not_elem_of_nil].
  - specialize (IH (i + 1)). rewrite elem_of_cons.
    destruct (last_idx ws s (i + 1)).
    + split; [intros _; right; by apply IH | eauto].
    + case_bool_decide; subst; split; eauto.
      * by intros [].
      * intros [-> | Hin]; [done |]. by apply IH in Hin.
Qed.

(** [node] maps each stored prefix to its state.  [N] is the number of rows,
    [ws] the words inserted so far. *)
Record trie (g : list (list Z)) (node : gmap str Z) (ws : list str) (init snum fin : Z) : Prop := {
  t_wf : table_wf g;
  t_counters : 0 ≤ fin ≤ init ∧ init < snum ≤ Z.of_nat (length g) ∧ fin = Z.of_nat (length ws);
  t_root : node !! [] = Some init;
  t_edge s r k : node !! s = Some r → letter k →
    entry g r k = default (-1) (node !! (s ++ [k + char_a]));
  t_inj s s' r : node !! s = Some r → node !! s' = Some r → s = s';
  t_range s r : node !! s = Some r → 0 ≤ r < fin ∨ init ≤ r < snum;
  t_blank r k : fin ≤ r < init ∨ snum ≤ r < Z.of_nat (length g) → letter k → entry g r k = -1;
  t_closed s c : is_Some (node !! (s ++ [c])) → is_Some (node !! s);
  t_final s i : last_idx ws s 0 = Some i ↔ node !! s = Some i ∧ i < fin
}.

Lemma snoc_inj (s u : str) (c d : Z) : s ++ [c] = u ++ [d] ↔ s = u ∧ c = d.
Proof.
  split; [| by intros [-> ->]].
  intros H. apply app_inj_2 in H as [-> H]; [by simplify_eq | done].
Qed.

Lemma snoc_ne (s : str) (c : Z) : s ++ [c] ≠ s.
Proof. intros H%(f_equal length). rewrite length_app in H. simpl in H. lia. Qed.

Section trie_steps.
Context {g : list (list Z)} {node : gmap str Z} {ws : list str} {init snum fin : Z}.
Context (Ht : trie g node ws init snum fin).

Lemma trie_row s r : node !! s = Some r → row_in g r.
Proof.
  intros Hs. pose proof (t_counters _ _ _ _ _ _ Ht).
  destruct (t_range _ _ _ _ _ _ Ht s r Hs); unfold row_in; lia.
Qed.

(** A state that is not the state of any prefix. *)
Definition unused (r : Z) : Prop := fin ≤ r < init ∨ snum ≤ r.

Lemma unused_node s r : unused r → node !! s = Some r → False.
Proof.
  intros Hu Hs. pose proof (t_counters _ _ _ _ _ _ Ht).
  destruct (t_range _ _ _ _ _ _ Ht s r Hs), Hu; lia.
Qed.

Lemma trie_no_child s k : node !! s = None → node !! (s ++ [k]) = None.
Proof.
  intros Hs. destruct (node !! (s ++ [k])) eqn:E; [| done].
  destruct (t_closed _ _ _ _ _ _ Ht s k) as [? ?]; [eauto | congruence].
Qed.

Context {u : str} {cur c : Z} (Hu : node !! u = Some cur) (Hc : letter (c - char_a)).
Context {g' : list (list Z)} (Hwf' : table_wf g') (Hlen' : length g' = length g).

(** The edge written out of [cur], and the other edges of the old nodes. *)
Lemma trie_edge_upd v s r k (w := u ++ [c]) :
  node !! s = Some r → letter k → s ≠ w →
  (if decide (r = cur ∧ k = c - char_a) then v else entry g r k) =
  default (-1) (<[w := v]> node !! (s ++ [k + char_a])).
Proof.
  intros Hs Hk Hne. destruct (decide (r = cur ∧ k = c - char_a)) as [[-> ->] | Hd].
  - rewrite (t_inj _ _ _ _ _ _ Ht s u cur Hs Hu).
    replace (c - char_a + char_a) with c by lia. by rewrite lookup_insert_eq.
  - rewrite lookup_insert_ne; [by apply (t_edge _ _ _ _ _ _ Ht) |].
    intros [-> ->]%snoc_inj. apply Hd. split; [congruence | lia].
Qed.

Lemma trie_closed_upd v s d (w := u ++ [c]) :
  is_Some (<[w := v]> node !! (s ++ [d])) → is_Some (<[w := v]> node !! s).
Proof.
  rewrite !lookup_insert_is_Some. intros [[-> ->]%snoc_inj | [Hne Hs]].
  - right. split; [apply snoc_ne | eauto].
  - apply (t_closed _ _ _ _ _ _ Ht) in Hs.
    destruct (decide (w = s)); [by left | by right].
Qed.

Lemma trie_extend (w := u ++ [c]) :
  node !! w = None → snum < Z.of_nat (length g) →
  (∀ r k, row_in g r → letter k →
     entry g' r k = if decide (r = cur ∧ k = c - char_a) then snum else entry g r k) →
  trie g' (<[w := snum]> node) ws init (snum + 1) fin.
Proof.
  intros Hw Hroom He. pose proof (t_counters _ _ _ _ _ _ Ht) as Hcnt.
  assert (cur ≠ snum) as Hcs by (intros Heq; apply (unused_node u cur); [right; lia | done]).
  split.
  - done.
  - rewrite Hlen'. lia.
  - rewrite lookup_insert_ne; [apply (t_root _ _ _ _ _ _ Ht) |]. by destruct u.
  - intros s r k Hs Hk. apply lookup_insert_Some in Hs as [[<- Hr] | [Hne Hs]].
    + rewrite <- Hr. rewrite He by (unfold row_in; auto; lia).
      rewrite decide_False by (intros [Heq _]; congruence).
      rewrite (t_blank _ _ _ _ _ _ Ht) by (auto; lia).
      rewrite lookup_insert_ne by (apply not_eq_sym, snoc_ne).
      by rewrite (trie_no_child _ _ Hw).
    + rewrite He by eauto using trie_row. by apply trie_edge_upd.
  - intros s s' r Hs Hs'.
    apply lookup_insert_Some in Hs as [[<- Hr] | [Hne Hs]];
    apply lookup_insert_Some in Hs' as [[<- Hr'] | [Hne' Hs']]; try done.
    + exfalso. apply (unused_node s' r); [right; lia | done].
    + exfalso. apply (unused_node s r); [right; lia | done].
    + by apply (t_inj _ _ _ _ _ _ Ht s s' r).
  - intros s r Hs. apply lookup_insert_Some in Hs as [[<- Hr] | [Hne Hs]]; [lia |].
    apply (t_range _ _ _ _ _ _ Ht) in Hs. lia.
  - intros r k Hr Hk. rewrite Hlen' in Hr.
    rewrite He, decide_False; try (by unfold row_in; lia || done).
    + apply (t_blank _ _ _ _ _ _ Ht); [lia | done].
    + intros [Heq _]. apply (unused_node u cur); [| done]. unfold unused. lia.
  - intros s d. apply trie_closed_upd.
  - intros s i. rewrite (t_final _ _ _ _ _ _ Ht). rewrite lookup_insert.
    case_decide as Heq; [rewrite <- Heq, Hw | done]. split; [by intros [] |].
    intros [[= ?] ?]. lia.
Qed.

Lemma trie_finish x snum' (w := u ++ [c]) :
  fin < init →
  (node !! w = Some x ∧ snum' = snum) ∨
  (node !! w = None ∧ x = snum ∧ snum' = snum + 1 ∧ snum < Z.of_nat (length g)) →
  (∀ r k, row_in g r → letter k →
     entry g' r k = if decide (r = cur ∧ k = c - char_a) then fin
                    else entry g (swapped x fin r) k) →
  trie g' (<[w := fin]> node) (ws ++ [w]) init snum' (fin + 1).
Proof.
  intros Hfin Hx He. pose proof (t_counters _ _ _ _ _ _ Ht) as Hcnt.
  assert (unused fin) as Hufin by (left; lia).
  assert (∀ s, node !! s ≠ Some fin) as Hnofin by (intros s Hs; by apply (unused_node s fin)).
  assert (∀ k, letter k → entry g x k = default (-1) (node !! (w ++ [k + char_a]))) as Hxrow.
  { intros k Hk. destruct Hx as [[Hx _] | (Hw & Hxs & _ & Hroom)].
    - by apply (t_edge _ _ _ _ _ _ Ht).
    - rewrite (t_blank _ _ _ _ _ _ Ht) by (auto; lia). by rewrite (trie_no_child _ _ Hw). }
  assert (∀ s r, s ≠ w → node !! s = Some r → r ≠ x) as Hrx.
  { intros s r Hne Hs Heq. rewrite Heq in Hs. destruct Hx as [[Hx _] | (_ & Hxs & _)].
    - by apply Hne, (t_inj _ _ _ _ _ _ Ht s w x).
    - apply (unused_node s x); [right; lia | done]. }
  split.
  - done.
  - rewrite length_app, Hlen'. simpl. lia.
  - rewrite lookup_insert_ne; [apply (t_root _ _ _ _ _ _ Ht) |]. by destruct u.
  - intros s r k Hs Hk. apply lookup_insert_Some in Hs as [[<- Hr] | [Hne Hs]].
    + rewrite <- Hr. rewrite He by (unfold row_in; auto; lia).
      rewrite decide_False by (intros [Heq _]; apply (Hnofin u); congruence).
      unfold swapped. rewrite decide_True by done. rewrite Hxrow by done.
      by rewrite lookup_insert_ne by (apply not_eq_sym, snoc_ne).
    + rewrite He by eauto using trie_row. unfold swapped.
      rewrite (decide_False (P := r = fin)) by (intros Heq; apply (Hnofin s); congruence).
      rewrite (decide_False (P := r = x)) by (by apply (Hrx s)). by apply trie_edge_upd.
  - intros s s' r Hs Hs'.
    apply lookup_insert_Some in Hs as [[<- Hr] | [Hne Hs]];
    apply lookup_insert_Some in Hs' as [[<- Hr'] | [Hne' Hs']]; try done.
    + rewrite <- Hr in Hs'. by apply Hnofin in Hs'.
    + rewrite <- Hr' in Hs. by apply Hnofin in Hs.
    + by apply (t_inj _ _ _ _ _ _ Ht s s' r).
  - intros s r Hs. apply lookup_insert_Some in Hs as [[<- Hr] | [Hne Hs]]; [lia |].
    apply (t_range _ _ _ _ _ _ Ht) in Hs. lia.
  - intros r k Hr Hk. rewrite Hlen' in Hr.
    assert (unused r) as Hur by (unfold unused; lia).
    rewrite He, decide_False; try (by unfold row_in; lia || done).
    + unfold swapped. rewrite decide_False by lia. rewrite decide_False.
      * apply (t_blank _ _ _ _ _ _ Ht); [lia | done].
      * intros Heq. rewrite Heq in Hur.
        destruct Hx as [[Hx _] | (_ & Hxs & Hs' & _)]; [by apply (unused_node w x) | lia].
    + intros [Heq _]. apply (unused_node u cur); [by rewrite <- Heq | done].
  - intros s d. apply trie_closed_upd.
  - intros s i. rewrite last_idx_snoc, lookup_insert. case_decide as Heq.
    + split; [intros [= Hi]; split; [f_equal |]; lia | intros [[= Hi] _]; f_equal; lia].
    + rewrite (t_final _ _ _ _ _ _ Ht). split; [intros [? ?]; split; [done | lia] |].
      intros [Hs Hi]. split; [done |].
      destruct (decide (i = fin)) as [Hif | ?]; [| lia].
      exfalso. apply (Hnofin s). congruence.
Qed.

End trie_steps.

(** ** Building the graph *)

Definition lowercase (w : str) : Prop := Forall (λ c, letter (c - char_a)) w.

Lemma insert_word_spec w : ∀ g node ws init snum fin u cur,
  trie g node ws init snum fin → node !! u = Some cur →
  lowercase w → w ≠ [] → fin < init → snum + Z.of_nat (length w) ≤ Z.of_nat (length g) →
  ∃ g' node' snum', insert_word w g cur snum fin = Ret (g', snum', fin + 1) ∧
    trie g' node' (ws ++ [u ++ w]) init snum' (fin + 1) ∧
    length g' = length g ∧ snum' ≤ snum + Z.of_nat (length w).
Proof.
  induction w as [| c w IH]; intros g node ws init snum fin u cur Ht Hu Hlow Hne Hfin Hroom;
    [done |]. clear Hne.
  inversion Hlow as [| ? ? Hc Hlow']; subst. simpl length in *.
  pose proof (t_counters _ _ _ _ _ _ Ht) as Hcnt.
  pose proof (t_wf _ _ _ _ _ _ Ht) as Hwf.
  pose proof (trie_row Ht u cur Hu) as Hrow.
  pose proof (t_edge _ _ _ _ _ _ Ht u cur (c - char_a) Hu Hc) as Hedge.
  replace (c - char_a + char_a) with c in Hedge by lia.
  assert (row_in g fin) as Hrfin by (unfold row_in; lia).
  assert (cur ≠ fin) as Hcf.
  { intros ->. apply (unused_node Ht u fin); [left; lia | done]. }
  cbn [insert_word]. rewrite edge_entry by done. obind. rewrite Hedge.
  destruct (node !! (u ++ [c])) as [next |] eqn:Ew; simpl default.
  - (* the edge exists *)
    pose proof (trie_row Ht _ _ Ew) as Hrnext.
    assert (0 ≤ next) by (unfold row_in in Hrnext; lia).
    rewrite bool_decide_false by lia.
    destruct (bool_decide_reflect (w = [])) as [-> | Hmore].
    + destruct (swap_rows_spec g next fin) as (g1 & -> & Hwf1 & Hlen1 & He1); try done. obind.
      destruct (set_edge_spec g1 cur (c - char_a) fin) as (g2 & -> & Hwf2 & Hlen2 & He2);
        [done | by unfold row_in in *; rewrite Hlen1 | done |]. obind.
      rewrite edge_entry; [| done | by unfold row_in in *; rewrite Hlen2, Hlen1 | done]. obind.
      simpl. exists g2, (<[u ++ [c] := fin]> node), snum.
      split; [done |]. split; [| split; [congruence | lia]].
      apply (trie_finish Ht Hu) with (x := next); auto; [congruence |].
      intros r k Hr Hk. rewrite He2 by (unfold row_in in *; rewrite ?Hlen1; done).
      destruct (decide (r = cur ∧ k = c - char_a)); [done |]. by apply He1.
    + obind.
      edestruct (IH g node ws init snum fin (u ++ [c]) next) as (g' & node' & snum' & -> & Ht' & Hlen & Hs);
        auto; [lia |].
      exists g', node', snum'. split; [done |]. rewrite <- app_assoc in Ht'. simpl in Ht'.
      split; [done |]. split; [done | lia].
  - (* a new edge *)
    rewrite bool_decide_true by done.
    destruct (set_edge_spec g cur (c - char_a) snum) as (g1 & -> & Hwf1 & Hlen1 & He1); try done. obind.
    destruct (bool_decide_reflect (w = [])) as [-> | Hmore].
    + destruct (set_edge_spec g1 cur (c - char_a) fin) as (g2 & -> & Hwf2 & Hlen2 & He2);
        [done | by unfold row_in in *; rewrite Hlen1 | done |]. obind.
      destruct (swap_rows_spec g2 snum fin) as (g3 & -> & Hwf3 & Hlen3 & He3);
        [done | by unfold row_in in *; rewrite Hlen2, Hlen1; simpl in *; lia
         | by unfold row_in in *; rewrite Hlen2, Hlen1 |]. obind.
      simpl. exists g3, (<[u ++ [c] := fin]> node), (snum + 1).
      split; [done |]. split; [| split; [congruence | simpl in *; lia]].
      apply (trie_finish Ht Hu) with (x := snum); auto; [congruence | |].
      { right. simpl in *. repeat split; try done. lia. }
      intros r k Hr Hk.
      assert (cur ≠ snum) as Hcs by (intros ->; apply (unused_node Ht u snum); [right; lia | done]).
      assert (row_in g (swapped snum fin r)) as Hrs
        by (unfold swapped, row_in in *; simpl in *; repeat case_decide; lia).
      unfold row_in in *. rewrite He3 by (rewrite ?Hlen2, ?Hlen1; done).
      rewrite He2 by (rewrite ?Hlen1; done). rewrite He1 by done.
      unfold swapped. destruct (decide (r = cur ∧ k = c - char_a)) as [[-> ->] | Hd].
      * rewrite (decide_False (P := cur = fin)), (decide_False (P := cur = snum)) by done.
        by rewrite decide_True.
      * destruct (decide (r = fin)); [by rewrite !decide_False by naive_solver |].
        destruct (decide (r = snum)); by rewrite !decide_False by naive_solver.
    + assert (trie g1 (<[u ++ [c] := snum]> node) ws init (snum + 1) fin) as Ht1.
      { apply (trie_extend Ht Hu); auto; lia. }
      edestruct (IH g1 (<[u ++ [c] := snum]> node) ws init (snum + 1) fin (u ++ [c]) snum)
        as (g' & node' & snum' & -> & Ht' & Hlen & Hs); auto.
      { by rewrite lookup_insert_eq. }
      { rewrite Hlen1. lia. }
      exists g', node', snum'. split; [done |]. rewrite <- app_assoc in Ht'. simpl in Ht'.
      split; [done |]. split; [congruence | lia].
Qed.

Definition word_ok (w : str) : Prop := lowercase w ∧ w ≠ [].

Lemma total_length_app ws ws' : total_length (ws ++ ws') = total_length ws + total_length ws'.
Proof. induction ws as [| w ws IH]; simpl; [done |]. rewrite IH. lia. Qed.

Lemma total_length_nonneg ws : 0 ≤ total_length ws.
Proof. induction ws; simpl; lia. Qed.

Lemma insert_words_spec ws : ∀ g node done init snum fin,
  trie g node done init snum fin → Forall word_ok ws →
  fin + Z.of_nat (length ws) = init → snum + total_length ws ≤ Z.of_nat (length g) →
  ∃ g' node' snum', insert_words ws g init snum fin = Ret (g', snum', init) ∧
    trie g' node' (done ++ ws) init snum' init ∧ length g' = length g.
Proof.
  induction ws as [| w ws IH]; intros g node done init snum fin Ht Hok Hfin Hroom; simpl in *.
  { exists g, node, snum. rewrite app_nil_r. replace init with fin by lia.
    split; [done |]. split; [by replace fin with init at 1 by lia | done]. }
  inversion Hok as [| ? ? [Hlow Hne] Hok']; subst.
  pose proof (total_length_nonneg ws).
  destruct (insert_word_spec w g node done _ snum fin [] _ Ht (t_root _ _ _ _ _ _ Ht))
    as (g1 & node1 & snum1 & -> & Ht1 & Hlen1 & Hs1); auto; try lia.
  obind. simpl in Ht1.
  destruct (IH _ _ _ _ _ _ Ht1) as (g' & node' & snum' & Heq & Ht' & Hlen'); auto; try lia.
  exists g', node', snum'. rewrite <- app_assoc in Ht'. simpl in Ht'.
  split; [done |]. split; [done | congruence].
Qed.

Lemma trie_init g init :
  table_wf g → (∀ r k, row_in g r → letter k → entry g r k = -1) →
  0 ≤ init < Z.of_nat (length g) →
  trie g {[ [] := init ]} [] init (init + 1) 0.
Proof.
  intros Hwf Hblank Hinit.
  assert (∀ s c, ({[ [] := init ]} : gmap str Z) !! (s ++ [c]) = None) as Hnone.
  { intros s c. apply lookup_singleton_None. by destruct s. }
  split; try done.
  - simpl. lia.
  - intros s r k Hs Hk. rewrite Hnone. apply lookup_singleton_Some in Hs as [<- <-].
    by apply Hblank.
  - intros s s' r [<- _]%lookup_singleton_Some [<- _]%lookup_singleton_Some. done.
  - intros s r [<- <-]%lookup_singleton_Some. lia.
  - intros r k Hr Hk. apply Hblank; [unfold row_in; lia | done].
  - intros s c [? Hs]. by rewrite Hnone in Hs.
  - intros s i. simpl. split; [done |]. intros [[<- <-]%lookup_singleton_Some ?]. lia.
Qed.

(** The shape kept between operations: the table is [cur_size] rows of 26. *)
Record ac_shape (this : AhoCorasick) : Prop := {
  sh_table : table_wf (graph this);
  sh_size : cur_size this = Z.of_nat (length (graph this));
  sh_pos : 0 < cur_size this;
  sh_len : patternLen this = total_length (words this);
  sh_words : Forall word_ok (words this)
}.

(** The table represents the words. *)
Definition built (this : AhoCorasick) : Prop :=
  ac_shape this ∧ init_state this = Z.of_nat (length (words this)) ∧
  ∃ node, trie (graph this) node (words this) (init_state this) (state_num this) (init_state this).

Lemma length_resize {A} (l : list A) n x : 0 ≤ n → Z.of_nat (length (resize l n x)) = n.
Proof. intros Hn. unfold resize. rewrite length_app, length_take, length_replicate. lia. Qed.

Lemma table_wf_resize g n : table_wf g → table_wf (resize g n blank_row).
Proof.
  intros H. unfold resize, table_wf. apply Forall_app. split.
  - by apply Forall_take.
  - apply Forall_replicate. apply length_replicate.
Qed.

Lemma filled_blank (g : list (list Z)) (g' := (λ row : list Z, replicate (length row) (-1)) <$> g) :
  table_wf g → table_wf g' ∧ ∀ r k, row_in g' r → letter k → entry g' r k = -1.
Proof.
  intros Hwf. split.
  - unfold g', table_wf. apply Forall_fmap. eapply Forall_impl; [done |].
    intros row Hrow. simpl. by rewrite length_replicate.
  - intros r k Hr Hk. unfold entry, edge.
    destruct (vget_in g' r Hr) as (row & Hl & ->). obind.
    unfold g' in Hl. rewrite list_lookup_fmap in Hl.
    destruct (g !! Z.to_nat r) as [row' |] eqn:E; [| done]. simpl in Hl. simplify_eq.
    assert (length row' = MAX_ALPHA) as Hlen by apply (Forall_lookup_1 _ _ _ _ Hwf E).
    destruct (vget_in (replicate (length row') (-1)) k) as (v & Hv & ->).
    { rewrite length_replicate, Hlen. done. }
    by apply lookup_replicate in Hv as [-> _].
Qed.

Lemma makeGraph_spec this :
  ac_shape this →
  ∃ this', makeGraph this = Ret this' ∧ built this' ∧
    words this' = words this ∧ del this' = del this ∧ result this' = result this.
Proof.
  intros [Hwf Hsize Hpos Hlen Hok]. unfold makeGraph.
  pose proof (total_length_nonneg (words this)) as Hnn.
  set (grow := bool_decide _). set (n := if grow then _ else _).
  set (g := if grow then _ else _).
  assert (table_wf g) as Hwfg.
  { unfold g. destruct grow; [by apply table_wf_resize | done]. }
  assert (Z.of_nat (length g) = n ∧
    Z.of_nat (length (words this)) + total_length (words this) + 1 ≤ n) as [Hgn Hroom].
  { unfold g, n, grow. case_bool_decide.
    - rewrite length_resize by lia. lia.
    - lia. }
  destruct (filled_blank g Hwfg) as [Hwf0 Hblank].
  set (g0 := (λ row : list Z, replicate (length row) (-1)) <$> g) in *.
  assert (length g0 = length g) as Hlen0 by apply length_fmap.
  destruct (insert_words_spec (words this) g0 _ _ _ _ _
    (trie_init g0 (Z.of_nat (length (words this))) Hwf0 Hblank ltac:(lia)))
    as (g' & node' & snum' & -> & Ht & Hlen'); auto; [lia |].
  obind. eexists. split; [done |]. simpl. split; [| done].
  split; [split; simpl; try done | split; [done | eauto]].
  - apply (t_wf _ _ _ _ _ _ Ht).
  - lia.
  - lia.
Qed.

(** ** Searching *)

(** [s] is a word whose latest copy has not been deleted. *)
Definition live (this : AhoCorasick) (s : str) : bool :=
  match last_idx (words this) s 0 with
  | Some i => bool_decide (i ∉ del this)
  | None => false
  end.

(** Keep the candidates that satisfy [p], each at its first occurrence. *)
Fixpoint collect (p : str → bool) (cands acc : list str) : list str :=
  match cands with
  | [] => acc
  | s :: cands => collect p cands (if p s && bool_decide (s ∉ acc) then acc ++ [s] else acc)
  end.

(** The extensions of [s] along [rest], shortest first. *)
Fixpoint exts (s rest : str) : list str :=
  match rest with
  | [] => []
  | c :: rest => (s ++ [c]) :: exts (s ++ [c]) rest
  end.

(** All non-empty substrings: by start position, then by length. *)
Fixpoint substrings (input : str) : list str :=
  match input with
  | [] => []
  | _ :: rest => exts [] input ++ substrings rest
  end.

Lemma collect_app p l1 l2 acc : collect p (l1 ++ l2) acc = collect p l2 (collect p l1 acc).
Proof. revert acc. induction l1; intros acc; simpl; auto. Qed.

Definition check_ok (check : gmap str bool) (res : list str) : Prop :=
  ∀ w, check !! w = Some true ↔ w ∈ res.

Section search.
Context {this : AhoCorasick} {node : gmap str Z} {snum : Z}.
Context (Ht : trie (graph this) node (words this) (init_state this) snum (init_state this)).

Lemma live_node s : live this s → ∃ i, node !! s = Some i ∧ i < init_state this ∧ i ∉ del this.
Proof.
  unfold live. destruct (last_idx (words this) s 0) as [i |] eqn:E; [| by intros []].
  rewrite bool_decide_spec. apply (t_final _ _ _ _ _ _ Ht) in E as [? ?]. eauto.
Qed.

Lemma node_live s i :
  node !! s = Some i →
  live this s = bool_decide (i < init_state this) && bool_decide (i ∉ del this).
Proof.
  intros Hs. unfold live. destruct (last_idx (words this) s 0) as [j |] eqn:E.
  - apply (t_final _ _ _ _ _ _ Ht) in E as [? ?]. simplify_eq.
    by rewrite (bool_decide_true (_ < _)).
  - rewrite bool_decide_false; [done |]. intros Hi.
    assert (last_idx (words this) s 0 = Some i) by (by apply (t_final _ _ _ _ _ _ Ht)).
    congruence.
Qed.

Lemma collect_dead s rest acc :
  node !! s = None → collect (live this) (exts s rest) acc = acc.
Proof.
  revert s. induction rest as [| c rest IH]; intros s Hs; simpl; [done |].
  pose proof (trie_no_child Ht s c Hs) as Hs'.
  destruct (live this (s ++ [c])) eqn:E; simpl; [| by apply IH].
  destruct (live_node (s ++ [c])) as (i & Hi & _); [by rewrite E | congruence].
Qed.

Lemma search_inner_spec rest : ∀ cur s check res,
  node !! s = Some cur → lowercase rest → check_ok check res →
  ∃ check', search_inner this rest cur s check res =
    Ret (check', collect (live this) (exts s rest) res) ∧
    check_ok check' (collect (live this) (exts s rest) res).
Proof.
  induction rest as [| c rest IH]; intros cur s check res Hs Hlow Hck; simpl; [eauto |].
  inversion Hlow as [| ? ? Hc Hlow']; subst.
  rewrite edge_entry; [| apply (t_wf _ _ _ _ _ _ Ht) | by apply (trie_row Ht s) | done].
  obind. rewrite (t_edge _ _ _ _ _ _ Ht s cur) by done.
  replace (c - char_a + char_a) with c by lia.
  destruct (node !! (s ++ [c])) as [r |] eqn:E; simpl default; cycle 1.
  { rewrite bool_decide_true by done. exists check.
    destruct (live this (s ++ [c])) eqn:Hl; simpl.
    { destruct (live_node (s ++ [c])) as (i & Hi & _); [by rewrite Hl | congruence]. }
    by rewrite collect_dead. }
  pose proof (trie_row Ht _ _ E) as Hr.
  rewrite bool_decide_false by (unfold row_in in Hr; lia).
  rewrite (node_live _ _ E).
  destruct (bool_decide_reflect (r < init_state this)) as [Hfin | Hinner]; simpl; [| by apply IH].
  assert (default false (check !! (s ++ [c])) = bool_decide (s ++ [c] ∈ res)) as Hseen.
  { specialize (Hck (s ++ [c])). destruct (check !! (s ++ [c])) as [[] |]; simpl; symmetry.
    - apply bool_decide_eq_true. naive_solver.
    - apply bool_decide_eq_false. naive_solver.
    - apply bool_decide_eq_false. naive_solver. }
  rewrite Hseen.
  destruct (bool_decide_reflect (s ++ [c] ∈ res)) as [Hin | Hnin]; simpl.
  - rewrite (bool_decide_false (s ++ [c] ∉ res)) by naive_solver. rewrite andb_false_r.
    apply IH; auto. intros w. rewrite lookup_insert.
    case_decide; [by subst | apply Hck].
  - rewrite (bool_decide_true (s ++ [c] ∉ res)) by done. rewrite andb_true_r.
    destruct (bool_decide_reflect (r ∉ del this)); simpl; apply IH; auto.
    + intros w. rewrite insert_insert_eq, lookup_insert, elem_of_app, list_elem_of_singleton.
      case_decide; [subst; tauto |]. rewrite (Hck w). naive_solver.
    + intros w. rewrite lookup_insert. case_decide; [by subst | apply Hck].
Qed.

Lemma search_outer_spec input : ∀ check res,
  lowercase input → check_ok check res →
  ∃ check', search_outer this input check res =
    Ret (check', collect (live this) (substrings input) res).
Proof.
  induction input as [| c rest IH]; intros check res Hlow Hck; cbn [search_outer]; [simpl; eauto |].
  inversion Hlow as [| ? ? Hc Hlow']; subst.
  destruct (search_inner_spec (c :: rest) (init_state this) [] check res) as (check' & -> & Hck');
    auto; [apply (t_root _ _ _ _ _ _ Ht) |].
  obind. destruct (IH check' _ Hlow' Hck') as (check'' & ->).
  exists check''. cbn [substrings]. by rewrite collect_app.
Qed.

End search.

Lemma check_init ws : check_ok (foldr (λ w m, <[w := false]> m) ∅ ws) [].
Proof.
  intros w. split; [| by intros ?%not_elem_of_nil].
  induction ws as [| v ws IH]; simpl; [by rewrite lookup_empty |].
  rewrite lookup_insert. case_decide; [done | by apply IH].
Qed.

Lemma search_spec this input :
  built this → lowercase input →
  ∃ this', search this input = Ret (this', collect (live this) (substrings input) []) ∧
    built this' ∧ words this' = words this ∧ del this' = del this.
Proof.
  intros (Hsh & Hinit & node & Ht) Hlow. unfold search.
  destruct (search_outer_spec Ht input _ [] Hlow (check_init (words this))) as (check' & ->).
  obind. eexists. split; [done |]. split; [| done].
  split; [by destruct Hsh |]. split; [done | by exists node].
Qed.

(** ** The words found are the answer of the specification *)

Section collect_answer.
Context (q : str) (p : str → bool) (p_nonempty : ∀ w, p w → w ≠ []).

(** [w] starts before [st], or at [st] with at most [l] characters. *)
Definition seen (st l : nat) (w : str) : Prop :=
  ∃ i, occurs_at w q i ∧ ((i < st)%nat ∨ (i = st ∧ (length w ≤ l)%nat)).

Definition with_pos (w : str) : nat * str := (default 0%nat (first_pos w q), w).

Record scanned (st l : nat) (acc : list str) : Prop := {
  sc_elem w : w ∈ acc ↔ p w ∧ seen st l w;
  sc_nodup : NoDup acc;
  sc_sorted : StronglySorted found_le (with_pos <$> acc)
}.

Lemma occurs_at_take w st : occurs_at w q st ↔ take (length w) (drop st q) = w.
Proof. rewrite <- occurs_atb_spec. unfold occurs_atb. by rewrite bool_decide_spec. Qed.

Lemma seen_S st l w :
  (st + S l ≤ length q)%nat →
  seen st (S l) w ↔ seen st l w ∨ w = take (S l) (drop st q).
Proof.
  intros Hlen. unfold seen. split.
  - intros (i & Ho & [Hi | [-> Hl]]); [left; exists i; auto |].
    destruct (decide (length w ≤ l)%nat); [left; exists st; auto |].
    right. apply occurs_at_take in Ho. by replace (S l) with (length w) by lia.
  - intros [(i & Ho & Hi) | ->].
    + exists i. split; [done |]. lia.
    + exists st. assert (length (take (S l) (drop st q)) = S l) as Hl
        by (rewrite length_take, length_drop; lia).
      split; [| right; lia]. apply occurs_at_take. by rewrite Hl.
Qed.

Lemma StronglySorted_snoc {A} (R : relation A) l x :
  StronglySorted R l → (∀ y, y ∈ l → R y x) → StronglySorted R (l ++ [x]).
Proof.
  induction 1 as [| y l Hs IH Hall]; intros Hx; simpl; [repeat constructor |].
  constructor; [apply IH; set_solver |]. apply Forall_app. split; [done |].
  repeat constructor. apply Hx. by left.
Qed.

Lemma seen_first st l w i :
  w ≠ [] → seen st l w → first_pos w q = Some i →
  (i < st)%nat ∨ (i = st ∧ (length w ≤ l)%nat).
Proof.
  intros Hw (j & Ho & Hj) Hf. apply first_pos_Some in Hf as [Hi Hmin]; [| done].
  destruct (decide (j < i)%nat) as [Hlt | Hge]; [by apply Hmin in Hlt | lia].
Qed.

Lemma scanned_step st l acc (s' := take (S l) (drop st q)) :
  (st + S l ≤ length q)%nat → scanned st l acc →
  scanned st (S l) (if p s' && bool_decide (s' ∉ acc) then acc ++ [s'] else acc).
Proof.
  intros Hlen [Hel Hnd Hs]. destruct (p s') eqn:Hp; simpl; cycle 1.
  { split; [| done | done]. intros w. rewrite Hel, seen_S by done.
    split; [tauto |]. intros [Hpw [? | ->]]; [tauto |]. exfalso. fold s' in Hpw. by rewrite Hp in Hpw. }
  destruct (bool_decide_reflect (s' ∉ acc)) as [Hnin | Hin]; cycle 1.
  { apply dec_stable in Hin. split; [| done | done]. intros w. rewrite Hel, seen_S by done.
    split; [tauto |]. intros [Hpw [? | ->]]; [tauto |]. by apply Hel in Hin. }
  assert (occurs_at s' q st) as Ho.
  { apply occurs_at_take. unfold s'. rewrite length_take, length_drop. f_equal. lia. }
  assert (s' ≠ []) as Hne' by (apply p_nonempty; by rewrite Hp).
  assert (first_pos s' q = Some st) as Hf.
  { apply first_pos_Some; [done |]. split; [done |]. intros i Hi Hoi.
    apply Hnin, Hel. split; [by rewrite Hp |]. exists i. auto. }
  split.
  - intros w. rewrite elem_of_app, list_elem_of_singleton, Hel, seen_S by done. fold s'.
    split; [| tauto]. intros [[? ?] | ->]; [tauto |]. split; [by rewrite Hp | by right].
  - apply NoDup_app. repeat split; [done | set_solver | apply NoDup_singleton].
  - rewrite fmap_app. apply StronglySorted_snoc; [done |].
    intros y (w & -> & Hw)%list_elem_of_fmap. apply Hel in Hw as [Hpw Hseen].
    pose proof (p_nonempty w Hpw) as Hwne.
    assert (is_Some (first_pos w q)) as [i Hi].
    { apply not_eq_None_Some. rewrite first_pos_None by done. destruct Hseen as (j & Hj & _).
      intros Hno. by apply (Hno j). }
    unfold found_le, with_pos. simpl. rewrite Hf, Hi. simpl.
    destruct (seen_first st l w i Hwne Hseen Hi) as [? | [-> Hl]]; [by left |].
    right. split; [done |]. apply str_le_prefix.
    apply first_pos_Some in Hi as [Hoi _]; [| done]. apply occurs_at_take in Hoi.
    rewrite <- Hoi. unfold s'. exists (drop (length w) (take (S l) (drop st q))).
    replace (take (length w) (drop st q)) with (take (length w) (take (S l) (drop st q)));
      [by rewrite take_drop |].
    rewrite take_take. f_equal. lia.
Qed.

Lemma scanned_exts st rest : ∀ l acc,
  rest = drop (st + l) q → (st + l ≤ length q)%nat → scanned st l acc →
  scanned st (length q - st) (collect p (exts (take l (drop st q)) rest) acc).
Proof.
  induction rest as [| c rest IH]; intros l acc Hrest Hlen Hsc; simpl.
  - assert (length (drop (st + l) q) = 0%nat) as H0 by (by rewrite <- Hrest).
    rewrite length_drop in H0. by replace (length q - st)%nat with l by lia.
  - assert ((st + S l ≤ length q)%nat) as Hlen'.
    { assert (length (drop (st + l) q) = S (length rest)) as H0 by (by rewrite <- Hrest).
      rewrite length_drop in H0. lia. }
    assert (q !! (st + l)%nat = Some c) as Hc.
    { pose proof (lookup_drop q (st + l) 0) as Hd. rewrite <- Hrest in Hd. simpl in Hd.
      by rewrite Nat.add_0_r in Hd. }
    assert (take l (drop st q) ++ [c] = take (S l) (drop st q)) as ->.
    { symmetry. apply take_S_r. by rewrite lookup_drop. }
    apply IH; [| lia | by apply scanned_step].
    replace (st + S l)%nat with (st + l + 1)%nat by lia. rewrite <- drop_drop, <- Hrest. done.
Qed.

Lemma scanned_next st acc : scanned st (length q - st) acc → scanned (S st) 0 acc.
Proof.
  intros [Hel Hnd Hs]. split; [| done | done]. intros w. rewrite Hel.
  split; intros [Hp (i & Ho & Hi)]; (split; [done |]); exists i; (split; [done |]).
  - lia.
  - pose proof (occurs_at_bound w q i (p_nonempty w Hp) Ho).
    pose proof (p_nonempty w Hp). destruct w; simpl in *; [done | lia].
Qed.

Lemma scanned_all rest : ∀ st acc,
  rest = drop st q → (st ≤ length q)%nat → scanned st 0 acc →
  scanned (length q) 0 (collect p (substrings rest) acc).
Proof.
  induction rest as [| c rest IH]; intros st acc Hrest Hlen Hsc.
  - assert (length (drop st q) = 0%nat) as H0 by (by rewrite <- Hrest).
    rewrite length_drop in H0. simpl. by replace (length q) with st by lia.
  - assert (length (drop st q) = S (length rest)) as H0 by (by rewrite <- Hrest).
    rewrite length_drop in H0.
    cbn [substrings]. rewrite collect_app.
    apply (IH (S st)); [| lia |].
    + replace (S st) with (st + 1)%nat by lia. rewrite <- drop_drop, <- Hrest. done.
    + apply scanned_next. apply (scanned_exts st (c :: rest) 0); [| lia | done].
      by rewrite Nat.add_0_r.
Qed.

Lemma collect_answer (L : gset str) :
  (∀ w, w ∈ L ↔ p w) → collect p (substrings q) [] = answer L q.
Proof.
  intros HL. destruct (scanned_all q 0 []) as [Hel Hnd Hs].
  - done.
  - lia.
  - split; [| constructor | constructor]. intros w. split; [by intros ?%not_elem_of_nil |].
    intros [Hp (i & Ho & Hi)]. exfalso. apply p_nonempty in Hp. destruct w; simpl in *; [done | lia].
  - rewrite (answer_unique L q (with_pos <$> collect p (substrings q) [])).
    + rewrite <- list_fmap_compose. symmetry. apply list_fmap_id.
    + done.
    + apply NoDup_fmap_2; [| done]. intros w w'. unfold with_pos. by intros [= _ ->].
    + intros i w. rewrite list_elem_of_fmap, HL. unfold with_pos. split.
      * intros (w' & [= -> ->] & Hw). apply Hel in Hw as [Hp Hseen]. split; [done |].
        destruct (first_pos w' q) eqn:E; [done |].
        rewrite first_pos_None in E by auto. destruct Hseen as (j & Hj & _). by apply E in Hj.
      * intros [Hp Hi]. exists w. rewrite Hi. split; [done |]. apply Hel. split; [done |].
        exists i. apply first_pos_Some in Hi as [Ho _]; [| auto]. split; [done |]. left.
        pose proof (occurs_at_bound w q i (p_nonempty w Hp) Ho).
        pose proof (p_nonempty w Hp). destruct w; simpl in *; [done | lia].
Qed.

End collect_answer.

(** ** The operations keep the automaton built *)

Lemma addWord_spec this ws :
  ac_shape this → Forall word_ok ws →
  ∃ this', addWord this ws = Ret this' ∧ built this' ∧
    words this' = words this ++ ws ∧ del this' = del this.
Proof.
  intros [Hwf Hsize Hpos Hlen Hok] Hws. unfold addWord.
  edestruct makeGraph_spec as (this' & -> & Hb & Hw & Hd & _); cycle 1.
  { exists this'. simpl in *. done. }
  split; simpl; try done.
  - rewrite total_length_app. lia.
  - by apply Forall_app.
Qed.

Lemma new_shape n l : 0 ≤ n → 0 ≤ l → ac_shape (new_AhoCorasick n l).
Proof.
  intros Hn Hl. unfold new_AhoCorasick. split; simpl; try done; try lia.
  - apply table_wf_resize. constructor.
  - rewrite length_resize; lia.
Qed.

Lemma deleteWord_built this w : built this → built (deleteWord this w).
Proof.
  intros ([Hwf Hsize Hpos Hlen Hok] & Hinit & node & Ht). split; [done |]. split; [done |].
  by exists node.
Qed.

Lemma elem_of_indices word ws i j :
  j ∈ indices_of word ws i ↔ i ≤ j ∧ ws !! Z.to_nat (j - i) = Some word.
Proof.
  revert i. induction ws as [| w ws IH]; intros i; simpl.
  { split; [set_solver | by intros []]. }
  rewrite elem_of_union, IH. destruct (decide (j = i)) as [-> | Hne].
  - rewrite Z.sub_diag. simpl. case_bool_decide; subst; split; try set_solver by lia.
  - assert (j ∉ (if bool_decide (w = word) then {[i]} else ∅ : gset Z)) by (case_bool_decide; set_solver).
    split.
    + intros [? | [Hle Hl]]; [done |]. split; [lia |].
      replace (Z.to_nat (j - i)) with (S (Z.to_nat (j - (i + 1)))) by lia. done.
    + intros [Hle Hl]. right. split; [lia |].
      by replace (Z.to_nat (j - i)) with (S (Z.to_nat (j - (i + 1)))) in Hl by lia.
Qed.

Lemma last_idx_lookup ws s i j :
  last_idx ws s i = Some j → ws !! Z.to_nat (j - i) = Some s.
Proof.
  revert i. induction ws as [| w ws IH]; intros i; simpl; [done |].
  destruct (last_idx ws s (i + 1)) eqn:E.
  - intros [= <-]. pose proof (last_idx_bound _ _ _ _ E). apply IH in E.
    replace (Z.to_nat (z - i)) with (S (Z.to_nat (z - (i + 1)))) by lia. done.
  - case_bool_decide; intros [= <-]. subst. by rewrite Z.sub_diag.
Qed.

Lemma live_delete this w s :
  live (deleteWord this w) s = live this s && negb (bool_decide (s = w)).
Proof.
  unfold live, deleteWord. simpl. destruct (last_idx (words this) s 0) as [i |] eqn:E; [| done].
  pose proof (last_idx_bound _ _ _ _ E) as Hb. apply last_idx_lookup in E.
  assert (i ∈ indices_of w (words this) 0 ↔ s = w) as Hi.
  { rewrite elem_of_indices, E. naive_solver lia. }
  repeat case_bool_decide; set_solver.
Qed.

(** [del] never names an index that does not exist yet. *)
Definition del_ok (this : AhoCorasick) : Prop :=
  ∀ i, i ∈ del this → i < Z.of_nat (length (words this)).

Lemma deleteWord_del_ok this w : del_ok this → del_ok (deleteWord this w).
Proof.
  intros H i. unfold deleteWord. simpl. rewrite elem_of_union, elem_of_indices.
  intros [? | [? Hl]]; [by apply H |]. apply lookup_lt_Some in Hl. lia.
Qed.

Lemma live_app this this' ws s :
  del_ok this → words this' = words this ++ ws → del this' = del this →
  live this' s = live this s || bool_decide (s ∈ ws).
Proof.
  intros Hd Hw Hdel. unfold live. rewrite Hw, Hdel, last_idx_app.
  destruct (last_idx ws s (0 + Z.of_nat (length (words this)))) as [j |] eqn:E.
  - assert (s ∈ ws) by (by apply (last_idx_elem ws s (0 + Z.of_nat (length (words this)))); rewrite E).
    rewrite (bool_decide_true (s ∈ ws)), orb_true_r by done. apply bool_decide_eq_true.
    intros Hj%Hd. apply last_idx_bound in E. lia.
  - rewrite (bool_decide_false (s ∈ ws)), orb_false_r; [done |].
    rewrite <- (last_idx_elem ws s (0 + Z.of_nat (length (words this)))), E. by intros [].
Qed.

Lemma live_word_ok this w : built this → live this w → word_ok w.
Proof.
  intros ([_ _ _ _ Hok] & _) Hl. unfold live in Hl.
  destruct (last_idx (words this) w 0) eqn:E; [| done]. rewrite Forall_forall in Hok. apply Hok.
  apply (last_idx_elem _ _ 0). by rewrite E.
Qed.

(** On an automaton built by [makeGraph], [search] terminates without an
    out-of-bounds access and returns exactly the live words that occur in the
    query, ordered by first occurrence (shorter first), each once. *)
Theorem search_returns_answer (this : AhoCorasick) (L : gset str) (input : str) :
  built this → lowercase input → (∀ w, w ∈ L ↔ live this w) →
  ∃ this', search this input = Ret (this', answer L input).
Proof.
  intros Hb Hlow HL. destruct (search_spec this input Hb Hlow) as (this' & -> & _).
  exists this'. f_equal. f_equal. apply collect_answer; [| done].
  intros w Hw. by apply (live_word_ok this w).
Qed.

(** [addWord] of lowercase non-empty words terminates without leaving the
    table and makes exactly the old live words and the new words live. *)
Theorem addWord_adds_words (this : AhoCorasick) (ws : list str) :
  ac_shape this → del_ok this → Forall word_ok ws →
  ∃ this', addWord this ws = Ret this' ∧ built this' ∧ del_ok this' ∧
    ∀ s, live this' s = live this s || bool_decide (s ∈ ws).
Proof.
  intros Hsh Hd Hws. destruct (addWord_spec this ws Hsh Hws) as (this' & Heq & Hb & Hw & Hdel).
  exists this'. split; [done |]. split; [done |]. split.
  - intros i. rewrite Hdel, Hw, length_app. intros ?%Hd. lia.
  - intros s. by apply live_app.
Qed.

(** [deleteWord] removes exactly the given word from the live words. *)
Theorem deleteWord_removes_word (this : AhoCorasick) (w : str) :
  built this → del_ok this →
  built (deleteWord this w) ∧ del_ok (deleteWord this w) ∧
  ∀ s, live (deleteWord this w) s = live this s && negb (bool_decide (s = w)).
Proof.
  intros Hb Hd. split; [by apply deleteWord_built |].
  split; [by apply deleteWord_del_ok | intros s; apply live_delete].
Qed.

(** ** Witnesses *)

(** The automaton of the single word "ab". *)
Definition ab : str := [97; 98].

Lemma ab_ok : Forall word_ok [ab].
Proof. repeat constructor; unfold letter, char_a; simpl; first [lia | done]. Qed.

Lemma ab_built : ∃ this, addWord (new_AhoCorasick 1 2) [ab] = Ret this ∧ built this ∧
  words this = [ab] ∧ del this = ∅.
Proof. apply (addWord_spec (new_AhoCorasick 1 2) [ab]); [by apply new_shape | apply ab_ok]. Qed.

Lemma search_returns_answer_witness :
  ∃ this this', addWord (new_AhoCorasick 1 2) [ab] = Ret this ∧
    search this [99; 97; 98] = Ret (this', [ab]).
Proof.
  destruct ab_built as (this & Heq & Hb & Hw & Hd).
  destruct (search_returns_answer this {[ab]} [99; 97; 98]) as (this' & Hs).
  - exact Hb.
  - repeat constructor; unfold letter, char_a; simpl; lia.
  - intros w. unfold live. rewrite Hw, Hd, elem_of_singleton. simpl.
    case_bool_decide; [by subst |]. split; [done | by intros []].
  - exists this, this'. split; [exact Heq |]. rewrite Hs. vm_compute. reflexivity.
Defined.

Lemma addWord_adds_words_witness :
  ∃ this', addWord (new_AhoCorasick 1 2) [ab] = Ret this' ∧ live this' ab = true.
Proof.
  destruct (addWord_adds_words (new_AhoCorasick 1 2) [ab]) as (this' & Heq & _ & _ & Hl).
  - by apply new_shape.
  - intros i. simpl. set_solver.
  - apply ab_ok.
  - exists this'. split; [exact Heq | rewrite Hl; vm_compute; reflexivity].
Defined.

Lemma deleteWord_removes_word_witness :
  ∃ this, addWord (new_AhoCorasick 1 2) [ab] = Ret this ∧
    live this ab = true ∧ live (deleteWord this ab) ab = false.
Proof.
  destruct ab_built as (this & Heq & Hb & Hw & Hd).
  exists this. split; [exact Heq |].
  assert (live this ab = true) as Hl by (unfold live; rewrite Hw, Hd; vm_compute; reflexivity).
  destruct (deleteWord_removes_word this ab) as (_ & _ & H).
  - exact Hb.
  - intros i. rewrite Hd. set_solver.
  - split; [exact Hl |]. rewrite H, Hl. vm_compute. reflexivity.
Defined.
