(* ===== verification/AcMain.v ===== *)
(** * The command loop of the Aho-Corasick solution
    (src/project1/ref_solution.cpp)

    New words are buffered and handed to the automaton by the next query. *)

From S2P Require Import Prelude WordSearch Kmp AhoCorasick.

Record main_state := mkMain {
  FSA : AhoCorasick;
  word_list : gset str;
  pending : list str   (* the buffer [words] of [main] *)
}.

(** The loop that prints the words found. *)
Fixpoint print_words (ws : list str) : str :=
  match ws with
  | [] => []
  | w :: ws => w ++ match ws with [] => [] | _ => [bar] end ++ print_words ws
  end.

Definition print_answer (ws : list str) : str :=
  match ws with
  | [] => minus_one ++ [newline]
  | _ => print_words ws ++ [newline]
  end.

(** One round of the [while] loop. *)
Definition main_step (st : main_state) (c : command) : outcome (main_state * list str) :=
  let '(cmd, buf) := c in
  if bool_decide (cmd = cmd_Q) then
    fsa ← match pending st with
          | [] => Ret (FSA st)
          | ws => addWord (FSA st) ws
          end;
    r ← search fsa buf;
    Ret (mkMain r.1 (word_list st) [], [print_answer r.2])
  else if bool_decide (cmd = cmd_A) then
    if bool_decide (buf ∈ word_list st) then Ret (st, [])
    else Ret (mkMain (FSA st) ({[buf]} ∪ word_list st) (pending st ++ [buf]), [])
  else if bool_decide (cmd = cmd_D) then
    Ret (mkMain (deleteWord (FSA st) buf) (word_list st ∖ {[buf]}) (pending st), [])
  else Ret (st, []).

Fixpoint main_loop (st : main_state) (cs : list command) : outcome (list str) :=
  match cs with
  | [] => Ret []
  | c :: cs =>
      r ← main_step st c;
      outs ← main_loop r.1 cs;
      Ret (r.2 ++ outs)
  end.

(** The start of [main]: reading [N] words and building the automaton. *)
Definition main_init (init : list str) : outcome main_state :=
  let wl : gset str := list_to_set init in
  fsa ← addWord (new_AhoCorasick (Z.of_nat (length init)) (total_length init)) (set_iter wl);
  Ret (mkMain fsa wl []).

Definition main_ready : str := [82; newline].

Definition ac_main (init : list str) (cs : list command) : outcome (list str) :=
  st ← main_init init;
  outs ← main_loop st cs;
  Ret (main_ready :: outs).

(** ** The session invariant *)

Record session (st : main_state) : Prop := {
  se_built : built (FSA st);
  se_del : del_ok (FSA st);
  se_pending : Forall word_ok (pending st);
  se_words w : w ∈ word_list st ↔ live (FSA st) w ∨ w ∈ pending st
}.

(** Commands carry lowercase words; [A] and [D] carry non-empty ones. *)
Definition command_ok (c : command) : Prop :=
  (c.1 = cmd_Q → lowercase c.2) ∧ (c.1 = cmd_A → word_ok c.2).

(** No word is deleted while it waits in the buffer: between [A w] and [D w]
    there is a query. *)
Fixpoint no_pending_delete (added : list str) (cs : list command) : Prop :=
  match cs with
  | [] => True
  | (cmd, buf) :: cs =>
      if bool_decide (cmd = cmd_Q) then no_pending_delete [] cs
      else if bool_decide (cmd = cmd_A) then no_pending_delete (buf :: added) cs
      else if bool_decide (cmd = cmd_D) then buf ∉ added ∧ no_pending_delete added cs
      else no_pending_delete added cs
  end.

Lemma print_words_join ws : print_words ws = join_bar ws.
Proof.
  induction ws as [| w [| w' ws] IH]; [done | simpl; by rewrite app_nil_r |].
  cbn [print_words join_bar] in *. by rewrite IH.
Qed.

Lemma print_answer_render ws : print_answer ws = render ws.
Proof. unfold print_answer. destruct ws; [done |]. by rewrite print_words_join. Qed.

(** The automaton after the buffer has been handed over. *)
Lemma flush_spec st :
  session st →
  ∃ fsa, match pending st with [] => Ret (FSA st) | ws => addWord (FSA st) ws end = Ret fsa ∧
    built fsa ∧ del_ok fsa ∧ ∀ w, w ∈ word_list st ↔ live fsa w.
Proof.
  intros [Hb Hd Hp Hw]. destruct (pending st) as [| p ps] eqn:E.
  { exists (FSA st). split; [done |]. split; [done |]. split; [done |].
    intros w. rewrite Hw. split; [| by left]. by intros [? | ?%not_elem_of_nil]. }
  destruct (addWord_spec (FSA st) (p :: ps)) as (fsa & -> & Hb' & Hw' & Hd'); [apply Hb | done |].
  exists fsa. split; [done |]. split; [done |]. split.
  - intros i. rewrite Hd', Hw', length_app. intros ?%Hd. lia.
  - intros w. rewrite Hw, (live_app (FSA st) fsa (p :: ps)) by done.
    rewrite orb_True, bool_decide_spec. done.
Qed.

Lemma main_step_spec st c (added : list str) :
  session st → command_ok c → (∀ w, w ∈ pending st → w ∈ added) →
  (c.1 = cmd_D → c.2 ∉ added) →
  ∃ st', main_step st c = Ret (st', (spec_step (word_list st) c).2) ∧ session st' ∧
    word_list st' = (spec_step (word_list st) c).1 ∧
    (∀ w, w ∈ pending st' → if bool_decide (c.1 = cmd_Q) then False
       else if bool_decide (c.1 = cmd_A) then w = c.2 ∨ w ∈ added else w ∈ added).
Proof.
  intros Hse [HQ HA] Hadd HD. destruct c as [cmd buf]. simpl in *.
  unfold main_step, spec_step. simpl.
  destruct (bool_decide_reflect (cmd = cmd_Q)) as [-> | HnQ].
  - destruct (flush_spec st Hse) as (fsa & Hfl & Hb & Hd & Hw).
    destruct (search_spec fsa buf Hb (HQ eq_refl)) as (fsa' & Hs & Hb' & Hw' & Hd').
    eexists. rewrite Hfl. obind. rewrite Hs. obind. simpl. rewrite print_answer_render.
    rewrite (collect_answer buf (live fsa) (λ w Hl, proj2 (live_word_ok fsa w Hb Hl)) (word_list st) Hw).
    split; [done |]. split; [| split; [done | simpl; set_solver]].
    split; simpl; try done.
    + intros i. rewrite Hd', Hw'. apply Hd.
    + intros w. rewrite Hw. unfold live. rewrite Hw', Hd'. split; [by left |].
      intros [? | ?%not_elem_of_nil]; done.
  - destruct (bool_decide_reflect (cmd = cmd_A)) as [-> | HnA]; [| destruct (bool_decide_reflect (cmd = cmd_D)) as [-> | HnD]].
    + destruct Hse as [Hb Hd Hp Hw].
      destruct (bool_decide_reflect (buf ∈ word_list st)) as [Hin | Hnin].
      * exists st. split; [done |]. split; [done |]. split; [set_solver |]. naive_solver.
      * eexists. split; [done |]. split; [| split; [done | simpl; set_solver]].
        split; simpl; try done.
        -- apply Forall_app. split; [done |]. repeat constructor; by apply HA.
        -- intros w. rewrite elem_of_union, elem_of_app, Hw, elem_of_singleton, list_elem_of_singleton. tauto.
    + destruct Hse as [Hb Hd Hp Hw]. eexists. split; [done |].
      split; [| split; [done | simpl; set_solver]].
      split; simpl; try done.
      * by apply deleteWord_built.
      * by apply deleteWord_del_ok.
      * intros w. rewrite elem_of_difference, Hw, elem_of_singleton, live_delete.
        rewrite andb_True, negb_True, bool_decide_spec.
        assert (w ∈ pending st → w ≠ buf) by (intros ?%Hadd ->; by apply HD). tauto.
    + exists st. split; [done |]. split; [done |]. split; [done |]. done.
Qed.

Lemma main_loop_spec cs : ∀ st (added : list str),
  session st → Forall command_ok cs → no_pending_delete added cs →
  (∀ w, w ∈ pending st → w ∈ added) →
  main_loop st cs = Ret (spec_run (word_list st) cs).
Proof.
  induction cs as [| [cmd buf] cs IH]; intros st added Hse Hok Hnpd Hadd; [done |].
  inversion Hok as [| ? ? Hc Hok']; subst. cbn [main_loop spec_run].
  destruct (main_step_spec st (cmd, buf) added) as (st' & -> & Hse' & Hwl & Hadd'); try done.
  { simpl. intros ->. simpl in Hnpd. by destruct Hnpd. }
  obind. destruct (spec_step (word_list st) (cmd, buf)) as [live' out] eqn:E. simpl in *. subst live'.
  destruct (bool_decide_reflect (cmd = cmd_Q)) as [HQ | HnQ].
  { by rewrite (IH st' []) by (auto; naive_solver). }
  destruct (bool_decide_reflect (cmd = cmd_A)) as [HA | HnA].
  { by rewrite (IH st' (buf :: added)) by (auto; set_solver). }
  destruct (bool_decide_reflect (cmd = cmd_D)) as [HD | HnD].
  - by rewrite (IH st' added) by (auto; by destruct Hnpd).
  - by rewrite (IH st' added) by auto.
Qed.

Lemma main_init_spec init :
  Forall word_ok init →
  ∃ st, main_init init = Ret st ∧ session st ∧ word_list st = list_to_set init ∧ pending st = [].
Proof.
  intros Hok. unfold main_init.
  pose proof (total_length_nonneg init).
  destruct (addWord_spec (new_AhoCorasick (Z.of_nat (length init)) (total_length init))
    (set_iter (list_to_set init))) as (fsa & -> & Hb & Hw & Hd).
  - apply new_shape; lia.
  - rewrite Forall_forall in *. intros w. rewrite elem_of_set_iter, elem_of_list_to_set. apply Hok.
  - obind. eexists. split; [done |]. split; [| done]. split; simpl; try done.
    + intros i. rewrite Hd. simpl. set_solver.
    + intros w. rewrite <- elem_of_set_iter.
      rewrite <- (last_idx_elem _ _ 0). unfold live. rewrite Hw, Hd. simpl.
      destruct (last_idx (set_iter (list_to_set init)) w 0) as [i |].
      * rewrite bool_decide_true by set_solver. naive_solver.
      * split; [by intros [] |]. by intros [[] | ?%not_elem_of_nil].
Qed.

Lemma ac_main_spec init cs :
  Forall word_ok init → Forall command_ok cs → no_pending_delete [] cs →
  ac_main init cs = Ret (main_ready :: spec_run (list_to_set init) cs).
Proof.
  intros Hinit Hcs Hnpd. unfold ac_main.
  destruct (main_init_spec init Hinit) as (st & -> & Hse & Hwl & Hp). obind.
  rewrite (main_loop_spec cs st []) by (auto; by rewrite Hp). obind. by rewrite Hwl.
Qed.

(** ** Theorems *)

(** C17: For lowercase words, and when no word is deleted while it is still in
    the buffer, the program prints exactly the lines of the specification:
    the automaton never leaves its table, and buffering, deletion marks and
    re-added words are invisible. *)
Theorem ac_main_refines_spec (init : list str) (cs : list command) :
  Forall word_ok init → Forall command_ok cs → no_pending_delete [] cs →
  ac_main init cs = Ret (main_ready :: spec_run (list_to_set init) cs).
Proof. apply ac_main_spec. Qed.

(** C20: The two solutions of project 1 are equivalent on those sessions: the
    KMP program, under any thread schedule, prints [outs] exactly when the
    Aho-Corasick program returns [outs]. *)
Theorem solutions_agree (init : list str) (cs : list command) (outs : list str) :
  Forall word_ok init → Forall command_ok cs → no_pending_delete [] cs →
  kmp_main init cs outs ↔ ac_main init cs = Ret outs.
Proof.
  intros Hinit Hcs Hnpd. rewrite ac_main_spec by done.
  assert ([] ∉ (list_to_set init : gset str)) as Hne.
  { rewrite elem_of_list_to_set. rewrite Forall_forall in Hinit. by intros [_ ?]%Hinit. }
  assert (words_nonempty cs) as Hwne.
  { unfold words_nonempty. eapply Forall_impl; [done |]. intros c [_ H] HA. by apply H. }
  unfold kmp_main. setoid_rewrite (kmp_rounds_spec _ _ _ Hne Hwne).
  split; [by intros (? & -> & ->) |]. intros [= <-]. eauto.
Qed.

(** The restriction is needed: a word that is added and deleted with no
    query in between stays in the buffer, so the next query reports it although
    it is no longer in [word_list]. *)
Theorem pending_delete_reported :
  let cs := [(cmd_A, [97]); (cmd_D, [97]); (cmd_Q, [97])] in
  ac_main [[98]] cs = Ret [main_ready; [97; newline]] ∧
  spec_run {[ [98] ]} cs = [minus_one ++ [newline]].
Proof. vm_compute. split; reflexivity. Qed.

(** ** Witnesses *)

Definition demo : list command :=
  [(cmd_Q, [97; 98]); (cmd_D, ab); (cmd_A, [98]); (cmd_Q, [97; 98])].

Lemma demo_ok : Forall word_ok [ab] ∧ Forall command_ok demo ∧ no_pending_delete [] demo.
Proof.
  split; [apply ab_ok |]. split.
  - repeat constructor; simpl; try discriminate; intros _; unfold letter, char_a; simpl; lia.
  - vm_compute. split; [| done]. by intros ?%elem_of_nil.
Qed.

Lemma ac_main_refines_spec_witness :
  ac_main [ab] demo = Ret [main_ready; ab ++ [newline]; [98; newline]].
Proof.
  destruct demo_ok as (H1 & H2 & H3). rewrite (ac_main_refines_spec [ab] demo H1 H2 H3).
  vm_compute. reflexivity.
Defined.

Lemma solutions_agree_witness :
  kmp_main [ab] demo [main_ready; ab ++ [newline]; [98; newline]].
Proof.
  destruct demo_ok as (H1 & H2 & H3). apply (solutions_agree [ab] demo _ H1 H2 H3).
  vm_compute. reflexivity.
Defined.
