(* ===== verification/Monitor.v ===== *)
(** * The lock manager of project 2
    (src/project2/lockinfo.h, rwlock.h, record.h, monitor.h, monitor.cpp)

    A [Monitor] keeps, per record, the queue of lock requests in arrival order
    and, per thread, the set of threads it waits for.  [deadlock_check] adds the
    dependencies of a request and looks for a cycle through the requester before
    it lets the request into the queue. *)

From S2P Require Import Prelude.

(** ** lockinfo.h *)

Inductive LockType := R | W1 | W2.

#[global] Instance LockType_eq_dec : EqDecision LockType.
Proof. solve_decision. Defined.

Record LockInfo := mkLock {
  index : nat;
  type : LockType;
  tid : nat;
  getLock : bool
}.

#[global] Instance LockInfo_eq_dec : EqDecision LockInfo.
Proof. solve_decision. Defined.

(** [operator==] does not compare [getLock]. *)
Definition same_lock (a b : LockInfo) : bool :=
  bool_decide (index a = index b) && bool_decide (type a = type b) && bool_decide (tid a = tid b).

(** The enum value used as a column of [threads_info]. *)
Definition LockType_int (t : LockType) : nat := match t with R => 0 | W1 => 1 | W2 => 2 end.

(** ** rwlock.h

    The mutex is owned by a thread or free.  The condition variables carry no
    state of their own: a sleeping thread may wake at any time. *)

Record RWLock := mkRW {
  mtx : option nat;
  numReader : Z;
  writing : bool
}.

(** The scans of [checkQueue] up to the request. *)
Fixpoint all_readers_before (waitings : list LockInfo) (req : LockInfo) : bool :=
  match waitings with
  | [] => true
  | r :: ws =>
      if same_lock r req then true
      else if bool_decide (type r ≠ R) then false
      else all_readers_before ws req
  end.

Fixpoint granted_readers_before (waitings : list LockInfo) (req : LockInfo) : bool :=
  match waitings with
  | [] => true
  | r :: ws =>
      if same_lock r req then true
      else if bool_decide (type r = W1) || bool_decide (type r = W2) || negb (getLock r) then false
      else granted_readers_before ws req
  end.

(** [front()] of an empty vector is undefined behaviour. *)
Definition checkQueue (waitings : list LockInfo) (req : LockInfo) : outcome bool :=
  match waitings with
  | [] => UB
  | first :: _ =>
      if same_lock req first then Ret true
      else if bool_decide (type req = R) then Ret (all_readers_before waitings req)
      else Ret (granted_readers_before waitings req)
  end.

(** ** record.h *)

Record Record_ := mkRecord {
  rec_index : nat;
  value : Z;
  rwlock : RWLock
}.

Definition new_RWLock : RWLock := mkRW None 0 false.
Definition new_Record : Record_ := mkRecord 0 100 new_RWLock.

(** ** monitor.h, monitor.cpp *)

Inductive Status := get | waiting | deadlock.

Record Monitor := mkMonitor {
  threads_info : list (list Z);
  lock_request : list (list LockInfo);
  records : list Record_;
  dependThreads : list (gset nat)
}.

Definition UNDEFINED : Z := -1.

Definition new_Monitor (numThreads numRecords : nat) : Monitor := {|
  threads_info := replicate numThreads (replicate 3 UNDEFINED);
  lock_request := replicate numRecords [];
  records := imap (λ i r, mkRecord i (value r) (rwlock r)) (replicate numRecords new_Record);
  dependThreads := replicate numThreads ∅
|}.

Definition set_queue (m : Monitor) (q : list (list LockInfo)) : Monitor :=
  mkMonitor (threads_info m) q (records m) (dependThreads m).
Definition set_depend (m : Monitor) (d : list (gset nat)) : Monitor :=
  mkMonitor (threads_info m) (lock_request m) (records m) d.
Definition set_info (m : Monitor) (i : list (list Z)) : Monitor :=
  mkMonitor i (lock_request m) (records m) (dependThreads m).
Definition set_records (m : Monitor) (r : list Record_) : Monitor :=
  mkMonitor (threads_info m) (lock_request m) r (dependThreads m).

(** The loops of [getLock] that set the flag of the request. *)
Definition mark_granted (q : list LockInfo) (req : LockInfo) : list LockInfo :=
  (λ r, if same_lock r req then mkLock (index r) (type r) (tid r) true else r) <$> q.

(** [find] and [erase]. *)
Fixpoint erase_first (q : list LockInfo) (req : LockInfo) : list LockInfo :=
  match q with
  | [] => []
  | r :: q => if same_lock r req then q else r :: erase_first q req
  end.

Definition deleteLock (m : Monitor) (req : LockInfo) : outcome Monitor :=
  q ← update (lock_request m) (index req) (λ q, erase_first q req);
  info ← update (threads_info m) (tid req) (<[LockType_int (type req) := UNDEFINED]>);
  dep ← update (dependThreads m) (tid req) (λ _, ∅);
  Ret (mkMonitor info q (records m) ((λ s, s ∖ {[tid req]}) <$> dep)).

(** The dependencies added by a request. *)
Definition depends_on (req r : LockInfo) : bool :=
  bool_decide (type req = R) && bool_decide (type r ≠ R) || bool_decide (type req ≠ R).

Definition dependencies (q : list LockInfo) (req : LockInfo) : gset nat :=
  list_to_set (tid <$> filter (λ r, depends_on req r) q).

(** Iteration over a [set<int>]. *)
Definition set_order (s : gset nat) : list nat := merge_sort le (elements s).

(** The breadth-first search: [queue] is [checkDepend]. *)
Fixpoint find_cycle (fuel : nat) (dep : list (gset nat)) (me : nat)
    (queue : list nat) (visited : gset nat) : outcome bool :=
  match fuel with
  | O => NoFuel
  | S fuel =>
      match queue with
      | [] => Ret false
      | cur :: queue =>
          if bool_decide (cur = me) then Ret true
          else if bool_decide (cur ∈ visited) then find_cycle fuel dep me queue visited
          else
            s ← at_ dep cur;
            find_cycle fuel dep me (queue ++ set_order s) ({[cur]} ∪ visited)
      end
  end.

(** Number of edges of the dependency graph. *)
Definition edges (dep : list (gset nat)) : nat := sum_list (size <$> dep).

(** Enough rounds: every edge is pushed at most once as an edge of a visited
    thread, and once more when the search starts. *)
Definition cycle_fuel (dep : list (gset nat)) : nat := S (2 * edges dep).

Definition deadlock_check (m : Monitor) (req : LockInfo) : outcome (Monitor * Status) :=
  q ← at_ (lock_request m) (index req);
  dep ← update (dependThreads m) (tid req) (λ s, s ∪ dependencies q req);
  mine ← at_ dep (tid req);
  let m := set_depend m dep in
  cycle ← find_cycle (cycle_fuel dep) dep (tid req) (set_order mine) ∅;
  if (cycle : bool) then Ret (m, deadlock)
  else
    reqs ← update (lock_request m) (index req) (λ q, q ++ [req]);
    info ← update (threads_info m) (tid req) (<[LockType_int (type req) := Z.of_nat (index req)]>);
    let m := mkMonitor info reqs (records m) dep in
    q ← at_ reqs (index req);
    match q with
    | [] => UB
    | first :: _ =>
        if same_lock first req then Ret (m, get)
        else if bool_decide (type req = R) then
          Ret (m, if all_readers_before q req then get else waiting)
        else Ret (m, waiting)
    end.

(** [Monitor::read] and [Monitor::write]: the [int64_t] field is read as an
    [int]. *)
Definition mon_read (m : Monitor) (i : nat) : outcome Z :=
  r ← at_ (records m) i; Ret (wrap32 (value r)).

Definition mon_write (m : Monitor) (i : nat) (v : Z) : outcome Monitor :=
  recs ← update (records m) i (λ r, mkRecord (rec_index r) v (rwlock r));
  Ret (set_records m recs).

(** ** The search decides whether the requester lies on a cycle *)

Definition dep_edge (dep : list (gset nat)) (a b : nat) : Prop :=
  ∃ s, dep !! a = Some s ∧ b ∈ s.

(** Every thread that is waited for has a row in the graph. *)
Definition dep_closed (dep : list (gset nat)) : Prop :=
  ∀ a b, dep_edge dep a b → (b < length dep)%nat.

(** Edges out of the threads that have not been visited. *)
Definition unvisited (dep : list (gset nat)) (visited : gset nat) : nat :=
  sum_list (imap (λ t s, if decide (t ∈ visited) then 0 else size s)%nat dep).

Lemma elem_of_set_order s x : x ∈ set_order s ↔ x ∈ s.
Proof. unfold set_order. rewrite merge_sort_Permutation. apply elem_of_elements. Qed.

Lemma length_set_order s : length (set_order s) = size s.
Proof. unfold set_order. by rewrite merge_sort_Permutation. Qed.

Lemma unvisited_shift (f : nat → gset nat → nat) (dep : list (gset nat)) cur s :
  dep !! cur = Some s → f cur s = size s → ∀ f',
  f' cur s = 0%nat → (∀ t s', t ≠ cur → f' t s' = f t s') →
  (sum_list (imap f' dep) + size s = sum_list (imap f dep))%nat.
Proof.
  revert f cur. induction dep as [| d dep IH]; intros f cur Hl Hf f' Hf' Heq; [done |].
  destruct cur as [| cur]; simpl in *.
  - simplify_eq. rewrite Hf', Hf.
    assert (imap (f' ∘ S) dep = imap (f ∘ S) dep) as ->.
    { apply imap_ext. intros i x _. simpl. by apply Heq. }
    lia.
  - rewrite Heq by lia.
    rewrite <- (IH (f ∘ S) cur Hl Hf (f' ∘ S) Hf'); [lia |].
    intros t s' Ht. simpl. apply Heq. lia.
Qed.

Lemma unvisited_add dep visited cur s :
  dep !! cur = Some s → cur ∉ visited →
  (unvisited dep ({[cur]} ∪ visited) + size s = unvisited dep visited)%nat.
Proof.
  intros Hl Hnv. unfold unvisited. apply (unvisited_shift _ dep cur); [done | | |].
  - by rewrite decide_False.
  - rewrite decide_True by set_solver. done.
  - intros t s' Ht. destruct (decide (t ∈ visited)).
    + by rewrite decide_True by set_solver.
    + by rewrite decide_False by set_solver.
Qed.

(** The state of the search: everything seen is reachable from [me], and the
    edges out of [me] and out of the visited threads lead to something seen. *)
Record bfs_inv (dep : list (gset nat)) (me : nat) (queue : list nat) (visited : gset nat) : Prop := {
  bfs_reach x : x ∈ queue ∨ x ∈ visited → tc (dep_edge dep) me x;
  bfs_me : me ∉ visited;
  bfs_start x : dep_edge dep me x → x ∈ queue ∨ x ∈ visited;
  bfs_step v x : v ∈ visited → dep_edge dep v x → x ∈ queue ∨ x ∈ visited
}.

Lemma bfs_done dep me visited :
  bfs_inv dep me [] visited → ¬ tc (dep_edge dep) me me.
Proof.
  intros [_ Hme Hstart Hstep] Hc.
  assert (∀ x, tc (dep_edge dep) me x → x ∈ visited) as Hall.
  { intros x Hx. revert x Hx. apply tc_ind_r.
    - intros y Hy%Hstart. set_solver.
    - intros y z _ Hyz Hy. specialize (Hstep y z Hy Hyz). set_solver. }
  by apply Hme, Hall.
Qed.

Lemma tc_closed dep a b : dep_closed dep → tc (dep_edge dep) a b → (b < length dep)%nat.
Proof. intros Hcl. induction 1 as [a b He | a b c He Hbc IH]; [by apply (Hcl a) | done]. Qed.

Lemma find_cycle_spec fuel dep me queue visited :
  dep_closed dep → bfs_inv dep me queue visited →
  (length queue + unvisited dep visited < fuel)%nat →
  ∃ b, find_cycle fuel dep me queue visited = Ret b ∧ (b = true ↔ tc (dep_edge dep) me me).
Proof.
  intros Hcl. revert queue visited.
  induction fuel as [| fuel IH]; intros queue visited Hinv Hfuel; [lia |]. simpl.
  destruct queue as [| cur queue].
  { exists false. split; [done |]. split; [done |]. intros Hc. by apply (bfs_done _ _ _ Hinv) in Hc. }
  assert (tc (dep_edge dep) me cur) as Hcur by (apply (bfs_reach _ _ _ _ Hinv); left; by left).
  destruct (bool_decide_reflect (cur = me)) as [-> | Hne]; [by exists true |].
  destruct Hinv as [Hreach Hme Hstart Hstep].
  destruct (bool_decide_reflect (cur ∈ visited)) as [Hv | Hv].
  { apply IH; [| simpl in Hfuel; lia]. split; [| done | |].
    - intros x Hx. apply Hreach. set_solver.
    - intros x Hx%Hstart. set_solver.
    - intros v x Hvv Hx. specialize (Hstep v x Hvv Hx). set_solver. }
  pose proof (tc_closed dep me cur Hcl Hcur) as Hlt.
  destruct (lookup_lt_is_Some_2 dep cur Hlt) as [s Hs].
  unfold at_. rewrite Hs. simpl. apply IH.
  - split.
    + intros x. rewrite elem_of_app, elem_of_set_order, elem_of_union, elem_of_singleton.
      intros [[Hq | Hq] | [-> | Hq]]; [apply Hreach; set_solver | | done | apply Hreach; set_solver].
      eapply tc_r; [done |]. by exists s.
    + set_solver.
    + intros x Hx%Hstart. set_solver.
    + intros v x. rewrite elem_of_union, elem_of_singleton, elem_of_app, elem_of_set_order.
      intros [-> | Hvv] Hx; [destruct Hx as (s' & Hs' & Hx); simplify_eq; auto |].
      specialize (Hstep v x Hvv Hx). set_solver.
  - rewrite length_app, length_set_order. simpl in Hfuel.
    pose proof (unvisited_add dep visited cur s Hs Hv). lia.
Qed.

Lemma sum_imap_fmap (f : gset nat → nat) dep : sum_list (imap (λ _ s, f s) dep) = sum_list (f <$> dep).
Proof. induction dep as [| d dep IH]; simpl; [done | by f_equal]. Qed.

Lemma unvisited_empty dep : unvisited dep ∅ = edges dep.
Proof.
  unfold unvisited, edges. by rewrite <- sum_imap_fmap.
Qed.

Lemma size_le_edges dep t s : dep !! t = Some s → (size s ≤ edges dep)%nat.
Proof.
  unfold edges. revert t. induction dep as [| d dep IH]; intros [| t] [=]; try done.
  - subst. cbn. lia.
  - assert (size s ≤ sum_list (size <$> dep))%nat by eauto. cbn. lia.
Qed.

Lemma search_from_me dep me mine :
  dep_closed dep → dep !! me = Some mine →
  ∃ b, find_cycle (cycle_fuel dep) dep me (set_order mine) ∅ = Ret b ∧
    (b = true ↔ tc (dep_edge dep) me me).
Proof.
  intros Hcl Hme. apply find_cycle_spec; [done | |].
  - split.
    + intros x [Hx%elem_of_set_order | Hx]; [| set_solver]. apply tc_once. by exists mine.
    + set_solver.
    + intros x (s & Hs & Hx). simplify_eq. left. by apply elem_of_set_order.
    + set_solver.
  - rewrite length_set_order, unvisited_empty. unfold cycle_fuel.
    pose proof (size_le_edges dep me mine Hme). lia.
Qed.

(** ** What [deadlock_check] does *)

(** Queues only name threads of the table, and so does the graph. *)
Record mon_wf (m : Monitor) : Prop := {
  wf_info : length (threads_info m) = length (dependThreads m);
  wf_recs : length (records m) = length (lock_request m);
  wf_queue x q r : lock_request m !! x = Some q → r ∈ q → (tid r < length (dependThreads m))%nat;
  wf_dep : dep_closed (dependThreads m)
}.

Lemma dep_edge_insert (dep : list (gset nat)) t s a b :
  (t < length dep)%nat →
  dep_edge (<[t := s]> dep) a b ↔ (a = t ∧ b ∈ s) ∨ (a ≠ t ∧ dep_edge dep a b).
Proof.
  intros Ht. unfold dep_edge. destruct (decide (a = t)) as [-> | Hne].
  - rewrite list_lookup_insert_eq by done. naive_solver.
  - rewrite list_lookup_insert_ne by done. naive_solver.
Qed.

(** The graph after the dependencies of a request have been added. *)
Definition add_deps (m : Monitor) (q : list LockInfo) (req : LockInfo) : list (gset nat) :=
  <[tid req := default ∅ (dependThreads m !! tid req) ∪ dependencies q req]> (dependThreads m).

Lemma elem_of_dependencies q req t :
  t ∈ dependencies q req ↔ ∃ r, r ∈ q ∧ tid r = t ∧ depends_on req r.
Proof.
  unfold dependencies. rewrite elem_of_list_to_set, list_elem_of_fmap.
  setoid_rewrite list_elem_of_filter. naive_solver.
Qed.

Lemma add_deps_edge m q req a b :
  (tid req < length (dependThreads m))%nat →
  dep_edge (add_deps m q req) a b ↔
  dep_edge (dependThreads m) a b ∨
  (a = tid req ∧ ∃ r, r ∈ q ∧ tid r = b ∧ depends_on req r).
Proof.
  intros Ht. unfold add_deps. rewrite dep_edge_insert by done.
  rewrite elem_of_union, elem_of_dependencies.
  destruct (lookup_lt_is_Some_2 _ _ Ht) as [s0 Hs0]. rewrite Hs0. simpl.
  destruct (decide (a = tid req)) as [-> | Hne]; [| naive_solver].
  assert (dep_edge (dependThreads m) (tid req) b ↔ b ∈ s0) as ->; [| naive_solver].
  unfold dep_edge. naive_solver.
Qed.

Lemma add_deps_closed m q req :
  mon_wf m → lock_request m !! index req = Some q → (tid req < length (dependThreads m))%nat →
  dep_closed (add_deps m q req).
Proof.
  intros [_ _ Hq Hd] Hl Ht a b. rewrite add_deps_edge by done.
  unfold add_deps. rewrite length_insert. intros [He | (_ & r & Hr & <- & _)].
  - by apply (Hd a).
  - by apply (Hq (index req) q).
Qed.

(** The request may proceed at once. *)
Definition grantable (q : list LockInfo) (req : LockInfo) : bool :=
  match q ++ [req] with
  | first :: _ =>
      same_lock first req || bool_decide (type req = R) && all_readers_before (q ++ [req]) req
  | [] => false
  end.

Definition enqueued (m : Monitor) (q : list LockInfo) (req : LockInfo) : Monitor :=
  mkMonitor (alter (<[LockType_int (type req) := Z.of_nat (index req)]>) (tid req) (threads_info m))
    (<[index req := q ++ [req]]> (lock_request m)) (records m) (add_deps m q req).

Lemma alter_insert_eq {A} (l : list A) i f x : l !! i = Some x → alter f i l = <[i := f x]> l.
Proof. intros H. revert i H. induction l; intros [| i] H; simplify_eq/=; f_equal; eauto. Qed.

Lemma deadlock_check_spec m q req :
  mon_wf m → lock_request m !! index req = Some q → (tid req < length (dependThreads m))%nat →
  (tc (dep_edge (add_deps m q req)) (tid req) (tid req) ∧
     deadlock_check m req = Ret (set_depend m (add_deps m q req), deadlock)) ∨
  (¬ tc (dep_edge (add_deps m q req)) (tid req) (tid req) ∧
     deadlock_check m req =
       Ret (enqueued m q req, if grantable q req then get else waiting)).
Proof.
  intros Hwf Hq Ht. unfold deadlock_check. rewrite (at_lookup _ _ _ Hq). obind.
  destruct (lookup_lt_is_Some_2 _ _ Ht) as [s Hs].
  rewrite (update_insert _ _ _ _ Hs). obind.
  assert (<[tid req := s ∪ dependencies q req]> (dependThreads m) = add_deps m q req) as ->
    by (unfold add_deps; by rewrite Hs).
  assert (add_deps m q req !! tid req = Some (s ∪ dependencies q req)) as Hmine
    by (unfold add_deps; rewrite Hs; by apply list_lookup_insert_eq).
  rewrite (at_lookup _ _ _ Hmine). obind.
  destruct (search_from_me (add_deps m q req) (tid req) _
    (add_deps_closed m q req Hwf Hq Ht) Hmine) as (b & -> & Hb). obind.
  destruct b; [left; split; [by apply Hb | done] |].
  right. split; [intros Hc; by apply Hb in Hc |].
  cbn [lock_request threads_info records set_depend].
  rewrite (update_insert _ _ _ _ Hq). obind.
  destruct (lookup_lt_is_Some_2 (threads_info m) (tid req)) as [ti Hti].
  { by rewrite (wf_info _ Hwf). }
  rewrite (update_insert _ _ _ _ Hti). obind.
  rewrite (at_lookup _ _ (q ++ [req])) by (apply list_lookup_insert_eq; by apply lookup_lt_Some in Hq).
  obind.
  unfold grantable, enqueued. rewrite (alter_insert_eq _ _ _ _ Hti).
  destruct (q ++ [req]) as [| first rest] eqn:E; [by destruct q |].
  destruct (same_lock first req); [done |]. simpl.
  by destruct (bool_decide (type req = R)).
Qed.

(** C21: On every well-formed lock table [deadlock_check] returns, and it
    answers [deadlock] exactly when the new dependencies of the request close a
    cycle through the requesting thread; only then the request stays out of the
    queue, otherwise it becomes the last entry and is granted at once exactly
    when nothing that conflicts with it is ahead. *)
Theorem deadlock_check_decides m q req :
  mon_wf m → lock_request m !! index req = Some q → (tid req < length (dependThreads m))%nat →
  ∃ m' st, deadlock_check m req = Ret (m', st) ∧
    (st = deadlock ↔ tc (dep_edge (add_deps m q req)) (tid req) (tid req)) ∧
    (st = deadlock → lock_request m' = lock_request m) ∧
    (st ≠ deadlock → lock_request m' !! index req = Some (q ++ [req]) ∧
       (st = get ↔ grantable q req = true)).
Proof.
  intros Hwf Hq Ht. pose proof (lookup_lt_Some _ _ _ Hq) as Hlt.
  destruct (deadlock_check_spec m q req Hwf Hq Ht) as [[Hc He] | [Hc He]]; eexists _, _; (split; [exact He |]).
  - split; [done |]. split; [done | by intros []].
  - split; [by destruct (grantable q req) |]. split; [by destruct (grantable q req) |].
    intros _. cbn. split; [by apply list_lookup_insert_eq | by destruct (grantable q req)].
Qed.

(** Thread 0 holds record 0 and waits for thread 1, which asks for record 0. *)
Definition crossed_locks : Monitor := {|
  threads_info := [[0; -1; -1]; [-1; -1; -1]];
  lock_request := [[mkLock 0 R 0 true]; []; []];
  records := replicate 3 new_Record;
  dependThreads := [{[1%nat]}; ∅]
|}.

Lemma crossed_locks_wf : mon_wf crossed_locks.
Proof.
  split; [done | done | |].
  - intros [| [| [| x]]] q r Hq Hr; simplify_eq/=; [| by apply not_elem_of_nil in Hr..].
    apply list_elem_of_singleton in Hr as ->. simpl. lia.
  - intros [| [| a]] b (s & Hs & Hb); simplify_eq/=; [| set_solver].
    apply elem_of_singleton in Hb as ->. lia.
Qed.

Lemma deadlock_check_decides_witness :
  let req := mkLock 0 W1 1 false in
  ∃ m' st, deadlock_check crossed_locks req = Ret (m', st) ∧
    (st = deadlock ↔ tc (dep_edge (add_deps crossed_locks [mkLock 0 R 0 true] req)) 1%nat 1%nat).
Proof.
  intros req.
  destruct (deadlock_check_decides crossed_locks [mkLock 0 R 0 true] req) as (m' & st & H1 & H2 & _);
    [exact crossed_locks_wf | reflexivity | simpl; lia |].
  exists m', st. split; [exact H1 | exact H2].
Defined.
