(* ===== verification/Transaction.v ===== *)
(** * The worker threads of project 2
    (src/project2/transaction.h, transaction.cpp, random.h, rwlock.h, test.py)

    [Transaction::work] as a machine: a thread is a program counter with the
    local variables of the loop body, the shared state is the global mutex, the
    monitor, the execution order and the lines written to the output files, and
    [tstep] runs one thread up to its next access to shared state.  Threads
    interleave step by step in any order.

    A pass over a queue ([checkQueue], the marking in [getLock], [deadlock_check],
    [deleteLock]) is one step, although a request that was told to wait looks
    through its queue and marks itself there with [mtx] only, or without a mutex,
    while others change the queue.  What such a race does is not followed here:
    the theorems about this machine hold for executions without it, and
    [TxProgress] says exactly which pairs of steps race.

    A step that has to wait for a mutex is not enabled while the mutex is
    taken.  A thread sleeping on a condition variable may run its wake-up step
    at any moment the mutex is free: notified or spuriously.  [test.py] is at
    the end of the file. *)

From S2P Require Import Prelude Monitor.

(** ** random.h *)

Definition numGet : nat := 3.

(** The loop of [Random::get] over the numbers drawn from the distribution;
    [None] while it still draws. *)
Fixpoint draw (draws : list nat) (ret : list nat) : option (list nat) :=
  if bool_decide (numGet ≤ length ret)%nat then Some ret
  else
    match draws with
    | [] => None
    | t :: draws => if bool_decide (t ∈ ret) then draw draws ret else draw draws (ret ++ [t])
    end.

(** The order in which an [unordered_set] is traversed is not specified. *)
Definition random_get (order : list nat → list nat) (draws : list nat) : option (list nat) :=
  order <$> draw draws [].

(** The vectors [get] can return for records [0 .. R-1]. *)
Definition random_result (numRecords : nat) (v : list nat) : Prop :=
  NoDup v ∧ length v = numGet ∧ Forall (λ x, x < numRecords)%nat v.
#[global] Instance random_result_dec n v : Decision (random_result n v).
Proof. unfold random_result. apply _. Defined.

(** ** The state of the machine *)

(** A line of [thread<tid+1>.txt]. *)
Record line := mkLine {
  l_tid : nat;
  l_cid : Z;
  l_i : nat; l_j : nat; l_k : nat;
  l_iv : Z; l_jv : Z; l_kv : Z
}.

(** Inside [getLock]: entering [mtx], the predicate of [writer.wait], the test
    of the do loop, asleep on [writer], the loop on [numReader], asleep on
    [reader], setting the flag in the queue. *)
Inductive acq := AMtx | APred | ATest | AWait | ADrain | ADWait | AFlag.

(** The constructors follow [work]; the stage [R], [W1] or [W2] tells which of
    the three requests is meant.  [Get s a g]: inside [getLock], with the
    global mutex held when [g].  [Rel c ls]: in the release loop with [ls]
    left, of a commit ([c]) or of [undo]; [RelRw c r ls]: [r] is out of the
    queue and about to leave the rw lock.  [Log cid vs]: writing the line,
    values [vs] read so far. *)
Inductive pc :=
| Head
| Lock (s : LockType) | Check (s : LockType)
| Get (s : LockType) (a : acq) (g : bool)
| Relock (s : LockType) | Unlock (s : LockType) | Access (s : LockType)
| WriteJ | WriteK | UndoJ | CLock
| Rel (c : bool) (ls : list LockInfo)
| RelRw (c : bool) (r : LockInfo) (ls : list LockInfo)
| Commit | Log (cid : Z) (vs : list Z) | Roll (s : LockType)
| UnlockHead | UnlockExit | Exit.

#[global] Instance acq_eq_dec : EqDecision acq.
Proof. solve_decision. Defined.
#[global] Instance pc_eq_dec : EqDecision pc.
Proof. solve_decision. Defined.

Record thread := mkThread {
  at_pc : pc;
  ri : nat; rj : nat; rk : nat;
  i_value : Z; j_value : Z; k_value : Z;
  havingLocks : list LockInfo
}.

Record shared := mkShared {
  global_mutex : option nat;
  monitor : Monitor;
  global_execution_order : Z;
  lines : list line
}.

Definition goto (p : pc) (th : thread) : thread :=
  mkThread p (ri th) (rj th) (rk th) (i_value th) (j_value th) (k_value th) (havingLocks th).

Definition rec_of (th : thread) (s : LockType) : nat :=
  match s with R => ri th | W1 => rj th | W2 => rk th end.

(** [req = { i, LockType::R, tid, false }] and the other two. *)
Definition request (tid : nat) (th : thread) (s : LockType) : LockInfo :=
  mkLock (rec_of th s) s tid false.

Definition push_having (l : LockInfo) (th : thread) : thread :=
  mkThread (at_pc th) (ri th) (rj th) (rk th) (i_value th) (j_value th) (k_value th)
    (havingLocks th ++ [l]).

(** [i_value = monitor->read(i)] and the other two. *)
Definition set_value (s : LockType) (v : Z) (th : thread) : thread :=
  match s with
  | R => mkThread (at_pc th) (ri th) (rj th) (rk th) v (j_value th) (k_value th) (havingLocks th)
  | W1 => mkThread (at_pc th) (ri th) (rj th) (rk th) (i_value th) v (k_value th) (havingLocks th)
  | W2 => mkThread (at_pc th) (ri th) (rj th) (rk th) (i_value th) (j_value th) v (havingLocks th)
  end.

Definition value_of (th : thread) (s : LockType) : Z :=
  match s with R => i_value th | W1 => j_value th | W2 => k_value th end.

Definition set_mutex (o : option nat) (sh : shared) : shared :=
  mkShared o (monitor sh) (global_execution_order sh) (lines sh).
Definition set_mon (m : Monitor) (sh : shared) : shared :=
  mkShared (global_mutex sh) m (global_execution_order sh) (lines sh).

Definition set_rw (m : Monitor) (x : nat) (f : RWLock → RWLock) : outcome Monitor :=
  recs ← update (records m) x (λ r, mkRecord (rec_index r) (value r) (f (rwlock r)));
  Ret (set_records m recs).

Definition get_rw (m : Monitor) (x : nat) : outcome RWLock :=
  r ← at_ (records m) x; Ret (rwlock r).

Definition set_mtx (o : option nat) (l : RWLock) : RWLock := mkRW o (numReader l) (writing l).

(** ** The steps *)

(** What follows a step that may have to wait. *)
Definition then_ {A B} (o : outcome (option A)) (f : A → B) : outcome (option B) :=
  r ← o;
  match r with Some a => Ret (Some (f a)) | None => Ret None end.

(** Take [mtx] of a record, when it is free. *)
Definition enter_mtx (tid x : nat) (m : Monitor) : outcome (option Monitor) :=
  rw ← get_rw m x;
  match mtx rw with
  | Some _ => Ret None
  | None => m ← set_rw m x (set_mtx (Some tid)); Ret (Some m)
  end.

(** [Monitor::getLock] with [RWLock::lockShared] (stage [R]) or
    [RWLock::lockExclusive] (stages [W1], [W2]). *)
Definition acq_step (tid : nat) (th : thread) (s : LockType) (a : acq) (g : bool) (m : Monitor) :
    outcome (option (pc * Monitor)) :=
  let x := rec_of th s in
  let req := request tid th s in
  match a with
  | AMtx | AWait =>
      then_ (enter_mtx tid x m) (λ m, (Get s APred g, m))
  | APred =>
      q ← at_ (lock_request m) x;
      b ← checkQueue q req;
      if (b : bool) then Ret (Some (Get s ATest g, m))
      else m ← set_rw m x (set_mtx None); Ret (Some (Get s AWait g, m))
  | ATest =>
      rw ← get_rw m x;
      if writing rw then Ret (Some (Get s APred g, m))
      else
        match s with
        | R =>
            m ← set_rw m x (λ l, mkRW None (numReader l + 1) (writing l));
            Ret (Some (Get s AFlag g, m))
        | _ =>
            m ← set_rw m x (λ l, mkRW (mtx l) (numReader l) true);
            Ret (Some (Get s ADrain g, m))
        end
  | ADrain =>
      rw ← get_rw m x;
      m ← set_rw m x (set_mtx None);
      Ret (Some (Get s (if bool_decide (numReader rw > 0) then ADWait else AFlag) g, m))
  | ADWait =>
      then_ (enter_mtx tid x m) (λ m, (Get s ADrain g, m))
  | AFlag =>
      q ← update (lock_request m) x (λ q, mark_granted q req);
      Ret (Some (if g then Unlock s else Relock s, set_queue m q))
  end.

(** [unlockShared] and [unlockExclusive]: enabled when [mtx] is free. *)
Definition unlock_rw (r : LockInfo) (m : Monitor) : outcome (option Monitor) :=
  rw ← get_rw m (index r);
  match mtx rw with
  | Some _ => Ret None
  | None =>
      m ← set_rw m (index r)
            (λ l, if bool_decide (type r = R) then mkRW (mtx l) (numReader l - 1) (writing l)
                  else mkRW (mtx l) (numReader l) false);
      Ret (Some m)
  end.

(** [getCommitId]: the [int64_t] counter is returned as an [int]. *)
Definition getCommitId (sh : shared) : Z * shared :=
  let n := global_execution_order sh + 1 in
  (wrap32 n, mkShared (global_mutex sh) (monitor sh) n (lines sh)).

(** After an access of stage [s]. *)
Definition after_access (s : LockType) : pc :=
  match s with R => Lock W1 | W1 => WriteJ | W2 => WriteK end.

(** What the switch on the status does. *)
Definition after_check (s : LockType) (st : Status) (th : thread) : pc :=
  match st with
  | waiting => Get s AMtx false
  | get => Get s AMtx true
  | deadlock => match s with R => Head | W1 => Rel false (havingLocks th) | W2 => UndoJ end
  end.

(** The order of the roll back. *)
Definition after_roll (s : LockType) : pc :=
  match s with R => Roll W1 | W1 => Roll W2 | W2 => UnlockExit end.

(** The next value of a line, and the line. *)
Definition log_stage (vs : list Z) : LockType :=
  match vs with [] => R | [_] => W1 | _ => W2 end.

Definition new_line (tid : nat) (th : thread) (cid : Z) (vs : list Z) : line :=
  mkLine tid cid (ri th) (rj th) (rk th) (vs !!! 0%nat) (vs !!! 1%nat) (vs !!! 2%nat).

Section machine.
Context (numRecords : nat) (max_global_execution_order : Z).

(** Lock and unlock the global mutex. *)
Definition lock_global (tid : nat) (p : pc) (th : thread) (sh : shared) :
    outcome (option (thread * shared)) :=
  match global_mutex sh with
  | Some _ => Ret None
  | None => Ret (Some (goto p th, set_mutex (Some tid) sh))
  end.

(** The head of the loop: [v] is what [r.get()] returns. *)
Definition head_step (v : list nat) (th : thread) (sh : shared) :
    outcome (option (thread * shared)) :=
  if bool_decide (global_execution_order sh < max_global_execution_order) then
    match v with
    | [i; j; k] =>
        if bool_decide (random_result numRecords v)
        then Ret (Some (mkThread (Lock R) i j k (i_value th) (j_value th) (k_value th) [], sh))
        else Ret None
    | _ => Ret None
    end
  else Ret (Some (goto Exit th, sh)).

Definition tstep (tid : nat) (v : list nat) (th : thread) (sh : shared) :
    outcome (option (thread * shared)) :=
  let m := monitor sh in
  match at_pc th with
  | Head => head_step v th sh
  | Lock s => lock_global tid (Check s) th sh
  | Check s =>
      '(m, st) ← deadlock_check m (request tid th s);
      let sh := set_mon m sh in
      Ret (Some (goto (after_check s st th) th,
                 match st with waiting => set_mutex None sh | _ => sh end))
  | Get s a g =>
      then_ (acq_step tid th s a g m) (λ '(p, m), (goto p th, set_mon m sh))
  | Relock s => lock_global tid (Unlock s) th sh
  | Unlock s =>
      Ret (Some (goto (Access s) (push_having (request tid th s) th), set_mutex None sh))
  | Access s =>
      x ← mon_read m (rec_of th s);
      Ret (Some (goto (after_access s) (set_value s x th), sh))
  | WriteJ =>
      x ← int_op (j_value th + i_value th);
      x ← int_op (x + 1);
      m ← mon_write m (rj th) x;
      Ret (Some (goto (Lock W2) th, set_mon m sh))
  | WriteK =>
      x ← int_op (k_value th - i_value th);
      m ← mon_write m (rk th) x;
      Ret (Some (goto CLock th, set_mon m sh))
  | UndoJ =>
      m ← mon_write m (rj th) (j_value th);
      Ret (Some (goto (Rel false (havingLocks th)) th, set_mon m sh))
  | CLock => lock_global tid (Rel true (havingLocks th)) th sh
  | Rel c [] => Ret (Some (goto (if c then Commit else UnlockHead) th, sh))
  | Rel c (r :: ls) =>
      m ← deleteLock m r;
      Ret (Some (goto (RelRw c r ls) th, set_mon m sh))
  | RelRw c r ls =>
      then_ (unlock_rw r m) (λ m, (goto (Rel c ls) th, set_mon m sh))
  | Commit =>
      let '(cid, sh) := getCommitId sh in
      Ret (Some (goto (if bool_decide (cid ≤ max_global_execution_order) then Log cid [] else Roll R) th, sh))
  | Log cid vs =>
      x ← mon_read m (rec_of th (log_stage vs));
      let vs := vs ++ [x] in
      if bool_decide (length vs = 3%nat) then
        Ret (Some (goto UnlockHead th,
                   mkShared (global_mutex sh) m (global_execution_order sh)
                     (lines sh ++ [new_line tid th cid vs])))
      else Ret (Some (goto (Log cid vs) th, sh))
  | Roll s =>
      m ← mon_write m (rec_of th s) (value_of th s);
      Ret (Some (goto (after_roll s) th, set_mon m sh))
  | UnlockHead => Ret (Some (goto Head th, set_mutex None sh))
  | UnlockExit => Ret (Some (goto Exit th, set_mutex None sh))
  | Exit => Ret None
  end.

(** ** The machine: all threads and the shared state *)

Record sys := mkSys { threads : list thread; sh : shared }.

Definition start_thread : thread := mkThread Head 0 0 0 0 0 0 [].

(** The constructor [Transaction(N, R, E)] and [run]. *)
Definition start (numThreads : nat) : sys :=
  mkSys (replicate numThreads start_thread)
    (mkShared None (new_Monitor numThreads numRecords) 0 []).

Definition sys_step (tid : nat) (v : list nat) (σ : sys) : outcome (option sys) :=
  match threads σ !! tid with
  | None => Ret None
  | Some th =>
      then_ (tstep tid v th (sh σ)) (λ '(th, sh), mkSys (<[tid := th]> (threads σ)) sh)
  end.

Inductive step : sys → sys → Prop :=
| step_intro tid v σ σ' : sys_step tid v σ = Ret (Some σ') → step σ σ'.

Definition reachable (numThreads : nat) (σ : sys) : Prop := rtc step (start numThreads) σ.

(** Run a schedule; [None] when a scheduled thread is not enabled. *)
Fixpoint run_schedule (sched : list (nat * list nat)) (σ : sys) : outcome (option sys) :=
  match sched with
  | [] => Ret (Some σ)
  | (tid, v) :: sched =>
      o ← sys_step tid v σ;
      match o with
      | None => Ret None
      | Some σ => run_schedule sched σ
      end
  end.
End machine.

Lemma run_schedule_steps numRecords E sched σ σ' :
  run_schedule numRecords E sched σ = Ret (Some σ') → rtc (step numRecords E) σ σ'.
Proof.
  revert σ. induction sched as [| [t v] sched IH]; intros σ; cbn [run_schedule]; [by intros [= ->] |].
  intros ([σ1 |] & H1 & H2)%bind_Ret_inv; [| done]. eapply rtc_l; [by econstructor | by apply IH].
Qed.

(** The state a schedule leads to. *)
Definition state_after (numRecords : nat) (E : Z) (n : nat) (sched : list (nat * list nat)) : sys :=
  match run_schedule numRecords E sched (start numRecords n) with
  | Ret (Some σ) => σ
  | _ => start numRecords n
  end.

Lemma state_after_reachable numRecords E n sched :
  reachable numRecords E n (state_after numRecords E n sched).
Proof.
  unfold state_after. destruct (run_schedule _ _ _ _) as [[σ |] | |] eqn:H; try apply rtc_refl.
  by apply run_schedule_steps in H.
Qed.

(** [random_get] returns the vectors [random_result] describes, and all of
    them. *)
Lemma draw_result numRecords draws ret v :
  Forall (λ x, x < numRecords)%nat draws → NoDup ret → (length ret ≤ numGet)%nat →
  Forall (λ x, x < numRecords)%nat ret → draw draws ret = Some v → random_result numRecords v.
Proof.
  revert ret. induction draws as [| t draws IH]; intros ret Hd Hnd Hlen Hr; simpl.
  - case_bool_decide; [| done]. intros [= <-]. split; [done |]. split; [lia | done].
  - apply Forall_cons in Hd as [Ht Hd].
    case_bool_decide as Hge; [intros [= <-]; split; [done |]; split; [lia | done] |].
    case_bool_decide as Hin; [by apply IH |]. apply IH; [done | | | ].
    + apply NoDup_app. split; [done |]. split; [set_solver | apply NoDup_singleton].
    + rewrite length_app. simpl. unfold numGet in *. lia.
    + apply Forall_app. by split; [| constructor].
Qed.

Lemma random_get_spec numRecords v :
  random_result numRecords v ↔
  ∃ order draws, (∀ l, order l ≡ₚ l) ∧ Forall (λ x, x < numRecords)%nat draws ∧
    random_get order draws = Some v.
Proof.
  split.
  - intros (Hnd & Hlen & Hr). exists (λ l, l), v. split; [done |]. split; [done |].
    destruct v as [| a [| b [| c [| ? ?]]]]; try done.
    apply NoDup_cons in Hnd as [Ha Hnd]. apply NoDup_cons in Hnd as [Hb _].
    unfold random_get. cbn. rewrite !(bool_decide_false (_ ∈ _)) by set_solver. done.
  - intros (order & draws & Hperm & Hd & Hget). unfold random_get in Hget.
    destruct (draw draws []) as [w |] eqn:Hw; [| done]. injection Hget as <-.
    apply (draw_result numRecords) in Hw as (H1 & H2 & H3); try done; [| constructor | simpl; lia].
    unfold random_result. by rewrite !Hperm.
Qed.
