(* ===== verification/TxSteps.v ===== *)
(** * The steps of the worker threads, one rule per effect

    [tstep] of Transaction.v read as a relation: each rule gives the program
    point, the condition under which the step is taken and the exact new state.
    The invariants of the following files are proved by cases on these rules. *)

From S2P Require Import Prelude Monitor Transaction.

(** A record with a changed rw lock or value. *)
Definition upd_rw (m : Monitor) (x : nat) (r : Record_) (l : RWLock) : Monitor :=
  set_records m (<[x := mkRecord (rec_index r) (value r) l]> (records m)).
Definition upd_val (m : Monitor) (x : nat) (r : Record_) (v : Z) : Monitor :=
  set_records m (<[x := mkRecord (rec_index r) v (rwlock r)]> (records m)).

Definition deleted (m : Monitor) (q : list LockInfo) (l : LockInfo) : Monitor :=
  mkMonitor (alter (<[LockType_int (type l) := UNDEFINED]>) (tid l) (threads_info m))
    (<[index l := erase_first q l]> (lock_request m)) (records m)
    ((λ s, s ∖ {[tid l]}) <$> <[tid l := ∅]> (dependThreads m)).

Definition released (r : LockInfo) (l : RWLock) : RWLock :=
  if bool_decide (type r = R) then mkRW (mtx l) (numReader l - 1) (writing l)
  else mkRW (mtx l) (numReader l) false.

Inductive enters : acq → acq → Prop :=
| enters_first : enters AMtx APred
| enters_woken : enters AWait APred
| enters_drain : enters ADWait ADrain.

Section rules.
Context (numRecords : nat) (E : Z) (t : nat).

Inductive rule (th : thread) (sh : shared) : thread → shared → Prop :=
| r_head i j k :
    at_pc th = Head → global_execution_order sh < E → random_result numRecords [i; j; k] →
    rule th sh (mkThread (Lock R) i j k (i_value th) (j_value th) (k_value th) []) sh
| r_done : at_pc th = Head → E ≤ global_execution_order sh → rule th sh (goto Exit th) sh
| r_lock s : at_pc th = Lock s → global_mutex sh = None →
    rule th sh (goto (Check s) th) (set_mutex (Some t) sh)
| r_deadlock s q : at_pc th = Check s →
    lock_request (monitor sh) !! rec_of th s = Some q →
    tc (dep_edge (add_deps (monitor sh) q (request t th s))) t t →
    rule th sh (goto (after_check s deadlock th) th)
      (set_mon (set_depend (monitor sh) (add_deps (monitor sh) q (request t th s))) sh)
| r_granted s q : at_pc th = Check s →
    lock_request (monitor sh) !! rec_of th s = Some q →
    ¬ tc (dep_edge (add_deps (monitor sh) q (request t th s))) t t →
    grantable q (request t th s) = true →
    rule th sh (goto (Get s AMtx true) th)
      (set_mon (enqueued (monitor sh) q (request t th s)) sh)
| r_waiting s q : at_pc th = Check s →
    lock_request (monitor sh) !! rec_of th s = Some q →
    ¬ tc (dep_edge (add_deps (monitor sh) q (request t th s))) t t →
    grantable q (request t th s) = false →
    rule th sh (goto (Get s AMtx false) th)
      (set_mutex None (set_mon (enqueued (monitor sh) q (request t th s)) sh))
| r_enter s a a' g r : at_pc th = Get s a g → enters a a' →
    records (monitor sh) !! rec_of th s = Some r → mtx (rwlock r) = None →
    rule th sh (goto (Get s a' g) th)
      (set_mon (upd_rw (monitor sh) (rec_of th s) r (set_mtx (Some t) (rwlock r))) sh)
| r_pred_true s g q : at_pc th = Get s APred g →
    lock_request (monitor sh) !! rec_of th s = Some q →
    checkQueue q (request t th s) = Ret true →
    rule th sh (goto (Get s ATest g) th) sh
| r_pred_false s g q r : at_pc th = Get s APred g →
    lock_request (monitor sh) !! rec_of th s = Some q →
    checkQueue q (request t th s) = Ret false →
    records (monitor sh) !! rec_of th s = Some r →
    rule th sh (goto (Get s AWait g) th)
      (set_mon (upd_rw (monitor sh) (rec_of th s) r (set_mtx None (rwlock r))) sh)
| r_spin s g r : at_pc th = Get s ATest g →
    records (monitor sh) !! rec_of th s = Some r → writing (rwlock r) = true →
    rule th sh (goto (Get s APred g) th) sh
| r_read g r : at_pc th = Get R ATest g →
    records (monitor sh) !! ri th = Some r → writing (rwlock r) = false →
    rule th sh (goto (Get R AFlag g) th)
      (set_mon (upd_rw (monitor sh) (ri th) r (mkRW None (numReader (rwlock r) + 1) false)) sh)
| r_claim s g r : at_pc th = Get s ATest g → s ≠ R →
    records (monitor sh) !! rec_of th s = Some r → writing (rwlock r) = false →
    rule th sh (goto (Get s ADrain g) th)
      (set_mon (upd_rw (monitor sh) (rec_of th s) r
                  (mkRW (mtx (rwlock r)) (numReader (rwlock r)) true)) sh)
| r_drain_wait s g r : at_pc th = Get s ADrain g →
    records (monitor sh) !! rec_of th s = Some r → numReader (rwlock r) > 0 →
    rule th sh (goto (Get s ADWait g) th)
      (set_mon (upd_rw (monitor sh) (rec_of th s) r (set_mtx None (rwlock r))) sh)
| r_drained s g r : at_pc th = Get s ADrain g →
    records (monitor sh) !! rec_of th s = Some r → numReader (rwlock r) ≤ 0 →
    rule th sh (goto (Get s AFlag g) th)
      (set_mon (upd_rw (monitor sh) (rec_of th s) r (set_mtx None (rwlock r))) sh)
| r_flag s g q : at_pc th = Get s AFlag g →
    lock_request (monitor sh) !! rec_of th s = Some q →
    rule th sh (goto (if g then Unlock s else Relock s) th)
      (set_mon (set_queue (monitor sh)
                  (<[rec_of th s := mark_granted q (request t th s)]> (lock_request (monitor sh)))) sh)
| r_relock s : at_pc th = Relock s → global_mutex sh = None →
    rule th sh (goto (Unlock s) th) (set_mutex (Some t) sh)
| r_unlock s : at_pc th = Unlock s →
    rule th sh (goto (Access s) (push_having (request t th s) th)) (set_mutex None sh)
| r_access s r : at_pc th = Access s → records (monitor sh) !! rec_of th s = Some r →
    rule th sh (goto (after_access s) (set_value s (wrap32 (value r)) th)) sh
| r_writej r : at_pc th = WriteJ → records (monitor sh) !! rj th = Some r →
    in_int (j_value th + i_value th + 1) →
    rule th sh (goto (Lock W2) th)
      (set_mon (upd_val (monitor sh) (rj th) r (j_value th + i_value th + 1)) sh)
| r_writek r : at_pc th = WriteK → records (monitor sh) !! rk th = Some r →
    in_int (k_value th - i_value th) →
    rule th sh (goto CLock th)
      (set_mon (upd_val (monitor sh) (rk th) r (k_value th - i_value th)) sh)
| r_undoj r : at_pc th = UndoJ → records (monitor sh) !! rj th = Some r →
    rule th sh (goto (Rel false (havingLocks th)) th)
      (set_mon (upd_val (monitor sh) (rj th) r (j_value th)) sh)
| r_clock : at_pc th = CLock → global_mutex sh = None →
    rule th sh (goto (Rel true (havingLocks th)) th) (set_mutex (Some t) sh)
| r_rel_done c : at_pc th = Rel c [] →
    rule th sh (goto (if c then Commit else UnlockHead) th) sh
| r_rel c l ls q : at_pc th = Rel c (l :: ls) →
    lock_request (monitor sh) !! index l = Some q →
    rule th sh (goto (RelRw c l ls) th) (set_mon (deleted (monitor sh) q l) sh)
| r_rel_rw c l ls r : at_pc th = RelRw c l ls →
    records (monitor sh) !! index l = Some r → mtx (rwlock r) = None →
    rule th sh (goto (Rel c ls) th)
      (set_mon (upd_rw (monitor sh) (index l) r (released l (rwlock r))) sh)
| r_commit : at_pc th = Commit → wrap32 (global_execution_order sh + 1) ≤ E →
    rule th sh (goto (Log (wrap32 (global_execution_order sh + 1)) []) th)
      (mkShared (global_mutex sh) (monitor sh) (global_execution_order sh + 1) (lines sh))
| r_too_late : at_pc th = Commit → E < wrap32 (global_execution_order sh + 1) →
    rule th sh (goto (Roll R) th)
      (mkShared (global_mutex sh) (monitor sh) (global_execution_order sh + 1) (lines sh))
| r_log cid vs r : at_pc th = Log cid vs → length vs ≠ 2%nat →
    records (monitor sh) !! rec_of th (log_stage vs) = Some r →
    rule th sh (goto (Log cid (vs ++ [wrap32 (value r)])) th) sh
| r_logged cid vs r : at_pc th = Log cid vs → length vs = 2%nat →
    records (monitor sh) !! rec_of th (log_stage vs) = Some r →
    rule th sh (goto UnlockHead th)
      (mkShared (global_mutex sh) (monitor sh) (global_execution_order sh)
         (lines sh ++ [new_line t th cid (vs ++ [wrap32 (value r)])]))
| r_roll s r : at_pc th = Roll s → records (monitor sh) !! rec_of th s = Some r →
    rule th sh (goto (after_roll s) th)
      (set_mon (upd_val (monitor sh) (rec_of th s) r (value_of th s)) sh)
| r_unlock_head : at_pc th = UnlockHead → rule th sh (goto Head th) (set_mutex None sh)
| r_unlock_exit : at_pc th = UnlockExit → rule th sh (goto Exit th) (set_mutex None sh).
End rules.

(** ** [tstep] takes only these steps *)

Lemma then_inv {A B} (o : outcome (option A)) (f : A → B) b :
  then_ o f = Ret (Some b) → ∃ a, o = Ret (Some a) ∧ b = f a.
Proof. unfold then_. intros ([a |] & -> & H)%bind_Ret_inv; naive_solver. Qed.

Lemma get_rw_inv m x l : get_rw m x = Ret l → ∃ r, records m !! x = Some r ∧ l = rwlock r.
Proof. unfold get_rw. intros (r & Hr%at_inv & [= <-])%bind_Ret_inv. eauto. Qed.

Lemma set_rw_inv m x f m' :
  set_rw m x f = Ret m' → ∃ r, records m !! x = Some r ∧ m' = upd_rw m x r (f (rwlock r)).
Proof.
  unfold set_rw. intros (rs & (r & Hr & ->)%update_inv & [= <-])%bind_Ret_inv. eauto.
Qed.

Lemma mon_write_inv m x v m' :
  mon_write m x v = Ret m' → ∃ r, records m !! x = Some r ∧ m' = upd_val m x r v.
Proof.
  unfold mon_write. intros (rs & (r & Hr & ->)%update_inv & [= <-])%bind_Ret_inv. eauto.
Qed.

Lemma mon_read_inv m x v :
  mon_read m x = Ret v → ∃ r, records m !! x = Some r ∧ v = wrap32 (value r).
Proof. unfold mon_read. intros (r & Hr%at_inv & [= <-])%bind_Ret_inv. eauto. Qed.

Lemma deleteLock_inv m l m' :
  deleteLock m l = Ret m' → ∃ q, lock_request m !! index l = Some q ∧ m' = deleted m q l.
Proof.
  unfold deleteLock. intros (qs & (q & Hq & ->)%update_inv & H)%bind_Ret_inv.
  apply bind_Ret_inv in H as (info & (row & Hrow & ->)%update_inv & H).
  apply bind_Ret_inv in H as (dep & (d & Hd & ->)%update_inv & [= <-]).
  exists q. split; [done |]. unfold deleted. by rewrite (alter_insert_eq _ _ _ _ Hrow).
Qed.

Lemma enter_mtx_inv t x m m' :
  enter_mtx t x m = Ret (Some m') →
  ∃ r, records m !! x = Some r ∧ mtx (rwlock r) = None ∧ m' = upd_rw m x r (set_mtx (Some t) (rwlock r)).
Proof.
  unfold enter_mtx. intros (l & (r & Hr & ->)%get_rw_inv & H)%bind_Ret_inv.
  destruct (mtx (rwlock r)) eqn:Hm; [done |].
  apply bind_Ret_inv in H as (m1 & (r' & Hr' & ->)%set_rw_inv & [= <-]). simplify_eq. eauto.
Qed.

Lemma unlock_rw_inv l m m' :
  unlock_rw l m = Ret (Some m') →
  ∃ r, records m !! index l = Some r ∧ mtx (rwlock r) = None ∧
    m' = upd_rw m (index l) r (released l (rwlock r)).
Proof.
  unfold unlock_rw. intros (w & (r & Hr & ->)%get_rw_inv & H)%bind_Ret_inv.
  destruct (mtx (rwlock r)) eqn:Hm; [done |].
  apply bind_Ret_inv in H as (m1 & (r' & Hr' & ->)%set_rw_inv & [= <-]). simplify_eq. eauto.
Qed.

Lemma deadlock_check_inv m req m' st :
  mon_wf m → deadlock_check m req = Ret (m', st) →
  ∃ q, lock_request m !! index req = Some q ∧
    ((tc (dep_edge (add_deps m q req)) (tid req) (tid req) ∧
        m' = set_depend m (add_deps m q req) ∧ st = deadlock) ∨
     (¬ tc (dep_edge (add_deps m q req)) (tid req) (tid req) ∧
        m' = enqueued m q req ∧ st = if grantable q req then get else waiting)).
Proof.
  intros Hwf H. pose proof H as H0. unfold deadlock_check in H0.
  apply bind_Ret_inv in H0 as (q & Hq%at_inv & H0). exists q. split; [done |].
  apply bind_Ret_inv in H0 as (dep & (d & Hd & _)%update_inv & _).
  apply lookup_lt_Some in Hd.
  destruct (deadlock_check_spec m q req Hwf Hq Hd) as [[Hc He] | [Hc He]];
    rewrite He in H; simplify_eq; auto.
Qed.

Section tstep_rule.
Context (numRecords : nat) (E : Z) (t : nat).

Lemma acq_step_rule th sh s a g p m' :
  at_pc th = Get s a g → acq_step t th s a g (monitor sh) = Ret (Some (p, m')) →
  rule numRecords E t th sh (goto p th) (set_mon m' sh).
Proof.
  intros Hpc. destruct a; cbn [acq_step]; intros H.
  - apply then_inv in H as (m1 & (r & Hr & Hm & ->)%enter_mtx_inv & [= -> ->]).
    eapply r_enter; eauto using enters.
  - apply bind_Ret_inv in H as (q & Hq%at_inv & H). apply bind_Ret_inv in H as ([|] & Hb & H).
    + simplify_eq. destruct sh. by eapply r_pred_true.
    + apply bind_Ret_inv in H as (m1 & (r & Hr & ->)%set_rw_inv & [= <- <-]).
      by eapply r_pred_false.
  - apply bind_Ret_inv in H as (w & (r & Hr & ->)%get_rw_inv & H).
    destruct (writing (rwlock r)) eqn:Hw.
    + simplify_eq. destruct sh. by eapply r_spin.
    + destruct s; apply bind_Ret_inv in H as (m1 & (r' & Hr' & ->)%set_rw_inv & [= <- <-]);
        simplify_eq; [rewrite Hw; by eapply r_read | by eapply r_claim | by eapply r_claim].
  - apply then_inv in H as (m1 & (r & Hr & Hm & ->)%enter_mtx_inv & [= -> ->]).
    eapply r_enter; eauto using enters.
  - apply bind_Ret_inv in H as (w & (r & Hr & ->)%get_rw_inv & H).
    apply bind_Ret_inv in H as (m1 & (r' & Hr' & ->)%set_rw_inv & [= <- <-]). simplify_eq.
    case_bool_decide; [by eapply r_drain_wait | eapply r_drained; eauto; lia].
  - apply then_inv in H as (m1 & (r & Hr & Hm & ->)%enter_mtx_inv & [= -> ->]).
    eapply r_enter; eauto using enters.
  - apply bind_Ret_inv in H as (q & (q0 & Hq0 & ->)%update_inv & [= <- <-]).
    by eapply r_flag.
Qed.

Lemma head_step_rule v th sh th' sh' :
  at_pc th = Head → head_step numRecords E v th sh = Ret (Some (th', sh')) →
  rule numRecords E t th sh th' sh'.
Proof.
  intros Hpc. unfold head_step. case_bool_decide as Hlt.
  - destruct v as [| i [| j [| k [| ? ?]]]]; try done.
    case_bool_decide; [| done]. intros [= <- <-]. by apply r_head.
  - intros [= <- <-]. apply r_done; [done | lia].
Qed.

Lemma lock_global_inv p th sh th' sh' :
  lock_global t p th sh = Ret (Some (th', sh')) →
  global_mutex sh = None ∧ th' = goto p th ∧ sh' = set_mutex (Some t) sh.
Proof. unfold lock_global. destruct (global_mutex sh); naive_solver. Qed.

Lemma check_rule s th sh m' st :
  mon_wf (monitor sh) → at_pc th = Check s →
  deadlock_check (monitor sh) (request t th s) = Ret (m', st) →
  rule numRecords E t th sh (goto (after_check s st th) th)
    (match st with waiting => set_mutex None (set_mon m' sh) | _ => set_mon m' sh end).
Proof.
  intros Hwf Hpc (q & Hq & [(Hc & -> & ->) | (Hc & -> & ->)])%deadlock_check_inv; [| | done].
  - by eapply r_deadlock.
  - destruct (grantable q (request t th s)) eqn:Hg; [by eapply r_granted | by eapply r_waiting].
Qed.

Lemma log_rule cid vs th sh th' sh' x :
  at_pc th = Log cid vs → mon_read (monitor sh) (rec_of th (log_stage vs)) = Ret x →
  (if bool_decide (length (vs ++ [x]) = 3%nat) then
     Ret (Some (goto UnlockHead th,
                mkShared (global_mutex sh) (monitor sh) (global_execution_order sh)
                  (lines sh ++ [new_line t th cid (vs ++ [x])])))
   else Ret (Some (goto (Log cid (vs ++ [x])) th, sh))) = Ret (Some (th', sh')) →
  rule numRecords E t th sh th' sh'.
Proof.
  intros Hpc (r & Hr & ->)%mon_read_inv. rewrite length_app. simpl.
  case_bool_decide; intros [= <- <-]; [eapply r_logged | eapply r_log]; eauto; lia.
Qed.

Lemma tstep_rule v th sh th' sh' :
  mon_wf (monitor sh) → tstep numRecords E t v th sh = Ret (Some (th', sh')) →
  rule numRecords E t th sh th' sh'.
Proof.
  intros Hwf. unfold tstep. destruct (at_pc th) eqn:Hpc; intros H.
  - by eapply head_step_rule.
  - apply lock_global_inv in H as (? & -> & ->). by apply r_lock.
  - apply bind_Ret_inv in H as ([m' st] & H & [= <- <-]). by eapply check_rule.
  - apply then_inv in H as ([p m'] & H & [= -> ->]). by eapply acq_step_rule.
  - apply lock_global_inv in H as (? & -> & ->). by apply r_relock.
  - simplify_eq. by apply r_unlock.
  - apply bind_Ret_inv in H as (x & (r & Hr & ->)%mon_read_inv & [= <- <-]). by apply r_access.
  - repeat (apply bind_Ret_inv in H as (? & ? & H)). simplify_eq.
    repeat match goal with H : int_op _ = Ret _ |- _ => apply int_op_inv in H as [-> ?] end.
    match goal with H : mon_write _ _ _ = Ret _ |- _ => apply mon_write_inv in H as (r & Hr & ->) end.
    by apply r_writej.
  - repeat (apply bind_Ret_inv in H as (? & ? & H)). simplify_eq.
    repeat match goal with H : int_op _ = Ret _ |- _ => apply int_op_inv in H as [-> ?] end.
    match goal with H : mon_write _ _ _ = Ret _ |- _ => apply mon_write_inv in H as (r & Hr & ->) end.
    by apply r_writek.
  - apply bind_Ret_inv in H as (m' & (r & Hr & ->)%mon_write_inv & [= <- <-]). by apply r_undoj.
  - apply lock_global_inv in H as (? & -> & ->). by apply r_clock.
  - destruct ls as [| l ls]; [simplify_eq; by eapply r_rel_done |].
    apply bind_Ret_inv in H as (m' & (q & Hq & ->)%deleteLock_inv & [= <- <-]). by eapply r_rel.
  - apply then_inv in H as (m' & (r0 & Hr & Hm & ->)%unlock_rw_inv & [= -> ->]). by eapply r_rel_rw.
  - cbn [getCommitId] in H. case_bool_decide; simplify_eq; [by apply r_commit | apply r_too_late; [done | lia]].
  - apply bind_Ret_inv in H as (x & Hx & H). by eapply log_rule.
  - apply bind_Ret_inv in H as (m' & (r & Hr & ->)%mon_write_inv & [= <- <-]). by apply r_roll.
  - simplify_eq. by apply r_unlock_head.
  - simplify_eq. by apply r_unlock_exit.
  - done.
Qed.

End tstep_rule.
