(* ===== verification/TxLocks.v ===== *)
(** * The locking discipline of the worker threads

    Invariants of the machine of Transaction.v: what a thread holds is
    determined by its program point, the queues contain exactly the requests of
    the threads, the global mutex is held exactly inside the critical sections,
    and the rw locks count the readers and the writer that are inside. *)

From S2P Require Import Prelude Monitor Transaction TxSteps.

(** ** What a thread holds *)

(** The locks of the stages before [s], and those up to [s]. *)
Definition prior (t : nat) (th : thread) (s : LockType) : list LockInfo :=
  match s with
  | R => []
  | W1 => [request t th R]
  | W2 => [request t th R; request t th W1]
  end.

Definition through (t : nat) (th : thread) (s : LockType) : list LockInfo :=
  prior t th s ++ [request t th s].

Definition having_ok (t : nat) (th : thread) : Prop :=
  let h := havingLocks th in
  match at_pc th with
  | Head | Exit => True
  | Get R (ADrain | ADWait) _ => False
  | Lock s | Check s | Get s _ _ | Relock s | Unlock s => h = prior t th s
  | Access s => h = through t th s
  | WriteJ | UndoJ => h = through t th W1
  | WriteK | CLock | Commit | Log _ _ | Roll _ | UnlockExit => h = through t th W2
  | Rel true ls => h = through t th W2 ∧ ls `suffix_of` h
  | RelRw true l ls => h = through t th W2 ∧ (l :: ls) `suffix_of` h
  | Rel false ls => (h = through t th R ∨ h = through t th W1) ∧ ls `suffix_of` h
  | RelRw false l ls => (h = through t th R ∨ h = through t th W1) ∧ (l :: ls) `suffix_of` h
  | UnlockHead => ∃ s, h = through t th s
  end.

Definition idle (p : pc) : Prop := p = Head ∨ p = Exit.

Record local_ok (numRecords t : nat) (th : thread) : Prop := {
  lo_range : idle (at_pc th) ∨ random_result numRecords [ri th; rj th; rk th];
  lo_having : having_ok t th
}.

(** The requests of a thread that are in a queue, the rw locks it is inside
    of, those it is inside of or has claimed, and what it owns: the locks of
    [havingLocks], until it gives up the global mutex after releasing them. *)
Definition queued (t : nat) (th : thread) : list LockInfo :=
  match at_pc th with
  | Head | Exit | Commit | Log _ _ | Roll _ | UnlockHead | UnlockExit => []
  | Get s _ _ | Relock s | Unlock s => havingLocks th ++ [request t th s]
  | Rel _ ls | RelRw _ _ ls => ls
  | _ => havingLocks th
  end.

Definition held (t : nat) (th : thread) : list LockInfo :=
  match at_pc th with
  | Head | Exit | Commit | Log _ _ | Roll _ | UnlockHead | UnlockExit => []
  | Get s AFlag _ | Relock s | Unlock s => havingLocks th ++ [request t th s]
  | Rel _ ls => ls
  | RelRw _ l ls => l :: ls
  | _ => havingLocks th
  end.

Definition claimed (t : nat) (th : thread) : list LockInfo :=
  match at_pc th with
  | Get s (ADrain | ADWait) _ => havingLocks th ++ [request t th s]
  | _ => held t th
  end.

Definition owned (th : thread) : list LockInfo :=
  match at_pc th with Head | Exit => [] | _ => havingLocks th end.

(** Program points at which the global mutex is held. *)
Definition crit (p : pc) : bool :=
  match p with
  | Check _ | Get _ _ true | Unlock _ | UndoJ | Rel _ _ | RelRw _ _ _
  | Commit | Log _ _ | Roll _ | UnlockHead | UnlockExit => true
  | _ => false
  end.

(** ** The local invariant *)

(** Replace the program point in the hypotheses and the goal by the one the
    rule names. *)
Ltac at_point :=
  repeat match goal with
  | Hpc : at_pc ?th = _, H : context [at_pc ?th] |- _ =>
      lazymatch H with Hpc => fail | _ => rewrite Hpc in H end
  | Hpc : at_pc ?th = _ |- context [at_pc ?th] => rewrite Hpc
  end.

Section invariants.
Context (numRecords : nat) (E : Z) (numThreads : nat).

Notation rule := (rule numRecords E).
Notation local_ok := (local_ok numRecords).

Lemma range_step t th sh th' sh' :
  rule t th sh th' sh' → idle (at_pc th) ∨ random_result numRecords [ri th; rj th; rk th] →
  idle (at_pc th') ∨ random_result numRecords [ri th'; rj th'; rk th'].
Proof.
  unfold idle. intros Hr Hrange.
  destruct Hr; at_point; try (destruct Hrange as [[? | ?] | Hrange]; [done | done |]);
    solve [by right | left; by left | left; by right |
           destruct s; first [by right | left; by left]].
Qed.

Lemma having_step t th sh th' sh' : rule t th sh th' sh' → having_ok t th → having_ok t th'.
Proof.
  unfold having_ok. intros Hr Hh.
  destruct Hr; at_point; cbn [at_pc goto];
    try match goal with H : enters _ _ |- _ => destruct H end;
    try (destruct s); try (destruct g); try (destruct c);
    cbn in *; try solve [done | by destruct Hh | naive_solver | by rewrite Hh].
  - destruct Hh as [[Hh | Hh] _]; [by exists R | by exists W1].
  - destruct Hh as [Hh Hsuf]. by apply suffix_cons_l in Hsuf.
  - destruct Hh as [Hh Hsuf]. by apply suffix_cons_l in Hsuf.
  - by exists W2.
Qed.

Lemma local_ok_step t th sh th' sh' : rule t th sh th' sh' → local_ok t th → local_ok t th'.
Proof. intros Hr [??]. split; [by eapply range_step | by eapply having_step]. Qed.
End invariants.

(** ** Lock requests up to the [getLock] flag *)

Definition key (l : LockInfo) : nat * LockType * nat := (index l, type l, tid l).

Lemma same_lock_key a b : same_lock a b = true ↔ key a = key b.
Proof.
  unfold same_lock, key. rewrite !andb_true_iff, !bool_decide_eq_true.
  split; [by intros [[-> ->] ->] | by intros [= -> -> ->]].
Qed.

Lemma same_lock_neq a b : same_lock a b = false ↔ key a ≠ key b.
Proof. by rewrite <- same_lock_key, not_true_iff_false. Qed.

Lemma key_mark_granted q l : key <$> mark_granted q l = key <$> q.
Proof.
  unfold mark_granted. rewrite <- list_fmap_compose. apply list_fmap_ext. intros i r _. simpl.
  by destruct (same_lock r l).
Qed.

Lemma key_erase_first q l :
  NoDup (key <$> q) → NoDup (key <$> erase_first q l) ∧
  ∀ k, k ∈ key <$> erase_first q l ↔ k ∈ key <$> q ∧ k ≠ key l.
Proof.
  induction q as [| r q IH]; intros Hnd; [split; [constructor | cbn; set_solver] |].
  cbn [fmap list_fmap erase_first] in *. apply NoDup_cons in Hnd as [Hr Hnd].
  destruct (same_lock r l) eqn:Hs.
  - apply same_lock_key in Hs. split; [done |]. rewrite Hs in *. intros k. rewrite elem_of_cons.
    split; [| naive_solver]. intros Hk. split; [by right |]. by intros ->.
  - apply same_lock_neq in Hs. destruct (IH Hnd) as [IH1 IH2]. split.
    + cbn [fmap list_fmap]. apply NoDup_cons. split; [| done]. rewrite IH2. naive_solver.
    + intros k. cbn [fmap list_fmap]. rewrite !elem_of_cons, IH2. naive_solver.
Qed.

Lemma erase_first_sublist q l : erase_first q l `sublist_of` q.
Proof.
  induction q as [| r q IH]; simpl; [done |].
  destruct (same_lock r l); [by apply sublist_cons | by apply sublist_skip].
Qed.

Lemma through_types t th s : NoDup (type <$> through t th s).
Proof. destruct s; cbn; repeat constructor; set_solver. Qed.

Lemma through_tid t th s l : l ∈ through t th s → tid l = t.
Proof. destruct s; cbn; rewrite !elem_of_cons, elem_of_nil; naive_solver. Qed.

(** The locks of a thread are its own, one per type. *)
Lemma locks_sublist t th f :
  having_ok t th → f = queued t th ∨ f = held t th ∨ f = claimed t th →
  ∃ s, f `sublist_of` through t th s.
Proof.
  unfold having_ok. intros Hh Hf.
  assert (∀ s, prior t th s `sublist_of` through t th s) as Hp
    by (intros s; unfold through; by apply sublist_inserts_r).
  assert (∀ ls h : list LockInfo, ls `suffix_of` h → ls `sublist_of` h) as Hc
    by (intros ls h [k ->]; by apply sublist_inserts_l).
  unfold claimed, held, queued in Hf.
  destruct (at_pc th) as [| s | s | s a g | s | s | s | | | | | [] ls | [] l ls | | | s | | |] eqn:Hpc.
  all: try (exists R; assert (f = []) as -> by tauto; apply sublist_nil_l).
  all: try (assert (havingLocks th = prior t th s) as Hs by first [done | by destruct s, a]).
  all: try (exists s; rewrite ?Hh, ?Hs in Hf; try destruct a;
            destruct Hf as [-> | [-> | ->]]; by first [apply Hp | done]).
  all: try (exists W1; rewrite Hh in Hf; by destruct Hf as [-> | [-> | ->]]).
  all: try (exists W2; rewrite Hh in Hf; by destruct Hf as [-> | [-> | ->]]).
  - exists W2. destruct Hh as [<- Hh%Hc]. by destruct Hf as [-> | [-> | ->]].
  - destruct Hh as [[Hh | Hh] Hsuf%Hc]; [exists R | exists W1]; rewrite <- Hh;
      by destruct Hf as [-> | [-> | ->]].
  - exists W2. destruct Hh as [<- Hh]. pose proof (suffix_cons_l _ _ _ Hh) as Hl.
    destruct Hf as [-> | [-> | ->]]; by apply Hc.
  - destruct Hh as [[Hh | Hh] Hsuf]; pose proof (suffix_cons_l _ _ _ Hsuf) as Hl;
      [exists R | exists W1]; rewrite <- Hh; destruct Hf as [-> | [-> | ->]]; by apply Hc.
Qed.

Lemma queued_tid t th l : having_ok t th → l ∈ queued t th → tid l = t.
Proof.
  intros Hh Hl. destruct (locks_sublist t th (queued t th) Hh (or_introl eq_refl)) as [s Hs].
  apply (through_tid t th s). by eapply elem_of_sublist.
Qed.

Lemma queued_types t th : having_ok t th → NoDup (type <$> queued t th).
Proof.
  intros Hh. destruct (locks_sublist t th (queued t th) Hh (or_introl eq_refl)) as [s Hs].
  eapply sublist_NoDup; [apply (through_types t th s) | by apply fmap_sublist].
Qed.

(** What a rule does to the queues. *)
Inductive queue_effect (t : nat) (th th' : thread) (m m' : Monitor) : Prop :=
| qe_same : lock_request m' = lock_request m → dependThreads m' = dependThreads m →
    queued t th' = queued t th → queue_effect t th th' m m'
| qe_depend s q : at_pc th = Check s → lock_request m !! rec_of th s = Some q →
    lock_request m' = lock_request m → dependThreads m' = add_deps m q (request t th s) →
    queued t th' = queued t th → queue_effect t th th' m m'
| qe_push s q : at_pc th = Check s → lock_request m !! rec_of th s = Some q →
    lock_request m' = <[rec_of th s := q ++ [request t th s]]> (lock_request m) →
    dependThreads m' = add_deps m q (request t th s) →
    ¬ tc (dep_edge (dependThreads m')) t t →
    queued t th' = queued t th ++ [request t th s] → queue_effect t th th' m m'
| qe_mark s q : lock_request m !! rec_of th s = Some q →
    lock_request m' = <[rec_of th s := mark_granted q (request t th s)]> (lock_request m) →
    dependThreads m' = dependThreads m →
    queued t th' = queued t th → queue_effect t th th' m m'
| qe_delete l q : lock_request m !! index l = Some q →
    lock_request m' = <[index l := erase_first q l]> (lock_request m) →
    dependThreads m' = (λ s, s ∖ {[tid l]}) <$> <[tid l := ∅]> (dependThreads m) →
    (∃ c ls, at_pc th' = RelRw c l ls) →
    queued t th = l :: queued t th' → queue_effect t th th' m m'.

Lemma rule_queue_effect numRecords E t th sh th' sh' :
  rule numRecords E t th sh th' sh' → having_ok t th →
  queue_effect t th th' (monitor sh) (monitor sh').
Proof.
  intros Hr Hh. unfold having_ok in Hh. destruct Hr; at_point;
    try (apply qe_same; [done | done |]; unfold queued; cbn; at_point; cbn;
         first [done | by destruct c | by destruct g | by destruct s | by destruct (log_stage _)]).
  - eapply qe_depend; [done | done | done | done |]. unfold queued. at_point.
    by destruct s; cbn; rewrite ?Hh.
  - eapply qe_push; try done. unfold queued. by at_point.
  - eapply qe_push; try done. unfold queued. by at_point.
  - eapply qe_mark; try done. unfold queued. at_point. by destruct g.
  - eapply qe_delete; try done; [by eauto |]. unfold queued. by at_point.
Qed.

(** ** The queues and the dependency graph *)

(** [k] is a request of a thread that should be in a queue. *)
Definition requested (ths : list thread) (k : nat * LockType * nat) : Prop :=
  ∃ th, ths !! k.2 = Some th ∧ k ∈ key <$> queued k.2 th.

Record queue_inv (numRecords : nat) (ths : list thread) (m : Monitor) : Prop := {
  qi_info : length (threads_info m) = length ths;
  qi_dep : length (dependThreads m) = length ths;
  qi_recs : length (records m) = numRecords;
  qi_reqs : length (lock_request m) = numRecords;
  qi_local t th : ths !! t = Some th → local_ok numRecords t th;
  qi_nodup x q : lock_request m !! x = Some q → NoDup (key <$> q);
  qi_mem x q k : lock_request m !! x = Some q → k ∈ key <$> q ↔ k.1.1 = x ∧ requested ths k;
  qi_edge a b : dep_edge (dependThreads m) a b → ∃ th, ths !! b = Some th ∧ queued b th ≠ []
}.

Lemma requested_insert ths t th' k :
  (t < length ths)%nat →
  requested (<[t := th']> ths) k ↔
  (k.2 = t ∧ k ∈ key <$> queued t th') ∨ (k.2 ≠ t ∧ requested ths k).
Proof.
  intros Ht. unfold requested. destruct (decide (k.2 = t)) as [-> | Hne].
  - rewrite list_lookup_insert_eq by done. naive_solver.
  - rewrite list_lookup_insert_ne by done. naive_solver.
Qed.

Lemma requested_own ths t th k :
  ths !! t = Some th → k.2 = t → requested ths k ↔ k ∈ key <$> queued t th.
Proof. intros Ht <-. unfold requested. rewrite Ht. naive_solver. Qed.



Section requested.
Context (ths : list thread) (t : nat) (th th' : thread).
Context (Ht : ths !! t = Some th).

Lemma requested_same k : queued t th' = queued t th → requested (<[t := th']> ths) k ↔ requested ths k.
Proof.
  intros Hq. rewrite requested_insert by (by eapply lookup_lt_Some). rewrite Hq.
  destruct (decide (k.2 = t)) as [Hk | Hk]; [| tauto].
  rewrite (requested_own ths t th k Ht Hk). tauto.
Qed.

Lemma requested_push k l :
  tid l = t → queued t th' = queued t th ++ [l] →
  requested (<[t := th']> ths) k ↔ requested ths k ∨ k = key l.
Proof.
  intros Hl Hq. rewrite requested_insert by (by eapply lookup_lt_Some).
  rewrite Hq, fmap_app, elem_of_app. cbn. rewrite list_elem_of_singleton.
  destruct (decide (k.2 = t)) as [Hk | Hk].
  - rewrite (requested_own ths t th k Ht Hk). tauto.
  - assert (k ≠ key l) by (intros ->; by apply Hk). tauto.
Qed.

Lemma requested_delete k l :
  having_ok t th → queued t th = l :: queued t th' →
  requested (<[t := th']> ths) k ↔ requested ths k ∧ k ≠ key l.
Proof.
  intros Hh Hq. rewrite requested_insert by (by eapply lookup_lt_Some).
  assert (tid l = t) as Hl by (apply (queued_tid t th l Hh); rewrite Hq; by left).
  destruct (decide (k.2 = t)) as [Hk | Hk].
  - rewrite (requested_own ths t th k Ht Hk), Hq. cbn. rewrite elem_of_cons.
    assert (key l ∉ key <$> queued t th') as Hnot.
    { pose proof (queued_types t th Hh) as Hnd. rewrite Hq in Hnd. cbn in Hnd.
      apply NoDup_cons in Hnd as [Hnd _]. intros (l' & He & Hl')%list_elem_of_fmap.
      apply Hnd. apply list_elem_of_fmap. exists l'. split; [| done]. unfold key in He. congruence. }
    split; [| tauto]. intros [[_ H] | [H _]]; [| done]. split; [tauto |]. by intros ->.
  - assert (k ≠ key l) by (intros ->; by apply Hk). tauto.
Qed.
End requested.

Lemma rule_lengths numRecords E t th sh th' sh' :
  rule numRecords E t th sh th' sh' →
  length (threads_info (monitor sh')) = length (threads_info (monitor sh)) ∧
  length (dependThreads (monitor sh')) = length (dependThreads (monitor sh)) ∧
  length (records (monitor sh')) = length (records (monitor sh)) ∧
  length (lock_request (monitor sh')) = length (lock_request (monitor sh)).
Proof.
  unfold add_deps.
  destruct 1; cbn; unfold add_deps; rewrite ?length_insert, ?length_alter, ?length_fmap, ?length_insert; done.
Qed.

Lemma dep_edge_clear dep t a b :
  dep_edge ((λ s, s ∖ {[t]}) <$> <[t := ∅]> dep) a b ↔ a ≠ t ∧ b ≠ t ∧ dep_edge dep a b.
Proof.
  unfold dep_edge. split.
  2:{ intros (Ha & Hb & s & Hs & Hin). exists (s ∖ {[t]}).
      rewrite list_lookup_fmap, list_lookup_insert_ne, Hs by done. set_solver. }
  intros (s & Hs & Hb). rewrite list_lookup_fmap in Hs.
  destruct (<[t := ∅]> dep !! a) as [s0 |] eqn:H0; [| done]. cbn in Hs. injection Hs as <-.
  destruct (decide (a = t)) as [-> | Hne].
  - apply list_lookup_insert_Some in H0 as [(_ & <- & _) | [? _]]; [set_solver | done].
  - rewrite list_lookup_insert_ne in H0 by done. set_solver.
Qed.

Lemma target_insert (ths : list thread) t th th' b :
  ths !! t = Some th → (queued t th ≠ [] → queued t th' ≠ []) ∨ b ≠ t →
  (∃ th, ths !! b = Some th ∧ queued b th ≠ []) →
  ∃ th, <[t := th']> ths !! b = Some th ∧ queued b th ≠ [].
Proof.
  intros Ht Hq (bh & Hb & Hbq). destruct (decide (b = t)) as [-> | Hne].
  - exists th'. rewrite list_lookup_insert_eq by (by eapply lookup_lt_Some).
    split; [done |]. destruct Hq as [Hq | Hq]; [| done]. apply Hq. congruence.
  - exists bh. by rewrite list_lookup_insert_ne.
Qed.

Lemma requested_target ths l : requested ths (key l) → ∃ th, ths !! tid l = Some th ∧ queued (tid l) th ≠ [].
Proof.
  intros (th & Hth & Hk). exists th. split; [done |]. cbn in Hk. intros He. rewrite He in Hk.
  by apply not_elem_of_nil in Hk.
Qed.

Section queue_step.
Context (numRecords : nat) (E : Z) (ths : list thread) (t : nat) (th th' : thread) (m m' : Monitor).
Context (Hinv : queue_inv numRecords ths m) (Ht : ths !! t = Some th).

Lemma queue_step_nodup x q :
  queue_effect t th th' m m' → lock_request m' !! x = Some q → NoDup (key <$> q).
Proof.
  pose proof (lo_having _ _ _ (qi_local _ _ _ Hinv t th Ht)) as Hh.
  intros [He _ _ | ? ? _ _ He _ _ | s q0 Hpc Hq0 He _ _ _ | s q0 Hq0 He _ _ | l q0 Hq0 He _ _ Hl];
    rewrite He; try (by apply (qi_nodup _ _ _ Hinv));
    intros [(<- & <- & _) | [_ Hx]]%list_lookup_insert_Some; try (by apply (qi_nodup _ _ _ Hinv) in Hx).
  - rewrite fmap_app. apply NoDup_app. split; [by eapply (qi_nodup _ _ _ Hinv) |].
    split; [| apply NoDup_singleton]. intros k Hk ->%list_elem_of_singleton.
    apply (qi_mem _ _ _ Hinv _ _ _ Hq0) in Hk as [_ Hk].
    rewrite (requested_own ths t th (key (request t th s)) Ht eq_refl) in Hk. unfold queued in Hk. rewrite Hpc in Hk.
    unfold having_ok in Hh. rewrite Hpc in Hh. rewrite Hh in Hk.
    by destruct s; cbn in Hk; rewrite ?elem_of_cons, elem_of_nil in Hk; naive_solver.
  - rewrite key_mark_granted. by eapply (qi_nodup _ _ _ Hinv).
  - by apply key_erase_first, (qi_nodup _ _ _ Hinv _ _ Hq0).
Qed.

Lemma queue_step_mem x q k :
  queue_effect t th th' m m' → lock_request m' !! x = Some q →
  k ∈ key <$> q ↔ k.1.1 = x ∧ requested (<[t := th']> ths) k.
Proof.
  pose proof (lo_having _ _ _ (qi_local _ _ _ Hinv t th Ht)) as Hh.
  pose proof (qi_mem _ _ _ Hinv) as Hmem.
  intros [He _ Hs | ? ? _ _ He _ Hs | s q0 Hpc Hq0 He _ _ Hs | s q0 Hq0 He _ Hs | l q0 Hq0 He _ _ Hs];
    rewrite He; rewrite ?(requested_same _ _ _ _ Ht _ Hs); try (by apply Hmem);
    intros [(<- & <- & _) | [Hne Hx]]%list_lookup_insert_Some.
  - rewrite (requested_push _ _ _ _ Ht k (request t th s) eq_refl Hs).
    rewrite fmap_app, elem_of_app, (Hmem _ _ _ Hq0). cbn. rewrite list_elem_of_singleton.
    split; [| tauto]. intros [[??] | ->]; [tauto |]. split; [done | by right].
  - rewrite (requested_push _ _ _ _ Ht k (request t th s) eq_refl Hs), (Hmem _ _ _ Hx).
    split; [tauto |]. intros [Hk [Hr | ->]]; [done |]. by cbn in Hk.
  - rewrite key_mark_granted. by apply Hmem.
  - by apply Hmem.
  - rewrite (requested_delete _ _ _ _ Ht k _ Hh Hs).
    destruct (key_erase_first q0 l (qi_nodup _ _ _ Hinv _ _ Hq0)) as [_ ->].
    rewrite (Hmem _ _ _ Hq0). tauto.
  - rewrite (requested_delete _ _ _ _ Ht k _ Hh Hs), (Hmem _ _ _ Hx).
    split; [| tauto]. intros [Hk Hr]. split; [done |]. split; [done |]. intros ->. by cbn in Hk.
Qed.

Lemma queue_step_edge a b :
  queue_effect t th th' m m' → dep_edge (dependThreads m') a b →
  ∃ bh, <[t := th']> ths !! b = Some bh ∧ queued b bh ≠ [].
Proof.
  pose proof (lookup_lt_Some _ _ _ Ht) as Hlt. rewrite <- (qi_dep _ _ _ Hinv) in Hlt.
  assert (∀ s q0, lock_request m !! rec_of th s = Some q0 →
    dep_edge (add_deps m q0 (request t th s)) a b → ∃ bh, ths !! b = Some bh ∧ queued b bh ≠ []) as Hadd.
  { intros s q0 Hq0. rewrite add_deps_edge by done. intros [He | (_ & r & Hr & <- & _)].
    - by eapply (qi_edge _ _ _ Hinv).
    - apply requested_target. apply (qi_mem _ _ _ Hinv _ _ (key r) Hq0).
      apply list_elem_of_fmap. eauto. }
  intros [_ He Hs | s q0 _ Hq0 _ He Hs | s q0 Hpc Hq0 _ He _ Hs | s q0 Hq0 _ He Hs | l q0 Hq0 _ He _ Hs];
    rewrite He; intros Hedge.
  - eapply target_insert; [done | left; by rewrite Hs |]. by eapply (qi_edge _ _ _ Hinv).
  - eapply target_insert; [done | left; by rewrite Hs |]. by eapply Hadd.
  - eapply target_insert; [done | left; rewrite Hs; by destruct (queued t th) |]. by eapply Hadd.
  - eapply target_insert; [done | left; by rewrite Hs |]. by eapply (qi_edge _ _ _ Hinv).
  - apply dep_edge_clear in Hedge as (_ & Hb & Hedge).
    eapply target_insert; [done | right | by eapply (qi_edge _ _ _ Hinv)].
    intros ->. apply Hb. symmetry. eapply (queued_tid t th); [| rewrite Hs; by left].
    by apply (lo_having numRecords), (qi_local _ _ _ Hinv).
Qed.
End queue_step.

Lemma queue_inv_step numRecords E ths t th sh th' sh' :
  queue_inv numRecords ths (monitor sh) → ths !! t = Some th →
  rule numRecords E t th sh th' sh' → queue_inv numRecords (<[t := th']> ths) (monitor sh').
Proof.
  intros Hinv Ht Hr.
  pose proof (lo_having _ _ _ (qi_local _ _ _ Hinv t th Ht)) as Hh.
  pose proof (rule_queue_effect _ _ _ _ _ _ _ Hr Hh) as Heff.
  destruct (rule_lengths _ _ _ _ _ _ _ Hr) as (H1 & H2 & H3 & H4).
  destruct Hinv as [I1 I2 I3 I4 I5 I6 I7 I8] eqn:HI. split.
  - by rewrite H1, length_insert.
  - by rewrite H2, length_insert.
  - by rewrite H3.
  - by rewrite H4.
  - intros u uh [(<- & <- & _) | [_ Hu]]%list_lookup_insert_Some; [| by apply I5].
    eapply local_ok_step; [done | by apply I5].
  - intros x q. by eapply queue_step_nodup.
  - intros x q k. by eapply queue_step_mem.
  - intros a b. by eapply queue_step_edge.
Qed.

Lemma queue_inv_wf numRecords ths m : queue_inv numRecords ths m → mon_wf m.
Proof.
  intros Hinv. split.
  - by rewrite (qi_info _ _ _ Hinv), (qi_dep _ _ _ Hinv).
  - by rewrite (qi_recs _ _ _ Hinv), (qi_reqs _ _ _ Hinv).
  - intros x q r Hq Hr. rewrite (qi_dep _ _ _ Hinv).
    destruct (requested_target ths r) as (th & Hth & _); [| by eapply lookup_lt_Some].
    apply (qi_mem _ _ _ Hinv _ _ (key r) Hq). apply list_elem_of_fmap. eauto.
  - intros a b (th & Hth & _)%(qi_edge _ _ _ Hinv). rewrite (qi_dep _ _ _ Hinv).
    by eapply lookup_lt_Some.
Qed.

Lemma queue_inv_start numRecords n :
  queue_inv numRecords (replicate n start_thread) (new_Monitor n numRecords).
Proof.
  assert (∀ t th, replicate n start_thread !! t = Some th → th = start_thread) as Hth
    by (intros t th [? _]%lookup_replicate; done).
  split; cbn; rewrite ?length_imap, ?length_replicate; try done.
  - intros t th ->%Hth. split; [left; by left | done].
  - intros x q [-> _]%lookup_replicate. constructor.
  - intros x q k [-> _]%lookup_replicate. cbn. rewrite elem_of_nil. split; [done |].
    intros (_ & th & ->%Hth & Hk). by apply not_elem_of_nil in Hk.
  - intros a b (s & [-> _]%lookup_replicate & Hs). set_solver.
Qed.

(** ** The global mutex *)

Lemma tc_last {A} (P : A → A → Prop) x y : tc P x y → ∃ z, P z y.
Proof. induction 1; eauto. Qed.

(** A thread that asks for its first lock has no request in any queue, so
    nobody waits for it. *)
Lemma no_first_deadlock numRecords ths m t th q :
  queue_inv numRecords ths m → ths !! t = Some th → at_pc th = Check R →
  lock_request m !! ri th = Some q → ¬ tc (dep_edge (add_deps m q (request t th R))) t t.
Proof.
  intros Hinv Ht Hpc Hq (z & Hz)%tc_last.
  assert (queued t th = []) as Hnone.
  { pose proof (lo_having _ _ _ (qi_local _ _ _ Hinv t th Ht)) as Hh.
    unfold having_ok in Hh. unfold queued. by rewrite Hpc in *. }
  rewrite add_deps_edge in Hz by (cbn; rewrite (qi_dep _ _ _ Hinv); by eapply lookup_lt_Some).
  assert (∃ th, ths !! t = Some th ∧ queued t th ≠ []) as (th0 & Ht0 & Hth0); [| by simplify_eq].
  destruct Hz as [Hz | (_ & r & Hr & <- & _)]; [by eapply (qi_edge _ _ _ Hinv) |].
  apply requested_target, (qi_mem _ _ _ Hinv _ _ (key r) Hq). apply list_elem_of_fmap. eauto.
Qed.

Definition mutex_inv (ths : list thread) (sh : shared) : Prop :=
  ∀ t, global_mutex sh = Some t ↔ ∃ th, ths !! t = Some th ∧ crit (at_pc th) = true.

(** What a rule does to the global mutex. *)
Inductive mutex_effect (t : nat) (th th' : thread) (sh sh' : shared) : Prop :=
| me_same : global_mutex sh' = global_mutex sh → crit (at_pc th') = crit (at_pc th) →
    mutex_effect t th th' sh sh'
| me_lock : global_mutex sh = None → global_mutex sh' = Some t → crit (at_pc th') = true →
    mutex_effect t th th' sh sh'
| me_unlock : crit (at_pc th) = true → global_mutex sh' = None → crit (at_pc th') = false →
    mutex_effect t th th' sh sh'.

Lemma rule_mutex_effect numRecords E ths t th sh th' sh' :
  queue_inv numRecords ths (monitor sh) → ths !! t = Some th →
  rule numRecords E t th sh th' sh' → mutex_effect t th th' sh sh'.
Proof.
  intros Hinv Ht Hr. destruct Hr;
    try (by apply me_same; at_point);
    try (by apply me_lock);
    try (by apply me_unlock; at_point).
  - destruct s; [| by apply me_same; at_point..].
    exfalso. by eapply no_first_deadlock.
  - apply me_same; at_point; by destruct g.
  - apply me_same; at_point; by destruct s.
  - apply me_same; at_point; by destruct c.
  - apply me_same; at_point; by destruct s.
Qed.

Lemma mutex_inv_step ths t th sh th' sh' :
  mutex_inv ths sh → ths !! t = Some th → mutex_effect t th th' sh sh' →
  mutex_inv (<[t := th']> ths) sh'.
Proof.
  intros Hinv Ht Heff u. pose proof (lookup_lt_Some _ _ _ Ht) as Hlt.
  assert ((∃ uh, <[t := th']> ths !! u = Some uh ∧ crit (at_pc uh) = true) ↔
    (u = t ∧ crit (at_pc th') = true) ∨ (u ≠ t ∧ global_mutex sh = Some u)) as ->.
  { rewrite (Hinv u). destruct (decide (u = t)) as [-> | Hne].
    - rewrite list_lookup_insert_eq by done. naive_solver.
    - rewrite list_lookup_insert_ne by done. naive_solver. }
  pose proof (Hinv t) as Hgt. rewrite Ht in Hgt.
  destruct Heff as [-> Hc | Hn -> Hc | Hc -> Hc']; rewrite ?Hc, ?Hc', ?Hn.
  - destruct (decide (u = t)) as [-> | Hne]; [| tauto]. rewrite Hgt. naive_solver.
  - naive_solver.
  - destruct (global_mutex sh) as [o |] eqn:Ho; [| naive_solver].
    assert (Some o = Some t) as [= ->] by (apply Hgt; eauto). naive_solver.
Qed.

(** Two threads are never both inside critical sections. *)
Lemma mutex_excl ths sh t u th uh :
  mutex_inv ths sh → ths !! t = Some th → ths !! u = Some uh →
  crit (at_pc th) = true → crit (at_pc uh) = true → t = u.
Proof.
  intros Hinv Ht Hu Hct Hcu.
  assert (global_mutex sh = Some t) by (apply Hinv; eauto).
  assert (global_mutex sh = Some u) by (apply Hinv; eauto). congruence.
Qed.

(** ** The rw locks *)

Definition reads (x : nat) (l : LockInfo) : Prop := type l = R ∧ index l = x.
Definition writes (x : nat) (l : LockInfo) : Prop := type l ≠ R ∧ index l = x.
#[global] Instance reads_dec x l : Decision (reads x l).
Proof. unfold reads. apply _. Defined.
#[global] Instance writes_dec x l : Decision (writes x l).
Proof. unfold writes. apply _. Defined.

Definition n_readers (x t : nat) (th : thread) : nat := length (filter (reads x) (held t th)).
Definition n_writers (x t : nat) (th : thread) : nat := length (filter (writes x) (held t th)).
Definition n_claims (x t : nat) (th : thread) : nat := length (filter (writes x) (claimed t th)).

(** The counter and the flag of the rw lock of a record. *)
Definition rw_view (m : Monitor) (x : nat) : option (Z * bool) :=
  (λ r, (numReader (rwlock r), writing (rwlock r))) <$> records m !! x.

(** [numReader] counts the readers, [writing] tells that there is one claim,
    and there are never a reader and a writer inside at the same time. *)
Definition rw_inv (ths : list thread) (m : Monitor) : Prop :=
  ∀ x n w, rw_view m x = Some (n, w) →
    n = Z.of_nat (total (n_readers x) ths) ∧
    Z.b2z w = Z.of_nat (total (n_claims x) ths) ∧
    (total (n_writers x) ths = 0 ∨ total (n_readers x) ths = 0)%nat.

Lemma rw_view_upd_rw m y r l x :
  records m !! y = Some r →
  rw_view (upd_rw m y r l) x = if decide (x = y) then Some (numReader l, writing l) else rw_view m x.
Proof.
  intros Hr. unfold rw_view, upd_rw. cbn. destruct (decide (x = y)) as [-> | Hne].
  - by rewrite list_lookup_insert_eq by (by eapply lookup_lt_Some).
  - by rewrite list_lookup_insert_ne.
Qed.

Lemma rw_view_same m y r l x :
  records m !! y = Some r → numReader l = numReader (rwlock r) → writing l = writing (rwlock r) →
  rw_view (upd_rw m y r l) x = rw_view m x.
Proof.
  intros Hr H1 H2. rewrite rw_view_upd_rw by done.
  destruct (decide (x = y)) as [-> | Hne]; [| done]. unfold rw_view. by rewrite Hr, H1, H2.
Qed.

Lemma rw_view_upd_val m y r v x :
  records m !! y = Some r → rw_view (upd_val m y r v) x = rw_view m x.
Proof.
  intros Hr. unfold rw_view, upd_val. cbn. destruct (decide (x = y)) as [-> | Hne].
  - by rewrite Hr, list_lookup_insert_eq by (by eapply lookup_lt_Some).
  - by rewrite list_lookup_insert_ne.
Qed.

(** What a rule does to the rw locks; [y] is the record it touches. *)
Inductive rw_effect (t : nat) (th th' : thread) (m m' : Monitor) : Prop :=
| re_same : (∀ x, rw_view m' x = rw_view m x) →
    held t th' = held t th → claimed t th' = claimed t th → rw_effect t th th' m m'
| re_read n l : rw_view m (index l) = Some (n, false) → type l = R →
    (∀ x, rw_view m' x = if decide (x = index l) then Some (n + 1, false) else rw_view m x) →
    held t th' = held t th ++ [l] → claimed t th' = claimed t th ++ [l] → rw_effect t th th' m m'
| re_claim n l : rw_view m (index l) = Some (n, false) → type l ≠ R →
    (∀ x, rw_view m' x = if decide (x = index l) then Some (n, true) else rw_view m x) →
    held t th' = held t th → claimed t th' = claimed t th ++ [l] → rw_effect t th th' m m'
| re_drained n w l : rw_view m (index l) = Some (n, w) → n ≤ 0 → type l ≠ R →
    (∀ x, rw_view m' x = rw_view m x) →
    held t th' = held t th ++ [l] → claimed t th' = claimed t th → rw_effect t th th' m m'
| re_release n w l : rw_view m (index l) = Some (n, w) →
    (∀ x, rw_view m' x = if decide (x = index l)
                         then Some (if decide (type l = R) then (n - 1, w) else (n, false))
                         else rw_view m x) →
    held t th = l :: held t th' → claimed t th = l :: claimed t th' → rw_effect t th th' m m'.

Lemma rw_view_lookup m x r :
  records m !! x = Some r → rw_view m x = Some (numReader (rwlock r), writing (rwlock r)).
Proof. intros Hr. unfold rw_view. by rewrite Hr. Qed.

Lemma rule_rw_effect numRecords E t th sh th' sh' :
  rule numRecords E t th sh th' sh' → having_ok t th →
  rw_effect t th th' (monitor sh) (monitor sh').
Proof.
  intros Hr Hh. unfold having_ok in Hh.
  destruct Hr; at_point;
    try (apply re_same;
         [intros x; cbn; first [done | by apply rw_view_same | by apply rw_view_upd_val]
         | unfold held; cbn; at_point; cbn; rewrite ?Hh;
           first [done | by destruct c | by destruct g | by destruct s | by destruct H0]
         | unfold claimed, held; cbn; at_point; cbn; rewrite ?Hh;
           first [done | by destruct c | by destruct g | by destruct s | by destruct H0]]).
  - eapply (re_read _ _ _ _ _ _ (request t th R)); cbn.
    + rewrite (rw_view_lookup _ _ _ H0). by rewrite H1.
    + done.
    + intros x. by rewrite rw_view_upd_rw.
    + unfold held. cbn. by at_point.
    + unfold claimed, held. cbn. by at_point.
  - eapply (re_claim _ _ _ _ _ _ (request t th s)); cbn.
    + rewrite (rw_view_lookup _ _ _ H1). by rewrite H2.
    + done.
    + intros x. by rewrite rw_view_upd_rw.
    + unfold held. cbn. by at_point.
    + unfold claimed, held. cbn. by at_point.
  - eapply (re_drained _ _ _ _ _ _ _ (request t th s)); cbn.
    + by apply rw_view_lookup.
    + done.
    + by destruct s.
    + intros x. by apply rw_view_same.
    + unfold held. cbn. by at_point.
    + unfold claimed, held. cbn. by at_point.
  - eapply (re_release _ _ _ _ _ _ _ l); cbn.
    + by apply rw_view_lookup.
    + intros x. rewrite rw_view_upd_rw by done. unfold released.
      destruct (decide (x = index l)); [| done].
      destruct (decide (type l = R)); [by rewrite bool_decide_true | by rewrite bool_decide_false].
    + unfold held. cbn. by at_point.
    + unfold claimed, held. cbn. by at_point.
Qed.

Lemma writers_le_claims x t th : (n_writers x t th ≤ n_claims x t th)%nat.
Proof.
  unfold n_writers, n_claims, claimed, held. destruct (at_pc th); try done.
  destruct a; try done; rewrite filter_app, length_app; lia.
Qed.

(** How often a single lock counts. *)
Definition count1 (P : LockInfo → Prop) `{!∀ l, Decision (P l)} (l : LockInfo) : nat :=
  if decide (P l) then 1%nat else 0%nat.

Lemma length_filter_snoc (P : LockInfo → Prop) `{!∀ l, Decision (P l)} ls l :
  length (filter P (ls ++ [l])) = (length (filter P ls) + count1 P l)%nat.
Proof. rewrite filter_app, length_app, filter_cons, filter_nil. unfold count1. by destruct (decide (P l)). Qed.

Lemma length_filter_cons (P : LockInfo → Prop) `{!∀ l, Decision (P l)} ls l :
  length (filter P (l :: ls)) = (count1 P l + length (filter P ls))%nat.
Proof. rewrite filter_cons. unfold count1. by destruct (decide (P l)). Qed.

Lemma rw_inv_step ths t th th' m m' :
  rw_inv ths m → ths !! t = Some th → rw_effect t th th' m m' → rw_inv (<[t := th']> ths) m'.
Proof.
  intros Hinv Ht Heff x n w Hv.
  pose proof (total_insert (n_readers x) ths t th th' Ht) as TR.
  pose proof (total_insert (n_writers x) ths t th th' Ht) as TW.
  pose proof (total_insert (n_claims x) ths t th th' Ht) as TC.
  pose proof (total_mono _ _ ths (λ u uh _, writers_le_claims x u uh)) as Hle.
  pose proof (total_ge (n_claims x) ths t th Ht) as Hge.
  change (n_readers x t ?h) with (length (filter (reads x) (held t h))) in TR.
  change (n_writers x t ?h) with (length (filter (writes x) (held t h))) in TW.
  change (n_claims x t ?h) with (length (filter (writes x) (claimed t h))) in TC, Hge.
  destruct Heff as [He Hh Hc | n0 l Hl Hty He Hh Hc | n0 l Hl Hty He Hh Hc
    | n0 w0 l Hl Hn Hty He Hh Hc | n0 w0 l Hl He Hh Hc]; rewrite He in Hv; rewrite Hh, Hc in *;
    rewrite ?length_filter_snoc, ?length_filter_cons in *; unfold count1, reads, writes in *.
  - destruct (Hinv x n w Hv) as (I1 & I2 & I3). lia.
  - destruct (decide (x = index l)) as [-> | Hne].
    + injection Hv as <- <-. destruct (Hinv _ _ _ Hl) as (I1 & I2 & I3).
      rewrite decide_True in TR by done. rewrite decide_False in TW, TC by naive_solver. cbn in *. lia.
    + destruct (Hinv x n w Hv) as (I1 & I2 & I3). 
      rewrite decide_False in TR by naive_solver. rewrite decide_False in TW, TC by naive_solver. lia.
  - destruct (decide (x = index l)) as [-> | Hne].
    + injection Hv as <- <-. destruct (Hinv _ _ _ Hl) as (I1 & I2 & I3).
      rewrite decide_True in TC by done. cbn in *. lia.
    + destruct (Hinv x n w Hv) as (I1 & I2 & I3). rewrite decide_False in TC by naive_solver. lia.
  - destruct (Hinv x n w Hv) as (I1 & I2 & I3). destruct (decide (x = index l)) as [-> | Hne].
    + rewrite Hv in Hl. injection Hl as <- <-. rewrite decide_False in TR by naive_solver. lia.
    + rewrite decide_False in TR by naive_solver. rewrite decide_False in TW by naive_solver. lia.
  - destruct (decide (x = index l)) as [-> | Hne].
    + destruct (Hinv _ _ _ Hl) as (I1 & I2 & I3). destruct (decide (type l = R)) as [HR | HR].
      * injection Hv as <- <-. rewrite decide_True in TR by done.
        rewrite decide_False in TW, TC by naive_solver. lia.
      * injection Hv as <- <-. rewrite decide_False in TR by naive_solver.
        rewrite decide_True in TW, TC, Hge by done. destruct w0; cbn in *; lia.
    + destruct (Hinv x n w Hv) as (I1 & I2 & I3). rewrite decide_False in TR by naive_solver.
      rewrite decide_False in TW, TC by naive_solver. lia.
Qed.

Lemma rw_inv_start numRecords n : rw_inv (replicate n start_thread) (new_Monitor n numRecords).
Proof.
  intros x k w. unfold rw_view, new_Monitor. cbn. rewrite list_lookup_imap.
  destruct (replicate numRecords new_Record !! x) as [r |] eqn:Hr; [| done].
  apply lookup_replicate in Hr as [-> _]. cbn. intros [= <- <-].
  rewrite !total_replicate by done. cbn. auto.
Qed.

Lemma count_pos (P : LockInfo → Prop) `{!∀ l, Decision (P l)} ls l :
  l ∈ ls → P l → (0 < length (filter P ls))%nat.
Proof.
  intros Hl HP. assert (l ∈ filter P ls) as Hin by (by apply list_elem_of_filter).
  destruct (filter P ls); [by apply not_elem_of_nil in Hin | simpl; lia].
Qed.

(** Readers share, a writer is alone. *)
Lemma rw_excl ths m t u th uh l l' :
  rw_inv ths m → t ≠ u → ths !! t = Some th → ths !! u = Some uh →
  l ∈ held t th → l' ∈ held u uh → index l = index l' → is_Some (records m !! index l) →
  type l = R.
Proof.
  intros Hinv Hne Ht Hu Hl Hl' Hi [r Hr]. destruct (decide (type l = R)) as [| HR]; [done | exfalso].
  destruct (Hinv _ _ _ (rw_view_lookup _ _ _ Hr)) as (_ & I2 & I3).
  assert (writes (index l) l) as Hw by done.
  pose proof (count_pos (writes (index l)) _ _ Hl Hw) as HW.
  pose proof (total_ge (n_writers (index l)) ths t th Ht) as HT. unfold n_writers at 1 in HT.
  destruct (decide (type l' = R)) as [HR' | HR'].
  - pose proof (count_pos (reads (index l)) _ _ Hl' (conj HR' (eq_sym Hi))) as HRd.
    pose proof (total_ge (n_readers (index l)) ths u uh Hu) as HU. unfold n_readers at 1 in HU. lia.
  - pose proof (count_pos (writes (index l)) _ _ Hl' (conj HR' (eq_sym Hi))) as HW'.
    pose proof (total_ge_two (n_claims (index l)) ths t u th uh Hne Ht Hu) as HU.
    pose proof (writers_le_claims (index l) t th). pose proof (writers_le_claims (index l) u uh).
    unfold n_writers in *. destruct (writing (rwlock r)); cbn in I2; lia.
Qed.

(** ** Ownership *)

Definition own_inv (ths : list thread) : Prop :=
  ∀ t u th uh l l', t ≠ u → ths !! t = Some th → ths !! u = Some uh →
    l ∈ owned th → l' ∈ owned uh → index l = index l' → type l = R.

(** Outside the critical sections a thread is inside the rw locks of what it
    owns. *)
Lemma owned_held t th l : crit (at_pc th) = false → l ∈ owned th → l ∈ held t th.
Proof.
  unfold owned, held. destruct (at_pc th) as [| | | s a g | | | | | | | | | | | | | | |]; try done.
  - destruct a, g; try done; intros _ Hl; apply elem_of_app; by left.
  - intros _ Hl. apply elem_of_app. by left.
Qed.

(** What a rule does to what is owned. *)
Lemma rule_owned numRecords E t th sh th' sh' :
  rule numRecords E t th sh th' sh' →
  (∃ s, at_pc th = Unlock s ∧ owned th' = owned th ++ [request t th s]) ∨
  (∀ l, l ∈ owned th' → l ∈ owned th).
Proof.
  unfold owned. destruct 1; at_point; cbn;
    try (by left; eexists); right; intros l'; try done; try (by destruct s); try (by destruct g);
    try (by destruct c);
    try destruct s; intros Hl; try done; by apply not_elem_of_nil in Hl.
Qed.

Lemma rec_in_range numRecords t th s :
  local_ok numRecords t th → ¬ idle (at_pc th) → (rec_of th s < numRecords)%nat.
Proof.
  intros [[Hi | (_ & _ & Hr)] _] Hn; [done |].
  apply Forall_cons in Hr as [H1 Hr]. apply Forall_cons in Hr as [H2 Hr].
  apply Forall_cons in Hr as [H3 _]. by destruct s.
Qed.

(** Every lock a thread is inside of names a record. *)
Lemma held_in_range numRecords t th l :
  local_ok numRecords t th → l ∈ held t th → (index l < numRecords)%nat.
Proof.
  intros Hlo Hl. pose proof (lo_having _ _ _ Hlo) as Hh.
  assert (¬ idle (at_pc th)) as Hni.
  { unfold held in Hl. intros [Hi | Hi]; rewrite Hi in Hl; by apply not_elem_of_nil in Hl. }
  destruct (locks_sublist t th (held t th) Hh) as [s Hs]; [auto |].
  assert (l ∈ through t th s) as Hin by (by eapply elem_of_sublist).
  assert (∃ s, l = request t th s) as [s' ->]; [| by eapply rec_in_range].
  destruct s; cbn in Hin; rewrite !elem_of_cons, elem_of_nil in Hin; naive_solver.
Qed.

Section own_step.
Context (numRecords : nat) (E : Z) (ths : list thread) (sh : shared).
Context (Hq : queue_inv numRecords ths (monitor sh)) (Hm : mutex_inv ths sh).
Context (Hrw : rw_inv ths (monitor sh)) (Hown : own_inv ths).

(** When a thread is about to record a lock, no other thread owns a
    conflicting one. *)
Lemma unlock_excl t u th uh s l' :
  t ≠ u → ths !! t = Some th → ths !! u = Some uh → at_pc th = Unlock s →
  l' ∈ owned uh → index (request t th s) = index l' → s = R ∧ type l' = R.
Proof.
  intros Hne Ht Hu Hpc Hl' Hi.
  assert (crit (at_pc uh) = false) as Hcu.
  { destruct (crit (at_pc uh)) eqn:Hc; [| done]. exfalso. apply Hne.
    apply (mutex_excl ths sh t u th uh); auto. by rewrite Hpc. }
  pose proof (owned_held u uh l' Hcu Hl') as Hh'.
  assert (request t th s ∈ held t th) as Hh.
  { unfold held. rewrite Hpc. apply elem_of_app. right. by apply list_elem_of_singleton. }
  assert (is_Some (records (monitor sh) !! index (request t th s))) as Hx.
  { apply lookup_lt_is_Some. rewrite (qi_recs _ _ _ Hq).
    apply (rec_in_range _ t); [by apply (qi_local _ _ _ Hq) |]. rewrite Hpc. by intros [|]. }
  split.
  - change s with (type (request t th s)). by eapply (rw_excl ths _ t u).
  - rewrite Hi in Hx. by eapply (rw_excl ths _ u t).
Qed.

Lemma own_inv_step t th th' sh' :
  ths !! t = Some th → rule numRecords E t th sh th' sh' → own_inv (<[t := th']> ths).
Proof.
  intros Ht Hr a b ah bh l l' Hne Ha Hb Hl Hl' Hi.
  pose proof (rule_owned _ _ _ _ _ _ _ Hr) as Ho.
  assert (∀ l, l ∈ owned th' → l ∈ owned th ∨ ∃ s, at_pc th = Unlock s ∧ l = request t th s) as Ho'.
  { intros k Hk. destruct Ho as [(s & Hs & He) | Ho]; [| auto]. rewrite He in Hk.
    apply elem_of_app in Hk as [Hk | Hk%list_elem_of_singleton]; eauto. }
  apply list_lookup_insert_Some in Ha as [(<- & <- & _) | [Hta Ha]];
    apply list_lookup_insert_Some in Hb as [(Htb & <- & _) | [Htb Hb]]; try congruence.
  - apply Ho' in Hl as [Hl | (s & Hs & ->)]; [by apply (Hown t b th bh l l') |].
    by destruct (unlock_excl t b th bh s l').
  - subst b. apply Ho' in Hl' as [Hl' | (s & Hs & ->)]; [by apply (Hown a t ah th l l') |].
    by destruct (unlock_excl t a th ah s l).
  - by apply (Hown a b ah bh l l').
Qed.
End own_step.

(** ** The invariant of reachable states *)

Record lock_inv (numRecords : nat) (σ : sys) : Prop := {
  li_queue : queue_inv numRecords (threads σ) (monitor (sh σ));
  li_mutex : mutex_inv (threads σ) (sh σ);
  li_rw : rw_inv (threads σ) (monitor (sh σ));
  li_own : own_inv (threads σ)
}.

(** A step of the machine is a rule of one thread. *)
Lemma step_rule numRecords E σ σ' :
  lock_inv numRecords σ → step numRecords E σ σ' →
  ∃ t th th' sh', threads σ !! t = Some th ∧ rule numRecords E t th (sh σ) th' sh' ∧
    σ' = mkSys (<[t := th']> (threads σ)) sh'.
Proof.
  intros Hinv Hs. destruct Hs as [t v σ σ' Hs]. unfold sys_step in Hs.
  destruct (threads σ !! t) as [th |] eqn:Ht; [| done].
  apply then_inv in Hs as ([th' sh'] & Hs & ->).
  apply tstep_rule in Hs; [| by eapply queue_inv_wf, li_queue]. eauto 8.
Qed.

Lemma lock_inv_start numRecords n : lock_inv numRecords (start numRecords n).
Proof.
  assert (∀ t th, replicate n start_thread !! t = Some th → th = start_thread) as Hth
    by (intros t th [? _]%lookup_replicate; done).
  split; cbn.
  - apply queue_inv_start.
  - intros t. split; [done |]. intros (th & ->%Hth & Hc). done.
  - apply rw_inv_start.
  - intros t u th uh l l' _ ->%Hth _ Hl. by apply not_elem_of_nil in Hl.
Qed.

Lemma lock_inv_rule numRecords E σ t th th' sh' :
  lock_inv numRecords σ → threads σ !! t = Some th → rule numRecords E t th (sh σ) th' sh' →
  lock_inv numRecords (mkSys (<[t := th']> (threads σ)) sh').
Proof.
  intros [Hq Hm Hrw Ho] Ht Hr.
  pose proof (lo_having _ _ _ (qi_local _ _ _ Hq t th Ht)) as Hh. split; cbn.
  - by eapply queue_inv_step.
  - eapply mutex_inv_step; [done | done |]. by eapply rule_mutex_effect.
  - eapply rw_inv_step; [done | done |]. by eapply rule_rw_effect.
  - by eapply own_inv_step.
Qed.

(** An invariant kept by every rule in states that satisfy [lock_inv] holds in
    every reachable state. *)
Lemma reachable_ind (P : sys → Prop) numRecords E n :
  P (start numRecords n) →
  (∀ σ t th th' sh', lock_inv numRecords σ → P σ → threads σ !! t = Some th →
     rule numRecords E t th (sh σ) th' sh' →
     lock_inv numRecords (mkSys (<[t := th']> (threads σ)) sh') →
     P (mkSys (<[t := th']> (threads σ)) sh')) →
  ∀ σ, reachable numRecords E n σ → lock_inv numRecords σ ∧ P σ.
Proof.
  intros H0 Hstep σ Hσ. unfold reachable in Hσ. apply rtc_ind_r with (P := λ σ, lock_inv numRecords σ ∧ P σ) in Hσ;
    [done | split; [apply lock_inv_start | done] |].
  intros σ1 σ2 _ Hs [Hinv HP].
  destruct (step_rule _ _ _ _ Hinv Hs) as (t & th & th' & sh' & Ht & Hr & ->).
  pose proof (lock_inv_rule _ _ _ _ _ _ _ Hinv Ht Hr). split; [done |]. by eapply Hstep.
Qed.

Lemma reachable_lock_inv numRecords E n σ : reachable numRecords E n σ → lock_inv numRecords σ.
Proof. intros H. by apply (reachable_ind (λ _, True) numRecords E n) in H as [? _]. Qed.
