(* ===== verification/TxDeadlock.v ===== *)
(** * Deadlock avoidance in project 2

    The rw locks make a thread wait for the conflicting requests that came
    before its own.  The dependency graph of the monitor contains these waits,
    and the check before a request enters its queue keeps them free of cycles. *)

From S2P Require Import Prelude Monitor Transaction TxSteps TxLocks.

(** ** Waiting *)

(** The entries of a queue before a request, as the loops of [checkQueue] walk
    over them. *)
Fixpoint earlier (q : list LockInfo) (k : nat * LockType * nat) : list LockInfo :=
  match q with
  | [] => []
  | r :: q => if decide (key r = k) then [] else r :: earlier q k
  end.

(** Two requests for a record can be granted together only if both read. *)
Definition conflict (a b : LockInfo) : Prop := type a ≠ R ∨ type b ≠ R.

(** [t] is inside [getLock], not yet through, and the request of [u] that it
    conflicts with is ahead of its own. *)
Definition waits_for (σ : sys) (t u : nat) : Prop :=
  ∃ th s a g q r, threads σ !! t = Some th ∧ at_pc th = Get s a g ∧ a ≠ AFlag ∧
    lock_request (monitor (sh σ)) !! rec_of th s = Some q ∧
    r ∈ earlier q (key (request t th s)) ∧ conflict (request t th s) r ∧ tid r = u.

Lemma earlier_subset q k r : r ∈ earlier q k → r ∈ q.
Proof.
  induction q as [| x q IH]; simpl; [done |]. destruct (decide (key x = k)).
  - intros H. by apply not_elem_of_nil in H.
  - rewrite !elem_of_cons. tauto.
Qed.

Lemma earlier_app q q' k : k ∈ key <$> q → earlier (q ++ q') k = earlier q k.
Proof.
  induction q as [| x q IH]; cbn; intros Hk; [by apply not_elem_of_nil in Hk |].
  apply elem_of_cons in Hk as [-> | Hk].
  - by rewrite !decide_True.
  - destruct (decide (key x = k)); [done |]. by rewrite IH.
Qed.

Lemma earlier_mark q l k r :
  r ∈ earlier (mark_granted q l) k → ∃ r', r' ∈ earlier q k ∧ key r' = key r.
Proof.
  induction q as [| x q IH]; cbn; [intros H; by apply not_elem_of_nil in H |].
  assert (key (if same_lock x l then mkLock (index x) (type x) (tid x) true else x) = key x) as Hx
    by (by destruct (same_lock x l)).
  rewrite Hx. destruct (decide (key x = k)); [intros H; by apply not_elem_of_nil in H |].
  rewrite elem_of_cons. intros [-> | Hr].
  - exists x. by split; [left |].
  - destruct (IH Hr) as (r' & Hr' & He). exists r'. by split; [right |].
Qed.

Lemma earlier_erase q l k r : k ≠ key l → r ∈ earlier (erase_first q l) k → r ∈ earlier q k.
Proof.
  intros Hk. induction q as [| x q IH]; cbn; [done |].
  destruct (same_lock x l) eqn:Hs.
  - apply same_lock_key in Hs. rewrite decide_False by congruence. intros Hr. by right.
  - cbn. destruct (decide (key x = k)); [done |]. rewrite !elem_of_cons. tauto.
Qed.

(** ** Cycles of a graph to which edges out of one node are added *)

Definition acyclic (P : nat → nat → Prop) : Prop := ∀ a, ¬ tc P a a.

Lemma acyclic_subrel (P Q : nat → nat → Prop) : (∀ a b, P a b → Q a b) → acyclic Q → acyclic P.
Proof.
  intros H HQ a Ha. apply (HQ a).
  assert (∀ x y, tc P x y → tc Q x y) as Hsub; [| by apply Hsub].
  induction 1; [apply tc_once | eapply tc_l]; eauto.
Qed.

Lemma tc_through (P Q : nat → nat → Prop) t a b :
  (∀ x y, Q x y → P x y ∨ x = t) → tc Q a b → tc P a b ∨ (rtc Q a t ∧ tc Q t b).
Proof.
  intros H. induction 1 as [a b Hab | a b c Hab Hbc IH].
  - destruct (H a b Hab) as [? | ->]; [by left; apply tc_once |]. right. split; [done | by apply tc_once].
  - destruct (H a b Hab) as [HP | ->].
    + destruct IH as [IH | [IH1 IH2]]; [left; by eapply tc_l | right].
      split; [by eapply rtc_l | done].
    + right. split; [done | by eapply tc_l].
Qed.

Lemma acyclic_add (P Q : nat → nat → Prop) t :
  acyclic P → (∀ x y, Q x y → P x y ∨ x = t) → ¬ tc Q t t → acyclic Q.
Proof.
  intros HP H Ht a Ha. destruct (tc_through P Q t a a H Ha) as [Hc | [H1 H2]]; [by apply (HP a) |].
  apply Ht. by eapply tc_rtc_r.
Qed.

(** ** The dependency graph is free of cycles *)

(** A thread that was refused its request, before it gives up its locks. *)
Definition victim (th : thread) : Prop :=
  match at_pc th with
  | UndoJ => True
  | Rel false ls => ls = havingLocks th
  | _ => False
  end.

Definition without (t : nat) (P : nat → nat → Prop) (a b : nat) : Prop := a ≠ t ∧ b ≠ t ∧ P a b.

Definition graph_inv (ths : list thread) (dep : list (gset nat)) : Prop :=
  acyclic (dep_edge dep) ∨
  ∃ t th, ths !! t = Some th ∧ victim th ∧ acyclic (without t (dep_edge dep)).

Lemma victim_crit th : victim th → crit (at_pc th) = true.
Proof. unfold victim. by destruct (at_pc th). Qed.

Inductive graph_effect (t : nat) (th th' : thread) (m m' : Monitor) : Prop :=
| ge_same : dependThreads m' = dependThreads m → (victim th → victim th') → graph_effect t th th' m m'
| ge_refused s q : at_pc th = Check s → lock_request m !! rec_of th s = Some q →
    dependThreads m' = add_deps m q (request t th s) →
    tc (dep_edge (add_deps m q (request t th s))) t t →
    (s ≠ R → victim th') → graph_effect t th th' m m'
| ge_added s q : at_pc th = Check s → lock_request m !! rec_of th s = Some q →
    dependThreads m' = add_deps m q (request t th s) →
    ¬ tc (dep_edge (add_deps m q (request t th s))) t t → graph_effect t th th' m m'
| ge_cleared : crit (at_pc th) = true → dependThreads m' = (λ s, s ∖ {[t]}) <$> <[t := ∅]> (dependThreads m) →
    graph_effect t th th' m m'.

Lemma rule_graph_effect numRecords E t th sh th' sh' :
  rule numRecords E t th sh th' sh' → having_ok t th →
  graph_effect t th th' (monitor sh) (monitor sh').
Proof.
  intros Hr Hh.
  destruct Hr; try (apply ge_same; [done |]; unfold victim; at_point; done).
  - eapply ge_refused; try done. unfold victim. cbn. by destruct s.
  - by eapply ge_added.
  - by eapply ge_added.
  - apply ge_same; [done |]. unfold victim, having_ok in *. at_point. destruct c; [done |].
    intros He. destruct Hh as [[Hh | Hh] _]; by rewrite Hh in He.
  - assert (tid l = t) as <-; [| apply ge_cleared; [by at_point | done]].
    apply (queued_tid t th); [done |]. unfold queued. at_point. by left.
Qed.

Lemma graph_inv_step numRecords σ t th th' m' :
  lock_inv numRecords σ → threads σ !! t = Some th →
  graph_effect t th th' (monitor (sh σ)) m' →
  graph_inv (threads σ) (dependThreads (monitor (sh σ))) →
  graph_inv (<[t := th']> (threads σ)) (dependThreads m').
Proof.
  intros [Hq Hm _ _] Ht Heff Hinv. pose proof (lookup_lt_Some _ _ _ Ht) as Hlt.
  assert (∀ s, at_pc th = Check s → acyclic (dep_edge (dependThreads (monitor (sh σ))))) as Hcheck.
  { intros s Hs. destruct Hinv as [? | (v & vh & Hv & Hvic & _)]; [done | exfalso].
    assert (t = v) as <-.
    { apply (mutex_excl _ _ t v th vh Hm); [done | done | by rewrite Hs | by apply victim_crit]. }
    simplify_eq. unfold victim in Hvic. by rewrite Hs in Hvic. }
  assert (∀ s q x y, dep_edge (add_deps (monitor (sh σ)) q (request t th s)) x y →
    dep_edge (dependThreads (monitor (sh σ))) x y ∨ x = t) as Hadd.
  { intros s q x y. rewrite add_deps_edge by (cbn; by rewrite (qi_dep _ _ _ Hq)). naive_solver. }
  destruct Heff as [He Hvic | s q Hs Hlq He Hc Hvic | s q Hs Hlq He Hc | Hcr He]; rewrite He.
  - destruct Hinv as [? | (v & vh & Hv & Hvv & Hac)]; [by left | right].
    destruct (decide (v = t)) as [-> | Hne].
    + simplify_eq. exists t, th'. rewrite list_lookup_insert_eq by done. auto.
    + exists v, vh. by rewrite list_lookup_insert_ne.
  - destruct (decide (s = R)) as [-> | HR]; [exfalso; by eapply no_first_deadlock |].
    right. exists t, th'. rewrite list_lookup_insert_eq by done. split; [done |]. split; [auto |].
    eapply acyclic_subrel; [| by eapply Hcheck]. intros a b (Ha & _ & Hab). by destruct (Hadd _ _ _ _ Hab).
  - left. by eapply acyclic_add; [by eapply Hcheck | apply Hadd |].
  - left. destruct Hinv as [Hac | (v & vh & Hv & Hvv & Hac)].
    + eapply acyclic_subrel; [| done]. intros a b (_ & _ & Hab)%dep_edge_clear. done.
    + assert (t = v) as <- by (apply (mutex_excl _ _ t v th vh Hm); auto using victim_crit).
      eapply acyclic_subrel; [| done]. by intros a b (Ha & Hb & Hab)%dep_edge_clear.
Qed.

(** ** The graph covers the waits *)

Definition releasing (p : pc) : Prop :=
  match p with Rel _ _ | RelRw _ _ _ => True | _ => False end.

Definition covered (ths : list thread) (m : Monitor) : Prop :=
  ∀ t th s a g q r, ths !! t = Some th → at_pc th = Get s a g → a ≠ AFlag →
    lock_request m !! rec_of th s = Some q →
    r ∈ earlier q (key (request t th s)) → conflict (request t th s) r →
    (∃ uh, ths !! tid r = Some uh ∧ releasing (at_pc uh)) ∨ dep_edge (dependThreads m) t (tid r).

Lemma releasing_step numRecords E t th sh th' sh' :
  rule numRecords E t th sh th' sh' → releasing (at_pc th) →
  releasing (at_pc th') ∨ queued t th' = [].
Proof.
  destruct 1; at_point; try done; intros _; try (by left). right. unfold queued. by destruct c.
Qed.

Lemma get_step numRecords E t th sh th' sh' s a g :
  rule numRecords E t th sh th' sh' → at_pc th' = Get s a g → a ≠ AFlag →
  (rec_of th' s = rec_of th s) ∧
  ((∃ a', at_pc th = Get s a' g ∧ a' ≠ AFlag ∧
      lock_request (monitor sh') = lock_request (monitor sh) ∧
      dependThreads (monitor sh') = dependThreads (monitor sh)) ∨
   (∃ q, at_pc th = Check s ∧ lock_request (monitor sh) !! rec_of th s = Some q ∧
      lock_request (monitor sh') = <[rec_of th s := q ++ [request t th s]]> (lock_request (monitor sh)) ∧
      dependThreads (monitor sh') = add_deps (monitor sh) q (request t th s))).
Proof.
  destruct 1; cbn [at_pc goto]; intros He Ha; try done;
    try (destruct s0; done); try (destruct g0; done); try (destruct c; done);
    injection He as -> <- ->; (split; [by destruct s |]);
    try (left; eexists; repeat split; [done |..]; try done; by destruct H0);
    right; eexists; repeat split; done.
Qed.

Lemma conflict_key req r r' : key r' = key r → conflict req r → conflict req r'.
Proof. unfold key, conflict. by intros [= _ -> _]. Qed.

Lemma conflict_depends req r : conflict req r → depends_on req r.
Proof.
  unfold conflict, depends_on. intros H. apply Is_true_true. apply orb_true_iff.
  rewrite andb_true_iff, !bool_decide_eq_true. destruct (decide (type req = R)); tauto.
Qed.

(** When the predicate of [wait] is false, a conflicting request is ahead. *)
Lemma checkQueue_false q req :
  checkQueue q req = Ret false → ∃ r, r ∈ earlier q (key req) ∧ conflict req r.
Proof.
  assert (∀ q', all_readers_before q' req = false → ∃ r, r ∈ earlier q' (key req) ∧ type r ≠ R) as HR.
  { induction q' as [| r q' IH]; [done |]. cbn [all_readers_before earlier].
    destruct (same_lock r req) eqn:Hs; [done |]. apply same_lock_neq in Hs. rewrite decide_False by done.
    case_bool_decide; intros Hq'.
    - exists r. by split; [left |].
    - destruct (IH Hq') as (r' & Hr' & Ht). exists r'. by split; [right |]. }
  assert (∀ q', granted_readers_before q' req = false → ∃ r, r ∈ earlier q' (key req)) as HW.
  { induction q' as [| r q' IH]; [done |]. cbn [granted_readers_before earlier].
    destruct (same_lock r req) eqn:Hs; [done |]. apply same_lock_neq in Hs. rewrite decide_False by done.
    intros _. exists r. by left. }
  unfold checkQueue. destruct q as [| first q]; [done |].
  destruct (same_lock req first); [done |]. case_bool_decide as Ht; intros [= Hq].
  - destruct (HR (first :: q) Hq) as (r & Hr & Htr). exists r. split; [done | by right].
  - destruct (HW (first :: q) Hq) as (r & Hr). exists r. split; [done | by left].
Qed.

(** The own request of a waiting thread is in the queue. *)
Lemma own_in_queue numRecords ths m t th s a g q :
  queue_inv numRecords ths m → ths !! t = Some th → at_pc th = Get s a g →
  lock_request m !! rec_of th s = Some q → key (request t th s) ∈ key <$> q.
Proof.
  intros Hq Ht Hpc Hl. apply (qi_mem _ _ _ Hq _ _ _ Hl). split; [done |].
  exists th. split; [done |]. unfold queued. cbn. rewrite Hpc, fmap_app, elem_of_app. right.
  by apply list_elem_of_singleton.
Qed.

Section covered_step.
Context (numRecords : nat) (E : Z) (ths : list thread) (t : nat) (th th' : thread) (sh sh' : shared).
Context (Hq : queue_inv numRecords ths (monitor sh)) (Ht : ths !! t = Some th).
Context (Hq' : queue_inv numRecords (<[t := th']> ths) (monitor sh')).
Context (Hr : rule numRecords E t th sh th' sh').
Context (Hcov : covered ths (monitor sh)).

Lemma edge_grows q s a b :
  dep_edge (dependThreads (monitor sh)) a b →
  dep_edge (add_deps (monitor sh) q (request t th s)) a b.
Proof.
  intros He. apply add_deps_edge; [| by left]. cbn. rewrite (qi_dep _ _ _ Hq). by eapply lookup_lt_Some.
Qed.

(** A thread in the release loop stays in it while it has requests queued. *)
Lemma releasing_kept x q r :
  lock_request (monitor sh') !! x = Some q → key r ∈ key <$> q →
  (∃ uh, ths !! tid r = Some uh ∧ releasing (at_pc uh)) →
  ∃ uh, <[t := th']> ths !! tid r = Some uh ∧ releasing (at_pc uh).
Proof.
  intros Hx Hk (uh & Hu & Hrel). destruct (decide (tid r = t)) as [He | Hne].
  - rewrite He in Hu. assert (uh = th) as -> by congruence. exists th'. rewrite He.
    rewrite list_lookup_insert_eq by (by eapply lookup_lt_Some). split; [done |].
    destruct (releasing_step _ _ _ _ _ _ _ Hr Hrel) as [? | Hnil]; [done | exfalso].
    apply (qi_mem _ _ _ Hq' _ _ _ Hx) in Hk as (_ & uh' & Hu' & Hk). cbn in *.
    rewrite He, list_lookup_insert_eq in Hu' by (by eapply lookup_lt_Some). injection Hu' as <-.
    rewrite He, Hnil in Hk. by apply not_elem_of_nil in Hk.
  - exists uh. by rewrite list_lookup_insert_ne.
Qed.

(** The thread that moves. *)
Lemma covered_own s a g q r :
  at_pc th' = Get s a g → a ≠ AFlag →
  lock_request (monitor sh') !! rec_of th' s = Some q →
  r ∈ earlier q (key (request t th' s)) → conflict (request t th' s) r →
  (∃ uh, ths !! tid r = Some uh ∧ releasing (at_pc uh)) ∨
  dep_edge (dependThreads (monitor sh')) t (tid r).
Proof.
  intros Hpc Ha Hl Hre Hd.
  destruct (get_step _ _ _ _ _ _ _ _ _ _ Hr Hpc Ha) as [Hrec Hcase].
  assert (request t th' s = request t th s) as Hreq by (unfold request; by rewrite Hrec).
  rewrite Hreq, ?Hrec in *.
  destruct Hcase as [(a' & Hpc0 & Ha' & He1 & He2) | (q0 & Hpc0 & Hq0 & He1 & He2)].
  - rewrite He1 in Hl. rewrite He2. by eapply Hcov.
  - right. rewrite He2. apply add_deps_edge.
    { cbn. rewrite (qi_dep _ _ _ Hq). by eapply lookup_lt_Some. }
    right. split; [done |]. exists r. split; [| split; [done | by apply conflict_depends]].
    rewrite He1, list_lookup_insert_eq in Hl by (by eapply lookup_lt_Some). injection Hl as <-.
    pose proof (earlier_subset _ _ _ Hre) as Hin.
    apply elem_of_app in Hin as [? | Heq%list_elem_of_singleton]; [done | exfalso]. subst r.
    clear - Hre. induction q0 as [| x q0 IH]; cbn in Hre.
    + rewrite decide_True in Hre by done. by apply not_elem_of_nil in Hre.
    + destruct (decide (key x = key (request t th s))) as [Hk | Hk];
        [by apply not_elem_of_nil in Hre |].
      apply elem_of_cons in Hre as [Hre | Hre]; [by rewrite <- Hre in Hk | auto].
Qed.

(** The other threads. *)
Lemma covered_other u uh s a g q r :
  u ≠ t → ths !! u = Some uh → at_pc uh = Get s a g → a ≠ AFlag →
  lock_request (monitor sh') !! rec_of uh s = Some q →
  r ∈ earlier q (key (request u uh s)) → conflict (request u uh s) r →
  (∃ vh, ths !! tid r = Some vh ∧ releasing (at_pc vh)) ∨ 
  (tid r = t ∧ releasing (at_pc th')) ∨ dep_edge (dependThreads (monitor sh')) u (tid r).
Proof.
  intros Hne Hu Hpc Ha Hl Hre Hd.
  pose proof (lo_having _ _ _ (qi_local _ _ _ Hq t th Ht)) as Hh.
  assert (∀ q0 r0, lock_request (monitor sh) !! rec_of uh s = Some q0 →
    r0 ∈ earlier q0 (key (request u uh s)) → key r0 = key r →
    (∃ vh, ths !! tid r = Some vh ∧ releasing (at_pc vh)) ∨
    dep_edge (dependThreads (monitor sh)) u (tid r)) as Hold.
  { intros q0 r0 Hl0 Hr0 Hk. apply (conflict_key _ _ _ Hk) in Hd.
    assert (tid r0 = tid r) as <- by (unfold key in Hk; congruence). by eapply Hcov. }
  destruct (rule_queue_effect _ _ _ _ _ _ _ Hr Hh) as
    [He1 He2 _ | s0 q0 _ _ He1 He2 _ | s0 q0 _ Hq0 He1 He2 _ _ | s0 q0 Hq0 He1 He2 _ | l q0 Hq0 He1 He2 Hrel Hs].
  - rewrite He1 in Hl. rewrite He2. destruct (Hold q r Hl Hre eq_refl); auto.
  - rewrite He1 in Hl. rewrite He2. destruct (Hold q r Hl Hre eq_refl); auto using edge_grows.
  - rewrite He2. rewrite He1 in Hl. apply list_lookup_insert_Some in Hl as [(Hx & <- & _) | [_ Hl]].
    + rewrite Hx in Hq0. rewrite earlier_app in Hre by (by eapply (own_in_queue numRecords ths (monitor sh))).
      destruct (Hold q0 r Hq0 Hre eq_refl); auto using edge_grows.
    + destruct (Hold q r Hl Hre eq_refl); auto using edge_grows.
  - rewrite He2. rewrite He1 in Hl. apply list_lookup_insert_Some in Hl as [(Hx & <- & _) | [_ Hl]].
    + rewrite Hx in Hq0. destruct (earlier_mark _ _ _ _ Hre) as (r0 & Hr0 & Hk).
      destruct (Hold q0 r0 Hq0 Hr0 Hk); auto.
    + destruct (Hold q r Hl Hre eq_refl); auto.
  - assert (tid l = t) as Htl by (apply (queued_tid t th l Hh); rewrite Hs; by left).
    destruct (decide (tid r = t)) as [Hrt | Hrt].
    { right. left. split; [done |]. destruct Hrel as (c & ls & ->). done. }
    assert (∀ q, lock_request (monitor sh) !! rec_of uh s = Some q →
      r ∈ earlier q (key (request u uh s)) →
      (∃ vh, ths !! tid r = Some vh ∧ releasing (at_pc vh)) ∨
      dep_edge (dependThreads (monitor sh')) u (tid r)) as Hnew.
    { intros q1 Hl1 Hr1. destruct (Hold q1 r Hl1 Hr1 eq_refl) as [? | He]; [by left | right].
      rewrite He2, Htl. by apply dep_edge_clear. }
    rewrite He1 in Hl. apply list_lookup_insert_Some in Hl as [(Hx & <- & _) | [_ Hl]].
    + rewrite Hx in Hq0. apply earlier_erase in Hre; [destruct (Hnew q0 Hq0 Hre); auto |].
      unfold key. cbn. congruence.
    + destruct (Hnew q Hl Hre); auto.
Qed.

Lemma covered_step : covered (<[t := th']> ths) (monitor sh').
Proof.
  intros u uh s a g q r Hu Hpc Ha Hl Hre Hd. pose proof (lookup_lt_Some _ _ _ Ht) as Hlt.
  assert (key r ∈ key <$> q) as Hin by (apply list_elem_of_fmap; eauto using earlier_subset).
  apply list_lookup_insert_Some in Hu as [(<- & <- & _) | [Hne Hu]].
  - destruct (covered_own s a g q r Hpc Ha Hl Hre Hd); [left | by right]. by eapply releasing_kept.
  - destruct (covered_other u uh s a g q r (not_eq_sym Hne) Hu Hpc Ha Hl Hre Hd) as [? | [[Ht' ?] | ?]];
      [left; by eapply releasing_kept | left | by right].
    exists th'. rewrite Ht'. by rewrite list_lookup_insert_eq.
Qed.
End covered_step.

(** ** The theorems *)

Definition waiting_thread (σ : sys) (t : nat) : Prop :=
  ∃ th s a g, threads σ !! t = Some th ∧ at_pc th = Get s a g ∧ a ≠ AFlag.

Definition deadlock_inv (σ : sys) : Prop :=
  graph_inv (threads σ) (dependThreads (monitor (sh σ))) ∧ covered (threads σ) (monitor (sh σ)).

Lemma deadlock_inv_start numRecords n : deadlock_inv (start numRecords n).
Proof.
  split.
  - left. intros a (z & s & Hs & Hz)%tc_last. cbn in Hs.
    apply lookup_replicate in Hs as [-> _]. set_solver.
  - intros t th s a g q r Ht Hpc. cbn in Ht. apply lookup_replicate in Ht as [-> _]. done.
Qed.

Lemma reachable_deadlock_inv numRecords E n σ :
  reachable numRecords E n σ → lock_inv numRecords σ ∧ deadlock_inv σ.
Proof.
  apply reachable_ind; [apply deadlock_inv_start |].
  intros σ1 t th th' sh' Hinv [Hg Hc] Ht Hr Hinv'. pose proof (li_queue _ _ Hinv) as Hq.
  pose proof (lo_having _ _ _ (qi_local _ _ _ Hq t th Ht)) as Hh. split; cbn.
  - eapply graph_inv_step; [done | done | by eapply rule_graph_effect | done].
  - eapply covered_step; [done | done | apply (li_queue _ _ Hinv') | done | done].
Qed.

(** Along a chain of waits that ends in a waiting thread, every wait is an edge
    of the graph. *)
Lemma waits_edges σ a b :
  covered (threads σ) (monitor (sh σ)) → tc (waits_for σ) a b → waiting_thread σ b →
  tc (λ x y, waiting_thread σ x ∧ waiting_thread σ y ∧
             dep_edge (dependThreads (monitor (sh σ))) x y) a b.
Proof.
  intros Hcov.
  assert (∀ x y, waits_for σ x y → waiting_thread σ x) as Hsrc by (unfold waits_for, waiting_thread; naive_solver).
  assert (∀ x y, waits_for σ x y → waiting_thread σ y →
    dep_edge (dependThreads (monitor (sh σ))) x y) as Hedge.
  { intros x y (th & s & a' & g & q & r & Ht & Hpc & Ha & Hl & Hr & Hd & <-) (uh & s' & a'' & g' & Hu & Hpcu & _).
    destruct (Hcov x th s a' g q r Ht Hpc Ha Hl Hr Hd) as [(uh' & Hu' & Hrel) | ?]; [| done].
    simplify_eq. by rewrite Hpcu in Hrel. }
  induction 1 as [a b Hab | a b c Hab Hbc IH]; intros Hw; [apply tc_once; eauto |].
  assert (waiting_thread σ b) by (inversion Hbc; eauto).
  eapply tc_l; [| by apply IH]. eauto.
Qed.

Lemma waiting_not_victim σ t th : threads σ !! t = Some th → victim th → ¬ waiting_thread σ t.
Proof.
  intros Ht Hv (th' & s & a & g & Ht' & Hpc & _). simplify_eq. unfold victim in Hv. by rewrite Hpc in Hv.
Qed.

Lemma waits_acyclic numRecords E n σ t : reachable numRecords E n σ → ¬ tc (waits_for σ) t t.
Proof.
  intros [_ [Hg Hc]]%reachable_deadlock_inv Hcyc.
  assert (waiting_thread σ t) as Hw
    by (inversion Hcyc; subst; unfold waits_for, waiting_thread in *; naive_solver).
  apply (waits_edges σ t t Hc) in Hcyc; [| done].
  destruct Hg as [Hac | (v & vh & Hv & Hvic & Hac)]; eapply acyclic_subrel; [| exact Hac | exact Hcyc | | exact Hac | exact Hcyc].
  - naive_solver.
  - pose proof (waiting_not_victim σ v vh Hv Hvic) as Hnot.
    intros x y (Hx & Hy & Hxy). split; [by intros -> | split; [by intros -> | done]].
Qed.

(** C2: In every reachable state of the program, whatever the schedule, a
    thread that the predicate of [checkQueue] sends to sleep waits for another
    request ahead of its own, and such waits never form a cycle: the check made
    before a request enters a queue prevents deadlock. *)
Theorem waits_are_acyclic numRecords E n σ t :
  reachable numRecords E n σ →
  ¬ tc (waits_for σ) t t ∧
  ∀ th s g q, threads σ !! t = Some th → at_pc th = Get s APred g →
    lock_request (monitor (sh σ)) !! rec_of th s = Some q →
    checkQueue q (request t th s) = Ret false → ∃ u, waits_for σ t u.
Proof.
  intros Hσ. split; [by eapply waits_acyclic |].
  intros th s g q Ht Hpc Hq (r & Hr & Hc)%checkQueue_false. exists (tid r).
  exists th, s, APred, g, q, r. repeat split; done.
Qed.

(** Two threads on three records.  Thread 0 holds record 0 for reading and
    record 1 for writing; thread 1 has asked to read record 1 and is looking at
    the queue. *)
Definition waiting_schedule : list (nat * list nat) :=
  (0%nat, [0; 1; 2]%nat) :: replicate 17 (0%nat, []) ++ (1%nat, [1; 2; 0]%nat) :: replicate 5 (1%nat, []).

Lemma waits_are_acyclic_witness :
  at_pc <$> threads (state_after 3 1 2 waiting_schedule) = [WriteJ; Get R APred false] ∧
  ¬ tc (waits_for (state_after 3 1 2 waiting_schedule)) 1%nat 1%nat.
Proof.
  split; [by vm_compute |].
  exact (proj1 (waits_are_acyclic 3 1 2 _ 1%nat (state_after_reachable 3 1 2 waiting_schedule))).
Defined.

(** C3: In every reachable state at most one thread is inside the rw lock of a
    record unless all of them are readers: [lockShared], [lockExclusive] and
    the queue together give mutual exclusion of writers. *)
Theorem rwlock_exclusion numRecords E n σ t u th uh l l' :
  reachable numRecords E n σ → t ≠ u →
  threads σ !! t = Some th → threads σ !! u = Some uh →
  l ∈ held t th → l' ∈ held u uh → index l = index l' → type l = R ∧ type l' = R.
Proof.
  intros [Hq _ Hrw _]%reachable_lock_inv Hne Ht Hu Hl Hl' Hi.
  assert (is_Some (records (monitor (sh σ)) !! index l)) as Hx.
  { apply lookup_lt_is_Some. rewrite (qi_recs _ _ _ Hq). by eapply held_in_range; [apply Hq | done..]. }
  split; [by eapply (rw_excl _ _ t u) |]. rewrite Hi in Hx. by eapply (rw_excl _ _ u t).
Qed.

(** Two readers of record 0. *)
Definition reading_schedule : list (nat * list nat) :=
  (0%nat, [0; 1; 2]%nat) :: replicate 8 (0%nat, []) ++ (1%nat, [0; 2; 1]%nat) :: replicate 8 (1%nat, []).

Definition reader (t : nat) (th : thread) : LockInfo := request t th R.

Lemma rwlock_exclusion_witness :
  ∃ th uh, threads (state_after 3 1 2 reading_schedule) = [th; uh] ∧
    held 0 th = [reader 0 th] ∧ held 1 uh = [reader 1 uh] ∧
    type (reader 0 th) = R ∧ type (reader 1 uh) = R.
Proof.
  eexists _, _. split; [vm_compute; reflexivity |]. split; [reflexivity |]. split; [reflexivity |].
  eapply (rwlock_exclusion 3 1 2 (state_after 3 1 2 reading_schedule) 0 1).
  - apply state_after_reachable.
  - done.
  - vm_compute. reflexivity.
  - vm_compute. reflexivity.
  - by left.
  - by left.
  - done.
Defined.

(** The global mutex is held by the thread that is inside one of the
    sections [global_mutex.lock() ... unlock()] and by nobody else; the branch
    of the first request that would leave such a section without unlocking
    ([continue] on a deadlock) is never taken. *)
Theorem global_mutex_discipline numRecords E n σ :
  reachable numRecords E n σ →
  (∀ t, global_mutex (sh σ) = Some t ↔ ∃ th, threads σ !! t = Some th ∧ crit (at_pc th) = true) ∧
  (∀ t th m st, threads σ !! t = Some th → at_pc th = Check R →
     deadlock_check (monitor (sh σ)) (request t th R) = Ret (m, st) → st ≠ deadlock).
Proof.
  intros [Hq Hm _ _]%reachable_lock_inv. split; [apply Hm |].
  intros t th m st Ht Hpc Hdc ->. apply deadlock_check_inv in Hdc; [| by eapply queue_inv_wf].
  destruct Hdc as (q & Hlq & [(Hc & _ & _) | (_ & _ & He)]).
  - by eapply no_first_deadlock.
  - by destruct (grantable _ _).
Qed.

Lemma global_mutex_discipline_witness :
  let σ := state_after 3 1 2 (take 2 waiting_schedule) in
  global_mutex (sh σ) = Some 0%nat ∧ ∃ th, threads σ !! 0%nat = Some th ∧ at_pc th = Check R ∧
    ∀ m st, deadlock_check (monitor (sh σ)) (request 0 th R) = Ret (m, st) → st ≠ deadlock.
Proof.
  split; [by vm_compute |]. eexists. split; [vm_compute; reflexivity |]. split; [reflexivity |].
  intros m st.
  apply (proj2 (global_mutex_discipline 3 1 2 _ (state_after_reachable 3 1 2 (take 2 waiting_schedule))));
    vm_compute; reflexivity.
Defined.
