(* ===== verification/TxSerial.v ===== *)
(** * Serializability in project 2, as [test.py] checks it

    The lines the threads write are those of a serial execution in commit
    order.  The invariant: outside the uncommitted writes of its running
    transactions, the record table is the one obtained by replaying the lines
    written so far, and a thread that has read a record still sees the replayed
    value. *)

From S2P Require Import Prelude Monitor Transaction TxSteps TxLocks.

(** ** test.py *)

(** One round of its main loop; an index out of range is an exception. *)
Definition test_line (records : list Z) (l : line) : option (list Z * bool) :=
  read ← records !! l_i l;
  old_j ← records !! l_j l;
  let records := <[l_j l := old_j + (read + 1)]> records in
  old_k ← records !! l_k l;
  let records := <[l_k l := old_k - read]> records in
  new_i ← records !! l_i l;
  new_j ← records !! l_j l;
  new_k ← records !! l_k l;
  Some (records, bool_decide (l_iv l = new_i) && bool_decide (l_jv l = new_j) && bool_decide (l_kv l = new_k)).

(** The verdicts for the lines in turn, and the records at the end. *)
Fixpoint test_lines (records : list Z) (ls : list line) : option (list Z * list bool) :=
  match ls with
  | [] => Some (records, [])
  | l :: ls =>
      '(records, b) ← test_line records l;
      '(records, bs) ← test_lines records ls;
      Some (records, b :: bs)
  end.

Definition cid_le (a b : line) : Prop := l_cid a ≤ l_cid b.
#[global] Instance cid_le_dec a b : Decision (cid_le a b).
Proof. unfold cid_le. apply _. Defined.

(** [files]: the contents of thread1.txt, thread2.txt, ... *)
Definition test_main (num_of_record : nat) (files : list (list line)) : option (list Z * list bool) :=
  test_lines (replicate (S num_of_record) 100) (merge_sort cid_le (concat files)).

(** The file of a thread. *)
Definition outFile (σ : sys) (t : nat) : list line := filter (λ l, l_tid l = t) (lines (sh σ)).

Definition outFiles (σ : sys) : list (list line) := outFile σ <$> seq 0 (length (threads σ)).

(** ** What has been read and written *)

(** The value read at stage [s] is in use. *)
Definition has (p : pc) (s : LockType) : bool :=
  match s with
  | R =>
      match p with
      | Lock (W1 | W2) | Check (W1 | W2) | Get (W1 | W2) _ _ | Relock (W1 | W2) | Unlock (W1 | W2)
      | Access (W1 | W2) | WriteJ | WriteK | UndoJ | CLock | Rel true _ | RelRw true _ _
      | Commit | Log _ _ | Roll _ => true
      | _ => false
      end
  | W1 =>
      match p with
      | Lock W2 | Check W2 | Get W2 _ _ | Relock W2 | Unlock W2
      | Access W2 | WriteJ | WriteK | UndoJ | CLock | Rel true _ | RelRw true _ _
      | Commit | Log _ _ | Roll _ => true
      | _ => false
      end
  | W2 =>
      match p with
      | WriteK | CLock | Rel true _ | RelRw true _ _ | Commit | Log _ _ | Roll _ => true
      | _ => false
      end
  end.

(** The write of stage [s] is in the table and not committed. *)
Definition dirty (p : pc) (s : LockType) : bool :=
  match s with
  | R => false
  | W1 =>
      match p with
      | Lock W2 | Check W2 | Get W2 _ _ | Relock W2 | Unlock W2 | Access W2 | WriteK | UndoJ
      | CLock | Rel true _ | RelRw true _ _ | Commit | Log _ _ | Roll (R | W1) => true
      | _ => false
      end
  | W2 =>
      match p with
      | CLock | Rel true _ | RelRw true _ _ | Commit | Log _ _ | Roll _ => true
      | _ => false
      end
  end.

Definition new_value (th : thread) (s : LockType) : Z :=
  match s with
  | R => i_value th
  | W1 => j_value th + i_value th + 1
  | W2 => k_value th - i_value th
  end.

Lemma dirty_has p s : dirty p s = true → has p s = true.
Proof. destruct s, p as [| [] | [] | [] | [] | [] | [] | | | | | [] | [] | | | [] | | |]; done. Qed.

Lemma has_owned t th s : having_ok t th → has (at_pc th) s = true → request t th s ∈ owned th.
Proof.
  unfold having_ok, owned. intros Hh Hs.
  destruct (at_pc th) as [| [] | [] | [] a g | [] | [] | [] | | | | | [] ls | [] l ls | | | | | |], s;
    try done; try (destruct a; try done); first [rewrite Hh | destruct Hh as [-> _]];
    cbn; rewrite !elem_of_cons; tauto.
Qed.

Definition val (m : Monitor) (x : nat) : option Z := value <$> records m !! x.

Lemma val_upd_rw m y r l x : records m !! y = Some r → val (upd_rw m y r l) x = val m x.
Proof.
  intros Hr. unfold val, upd_rw. cbn. destruct (decide (x = y)) as [-> | Hne].
  - by rewrite Hr, list_lookup_insert_eq by (by eapply lookup_lt_Some).
  - by rewrite list_lookup_insert_ne.
Qed.

Lemma val_upd_val m y r v x :
  records m !! y = Some r → val (upd_val m y r v) x = if decide (x = y) then Some v else val m x.
Proof.
  intros Hr. unfold val, upd_val. cbn. destruct (decide (x = y)) as [-> | Hne].
  - by rewrite list_lookup_insert_eq by (by eapply lookup_lt_Some).
  - by rewrite list_lookup_insert_ne.
Qed.

(** The thread moves and keeps the locals of stage [s]. *)
Definition keeps (th th' : thread) (s : LockType) : Prop :=
  rec_of th' s = rec_of th s ∧ value_of th' s = value_of th s ∧ new_value th' s = new_value th s.

(** What a rule does to the data: nothing, read a record, or store [v] into the
    record of stage [y], as an uncommitted write or to take one back. *)
Inductive data_effect (t : nat) (th th' : thread) (m m' : Monitor) : Prop :=
| de_same :
    (∀ x, val m' x = val m x) →
    (∀ s, has (at_pc th') s = true → has (at_pc th) s = true ∧ keeps th th' s) →
    (∀ s, dirty (at_pc th') s = dirty (at_pc th) s) → data_effect t th th' m m'
| de_read y v :
    val m (rec_of th y) = Some v → request t th y ∈ owned th → dirty (at_pc th) y = false →
    m' = m →
    (∀ s, has (at_pc th') s = true →
       (s ≠ y ∧ has (at_pc th) s = true ∧ value_of th' s = value_of th s) ∨
       (s = y ∧ value_of th' s = wrap32 v)) →
    (∀ s, rec_of th' s = rec_of th s) →
    (∀ s, dirty (at_pc th') s = dirty (at_pc th) s ∧
          (dirty (at_pc th) s = true → new_value th' s = new_value th s)) →
    data_effect t th th' m m'
| de_store y v :
    request t th y ∈ owned th →
    (∀ x, val m' x = if decide (x = rec_of th y) then Some v else val m x) →
    (∀ s, has (at_pc th') s = true → has (at_pc th) s = true) → (∀ s, keeps th th' s) →
    (v = new_value th y ∧ in_int v ∧ y ≠ R ∧
       ∀ s, dirty (at_pc th') s = true ↔ dirty (at_pc th) s = true ∨ s = y) ∨
    (v = value_of th y ∧ has (at_pc th) y = true ∧
       ∀ s, dirty (at_pc th') s = true ↔ dirty (at_pc th) s = true ∧ s ≠ y) →
    data_effect t th th' m m'.

Definition at_log (p : pc) : Prop := match p with Log _ vs => length vs = 2%nat | _ => False end.

Lemma rule_data_effect numRecords E t th sh th' sh' :
  rule numRecords E t th sh th' sh' → having_ok t th → ¬ at_log (at_pc th) →
  data_effect t th th' (monitor sh) (monitor sh').
Proof.
  intros Hr Hh Hl. pose proof (has_owned t th) as Hown.
  unfold at_log in Hl. destruct Hr; at_point;
    try (apply de_same;
         [intros x; cbn; first [done | by apply val_upd_rw]
         | intros s0; cbn; try (destruct s0, s; done); try (destruct s0, c; done);
           try (destruct s0, s, g; done); at_point; by destruct s0
         | intros s0; cbn; try (destruct s0, s; done); try (destruct s0, c; done);
           try (destruct s0, s, g; done); at_point; by destruct s0]).
  - apply de_same; [done | |]; intros s0; at_point; by destruct s, s0.
  - apply de_same; [done | |]; intros s0; at_point; by destruct g, s, s0.
  - apply (de_read _ _ _ _ _ s (value r)); try done.
    + unfold val. by rewrite H0.
    + unfold owned, having_ok in *. at_point. rewrite Hh. unfold through. apply elem_of_app. right. by left.
    + at_point. by destruct s.
    + intros s0. at_point. destruct s, s0; cbn; auto.
    + intros s0. by destruct s, s0.
    + intros s0. at_point. by destruct s, s0.
  - apply (de_store _ _ _ _ _ W1 (j_value th + i_value th + 1)); try done.
    + by apply Hown.
    + intros x. by apply val_upd_val.
    + intros s0. at_point. by destruct s0.
    + left. split; [done |]. split; [done |]. split; [done |]. intros s0. at_point. destruct s0; naive_solver.
  - apply (de_store _ _ _ _ _ W2 (k_value th - i_value th)); try done.
    + by apply Hown.
    + intros x. by apply val_upd_val.
    + intros s0. at_point. by destruct s0.
    + left. split; [done |]. split; [done |]. split; [done |]. intros s0. at_point. destruct s0; naive_solver.
  - apply (de_store _ _ _ _ _ W1 (j_value th)); try done.
    + by apply Hown.
    + intros x. by apply val_upd_val.
    + intros s0. at_point. by destruct s0.
    + right. at_point. split; [done |]. split; [done |]. intros s0. destruct s0; naive_solver.
  - apply de_same; [done | |]; intros s0; at_point; by destruct c, s0.
  - apply (de_store _ _ _ _ _ s (value_of th s)); try done.
    + apply Hown; [done |]. by destruct s.
    + intros x. by apply val_upd_val.
    + intros s0. at_point. by destruct s, s0.
    + right. at_point. split; [done |]. split; [by destruct s |]. intros s0. destruct s, s0; naive_solver.
Qed.

(** ** The invariant on the data

    [C] is the table obtained by replaying the lines. *)

Record data_ok (C : list Z) (ths : list thread) (m : Monitor) : Prop := {
  d_reads t th s : ths !! t = Some th → has (at_pc th) s = true →
    C !! rec_of th s = Some (value_of th s) ∧ in_int (value_of th s);
  d_int x v : val m x = Some v → in_int v;
  d_dirty x v t th s : val m x = Some v → ths !! t = Some th →
    dirty (at_pc th) s = true → rec_of th s = x → v = new_value th s;
  d_clean x v : val m x = Some v →
    (∀ t th s, ths !! t = Some th → dirty (at_pc th) s = true → rec_of th s ≠ x) →
    C !! x = Some v
}.

(** Stages of one thread are on different records. *)
Lemma rec_of_inj numRecords t th s s' :
  local_ok numRecords t th → ¬ idle (at_pc th) → rec_of th s = rec_of th s' → s = s'.
Proof.
  intros [[? | (Hnd & _ & _)] _] Hn; [done |].
  apply NoDup_cons in Hnd as [H1 Hnd]. apply NoDup_cons in Hnd as [H2 _].
  rewrite !elem_of_cons, elem_of_nil in H1. rewrite !elem_of_cons, elem_of_nil in H2.
  destruct s, s'; cbn; try done; intros He; exfalso; rewrite He in *; tauto.
Qed.

Lemma has_not_idle p s : has p s = true → ¬ idle p.
Proof. intros H [-> | ->]; by destruct s. Qed.

Section data_step.
Context (numRecords : nat) (σ : sys) (t : nat) (th th' : thread) (C : list Z).
Context (Hinv : lock_inv numRecords σ) (Ht : threads σ !! t = Some th).
Context (HC : data_ok C (threads σ) (monitor (sh σ))).

Lemma thread_having u uh : threads σ !! u = Some uh → having_ok u uh.
Proof. intros Hu. by apply (lo_having numRecords), (qi_local _ _ _ (li_queue _ _ Hinv)). Qed.

Lemma not_both u uh s y :
  u ≠ t → threads σ !! u = Some uh → has (at_pc uh) s = true → request t th y ∈ owned th →
  s ≠ R ∨ y ≠ R → rec_of uh s ≠ rec_of th y.
Proof.
  intros Hne Hu Hs Hy HR He. pose proof (has_owned u uh s (thread_having u uh Hu) Hs) as Hs'.
  pose proof (li_own _ _ Hinv u t uh th _ _ Hne Hu Ht Hs' Hy He) as H1.
  pose proof (li_own _ _ Hinv t u th uh _ _ (not_eq_sym Hne) Ht Hu Hy Hs' (eq_sym He)) as H2.
  cbn in H1, H2. tauto.
Qed.

Lemma dirty_not_R p s : dirty p s = true → s ≠ R.
Proof. by destruct s. Qed.

Lemma keeps_dirty m' x v u uh s :
  data_effect t th th' (monitor (sh σ)) m' →
  <[t := th']> (threads σ) !! u = Some uh → val m' x = Some v → dirty (at_pc uh) s = true →
  rec_of uh s = x → v = new_value uh s.
Proof.
  intros Heff Hu Hv Hs Hx. pose proof (d_dirty _ _ _ HC) as Hd.
  apply list_lookup_insert_Some in Hu as [(<- & <- & _) | [Hne Hu]].
  - destruct Heff as [Hval Hhas Hdirty | y w Hw Hy Hny -> Hhas Hrec Hdirty | y w Hy Hval Hhas Hk Hcase].
    + rewrite Hval in Hv. destruct (Hhas s (dirty_has _ _ Hs)) as (_ & Hr & _ & Hn).
      rewrite Hdirty in Hs. rewrite Hn. rewrite Hr in Hx. by eapply Hd.
    + destruct (Hdirty s) as [He Hn]. rewrite He in Hs. rewrite Hn by done.
      rewrite Hrec in Hx. by eapply Hd.
    + destruct (Hk s) as (Hr & _ & Hn). rewrite Hr in Hx. rewrite Hn. rewrite Hval in Hv.
      destruct (decide (x = rec_of th y)) as [Hxy | Hxy].
      * injection Hv as <-. assert (¬ idle (at_pc th)) as Hni.
        { intros Hi. unfold owned in Hy. by destruct Hi as [Hi | Hi]; rewrite Hi in Hy; apply not_elem_of_nil in Hy. }
        assert (s = y) as ->.
        { eapply rec_of_inj; [by apply (qi_local _ _ _ (li_queue _ _ Hinv)) | done | congruence]. }
        destruct Hcase as [(-> & _) | (_ & _ & Hi)]; [done |]. apply Hi in Hs. tauto.
      * destruct Hcase as [(_ & _ & _ & Hi) | (_ & _ & Hi)]; apply Hi in Hs.
        -- destruct Hs as [Hs | ->]; [by eapply Hd | done].
        -- destruct Hs as [Hs _]. by eapply Hd.
  - assert (val (monitor (sh σ)) x = Some v) as Hv0; [| by eapply Hd].
    destruct Heff as [Hval _ _ | y w _ _ _ -> _ _ _ | y w Hy Hval _ _ _]; [by rewrite <- Hval | done |].
    rewrite Hval in Hv. destruct (decide (x = rec_of th y)) as [He | ?]; [exfalso | done].
    eapply (not_both u uh s y); [done | done | by apply dirty_has | done | | congruence].
    left. by eapply dirty_not_R.
Qed.

Lemma keeps_clean m' x v :
  data_effect t th th' (monitor (sh σ)) m' → val m' x = Some v →
  (∀ u uh s, <[t := th']> (threads σ) !! u = Some uh → dirty (at_pc uh) s = true → rec_of uh s ≠ x) →
  C !! x = Some v.
Proof.
  intros Heff Hv Hno. pose proof (lookup_lt_Some _ _ _ Ht) as Hlt.
  assert (∀ s, dirty (at_pc th') s = true → rec_of th' s ≠ x) as Hno_t.
  { intros s. apply (Hno t th'). by apply list_lookup_insert_eq. }
  assert ((∀ s, dirty (at_pc th) s = true → rec_of th s ≠ x) →
    ∀ u uh s, threads σ !! u = Some uh → dirty (at_pc uh) s = true → rec_of uh s ≠ x) as Hothers.
  { intros Hth u uh s Hu. destruct (decide (u = t)) as [-> | Hne]; [simplify_eq; apply Hth |].
    apply (Hno u uh). by rewrite list_lookup_insert_ne. }
  destruct Heff as [Hval Hhas Hdirty | y w Hw Hy Hny -> Hhas Hrec Hdirty | y w Hy Hval Hhas Hk Hcase].
  - rewrite Hval in Hv. apply (d_clean _ _ _ HC); [done |]. apply Hothers. intros s Hs.
    rewrite <- Hdirty in Hs. destruct (Hhas s (dirty_has _ _ Hs)) as (_ & <- & _). auto.
  - apply (d_clean _ _ _ HC); [done |]. apply Hothers. intros s Hs.
    rewrite <- (Hrec s). apply Hno_t. by rewrite (proj1 (Hdirty s)).
  - rewrite Hval in Hv. destruct (decide (x = rec_of th y)) as [-> | Hne].
    + destruct Hcase as [(_ & _ & _ & Hi) | (-> & Hh & _)].
      * exfalso. apply (Hno_t y); [apply Hi; by right | apply Hk].
      * injection Hv as <-. by apply (d_reads _ _ _ HC t).
    + apply (d_clean _ _ _ HC); [done |]. apply Hothers. intros s Hs Hx.
      assert (s ≠ y) by (by intros ->).
      apply (Hno_t s); [| by rewrite (proj1 (Hk s))].
      destruct Hcase as [(_ & _ & _ & Hi) | (_ & _ & Hi)]; apply Hi; auto.
Qed.

Lemma owned_not_idle y : request t th y ∈ owned th → ¬ idle (at_pc th).
Proof.
  intros Hy Hi. unfold owned in Hy.
  by destruct Hi as [Hi | Hi]; rewrite Hi in Hy; apply not_elem_of_nil in Hy.
Qed.

(** A record of which the thread owns the lock, and to which it has not
    written, has its committed value. *)
Lemma owned_clean y v :
  val (monitor (sh σ)) (rec_of th y) = Some v → request t th y ∈ owned th →
  dirty (at_pc th) y = false → C !! rec_of th y = Some v.
Proof.
  intros Hv Hy Hny. apply (d_clean _ _ _ HC); [done |]. intros u uh s Hu Hs He.
  destruct (decide (u = t)) as [-> | Hne].
  - simplify_eq. assert (s = y) as ->; [| congruence].
    eapply rec_of_inj; [by apply (qi_local _ _ _ (li_queue _ _ Hinv)) | by eapply owned_not_idle | done].
  - apply (not_both u uh s y); auto using dirty_has. left. by eapply dirty_not_R.
Qed.

Lemma data_ok_step m' :
  data_effect t th th' (monitor (sh σ)) m' → data_ok C (<[t := th']> (threads σ)) m'.
Proof.
  intros Heff. split.
  - intros u uh s Hu Hs. apply list_lookup_insert_Some in Hu as [(<- & <- & _) | [_ Hu]];
      [| by apply (d_reads _ _ _ HC u)].
    pose proof (λ s H, d_reads _ _ _ HC t th s Ht H) as Hrd.
    destruct Heff as [Hval Hhas Hdirty | y w Hw Hy Hny -> Hhas Hrec Hdirty | y w Hy Hval Hhas Hk Hcase].
    + destruct (Hhas s Hs) as (Hold & -> & -> & _). by apply Hrd.
    + rewrite Hrec. destruct (Hhas s Hs) as [(_ & Hold & ->) | (-> & ->)]; [by apply Hrd |].
      pose proof (d_int _ _ _ HC _ _ Hw) as Hi. rewrite wrap32_id by done.
      split; [by apply owned_clean | done].
    + destruct (Hk s) as (-> & -> & _). by apply Hrd, Hhas.
  - intros x v Hv. destruct Heff as [Hval _ _ | y w _ _ _ -> _ _ _ | y w Hy Hval Hhas Hk Hcase];
      [| by apply (d_int _ _ _ HC x) |]; rewrite Hval in Hv; [by apply (d_int _ _ _ HC x) |].
    destruct (decide (x = rec_of th y)); [injection Hv as <- | by apply (d_int _ _ _ HC x)].
    destruct Hcase as [(_ & ? & _) | (-> & Hh & _)]; [done |]. by apply (d_reads _ _ _ HC t).
  - intros x v u uh s Hv Hu Hs Hx. by eapply keeps_dirty.
  - intros x v Hv Hno. by eapply keeps_clean.
Qed.

(** Writing the line: the uncommitted writes become committed. *)
Definition commit_table : list Z :=
  <[rk th := new_value th W2]> (<[rj th := new_value th W1]> C).

Lemma data_ok_commit cid vs :
  at_pc th = Log cid vs → (numRecords ≤ length C)%nat →
  data_ok commit_table (<[t := goto UnlockHead th]> (threads σ)) (monitor (sh σ)).
Proof.
  intros Hpc Hlen.
  assert (local_ok numRecords t th) as Hlo by (by apply (qi_local _ _ _ (li_queue _ _ Hinv))).
  assert (¬ idle (at_pc th)) as Hni by (rewrite Hpc; by intros [|]).
  assert (∀ s, has (at_pc th) s = true) as Hall by (intros s; rewrite Hpc; by destruct s).
  assert (∀ s, request t th s ∈ owned th) as Hown
    by (intros s; apply has_owned; [by apply thread_having | apply Hall]).
  assert (∀ s, (rec_of th s < length C)%nat) as Hlt.
  { intros s. pose proof (rec_in_range numRecords t th s Hlo Hni). lia. }
  split.
  - intros u uh s Hu Hs. apply list_lookup_insert_Some in Hu as [(<- & <- & _) | [Hne Hu]];
      [by destruct s |].
    unfold commit_table.
    rewrite !list_lookup_insert_ne; [by apply (d_reads _ _ _ HC u) | |];
      apply not_eq_sym; [apply (not_both u uh s W1) | apply (not_both u uh s W2)]; auto.
  - apply (d_int _ _ _ HC).
  - intros x v u uh s Hv Hu Hs Hx. apply list_lookup_insert_Some in Hu as [(<- & <- & _) | [Hne Hu]];
      [by destruct s | by eapply (d_dirty _ _ _ HC)].
  - intros x v Hv Hno. unfold commit_table.
    destruct (decide (x = rk th)) as [-> | Hk].
    { rewrite list_lookup_insert_eq by (rewrite length_insert; apply (Hlt W2)). f_equal. symmetry.
      eapply (d_dirty _ _ _ HC _ v t th W2); [done | done | by rewrite Hpc | done]. }
    rewrite list_lookup_insert_ne by done. destruct (decide (x = rj th)) as [-> | Hj].
    { rewrite list_lookup_insert_eq by apply (Hlt W1). f_equal. symmetry.
      eapply (d_dirty _ _ _ HC _ v t th W1); [done | done | by rewrite Hpc | done]. }
    rewrite list_lookup_insert_ne by done. apply (d_clean _ _ _ HC); [done |].
    intros u uh s Hu Hs. destruct (decide (u = t)) as [-> | Hne].
    + simplify_eq. by destruct s; cbn; [rewrite Hpc in Hs | |]; auto.
    + apply (Hno u uh); [by rewrite list_lookup_insert_ne | done].
Qed.
End data_step.

(** ** The lines and the execution order *)

Definition is_log (_ : nat) (th : thread) : nat := match at_pc th with Log _ _ => 1 | _ => 0 end.
Definition is_late (_ : nat) (th : thread) : nat :=
  match at_pc th with Roll _ | UnlockExit | Exit => 1 | _ => 0 end.

(** The values of the line being written. *)
Definition line_values (th : thread) : list Z := [new_value th R; new_value th W1; new_value th W2].

Record order_ok (E : Z) (ths : list thread) (geo : Z) (ls : list line) : Prop := {
  o_log t th cid vs : ths !! t = Some th → at_pc th = Log cid vs →
    cid = Z.of_nat (length ls) + 1 ∧ (length vs ≤ 2)%nat ∧ vs = take (length vs) (line_values th);
  o_cid k l : ls !! k = Some l → l_cid l = Z.of_nat k + 1;
  o_tid l : l ∈ ls → (l_tid l < length ths)%nat;
  o_count : Z.of_nat (length ls + total is_log ths) = Z.min geo (Z.max 0 E);
  o_late : geo ≤ Z.max 0 E + Z.of_nat (total is_late ths);
  o_busy t th : ths !! t = Some th → ¬ idle (at_pc th) → 0 < E;
  o_pos : 0 ≤ geo;
  o_exit t th : ths !! t = Some th → is_late t th = 1%nat → E ≤ geo
}.

Lemma rule_quiet numRecords E t th sh th' sh' :
  rule numRecords E t th sh th' sh' → at_pc th ≠ Commit → is_log t th = 0%nat →
  global_execution_order sh' = global_execution_order sh ∧ lines sh' = lines sh ∧
  is_log t th' = 0%nat ∧ (is_late t th ≤ is_late t th')%nat ∧
  (¬ idle (at_pc th') → ¬ idle (at_pc th) ∨ global_execution_order sh < E) ∧
  (is_late t th' = 1%nat → is_late t th = 1%nat ∨ E ≤ global_execution_order sh).
Proof.
  unfold is_log, is_late, idle.
  destruct 1; at_point; intros Hc Hl; try done;
    (split; [done |]; split; [done |]; split;
     [cbn; first [done | by destruct s | by destruct g | by destruct c] | split;
      [cbn; first [lia | by destruct s; cbn; lia] | split]]);
    try (by right); try (intros _; left; intros [|]; congruence);
    try (intros Hn; exfalso; apply Hn; by auto); at_point; cbn;
    first [by auto | by destruct s; auto | by destruct g; auto | by destruct c; auto].
Qed.

Section order_step.
Context (numRecords : nat) (E : Z) (σ : sys) (t : nat) (th th' : thread) (sh' : shared).
Context (Hinv : lock_inv numRecords σ) (Ht : threads σ !! t = Some th).
Context (Hr : rule numRecords E t th (sh σ) th' sh').

Notation geo := (global_execution_order (sh σ)).
Notation ls := (lines (sh σ)).

Context (HO : order_ok E (threads σ) geo ls).

Lemma order_quiet :
  at_pc th ≠ Commit → is_log t th = 0%nat →
  order_ok E (<[t := th']> (threads σ)) (global_execution_order sh') (lines sh').
Proof.
  intros Hc Hl. destruct (rule_quiet _ _ _ _ _ _ _ Hr Hc Hl) as (-> & -> & Hl' & Hlate & Hidle & Hexit).
  pose proof (total_insert is_log (threads σ) t th th' Ht) as TL.
  pose proof (total_insert is_late (threads σ) t th th' Ht) as TT.
  destruct HO as [O1 O2 O3 O4 O5 O6 O7 O8]. split; try done.
  - intros u uh cid vs [(<- & <- & _) | [_ Hu]]%list_lookup_insert_Some Hpc; [| by eapply O1].
    unfold is_log in Hl'. by rewrite Hpc in Hl'.
  - rewrite length_insert. done.
  - lia.
  - lia.
  - intros u uh [(<- & <- & _) | [_ Hu]]%list_lookup_insert_Some Hn; [| by eapply O6].
    destruct (Hidle Hn); [by eapply O6 | lia].
  - intros u uh [(<- & <- & _) | [_ Hu]]%list_lookup_insert_Some Hn; [| by eapply O8].
    destruct (Hexit Hn); [by eapply O8 | lia].
Qed.

(** Nobody else writes a line while a thread is at its commit. *)
Lemma alone f : (∀ u uh, f u uh ≠ 0%nat → crit (at_pc uh) = true) → crit (at_pc th) = true →
  total f (threads σ) = f t th.
Proof.
  intros Hf Hcr.
  pose proof (total_insert f (threads σ) t th start_thread Ht) as TI.
  assert (f t start_thread = 0%nat) as H0.
  { destruct (f t start_thread) eqn:H; [done |]. by specialize (Hf t start_thread ltac:(lia)). }
  assert (total f (<[t := start_thread]> (threads σ)) = 0%nat); [| lia].
  assert (∀ u uh, <[t := start_thread]> (threads σ) !! u = Some uh → f u uh = 0%nat) as Hz.
  { intros u uh [(<- & <- & _) | [Hne Hu]]%list_lookup_insert_Some; [done |].
    destruct (f u uh) eqn:Hfu; [done | exfalso]. apply Hne.
    eapply (mutex_excl _ _ t u th uh (li_mutex _ _ Hinv)); [done.. |]. apply (Hf u). lia. }
  pose proof (total_mono f (λ _ _, 0%nat) _ (λ u uh H, ltac:(by rewrite (Hz u uh H)))) as Hle.
  rewrite total_zero in Hle. lia.
Qed.
End order_step.

Lemma total_le_length {A} (f : nat → A → nat) ths : (∀ t th, f t th ≤ 1)%nat → (total f ths ≤ length ths)%nat.
Proof. intros H. pose proof (total_bound f ths 1 (λ t th _, H t th)). lia. Qed.

Lemma total_lt_length {A} (f : nat → A → nat) ths t th :
  (∀ t th, f t th ≤ 1)%nat → (∃ th', f t th' = 1%nat) → ths !! t = Some th → f t th = 0%nat →
  (total f ths < length ths)%nat.
Proof.
  intros H1 [th' H2] Ht H0. pose proof (total_insert f ths t th th' Ht) as TI.
  pose proof (total_le_length f (<[t := th']> ths) H1) as HL. rewrite length_insert in HL. lia.
Qed.

Section commit_step.
Context (numRecords : nat) (E : Z) (σ : sys) (t : nat) (th : thread).
Context (Hinv : lock_inv numRecords σ) (Ht : threads σ !! t = Some th).
Context (Hmax : E + Z.of_nat (length (threads σ)) ≤ int_max).

Notation geo := (global_execution_order (sh σ)).
Notation ls := (lines (sh σ)).

Context (HO : order_ok E (threads σ) geo ls).

Lemma is_log_crit u uh : is_log u uh ≠ 0%nat → crit (at_pc uh) = true.
Proof. unfold is_log. by destruct (at_pc uh). Qed.

Lemma geo_bound : at_pc th = Commit → wrap32 (geo + 1) = geo + 1.
Proof.
  intros Hpc. apply wrap32_id.
  assert (total is_late (threads σ) < length (threads σ))%nat.
  { apply (total_lt_length is_late _ t th); [| by exists (goto Exit th) | done |].
    - intros u uh. unfold is_late. destruct (at_pc uh); lia.
    - unfold is_late. by rewrite Hpc. }
  pose proof (o_late _ _ _ _ HO). pose proof (o_pos _ _ _ _ HO).
  assert (0 < E) by (eapply (o_busy _ _ _ _ HO); [done |]; rewrite Hpc; by intros [|]).
  unfold in_int, int_min. lia.
Qed.

Lemma order_commit :
  at_pc th = Commit →
  (geo + 1 ≤ E → order_ok E (<[t := goto (Log (geo + 1) []) th]> (threads σ)) (geo + 1) ls) ∧
  (E < geo + 1 → order_ok E (<[t := goto (Roll R) th]> (threads σ)) (geo + 1) ls).
Proof.
  intros Hpc.
  assert (total is_log (threads σ) = 0%nat) as Hnone.
  { rewrite (alone numRecords σ t th Hinv Ht is_log is_log_crit) by (by rewrite Hpc).
    unfold is_log. by rewrite Hpc. }
  assert (0 < E) by (eapply (o_busy _ _ _ _ HO); [done |]; rewrite Hpc; by intros [|]).
  destruct HO as [O1 O2 O3 O4 O5 O6 O7 O8].
  assert (is_log t th = 0%nat ∧ is_late t th = 0%nat) as [HL HT]
    by (unfold is_log, is_late; by rewrite Hpc).
  split; intros HE; split; try done; try lia; try (by rewrite length_insert).
  - intros u uh cid vs [(<- & <- & _) | [_ Hu]]%list_lookup_insert_Some Hl; [| by eapply O1].
    injection Hl as <- <-. split; [| split; [simpl; lia | done]]. lia.
  - pose proof (total_insert is_log (threads σ) t th (goto (Log (geo + 1) []) th) Ht) as TL.
    change (is_log t (goto (Log (geo + 1) []) th)) with 1%nat in TL. lia.
  - intros u uh [(<- & <- & _) | [_ Hu]]%list_lookup_insert_Some Hn; [done |].
    specialize (O8 _ _ Hu Hn). lia.
  - intros u uh cid vs [(<- & <- & _) | [_ Hu]]%list_lookup_insert_Some Hl; [done | by eapply O1].
  - pose proof (total_insert is_log (threads σ) t th (goto (Roll R) th) Ht) as TL.
    change (is_log t (goto (Roll R) th)) with 0%nat in TL. lia.
  - pose proof (total_insert is_late (threads σ) t th (goto (Roll R) th) Ht) as TT.
    change (is_late t (goto (Roll R) th)) with 1%nat in TT. lia.
Qed.

Context (C : list Z) (HC : data_ok C (threads σ) (monitor (sh σ))).

(** The values read for the line. *)
Lemma log_value cid vs s r :
  at_pc th = Log cid vs → records (monitor (sh σ)) !! rec_of th s = Some r →
  wrap32 (value r) = new_value th s.
Proof.
  intros Hpc Hrec.
  assert (val (monitor (sh σ)) (rec_of th s) = Some (value r)) as Hv by (unfold val; by rewrite Hrec).
  rewrite wrap32_id by (by apply (d_int _ _ _ HC _ _ Hv)).
  assert (has (at_pc th) s = true) as Hs by (rewrite Hpc; by destruct s).
  destruct s.
  - assert (C !! ri th = Some (value r)) as H1.
    { apply (owned_clean numRecords σ t th C Hinv Ht HC R); [done | | by rewrite Hpc].
      apply has_owned; [| done]. by eapply thread_having. }
    destruct (d_reads _ _ _ HC t th R Ht Hs) as [H2 _]. cbn in *. congruence.
  - eapply (d_dirty _ _ _ HC _ _ t th W1 Hv Ht); [by rewrite Hpc | done].
  - eapply (d_dirty _ _ _ HC _ _ t th W2 Hv Ht); [by rewrite Hpc | done].
Qed.

Lemma log_values cid vs r :
  at_pc th = Log cid vs → records (monitor (sh σ)) !! rec_of th (log_stage vs) = Some r →
  vs ++ [wrap32 (value r)] = take (S (length vs)) (line_values th).
Proof.
  intros Hpc Hrec. rewrite (log_value _ _ _ _ Hpc Hrec).
  destruct (o_log _ _ _ _ HO _ _ _ _ Ht Hpc) as (_ & Hlen & Hvs).
  destruct vs as [| a [| b [| c vs]]]; cbn in Hvs, Hlen |- *; [done | | | lia]; by simplify_eq.
Qed.

Lemma order_log cid vs r :
  at_pc th = Log cid vs → length vs ≠ 2%nat →
  records (monitor (sh σ)) !! rec_of th (log_stage vs) = Some r →
  order_ok E (<[t := goto (Log cid (vs ++ [wrap32 (value r)])) th]> (threads σ)) geo ls.
Proof.
  intros Hpc Hne Hrec. pose proof (log_values _ _ _ Hpc Hrec) as Hvs.
  set (th' := goto (Log cid (vs ++ [wrap32 (value r)])) th).
  pose proof (total_insert is_log (threads σ) t th th' Ht) as TL.
  pose proof (total_insert is_late (threads σ) t th th' Ht) as TT.
  assert (is_log t th = 1%nat ∧ is_late t th = 0%nat) as [HL HT]
    by (unfold is_log, is_late; by rewrite Hpc).
  change (is_log t th') with 1%nat in TL. change (is_late t th') with 0%nat in TT.
  destruct HO as [O1 O2 O3 O4 O5 O6 O7 O8]. destruct (O1 _ _ _ _ Ht Hpc) as (Hcid & Hlen & _).
  split; try done; try lia; try (by rewrite length_insert).
  - intros u uh c ws [(<- & <- & _) | [_ Hu]]%list_lookup_insert_Some Hl; [| by eapply O1].
    injection Hl as <- <-. split; [done |]. rewrite length_app. simpl. split; [lia |].
    rewrite Hvs. f_equal. lia.
  - intros u uh [(<- & <- & _) | [_ Hu]]%list_lookup_insert_Some Hn; [| by eapply O6].
    eapply O6; [done |]. rewrite Hpc. by intros [|].
  - intros u uh [(<- & <- & _) | [_ Hu]]%list_lookup_insert_Some Hn; [done | by eapply O8].
Qed.

Lemma order_logged cid vs :
  at_pc th = Log cid vs →
  order_ok E (<[t := goto UnlockHead th]> (threads σ)) geo
    (ls ++ [new_line t th cid (line_values th)]).
Proof.
  intros Hpc.
  pose proof (total_insert is_log (threads σ) t th (goto UnlockHead th) Ht) as TL.
  pose proof (total_insert is_late (threads σ) t th (goto UnlockHead th) Ht) as TT.
  assert (is_log t th = 1%nat ∧ is_late t th = 0%nat) as [HL HT]
    by (unfold is_log, is_late; by rewrite Hpc).
  change (is_log t (goto _ th)) with 0%nat in TL. change (is_late t (goto _ th)) with 0%nat in TT.
  assert (∀ u uh, <[t := goto UnlockHead th]> (threads σ) !! u = Some uh → is_log u uh = 0%nat) as Hno.
  { intros u uh [(<- & <- & _) | [Hne Hu]]%list_lookup_insert_Some; [done |].
    destruct (is_log u uh) eqn:Hi; [done | exfalso]. apply Hne.
    apply (mutex_excl _ _ t u th uh (li_mutex _ _ Hinv)); try done; [by rewrite Hpc |].
    apply (is_log_crit u). lia. }
  destruct HO as [O1 O2 O3 O4 O5 O6 O7 O8]. destruct (O1 _ _ _ _ Ht Hpc) as (Hcid & _).
  split; try done; try lia.
  - intros u uh c ws Hu Hl. specialize (Hno u uh Hu). unfold is_log in Hno. by rewrite Hl in Hno.
  - intros k l [Hk | [Hge Hk]]%lookup_app_Some; [by eapply O2 |].
    apply list_lookup_singleton_Some in Hk as [Hk <-]. cbn. lia.
  - rewrite length_insert. intros l [Hl | ->%list_elem_of_singleton]%elem_of_app; [by apply O3 |].
    by eapply lookup_lt_Some.
  - rewrite length_app. simpl. lia.
  - intros u uh [(<- & <- & _) | [_ Hu]]%list_lookup_insert_Some Hn; [done | by eapply O8].
Qed.

(** [test.py] accepts the line. *)
Lemma test_line_commit cid vs :
  at_pc th = Log cid vs → (numRecords ≤ length C)%nat →
  test_line C (new_line t th cid (line_values th)) = Some (commit_table th C, true).
Proof.
  intros Hpc Hlen.
  assert (local_ok numRecords t th) as Hlo by (by apply (qi_local _ _ _ (li_queue _ _ Hinv))).
  assert (¬ idle (at_pc th)) as Hni by (rewrite Hpc; by intros [|]).
  assert (∀ s, C !! rec_of th s = Some (value_of th s)) as Hrd.
  { intros s. apply (d_reads _ _ _ HC t th s Ht). rewrite Hpc. by destruct s. }
  assert (∀ s, (rec_of th s < length C)%nat) as Hlt.
  { intros s. pose proof (rec_in_range numRecords t th s Hlo Hni). lia. }
  assert (∀ s s', s ≠ s' → rec_of th s ≠ rec_of th s') as Hne
    by (intros s s' H He; by apply H, (rec_of_inj numRecords t th)).
  pose proof (Hne W1 W2 ltac:(done)) as Hjk. pose proof (Hne R W1 ltac:(done)) as Hij.
  pose proof (Hne R W2 ltac:(done)) as Hik. cbn in Hjk, Hij, Hik.
  unfold test_line, new_line, commit_table, line_values. cbn [l_i l_j l_k l_iv l_jv l_kv lookup_total list_lookup_total].
  rewrite (Hrd R : C !! ri th = _), (Hrd W1 : C !! rj th = _). cbn [mbind option_bind].
  rewrite list_lookup_insert_ne by done. rewrite (Hrd W2 : C !! rk th = _). cbn [mbind option_bind].
  rewrite (list_lookup_insert_ne _ (rk th) (ri th)) by done.
  rewrite (list_lookup_insert_ne _ (rj th) (ri th)) by done. rewrite (Hrd R : C !! ri th = _).
  cbn [mbind option_bind].
  rewrite (list_lookup_insert_ne _ (rk th) (rj th)) by done.
  rewrite (list_lookup_insert_eq C (rj th)) by apply (Hlt W1). cbn [mbind option_bind].
  rewrite list_lookup_insert_eq by (rewrite length_insert; apply (Hlt W2)). cbn [mbind option_bind].
  cbn [value_of new_value]. replace (j_value th + (i_value th + 1)) with (j_value th + i_value th + 1) by lia.
  by rewrite !bool_decide_true.
Qed.
End commit_step.

Lemma test_lines_app recs ls l recs' recs'' bs b :
  test_lines recs ls = Some (recs', bs) → test_line recs' l = Some (recs'', b) →
  test_lines recs (ls ++ [l]) = Some (recs'', bs ++ [b]).
Proof.
  revert recs bs. induction ls as [| x ls IH]; intros recs bs; cbn [test_lines app].
  - intros [= <- <-] Hl. by rewrite Hl.
  - destruct (test_line recs x) as [[r1 b1] |]; [| done]. cbn [mbind option_bind].
    destruct (test_lines r1 ls) as [[r2 bs2] |] eqn:H2; [| done]. cbn [mbind option_bind].
    intros [= <- <-] Hl. by rewrite (IH _ _ H2 Hl).
Qed.

(** ** The invariant of reachable states *)

Definition initial_table (numRecords : nat) : list Z := replicate (S numRecords) 100.

Definition serial_inv (numRecords : nat) (E : Z) (n : nat) (σ : sys) : Prop :=
  length (threads σ) = n ∧
  order_ok E (threads σ) (global_execution_order (sh σ)) (lines (sh σ)) ∧
  ∃ C, test_lines (initial_table numRecords) (lines (sh σ)) =
         Some (C, replicate (length (lines (sh σ))) true) ∧
    length C = S numRecords ∧ data_ok C (threads σ) (monitor (sh σ)).

Lemma length_commit_table th C : length (commit_table th C) = length C.
Proof. unfold commit_table. by rewrite !length_insert. Qed.

Lemma serial_inv_start numRecords E n : serial_inv numRecords E n (start numRecords n).
Proof.
  assert (∀ t th, replicate n start_thread !! t = Some th → th = start_thread) as Hth
    by (intros t th [? _]%lookup_replicate; done).
  assert (∀ x v, val (new_Monitor n numRecords) x = Some v → v = 100 ∧ (x < numRecords)%nat) as Hval.
  { intros x v. unfold val, new_Monitor. cbn. rewrite list_lookup_imap.
    destruct (replicate numRecords new_Record !! x) as [r |] eqn:Hr; [| done].
    apply lookup_replicate in Hr as [-> Hx]. cbn. by intros [= <-]. }
  split; [by apply length_replicate |]. split.
  - split; cbn; try done; try lia.
    + intros t th cid vs ->%Hth. done.
    + intros l Hl. by apply not_elem_of_nil in Hl.
    + pose proof (total_replicate is_log n start_thread ltac:(done)) as H0. unfold total in H0. lia.
    + intros t th ->%Hth Hn. exfalso. apply Hn. by left.
    + intros t th ->%Hth. done.
  - exists (initial_table numRecords). split; [done |]. split; [apply length_replicate |]. split.
    + intros t th s ->%Hth Hs. by destruct s.
    + intros x v [-> _]%Hval. done.
    + intros x v t th s _ ->%Hth Hs. by destruct s.
    + intros x v [-> Hx]%Hval _. apply lookup_replicate. split; [done | lia].
Qed.

Lemma rule_log numRecords E t th sh th' sh' cid vs :
  rule numRecords E t th sh th' sh' → at_pc th = Log cid vs →
  ∃ r, records (monitor sh) !! rec_of th (log_stage vs) = Some r ∧
    ((length vs ≠ 2%nat ∧ th' = goto (Log cid (vs ++ [wrap32 (value r)])) th ∧ sh' = sh) ∨
     (length vs = 2%nat ∧ th' = goto UnlockHead th ∧
      sh' = mkShared (global_mutex sh) (monitor sh) (global_execution_order sh)
              (lines sh ++ [new_line t th cid (vs ++ [wrap32 (value r)])]))).
Proof.
  intros Hr Hpc. destruct Hr; try congruence.
  - assert (cid0 = cid ∧ vs0 = vs) as [-> ->] by (split; congruence). eauto 10.
  - assert (cid0 = cid ∧ vs0 = vs) as [-> ->] by (split; congruence). eauto 10.
Qed.

Lemma rule_commit numRecords E t th sh th' sh' :
  rule numRecords E t th sh th' sh' → at_pc th = Commit →
  let n := global_execution_order sh + 1 in
  sh' = mkShared (global_mutex sh) (monitor sh) n (lines sh) ∧
  ((wrap32 n ≤ E ∧ th' = goto (Log (wrap32 n) []) th) ∨ (E < wrap32 n ∧ th' = goto (Roll R) th)).
Proof. intros Hr Hpc. destruct Hr; try congruence; eauto. Qed.

Section serial_step.
Context (numRecords : nat) (E : Z) (n : nat) (σ : sys) (t : nat) (th th' : thread) (sh' : shared).
Context (Hmax : E + Z.of_nat (length (threads σ)) ≤ int_max).
Context (Hinv : lock_inv numRecords σ) (Hser : serial_inv numRecords E n σ).
Context (Ht : threads σ !! t = Some th) (Hr : rule numRecords E t th (sh σ) th' sh').

Notation σ' := (mkSys (<[t := th']> (threads σ)) sh').

(** A step that writes no line. *)
Lemma serial_no_line :
  ¬ at_log (at_pc th) → lines sh' = lines (sh σ) →
  order_ok E (<[t := th']> (threads σ)) (global_execution_order sh') (lines sh') →
  serial_inv numRecords E n σ'.
Proof.
  intros Hnl Hls HO'. destruct Hser as (Hn & HO & C & HT & Hlen & HC).
  split; [cbn; by rewrite length_insert |]. split; [done |]. cbn. rewrite Hls.
  exists C. split; [done |]. split; [done |]. eapply data_ok_step; [done | done | done |].
  eapply rule_data_effect; [done | by eapply thread_having | done].
Qed.

Lemma serial_inv_step : serial_inv numRecords E n σ'.
Proof.
  pose proof Hser as (Hn & HO & C & HT & Hlen & HC).
  destruct (decide (at_pc th = Commit)) as [Hpc | Hnc].
  { destruct (rule_commit _ _ _ _ _ _ _ Hr Hpc) as [Hsh' Hth'].
    rewrite (geo_bound E σ t th Ht Hmax HO Hpc) in Hth'.
    apply serial_no_line; [rewrite Hpc; exact id | by rewrite Hsh' |]. rewrite Hsh'. cbn.
    destruct (order_commit numRecords E σ t th Hinv Ht HO Hpc) as [H1 H2].
    destruct Hth' as [[HE ->] | [HE ->]]; auto. }
  destruct (is_log t th) eqn:Hl.
  { apply serial_no_line.
    - unfold is_log in Hl. destruct (at_pc th); first [exact id | done].
    - by destruct (rule_quiet _ _ _ _ _ _ _ Hr Hnc Hl) as (_ & -> & _).
    - by eapply order_quiet. }
  unfold is_log in Hl. destruct (at_pc th) as [| | | | | | | | | | | | | | cid vs | | | |] eqn:Hpc; try done.
  destruct (rule_log _ _ _ _ _ _ _ _ _ Hr Hpc) as (r & Hrec & [(Hvs & Hth' & Hsh') | (Hvs & Hth' & Hsh')]).
  { apply serial_no_line; [by rewrite Hpc | by rewrite Hsh' |].
    rewrite Hsh', Hth'. by eapply order_log. }
  pose proof (log_values _ E _ _ _ Hinv Ht HO C HC _ _ _ Hpc Hrec) as Hline.
  rewrite Hvs in Hline. change (take 3 (line_values th)) with (line_values th) in Hline.
  rewrite Hline in Hsh'. split; [cbn; by rewrite length_insert |].
  rewrite Hth', Hsh'. cbn. split; [by eapply order_logged |].
  exists (commit_table th C). split; [| split].
  - rewrite length_app, replicate_add. eapply test_lines_app; [done |].
    eapply (test_line_commit numRecords σ); [done | done | done | done | lia].
  - by rewrite length_commit_table.
  - eapply (data_ok_commit numRecords); [done | done | done | done | lia].
Qed.
End serial_step.

(** ** The files put together *)

Lemma filter_lt_S (ls : list line) n :
  filter (λ l, l_tid l < S n)%nat ls ≡ₚ filter (λ l, l_tid l < n)%nat ls ++ filter (λ l, l_tid l = n) ls.
Proof.
  induction ls as [| l ls IH]; [done |]. rewrite !filter_cons.
  destruct (decide (l_tid l = n)) as [He | He].
  - rewrite decide_True by lia. rewrite decide_False by lia. rewrite IH. apply Permutation_middle.
  - destruct (decide (l_tid l < n)%nat).
    + rewrite decide_True by lia. rewrite IH. done.
    + rewrite decide_False by lia. done.
Qed.

Lemma outFiles_lines σ :
  (∀ l, l ∈ lines (sh σ) → (l_tid l < length (threads σ))%nat) →
  concat (outFiles σ) ≡ₚ lines (sh σ).
Proof.
  intros Htid. unfold outFiles.
  assert (∀ n, concat (outFile σ <$> seq 0 n) ≡ₚ filter (λ l, l_tid l < n)%nat (lines (sh σ))) as Hn.
  { induction n as [| n IH].
    - simpl. clear Htid. induction (lines (sh σ)) as [| l ls IHl]; [done |]. rewrite filter_cons, decide_False by lia. exact IHl.
    - rewrite seq_S, fmap_app, concat_app, IH. cbn. rewrite app_nil_r. unfold outFile. by rewrite filter_lt_S. }
  rewrite Hn. clear Hn. revert Htid. generalize (length (threads σ)) as n. intros n Htid.
  induction (lines (sh σ)) as [| l ls IHl]; [done |].
  rewrite filter_cons, decide_True by (apply Htid; by left).
  rewrite IHl; [done |]. intros l' Hl'. apply Htid. by right.
Qed.

Lemma lines_sorted (ls : list line) :
  (∀ k l, ls !! k = Some l → l_cid l = Z.of_nat k + 1) → StronglySorted cid_le ls.
Proof.
  intros H. assert (∀ d, (∀ k l, ls !! k = Some l → l_cid l = Z.of_nat k + d) → StronglySorted cid_le ls) as Hd;
    [| by eapply Hd].
  clear H. induction ls as [| l ls IH]; intros d H; [constructor |]. constructor.
  - apply (IH (d + 1)). intros k l' Hk. specialize (H (S k) l' Hk). lia.
  - apply Forall_lookup. intros k l' Hk. unfold cid_le.
    pose proof (H 0%nat l eq_refl). specialize (H (S k) l' Hk). lia.
Qed.

#[global] Instance cid_le_total : Total cid_le.
Proof. intros a b. unfold cid_le. lia. Qed.
#[global] Instance cid_le_trans : Transitive cid_le.
Proof. intros a b c. unfold cid_le. lia. Qed.

(** Sorting the files by commit id gives the lines in the order in which they
    were written. *)
Lemma sorted_files E σ :
  order_ok E (threads σ) (global_execution_order (sh σ)) (lines (sh σ)) →
  merge_sort cid_le (concat (outFiles σ)) = lines (sh σ).
Proof.
  intros HO. apply (StronglySorted_unique_strong cid_le).
  - intros x y Hx Hy Hxy Hyx. rewrite merge_sort_Permutation, outFiles_lines in Hx by apply (o_tid _ _ _ _ HO).
    apply list_elem_of_lookup in Hx as [a Ha]. apply list_elem_of_lookup in Hy as [b Hb].
    pose proof (o_cid _ _ _ _ HO a x Ha). pose proof (o_cid _ _ _ _ HO b y Hb).
    unfold cid_le in *. assert (a = b) as -> by lia. congruence.
  - apply (StronglySorted_merge_sort cid_le).
  - apply lines_sorted, (o_cid _ _ _ _ HO).
  - rewrite merge_sort_Permutation. apply outFiles_lines, (o_tid _ _ _ _ HO).
Qed.

Lemma reachable_serial_inv numRecords E n σ :
  E + Z.of_nat n ≤ int_max → reachable numRecords E n σ →
  lock_inv numRecords σ ∧ serial_inv numRecords E n σ.
Proof.
  intros Hmax. apply reachable_ind; [apply serial_inv_start |].
  intros σ1 t th th' sh' Hinv Hser Ht Hr _.
  eapply serial_inv_step; [| done..]. by destruct Hser as [-> _].
Qed.

Lemma serial_log numRecords E n σ :
  E + Z.of_nat n ≤ int_max → reachable numRecords E n σ →
  ∃ C, test_main numRecords (outFiles σ) = Some (C, replicate (length (lines (sh σ))) true).
Proof.
  intros Hmax [_ (Hn & HO & C & HT & _)]%reachable_serial_inv; [| done].
  exists C. unfold test_main. by rewrite (sorted_files E σ HO).
Qed.

Lemma complete_log numRecords E n σ :
  E + Z.of_nat n ≤ int_max → (0 < n)%nat → reachable numRecords E n σ →
  (∀ t th, threads σ !! t = Some th → at_pc th = Exit) →
  l_cid <$> lines (sh σ) = (λ k, Z.of_nat k + 1) <$> seq 0 (Z.to_nat E) ∧
  ∃ C bs, test_main numRecords (outFiles σ) = Some (C, bs) ∧
    ∀ x r, records (monitor (sh σ)) !! x = Some r → C !! x = Some (value r).
Proof.
  intros Hmax Hpos [_ (Hn & HO & C & HT & Hlen & HC)]%reachable_serial_inv Hexit; [| done].
  split.
  - assert (length (lines (sh σ)) = Z.to_nat E) as HL.
    { destruct (lookup_lt_is_Some_2 (threads σ) 0) as [th Hth]; [lia |].
      pose proof (o_exit _ _ _ _ HO 0 th Hth ltac:(unfold is_late; by rewrite (Hexit _ _ Hth))).
      assert (total is_log (threads σ) = 0%nat) as Hz.
      { pose proof (total_mono is_log (λ _ _, 0%nat) (threads σ)) as Hm.
        rewrite total_zero in Hm. specialize (Hm ltac:(intros u uh Hu; unfold is_log; by rewrite (Hexit _ _ Hu))). lia. }
      pose proof (o_count _ _ _ _ HO). lia. }
    apply list_eq_same_length with (n := Z.to_nat E); [by rewrite length_fmap, length_seq | by rewrite length_fmap |].
    intros k x y Hk. rewrite !list_lookup_fmap, lookup_seq_lt by done. cbn. intros Hx [= <-].
    destruct (lines (sh σ) !! k) as [l |] eqn:Hl; [| done]. injection Hx as <-.
    by rewrite (o_cid _ _ _ _ HO k l Hl).
  - exists C, (replicate (length (lines (sh σ))) true).
    split; [unfold test_main; by rewrite (sorted_files E σ HO) |].
    intros x r Hr. apply (d_clean _ _ _ HC); [unfold val; by rewrite Hr |].
    intros t th s Ht Hs. rewrite (Hexit t th Ht) in Hs. by destruct s.
Qed.

(** C1: Serializability.  Whatever the schedule, in every reachable state
    [test.py], run on the output files, finds every line successful: the lines,
    sorted by commit id, report exactly the values of the serial execution of
    the committed transactions in that order. *)
Theorem transactions_serializable numRecords E n σ :
  E + Z.of_nat n ≤ int_max → reachable numRecords E n σ →
  ∃ C, test_main numRecords (outFiles σ) = Some (C, replicate (length (lines (sh σ))) true).
Proof. apply serial_log. Qed.

(** One commit is asked for.  Both threads start a transaction on the records
    0, 1, 2; thread 0 commits, thread 1 comes too late and rolls back. *)
Definition two_threads_schedule : list (nat * list nat) :=
  (1%nat, [0; 1; 2]%nat) :: (0%nat, [0; 1; 2]%nat) :: replicate 42 (0%nat, []) ++ replicate 41 (1%nat, []).

Lemma transactions_serializable_witness :
  let σ := state_after 3 1 2 two_threads_schedule in
  lines (sh σ) = [mkLine 0 1 0 1 2 100 201 0] ∧
  ∃ C, test_main 3 (outFiles σ) = Some (C, replicate (length (lines (sh σ))) true).
Proof.
  split; [vm_compute; reflexivity |].
  apply (transactions_serializable 3 1 2); [done | apply state_after_reachable].
Defined.

(** When all threads have returned, exactly the commits 1 to [E] have been
    reported, one line each, and the record table is the one of the serial
    execution: the commits that came too late have been rolled back. *)
Theorem transactions_complete numRecords E n σ :
  E + Z.of_nat n ≤ int_max → (0 < n)%nat → reachable numRecords E n σ →
  (∀ t th, threads σ !! t = Some th → at_pc th = Exit) →
  l_cid <$> lines (sh σ) = (λ k, Z.of_nat k + 1) <$> seq 0 (Z.to_nat E) ∧
  ∃ C bs, test_main numRecords (outFiles σ) = Some (C, bs) ∧
    ∀ x r, records (monitor (sh σ)) !! x = Some r → C !! x = Some (value r).
Proof. apply complete_log. Qed.

Lemma transactions_complete_witness :
  let σ := state_after 3 1 2 two_threads_schedule in
  at_pc <$> threads σ = [Exit; Exit] ∧
  l_cid <$> lines (sh σ) = (λ k, Z.of_nat k + 1) <$> seq 0 (Z.to_nat 1).
Proof.
  assert (at_pc <$> threads (state_after 3 1 2 two_threads_schedule) = [Exit; Exit]) as H
    by (vm_compute; reflexivity).
  split; [exact H |].
  apply (transactions_complete 3 1 2); [done | lia | apply state_after_reachable |].
  intros t th Ht. assert ([Exit; Exit] !! t = Some (at_pc th)) as Hpc
    by (rewrite <- H, list_lookup_fmap, Ht; reflexivity).
  clear - Hpc. destruct t as [| [| t]]; cbn in Hpc; [congruence | congruence | done].
Defined.
