(* ===== verification/TxProgress.v ===== *)
(** * What can go wrong in project 2: overflow, data races and a livelock

    A step of a reachable state, taken by itself, is undefined only by an overflow
    of the [int] arithmetic on the record values.  Two steps that are both possible
    may race, but only in the four ways [known_race] lists, all of which happen.
    The most serious is that of the queues: a thread that waits looks through the
    [vector] of a record without the global mutex while others append to it and
    erase from it.  And there are reachable
    states from which the program makes no progress any more: a thread spins in
    [lockShared] or [lockExclusive] with [mtx] in its hands while the thread
    that could end the loop waits for that [mtx]. *)

From S2P Require Import Prelude Monitor Transaction TxSteps TxLocks TxDeadlock.

(** ** Undefined behaviour *)

Definition overflows (th : thread) : Prop :=
  (at_pc th = WriteJ ∧ ¬ (in_int (j_value th + i_value th) ∧ in_int (j_value th + i_value th + 1))) ∨
  (at_pc th = WriteK ∧ ¬ in_int (k_value th - i_value th)).

#[global] Instance overflows_dec th : Decision (overflows th).
Proof. unfold overflows. apply _. Defined.

Definition returns {A} (o : outcome A) : Prop := ∃ a, o = Ret a.

Lemma returns_bind {A B} (m : outcome A) (k : A → outcome B) :
  returns m → (∀ a, m = Ret a → returns (k a)) → returns (m ≫= k).
Proof. intros [a Ha] Hk. rewrite Ha. by apply Hk. Qed.

Lemma returns_Ret {A} (a : A) : returns (Ret a).
Proof. by exists a. Qed.

Lemma returns_then {A B} (o : outcome (option A)) (f : A → B) : returns o → returns (then_ o f).
Proof. intros [[a |] ->]; eexists; reflexivity. Qed.


Section safety.
Context (numRecords : nat) (E : Z) (ths : list thread) (m : Monitor).
Context (Hq : queue_inv numRecords ths m).

Lemma records_in x : (x < numRecords)%nat → ∃ r, records m !! x = Some r.
Proof. intros H. apply lookup_lt_is_Some. by rewrite (qi_recs _ _ _ Hq). Qed.

Lemma requests_in x : (x < numRecords)%nat → ∃ q, lock_request m !! x = Some q.
Proof. intros H. apply lookup_lt_is_Some. by rewrite (qi_reqs _ _ _ Hq). Qed.

Lemma get_rw_returns x : (x < numRecords)%nat → returns (get_rw m x).
Proof.
  intros [r Hr]%records_in. unfold get_rw. rewrite (at_lookup _ _ _ Hr). apply returns_Ret.
Qed.

Lemma set_rw_returns x f : (x < numRecords)%nat → returns (set_rw m x f).
Proof.
  intros [r Hr]%records_in. unfold set_rw. rewrite (update_insert _ _ _ _ Hr). apply returns_Ret.
Qed.

Lemma mon_read_returns x : (x < numRecords)%nat → returns (mon_read m x).
Proof.
  intros [r Hr]%records_in. unfold mon_read. rewrite (at_lookup _ _ _ Hr). apply returns_Ret.
Qed.

Lemma mon_write_returns x v : (x < numRecords)%nat → returns (mon_write m x v).
Proof.
  intros [r Hr]%records_in. unfold mon_write. rewrite (update_insert _ _ _ _ Hr). apply returns_Ret.
Qed.

Lemma enter_mtx_returns t x : (x < numRecords)%nat → returns (enter_mtx t x m).
Proof.
  intros Hx. unfold enter_mtx. apply returns_bind; [by apply get_rw_returns |].
  intros rw _. destruct (mtx rw); [apply returns_Ret |].
  apply returns_bind; [by apply set_rw_returns | intros; apply returns_Ret].
Qed.

Lemma unlock_rw_returns l : (index l < numRecords)%nat → returns (unlock_rw l m).
Proof.
  intros Hx. unfold unlock_rw. apply returns_bind; [by apply get_rw_returns |].
  intros rw _. destruct (mtx rw); [apply returns_Ret |].
  apply returns_bind; [by apply set_rw_returns | intros; apply returns_Ret].
Qed.

Lemma deleteLock_returns l :
  (index l < numRecords)%nat → (tid l < length ths)%nat → returns (deleteLock m l).
Proof.
  intros [q Hlq]%requests_in Ht. unfold deleteLock. rewrite (update_insert _ _ _ _ Hlq). obind.
  destruct (lookup_lt_is_Some_2 (threads_info m) (tid l)) as [row Hrow]; [by rewrite (qi_info _ _ _ Hq) |].
  rewrite (update_insert _ _ _ _ Hrow). obind.
  destruct (lookup_lt_is_Some_2 (dependThreads m) (tid l)) as [s Hs]; [by rewrite (qi_dep _ _ _ Hq) |].
  rewrite (update_insert _ _ _ _ Hs). apply returns_Ret.
Qed.

Lemma deadlock_check_returns req :
  (index req < numRecords)%nat → (tid req < length ths)%nat → returns (deadlock_check m req).
Proof.
  intros [q Hlq]%requests_in Ht.
  destruct (deadlock_check_spec m q req) as [[_ ->] | [_ ->]]; try apply returns_Ret;
    [by eapply queue_inv_wf | done | by rewrite (qi_dep _ _ _ Hq)].
Qed.

Lemma acq_step_returns t th s a g :
  ths !! t = Some th → at_pc th = Get s a g → returns (acq_step t th s a g m).
Proof.
  intros Ht Hpc.
  assert (rec_of th s < numRecords)%nat as Hx.
  { apply (rec_in_range _ t); [by apply (qi_local _ _ _ Hq) |]. rewrite Hpc. by intros [|]. }
  destruct (requests_in _ Hx) as [q Hlq].
  destruct a; cbn [acq_step].
  - by apply returns_then, enter_mtx_returns.
  - rewrite (at_lookup _ _ _ Hlq). obind.
    pose proof (own_in_queue _ _ _ _ _ _ _ _ _ Hq Ht Hpc Hlq) as Hin.
    destruct q as [| r q]; [by apply not_elem_of_nil in Hin |]. cbn [checkQueue].
    apply returns_bind.
    { destruct (same_lock _ _); [apply returns_Ret |]. destruct (bool_decide _); apply returns_Ret. }
    intros [|] _; [apply returns_Ret |].
    apply returns_bind; [by apply set_rw_returns | intros; apply returns_Ret].
  - apply returns_bind; [by apply get_rw_returns |]. intros rw _.
    destruct (writing rw); [apply returns_Ret |].
    destruct s; (apply returns_bind; [by apply set_rw_returns | intros; apply returns_Ret]).
  - by apply returns_then, enter_mtx_returns.
  - apply returns_bind; [by apply get_rw_returns |]. intros rw _.
    apply returns_bind; [by apply set_rw_returns | intros; apply returns_Ret].
  - by apply returns_then, enter_mtx_returns.
  - rewrite (update_insert _ _ _ _ Hlq). apply returns_Ret.
Qed.
End safety.

Lemma tstep_returns numRecords E ths t v th sh :
  queue_inv numRecords ths (monitor sh) → ths !! t = Some th → ¬ overflows th →
  returns (tstep numRecords E t v th sh).
Proof.
  intros Hq Ht Hno.
  assert (local_ok numRecords t th) as Hlo by (by apply (qi_local _ _ _ Hq)).
  pose proof (lookup_lt_Some _ _ _ Ht) as Hlt.
  assert (∀ s, ¬ idle (at_pc th) → (rec_of th s < numRecords)%nat) as Hrec
    by (intros s; by apply (rec_in_range _ t)).
  assert (∀ p, returns (lock_global t p th sh)) as Hlock
    by (intros p; unfold lock_global; destruct (global_mutex sh); apply returns_Ret).
  assert (∀ l, l ∈ held t th → (index l < numRecords)%nat) as Hheld by (intros l; by apply held_in_range).
  pose proof (λ l, queued_tid t th l (lo_having _ _ _ Hlo)) as Htid.
  unfold tstep. unfold overflows in Hno. unfold held in Hheld. unfold queued in Htid.
  destruct (at_pc th) as [| s | s | s a g | s | s | s | | | | | c ls | c l ls | | cid vs | s | | |] eqn:Hpc;
    try (apply returns_Ret); try apply Hlock;
    try (assert (∀ s, (rec_of th s < numRecords)%nat) as Hr by (intros s0; apply Hrec; by intros [|])).
  - unfold head_step. case_bool_decide; [| apply returns_Ret].
    destruct v as [| i [| j [| k [| ? ?]]]]; try apply returns_Ret. case_bool_decide; apply returns_Ret.
  - apply returns_bind; [by eapply deadlock_check_returns; [| apply Hr |] | intros [m' st] _; apply returns_Ret].
  - by eapply returns_then, acq_step_returns.
  - apply returns_bind; [by eapply mon_read_returns; [| apply Hr] | intros; apply returns_Ret].
  - assert (in_int (j_value th + i_value th) ∧ in_int (j_value th + i_value th + 1)) as [H1 H2].
    { destruct (decide (in_int (j_value th + i_value th))), (decide (in_int (j_value th + i_value th + 1))); tauto. }
    rewrite !int_op_Ret by done. obind. rewrite int_op_Ret by done. obind.
    apply returns_bind; [by eapply mon_write_returns, (Hr W1) | intros; apply returns_Ret].
  - assert (in_int (k_value th - i_value th)) as H1 by (destruct (decide (in_int (k_value th - i_value th))); tauto).
    rewrite int_op_Ret by done. obind.
    apply returns_bind; [by eapply mon_write_returns, (Hr W2) | intros; apply returns_Ret].
  - apply returns_bind; [by eapply mon_write_returns, (Hr W1) | intros; apply returns_Ret].
  - destruct ls as [| l ls]; [apply returns_Ret |].
    apply returns_bind; [| intros; apply returns_Ret].
    eapply deleteLock_returns; [done | apply Hheld; by left |]. by rewrite (Htid l ltac:(by left)).
  - eapply returns_then, unlock_rw_returns; [done |]. apply Hheld. by left.
  - apply returns_bind; [by eapply mon_read_returns; [| apply Hr] |]. intros x _. case_bool_decide; apply returns_Ret.
  - apply returns_bind; [by eapply mon_write_returns; [| apply Hr] | intros; apply returns_Ret].
Qed.

(** ** Data races *)

(** The objects the threads share: the generator of random numbers, the counter
    of the commits, the graph of waiting threads with the table of their requests,
    and for every record its queue, the counters of its rw lock and its value. *)
Inductive object := Generator | Order | Graph | Queue (x : nat) | Rw (x : nat) | Value (x : nat).

(** What the next step of a thread may access, and whether it writes there.
    Mutexes and condition variables are not listed, nor are the output files. *)
Definition accesses (th : thread) : list (object * bool) :=
  match at_pc th with
  | Head => [(Order, false); (Generator, true)]
  | Check s => [(Queue (rec_of th s), true); (Graph, true)]
  | Get s APred _ => [(Queue (rec_of th s), false)]
  | Get s ATest _ => [(Rw (rec_of th s), true)]
  | Get s ADrain _ => [(Rw (rec_of th s), false)]
  | Get s AFlag _ => [(Queue (rec_of th s), true)]
  | Access s => [(Value (rec_of th s), false)]
  | WriteJ | UndoJ => [(Value (rj th), true)]
  | WriteK => [(Value (rk th), true)]
  | Rel _ (r :: _) => [(Queue (index r), true); (Graph, true)]
  | RelRw _ r _ => [(Rw (index r), true)]
  | Commit => [(Order, true)]
  | Log _ vs => [(Value (rec_of th (log_stage vs)), false)]
  | Roll s => [(Value (rec_of th s), true)]
  | _ => []
  end.

(** Two threads can both take their next step, and one of them writes an object
    that the other one accesses. *)
Definition races (numRecords : nat) (E : Z) (σ : sys) (ob : object) (t u : nat) (th uh : thread) : Prop :=
  t ≠ u ∧ threads σ !! t = Some th ∧ threads σ !! u = Some uh ∧
  (∃ v, tstep numRecords E t v th (sh σ) ≠ Ret None) ∧ (∃ v, tstep numRecords E u v uh (sh σ) ≠ Ret None) ∧
  ∃ w w', (ob, w) ∈ accesses th ∧ (ob, w') ∈ accesses uh ∧ (w = true ∨ w' = true).

(** A pass over a queue for a request that was told to wait: the global mutex is
    not held. *)
Definition unlocked_pass (th : thread) : Prop :=
  match at_pc th with Get _ (APred | AFlag) false => True | _ => False end.

(** The races of the program. *)
Definition known_race (ob : object) (th uh : thread) : Prop :=
  match ob with
  | Generator => at_pc th = Head ∧ at_pc uh = Head
  | Order => at_pc th = Head ∧ at_pc uh = Commit ∨ at_pc th = Commit ∧ at_pc uh = Head
  | Queue _ => unlocked_pass th ∨ unlocked_pass uh
  | Value _ => at_pc th = Roll R ∧ at_pc uh = Access R ∨ at_pc th = Access R ∧ at_pc uh = Roll R
  | Graph | Rw _ => False
  end.

(** The record whose [mtx] a thread holds. *)
Definition inside (th : thread) : option nat :=
  match at_pc th with Get s (APred | ATest | ADrain) _ => Some (rec_of th s) | _ => None end.

Definition mtx_at (m : Monitor) (x : nat) : option (option nat) := (λ r, mtx (rwlock r)) <$> records m !! x.

Definition mtx_inv (ths : list thread) (m : Monitor) : Prop :=
  ∀ t th x, ths !! t = Some th → inside th = Some x → mtx_at m x = Some (Some t).

Lemma mtx_at_upd_rw m y r l x :
  records m !! y = Some r → mtx_at (upd_rw m y r l) x = if decide (x = y) then Some (mtx l) else mtx_at m x.
Proof.
  intros Hr. unfold mtx_at, upd_rw. cbn. destruct (decide (x = y)) as [-> | Hne].
  - by rewrite list_lookup_insert_eq by (by eapply lookup_lt_Some).
  - by rewrite list_lookup_insert_ne.
Qed.

Lemma mtx_at_same m y r l x :
  records m !! y = Some r → mtx l = mtx (rwlock r) → mtx_at (upd_rw m y r l) x = mtx_at m x.
Proof.
  intros Hr Hl. rewrite mtx_at_upd_rw by done. destruct (decide (x = y)) as [-> |]; [| done].
  unfold mtx_at. by rewrite Hr, Hl.
Qed.

Lemma mtx_at_upd_val m y r v x : records m !! y = Some r → mtx_at (upd_val m y r v) x = mtx_at m x.
Proof.
  intros Hr. unfold mtx_at, upd_val. cbn. destruct (decide (x = y)) as [-> | Hne].
  - by rewrite Hr, list_lookup_insert_eq by (by eapply lookup_lt_Some).
  - by rewrite list_lookup_insert_ne.
Qed.

(** What a rule does to the mutexes of the records. *)
Inductive mtx_effect (t : nat) (th th' : thread) (m m' : Monitor) : Prop :=
| xe_same : (∀ x, mtx_at m' x = mtx_at m x) → inside th' = inside th → mtx_effect t th th' m m'
| xe_enter y : mtx_at m y = Some None → inside th' = Some y →
    (∀ x, mtx_at m' x = if decide (x = y) then Some (Some t) else mtx_at m x) → mtx_effect t th th' m m'
| xe_leave y : inside th = Some y → inside th' = None →
    (∀ x, mtx_at m' x = if decide (x = y) then Some None else mtx_at m x) → mtx_effect t th th' m m'.

Lemma rule_mtx_effect numRecords E t th sh th' sh' :
  rule numRecords E t th sh th' sh' → mtx_effect t th th' (monitor sh) (monitor sh').
Proof.
  intros Hr. destruct Hr;
    try (by apply xe_same; [intros x; cbn; first [done | by apply mtx_at_same | by apply mtx_at_upd_val]
      | unfold inside; cbn; at_point; first [done | by destruct c | by destruct g | by destruct s]]);
    try (by eapply xe_leave; [unfold inside; by at_point | done | intros x; cbn; by rewrite mtx_at_upd_rw]).
  - apply (xe_enter _ _ _ _ _ (rec_of th s)); [unfold mtx_at; rewrite H1; cbn; by rewrite H2 | by destruct H0 |].
    intros x. cbn. by rewrite mtx_at_upd_rw.
  - apply xe_same; [| unfold inside; by at_point]. intros x. cbn. apply mtx_at_same; [done |].
    unfold released. by case_bool_decide.
Qed.

Lemma mtx_inv_step ths t th th' m m' :
  mtx_inv ths m → ths !! t = Some th → mtx_effect t th th' m m' → mtx_inv (<[t := th']> ths) m'.
Proof.
  intros Hinv Ht Heff u uh x [(<- & <- & _) | [Hne Hu]]%list_lookup_insert_Some Hx.
  - destruct Heff as [Hm Hi | y _ Hi Hm | y _ Hi _]; [| | congruence].
    + rewrite Hm. apply (Hinv t th); [done | congruence].
    + rewrite Hm, decide_True; [done | congruence].
  - pose proof (Hinv u uh x Hu Hx) as Hux.
    destruct Heff as [Hm _ | y Hy _ Hm | y Hy _ Hm]; rewrite Hm; [done | |]; (rewrite decide_False; [done |]; intros ->).
    + congruence.
    + pose proof (Hinv t th y Ht Hy). congruence.
Qed.

Lemma reachable_mtx_inv numRecords E n σ :
  reachable numRecords E n σ → lock_inv numRecords σ ∧ mtx_inv (threads σ) (monitor (sh σ)).
Proof.
  apply (reachable_ind (λ σ, mtx_inv (threads σ) (monitor (sh σ)))).
  - by intros t th x [-> _]%lookup_replicate.
  - intros σ1 t th th' sh' _ Hx Ht Hr _. cbn. eapply mtx_inv_step; [done | done |]. by eapply rule_mtx_effect.
Qed.

(** What protects the accesses of a thread. *)
Lemma access_guard t th ob w :
  having_ok t th → (ob, w) ∈ accesses th →
  match ob with
  | Generator => at_pc th = Head
  | Order => at_pc th = Head ∧ w = false ∨ at_pc th = Commit
  | Graph => crit (at_pc th) = true
  | Queue _ => crit (at_pc th) = true ∨ unlocked_pass th
  | Rw x => inside th = Some x ∨ ∃ c r ls, at_pc th = RelRw c r ls ∧ index r = x
  | Value x => ∃ s, x = rec_of th s ∧ request t th s ∈ owned th ∧
      (s = R → at_pc th = Roll R ∨ w = false ∧ (at_pc th = Access R ∨ crit (at_pc th) = true))
  end.
Proof.
  unfold accesses, having_ok, owned, unlocked_pass, inside. intros Hh Hin.
  destruct (at_pc th) as [| s | s | s a g | s | s | s | | | | | c ls | c l ls | | cid vs | s | | |];
    try destruct a; try destruct ls as [| l ls];
    rewrite ?elem_of_cons, ?elem_of_nil in Hin; destruct_or?; simplify_eq; auto; try (destruct g; auto).
  - exists s. rewrite Hh. split_and!; [done | apply elem_of_app; right; by left | intros ->; auto].
  - exists W1. rewrite Hh. split_and!; [done | set_solver | done].
  - exists W2. rewrite Hh. split_and!; [done | set_solver | done].
  - exists W1. rewrite Hh. split_and!; [done | set_solver | done].
  - right. eauto.
  - exists (log_stage vs). rewrite Hh. split_and!; [done | destruct (log_stage vs); set_solver | auto].
  - exists s. rewrite Hh. split_and!; [done | destruct s; set_solver | intros ->; auto].
Qed.

(** A thread that is inside [mtx] of a record keeps others from leaving its rw
    lock. *)
Lemma rel_rw_blocked numRecords E t th u c r ls sh v :
  mtx_at (monitor sh) (index r) = Some (Some u) → at_pc th = RelRw c r ls → tstep numRecords E t v th sh = Ret None.
Proof.
  unfold mtx_at. intros Hm Hpc. unfold tstep. rewrite Hpc. unfold then_, unlock_rw, get_rw.
  destruct (records (monitor sh) !! index r) as [x |] eqn:Hx; [| done]. injection Hm as Hm.
  rewrite (at_lookup _ _ _ Hx). obind. by rewrite Hm.
Qed.

Lemma races_known numRecords E n σ ob t u th uh :
  reachable numRecords E n σ → races numRecords E σ ob t u th uh → known_race ob th uh.
Proof.
  intros [[Hq Hmu _ Ho] Hx]%reachable_mtx_inv (Hne & Ht & Hu & [v Hv] & [v' Hv'] & w & w' & Hw & Hw' & Hww).
  assert (crit (at_pc th) = true → crit (at_pc uh) = true → False) as Hcc.
  { intros H1 H2. apply Hne. by apply (mutex_excl (threads σ) (sh σ) t u th uh). }
  pose proof (access_guard t th ob w (lo_having _ _ _ (qi_local _ _ _ Hq t th Ht)) Hw) as Hg.
  pose proof (access_guard u uh ob w' (lo_having _ _ _ (qi_local _ _ _ Hq u uh Hu)) Hw') as Hg'.
  destruct ob as [| | | x | x | x]; cbn.
  - done.
  - destruct Hg as [[? ->] | Hc], Hg' as [[? ->] | Hc']; [by destruct Hww | by left | by right |].
    exfalso. apply Hcc; by rewrite ?Hc, ?Hc'.
  - by apply Hcc.
  - destruct Hg as [Hg | ?]; [| by left]. destruct Hg' as [Hg' | ?]; [| by right]. by destruct (Hcc Hg Hg').
  - destruct Hg as [Hi | (c & r & ls & Hpc & <-)], Hg' as [Hi' | (c' & r' & ls' & Hpc' & Hr')].
    + pose proof (Hx t th x Ht Hi). pose proof (Hx u uh x Hu Hi'). congruence.
    + apply Hv'. eapply rel_rw_blocked; [rewrite Hr'; by apply (Hx t th) | done].
    + apply Hv. eapply rel_rw_blocked; [by apply (Hx u uh) | done].
    + apply Hcc; by rewrite ?Hpc, ?Hpc'.
  - destruct Hg as (s & -> & Hown & HR), Hg' as (s' & Hi & Hown' & HR').
    assert (s = R) as -> by (by apply (Ho t u th uh (request t th s) (request u uh s'))).
    assert (s' = R) as -> by (by apply (Ho u t uh th (request u uh s') (request t th R))).
    destruct (HR eq_refl) as [Hp | [-> Hp]], (HR' eq_refl) as [Hp' | [-> Hp']].
    + exfalso. apply Hcc; by rewrite ?Hp, ?Hp'.
    + destruct Hp' as [Hp' | Hc']; [by left |]. exfalso. apply Hcc; [by rewrite Hp | done].
    + destruct Hp as [Hp | Hc]; [by right |]. exfalso. apply Hcc; [done | by rewrite Hp'].
    + by destruct Hww.
Qed.

(** C40: What can be undefined in a reachable state.  Taken one at a time, with a
    pass over a queue as one step, the steps are defined: no index is outside its
    table, the front of no empty queue is taken, and the cycle search comes to its
    end; only the [int] arithmetic on the record values may overflow.  And two
    steps that are both possible race only in one of these ways: two threads draw
    random numbers; one tests the counter of commits at the head of its loop while
    another one increments it; a request that was told to wait looks through its
    queue or marks itself there, without the global mutex, while another thread
    looks through that queue or changes it; the last roll back of a record that was
    only read stores its value while another thread reads it.  The graph of waiting
    threads, the counters of the rw locks and all other accesses to values are free
    of races. *)
Theorem steps_are_defined numRecords E n σ t th :
  reachable numRecords E n σ → threads σ !! t = Some th →
  (overflows th ∨ ∀ v, ∃ o, tstep numRecords E t v th (sh σ) = Ret o) ∧
  (∀ ob u uh, races numRecords E σ ob t u th uh → known_race ob th uh).
Proof.
  intros Hr Ht. split; [| intros ob u uh; by eapply races_known].
  destruct (decide (overflows th)) as [? | Hno]; [by left | right]. intros v.
  eapply tstep_returns; [by eapply li_queue, reachable_lock_inv | done | done].
Qed.

Lemma steps_are_defined_witness :
  ∃ th, threads (state_after 3 1 2 waiting_schedule) !! 1%nat = Some th ∧
    (overflows th ∨ ∀ v, ∃ o, tstep 3 1 1 v th (sh (state_after 3 1 2 waiting_schedule)) = Ret o) ∧
    (∀ ob u uh, races 3 1 (state_after 3 1 2 waiting_schedule) ob 1 u th uh → known_race ob th uh).
Proof.
  destruct (lookup_lt_is_Some_2 (threads (state_after 3 1 2 waiting_schedule)) 1) as [th Hth];
    [vm_compute; lia |].
  exists th. split; [exact Hth |].
  apply (steps_are_defined 3 1 2 _ 1 th); [apply state_after_reachable | exact Hth].
Defined.

(** Thread 1 asks to read the record 1 that thread 0 has locked, is told to wait,
    and is about to look through the queue when thread 0 erases its request. *)
Definition queue_race_schedule : list (nat * list nat) :=
  (0, [0; 1; 2])%nat :: replicate 16 (0%nat, []) ++ (1, [1; 0; 2])%nat :: replicate 3 (1%nat, []) ++ replicate 15 (0%nat, []).

(** Threads 0 and 1 have begun when thread 2 makes the last commit; thread 1 is
    about to read record 0 when thread 0, which has read it too, commits too late. *)
Definition late_schedule : list (nat * list nat) :=
  [(0, [0; 1; 2]); (1, [0; 3; 4]); (2, [3; 4; 5])]%nat ++ replicate 41 (2%nat, []) ++ replicate 7 (1%nat, []) ++ replicate 37 (0%nat, []).

(** All these races happen.  In the first of them the pass over the queue is that
    of [checkQueue], whose iterators the [erase] of the other thread invalidates. *)
Theorem races_happen :
  (∃ σ th uh c r ls, reachable 3 1 2 σ ∧ races 3 1 σ (Queue 1) 0 1 th uh ∧
     at_pc th = Rel c (r :: ls) ∧ at_pc uh = Get R APred false) ∧
  (∃ σ th uh, reachable 6 1 3 σ ∧ races 6 1 σ (Value 0) 0 1 th uh) ∧
  (∃ σ th uh, reachable 6 1 3 σ ∧ races 6 1 σ Order 0 2 th uh) ∧
  (∃ σ th uh, reachable 3 1 2 σ ∧ races 3 1 σ Generator 0 1 th uh).
Proof.
  split_and!.
  - exists (state_after 3 1 2 queue_race_schedule). eexists _, _, _, _, _. split; [apply state_after_reachable |].
    split.
    { split; [done |]. split; [vm_compute; reflexivity |]. split; [vm_compute; reflexivity |].
      split; [exists []; vm_compute; discriminate |]. split; [exists []; vm_compute; discriminate |].
      exists true, false. split; [by left |]. split; [by left | by left]. }
    split; reflexivity.
  - exists (state_after 6 1 3 late_schedule). eexists _, _. split; [apply state_after_reachable |].
    split; [done |]. split; [vm_compute; reflexivity |]. split; [vm_compute; reflexivity |].
    split; [exists []; vm_compute; discriminate |]. split; [exists []; vm_compute; discriminate |].
    exists true, false. split; [by left |]. split; [by left | by left].
  - exists (state_after 6 1 3 (take 87 late_schedule)). eexists _, _. split; [apply state_after_reachable |].
    split; [done |]. split; [vm_compute; reflexivity |]. split; [vm_compute; reflexivity |].
    split; [exists []; vm_compute; discriminate |]. split; [exists []; vm_compute; discriminate |].
    exists true, false. split; [by left |]. split; [by left | by left].
  - exists (start 3 2). eexists _, _. split; [apply rtc_refl |].
    split; [done |]. split; [vm_compute; reflexivity |]. split; [vm_compute; reflexivity |].
    split; [exists [0; 1; 2]%nat; vm_compute; discriminate |]. split; [exists [0; 1; 2]%nat; vm_compute; discriminate |].
    exists true, true. split; [by right; left |]. split; [by right; left | by left].
Qed.

(** ** Overflow *)

(** One thread that commits again and again, adding record 1 to record 2 and
    record 2 to record 1 in turn, until it is about to store into record 0 for
    the 34th time. *)
Definition doubling_schedule : list (nat * list nat) :=
  let forth := (0%nat, [1; 2; 0]%nat) :: replicate 41 (0%nat, []) in
  let back := (0%nat, [2; 1; 0]%nat) :: replicate 41 (0%nat, []) in
  concat (replicate 16 (forth ++ back)) ++ forth ++ take 28 back.

(** The overflow does happen: a single thread on three records, asked for
    40 commits, can reach a state where [k_value - i_value] leaves the range
    of [int] although [value] is an [int64_t]. *)
Theorem overflow_reachable :
  ∃ σ th, reachable 3 40 1 σ ∧ threads σ = [th] ∧ overflows th ∧ length (lines (sh σ)) = 33%nat.
Proof.
  exists (state_after 3 40 1 doubling_schedule). eexists. split; [apply state_after_reachable |].
  split; [vm_compute; reflexivity |]. split; [| vm_compute; reflexivity].
  right. split; [reflexivity |]. unfold in_int, int_min, int_max. cbn [k_value i_value]. lia.
Qed.

(** ** A livelock *)

(** Thread 0 holds record 1 for writing when thread 1 asks to read it and is
    told to wait.  Before thread 1 enters [lockShared], thread 0 commits and
    takes its request out of the queue; thread 1 enters and finds itself first
    in the queue while [writing] is still set. *)
Definition livelock_schedule : list (nat * list nat) :=
  (0%nat, [0; 1; 2]%nat) :: replicate 17 (0%nat, []) ++
  (1%nat, [1; 2; 0]%nat) :: replicate 2 (1%nat, []) ++
  replicate 15 (0%nat, []) ++ replicate 2 (1%nat, []).

Definition spinning : sys := state_after 3 1 2 livelock_schedule.
Definition spinning' : sys := state_after 3 1 2 (livelock_schedule ++ [(1%nat, [])]).

(** Thread [u] is the only one that can move, and it moves from [a] to [b]. *)
Definition only (numRecords : nat) (E : Z) (u : nat) (a b : sys) : Prop :=
  ∀ t v, sys_step numRecords E t v a = Ret (if bool_decide (t = u) then Some b else None).

Lemma only_step numRecords E u a b σ : only numRecords E u a b → step numRecords E a σ → σ = b.
Proof.
  intros Ho Hs. inversion Hs as [t v ? ? Hstep He1 He2]. rewrite Ho in Hstep.
  destruct (bool_decide (t = u)); congruence.
Qed.

Lemma only_cycle numRecords E u a b σ :
  only numRecords E u a b → only numRecords E u b a → rtc (step numRecords E) a σ → σ = a ∨ σ = b.
Proof.
  intros Hab Hba. apply rtc_ind_r with (P := λ σ, σ = a ∨ σ = b); [by left |].
  intros σ1 σ2 _ Hs [He | He]; rewrite He in Hs; [right | left]; by eapply only_step.
Qed.

Lemma only_two numRecords E a b :
  length (threads a) = 2%nat →
  (∀ v, sys_step numRecords E 0 v a = Ret None) → (∀ v, sys_step numRecords E 1 v a = Ret (Some b)) →
  only numRecords E 1 a b.
Proof.
  intros Hlen H0 H1 [| [| t]] v; [by apply H0 | by apply H1 |]. unfold sys_step.
  assert (threads a !! S (S t) = None) as -> by (apply lookup_ge_None; lia). done.
Qed.

Lemma spinning_only : only 3 1 1 spinning spinning'.
Proof. apply only_two; [| intros v..]; vm_compute; reflexivity. Qed.

Lemma spinning_only' : only 3 1 1 spinning' spinning.
Proof. apply only_two; [| intros v..]; vm_compute; reflexivity. Qed.

(** C5: The program can hang: with two threads, three records and one commit to
    make, there is a reachable state from which, whatever the schedule, no
    thread ever commits or returns.  Thread 1 repeats the do loop of
    [lockShared] holding [mtx], and thread 0 waits for that [mtx] in
    [unlockExclusive] with the global mutex in its hands. *)
Theorem livelock :
  ∃ σ, reachable 3 1 2 σ ∧
    ∀ σ', rtc (step 3 1) σ σ' →
      global_execution_order (sh σ') = 0 ∧ lines (sh σ') = [] ∧
      global_mutex (sh σ') = Some 0%nat ∧
      (∃ l ls, at_pc <$> threads σ' !! 0%nat = Some (RelRw true l ls)) ∧
      (at_pc <$> threads σ' !! 1%nat = Some (Get R APred false) ∨
       at_pc <$> threads σ' !! 1%nat = Some (Get R ATest false)).
Proof.
  exists spinning. split; [apply state_after_reachable |]. intros σ' Hσ'.
  destruct (only_cycle 3 1 1 _ _ _ spinning_only spinning_only' Hσ') as [-> | ->].
  - do 3 (split; [vm_compute; reflexivity |]).
    split; [eexists _, _; vm_compute; reflexivity | right; vm_compute; reflexivity].
  - do 3 (split; [vm_compute; reflexivity |]).
    split; [eexists _, _; vm_compute; reflexivity | left; vm_compute; reflexivity].
Qed.
