(* ===== verification/Snapshot.v ===== *)
(** * The wait-free snapshot of project 3
    (src/project3/stampedsnap.h, wfsnapshot.h, threadpool.h, threadpool.cpp)

    The threads of the pool update their entries of a [WFSnapshot] and scan it
    in every update.  A step of the machine is one access to a shared entry:
    reading one entry in [collect], copying the own entry, storing the new one;
    an entry is read and written as a whole.  Deallocation is not modelled. *)

From S2P Require Import Prelude.

(** ** stampedsnap.h *)

Record StampedSnap := mkSnap {
  stamp : Z;
  s_value : Z;
  snap : option (list Z)
}.

(** The default arguments of the constructor. *)
Definition new_StampedSnap : StampedSnap := mkSnap 0 0 None.

(** The copy constructor resets the stamp; assignment copies all members. *)
Definition copy_construct (ssnap : StampedSnap) : StampedSnap :=
  mkSnap 0 (s_value ssnap) (snap ssnap).

(** ** wfsnapshot.h *)

(** The for loop of [scan] over the two copies, from index [i]. *)
Inductive verdict :=
| Unchanged
| Twice (s : option (list Z))
| Moved (moved : list bool).

Fixpoint compare_from (i : nat) (oldCopy newCopy : list StampedSnap) (moved : list bool) : verdict :=
  match oldCopy, newCopy with
  | o :: oldCopy, n :: newCopy =>
      if bool_decide (stamp o ≠ stamp n) then
        match moved !! i with
        | Some true => Twice (snap o)
        | _ => Moved (<[i := true]> moved)
        end
      else compare_from (S i) oldCopy newCopy moved
  | _, _ => Unchanged
  end.

(** Program points of a worker: the test of the loop in [work]; the first
    [collect] of [scan]; a later [collect] of [scan]; after [scan], about to
    copy the own entry; about to store the new one; about to count; about to
    save the count; returned. *)
Inductive spc :=
| Loop
| First (v : Z) (copy : list StampedSnap)
| Second (v : Z) (oldCopy copy : list StampedSnap) (moved : list bool)
| ReadOld (v : Z) (s : option (list Z))
| WriteNew (v : Z) (s : option (list Z)) (oldValue : StampedSnap)
| Count | Save | Done.

#[global] Instance StampedSnap_eq_dec : EqDecision StampedSnap.
Proof. solve_decision. Defined.
#[global] Instance spc_eq_dec : EqDecision spc.
Proof. solve_decision. Defined.

Record worker := mkWorker { s_pc : spc; updateCount : Z }.

(** [writes] records the stores into the entries, in order; the program does
    not have it. *)
Record pool := mkPool {
  snaps : list StampedSnap;
  exit_flag : bool;
  workers : list worker;
  updateCounts : list Z;
  writes : list (nat * Z)
}.

Definition to (p : spc) (w : worker) : worker := mkWorker p (updateCount w).

Section pool.
(** Before C++17 a compiler may leave out the copy in
    [StampedSnap<T> newValue = StampedSnap<T>(...)], and usually does. *)
Context (elide : bool).

(** [newValue], after the optional copy. *)
Definition new_entry (v : Z) (s : option (list Z)) (oldValue : StampedSnap) : StampedSnap :=
  let made := mkSnap (stamp oldValue + 1) v s in
  if elide then made else copy_construct made.

(** What [scan] does when a copy is complete. *)
Definition after_collect (v : Z) (oldCopy newCopy : list StampedSnap) (moved : list bool) : spc :=
  match compare_from 0 oldCopy newCopy moved with
  | Unchanged => ReadOld v (Some (s_value <$> newCopy))
  | Twice s => ReadOld v s
  | Moved moved => Second v newCopy [] moved
  end.

(** One step of [work] with [WFSnapshot::update]; [v] is the random value.
    The result is the new worker and the new pool without its workers. *)
Definition work_step (tid : nat) (v : Z) (w : worker) (p : pool) : outcome (option (worker * pool)) :=
  let n := length (snaps p) in
  match s_pc w with
  | Loop => Ret (Some (to (if exit_flag p then Save else First v []) w, p))
  | First v copy =>
      e ← at_ (snaps p) (length copy);
      let copy := copy ++ [e] in
      Ret (Some (to (if bool_decide (length copy = n) then Second v copy [] (replicate n false)
                     else First v copy) w, p))
  | Second v oldCopy copy moved =>
      e ← at_ (snaps p) (length copy);
      let copy := copy ++ [e] in
      Ret (Some (to (if bool_decide (length copy = n) then after_collect v oldCopy copy moved
                     else Second v oldCopy copy moved) w, p))
  | ReadOld v s =>
      e ← at_ (snaps p) tid;
      Ret (Some (to (WriteNew v s (copy_construct e)) w, p))
  | WriteNew v s oldValue =>
      l ← update (snaps p) tid (λ _, new_entry v s oldValue);
      Ret (Some (to Count w,
                 mkPool l (exit_flag p) (workers p) (updateCounts p) (writes p ++ [(tid, v)])))
  | Count =>
      c ← int_op (updateCount w + 1);
      Ret (Some (mkWorker Loop c, p))
  | Save =>
      l ← update (updateCounts p) tid (λ _, updateCount w);
      Ret (Some (to Done w, mkPool (snaps p) (exit_flag p) (workers p) l (writes p)))
  | Done => Ret None
  end.

(** The constructor and [run] up to the sleep.  [new int[]] leaves the counts
    unspecified: [c0]. *)
Definition pool_start (c0 : Z) (numThreads : nat) : pool := {|
  snaps := replicate numThreads new_StampedSnap;
  exit_flag := false;
  workers := replicate numThreads (mkWorker Loop 0);
  updateCounts := replicate numThreads c0;
  writes := []
|}.

Definition set_workers (p : pool) (ws : list worker) : pool :=
  mkPool (snaps p) (exit_flag p) ws (updateCounts p) (writes p).

(** A step of the pool: [Some t] is a step of worker [t], [None] is the main
    thread after its sleep. *)
Definition pool_step (who : option nat) (v : Z) (p : pool) : outcome (option pool) :=
  match who with
  | None => Ret (Some (mkPool (snaps p) true (workers p) (updateCounts p) (writes p)))
  | Some t =>
      match workers p !! t with
      | None => Ret None
      | Some w =>
          r ← work_step t v w p;
          match r with
          | None => Ret None
          | Some (w, p) => Ret (Some (set_workers p (<[t := w]> (workers p))))
          end
      end
  end.

Inductive pstep : pool → pool → Prop :=
| pstep_intro who v p p' : pool_step who v p = Ret (Some p') → pstep p p'.

(** The sum of [run] after the joins. *)
Fixpoint sum_counts (counts : list Z) (sumUpdateCount : Z) : outcome Z :=
  match counts with
  | [] => Ret sumUpdateCount
  | c :: counts => s ← int_op (sumUpdateCount + c); sum_counts counts s
  end.

Definition pool_run_result (p : pool) : outcome Z := sum_counts (updateCounts p) 0.

Fixpoint run_pool (sched : list (option nat * Z)) (p : pool) : outcome (option pool) :=
  match sched with
  | [] => Ret (Some p)
  | (who, v) :: sched =>
      r ← pool_step who v p;
      match r with
      | None => Ret None
      | Some p => run_pool sched p
      end
  end.
End pool.

(** ** The invariant *)

(** Every entry of [c] has a stamp of at most the one at its place in [s]. *)
Definition below (c s : list StampedSnap) : Prop :=
  ∀ i e, c !! i = Some e → ∃ e', s !! i = Some e' ∧ 0 ≤ stamp e ≤ stamp e'.

(** Every entry of [c] has a stamp of at least the one at its place in [old]. *)
Definition since (c old : list StampedSnap) : Prop :=
  ∀ i e, c !! i = Some e → ∃ o, old !! i = Some o ∧ stamp o ≤ stamp e.

Lemma below_trans c s s' : below c s → below s s' → below c s'.
Proof.
  intros H1 H2 i e He. destruct (H1 i e He) as (e1 & He1 & ?).
  destruct (H2 i e1 He1) as (e2 & He2 & ?). exists e2. split; [done | lia].
Qed.

Lemma below_snoc c s e :
  below c s → s !! length c = Some e → 0 ≤ stamp e → below (c ++ [e]) s.
Proof.
  intros H He Hs i x Hx. apply lookup_app_Some in Hx as [Hx | [Hi Hx]]; [by apply H |].
  apply list_lookup_singleton_Some in Hx as [Hx <-].
  assert (i = length c) as -> by lia. exists e. split; [done | lia].
Qed.

Lemma since_snoc c old s e :
  since c old → below old s → length old = length s → s !! length c = Some e → since (c ++ [e]) old.
Proof.
  intros H Hb Hlen He i x Hx. apply lookup_app_Some in Hx as [Hx | [Hi Hx]]; [by apply H |].
  apply list_lookup_singleton_Some in Hx as [Hx <-]. assert (i = length c) as -> by lia.
  destruct (lookup_lt_is_Some_2 old (length c)) as [o Ho].
  { rewrite Hlen. by eapply lookup_lt_Some. }
  exists o. split; [done |]. destruct (Hb _ _ Ho) as (e' & He' & ?). simplify_eq. lia.
Qed.

(** The number of stores of thread [t]. *)
Definition stores (t : nat) (ws : list (nat * Z)) : Z :=
  Z.of_nat (length (filter (λ w, w.1 = t) ws)).

Section snapshot_inv.
Context (elide : bool).

(** What holds of a worker, given the table and the stores so far. *)
Record worker_ok (s : list StampedSnap) (ws : list (nat * Z)) (counts : list Z) (t : nat) (w : worker) : Prop := {
  wk_copy :
    match s_pc w with
    | First _ copy => below copy s ∧ (length copy < length s)%nat
    | Second _ old copy moved =>
        below old s ∧ below copy s ∧ since copy old ∧
        length old = length s ∧ (length copy < length s)%nat ∧ length moved = length s ∧
        ∀ i, moved !! i = Some true → ∃ o, old !! i = Some o ∧ stamp o = 1
    | WriteNew _ _ o => stamp o = 0
    | _ => True
    end;
  wk_count : stores t ws = updateCount w + (if decide (s_pc w = Count) then 1 else 0);
  wk_done : s_pc w = Done → counts !! t = Some (updateCount w)
}.

Record pool_ok (n : nat) (p : pool) : Prop := {
  po_snaps : length (snaps p) = n;
  po_workers : length (workers p) = n;
  po_counts : length (updateCounts p) = n;
  po_stamp i e : snaps p !! i = Some e →
    stamp e = (if elide && bool_decide (i ∈ (writes p).*1) then 1 else 0);
  po_tids x : x ∈ writes p → (x.1 < n)%nat;
  po_worker t w : workers p !! t = Some w → worker_ok (snaps p) (writes p) (updateCounts p) t w
}.

Lemma pool_stamp_range n p i e : pool_ok n p → snaps p !! i = Some e → 0 ≤ stamp e ≤ 1.
Proof. intros Hok He. rewrite (po_stamp n p Hok i e He). destruct (_ && _); lia. Qed.

Lemma pool_below_self n p : pool_ok n p → below (snaps p) (snaps p).
Proof.
  intros Hok i e He. exists e. split; [done |]. pose proof (pool_stamp_range n p i e Hok He). lia.
Qed.
End snapshot_inv.

(** The loop over the copies: a thread that was seen to move is not seen to
    move again. *)
Lemma compare_from_spec i old new moved :
  length old = length new →
  match compare_from i old new moved with
  | Unchanged => ∀ j o e, old !! j = Some o → new !! j = Some e → stamp o = stamp e
  | Twice s => ∃ j o e, old !! j = Some o ∧ new !! j = Some e ∧ stamp o ≠ stamp e ∧
      moved !! (i + j)%nat = Some true ∧ s = snap o
  | Moved moved' => ∃ j o e, old !! j = Some o ∧ new !! j = Some e ∧ stamp o ≠ stamp e ∧
      moved !! (i + j)%nat ≠ Some true ∧ moved' = <[(i + j)%nat := true]> moved
  end.
Proof.
  revert i new. induction old as [| o old IH]; intros i new Hlen; [done |].
  destruct new as [| e new]; [done |]. cbn [compare_from]. case_bool_decide as Hs.
  - destruct (moved !! i) as [[|] |] eqn:Hm; exists 0%nat, o, e; rewrite Nat.add_0_r; naive_solver.
  - specialize (IH (S i) new ltac:(by injection Hlen)). destruct (compare_from (S i) old new moved).
    + intros [| j] o' e' Ho He; simplify_eq/=; [by destruct (decide (stamp o' = stamp e')) | by eapply IH].
    + destruct IH as (j & o' & e' & IH). exists (S j), o', e'. by rewrite Nat.add_succ_r.
    + destruct IH as (j & o' & e' & IH). exists (S j), o', e'. by rewrite Nat.add_succ_r.
Qed.

Section snapshot_step.
Context (elide : bool) (n : nat).

Notation pool_ok := (pool_ok elide n).

Lemma pool_ok_start c0 : pool_ok (pool_start c0 n).
Proof.
  split; cbn; rewrite ?length_replicate; try done.
  - intros i e [-> _]%lookup_replicate. cbn. by rewrite andb_comm.
  - intros x Hx. by apply not_elem_of_nil in Hx.
  - intros t w [-> _]%lookup_replicate. by split.
Qed.

(** A worker is not affected by what the others do. *)
Lemma worker_ok_other s s' ws ws' counts counts' t w :
  worker_ok s ws counts t w → below s s' → length s' = length s →
  stores t ws' = stores t ws → counts' !! t = counts !! t →
  worker_ok s' ws' counts' t w.
Proof.
  intros [Hc Hn Hd] Hb Hlen Hst Hcount. split.
  - destruct (s_pc w); try done; rewrite ?Hlen.
    + destruct Hc as [? ?]. split; [by eapply below_trans | done].
    + destruct Hc as (?&?&?). split; [by eapply below_trans |]. by split; [eapply below_trans |].
  - by rewrite Hst.
  - intros H. rewrite Hcount. auto.
Qed.

(** A step that only changes the worker. *)
Lemma pool_ok_local p t w w' :
  pool_ok p → workers p !! t = Some w →
  worker_ok (snaps p) (writes p) (updateCounts p) t w' →
  pool_ok (set_workers p (<[t := w']> (workers p))).
Proof.
  intros [H1 H2 H3 H4 H6 H5] Ht Hw. split; cbn; try done; [by rewrite length_insert |].
  intros u uw [(<- & <- & _) | [_ Hu]]%list_lookup_insert_Some; [done | by apply H5].
Qed.

(** A complete copy, compared with the one before. *)
Section complete_copy.
Context (s : list StampedSnap) (old new : list StampedSnap) (moved : list bool).
Context (Hmax : ∀ i e, s !! i = Some e → stamp e ≤ 1).
Context (Ho : below old s) (Hn : below new s) (Hs : since new old).
Context (Hlo : length old = length s) (Hln : length new = length s) (Hlm : length moved = length s).
Context (Hm : ∀ i, moved !! i = Some true → ∃ o, old !! i = Some o ∧ stamp o = 1).

Lemma copies_le j o e : old !! j = Some o → new !! j = Some e → 0 ≤ stamp o ∧ stamp o ≤ stamp e ≤ 1.
Proof.
  intros Hoj Hej. destruct (Hs j e Hej) as (o' & Ho' & ?). simplify_eq.
  destruct (Hn j e Hej) as (c & Hcj & ?). specialize (Hmax j c Hcj).
  destruct (Ho j o Hoj) as (c' & _ & ?). lia.
Qed.

Lemma not_twice sn : compare_from 0 old new moved ≠ Twice sn.
Proof.
  intros He. pose proof (compare_from_spec 0 old new moved ltac:(congruence)) as Hc.
  rewrite He in Hc. destruct Hc as (j & o & e & Hoj & Hej & Hne & Hmj & _).
  destruct (Hm j Hmj) as (o' & Ho' & H1). simplify_eq. pose proof (copies_le j o e Hoj Hej). lia.
Qed.

Lemma after_collect_ok v :
  after_collect v old new moved = ReadOld v (Some (s_value <$> new)) ∨
  ∃ i, moved !! i = Some false ∧ after_collect v old new moved = Second v new [] (<[i := true]> moved) ∧
    ∀ j, <[i := true]> moved !! j = Some true → ∃ o, new !! j = Some o ∧ stamp o = 1.
Proof.
  pose proof not_twice as Hnt. pose proof copies_le as Hle. unfold after_collect.
  pose proof (compare_from_spec 0 old new moved ltac:(congruence)) as Hc.
  destruct (compare_from 0 old new moved) as [| s0 | moved']; [by left | by destruct (Hnt s0) |].
  destruct Hc as (j & o & e & Hoj & Hej & Hne & Hmj & ->). right. exists j. cbn in *.
  pose proof (Hle j o e Hoj Hej) as H1.
  assert (j < length moved)%nat as Hjm by (rewrite Hlm, <- Hlo; by eapply lookup_lt_Some).
  split; [| split; [done |]].
  - destruct (lookup_lt_is_Some_2 moved j Hjm) as [[|] Hb]; done.
  - intros k [(<- & _ & _) | [_ Hk]]%list_lookup_insert_Some; [exists e; split; [done | lia] |].
    destruct (Hm k Hk) as (ok & Hok & Hk1).
    destruct (lookup_lt_is_Some_2 new k) as [ek Hek].
    { rewrite Hln, <- Hlo. by eapply lookup_lt_Some. }
    exists ek. split; [done |]. pose proof (Hle k ok ek Hok Hek). lia.
Qed.
End complete_copy.

Lemma stores_app t u v ws : stores t (ws ++ [(u, v)]) = stores t ws + (if decide (u = t) then 1 else 0).
Proof.
  unfold stores. rewrite filter_app, length_app, filter_cons, filter_nil. cbn.
  destruct (decide (u = t)); cbn; lia.
Qed.

(** Storing an entry. *)
Lemma pool_ok_store p t w v sn o :
  pool_ok p → workers p !! t = Some w → s_pc w = WriteNew v sn o →
  pool_ok (mkPool (<[t := new_entry elide v sn o]> (snaps p)) (exit_flag p)
             (<[t := to Count w]> (workers p)) (updateCounts p) (writes p ++ [(t, v)])).
Proof.
  intros Hok Ht Hpc. pose proof Hok as [H1 H2 H3 H4 H6 H5].
  destruct (H5 t w Ht) as [Hcopy Hcount Hdone]. rewrite Hpc in Hcopy, Hcount.
  assert (stamp (new_entry elide v sn o) = if elide then 1 else 0) as Hstamp.
  { unfold new_entry. destruct elide; [cbn; lia | done]. }
  assert (below (snaps p) (<[t := new_entry elide v sn o]> (snaps p))) as Hb.
  { intros i e He. pose proof (pool_stamp_range elide n p i e Hok He) as Hr.
    destruct (decide (i = t)) as [-> | Hne].
    - exists (new_entry elide v sn o). rewrite list_lookup_insert_eq by (by eapply lookup_lt_Some).
      split; [done |]. rewrite Hstamp, (H4 t e He). destruct elide; cbn [andb]; [destruct (bool_decide _); lia | lia].
    - exists e. rewrite list_lookup_insert_ne by done. split; [done | lia]. }
  split; cbn; rewrite ?length_insert; try done.
  - intros i e [(<- & <- & _) | [Hne He]]%list_lookup_insert_Some; rewrite fmap_app; cbn.
    + rewrite Hstamp, bool_decide_true by set_solver. by destruct elide.
    + rewrite (H4 i e He). destruct elide; [cbn | done].
      destruct (bool_decide_reflect (i ∈ (writes p).*1)) as [Hi | Hi].
      * by rewrite bool_decide_true by set_solver.
      * by rewrite bool_decide_false by set_solver.
  - intros x [Hx | ->%list_elem_of_singleton]%elem_of_app; [by apply H6 |].
    cbn. rewrite <- H2. by eapply lookup_lt_Some.
  - intros u uw [(<- & <- & _) | [Hne Hu]]%list_lookup_insert_Some.
    + split; cbn; [done | | done]. rewrite stores_app, Hcount.
      rewrite (decide_False (P := WriteNew v sn o = Count)) by done. rewrite !decide_True by done. lia.
    + eapply worker_ok_other; [by apply H5 | done | by rewrite length_insert | | done].
      rewrite stores_app, decide_False by done. lia.
Qed.

Lemma pool_ok_save p t w :
  pool_ok p → workers p !! t = Some w → s_pc w = Save →
  pool_ok (mkPool (snaps p) (exit_flag p) (<[t := to Done w]> (workers p))
             (<[t := updateCount w]> (updateCounts p)) (writes p)).
Proof.
  intros Hok Ht Hpc. pose proof Hok as [H1 H2 H3 H4 H6 H5].
  destruct (H5 t w Ht) as [_ Hcount _]. rewrite Hpc in Hcount.
  assert (t < length (updateCounts p))%nat as Hlt by (rewrite H3, <- H2; by eapply lookup_lt_Some).
  split; cbn; rewrite ?length_insert; try done.
  intros u uw [(<- & <- & _) | [Hne Hu]]%list_lookup_insert_Some.
  - split; cbn; [done | done |]. intros _. by apply list_lookup_insert_eq.
  - eapply worker_ok_other; [by apply H5 | by eapply pool_below_self | done | done |].
    by rewrite list_lookup_insert_ne.
Qed.

(** The steps that touch nothing but the worker. *)
Lemma work_step_local p t v w w' :
  pool_ok p → workers p !! t = Some w → work_step elide t v w p = Ret (Some (w', p)) →
  (∀ v sn o, s_pc w ≠ WriteNew v sn o) → s_pc w ≠ Save →
  worker_ok (snaps p) (writes p) (updateCounts p) t w'.
Proof.
  intros Hok Ht. pose proof Hok as [H1 H2 H3 H4 H6 H5]. destruct (H5 t w Ht) as [Hcopy Hcount Hdone].
  assert (0 < length (snaps p))%nat as Hpos.
  { apply lookup_lt_Some in Ht. lia. }
  assert (∀ i e, snaps p !! i = Some e → 0 ≤ stamp e ≤ 1) as Hr
    by (intros i e; by apply (pool_stamp_range elide n p)).
  unfold work_step. destruct (s_pc w) as [| v0 copy | v0 old copy moved | v0 sn | v0 sn o | | |] eqn:Hpc;
    intros H Hnw Hns; try (by destruct (Hnw v0 sn o)); try done.
  - injection H as <-. split; cbn; [| | by destruct (exit_flag p)].
    + destruct (exit_flag p); [done |]. split; [intros i e Hi; by destruct i | done].
    + by destruct (exit_flag p).
  - apply bind_Ret_inv in H as (e & He%at_inv & [= <-]). destruct Hcopy as [Hb Hlt].
    assert (below (copy ++ [e]) (snaps p)) as Hb' by (apply below_snoc; [done | done | by apply (Hr _ _ He)]).
    case_bool_decide as Hfull; split; cbn; try done.
    + rewrite length_replicate. split; [done |]. split; [intros i x Hi; by destruct i |].
      split; [intros i x Hi; by destruct i |]. repeat split; try done.
      intros i Hi. by apply lookup_replicate in Hi as [? _].
    + split; [done |]. rewrite length_app in *. simpl in *. lia.
  - apply bind_Ret_inv in H as (e & He%at_inv & [= <-]). destruct Hcopy as (Ho & Hb & Hs & Hl1 & Hl2 & Hl3 & Hm).
    assert (below (copy ++ [e]) (snaps p)) as Hb' by (apply below_snoc; [done | done | by apply (Hr _ _ He)]).
    assert (since (copy ++ [e]) old) as Hs' by (by eapply since_snoc).
    case_bool_decide as Hfull.
    + destruct (after_collect_ok (snaps p) old (copy ++ [e]) moved) with (v := v0) as [-> | (i & Hi & -> & Hmi)];
        try done; [intros i x Hx; by apply (Hr i) |].
      split; cbn; try done. split; [done |]. split; [intros j x Hj; by destruct j |].
      split; [intros j x Hj; by destruct j |]. by rewrite length_insert.
    + split; cbn; try done. repeat split; try done. rewrite length_app in *. simpl in *. lia.
  - apply bind_Ret_inv in H as (e & He%at_inv & [= <-]). by split.
  - apply bind_Ret_inv in H as (c & [-> _]%int_op_inv & [= <-]). split; cbn; [done | | done].
    rewrite Hcount, decide_True, decide_False by done. lia.
Qed.
End snapshot_step.

Section snapshot_reachable.
Context (elide : bool) (n : nat).

Lemma work_step_pool p t v w w' p' :
  work_step elide t v w p = Ret (Some (w', p')) →
  (∃ v0 sn o, s_pc w = WriteNew v0 sn o ∧ w' = to Count w ∧
     p' = mkPool (<[t := new_entry elide v0 sn o]> (snaps p)) (exit_flag p) (workers p)
            (updateCounts p) (writes p ++ [(t, v0)])) ∨
  (s_pc w = Save ∧ w' = to Done w ∧
     p' = mkPool (snaps p) (exit_flag p) (workers p) (<[t := updateCount w]> (updateCounts p)) (writes p)) ∨
  (p' = p ∧ (∀ v sn o, s_pc w ≠ WriteNew v sn o) ∧ s_pc w ≠ Save).
Proof.
  unfold work_step. destruct (s_pc w) as [| v0 copy | v0 old copy moved | v0 sn | v0 sn o | | |]; intros H;
    try done; try (apply bind_Ret_inv in H as (e & He & [= <- <-])); try (injection H as <- <-);
    try (by right; right).
  - left. apply update_inv in He as (x & _ & ->). eauto 10.
  - right; left. apply update_inv in He as (x & _ & ->). eauto.
Qed.

Lemma pool_ok_step p p' : pool_ok elide n p → pstep elide p p' → pool_ok elide n p'.
Proof.
  intros Hok Hs. destruct Hs as [[t |] v p p' Hs]; cbn [pool_step] in Hs.
  2:{ injection Hs as <-. by destruct Hok. }
  destruct (workers p !! t) as [w |] eqn:Ht; [| done].
  apply bind_Ret_inv in Hs as ([[w' p1] |] & Hs & H); [| done]. injection H as <-.
  destruct (work_step_pool _ _ _ _ _ _ Hs) as
    [(v0 & sn & o & Hpc & -> & ->) | [(Hpc & -> & ->) | (-> & Hnw & Hns)]].
  - unfold set_workers. cbn. by eapply pool_ok_store.
  - unfold set_workers. cbn. by eapply pool_ok_save.
  - apply (pool_ok_local _ _ _ _ w); [done | done |]. by eapply work_step_local.
Qed.

Lemma pool_reachable_ok c0 p : rtc (pstep elide) (pool_start c0 n) p → pool_ok elide n p.
Proof.
  apply rtc_ind_r with (P := λ p, pool_ok elide n p); [apply pool_ok_start |].
  intros p1 p2 _ Hs Hok. by eapply pool_ok_step.
Qed.
End snapshot_reachable.

(** ** Theorems *)

(** The stamps do not count the updates: in every reachable state the stamp
    of an entry is 1 if its thread has updated it at all (0 if the compiler
    does not elide the copy) and 0 otherwise, and so a scan never finds that a
    thread moved twice. *)
Theorem stamps_do_not_grow elide n c0 p :
  rtc (pstep elide) (pool_start c0 n) p →
  (∀ i e, snaps p !! i = Some e →
     stamp e = if elide && bool_decide (i ∈ (writes p).*1) then 1 else 0) ∧
  (∀ t w v old copy moved e s, workers p !! t = Some w → s_pc w = Second v old copy moved →
     snaps p !! length copy = Some e → length (copy ++ [e]) = n →
     compare_from 0 old (copy ++ [e]) moved ≠ Twice s).
Proof.
  intros Hok%(pool_reachable_ok elide n). split; [apply (po_stamp _ _ _ Hok) |].
  intros t w v old copy moved e s Ht Hpc He Hlen Htw.
  destruct (po_worker _ _ _ Hok t w Ht) as [Hcopy _ _]. rewrite Hpc in Hcopy.
  destruct Hcopy as (Ho & Hb & Hs & Hl1 & Hl2 & Hl3 & Hm).
  pose proof (λ i e, pool_stamp_range elide n p i e Hok) as Hr.
  revert Htw. apply (not_twice (snaps p)); try done.
  - intros i x Hx. by apply (Hr i).
  - apply below_snoc; [done | done | by apply (Hr _ _ He)].
  - by eapply since_snoc.
  - rewrite Hlen. by rewrite (po_snaps _ _ _ Hok).
Qed.

(** ** The number of steps of a scan *)

Definition unmoved (moved : list bool) : nat := length (filter (λ b, b = false) moved).

(** Reads of shared entries a scan has left at most. *)
Definition scan_left (n : nat) (w : worker) : nat :=
  match s_pc w with
  | First _ copy => (n - length copy) + (n * n + n)
  | Second _ _ copy moved => unmoved moved * n + (n - length copy)
  | _ => 0
  end.

Definition scanning (w : worker) (v : Z) : Prop :=
  (∃ copy, s_pc w = First v copy) ∨ (∃ old copy moved, s_pc w = Second v old copy moved).

Lemma unmoved_cons b moved : unmoved (b :: moved) = ((if b then 0 else 1) + unmoved moved)%nat.
Proof. unfold unmoved. rewrite filter_cons. by destruct b. Qed.

Lemma unmoved_insert moved i : moved !! i = Some false → S (unmoved (<[i := true]> moved)) = unmoved moved.
Proof.
  revert i. induction moved as [| b moved IH]; intros [| i] Hi; cbn in Hi; simplify_eq.
  - change (<[0%nat := true]> (false :: moved)) with (true :: moved). by rewrite !unmoved_cons.
  - change (<[S i := true]> (b :: moved)) with (b :: <[i := true]> moved).
    rewrite !unmoved_cons, <- (IH i Hi). lia.
Qed.

Lemma unmoved_replicate n : unmoved (replicate n false) = n.
Proof. induction n as [| n IH]; [done |]. cbn [replicate]. by rewrite unmoved_cons, IH. Qed.

(** A scanning thread can always take a step, and each one brings it nearer to
    the end of the scan, where it has a result. *)
Lemma scan_step elide n p t w v x :
  pool_ok elide n p → workers p !! t = Some w → scanning w v →
  ∃ w', work_step elide t x w p = Ret (Some (w', p)) ∧
    ((scanning w' v ∧ (scan_left n w' < scan_left n w)%nat) ∨ ∃ s, s_pc w' = ReadOld v s).
Proof.
  intros Hok Ht Hsc. pose proof Hok as [H1 H2 H3 H4 H6 H5].
  destruct (H5 t w Ht) as [Hcopy _ _]. unfold scan_left, work_step.
  assert (∀ i e, snaps p !! i = Some e → 0 ≤ stamp e ≤ 1) as Hr
    by (intros i e; by apply (pool_stamp_range elide n p)).
  destruct Hsc as [(copy & Hpc) | (old & copy & moved & Hpc)]; rewrite Hpc in Hcopy |- *.
  - destruct Hcopy as [Hb Hlt]. destruct (lookup_lt_is_Some_2 _ _ Hlt) as [e He].
    rewrite (at_lookup _ _ _ He). obind. eexists. split; [done |]. left. cbn [s_pc to]. rewrite H1 in *.
    rewrite length_app. case_bool_decide as Hfull; cbn [length] in *.
    + split; [right; eauto |]. rewrite unmoved_replicate. cbn. nia.
    + split; [left; eauto |]. rewrite length_app. cbn. lia.
  - destruct Hcopy as (Ho & Hb & Hs & Hl1 & Hl2 & Hl3 & Hm).
    destruct (lookup_lt_is_Some_2 _ _ Hl2) as [e He].
    rewrite (at_lookup _ _ _ He). obind. eexists. split; [done |]. cbn [s_pc to]. rewrite H1 in *.
    case_bool_decide as Hfull.
    + destruct (after_collect_ok (snaps p) old (copy ++ [e]) moved) with (v := v)
        as [-> | (i & Hi & -> & _)]; try done; rewrite ?H1; try done.
      * intros i y Hy. by apply (Hr i).
      * apply below_snoc; [done | done | by apply (Hr _ _ He)].
      * eapply since_snoc; [done | done | by rewrite H1 | done].
      * right. by eauto.
      * left. split; [right; by eauto |]. pose proof (unmoved_insert moved i Hi).
        rewrite length_app in Hfull. cbn in *. nia.
    + left. split; [right; by eauto |]. rewrite length_app in *. cbn in *. lia.
Qed.

(** A step of anyone but thread [t]. *)
Inductive others (elide : bool) (t : nat) : pool → pool → Prop :=
| others_intro who x p p' : who ≠ Some t → pool_step elide who x p = Ret (Some p') → others elide t p p'.

(** Thread [t] has the result of its scan. *)
Definition scanned (t : nat) (v : Z) (p : pool) : Prop :=
  ∃ w s, workers p !! t = Some w ∧ s_pc w = ReadOld v s.

(** Thread [t] needs at most [k] steps to have its result: it has it already, or
    whatever the others do first, it can take a step, after which it needs at
    most [k - 1]. *)
Fixpoint within (elide : bool) (t : nat) (v : Z) (k : nat) (p : pool) : Prop :=
  scanned t v p ∨
  match k with
  | O => False
  | S k =>
      ∀ p1, rtc (others elide t) p p1 →
        ∀ x, ∃ p2, pool_step elide (Some t) x p1 = Ret (Some p2) ∧ within elide t v k p2
  end.

Lemma pool_step_other elide t who x p p1 :
  pool_step elide who x p = Ret (Some p1) → who ≠ Some t → workers p1 !! t = workers p !! t.
Proof.
  destruct who as [u |]; cbn [pool_step]; intros Hs Hne; [| by injection Hs as <-].
  destruct (workers p !! u) as [w |]; [| done].
  apply bind_Ret_inv in Hs as ([[w' p2] |] & Hs & H); [| done]. injection H as <-.
  apply work_step_pool in Hs as [(?&?&?&_&_&->) | [(_&_&->) | (->&_)]]; cbn;
    apply list_lookup_insert_ne; congruence.
Qed.

Lemma scan_left_pos elide n p t w v :
  pool_ok elide n p → workers p !! t = Some w → scanning w v → (0 < scan_left n w)%nat.
Proof.
  intros Hok Ht Hsc. destruct (po_worker _ _ _ Hok t w Ht) as [Hc _ _]. unfold scan_left.
  pose proof (po_snaps _ _ _ Hok).
  destruct Hsc as [(copy & Hpc) | (old & copy & moved & Hpc)]; rewrite Hpc in Hc |- *; lia.
Qed.

Lemma others_leave elide n t p p1 :
  rtc (others elide t) p p1 → pool_ok elide n p → pool_ok elide n p1 ∧ workers p1 !! t = workers p !! t.
Proof.
  induction 1 as [p | p p1 p2 [who x q q' Hne Hs] _ IH]; [done |]. intros Hok.
  destruct IH as [Hok2 Hw2]; [eapply pool_ok_step; [done |]; by econstructor |].
  split; [done |]. by rewrite Hw2, (pool_step_other _ t _ _ _ _ Hs Hne).
Qed.

Lemma scan_ends elide n t v k p w :
  pool_ok elide n p → workers p !! t = Some w → scanning w v → (scan_left n w ≤ k)%nat → within elide t v k p.
Proof.
  revert p w. induction k as [| k IH]; intros p w Hok Ht Hsc Hle;
    pose proof (scan_left_pos elide n p t w v Hok Ht Hsc) as Hpos; [lia |].
  right. intros p1 Hothers x. destruct (others_leave elide n t p p1 Hothers Hok) as [Hok1 Hw1]. rewrite Ht in Hw1.
  destruct (scan_step elide n p1 t w v x Hok1 Hw1 Hsc) as (w' & Hw & Hcase).
  set (p2 := set_workers p1 (<[t := w']> (workers p1))).
  assert (pool_step elide (Some t) x p1 = Ret (Some p2)) as Hstep by (cbn [pool_step]; by rewrite Hw1, Hw).
  assert (workers p2 !! t = Some w') as Hw2 by (cbn; apply list_lookup_insert_eq; by eapply lookup_lt_Some).
  exists p2. split; [done |]. destruct Hcase as [[Hsc' Hlt] | [s Hs]].
  - eapply IH; [| done | done | lia]. eapply pool_ok_step; [exact Hok1 |]. by econstructor.
  - destruct k; left; by exists w', s.
Qed.

(** C22: The scan is wait-free: a thread that starts a scan can always take its
    next step, however far the other threads have gone meanwhile, and has its
    result after at most n(n + 2) steps of its own, each of which reads one entry,
    where n is the number of threads. *)
Theorem scan_wait_free elide n c0 p t w v :
  rtc (pstep elide) (pool_start c0 n) p → workers p !! t = Some w → s_pc w = First v [] →
  within elide t v (n * (n + 2)) p.
Proof.
  intros Hok%pool_reachable_ok Ht Hpc. eapply (scan_ends elide n); [done | done | by left; eauto |].
  unfold scan_left. rewrite Hpc. cbn. lia.
Qed.

Definition one_scan : pool :=
  match run_pool true [(Some 0%nat, 5)] (pool_start 0 2) with Ret (Some p) => p | _ => pool_start 0 2 end.

Lemma run_pool_steps elide sched p p' : run_pool elide sched p = Ret (Some p') → rtc (pstep elide) p p'.
Proof.
  revert p. induction sched as [| [who v] sched IH]; intros p; cbn [run_pool]; [by intros [= ->] |].
  intros ([p1 |] & H1 & H2)%bind_Ret_inv; [| done]. eapply rtc_l; [by econstructor | by apply IH].
Qed.

Lemma scan_wait_free_witness : workers one_scan !! 0%nat = Some (mkWorker (First 5 []) 0) ∧ within true 0 5 8 one_scan.
Proof.
  split; [reflexivity |]. eapply (scan_wait_free true 2 0 one_scan 0 (mkWorker (First 5 []) 0) 5).
  - apply (run_pool_steps true [(Some 0%nat, 5)]). vm_compute. reflexivity.
  - reflexivity.
  - reflexivity.
Defined.

(** ** What a scan returns *)

(** The pools an execution goes through, the last one first. *)
Inductive pexec (elide : bool) (p0 : pool) : list pool → pool → Prop :=
| pexec_start : pexec elide p0 [p0] p0
| pexec_step tr p p' : pexec elide p0 tr p → pstep elide p p' → pexec elide p0 (p' :: tr) p'.

(** Entry [i] had value [x] at some moment of [tr]. *)
Definition held_value (tr : list pool) (i : nat) (x : Z) : Prop :=
  ∃ q, q ∈ tr ∧ s_value <$> snaps q !! i = Some x.

Definition fresh (n : nat) (tr : list pool) (w : worker) : Prop :=
  match s_pc w with
  | First _ copy | Second _ _ copy _ => ∀ i e, copy !! i = Some e → held_value tr i (s_value e)
  | ReadOld _ s => ∃ vals, s = Some vals ∧ length vals = n ∧ ∀ i x, vals !! i = Some x → held_value tr i x
  | _ => True
  end.

Lemma held_value_cons tr p i x : held_value tr i x → held_value (p :: tr) i x.
Proof. intros (q & Hq & Hx). exists q. split; [by right | done]. Qed.

Lemma fresh_cons n tr p w : fresh n tr w → fresh n (p :: tr) w.
Proof. unfold fresh. destruct (s_pc w); naive_solver eauto using held_value_cons. Qed.

(** Reading the next entry. *)
Lemma held_snoc tr p copy e :
  p ∈ tr → snaps p !! length copy = Some e →
  (∀ i e, copy !! i = Some e → held_value tr i (s_value e)) →
  ∀ i e', (copy ++ [e]) !! i = Some e' → held_value tr i (s_value e').
Proof.
  intros Hp He Hc i e' Hi. apply lookup_app_Some in Hi as [Hi | [Hge Hi]]; [by apply Hc |].
  apply list_lookup_singleton_Some in Hi as [Hi <-]. assert (i = length copy) as -> by lia.
  exists p. split; [done |]. by rewrite He.
Qed.

Lemma fresh_step elide n tr p t v w w' p' :
  pool_ok elide n p → workers p !! t = Some w → p ∈ tr →
  work_step elide t v w p = Ret (Some (w', p')) → fresh n tr w → fresh n tr w'.
Proof.
  intros Hok Ht Hp Hs Hf. unfold work_step in Hs. unfold fresh in *.
  pose proof (po_snaps _ _ _ Hok) as H1. pose proof (po_worker _ _ _ Hok t w Ht) as [Hcopy _ _].
  assert (∀ i e, snaps p !! i = Some e → 0 ≤ stamp e ≤ 1) as Hr
    by (intros i e; by apply (pool_stamp_range elide n p)).
  destruct (s_pc w) as [| v0 copy | v0 old copy moved | v0 sn | v0 sn o | | |]; try done.
  - injection Hs as <- <-. cbn. destruct (exit_flag p); [done |]. intros i e Hi. by destruct i.
  - apply bind_Ret_inv in Hs as (e & He%at_inv & [= <- <-]). cbn.
    case_bool_decide; [intros i x Hi; by destruct i |]. by eapply held_snoc.
  - apply bind_Ret_inv in Hs as (e & He%at_inv & [= <- <-]). cbn.
    pose proof (held_snoc tr p copy e Hp He Hf) as Hnew.
    destruct Hcopy as (Ho & Hb & Hsi & Hl1 & Hl2 & Hl3 & Hm).
    case_bool_decide as Hfull; [| done].
    destruct (after_collect_ok (snaps p) old (copy ++ [e]) moved) with (v := v0)
      as [-> | (i & Hi & -> & _)]; try done.
    + intros i y Hy. by apply (Hr i).
    + apply below_snoc; [done | done | by apply (Hr _ _ He)].
    + by eapply since_snoc.
    + eexists. split; [done |]. split; [rewrite length_fmap; congruence |].
      intros i x Hi. rewrite list_lookup_fmap in Hi.
      destruct ((copy ++ [e]) !! i) as [e' |] eqn:He'; [| done]. injection Hi as <-. by apply Hnew.
  - by apply bind_Ret_inv in Hs as (e & He%at_inv & [= <- <-]).
  - by apply bind_Ret_inv in Hs as (e & He & [= <- <-]).
  - by apply bind_Ret_inv in Hs as (e & He & [= <- <-]).
  - by apply bind_Ret_inv in Hs as (e & He & [= <- <-]).
Qed.

(** What a scan returns: a vector with one value per thread, and every
    value was in its entry at some moment between the start and the end of the
    scan. *)
Theorem scan_values_are_current elide n c0 p0 t w0 v tr p w v' s :
  rtc (pstep elide) (pool_start c0 n) p0 → workers p0 !! t = Some w0 → s_pc w0 = First v [] →
  pexec elide p0 tr p → workers p !! t = Some w → s_pc w = ReadOld v' s →
  ∃ vals, s = Some vals ∧ length vals = n ∧ ∀ i x, vals !! i = Some x → held_value tr i x.
Proof.
  intros Hreach Hw0 Hpc0 Hex Hw Hpc.
  assert (pool_ok elide n p ∧ p ∈ tr ∧ ∀ w, workers p !! t = Some w → fresh n tr w) as (_ & _ & Hf).
  { clear Hw Hpc w. induction Hex as [| tr p p' Hex (Hok & Hin & IH) Hstep].
    - split; [by eapply pool_reachable_ok |]. split; [by left |].
      intros w Hw. simplify_eq. unfold fresh. rewrite Hpc0. intros i e Hi. by destruct i.
    - split; [by eapply pool_ok_step |]. split; [by left |]. intros w Hw. apply fresh_cons.
      destruct Hstep as [who x p p' Hstep]. destruct (decide (who = Some t)) as [-> | Hne].
      + cbn [pool_step] in Hstep. destruct (workers p !! t) as [w1 |] eqn:Ht; [| done].
        apply bind_Ret_inv in Hstep as ([[w' p2] |] & Hs & H); [| done]. injection H as <-. cbn in Hw.
        assert (w = w') as ->.
        { apply list_lookup_insert_Some in Hw as [(_ & <- & _) | [? _]]; done. }
        eapply fresh_step; [done | done | done | done | by apply IH].
      + apply IH. by rewrite <- (pool_step_other _ _ _ _ _ _ Hstep Hne). }
  specialize (Hf w Hw). unfold fresh in Hf. by rewrite Hpc in Hf.
Qed.

(** The pools a schedule goes through, the last one first. *)
Fixpoint visited (elide : bool) (sched : list (option nat * Z)) (p : pool) (tr : list pool) : list pool :=
  match sched with
  | [] => tr
  | (who, v) :: sched =>
      match pool_step elide who v p with
      | Ret (Some p) => visited elide sched p (p :: tr)
      | _ => tr
      end
  end.

Lemma visited_exec elide sched p0 tr p p' :
  pexec elide p0 tr p → run_pool elide sched p = Ret (Some p') →
  pexec elide p0 (visited elide sched p tr) p'.
Proof.
  revert tr p. induction sched as [| [who v] sched IH]; intros tr p Hex; cbn [run_pool visited].
  - by intros [= <-].
  - destruct (pool_step elide who v p) as [[p1 |] | |] eqn:Hs; obind; try done.
    apply IH. eapply pexec_step; [done |]. by econstructor.
Qed.

Lemma scan_values_are_current_witness :
  ∃ p w vals tr, run_pool true [(Some 0%nat, 0); (Some 0%nat, 0); (Some 0%nat, 0); (Some 0%nat, 0)] one_scan = Ret (Some p) ∧
    workers p !! 0%nat = Some w ∧ s_pc w = ReadOld 5 (Some vals) ∧
    ∀ i x, vals !! i = Some x → held_value tr i x.
Proof.
  eexists _, _, _, _. split; [vm_compute; reflexivity |]. split; [reflexivity |]. split; [reflexivity |].
  edestruct (scan_values_are_current true 2 0 one_scan 0 (mkWorker (First 5 []) 0) 5) as (vals & Hv & _ & H).
  - apply (run_pool_steps true [(Some 0%nat, 5)]). vm_compute. reflexivity.
  - reflexivity.
  - reflexivity.
  - eapply (visited_exec true [(Some 0%nat, 0); (Some 0%nat, 0); (Some 0%nat, 0); (Some 0%nat, 0)] one_scan);
      [apply pexec_start | vm_compute; reflexivity].
  - reflexivity.
  - reflexivity.
  - injection Hv as <-. exact H.
Defined.

(** ** The scan is not atomic *)

Definition steps (k : nat) (t : nat) (v : Z) : list (option nat * Z) := replicate k (Some t, v).

(** Threads 1 and 2 update once and get ready to store again; thread 0 starts a
    scan. *)
Definition before_scan : list (option nat * Z) :=
  steps 10 1 11 ++ steps 10 2 21 ++ steps 8 1 12 ++ steps 8 2 22 ++ steps 1 0 1.

(** Both store between two reads of the second copy of thread 0. *)
Definition during_scan : list (option nat * Z) :=
  steps 5 0 0 ++ steps 1 1 0 ++ steps 1 2 0 ++ steps 1 0 0.

Definition pool_after (sched : list (option nat * Z)) (p : pool) : pool :=
  match run_pool true sched p with Ret (Some p) => p | _ => p end.

(** C24: The scan is not a snapshot: with three threads there is an execution in
    which a scan returns a vector that was not the content of the table at any
    moment from its start to its end. *)
Theorem scan_not_atomic :
  ∃ p0 tr p w0 w v vals,
    rtc (pstep true) (pool_start 0 3) p0 ∧ workers p0 !! 0%nat = Some w0 ∧ s_pc w0 = First v [] ∧
    pexec true p0 tr p ∧ workers p !! 0%nat = Some w ∧ s_pc w = ReadOld v (Some vals) ∧
    Forall (λ q, s_value <$> snaps q ≠ vals) tr.
Proof.
  exists (pool_after before_scan (pool_start 0 3)).
  exists (visited true during_scan (pool_after before_scan (pool_start 0 3))
            [pool_after before_scan (pool_start 0 3)]).
  exists (pool_after during_scan (pool_after before_scan (pool_start 0 3))).
  eexists _, _, _, _. split; [apply (run_pool_steps true before_scan); vm_compute; reflexivity |].
  split; [vm_compute; reflexivity |]. split; [reflexivity |].
  split; [eapply visited_exec; [apply pexec_start | vm_compute; reflexivity] |].
  split; [vm_compute; reflexivity |]. split; [reflexivity |].
  eapply bool_decide_unpack. vm_compute. exact I.
Qed.

(** ** The count *)

Lemma stores_cons t x ws : stores t (x :: ws) = (if decide (x.1 = t) then 1 else 0) + stores t ws.
Proof. unfold stores. rewrite filter_cons. destruct (decide (x.1 = t)); cbn [length]; lia. Qed.

Lemma stores_nonneg t ws : 0 ≤ stores t ws.
Proof. unfold stores. lia. Qed.

Definition sumZ (l : list Z) : Z := foldr Z.add 0 l.

Lemma sum_indicator k n : sumZ ((λ t, if decide (k = t) then 1 else 0) <$> seq 0 n) = if decide (k < n)%nat then 1 else 0.
Proof.
  assert (∀ m, sumZ ((λ t, if decide (k = t) then 1 else 0) <$> seq m n) =
    if decide (m ≤ k < m + n)%nat then 1 else 0) as H.
  { induction n as [| n IH]; intros m; [by rewrite decide_False by lia |].
    cbn [seq fmap list_fmap sumZ foldr]. fold (sumZ ((λ t, if decide (k = t) then 1 else 0) <$> seq (S m) n)).
    rewrite (IH (S m)). destruct (decide (k = m)) as [-> | Hne].
    - rewrite decide_False by lia. by rewrite decide_True by lia.
    - destruct (decide (S m ≤ k < S m + n)%nat).
      + by rewrite decide_True by lia.
      + by rewrite decide_False by lia. }
  rewrite H. destruct (decide (k < n)%nat); [by rewrite decide_True by lia | by rewrite decide_False by lia].
Qed.

Lemma sumZ_add {A} (f g : A → Z) l : sumZ ((λ x, f x + g x) <$> l) = sumZ (f <$> l) + sumZ (g <$> l).
Proof. induction l as [| x l IH]; cbn; [done |]. unfold sumZ in *. lia. Qed.

Lemma sum_stores n ws : (∀ x, x ∈ ws → (x.1 < n)%nat) → sumZ ((λ t, stores t ws) <$> seq 0 n) = Z.of_nat (length ws).
Proof.
  induction ws as [| x ws IH]; intros H.
  - assert (∀ l : list nat, sumZ ((λ t, stores t []) <$> l) = 0) as H0; [| by rewrite H0].
    induction l as [| k l IHl]; [done |]. exact IHl.
  - rewrite (list_fmap_ext _ (λ t, (if decide (x.1 = t) then 1 else 0) + stores t ws)).
    + rewrite sumZ_add, sum_indicator, IH by (intros y Hy; apply H; by right).
      rewrite decide_True by (apply H; by left). cbn [length]. lia.
    + intros i t _. apply stores_cons.
Qed.

Lemma sum_counts_ok counts acc :
  Forall (λ c, 0 ≤ c) counts → 0 ≤ acc → acc + sumZ counts ≤ int_max → sum_counts counts acc = Ret (acc + sumZ counts).
Proof.
  revert acc. induction counts as [| c counts IH]; intros acc Hc Ha Hm; cbn; [by rewrite Z.add_0_r |].
  apply Forall_cons in Hc as [Hc0 Hc]. cbn in Hm. fold (sumZ counts) in *.
  assert (0 ≤ sumZ counts) as Hs by (clear - Hc; induction Hc; cbn; [lia |]; fold (sumZ l); unfold sumZ in *; lia).
  rewrite int_op_Ret by (unfold in_int, int_min; lia). obind. rewrite IH by (done || lia). f_equal. lia.
Qed.

(** When all workers have returned, [run] returns the number of updates:
    the stores made into the table by all threads together. *)
Theorem run_counts_updates elide n c0 p :
  rtc (pstep elide) (pool_start c0 n) p →
  (∀ t w, workers p !! t = Some w → s_pc w = Done) →
  Z.of_nat (length (writes p)) ≤ int_max →
  pool_run_result p = Ret (Z.of_nat (length (writes p))).
Proof.
  intros Hok%(pool_reachable_ok elide n) Hdone Hmax.
  assert (updateCounts p = (λ t, stores t (writes p)) <$> seq 0 n) as Hcounts.
  { apply list_eq_same_length with (n := n); [by rewrite length_fmap, length_seq | apply (po_counts _ _ _ Hok) |].
    intros t x y Hlt Hx. rewrite list_lookup_fmap, lookup_seq_lt by done. intros [= <-].
    destruct (lookup_lt_is_Some_2 (workers p) t) as [w Hw]; [by rewrite (po_workers _ _ _ Hok) |].
    destruct (po_worker _ _ _ Hok t w Hw) as [_ Hc Hd]. rewrite (Hd (Hdone t w Hw)) in Hx.
    rewrite Hc, decide_False by (by rewrite (Hdone t w Hw)). injection Hx as <-. cbn. lia. }
  pose proof (sum_stores n (writes p) (po_tids _ _ _ Hok)) as Hsum. rewrite <- Hcounts in Hsum.
  unfold pool_run_result. rewrite sum_counts_ok; [by rewrite Hsum | | lia | lia].
  rewrite Hcounts. apply Forall_forall. intros c (t & -> & _)%list_elem_of_fmap. apply stores_nonneg.
Qed.

(** Two threads, one update each. *)
Definition whole_run : list (option nat * Z) :=
  steps 8 0 3 ++ steps 8 1 4 ++ [(None, 0)] ++ steps 2 0 0 ++ steps 2 1 0.

Lemma run_counts_updates_witness :
  writes (pool_after whole_run (pool_start 17 2)) = [(0%nat, 3); (1%nat, 4)] ∧
  pool_run_result (pool_after whole_run (pool_start 17 2)) =
    Ret (Z.of_nat (length (writes (pool_after whole_run (pool_start 17 2))))).
Proof.
  split; [vm_compute; reflexivity |]. apply (run_counts_updates true 2 17).
  - apply (run_pool_steps true whole_run). vm_compute. reflexivity.
  - intros t w Ht. assert (s_pc <$> workers (pool_after whole_run (pool_start 17 2)) = [Done; Done]) as H
      by (vm_compute; reflexivity).
    assert ([Done; Done] !! t = Some (s_pc w)) as Hpc by (rewrite <- H, list_lookup_fmap, Ht; reflexivity).
    clear - Hpc. destruct t as [| [| t]]; cbn in Hpc; [congruence | congruence | done].
  - vm_compute. discriminate.
Defined.

Lemma stamps_do_not_grow_witness :
  length (snaps (pool_after before_scan (pool_start 0 3))) = 3%nat ∧
  ∀ i e, snaps (pool_after before_scan (pool_start 0 3)) !! i = Some e →
    stamp e = if true && bool_decide (i ∈ (writes (pool_after before_scan (pool_start 0 3))).*1) then 1 else 0.
Proof.
  split; [vm_compute; reflexivity |]. apply (stamps_do_not_grow true 3 0). apply (run_pool_steps true before_scan). vm_compute. reflexivity.
Defined.
