(* ===== verification/Text.v ===== *)
(** * Decimal text

    Characters, decimal numbers and the conversions of [scanf] the programs
    use to read their input files, with the printed form they read back. *)

From S2P Require Import Prelude.

Definition is_space (c : Z) : bool := bool_decide (c = 32 ∨ 9 ≤ c ≤ 13).
Definition is_digit (c : Z) : bool := bool_decide (48 ≤ c ≤ 57).

(** White space in a format. *)
Fixpoint skip_ws (s : str) : str :=
  match s with
  | c :: s' => if is_space c then skip_ws s' else s
  | [] => []
  end.

Fixpoint scan_digits (acc : Z) (s : str) : Z * str :=
  match s with
  | c :: s' => if is_digit c then scan_digits (acc * 10 + (c - 48)) s' else (acc, s)
  | [] => (acc, [])
  end.

(** [%d]: [None] is a matching failure; a number that is not an [int] is
    undefined behaviour. *)
Definition scan_unsigned (sign : Z) (s : str) : outcome (option Z * str) :=
  match s with
  | c :: _ =>
      if is_digit c then
        let '(z, s) := scan_digits 0 s in
        v ← int_op (sign * z); Ret (Some v, s)
      else Ret (None, s)
  | [] => Ret (None, [])
  end.

Definition scan_int (s : str) : outcome (option Z * str) :=
  match skip_ws s with
  | [] => Ret (None, [])
  | c :: s =>
      if bool_decide (c = 45) then scan_unsigned (-1) s
      else if bool_decide (c = 43) then scan_unsigned 1 s
      else scan_unsigned 1 (c :: s)
  end.

(** The decimal form; ten digits are enough for an [int]. *)
Fixpoint dec (fuel : nat) (z : Z) : str :=
  match fuel with
  | O => []
  | S fuel => if bool_decide (z < 10) then [48 + z] else dec fuel (z / 10) ++ [48 + z mod 10]
  end.

Definition print_int (z : Z) : str :=
  if bool_decide (z < 0) then 45 :: dec 10 (- z) else dec 10 z.

Lemma dec_digits fuel z : 0 ≤ z → Forall (λ c, is_digit c = true) (dec fuel z).
Proof.
  revert z. induction fuel as [| fuel IH]; intros z Hz; cbn; [constructor |].
  case_bool_decide.
  - repeat constructor. unfold is_digit. apply bool_decide_eq_true. lia.
  - apply Forall_app. split; [apply IH, Z.div_pos; lia |]. repeat constructor.
    unfold is_digit. apply bool_decide_eq_true. pose proof (Z.mod_pos_bound z 10). lia.
Qed.

Lemma dec_nonempty fuel z : dec (S fuel) z ≠ [].
Proof. cbn. case_bool_decide; [done |]. by destruct (dec fuel (z / 10)). Qed.

(** The value of a list of digits. *)
Definition digits_value (acc : Z) (ds : str) : Z := foldl (λ a c, a * 10 + (c - 48)) acc ds.

Lemma dec_value fuel z : 0 ≤ z < 10 ^ Z.of_nat fuel → digits_value 0 (dec fuel z) = z.
Proof.
  revert z. induction fuel as [| fuel IH]; intros z Hz; cbn [dec]; [cbn in *; lia |].
  case_bool_decide; [unfold digits_value; cbn; lia |]. unfold digits_value in *. rewrite foldl_app. cbn.
  rewrite Nat2Z.inj_succ, Z.pow_succ_r in Hz by lia.
  rewrite IH; [pose proof (Z.div_mod z 10); lia |].
  split; [apply Z.div_pos; lia | apply Z.div_lt_upper_bound; lia].
Qed.

(** [s] does not go on with a digit. *)
Definition ends_number (s : str) : Prop := match s with c :: _ => is_digit c = false | [] => True end.

Lemma scan_digits_app acc ds s :
  Forall (λ c, is_digit c = true) ds → ends_number s → scan_digits acc (ds ++ s) = (digits_value acc ds, s).
Proof.
  intros Hds Hs. revert acc. induction Hds as [| c ds Hc _ IH]; intros acc; cbn.
  - destruct s as [| c s]; cbn in *; [done | by rewrite Hs].
  - rewrite Hc. apply IH.
Qed.

Lemma scan_unsigned_dec sign z s :
  0 ≤ z < 10 ^ 10 → in_int (sign * z) → ends_number s → scan_unsigned sign (dec 10 z ++ s) = Ret (Some (sign * z), s).
Proof.
  intros Hz Hint Hs. pose proof (dec_digits 10 z ltac:(lia)) as Hd. pose proof (dec_nonempty 9 z) as Hne.
  unfold scan_unsigned. destruct (dec 10 z ++ s) as [| c r] eqn:He.
  { apply app_eq_nil in He as [He _]. done. }
  assert (is_digit c = true) as ->.
  { destruct (dec 10 z) as [| c' ds]; [done |]. injection He as -> _. by apply Forall_cons in Hd as [? _]. }
  rewrite <- He, scan_digits_app by done. rewrite dec_value by (cbn; lia). rewrite int_op_Ret by done. done.
Qed.

Lemma dec_first fuel z : 0 ≤ z → ∃ c ds, dec (S fuel) z = c :: ds ∧ is_digit c = true.
Proof.
  intros Hz. pose proof (dec_digits (S fuel) z Hz) as Hd. pose proof (dec_nonempty fuel z) as Hne.
  destruct (dec (S fuel) z) as [| c ds]; [done |]. apply Forall_cons in Hd as [? _]. eauto.
Qed.

Lemma skip_ws_dec z s : 0 ≤ z → skip_ws (dec 10 z ++ s) = dec 10 z ++ s.
Proof.
  intros Hz. destruct (dec_first 9 z Hz) as (c & ds & -> & Hc). cbn.
  unfold is_digit, is_space in *. apply bool_decide_eq_true in Hc. rewrite bool_decide_false; [done | lia].
Qed.

(** Reading a number that has been printed, after any white space. *)
Lemma scan_print ws z s :
  Forall (λ c, is_space c = true) ws → in_int z → ends_number s → scan_int (ws ++ print_int z ++ s) = Ret (Some z, s).
Proof.
  intros Hws Hz Hs. unfold scan_int.
  assert (skip_ws (ws ++ print_int z ++ s) = print_int z ++ s) as ->.
  { induction Hws as [| c ws Hc _ IH]; cbn; [| by rewrite Hc]. unfold print_int.
    case_bool_decide; [done |]. by apply skip_ws_dec; lia. }
  unfold in_int, int_min, int_max in *. unfold print_int. case_bool_decide as Hneg.
  - cbn [app]. rewrite scan_unsigned_dec; [f_equal; f_equal; f_equal; lia | lia | | done].
    unfold in_int, int_min, int_max. lia.
  - destruct (dec_first 9 z ltac:(lia)) as (c & ds & He & Hc). rewrite He. cbn [app].
    apply bool_decide_eq_true in Hc. rewrite !bool_decide_false by lia.
    change (c :: ds ++ s) with ((c :: ds) ++ s). rewrite <- He, scan_unsigned_dec; [f_equal; f_equal; f_equal; lia | lia | | done].
    unfold in_int, int_min, int_max. lia.
Qed.

Lemma print_nonempty z : print_int z ≠ [].
Proof. unfold print_int. case_bool_decide; [done | apply dec_nonempty]. Qed.
