(* ===== verification/ListHeap.v ===== *)
(** * Linked lists of lab 11: nodes, memory and the set they stand for
    (src/lab11/coarse_grained.cpp, fine_grained.cpp, optimistic.cpp)

    The three programs keep a sorted singly linked list between two sentinels.
    This file has the memory of nodes, the abstract set with its operations,
    and the lemmas on the chain of nodes that the three developments share. *)

From S2P Require Import Prelude.

(** ** Memory *)

(** A pointer read from a node that [malloc] just returned is indeterminate. *)
Inductive ptr := Uninit | Null | Ptr (l : nat).

#[global] Instance ptr_eq_dec : EqDecision ptr.
Proof. solve_decision. Defined.

(** [n_lock]: the owner of the mutex of the node (not used by the
    coarse-grained list). *)
Record Node := mkNode {
  n_key : Z;
  n_next : ptr;
  n_lock : option nat
}.

Abbreviation heap := (gmap nat Node).

(** Accesses through a pointer; a freed or invalid one is undefined behaviour. *)
Definition load (h : heap) (l : nat) : outcome Node := of_option (h !! l).

Definition deref (p : ptr) : outcome nat :=
  match p with Ptr l => Ret l | _ => UB end.

Definition store (h : heap) (l : nat) (f : Node → Node) : outcome heap :=
  n ← load h l; Ret (<[l := f n]> h).

Definition set_next (p : ptr) (n : Node) : Node := mkNode (n_key n) p (n_lock n).
Definition set_lock (o : option nat) (n : Node) : Node := mkNode (n_key n) (n_next n) o.

Lemma load_Ret (h : heap) l n : h !! l = Some n → load h l = Ret n.
Proof. intros H. unfold load. by rewrite H. Qed.

Lemma store_Ret (h : heap) l f n : h !! l = Some n → store h l f = Ret (<[l := f n]> h).
Proof. intros H. unfold store. by rewrite (load_Ret _ _ _ H). Qed.

(** The mutex of a node; [None] when the caller has to wait. *)
Definition lock (t l : nat) (h : heap) : outcome (option heap) :=
  n ← load h l;
  match n_lock n with
  | Some _ => Ret None
  | None => Ret (Some (<[l := set_lock (Some t) n]> h))
  end.

Definition unlock (l : nat) (h : heap) : outcome heap := store h l (set_lock None).

(** The sentinels. *)
Definition head : nat := 0.
Definition tail : nat := 1.

Definition list_init : heap :=
  <[head := mkNode int_min (Ptr tail) None]> {[tail := mkNode int_max Null None]}.

(** ** The operations and the set they implement *)

Inductive op := Add (key : Z) | Remove (key : Z) | Contains (key : Z).

#[global] Instance op_eq_dec : EqDecision op.
Proof. solve_decision. Defined.

Definition op_key (o : op) : Z := match o with Add k | Remove k | Contains k => k end.

Definition spec_op (o : op) (s : gset Z) : gset Z * bool :=
  match o with
  | Add k => if decide (k ∈ s) then (s, false) else ({[k]} ∪ s, true)
  | Remove k => if decide (k ∈ s) then (s ∖ {[k]}, true) else (s, false)
  | Contains k => (s, bool_decide (k ∈ s))
  end.

(** An event: an operation took effect with a result. *)
Record event := mkEvent { e_tid : nat; e_op : op; e_res : bool }.

(** Replaying the events on the abstract set: [None] when a result is not the
    one of the set. *)
Fixpoint replay (log : list event) (s : gset Z) : option (gset Z) :=
  match log with
  | [] => Some s
  | e :: log =>
      let '(s', r) := spec_op (e_op e) s in
      if bool_decide (r = e_res e) then replay log s' else None
  end.

Lemma replay_app log e s s' :
  replay log s = Some s' →
  replay (log ++ [e]) s =
    (if bool_decide ((spec_op (e_op e) s').2 = e_res e) then Some (spec_op (e_op e) s').1 else None).
Proof.
  revert s. induction log as [| e' log IH]; intros s; cbn.
  - intros [= ->]. by destruct (spec_op (e_op e) s').
  - destruct (spec_op (e_op e') s) as [s1 r]. destruct (bool_decide (r = e_res e')); [apply IH | done].
Qed.

(** ** Histories *)

(** What a run shows: a thread calls an operation, the operation takes effect,
    and the call returns a value to the thread. *)
Inductive action :=
| Call (t : nat) (o : op)
| Effect (e : event)
| Return (t : nat) (r : bool).

Definition effect_of (a : action) : option event := match a with Effect e => Some e | _ => None end.

(** The operations that have taken effect, in the order in which they did. *)
Definition effects (hist : list action) : list event := omap effect_of hist.

Definition action_tid (a : action) : nat :=
  match a with Call t _ | Return t _ => t | Effect e => e_tid e end.

(** Where a thread is: between two calls, in a call that has not taken effect,
    in one that has and will return a result. *)
Inductive stage := Between | Called (o : op) | Took (o : op) (r : bool).

(** A call takes effect once, after it has begun and before it returns, and
    returns the result it took effect with. *)
Definition advance (st : stage) (a : action) : option stage :=
  match st, a with
  | Between, Call _ o => Some (Called o)
  | Called o, Effect e => if decide (o = e_op e) then Some (Took o (e_res e)) else None
  | Took _ r, Return _ r' => if decide (r = r') then Some Between else None
  | _, _ => None
  end.

Lemma advance_effect t o r : advance (Called o) (Effect (mkEvent t o r)) = Some (Took o r).
Proof. cbn. by rewrite decide_True. Qed.

Lemma advance_return t o r : advance (Took o r) (Return t r) = Some Between.
Proof. cbn. by rewrite decide_True. Qed.

(** The stage thread [t] has reached; [None] when what it did in the history is
    not a sequence of such calls. *)
Fixpoint stage_from (t : nat) (st : stage) (hist : list action) : option stage :=
  match hist with
  | [] => Some st
  | a :: hist =>
      if decide (action_tid a = t) then st ← advance st a; stage_from t st hist else stage_from t st hist
  end.

Definition stage_of (t : nat) (hist : list action) : option stage := stage_from t Between hist.

(** The keys of the calls are below [INT_MAX], the key of the tail. *)
Definition key_below (a : action) : Prop := match a with Call _ o => op_key o < int_max | _ => True end.

#[global] Instance key_below_dec a : Decision (key_below a).
Proof. destruct a; cbn; apply _. Defined.

Definition keys_below (hist : list action) : Prop := Forall key_below hist.

#[global] Instance keys_below_dec hist : Decision (keys_below hist).
Proof. apply Forall_dec, _. Defined.

Lemma stage_from_app t st st' h1 h2 :
  stage_from t st h1 = Some st' → stage_from t st (h1 ++ h2) = stage_from t st' h2.
Proof.
  revert st. induction h1 as [| a h1 IH]; intros st; cbn; [by intros [= ->] |].
  case_decide; [| apply IH]. destruct (advance st a); cbn; [apply IH | done].
Qed.

Lemma effects_app h1 h2 : effects (h1 ++ h2) = effects h1 ++ effects h2.
Proof. apply omap_app. Qed.

(** What a thread does adds to its own stage and leaves those of the others. *)
Lemma stage_of_step t st a hist :
  stage_of t hist = Some st → action_tid a = t → stage_of t (hist ++ [a]) = advance st a.
Proof.
  intros Hs Ha. unfold stage_of. rewrite (stage_from_app _ _ _ _ _ Hs). cbn. rewrite decide_True by done.
  by destruct (advance st a).
Qed.

Lemma stage_of_other t a hist : action_tid a ≠ t → stage_of t (hist ++ [a]) = stage_of t hist.
Proof.
  intros Ha. unfold stage_of. generalize Between. induction hist as [| b hist IH]; intros st; cbn.
  - by rewrite decide_False.
  - case_decide; [destruct (advance st b); cbn |]; auto.
Qed.

(** Where the program counters of all threads and the history agree. *)
Section staged.
Context {P : Type} (at_stage : P → stage → Prop).

Definition staged (pcs : list P) (hist : list action) : Prop :=
  ∀ t p, pcs !! t = Some p → ∃ st, stage_of t hist = Some st ∧ at_stage p st.

(** A step of a thread from [p] to [p'] that does [a]. *)
Definition stage_step (t : nat) (p p' : P) (a : option action) : Prop :=
  ∀ st, at_stage p st →
    match a with
    | None => at_stage p' st
    | Some a => action_tid a = t ∧ ∃ st', advance st a = Some st' ∧ at_stage p' st'
    end.

Lemma staged_step t p p' a pcs hist :
  staged pcs hist → pcs !! t = Some p → stage_step t p p' a → staged (<[t := p']> pcs) (hist ++ option_list a).
Proof.
  intros Hst Ht Hstep u q [(<- & <- & _) | [Hne Hu]]%list_lookup_insert_Some.
  - destruct (Hst t p Ht) as (st & Hs & Hat). specialize (Hstep st Hat). destruct a as [a |]; cbn.
    + destruct Hstep as (Ha & st' & Hadv & Hat'). exists st'. by rewrite (stage_of_step t st).
    + rewrite app_nil_r. eauto.
  - destruct (Hst u q Hu) as (st & Hs & Hat). exists st. split; [| done]. destruct a as [a |]; cbn; [| by rewrite app_nil_r].
    destruct (Hst t p Ht) as (st0 & _ & Hat0). destruct (Hstep st0 Hat0) as [Ha _].
    rewrite stage_of_other; [done | congruence].
Qed.

Lemma staged_start p0 n : at_stage p0 Between → staged (replicate n p0) [].
Proof. intros Hat t p [-> _]%lookup_replicate. by exists Between. Qed.
End staged.

(** ** The chain of nodes *)

(** [x] comes right before [y]. *)
Definition adj {A} (ps : list A) (x y : A) : Prop := ∃ p1 p2, ps = p1 ++ x :: y :: p2.

Lemma adj_cons {A} (a b : A) ps x y : adj (a :: b :: ps) x y ↔ (x = a ∧ y = b) ∨ adj (b :: ps) x y.
Proof.
  split.
  - intros ([| z p1] & p2 & H); simplify_eq/=; [by left | right]. by exists p1, p2.
  - intros [[-> ->] | (p1 & p2 & ->)]; [by exists [], ps | by exists (a :: p1), p2].
Qed.

Lemma adj_single {A} (a x y : A) : ¬ adj [a] x y.
Proof. intros ([| z [| z' p1]] & p2 & H); simplify_eq/=. Qed.

Lemma adj_l {A} (ps : list A) x y : adj ps x y → x ∈ ps.
Proof. intros (p1 & p2 & ->). set_solver. Qed.
Lemma adj_r {A} (ps : list A) x y : adj ps x y → y ∈ ps.
Proof. intros (p1 & p2 & ->). set_solver. Qed.

Lemma adj_fun {A} (ps : list A) x y y' : NoDup ps → adj ps x y → adj ps x y' → y = y'.
Proof.
  intros Hnd (p1 & p2 & H1) (q1 & q2 & H2). rewrite H1 in Hnd.
  assert (p1 = q1 ∧ x :: y :: p2 = x :: y' :: q2) as [-> H]; [| by simplify_eq].
  rewrite H1 in H2. clear H1 ps. revert q1 H2. induction p1 as [| a p1 IH]; intros [| b q1] H2; simplify_eq/=.
  - done.
  - apply NoDup_cons in Hnd as [Hnd _]. exfalso. apply Hnd. rewrite H0. apply elem_of_app. right. by left.
  - apply NoDup_cons in Hnd as [Hnd _]. exfalso. apply Hnd. apply elem_of_app. right. by left.
  - apply NoDup_cons in Hnd as [_ Hnd]. by destruct (IH Hnd q1) as [-> ->].
Qed.

Lemma adj_fun_r {A} (ps : list A) x x' y : NoDup ps → adj ps x y → adj ps x' y → x = x'.
Proof.
  intros Hnd H1 H2.
  assert (∀ u, adj ps u y → adj (reverse ps) y u) as Hrev.
  { intros u (p1 & p2 & ->). exists (reverse p2), (reverse p1).
    rewrite reverse_app, !reverse_cons. by rewrite <- !(assoc_L (++)). }
  eapply (adj_fun (reverse ps)); [by rewrite reverse_Permutation | by apply Hrev | by apply Hrev].
Qed.

Lemma adj_insert {A} (p1 p2 : list A) a n b x y :
  adj (p1 ++ a :: n :: b :: p2) x y →
  (x = a ∧ y = n) ∨ (x = n ∧ y = b) ∨ adj (p1 ++ a :: b :: p2) x y.
Proof.
  revert a n b p2. induction p1 as [| c p1 IH]; intros a n b p2.
  - cbn. rewrite !adj_cons. tauto.
  - destruct p1 as [| d p1]; cbn; rewrite !adj_cons; [tauto |].
    cbn in IH. intros [? | H]; [tauto |]. apply IH in H. tauto.
Qed.

Lemma adj_remove {A} (p1 p2 : list A) a c b x y :
  adj (p1 ++ a :: b :: p2) x y → (x = a ∧ y = b) ∨ adj (p1 ++ a :: c :: b :: p2) x y.
Proof.
  revert a c b p2. induction p1 as [| d p1 IH]; intros a c b p2.
  - cbn. rewrite !adj_cons. tauto.
  - destruct p1 as [| e p1]; cbn; rewrite !adj_cons; [tauto |].
    cbn in IH. intros [? | H]; [tauto |]. apply (IH a c b p2) in H. tauto.
Qed.

(** Adjacency away from the place of a change is kept. *)
Lemma adj_insert_keep {A} (p1 p2 : list A) a n b x y :
  x ≠ a → adj (p1 ++ a :: b :: p2) x y → adj (p1 ++ a :: n :: b :: p2) x y.
Proof.
  intros Hne. revert a n b p2 Hne. induction p1 as [| c p1 IH]; intros a n b p2 Hne.
  - cbn. rewrite !adj_cons. tauto.
  - destruct p1 as [| d p1]; cbn; rewrite !adj_cons; [tauto |].
    cbn in IH. intros [? | H]; [tauto |]. right. by apply IH.
Qed.

Lemma adj_remove_keep {A} (p1 p2 : list A) a c b x y :
  x ≠ a → x ≠ c → adj (p1 ++ a :: c :: b :: p2) x y → adj (p1 ++ a :: b :: p2) x y.
Proof.
  intros H1 H2. revert a c b p2 H1 H2. induction p1 as [| d p1 IH]; intros a c b p2 H1 H2.
  - cbn. rewrite !adj_cons. tauto.
  - destruct p1 as [| e p1]; cbn; rewrite !adj_cons; [tauto |].
    cbn in IH. intros [? | H]; [tauto |]. right. by eapply IH.
Qed.

Section chain.
Context (κ : nat → Z).

(** The nodes from the head to the tail, with increasing keys after the head. *)
Record chain (ps : list nat) : Prop := {
  c_ends : ∃ ms, ps = head :: ms ++ [tail];
  c_nodup : NoDup ps;
  c_sorted : StronglySorted (λ x y, κ x < κ y) (List.tl ps)
}.

(** The keys between the sentinels. *)
Definition represents (ps : list nat) (s : gset Z) : Prop :=
  ∀ k, k ∈ s ↔ ∃ x, x ∈ ps ∧ x ≠ head ∧ x ≠ tail ∧ κ x = k.

Lemma chain_head ps : chain ps → head ∈ ps.
Proof. intros [[ms ->] _ _]. by left. Qed.

Lemma chain_tail ps : chain ps → tail ∈ ps.
Proof. intros [[ms ->] _ _]. set_solver. Qed.

Lemma chain_next ps x : chain ps → x ∈ ps → x ≠ tail → ∃ y, adj ps x y.
Proof.
  intros [[ms Hps] _ _] Hx Hne. apply list_elem_of_split in Hx as (p1 & p2 & He).
  destruct p2 as [| y p2]; [exfalso | by exists y, p1, p2].
  rewrite Hps in He. change (head :: ms ++ [tail]) with ((head :: ms) ++ [tail]) in He.
  apply app_inj_tail in He as [_ ?]. done.
Qed.

Lemma adj_not_head ps x y : chain ps → adj ps x y → y ≠ head.
Proof.
  intros [[ms Hps] Hnd _] (p1 & p2 & He) ->. rewrite Hps in Hnd, He.
  apply NoDup_cons in Hnd as [Hnd _]. destruct p1 as [| z p1]; simplify_eq/=.
  - apply Hnd. rewrite H0. by left.
  - apply Hnd. rewrite H0. set_solver.
Qed.

Lemma adj_not_tail ps x y : chain ps → adj ps x y → x ≠ tail.
Proof.
  intros [[ms Hps] Hnd _] (p1 & p2 & He) ->. rewrite He in Hps, Hnd.
  destruct (exists_last (l := y :: p2)) as (q & z & Hq); [done |].
  change (p1 ++ tail :: y :: p2) with (p1 ++ [tail] ++ y :: p2) in Hps, Hnd. rewrite Hq in Hps, Hnd.
  change (head :: ms ++ [tail]) with ((head :: ms) ++ [tail]) in Hps.
  rewrite !(assoc_L (++)) in Hps. apply app_inj_tail in Hps as [_ ->].
  apply NoDup_app in Hnd as (_ & _ & Hnd). apply NoDup_cons in Hnd as [Hnd _].
  apply Hnd. apply elem_of_app. right. by left.
Qed.

(** Keys before and after a node. *)
Lemma chain_before ps p1 x p2 y :
  chain ps → ps = p1 ++ x :: p2 → y ∈ p1 → y = head ∨ κ y < κ x.
Proof.
  intros [[ms Hms] _ Hs] Hps Hy. rewrite Hps in Hs, Hms.
  destruct p1 as [| z p1]; [by apply not_elem_of_nil in Hy |]. cbn in Hs, Hms.
  injection Hms as -> _. apply elem_of_cons in Hy as [-> | Hy]; [by left | right].
  eapply (StronglySorted_app_1_elem_of _ _ _ y x Hs); [done | by left].
Qed.

Lemma chain_after ps p1 x p2 y :
  chain ps → ps = p1 ++ x :: p2 → y ∈ p2 → x = head ∨ κ x < κ y.
Proof.
  intros [[ms Hms] _ Hs] Hps Hy. rewrite Hps in Hs, Hms.
  destruct p1 as [| z p1]; cbn in Hs, Hms; [injection Hms as -> _; by left | right].
  apply StronglySorted_app_1_r in Hs. apply StronglySorted_cons in Hs as [Hs _].
  rewrite Forall_forall in Hs. by apply Hs.
Qed.

(** The search place of a key decides whether it is in the set. *)
Lemma chain_find ps s prev curr k :
  chain ps → represents ps s → adj ps prev curr →
  prev = head ∨ κ prev < k → k ≤ κ curr → k < κ tail →
  k ∈ s ↔ κ curr = k.
Proof.
  intros Hch Hrep Hadj Hprev Hcurr Hmax. rewrite (Hrep k). split.
  - intros (x & Hx & Hxh & Hxt & Hk). pose proof Hadj as (p1 & p2 & Hps).
    rewrite Hps in Hx. apply elem_of_app in Hx as [Hx | Hx].
    { exfalso. destruct (chain_before ps p1 prev (curr :: p2) x Hch Hps Hx) as [? | Hlt]; [done |].
      destruct Hprev as [-> | Hprev]; [| lia].
      pose proof (c_nodup _ Hch) as Hnd. pose proof (c_ends _ Hch) as [ms Hms]. rewrite Hps in Hms, Hnd.
      destruct p1 as [| z p1]; [by apply not_elem_of_nil in Hx |]. injection Hms as -> _.
      apply NoDup_cons in Hnd as [Hnd _]. apply Hnd. apply elem_of_app. right. by left. }
    apply elem_of_cons in Hx as [-> | Hx]; [destruct Hprev; [done | lia] |].
    apply elem_of_cons in Hx as [-> | Hx]; [done | exfalso].
    assert (ps = (p1 ++ [prev]) ++ curr :: p2) as Hps' by (by rewrite <- (assoc_L (++))).
    destruct (chain_after ps (p1 ++ [prev]) curr p2 x Hch Hps' Hx) as [He | Hlt]; [| lia].
    by apply (adj_not_head _ _ _ Hch Hadj).
  - intros Hk. exists curr. split; [by eapply adj_r |]. split; [by eapply adj_not_head |].
    split; [intros ->; lia | done].
Qed.

Lemma chain_insert ps s p1 p2 a b n :
  chain ps → represents ps s → ps = p1 ++ a :: b :: p2 → n ∉ ps →
  a = head ∨ κ a < κ n → κ n < κ b →
  chain (p1 ++ a :: n :: b :: p2) ∧ represents (p1 ++ a :: n :: b :: p2) ({[κ n]} ∪ s).
Proof.
  intros Hch Hrep Hps Hn Ha Hb. pose proof Hch as [[ms Hms] Hnd Hs].
  assert (p1 ++ a :: n :: b :: p2 ≡ₚ n :: ps) as Hperm by (rewrite Hps; solve_Permutation).
  split; [split |].
  - rewrite Hps in Hms. destruct p1 as [| z p1]; cbn in *; injection Hms as -> Hms.
    + exists (n :: ms). cbn. by rewrite Hms.
    + destruct (exists_last (l := b :: p2)) as (q & y & Hq); [done |]. rewrite Hq in Hms |- *.
      change (p1 ++ a :: q ++ [y]) with (p1 ++ [a] ++ (q ++ [y])) in Hms.
      rewrite !(assoc_L (++)) in Hms. apply app_inj_tail in Hms as [_ ->].
      exists (p1 ++ a :: n :: q). by rewrite <- (assoc_L (++)).
  - rewrite Hperm. by apply NoDup_cons.
  - rewrite Hps in Hs, Hms. destruct p1 as [| z p1]; cbn in *; injection Hms as -> Hms.
    + apply StronglySorted_cons in Hs as [Hs1 Hs2]. repeat (constructor; try done).
      eapply Forall_impl; [done |]. cbn. intros y Hy. lia.
    + destruct Ha as [-> | Ha].
      { rewrite Hps in Hnd. apply NoDup_cons in Hnd as [Hnd _]. exfalso. apply Hnd.
        apply elem_of_app. right. by left. }
      apply StronglySorted_app in Hs as (Hs1 & Hs2 & Hs3).
      apply StronglySorted_cons in Hs3 as [Hs4 Hs5]. apply StronglySorted_cons in Hs5 as [Hs6 Hs7].
      apply StronglySorted_app. split; [| split; [done |]].
      * intros x y Hx Hy. pose proof (Hs1 x a Hx ltac:(by left)) as Hxa. cbn in Hxa.
        rewrite !elem_of_cons in Hy. destruct Hy as [-> | [-> | Hy]]; [done | lia |].
        apply Hs1; [done |]. right. by apply elem_of_cons.
      * constructor; [constructor; [by constructor |] |]. 
        -- constructor; [done |]. eapply Forall_impl; [done |]. cbn. intros y Hy. lia.
        -- constructor; [done |]. done.
  - intros k. rewrite elem_of_union, elem_of_singleton, (Hrep k).
    setoid_rewrite Hperm. setoid_rewrite elem_of_cons.
    assert (n ≠ head ∧ n ≠ tail) as [Hnh Hnt].
    { split; intros ->; apply Hn; [by apply chain_head | by apply chain_tail]. }
    naive_solver.
Qed.

Lemma chain_remove ps s p1 p2 a c b :
  chain ps → represents ps s → ps = p1 ++ a :: c :: b :: p2 →
  chain (p1 ++ a :: b :: p2) ∧ represents (p1 ++ a :: b :: p2) (s ∖ {[κ c]}).
Proof.
  intros Hch Hrep Hps. pose proof Hch as [[ms Hms] Hnd Hs].
  assert (ps ≡ₚ c :: (p1 ++ a :: b :: p2)) as Hperm by (rewrite Hps; solve_Permutation).
  assert (adj ps a c) as Hac by (by exists p1, (b :: p2)).
  assert (adj ps c b) as Hcb by (exists (p1 ++ [a]), p2; by rewrite Hps, <- (assoc_L (++))).
  pose proof (adj_not_head _ _ _ Hch Hac) as Hch'. pose proof (adj_not_tail _ _ _ Hch Hcb) as Hct.
  split; [split |].
  - rewrite Hps in Hms. destruct (exists_last (l := b :: p2)) as (q & y & Hq); [done |]. rewrite Hq in Hms |- *.
    destruct p1 as [| z p1]; cbn in *; injection Hms as -> Hms.
    + change (c :: q ++ [y]) with ((c :: q) ++ [y]) in Hms. apply app_inj_tail in Hms as [_ ->]. by exists q.
    + change (p1 ++ a :: c :: q ++ [y]) with (p1 ++ [a; c] ++ (q ++ [y])) in Hms.
      rewrite !(assoc_L (++)) in Hms. apply app_inj_tail in Hms as [_ ->].
      exists (p1 ++ a :: q). by rewrite <- (assoc_L (++)).
  - rewrite Hperm in Hnd. by apply NoDup_cons in Hnd as [_ Hnd].
  - rewrite Hps in Hs. destruct p1 as [| z p1]; cbn in *.
    + by apply StronglySorted_cons in Hs as [_ Hs].
    + apply StronglySorted_app in Hs as (Hs1 & Hs2 & Hs3).
      apply StronglySorted_cons in Hs3 as [Hs4 Hs5]. apply StronglySorted_cons in Hs5 as [Hs6 Hs7].
      apply StronglySorted_app. split; [| split; [done |]].
      * intros x y Hx Hy. apply Hs1; [done |]. set_solver.
      * constructor; [done |]. by apply Forall_cons in Hs4 as [_ Hs4].
  - intros k. rewrite elem_of_difference, elem_of_singleton, (Hrep k).
    setoid_rewrite Hperm. setoid_rewrite elem_of_cons.
    assert (∀ x, x ∈ p1 ++ a :: b :: p2 → x ≠ head → κ x ≠ κ c) as Hdiff.
    { intros x Hx Hxh He. assert (x ∈ p1 ∨ x = a ∨ x ∈ b :: p2) as [Hx' | [-> | Hx']] by set_solver.
      - assert (ps = (p1 ++ [a]) ++ c :: b :: p2) as Hps' by (by rewrite Hps, <- (assoc_L (++))).
        destruct (chain_before ps (p1 ++ [a]) c (b :: p2) x Hch Hps'); [set_solver | done | lia].
      - destruct (chain_after ps p1 a (c :: b :: p2) c Hch Hps); [by left | done | lia].
      - assert (ps = (p1 ++ [a]) ++ c :: b :: p2) as Hps' by (by rewrite Hps, <- (assoc_L (++))).
        destruct (chain_after ps (p1 ++ [a]) c (b :: p2) x Hch Hps' Hx'); [done | lia]. }
    naive_solver.
Qed.

(** The two changes of the list, in terms of membership and adjacency. *)
Lemma chain_insert_adj ps s prev curr n :
  chain ps → represents ps s → adj ps prev curr → n ∉ ps → prev = head ∨ κ prev < κ n → κ n < κ curr →
  ∃ ps', chain ps' ∧ represents ps' ({[κ n]} ∪ s) ∧ (∀ x, x ∈ ps' ↔ x = n ∨ x ∈ ps) ∧
    ∀ x y, adj ps' x y ↔ (x = prev ∧ y = n) ∨ (x = n ∧ y = curr) ∨ (x ≠ prev ∧ adj ps x y).
Proof.
  intros Hch Hrep Hadj Hn Hp Hc. pose proof Hadj as (p1 & p2 & Hps).
  destruct (chain_insert ps s p1 p2 prev curr n Hch Hrep Hps Hn Hp Hc) as [Hch' Hrep'].
  exists (p1 ++ prev :: n :: curr :: p2). split_and!; [done | done | |].
  - intros x. rewrite Hps, !elem_of_app, !elem_of_cons. tauto.
  - assert (adj (p1 ++ prev :: n :: curr :: p2) prev n) as Hpn by (by exists p1, (curr :: p2)).
    assert (adj (p1 ++ prev :: n :: curr :: p2) n curr) as Hnc.
    { exists (p1 ++ [prev]), p2. by rewrite <- (assoc_L (++)). }
    intros x y. split.
    + intros Hxy. destruct (decide (x = prev)) as [-> | Hne].
      { left. split; [done |]. by eapply adj_fun; [apply c_nodup | |]. }
      destruct (adj_insert _ _ _ _ _ _ _ Hxy) as [[? _] | [? | Hold]]; [done | auto |].
      rewrite <- Hps in Hold. auto.
    + intros [[-> ->] | [[-> ->] | [Hne Hold]]]; [done | done |].
      rewrite Hps in Hold. by apply adj_insert_keep.
Qed.

Lemma adj_adj ps x y z : chain ps → adj ps x y → adj ps y z → ∃ p1 p2, ps = p1 ++ x :: y :: z :: p2.
Proof.
  intros Hch (p1 & p2 & Hps) Hyz. pose proof (adj_not_tail _ _ _ Hch Hyz) as Hne. destruct p2 as [| z' p2].
  - exfalso. destruct (c_ends _ Hch) as [ms Hms]. rewrite Hps in Hms.
    change (head :: ms ++ [tail]) with ((head :: ms) ++ [tail]) in Hms.
    change (p1 ++ [x; y]) with (p1 ++ [x] ++ [y]) in Hms. rewrite (assoc_L (++)) in Hms.
    by apply app_inj_tail in Hms as [_ ?].
  - exists p1, p2. rewrite Hps. do 3 f_equal. f_equal. eapply adj_fun; [by apply c_nodup | | done].
    exists (p1 ++ [x]), p2. by rewrite Hps, <- (assoc_L (++)).
Qed.

Lemma chain_remove_adj ps s prev curr b :
  chain ps → represents ps s → adj ps prev curr → adj ps curr b →
  ∃ ps', chain ps' ∧ represents ps' (s ∖ {[κ curr]}) ∧ (∀ x, x ∈ ps ↔ x = curr ∨ x ∈ ps') ∧ curr ∉ ps' ∧
    ∀ x y, adj ps' x y ↔ (x = prev ∧ y = b) ∨ (x ≠ prev ∧ x ≠ curr ∧ adj ps x y).
Proof.
  intros Hch Hrep Hpc Hcb. destruct (adj_adj _ _ _ _ Hch Hpc Hcb) as (p1 & p2 & Hps).
  destruct (chain_remove ps s p1 p2 prev curr b Hch Hrep Hps) as [Hch' Hrep'].
  assert (curr ∉ p1 ++ prev :: b :: p2) as Hout.
  { pose proof (c_nodup _ Hch) as Hnd.
    assert (ps ≡ₚ curr :: (p1 ++ prev :: b :: p2)) as Hperm by (rewrite Hps; solve_Permutation).
    rewrite Hperm in Hnd. by apply NoDup_cons in Hnd as [? _]. }
  exists (p1 ++ prev :: b :: p2). split_and!; [done | done | | done |].
  - intros x. rewrite Hps, !elem_of_app, !elem_of_cons. tauto.
  - assert (adj (p1 ++ prev :: b :: p2) prev b) as Hpb by (by exists p1, p2).
    intros x y. split.
    + intros Hxy. destruct (decide (x = prev)) as [-> | Hne].
      { left. split; [done |]. by eapply adj_fun; [apply c_nodup | |]. }
      right. split; [done |]. split; [intros ->; by apply Hout, (adj_l _ _ y) |].
      apply (adj_remove _ _ _ curr) in Hxy as [[? _] | Hxy]; [done | by rewrite Hps].
    + intros [[-> ->] | (Hne & Hne' & Hold)]; [done |]. rewrite Hps in Hold. by eapply adj_remove_keep.
Qed.

End chain.

Lemma chain_ext κ κ' ps : (∀ x, x ∈ ps → κ x = κ' x) → chain κ ps → chain κ' ps.
Proof.
  intros Hext [H1 H2 H3]. split; [done | done |].
  assert (∀ l : list nat, (∀ x, x ∈ l → κ x = κ' x) → StronglySorted (λ x y, κ x < κ y) l →
    StronglySorted (λ x y, κ' x < κ' y) l) as Hgen.
  { induction l as [| x l IH]; intros Hl Hs; [constructor |].
    apply StronglySorted_cons in Hs as [Hs1 Hs2]. constructor; [apply IH; [set_solver | done] |].
    rewrite Forall_forall in Hs1 |- *. intros y Hy. rewrite <- (Hl x), <- (Hl y) by set_solver. by apply Hs1. }
  apply Hgen; [| done]. intros x Hx. apply Hext. destruct ps; [done |]. by right.
Qed.

Lemma represents_ext κ κ' ps s : (∀ x, x ∈ ps → κ x = κ' x) → represents κ ps s → represents κ' ps s.
Proof.
  intros Hext Hrep k. rewrite (Hrep k). split; intros (x & Hx & ? & ? & <-); exists x; rewrite (Hext x Hx); auto.
Qed.

(** ** Keys in memory *)

Definition key_at (h : heap) (l : nat) : Z := match h !! l with Some n => n_key n | None => 0 end.

Lemma key_at_insert h l n x : key_at (<[l := n]> h) x = if decide (x = l) then n_key n else key_at h x.
Proof.
  unfold key_at. destruct (decide (x = l)) as [-> | Hne].
  - by rewrite lookup_insert_eq.
  - by rewrite lookup_insert_ne.
Qed.

Lemma key_at_update h l n n' x : h !! l = Some n → n_key n' = n_key n → key_at (<[l := n']> h) x = key_at h x.
Proof.
  intros Hl Hk. rewrite key_at_insert. destruct (decide (x = l)) as [-> | _]; [| done].
  unfold key_at. by rewrite Hl.
Qed.

(** The node an operation has allocated. *)
Definition node_ok (h : heap) (o : op) (node : option nat) : Prop :=
  op_key o < int_max ∧
  match o with
  | Add k => ∃ n, node = Some n ∧ key_at h n = k
  | _ => node = None
  end.

(** [prev] is the head or has a smaller key. *)
Definition before (h : heap) (prev : nat) (k : Z) : Prop := prev = head ∨ key_at h prev < k.

Definition locked (h : heap) (t l : nat) : Prop := ∃ n, h !! l = Some n ∧ n_lock n = Some t.

Lemma locked_fun h t u l : locked h t l → locked h u l → t = u.
Proof. intros (n & Hn & Ht) (n' & Hn' & Hu). congruence. Qed.

(** ** The initial list *)

Lemma chain_init : chain (key_at list_init) [head; tail].
Proof. split; [by exists [] | by repeat constructor; set_solver |]. cbn. repeat constructor. Qed.

Lemma represents_init : represents (key_at list_init) [head; tail] ∅.
Proof. intros k. split; [set_solver |]. intros (x & Hx & ? & ? & _). set_solver. Qed.

Lemma alloc_init x : x ∈ [head; tail] → is_Some (list_init !! x).
Proof. intros [-> | [-> | Hx]%elem_of_cons]%elem_of_cons; [done | done | by apply not_elem_of_nil in Hx]. Qed.

Lemma adj_init x y : adj [head; tail] x y → x = head ∧ y = tail.
Proof. intros [? | H]%adj_cons; [done | by apply adj_single in H]. Qed.
