(* ===== verification/CoarseList.v ===== *)
(** * The coarse-grained list of lab 11 (src/lab11/coarse_grained.cpp)

    One mutex around every operation.  As for the fine-grained list a step is
    one access to memory, and the theorems are memory safety and
    linearizability; here they rest on the exclusion the mutex gives.  The key
    [INT_MAX] of the tail is excluded; [coarse_remove_tail] shows why. *)

From S2P Require Import Prelude ListHeap.

(** ** The machine *)

(** [CLock]: about to lock the mutex; [CHead]: about to read [head->next];
    [CTest]: about to test the key of [curr]; [CNext]: about to go on;
    [CLink1], [CLink2]: the two stores of [list_add]; [CUnlink]: the store of
    [list_remove]; [CUnlock], [CFree]: the exits. *)
Inductive cpc :=
| CIdle
| CLock (o : op) (node : option nat)
| CHead (o : op) (node : option nat)
| CTest (o : op) (node : option nat) (prev : nat) (curr : ptr)
| CNext (o : op) (node : option nat) (prev curr : nat)
| CLink1 (key : Z) (node prev curr : nat)
| CLink2 (key : Z) (node prev curr : nat)
| CUnlink (key : Z) (prev curr : nat)
| CUnlock (r : bool) (removed : option nat)
| CFree (r : bool) (curr : nat).

Record cres := mkCres { r_pc : cpc; r_heap : heap; r_mutex : option nat; r_act : option action }.

Definition r_event (r : cres) : option event := r_act r ≫= effect_of.

(** After the loop: the test of the key of [curr]. *)
Definition coarse_decide (t : nat) (o : op) (node : option nat) (prev curr : nat) (found : bool) :
    outcome (cpc * option action) :=
  match o with
  | Add k =>
      if found then Ret (CUnlock false None, Some (Effect (mkEvent t o false)))
      else match node with Some n => Ret (CLink1 k n prev curr, None) | None => UB end
  | Remove k =>
      if found then Ret (CUnlink k prev curr, None)
      else Ret (CUnlock false None, Some (Effect (mkEvent t o false)))
  | Contains k => Ret (CUnlock found None, Some (Effect (mkEvent t o found)))
  end.

Definition coarse_step (t : nat) (o : op) (l : nat) (p : cpc) (h : heap) (m : option nat) : outcome (option cres) :=
  match p with
  | CIdle =>
      match o with
      | Add k =>
          match h !! l with
          | Some _ => Ret None
          | None => Ret (Some (mkCres (CLock o (Some l)) (<[l := mkNode k Uninit None]> h) m (Some (Call t o))))
          end
      | _ => Ret (Some (mkCres (CLock o None) h m (Some (Call t o))))
      end
  | CLock o node =>
      match m with
      | Some _ => Ret None
      | None => Ret (Some (mkCres (CHead o node) h (Some t) None))
      end
  | CHead o node =>
      n ← load h head;
      Ret (Some (mkCres (CTest o node head (n_next n)) h m None))
  | CTest o node prev curr =>
      c ← deref curr;
      n ← load h c;
      if bool_decide (n_key n < op_key o) then Ret (Some (mkCres (CNext o node prev c) h m None))
      else
        '(p, a) ← coarse_decide t o node prev c (bool_decide (n_key n = op_key o));
        Ret (Some (mkCres p h m a))
  | CNext o node prev curr =>
      n ← load h curr;
      Ret (Some (mkCres (CTest o node curr (n_next n)) h m None))
  | CLink1 k node prev curr =>
      h ← store h prev (set_next (Ptr node));
      Ret (Some (mkCres (CLink2 k node prev curr) h m None))
  | CLink2 k node prev curr =>
      h ← store h node (set_next (Ptr curr));
      Ret (Some (mkCres (CUnlock true None) h m (Some (Effect (mkEvent t (Add k) true)))))
  | CUnlink k prev curr =>
      n ← load h curr;
      h ← store h prev (set_next (n_next n));
      Ret (Some (mkCres (CUnlock true (Some curr)) h m (Some (Effect (mkEvent t (Remove k) true)))))
  | CUnlock r removed =>
      Ret (Some (match removed with
                 | Some c => mkCres (CFree r c) h None None
                 | None => mkCres CIdle h None (Some (Return t r))
                 end))
  | CFree r curr =>
      _ ← load h curr;
      Ret (Some (mkCres CIdle (delete curr h) m (Some (Return t r))))
  end.

(** [chist]: the calls, what took effect and the values returned so far. *)
Record csys := mkCsys { cheap : heap; cmutex : option nat; cpcs : list cpc; chist : list action }.

Definition coarse_start (n : nat) : csys := mkCsys list_init None (replicate n CIdle) [].

Definition coarse_sys_step (t : nat) (o : op) (l : nat) (σ : csys) : outcome (option csys) :=
  match cpcs σ !! t with
  | None => Ret None
  | Some p =>
      r ← coarse_step t o l p (cheap σ) (cmutex σ);
      match r with
      | None => Ret None
      | Some r =>
          Ret (Some (mkCsys (r_heap r) (r_mutex r) (<[t := r_pc r]> (cpcs σ))
            (chist σ ++ option_list (r_act r))))
      end
  end.

Inductive cstep : csys → csys → Prop :=
| cstep_intro t o l σ σ' :
    coarse_sys_step t o l σ = Ret (Some σ') → cstep σ σ'.

(** ** The invariant *)

Definition critical (p : cpc) : Prop := match p with CIdle | CLock _ _ | CFree _ _ => False | _ => True end.

Definition c_own (p : cpc) : option nat :=
  match p with
  | CLock _ node | CHead _ node | CTest _ node _ _ | CNext _ node _ _ => node
  | CLink1 _ node _ _ | CLink2 _ node _ _ => Some node
  | CUnlock _ removed => removed
  | CFree _ curr => Some curr
  | _ => None
  end.

Definition c_point_ok (h : heap) (ps : list nat) (p : cpc) : Prop :=
  match p with
  | CLock o node | CHead o node => node_ok h o node
  | CTest o node prev curr => node_ok h o node ∧ before h prev (op_key o) ∧ ∃ c, curr = Ptr c ∧ adj ps prev c
  | CNext o node prev curr => node_ok h o node ∧ adj ps prev curr ∧ key_at h curr < op_key o
  | CLink1 k node prev curr =>
      node_ok h (Add k) (Some node) ∧ before h prev k ∧ adj ps prev curr ∧ k < key_at h curr
  | CLink2 k node prev curr =>
      node_ok h (Add k) (Some node) ∧ before h prev k ∧ adj ps prev curr ∧ k < key_at h curr ∧
      n_next <$> h !! prev = Some (Ptr node)
  | CUnlink k prev curr => k < int_max ∧ before h prev k ∧ adj ps prev curr ∧ key_at h curr = k
  | CIdle | CUnlock _ _ | CFree _ _ => True
  end.

Definition c_linked (h : heap) (pcs : list cpc) (x y : nat) : Prop :=
  n_next <$> h !! x = Some (Ptr y) ∨ ∃ t k node, pcs !! t = Some (CLink2 k node x y).

(** The part of the invariant that is about the list itself. *)
Record list_ok (h : heap) (pcs : list cpc) (ps : list nat) (s : gset Z) : Prop := {
  lo_chain : chain (key_at h) ps;
  lo_set : represents (key_at h) ps s;
  lo_max : key_at h tail = int_max;
  lo_alloc x : x ∈ ps → is_Some (h !! x);
  lo_link x y : adj ps x y → c_linked h pcs x y
}.

Record coarse_ok (h : heap) (m : option nat) (pcs : list cpc) (log : list event) (ps : list nat) (s : gset Z) : Prop := {
  co_list : list_ok h pcs ps s;
  co_log : replay log ∅ = Some s;
  co_point t p : pcs !! t = Some p → c_point_ok h ps p;
  co_own t p l : pcs !! t = Some p → c_own p = Some l → l ∉ ps ∧ is_Some (h !! l);
  co_mutex t p : pcs !! t = Some p → critical p ↔ m = Some t;
  co_disj t u p q l : t ≠ u → pcs !! t = Some p → pcs !! u = Some q → c_own p = Some l → c_own q ≠ Some l
}.

(** What a point relies on: the nodes of the list for a critical one, and its own node. *)
Definition agrees (h h' : heap) (ps : list nat) (p : cpc) : Prop :=
  (∀ l, c_own p = Some l → h' !! l = h !! l) ∧ (critical p → ∀ x, x ∈ ps → h' !! x = h !! x).

Lemma c_point_frame h h' ps p : agrees h h' ps p → c_point_ok h ps p → c_point_ok h' ps p.
Proof.
  intros [Hown Hcr] Hp.
  assert (∀ o node, c_own p = node → node_ok h o node → node_ok h' o node) as Hnode.
  { intros o node He [Hk Hn]. split; [done |]. destruct o; try done. destruct Hn as (n & -> & Hkey).
    exists n. unfold key_at in *. by rewrite (Hown n He). }
  assert (critical p → ∀ x, x ∈ ps → key_at h' x = key_at h x) as Hkey.
  { intros Hc x Hx. unfold key_at. by rewrite (Hcr Hc x Hx). }
  assert (critical p → ∀ x k, x ∈ ps → before h x k → before h' x k) as Hbef.
  { intros Hc x k Hx [-> | Hb]; [by left | right]. by rewrite Hkey. }
  destruct p; cbn in Hp, Hkey, Hbef, Hcr |- *; try done.
  - by apply Hnode.
  - by apply Hnode.
  - destruct Hp as (? & ? & c & -> & Ha). pose proof (adj_l _ _ _ Ha). split_and!; eauto.
  - destruct Hp as (? & Ha & ?). rewrite Hkey by (done || by eapply adj_r). auto.
  - destruct Hp as (? & ? & Ha & ?). pose proof (adj_l _ _ _ Ha). rewrite Hkey by (done || by eapply adj_r). auto.
  - destruct Hp as (? & ? & Ha & ? & ?). pose proof (adj_l _ _ _ Ha) as Hx.
    rewrite Hkey, (Hcr I _ Hx) by (done || by eapply adj_r). auto 10.
  - destruct Hp as (? & ? & Ha & ?). pose proof (adj_l _ _ _ Ha). rewrite Hkey by (done || by eapply adj_r). auto.
Qed.

(** The invariant after a step of thread [t], from what the step does. *)
Section step.
Context (h : heap) (m : option nat) (pcs : list cpc) (log : list event) (ps : list nat) (s : gset Z).
Context (t : nat) (p : cpc) (Hok : coarse_ok h m pcs log ps s) (Ht : pcs !! t = Some p).

Lemma coarse_ok_step h' m' p' log' ps' s' :
  list_ok h' (<[t := p']> pcs) ps' s' → replay log' ∅ = Some s' →
  c_point_ok h' ps' p' → (∀ l, c_own p' = Some l → l ∉ ps' ∧ is_Some (h' !! l)) →
  (critical p' ↔ m' = Some t) → (∀ u, u ≠ t → m = Some u ↔ m' = Some u) →
  (critical p ∨ ps' = ps ∧ ∀ x, x ∈ ps → h' !! x = h !! x) →
  (∀ u q l, u ≠ t → pcs !! u = Some q → c_own q = Some l → c_own p' ≠ Some l ∧ h' !! l = h !! l ∧ l ∉ ps') →
  coarse_ok h' m' (<[t := p']> pcs) log' ps' s'.
Proof.
  intros Hlist Hlog Hp' Hown' Hm Hmu Hcr Hothers. pose proof Hok as [_ _ O3 O4 O5 O6].
  assert (∀ u q, u ≠ t → pcs !! u = Some q → critical q → ¬ critical p) as Hex.
  { intros u q Hu Hq Hc Hc'. apply (O5 u q Hq) in Hc. apply (O5 t p Ht) in Hc'. congruence. }
  split; try done.
  - intros u q [(<- & <- & _) | [Hu Hq]]%list_lookup_insert_Some; [done |].
    apply not_eq_sym in Hu. pose proof (O3 u q Hq) as Hpo.
    destruct Hcr as [Hc | [-> Hsame]].
    + assert (¬ critical q) as Hnc by (intros Hcq; by eapply (Hex u q)).
      apply c_point_frame with (h' := h') in Hpo.
      * destruct q; try done; cbn in Hnc; tauto.
      * split; [| done]. intros l Hl. by apply (Hothers u q).
    + eapply c_point_frame; [| done]. split; [| done]. intros l Hl. by apply (Hothers u q).
  - intros u q l [(<- & <- & _) | [Hu Hq]]%list_lookup_insert_Some Hl; [by apply Hown' |].
    destruct (Hothers u q l) as (_ & Hl' & Hnot); [done | done | done |]. split; [done |].
    rewrite Hl'. by apply (O4 u q).
  - intros u q [(<- & <- & _) | [Hu Hq]]%list_lookup_insert_Some; [done |].
    rewrite (O5 u q Hq). by apply Hmu.
  - intros a b x y l Hne Ha Hb Hx Hy.
    apply list_lookup_insert_Some in Ha as [(<- & <- & _) | [Hta Ha]];
      apply list_lookup_insert_Some in Hb as [(Htb & <- & _) | [Htb Hb]]; try congruence.
    + destruct (Hothers b y l) as [H _]; auto.
    + destruct (Hothers a x l) as [H _]; auto.
    + by eapply (O6 a b x y l).
Qed.

Lemma list_ok_insert p' : (∀ k node x y, p ≠ CLink2 k node x y) → list_ok h (<[t := p']> pcs) ps s.
Proof.
  intros Hp. destruct (co_list _ _ _ _ _ _ Hok) as [L1 L2 L3 L4 L5]. split; try done.
  intros x y [Hl | (u & k & node & Hu)]%L5; [by left | right]. exists u, k, node.
  rewrite list_lookup_insert_ne; [done |]. intros <-. by apply (Hp k node x y); congruence.
Qed.

Lemma others_keep u q l : u ≠ t → pcs !! u = Some q → c_own q = Some l → c_own p ≠ Some l ∧ h !! l = h !! l ∧ l ∉ ps.
Proof.
  intros Hu Hq Hl. split; [| split; [done | by eapply co_own]]. eapply co_disj; try done.
Qed.

(** A step that changes neither memory nor the mutex. *)
Lemma coarse_ok_read p' log' :
  (∀ k node x y, p ≠ CLink2 k node x y) → critical p → critical p' → c_own p' = c_own p ∨ c_own p' = None →
  c_point_ok h ps p' → replay log' ∅ = Some s → coarse_ok h m (<[t := p']> pcs) log' ps s.
Proof.
  intros Hp Hc Hc' Hown Hp' Hlog. eapply coarse_ok_step; try done.
  - by apply list_ok_insert.
  - intros l Hl. apply (co_own _ _ _ _ _ _ Hok t p l Ht). destruct Hown; congruence.
  - rewrite <- (co_mutex _ _ _ _ _ _ Hok t p Ht). tauto.
  - by left.
  - intros u q l Hu Hq Hl. destruct (others_keep u q l Hu Hq Hl) as (? & ? & ?).
    split_and!; try done. destruct Hown as [-> | ->]; done.
Qed.
End step.

Definition c_good (pcs : list cpc) (log : list event) (t : nat) (r : outcome (option cres)) : Prop :=
  match r with
  | Ret None => True
  | Ret (Some r) =>
      ∃ ps s, coarse_ok (r_heap r) (r_mutex r) (<[t := r_pc r]> pcs) (log ++ option_list (r_event r)) ps s
  | _ => False
  end.

Section points.
Context (h : heap) (m : option nat) (pcs : list cpc) (log : list event) (ps : list nat) (s : gset Z).
Context (t : nat) (Hok : coarse_ok h m pcs log ps s).

Let Hch := lo_chain _ _ _ _ (co_list _ _ _ _ _ _ Hok).

(** Without an event the log stays as it is. *)
Lemma replay_none : replay (log ++ option_list None) ∅ = Some s.
Proof. cbn. rewrite (right_id_L [] (++)). apply (co_log _ _ _ _ _ _ Hok). Qed.

Lemma replay_event e s' : spec_op (e_op e) s = (s', e_res e) → replay (log ++ option_list (Some e)) ∅ = Some s'.
Proof.
  intros He. change (option_list (Some e)) with [e].
  rewrite (replay_app _ _ _ _ (co_log _ _ _ _ _ _ Hok)), He. by rewrite bool_decide_true.
Qed.

(** The next node of the one the thread stands on, for a thread that is not
    between the two stores. *)
Lemma c_next p x : pcs !! t = Some p → critical p → (∀ k node x y, p ≠ CLink2 k node x y) →
  x ∈ ps → x ≠ tail → ∃ n y, h !! x = Some n ∧ n_next n = Ptr y ∧ adj ps x y.
Proof.
  intros Ht Hc Hp Hx Hne. destruct (chain_next _ _ _ Hch Hx Hne) as [y Hy].
  destruct (lo_link _ _ _ _ (co_list _ _ _ _ _ _ Hok) x y Hy) as [Hl | (u & k & node & Hu)].
  - destruct (h !! x) as [n |]; [| done]. injection Hl as Hl. eauto.
  - exfalso. pose proof (co_mutex _ _ _ _ _ _ Hok) as Hm. apply (Hm t p Ht) in Hc.
    assert (m = Some u) as Hmu by (apply (Hm u _ Hu); exact I).
    apply (Hp k node x y). congruence.
Qed.

Lemma c_good_head p o node : pcs !! t = Some (CHead o node) → c_good pcs log t (coarse_step t p 0 (CHead o node) h m).
Proof.
  intros Ht. pose proof (co_point _ _ _ _ _ _ Hok _ _ Ht) as Hp. cbn in Hp.
  destruct (c_next _ head Ht I) as (n & y & Hn & Hy & Hadj); [done | by eapply chain_head | done |].
  cbn. rewrite (load_Ret _ _ _ Hn). cbn. exists ps, s.
  eapply coarse_ok_read; try done; [by left | | apply replay_none].
  split_and!; [done | by left | eauto].
Qed.

Lemma c_good_next p o node prev curr :
  pcs !! t = Some (CNext o node prev curr) → c_good pcs log t (coarse_step t p 0 (CNext o node prev curr) h m).
Proof.
  intros Ht. pose proof (co_point _ _ _ _ _ _ Hok _ _ Ht) as (Hn & Ha & Hk).
  assert (curr ≠ tail) as Hne.
  { intros ->. rewrite (lo_max _ _ _ _ (co_list _ _ _ _ _ _ Hok)) in Hk. destruct Hn. lia. }
  destruct (c_next _ curr Ht I) as (n & y & Hl & Hy & Hadj); [done | by eapply adj_r | done |].
  cbn. rewrite (load_Ret _ _ _ Hl). cbn. exists ps, s.
  eapply coarse_ok_read; try done; [by left | | apply replay_none].
  split_and!; [done | by right | eauto].
Qed.

Lemma c_good_test p o node prev curr :
  pcs !! t = Some (CTest o node prev curr) → c_good pcs log t (coarse_step t p 0 (CTest o node prev curr) h m).
Proof.
  intros Ht. pose proof (co_point _ _ _ _ _ _ Hok _ _ Ht) as (Hn & Hb & c & -> & Ha).
  pose proof (co_list _ _ _ _ _ _ Hok) as [_ L2 L3 L4 _].
  destruct (L4 c) as [n Hc]; [by eapply adj_r |].
  assert (key_at h c = n_key n) as Hkc by (unfold key_at; by rewrite Hc).
  cbn. rewrite (load_Ret _ _ _ Hc). cbn. case_bool_decide as Hlt.
  { exists ps, s. eapply coarse_ok_read; try done; [by left | | apply replay_none]. cbn. rewrite Hkc. auto. }
  assert (op_key o ∈ s ↔ n_key n = op_key o) as Hfind.
  { rewrite <- Hkc. eapply chain_find; try done; [lia |]. rewrite L3. apply Hn. }
  assert (op_key o < int_max) as Hmax by apply Hn.
  destruct o as [k | k | k]; cbn in *; case_bool_decide as Hk; cbn.
  - exists ps, s. eapply coarse_ok_read; try done; [by right |]. apply replay_event. cbn. rewrite decide_True; tauto.
  - destruct Hn as [_ (nd & -> & Hnd)]. exists ps, s.
    eapply coarse_ok_read; try done; [by left | | apply replay_none]. cbn. rewrite Hkc.
    split_and!; [split; eauto | done | done | lia].
  - exists ps, s. eapply coarse_ok_read; try done; [by right | | apply replay_none]. cbn. rewrite Hkc. auto.
  - exists ps, s. eapply coarse_ok_read; try done; [by right |]. apply replay_event. cbn. rewrite decide_False; tauto.
  - exists ps, s. eapply coarse_ok_read; try done; [by right |]. apply replay_event. cbn. rewrite bool_decide_true; tauto.
  - exists ps, s. eapply coarse_ok_read; try done; [by right |]. apply replay_event. cbn. rewrite bool_decide_false; tauto.
Qed.

Lemma c_good_unlock p r removed :
  pcs !! t = Some (CUnlock r removed) → c_good pcs log t (coarse_step t p 0 (CUnlock r removed) h m).
Proof.
  intros Ht. assert (m = Some t) as Hm by (by apply (co_mutex _ _ _ _ _ _ Hok t _ Ht)).
  assert (∀ u, u ≠ t → (m = Some u ↔ None = Some u)) as Hmu by (intros u Hu; rewrite Hm; naive_solver).
  exists ps, s. cbn. destruct removed as [c |]; cbn; (eapply coarse_ok_step; try done;
    [by eapply list_ok_insert | apply replay_none | ..]); try by left.
  - intros l Hl. apply (co_own _ _ _ _ _ _ Hok t _ l Ht). done.
  - intros u q l Hu Hq Hl. pose proof (others_keep _ _ _ _ _ _ _ _ Hok Ht u q l Hu Hq Hl). done.
  - intros u q l Hu Hq Hl. pose proof (others_keep _ _ _ _ _ _ _ _ Hok Ht u q l Hu Hq Hl). done.
Qed.

Lemma c_good_lock p o node : pcs !! t = Some (CLock o node) → c_good pcs log t (coarse_step t p 0 (CLock o node) h m).
Proof.
  intros Ht. cbn. assert (m = None ∨ ∃ u, m = Some u) as [Hm | [u Hm]] by (clear; destruct m; eauto); rewrite Hm; [| done].
  exists ps, s. cbn.
  pose proof (co_point _ _ _ _ _ _ Hok _ _ Ht) as Hp.
  eapply coarse_ok_step; try done.
  - by eapply list_ok_insert.
  - apply replay_none.
  - intros l Hl. by apply (co_own _ _ _ _ _ _ Hok t _ l Ht).
  - intros u Hu. rewrite Hm. naive_solver.
  - by right.
  - intros u q l Hu Hq Hl. apply (others_keep _ _ _ _ _ _ _ _ Hok Ht u q l Hu Hq Hl).
Qed.
End points.

(** ** The steps that change memory *)

Section changes.
Context (h : heap) (m : option nat) (pcs : list cpc) (log : list event) (ps : list nat) (s : gset Z).
Context (t : nat) (Hok : coarse_ok h m pcs log ps s).

Let Hlist := co_list _ _ _ _ _ _ Hok.
Let Hch := lo_chain _ _ _ _ Hlist.

(** A change of a node outside the list. *)
Lemma list_ok_outside h' p p' :
  pcs !! t = Some p → (∀ k node x y, p ≠ CLink2 k node x y) → (∀ x, x ∈ ps → h' !! x = h !! x) →
  list_ok h' (<[t := p']> pcs) ps s.
Proof.
  intros Ht Hp Hsame. destruct (list_ok_insert _ _ _ _ _ _ _ _ Hok Ht p' Hp) as [L1 L2 L3 L4 L5].
  assert (∀ x, x ∈ ps → key_at h x = key_at h' x) as Hk by (intros x Hx; unfold key_at; by rewrite Hsame).
  split.
  - by eapply chain_ext.
  - by eapply represents_ext.
  - rewrite <- Hk; [done | by eapply chain_tail].
  - intros x Hx. rewrite Hsame by done. by apply L4.
  - intros x y Hxy. unfold c_linked. rewrite Hsame by (by eapply adj_l). by apply L5.
Qed.

Lemma c_good_idle o l : op_key o < int_max → pcs !! t = Some CIdle → c_good pcs log t (coarse_step t o l CIdle h m).
Proof.
  intros Hmax Ht.
  assert (c_good pcs log t (Ret (Some (mkCres (CLock o None) h m (Some (Call t o))))) ∨ ∃ k, o = Add k) as Hno.
  { destruct o as [k | k | k]; [by eauto | left | left]; exists ps, s; (eapply coarse_ok_step; try done;
      [by eapply list_ok_insert | by eapply replay_none | by apply (co_mutex _ _ _ _ _ _ Hok _ _ Ht) | by right |];
      intros u q x Hu Hq Hx; split_and!; try done; by eapply (co_own _ _ _ _ _ _ Hok u q)). }
  destruct o as [k | k | k]; cbn; [| by destruct Hno as [? | [k' ?]] ..].
  destruct (h !! l) as [n |] eqn:Hl; [done |]. exists ps, s. cbn.
  assert (∀ x, is_Some (h !! x) → <[l := mkNode k Uninit None]> h !! x = h !! x) as Hsame.
  { intros x [n Hx]. rewrite lookup_insert_ne; [done | congruence]. }
  assert (l ∉ ps) as Hnot.
  { intros Hin. apply (lo_alloc _ _ _ _ Hlist) in Hin as [? ?]. congruence. }
  assert (∀ x, x ∈ ps → <[l := mkNode k Uninit None]> h !! x = h !! x) as Hps.
  { intros x Hx. by apply Hsame, (lo_alloc _ _ _ _ Hlist). }
  eapply coarse_ok_step; try done.
  - by eapply list_ok_outside.
  - by eapply replay_none.
  - split; [done |]. exists l. split; [done |]. unfold key_at. by rewrite lookup_insert_eq.
  - intros x [= <-]. rewrite lookup_insert_eq. eauto.
  - by apply (co_mutex _ _ _ _ _ _ Hok _ _ Ht).
  - by right.
  - intros u q x Hu Hq Hx. destruct (co_own _ _ _ _ _ _ Hok u q x Hq Hx) as [Hxp [n Hn]].
    split_and!; [intros [= <-]; congruence | by apply Hsame | done].
Qed.

Lemma c_good_free o l r curr :
  pcs !! t = Some (CFree r curr) → c_good pcs log t (coarse_step t o l (CFree r curr) h m).
Proof.
  intros Ht. destruct (co_own _ _ _ _ _ _ Hok t _ curr Ht eq_refl) as [Hnot [n Hn]].
  cbn. rewrite (load_Ret _ _ _ Hn). exists ps, s. cbn.
  assert (∀ x, x ≠ curr → delete curr h !! x = h !! x) as Hsame by (intros x Hx; by rewrite lookup_delete_ne).
  eapply coarse_ok_step; try done.
  - eapply list_ok_outside; [done | done |]. intros x Hx. apply Hsame. congruence.
  - by eapply replay_none.
  - by apply (co_mutex _ _ _ _ _ _ Hok _ _ Ht).
  - right. split; [done |]. intros x Hx. apply Hsame. congruence.
  - intros u q x Hu Hq Hx. destruct (others_keep _ _ _ _ _ _ _ _ Hok Ht u q x Hu Hq Hx) as (Hne & _ & ?).
    split_and!; [done | | done]. apply Hsame. cbn in Hne. congruence.
Qed.

Lemma c_good_link1 o l k node prev curr :
  pcs !! t = Some (CLink1 k node prev curr) → c_good pcs log t (coarse_step t o l (CLink1 k node prev curr) h m).
Proof.
  intros Ht. pose proof (co_point _ _ _ _ _ _ Hok _ _ Ht) as (Hn & Hb & Ha & Hk).
  destruct (co_own _ _ _ _ _ _ Hok t _ node Ht eq_refl) as [Hnot Hnode].
  destruct (list_ok_insert _ _ _ _ _ _ _ _ Hok Ht (CLink2 k node prev curr)) as [L1 L2 L3 L4 L5]; [done |].
  pose proof (adj_l _ _ _ Ha) as Hp. destruct (L4 prev Hp) as [np Hnp].
  cbn. rewrite (store_Ret _ _ _ _ Hnp). exists ps, s. cbn.
  set (h' := <[prev := set_next (Ptr node) np]> h).
  assert (∀ x, key_at h' x = key_at h x) as Hkey by (intros x; by eapply key_at_update).
  assert (∀ x, x ≠ prev → h' !! x = h !! x) as Hsame by (intros x Hx; unfold h'; by rewrite lookup_insert_ne).
  eapply coarse_ok_step; try done.
  - split.
    + eapply chain_ext; [| done]. by intros.
    + eapply represents_ext; [| done]. by intros.
    + by rewrite Hkey.
    + intros x Hx. unfold h'. apply lookup_insert_is_Some'. auto.
    + intros x y Hxy. destruct (decide (x = prev)) as [-> | Hne].
      * right. exists t, k, node. rewrite (adj_fun ps prev y curr) by (done || by apply (c_nodup _ _ L1)).
        rewrite list_lookup_insert_eq; [done |]. by eapply lookup_lt_Some.
      * unfold c_linked. rewrite Hsame by done. by apply L5.
  - by eapply replay_none.
  - cbn. unfold node_ok, before. rewrite !Hkey. split_and!; try done; [apply Hn | |].
    + exists node. split; [done |]. destruct Hn as [_ (? & [= <-] & ?)]. by rewrite Hkey.
    + unfold h'. by rewrite lookup_insert_eq.
  - intros x [= <-]. split; [done |]. unfold h'. apply lookup_insert_is_Some'. auto.
  - by apply (co_mutex _ _ _ _ _ _ Hok _ _ Ht).
  - by left.
  - intros u q x Hu Hq Hx. destruct (others_keep _ _ _ _ _ _ _ _ Hok Ht u q x Hu Hq Hx) as (? & _ & ?).
    split_and!; [done | | done]. apply Hsame. congruence.
Qed.

Lemma c_good_link2 o l k node prev curr :
  pcs !! t = Some (CLink2 k node prev curr) → c_good pcs log t (coarse_step t o l (CLink2 k node prev curr) h m).
Proof.
  intros Ht. pose proof (co_point _ _ _ _ _ _ Hok _ _ Ht) as ([Hmax (? & [= <-] & Hkn)] & Hb & Ha & Hk & Hnext).
  cbn in Hmax. destruct (co_own _ _ _ _ _ _ Hok t _ node Ht eq_refl) as [Hnot [nd Hnd]].
  pose proof Hlist as [L1 L2 L3 L4 L5]. cbn. rewrite (store_Ret _ _ _ _ Hnd). cbn.
  destruct (chain_insert_adj (key_at h) ps s prev curr node) as (ps' & Hch' & Hrep' & Hin' & Hadj');
    [done | done | done | done | by rewrite Hkn | by rewrite Hkn |].
  rewrite Hkn in Hrep'. exists ps', ({[k]} ∪ s). set (h' := <[node := set_next (Ptr curr) nd]> h).
  assert (∀ x, key_at h' x = key_at h x) as Hkey by (intros x; by eapply key_at_update).
  assert (∀ x, x ≠ node → h' !! x = h !! x) as Hsame by (intros x Hx; unfold h'; by rewrite lookup_insert_ne).
  assert (k ∉ s) as Hfresh.
  { rewrite (chain_find (key_at h) ps s prev curr k) by (done || lia). lia. }
  pose proof (adj_l _ _ _ Ha) as Hp.
  eapply coarse_ok_step; try done.
  - split.
    + eapply chain_ext; [| done]. by intros.
    + eapply represents_ext; [| done]. by intros.
    + by rewrite Hkey.
    + intros x Hx%Hin'. unfold h'. apply lookup_insert_is_Some'. destruct Hx; auto.
    + intros x y [[-> ->] | [[-> ->] | [Hne Hxy]]]%Hadj'.
      * left. rewrite Hsame; [done | congruence].
      * left. unfold h'. by rewrite lookup_insert_eq.
      * unfold c_linked. rewrite Hsame by (intros ->; by apply Hnot, (adj_l _ _ y)).
        destruct (L5 x y Hxy) as [? | (u & k0 & n0 & Hu)]; [by left | right].
        exists u, k0, n0. rewrite list_lookup_insert_ne; [done |]. congruence.
  - eapply replay_event; [done |]. cbn. by rewrite decide_False.
  - by apply (co_mutex _ _ _ _ _ _ Hok _ _ Ht).
  - by left.
  - intros u q x Hu Hq Hx. destruct (others_keep _ _ _ _ _ _ _ _ Hok Ht u q x Hu Hq Hx) as (Hne & _ & ?).
    cbn in Hne. split_and!; [done | |]; [apply Hsame; congruence |]. rewrite Hin'. intros [-> | ?]; done.
Qed.

Lemma c_good_unlink o l k prev curr :
  pcs !! t = Some (CUnlink k prev curr) → c_good pcs log t (coarse_step t o l (CUnlink k prev curr) h m).
Proof.
  intros Ht. pose proof (co_point _ _ _ _ _ _ Hok _ _ Ht) as (Hmax & Hb & Ha & Hk).
  pose proof (adj_l _ _ _ Ha) as Hp. pose proof (adj_r _ _ _ Ha) as Hc.
  pose proof Hlist as [L1 L2 L3 L4 L5]. destruct (L4 prev Hp) as [np Hnp].
  destruct (c_next _ _ _ _ _ _ _ Hok _ curr Ht I) as (nc & b & Hnc & Hnb & Hcb); [done | done | |].
  { intros ->. lia. }
  cbn. rewrite (load_Ret _ _ _ Hnc). cbn. rewrite (store_Ret _ _ _ _ Hnp). cbn. rewrite Hnb.
  destruct (chain_remove_adj (key_at h) ps s prev curr b) as (ps' & Hch' & Hrep' & Hin' & Hout & Hadj'); try done.
  rewrite Hk in Hrep'. exists ps', (s ∖ {[k]}). set (h' := <[prev := set_next (Ptr b) np]> h).
  assert (∀ x, key_at h' x = key_at h x) as Hkey by (intros x; by eapply key_at_update).
  assert (∀ x, x ≠ prev → h' !! x = h !! x) as Hsame by (intros x Hx; unfold h'; by rewrite lookup_insert_ne).
  assert (k ∈ s) as Hin by (by rewrite (chain_find (key_at h) ps s prev curr k) by (done || lia)).
  eapply coarse_ok_step; try done.
  - split.
    + eapply chain_ext; [| done]. by intros.
    + eapply represents_ext; [| done]. by intros.
    + by rewrite Hkey.
    + intros x Hx. unfold h'. apply lookup_insert_is_Some'. right. apply L4, Hin'. auto.
    + intros x y [[-> ->] | (Hne & Hne' & Hxy)]%Hadj'.
      * left. unfold h'. by rewrite lookup_insert_eq.
      * unfold c_linked. rewrite Hsame by done.
        destruct (L5 x y Hxy) as [? | (u & k0 & n0 & Hu)]; [by left | right].
        exists u, k0, n0. rewrite list_lookup_insert_ne; [done |]. congruence.
  - eapply replay_event; [done |]. cbn. by rewrite decide_True.
  - intros x [= <-]. split; [done |]. unfold h'. apply lookup_insert_is_Some'. eauto.
  - by apply (co_mutex _ _ _ _ _ _ Hok _ _ Ht).
  - by left.
  - intros u q x Hu Hq Hx. destruct (co_own _ _ _ _ _ _ Hok u q x Hq Hx) as [Hxp _]. cbn.
    split_and!; [congruence | apply Hsame; congruence |]. intros Hx'. apply Hxp, Hin'. auto.
Qed.
End changes.

(** ** The theorems *)

Lemma coarse_ok_start n : coarse_ok list_init None (replicate n CIdle) [] [head; tail] ∅.
Proof.
  assert (∀ t p, replicate n CIdle !! t = Some p → p = CIdle) as Hp by (by intros t p [? _]%lookup_replicate).
  split; [split | | | | |].
  - apply chain_init.
  - apply represents_init.
  - done.
  - apply alloc_init.
  - intros x y [-> ->]%adj_init. by left.
  - done.
  - by intros t p ->%Hp.
  - by intros t p l ->%Hp.
  - by intros t p ->%Hp.
  - intros t u p q l _ ->%Hp _ Hown. done.
Qed.

(** Only the call of an operation depends on its key. *)
Lemma coarse_step_good h m pcs log ps s t p o l :
  coarse_ok h m pcs log ps s → pcs !! t = Some p → (p = CIdle → op_key o < int_max) →
  c_good pcs log t (coarse_step t o l p h m).
Proof.
  intros Hok Ht Hmax. destruct p.
  - eapply c_good_idle; [done | by apply Hmax | done].
  - by eapply (c_good_lock h m pcs log ps s t Hok o).
  - by eapply (c_good_head h m pcs log ps s t Hok o).
  - by eapply (c_good_test h m pcs log ps s t Hok o).
  - by eapply (c_good_next h m pcs log ps s t Hok o).
  - by eapply c_good_link1.
  - by eapply c_good_link2.
  - by eapply c_good_unlink.
  - by eapply (c_good_unlock h m pcs log ps s t Hok o).
  - by eapply c_good_free.
Qed.

Lemma coarse_sys_inv t o l σ σ' :
  coarse_sys_step t o l σ = Ret (Some σ') →
  ∃ p r, cpcs σ !! t = Some p ∧ coarse_step t o l p (cheap σ) (cmutex σ) = Ret (Some r) ∧
    σ' = mkCsys (r_heap r) (r_mutex r) (<[t := r_pc r]> (cpcs σ)) (chist σ ++ option_list (r_act r)).
Proof.
  unfold coarse_sys_step. destruct (cpcs σ !! t) as [p |]; [| done].
  intros ([r |] & Hr & [= <-])%bind_Ret_inv. eauto.
Qed.

(** A thread without a call is about to make one. *)
Lemma coarse_idle_calls t o l h m r : coarse_step t o l CIdle h m = Ret (Some r) → r_act r = Some (Call t o).
Proof. cbn. destruct o; [destruct (h !! l) |..]; intros [= <-]; done. Qed.

Lemma coarse_reachable_ok n σ :
  rtc cstep (coarse_start n) σ → keys_below (chist σ) →
  ∃ ps s, coarse_ok (cheap σ) (cmutex σ) (cpcs σ) (effects (chist σ)) ps s.
Proof.
  refine (rtc_ind_r (λ σ, keys_below (chist σ) → ∃ ps s, coarse_ok (cheap σ) (cmutex σ) (cpcs σ) (effects (chist σ)) ps s) _ _ _ σ).
  - exists [head; tail], ∅. apply coarse_ok_start.
  - intros σ1 _ _ [t o l σ1' σ2 (p & r & Ht & Hr & ->)%coarse_sys_inv] IH Hk. cbn in Hk |- *.
    apply Forall_app in Hk as [Hk1 Hk2]. destruct (IH Hk1) as (ps & s & Hok).
    assert (p = CIdle → op_key o < int_max) as Hmax.
    { intros ->. rewrite (coarse_idle_calls _ _ _ _ _ _ Hr) in Hk2. by apply Forall_cons in Hk2 as [? _]. }
    pose proof (coarse_step_good _ _ _ _ _ _ t p o l Hok Ht Hmax) as Hgood. rewrite Hr in Hgood.
    rewrite effects_app. replace (effects (option_list (r_act r))) with (option_list (r_event r)); [exact Hgood |].
    unfold r_event. by destruct (r_act r) as [[] |].
Qed.

(** What the program counter of a thread says about its call. *)
Definition coarse_stage (p : cpc) (st : stage) : Prop :=
  match p with
  | CIdle => st = Between
  | CLock o _ | CHead o _ | CTest o _ _ _ | CNext o _ _ _ => st = Called o
  | CLink1 k _ _ _ | CLink2 k _ _ _ => st = Called (Add k)
  | CUnlink k _ _ => st = Called (Remove k)
  | CUnlock r _ | CFree r _ => ∃ o, st = Took o r
  end.

Lemma coarse_decide_stage t o node prev curr found p a :
  coarse_decide t o node prev curr found = Ret (p, a) → stage_step coarse_stage t (CTest o node prev (Ptr curr)) p a.
Proof.
  intros Hd st ->. destruct o, found; cbn in Hd; try case_match; simplify_eq; try done;
    (split; [done |]; eexists; split; [apply advance_effect |]; cbn; eauto).
Qed.

Lemma coarse_step_stage t o l p h m r :
  coarse_step t o l p h m = Ret (Some r) → stage_step coarse_stage t p (r_pc r) (r_act r).
Proof.
  intros Hr. destruct p; cbn in Hr; repeat (bind_inv Hr || case_match); simplify_eq; cbn [r_pc r_act];
    intros st Hst; try (by eapply coarse_decide_stage); cbn in Hst; simplify_eq; cbn [coarse_stage]; eauto.
  - split; [done |]. eexists. split; [apply advance_effect |]. cbn. eauto.
  - split; [done |]. eexists. split; [apply advance_effect |]. cbn. eauto.
  - destruct Hst as [o0 ->]. split; [done |]. eexists. by split; [apply advance_return |].
  - destruct Hst as [o0 ->]. split; [done |]. eexists. by split; [apply advance_return |].
Qed.

Lemma coarse_staged n σ : rtc cstep (coarse_start n) σ → staged coarse_stage (cpcs σ) (chist σ).
Proof.
  apply rtc_ind_r with (P := λ σ, staged coarse_stage (cpcs σ) (chist σ)); [by apply staged_start |].
  intros σ1 _ _ [t o l σ1' σ2 (p & r & Ht & Hr & ->)%coarse_sys_inv] IH. cbn.
  eapply staged_step; [done | done | by eapply coarse_step_stage].
Qed.

(** The coarse-grained list is linearizable as long as the keys of the calls are
    below [INT_MAX], and at most one thread is between locking and unlocking the
    mutex. *)
Theorem coarse_linearizable n σ :
  rtc cstep (coarse_start n) σ → keys_below (chist σ) →
  staged coarse_stage (cpcs σ) (chist σ) ∧
  (∃ s ps, replay (effects (chist σ)) ∅ = Some s ∧ chain (key_at (cheap σ)) ps ∧ represents (key_at (cheap σ)) ps s ∧
    ∀ x y, adj ps x y → c_linked (cheap σ) (cpcs σ) x y) ∧
  ∀ t u p q, cpcs σ !! t = Some p → cpcs σ !! u = Some q → critical p → critical q → t = u.
Proof.
  intros Hs Hk. split; [by eapply coarse_staged |].
  destruct (coarse_reachable_ok _ _ Hs Hk) as (ps & s & [[L1 L2 _ _ L5] O2 _ _ O5 _]). split; [exists s, ps; auto |].
  intros t u p q Ht Hu Hp%(O5 t p Ht) Hq%(O5 u q Hu). congruence.
Qed.

(** The coarse-grained list is memory safe as long as the keys of the calls are
    below [INT_MAX]. *)
Theorem coarse_memory_safe n σ t o l :
  rtc cstep (coarse_start n) σ → keys_below (chist σ) → (cpcs σ !! t = Some CIdle → op_key o < int_max) →
  ∃ r, coarse_sys_step t o l σ = Ret r.
Proof.
  intros Hs Hk Hmax. destruct (coarse_reachable_ok _ _ Hs Hk) as (ps & s & Hok). unfold coarse_sys_step.
  destruct (cpcs σ !! t) as [p |] eqn:Ht; [| eauto].
  pose proof (coarse_step_good _ _ _ _ _ _ t p o l Hok Ht) as Hgood.
  destruct (coarse_step t o l p (cheap σ) (cmutex σ)) as [[r |] | |]; cbn; eauto; exfalso; apply Hgood; intros ->; auto.
Qed.

Fixpoint run_coarse (sched : list (nat * op * nat)) (σ : csys) : outcome (option csys) :=
  match sched with
  | [] => Ret (Some σ)
  | (t, o, l) :: sched =>
      r ← coarse_sys_step t o l σ;
      match r with
      | None => Ret None
      | Some σ => run_coarse sched σ
      end
  end.

Lemma run_coarse_steps sched σ σ' :
  run_coarse sched σ = Ret (Some σ') → rtc cstep σ σ'.
Proof.
  revert σ. induction sched as [| [[t o] l] sched IH]; intros σ; cbn [run_coarse]; [by intros [= ->] |].
  intros ([σ1 |] & H1 & H2)%bind_Ret_inv; [| done]. eapply rtc_l; [by econstructor | by apply IH].
Qed.

(** Thread 0 adds 5 while thread 1 has allocated the node for 3. *)
Definition coarse_schedule : list (nat * op * nat) :=
  [(0, Add 5, 2); (1, Add 3, 3)]%nat ++ replicate 6 (0%nat, Add 0, 0%nat) ++ replicate 6 (1%nat, Add 0, 0%nat) ++
  replicate 9 (0%nat, Remove 5, 0%nat).

Definition coarse_after : csys :=
  match run_coarse coarse_schedule (coarse_start 2) with Ret (Some σ) => σ | _ => coarse_start 2 end.

Lemma coarse_after_reachable : rtc cstep (coarse_start 2) coarse_after.
Proof. apply (run_coarse_steps coarse_schedule). vm_compute; reflexivity. Qed.

Lemma coarse_after_keys : keys_below (chist coarse_after).
Proof. apply (bool_decide_unpack _). vm_compute. constructor. Qed.

Lemma coarse_linearizable_witness :
  effects (chist coarse_after) = [mkEvent 0 (Add 5) true; mkEvent 1 (Add 3) true; mkEvent 0 (Remove 5) true] ∧
  staged coarse_stage (cpcs coarse_after) (chist coarse_after) ∧
  (∃ s ps, replay (effects (chist coarse_after)) ∅ = Some s ∧ chain (key_at (cheap coarse_after)) ps ∧
    represents (key_at (cheap coarse_after)) ps s ∧
    ∀ x y, adj ps x y → c_linked (cheap coarse_after) (cpcs coarse_after) x y) ∧
  ∀ t u p q, cpcs coarse_after !! t = Some p → cpcs coarse_after !! u = Some q → critical p → critical q → t = u.
Proof.
  split; [vm_compute; reflexivity |]. apply (coarse_linearizable 2); [apply coarse_after_reachable | apply coarse_after_keys].
Defined.

Lemma coarse_memory_safe_witness : ∃ r, coarse_sys_step 1 (Contains 3) 0 coarse_after = Ret r.
Proof.
  apply (coarse_memory_safe 2); [apply coarse_after_reachable | apply coarse_after_keys |].
  intros _. vm_compute; reflexivity.
Defined.

(** The keys of the sentinels are not protected: on the empty list
    [list_contains] finds [INT_MAX], and after [list_remove] of [INT_MAX] has
    unlinked and freed the tail the next operation follows the null pointer
    left in the head. *)
Theorem coarse_remove_tail :
  (∃ σ, run_coarse (replicate 5 (0%nat, Contains int_max, 0%nat)) (coarse_start 1) = Ret (Some σ) ∧
    chist σ = [Call 0 (Contains int_max); Effect (mkEvent 0 (Contains int_max) true); Return 0 true]) ∧
  (∃ σ, run_coarse (replicate 7 (0%nat, Remove int_max, 0%nat)) (coarse_start 1) = Ret (Some σ) ∧
    effects (chist σ) = [mkEvent 0 (Remove int_max) true] ∧ cpcs σ = [CIdle] ∧
    run_coarse (replicate 4 (0%nat, Contains 0, 0%nat)) σ = UB).
Proof.
  split; (eexists; split; [vm_compute; reflexivity |]); [vm_compute; reflexivity |].
  split; [reflexivity | split; [reflexivity | vm_compute; reflexivity]].
Qed.
