(* ===== verification/FineList.v ===== *)
(** * The fine-grained list of lab 11 (src/lab11/fine_grained.cpp)

    Hand-over-hand locking.  Every thread runs any sequence of operations; a
    step is one access to a node.  The history of a run has the calls, the
    points where they take effect and the values they return.  The theorems: as
    long as the keys of the calls are below [INT_MAX], no step touches freed or
    uninitialised memory, and the operations are linearizable, each taking
    effect at one of its steps as the operation of a set, whose result it
    returns.  With the key [INT_MAX], which the code does not refuse, neither
    holds ([fine_remove_tail]). *)

From S2P Require Import Prelude ListHeap.

(** ** The machine *)

(** Program points of [list_add], [list_remove] and [list_contains]; [node] is
    the node [list_add] has allocated.  [FLockHead]: about to lock the head;
    [FNext]: about to read [prev->next]; [FLockCurr]: about to lock it;
    [FTest]: both locked, about to test the key; [FMove]: about to unlock
    [prev] and go on; [FLink1], [FLink2]: the two stores of [list_add];
    [FUnlink]: the store of [list_remove]; [FUnlockP], [FUnlockC], [FFree]:
    the exits, with the result to return. *)
Inductive fpc :=
| FIdle
| FLockHead (o : op) (node : option nat)
| FNext (o : op) (node : option nat) (prev : nat)
| FLockCurr (o : op) (node : option nat) (prev : nat) (curr : ptr)
| FTest (o : op) (node : option nat) (prev curr : nat)
| FMove (o : op) (node : option nat) (prev curr : nat)
| FLink1 (key : Z) (node prev curr : nat)
| FLink2 (key : Z) (node prev curr : nat)
| FUnlink (key : Z) (prev curr : nat)
| FUnlockP (r : bool) (prev curr : nat) (removed : bool)
| FUnlockC (r : bool) (curr : nat) (removed : bool)
| FFree (r : bool) (curr : nat).

(** After the loop: compare the key of [curr]. *)
Definition decide_op (t : nat) (o : op) (node : option nat) (prev curr : nat) (found : bool) :
    outcome (fpc * option action) :=
  match o with
  | Add k =>
      if found then Ret (FUnlockP false prev curr false, Some (Effect (mkEvent t o false)))
      else match node with Some n => Ret (FLink1 k n prev curr, None) | None => UB end
  | Remove k =>
      if found then Ret (FUnlink k prev curr, None)
      else Ret (FUnlockP false prev curr false, Some (Effect (mkEvent t o false)))
  | Contains k => Ret (FUnlockP found prev curr false, Some (Effect (mkEvent t o found)))
  end.

Record fres := mkFres { f_pc : fpc; f_heap : heap; f_act : option action }.

Definition f_event (r : fres) : option event := f_act r ≫= effect_of.

(** A step of thread [t].  [o]: the next operation of its workload; [l]: where
    [malloc] puts a node, which must be free memory. *)
Definition fine_step (t : nat) (o : op) (l : nat) (p : fpc) (h : heap) : outcome (option fres) :=
  match p with
  | FIdle =>
      match o with
      | Add k =>
          match h !! l with
          | Some _ => Ret None
          | None => Ret (Some (mkFres (FLockHead o (Some l)) (<[l := mkNode k Uninit None]> h) (Some (Call t o))))
          end
      | _ => Ret (Some (mkFres (FLockHead o None) h (Some (Call t o))))
      end
  | FLockHead o node =>
      r ← lock t head h;
      match r with
      | None => Ret None
      | Some h => Ret (Some (mkFres (FNext o node head) h None))
      end
  | FNext o node prev =>
      n ← load h prev;
      Ret (Some (mkFres (FLockCurr o node prev (n_next n)) h None))
  | FLockCurr o node prev curr =>
      c ← deref curr;
      r ← lock t c h;
      match r with
      | None => Ret None
      | Some h => Ret (Some (mkFres (FTest o node prev c) h None))
      end
  | FTest o node prev curr =>
      n ← load h curr;
      if bool_decide (n_key n < op_key o) then Ret (Some (mkFres (FMove o node prev curr) h None))
      else
        '(p, a) ← decide_op t o node prev curr (bool_decide (n_key n = op_key o));
        Ret (Some (mkFres p h a))
  | FMove o node prev curr =>
      h ← unlock prev h;
      Ret (Some (mkFres (FNext o node curr) h None))
  | FLink1 k node prev curr =>
      h ← store h prev (set_next (Ptr node));
      Ret (Some (mkFres (FLink2 k node prev curr) h None))
  | FLink2 k node prev curr =>
      h ← store h node (set_next (Ptr curr));
      Ret (Some (mkFres (FUnlockP true prev curr false) h (Some (Effect (mkEvent t (Add k) true)))))
  | FUnlink k prev curr =>
      n ← load h curr;
      h ← store h prev (set_next (n_next n));
      Ret (Some (mkFres (FUnlockP true prev curr true) h (Some (Effect (mkEvent t (Remove k) true)))))
  | FUnlockP r prev curr removed =>
      h ← unlock prev h;
      Ret (Some (mkFres (FUnlockC r curr removed) h None))
  | FUnlockC r curr removed =>
      h ← unlock curr h;
      Ret (Some (if removed then mkFres (FFree r curr) h None else mkFres FIdle h (Some (Return t r))))
  | FFree r curr =>
      _ ← load h curr;
      Ret (Some (mkFres FIdle (delete curr h) (Some (Return t r))))
  end.

(** [fhist]: the calls, what took effect and the values returned so far. *)
Record fsys := mkFsys { fheap : heap; fpcs : list fpc; fhist : list action }.

Definition fine_start (n : nat) : fsys := mkFsys list_init (replicate n FIdle) [].

Definition fine_sys_step (t : nat) (o : op) (l : nat) (σ : fsys) : outcome (option fsys) :=
  match fpcs σ !! t with
  | None => Ret None
  | Some p =>
      r ← fine_step t o l p (fheap σ);
      match r with
      | None => Ret None
      | Some r =>
          Ret (Some (mkFsys (f_heap r) (<[t := f_pc r]> (fpcs σ)) (fhist σ ++ option_list (f_act r))))
      end
  end.

Inductive fstep : fsys → fsys → Prop :=
| fstep_intro t o l σ σ' :
    fine_sys_step t o l σ = Ret (Some σ') → fstep σ σ'.

(** ** The invariant *)

(** The node a thread has to itself: allocated and not linked yet, or unlinked
    and not freed yet. *)
Definition own (p : fpc) : option nat :=
  match p with
  | FLockHead _ node | FNext _ node _ | FLockCurr _ node _ _ | FTest _ node _ _ | FMove _ node _ _ => node
  | FLink1 _ node _ _ | FLink2 _ node _ _ => Some node
  | FUnlockP _ _ curr true | FUnlockC _ curr true | FFree _ curr => Some curr
  | _ => None
  end.

Section thread_ok.
Context (h : heap) (ps : list nat) (t : nat).

(** A pair of locked neighbours. *)
Definition holds (prev curr : nat) : Prop := adj ps prev curr ∧ locked h t prev ∧ locked h t curr.

Definition point_ok (p : fpc) : Prop :=
  match p with
  | FIdle => True
  | FLockHead o node => node_ok h o node
  | FNext o node prev =>
      node_ok h o node ∧ before h prev (op_key o) ∧ prev ∈ ps ∧ prev ≠ tail ∧ locked h t prev
  | FLockCurr o node prev curr =>
      node_ok h o node ∧ before h prev (op_key o) ∧ locked h t prev ∧ ∃ c, curr = Ptr c ∧ adj ps prev c
  | FTest o node prev curr => node_ok h o node ∧ before h prev (op_key o) ∧ holds prev curr
  | FMove o node prev curr =>
      node_ok h o node ∧ before h prev (op_key o) ∧ holds prev curr ∧ key_at h curr < op_key o
  | FLink1 k node prev curr =>
      node_ok h (Add k) (Some node) ∧ before h prev k ∧ holds prev curr ∧ k < key_at h curr
  | FLink2 k node prev curr =>
      node_ok h (Add k) (Some node) ∧ before h prev k ∧ holds prev curr ∧ k < key_at h curr ∧
      n_next <$> h !! prev = Some (Ptr node)
  | FUnlink k prev curr => k < int_max ∧ before h prev k ∧ holds prev curr ∧ key_at h curr = k
  | FUnlockP r prev curr removed => prev ∈ ps ∧ prev ≠ curr ∧ locked h t prev ∧ locked h t curr ∧ (removed = false → curr ∈ ps)
  | FUnlockC r curr removed => locked h t curr ∧ (removed = false → curr ∈ ps)
  | FFree r curr => True
  end.

Record thread_ok (p : fpc) : Prop := {
  to_point : point_ok p;
  to_own l : own p = Some l → l ∉ ps ∧ ∃ n, h !! l = Some n ∧ (n_lock n = None ∨ n_lock n = Some t)
}.
End thread_ok.

(** The pointer from [x] to the next node [y] is in place, or [list_add] has
    already stored the new node there. *)
Definition linked (h : heap) (pcs : list fpc) (x y : nat) : Prop :=
  n_next <$> h !! x = Some (Ptr y) ∨
  ∃ t k node, pcs !! t = Some (FLink2 k node x y).

Record fine_ok (h : heap) (pcs : list fpc) (log : list event) (ps : list nat) (s : gset Z) : Prop := {
  fo_chain : chain (key_at h) ps;
  fo_set : represents (key_at h) ps s;
  fo_log : replay log ∅ = Some s;
  fo_max : key_at h tail = int_max;
  fo_alloc x : x ∈ ps → is_Some (h !! x);
  fo_link x y : adj ps x y → linked h pcs x y;
  fo_thread t p : pcs !! t = Some p → thread_ok h ps t p;
  fo_own t u p q l : t ≠ u → pcs !! t = Some p → pcs !! u = Some q → own p = Some l → own q ≠ Some l
}.

(** What a thread keeps when another one steps. *)
Record frame (h h' : heap) (ps ps' : list nat) (t : nat) (p : fpc) : Prop := {
  fr_locked l n : h !! l = Some n → n_lock n = Some t → h' !! l = Some n;
  fr_own l n : own p = Some l → h !! l = Some n → h' !! l = Some n;
  fr_own_out l : own p = Some l → l ∉ ps → l ∉ ps';
  fr_in x : x ∈ ps → locked h t x → x ∈ ps';
  fr_adj x y : adj ps x y → locked h t x → adj ps' x y
}.

Lemma frame_thread_ok h h' ps ps' t p : frame h h' ps ps' t p → thread_ok h ps t p → thread_ok h' ps' t p.
Proof.
  intros [F1 F2 F3 F4 F5] [Hp Ho].
  assert (∀ l, locked h t l → locked h' t l ∧ key_at h' l = key_at h l ∧ h' !! l = h !! l) as Hl.
  { intros l (n & Hn & Ht). pose proof (F1 l n Hn Ht) as Hn'. unfold locked, key_at. rewrite Hn', Hn. eauto. }
  assert (∀ o node, own p = node → node_ok h o node → node_ok h' o node) as Hnode.
  { intros o node Hown [Hk Hn]. split; [done |]. destruct o; try done.
    destruct Hn as (n & -> & Hkey). exists n. split; [done |].
    destruct (Ho n Hown) as (_ & nd & Hnd & _). unfold key_at in *. by rewrite (F2 n nd Hown Hnd), <- Hkey, Hnd. }
  assert (∀ l k, locked h t l → before h l k → before h' l k) as Hbef.
  { intros l k Hlk [? | Hb]; [by left | right]. destruct (Hl l Hlk) as (_ & -> & _). done. }
  assert (∀ a b, holds h ps t a b → holds h' ps' t a b ∧ key_at h' b = key_at h b ∧ h' !! a = h !! a) as Hholds.
  { intros a b (Ha & Hb & Hc). pose proof (Hl a Hb) as (?&_&?). pose proof (Hl b Hc) as (?&?&_).
    repeat split; auto. }
  split.
  - destruct p; cbn in Hp |- *; try done.
    + by apply Hnode.
    + destruct Hp as (?&?&?&?&Hlk). destruct (Hl _ Hlk). auto 10.
    + destruct Hp as (?&?&Hlk&c&->&?). destruct (Hl _ Hlk). eauto 10.
    + destruct Hp as (?&?&Hh). pose proof Hh as (_&?&_). destruct (Hholds _ _ Hh) as (?&?&_). auto 10.
    + destruct Hp as (?&?&Hh&?). pose proof Hh as (_&?&_). destruct (Hholds _ _ Hh) as (?&->&_). auto 10.
    + destruct Hp as (?&?&Hh&?). pose proof Hh as (_&?&_). destruct (Hholds _ _ Hh) as (?&->&_). auto 10.
    + destruct Hp as (?&?&Hh&?&?). pose proof Hh as (_&?&_). destruct (Hholds _ _ Hh) as (?&->&->). auto 10.
    + destruct Hp as (?&?&Hh&?). pose proof Hh as (_&?&_). destruct (Hholds _ _ Hh) as (?&->&_). auto 10.
    + destruct Hp as (?&?&Hlp&Hlc&Hc). destruct (Hl _ Hlp), (Hl _ Hlc). auto 10.
    + destruct Hp as (Hlc&Hc). destruct (Hl _ Hlc). auto 10.
  - intros l Hown. destruct (Ho l Hown) as (Hnot & n & Hn & Hlock). split; [by apply F3 |].
    exists n. split; [by apply F2 | done].
Qed.

(** ** Preservation *)

Lemma own_insert_ok h pcs log ps s t p p' :
  fine_ok h pcs log ps s → pcs !! t = Some p → own p' = own p ∨ own p' = None →
  ∀ a b x y l, a ≠ b → <[t := p']> pcs !! a = Some x → <[t := p']> pcs !! b = Some y →
    own x = Some l → own y ≠ Some l.
Proof.
  intros Hok Ht Hown a b x y l Hne Ha Hb Hx Hy. pose proof (fo_own _ _ _ _ _ Hok) as Ho.
  apply list_lookup_insert_Some in Ha as [(<- & <- & _) | [Hta Ha]];
    apply list_lookup_insert_Some in Hb as [(Htb & <- & _) | [Htb Hb]]; try congruence.
  - destruct Hown as [He | He]; rewrite He in Hx; [| done]. by eapply (Ho t b p y l).
  - subst b. destruct Hown as [He | He]; rewrite He in Hy; [| done]. by eapply (Ho a t x p l).
  - by eapply (Ho a b x y l).
Qed.

(** The pending stores of [list_add] in other threads stay. *)
Lemma linked_insert h h' pcs t p p' x y :
  pcs !! t = Some p → (∀ k node, p ≠ FLink2 k node x y) →
  n_next <$> h' !! x = n_next <$> h !! x → linked h pcs x y → linked h' (<[t := p']> pcs) x y.
Proof.
  intros Ht Hp Hx [Hl | (u & k & node & Hu)]; [left; congruence | right].
  exists u, k, node. rewrite list_lookup_insert_ne; [done |]. intros ->. by apply (Hp k node); congruence.
Qed.

(** The node of a heap update is nobody else's. *)
Definition only_mine (h : heap) (pcs : list fpc) (t l : nat) (n : Node) : Prop :=
  h !! l = Some n ∧ (∀ u, u ≠ t → n_lock n ≠ Some u) ∧
  (∀ u q, u ≠ t → pcs !! u = Some q → own q ≠ Some l).

Lemma frame_update h ps pcs t l n n' u q :
  only_mine h pcs t l n → u ≠ t → pcs !! u = Some q → frame h (<[l := n']> h) ps ps u q.
Proof.
  intros (Hl & Hlock & Hown) Hu Hq. split; try done.
  - intros x nx Hx Hlk. rewrite lookup_insert_ne; [done |]. intros <-. simplify_eq. by apply (Hlock u).
  - intros x nx Hx Hnx. rewrite lookup_insert_ne; [done |]. intros <-. by apply (Hown u q Hu Hq).
Qed.

Section same_chain.
Context (h : heap) (pcs : list fpc) (log : list event) (ps : list nat) (s : gset Z).
Context (t : nat) (p p' : fpc) (log' : list event).
Context (Hok : fine_ok h pcs log ps s) (Ht : pcs !! t = Some p).
Context (Hp : ∀ k node x y, p ≠ FLink2 k node x y) (Hlog : replay log' ∅ = Some s).
Context (Hown : own p' = own p ∨ own p' = None).

(** A step that leaves the memory as it is. *)
Lemma fine_ok_read : point_ok h ps t p' → fine_ok h (<[t := p']> pcs) log' ps s.
Proof.
  intros Hp'. pose proof Hok as [O1 O2 O3 O4 O5 O6 O7 O8]. split; try done.
  - intros x y Hxy. by eapply linked_insert; [| | | apply O6].
  - intros u q [(<- & <- & _) | [_ Hu]]%list_lookup_insert_Some; [| by apply O7].
    split; [done |]. intros l Hl. apply (O7 t p Ht). destruct Hown; congruence.
  - by eapply own_insert_ok.
Qed.

(** A step that changes the mutex of a node. *)
Lemma fine_ok_mutex l n o :
  only_mine h pcs t l n → (o = None ∨ o = Some t) →
  point_ok (<[l := set_lock o n]> h) ps t p' →
  fine_ok (<[l := set_lock o n]> h) (<[t := p']> pcs) log' ps s.
Proof.
  intros Hmine Ho Hp'. pose proof Hmine as (Hl & _ & _). pose proof Hok as [O1 O2 O3 O4 O5 O6 O7 O8].
  assert (∀ x, key_at (<[l := set_lock o n]> h) x = key_at h x) as Hk by (intros x; by eapply key_at_update).
  split; try done.
  - eapply chain_ext; [| done]. by intros.
  - eapply represents_ext; [| done]. by intros.
  - by rewrite Hk.
  - intros x Hx. rewrite lookup_insert_is_Some'. auto.
  - intros x y Hxy. eapply linked_insert; [done | done | | by apply O6].
    destruct (decide (x = l)) as [-> | Hne]; [by rewrite lookup_insert_eq, Hl | by rewrite lookup_insert_ne].
  - intros u q [(<- & <- & _) | [Hne Hu]]%list_lookup_insert_Some.
    + split; [done |]. intros x Hx. destruct (to_own _ _ _ _ (O7 t p Ht) x) as (Hout & nx & Hnx & Hlk).
      { destruct Hown; congruence. }
      split; [done |]. destruct (decide (x = l)) as [-> | Hxl].
      * exists (set_lock o n). rewrite lookup_insert_eq. by split.
      * exists nx. by rewrite lookup_insert_ne.
    + eapply frame_thread_ok; [| by apply O7]. by eapply frame_update.
  - by eapply own_insert_ok.
Qed.
End same_chain.

(** The outcome of a step: not enabled, or a state that satisfies the invariant
    again; never undefined behaviour. *)
Definition good (pcs : list fpc) (log : list event) (t : nat) (r : outcome (option fres)) : Prop :=
  match r with
  | Ret None => True
  | Ret (Some r) =>
      ∃ ps s, fine_ok (f_heap r) (<[t := f_pc r]> pcs) (log ++ option_list (f_event r)) ps s
  | _ => False
  end.

Section steps.
Context (h : heap) (pcs : list fpc) (log : list event) (ps : list nat) (s : gset Z) (t : nat).
Context (Hok : fine_ok h pcs log ps s).

Lemma mine_locked l n : l ∈ ps → h !! l = Some n → n_lock n = Some t → only_mine h pcs t l n.
Proof.
  intros Hl Hn Hlk. split; [done |]. split; [congruence |].
  intros u q _ Hu Hq. by destruct (to_own _ _ _ _ (fo_thread _ _ _ _ _ Hok u q Hu) l Hq).
Qed.

Lemma mine_free l n : l ∈ ps → h !! l = Some n → n_lock n = None → only_mine h pcs t l n.
Proof.
  intros Hl Hn Hlk. split; [done |]. split; [congruence |].
  intros u q _ Hu Hq. by destruct (to_own _ _ _ _ (fo_thread _ _ _ _ _ Hok u q Hu) l Hq).
Qed.

Lemma mine_own p l n : pcs !! t = Some p → own p = Some l → h !! l = Some n → only_mine h pcs t l n.
Proof.
  intros Ht Hown Hn. destruct (to_own _ _ _ _ (fo_thread _ _ _ _ _ Hok t p Ht) l Hown) as (_ & n' & Hn' & Hlk).
  simplify_eq. split; [done |]. split; [intros u Hu; destruct Hlk; congruence |].
  intros u q Hu Hq Hq'. apply not_eq_sym in Hu. by apply (fo_own _ _ _ _ _ Hok t u p q l Hu Ht Hq Hown).
Qed.

(** Locking a node of the chain. *)
Lemma lock_cases l :
  l ∈ ps → lock t l h = Ret None ∨
  ∃ n, h !! l = Some n ∧ n_lock n = None ∧ lock t l h = Ret (Some (<[l := set_lock (Some t) n]> h)).
Proof.
  intros Hl. destruct (fo_alloc _ _ _ _ _ Hok l Hl) as [n Hn]. unfold lock. rewrite (load_Ret _ _ _ Hn). obind.
  destruct (n_lock n) eqn:Hlk; [by left | right]. eauto.
Qed.

Lemma locked_new l n t' : locked (<[l := set_lock (Some t') n]> h) t' l.
Proof. exists (set_lock (Some t') n). by rewrite lookup_insert_eq. Qed.

Lemma locked_keep l n o x t' :
  h !! l = Some n → n_lock n = None → locked h t' x → locked (<[l := set_lock o n]> h) t' x.
Proof.
  intros Hn Hlk (nx & Hx & Hlx). exists nx. rewrite lookup_insert_ne; [done |]. intros <-. congruence.
Qed.

Lemma locked_other l n' x t' : l ≠ x → locked h t' x → locked (<[l := n']> h) t' x.
Proof. intros Hne (nx & Hx & Hlx). exists nx. by rewrite lookup_insert_ne. Qed.

Lemma node_ok_keep l n n' o node : h !! l = Some n → n_key n' = n_key n → node_ok h o node → node_ok (<[l := n']> h) o node.
Proof.
  intros Hl Hk [Hmax Hn]. split; [done |]. destruct o; try done. destruct Hn as (x & -> & Hx).
  exists x. by rewrite (key_at_update _ _ _ _ _ Hl Hk).
Qed.

Lemma before_keep l n n' x k : h !! l = Some n → n_key n' = n_key n → before h x k → before (<[l := n']> h) x k.
Proof. intros Hl Hk [? | Hb]; [by left | right]. by rewrite (key_at_update _ _ _ _ _ Hl Hk). Qed.

Lemma no_event : replay (log ++ option_list None) ∅ = Some s.
Proof. rewrite app_nil_r. apply (fo_log _ _ _ _ _ Hok). Qed.

Lemma good_lock_head o node o' l' :
  pcs !! t = Some (FLockHead o node) → good pcs log t (fine_step t o' l' (FLockHead o node) h).
Proof.
  intros Ht. pose proof (to_point _ _ _ _ (fo_thread _ _ _ _ _ Hok t _ Ht)) as Hnode. cbn in Hnode.
  pose proof (chain_head _ _ (fo_chain _ _ _ _ _ Hok)) as Hhead.
  cbn [fine_step]. destruct (lock_cases head Hhead) as [-> | (n & Hn & Hlk & ->)]; obind; [done |].
  exists ps, s. cbn. eapply (fine_ok_mutex h); try done; [apply no_event | by left | by apply mine_free | by right |].
  cbn. split; [by eapply node_ok_keep |]. split; [by left |]. split; [done |]. split; [done |]. apply locked_new.
Qed.

Lemma good_next o node prev o' l' :
  pcs !! t = Some (FNext o node prev) → good pcs log t (fine_step t o' l' (FNext o node prev) h).
Proof.
  intros Ht. pose proof (to_point _ _ _ _ (fo_thread _ _ _ _ _ Hok t _ Ht)) as (Hnode & Hbef & Hin & Htl & Hlk).
  pose proof Hlk as (n & Hn & Hln). cbn [fine_step]. rewrite (load_Ret _ _ _ Hn). obind.
  exists ps, s. cbn. eapply fine_ok_read; try done; [apply no_event | by left |].
  cbn. split; [done |]. split; [done |]. split; [done |].
  destruct (chain_next _ _ _ (fo_chain _ _ _ _ _ Hok) Hin Htl) as [c Hc]. exists c. split; [| done].
  destruct (fo_link _ _ _ _ _ Hok _ _ Hc) as [Hl | (u & k & nd & Hu)].
  - rewrite Hn in Hl. by injection Hl.
  - exfalso. pose proof (to_point _ _ _ _ (fo_thread _ _ _ _ _ Hok u _ Hu)) as (_ & _ & (_ & Hlu & _) & _).
    assert (u = t) as -> by (by eapply locked_fun). congruence.
Qed.

Lemma good_lock_curr o node prev curr o' l' :
  pcs !! t = Some (FLockCurr o node prev curr) → good pcs log t (fine_step t o' l' (FLockCurr o node prev curr) h).
Proof.
  intros Ht. pose proof (to_point _ _ _ _ (fo_thread _ _ _ _ _ Hok t _ Ht)) as (Hnode & Hbef & Hlk & c & -> & Hadj).
  cbn [fine_step deref]. obind.
  destruct (lock_cases c (adj_r _ _ _ Hadj)) as [-> | (n & Hn & Hlc & ->)]; obind; [done |].
  exists ps, s. cbn. eapply (fine_ok_mutex h); try done;
    [apply no_event | by left | apply mine_free; [by eapply adj_r | done | done] | by right |].
  cbn. split; [by eapply node_ok_keep |]. split; [by eapply before_keep |].
  split; [done |]. split; [by apply locked_keep | apply locked_new].
Qed.

Lemma adj_neq a b : adj ps a b → a ≠ b.
Proof.
  intros (p1 & p2 & He) ->. pose proof (c_nodup _ _ (fo_chain _ _ _ _ _ Hok)) as Hnd. rewrite He in Hnd.
  apply NoDup_app in Hnd as (_ & _ & Hnd). apply NoDup_cons in Hnd as [Hnd _]. apply Hnd. by left.
Qed.

Lemma found_iff prev curr k :
  adj ps prev curr → before h prev k → k ≤ key_at h curr → k < int_max → k ∈ s ↔ key_at h curr = k.
Proof.
  intros. eapply chain_find; [apply Hok | apply Hok | done | done | done |].
  by rewrite (fo_max _ _ _ _ _ Hok).
Qed.

(** An operation that leaves the set alone, with its result. *)
Lemma event_same o r : spec_op o s = (s, r) → replay (log ++ option_list (Some (mkEvent t o r))) ∅ = Some s.
Proof.
  intros Hs. change (option_list (Some ?e)) with [e]. rewrite (replay_app _ _ _ _ (fo_log _ _ _ _ _ Hok)). cbn.
  by rewrite Hs, bool_decide_true.
Qed.

Lemma good_test o node prev curr o' l' :
  pcs !! t = Some (FTest o node prev curr) → good pcs log t (fine_step t o' l' (FTest o node prev curr) h).
Proof.
  intros Ht. pose proof (to_point _ _ _ _ (fo_thread _ _ _ _ _ Hok t _ Ht)) as (Hnode & Hbef & Hholds).
  pose proof Hholds as (Hadj & Hlp & Hlc). pose proof Hlc as (n & Hn & Hln).
  assert (key_at h curr = n_key n) as Hkey by (unfold key_at; by rewrite Hn).
  cbn [fine_step]. rewrite (load_Ret _ _ _ Hn). obind. case_bool_decide as Hlt.
  { exists ps, s. cbn. eapply fine_ok_read; try done; [apply no_event | by left |].
    cbn. rewrite Hkey. auto. }
  pose proof Hnode as [Hmax Hnd].
  pose proof (found_iff prev curr (op_key o) Hadj Hbef ltac:(lia) Hmax) as Hiff. rewrite Hkey in Hiff.
  assert (point_ok h ps t (FUnlockP false prev curr false)) as Hex.
  { pose proof (adj_l _ _ _ Hadj). pose proof (adj_r _ _ _ Hadj). pose proof (adj_neq _ _ Hadj). cbn. auto 10. }
  destruct o as [k | k | k]; cbn [op_key decide_op] in *.
  - case_bool_decide as Hf; obind.
    + exists ps, s. cbn [f_pc f_heap f_event f_act effect_of mbind option_bind]. eapply fine_ok_read; try done; [| by right].
      apply event_same. cbn. rewrite decide_True by tauto. done.
    + destruct Hnd as (nd & -> & Hnd). obind. exists ps, s. cbn [f_pc f_heap f_event f_act effect_of mbind option_bind].
      eapply fine_ok_read; try done; [apply no_event | by left |]. cbn. rewrite Hkey.
      split; [split; [done | eauto] |]. split; [done |]. split; [done | lia].
  - case_bool_decide as Hf; obind.
    + exists ps, s. cbn [f_pc f_heap f_event f_act effect_of mbind option_bind]. eapply fine_ok_read; try done; [apply no_event | by right |].
      cbn. rewrite Hkey. auto.
    + exists ps, s. cbn [f_pc f_heap f_event f_act effect_of mbind option_bind]. eapply fine_ok_read; try done; [| by right].
      apply event_same. cbn. rewrite decide_False by tauto. done.
  - obind. exists ps, s. cbn [f_pc f_heap f_event f_act effect_of mbind option_bind]. eapply fine_ok_read; try done; [| by right].
    apply event_same. cbn. f_equal. apply bool_decide_ext. tauto.
Qed.

Lemma good_move o node prev curr o' l' :
  pcs !! t = Some (FMove o node prev curr) → good pcs log t (fine_step t o' l' (FMove o node prev curr) h).
Proof.
  intros Ht. pose proof (to_point _ _ _ _ (fo_thread _ _ _ _ _ Hok t _ Ht)) as (Hnode & Hbef & (Hadj & Hlp & Hlc) & Hlt).
  pose proof Hlp as (n & Hn & Hln). cbn [fine_step]. unfold unlock. rewrite (store_Ret _ _ _ _ Hn). obind.
  exists ps, s. cbn [f_pc f_heap f_event f_act effect_of mbind option_bind].
  eapply (fine_ok_mutex h); try done; [apply no_event | by left | | by left |].
  - apply mine_locked; [by eapply adj_l | done | done].
  - cbn. split; [by eapply node_ok_keep |]. split; [right; by rewrite (key_at_update _ _ _ _ _ Hn) |].
    split; [by eapply adj_r |]. split; [| apply locked_other; [by apply adj_neq | done]].
    intros ->. rewrite (fo_max _ _ _ _ _ Hok) in Hlt. destruct Hnode. lia.
Qed.

Lemma good_unlockp r prev curr removed o' l' :
  pcs !! t = Some (FUnlockP r prev curr removed) →
  good pcs log t (fine_step t o' l' (FUnlockP r prev curr removed) h).
Proof.
  intros Ht. pose proof (to_point _ _ _ _ (fo_thread _ _ _ _ _ Hok t _ Ht)) as (Hin & Hne & Hlp & Hlc & Hc).
  pose proof Hlp as (n & Hn & Hln). cbn [fine_step]. unfold unlock. rewrite (store_Ret _ _ _ _ Hn). obind.
  exists ps, s. cbn [f_pc f_heap f_event f_act effect_of mbind option_bind].
  eapply (fine_ok_mutex h); try done; [apply no_event | by left; destruct removed | | by left |].
  - by apply mine_locked.
  - cbn. split; [by apply locked_other | done].
Qed.

Lemma good_unlockc r curr removed o' l' :
  pcs !! t = Some (FUnlockC r curr removed) →
  good pcs log t (fine_step t o' l' (FUnlockC r curr removed) h).
Proof.
  intros Ht. pose proof (to_point _ _ _ _ (fo_thread _ _ _ _ _ Hok t _ Ht)) as (Hlc & Hc).
  pose proof Hlc as (n & Hn & Hln). cbn [fine_step]. unfold unlock. rewrite (store_Ret _ _ _ _ Hn). obind.
  exists ps, s. destruct removed; cbn [f_pc f_heap f_event f_act effect_of mbind option_bind];
    eapply (fine_ok_mutex h); try done; [apply no_event | by left | by eapply mine_own | by left | ..].
  - apply no_event.
  - by right.
  - by apply mine_locked; auto.
  - by left.
Qed.
End steps.

Section changes.
Context (h : heap) (pcs : list fpc) (log : list event) (ps : list nat) (s : gset Z) (t : nat).
Context (Hok : fine_ok h pcs log ps s).

Lemma not_own_fresh u q l : h !! l = None → pcs !! u = Some q → own q ≠ Some l.
Proof.
  intros Hl Hu Hq. destruct (to_own _ _ _ _ (fo_thread _ _ _ _ _ Hok u q Hu) l Hq) as (_ & n & Hn & _). congruence.
Qed.

(** Keys and nodes of the chain do not depend on other memory. *)
Lemma alloc_ps x l : h !! l = None → x ∈ ps → x ≠ l.
Proof. intros Hl Hx ->. destruct (fo_alloc _ _ _ _ _ Hok l Hx) as [n Hn]. congruence. Qed.

Lemma good_idle o l : pcs !! t = Some FIdle → op_key o < int_max → good pcs log t (fine_step t o l FIdle h).
Proof.
  intros Ht Hmax. cbn [fine_step]. pose proof Hok as [O1 O2 O3 O4 O5 O6 O7 O8].
  destruct o as [k | k | k].
  2-3: exists ps, s; cbn [f_pc f_heap f_event f_act effect_of mbind option_bind]; eapply fine_ok_read; try done; [by eapply no_event | by left].
  destruct (h !! l) as [n |] eqn:Hl; [done |]. exists ps, s. cbn [f_pc f_heap f_event f_act effect_of mbind option_bind].
  set (h' := <[l := mkNode k Uninit None]> h).
  assert (∀ x, x ≠ l → key_at h' x = key_at h x) as Hk by (intros x Hx; unfold h'; by rewrite key_at_insert, decide_False).
  assert (∀ x, x ∈ ps → x ≠ l) as Hps by (intros x; by apply alloc_ps).
  split.
  - eapply chain_ext; [| done]. intros x Hx. by rewrite Hk by auto.
  - eapply represents_ext; [| done]. intros x Hx. by rewrite Hk by auto.
  - by eapply no_event.
  - rewrite Hk; [done |]. apply Hps. by eapply chain_tail.
  - intros x Hx. unfold h'. rewrite lookup_insert_is_Some'. auto.
  - intros x y Hxy. eapply linked_insert; [done | done | | by apply O6].
    unfold h'. rewrite lookup_insert_ne; [done |]. apply not_eq_sym, Hps. by eapply adj_l.
  - intros u q [(<- & <- & _) | [Hne Hu]]%list_lookup_insert_Some.
    + split; cbn.
      * split; [done |]. exists l. split; [done |]. unfold h'. by rewrite key_at_insert, decide_True.
      * intros x [= <-]. split; [intros Hx; by apply (Hps l) |]. exists (mkNode k Uninit None).
        unfold h'. rewrite lookup_insert_eq. auto.
    + eapply frame_thread_ok; [| by apply O7]. split; try done.
      * intros x n Hx _. unfold h'. rewrite lookup_insert_ne; [done |]. intros <-. congruence.
      * intros x n _ Hx. unfold h'. rewrite lookup_insert_ne; [done |]. intros <-. congruence.
  - intros a b x y z Hne Ha Hb Hx Hy.
    apply list_lookup_insert_Some in Ha as [(<- & <- & _) | [Hta Ha]];
      apply list_lookup_insert_Some in Hb as [(Htb & <- & _) | [Htb Hb]]; try congruence.
    + injection Hx as <-. by apply (not_own_fresh b y l Hl Hb).
    + injection Hy as <-. by apply (not_own_fresh a x l Hl Ha).
    + by eapply (O8 a b x y z).
Qed.

Lemma good_link1 k node prev curr o' l' :
  pcs !! t = Some (FLink1 k node prev curr) → good pcs log t (fine_step t o' l' (FLink1 k node prev curr) h).
Proof.
  intros Ht. pose proof (to_point _ _ _ _ (fo_thread _ _ _ _ _ Hok t _ Ht)) as (Hnode & Hbef & (Hadj & Hlp & Hlc) & Hlt).
  pose proof Hlp as (n & Hn & Hln). cbn [fine_step]. rewrite (store_Ret _ _ _ _ Hn). obind.
  exists ps, s. cbn [f_pc f_heap f_event f_act effect_of mbind option_bind]. pose proof Hok as [O1 O2 O3 O4 O5 O6 O7 O8].
  set (h' := <[prev := set_next (Ptr node) n]> h).
  assert (∀ x, key_at h' x = key_at h x) as Hk by (intros x; by eapply key_at_update).
  assert (only_mine h pcs t prev n) as Hmine by (eapply mine_locked; [done | by eapply adj_l | done | done]).
  split; try done.
  - eapply chain_ext; [| done]. by intros.
  - eapply represents_ext; [| done]. by intros.
  - by eapply no_event.
  - by rewrite Hk.
  - intros x Hx. unfold h'. rewrite lookup_insert_is_Some'. auto.
  - intros x y Hxy. destruct (decide (x = prev)) as [-> | Hne].
    + assert (y = curr) as -> by (eapply adj_fun; [by eapply c_nodup | done | done]).
      right. exists t, k, node. apply list_lookup_insert_eq. by eapply lookup_lt_Some.
    + eapply linked_insert; [done | done | | by apply O6]. unfold h'. by rewrite lookup_insert_ne.
  - intros u q [(<- & <- & _) | [Hne Hu]]%list_lookup_insert_Some.
    + split; cbn.
      * split; [by eapply node_ok_keep |]. split; [by eapply before_keep |].
        split; [split; [done |]; split |].
        -- exists (set_next (Ptr node) n). unfold h'. by rewrite lookup_insert_eq.
        -- apply locked_other; [by eapply adj_neq | done].
        -- rewrite Hk. split; [done |]. unfold h'. by rewrite lookup_insert_eq.
      * intros x [= <-]. destruct (to_own _ _ _ _ (O7 t _ Ht) node eq_refl) as (Hout & nx & Hnx & Hlk).
        split; [done |]. exists nx. unfold h'. rewrite lookup_insert_ne; [done |].
        intros <-. apply Hout. by eapply adj_l.
    + eapply frame_thread_ok; [| by apply O7]. by eapply frame_update.
  - by eapply own_insert_ok; [| | left].
Qed.

(** The event of an operation that changed the set. *)
Lemma event_change o r s' :
  spec_op o s = (s', r) → replay (log ++ option_list (Some (mkEvent t o r))) ∅ = Some s'.
Proof.
  intros Hs. change (option_list (Some ?e)) with [e].
  rewrite (replay_app _ _ _ _ (fo_log _ _ _ _ _ Hok)). cbn. by rewrite Hs, bool_decide_true.
Qed.

Lemma good_link2 k node prev curr o' l' :
  pcs !! t = Some (FLink2 k node prev curr) → good pcs log t (fine_step t o' l' (FLink2 k node prev curr) h).
Proof.
  intros Ht. pose proof Hok as [O1 O2 O3 O4 O5 O6 O7 O8].
  destruct (to_point _ _ _ _ (O7 t _ Ht)) as ([Hmax (nd0 & Hnd0 & Hkey)] & Hbef & (Hadj & Hlp & Hlc) & Hlt & Hnext).
  injection Hnd0 as <-.
  destruct (to_own _ _ _ _ (O7 t _ Ht) node eq_refl) as (Hout & nd & Hnd & Hlk).
  pose proof (mine_own h pcs log ps s t Hok _ node nd Ht eq_refl Hnd) as Hmine.
  cbn [fine_step]. rewrite (store_Ret _ _ _ _ Hnd). obind.
  set (h' := <[node := set_next (Ptr curr) nd]> h).
  assert (∀ x, key_at h' x = key_at h x) as Hk by (intros x; by eapply key_at_update).
  destruct (chain_insert_adj (key_at h) ps s prev curr node O1 O2 Hadj Hout) as (ps' & Hch' & Hrep' & Hin' & Hadj');
    [by rewrite Hkey | by rewrite Hkey |].
  assert (∀ x, x ∈ ps → x ≠ node) as Hne by (by intros x Hx ->).
  pose proof (adj_l _ _ _ Hadj) as Hp. pose proof (adj_r _ _ _ Hadj) as Hc.
  exists ps', ({[k]} ∪ s). cbn [f_pc f_heap f_event f_act effect_of mbind option_bind]. split.
  - eapply chain_ext; [| done]. by intros.
  - eapply represents_ext; [intros; symmetry; apply Hk |]. by rewrite <- Hkey.
  - apply event_change. cbn. rewrite decide_False; [done |].
    rewrite (found_iff h pcs log ps s Hok prev curr k) by (done || lia). lia.
  - by rewrite Hk.
  - intros x Hx%Hin'. unfold h'. rewrite lookup_insert_is_Some'. destruct Hx; auto.
  - intros x y [[-> ->] | [[-> ->] | [Hxp Hold]]]%Hadj'.
    { left. unfold h'. rewrite lookup_insert_ne by (by apply not_eq_sym, Hne). done. }
    { left; unfold h'; by rewrite lookup_insert_eq. }
    eapply linked_insert; [done | | | by apply O6].
    + intros k0 n0 [= -> -> -> ->]. done.
    + unfold h'. rewrite lookup_insert_ne; [done |]. apply not_eq_sym, Hne. by eapply adj_l.
  - intros u q [(<- & <- & _) | [Hnu Hu]]%list_lookup_insert_Some.
    + split; [cbn | done]. split; [apply Hin'; auto |]. split; [by eapply adj_neq |].
      split; [by apply locked_other; [apply not_eq_sym, Hne |] |].
      split; [by apply locked_other; [apply not_eq_sym, Hne |] |]. intros _. apply Hin'. auto.
    + eapply frame_thread_ok; [| by apply O7].
      destruct (frame_update h ps pcs t node nd (set_next (Ptr curr) nd) u q Hmine (not_eq_sym Hnu) Hu) as [F1 F2 F3 F4 F5].
      split; [done | done | | |].
      * intros x Hx Hxps [-> | ?]%Hin'; [| done]. destruct Hmine as (_ & _ & Hm). by apply (Hm u q (not_eq_sym Hnu) Hu).
      * intros x Hx _. apply Hin'. auto.
      * intros x y Hxy Hlx. apply Hadj'. right; right. split; [| done]. intros ->.
        apply Hnu. exact (locked_fun _ _ _ _ Hlp Hlx).
  - by eapply own_insert_ok; [| | right].
Qed.

Lemma good_unlink k prev curr o' l' :
  pcs !! t = Some (FUnlink k prev curr) → good pcs log t (fine_step t o' l' (FUnlink k prev curr) h).
Proof.
  intros Ht. pose proof Hok as [O1 O2 O3 O4 O5 O6 O7 O8].
  destruct (to_point _ _ _ _ (O7 t _ Ht)) as (Hmax & Hbef & (Hadj & Hlp & Hlc) & Hkey).
  pose proof Hlp as (np & Hnp & Hlnp). pose proof Hlc as (nc & Hnc & Hlnc).
  assert (curr ≠ tail) as Htl by (intros ->; lia).
  destruct (chain_next _ _ _ O1 (adj_r _ _ _ Hadj) Htl) as [b Hb].
  assert (n_next nc = Ptr b) as Hnext.
  { destruct (O6 _ _ Hb) as [Hl | (u & k0 & nd & Hu)]; [rewrite Hnc in Hl; by injection Hl |].
    exfalso. pose proof (to_point _ _ _ _ (O7 u _ Hu)) as (_ & _ & (_ & Hlu & _) & _).
    assert (u = t) as -> by (by eapply locked_fun). congruence. }
  cbn [fine_step]. rewrite (load_Ret _ _ _ Hnc). obind. rewrite (store_Ret _ _ _ _ Hnp). obind. rewrite Hnext.
  set (h' := <[prev := set_next (Ptr b) np]> h).
  assert (∀ x, key_at h' x = key_at h x) as Hk by (intros x; by eapply key_at_update).
  assert (only_mine h pcs t prev np) as Hmine by (eapply mine_locked; [done | by eapply adj_l | done | done]).
  destruct (chain_remove_adj (key_at h) ps s prev curr b O1 O2 Hadj Hb) as (ps' & Hch' & Hrep' & Hin' & Hcout & Hadj').
  rewrite Hkey in Hrep'.
  pose proof (adj_neq h pcs log ps s Hok _ _ Hadj) as Hpc.
  exists ps', (s ∖ {[k]}). cbn [f_pc f_heap f_event f_act effect_of mbind option_bind]. split.
  - eapply chain_ext; [| done]. by intros.
  - eapply represents_ext; [intros; symmetry; apply Hk | done].
  - apply event_change. cbn. rewrite decide_True; [done |].
    by rewrite (found_iff h pcs log ps s Hok prev curr k) by (done || lia).
  - by rewrite Hk.
  - intros x Hx. unfold h'. rewrite lookup_insert_is_Some'. right. apply O5, Hin'. auto.
  - intros x y [[-> ->] | (Hxp & _ & Hold)]%Hadj'; [left; unfold h'; by rewrite lookup_insert_eq |].
    eapply linked_insert; [done | done | | by apply O6].
    unfold h'. by rewrite lookup_insert_ne.
  - intros u q [(<- & <- & _) | [Hnu Hu]]%list_lookup_insert_Some.
    + split; cbn.
      * split; [by eapply adj_l, Hadj'; left |]. split; [done |]. split; [| split; [by apply locked_other | done]].
        exists (set_next (Ptr b) np). unfold h'. by rewrite lookup_insert_eq.
      * intros x [= <-]. split; [done |]. exists nc. unfold h'. rewrite lookup_insert_ne by done. auto.
    + eapply frame_thread_ok; [| by apply O7].
      destruct (frame_update h ps pcs t prev np (set_next (Ptr b) np) u q Hmine (not_eq_sym Hnu) Hu) as [F1 F2 F3 F4 F5].
      split; [done | done | | |].
      * intros x Hx Hxps Hx'. apply Hxps, Hin'. auto.
      * intros x [-> | Hx]%Hin' Hlx; [| done]. exfalso. apply Hnu. exact (locked_fun _ _ _ _ Hlc Hlx).
      * intros x y Hxy Hlx. apply Hadj'. right. split_and!; [| | done];
          intros ->; apply Hnu; [exact (locked_fun _ _ _ _ Hlp Hlx) | exact (locked_fun _ _ _ _ Hlc Hlx)].
  - assert (∀ u q, u ≠ t → pcs !! u = Some q → own q ≠ Some curr) as Hoc.
    { intros u q _ Hu Hq. destruct (to_own _ _ _ _ (O7 u q Hu) curr Hq) as [Hn _]. by apply Hn, Hin'; left. }
    intros a c x y z Hne Ha Hc Hx Hy.
    apply list_lookup_insert_Some in Ha as [(<- & <- & _) | [Hta Ha]];
      apply list_lookup_insert_Some in Hc as [(Htc & <- & _) | [Htc Hc]]; try congruence.
    + injection Hx as <-. by apply (Hoc c y).
    + injection Hy as <-. by apply (Hoc a x).
    + by eapply (O8 a c x y z).
Qed.

Lemma good_free r curr o' l' :
  pcs !! t = Some (FFree r curr) → good pcs log t (fine_step t o' l' (FFree r curr) h).
Proof.
  intros Ht. pose proof Hok as [O1 O2 O3 O4 O5 O6 O7 O8].
  destruct (to_own _ _ _ _ (O7 t _ Ht) curr eq_refl) as (Hout & n & Hn & Hlk).
  destruct (mine_own h pcs log ps s t Hok _ curr n Ht eq_refl Hn) as (_ & Hm1 & Hm2).
  cbn [fine_step]. rewrite (load_Ret _ _ _ Hn). obind. exists ps, s. cbn [f_pc f_heap f_event f_act effect_of mbind option_bind].
  assert (∀ x, x ∈ ps → x ≠ curr) as Hne by (by intros x Hx ->).
  assert (∀ x, x ≠ curr → key_at (delete curr h) x = key_at h x) as Hk
    by (intros x Hx; unfold key_at; by rewrite lookup_delete_ne).
  split.
  - eapply chain_ext; [| done]. intros x Hx. by rewrite Hk by auto.
  - eapply represents_ext; [| done]. intros x Hx. by rewrite Hk by auto.
  - by eapply no_event.
  - rewrite Hk; [done |]. apply Hne. by eapply chain_tail.
  - intros x Hx. rewrite lookup_delete_ne by (by apply not_eq_sym, Hne). by apply O5.
  - intros x y Hxy. eapply linked_insert; [done | done | | by apply O6].
    rewrite lookup_delete_ne; [done |]. apply not_eq_sym, Hne. by eapply adj_l.
  - intros u q [(<- & <- & _) | [Hnu Hu]]%list_lookup_insert_Some; [by split |].
    eapply frame_thread_ok; [| by apply O7]. split; try done.
    + intros x nx Hx Hlx. rewrite lookup_delete_ne; [done |]. intros <-. simplify_eq. by apply (Hm1 u).
    + intros x nx Hx Hnx. rewrite lookup_delete_ne; [done |]. intros <-. by apply (Hm2 u q).
  - by eapply own_insert_ok; [| | right].
Qed.
End changes.

(** ** The theorems *)

Lemma fine_ok_start n : fine_ok list_init (replicate n FIdle) [] [head; tail] ∅.
Proof.
  assert (∀ t p, replicate n FIdle !! t = Some p → p = FIdle) as Hp by (by intros t p [? _]%lookup_replicate).
  split.
  - apply chain_init.
  - apply represents_init.
  - done.
  - done.
  - apply alloc_init.
  - intros x y [-> ->]%adj_init. by left.
  - intros t p ->%Hp. by split.
  - intros t u p q l _ ->%Hp _ Hown. done.
Qed.

(** Only the call of an operation depends on its key. *)
Lemma fine_step_good h pcs log ps s t p o l :
  fine_ok h pcs log ps s → pcs !! t = Some p → (p = FIdle → op_key o < int_max) →
  good pcs log t (fine_step t o l p h).
Proof.
  intros Hok Ht Hmax. destruct p.
  - eapply good_idle; [done | done | by apply Hmax].
  - by eapply good_lock_head.
  - by eapply good_next.
  - by eapply good_lock_curr.
  - by eapply good_test.
  - by eapply good_move.
  - by eapply good_link1.
  - by eapply good_link2.
  - by eapply good_unlink.
  - by eapply good_unlockp.
  - by eapply good_unlockc.
  - by eapply good_free.
Qed.

Lemma fine_sys_inv t o l σ σ' :
  fine_sys_step t o l σ = Ret (Some σ') →
  ∃ p r, fpcs σ !! t = Some p ∧ fine_step t o l p (fheap σ) = Ret (Some r) ∧
    σ' = mkFsys (f_heap r) (<[t := f_pc r]> (fpcs σ)) (fhist σ ++ option_list (f_act r)).
Proof.
  unfold fine_sys_step. destruct (fpcs σ !! t) as [p |]; [| done].
  intros ([r |] & Hr & [= <-])%bind_Ret_inv. eauto.
Qed.

(** A thread without a call is about to make one. *)
Lemma fine_idle_calls t o l h r : fine_step t o l FIdle h = Ret (Some r) → f_act r = Some (Call t o).
Proof. cbn. destruct o; [destruct (h !! l) |..]; intros [= <-]; done. Qed.

Lemma fine_reachable_ok n σ :
  rtc fstep (fine_start n) σ → keys_below (fhist σ) →
  ∃ ps s, fine_ok (fheap σ) (fpcs σ) (effects (fhist σ)) ps s.
Proof.
  refine (rtc_ind_r (λ σ, keys_below (fhist σ) → ∃ ps s, fine_ok (fheap σ) (fpcs σ) (effects (fhist σ)) ps s) _ _ _ σ).
  - exists [head; tail], ∅. apply fine_ok_start.
  - intros σ1 _ _ [t o l σ1' σ2 (p & r & Ht & Hr & ->)%fine_sys_inv] IH Hk. cbn in Hk |- *.
    apply Forall_app in Hk as [Hk1 Hk2]. destruct (IH Hk1) as (ps & s & Hok).
    assert (p = FIdle → op_key o < int_max) as Hmax.
    { intros ->. rewrite (fine_idle_calls _ _ _ _ _ Hr) in Hk2. by apply Forall_cons in Hk2 as [? _]. }
    pose proof (fine_step_good _ _ _ _ _ t p o l Hok Ht Hmax) as Hgood. rewrite Hr in Hgood.
    rewrite effects_app. replace (effects (option_list (f_act r))) with (option_list (f_event r)); [exact Hgood |].
    unfold f_event. by destruct (f_act r) as [[] |].
Qed.

(** What the program counter of a thread says about its call. *)
Definition fine_stage (p : fpc) (st : stage) : Prop :=
  match p with
  | FIdle => st = Between
  | FLockHead o _ | FNext o _ _ | FLockCurr o _ _ _ | FTest o _ _ _ | FMove o _ _ _ => st = Called o
  | FLink1 k _ _ _ | FLink2 k _ _ _ => st = Called (Add k)
  | FUnlink k _ _ => st = Called (Remove k)
  | FUnlockP r _ _ _ | FUnlockC r _ _ | FFree r _ => ∃ o, st = Took o r
  end.

Lemma decide_op_stage t o node prev curr found p a :
  decide_op t o node prev curr found = Ret (p, a) → stage_step fine_stage t (FTest o node prev curr) p a.
Proof.
  intros Hd st ->. destruct o, found; cbn in Hd; try case_match; simplify_eq; try done;
    (split; [done |]; eexists; split; [apply advance_effect |]; cbn; eauto).
Qed.

Lemma fine_step_stage t o l p h r :
  fine_step t o l p h = Ret (Some r) → stage_step fine_stage t p (f_pc r) (f_act r).
Proof.
  intros Hr. destruct p; cbn in Hr; repeat (bind_inv Hr || case_match); simplify_eq; cbn [f_pc f_act];
    try (by eapply decide_op_stage); intros st Hst; cbn in Hst; simplify_eq; cbn [fine_stage]; eauto.
  - split; [done |]. eexists. split; [apply advance_effect |]. cbn. eauto.
  - split; [done |]. eexists. split; [apply advance_effect |]. cbn. eauto.
  - destruct Hst as [o0 ->]. split; [done |]. eexists. by split; [apply advance_return |].
  - destruct Hst as [o0 ->]. split; [done |]. eexists. by split; [apply advance_return |].
Qed.

Lemma fine_staged n σ : rtc fstep (fine_start n) σ → staged fine_stage (fpcs σ) (fhist σ).
Proof.
  apply rtc_ind_r with (P := λ σ, staged fine_stage (fpcs σ) (fhist σ)); [by apply staged_start |].
  intros σ1 _ _ [t o l σ1' σ2 (p & r & Ht & Hr & ->)%fine_sys_inv] IH. cbn.
  eapply staged_step; [done | done | by eapply fine_step_stage].
Qed.

(** C9: The fine-grained list is linearizable as long as the keys of the calls
    are below [INT_MAX], the key of the tail.  Every thread makes one call after
    another, each of which takes effect once, between its beginning and its
    return, and returns the result it took effect with; the results of the calls
    in the order in which they took effect are those of the operations of a set;
    and the keys in the list, which are in increasing order, are the elements of
    that set. *)
Theorem fine_linearizable n σ :
  rtc fstep (fine_start n) σ → keys_below (fhist σ) →
  staged fine_stage (fpcs σ) (fhist σ) ∧
  ∃ s ps, replay (effects (fhist σ)) ∅ = Some s ∧ chain (key_at (fheap σ)) ps ∧
    represents (key_at (fheap σ)) ps s ∧ ∀ x y, adj ps x y → linked (fheap σ) (fpcs σ) x y.
Proof.
  intros Hs Hk. split; [by eapply fine_staged |].
  destruct (fine_reachable_ok _ _ Hs Hk) as (ps & s & [O1 O2 O3 _ _ O6 _ _]). exists s, ps. auto.
Qed.

(** C11: The fine-grained list is memory safe as long as the keys of the calls
    are below [INT_MAX]: after calls with such keys, no thread can access a node
    that has been freed, a null pointer or a pointer that has not been
    initialised, when it goes on with its call or begins another one with such a
    key, although [list_remove] frees the node it unlinks. *)
Theorem fine_memory_safe n σ t o l :
  rtc fstep (fine_start n) σ → keys_below (fhist σ) → (fpcs σ !! t = Some FIdle → op_key o < int_max) →
  ∃ r, fine_sys_step t o l σ = Ret r.
Proof.
  intros Hs Hk Hmax. destruct (fine_reachable_ok _ _ Hs Hk) as (ps & s & Hok). unfold fine_sys_step.
  destruct (fpcs σ !! t) as [p |] eqn:Ht; [| eauto].
  pose proof (fine_step_good _ _ _ _ _ t p o l Hok Ht) as Hgood.
  destruct (fine_step t o l p (fheap σ)) as [[r |] | |]; cbn; eauto; exfalso; apply Hgood; intros ->; auto.
Qed.

(** Two threads insert 5 and 3 at the same time; a third one removes 5. *)
Fixpoint run_fine (sched : list (nat * op * nat)) (σ : fsys) : outcome (option fsys) :=
  match sched with
  | [] => Ret (Some σ)
  | (t, o, l) :: sched =>
      r ← fine_sys_step t o l σ;
      match r with
      | None => Ret None
      | Some σ => run_fine sched σ
      end
  end.

Lemma run_fine_steps sched σ σ' :
  run_fine sched σ = Ret (Some σ') → rtc fstep σ σ'.
Proof.
  revert σ. induction sched as [| [[t o] l] sched IH]; intros σ; cbn [run_fine]; [by intros [= ->] |].
  intros ([σ1 |] & H1 & H2)%bind_Ret_inv; [| done]. eapply rtc_l; [by econstructor | by apply IH].
Qed.

Definition fine_schedule : list (nat * op * nat) :=
  [(0, Add 5, 2); (1, Add 3, 3)]%nat ++ replicate 8 (0%nat, Add 0, 0%nat) ++ replicate 8 (1%nat, Add 0, 0%nat) ++
  replicate 13 (2%nat, Remove 5, 0%nat).

Definition fine_after : fsys :=
  match run_fine fine_schedule (fine_start 3) with Ret (Some σ) => σ | _ => fine_start 3 end.

Lemma fine_after_reachable : rtc fstep (fine_start 3) fine_after.
Proof. apply (run_fine_steps fine_schedule). vm_compute; reflexivity. Qed.

Lemma fine_after_keys : keys_below (fhist fine_after).
Proof. apply (bool_decide_unpack _). vm_compute. constructor. Qed.

Lemma fine_linearizable_witness :
  fhist fine_after =
    [Call 0 (Add 5); Call 1 (Add 3); Effect (mkEvent 0 (Add 5) true); Return 0 true;
     Effect (mkEvent 1 (Add 3) true); Return 1 true;
     Call 2 (Remove 5); Effect (mkEvent 2 (Remove 5) true); Return 2 true] ∧
  staged fine_stage (fpcs fine_after) (fhist fine_after) ∧
  ∃ s ps, replay (effects (fhist fine_after)) ∅ = Some s ∧ chain (key_at (fheap fine_after)) ps ∧
    represents (key_at (fheap fine_after)) ps s ∧ ∀ x y, adj ps x y → linked (fheap fine_after) (fpcs fine_after) x y.
Proof.
  split; [vm_compute; reflexivity |]. apply (fine_linearizable 3); [apply fine_after_reachable | apply fine_after_keys].
Defined.

Lemma fine_memory_safe_witness : ∃ r, fine_sys_step 1 (Contains 3) 0 fine_after = Ret r.
Proof.
  apply (fine_memory_safe 3); [apply fine_after_reachable | apply fine_after_keys |]. intros _. vm_compute; reflexivity.
Defined.

(** The key of the tail is not protected: on the empty list
    [list_contains(INT_MAX)] returns true, and after [list_remove(INT_MAX)] has
    unlinked and freed the tail the next walk follows the null pointer left in
    the head. *)
Theorem fine_remove_tail :
  (∃ σ, run_fine (replicate 7 (0%nat, Contains int_max, 0%nat)) (fine_start 1) = Ret (Some σ) ∧
    fhist σ = [Call 0 (Contains int_max); Effect (mkEvent 0 (Contains int_max) true); Return 0 true]) ∧
  (∃ σ, run_fine (replicate 9 (0%nat, Remove int_max, 0%nat)) (fine_start 1) = Ret (Some σ) ∧
    fpcs σ = [FIdle] ∧ fheap σ !! tail = None ∧
    run_fine (replicate 4 (0%nat, Contains 0, 0%nat)) σ = UB).
Proof.
  split; (eexists; split; [vm_compute; reflexivity |]); [vm_compute; reflexivity |].
  split; [reflexivity | split; vm_compute; reflexivity].
Qed.
