(* ===== verification/OptimisticList.v ===== *)
(** * The optimistic list of lab 11 (src/lab11/optimistic.cpp)

    Threads walk through the list without locks, lock the two nodes they want
    and then validate that the first is still reachable from the head and still
    points to the second.  Removed nodes are not freed, so a thread may stand
    on a node that is no longer in the list.  The theorems are memory safety
    and linearizability with the values returned, as long as the keys of the calls
    are below [INT_MAX]; with the key [INT_MAX], which the code does not refuse,
    neither holds ([opt_remove_tail]).  The point of the proof is that
    validation, which itself walks without locks, decides correctly. *)

From S2P Require Import Prelude ListHeap.

(** ** The machine *)

(** [OHead]: about to read [head->next]; [OTest]: about to test the key of
    [curr]; [ONext]: about to go on from [curr]; [OLockP], [OLockC]: about to
    lock; [OVal]: at the head of the loop of [list_validate]; [OHit]: in its
    body; [OFail1], [OFail2]: the unlocks before a retry; [ODecide]: validated;
    [OLink1], [OLink2]: the stores of [list_add]; [OUnlink]: the store of
    [list_remove]; [OUnlockP], [OUnlockC]: the exits. *)
Inductive opc :=
| OIdle
| OHead (o : op) (node : option nat)
| OTest (o : op) (node : option nat) (prev : nat) (curr : ptr)
| ONext (o : op) (node : option nat) (curr : nat)
| OLockP (o : op) (node : option nat) (prev curr : nat)
| OLockC (o : op) (node : option nat) (prev curr : nat)
| OVal (o : op) (node : option nat) (prev curr : nat) (it : ptr)
| OHit (o : op) (node : option nat) (prev curr it : nat)
| OFail1 (o : op) (node : option nat) (prev curr : nat)
| OFail2 (o : op) (node : option nat) (curr : nat)
| ODecide (o : op) (node : option nat) (prev curr : nat)
| OLink1 (key : Z) (node prev curr : nat)
| OLink2 (key : Z) (node prev curr : nat)
| OUnlink (key : Z) (prev curr : nat)
| OUnlockP (r : bool) (prev curr : nat)
| OUnlockC (r : bool) (curr : nat).

(** The test of the key after validation. *)
Definition opt_decide (t : nat) (o : op) (node : option nat) (prev curr : nat) (found : bool) :
    outcome (opc * option action) :=
  match o with
  | Add k =>
      if found then Ret (OUnlockP false prev curr, Some (Effect (mkEvent t o false)))
      else match node with Some n => Ret (OLink1 k n prev curr, None) | None => UB end
  | Remove k =>
      if found then Ret (OUnlink k prev curr, None)
      else Ret (OUnlockP false prev curr, Some (Effect (mkEvent t o false)))
  | Contains k => Ret (OUnlockP found prev curr, Some (Effect (mkEvent t o found)))
  end.

Record ores := mkOres { o_pc : opc; o_heap : heap; o_act : option action }.

Definition o_event (r : ores) : option event := o_act r ≫= effect_of.

(** The two tests of [list_validate]. *)
Definition validate_loop (o : op) (node : option nat) (prev curr it : nat) (h : heap) : outcome opc :=
  i ← load h it;
  p ← load h prev;
  Ret (if bool_decide (n_key i ≤ n_key p) then OHit o node prev curr it else OFail1 o node prev curr).

Definition validate_body (o : op) (node : option nat) (prev curr it : nat) (h : heap) : outcome opc :=
  i ← load h it;
  Ret (if decide (it = prev)
       then if decide (n_next i = Ptr curr) then ODecide o node prev curr else OFail1 o node prev curr
       else OVal o node prev curr (n_next i)).

Definition opt_step (t : nat) (o : op) (l : nat) (p : opc) (h : heap) : outcome (option ores) :=
  match p with
  | OIdle =>
      match o with
      | Add k =>
          match h !! l with
          | Some _ => Ret None
          | None => Ret (Some (mkOres (OHead o (Some l)) (<[l := mkNode k Uninit None]> h) (Some (Call t o))))
          end
      | _ => Ret (Some (mkOres (OHead o None) h (Some (Call t o))))
      end
  | OHead o node =>
      n ← load h head;
      Ret (Some (mkOres (OTest o node head (n_next n)) h None))
  | OTest o node prev curr =>
      c ← deref curr;
      n ← load h c;
      Ret (Some (mkOres (if bool_decide (n_key n < op_key o) then ONext o node c else OLockP o node prev c) h None))
  | ONext o node curr =>
      n ← load h curr;
      Ret (Some (mkOres (OTest o node curr (n_next n)) h None))
  | OLockP o node prev curr =>
      r ← lock t prev h;
      match r with
      | None => Ret None
      | Some h => Ret (Some (mkOres (OLockC o node prev curr) h None))
      end
  | OLockC o node prev curr =>
      r ← lock t curr h;
      match r with
      | None => Ret None
      | Some h => Ret (Some (mkOres (OVal o node prev curr (Ptr head)) h None))
      end
  | OVal o node prev curr it =>
      i ← deref it;
      p ← validate_loop o node prev curr i h;
      Ret (Some (mkOres p h None))
  | OHit o node prev curr it =>
      p ← validate_body o node prev curr it h;
      Ret (Some (mkOres p h None))
  | OFail1 o node prev curr =>
      h ← unlock prev h;
      Ret (Some (mkOres (OFail2 o node curr) h None))
  | OFail2 o node curr =>
      h ← unlock curr h;
      Ret (Some (mkOres (OHead o node) h None))
  | ODecide o node prev curr =>
      n ← load h curr;
      '(p, a) ← opt_decide t o node prev curr (bool_decide (n_key n = op_key o));
      Ret (Some (mkOres p h a))
  | OLink1 k node prev curr =>
      h ← store h node (set_next (Ptr curr));
      Ret (Some (mkOres (OLink2 k node prev curr) h None))
  | OLink2 k node prev curr =>
      h ← store h prev (set_next (Ptr node));
      Ret (Some (mkOres (OUnlockP true prev curr) h (Some (Effect (mkEvent t (Add k) true)))))
  | OUnlink k prev curr =>
      n ← load h curr;
      h ← store h prev (set_next (n_next n));
      Ret (Some (mkOres (OUnlockP true prev curr) h (Some (Effect (mkEvent t (Remove k) true)))))
  | OUnlockP r prev curr =>
      h ← unlock prev h;
      Ret (Some (mkOres (OUnlockC r curr) h None))
  | OUnlockC r curr =>
      h ← unlock curr h;
      Ret (Some (mkOres OIdle h (Some (Return t r))))
  end.

(** [ohist]: the calls, what took effect and the values returned so far. *)
Record osys := mkOsys { oheap : heap; opcs : list opc; ohist : list action }.

(** [list_init] of this program does not initialise the mutexes of the
    sentinels: [hl] and [tl] are what the memory holds. *)
Definition opt_init (hl tl : option nat) : heap :=
  <[head := mkNode int_min (Ptr tail) hl]> {[tail := mkNode int_max Null tl]}.

Definition opt_start (hl tl : option nat) (n : nat) : osys := mkOsys (opt_init hl tl) (replicate n OIdle) [].

Definition opt_sys_step (t : nat) (o : op) (l : nat) (σ : osys) : outcome (option osys) :=
  match opcs σ !! t with
  | None => Ret None
  | Some p =>
      r ← opt_step t o l p (oheap σ);
      match r with
      | None => Ret None
      | Some r => Ret (Some (mkOsys (o_heap r) (<[t := o_pc r]> (opcs σ)) (ohist σ ++ option_list (o_act r))))
      end
  end.

Inductive ostep : osys → osys → Prop :=
| ostep_intro t o l σ σ' :
    opt_sys_step t o l σ = Ret (Some σ') → ostep σ σ'.

(** ** The invariant *)

Definition next_at (h : heap) (x : nat) : option ptr := n_next <$> h !! x.

Definition edge (h : heap) (x y : nat) : Prop := next_at h x = Some (Ptr y).

Definition reach (h : heap) : nat → nat → Prop := rtc (edge h).

(** The node of [list_add] before it is linked. *)
Definition o_own (p : opc) : option nat :=
  match p with
  | OHead _ node | OTest _ node _ _ | ONext _ node _ | OLockP _ node _ _ | OLockC _ node _ _
  | OVal _ node _ _ _ | OHit _ node _ _ _ | OFail1 _ node _ _ | OFail2 _ node _ | ODecide _ node _ _ => node
  | OLink1 _ node _ _ | OLink2 _ node _ _ => Some node
  | _ => None
  end.

(** [pub]: the nodes that are or have been in the list. *)
Section point.
Context (h : heap) (ps : list nat) (pub : gset nat) (t : nat).

(** Where the walk for a key ends. *)
Definition window (k : Z) (prev curr : nat) : Prop :=
  before h prev k ∧ prev ∈ pub ∧ curr ∈ pub ∧ k ≤ key_at h curr.

Definition both (prev curr : nat) : Prop := prev ≠ curr ∧ locked h t prev ∧ locked h t curr.

(** A node that is no longer in the list is not found by the validation. *)
Definition walk (prev it : nat) : Prop := it ∈ pub ∧ (prev ∉ ps → ¬ reach h it prev).

Definition o_point_ok (p : opc) : Prop :=
  match p with
  | OIdle => True
  | OHead o node => node_ok h o node
  | OTest o node prev curr =>
      node_ok h o node ∧ before h prev (op_key o) ∧ prev ∈ pub ∧ ∃ c, curr = Ptr c ∧ c ∈ pub
  | ONext o node curr => node_ok h o node ∧ curr ∈ pub ∧ key_at h curr < op_key o
  | OLockP o node prev curr => node_ok h o node ∧ window (op_key o) prev curr
  | OLockC o node prev curr => node_ok h o node ∧ window (op_key o) prev curr ∧ locked h t prev
  | OVal o node prev curr it =>
      node_ok h o node ∧ window (op_key o) prev curr ∧ both prev curr ∧ ∃ i, it = Ptr i ∧ walk prev i
  | OHit o node prev curr it =>
      node_ok h o node ∧ window (op_key o) prev curr ∧ both prev curr ∧ walk prev it ∧
      key_at h it ≤ key_at h prev
  | OFail1 o node prev curr => node_ok h o node ∧ window (op_key o) prev curr ∧ both prev curr
  | OFail2 o node curr => node_ok h o node ∧ curr ∈ pub ∧ locked h t curr
  | ODecide o node prev curr =>
      node_ok h o node ∧ window (op_key o) prev curr ∧ both prev curr ∧ adj ps prev curr
  | OLink1 k node prev curr =>
      node_ok h (Add k) (Some node) ∧ window k prev curr ∧ both prev curr ∧ adj ps prev curr ∧
      key_at h curr ≠ k
  | OLink2 k node prev curr =>
      node_ok h (Add k) (Some node) ∧ window k prev curr ∧ both prev curr ∧ adj ps prev curr ∧
      key_at h curr ≠ k ∧ next_at h node = Some (Ptr curr)
  | OUnlink k prev curr =>
      k < int_max ∧ window k prev curr ∧ both prev curr ∧ adj ps prev curr ∧ key_at h curr = k
  | OUnlockP r prev curr => prev ∈ pub ∧ curr ∈ pub ∧ both prev curr
  | OUnlockC r curr => curr ∈ pub ∧ locked h t curr
  end.
End point.

(** The list, and the nodes behind it that threads may still stand on. *)
Record olist_ok (h : heap) (ps : list nat) (pub : gset nat) (s : gset Z) : Prop := {
  ol_chain : chain (key_at h) ps;
  ol_set : represents (key_at h) ps s;
  ol_min : key_at h head = int_min;
  ol_max : key_at h tail = int_max;
  ol_tail : next_at h tail = Some Null;
  ol_link x y : adj ps x y → edge h x y;
  ol_sub x : x ∈ ps → x ∈ pub;
  ol_pub x : x ∈ pub → x ≠ tail → ∃ y, edge h x y ∧ y ∈ pub
}.

Record opt_ok (h : heap) (pcs : list opc) (log : list event) (ps : list nat) (pub : gset nat) (s : gset Z) : Prop := {
  oo_list : olist_ok h ps pub s;
  oo_log : replay log ∅ = Some s;
  oo_point t p : pcs !! t = Some p → o_point_ok h ps pub t p;
  oo_own t p l : pcs !! t = Some p → o_own p = Some l → l ∉ pub ∧ is_Some (h !! l);
  oo_disj t u p q l : t ≠ u → pcs !! t = Some p → pcs !! u = Some q → o_own p = Some l → o_own q ≠ Some l
}.

Section olist.
Context (h : heap) (ps : list nat) (pub : gset nat) (s : gset Z) (HL : olist_ok h ps pub s).

Lemma pub_alloc x : x ∈ pub → ∃ n, h !! x = Some n.
Proof.
  destruct HL as [_ _ _ L4 L5 _ _ L8]. intros Hx.
  assert (is_Some (next_at h x)) as [q Hq].
  { destruct (decide (x = tail)) as [-> | Hne]; [eauto |]. destruct (L8 x Hx Hne) as (y & Hy & _). eauto. }
  unfold next_at in Hq. destruct (h !! x); [eauto | done].
Qed.

Lemma edge_pub x y : x ∈ pub → edge h x y → y ∈ pub.
Proof.
  intros Hx He. destruct (decide (x = tail)) as [-> | Hne].
  - unfold edge in He. rewrite (ol_tail _ _ _ _ HL) in He. done.
  - destruct (ol_pub _ _ _ _ HL x Hx Hne) as (z & Hz & ?). unfold edge in *. congruence.
Qed.

Lemma edge_ps x y : x ∈ ps → edge h x y → adj ps x y.
Proof.
  intros Hx He. destruct (decide (x = tail)) as [-> | Hne].
  - unfold edge in He. rewrite (ol_tail _ _ _ _ HL) in He. done.
  - destruct (chain_next _ _ _ (ol_chain _ _ _ _ HL) Hx Hne) as [z Hz].
    pose proof (ol_link _ _ _ _ HL x z Hz) as He'. unfold edge in *. congruence.
Qed.

(** From a node of the list only nodes of the list are reached. *)
Lemma reach_ps x y : reach h x y → x ∈ ps → y ∈ ps.
Proof.
  induction 1 as [| x y z He _ IH]; [done |]. intros Hx. apply IH. by eapply adj_r, edge_ps.
Qed.

Lemma walk_head prev : walk h ps pub prev head.
Proof.
  split; [apply (ol_sub _ _ _ _ HL), (chain_head _ _ (ol_chain _ _ _ _ HL)) |].
  intros Hout Hr. apply Hout. eapply reach_ps; [done |]. apply (chain_head _ _ (ol_chain _ _ _ _ HL)).
Qed.

Lemma walk_next prev x y : walk h ps pub prev x → edge h x y → walk h ps pub prev y.
Proof.
  intros [Hx Hn] He. split; [by eapply edge_pub |]. intros Hout Hr. apply (Hn Hout). by eapply rtc_l.
Qed.

Lemma walk_end prev : walk h ps pub prev prev → prev ∈ ps.
Proof.
  intros [_ Hn]. destruct (decide (prev ∈ ps)) as [| Hout]; [done |]. exfalso. by apply (Hn Hout), rtc_refl.
Qed.

(** A change of pointers in the list only does not make a removed node
    reachable again. *)
Lemma reach_before h0 x p :
  (∀ a, a ∈ pub → a ∉ ps → next_at h a = next_at h0 a) → x ∈ pub → p ∉ ps → reach h x p → reach h0 x p.
Proof.
  intros Hsame Hx Hp Hr. revert Hx. induction Hr as [x | x y z He Hr IH]; intros Hx; [apply rtc_refl |].
  destruct (decide (x ∈ ps)) as [Hin | Hin].
  - exfalso. apply Hp. eapply reach_ps; [exact Hr |]. by eapply adj_r, edge_ps.
  - eapply rtc_l; [| apply IH; [done | by eapply edge_pub]]. unfold edge. by rewrite <- Hsame.
Qed.
End olist.

(** What a thread [u] at [q] keeps when another one steps. *)
Record oframe (h h' : heap) (ps ps' : list nat) (pub pub' : gset nat) (u : nat) (q : opc) : Prop := {
  of_key x : x ∈ pub → key_at h' x = key_at h x;
  of_pub x : x ∈ pub → x ∈ pub';
  of_locked x : x ∈ pub → locked h u x →
    h' !! x = h !! x ∧ (x ∈ ps → x ∈ ps') ∧ ∀ y, adj ps x y → adj ps' x y;
  of_own l : o_own q = Some l → h' !! l = h !! l;
  of_walk p x : p ∈ pub → locked h u p → walk h ps pub p x → walk h' ps' pub' p x
}.

Lemma o_point_frame h h' ps ps' pub pub' u q :
  oframe h h' ps ps' pub pub' u q → o_point_ok h ps pub u q → o_point_ok h' ps' pub' u q.
Proof.
  intros [F1 F2 F3 F4 F5] Hq.
  assert (∀ o node, o_own q = node → node_ok h o node → node_ok h' o node) as Hnode.
  { intros o node He [Hk Hn]. split; [done |]. destruct o; try done. destruct Hn as (n & -> & Hkey).
    exists n. unfold key_at in *. by rewrite (F4 n He). }
  assert (∀ x k, x ∈ pub → before h x k → before h' x k) as Hbef.
  { intros x k Hx [-> | Hb]; [by left | right]. by rewrite F1. }
  assert (∀ k a b, window h pub k a b → window h' pub' k a b ∧ a ∈ pub ∧ b ∈ pub) as Hwin.
  { intros k a b (Ha & Hpa & Hpb & Hk). unfold window. rewrite (F1 b Hpb). auto 10. }
  assert (∀ x, x ∈ pub → locked h u x → locked h' u x) as Hlk.
  { intros x Hx Hl. unfold locked. destruct (F3 x Hx Hl) as [-> _]. exact Hl. }
  assert (∀ a b, a ∈ pub → b ∈ pub → both h u a b → both h' u a b) as Hboth.
  { intros a b Ha Hb (? & ? & ?). split_and!; auto. }
  assert (∀ a b, a ∈ pub → both h u a b → adj ps a b → adj ps' a b) as Hadj.
  { intros a b Ha (_ & Hl & _). by apply (F3 a Ha Hl). }
  destruct q; cbn in Hq, Hnode |- *; try done.
  - by apply Hnode.
  - destruct Hq as (? & ? & ? & c & -> & ?). split_and!; eauto.
  - destruct Hq as (? & ? & ?). rewrite F1 by done. auto.
  - destruct Hq as (? & (? & _ & _)%Hwin). auto.
  - destruct Hq as (? & (? & ? & _)%Hwin & ?). auto.
  - destruct Hq as (? & (? & ? & ?)%Hwin & Hb & i & -> & Hw). split_and!; auto.
    exists i. split; [done |]. apply F5; [done | apply Hb | done].
  - destruct Hq as (? & (? & ? & ?)%Hwin & Hb & Hw & Hk). split_and!; auto; [apply F5; [done | apply Hb | done] |].
    rewrite !F1 by (done || apply Hw). done.
  - destruct Hq as (? & (? & ? & ?)%Hwin & Hb). auto.
  - destruct Hq as (? & ? & ?). auto.
  - destruct Hq as (? & (? & ? & ?)%Hwin & Hb & Ha). auto 10.
  - destruct Hq as (? & (? & ? & ?)%Hwin & Hb & Ha & Hk). rewrite F1 by done. auto 10.
  - destruct Hq as (? & (? & ? & ?)%Hwin & Hb & Ha & Hk & Hn). rewrite F1 by done.
    unfold next_at in *. rewrite F4 by done. auto 10.
  - destruct Hq as (? & (? & ? & ?)%Hwin & Hb & Ha & Hk). rewrite F1 by done. auto 10.
  - destruct Hq as (? & ? & Hb). auto.
  - destruct Hq as (? & ?). auto.
Qed.

Section step.
Context (h : heap) (pcs : list opc) (log : list event) (ps : list nat) (pub : gset nat) (s : gset Z).
Context (t : nat) (p : opc) (Hok : opt_ok h pcs log ps pub s) (Ht : pcs !! t = Some p).

(** The invariant after a step of [t], from what the step does. *)
Lemma opt_ok_step h' p' log' ps' pub' s' :
  olist_ok h' ps' pub' s' → replay log' ∅ = Some s' →
  o_point_ok h' ps' pub' t p' → (∀ l, o_own p' = Some l → l ∉ pub' ∧ is_Some (h' !! l)) →
  (∀ x, x ∈ pub → x ∈ pub' ∧ key_at h' x = key_at h x) →
  (∀ x, x ∈ pub' → x ∉ ps' → next_at h' x = next_at h x) →
  (∀ u x, u ≠ t → x ∈ pub → locked h u x →
    h' !! x = h !! x ∧ (x ∈ ps → x ∈ ps') ∧ ∀ y, adj ps x y → adj ps' x y) →
  (∀ u q l, u ≠ t → pcs !! u = Some q → o_own q = Some l → o_own p' ≠ Some l ∧ h' !! l = h !! l ∧ l ∉ pub') →
  opt_ok h' (<[t := p']> pcs) log' ps' pub' s'.
Proof.
  intros Hlist Hlog Hp' Hown' Hpub Hnext Hlock Hothers. pose proof Hok as [_ _ O3 O4 O5]. split; try done.
  - intros u q [(<- & <- & _) | [Hu Hq]]%list_lookup_insert_Some; [done |]. apply not_eq_sym in Hu.
    eapply o_point_frame; [| by apply O3]. split.
    + intros x Hx. by apply Hpub.
    + intros x Hx. by apply Hpub.
    + intros x Hx. by apply Hlock.
    + intros l Hl. by apply (Hothers u q).
    + intros a x Ha Hl [Hx Hn]. split; [by apply Hpub |]. intros Hout Hr.
      apply Hn; [intros Hin; by apply Hout, (Hlock u a) |].
      eapply (reach_before h' ps' pub' s'); try done. by apply Hpub.
  - intros u q l [(<- & <- & _) | [Hu Hq]]%list_lookup_insert_Some Hl; [by apply Hown' |].
    destruct (Hothers u q l) as (_ & Hl' & Hnot); [done | done | done |]. split; [done |].
    rewrite Hl'. by apply (O4 u q).
  - intros a b x y l Hne Ha Hb Hx Hy.
    apply list_lookup_insert_Some in Ha as [(<- & <- & _) | [Hta Ha]];
      apply list_lookup_insert_Some in Hb as [(Htb & <- & _) | [Htb Hb]]; try congruence.
    + destruct (Hothers b y l) as [H _]; auto.
    + destruct (Hothers a x l) as [H _]; auto.
    + by eapply (O5 a b x y l).
Qed.

Lemma o_others u q l : u ≠ t → pcs !! u = Some q → o_own q = Some l → o_own p ≠ Some l ∧ l ∉ pub.
Proof. intros Hu Hq Hl. split; [| by eapply oo_own]. by eapply oo_disj. Qed.

(** A step that reads, or changes only the mutex of a node. *)
Lemma opt_ok_keep h' p' log' :
  (∀ x, next_at h' x = next_at h x ∧ key_at h' x = key_at h x ∧ (is_Some (h !! x) → is_Some (h' !! x))) →
  (∀ u x, u ≠ t → locked h u x → h' !! x = h !! x) → (∀ x, x ∉ pub → h' !! x = h !! x) →
  replay log' ∅ = Some s → o_own p' = o_own p ∨ o_own p' = None → o_point_ok h' ps pub t p' →
  opt_ok h' (<[t := p']> pcs) log' ps pub s.
Proof.
  intros Hsame Hlock Hout Hlog Hown Hp'. pose proof (oo_list _ _ _ _ _ _ Hok) as [L1 L2 L3 L4 L5 L6 L7 L8].
  assert (∀ x, key_at h' x = key_at h x) as Hk by apply Hsame.
  eapply opt_ok_step; try done.
  - split; try done.
    + eapply chain_ext; [| done]. by intros.
    + eapply represents_ext; [| done]. by intros.
    + by rewrite Hk.
    + by rewrite Hk.
    + by rewrite (proj1 (Hsame _)).
    + intros x y Hxy. unfold edge. rewrite (proj1 (Hsame _)). by apply L6.
    + intros x Hx Hne. unfold edge. setoid_rewrite (proj1 (Hsame x)). by apply L8.
  - intros l Hl. destruct (oo_own _ _ _ _ _ _ Hok t p l Ht) as [Hn Hs]; [by destruct Hown as [<- | ?]; congruence |].
    split; [done |]. by apply Hsame.
  - intros x _ _. by apply Hsame.
  - intros u x Hu Hx Hl. by rewrite (Hlock u x).
  - intros u q l Hu Hq Hl. destruct (o_others u q l Hu Hq Hl) as [Hne Hnot]. split_and!; auto.
    destruct Hown as [-> | ->]; done.
Qed.
End step.

Lemma next_at_mutex (h : heap) l n m x : h !! l = Some n → next_at (<[l := set_lock m n]> h) x = next_at h x.
Proof.
  intros Hn. unfold next_at. destruct (decide (x = l)) as [-> | ?].
  - by rewrite lookup_insert_eq, Hn.
  - by rewrite lookup_insert_ne.
Qed.

Lemma reach_ext h h' x y : (∀ x, next_at h' x = next_at h x) → reach h' x y → reach h x y.
Proof.
  intros Hext. induction 1 as [| a b c He _ IH]; [apply rtc_refl |]. eapply rtc_l; [| done]. unfold edge. by rewrite <- Hext.
Qed.

Definition o_good (pcs : list opc) (log : list event) (t : nat) (r : outcome (option ores)) : Prop :=
  match r with
  | Ret None => True
  | Ret (Some r) => ∃ ps pub s, opt_ok (o_heap r) (<[t := o_pc r]> pcs) (log ++ option_list (o_event r)) ps pub s
  | _ => False
  end.

Section points.
Context (h : heap) (pcs : list opc) (log : list event) (ps : list nat) (pub : gset nat) (s : gset Z).
Context (t : nat) (o' : op) (l' : nat) (Hok : opt_ok h pcs log ps pub s).

Let HL := oo_list _ _ _ _ _ _ Hok.

Lemma o_log_none : replay (log ++ option_list None) ∅ = Some s.
Proof. cbn. rewrite (right_id_L [] (++)). apply (oo_log _ _ _ _ _ _ Hok). Qed.

Lemma o_log_event e s' : spec_op (e_op e) s = (s', e_res e) → replay (log ++ option_list (Some e)) ∅ = Some s'.
Proof.
  intros He. change (option_list (Some e)) with [e].
  rewrite (replay_app _ _ _ _ (oo_log _ _ _ _ _ _ Hok)), He. by rewrite bool_decide_true.
Qed.

Lemma o_good_read p p' e :
  pcs !! t = Some p → replay (log ++ option_list (e ≫= effect_of)) ∅ = Some s → o_own p' = o_own p ∨ o_own p' = None →
  o_point_ok h ps pub t p' → o_good pcs log t (Ret (Some (mkOres p' h e))).
Proof. intros Ht Hlog Hown Hp'. exists ps, pub, s. by eapply opt_ok_keep. Qed.

Lemma o_good_mutex p p' l n m a :
  a ≫= effect_of = None →
  pcs !! t = Some p → l ∈ pub → h !! l = Some n → (∀ u, u ≠ t → n_lock n ≠ Some u) →
  o_own p' = o_own p ∨ o_own p' = None →
  o_point_ok (<[l := set_lock m n]> h) ps pub t p' →
  o_good pcs log t (Ret (Some (mkOres p' (<[l := set_lock m n]> h) a))).
Proof.
  intros Ha Ht Hl Hn Hlk Hown Hp'. exists ps, pub, s. unfold o_event. cbn [o_heap o_pc o_act].
  eapply opt_ok_keep; try done; [| | | rewrite Ha; apply o_log_none].
  - intros x. split_and!; [| by eapply key_at_update |].
    + by apply next_at_mutex.
    + intros Hx. apply lookup_insert_is_Some'. auto.
  - intros u x Hu (n' & Hn' & Hlu). rewrite lookup_insert_ne; [done |]. intros <-. apply (Hlk u Hu). congruence.
  - intros x Hx. rewrite lookup_insert_ne; [done |]. congruence.
Qed.

(** What a change of a mutex leaves. *)
Lemma mutex_keeps l n m : h !! l = Some n → 
  (∀ o node, node_ok h o node → node_ok (<[l := set_lock m n]> h) o node) ∧
  (∀ k a b, window h pub k a b → window (<[l := set_lock m n]> h) pub k a b) ∧
  (∀ u x, x ≠ l → locked h u x → locked (<[l := set_lock m n]> h) u x) ∧
  (∀ a b, walk h ps pub a b → walk (<[l := set_lock m n]> h) ps pub a b).
Proof.
  intros Hn. assert (∀ x, key_at (<[l := set_lock m n]> h) x = key_at h x) as Hk by (intros x; by eapply key_at_update).
  split_and!.
  - intros o node [? Hnode]. split; [done |]. destruct o; try done. destruct Hnode as (x & -> & <-). eauto.
  - intros k a b. unfold window, before. by rewrite !Hk.
  - intros u x Hx (nx & Hnx & ?). exists nx. rewrite lookup_insert_ne by done. auto.
  - intros a b [Hb Hw]. split; [done |]. intros Ha Hr. apply (Hw Ha). eapply reach_ext; [| done].
    intros x. by apply next_at_mutex.
Qed.

(** A node of the list or behind it, with the node it points to. *)
Lemma pub_next x k : x ∈ pub → before h x k → k < int_max → ∃ n y, h !! x = Some n ∧ n_next n = Ptr y ∧ y ∈ pub.
Proof.
  intros Hx Hb Hk. destruct (pub_alloc _ _ _ _ HL x Hx) as [n Hn].
  destruct (ol_pub _ _ _ _ HL x Hx) as (y & Hy & ?).
  - intros ->. destruct Hb as [? | Hb]; [done |]. rewrite (ol_max _ _ _ _ HL) in Hb. lia.
  - exists n, y. split_and!; try done. unfold edge, next_at in Hy. rewrite Hn in Hy. by injection Hy.
Qed.

Lemma o_good_head o node : pcs !! t = Some (OHead o node) → o_good pcs log t (opt_step t o' l' (OHead o node) h).
Proof.
  intros Ht. pose proof (oo_point _ _ _ _ _ _ Hok _ _ Ht) as Hn.
  assert (head ∈ pub) as Hh by apply (walk_head _ _ _ _ HL head).
  destruct (pub_next head (op_key o) Hh) as (n & y & Hl & Hy & Hyp); [by left | apply Hn |].
  cbn [opt_step]. rewrite (load_Ret _ _ _ Hl). obind. rewrite Hy.
  eapply o_good_read; [done | apply o_log_none | by left |]. split_and!; eauto. by left.
Qed.

Lemma o_good_test o node prev curr :
  pcs !! t = Some (OTest o node prev curr) → o_good pcs log t (opt_step t o' l' (OTest o node prev curr) h).
Proof.
  intros Ht. pose proof (oo_point _ _ _ _ _ _ Hok _ _ Ht) as (Hn & Hb & Hp & c & -> & Hc).
  destruct (pub_alloc _ _ _ _ HL c Hc) as [n Hl].
  assert (key_at h c = n_key n) as Hk by (unfold key_at; by rewrite Hl).
  cbn [opt_step deref]. obind. rewrite (load_Ret _ _ _ Hl). obind.
  case_bool_decide; (eapply o_good_read; [done | apply o_log_none | by left |]); cbn; unfold window; rewrite ?Hk; auto 10 with lia.
Qed.

Lemma o_good_next o node curr :
  pcs !! t = Some (ONext o node curr) → o_good pcs log t (opt_step t o' l' (ONext o node curr) h).
Proof.
  intros Ht. pose proof (oo_point _ _ _ _ _ _ Hok _ _ Ht) as (Hn & Hc & Hk).
  destruct (pub_next curr (op_key o) Hc) as (n & y & Hl & Hy & Hyp); [by right | apply Hn |].
  cbn [opt_step]. rewrite (load_Ret _ _ _ Hl). obind. rewrite Hy.
  eapply o_good_read; [done | apply o_log_none | by left |]. split_and!; eauto. by right.
Qed.

Lemma o_lock_cases l : l ∈ pub →
  lock t l h = Ret None ∨
  ∃ n, h !! l = Some n ∧ n_lock n = None ∧ lock t l h = Ret (Some (<[l := set_lock (Some t) n]> h)).
Proof.
  intros Hl. destruct (pub_alloc _ _ _ _ HL l Hl) as [n Hn]. unfold lock. rewrite (load_Ret _ _ _ Hn). obind.
  destruct (n_lock n) eqn:Hlk; [by left | right]. eauto.
Qed.

Lemma locked_now m l n : locked (<[l := set_lock (Some m) n]> h) m l.
Proof. exists (set_lock (Some m) n). by rewrite lookup_insert_eq. Qed.

Lemma o_good_lockp o node prev curr :
  pcs !! t = Some (OLockP o node prev curr) → o_good pcs log t (opt_step t o' l' (OLockP o node prev curr) h).
Proof.
  intros Ht. pose proof (oo_point _ _ _ _ _ _ Hok _ _ Ht) as (Hn & Hw). cbn [opt_step].
  destruct (o_lock_cases prev) as [-> | (n & Hl & Hlk & ->)]; [apply Hw | done |]. obind.
  destruct (mutex_keeps prev n (Some t) Hl) as (M1 & M2 & _ & _).
  eapply o_good_mutex; try done; [apply Hw | congruence | by left |].
  split_and!; [auto | auto | apply locked_now].
Qed.

Lemma o_good_lockc o node prev curr :
  pcs !! t = Some (OLockC o node prev curr) → o_good pcs log t (opt_step t o' l' (OLockC o node prev curr) h).
Proof.
  intros Ht. pose proof (oo_point _ _ _ _ _ _ Hok _ _ Ht) as (Hn & Hw & Hlp). cbn [opt_step].
  destruct (o_lock_cases curr) as [-> | (n & Hl & Hlk & ->)]; [apply Hw | done |]. obind.
  destruct (mutex_keeps curr n (Some t) Hl) as (M1 & M2 & M3 & M4).
  assert (prev ≠ curr) as Hne by (intros ->; destruct Hlp as (? & ? & ?); congruence).
  eapply o_good_mutex; try done; [apply Hw | congruence | by left |].
  split_and!; auto; [split_and!; auto; apply locked_now |].
  exists head. split; [done |]. apply M4, (walk_head _ _ _ _ HL).
Qed.

Lemma o_good_val o node prev curr it :
  pcs !! t = Some (OVal o node prev curr it) → o_good pcs log t (opt_step t o' l' (OVal o node prev curr it) h).
Proof.
  intros Ht. pose proof (oo_point _ _ _ _ _ _ Hok _ _ Ht) as (Hn & Hw & Hb & i & -> & Hi).
  destruct (pub_alloc _ _ _ _ HL i) as [ni Hni]; [apply Hi |].
  destruct (pub_alloc _ _ _ _ HL prev) as [np Hnp]; [apply Hw |].
  assert (key_at h i = n_key ni ∧ key_at h prev = n_key np) as [Hki Hkp].
  { unfold key_at. by rewrite Hni, Hnp. }
  cbn [opt_step deref]. obind. unfold validate_loop. rewrite (load_Ret _ _ _ Hni), (load_Ret _ _ _ Hnp). obind.
  case_bool_decide; (eapply o_good_read; [done | apply o_log_none | by left |]); cbn; rewrite ?Hki, ?Hkp; auto 10.
Qed.

Lemma o_good_hit o node prev curr it :
  pcs !! t = Some (OHit o node prev curr it) → o_good pcs log t (opt_step t o' l' (OHit o node prev curr it) h).
Proof.
  intros Ht. pose proof (oo_point _ _ _ _ _ _ Hok _ _ Ht) as (Hn & Hw & Hb & Hi & Hk).
  assert (it ≠ tail) as Hne.
  { intros ->. rewrite (ol_max _ _ _ _ HL) in Hk. destruct Hw as ([-> | Hlt] & _), Hn as [Hmax _].
    - rewrite (ol_min _ _ _ _ HL) in Hk. unfold int_min, int_max in Hk. lia.
    - lia. }
  destruct (ol_pub _ _ _ _ HL it) as (y & Hy & _); [apply Hi | done |].
  destruct (pub_alloc _ _ _ _ HL it) as [ni Hni]; [apply Hi |].
  assert (n_next ni = Ptr y) as Hnext by (unfold edge, next_at in Hy; rewrite Hni in Hy; by injection Hy).
  cbn [opt_step]. unfold validate_body. rewrite (load_Ret _ _ _ Hni). obind. rewrite Hnext.
  eapply o_good_read; [done | apply o_log_none | left; by repeat case_match |].
  destruct (decide (it = prev)) as [-> | _]; [| split_and!; eauto; exists y; split; [done |]; by eapply walk_next].
  destruct (decide (Ptr y = Ptr curr)) as [[= ->] | _]; [| done].
  split_and!; try done. eapply edge_ps; [done | by eapply walk_end | done].
Qed.

(** The mutex of a node the thread holds. *)
Lemma unlock_mine p p' l a :
  a ≫= effect_of = None →
  pcs !! t = Some p → l ∈ pub → locked h t l → o_own p' = o_own p ∨ o_own p' = None →
  (∀ n, h !! l = Some n → o_point_ok (<[l := set_lock None n]> h) ps pub t p') →
  o_good pcs log t (h ← unlock l h; Ret (Some (mkOres p' h a))).
Proof.
  intros Ha Ht Hl (n & Hn & Hlk) Hown Hp. unfold unlock. rewrite (store_Ret _ _ _ _ Hn). obind.
  eapply o_good_mutex; try done; [| by apply Hp]. intros u Hu. congruence.
Qed.

Lemma o_good_fail1 o node prev curr :
  pcs !! t = Some (OFail1 o node prev curr) → o_good pcs log t (opt_step t o' l' (OFail1 o node prev curr) h).
Proof.
  intros Ht. pose proof (oo_point _ _ _ _ _ _ Hok _ _ Ht) as (Hn & Hw & Hne & Hlp & Hlc).
  eapply unlock_mine; try done; [apply Hw | by left |].
  intros n Hl. destruct (mutex_keeps prev n None Hl) as (M1 & M2 & M3 & M4).
  split_and!; [auto | apply Hw | auto].
Qed.

Lemma o_good_fail2 o node curr :
  pcs !! t = Some (OFail2 o node curr) → o_good pcs log t (opt_step t o' l' (OFail2 o node curr) h).
Proof.
  intros Ht. pose proof (oo_point _ _ _ _ _ _ Hok _ _ Ht) as (Hn & Hc & Hlc).
  eapply unlock_mine; try done; [by left |].
  intros n Hl. destruct (mutex_keeps curr n None Hl) as (M1 & _). by apply M1.
Qed.

Lemma o_good_unlockp r prev curr :
  pcs !! t = Some (OUnlockP r prev curr) → o_good pcs log t (opt_step t o' l' (OUnlockP r prev curr) h).
Proof.
  intros Ht. pose proof (oo_point _ _ _ _ _ _ Hok _ _ Ht) as (Hp & Hc & Hne & Hlp & Hlc).
  eapply unlock_mine; try done; [by left |].
  intros n Hl. destruct (mutex_keeps prev n None Hl) as (_ & _ & M3 & _). split; [done |]. by apply M3.
Qed.

Lemma o_good_unlockc r curr :
  pcs !! t = Some (OUnlockC r curr) → o_good pcs log t (opt_step t o' l' (OUnlockC r curr) h).
Proof.
  intros Ht. pose proof (oo_point _ _ _ _ _ _ Hok _ _ Ht) as (Hc & Hlc).
  eapply unlock_mine; try done. by left.
Qed.

Lemma o_good_decide o node prev curr :
  pcs !! t = Some (ODecide o node prev curr) → o_good pcs log t (opt_step t o' l' (ODecide o node prev curr) h).
Proof.
  intros Ht. pose proof (oo_point _ _ _ _ _ _ Hok _ _ Ht) as (Hn & Hw & Hb & Ha).
  destruct (pub_alloc _ _ _ _ HL curr) as [n Hc]; [apply Hw |].
  assert (key_at h curr = n_key n) as Hk by (unfold key_at; by rewrite Hc).
  assert (op_key o < int_max) as Hmax by apply Hn.
  assert (op_key o ∈ s ↔ n_key n = op_key o) as Hfind.
  { rewrite <- Hk. destruct HL as [L1 L2 _ L4 _ _ _ _].
    eapply chain_find; [done | done | done | apply Hw | apply Hw | by rewrite L4]. }
  assert (o_point_ok h ps pub t (OUnlockP true prev curr)) as Hdone by (split_and!; (done || apply Hw)).
  cbn [opt_step]. rewrite (load_Ret _ _ _ Hc). obind.
  destruct o as [k | k | k]; cbn [opt_decide op_key] in *; case_bool_decide as Hf; obind.
  - eapply o_good_read; [done | apply o_log_event; cbn; rewrite decide_True; tauto | by right | done].
  - destruct Hn as [? (nd & -> & ?)]. obind. eapply o_good_read; [done | apply o_log_none | by left |].
    split_and!; try done; [split; eauto | congruence].
  - eapply o_good_read; [done | apply o_log_none | by right |]. split_and!; (done || congruence).
  - eapply o_good_read; [done | apply o_log_event; cbn; rewrite decide_False; tauto | by right | done].
  - eapply o_good_read; [done | apply o_log_event; cbn; rewrite bool_decide_true; tauto | by right | done].
  - eapply o_good_read; [done | apply o_log_event; cbn; rewrite bool_decide_false; tauto | by right | done].
Qed.
End points.

(** ** The steps that change the list or allocate *)

Section changes.
Context (h : heap) (pcs : list opc) (log : list event) (ps : list nat) (pub : gset nat) (s : gset Z).
Context (t : nat) (o' : op) (l' : nat) (Hok : opt_ok h pcs log ps pub s).

Let HL := oo_list _ _ _ _ _ _ Hok.

(** A change of a node that has never been in the list. *)
Lemma opt_ok_private p p' l n' :
  pcs !! t = Some p → l ∉ pub → o_own p' = Some l → (∀ u q, u ≠ t → pcs !! u = Some q → o_own q ≠ Some l) →
  o_point_ok (<[l := n']> h) ps pub t p' → opt_ok (<[l := n']> h) (<[t := p']> pcs) (log ++ option_list None) ps pub s.
Proof.
  intros Ht Hl Hown Hdisj Hp'. destruct HL as [L1 L2 L3 L4 L5 L6 L7 L8].
  assert (∀ x, x ∈ pub → <[l := n']> h !! x = h !! x) as Hsame.
  { intros x Hx. rewrite lookup_insert_ne; [done |]. congruence. }
  assert (∀ x, x ∈ pub → key_at (<[l := n']> h) x = key_at h x) as Hk.
  { intros x Hx. unfold key_at. by rewrite Hsame. }
  assert (∀ x, x ∈ pub → next_at (<[l := n']> h) x = next_at h x) as Hnx.
  { intros x Hx. unfold next_at. by rewrite Hsame. }
  pose proof (L7 _ (chain_head _ _ L1)) as Hh. pose proof (L7 _ (chain_tail _ _ L1)) as Htl.
  eapply opt_ok_step; try done.
  - split; try done.
    + eapply chain_ext; [| done]. intros x Hx. symmetry. auto.
    + eapply represents_ext; [| done]. intros x Hx. symmetry. auto.
    + by rewrite Hk.
    + by rewrite Hk.
    + by rewrite Hnx.
    + intros x y Hxy. unfold edge. rewrite Hnx by (by eapply L7, adj_l). by apply L6.
    + intros x Hx Hne. unfold edge. setoid_rewrite (Hnx x Hx). by apply L8.
  - by eapply o_log_none.
  - intros x Hx. rewrite Hown in Hx. injection Hx as <-. split; [done |]. rewrite lookup_insert_eq. eauto.
  - intros x Hx. auto.
  - intros x Hx _. auto.
  - intros u x Hu Hx Hlk. auto.
  - intros u q x Hu Hq Hx. assert (l ≠ x) by (intros <-; by eapply Hdisj).
    split_and!; [congruence | by rewrite lookup_insert_ne | by eapply oo_own].
Qed.

Lemma o_good_idle : op_key o' < int_max → pcs !! t = Some OIdle → o_good pcs log t (opt_step t o' l' OIdle h).
Proof.
  intros Hmax Ht. cbn [opt_step].
  destruct o' as [k | k | k]; [| by (eapply o_good_read; [exact Hok | done | by eapply o_log_none | by left |]) ..].
  destruct (h !! l') as [n |] eqn:Hl; [done |].
  assert (l' ∉ pub) as Hnot.
  { intros Hin. destruct (pub_alloc _ _ _ _ HL l' Hin) as [n Hn]. congruence. }
  exists ps, pub, s. eapply opt_ok_private; try done.
  - intros u q Hu Hq Hown. destruct (oo_own _ _ _ _ _ _ Hok u q l' Hq Hown) as [_ [n Hn]]. congruence.
  - split; [done |]. exists l'. split; [done |]. unfold key_at. by rewrite lookup_insert_eq.
Qed.

Lemma o_good_link1 k node prev curr :
  pcs !! t = Some (OLink1 k node prev curr) → o_good pcs log t (opt_step t o' l' (OLink1 k node prev curr) h).
Proof.
  intros Ht. pose proof (oo_point _ _ _ _ _ _ Hok _ _ Ht) as (Hn & Hw & (Hne & Hlp & Hlc) & Ha & Hk).
  destruct (oo_own _ _ _ _ _ _ Hok t _ node Ht eq_refl) as [Hnot [nd Hnd]].
  cbn [opt_step]. rewrite (store_Ret _ _ _ _ Hnd). obind. exists ps, pub, s.
  assert (∀ x, key_at (<[node := set_next (Ptr curr) nd]> h) x = key_at h x) as Hkey.
  { intros x. by eapply key_at_update. }
  assert (∀ x, x ∈ pub → locked h t x → locked (<[node := set_next (Ptr curr) nd]> h) t x) as Hlk.
  { intros x Hx (nx & Hnx & ?). exists nx. rewrite lookup_insert_ne by congruence. auto. }
  eapply opt_ok_private; try done.
  - intros u q Hu Hq. by eapply (oo_disj _ _ _ _ _ _ Hok t u).
  - pose proof Hw as (_ & Hp & Hc & _). cbn. unfold window, before, node_ok, both in *. rewrite !Hkey.
    split_and!; try done; try apply Hw; auto; [apply Hn | |].
    + exists node. rewrite Hkey. destruct Hn as [_ (? & [= <-] & ?)]. done.
    + unfold next_at. by rewrite lookup_insert_eq.
Qed.

Section validated.
Context (k : Z) (prev curr : nat) (np : Node).
Context (Hw : window h pub k prev curr) (Hb : both h t prev curr) (Ha : adj ps prev curr).
Context (Hmax : k < int_max) (Hnp : h !! prev = Some np).

(** The change of [prev->next] seen from the rest of memory. *)
Lemma store_prev q :
  (∀ x, key_at (<[prev := set_next q np]> h) x = key_at h x) ∧
  (∀ x, x ≠ prev → <[prev := set_next q np]> h !! x = h !! x) ∧
  (∀ x, x ≠ prev → next_at (<[prev := set_next q np]> h) x = next_at h x) ∧
  (∀ u x, locked (<[prev := set_next q np]> h) u x ↔ locked h u x) ∧
  next_at (<[prev := set_next q np]> h) prev = Some q.
Proof.
  split_and!.
  - intros x. by eapply key_at_update.
  - intros x Hx. by rewrite lookup_insert_ne.
  - intros x Hx. unfold next_at. by rewrite lookup_insert_ne.
  - intros u x. unfold locked. destruct (decide (x = prev)) as [-> | Hx]; [| by rewrite lookup_insert_ne].
    rewrite lookup_insert_eq, Hnp. naive_solver.
  - unfold next_at. by rewrite lookup_insert_eq.
Qed.

Lemma in_set_iff : k ∈ s ↔ key_at h curr = k.
Proof.
  destruct HL as [L1 L2 _ L4 _ _ _ _].
  eapply chain_find; [done | done | done | apply Hw | apply Hw | by rewrite L4].
Qed.

(** What the others have locked is neither [prev] nor [curr]. *)
Lemma others_locked u x : u ≠ t → locked h u x → x ≠ prev ∧ x ≠ curr.
Proof.
  destruct Hb as (_ & Hlp & Hlc). intros Hu Hx.
  split; intros ->; apply Hu; [exact (locked_fun _ _ _ _ Hx Hlp) | exact (locked_fun _ _ _ _ Hx Hlc)].
Qed.
End validated.

Lemma o_good_link2 k node prev curr :
  pcs !! t = Some (OLink2 k node prev curr) → o_good pcs log t (opt_step t o' l' (OLink2 k node prev curr) h).
Proof.
  intros Ht. pose proof (oo_point _ _ _ _ _ _ Hok _ _ Ht) as ([Hmax (? & [= <-] & Hkn)] & Hw & Hb & Ha & Hk & Hnext).
  destruct (oo_own _ _ _ _ _ _ Hok t _ node Ht eq_refl) as [Hnot _]. cbn in Hmax.
  destruct (pub_alloc _ _ _ _ HL prev) as [np Hnp]; [apply Hw |].
  cbn [opt_step]. rewrite (store_Ret _ _ _ _ Hnp). obind.
  pose proof HL as [L1 L2 L3 L4 L5 L6 L7 L8]. pose proof Hw as (Hbef & Hp & Hc & Hle).
  destruct (chain_insert_adj (key_at h) ps s prev curr node) as (ps' & Hch' & Hrep' & Hin' & Hadj');
    [done | done | done | by intros ?%L7 | by rewrite Hkn | rewrite Hkn; lia |]. rewrite Hkn in Hrep'.
  destruct (store_prev prev np Hnp (Ptr node)) as (S1 & S2 & S3 & S4 & S5).
  assert (prev ≠ node) as Hpn by congruence. pose proof (adj_not_tail _ _ _ _ L1 Ha) as Hpt.
  exists ps', ({[node]} ∪ pub), ({[k]} ∪ s). eapply opt_ok_step; try done; cbn [o_heap o_pc o_event o_act effect_of mbind option_bind].
  - split.
    + eapply chain_ext; [| done]. by intros.
    + eapply represents_ext; [| done]. by intros.
    + by rewrite S1.
    + by rewrite S1.
    + by rewrite S3 by done.
    + intros x y [[-> ->] | [[-> ->] | [Hne Hxy]]]%Hadj'; [done | |].
      * unfold edge. by rewrite S3.
      * unfold edge. rewrite S3 by done. by apply L6.
    + intros x [-> | Hx]%Hin'; [set_solver |]. apply L7 in Hx. set_solver.
    + intros x Hx Hne. destruct (decide (x = prev)) as [-> | Hxp]; [exists node; split; [done | set_solver] |].
      unfold edge. setoid_rewrite (S3 x Hxp). apply elem_of_union in Hx as [->%elem_of_singleton | Hx].
      * exists curr. split; [done | set_solver].
      * destruct (L8 x Hx Hne) as (y & ? & ?). exists y. split; [done | set_solver].
  - eapply o_log_event; [done |]. cbn. rewrite decide_False; [done |]. by rewrite (in_set_iff k prev curr).
  - split_and!; [set_solver | set_solver |]. unfold both. by rewrite !S4.
  - intros x Hx. split; [set_solver | done].
  - intros x _ Hx. apply S3. intros ->. apply Hx, Hin'. right. by eapply adj_l.
  - intros u x Hu Hx Hl. destruct (others_locked prev curr Hb u x Hu Hl) as [Hne _]. split_and!; auto.
    + intros ?. apply Hin'. auto.
    + intros y Hxy. apply Hadj'. auto.
  - intros u q x Hu Hq Hx. destruct (o_others _ _ _ _ _ _ _ _ Hok Ht u q x Hu Hq Hx) as [Hne Hxp]. cbn in Hne.
    split_and!; [done | apply S2; congruence | set_solver].
Qed.

Lemma o_good_unlink k prev curr :
  pcs !! t = Some (OUnlink k prev curr) → o_good pcs log t (opt_step t o' l' (OUnlink k prev curr) h).
Proof.
  intros Ht. pose proof (oo_point _ _ _ _ _ _ Hok _ _ Ht) as (Hmax & Hw & Hb & Ha & Hk).
  pose proof HL as [L1 L2 L3 L4 L5 L6 L7 L8]. pose proof Hw as (Hbef & Hp & Hc & Hle).
  destruct (pub_alloc _ _ _ _ HL prev Hp) as [np Hnp]. destruct (pub_alloc _ _ _ _ HL curr Hc) as [nc Hnc].
  assert (curr ≠ tail) as Hct by (intros ->; lia). pose proof (adj_not_tail _ _ _ _ L1 Ha) as Hpt.
  destruct (chain_next _ _ _ L1 (adj_r _ _ _ Ha) Hct) as [b Hcb].
  assert (n_next nc = Ptr b) as Hnb.
  { pose proof (L6 _ _ Hcb) as He. unfold edge, next_at in He. rewrite Hnc in He. by injection He. }
  cbn [opt_step]. rewrite (load_Ret _ _ _ Hnc). obind. rewrite (store_Ret _ _ _ _ Hnp). obind. rewrite Hnb.
  destruct (chain_remove_adj (key_at h) ps s prev curr b) as (ps' & Hch' & Hrep' & Hin' & Hout & Hadj'); try done.
  rewrite Hk in Hrep'. destruct (store_prev prev np Hnp (Ptr b)) as (S1 & S2 & S3 & S4 & S5).
  exists ps', pub, (s ∖ {[k]}). eapply opt_ok_step; try done; cbn [o_heap o_pc o_event o_act effect_of mbind option_bind].
  - split.
    + eapply chain_ext; [| done]. by intros.
    + eapply represents_ext; [| done]. by intros.
    + by rewrite S1.
    + by rewrite S1.
    + by rewrite S3 by done.
    + intros x y [[-> ->] | (Hne & _ & Hxy)]%Hadj'; [done |]. unfold edge. rewrite S3 by done. by apply L6.
    + intros x Hx. apply L7, Hin'. auto.
    + intros x Hx Hne. destruct (decide (x = prev)) as [-> | Hxp]; [exists b; split; [done |]; by eapply L7, adj_r |].
      unfold edge. setoid_rewrite (S3 x Hxp). by apply L8.
  - eapply o_log_event; [done |]. cbn. rewrite decide_True; [done |]. by rewrite (in_set_iff k prev curr).
  - split_and!; [done | done |]. unfold both. by rewrite !S4.
  - intros x _ Hx. apply S3. intros ->. apply Hx. by eapply adj_l, Hadj'; left.
  - intros u x Hu Hx Hl. destruct (others_locked prev curr Hb u x Hu Hl) as [Hne Hnc']. split_and!; auto.
    + intros [-> | ?]%Hin'; done.
    + intros y Hxy. apply Hadj'. auto.
  - intros u q x Hu Hq Hx. destruct (oo_own _ _ _ _ _ _ Hok u q x Hq Hx) as [Hxp _].
    split_and!; [done | apply S2; congruence | done].
Qed.
End changes.

(** ** The theorems *)

Lemma opt_ok_start hl tl n : opt_ok (opt_init hl tl) (replicate n OIdle) [] [head; tail] {[head; tail]} ∅.
Proof.
  assert (∀ t p, replicate n OIdle !! t = Some p → p = OIdle) as Hp by (by intros t p [? _]%lookup_replicate).
  split; [split | | | |]; try done.
  - eapply chain_ext; [| apply chain_init]. intros x [-> | [-> | []%not_elem_of_nil]%elem_of_cons]%elem_of_cons; done.
  - eapply represents_ext; [| apply represents_init].
    intros x [-> | [-> | []%not_elem_of_nil]%elem_of_cons]%elem_of_cons; done.
  - intros x y [-> ->]%adj_init. done.
  - intros x Hx. set_solver.
  - intros x Hx Hne. assert (x = head) as -> by set_solver. exists tail. split; [done | set_solver].
  - by intros t p ->%Hp.
  - by intros t p l ->%Hp.
  - intros t u p q l _ ->%Hp _ Hown. done.
Qed.

(** Only the call of an operation depends on its key. *)
Lemma opt_step_good h pcs log ps pub s t p o l :
  opt_ok h pcs log ps pub s → pcs !! t = Some p → (p = OIdle → op_key o < int_max) →
  o_good pcs log t (opt_step t o l p h).
Proof.
  intros Hok Ht Hmax. destruct p.
  - eapply o_good_idle; [done | by apply Hmax | done].
  - by eapply o_good_head.
  - by eapply o_good_test.
  - by eapply o_good_next.
  - by eapply o_good_lockp.
  - by eapply o_good_lockc.
  - by eapply o_good_val.
  - by eapply o_good_hit.
  - by eapply o_good_fail1.
  - by eapply o_good_fail2.
  - by eapply o_good_decide.
  - by eapply o_good_link1.
  - by eapply o_good_link2.
  - by eapply o_good_unlink.
  - by eapply o_good_unlockp.
  - by eapply o_good_unlockc.
Qed.

Lemma opt_sys_inv t o l σ σ' :
  opt_sys_step t o l σ = Ret (Some σ') →
  ∃ p r, opcs σ !! t = Some p ∧ opt_step t o l p (oheap σ) = Ret (Some r) ∧
    σ' = mkOsys (o_heap r) (<[t := o_pc r]> (opcs σ)) (ohist σ ++ option_list (o_act r)).
Proof.
  unfold opt_sys_step. destruct (opcs σ !! t) as [p |]; [| done].
  intros ([r |] & Hr & [= <-])%bind_Ret_inv. eauto.
Qed.

(** A thread without a call is about to make one. *)
Lemma opt_idle_calls t o l h r : opt_step t o l OIdle h = Ret (Some r) → o_act r = Some (Call t o).
Proof. cbn. destruct o; [destruct (h !! l) |..]; intros [= <-]; done. Qed.

Lemma opt_reachable_ok hl tl n σ :
  rtc ostep (opt_start hl tl n) σ → keys_below (ohist σ) →
  ∃ ps pub s, opt_ok (oheap σ) (opcs σ) (effects (ohist σ)) ps pub s.
Proof.
  refine (rtc_ind_r (λ σ, keys_below (ohist σ) → ∃ ps pub s, opt_ok (oheap σ) (opcs σ) (effects (ohist σ)) ps pub s) _ _ _ σ).
  - exists [head; tail], {[head; tail]}, ∅. apply opt_ok_start.
  - intros σ1 _ _ [t o l σ1' σ2 (p & r & Ht & Hr & ->)%opt_sys_inv] IH Hk. cbn in Hk |- *.
    apply Forall_app in Hk as [Hk1 Hk2]. destruct (IH Hk1) as (ps & pub & s & Hok).
    assert (p = OIdle → op_key o < int_max) as Hmax.
    { intros ->. rewrite (opt_idle_calls _ _ _ _ _ Hr) in Hk2. by apply Forall_cons in Hk2 as [? _]. }
    pose proof (opt_step_good _ _ _ _ _ _ t p o l Hok Ht Hmax) as Hgood. rewrite Hr in Hgood.
    rewrite effects_app. replace (effects (option_list (o_act r))) with (option_list (o_event r)); [exact Hgood |].
    unfold o_event. by destruct (o_act r) as [[] |].
Qed.

(** What the program counter of a thread says about its call. *)
Definition opt_stage (p : opc) (st : stage) : Prop :=
  match p with
  | OIdle => st = Between
  | OHead o _ | OTest o _ _ _ | ONext o _ _ | OLockP o _ _ _ | OLockC o _ _ _ | OVal o _ _ _ _ | OHit o _ _ _ _
  | OFail1 o _ _ _ | OFail2 o _ _ | ODecide o _ _ _ => st = Called o
  | OLink1 k _ _ _ | OLink2 k _ _ _ => st = Called (Add k)
  | OUnlink k _ _ => st = Called (Remove k)
  | OUnlockP r _ _ | OUnlockC r _ => ∃ o, st = Took o r
  end.

Lemma opt_decide_stage t o node prev curr found p a :
  opt_decide t o node prev curr found = Ret (p, a) → stage_step opt_stage t (ODecide o node prev curr) p a.
Proof.
  intros Hd st ->. destruct o, found; cbn in Hd; try case_match; simplify_eq; try done;
    (split; [done |]; eexists; split; [apply advance_effect |]; cbn; eauto).
Qed.

(** The validation goes on, fails or succeeds with the same call. *)
Lemma validate_stage o node prev curr it h p st :
  validate_loop o node prev curr it h = Ret p ∨ validate_body o node prev curr it h = Ret p →
  st = Called o → opt_stage p st.
Proof.
  intros Hv ->. destruct Hv as [Hv | Hv]; unfold validate_loop, validate_body in Hv;
    repeat bind_inv Hv; repeat case_match; by simplify_eq.
Qed.

Lemma opt_step_stage t o l p h r :
  opt_step t o l p h = Ret (Some r) → stage_step opt_stage t p (o_pc r) (o_act r).
Proof.
  intros Hr. destruct p; cbn in Hr; repeat (bind_inv Hr || case_match); simplify_eq; cbn [o_pc o_act];
    try (by eapply opt_decide_stage); intros st Hst; cbn in Hst; simplify_eq; cbn [opt_stage]; eauto.
  all: try (by eapply validate_stage; eauto).
  - split; [done |]. eexists. split; [apply advance_effect |]. cbn. eauto.
  - split; [done |]. eexists. split; [apply advance_effect |]. cbn. eauto.
  - destruct Hst as [o0 ->]. split; [done |]. eexists. by split; [apply advance_return |].
Qed.

Lemma opt_staged hl tl n σ : rtc ostep (opt_start hl tl n) σ → staged opt_stage (opcs σ) (ohist σ).
Proof.
  apply rtc_ind_r with (P := λ σ, staged opt_stage (opcs σ) (ohist σ)); [by apply staged_start |].
  intros σ1 _ _ [t o l σ1' σ2 (p & r & Ht & Hr & ->)%opt_sys_inv] IH. cbn.
  eapply staged_step; [done | done | by eapply opt_step_stage].
Qed.

(** C6: The optimistic list is linearizable as long as the keys of the calls are
    below [INT_MAX], the key of the tail, whatever the mutexes of the sentinels
    hold at the start.  Every thread makes one call after another, each of which
    takes effect once, between its beginning and its return, and returns the
    result it took effect with; the results of the calls in the order in which
    they took effect are those of the operations of a set; the pointers from the
    head lead through nodes in increasing order of keys to the tail, and their
    keys are the elements of that set.  A thread that has validated holds the
    mutexes of two neighbours of the list. *)
Theorem opt_linearizable hl tl n σ :
  rtc ostep (opt_start hl tl n) σ → keys_below (ohist σ) →
  staged opt_stage (opcs σ) (ohist σ) ∧
  ∃ s ps, replay (effects (ohist σ)) ∅ = Some s ∧ chain (key_at (oheap σ)) ps ∧ represents (key_at (oheap σ)) ps s ∧
    (∀ x y, adj ps x y → edge (oheap σ) x y) ∧
    ∀ t o node prev curr, opcs σ !! t = Some (ODecide o node prev curr) →
      adj ps prev curr ∧ locked (oheap σ) t prev ∧ locked (oheap σ) t curr.
Proof.
  intros Hs Hk. split; [by eapply opt_staged |].
  destruct (opt_reachable_ok _ _ _ _ Hs Hk) as (ps & pub & s & [[L1 L2 _ _ _ L6 _ _] O2 O3 _ _]).
  exists s, ps. split_and!; try done. intros t o node prev curr (_ & _ & (_ & ? & ?) & ?)%O3. auto.
Qed.

(** The optimistic list is memory safe as long as the keys of the calls are
    below [INT_MAX]: no walk, locked or not, follows a null or uninitialised
    pointer. *)
Theorem opt_memory_safe hl tl n σ t o l :
  rtc ostep (opt_start hl tl n) σ → keys_below (ohist σ) → (opcs σ !! t = Some OIdle → op_key o < int_max) →
  ∃ r, opt_sys_step t o l σ = Ret r.
Proof.
  intros Hs Hk Hmax. destruct (opt_reachable_ok _ _ _ _ Hs Hk) as (ps & pub & s & Hok). unfold opt_sys_step.
  destruct (opcs σ !! t) as [p |] eqn:Ht; [| eauto].
  pose proof (opt_step_good _ _ _ _ _ _ t p o l Hok Ht) as Hgood.
  destruct (opt_step t o l p (oheap σ)) as [[r |] | |]; cbn; eauto; exfalso; apply Hgood; intros ->; auto.
Qed.

Fixpoint run_opt (sched : list (nat * op * nat)) (σ : osys) : outcome (option osys) :=
  match sched with
  | [] => Ret (Some σ)
  | (t, o, l) :: sched =>
      r ← opt_sys_step t o l σ;
      match r with
      | None => Ret None
      | Some σ => run_opt sched σ
      end
  end.

Lemma run_opt_steps sched σ σ' :
  run_opt sched σ = Ret (Some σ') → rtc ostep σ σ'.
Proof.
  revert σ. induction sched as [| [[t o] l] sched IH]; intros σ; cbn [run_opt]; [by intros [= ->] |].
  intros ([σ1 |] & H1 & H2)%bind_Ret_inv; [| done]. eapply rtc_l; [by econstructor | by apply IH].
Qed.

(** Thread 0 adds 5; thread 1 walks to the node of 5 to add 7; thread 0 removes
    5; thread 1 locks, and its validation fails. *)
Definition opt_schedule : list (nat * op * nat) :=
  replicate 12 (0%nat, Add 5, 2%nat) ++ replicate 5 (1%nat, Add 7, 3%nat) ++ replicate 11 (0%nat, Remove 5, 0%nat) ++
  replicate 5 (1%nat, Add 7, 0%nat).

Definition opt_after : osys :=
  match run_opt opt_schedule (opt_start None None 2) with Ret (Some σ) => σ | _ => opt_start None None 2 end.

Lemma opt_after_reachable : rtc ostep (opt_start None None 2) opt_after.
Proof. apply (run_opt_steps opt_schedule). vm_compute; reflexivity. Qed.

Lemma opt_after_keys : keys_below (ohist opt_after).
Proof. apply (bool_decide_unpack _). vm_compute. constructor. Qed.

Lemma opt_linearizable_witness :
  opcs opt_after = [OIdle; OFail1 (Add 7) (Some 3%nat) 2 1] ∧
  ohist opt_after =
    [Call 0 (Add 5); Effect (mkEvent 0 (Add 5) true); Return 0 true; Call 1 (Add 7);
     Call 0 (Remove 5); Effect (mkEvent 0 (Remove 5) true); Return 0 true] ∧
  staged opt_stage (opcs opt_after) (ohist opt_after) ∧
  ∃ s ps, replay (effects (ohist opt_after)) ∅ = Some s ∧ chain (key_at (oheap opt_after)) ps ∧
    represents (key_at (oheap opt_after)) ps s ∧ (∀ x y, adj ps x y → edge (oheap opt_after) x y) ∧
    ∀ t o node prev curr, opcs opt_after !! t = Some (ODecide o node prev curr) →
      adj ps prev curr ∧ locked (oheap opt_after) t prev ∧ locked (oheap opt_after) t curr.
Proof.
  split; [vm_compute; reflexivity |]. split; [vm_compute; reflexivity |].
  apply (opt_linearizable None None 2); [apply opt_after_reachable | apply opt_after_keys].
Defined.

Lemma opt_memory_safe_witness : ∃ r, opt_sys_step 1 (Contains 3) 0 opt_after = Ret r.
Proof.
  apply (opt_memory_safe None None 2); [apply opt_after_reachable | apply opt_after_keys |].
  intros _. vm_compute; reflexivity.
Defined.

(** The key of the tail is not protected: on the empty list
    [list_contains(INT_MAX)] returns true, and after [list_remove(INT_MAX)] has
    unlinked the tail the next walk follows the null pointer left in the head. *)
Theorem opt_remove_tail :
  (∃ σ, run_opt (replicate 10 (0%nat, Contains int_max, 0%nat)) (opt_start None None 1) = Ret (Some σ) ∧
    ohist σ = [Call 0 (Contains int_max); Effect (mkEvent 0 (Contains int_max) true); Return 0 true]) ∧
  (∃ σ, run_opt (replicate 11 (0%nat, Remove int_max, 0%nat)) (opt_start None None 1) = Ret (Some σ) ∧
    opcs σ = [OIdle] ∧ next_at (oheap σ) head = Some Null ∧
    run_opt (replicate 3 (0%nat, Contains 0, 0%nat)) σ = UB).
Proof.
  split; (eexists; split; [vm_compute; reflexivity |]); [vm_compute; reflexivity |].
  split; [reflexivity | split; vm_compute; reflexivity].
Qed.
