(* ===== verification/ListMain.v ===== *)
(** * The main program of lab 11 (src/lab11/coarse_grained.cpp, fine_grained.cpp,
    optimistic.cpp: [ThreadFunc] and [main])

    Reading the workload file, what each thread is given to do, and the check
    of the final list against the result file.  The three programs share this
    code. *)

From S2P Require Import Prelude Text ListHeap.

(** ** The workload file *)

Definition MAX_NUM_THREAD : Z := 16.
Definition MAX_NUM_WORK : Z := 100000.

Record Work := mkWork { type : Z; work_value : Z }.

(** The two locals of [main] that [fscanf] assigns, uninitialised at first. *)
Record locals := mkLocals { work_type : option Z; value : option Z }.

(** [fscanf(fp, "%c %d ", &work_type, &value)]; what is not matched keeps its
    value. *)
Definition scan_work (s : str) (v : locals) : outcome (locals * str) :=
  match s with
  | [] => Ret (v, [])
  | c :: s =>
      '(r, s) ← scan_int (skip_ws s);
      match r with
      | Some z => Ret (mkLocals (Some c) (Some z), skip_ws s)
      | None => Ret (mkLocals (Some c) (value v), s)
      end
  end.

(** The inner loop from index [j]. *)
Fixpoint read_row (todo : nat) (j : Z) (s : str) (v : locals) : outcome (list Work * locals * str) :=
  match todo with
  | O => Ret ([], v, s)
  | S todo =>
      '(v, s) ← scan_work s v;
      c ← of_option (work_type v);
      z ← of_option (value v);
      if bool_decide (j < MAX_NUM_WORK) then
        '(ws, v, s) ← read_row todo (j + 1) s v;
        Ret (mkWork c z :: ws, v, s)
      else UB
  end.

(** The outer loop from index [i]. *)
Fixpoint read_rows (todo : nat) (i : Z) (num_work : Z) (s : str) (v : locals) : outcome (list (list Work)) :=
  match todo with
  | O => Ret []
  | S todo =>
      '(_, s) ← scan_int s;
      '(ws, v, s) ← read_row (Z.to_nat num_work) 0 (skip_ws s) v;
      if bool_decide (i < MAX_NUM_THREAD ∨ num_work ≤ 0) then
        rest ← read_rows todo (i + 1) num_work s v;
        Ret (ws :: rest)
      else UB
  end.

Definition read_workload (s : str) : outcome (list (list Work)) :=
  '(num_thread, s) ← scan_int s;
  n ← of_option num_thread;
  '(num_work, s) ← scan_int s;
  m ← of_option num_work;
  read_rows (Z.to_nat n) 0 m s (mkLocals None None).

(** [ThreadFunc]: the operations of a row. *)
Definition work_op (w : Work) : option op :=
  if bool_decide (type w = 65) then Some (Add (work_value w))
  else if bool_decide (type w = 82) then Some (Remove (work_value w))
  else if bool_decide (type w = 67) then Some (Contains (work_value w))
  else None.

Definition ThreadFunc (ws : list Work) : list op := omap work_op ws.

(** ** The check of the result *)

(** The loop: the value of [is_valid] and the iterator when it ends. *)
Fixpoint validate_loop (todo : nat) (h : heap) (it : ptr) (s : str) (value_result : option Z) : outcome (bool * ptr) :=
  match todo with
  | O => Ret (true, it)
  | S todo =>
      if decide (it = Ptr tail) then Ret (false, it)
      else
        '(r, s) ← scan_int s;
        let value_result := match r with Some z => Some z | None => value_result end in
        l ← deref it;
        n ← load h l;
        v ← of_option value_result;
        if bool_decide (n_key n = v) then validate_loop todo h (n_next n) s value_result else Ret (false, it)
  end.

Definition validate (h : heap) (s : str) : outcome bool :=
  '(r, s) ← scan_int s;
  size_result ← of_option r;
  n ← load h head;
  '(is_valid, it) ← validate_loop (Z.to_nat size_result) h (n_next n) s None;
  Ret (is_valid && bool_decide (it = Ptr tail)).

(** ** The formats *)

Definition print_work (w : Work) : str := type w :: 32 :: print_int (work_value w) ++ [10].

Fixpoint print_rows (i : Z) (rows : list (list Work)) : str :=
  match rows with
  | [] => []
  | ws :: rows => print_int i ++ [10] ++ concat (print_work <$> ws) ++ print_rows (i + 1) rows
  end.

Definition print_workload (m : nat) (rows : list (list Work)) : str :=
  print_int (Z.of_nat (length rows)) ++ [32] ++ print_int (Z.of_nat m) ++ [10] ++ print_rows 0 rows.

Definition print_results (ks : list Z) : str :=
  print_int (Z.of_nat (length ks)) ++ concat ((λ k, 10 :: print_int k) <$> ks) ++ [10].

(** ** Reading back *)

Definition starts_text (s : str) : Prop := match s with c :: _ => is_space c = false | [] => True end.

Lemma skip_ws_text s : starts_text s → skip_ws s = s.
Proof. destruct s as [| c s]; cbn; [done | by intros ->]. Qed.

Lemma starts_int z s : starts_text (print_int z ++ s).
Proof.
  unfold print_int. case_bool_decide; [done |].
  destruct (dec_first 9 z) as (c & ds & -> & Hc); [lia |]. cbn. unfold is_digit, is_space in *.
  apply bool_decide_eq_true in Hc. apply bool_decide_eq_false. lia.
Qed.

Lemma scan_int_print z s : in_int z → ends_number s → scan_int (print_int z ++ s) = Ret (Some z, s).
Proof. intros Hz Hs. by apply (scan_print []). Qed.

Definition work_ok (w : Work) : Prop := is_space (type w) = false ∧ in_int (work_value w).

Lemma scan_work_print w s v :
  work_ok w → starts_text s →
  scan_work (print_work w ++ s) v = Ret (mkLocals (Some (type w)) (Some (work_value w)), s).
Proof.
  intros [Hc Hv] Hs. unfold print_work. cbn [app scan_work].
  change (skip_ws (32 :: (print_int (work_value w) ++ [10]) ++ s))
    with (skip_ws ((print_int (work_value w) ++ [10]) ++ s)).
  rewrite <- (assoc_L (++)). cbn [app].
  rewrite (skip_ws_text _ (starts_int _ _)), scan_int_print by done. obind. cbn [skip_ws]. by rewrite skip_ws_text.
Qed.

Lemma starts_works ws s : Forall work_ok ws → starts_text s → starts_text (concat (print_work <$> ws) ++ s).
Proof. intros Hws Hs. destruct Hws as [| w ws [Hw _]]; [done |]. exact Hw. Qed.

Lemma read_row_print ws j s v :
  Forall work_ok ws → starts_text s → j + Z.of_nat (length ws) ≤ MAX_NUM_WORK →
  ∃ v', read_row (length ws) j (concat (print_work <$> ws) ++ s) v = Ret (ws, v', s).
Proof.
  intros Hws Hs. revert j v. induction Hws as [| w ws Hw Hws IH]; intros j v Hj; [cbn; eauto |].
  cbn [length] in Hj. cbn [length read_row].
  destruct (IH (j + 1) (mkLocals (Some (type w)) (Some (work_value w)))) as [v' Hv']; [lia |]. exists v'.
  change (concat (print_work <$> w :: ws)) with (print_work w ++ concat (print_work <$> ws)).
  rewrite <- (assoc_L (++)), scan_work_print by (done || by apply starts_works). cbn [of_option work_type value]. obind.
  rewrite bool_decide_true by lia. rewrite Hv'. by destruct w.
Qed.

Lemma starts_rows i rows : starts_text (print_rows i rows).
Proof. destruct rows as [| ws rows]; [done | apply starts_int]. Qed.

Lemma read_rows_print m i ws rows v :
  Forall (λ c, is_space c = true) ws →
  Forall (λ r, length r = m ∧ Forall work_ok r) rows → Z.of_nat m ≤ MAX_NUM_WORK →
  0 ≤ i → i + Z.of_nat (length rows) ≤ MAX_NUM_THREAD →
  read_rows (length rows) i (Z.of_nat m) (ws ++ print_rows i rows) v = Ret rows.
Proof.
  intros Hsp Hrows Hm. revert i ws v Hsp. induction Hrows as [| r rows [<- Hr] Hrows IH]; intros i ws v Hsp Hi Hn; [done |].
  cbn [print_rows length read_rows]. cbn [length] in Hn. unfold MAX_NUM_THREAD in *.
  rewrite scan_print; [| done | int_range | done]. obind.
  assert (starts_text (concat (print_work <$> r) ++ print_rows (i + 1) rows)) as Hst.
  { apply starts_works; [done | apply starts_rows]. }
  cbn [app skip_ws]. change (is_space 10) with true. cbn iota. rewrite (skip_ws_text _ Hst).
  rewrite Nat2Z.id. destruct (read_row_print r 0 (print_rows (i + 1) rows) v) as [v' ->]; [done | apply starts_rows | done |].
  obind. rewrite bool_decide_true by lia. pose proof (IH (i + 1) [] v') as Hrest. cbn [app] in Hrest.
  rewrite Hrest by (done || lia). done.
Qed.

(** Reading a workload file gives back the workload it was printed from,
    for at most 16 threads with the same number, at most 100000, of operations
    each. *)
Theorem read_print_workload m rows :
  Forall (λ r, length r = m ∧ Forall work_ok r) rows → Z.of_nat m ≤ MAX_NUM_WORK →
  Z.of_nat (length rows) ≤ MAX_NUM_THREAD → read_workload (print_workload m rows) = Ret rows.
Proof.
  intros Hrows Hm Hn. unfold read_workload, print_workload. unfold MAX_NUM_WORK, MAX_NUM_THREAD in *.
  rewrite scan_int_print; [| int_range | done]. obind. cbn [of_option].
  obind. rewrite scan_print; [| by repeat constructor | int_range | done]. obind.
  cbn [of_option]. obind. rewrite Nat2Z.id. apply read_rows_print; try done. by repeat constructor.
Qed.

Lemma read_print_workload_witness :
  read_workload (print_workload 2 [[mkWork 65 5; mkWork 82 (-7)]; [mkWork 67 0; mkWork 65 int_max]]) =
  Ret [[mkWork 65 5; mkWork 82 (-7)]; [mkWork 67 0; mkWork 65 int_max]].
Proof.
  apply read_print_workload; [| done | done].
  repeat (apply List.Forall_cons || apply List.Forall_nil || split); done.
Defined.

(** ** Validation *)

Section validation.
Context (h : heap) (ps : list nat).
Context (Hlink : ∀ x y, adj ps x y → n_next <$> h !! x = Some (Ptr y)) (Hnodup : NoDup ps).

Lemma next_node p1 x y p2 n : ps = p1 ++ x :: y :: p2 → h !! x = Some n → n_next n = Ptr y.
Proof. intros Hps Hn. specialize (Hlink x y). rewrite Hn in Hlink. injection Hlink; [done |]. by exists p1, p2. Qed.

Lemma middle_not_tail p1 x m ms : ps = p1 ++ x :: m :: ms ++ [tail] → m ≠ tail.
Proof.
  intros Hps ->. rewrite Hps in Hnodup. apply NoDup_app in Hnodup as (_ & _ & Hnd).
  apply NoDup_cons in Hnd as [_ Hnd]. apply NoDup_cons in Hnd as [Hnd _]. set_solver.
Qed.

(** The loop from the node after [x], where the list goes on with [ms] and the tail. *)
Lemma validate_loop_chain ks x ms p1 n v :
  ps = p1 ++ x :: ms ++ [tail] → h !! x = Some n → Forall in_int ks →
  ∃ b it, validate_loop (length ks) h (n_next n) (concat ((λ k, 10 :: print_int k) <$> ks) ++ [10]) v = Ret (b, it) ∧
    (b && bool_decide (it = Ptr tail)) = bool_decide (ks = key_at h <$> ms).
Proof.
  intros Hps Hn Hks. revert x ms p1 n v Hps Hn. induction Hks as [| k ks Hk Hks IH]; intros x ms p1 n v Hps Hn.
  - exists true, (n_next n). split; [done |]. destruct ms as [| m ms]; cbn.
    + by rewrite (next_node _ _ _ _ _ Hps Hn).
    + rewrite (next_node _ _ _ _ _ Hps Hn). apply bool_decide_ext.
      split; [intros [= ->]; by apply middle_not_tail in Hps | done].
  - cbn [length validate_loop]. destruct ms as [| m ms].
    { exists false, (n_next n). rewrite decide_True by (by apply (next_node _ _ _ _ _ Hps Hn)). done. }
    rewrite (next_node _ _ _ _ _ Hps Hn). pose proof (middle_not_tail _ _ _ _ Hps) as Hm.
    rewrite decide_False by congruence.
    change (concat ((λ k, 10 :: print_int k) <$> k :: ks)) with ([10] ++ print_int k ++ concat ((λ k, 10 :: print_int k) <$> ks)).
    rewrite <- !(assoc_L (++)). rewrite scan_print; [| by repeat constructor | done | by destruct ks].
    cbn [deref of_option]. obind.
    assert (ps = (p1 ++ [x]) ++ m :: ms ++ [tail]) as Hps' by (by rewrite Hps, <- (assoc_L (++))).
    assert (∃ nm, h !! m = Some nm) as [nm Hnm].
    { assert (∃ y, adj ps m y) as [y Hy%Hlink].
      { rewrite Hps'. destruct ms as [| m' ms]; [by exists tail, (p1 ++ [x]), [] | by exists m', (p1 ++ [x]), (ms ++ [tail])]. }
      destruct (h !! m); [eauto | done]. }
    rewrite (load_Ret _ _ _ Hnm). obind. cbn [of_option]. obind.
    assert (key_at h m = n_key nm) as Hkm by (unfold key_at; by rewrite Hnm).
    destruct (decide (n_key nm = k)) as [He | He].
    + rewrite (bool_decide_true (n_key nm = k)) by done. destruct (IH m ms (p1 ++ [x]) nm (Some k) Hps' Hnm) as (b & it & -> & Hb). exists b, it. split; [done |].
      rewrite Hb. apply bool_decide_ext. cbn. rewrite Hkm, He. naive_solver.
    + rewrite (bool_decide_false (n_key nm = k)) by done. exists false, (Ptr m). split; [done |]. cbn. rewrite bool_decide_false; [done |]. congruence.
Qed.
End validation.

(** The keys between the sentinels are the elements of the set in order. *)
Lemma chain_keys κ ps ms s :
  chain κ ps → represents κ ps s → ps = head :: ms ++ [tail] → κ <$> ms = merge_sort Z.le (elements s).
Proof.
  intros [_ Hnd Hs] Hrep ->. cbn in Hs. apply StronglySorted_app in Hs as (_ & Hs & _).
  apply NoDup_cons in Hnd as [Hh Hnd]. apply NoDup_app in Hnd as (_ & Htl & _).
  assert (StronglySorted Z.lt (κ <$> ms)) as Hlt.
  { clear - Hs. induction Hs as [| x l Hl IH Hx]; cbn; constructor; [done |]. by apply Forall_fmap. }
  apply (StronglySorted_unique Z.le).
  - clear - Hlt. induction Hlt as [| x l Hl IH Hx]; constructor; [done |]. eapply Forall_impl; [done |]. cbn. lia.
  - apply StronglySorted_merge_sort; apply _.
  - rewrite merge_sort_Permutation. apply NoDup_Permutation; [| apply NoDup_elements |].
    + clear - Hlt. induction Hlt as [| x l Hl IH Hx]; constructor; [| done]. intros Hin.
      rewrite Forall_forall in Hx. apply Hx in Hin. lia.
    + intros k. rewrite elem_of_elements, (Hrep k), list_elem_of_fmap. split.
      * intros (x & -> & Hx). exists x. set_solver.
      * intros (x & Hx & Hxh & Hxt & <-). exists x. split; [done |]. set_solver.
Qed.

(** The check at the end of [main] prints "correct!" exactly when the
    result file lists the elements of the set the list stands for in increasing
    order. *)
Theorem validate_correct h ps s ks :
  chain (key_at h) ps → represents (key_at h) ps s → (∀ x y, adj ps x y → n_next <$> h !! x = Some (Ptr y)) →
  Forall in_int ks → in_int (Z.of_nat (length ks)) →
  validate h (print_results ks) = Ret (bool_decide (ks = merge_sort Z.le (elements s))).
Proof.
  intros Hch Hrep Hlink Hks Hlen. destruct (c_ends _ _ Hch) as [ms Hms].
  assert (∃ n, h !! head = Some n) as [n Hn].
  { destruct (chain_next _ _ head Hch) as [y Hy%Hlink]; [by eapply chain_head | done |].
    destruct (h !! head); [eauto | done]. }
  unfold validate, print_results. rewrite scan_int_print by (done || by destruct ks). obind. cbn [of_option]. obind.
  rewrite (load_Ret _ _ _ Hn), Nat2Z.id. obind.
  destruct (validate_loop_chain h ps Hlink (c_nodup _ _ Hch) ks head ms [] n None Hms Hn Hks) as (b & it & -> & Hb).
  obind. by rewrite Hb, (chain_keys _ _ _ _ Hch Hrep Hms).
Qed.

Lemma adj_cons_single {A} (a b x y : A) : adj [a; b] x y → x = a ∧ y = b.
Proof. intros [? | H]%adj_cons; [done | by apply adj_single in H]. Qed.

(** A list with the key 5, as the operations leave it. *)
Definition one_node : heap :=
  <[head := mkNode int_min (Ptr 2) None]> (<[2%nat := mkNode 5 (Ptr tail) None]> {[tail := mkNode int_max Null None]}).

Lemma validate_correct_witness :
  validate one_node (print_results [5]) = Ret (bool_decide ([5] = merge_sort Z.le (elements ({[5]} : gset Z)))) ∧
  validate one_node (print_results [5]) = Ret true.
Proof.
  split; [| vm_compute; reflexivity]. apply (validate_correct one_node [head; 2%nat; tail] {[5]} [5]).
  - split; [by exists [2%nat] | repeat constructor; set_solver | repeat constructor].
  - intros k. rewrite elem_of_singleton. split; [intros ->; exists 2%nat; set_solver |].
    intros (x & Hx & ? & ? & <-). assert (x = 2%nat) as -> by set_solver. done.
  - intros x y Hxy. apply adj_cons in Hxy as [[-> ->] | [-> ->]%adj_cons_single]; reflexivity.
  - by repeat constructor.
  - done.
Defined.
