(* ===== verification/Mains.v ===== *)
(** * The command lines of projects 2 and 3 (src/project2/main.cpp, src/project3/main.cpp)

    Both programs read their arguments with [istringstream >> int], print a message about an argument they do not
    like, and then go on.  A variable that has not been set is [None]; passing it on is undefined
    behaviour.  Memory is assumed to suffice for the tables. *)

From Stdlib Require Import Ascii String.
From S2P Require Import Prelude Monitor Transaction TxSerial Snapshot Text.

(** The characters of a literal. *)
Definition chars (s : string) : str := (λ a, Z.of_nat (nat_of_ascii a)) <$> list_ascii_of_string s.
Definition newline : str := [10].

(** The number at the head of [s]: no digits give 0, a number that does not fit gives the nearest one that does, both with a
    failure. *)
Definition get_number (sign : Z) (s : str) : bool * Z :=
  match s with
  | c :: _ =>
      if is_digit c then
        let z := sign * (scan_digits 0 s).1 in
        if bool_decide (z > int_max) then (false, int_max)
        else if bool_decide (z < int_min) then (false, int_min)
        else (true, z)
      else (false, 0)
  | [] => (false, 0)
  end.

(** [istringstream ss(s); ss >> var]: whether it succeeds, and [var] afterwards.  When only white space is left the
    variable is not touched. *)
Definition extract (s : str) (var : option Z) : bool * option Z :=
  match skip_ws s with
  | [] => (false, var)
  | c :: s =>
      let '(ok, z) :=
        if bool_decide (c = 45) then get_number (-1) s else if bool_decide (c = 43) then get_number 1 s else get_number 1 (c :: s) in
      (ok, Some z)
  end.

Definition invalid_input (arg : str) : str := chars "Invalid input " ++ arg ++ newline.

(** What [main] comes to: a hint, an exception that nothing catches, or a running program; [err] is what has been
    written to [cerr]. *)
Inductive launch (A : Type) := Usage (out : str) | Thrown (err : str) | Started (err : str) (a : A).
Arguments Usage {A} _.
Arguments Thrown {A} _.
Arguments Started {A} _ _.

(** ** Project 2 *)

(** [Transaction(N, R, E)] followed by [run]: [new Record[R]] and [resize(N)] throw when the size is negative, and
    [uniform_int_distribution(0, R - 1)] needs [0 <= R - 1].  The result is the machine of the worker
    threads with its parameters. *)
Definition new_Transaction (n r e : Z) : outcome (option (nat * Z * sys)) :=
  if bool_decide (r < 0 ∨ n < 0) then Ret None
  else if bool_decide (r = 0) then UB
  else Ret (Some (Z.to_nat r, e, start (Z.to_nat r) (Z.to_nat n))).

(** The chain of conditions: the message, and [N], [R], [E] after it. *)
Definition check_args (a1 a2 a3 : str) : str * (option Z * option Z * option Z) :=
  let '(okN, n) := extract a1 None in
  if negb okN then (invalid_input a1, (n, None, None))
  else
    let '(okR, r) := extract a2 None in
    if negb okR then (invalid_input a2, (n, r, None))
    else if bool_decide (default 0 r < 3) then (chars "R should be more than 3" ++ newline, (n, r, None))
    else
      let '(okE, e) := extract a3 None in
      (if okE then [] else invalid_input a3, (n, r, e)).

Definition tx_main (argv : list str) : outcome (launch (nat * Z * sys)) :=
  match argv with
  | _ :: a1 :: a2 :: a3 :: _ =>
      let '(err, (n, r, e)) := check_args a1 a2 a3 in
      n ← of_option n;
      r ← of_option r;
      e ← of_option e;
      t ← new_Transaction n r e;
      Ret (match t with Some t => Started err t | None => Thrown err end)
  | _ => Ret (Usage (chars "Please run as ./run N R E" ++ newline))
  end.

(** ** Project 3 *)

(** [ThreadPool(N)]: [new StampedSnap<int>[N]] throws when [N] is negative. *)
Definition new_ThreadPool (c0 N : Z) : option pool :=
  if bool_decide (N < 0) then None else Some (pool_start c0 (Z.to_nat N)).

Definition snap_main (c0 : Z) (argv : list str) : outcome (launch pool) :=
  match argv with
  | _ :: a1 :: _ =>
      let '(ok, N) := extract a1 None in
      let err := if ok then [] else invalid_input a1 in
      N ← of_option N;
      Ret (match new_ThreadPool c0 N with Some p => Started err p | None => Thrown err end)
  | _ => Ret (Usage (chars "Please run as ./run N" ++ newline))
  end.

(** What is printed when the threads have been joined. *)
Definition snap_output (p : pool) : outcome str :=
  n ← pool_run_result p; Ret (chars "update : " ++ print_int n ++ newline).

(** ** Reading arguments *)

Lemma get_number_dec sign z : 0 ≤ z < 10 ^ 10 → in_int (sign * z) → get_number sign (dec 10 z) = (true, sign * z).
Proof.
  intros Hz Hint. pose proof (dec_digits 10 z ltac:(lia)) as Hd. destruct (dec_first 9 z ltac:(lia)) as (c & ds & He & Hc).
  unfold get_number. rewrite He, Hc, <- He. rewrite <- (app_nil_r (dec 10 z)), scan_digits_app, dec_value by (done || cbn; lia).
  cbn [fst]. by rewrite !bool_decide_false by int_range.
Qed.

(** An argument that is the decimal form of an [int]. *)
Lemma extract_print z var : in_int z → extract (print_int z) var = (true, Some z).
Proof.
  intros Hz. unfold extract, print_int. case_bool_decide as Hneg.
  - change (skip_ws (45 :: dec 10 (- z))) with (45 :: dec 10 (- z)). cbv iota beta. rewrite (bool_decide_true (45 = 45)) by done.
    rewrite get_number_dec by int_range. f_equal. f_equal. lia.
  - rewrite <- (app_nil_r (dec 10 z)), skip_ws_dec, app_nil_r by lia. destruct (dec_first 9 z ltac:(lia)) as (c & ds & He & Hc). rewrite He.
    unfold is_digit in Hc. apply bool_decide_eq_true in Hc. rewrite !bool_decide_false by lia. rewrite <- He, get_number_dec by int_range. by rewrite Z.mul_1_l.
Qed.

Lemma extract_success s var z : extract s var = (true, z) → z ≠ None.
Proof. unfold extract. destruct (skip_ws s); [done |]. repeat case_bool_decide; destruct (get_number _ _); by intros [= _ <-]. Qed.

(** ** The programs *)

(** C4: Project 2 as a whole.  Run as [./run N R E] with at least one thread and three records, the program starts [N] worker
    threads on [R] records.  Whatever the schedule, the log is at every moment one that test.py accepts
    line by line; and if all threads have returned, the log has exactly the commits 1 to [E] and the table is the
    one test.py computes from it. *)
Theorem project2_program prog n r e :
  0 < n ≤ int_max → 3 ≤ r ≤ int_max → in_int e → e + n ≤ int_max →
  tx_main [prog; print_int n; print_int r; print_int e] = Ret (Started [] (Z.to_nat r, e, start (Z.to_nat r) (Z.to_nat n))) ∧
  ∀ σ, rtc (step (Z.to_nat r) e) (start (Z.to_nat r) (Z.to_nat n)) σ →
    (∃ C, test_main (Z.to_nat r) (outFiles σ) = Some (C, replicate (length (lines (sh σ))) true)) ∧
    ((∀ t th, threads σ !! t = Some th → at_pc th = Exit) →
      l_cid <$> lines (sh σ) = (λ k, Z.of_nat k + 1) <$> seq 0 (Z.to_nat e) ∧
      ∃ C bs, test_main (Z.to_nat r) (outFiles σ) = Some (C, bs) ∧
        ∀ x rec, records (monitor (sh σ)) !! x = Some rec → C !! x = Some (value rec)).
Proof.
  intros Hn Hr He Hmax. split.
  - cbn [tx_main check_args]. unfold check_args. rewrite !extract_print by int_range. cbn [negb default]. rewrite bool_decide_false by (cbn; lia).
    cbn [of_option]. obind. unfold new_Transaction. by rewrite !bool_decide_false by lia.
  - intros σ Hσ. assert (e + Z.of_nat (Z.to_nat n) ≤ int_max) by lia. split; [by eapply serial_log |]. intros Hexit. eapply complete_log; [done | lia | done | done].
Qed.

Lemma project2_program_witness :
  tx_main [chars "./run"; chars "2"; chars "3"; chars "1"] = Ret (Started [] (3%nat, 1, start 3 2)) ∧
  l_cid <$> lines (sh (state_after 3 1 2 two_threads_schedule)) = [1].
Proof.
  destruct (project2_program (chars "./run") 2 3 1) as [Hmain Hrun]; [done | done | done | done |].
  split; [exact Hmain |]. destruct (Hrun (state_after 3 1 2 two_threads_schedule)) as [_ Hend]; [apply state_after_reachable |].
  apply Hend. apply (proj1 (Forall_lookup (λ th, at_pc th = Exit) _)). vm_compute. repeat constructor.
Defined.

(** C39: When project 2 is defined.  With three arguments [main] has undefined behaviour unless [N] and [R] are read and [R]
    is at least 3 and the third argument is not blank: after its message about [N] or [R] the program does not stop,
    but passes on variables it has never set.  A third argument that is no number is reported, and the program runs
    with what the stream leaves in [E]. *)
Theorem project2_undefined prog a1 a2 a3 rest :
  tx_main (prog :: a1 :: a2 :: a3 :: rest) = UB ↔
  ¬ (∃ n r e, extract a1 None = (true, Some n) ∧ extract a2 None = (true, Some r) ∧ 3 ≤ r ∧ (extract a3 None).2 = Some e).
Proof.
  unfold tx_main, check_args. destruct (extract a1 None) as [[|] n] eqn:H1; cbn [negb]; cycle 1.
  { split; [intros _ (? & ? & ? & ? & _); done |]. intros _. by destruct n. }
  apply extract_success in H1 as Hn. destruct n as [n |]; [| done]. destruct (extract a2 None) as [[|] r] eqn:H2; cbn [negb]; cycle 1.
  { split; [intros _ (? & ? & ? & ? & ? & _); done |]. intros _. by destruct r. }
  apply extract_success in H2 as Hr. destruct r as [r |]; [| done]. cbn [default]. case_bool_decide as H3.
  { split; [intros _ (? & ? & ? & _ & [= <-] & ? & _); cbn in H3; lia | done]. }
  destruct (extract a3 None) as [ok e] eqn:H4. cbn [of_option snd]. obind. destruct e as [e |]; cbn [of_option]; obind.
  - unfold new_Transaction. cbn in H3. split; [| intros []; exists n, r, e; split_and!; done || lia].
    case_bool_decide; [done |]. by rewrite bool_decide_false by lia.
  - split; [intros _ (? & ? & ? & _ & _ & _ & ?); done | done].
Qed.

(** Project 3 as a whole.  Run as [./run N] the program starts [N] workers; when they have all returned, whatever the
    schedule, it prints the number of updates of the snapshot (as long as it is an [int]). *)
Theorem project3_program elide c0 prog n :
  0 ≤ n ≤ int_max →
  snap_main c0 [prog; print_int n] = Ret (Started [] (pool_start c0 (Z.to_nat n))) ∧
  ∀ p, rtc (pstep elide) (pool_start c0 (Z.to_nat n)) p → (∀ t w, workers p !! t = Some w → s_pc w = Done) →
    Z.of_nat (length (writes p)) ≤ int_max →
    snap_output p = Ret (chars "update : " ++ print_int (Z.of_nat (length (writes p))) ++ newline).
Proof.
  intros Hn. split.
  - unfold snap_main, new_ThreadPool. rewrite extract_print by int_range. cbn [of_option]. obind. by rewrite bool_decide_false by lia.
  - intros p Hp Hdone Hmax. unfold snap_output. by rewrite (run_counts_updates elide _ _ _ Hp Hdone Hmax).
Qed.

Lemma project3_program_witness :
  snap_main 17 [chars "./run"; chars "2"] = Ret (Started [] (pool_start 17 2)) ∧
  snap_output (pool_after whole_run (pool_start 17 2)) = Ret (chars "update : 2" ++ newline).
Proof.
  destruct (project3_program true 17 (chars "./run") 2) as [Hmain Hrun]; [done |]. split; [exact Hmain |].
  apply Hrun; [apply (run_pool_steps true whole_run); vm_compute; reflexivity | | vm_compute; discriminate].
  apply (proj1 (Forall_lookup (λ w, s_pc w = Done) _)). vm_compute. repeat constructor.
Defined.
