(* ===== verification/RingQueue.v ===== *)
(** * The ring buffer of lab 13 (src/lab13/queue_giantlock.cpp)

    Producers and consumers on a ring of slots with a flag per slot that says
    whose turn it is.  The tickets are drawn with [__sync_fetch_and_and] instead of
    an atomic increment, so every operation gets ticket 0.  The theorem shows
    what follows for every schedule: no producer completes a second enqueue. *)

From S2P Require Import Prelude.

Definition NUM_PRODUCER : nat := 4.
Definition NUM_ENQUEUE_PER_PRODUCER : Z := 1000000.

Definition QUEUE_SIZE : Z := 1024.

Definition wrap64 (z : Z) : Z := z mod 2 ^ 64.

Record QueueNode := mkQueueNode { key : Z; flag : Z }.

(** The globals; of [flag_verification] the set of the indices of its true entries. *)
Record ring := mkRing { front : Z; rear : Z; queue : list QueueNode; flag_verification : gset Z }.

Definition init_queue : ring := mkRing 0 0 (replicate (Z.to_nat QUEUE_SIZE) (mkQueueNode 0 0)) ∅.

(** The number of entries of [flag_verification], and the store of [true] into one. *)
Definition NUM_KEYS : Z := Z.of_nat NUM_PRODUCER * NUM_ENQUEUE_PER_PRODUCER.

Definition verify (k : Z) (q : ring) : outcome ring :=
  if bool_decide (0 ≤ k < NUM_KEYS) then Ret (mkRing (front q) (rear q) (queue q) ({[k]} ∪ flag_verification q)) else UB.

(** The builtin: the old value, and the conjunction is stored. *)
Definition sync_fetch_and_and (x v : Z) : Z * Z := (x, Z.land x v).

(** Where a thread is in [enqueue] or [dequeue]: before the ticket; at the test
    of the flag; at the access to the key; at the load and at the store of
    [flag++]. *)
Inductive qpc :=
| Ticket
| Test (slot_idx : nat) (round : Z)
| Access (slot_idx : nat)
| Load (slot_idx : nat)
| Store (slot_idx : nat) (old : Z).

(** A thread: [ProducerFunc] enqueues [next_key] and the following keys,
    [ConsumerFunc] collects [got]; [completed] counts finished calls. *)
Record qthread := mkQthread {
  producer : bool;
  at_pc : qpc;
  next_key : Z;
  got : list Z;
  ret_key : Z;
  completed : nat
}.

Definition goto (p : qpc) (th : qthread) : qthread :=
  mkQthread (producer th) p (next_key th) (got th) (ret_key th) (completed th).

Definition read_slot (q : ring) (i : nat) : outcome QueueNode := at_ (queue q) i.

Definition write_slot (q : ring) (i : nat) (f : QueueNode → QueueNode) : outcome ring :=
  sl ← update (queue q) i f; Ret (mkRing (front q) (rear q) sl (flag_verification q)).

(** The ticket of an operation: the slot and the round. *)
Definition draw_ticket (th : qthread) (q : ring) : qthread * ring :=
  if producer th then
    let '(seq, r) := sync_fetch_and_and (rear q) 1 in
    (goto (Test (Z.to_nat (seq mod QUEUE_SIZE)) (seq / QUEUE_SIZE)) th, mkRing (front q) r (queue q) (flag_verification q))
  else
    let '(seq, f) := sync_fetch_and_and (front q) 1 in
    (goto (Test (Z.to_nat (seq mod QUEUE_SIZE)) (seq / QUEUE_SIZE)) th, mkRing f (rear q) (queue q) (flag_verification q)).

(** Whether a flag admits the operation. *)
Definition admits (th : qthread) (round f : Z) : bool :=
  bool_decide (f mod 2 = if producer th then 0 else 1) && bool_decide (f / 2 = round).

(** The call ends: a producer goes to its next key, a consumer stores into
    [flag_verification], which nobody reads before the end of [main], at the index it got. *)
Definition finish (th : qthread) (q : ring) : outcome (qthread * ring) :=
  if producer th then Ret (mkQthread true Ticket (next_key th + 1) (got th) (ret_key th) (S (completed th)), q)
  else
    q ← verify (ret_key th) q;
    Ret (mkQthread false Ticket (next_key th) (got th ++ [ret_key th]) (ret_key th) (S (completed th)), q).

Definition ring_step (th : qthread) (q : ring) : outcome (qthread * ring) :=
  match at_pc th with
  | Ticket => Ret (draw_ticket th q)
  | Test i round =>
      n ← read_slot q i;
      Ret (goto (if admits th round (flag n) then Access i else Test i round) th, q)
  | Access i =>
      if producer th then
        q ← write_slot q i (λ n, mkQueueNode (next_key th) (flag n)); Ret (goto (Load i) th, q)
      else
        n ← read_slot q i;
        Ret (mkQthread (producer th) (Load i) (next_key th) (got th) (key n) (completed th), q)
  | Load i => n ← read_slot q i; Ret (goto (Store i (flag n)) th, q)
  | Store i old =>
      q ← write_slot q i (λ n, mkQueueNode (key n) (wrap64 (old + 1)));
      finish th q
  end.

Record qsys := mkQsys { q_ring : ring; q_threads : list qthread }.

(** [main]: the producers get disjoint ranges of keys. *)
Definition spawn (i : nat) : qthread :=
  if decide (i < NUM_PRODUCER)%nat
  then mkQthread true Ticket (NUM_ENQUEUE_PER_PRODUCER * Z.of_nat i) [] 0 0
  else mkQthread false Ticket 0 [] 0 0.

Definition ring_start : qsys := mkQsys init_queue (spawn <$> seq 0 (NUM_PRODUCER + NUM_PRODUCER)).

(** A step of thread [t], which has not made its last call yet. *)
Definition ring_sys_step (t : nat) (σ : qsys) : outcome (option qsys) :=
  match q_threads σ !! t with
  | None => Ret None
  | Some th =>
      if bool_decide (Z.of_nat (completed th) < NUM_ENQUEUE_PER_PRODUCER) then
        '(th, q) ← ring_step th (q_ring σ); Ret (Some (mkQsys q (<[t := th]> (q_threads σ))))
      else Ret None
  end.

Inductive qstep : qsys → qsys → Prop :=
| qstep_intro t σ σ' : ring_sys_step t σ = Ret (Some σ') → qstep σ σ'.

(** ** The invariant *)

Definition calls (ths : list qthread) : Z := Z.of_nat (total (λ _, completed) ths).

(** Every operation works on slot 0 in round 0. *)
Definition point_ok (p : qpc) (bound : Z) : Prop :=
  match p with
  | Ticket => True
  | Test i round => i = 0%nat ∧ round = 0
  | Access i | Load i => i = 0%nat
  | Store i old => i = 0%nat ∧ 0 ≤ old ≤ bound
  end.

(** A producer that has completed a call stays at the test of a flag that is
    not 0 any more. *)
Definition producer_ok (th : qthread) (f : Z) : Prop :=
  producer th = true → completed th = 0%nat ∨
    completed th = 1%nat ∧ f ≠ 0 ∧ (at_pc th = Ticket ∨ ∃ i r, at_pc th = Test i r).

Definition key_ok (k : Z) : Prop := 0 ≤ k < NUM_KEYS.

(** A producer is in its range of keys; what a consumer has got is a key. *)
Definition keys_ok (th : qthread) : Prop :=
  if producer th
  then ∃ i, (i < NUM_PRODUCER)%nat ∧ next_key th = NUM_ENQUEUE_PER_PRODUCER * Z.of_nat i + Z.of_nat (completed th)
  else key_ok (ret_key th).

Lemma next_key_ok th : producer th = true → keys_ok th → Z.of_nat (completed th) < NUM_ENQUEUE_PER_PRODUCER → key_ok (next_key th).
Proof.
  unfold keys_ok, key_ok, NUM_KEYS, NUM_PRODUCER, NUM_ENQUEUE_PER_PRODUCER. intros -> (i & Hi & ->) Hc. lia.
Qed.

Record thread_ok (bound f : Z) (th : qthread) : Prop := {
  t_point : point_ok (at_pc th) bound;
  t_calls : Z.of_nat (completed th) ≤ NUM_ENQUEUE_PER_PRODUCER;
  t_producer : producer_ok th f;
  t_keys : keys_ok th
}.

Record ring_ok (q : ring) (ths : list qthread) : Prop := {
  r_front : front q = 0;
  r_rear : rear q = 0;
  r_slot : ∃ n, queue q !! 0%nat = Some n ∧ 0 ≤ flag n ≤ calls ths ∧ key_ok (key n) ∧
    ∀ t th, ths !! t = Some th → thread_ok (calls ths) (flag n) th;
  r_length : length ths = (NUM_PRODUCER + NUM_PRODUCER)%nat
}.

Lemma thread_ok_mono b f b' f' th :
  b ≤ b' → (f ≠ 0 → f' ≠ 0) → thread_ok b f th → thread_ok b' f' th.
Proof.
  intros Hb Hf [T1 T2 T3 T4]. split; [| done | | done].
  - destruct (at_pc th); cbn in *; try done. lia.
  - intros Hp. destruct (T3 Hp) as [? | (? & ? & ?)]; auto.
Qed.

Lemma admits_producer th f : producer th = true → 0 ≤ f → admits th 0 f = true → f = 0.
Proof.
  intros Hp Hf [H1 H2]%andb_prop. rewrite Hp in H1. apply bool_decide_eq_true in H1, H2.
  pose proof (Z.div_mod f 2). lia.
Qed.

(** What a step of a thread in slot 0 does. *)
Lemma ring_step_ok q th n bound :
  front q = 0 → rear q = 0 → queue q !! 0%nat = Some n → 0 ≤ flag n ≤ bound → key_ok (key n) → bound < 2 ^ 64 - 1 →
  Z.of_nat (completed th) < NUM_ENQUEUE_PER_PRODUCER → thread_ok bound (flag n) th →
  ∃ th' q' n', ring_step th q = Ret (th', q') ∧ front q' = 0 ∧ rear q' = 0 ∧ queue q' !! 0%nat = Some n' ∧
    key_ok (key n') ∧ (flag n ≠ 0 → flag n' ≠ 0) ∧
    (completed th' = completed th ∧ flag n' = flag n ∧ thread_ok bound (flag n') th' ∨
     completed th' = S (completed th) ∧ 0 ≤ flag n' ≤ bound + 1 ∧ thread_ok (bound + 1) (flag n') th').
Proof.
  intros Hf Hr Hn Hflag Hkey Hbound Hcalls [T1 T2 T3 T4]. unfold ring_step.
  destruct (at_pc th) as [| i r | i | i | i old] eqn:Hpc; cbn in T1.
  - unfold draw_ticket, sync_fetch_and_and. rewrite Hf, Hr.
    destruct (producer th) eqn:Hp; eexists _, _, n; (split; [done |]); split_and!; try done; left; split_and!; try done;
      (split; [done | done | | done]); intros Hp'; cbn in *; [| congruence].
    destruct (T3 Hp) as [? | (? & ? & _)]; [by left | right]. split_and!; eauto.
  - destruct T1 as [-> ->]. unfold read_slot. rewrite (at_lookup _ _ _ Hn). obind.
    eexists _, q, n. split; [done |]. split_and!; try done. left. split_and!; try done.
    split; [cbn; by destruct (admits th 0 (flag n)) | done | | done]. intros Hp. cbn.
    destruct (T3 Hp) as [? | (? & Hz & _)]; [by left | right]. split_and!; try done.
    destruct (admits th 0 (flag n)) eqn:Ha; [| right; eauto]. apply admits_producer in Ha; [done | done | lia].
  - subst i. unfold write_slot, read_slot.
    assert (∀ g k, producer_ok (mkQthread (producer th) (Load 0) k (got th) g (completed th)) (flag n)) as Hprod.
    { intros g k Hp. destruct (T3 Hp) as [? | (_ & _ & [? | (? & ? & ?)])]; [by left | congruence | congruence]. }
    destruct (producer th) eqn:Hp.
    + rewrite (update_insert _ _ _ _ Hn). obind. eexists _, _, _. split; [done |]. cbn.
      split_and!; [done | done | apply list_lookup_insert_eq; by eapply lookup_lt_Some | by apply next_key_ok | done |].
      left. split_and!; try done. split; [done | done | | done]. unfold goto. rewrite Hp. apply Hprod.
    + rewrite (at_lookup _ _ _ Hn). obind. eexists _, q, n. split; [done |]. split_and!; try done.
      left. by split_and!.
  - subst i. unfold read_slot. rewrite (at_lookup _ _ _ Hn). obind. eexists _, q, n. split; [done |].
    split_and!; try done. left. split_and!; try done. split; [cbn; lia | done | | done]. intros Hp. cbn.
    destruct (T3 Hp) as [? | (_ & _ & [? | (? & ? & ?)])]; [by left | congruence | congruence].
  - destruct T1 as [-> Hold]. unfold write_slot. rewrite (update_insert _ _ _ _ Hn). obind.
    assert (wrap64 (old + 1) = old + 1) as Hw by (unfold wrap64; rewrite Z.mod_small; lia).
    rewrite Hw. unfold finish. pose proof T4 as Hk. unfold keys_ok in Hk. destruct (producer th) eqn:Hp.
    + eexists _, _, (mkQueueNode (key n) (old + 1)). split; [done |]. cbn.
      split_and!; [done | done | apply list_lookup_insert_eq; by eapply lookup_lt_Some | done | lia |].
      right. split_and!; [done | lia | lia |]. destruct Hk as (i & Hi & Hk). split; cbn; [done | lia | |].
      * intros _. right. destruct (T3 Hp) as [-> | (_ & _ & [? | (? & ? & ?)])]; [| congruence ..].
        split_and!; [done | lia | by left].
      * exists i. cbn [next_key completed]. split; [done | lia].
    + unfold verify. rewrite bool_decide_true by done. obind. eexists _, _, (mkQueueNode (key n) (old + 1)). split; [done |]. cbn.
      split_and!; [done | done | apply list_lookup_insert_eq; by eapply lookup_lt_Some | done | lia |].
      right. split_and!; [done | lia | lia |]. split; cbn; [done | lia | done | done].
Qed.

Lemma calls_bound ths f b :
  length ths = 8%nat → (∀ t th, ths !! t = Some th → thread_ok b f th) → calls ths < 2 ^ 64 - 1.
Proof.
  intros Hlen Hth. unfold calls.
  pose proof (total_bound (λ _, completed) ths (Z.to_nat NUM_ENQUEUE_PER_PRODUCER)) as H.
  rewrite Hlen in H. unfold NUM_ENQUEUE_PER_PRODUCER in *.
  assert (total (λ _, completed) ths ≤ 8 * Z.to_nat 1000000)%nat as Hle; [| lia].
  apply H. intros t th Ht. pose proof (t_calls _ _ _ (Hth t th Ht)) as Hc. unfold NUM_ENQUEUE_PER_PRODUCER in Hc. lia.
Qed.

Lemma ring_ok_step σ σ' : ring_ok (q_ring σ) (q_threads σ) → qstep σ σ' → ring_ok (q_ring σ') (q_threads σ').
Proof.
  intros [R1 R2 (n & Hn & Hflag & Hkey & Hth) R4] Hs. destruct Hs as [t σ σ' Hs]. unfold ring_sys_step in Hs.
  destruct (q_threads σ !! t) as [th |] eqn:Ht; [| done]. case_bool_decide as Hc; [| done].
  pose proof (calls_bound _ _ _ R4 Hth) as Hbound.
  destruct (ring_step_ok _ _ _ _ R1 R2 Hn Hflag Hkey Hbound Hc (Hth t th Ht))
    as (th' & q' & n' & Hstep & F & R & Hn' & Hkey' & Hz & Hcase).
  rewrite Hstep in Hs. cbn in Hs. injection Hs as <-. cbn.
  pose proof (total_insert (λ _, completed) _ _ _ th' Ht) as Htot.
  assert (calls (q_threads σ) ≤ calls (<[t := th']> (q_threads σ)) ∧ 0 ≤ flag n' ≤ calls (<[t := th']> (q_threads σ)) ∧
    thread_ok (calls (<[t := th']> (q_threads σ))) (flag n') th') as (Hle & Hf' & Hth').
  { unfold calls in *. destruct Hcase as [(He & Hfl & Hok) | (He & Hfl & Hok)].
    - rewrite He in Htot. assert (total (λ _, completed) (<[t := th']> (q_threads σ)) = total (λ _, completed) (q_threads σ)) as -> by lia.
      split_and!; [lia | lia | lia | done].
    - rewrite He in Htot.
      assert (total (λ _, completed) (<[t := th']> (q_threads σ)) = S (total (λ _, completed) (q_threads σ))) as -> by lia.
      rewrite Nat2Z.inj_succ. split_and!; [lia | lia | lia | done]. }
  split; [done | done | | by rewrite length_insert]. exists n'. split_and!; [done | lia | lia | done |].
  intros u uh [(<- & <- & _) | [_ Hu]]%list_lookup_insert_Some; [done |].
  eapply thread_ok_mono; [done | done | by eapply Hth].
Qed.

(** C37: Whatever the schedule, no producer of the ring buffer ever completes a
    second enqueue, and no step of the program is undefined: the threads spin
    for ever at the test of the flag of slot 0. *)
Theorem ring_enqueues_once σ :
  rtc qstep ring_start σ →
  (∀ t th, q_threads σ !! t = Some th → producer th = true → (completed th ≤ 1)%nat) ∧
  ∀ t, ∃ r, ring_sys_step t σ = Ret r.
Proof.
  intros Hr. assert (ring_ok (q_ring σ) (q_threads σ)) as [R1 R2 (n & Hn & Hflag & Hkey & Hth) R4].
  { revert Hr. apply rtc_ind_r with (P := λ σ, ring_ok (q_ring σ) (q_threads σ)).
    - split; [done | done | | done]. exists (mkQueueNode 0 0). split_and!; [done | done | done | done |].
      intros t th Hl. apply list_elem_of_lookup_2, list_elem_of_fmap in Hl as (i & -> & _).
      unfold spawn. case_decide; (split; [done | done | intros ?; by left |]); [exists i; cbn; split; [done | lia] | done].
    - intros σ1 σ2 _ Hs Hok. by eapply ring_ok_step. }
  split.
  - intros t th Ht Hp. destruct (t_producer _ _ _ (Hth t th Ht) Hp) as [? | (? & _)]; lia.
  - intros t. unfold ring_sys_step. destruct (q_threads σ !! t) as [th |] eqn:Ht; [| eauto].
    case_bool_decide as Hc; [| eauto].
    destruct (ring_step_ok _ _ _ _ R1 R2 Hn Hflag Hkey (calls_bound _ _ _ R4 Hth) Hc (Hth t th Ht)) as (th' & q' & n' & -> & _).
    cbn. eauto.
Qed.

Fixpoint run_ring (sched : list nat) (σ : qsys) : outcome (option qsys) :=
  match sched with
  | [] => Ret (Some σ)
  | t :: sched =>
      r ← ring_sys_step t σ;
      match r with
      | None => Ret None
      | Some σ => run_ring sched σ
      end
  end.

Lemma run_ring_steps sched σ σ' : run_ring sched σ = Ret (Some σ') → rtc qstep σ σ'.
Proof.
  revert σ. induction sched as [| t sched IH]; intros σ; cbn [run_ring]; [by intros [= ->] |].
  intros ([σ1 |] & H1 & H2)%bind_Ret_inv; [| done]. eapply rtc_l; [by econstructor | by apply IH].
Qed.

(** Producer 1 enqueues, consumer 4 dequeues, then producer 1 and consumer 5 spin. *)
Definition ring_schedule : list nat :=
  replicate 5 1%nat ++ replicate 5 4%nat ++ replicate 10 1%nat ++ replicate 10 5%nat.

Definition ring_after : qsys :=
  match run_ring ring_schedule ring_start with Ret (Some σ) => σ | _ => ring_start end.

Lemma ring_enqueues_once_witness :
  completed <$> q_threads ring_after = [0; 1; 0; 0; 1; 0; 0; 0]%nat ∧ got <$> q_threads ring_after !! 4%nat = Some [1000000] ∧
  (∀ t th, q_threads ring_after !! t = Some th → producer th = true → (completed th ≤ 1)%nat) ∧
  ∀ t, ∃ r, ring_sys_step t ring_after = Ret r.
Proof.
  split; [vm_compute; reflexivity |]. split; [vm_compute; reflexivity |].
  apply ring_enqueues_once. apply (run_ring_steps ring_schedule). vm_compute. reflexivity.
Defined.
