(* ===== verification/Primes.v ===== *)
(** * Counting primes (src/lab03/lab03_prime.cpp, src/lab04/prime_mt.cpp,
    src/lab07/prime_threadgroup.cpp; the sequential parts of src/lab04/prime_cond.cpp
    and src/lab05/prime_cond_err.cpp are the same code)

    Trial division, the division of a range among threads, and the main loop
    of the version that creates and joins its threads for every range. *)

From Stdlib Require Import Znumtheory.
From stdpp Require Import list_numbers.
From S2P Require Import Prelude Text.

#[global] Instance prime_decision n : Decision (prime n) := prime_dec n.

(** [n % i] *)
Definition c_rem (n i : Z) : outcome Z := if bool_decide (i = 0) then UB else Ret (Z.rem n i).

(** The loop of [IsPrime] from [i].  The comparison with the [double] [sqrt(n)] is the
    comparison with the integer root: the square root of an [int] is computed with
    an error far below its distance to the next integer that is not below it. *)
Fixpoint trial (fuel : nat) (i n : Z) : outcome bool :=
  match fuel with
  | O => NoFuel
  | S fuel =>
      if bool_decide (i ≤ Z.sqrt n) then
        r ← c_rem n i;
        if bool_decide (r = 0) then Ret false else trial fuel (i + 1) n
      else Ret true
  end.

Definition IsPrime (n : Z) : outcome bool :=
  if bool_decide (n < 2) then Ret false else trial (Z.to_nat n) 2 n.

(** The version of lab 3, where the loop starts at 0 and the result is stored in
    [is_prime], an array of [NUM_INCREASE] elements. *)
Definition NUM_INCREASE : Z := 100000.

Definition lab03_IsPrime (n : Z) (is_prime : list bool) : outcome (list bool) :=
  if bool_decide (n < 2) then vset is_prime n false
  else b ← trial (Z.to_nat n + 2) 0 n; vset is_prime n b.

(** The loop over [start <= i < end]. *)
Fixpoint count_loop (fuel : nat) (i stop cnt_prime : Z) : outcome Z :=
  match fuel with
  | O => NoFuel
  | S fuel =>
      if bool_decide (i < stop) then
        b ← IsPrime i;
        i' ← int_op (i + 1);
        count_loop fuel i' stop (cnt_prime + Z.b2z b)
      else Ret cnt_prime
  end.

(** [ThreadFunc] of lab 7: the count that is posted for printing. *)
Definition pool_count (start stop : Z) : outcome Z := count_loop (S (Z.to_nat (stop - start))) start stop 0.

Definition NUM_THREAD : Z := 10.

(** [ThreadFunc] of lab 4: the part of the range of thread [tid], computed in
    [long] and converted to [int], and the count stored in [thread_ret]. *)
Definition thread_range (range_start range_end tid : Z) : outcome (Z * Z) :=
  d ← int_op (range_end - range_start);
  let start := wrap32 (range_start + Z.quot d NUM_THREAD * tid) in
  let stop := wrap32 (range_start + Z.quot d NUM_THREAD * (tid + 1)) in
  if bool_decide (tid = NUM_THREAD - 1) then stop ← int_op (range_end + 1); Ret (start, stop)
  else Ret (start, stop).

Definition thread_count (range_start range_end tid : Z) : outcome Z :=
  '(start, stop) ← thread_range range_start range_end tid;
  n ← pool_count start stop;
  Ret (wrap32 n).

Fixpoint sum_results (cnt_prime : Z) (thread_ret : list Z) : outcome Z :=
  match thread_ret with
  | [] => Ret cnt_prime
  | r :: rest => c ← int_op (cnt_prime + r); sum_results c rest
  end.

(** One turn of the loop of [main]: the threads touch their own results only
    and are joined before these are read. *)
Definition mt_round (range_start range_end : Z) : outcome Z :=
  thread_ret ← mapM (thread_count range_start range_end) (seqZ 0 NUM_THREAD);
  sum_results 0 thread_ret.

(** The loop of [main] on its input: the numbers it prints.  A conversion that
    fails leaves the variable as it was. *)
Fixpoint mt_main (fuel : nat) (s : str) (range_start range_end : Z) : outcome (list Z) :=
  match fuel with
  | O => NoFuel
  | S fuel =>
      '(a, s) ← scan_int s;
      let range_start := default range_start a in
      if bool_decide (range_start = -1) then Ret []
      else
        '(b, s) ← scan_int s;
        let range_end := default range_end b in
        n ← mt_round range_start range_end;
        rest ← mt_main fuel s range_start range_end;
        Ret (n :: rest)
  end.

(** ** Trial division *)

Lemma small_divisor n m : 0 < n → 1 < m < n → (m | n) → ∃ d, 2 ≤ d ≤ Z.sqrt n ∧ (d | n).
Proof.
  intros Hn Hm [q Hq]. assert (1 < q) by nia.
  destruct (decide (m ≤ Z.sqrt n)) as [Hle | Hgt].
  - exists m. split; [lia | by exists q].
  - exists q. split; [| exists m; lia]. split; [lia |].
    destruct (decide (q ≤ Z.sqrt n)) as [| Hgt']; [done |].
    pose proof (Z.sqrt_spec n ltac:(lia)) as [_ Hs]. unfold Z.succ in Hs.
    pose proof (Z.sqrt_nonneg n).
    assert ((Z.sqrt n + 1) * (Z.sqrt n + 1) ≤ q * m) by (apply Z.mul_le_mono_nonneg; lia). lia.
Qed.

Lemma trial_correct fuel i n :
  2 ≤ n → 2 ≤ i ≤ Z.sqrt n + 1 → Z.sqrt n + 1 - i < Z.of_nat fuel → (∀ d, 2 ≤ d < i → ¬ (d | n)) →
  trial fuel i n = Ret (bool_decide (prime n)).
Proof.
  intros Hn. revert i. induction fuel as [| fuel IH]; intros i Hi Hfuel Hdiv.
  { exfalso. lia. }
  cbn. destruct (decide (i ≤ Z.sqrt n)) as [Hle | Hgt].
  - rewrite (bool_decide_true (i ≤ _)) by done. unfold c_rem. rewrite (bool_decide_false (i = 0)) by lia. obind.
    pose proof (Z.sqrt_lt_lin n). destruct (decide (Z.rem n i = 0)) as [Hr | Hr].
    + rewrite (bool_decide_true (Z.rem n i = 0)), bool_decide_false; [done | | done].
      intros [_ Hp]%prime_alt. apply (Hp i); [lia |]. apply Z.rem_divide; lia.
    + rewrite (bool_decide_false (Z.rem n i = 0)) by done. apply IH; [lia | lia |].
      intros d Hd Hdn. destruct (decide (d = i)) as [-> |].
      * apply Hr. by apply Z.rem_divide; [lia |].
      * apply (Hdiv d); [lia | done].
  - rewrite (bool_decide_false (i ≤ _)), bool_decide_true; [done | | done]. apply prime_alt. split; [lia |].
    intros m Hm Hmn. destruct (small_divisor n m) as (d & Hd & Hdn); [lia | done | done |]. apply (Hdiv d); [lia | done].
Qed.

Lemma IsPrime_prime n : IsPrime n = Ret (bool_decide (prime n)).
Proof.
  unfold IsPrime. case_bool_decide as Hn.
  - rewrite bool_decide_false; [done |]. intros [? _]%prime_alt. lia.
  - assert (1 ≤ Z.sqrt n) by (apply Z.sqrt_le_square; lia). pose proof (Z.sqrt_lt_lin n).
    apply trial_correct; [lia | lia | lia |]. intros d Hd. lia.
Qed.

(** In lab 3 the loop of [IsPrime] starts with the divisor 0, so the function
    divides by zero on every number from 2 on. *)
Theorem lab03_divides_by_zero n is_prime : 2 ≤ n → lab03_IsPrime n is_prime = UB.
Proof.
  intros Hn. unfold lab03_IsPrime. rewrite bool_decide_false by lia.
  rewrite Nat.add_comm. cbn. rewrite bool_decide_true; [done |]. apply Z.sqrt_nonneg.
Qed.

(** ** Counting *)

Definition count_primes (a b : Z) : Z := Z.of_nat (length (filter prime (seqZ a (b - a)))).

Lemma count_primes_empty a b : b ≤ a → count_primes a b = 0.
Proof. intros H. unfold count_primes. by rewrite seqZ_nil by lia. Qed.

Lemma count_primes_cons a b : a < b → count_primes a b = Z.b2z (bool_decide (prime a)) + count_primes (a + 1) b.
Proof.
  intros H. unfold count_primes. rewrite seqZ_cons by lia. replace (Z.succ a) with (a + 1) by lia.
  replace (Z.pred (b - a)) with (b - (a + 1)) by lia. rewrite filter_cons.
  case_decide; [rewrite bool_decide_true by done | rewrite bool_decide_false by done]; cbn [length Z.b2z]; lia.
Qed.

Lemma count_primes_split a b c : a ≤ b ≤ c → count_primes a c = count_primes a b + count_primes b c.
Proof.
  intros H. unfold count_primes. replace (c - a) with ((b - a) + (c - b)) by lia.
  rewrite seqZ_app by lia. replace (a + (b - a)) with b by lia. rewrite filter_app, length_app. lia.
Qed.

Lemma count_primes_small a b : b ≤ 2 → count_primes a b = 0.
Proof.
  intros H. unfold count_primes. destruct (filter prime (seqZ a (b - a))) as [| x l] eqn:E; [done | exfalso].
  assert (x ∈ filter prime (seqZ a (b - a))) as Hx by (rewrite E; by left).
  apply list_elem_of_filter in Hx as [[? _]%prime_alt Hx%elem_of_seqZ]. lia.
Qed.

Lemma count_primes_bound a b : 0 ≤ count_primes a b ≤ Z.max 0 b.
Proof.
  assert (∀ a, 0 ≤ a ≤ b → count_primes a b ≤ b) as Hpos.
  { intros a' Ha. unfold count_primes. pose proof (length_filter prime (seqZ a' (b - a'))) as Hl.
    rewrite length_seqZ in Hl. lia. }
  split; [unfold count_primes; lia |].
  destruct (decide (b ≤ a)); [rewrite count_primes_empty by lia; lia |].
  destruct (decide (b ≤ 2)); [rewrite count_primes_small by lia; lia |].
  destruct (decide (0 ≤ a)); [pose proof (Hpos a); lia |].
  rewrite (count_primes_split a 0 b), (count_primes_small a 0) by lia. pose proof (Hpos 0). lia.
Qed.

Lemma count_loop_correct fuel i stop c :
  in_int i → in_int stop → stop - i < Z.of_nat fuel → (0 < fuel)%nat →
  count_loop fuel i stop c = Ret (c + count_primes i stop).
Proof.
  intros Hi Hs. revert i c Hi. induction fuel as [| fuel IH]; intros i c Hi Hf Hpos; [lia |]. cbn.
  case_bool_decide as Hlt.
  - rewrite IsPrime_prime. obind. unfold in_int in *. rewrite int_op_Ret by (unfold in_int; lia). obind.
    rewrite IH by lia. rewrite (count_primes_cons i stop) by done. f_equal. lia.
  - rewrite count_primes_empty by lia. f_equal. lia.
Qed.

Lemma pool_count_correct start stop : in_int start → in_int stop → pool_count start stop = Ret (count_primes start stop).
Proof. intros H1 H2. unfold pool_count. by rewrite count_loop_correct by (done || lia). Qed.

Lemma count_primes_eval a b n : in_int a → in_int b → pool_count a b = Ret n → count_primes a b = n.
Proof. intros Ha Hb Hn. rewrite pool_count_correct in Hn by done. by injection Hn. Qed.

(** ** The parts of the range *)

Definition zsum (l : list Z) : Z := foldr Z.add 0 l.

Lemma zsum_app l1 l2 : zsum (l1 ++ l2) = zsum l1 + zsum l2.
Proof. induction l1 as [| x l1 IH]; cbn; [done |]. unfold zsum in *. lia. Qed.

Section parts.
Context (a b : Z) (Ha : in_int a) (Hb : in_int b) (Hd : in_int (b - a)) (Hmax : b < int_max).

Definition part_start (t : Z) : Z := a + Z.quot (b - a) NUM_THREAD * t.
Definition part_end (t : Z) : Z := if bool_decide (t = NUM_THREAD - 1) then b + 1 else part_start (t + 1).

Lemma quot_bounds :
  (0 ≤ b - a → 0 ≤ Z.quot (b - a) NUM_THREAD ∧ Z.quot (b - a) NUM_THREAD * 10 ≤ b - a) ∧
  (b - a ≤ 0 → Z.quot (b - a) NUM_THREAD ≤ 0 ∧ b - a ≤ Z.quot (b - a) NUM_THREAD * 10).
Proof.
  unfold NUM_THREAD. split; intros Hs; Z.to_euclidean_division_equations; lia.
Qed.

Lemma part_in_int t : 0 ≤ t ≤ 10 → in_int (part_start t).
Proof. unfold in_int, part_start in *. pose proof quot_bounds. nia. Qed.

Lemma thread_range_part t : 0 ≤ t < NUM_THREAD → thread_range a b t = Ret (part_start t, part_end t).
Proof.
  unfold NUM_THREAD at 1. intros Ht. unfold thread_range, part_end. rewrite (int_op_Ret (b - a)) by done. obind.
  rewrite !wrap32_id by (apply part_in_int; lia). case_bool_decide; [| done].
  rewrite int_op_Ret; [done |]. unfold in_int in *. lia.
Qed.

Lemma pool_count_part t :
  0 ≤ t < NUM_THREAD →
  pool_count (part_start t) (part_end t) = Ret (count_primes (part_start t) (part_end t)) ∧
  in_int (count_primes (part_start t) (part_end t)).
Proof.
  unfold NUM_THREAD at 1. intros Ht. assert (in_int (part_end t)) as Hend.
  { unfold part_end, in_int in *. case_bool_decide; [lia |]. apply part_in_int. lia. }
  split; [by apply pool_count_correct; [apply part_in_int; lia |] |].
  pose proof (count_primes_bound (part_start t) (part_end t)). unfold in_int, int_min, int_max in *. lia.
Qed.

Lemma thread_count_part t : 0 ≤ t < NUM_THREAD → thread_count a b t = Ret (count_primes (part_start t) (part_end t)).
Proof.
  intros Ht. destruct (pool_count_part t Ht) as [Hc Hi]. unfold thread_count. rewrite thread_range_part by done. obind.
  rewrite Hc. obind. by rewrite wrap32_id.
Qed.

(** The parts put together. *)
Lemma parts_sum (n : nat) :
  a ≤ b → zsum ((λ t, count_primes (part_start t) (part_start (t + 1))) <$> seqZ 0 (Z.of_nat n)) =
    count_primes a (part_start (Z.of_nat n)).
Proof.
  intros Hab. destruct quot_bounds as [Hq _]. induction n as [| n IH].
  - unfold part_start. rewrite count_primes_empty by lia. done.
  - rewrite seqZ_S, fmap_app, zsum_app, IH, Nat2Z.inj_succ. cbn [fmap list_fmap zsum foldr].
    unfold Z.succ. rewrite Z.add_0_l, Z.add_0_r.
    by rewrite (count_primes_split a (part_start (Z.of_nat n)) (part_start (Z.of_nat n + 1))) by (unfold part_start; nia).
Qed.

Lemma all_parts : zsum ((λ t, count_primes (part_start t) (part_end t)) <$> seqZ 0 NUM_THREAD) = count_primes a (b + 1).
Proof.
  change NUM_THREAD with (Z.of_nat (S 9)). rewrite seqZ_S, fmap_app, zsum_app.
  assert ((λ t, count_primes (part_start t) (part_end t)) <$> seqZ 0 (Z.of_nat 9) =
    ((λ t, count_primes (part_start t) (part_start (t + 1))) <$> seqZ 0 (Z.of_nat 9))) as ->.
  { apply list_fmap_ext. intros i t Ht%list_elem_of_lookup_2%elem_of_seqZ. unfold part_end.
    rewrite bool_decide_false; [done |]. unfold NUM_THREAD. lia. }
  destruct quot_bounds as [Hq1 Hq2]. cbn [fmap list_fmap zsum foldr]. unfold part_end.
  rewrite bool_decide_true by done. destruct (decide (a ≤ b)) as [Hab | Hab].
  - rewrite parts_sum by done. rewrite (count_primes_split a (part_start (Z.of_nat 9)) (b + 1)); [by rewrite Z.add_0_l, Z.add_0_r |].
    unfold part_start. nia.
  - destruct Hq2 as [Hq2 Hq3]; [lia |]. rewrite (count_primes_empty a (b + 1)) by lia.
    rewrite (count_primes_empty (part_start _) (b + 1)) by (unfold part_start; cbn; lia).
    assert (∀ l, zsum ((λ t, count_primes (part_start t) (part_start (t + 1))) <$> l) = 0) as ->; [| done].
    induction l as [| t l IH]; [done |]. cbn. rewrite count_primes_empty by (unfold part_start; nia). exact IH.
Qed.
End parts.

Lemma mapM_Ret {A B} (f : A → outcome B) (g : A → B) l :
  (∀ x, x ∈ l → f x = Ret (g x)) → mapM f l = Ret (g <$> l).
Proof.
  induction l as [| x l IH]; intros H; [done |]. cbn. rewrite H by (by left). obind.
  rewrite IH; [done |]. intros y Hy. apply H. by right.
Qed.

Lemma sum_results_zsum c l :
  Forall (λ r, 0 ≤ r) l → 0 ≤ c → c + zsum l ≤ int_max → sum_results c l = Ret (c + zsum l).
Proof.
  intros Hl. revert c. induction Hl as [| r l Hr Hl IH]; intros c Hc Hmax; cbn in *; [f_equal; lia |].
  assert (0 ≤ zsum l) by (clear - Hl; induction Hl; cbn in *; [done | unfold zsum in *; lia]).
  unfold zsum in *. rewrite int_op_Ret by int_range. obind. rewrite IH by lia. f_equal. lia.
Qed.

Lemma mt_round_counts a b :
  in_int a → in_int b → in_int (b - a) → b < int_max → mt_round a b = Ret (count_primes a (b + 1)).
Proof.
  intros Ha Hb Hd Hmax. unfold mt_round.
  rewrite (mapM_Ret _ (λ t, count_primes (part_start a b t) (part_end a b t))).
  - obind. pose proof (count_primes_bound a (b + 1)). pose proof (all_parts a b) as Hsum. unfold in_int, int_min, int_max in *.
    rewrite sum_results_zsum; rewrite ?Hsum; [f_equal; lia | | lia | unfold int_max; lia].
    apply Forall_fmap, Forall_forall. intros t _. cbn. apply count_primes_bound.
  - intros t Ht%elem_of_seqZ. apply thread_count_part; [done .. |]. lia.
Qed.

(** ** The program *)

Fixpoint print_ranges (ranges : list (Z * Z)) : str :=
  match ranges with
  | [] => print_int (-1) ++ [10]
  | (a, b) :: rest => print_int a ++ [32] ++ print_int b ++ [10] ++ print_ranges rest
  end.

Definition range_ok (r : Z * Z) : Prop :=
  in_int r.1 ∧ in_int r.2 ∧ in_int (r.2 - r.1) ∧ r.2 < int_max ∧ r.1 ≠ -1.

Lemma mt_main_ranges ranges ws a0 b0 :
  Forall range_ok ranges → Forall (λ c, is_space c = true) ws →
  mt_main (S (length ranges)) (ws ++ print_ranges ranges) a0 b0 = Ret ((λ r, count_primes r.1 (r.2 + 1)) <$> ranges).
Proof.
  intros Hr. revert ws a0 b0. induction Hr as [| [a b] ranges (Ha & Hb & Hd & Hmax & Hne) Hr IH]; intros ws a0 b0 Hws.
  - cbn [length print_ranges mt_main]. by rewrite scan_print.
  - cbn [fst snd] in *. cbn [print_ranges].
    change (mt_main (S (length ((a, b) :: ranges)))) with (mt_main (S (S (length ranges)))).
    remember (S (length ranges)) as fuel. cbn [mt_main]. rewrite scan_print by done. obind. cbn [default from_option].
    rewrite bool_decide_false by done. rewrite scan_print; [| by repeat constructor | done | done]. obind.
    rewrite mt_round_counts by done. obind. cbn [default from_option id]. subst fuel.
    rewrite IH by (by repeat constructor). done.
Qed.

(** C36: On ranges followed by -1 the program of lab 4 that creates its threads
    for every range prints the number of primes of each range, both ends
    included, for ranges without overflow; the range may be empty. *)
Theorem mt_main_counts ranges :
  Forall range_ok ranges →
  mt_main (S (length ranges)) (print_ranges ranges) 0 0 = Ret ((λ r, count_primes r.1 (r.2 + 1)) <$> ranges).
Proof. intros H. by apply (mt_main_ranges ranges []). Qed.

Lemma mt_main_counts_witness :
  mt_main 3 (print_ranges [(2, 100); (7, 3)]) 0 0 = Ret [count_primes 2 101; count_primes 7 4] ∧
  mt_main 3 (print_ranges [(2, 100); (7, 3)]) 0 0 = Ret [25; 0].
Proof.
  split; [| vm_compute; reflexivity]. apply (mt_main_counts [(2, 100); (7, 3)]).
  repeat constructor; unfold in_int, int_min, int_max; cbn; lia.
Defined.

Lemma lab03_divides_by_zero_witness : lab03_IsPrime 2 (replicate 4 false) = UB.
Proof. apply (lab03_divides_by_zero 2 (replicate 4 false)). lia. Defined.
