(* ===== verification/PrimeCond.v ===== *)
(** * Counting primes with a condition variable (src/lab04/prime_cond.cpp)

    The threads are created once and sleep on a condition variable; [main] sets
    the range, broadcasts, polls until no result is negative and adds the
    results up.  The first range is counted correctly when all threads sleep
    before the broadcast; a broadcast that comes earlier is lost, and the
    broadcast for the second range wakes the threads only to let them sleep
    again. *)

From stdpp Require Import list_numbers.
From S2P Require Import Prelude Text Primes.

(** The points of [ThreadFunc].  The code between a lock and the wait that releases
    it is one step, and so is a wake-up with the unlock that follows. *)
Inductive tpc :=
| TLock1
| TWait1
| TRun
| TLock2 (cnt_prime : Z)
| TWait2.

(** The points of [main]: reading a range, the broadcast, polling at index [i],
    adding up at index [i], and after the loop. *)
Inductive mpc :=
| MInput
| MBroadcast
| MPoll (i : nat)
| MCollect (i : nat) (cnt_prime : Z)
| MExit.

Record cond_sys := mkCond {
  range_start : Z;
  range_end : Z;
  thread_ret : list Z;
  tpcs : list tpc;
  main_pc : mpc;
  input : list (Z * Z);
  output : list Z
}.

Definition num_thread : nat := Z.to_nat NUM_THREAD.

Definition cond_start (ranges : list (Z * Z)) : cond_sys :=
  mkCond 0 0 (replicate num_thread 0) (replicate num_thread TLock1) MInput ranges [].

(** [pthread_cond_broadcast]: every sleeping thread goes on after its wait. *)
Definition wake (p : tpc) : tpc :=
  match p with
  | TWait1 => TRun
  | TWait2 => TLock1
  | p => p
  end.

Definition set_thread (t : nat) (r : Z) (p : tpc) (σ : cond_sys) : outcome (option cond_sys) :=
  Ret (Some (mkCond (range_start σ) (range_end σ) (<[t := r]> (thread_ret σ)) (<[t := p]> (tpcs σ))
    (main_pc σ) (input σ) (output σ))).

Definition set_main (p : mpc) (σ : cond_sys) : cond_sys :=
  mkCond (range_start σ) (range_end σ) (thread_ret σ) (tpcs σ) p (input σ) (output σ).

Definition thread_step (t : nat) (σ : cond_sys) : outcome (option cond_sys) :=
  r ← at_ (thread_ret σ) t;
  match tpcs σ !! t with
  | Some TLock1 => set_thread t (-1) TWait1 σ
  | Some TRun =>
      '(start, stop) ← thread_range (range_start σ) (range_end σ) (Z.of_nat t);
      n ← pool_count start stop;
      set_thread t r (TLock2 n) σ
  | Some (TLock2 n) => set_thread t (wrap32 n) TWait2 σ
  | _ => Ret None
  end.

(** A range that starts with -1 ends the program; [input] holds the others. *)
Definition main_step (σ : cond_sys) : outcome (option cond_sys) :=
  match main_pc σ with
  | MInput =>
      match input σ with
      | [] => Ret (Some (set_main MExit σ))
      | (a, b) :: rest => Ret (Some (mkCond a b (thread_ret σ) (tpcs σ) MBroadcast rest (output σ)))
      end
  | MBroadcast =>
      Ret (Some (mkCond (range_start σ) (range_end σ) (thread_ret σ) (wake <$> tpcs σ) (MPoll 0) (input σ) (output σ)))
  | MPoll i =>
      if decide (i < num_thread)%nat then
        r ← at_ (thread_ret σ) i;
        Ret (Some (set_main (if bool_decide (r < 0) then MPoll 0 else MPoll (S i)) σ))
      else Ret (Some (set_main (MCollect 0 0) σ))
  | MCollect i cnt_prime =>
      if decide (i < num_thread)%nat then
        r ← at_ (thread_ret σ) i;
        c ← int_op (cnt_prime + r);
        Ret (Some (set_main (MCollect (S i) c) σ))
      else
        Ret (Some (mkCond (range_start σ) (range_end σ) (thread_ret σ) (tpcs σ) MInput (input σ) (output σ ++ [cnt_prime])))
  | MExit => Ret None
  end.

(** The step of thread [t], or of [main]; nothing runs after [main] has returned. *)
Definition cond_step (who : option nat) (σ : cond_sys) : outcome (option cond_sys) :=
  match main_pc σ, who with
  | MExit, _ => Ret None
  | _, Some t => if decide (t < num_thread)%nat then thread_step t σ else Ret None
  | _, None => main_step σ
  end.

Inductive cstep : cond_sys → cond_sys → Prop :=
| cstep_intro who σ σ' : cond_step who σ = Ret (Some σ') → cstep σ σ'.

Fixpoint run_cond (sched : list (option nat)) (σ : cond_sys) : outcome (option cond_sys) :=
  match sched with
  | [] => Ret (Some σ)
  | who :: sched =>
      r ← cond_step who σ;
      match r with
      | None => Ret None
      | Some σ => run_cond sched σ
      end
  end.

Lemma run_cond_steps sched σ σ' : run_cond sched σ = Ret (Some σ') → rtc cstep σ σ'.
Proof.
  revert σ. induction sched as [| t sched IH]; intros σ; cbn [run_cond]; [by intros [= ->] |].
  intros ([σ1 |] & H1 & H2)%bind_Ret_inv; [| done]. eapply rtc_l; [by econstructor | by apply IH].
Qed.

(** ** The first range *)

(** All threads sleep in their first wait. *)
Definition all_asleep (a b : Z) : cond_sys :=
  mkCond a b (replicate num_thread (-1)) (replicate num_thread TWait1) MBroadcast [] [].

Section first_range.
Context (a b : Z) (Ha : in_int a) (Hb : in_int b) (Hd : in_int (b - a)) (Hmax : b < int_max).

Definition part (t : nat) : Z := count_primes (part_start a b (Z.of_nat t)) (part_end a b (Z.of_nat t)).

(** A thread before it has stored its result, and after. *)
Definition busy (t : nat) (p : tpc) (r : Z) : Prop := r = -1 ∧ (p = TRun ∨ p = TLock2 (part t)).
Definition finished (t : nat) (p : tpc) (r : Z) : Prop := p = TWait2 ∧ r = part t.

Definition all_finished (m : nat) (σ : cond_sys) : Prop :=
  ∀ t, (t < m)%nat → tpcs σ !! t = Some TWait2 ∧ thread_ret σ !! t = Some (part t).

Definition partial_sum (i : nat) : Z := zsum (part <$> seq 0 i).

Definition main_ok (σ : cond_sys) : Prop :=
  match main_pc σ with
  | MBroadcast => σ = all_asleep a b
  | MPoll i => (i ≤ num_thread)%nat ∧ all_finished i σ ∧ output σ = []
  | MCollect i c => (i ≤ num_thread)%nat ∧ all_finished num_thread σ ∧ c = partial_sum i ∧ output σ = []
  | MInput | MExit => output σ = [count_primes a (b + 1)]
  end.

Record cond_ok (σ : cond_sys) : Prop := {
  d_range : range_start σ = a ∧ range_end σ = b ∧ input σ = [];
  d_main : main_ok σ;
  d_threads : main_pc σ ≠ MBroadcast → ∀ t, (t < num_thread)%nat →
    ∃ p r, tpcs σ !! t = Some p ∧ thread_ret σ !! t = Some r ∧ (busy t p r ∨ finished t p r)
}.

Lemma tid_ok t : (t < num_thread)%nat → 0 ≤ Z.of_nat t < NUM_THREAD.
Proof. unfold num_thread, NUM_THREAD. lia. Qed.

Lemma part_in t : (t < num_thread)%nat → in_int (part t) ∧ 0 ≤ part t.
Proof.
  intros Ht. destruct (pool_count_part a b Ha Hb Hmax (Z.of_nat t) (tid_ok t Ht)) as [_ Hi].
  split; [done |]. apply count_primes_bound.
Qed.

Lemma partial_sum_S i : partial_sum (S i) = partial_sum i + part i.
Proof. unfold partial_sum. rewrite seq_S, fmap_app, zsum_app. cbn. lia. Qed.

Lemma partial_sum_all : partial_sum num_thread = count_primes a (b + 1).
Proof. rewrite <- (all_parts a b) by done. done. Qed.

Lemma partial_sum_le i j : (i ≤ j ≤ num_thread)%nat → 0 ≤ partial_sum i ≤ partial_sum j.
Proof.
  intros [Hij Hj]. split.
  - clear Hij. revert i. induction i as [| i IH]; [done |]. rewrite partial_sum_S.
    pose proof (count_primes_bound (part_start a b (Z.of_nat i)) (part_end a b (Z.of_nat i))). unfold part. lia.
  - induction Hij as [| j Hij IH]; [done |]. rewrite partial_sum_S. destruct (part_in j); [lia |].
    specialize (IH ltac:(lia)). lia.
Qed.

Lemma cond_ok_main σ σ' : cond_ok σ → main_step σ = Ret (Some σ') → cond_ok σ'.
Proof.
  intros [(D1 & D2 & D3) D4 D5] Hs. unfold main_step in Hs. unfold main_ok in D4.
  destruct (main_pc σ) as [| | i | i c |] eqn:Hpc.
  - rewrite D3 in Hs. injection Hs as <-. split; [done | done |]. intros _. by apply D5.
  - injection Hs as <-. rewrite D4. split; [done | |].
    + split_and!; [lia | | done]. intros t Ht. lia.
    + intros _ t Ht. exists TRun, (-1). cbn [tpcs thread_ret all_asleep]. rewrite list_lookup_fmap.
      rewrite !lookup_replicate_2 by done. split_and!; [done | done | left]. split; auto.
  - destruct D4 as (Hi & Hfin & Hout). specialize (D5 ltac:(done)). case_decide as Hlt.
    + destruct (D5 i Hlt) as (p & r & Hp & Hr & Hcase). rewrite (at_lookup _ _ _ Hr) in Hs. cbn in Hs.
      injection Hs as <-. split; [done | | by intros _]. unfold main_ok. cbn [main_pc set_main output]. case_bool_decide as Hneg.
      * split_and!; [lia | | done]. intros t Ht. lia.
      * split_and!; [lia | | done]. intros t Ht. destruct (decide (t = i)) as [-> |]; [| apply Hfin; lia].
        destruct Hcase as [[-> _] | [-> ->]]; [lia |]. done.
    + injection Hs as <-. assert (i = num_thread) as -> by lia. split; [done | | by intros _].
      unfold main_ok. cbn [main_pc set_main output]. split_and!; [lia | done | done | done].
  - destruct D4 as (Hi & Hfin & -> & Hout). specialize (D5 ltac:(done)). case_decide as Hlt.
    + destruct (Hfin i Hlt) as [_ Hr]. rewrite (at_lookup _ _ _ Hr) in Hs. cbn in Hs.
      apply bind_Ret_inv in Hs as (c' & [-> _]%int_op_inv & [= <-]). split; [done | | by intros _].
      unfold main_ok. cbn [main_pc set_main output]. rewrite partial_sum_S. split_and!; [lia | done | done | done].
    + injection Hs as <-. assert (i = num_thread) as -> by lia. split; [done | | by intros _].
      unfold main_ok. cbn [main_pc set_main output]. by rewrite Hout, partial_sum_all.
  - done.
Qed.

Lemma cond_ok_thread σ σ' t :
  (t < num_thread)%nat → cond_ok σ → thread_step t σ = Ret (Some σ') → cond_ok σ'.
Proof.
  intros Ht [(D1 & D2 & D3) D4 D5] Hs. unfold thread_step in Hs.
  assert (main_pc σ ≠ MBroadcast) as Hpc.
  { intros Hpc. unfold main_ok in D4. rewrite Hpc in D4. rewrite D4 in Hs. cbn [tpcs thread_ret all_asleep] in Hs.
    unfold at_ in Hs. rewrite !lookup_replicate_2 in Hs by done. done. }
  destruct (D5 Hpc t Ht) as (p & r & Hp & Hr & Hcase). rewrite (at_lookup _ _ _ Hr), Hp in Hs. cbn [mbind outcome_bind] in Hs.
  assert (∀ p' r', busy t p r → busy t p' r' ∨ finished t p' r' →
    σ' = mkCond (range_start σ) (range_end σ) (<[t := r']> (thread_ret σ)) (<[t := p']> (tpcs σ)) (main_pc σ) (input σ) (output σ) →
    cond_ok σ') as Hset.
  { intros p' r' Hbusy Hnew ->.
    assert (∀ m, all_finished m σ → all_finished m (mkCond (range_start σ) (range_end σ) (<[t := r']> (thread_ret σ))
      (<[t := p']> (tpcs σ)) (main_pc σ) (input σ) (output σ))) as Hall.
    { intros m Hm u Hu. destruct (Hm u Hu) as [Hu1 Hu2]. destruct (decide (u = t)) as [-> | Hne].
      - destruct Hbusy as [_ [-> | ->]]; congruence.
      - cbn. by rewrite !list_lookup_insert_ne by done. }
    split; [done | |].
    - unfold main_ok in *. cbn. destruct (main_pc σ); try done; naive_solver.
    - intros _ u Hu. cbn. destruct (decide (u = t)) as [-> | Hne].
      + exists p', r'. by rewrite !list_lookup_insert_eq by (by eapply lookup_lt_Some).
      + destruct (D5 Hpc u Hu) as (q & z & ? & ? & ?). exists q, z. by rewrite !list_lookup_insert_ne by done. }
  destruct Hcase as [Hbusy | [-> _]]; [| done]. pose proof Hbusy as [-> [-> | ->]].
  - rewrite D1, D2, (thread_range_part a b) in Hs by (done || by apply tid_ok). cbn [mbind outcome_bind] in Hs.
    destruct (pool_count_part a b Ha Hb Hmax (Z.of_nat t) (tid_ok t Ht)) as [Hc _]. rewrite Hc in Hs.
    injection Hs as <-. eapply (Hset _ _ Hbusy); [| done]. left. split; auto.
  - injection Hs as <-. eapply (Hset _ _ Hbusy); [| done]. right. split; [done |].
    apply wrap32_id. by apply part_in.
Qed.
End first_range.

(** When all threads sleep before the broadcast, the program prints the
    number of primes of the range, both ends included, whatever the schedule. *)
Theorem cond_first_range a b σ :
  range_ok (a, b) → rtc cstep (all_asleep a b) σ →
  output σ = [] ∨ output σ = [count_primes a (b + 1)].
Proof.
  intros (Ha & Hb & Hd & Hmax & _) Hr. cbn in Ha, Hb, Hd, Hmax. assert (cond_ok a b σ) as [_ D4 _].
  { revert Hr. apply rtc_ind_r with (P := cond_ok a b).
    - split; [done | done |]. intros H. by destruct H.
    - intros σ1 σ2 _ [who σ3 σ4 Hs] Hok. unfold cond_step in Hs.
      destruct (main_pc σ3) eqn:Hpc; try done; (destruct who as [t |];
        [case_decide; [by eapply cond_ok_thread | done] | by eapply cond_ok_main]). }
  unfold main_ok in D4. destruct (main_pc σ); [by right | rewrite D4; by left | | | by right]; naive_solver.
Qed.

(** Every thread takes a step; [main] takes [n] steps. *)
Definition threads_once : list (option nat) := Some <$> seq 0 num_thread.
Definition main_steps (n : nat) : list (option nat) := replicate n None.

(** Thread 9 first, then the others while [main] polls. *)
Definition first_schedule : list (option nat) :=
  [None; Some 9%nat] ++ main_steps 3 ++ threads_once ++ (Some <$> seq 0 9) ++ main_steps 23.

Lemma cond_first_range_witness :
  (∃ σ, rtc cstep (all_asleep 2 30) σ ∧ output σ = [10] ∧ (output σ = [] ∨ output σ = [count_primes 2 (30 + 1)])).
Proof.
  assert (∃ σ, run_cond first_schedule (all_asleep 2 30) = Ret (Some σ) ∧ output σ = [10]) as (σ & Hrun & Hout).
  { eexists. split; [vm_compute; reflexivity | vm_compute; reflexivity]. }
  exists σ. split; [by eapply run_cond_steps |]. split; [exact Hout |].
  apply (cond_first_range 2 30).
  - unfold range_ok, in_int, int_min, int_max. cbn. lia.
  - by eapply run_cond_steps.
Defined.

(** Two executions in which the program prints a wrong number.  When [main]
    broadcasts before the threads have gone to sleep it prints 0 for a range
    with ten primes: the results are 0 from the start, which polling takes
    for finished threads.  After a correct first range the broadcast for the second one
    only wakes the threads from the second wait, and [main] prints the
    result of the first range again. *)
Theorem cond_wrong_results :
  (∃ σ, rtc cstep (cond_start [(2, 30)]) σ ∧ output σ = [0] ∧ count_primes 2 (30 + 1) = 10) ∧
  (∃ σ, rtc cstep (cond_start [(2, 30); (2, 3)]) σ ∧ output σ = [10; 10] ∧ count_primes 2 (3 + 1) = 2).
Proof.
  assert (∀ sched ranges out, run_cond sched (cond_start ranges) ≫= (λ σ, Ret (option_map output σ)) = Ret (Some out) →
    ∃ σ, rtc cstep (cond_start ranges) σ ∧ output σ = out) as Hrun.
  { intros sched ranges out ([σ |] & Hs & [= <-])%bind_Ret_inv. exists σ. split; [by eapply run_cond_steps | done]. }
  split.
  - destruct (Hrun (main_steps 24) [(2, 30)] [0]) as (σ & ? & ?); [vm_compute; reflexivity |].
    exists σ. split_and!; [done | done | apply count_primes_eval; [done | done | vm_compute; reflexivity]].
  - destruct (Hrun (threads_once ++ main_steps 2 ++ threads_once ++ threads_once ++ main_steps 22 ++ main_steps 24)
      [(2, 30); (2, 3)] [10; 10]) as (σ & ? & ?); [vm_compute; reflexivity |].
    exists σ. split_and!; [done | done | apply count_primes_eval; [done | done | vm_compute; reflexivity]].
Qed.
