(* ===== verification/PrimePool.v ===== *)
(** * The thread pool of lab 7 (src/lab07/prime_threadgroup.cpp)

    [main] posts a job for every range it reads; eight threads run the jobs, and a thread of its own prints the results.  Of boost::asio this is used: a handler that was posted is called exactly once, by one of the threads in
    [io_service::run], in any order; [run] does not return as long as there is an [io_service::work], a handler that waits or one that runs; [join_all] and [join] return when the threads have returned from [run].

    [ThreadFunc] has the result type [void *] and ends without a return statement, which C++ leaves undefined.  The parameter [returns] says what an implementation makes of it: whether the call returns, its result being ignored, or the
    behaviour is undefined.  [pool_prints_all] is about the first case, [pool_undefined] about the second. *)

From S2P Require Import Prelude Text Primes.

Definition NUM_THREAD_IN_POOL : nat := 8.

(** The arguments of [ThreadFunc]. *)
Record job := mkJob { start : Z; stop : Z; number : Z }.

(** What is printed: the message of [main], and the line of [Print]. *)
Inductive message := Finish | Line (sequence start stop result : Z).

(** The points of [main]: its loop, the calls of [join_all] and [join], and the end. *)
Inductive main_point := MLoop | MJoinPool | MJoinPrint | MExit.

(** The points of [ThreadFunc]: the loop, and the post of the result. *)
Inductive worker_point := WCount (j : job) | WPost (j : job) (cnt_prime : Z).

Record pool := mkPool {
  input : str;
  range_start : Z;
  range_end : Z;
  sequence : Z;
  main_pc : main_point;
  io : list job;
  workers : list (option worker_point);
  print_io : list message;
  print : option message;
  out : list message
}.

(** Whose step it is, and which of the handlers that wait it takes. *)
Inductive actor := Main | Worker (t k : nat) | Printer (k : nat).

Implicit Types (σ : pool) (t k : nat).

Definition with_worker t (w : option worker_point) (jobs : list job) (prints : list message) σ : pool :=
  mkPool (input σ) (range_start σ) (range_end σ) (sequence σ) (main_pc σ) jobs (<[t := w]> (workers σ)) prints (print σ) (out σ).

Definition main_goto p σ : pool := mkPool (input σ) (range_start σ) (range_end σ) (sequence σ) p (io σ) (workers σ) (print_io σ) (print σ) (out σ).

(** The loop reads a range; a conversion that fails leaves the variable as it was. *)
Definition main_step σ : outcome (option pool) :=
  match main_pc σ with
  | MLoop =>
      '(a, s) ← scan_int (input σ);
      let range_start := default (range_start σ) a in
      if bool_decide (range_start = -1) then
        Ret (Some (mkPool s range_start (range_end σ) (sequence σ) MJoinPool (io σ) (workers σ) (print_io σ) (print σ) (out σ ++ [Finish])))
      else
        '(b, s) ← scan_int s;
        let range_end := default (range_end σ) b in
        next ← int_op (sequence σ + 1);
        Ret (Some (mkPool s range_start range_end next MLoop (io σ ++ [mkJob range_start range_end (sequence σ)]) (workers σ) (print_io σ) (print σ) (out σ)))
  | MJoinPool => Ret (if bool_decide (io σ = []) && forallb (λ w, match w with None => true | _ => false end) (workers σ) then Some (main_goto MJoinPrint σ) else None)
  | MJoinPrint => Ret (if bool_decide (print_io σ = []) && match print σ with None => true | _ => false end then Some (main_goto MExit σ) else None)
  | MExit => Ret None
  end.

Section steps.
Context (returns : bool).

(** [ThreadFunc], called by [run] with a job that waits; the argument of [Print] is an [int].  After the post the end of the function is reached. *)
Definition worker_step σ t k : outcome (option pool) :=
  match workers σ !! t with
  | None => Ret None
  | Some None =>
      match io σ !! k with
      | None => Ret None
      | Some j => Ret (Some (with_worker t (Some (WCount j)) (delete k (io σ)) (print_io σ) σ))
      end
  | Some (Some (WCount j)) =>
      n ← pool_count (start j) (stop j);
      Ret (Some (with_worker t (Some (WPost j n)) (io σ) (print_io σ) σ))
  | Some (Some (WPost j n)) =>
      if negb returns then UB
      else Ret (Some (with_worker t None (io σ) (print_io σ ++ [Line (number j) (start j) (stop j) (wrap32 n)]) σ))
  end.

(** [Print]. *)
Definition printer_step σ k : option pool :=
  match print σ with
  | None =>
      match print_io σ !! k with
      | None => None
      | Some m => Some (mkPool (input σ) (range_start σ) (range_end σ) (sequence σ) (main_pc σ) (io σ) (workers σ) (delete k (print_io σ)) (Some m) (out σ))
      end
  | Some m => Some (mkPool (input σ) (range_start σ) (range_end σ) (sequence σ) (main_pc σ) (io σ) (workers σ) (print_io σ) None (out σ ++ [m]))
  end.

Definition pool_step (who : actor) σ : outcome (option pool) :=
  match who with
  | Main => main_step σ
  | Worker t k => worker_step σ t k
  | Printer k => Ret (printer_step σ k)
  end.

Definition pool_start (text : str) : pool := mkPool text 0 0 0 MLoop [] (replicate NUM_THREAD_IN_POOL None) [] None [].

Inductive pstep : pool → pool → Prop :=
| pstep_intro who σ σ' : pool_step who σ = Ret (Some σ') → pstep σ σ'.

(** The steps of a schedule, all of which must be possible. *)
Fixpoint run_pool (sched : list actor) σ : outcome (option pool) :=
  match sched with
  | [] => Ret (Some σ)
  | who :: sched =>
      r ← pool_step who σ;
      match r with None => Ret None | Some σ => run_pool sched σ end
  end.
End steps.

(** ** The theorem *)

(** What [Print] has to print for a job, and for the ranges that were read. *)
Definition line_of (j : job) : message := Line (number j) (start j) (stop j) (count_primes (start j) (stop j)).

Definition expected (from : Z) (ranges : list (Z * Z)) : list message := imap (λ i r, line_of (mkJob r.1 r.2 (from + Z.of_nat i))) ranges.

(** A range before the one that ends the program. *)
Definition range_in_int (r : Z * Z) : Prop := in_int r.1 ∧ in_int r.2 ∧ r.1 ≠ -1.

Definition working (w : option worker_point) : list message := match w with None => [] | Some (WCount j) | Some (WPost j _) => [line_of j] end.

Definition job_ok (j : job) : Prop := in_int (start j) ∧ in_int (stop j).

Definition worker_ok (w : option worker_point) : Prop :=
  match w with None => True | Some (WCount j) => job_ok j | Some (WPost j n) => job_ok j ∧ n = count_primes (start j) (stop j) end.

Definition weight (w : option worker_point) : nat := match w with None => 0 | Some (WCount _) => 4 | Some (WPost _ _) => 3 end.

Definition main_weight (p : main_point) : nat := match p with MLoop => 3 | MJoinPool => 2 | MJoinPrint => 1 | MExit => 0 end.

(** The steps that remain, when [rest] are the ranges that were not read yet. *)
Definition remaining (rest : list (Z * Z)) σ : nat :=
  6 * length rest + 5 * length (io σ) + total (λ _, weight) (workers σ) + 2 * length (print_io σ) + (match print σ with Some _ => 1 | None => 0 end) + main_weight (main_pc σ).

Lemma working_insert (ws : list (option worker_point)) t x y : ws !! t = Some x → concat (map working (<[t := y]> ws)) ++ working x ≡ₚ concat (map working ws) ++ working y.
Proof.
  revert t. induction ws as [| w ws IH]; intros [| t] Ht; try done; cbn in *; [injection Ht as ->; solve_Permutation |].
  by rewrite <- !app_assoc, (IH t Ht).
Qed.

Lemma expected_app from read r : expected from (read ++ [r]) = expected from read ++ [line_of (mkJob r.1 r.2 (from + Z.of_nat (length read)))].
Proof. unfold expected. rewrite imap_app. cbn. by rewrite Nat.add_0_r. Qed.

Lemma count_in_int j : job_ok j → wrap32 (count_primes (start j) (stop j)) = count_primes (start j) (stop j).
Proof. intros [H1 H2]. apply wrap32_id. pose proof (count_primes_bound (start j) (stop j)). cbn in *. int_range. Qed.

Section pool.
Context (returns : bool) (ranges : list (Z * Z)) (Hranges : Forall range_in_int ranges) (Hlen : Z.of_nat (length ranges) ≤ int_max).

(** Every range that was read is at one place, with its line; the text that follows has the others. *)
Record pool_ok (rest : list (Z * Z)) σ : Prop := {
  po_seq : 0 ≤ sequence σ;
  po_read : ∃ read, ranges = read ++ rest ∧ sequence σ = Z.of_nat (length read) ∧
    expected 0 read ++ (match main_pc σ with MLoop => [] | _ => [Finish] end) ≡ₚ map line_of (io σ) ++ concat (map working (workers σ)) ++ print_io σ ++ option_list (print σ) ++ out σ;
  po_io : Forall job_ok (io σ);
  po_workers : Forall worker_ok (workers σ);
  po_size : length (workers σ) = NUM_THREAD_IN_POOL;
  po_main : match main_pc σ with
    | MLoop => ∃ ws, input σ = ws ++ print_ranges rest ∧ Forall (λ c, is_space c = true) ws
    | MJoinPool => rest = []
    | MJoinPrint => rest = [] ∧ io σ = [] ∧ Forall (λ w, w = None) (workers σ)
    | MExit => rest = [] ∧ io σ = [] ∧ Forall (λ w, w = None) (workers σ) ∧ print_io σ = [] ∧ print σ = None
    end
}.

(** A step that keeps the invariant and leaves less to do. *)
Definition goes_on (rest : list (Z * Z)) σ σ' : Prop := ∃ rest', pool_ok rest' σ' ∧ (remaining rest' σ' < remaining rest σ)%nat.

Lemma read_range ws a b rest : Forall (λ c, is_space c = true) ws → in_int a → in_int b → ∃ s,
  scan_int (ws ++ print_ranges ((a, b) :: rest)) = Ret (Some a, s) ∧ scan_int s = Ret (Some b, [10] ++ print_ranges rest).
Proof using. intros Hws Ha Hb. eexists. cbn [print_ranges]. split; [by apply scan_print |]. change (32 :: ?l) with ([32] ++ l). by rewrite scan_print by (done || by repeat constructor). Qed.

Lemma main_ok rest σ : pool_ok rest σ → main_step σ = Ret None ∨ ∃ σ', main_step σ = Ret (Some σ') ∧ goes_on rest σ σ'.
Proof using Hranges Hlen.
  intros [P1 (read & P2 & P3 & P4) P5 P6 P7 P8]. unfold main_step. destruct (main_pc σ) eqn:E.
  - right. destruct P8 as (ws & -> & Hws). destruct rest as [| [a b] rest].
    + cbn [print_ranges]. rewrite scan_print by done. obind. cbn [default from_option]. rewrite bool_decide_true by done. eexists. split; [done |]. exists [].
      split; [split; cbn; try done | unfold remaining; cbn [io workers print_io print main_pc]; rewrite E; cbn [length main_weight]; lia]. exists read. split_and!; [done | done |]. rewrite app_nil_r in P4. rewrite P4. solve_Permutation.
    + pose proof (f_equal length P2) as Hl. rewrite length_app in Hl. cbn in Hl. rewrite P2 in Hranges. apply Forall_app in Hranges as [_ [(Ha & Hb & Hne) _]%Forall_cons]. cbn [fst snd] in *.
      destruct (read_range ws a b rest Hws Ha Hb) as (s & -> & Hs). obind. cbn [default from_option id]. rewrite bool_decide_false by done. rewrite Hs. obind. rewrite int_op_Ret by int_range. obind. eexists. split; [done |]. exists rest.
      split; [split; cbn; try done | unfold remaining; cbn [io workers print_io print main_pc]; rewrite E, length_app; cbn [length main_weight]; lia].
      * lia.
      * exists (read ++ [(a, b)]). split_and!; [by rewrite <- app_assoc | rewrite length_app; cbn; lia |]. rewrite expected_app, map_app. cbn. rewrite app_nil_r in *. rewrite P4, P3. solve_Permutation.
      * apply Forall_app. split; [done |]. by apply Forall_singleton.
      * exists [10]. split; [done | by repeat constructor].
  - destruct (_ && _) eqn:Hj; [right | by left]. apply andb_true_iff in Hj as [Hj1%bool_decide_eq_true Hj2]. eexists. split; [done |]. exists rest. split; [split; cbn; try done; [by exists read |] | unfold remaining; cbn [io workers print_io print main_pc main_goto]; rewrite E; cbn [main_weight]; lia].
    split_and!; [done | done |]. apply Forall_forall. intros [w |] Hw; [| done]. rewrite forallb_forall in Hj2. by apply list_elem_of_In, Hj2 in Hw.
  - destruct (_ && _) eqn:Hj; [right | by left]. apply andb_true_iff in Hj as [Hj1%bool_decide_eq_true Hj2]. eexists. split; [done |]. exists rest. split; [split; cbn; try done; [by exists read |] | unfold remaining; cbn [io workers print_io print main_pc main_goto]; rewrite E; cbn [main_weight]; lia].
    destruct P8 as (? & ? & ?). split_and!; try done. by destruct (print σ).
  - by left.
Qed.

(** The workers after a step of [t]. *)
Lemma with_worker_ok rest σ t x w jobs prints : pool_ok rest σ → workers σ !! t = Some x → worker_ok w → Forall job_ok jobs → main_pc σ = MLoop ∨ main_pc σ = MJoinPool →
  map line_of (io σ) ++ working x ++ print_io σ ≡ₚ map line_of jobs ++ working w ++ prints →
  (5 * length jobs + weight w + 2 * length prints < 5 * length (io σ) + weight x + 2 * length (print_io σ))%nat →
  goes_on rest σ (with_worker t w jobs prints σ).
Proof using Hranges Hlen.
  intros [P1 (read & P2 & P3 & P4) P5 P6 P7 P8] Ht Hw Hj Hmain Hp Hr. exists rest. split.
  - split; cbn; try done.
    + exists read. split_and!; try done. rewrite P4. pose proof (working_insert _ t x w Ht) as Hi. set (R := option_list (print σ) ++ out σ). set (C := concat (map working (workers σ))) in *. apply (Permutation_app_inv_r (working x)).
      trans ((map line_of (io σ) ++ working x ++ print_io σ) ++ C ++ R); [solve_Permutation |]. rewrite Hp. trans (map line_of jobs ++ prints ++ R ++ (C ++ working w)); [solve_Permutation |]. rewrite <- Hi. solve_Permutation.
    + by apply Forall_insert.
    + by rewrite length_insert.
    + by destruct Hmain as [E | E]; rewrite E in *.
  - unfold remaining. cbn [io workers print_io print main_pc with_worker]. pose proof (total_insert (λ _, weight) (workers σ) t x w Ht). lia.
Qed.

(** As long as there is something to do for the workers, [main] has not passed [join_all]. *)
Lemma main_waits rest σ t x : pool_ok rest σ → workers σ !! t = Some x → io σ ≠ [] ∨ x ≠ None → main_pc σ = MLoop ∨ main_pc σ = MJoinPool.
Proof using.
  intros [_ _ _ _ _ P8] Ht Hw. destruct (main_pc σ); [by left | by right | |]; exfalso; destruct P8 as (_ & Hio & Hws & _) || destruct P8 as (_ & Hio & Hws); destruct Hw as [? | Hx]; try done; apply Hx; by eapply (Forall_lookup_1 _ _ _ _ Hws).
Qed.

(** A step of a worker is undefined only at the end of [ThreadFunc]. *)
Lemma worker_step_ok rest σ t k : pool_ok rest σ → worker_step returns σ t k = Ret None ∨ (returns = false ∧ worker_step returns σ t k = UB) ∨ ∃ σ', worker_step returns σ t k = Ret (Some σ') ∧ goes_on rest σ σ'.
Proof using Hranges Hlen.
  intros Hok. pose proof Hok as [_ _ P5 P6 _ _]. unfold worker_step. destruct (workers σ !! t) as [[[j | j n] |] |] eqn:Ht; [| | | by left]; pose proof (Forall_lookup_1 _ _ _ _ P6 Ht) as Hw; cbn in Hw.
  - do 2 right. rewrite pool_count_correct by apply Hw. obind. eexists. split; [done |]. apply (with_worker_ok rest σ t _ _ _ _ Hok Ht); [done | done | apply (main_waits rest σ t _ Hok Ht); by right | done | cbn [weight]; lia].
  - right. destruct returns; [right | by left]. eexists. split; [done |]. destruct Hw as [Hj ->]. rewrite count_in_int by done. apply (with_worker_ok rest σ t _ _ _ _ Hok Ht); [done | done | apply (main_waits rest σ t _ Hok Ht); by right | | rewrite length_app; cbn [weight length]; lia]. cbn [working]. unfold line_of. solve_Permutation.
  - destruct (io σ !! k) as [j |] eqn:Hk; [do 2 right | by left]. eexists. split; [done |]. pose proof (Forall_lookup_1 _ _ _ _ P5 Hk) as Hj. apply (with_worker_ok rest σ t _ _ _ _ Hok Ht); [done | by apply Forall_delete | apply (main_waits rest σ t _ Hok Ht); left; by intros E; rewrite E in Hk | |].
    + cbn [working]. rewrite (delete_Permutation _ _ _ Hk) at 1. cbn [map]. solve_Permutation.
    + rewrite length_delete by (by rewrite Hk). apply lookup_lt_Some in Hk. cbn [weight]. lia.
Qed.

Lemma printer_ok rest σ k : pool_ok rest σ → printer_step σ k = None ∨ ∃ σ', printer_step σ k = Some σ' ∧ goes_on rest σ σ'.
Proof using Hranges Hlen.
  intros [P1 (read & P2 & P3 & P4) P5 P6 P7 P8]. unfold printer_step. destruct (print σ) as [m |] eqn:Ep.
  - right. eexists. split; [done |]. exists rest. split; [split; cbn; try done | unfold remaining; cbn [io workers print_io print main_pc]; rewrite Ep; lia].
    + exists read. split_and!; try done. rewrite P4. cbn. solve_Permutation.
    + destruct (main_pc σ); try done. naive_solver.
  - destruct (print_io σ !! k) as [m |] eqn:Hk; [right | by left]. eexists. split; [done |]. exists rest. split; [split; cbn; try done | unfold remaining; cbn [io workers print_io print main_pc]; rewrite Ep, length_delete by (by rewrite Hk); apply lookup_lt_Some in Hk; lia].
    + exists read. split_and!; try done. rewrite P4, (delete_Permutation _ _ _ Hk) at 1. cbn. solve_Permutation.
    + destruct (main_pc σ); try done. destruct P8 as (_ & _ & _ & E & _). by rewrite E in Hk.
Qed.

Lemma pool_step_ok rest σ who : pool_ok rest σ → pool_step returns who σ = Ret None ∨ (returns = false ∧ pool_step returns who σ = UB) ∨ ∃ σ', pool_step returns who σ = Ret (Some σ') ∧ goes_on rest σ σ'.
Proof using Hranges Hlen.
  intros Hok. destruct who as [| t k | k]; [destruct (main_ok rest σ Hok); eauto | by apply worker_step_ok |]. cbn. destruct (printer_ok rest σ k Hok) as [-> | (σ' & -> & ?)]; [by left | do 2 right; by exists σ'].
Qed.

Lemma pool_run k σ : nsteps (pstep returns) k (pool_start (print_ranges ranges)) σ → ∃ rest, pool_ok rest σ ∧ (remaining rest σ + k ≤ 6 * length ranges + 3)%nat.
Proof using Hranges Hlen.
  revert σ. induction k as [| k IH]; intros σ Hk.
  - inversion Hk; subst. exists ranges. split; [| unfold remaining; cbn [io workers print_io print main_pc pool_start length main_weight]; rewrite total_replicate by done; lia]. split; cbn; try done; [by exists [] | by repeat constructor | by exists []].
  - apply nsteps_inv_r in Hk as (σ1 & (rest & Hok & Hle)%IH & Hstep). destruct Hstep as [who σ1 σ Hs]. destruct (pool_step_ok rest σ1 who Hok) as [E | [[_ E] | (σ' & E & rest' & Hok' & Hlt)]]; [congruence.. |]. assert (σ' = σ) as -> by congruence. exists rest'. split; [done | lia].
Qed.

(** Somebody can go on before the end. *)
Lemma pool_progress rest σ : pool_ok rest σ → main_pc σ ≠ MExit → ∃ who, pool_step returns who σ ≠ Ret None.
Proof using Hranges Hlen.
  intros Hok Hend. pose proof Hok as [P1 (read & P2 & P3 & P4) P5 P6 P7 P8].
  destruct (decide (Forall (λ w, w = None) (workers σ))) as [Hidle | Hbusy]; cycle 1.
  { apply not_Forall_Exists in Hbusy; [| apply _]. apply Exists_exists in Hbusy as (w & [t Ht]%list_elem_of_lookup & Hw). exists (Worker t 0). cbn. unfold worker_step. rewrite Ht. pose proof (Forall_lookup_1 _ _ _ _ P6 Ht) as Hj. destruct w as [[j | j n] |]; [| by destruct returns | by destruct Hw]. by rewrite pool_count_correct by apply Hj. }
  destruct (io σ) as [| j jobs] eqn:Eio; cycle 1.
  { exists (Worker 0 0). cbn. unfold worker_step. destruct (lookup_lt_is_Some_2 (workers σ) 0) as [w Hw]; [rewrite P7; unfold NUM_THREAD_IN_POOL; lia |]. rewrite Hw, (Forall_lookup_1 _ _ _ _ Hidle Hw). by rewrite Eio. }
  destruct (print σ) as [m |] eqn:Ep; [exists (Printer 0); cbn; unfold printer_step; by rewrite Ep |]. destruct (print_io σ) as [| m ms] eqn:Eq; [| exists (Printer 0); cbn; unfold printer_step; by rewrite Ep, Eq].
  exists Main. cbn. destruct (main_pc σ) eqn:E; try done; [destruct (main_ok rest σ Hok) as [Hn | (σ' & -> & _)]; [exfalso | done] | |]; unfold main_step in *; rewrite E in *; rewrite ?Eio, ?Ep, ?Eq.
  - repeat (bind_inv Hn || case_match || case_bool_decide); done.
  - rewrite bool_decide_true by done. replace (forallb _ _) with true; [done |]. symmetry. apply forallb_forall. intros w Hw%list_elem_of_In. rewrite Forall_forall in Hidle. by rewrite (Hidle w Hw).
  - by rewrite bool_decide_true.
Qed.

(** At the end everything is printed. *)
Lemma pool_end rest σ : pool_ok rest σ → main_pc σ = MExit → out σ ≡ₚ Finish :: expected 0 ranges.
Proof using.
  intros [_ (read & P2 & _ & P4) _ _ _ P8] E. rewrite E in P8, P4. destruct P8 as (-> & Eio & Hws & Eq & Ep). rewrite app_nil_r in P2. subst read. rewrite Eio, Eq, Ep in P4. cbn in P4.
  replace (concat (map working (workers σ))) with (@nil message) in P4; [cbn in P4; rewrite <- P4; solve_Permutation |]. clear -Hws. induction Hws as [| w ws -> _ IH]; [done | exact IH].
Qed.
End pool.

(** C35: the thread pool of lab 7, on an implementation where a call of [ThreadFunc] returns when it reaches the end of the function.  The input is a list of ranges whose ends are of type [int], and none of which starts with -1,
    followed by -1.  Whatever the order in which threads take jobs and run, nothing else is undefined; the program ends after at most six steps for each range and three more, and can always go on until then, so that [join_all] and [join] return; and at
    its end it has printed one line for each range with its sequence number and the number of the primes from its start up to, but without, its end, and its last message, and nothing else. *)
Theorem pool_prints_all ranges k σ : Forall range_in_int ranges → Z.of_nat (length ranges) ≤ int_max → nsteps (pstep true) k (pool_start (print_ranges ranges)) σ →
  (k ≤ 6 * length ranges + 3)%nat ∧
  (∀ who, ∃ r, pool_step true who σ = Ret r) ∧
  (main_pc σ = MExit → out σ ≡ₚ Finish :: expected 0 ranges) ∧
  (main_pc σ ≠ MExit → ∃ who σ', pool_step true who σ = Ret (Some σ')).
Proof.
  intros Hr Hl Hk. destruct (pool_run true ranges Hr Hl k σ Hk) as (rest & Hok & Hle).
  assert (∀ who, pool_step true who σ = Ret None ∨ ∃ σ', pool_step true who σ = Ret (Some σ')) as Hdef.
  { intros who. destruct (pool_step_ok true ranges Hr Hl rest σ who Hok) as [-> | [[? _] | (σ' & -> & _)]]; [by left | done | right; by exists σ']. }
  split_and!; [lia | | by apply (pool_end ranges rest) |].
  - intros who. destruct (Hdef who) as [-> | [σ' ->]]; by eexists.
  - intros E. destruct (pool_progress true ranges Hr Hl rest σ Hok E) as [who Hwho]. exists who. by destruct (Hdef who).
Qed.

(** Without a worker that returns, nothing is printed but the message of [main]. *)
Lemma nothing_printed text σ : rtc (pstep false) (pool_start text) σ → print_io σ = [] ∧ print σ = None ∧ Forall (eq Finish) (out σ).
Proof.
  refine (rtc_ind_r (λ σ, print_io σ = [] ∧ print σ = None ∧ Forall (eq Finish) (out σ)) _ _ _ σ); [done |].
  intros σ1 _ _ [who σ2 σ3 Hs] (H1 & H2 & H3). destruct who as [| t k | k]; cbn in Hs.
  - unfold main_step in Hs. repeat (case_match || bind_inv Hs); simplify_eq; cbn; auto. split_and!; auto. apply Forall_app. auto.
  - unfold worker_step in Hs. repeat (case_match || bind_inv Hs); simplify_eq; cbn; auto.
  - unfold printer_step in Hs. rewrite H1, H2 in Hs. done.
Qed.

(** As C++ has it, where to reach the end of [ThreadFunc] is undefined, the program of lab 7 has no other outcome: on an input with at least one range it does not end, and whatever was done so far can be continued up to a step that is undefined. *)
Theorem pool_undefined ranges σ : Forall range_in_int ranges → Z.of_nat (length ranges) ≤ int_max → ranges ≠ [] → rtc (pstep false) (pool_start (print_ranges ranges)) σ →
  main_pc σ ≠ MExit ∧ ∃ σ' who, rtc (pstep false) σ σ' ∧ pool_step false who σ' = UB.
Proof.
  intros Hr Hl Hne Hrun. assert (∀ σ, rtc (pstep false) (pool_start (print_ranges ranges)) σ → ∃ rest, pool_ok ranges rest σ ∧ main_pc σ ≠ MExit) as Hok.
  { intros σ1 H1. destruct (nothing_printed _ _ H1) as (_ & _ & Hout). apply rtc_nsteps in H1 as [k Hk]. destruct (pool_run false ranges Hr Hl k σ1 Hk) as (rest & Hok & _). exists rest. split; [done |].
    intros E. pose proof (pool_end ranges rest σ1 Hok E) as Hp. rewrite Hp in Hout. apply Forall_cons in Hout as [_ Hout]. destruct ranges as [| [a b] ranges]; [done |]. by apply Forall_cons in Hout as [? _]. }
  split; [by destruct (Hok σ Hrun) as (_ & _ & ?) |]. destruct (Hok σ Hrun) as (rest & Hinv & _). remember (remaining rest σ) as m eqn:Em. revert rest σ Hrun Hinv Em.
  induction (lt_wf m) as [m _ IH]. intros rest σ Hrun Hinv ->. destruct (Hok σ Hrun) as (_ & _ & Hend). destruct (pool_progress false ranges Hr Hl rest σ Hinv Hend) as [who Hwho].
  destruct (pool_step_ok false ranges Hr Hl rest σ who Hinv) as [? | [[_ E] | (σ1 & E & rest1 & Hinv1 & Hlt)]]; [done | by exists σ, who |].
  destruct (IH _ Hlt rest1 σ1) as (σ' & who' & Hs & HUB); [by eapply rtc_r; [| econstructor] | done | done |]. exists σ', who'. split; [| done]. eapply rtc_l; [by econstructor | done].
Qed.

Lemma pool_undefined_witness : main_pc (pool_start (print_ranges [(2, 7)])) ≠ MExit ∧ ∃ σ' who, rtc (pstep false) (pool_start (print_ranges [(2, 7)])) σ' ∧ pool_step false who σ' = UB.
Proof. apply (pool_undefined [(2, 7)]); [repeat constructor; unfold in_int, int_min, int_max; cbn; lia | unfold int_max; cbn; lia | done | apply rtc_refl]. Defined.

Lemma pool_run_steps returns sched : ∀ σ σ', run_pool returns sched σ = Ret (Some σ') → nsteps (pstep returns) (length sched) σ σ'.
Proof.
  induction sched as [| who sched IH]; intros σ σ'; cbn [run_pool length]; [intros [= ->]; constructor |]. intros ([σ1 |] & H1 & H2)%bind_Ret_inv; [| done]. econstructor; [by econstructor | by apply IH].
Qed.

(** Two ranges; the second one is finished and printed first. *)
Definition second_first : list actor :=
  [Main; Main; Main; Worker 3 1; Worker 5 0; Worker 3 0; Worker 3 0; Printer 0; Printer 0; Worker 5 0; Worker 5 0; Main; Printer 0; Printer 0; Main].

Definition pool_after (sched : list actor) (ranges : list (Z * Z)) : pool :=
  match run_pool true sched (pool_start (print_ranges ranges)) with Ret (Some σ) => σ | _ => pool_start [] end.

Lemma pool_prints_all_witness : out (pool_after second_first [(2, 30); (2, 7)]) = [Finish; Line 1 2 7 3; Line 0 2 30 10] ∧ out (pool_after second_first [(2, 30); (2, 7)]) ≡ₚ Finish :: expected 0 [(2, 30); (2, 7)].
Proof.
  split; [vm_compute; reflexivity |]. apply (pool_prints_all [(2, 30); (2, 7)] (length second_first)); [repeat constructor; unfold in_int, int_min, int_max; cbn; lia | unfold int_max; cbn; lia | | vm_compute; reflexivity].
  apply pool_run_steps. vm_compute. reflexivity.
Defined.
