(* ===== verification/Timers.v ===== *)
(** * The timers of lab 6 (src/lab06/timer_async_arg.cpp, timer_2thread.cpp, timer_fix_race.cpp)

    Handlers that print and increment a counter and start their timer again, until the counter has reached a limit.  The scheduling of boost::asio is left
    open: a timer may expire at any time after it was started, any thread that is in [io_service::run] may take the handler of an expired timer, every handler that was started with
    [async_wait] is called once, and [run] returns when there is nothing left to do.  Of a strand only this is used: handlers that are wrapped by one strand do not run at the same time.

    The three programs are instances: one timer and one thread (timer_async_arg.cpp, limit 5), two timers and two threads without a strand (timer_2thread.cpp) and with one (timer_fix_race.cpp and
    timer_2thread.cpp with [USE_STRAND]), both with limit 10. *)

From S2P Require Import Prelude.

(** The points of [Print], with one access to the counter per step; [++count] is a load and a store. *)
Inductive print_pc := HTest | HPrint | HLoad | HStore (v : Z) | HArm.

(** The counter, what was printed (with the timer), the timers whose handler is to be called, and for each thread the handler it runs. *)
Record timers := mkTimers {
  count : Z;
  printed : list (nat * Z);
  armed : list bool;
  workers : list (option (nat * print_pc))
}.

Section timers.
Context (strand : bool) (limit : Z).
Implicit Types (σ : timers) (t i : nat).

Definition with_worker t (w : option (nat * print_pc)) σ : timers := mkTimers (count σ) (printed σ) (armed σ) (<[t := w]> (workers σ)).
Definition with_armed i (b : bool) σ : timers := mkTimers (count σ) (printed σ) (<[i := b]> (armed σ)) (workers σ).
Definition with_count c σ : timers := mkTimers c (printed σ) (armed σ) (workers σ).

(** The strand lets a handler begin. *)
Definition admitted σ : bool := negb strand || forallb (λ w, bool_decide (w = None)) (workers σ).

(** A step of [Print] for the timer [i] in the thread [t]. *)
Definition print_step σ t i (p : print_pc) : outcome timers :=
  let go p := with_worker t (Some (i, p)) in
  match p with
  | HTest => Ret (if bool_decide (count σ < limit) then go HPrint σ else with_worker t None σ)
  | HPrint => Ret (go HLoad (mkTimers (count σ) (printed σ ++ [(i, count σ)]) (armed σ) (workers σ)))
  | HLoad => Ret (go (HStore (count σ)) σ)
  | HStore v => v' ← int_op (v + 1); Ret (go HArm (with_count v' σ))
  | HArm => Ret (with_worker t None (with_armed i true σ))
  end.

(** A step of the thread [t]; when it runs no handler it takes that of the timer [i]. *)
Definition timer_step σ t i : outcome (option timers) :=
  match workers σ !! t with
  | None => Ret None
  | Some (Some (i', p)) => σ ← print_step σ t i' p; Ret (Some σ)
  | Some None =>
      if bool_decide (armed σ !! i = Some true) && admitted σ then Ret (Some (with_worker t (Some (i, HTest)) (with_armed i false σ)))
      else Ret None
  end.

(** [main] up to the calls of [run]. *)
Definition timers_start (num_timers num_threads : nat) : timers := mkTimers 0 [] (replicate num_timers true) (replicate num_threads None).

(** Both calls of [run] return. *)
Definition finished σ : bool := forallb negb (armed σ) && forallb (λ w, bool_decide (w = None)) (workers σ).

Inductive tstep : timers → timers → Prop :=
| tstep_intro σ t i σ' : timer_step σ t i = Ret (Some σ') → tstep σ σ'.

(** The steps of a schedule, all of which must be possible. *)
Fixpoint run_timers (sched : list (nat * nat)) σ : outcome (option timers) :=
  match sched with
  | [] => Ret (Some σ)
  | (t, i) :: sched =>
      r ← timer_step σ t i;
      match r with None => Ret None | Some σ => run_timers sched σ end
  end.
End timers.

(** ** One handler at a time *)

Section alone.
Context (strand : bool) (limit : Z) (m n : nat) (Hlim : 0 ≤ limit ≤ int_max) (Hm : (0 < m)%nat) (Hn : (0 < n)%nat) (Halone : strand = true ∨ n = 1%nat).
Implicit Types (σ : timers) (t i : nat).

(** The thread that runs a handler, with the timer of the handler. *)
Abbreviation busy := (option (nat * nat * print_pc)).

Definition workers_of (w : busy) : list (option (nat * print_pc)) :=
  match w with None => replicate n None | Some (t, i, p) => <[t := Some (i, p)]> (replicate n None) end.

(** What holds while a handler runs, and how many numbers were printed beyond the counter. *)
Definition handler_ok σ (w : busy) : Prop :=
  match w with
  | None => True
  | Some (t, i, p) => (t < n)%nat ∧ armed σ !! i = Some false ∧ match p with HTest => True | HPrint | HLoad => count σ < limit | HStore v => v = count σ ∧ count σ < limit | HArm => True end
  end.

Definition ahead (w : busy) : Z := match w with Some (_, _, HLoad) | Some (_, _, HStore _) => 1 | _ => 0 end.

Record timers_ok σ (w : busy) : Prop := {
  tm_count : 0 ≤ count σ ≤ limit;
  tm_workers : workers σ = workers_of w;
  tm_armed : length (armed σ) = m;
  tm_handler : handler_ok σ w;
  tm_printed : (printed σ).*2 = seqZ 0 (count σ + ahead w);
  tm_alive : count σ = limit ∨ w ≠ None ∨ ∃ i, armed σ !! i = Some true
}.

(** The steps that remain. *)
Definition weight (w : busy) : Z := match w with None => 0 | Some (_, _, p) => match p with HTest => 1 | HPrint => 0 | HLoad => -1 | HStore _ => -2 | HArm => 3 end end.

Definition num_armed σ : Z := Z.of_nat (total (λ _ (b : bool), if b then 1 else 0)%nat (armed σ)).
Definition remaining σ (w : busy) : Z := 6 * (limit - count σ) + 2 * num_armed σ + weight w.

Lemma workers_cases t w x : workers_of w !! t = Some x → x = None ∨ ∃ i p, x = Some (i, p) ∧ w = Some (t, i, p).
Proof using.
  destruct w as [[[u i] p] |]; cbn; [| intros [-> _]%lookup_replicate; by left]. intros [(-> & <- & _) | [_ [-> _]%lookup_replicate]]%list_lookup_insert_Some; [right; by exists i, p | by left].
Qed.

Lemma workers_set t i p q : (t < n)%nat → <[t := Some (i, q)]> (workers_of (Some (t, i, p))) = workers_of (Some (t, i, q)).
Proof using. intros Ht. cbn. by rewrite list_insert_insert_eq. Qed.

Lemma workers_clear t i p : (t < n)%nat → <[t := None]> (workers_of (Some (t, i, p))) = workers_of None.
Proof using. intros Ht. cbn. rewrite list_insert_insert_eq. apply list_insert_id. by apply lookup_replicate. Qed.

Lemma all_idle w : (match w with Some (t, _, _) => (t < n)%nat | None => True end) → forallb (λ x : option (nat * print_pc), bool_decide (x = None)) (workers_of w) = bool_decide (w = None).
Proof using.
  intros Hw. destruct w as [[[t i] p] |].
  - rewrite bool_decide_false by done. apply not_true_iff_false. rewrite forallb_forall. intros H. assert (Some (i, p) ∈ workers_of (Some (t, i, p))) as Hin%list_elem_of_In. { cbn. apply list_elem_of_lookup. exists t. apply list_lookup_insert_eq. by rewrite length_replicate. }
    apply H in Hin. by apply bool_decide_eq_true in Hin.
  - rewrite bool_decide_true by done. apply forallb_forall. intros x [-> _]%list_elem_of_In%elem_of_replicate. by apply bool_decide_eq_true.
Qed.

Lemma armed_set (ls : list bool) i b b' : ls !! i = Some b → Z.of_nat (total (λ _ (b : bool), if b then 1 else 0)%nat (<[i := b']> ls)) + Z.b2z b = Z.of_nat (total (λ _ (b : bool), if b then 1 else 0)%nat ls) + Z.b2z b'.
Proof using All. intros Hi. pose proof (total_insert (λ _ (b : bool), if b then 1 else 0)%nat ls i b b' Hi) as H. destruct b, b'; cbn [Z.b2z] in *; lia. Qed.

(** A handler that runs makes a step, and the steps that remain get less. *)
Lemma handler_step σ t i p : timers_ok σ (Some (t, i, p)) → ∃ σ' w, print_step limit σ t i p = Ret σ' ∧ timers_ok σ' w ∧ remaining σ' w < remaining σ (Some (t, i, p)).
Proof using All.
  intros [C1 C2 C3 (Ht & Hi & Hp) C5 C6]. unfold remaining, num_armed. destruct p as [| | | v |]; cbn [print_step weight ahead] in *.
  - case_bool_decide as Hc.
    + eexists _, (Some (t, i, HPrint)). split; [done |]. split; [split; cbn; [done | rewrite C2; by apply workers_set | done | done | done | by right; left] | cbn [count armed with_worker with_armed with_count weight]; lia].
    + eexists _, None. split; [done |]. split; [split; cbn; [done | rewrite C2; by apply workers_clear | done | done | done | left; lia] | cbn [count armed with_worker with_armed with_count weight]; lia].
  - eexists _, (Some (t, i, HLoad)). split; [done |]. split; [split; cbn; [done | rewrite C2; by apply workers_set | done | done | | by right; left] | cbn [count armed with_worker with_armed with_count weight]; lia]. rewrite fmap_app, C5, Z.add_0_r, seqZ_app by lia. done.
  - eexists _, (Some (t, i, HStore (count σ))). split; [done |]. split; [split; cbn; [done | rewrite C2; by apply workers_set | done | done | done | by right; left] | cbn [count armed with_worker with_armed with_count weight]; lia].
  - destruct Hp as [-> Hc]. rewrite int_op_Ret by int_range. obind. eexists _, (Some (t, i, HArm)). split; [done |]. split; [split; cbn; [lia | rewrite C2; by apply workers_set | done | done | by rewrite C5, Z.add_0_r | by right; left] | cbn [count armed with_worker with_armed with_count weight]; lia].
  - eexists _, None. split; [done |]. split; [split; cbn; [done | rewrite C2; by apply workers_clear | by rewrite length_insert | done | done | right; right; exists i; apply list_lookup_insert_eq; by eapply lookup_lt_Some] |].
    cbn [count armed with_worker with_armed weight]. pose proof (armed_set (armed σ) i false true Hi) as Hs. cbn [Z.b2z] in Hs. lia.
Qed.

Lemma timers_step σ w t i : timers_ok σ w → timer_step strand limit σ t i = Ret None ∨ ∃ σ' w', timer_step strand limit σ t i = Ret (Some σ') ∧ timers_ok σ' w' ∧ remaining σ' w' < remaining σ w.
Proof using All.
  intros Hok. pose proof Hok as [C1 C2 C3 C4 C5 C6]. unfold timer_step. rewrite C2. destruct (workers_of w !! t) as [x |] eqn:E; [| by left]. destruct (workers_cases t w x E) as [-> | (i' & p & -> & ->)].
  - destruct (bool_decide _ && _) eqn:Ha; [right | by left]. apply andb_true_iff in Ha as [Ha%bool_decide_eq_true Hadm]. assert (t < n)%nat as Ht. { apply lookup_lt_Some in E. destruct w as [[[? ?] ?] |]; cbn in E; by rewrite ?length_insert, length_replicate in E. }
    assert (w = None) as ->. { unfold admitted in Hadm. rewrite C2 in Hadm. destruct Halone as [-> | Hone]; [cbn in Hadm; rewrite all_idle in Hadm by (destruct w as [[[? ?] ?] |]; [apply C4 | done]); by apply bool_decide_eq_true in Hadm |]. destruct w as [[[u j] p] |]; [| done]. destruct C4 as [Hu _]. cbn in E.
      assert (u = t) as -> by lia. by rewrite list_lookup_insert_eq in E by (rewrite length_replicate; lia). }
    eexists _, (Some (t, i, HTest)). split; [done |]. split; [split; cbn; [done | by rewrite C2 | by rewrite length_insert | split_and!; [done | apply list_lookup_insert_eq; by eapply lookup_lt_Some | done] | done | by right; left] |].
    unfold remaining, num_armed. cbn [count armed with_worker with_armed weight]. pose proof (armed_set (armed σ) i true false Ha) as Hs. cbn [Z.b2z] in Hs. lia.
  - destruct (handler_step σ t i' p Hok) as (σ' & w' & -> & H1 & H2). obind. right. by exists σ', w'.
Qed.

Lemma timers_start_ok : timers_ok (timers_start m n) None ∧ remaining (timers_start m n) None ≤ 6 * limit + 2 * Z.of_nat m.
Proof using All.
  split; [split; cbn; try done; [lia | by rewrite length_replicate | right; right; exists 0%nat; by apply lookup_replicate] |]. unfold remaining, num_armed. cbn [count armed timers_start weight]. pose proof (total_bound (λ _ (b : bool), if b then 1 else 0)%nat (replicate m true) 1 ltac:(intros ? [] _; lia)) as Hb. rewrite length_replicate in Hb. lia.
Qed.

Lemma remaining_nonneg σ w : timers_ok σ w → 0 ≤ remaining σ w.
Proof using All. intros [C1 C2 C3 C4 C5 C6]. unfold remaining, num_armed. destruct w as [[[t i] p] |]; cbn; [destruct C4 as (_ & _ & Hp); destruct p; cbn; lia | lia]. Qed.

Lemma timers_run k σ : nsteps (tstep strand limit) k (timers_start m n) σ → ∃ w, timers_ok σ w ∧ remaining σ w + Z.of_nat k ≤ 6 * limit + 2 * Z.of_nat m.
Proof using All.
  revert σ. induction k as [| k IH]; intros σ Hk; [inversion Hk; subst; exists None; destruct timers_start_ok; split; [done | lia] |]. apply nsteps_inv_r in Hk as (σ1 & (w & Hok & Hle)%IH & Hstep). destruct Hstep as [σ1 t i σ Hs].
  destruct (timers_step σ1 w t i Hok) as [E | (σ' & w' & E & Hok' & Hlt)]; [congruence |]. assert (σ' = σ) as -> by congruence. exists w'. split; [done | lia].
Qed.

Lemma not_finished σ w : timers_ok σ w → finished σ = false → ∃ t i σ', timer_step strand limit σ t i = Ret (Some σ').
Proof using All.
  intros Hok Hf. pose proof Hok as [C1 C2 C3 C4 C5 C6]. destruct w as [[[t i] p] |].
  - exists t, i. destruct (handler_step σ t i p Hok) as (σ' & w' & E & _). exists σ'. unfold timer_step. rewrite C2. cbn. rewrite list_lookup_insert_eq by (rewrite length_replicate; apply C4). by rewrite E.
  - unfold finished in Hf. rewrite C2, all_idle, bool_decide_true, andb_true_r in Hf by done. assert (∃ i, armed σ !! i = Some true) as [i Hi]. { clear -Hf. induction (armed σ) as [| [] ls IH]; [done | by exists 0%nat |]. destruct IH as [i Hi]; [done |]. by exists (S i). }
    exists 0%nat, i. eexists. unfold timer_step. rewrite C2. cbn. rewrite lookup_replicate_2 by done. rewrite bool_decide_true by done. unfold admitted. rewrite C2, all_idle, bool_decide_true, orb_true_r by done. done.
Qed.
End alone.

(** C34: the counters of lab 6.  When the handlers are wrapped by a strand, as in timer_fix_race.cpp, or there is only one thread, as in timer_async_arg.cpp, then whatever the order in which timers expire and threads take
    handlers: nothing is undefined; the numbers from 0 on are printed in their order, each once; the program does not stop before the counter has the limit, and then it has printed all numbers below the limit;
    and it does stop, after at most six steps for each number and two for each timer. *)
Theorem timers_count strand limit m n k σ : 0 ≤ limit ≤ int_max → (0 < m)%nat → (0 < n)%nat → strand = true ∨ n = 1%nat → nsteps (tstep strand limit) k (timers_start m n) σ →
  Z.of_nat k ≤ 6 * limit + 2 * Z.of_nat m ∧
  (∀ t i, ∃ r, timer_step strand limit σ t i = Ret r) ∧
  (∃ c, count σ ≤ c ≤ count σ + 1 ∧ (printed σ).*2 = seqZ 0 c) ∧
  (finished σ = true → count σ = limit ∧ (printed σ).*2 = seqZ 0 limit) ∧
  (finished σ = false → ∃ t i σ', timer_step strand limit σ t i = Ret (Some σ')).
Proof.
  intros Hlim Hm Hn Ha Hk. destruct (timers_run strand limit m n Hlim Hm Hn Ha k σ Hk) as (w & Hok & Hle). pose proof (remaining_nonneg strand limit m n Hlim Hm Hn Ha σ w Hok). pose proof Hok as [C1 C2 C3 C4 C5 C6]. split_and!.
  - lia.
  - intros t i. destruct (timers_step strand limit m n Hlim Hm Hn Ha σ w t i Hok) as [-> | (σ' & _ & -> & _)]; by eexists.
  - exists (count σ + ahead w). split; [| done]. destruct w as [[[t i] []] |]; cbn; lia.
  - unfold finished. rewrite C2, all_idle, andb_true_iff by (destruct w as [[[? ?] ?] |]; [apply C4 | done]). intros [Hf ->%bool_decide_eq_true]. destruct C6 as [<- | [? | [i Hi]]]; [rewrite C5, Z.add_0_r; done | done |].
    rewrite forallb_forall in Hf. by specialize (Hf true (proj1 (list_elem_of_In _ _) (list_elem_of_lookup_2 _ _ _ Hi))).
  - by apply (not_finished strand limit m n Hlim Hm Hn Ha σ w).
Qed.

Lemma run_timers_steps strand limit sched : ∀ σ σ', run_timers strand limit sched σ = Ret (Some σ') → nsteps (tstep strand limit) (length sched) σ σ'.
Proof.
  induction sched as [| [t i] sched IH]; intros σ σ'; cbn [run_timers length]; [intros [= ->]; constructor |]. intros ([σ1 |] & H1 & H2)%bind_Ret_inv; [| done]. econstructor; [by econstructor | by apply IH].
Qed.

(** The thread [t] runs the handler of the timer [t], [k] steps of it. *)
Definition handles (t k : nat) : list (nat * nat) := replicate k (t, t).

Definition timers_after (strand : bool) (sched : list (nat * nat)) : timers :=
  match run_timers strand 10 sched (timers_start 2 2) with Ret (Some σ) => σ | _ => timers_start 2 2 end.

(** The program timer_fix_race.cpp when its threads take turns. *)
Definition in_turns : list (nat * nat) := concat (replicate 5 (handles 0 6 ++ handles 1 6)) ++ handles 0 2 ++ handles 1 2.

Lemma timers_count_witness : length in_turns = 64%nat ∧ finished (timers_after true in_turns) = true ∧ count (timers_after true in_turns) = 10 ∧ (printed (timers_after true in_turns)).*2 = seqZ 0 10.
Proof.
  split; [vm_compute; reflexivity |]. split; [vm_compute; reflexivity |]. apply (timers_count true 10 2 2 64); [unfold int_max; lia | lia | lia | by left | | vm_compute; reflexivity].
  apply (run_timers_steps true 10 in_turns (timers_start 2 2) (timers_after true in_turns)). vm_compute. reflexivity.
Defined.

(** Without a strand both threads can find the last number below the limit, so that the program timer_2thread.cpp ends with 11, and both can print and store the same number, so that it prints one twice. *)
Definition both_test : list (nat * nat) := concat (replicate 4 (handles 0 6 ++ handles 1 6)) ++ handles 0 6 ++ handles 1 2 ++ handles 0 2 ++ handles 1 4 ++ handles 0 4 ++ handles 0 2 ++ handles 1 2.
Definition both_store : list (nat * nat) := handles 0 4 ++ handles 1 4 ++ handles 0 2 ++ handles 1 2 ++ concat (replicate 4 (handles 0 6 ++ handles 1 6)) ++ handles 0 6 ++ handles 0 2 ++ handles 1 2.

Theorem timers_race :
  (∃ k σ, nsteps (tstep false 10) k (timers_start 2 2) σ ∧ finished σ = true ∧ count σ = 11 ∧ (printed σ).*2 = seqZ 0 11) ∧
  (∃ k σ, nsteps (tstep false 10) k (timers_start 2 2) σ ∧ finished σ = true ∧ count σ = 10 ∧ (printed σ).*2 = 0 :: seqZ 0 10).
Proof.
  split; [exists (length both_test), (timers_after false both_test) | exists (length both_store), (timers_after false both_store)];
    (split; [apply run_timers_steps; vm_compute; reflexivity | split_and!; vm_compute; reflexivity]).
Qed.
