(* ===== verification/Counter.v ===== *)
(** * The shared counters of labs 2, 3 and 5 (src/lab02/prac_mutex.cpp, the counting in
    src/lab03/lab03_prime.cpp, src/lab05/helgrind_test.cpp)

    Threads that increment a global [int], with a mutex and without. *)

From S2P Require Import Prelude.

(** ** With a mutex *)

(** The points of the loop of [ThreadFunc]; [cnt_global++] is a load and a store. *)
Inductive kpc := KLock | KLoad | KStore (v : Z) | KUnlock | KDone.

(** [turn] is the loop variable [i], which is also what [cnt_local] counts. *)
Record kthread := mkKthread { k_pc : kpc; turn : nat }.

Record ksys := mkKsys { cnt_global : Z; mutex : option nat; k_threads : list kthread }.

Definition counter_start (num_thread : nat) (num_increase : nat) : ksys :=
  mkKsys 0 None (replicate num_thread (mkKthread (if decide (0 < num_increase)%nat then KLock else KDone) 0)).

Definition counter_step (num_increase : nat) (t : nat) (σ : ksys) : outcome (option ksys) :=
  match k_threads σ !! t with
  | None => Ret None
  | Some (mkKthread p i) =>
      let to p i := <[t := mkKthread p i]> (k_threads σ) in
      match p with
      | KLock =>
          match mutex σ with
          | Some _ => Ret None
          | None => Ret (Some (mkKsys (cnt_global σ) (Some t) (to KLoad i)))
          end
      | KLoad => Ret (Some (mkKsys (cnt_global σ) (mutex σ) (to (KStore (cnt_global σ)) i)))
      | KStore v =>
          v' ← int_op (v + 1);
          Ret (Some (mkKsys v' (mutex σ) (to KUnlock i)))
      | KUnlock =>
          Ret (Some (mkKsys (cnt_global σ) None
            (to (if decide (S i < num_increase)%nat then KLock else KDone) (S i))))
      | KDone => Ret None
      end
  end.

Inductive kstep (k : nat) : ksys → ksys → Prop :=
| kstep_intro t σ σ' : counter_step k t σ = Ret (Some σ') → kstep k σ σ'.

Definition holds_mutex (p : kpc) : Prop := match p with KLock | KDone => False | _ => True end.

(** The increments a thread has made. *)
Definition increments (th : kthread) : nat := turn th + match k_pc th with KUnlock => 1 | _ => 0 end.

Record kthread_ok (k t : nat) (cnt : Z) (m : option nat) (th : kthread) : Prop := {
  ko_mutex : holds_mutex (k_pc th) ↔ m = Some t;
  ko_turn : match k_pc th with KDone => turn th = k | _ => (turn th < k)%nat end;
  ko_value : match k_pc th with KStore v => v = cnt | _ => True end
}.

Record counter_ok (n k : nat) (σ : ksys) : Prop := {
  k_count : cnt_global σ = Z.of_nat (total (λ _, increments) (k_threads σ));
  k_length : length (k_threads σ) = n;
  k_thread t th : k_threads σ !! t = Some th → kthread_ok k t (cnt_global σ) (mutex σ) th
}.

Lemma increments_le k t cnt m th : kthread_ok k t cnt m th → (increments th ≤ k)%nat.
Proof. intros [_ H _]. unfold increments. destruct (k_pc th); lia. Qed.

Section counter.
Context (n k : nat) (Hfit : Z.of_nat (n * k) ≤ int_max).

(** The state after a step of thread [t], from what it does to [t]. *)
Lemma counter_ok_step σ t th th' cnt' m' :
  counter_ok n k σ → k_threads σ !! t = Some th →
  cnt' + Z.of_nat (increments th) = cnt_global σ + Z.of_nat (increments th') →
  kthread_ok k t cnt' m' th' → (∀ u, u ≠ t → mutex σ = Some u ↔ m' = Some u) →
  (cnt' = cnt_global σ ∨ mutex σ = Some t) →
  counter_ok n k (mkKsys cnt' m' (<[t := th']> (k_threads σ))).
Proof.
  intros [C1 C2 C3] Ht Hcnt Hth Hm Hc. split; cbn [cnt_global k_threads mutex].
  - pose proof (total_insert (λ _, increments) _ _ _ th' Ht) as Htot. cbn beta in Htot. lia.
  - by rewrite length_insert.
  - intros u uh [(<- & <- & _) | [Hu Hl]]%list_lookup_insert_Some; [done |].
    destruct (C3 u uh Hl) as [K1 K2 K3]. split; [| done |].
    + rewrite K1. apply Hm. done.
    + destruct Hc as [-> | Hc]; [done |]. destruct (k_pc uh) eqn:Hpc; try done.
      exfalso. apply Hu. assert (mutex σ = Some u) as Hmu by (apply K1; by rewrite ?Hpc). congruence.
Qed.

(** A thread that may still increment leaves room for it. *)
Lemma room σ t th : counter_ok n k σ → k_threads σ !! t = Some th → (increments th < k)%nat → cnt_global σ < int_max.
Proof.
  intros [C1 C2 C3] Ht Hlt.
  pose proof (total_insert (λ _, increments) _ _ _ (mkKthread KLock k) Ht) as Htot.
  pose proof (total_bound (λ _, increments) (<[t := mkKthread KLock k]> (k_threads σ)) k) as Hb.
  rewrite length_insert, C2 in Hb. cbn beta in Htot.
  change (increments (mkKthread KLock k)) with (k + 0)%nat in Htot.
  assert (total (λ _, increments) (<[t := mkKthread KLock k]> (k_threads σ)) ≤ n * k)%nat as Hle; [| lia].
  apply Hb. intros u uh [(<- & <- & _) | [_ Hl]]%list_lookup_insert_Some; [unfold increments; cbn; lia |].
  by eapply increments_le, C3.
Qed.

Lemma counter_step_ok σ t :
  counter_ok n k σ →
  ∃ r, counter_step k t σ = Ret r ∧ match r with Some σ' => counter_ok n k σ' | None => True end.
Proof.
  intros Hok. unfold counter_step. destruct (k_threads σ !! t) as [[p i] |] eqn:Ht; [| by exists None].
  destruct (k_thread _ _ _ Hok t _ Ht) as [K1 K2 K3]. cbn in K1, K2, K3. destruct p as [| | v | |].
  - destruct (mutex σ) as [u |] eqn:Hm; [by exists None |]. eexists. split; [done |].
    apply (counter_ok_step σ t _ _ _ _ Hok Ht); [done | done | | by left]. intros u Hu. rewrite Hm. naive_solver.
  - eexists. split; [done |]. apply (counter_ok_step σ t _ _ _ _ Hok Ht); [done | done | done | by left].
  - subst v. pose proof (room σ t _ Hok Ht) as Hroom. unfold increments in Hroom. cbn in Hroom.
    rewrite int_op_Ret.
    + eexists. split; [done |]. apply (counter_ok_step σ t _ _ _ _ Hok Ht); [| done | done | right; by apply K1].
      unfold increments. cbn. lia.
    + unfold in_int, int_min. rewrite (k_count _ _ _ Hok) in Hroom |- *. lia.
  - assert (mutex σ = Some t) as Hm by (by apply K1).
    eexists. split; [done |]. apply (counter_ok_step σ t _ _ _ _ Hok Ht); [| | | by left].
    + unfold increments. cbn. case_decide; cbn; lia.
    + split; cbn; case_decide; cbn; try done; lia.
    + intros u Hu. rewrite Hm. naive_solver.
  - by exists None.
Qed.

Lemma counter_reachable σ : rtc (kstep k) (counter_start n k) σ → counter_ok n k σ.
Proof.
  apply rtc_ind_r with (P := counter_ok n k).
  - unfold counter_start. split; cbn [cnt_global k_threads mutex].
    + rewrite total_replicate; [done |]. intros t. unfold increments. cbn. by case_decide.
    + by rewrite length_replicate.
    + intros t th [-> _]%lookup_replicate. split; cbn; case_decide; try done; lia.
  - intros σ1 σ2 _ [t σ1' σ2' Hs] Hok. destruct (counter_step_ok σ1' t Hok) as (r & Hr & H).
    rewrite Hs in Hr. by injection Hr as <-.
Qed.
End counter.

(** The counter protected by a mutex loses no increment and does not
    overflow: no step is undefined, and when all threads have returned the
    counter is the number of threads times the number of increments, which
    every thread has made. *)
Theorem counter_exact n k σ :
  Z.of_nat (n * k) ≤ int_max → rtc (kstep k) (counter_start n k) σ →
  (∀ t, ∃ r, counter_step k t σ = Ret r) ∧
  (Forall (λ th, k_pc th = KDone) (k_threads σ) →
    cnt_global σ = Z.of_nat (n * k) ∧ Forall (λ th, turn th = k) (k_threads σ)).
Proof.
  intros Hfit Hr. pose proof (counter_reachable n k Hfit σ Hr) as Hok. split.
  - intros t. destruct (counter_step_ok n k Hfit σ t Hok) as (r & Hs & _). eauto.
  - intros Hdone. destruct Hok as [C1 C2 C3]. rewrite Forall_lookup in Hdone.
    assert (∀ t th, k_threads σ !! t = Some th → turn th = k) as Hturn.
    { intros t th Ht. destruct (C3 t th Ht) as [_ K2 _]. by rewrite (Hdone t th Ht) in K2. }
    split; [| by apply Forall_lookup]. rewrite C1, <- C2. f_equal.
    assert (∀ t th, k_threads σ !! t = Some th → increments th = k) as Hinc.
    { intros t th Ht. unfold increments. rewrite (Hdone t th Ht), (Hturn t th Ht). lia. }
    clear - Hinc. unfold total. induction (k_threads σ) as [| th ths IH]; [done |]. cbn.
    rewrite (Hinc 0%nat th eq_refl). f_equal. apply IH. intros t th' Ht. by apply (Hinc (S t)).
Qed.

Fixpoint run_counter (k : nat) (sched : list nat) (σ : ksys) : outcome (option ksys) :=
  match sched with
  | [] => Ret (Some σ)
  | t :: sched =>
      r ← counter_step k t σ;
      match r with
      | None => Ret None
      | Some σ => run_counter k sched σ
      end
  end.

Lemma run_counter_steps k sched σ σ' : run_counter k sched σ = Ret (Some σ') → rtc (kstep k) σ σ'.
Proof.
  revert σ. induction sched as [| t sched IH]; intros σ; cbn [run_counter]; [by intros [= ->] |].
  intros ([σ1 |] & H1 & H2)%bind_Ret_inv; [| done]. eapply rtc_l; [by econstructor | by apply IH].
Qed.

Definition counter_after : ksys :=
  match run_counter 2 [0; 0; 0; 0; 1; 1; 1; 1; 1; 1; 1; 1; 0; 0; 0; 0]%nat (counter_start 2 2) with
  | Ret (Some σ) => σ
  | _ => counter_start 2 2
  end.

Lemma counter_exact_witness :
  cnt_global counter_after = 4 ∧
  (∀ t, ∃ r, counter_step 2 t counter_after = Ret r) ∧
  (Forall (λ th, k_pc th = KDone) (k_threads counter_after) →
    cnt_global counter_after = Z.of_nat (2 * 2) ∧ Forall (λ th, turn th = 2%nat) (k_threads counter_after)).
Proof.
  split; [vm_compute; reflexivity |]. apply (counter_exact 2 2); [vm_compute; discriminate |].
  apply (run_counter_steps 2 [0; 0; 0; 0; 1; 1; 1; 1; 1; 1; 1; 1; 0; 0; 0; 0]%nat). vm_compute. reflexivity.
Defined.
