(* ===== verification/Queues.v ===== *)
(** * Priority queues (src/project4/mariadb/server/mysys/queues.c, include/queues.h)

    A binary heap in an array from index 1 on, of pointers to elements that are compared by a
    function of the caller.  When the queue is created with an offset for it, every element
    also records its position in the array.  The comparison function is a parameter;
    [uint] arithmetic does not wrap below 2^31 elements.  The result of a comparison is
    multiplied by 1 or -1 as an integer of any size: a comparison function is not supposed to
    return INT_MIN, whose product with -1 is undefined for the [int] of the code. *)

From S2P Require Import Prelude.

(** [QUEUE]; an element is a number that stands for the pointer to it, [positions] is the
    field of the elements at [offset_to_queue_pos]. *)
Record QUEUE := mkQUEUE {
  root : list nat;
  elements : nat;
  max_elements : nat;
  has_pos : bool;
  auto_extent : nat;
  max_at_top : Z;
  positions : gmap nat nat
}.

Definition with_elements (n : nat) (q : QUEUE) : QUEUE :=
  mkQUEUE (root q) n (max_elements q) (has_pos q) (auto_extent q) (max_at_top q) (positions q).

(** [queue->root[idx]= element] and the store of the position. *)
Definition place (q : QUEUE) (idx element : nat) : outcome QUEUE :=
  if decide (idx < length (root q))%nat then
    Ret (mkQUEUE (<[idx := element]> (root q)) (elements q) (max_elements q) (has_pos q) (auto_extent q) (max_at_top q)
      (if has_pos q then <[element := idx]> (positions q) else positions q))
  else UB.

(** ** Creation *)

(** [realloc]: the old contents up to the smaller size. *)
Definition realloc (n : nat) (l : list nat) : list nat := take n l ++ replicate (n - length l) 0%nat.

Definition queue_set_max_at_top (b : bool) : Z := if b then -1 else 1.

Definition init_queue (max : nat) (max_top : bool) (offset_to_queue_pos extent : nat) : QUEUE :=
  mkQUEUE (replicate (max + 1) 0%nat) 0 max (bool_decide (offset_to_queue_pos ≠ 0%nat)) extent (queue_set_max_at_top max_top) ∅.

(** [resize_queue]; [oom] says that [my_realloc] fails. *)
Definition resize_queue (oom : bool) (q : QUEUE) (max : nat) : Z * QUEUE :=
  if decide (max_elements q = max) then (0, q)
  else if oom then (1, q)
  else (0, mkQUEUE (realloc (max + 1) (root q)) (min (elements q) max) max (has_pos q) (auto_extent q) (max_at_top q) (positions q)).

Definition reinit_queue (oom : bool) (q : QUEUE) (max : nat) (max_top : bool) (offset_to_queue_pos extent : nat) : Z * QUEUE :=
  resize_queue oom (mkQUEUE (root q) 0 (max_elements q) (bool_decide (offset_to_queue_pos ≠ 0%nat)) extent
    (queue_set_max_at_top max_top) (positions q)) max.

Definition delete_queue (q : QUEUE) : QUEUE :=
  mkQUEUE [] (elements q) (max_elements q) (has_pos q) (auto_extent q) (max_at_top q) (positions q).

Section ops.
Context (compare : nat → nat → Z).

(** ** Insertion *)

(** The loop of [queue_insert] and the second loop of [_downheap]: elements above [idx] move
    down while [element] is before them. *)
Fixpoint sift_up (fuel : nat) (q : QUEUE) (lo element idx : nat) : outcome (QUEUE * nat) :=
  let next := (idx / 2)%nat in
  if decide (lo < next)%nat then
    y ← at_ (root q) next;
    if decide (compare element y * max_at_top q < 0) then
      match fuel with
      | O => NoFuel
      | S fuel => q ← place q idx y; sift_up fuel q lo element next
      end
    else Ret (q, idx)
  else Ret (q, idx).

Definition queue_insert (q : QUEUE) (element : nat) : outcome QUEUE :=
  let idx := S (elements q) in
  '(q, idx) ← sift_up idx (with_elements idx q) 0 element idx;
  place q idx element.

Definition queue_insert_safe (oom : bool) (q : QUEUE) (element : nat) : outcome (Z * QUEUE) :=
  if decide (elements q = max_elements q) then
    if decide (auto_extent q = 0%nat) then Ret (2, q)
    else
      let '(err, q) := resize_queue oom q (max_elements q + auto_extent q) in
      if decide (err = 0) then q ← queue_insert q element; Ret (0, q) else Ret (1, q)
  else q ← queue_insert q element; Ret (0, q).

(** ** Removal *)

(** The smaller child of [idx]. *)
Definition child (q : QUEUE) (idx : nat) : outcome nat :=
  let next_index := (idx + idx)%nat in
  if decide (next_index < elements q)%nat then
    a ← at_ (root q) next_index; b ← at_ (root q) (S next_index);
    Ret (if decide (compare a b * max_at_top q > 0) then S next_index else next_index)
  else Ret next_index.

(** The first loop of [_downheap]; [true] when it returns from the function. *)
Fixpoint sift_down (fuel : nat) (q : QUEUE) (first : bool) (element idx : nat) : outcome (QUEUE * nat * bool) :=
  if decide (idx <= elements q / 2)%nat then
    match fuel with
    | O => NoFuel
    | S fuel =>
        next_index ← child q idx;
        y ← at_ (root q) next_index;
        if first && bool_decide (compare y element * max_at_top q >= 0) then
          q ← place q idx element; Ret (q, idx, true)
        else q ← place q idx y; sift_down fuel q false element next_index
    end
  else Ret (q, idx, false).

Definition downheap (q : QUEUE) (start_idx element : nat) : outcome QUEUE :=
  '(q, idx, done) ← sift_down (elements q) q true element start_idx;
  if (done : bool) then Ret q
  else '(q, idx) ← sift_up idx q start_idx element idx; place q idx element.

Definition queue_remove (q : QUEUE) (idx : nat) : outcome (nat * QUEUE) :=
  element ← at_ (root q) idx;
  last ← at_ (root q) (elements q);
  q ← downheap (with_elements (elements q - 1) q) idx last;
  Ret (element, q).

Definition queue_remove_top (q : QUEUE) : outcome (nat * QUEUE) := queue_remove q 1.

Definition queue_top (q : QUEUE) : outcome nat := at_ (root q) 1.

Definition queue_replace_top (q : QUEUE) : outcome QUEUE := top ← at_ (root q) 1; downheap q 1 top.

Definition queue_replace (q : QUEUE) (idx : nat) : outcome QUEUE :=
  element ← at_ (root q) idx;
  '(_, q) ← queue_remove q idx;
  queue_insert q element.

(** [for (i= queue->elements >> 1; i > 0; i--)] *)
Fixpoint fix_loop (i : nat) (q : QUEUE) : outcome QUEUE :=
  match i with
  | O => Ret q
  | S i' => e ← at_ (root q) i; q ← downheap q i e; fix_loop i' q
  end.

Definition queue_fix (q : QUEUE) : outcome QUEUE := fix_loop (elements q / 2) q.

End ops.
