(* ===== verification/QueuesSpec.v ===== *)
(** * Priority queues: order, contents and positions

    Insertion, removal of the top, replacement of the top and [queue_fix] keep or make the heap
    order, keep the elements and record their positions.  Removal from the middle
    needs the element that takes the place not to belong above it, which the code does not check. *)

From S2P Require Import Prelude Queues.

(** ** Arrays *)

Lemma swap_lt {A} (l : list A) i j x y :
  (i < j)%nat → l !! i = Some x → l !! j = Some y → <[i := y]> (<[j := x]> l) ≡ₚ l.
Proof.
  intros Hij Hi Hj. assert (∃ a b c, l = a ++ x :: b ++ y :: c ∧ length a = i ∧ length b = (j - S i)%nat) as (a & b & c & -> & Ha & Hb).
  { exists (take i l), (take (j - S i) (drop (S i) l)), (drop (S (j - S i)) (drop (S i) l)).
    assert (drop (S i) l !! (j - S i)%nat = Some y) as Hd by (rewrite lookup_drop; by replace (S i + (j - S i))%nat with j by lia).
    apply lookup_lt_Some in Hj as Hlen. split_and!.
    - rewrite (take_drop_middle _ _ _ Hd), (take_drop_middle _ _ _ Hi). done.
    - apply length_take_le. lia.
    - apply length_take_le. rewrite length_drop. lia. }
  replace j with (length a + S (length b + 0))%nat by lia. replace i with (length a + 0)%nat by lia.
  rewrite !insert_app_r.
  change (<[S (length b + 0) := x]> (x :: b ++ y :: c)) with (x :: <[(length b + 0)%nat := x]> (b ++ y :: c)).
  rewrite insert_app_r. change (a ++ y :: b ++ x :: c ≡ₚ a ++ x :: b ++ y :: c).
  f_equiv. rewrite <- !Permutation_middle. apply Permutation_swap.
Qed.

Lemma swap_perm {A} (l : list A) i j x y :
  i ≠ j → l !! i = Some x → l !! j = Some y → <[i := y]> (<[j := x]> l) ≡ₚ l.
Proof.
  intros Hij Hi Hj. destruct (decide (i < j)%nat); [by apply swap_lt |]. rewrite list_insert_insert_ne by done. apply swap_lt; [lia | done | done].
Qed.

(** ** The order *)

Section order.
Context (compare : nat → nat → Z).

Definition direction (d : Z) : Prop := d = 1 ∨ d = -1.

(** [x] may be above [y]. *)
Definition before (d : Z) (x y : nat) : Prop := compare x y * d ≤ 0.

#[global] Instance before_dec d x y : Decision (before d x y).
Proof. unfold before. apply _. Defined.

Context `{Hcmp : !Comparison compare}.

Lemma not_before d x y : direction d → compare x y * d < 0 ↔ ¬ before d y x.
Proof.
  intros [-> | ->]; unfold before; pose proof (compare_sym x y); pose proof (compare_sym y x); lia.
Qed.

Lemma before_flip d x y : direction d → compare x y * d >= 0 ↔ before d y x.
Proof. intros Hd. pose proof (not_before d x y Hd). unfold before in *. lia. Qed.

Lemma lt_before d x y : direction d → compare x y * d < 0 → before d x y.
Proof. unfold before. lia. Qed.

Lemma before_trans d x y z : direction d → before d x y → before d y z → before d x z.
Proof.
  intros Hd Hxy Hyz. destruct Hd as [-> | ->]; unfold before in *.
  - pose proof (compare_trans x y z). lia.
  - pose proof (compare_trans z y x). pose proof (compare_sym x y). pose proof (compare_sym y x). pose proof (compare_sym y z).
    pose proof (compare_sym z y). pose proof (compare_sym x z). pose proof (compare_sym z x). lia.
Qed.

Lemma before_refl d x : direction d → before d x x.
Proof. intros Hd. unfold before. pose proof (compare_sym x x). destruct Hd as [-> | ->]; lia. Qed.

End order.

(** ** Queues *)

Definition r (q : QUEUE) (i : nat) : nat := root q !!! i.

(** The elements in the order of the array. *)
Definition contents (q : QUEUE) : list nat := take (elements q) (drop 1 (root q)).

(** The array with [e] at the position [idx], which is about to be written. *)
Definition filled (q : QUEUE) (idx e : nat) : list nat := take (elements q) (drop 1 (<[idx := e]> (root q))).

(** What no loop changes. *)
Record frame (q q' : QUEUE) : Prop := {
  fm_len : length (root q') = length (root q);
  fm_elements : elements q' = elements q;
  fm_max : max_elements q' = max_elements q;
  fm_pos : has_pos q' = has_pos q;
  fm_extent : auto_extent q' = auto_extent q;
  fm_dir : max_at_top q' = max_at_top q
}.

#[global] Instance frame_preorder : PreOrder frame.
Proof. split; [by split |]. intros q1 q2 q3 [] []. split; congruence. Qed.

(** The elements are [C] when [e] fills the hole at [idx], and the others know their positions. *)
Record holes (q : QUEUE) (idx e : nat) (C : list nat) : Prop := {
  ho_perm : filled q idx e ≡ₚ C;
  ho_pos : has_pos q = true → NoDup C → ∀ i, (1 ≤ i ≤ elements q)%nat → i ≠ idx → positions q !! r q i = Some i
}.

Definition positions_ok (q : QUEUE) : Prop :=
  has_pos q = true → NoDup (contents q) → ∀ i, (1 ≤ i ≤ elements q)%nat → positions q !! r q i = Some i.

Lemma r_lookup q i : (i < length (root q))%nat → root q !! i = Some (r q i).
Proof. intros Hi. by apply list_lookup_lookup_total_lt. Qed.

Lemma at_r q i : (i < length (root q))%nat → at_ (root q) i = Ret (r q i).
Proof. intros Hi. apply at_lookup, r_lookup, Hi. Qed.

Lemma filled_lookup q idx e i :
  (1 ≤ i ≤ elements q)%nat → (elements q < length (root q))%nat →
  filled q idx e !! (i - 1)%nat = Some (if decide (i = idx) then e else r q i).
Proof.
  intros Hi Hlen. unfold filled. rewrite lookup_take_lt, lookup_drop by lia. replace (1 + (i - 1))%nat with i by lia.
  case_decide as Hd; [subst; apply list_lookup_insert_eq; lia |]. rewrite list_lookup_insert_ne by done. apply r_lookup. lia.
Qed.

Lemma place_ok q idx e :
  (idx < length (root q))%nat →
  ∃ q', place q idx e = Ret q' ∧ frame q q' ∧ root q' = <[idx := e]> (root q) ∧
    (∀ j, r q' j = if decide (j = idx) then e else r q j) ∧
    positions q' = if has_pos q then <[e := idx]> (positions q) else positions q.
Proof.
  intros Hi. unfold place. rewrite decide_True by done. eexists. split; [done |]. split_and!; [by split; cbn; rewrite ?length_insert | done | | done].
  intros j. unfold r. cbn. case_decide as Hj; [subst; by rewrite list_lookup_total_insert_eq | by rewrite list_lookup_total_insert_ne].
Qed.

Lemma contents_insert n k z (l : list nat) :
  (1 ≤ k ≤ n)%nat → take n (drop 1 (<[k := z]> l)) = <[(k - 1)%nat := z]> (take n (drop 1 l)).
Proof.
  intros Hk. destruct l as [| y l]; [by destruct k, n |]. destruct k as [| k]; [lia |].
  change (take n (<[k := z]> l) = <[(S k - 1)%nat := z]> (take n l)). rewrite Nat.sub_succ, Nat.sub_0_r. by rewrite take_insert_lt by lia.
Qed.

(** The step that moves the hole from [idx] to [next]. *)
Lemma move_ok q idx next e C :
  (1 ≤ idx ≤ elements q)%nat → (1 ≤ next ≤ elements q)%nat → idx ≠ next → (elements q < length (root q))%nat → holes q idx e C →
  ∃ q', place q idx (r q next) = Ret q' ∧ frame q q' ∧ (∀ j, r q' j = if decide (j = idx) then r q next else r q j) ∧ holes q' next e C.
Proof.
  intros Hidx Hnext Hne Hlen [Hperm Hpos]. destruct (place_ok q idx (r q next)) as (q' & He & Hfr & Hroot & Hr & Hps); [lia |].
  exists q'. split_and!; [done | done | done |]. pose proof Hfr as [F1 F2 F3 F4 F5 F6]. split.
  - rewrite <- Hperm. unfold filled. rewrite F2, Hroot.
    rewrite !contents_insert by lia. set (l := take (elements q) (drop 1 (root q))).
    assert (l !! (next - 1)%nat = Some (r q next)) as Hn.
    { unfold l. rewrite lookup_take_lt, lookup_drop by lia. replace (1 + (next - 1))%nat with next by lia. apply r_lookup. lia. }
    assert (<[(next - 1)%nat := e]> (<[(idx - 1)%nat := r q next]> l) = <[(idx - 1)%nat := r q next]> (<[(next - 1)%nat := e]> (<[(idx - 1)%nat := e]> l))) as ->.
    { rewrite !(list_insert_insert_ne l (next - 1) (idx - 1)) by lia. by rewrite list_insert_insert_eq. }
    apply swap_perm; [lia | |].
    + apply list_lookup_insert_eq. unfold l. rewrite length_take, length_drop. lia.
    + rewrite list_lookup_insert_ne by lia. done.
  - rewrite F4, F2. intros Hp Hnd i Hi Hin. rewrite Hps, Hp, Hr. case_decide as Hd.
    + subst. by rewrite lookup_insert_eq.
    + rewrite lookup_insert_ne; [by apply Hpos |]. intros Heq. apply Hin.
      rewrite <- Hperm in Hnd. assert (i - 1 = next - 1)%nat; [| lia].
      eapply (NoDup_lookup _ _ _ (r q i) Hnd); rewrite filled_lookup by lia; rewrite decide_False by done; congruence.
Qed.

(** The write of [e] in the hole. *)
Lemma fill_ok q idx e C :
  (1 ≤ idx ≤ elements q)%nat → (elements q < length (root q))%nat → holes q idx e C →
  ∃ q', place q idx e = Ret q' ∧ frame q q' ∧ (∀ j, r q' j = if decide (j = idx) then e else r q j) ∧
    contents q' ≡ₚ C ∧ positions_ok q'.
Proof.
  intros Hidx Hlen [Hperm Hpos]. destruct (place_ok q idx e) as (q' & He & Hfr & Hroot & Hr & Hps); [lia |].
  pose proof Hfr as [F1 F2 F3 F4 F5 F6].
  assert (contents q' = filled q idx e) as Hcont by (unfold contents, filled; by rewrite F2, Hroot).
  exists q'. split_and!; [done | done | done | by rewrite Hcont |].
  unfold positions_ok. rewrite F4, F2, Hcont. intros Hp Hnd i Hi. rewrite Hps, Hp, Hr. case_decide as Hd.
  - subst. by rewrite lookup_insert_eq.
  - rewrite lookup_insert_ne; [apply Hpos; [done | by rewrite <- Hperm | done | done] |]. intros Heq. apply Hd.
    assert (i - 1 = idx - 1)%nat; [| lia].
    eapply (NoDup_lookup _ _ _ e Hnd); rewrite filled_lookup by lia; [rewrite decide_False by done; congruence | by rewrite decide_True].
Qed.

(** ** The loops *)

Section loops.
Context (compare : nat → nat → Z) `{Hcmp : !Comparison compare}.

(** The pairs of parent and child that do not touch the hole are in order, from the parent [s0] on. *)
Definition rest_ok (q : QUEUE) (s0 idx : nat) : Prop :=
  ∀ i, (i ≤ elements q)%nat → (s0 ≤ i / 2)%nat → i ≠ idx → (i / 2)%nat ≠ idx → before compare (max_at_top q) (r q (i / 2)) (r q i).

(** The parent of the hole is before the children of the hole. *)
Definition around_ok (q : QUEUE) (s0 idx : nat) : Prop :=
  ∀ i, (i ≤ elements q)%nat → (i / 2)%nat = idx → (s0 ≤ idx / 2)%nat → before compare (max_at_top q) (r q (idx / 2)) (r q i).

Definition below_ok (q : QUEUE) (idx e : nat) : Prop :=
  ∀ i, (i ≤ elements q)%nat → (i / 2)%nat = idx → before compare (max_at_top q) e (r q i).

Definition heap_from (s0 : nat) (q : QUEUE) : Prop :=
  ∀ i, (i ≤ elements q)%nat → (s0 ≤ i / 2)%nat → before compare (max_at_top q) (r q (i / 2)) (r q i).

Lemma half_lt i : (1 ≤ i)%nat → (i / 2 < i)%nat.
Proof. intros Hi. apply Nat.div_lt; lia. Qed.

(** [idx] is in the subtree of [s]. *)
Inductive below (s : nat) : nat → Prop :=
| below_here : below s s
| below_child i : below s (i / 2) → below s i.

Lemma below_inv s i : below s i → i = s ∨ below s (i / 2).
Proof. intros [| j Hj]; [by left | by right]. Qed.

Lemma below_ge s i : (1 ≤ s)%nat → below s i → (s ≤ i)%nat.
Proof.
  intros Hs. induction 1 as [| i _ IH]; [lia |]. assert (i / 2 ≤ i)%nat by (apply Nat.Div0.div_le_upper_bound; lia). lia.
Qed.

Lemma sift_up_ok C lo s0 e : (s0 ≤ S lo)%nat → (1 ≤ s0)%nat → ∀ fuel idx q,
  direction (max_at_top q) → (idx ≤ fuel)%nat → (1 ≤ idx ≤ elements q)%nat → (elements q < length (root q))%nat →
  rest_ok q s0 idx → around_ok q s0 idx → below_ok q idx e → holes q idx e C →
  ∃ q' idx', sift_up compare fuel q lo e idx = Ret (q', idx') ∧ frame q q' ∧ (1 ≤ idx' ≤ idx)%nat ∧
    rest_ok q' s0 idx' ∧ below_ok q' idx' e ∧ holes q' idx' e C ∧
    ((lo < idx' / 2)%nat → before compare (max_at_top q') (r q' (idx' / 2)) e) ∧
    (∀ s, (s ≤ lo)%nat → below s idx → below s idx') ∧ (∀ j, (j / 2 ≤ lo)%nat → r q' j = r q j).
Proof.
  intros Hs0 Hs1. induction fuel as [| fuel IH]; intros idx q Hd Hf Hidx Hlen Hrest Haround Hbelow Hholes; [lia |].
  cbn [sift_up]. pose proof (half_lt idx ltac:(lia)) as Hhalf. set (next := (idx / 2)%nat) in *.
  assert ((¬ ((lo < next)%nat ∧ compare e (r q next) * max_at_top q < 0)) → ∃ q' idx', Ret (q, idx) = Ret (q', idx') ∧ frame q q' ∧ (1 ≤ idx' ≤ idx)%nat ∧
    rest_ok q' s0 idx' ∧ below_ok q' idx' e ∧ holes q' idx' e C ∧
    ((lo < idx' / 2)%nat → before compare (max_at_top q') (r q' (idx' / 2)) e) ∧
    (∀ s, (s ≤ lo)%nat → below s idx → below s idx') ∧ (∀ j, (j / 2 ≤ lo)%nat → r q' j = r q j)) as Hstop.
  { intros Hno. exists q, idx. split_and!; [done | done | lia | lia | done | done | done | | done | done].
    fold next. intros Hlt. apply dec_stable. intros Hnb. apply Hno. split; [done |]. by apply not_before. }
  case_decide as Hlt; [| apply Hstop; tauto]. rewrite at_r by lia. obind. case_decide as Hc; [| apply Hstop; tauto]. clear Hstop.
  destruct (move_ok q idx next e C) as (q1 & -> & Hfr & Hr & Hholes1); [lia | lia | lia | lia | done |]. obind.
  pose proof Hfr as [F1 F2 F3 F4 F5 F6].
  assert (before compare (max_at_top q) e (r q next)) as Hbe by (by apply lt_before).
  assert (∀ i, i ≠ idx → r q1 i = r q i) as Hother by (intros i Hi; rewrite Hr; by rewrite decide_False).
  assert (r q1 idx = r q next) as Hidx1 by (rewrite Hr; by rewrite decide_True).
  assert (∀ i, (i ≤ elements q)%nat → (i / 2)%nat = next → before compare (max_at_top q) (r q next) (r q1 i)) as Hchild.
  { intros i Hi Hin. destruct (decide (i = idx)) as [-> | Hne]; [rewrite Hidx1; by eapply before_refl |]. rewrite Hother, <- Hin by done.
    apply Hrest; [done | lia | done | lia]. }
  destruct (IH next q1) as (q2 & idx2 & -> & Hfr2 & Hidx2 & Hrest2 & Hbelow2 & Hholes2 & Hstop2 & Hpath2 & Hframe2).
  - by rewrite F6.
  - lia.
  - rewrite F2. lia.
  - lia.
  - intros i Hi Hs Hn1 Hn2. rewrite F2 in Hi. rewrite F6. destruct (decide (i = idx)) as [-> | Hne]; [done |]. rewrite (Hother i) by done.
    destruct (decide (i / 2 = idx)%nat) as [Heq |].
    + rewrite Heq, Hidx1. apply Haround; [done | done | fold next; lia].
    + rewrite Hother by done. by apply Hrest.
  - intros i Hi Hin Hs. rewrite F2 in Hi. rewrite F6. pose proof (half_lt next ltac:(lia)).
    rewrite (Hother (next / 2)%nat) by lia. eapply before_trans; [done | done | | by apply Hchild].
    apply Hrest; [lia | lia | lia | lia].
  - intros i Hi Hin. rewrite F2 in Hi. rewrite F6. eapply before_trans; [done | done | exact Hbe | by apply Hchild].
  - done.
  - exists q2, idx2. split_and!; [done | by etrans | lia | lia | done | done | done | done | |].
    { intros s Hs Hb. apply Hpath2; [done |]. destruct (below_inv s idx Hb) as [-> | ?]; [lia | done]. }
    intros j Hj. rewrite Hframe2 by done. apply Hother. intros ->. fold next in Hj. lia.
Qed.

Lemma half_inv i k : (i / 2)%nat = k → i = (k + k)%nat ∨ i = S (k + k).
Proof. intros <-. pose proof (Nat.div_mod_eq i 2). pose proof (Nat.mod_upper_bound i 2). lia. Qed.

Lemma half_double k : ((k + k) / 2)%nat = k ∧ (S (k + k) / 2)%nat = k.
Proof.
  split; symmetry; [apply (Nat.div_unique _ 2 _ 0); lia | apply (Nat.div_unique _ 2 _ 1); lia].
Qed.

Lemma child_ok q idx :
  direction (max_at_top q) → (1 ≤ idx ≤ elements q / 2)%nat → (elements q < length (root q))%nat →
  ∃ next, child compare q idx = Ret next ∧ (next / 2)%nat = idx ∧ (idx < next ≤ elements q)%nat ∧
    ∀ i, (i ≤ elements q)%nat → (i / 2)%nat = idx → before compare (max_at_top q) (r q next) (r q i).
Proof.
  intros Hd Hidx Hlen. destruct (half_double idx) as [H2 H21]. pose proof (Nat.div_mod_eq (elements q) 2).
  unfold child. case_decide as Hlt.
  - rewrite !at_r by lia. obind. eexists. split; [done |]. case_decide as Hc.
    + split_and!; [done | lia | lia |]. intros i Hi Hin. destruct (half_inv i idx Hin) as [-> | ->]; [| by apply before_refl].
      apply before_flip; [done | done | lia].
    + split_and!; [done | lia | lia |]. intros i Hi Hin. destruct (half_inv i idx Hin) as [-> | ->]; [by apply before_refl |].
      unfold before. lia.
  - eexists. split; [done |]. split_and!; [done | lia | lia |]. intros i Hi Hin.
    destruct (half_inv i idx Hin) as [-> | ->]; [by apply before_refl | lia].
Qed.

(** The first loop: it returns with [e] placed at [s], or with the hole at a leaf below [s]. *)
Lemma sift_down_ok C s e : (1 ≤ s)%nat → ∀ fuel idx (first : bool) q,
  direction (max_at_top q) → (elements q ≤ idx + fuel)%nat → (1 ≤ idx)%nat → (idx ≤ elements q)%nat → (elements q < length (root q))%nat →
  below s idx → (if first then idx = s else idx ≠ s ∧ before compare (max_at_top q) (r q s) e) →
  rest_ok q s idx → around_ok q s idx → holes q idx e C →
  ∃ q' idx' (fin : bool), sift_down compare fuel q first e idx = Ret (q', idx', fin) ∧ frame q q' ∧
    (∀ j, (j / 2 < s)%nat → j ≠ s → r q' j = r q j) ∧
    if fin then heap_from s q' ∧ contents q' ≡ₚ C ∧ positions_ok q' ∧ r q' s = e
    else (idx' ≤ elements q)%nat ∧ below s idx' ∧ rest_ok q' s idx' ∧ below_ok q' idx' e ∧ around_ok q' s idx' ∧ holes q' idx' e C ∧
      (idx' ≠ s → before compare (max_at_top q') (r q' s) e).
Proof.
  intros Hs. induction fuel as [| fuel IH]; intros idx first q Hd Hf H1 Hidx Hlen Hb Hfirst Hrest Haround Hholes; cbn [sift_down].
  all: pose proof (Nat.div_mod_eq (elements q) 2) as Hdiv; pose proof (below_ge s idx Hs Hb) as Hge; destruct (decide (idx ≤ elements q / 2)%nat) as [Hle | Hgt].
  1: exfalso; lia.
  1, 3: exists q, idx, false; split_and!; [done | done | done | done | done | done | | done | done |];
    [intros i Hi Hin; destruct (half_inv i idx Hin); pose proof (Nat.mod_upper_bound (elements q) 2); lia
    | intros Hne; destruct first; [done | tauto]].
  destruct (child_ok q idx Hd ltac:(lia) Hlen) as (next & -> & Hhalf & Hnext & Hmin). obind. rewrite at_r by lia. obind.
  destruct (first && bool_decide (compare (r q next) e * max_at_top q >= 0)) eqn:Hfe.
  - apply andb_true_iff in Hfe as [-> Hc%bool_decide_eq_true]. subst idx.
    destruct (fill_ok q s e C) as (q' & -> & Hfr & Hr & Hcont & Hpos); [lia | lia | done |]. obind. pose proof Hfr as [F1 F2 F3 F4 F5 F6].
    exists q', s, true. split_and!; [done | done | intros j Hj Hne; by rewrite Hr, decide_False | | done | done | by rewrite Hr, decide_True].
    intros i Hi Hsi. rewrite F2 in Hi. rewrite F6, !Hr. destruct (decide (i = s)) as [-> |]; [pose proof (half_lt s Hs); lia |].
    case_decide as His; [| by apply Hrest]. eapply before_trans; [done | done | | by apply Hmin]. by apply before_flip.
  - destruct (move_ok q idx next e C) as (q1 & -> & Hfr & Hr & Hholes1); [lia | lia | lia | lia | done |]. obind. pose proof Hfr as [F1 F2 F3 F4 F5 F6].
    assert (∀ i, i ≠ idx → r q1 i = r q i) as Hother by (intros i Hi; rewrite Hr; by rewrite decide_False).
    assert (r q1 idx = r q next) as Hidx1 by (rewrite Hr; by rewrite decide_True).
    destruct (IH next false q1) as (q2 & idx2 & dn & -> & Hfr2 & Hframe2 & Hres).
    + by rewrite F6.
    + rewrite F2. lia.
    + lia.
    + rewrite F2. lia.
    + lia.
    + apply below_child. by rewrite Hhalf.
    + split; [lia |]. rewrite F6. destruct first.
      * subst idx. rewrite Hidx1. cbn [andb] in Hfe. apply bool_decide_eq_false in Hfe. apply lt_before; [done | lia].
      * destruct Hfirst as [Hne Hbe]. by rewrite Hother.
    + intros i Hi Hsi Hn1 Hn2. rewrite F2 in Hi. rewrite F6. destruct (decide (i = idx)) as [-> | Hne].
      * rewrite Hidx1, Hother by (pose proof (half_lt idx H1); lia). by apply Haround; [lia | |].
      * rewrite (Hother i) by done. destruct (decide (i / 2 = idx)%nat) as [Heq |].
        -- rewrite Heq, Hidx1. by apply Hmin.
        -- rewrite Hother by done. by apply Hrest.
    + intros i Hi Hin Hsn. rewrite F2 in Hi. rewrite F6, Hhalf, Hidx1. rewrite (Hother i) by (destruct (half_inv i next Hin); lia).
      rewrite <- Hin at 1. apply Hrest; [done | lia | | lia]. destruct (half_inv i next Hin); lia.
    + done.
    + exists q2, idx2, dn. split_and!; [done | by etrans | | by rewrite F2 in Hres].
      intros j Hj Hne. rewrite Hframe2 by done. apply Hother. intros ->.
      destruct (below_inv s idx Hb) as [? | Hb2%below_ge]; [done | lia | done].
Qed.

(** [_downheap]: the subtree of [s] becomes a heap, the rest of the array stays. *)
Lemma downheap_ok C s e q :
  direction (max_at_top q) → (1 ≤ s ≤ elements q)%nat → (elements q < length (root q))%nat →
  rest_ok q s s → holes q s e C →
  ∃ q', downheap compare q s e = Ret q' ∧ frame q q' ∧ heap_from s q' ∧ contents q' ≡ₚ C ∧ positions_ok q' ∧
    ∀ j, (j / 2 < s)%nat → j ≠ s → r q' j = r q j.
Proof.
  intros Hd Hs Hlen Hrest Hholes. pose proof (half_lt s ltac:(lia)) as Hhalf. unfold downheap.
  destruct (sift_down_ok C s e ltac:(lia) (elements q) s true q) as (q1 & i1 & fin & -> & Hfr1 & Hframe1 & Hres);
    [done | lia | lia | lia | done | constructor | done | done | | done |].
  { intros i Hi Hin Hss. lia. }
  obind. destruct fin.
  { destruct Hres as (Hheap & Hcont & Hpos & _). by exists q1. }
  destruct Hres as (Hi1 & Hb1 & Hrest1 & Hbelow1 & Haround1 & Hholes1 & Hse). pose proof (below_ge s i1 ltac:(lia) Hb1) as Hge.
  pose proof Hfr1 as [F1 F2 F3 F4 F5 F6].
  destruct (sift_up_ok C s s e ltac:(lia) ltac:(lia) i1 i1 q1) as (q2 & i2 & -> & Hfr2 & Hi2 & Hrest2 & Hbelow2 & Hholes2 & Hstop2 & Hpath2 & Hframe2);
    [by rewrite F6 | lia | lia | lia | done | done | done | done |].
  obind. pose proof Hfr2 as [G1 G2 G3 G4 G5 G6].
  destruct (fill_ok q2 i2 e C) as (q3 & -> & Hfr3 & Hr3 & Hcont3 & Hpos3); [lia | lia | done |]. pose proof Hfr3 as [K1 K2 K3 K4 K5 K6].
  exists q3. split_and!; [done | etrans; [exact Hfr1 | by etrans] | | done | done |].
  - intros i Hi Hsi. rewrite K2 in Hi. rewrite K6, !Hr3. destruct (decide (i = i2)) as [-> | Hne].
    + rewrite decide_False by (pose proof (half_lt i2 ltac:(lia)); lia). destruct (decide (s < i2 / 2)%nat) as [Hlt | Hle]; [by apply Hstop2 |].
      assert ((i2 / 2)%nat = s) as -> by lia. rewrite Hframe2, G6 by lia. apply Hse. intros ->. pose proof (half_lt i2 ltac:(lia)). lia.
    + case_decide as Hi2'; [by apply Hbelow2 | by apply Hrest2].
  - intros j Hj Hne. rewrite Hr3. destruct (decide (j = i2)) as [-> | Hne2].
    + destruct (below_inv s i2 (Hpath2 s ltac:(lia) Hb1)) as [? | Hb2%below_ge]; [done | lia | lia].
    + rewrite Hframe2 by lia. by apply Hframe1.
Qed.

End loops.

(** ** The operations *)

(** A queue between two operations. *)
Record queue_ok (compare : nat → nat → Z) (q : QUEUE) : Prop := {
  qo_dir : direction (max_at_top q);
  qo_len : length (root q) = S (max_elements q);
  qo_size : (elements q ≤ max_elements q)%nat;
  qo_heap : heap_from compare 1 q;
  qo_nodup : has_pos q = true → NoDup (contents q);
  qo_pos : positions_ok q
}.

Lemma filled_same q i : (1 ≤ i ≤ elements q)%nat → (elements q < length (root q))%nat → filled q i (r q i) = contents q.
Proof. intros Hi Hlen. unfold filled, contents. rewrite list_insert_id; [done |]. apply r_lookup. lia. Qed.

Lemma holes_same q i : (1 ≤ i ≤ elements q)%nat → (elements q < length (root q))%nat → positions_ok q → holes q i (r q i) (contents q).
Proof. intros Hi Hlen Hpos. split; [by rewrite filled_same |]. intros Hp Hnd j Hj _. by apply Hpos. Qed.

Section operations.
Context (compare : nat → nat → Z) `{Hcmp : !Comparison compare}.

Lemma top_least q i : direction (max_at_top q) → heap_from compare 1 q → (1 ≤ i ≤ elements q)%nat → before compare (max_at_top q) (r q 1) (r q i).
Proof.
  intros Hd Hheap. induction (lt_wf i) as [i _ IH]. intros Hi. destruct (decide (i = 1%nat)) as [-> | Hne]; [by apply before_refl |].
  pose proof (half_lt i ltac:(lia)) as Hlt. assert (1 ≤ i / 2)%nat by (apply Nat.div_le_lower_bound; lia).
  eapply before_trans; [done | done | apply (IH (i / 2)%nat); lia | apply Hheap; lia].
Qed.

Lemma contents_lookup q x : (elements q < length (root q))%nat → x ∈ contents q → ∃ i, (1 ≤ i ≤ elements q)%nat ∧ x = r q i.
Proof.
  intros Hlen (k & Hk)%list_elem_of_lookup. unfold contents in Hk. apply lookup_take_Some in Hk as [Hk Hlt]. rewrite lookup_drop in Hk.
  exists (S k). split; [lia |]. symmetry. by apply list_lookup_total_correct.
Qed.

Lemma insert_ok q e :
  queue_ok compare q → (elements q < max_elements q)%nat → (has_pos q = true → e ∉ contents q) →
  ∃ q', queue_insert compare q e = Ret q' ∧ queue_ok compare q' ∧ contents q' ≡ₚ e :: contents q ∧ max_elements q' = max_elements q ∧
    has_pos q' = has_pos q ∧ max_at_top q' = max_at_top q.
Proof.
  intros [Q1 Q2 Q3 Q4 Q5 Q6] Hroom Hfresh. set (n := elements q) in *. set (q0 := with_elements (S n) q).
  assert (filled q0 (S n) e ≡ₚ e :: contents q) as Hfill.
  { unfold filled. cbn [elements q0 with_elements root]. rewrite contents_insert by lia. rewrite Nat.sub_succ, Nat.sub_0_r.
    assert (n < length (drop 1 (root q)))%nat as Hn by (rewrite length_drop; lia).
    rewrite (take_S_r _ n (drop 1 (root q) !!! n)) by (by apply list_lookup_lookup_total_lt).
    replace n with (length (take n (drop 1 (root q))) + 0)%nat at 1 by (rewrite length_take; lia). rewrite insert_app_r.
    unfold contents. fold n. change (<[0%nat := e]> [drop 1 (root q) !!! n]) with [e]. by rewrite Permutation_app_comm. }
  unfold queue_insert. fold n. fold q0.
  destruct (sift_up_ok compare (e :: contents q) 0 1 e ltac:(lia) ltac:(lia) (S n) (S n) q0) as (q1 & i & -> & Hfr & Hi & Hrest & Hbelow & Hholes & Hstop & _ & _).
  - done.
  - lia.
  - cbn. lia.
  - cbn. lia.
  - intros i Hi Hs Hne Hne'. cbn in *. apply Q4; [lia | done].
  - intros i Hi Hin. cbn in Hi. destruct (half_inv i _ Hin); lia.
  - intros i Hi Hin. cbn in Hi. destruct (half_inv i _ Hin); lia.
  - split; [done |]. cbn. intros Hp Hnd i Hi Hne. apply Q6; [done | by apply Q5 | fold n; lia].
  - obind. pose proof Hfr as [F1 F2 F3 F4 F5 F6]. cbn in F1, F2, F3, F4, F6.
    destruct (fill_ok q1 i e (e :: contents q)) as (q2 & -> & Hfr2 & Hr2 & Hcont2 & Hpos2); [lia | lia | done |].
    pose proof Hfr2 as [K1 K2 K3 K4 K5 K6]. exists q2. split_and!; [done | | done | congruence | congruence | congruence].
    split; [by rewrite K6, F6 | lia | lia | | | done].
    + intros j Hj Hs. rewrite K2 in Hj. rewrite K6, !Hr2. destruct (decide (j = i)) as [-> |].
      * rewrite decide_False by (pose proof (half_lt i ltac:(lia)); lia). apply Hstop. lia.
      * case_decide as Hji; [by apply Hbelow | by apply Hrest].
    + intros Hp. rewrite Hcont2. rewrite K4, F4 in Hp. apply NoDup_cons. split; [by apply Hfresh | by apply Q5].
Qed.

(** The top of a queue whose other elements are in order is put in its place. *)
Lemma replace_top_ok q :
  direction (max_at_top q) → length (root q) = S (max_elements q) → (1 ≤ elements q ≤ max_elements q)%nat →
  rest_ok compare q 1 1 → (has_pos q = true → NoDup (contents q)) → positions_ok q →
  ∃ q', queue_replace_top compare q = Ret q' ∧ queue_ok compare q' ∧ contents q' ≡ₚ contents q.
Proof.
  intros Hd Hlen Hn Hrest Hnd Hpos. unfold queue_replace_top. rewrite at_r by lia. obind.
  destruct (downheap_ok compare (contents q) 1 (r q 1) q) as (q' & He & Hfr & Hheap & Hcont & Hpos' & _); [done | lia | lia | done | apply holes_same; (done || lia) |].
  pose proof Hfr as [F1 F2 F3 F4 F5 F6]. exists q'. split_and!; [done | | done]. split; [by rewrite F6 | lia | lia | done | | done].
  rewrite F4, Hcont. done.
Qed.

Lemma fix_loop_ok : ∀ i q,
  direction (max_at_top q) → length (root q) = S (max_elements q) → (elements q ≤ max_elements q)%nat → (i ≤ elements q)%nat →
  heap_from compare (S i) q → positions_ok q →
  ∃ q', fix_loop compare i q = Ret q' ∧ frame q q' ∧ heap_from compare 1 q' ∧ contents q' ≡ₚ contents q ∧ positions_ok q'.
Proof.
  induction i as [| i IH]; intros q Hd Hlen Hn Hi Hheap Hpos; cbn [fix_loop]; [by exists q |].
  rewrite at_r by lia. obind.
  destruct (downheap_ok compare (contents q) (S i) (r q (S i)) q) as (q1 & -> & Hfr & Hheap1 & Hcont & Hpos1 & _);
    [done | lia | lia | | apply holes_same; (done || lia) |].
  { intros j Hj Hs Hne Hne'. apply Hheap; [done | lia]. }
  obind. pose proof Hfr as [F1 F2 F3 F4 F5 F6].
  destruct (IH q1) as (q2 & -> & Hfr2 & Hheap2 & Hcont2 & Hpos2); [by rewrite F6 | lia | lia | lia | done | done |].
  exists q2. split_and!; [done | by etrans | done | by rewrite Hcont2 | done].
Qed.

Lemma fix_ok q :
  direction (max_at_top q) → length (root q) = S (max_elements q) → (elements q ≤ max_elements q)%nat →
  (has_pos q = true → NoDup (contents q)) → positions_ok q →
  ∃ q', queue_fix compare q = Ret q' ∧ queue_ok compare q' ∧ contents q' ≡ₚ contents q.
Proof.
  intros Hd Hlen Hn Hnd Hpos. assert (elements q / 2 ≤ elements q)%nat by (apply Nat.Div0.div_le_upper_bound; lia).
  destruct (fix_loop_ok (elements q / 2) q) as (q' & He & Hfr & Hheap & Hcont & Hpos'); [done | done | done | lia | | done |].
  { intros i Hi Hs. pose proof (Nat.Div0.div_le_mono i (elements q) 2 Hi). lia. }
  pose proof Hfr as [F1 F2 F3 F4 F5 F6]. exists q'. split_and!; [done | | done]. split; [by rewrite F6 | lia | lia | done | by rewrite F4, Hcont | done].
Qed.

(** The array without its top, with the last element in its place. *)
Lemma remove_filled q :
  (2 ≤ elements q)%nat → (elements q < length (root q))%nat →
  contents q ≡ₚ r q 1 :: filled (with_elements (elements q - 1) q) 1 (r q (elements q)).
Proof.
  intros Hn Hlen. unfold contents, filled, r. cbn [elements with_elements root]. set (n := elements q) in *.
  destruct (root q) as [| z [| e t]]; cbn in Hlen; [lia | lia |]. destruct n as [| [| n]]; [lia | lia |].
  change (take (S (S n)) (drop 1 (z :: e :: t))) with (e :: take (S n) t).
  rewrite Nat.sub_succ, Nat.sub_0_r.
  change (take (S n) (drop 1 (<[1%nat := (z :: e :: t) !!! S (S n)]> (z :: e :: t)))) with ((t !!! n) :: take n t).
  change ((z :: e :: t) !!! 1%nat) with e. f_equiv.
  rewrite (take_S_r _ n (t !!! n)) by (apply list_lookup_lookup_total_lt; lia). by rewrite Permutation_app_comm.
Qed.

Lemma remove_top_ok q :
  queue_ok compare q → (1 ≤ elements q)%nat →
  ∃ e q', queue_remove_top compare q = Ret (e, q') ∧ queue_ok compare q' ∧ contents q ≡ₚ e :: contents q' ∧
    (∀ x, x ∈ contents q → before compare (max_at_top q) e x) ∧
    max_elements q' = max_elements q ∧ has_pos q' = has_pos q ∧ max_at_top q' = max_at_top q.
Proof.
  intros Hq Hn. pose proof Hq as [Q1 Q2 Q3 Q4 Q5 Q6]. unfold queue_remove_top, queue_remove. rewrite !at_r by lia. obind.
  assert (∀ x, x ∈ contents q → before compare (max_at_top q) (r q 1) x) as Hleast.
  { intros x (i & Hi & ->)%contents_lookup; [by apply top_least | lia]. }
  set (q0 := with_elements (elements q - 1) q). destruct (decide (elements q = 1%nat)) as [H1 | H1].
  - unfold downheap. unfold q0. rewrite H1. cbn [elements with_elements Nat.sub sift_down]. rewrite decide_False by (cbn; lia). obind.
    cbn [sift_up]. rewrite decide_False by (cbn; lia). obind.
    destruct (place_ok (with_elements 0 q) 1 (r q 1)) as (q' & -> & Hfr & _ & _ & _); [cbn; lia |]. obind.
    pose proof Hfr as [F1 F2 F3 F4 F5 F6]. cbn in F1, F2, F3, F4, F6. exists (r q 1), q'.
    assert (contents q' = []) as Hnil by (unfold contents; by rewrite F2).
    split_and!; [done | | | done | done | done | done].
    + split; [by rewrite F6 | lia | lia | | rewrite Hnil; constructor | intros _ _ i Hi; lia].
      intros i Hi Hs. destruct (half_inv i (i / 2) eq_refl); lia.
    + rewrite Hnil. unfold contents. rewrite H1. unfold r. destruct (root q) as [| z [| e t]]; cbn in Q2; [lia | lia | done].
  - pose proof (remove_filled q ltac:(lia) ltac:(lia)) as Hperm. fold q0 in Hperm.
    destruct (downheap_ok compare (filled q0 1 (r q (elements q))) 1 (r q (elements q)) q0) as (q' & -> & Hfr & Hheap & Hcont & Hpos & _).
    + done.
    + cbn. lia.
    + cbn. lia.
    + intros i Hi Hs _ _. cbn in *. apply Q4; [lia | done].
    + split; [done |]. cbn. intros Hp _ i Hi _. apply Q6; [done | by apply Q5 | lia].
    + obind. pose proof Hfr as [F1 F2 F3 F4 F5 F6]. cbn in F1, F2, F3, F4, F6. exists (r q 1), q'.
      split_and!; [done | | by rewrite Hcont | done | done | done | done].
      split; [by rewrite F6 | lia | lia | done | | done]. rewrite F4, Hcont. intros Hp%Q5. rewrite Hperm in Hp. by apply NoDup_cons in Hp as [_ ?].
Qed.

(** C25: The queue is a priority queue: from any array of elements [queue_fix] makes a heap; on
    a heap [queue_insert] adds the element and [queue_remove_top] removes and returns an element
    that is before all others in the order of the comparison function; after a change of the top
    alone [queue_replace_top] restores the heap.  Each keeps the elements and the bounds of
    the array and, where the queue records them, the positions of all elements. *)
Theorem priority_queue q :
  direction (max_at_top q) → length (root q) = S (max_elements q) → (elements q ≤ max_elements q)%nat →
  (has_pos q = true → NoDup (contents q)) → positions_ok q →
  (∃ q', queue_fix compare q = Ret q' ∧ queue_ok compare q' ∧ contents q' ≡ₚ contents q) ∧
  (heap_from compare 1 q → ∀ e, (elements q < max_elements q)%nat → (has_pos q = true → e ∉ contents q) →
    ∃ q', queue_insert compare q e = Ret q' ∧ queue_ok compare q' ∧ contents q' ≡ₚ e :: contents q) ∧
  (heap_from compare 1 q → (1 ≤ elements q)%nat →
    ∃ e q', queue_remove_top compare q = Ret (e, q') ∧ queue_ok compare q' ∧ contents q ≡ₚ e :: contents q' ∧
      ∀ x, x ∈ contents q → before compare (max_at_top q) e x) ∧
  (rest_ok compare q 1 1 → (1 ≤ elements q)%nat →
    ∃ q', queue_replace_top compare q = Ret q' ∧ queue_ok compare q' ∧ contents q' ≡ₚ contents q).
Proof.
  intros Hd Hlen Hn Hnd Hpos. split_and!.
  - by apply fix_ok.
  - intros Hheap e Hroom Hfresh. destruct (insert_ok q e) as (q' & ? & ? & ? & _); [by split | done | done |]. by exists q'.
  - intros Hheap H1. destruct (remove_top_ok q) as (e & q' & ? & ? & ? & ? & _); [by split | done |]. by exists e, q'.
  - intros Hrest H1. by apply replace_top_ok.
Qed.

End operations.

(** Elements that are compared by their numbers. *)
Definition by_number (x y : nat) : Z := Z.of_nat x - Z.of_nat y.

#[global] Instance by_number_comparison : Comparison by_number.
Proof. split; intros; unfold by_number in *; lia. Qed.

(** The queue [q] is built with [queue_insert], in this order. *)
Fixpoint insert_all (xs : list nat) (q : QUEUE) : outcome QUEUE :=
  match xs with
  | [] => Ret q
  | x :: xs => q ← queue_insert by_number q x; insert_all xs q
  end.

Fixpoint remove_all (n : nat) (q : QUEUE) : outcome (list nat) :=
  match n with
  | O => Ret []
  | S n => '(x, q) ← queue_remove_top by_number q; xs ← remove_all n q; Ret (x :: xs)
  end.

Lemma priority_queue_witness :
  let q := mkQUEUE [0; 5; 3; 4; 1; 0]%nat 4 5 true 0 1 {[ 5 := 1; 3 := 2; 4 := 3; 1 := 4 ]}%nat in
  contents q = [5; 3; 4; 1]%nat ∧ ∃ q', queue_fix by_number q = Ret q' ∧ queue_ok by_number q' ∧ contents q' ≡ₚ contents q.
Proof.
  intros q. split; [reflexivity |].
  refine (proj1 (priority_queue by_number q _ _ _ _ _)); [by left | done | cbn; lia | |].
  - intros _. repeat constructor; set_solver.
  - intros _ _ i Hi. cbn in Hi. destruct i as [| [| [| [| [| i]]]]]; [lia | reflexivity | reflexivity | reflexivity | reflexivity | lia].
Defined.

(** [queue_remove] of an element in the middle can destroy the order: the last element takes
    its place even if it belongs above the parent, and later removals of the top return
    elements in the wrong order. *)
Theorem queue_remove_breaks_order :
  ∃ q q', insert_all [1; 10; 2; 11; 12; 20; 4]%nat (init_queue 7 false 0 0) = Ret q ∧
    queue_remove by_number q 4 = Ret (11%nat, q') ∧ ¬ heap_from by_number 1 q' ∧
    remove_all 7 q = Ret [1; 2; 4; 10; 11; 12; 20]%nat ∧ remove_all 6 q' = Ret [1; 2; 10; 4; 12; 20]%nat.
Proof.
  eexists _, _. split; [vm_compute; reflexivity |]. split; [vm_compute; reflexivity |]. split_and!; [| vm_compute; reflexivity | vm_compute; reflexivity].
  intros Hheap. specialize (Hheap 4%nat ltac:(cbn; lia) ltac:(cbn; lia)). vm_compute in Hheap. by apply Hheap.
Qed.
