(* ===== verification/Tree.v ===== *)
(** * Red-black trees (src/project4/mariadb/server/mysys/tree.c, include/my_tree.h)

    Balanced trees of elements in memory.  A pointer is NULL, the address of the element
    [null_element] that stands for every empty subtree, or the address of an allocated element; the
    entries of the array [parents] are addresses of links.  Where the code has two mirror-image
    branches, one definition takes the direction.  The key of an element and its count are kept apart from its
    links and colour; whether the key lies in the element or is pointed to is left open.
    Memory comes from [alloc], which is NULL or a free address.  [tree_record_pos], which computes
    with floating-point numbers, is left out. *)

From S2P Require Import Prelude.

Inductive colour := RED | BLACK.
#[global] Instance colour_eq_dec : EqDecision colour.
Proof. solve_decision. Defined.

Inductive ptr := NULL | Nil | Elem (n : nat).
#[global] Instance ptr_eq_dec : EqDecision ptr.
Proof. solve_decision. Defined.

(** The direction of a link: [left] or [right]. *)
Inductive dir := L | R.
#[global] Instance dir_eq_dec : EqDecision dir.
Proof. solve_decision. Defined.

Definition flip (d : dir) : dir := match d with L => R | R => L end.

(** The links and the colour of a [TREE_ELEMENT]. *)
Record TREE_ELEMENT := mkElement { e_left : ptr; e_right : ptr; e_colour : colour }.

(** [ELEMENT_CHILD] *)
Definition child_of (d : dir) (e : TREE_ELEMENT) : ptr := match d with L => e_left e | R => e_right e end.
Definition set_link (d : dir) (p : ptr) (e : TREE_ELEMENT) : TREE_ELEMENT :=
  match d with L => mkElement p (e_right e) (e_colour e) | R => mkElement (e_left e) p (e_colour e) end.
Definition paint (c : colour) (e : TREE_ELEMENT) : TREE_ELEMENT := mkElement (e_left e) (e_right e) c.

(** A [TREE_ELEMENT**]: the address of the root or of a link of an element. *)
Inductive slot := SRoot | SLink (d : dir) (p : ptr).

(** A call of the function [tree->free]. *)
Inductive free_call (K : Type) := FreeInit | FreeKey (k : K) | FreeEnd.
Arguments FreeInit {K}.
Arguments FreeKey {K} k.
Arguments FreeEnd {K}.

(** [TREE]; [freed] are the calls of the function [free] so far. *)
Record TREE (K : Type) := mkTREE {
  root : ptr;
  null_element : TREE_ELEMENT;
  links : gmap nat TREE_ELEMENT;
  payload : gmap nat (K * Z);
  elements_in_tree : Z;
  size_of_element : Z;
  memory_limit : Z;
  allocated : Z;
  with_delete : bool;
  has_free : bool;
  flag : Z;
  freed : list (free_call K)
}.
Arguments mkTREE {K}.
Arguments root {K} t.
Arguments null_element {K} t.
Arguments links {K} t.
Arguments payload {K} t.
Arguments elements_in_tree {K} t.
Arguments size_of_element {K} t.
Arguments memory_limit {K} t.
Arguments allocated {K} t.
Arguments with_delete {K} t.
Arguments has_free {K} t.
Arguments flag {K} t.
Arguments freed {K} t.

Definition TREE_NO_DUPS : Z := 1.
Definition TREE_ONLY_DUPS : Z := 2.
Definition MAX_TREE_HEIGHT : nat := 64.
Definition sizeof_TREE_ELEMENT : Z := 24.
Definition sizeof_pointer : Z := 8.

Section tree.
Context {K : Type} (compare : K → K → Z).
Implicit Types (t : TREE K) (p : ptr) (ps : list slot).

Definition with_root p t : TREE K :=
  mkTREE p (null_element t) (links t) (payload t) (elements_in_tree t) (size_of_element t) (memory_limit t) (allocated t)
    (with_delete t) (has_free t) (flag t) (freed t).
Definition with_null (e : TREE_ELEMENT) t : TREE K :=
  mkTREE (root t) e (links t) (payload t) (elements_in_tree t) (size_of_element t) (memory_limit t) (allocated t)
    (with_delete t) (has_free t) (flag t) (freed t).
Definition with_links (h : gmap nat TREE_ELEMENT) t : TREE K :=
  mkTREE (root t) (null_element t) h (payload t) (elements_in_tree t) (size_of_element t) (memory_limit t) (allocated t)
    (with_delete t) (has_free t) (flag t) (freed t).
Definition with_payload (d : gmap nat (K * Z)) t : TREE K :=
  mkTREE (root t) (null_element t) (links t) d (elements_in_tree t) (size_of_element t) (memory_limit t) (allocated t)
    (with_delete t) (has_free t) (flag t) (freed t).
Definition with_counts (n a : Z) t : TREE K :=
  mkTREE (root t) (null_element t) (links t) (payload t) n (size_of_element t) (memory_limit t) a
    (with_delete t) (has_free t) (flag t) (freed t).
Definition call_free (c : free_call K) t : TREE K :=
  mkTREE (root t) (null_element t) (links t) (payload t) (elements_in_tree t) (size_of_element t) (memory_limit t) (allocated t)
    (with_delete t) (has_free t) (flag t) (freed t ++ [c]).

(** ** Memory *)

Definition load t p : outcome TREE_ELEMENT :=
  match p with
  | NULL => UB
  | Nil => Ret (null_element t)
  | Elem n => of_option (links t !! n)
  end.

Definition store t p (f : TREE_ELEMENT → TREE_ELEMENT) : outcome (TREE K) :=
  e ← load t p;
  match p with
  | NULL => UB
  | Nil => Ret (with_null (f e) t)
  | Elem n => Ret (with_links (<[n := f e]> (links t)) t)
  end.

Definition read_slot t (s : slot) : outcome ptr :=
  match s with
  | SRoot => Ret (root t)
  | SLink d p => e ← load t p; Ret (child_of d e)
  end.

Definition write_slot t (s : slot) p : outcome (TREE K) :=
  match s with
  | SRoot => Ret (with_root p t)
  | SLink d q => store t q (set_link d p)
  end.

(** [*++parent= s]; the list is the array [parents] up to [parent], the last entry first. *)
Definition push (s : slot) ps : outcome (list slot) :=
  if decide (length ps < MAX_TREE_HEIGHT)%nat then Ret (s :: ps) else UB.

Definition ELEMENT_KEY t p : outcome K :=
  match p with Elem n => '(k, _) ← of_option (payload t !! n); Ret k | _ => UB end.

Definition my_free p t : outcome (TREE K) :=
  match p with
  | Elem n => _ ← of_option (links t !! n); Ret (with_payload (delete n (payload t)) (with_links (delete n (links t)) t))
  | _ => UB
  end.

(** ** Creation and deletion of trees *)

Definition init_tree (limit size : Z) (free_element delete : bool) : TREE K :=
  let in_element := negb free_element && bool_decide (0 ≤ size) && (bool_decide (size ≤ sizeof_pointer) || bool_decide (Z.land size 7 ≠ 0)) in
  mkTREE Nil (mkElement NULL NULL BLACK) ∅ ∅ 0
    ((if bool_decide (0 < size) then size else 0) + (if in_element then 0 else sizeof_pointer)) limit 0 delete free_element 0 [].

Fixpoint delete_tree_element (fuel : nat) t (element : ptr) : outcome (TREE K) :=
  if decide (element = Nil) then Ret t
  else
    match fuel with
    | O => NoFuel
    | S fuel =>
        e ← load t element;
        t ← delete_tree_element fuel t (e_left e);
        t ← (if has_free t then k ← ELEMENT_KEY t element; Ret (call_free (FreeKey k) t) else Ret t);
        e ← load t element;
        t ← delete_tree_element fuel t (e_right e);
        if with_delete t then my_free element t else Ret t
    end.

(** [free_root] releases all elements that were not allocated one by one. *)
Definition free_root t : TREE K := with_payload ∅ (with_links ∅ t).

Definition free_tree t : outcome (TREE K) :=
  let fuel := S (size (links t)) in
  t ← (if decide (root t = NULL) then Ret t
       else if with_delete t then delete_tree_element fuel t (root t)
       else
         t ← (if has_free t then
                let t := if bool_decide (memory_limit t ≠ 0) then call_free FreeInit t else t in
                t ← delete_tree_element fuel t (root t);
                Ret (if bool_decide (memory_limit t ≠ 0) then call_free FreeEnd t else t)
              else Ret t);
         Ret (free_root t));
  Ret (with_counts 0 0 (with_root Nil t)).

(** [delete_tree] and [reset_tree] differ in what happens to the memory of the allocator. *)
Definition delete_tree t : outcome (TREE K) := free_tree t.
Definition reset_tree t : outcome (TREE K) := free_tree t.

(** ** Rotations *)

(** [left_rotate] is the rotation in the direction [L], [right_rotate] the one in the direction [R]. *)
Definition rotate (d : dir) t (parent : slot) (leaf : ptr) : outcome (TREE K) :=
  e ← load t leaf;
  let y := child_of (flip d) e in
  ey ← load t y;
  t ← store t leaf (set_link (flip d) (child_of d ey));
  t ← write_slot t parent y;
  store t y (set_link d leaf).

Definition left_rotate := rotate L.
Definition right_rotate := rotate R.

(** ** Insertion *)

(** One turn of the loop of [rb_insert], in the branch where [par] is the child of [par2] in
    the direction [d]; [inr] says that the loop ends. *)
Definition rb_insert_turn (d : dir) t ps (leaf par par2 : ptr) (s1 s2 : slot) : outcome (TREE K * list slot * ptr + TREE K) :=
  epar2 ← load t par2;
  let y := child_of (flip d) epar2 in
  ey ← load t y;
  if decide (e_colour ey = RED) then
    t ← store t par (paint BLACK);
    t ← store t y (paint BLACK);
    t ← store t par2 (paint RED);
    Ret (inl (t, drop 2 ps, par2))
  else
    epar ← load t par;
    '(t, par) ← (if decide (leaf = child_of (flip d) epar) then t ← rotate d t s1 par; Ret (t, leaf) else Ret (t, par));
    t ← store t par (paint BLACK);
    t ← store t par2 (paint RED);
    t ← rotate (flip d) t s2 par2;
    Ret (inr t).

Fixpoint rb_insert_loop (fuel : nat) t ps (leaf : ptr) : outcome (TREE K) :=
  if decide (leaf = root t) then Ret t
  else
    s1 ← of_option (ps !! 1%nat);
    par ← read_slot t s1;
    epar ← load t par;
    if decide (e_colour epar = RED) then
      match fuel with
      | O => NoFuel
      | S fuel =>
          s2 ← of_option (ps !! 2%nat);
          par2 ← read_slot t s2;
          epar2 ← load t par2;
          r ← rb_insert_turn (if decide (par = e_left epar2) then L else R) t ps leaf par par2 s1 s2;
          match r with
          | inl (t, ps, leaf) => rb_insert_loop fuel t ps leaf
          | inr t => Ret t
          end
      end
    else Ret t.

Definition rb_insert t ps (leaf : ptr) : outcome (TREE K) :=
  t ← store t leaf (paint RED);
  t ← rb_insert_loop (length ps) t ps leaf;
  store t (root t) (paint BLACK).

(** The loop of [tree_insert] and of [tree_delete] that looks for the key: the element or
    [null_element], and the array [parents]. *)
Fixpoint descend (fuel : nat) t (key : K) (element : ptr) ps : outcome (ptr * list slot) :=
  if decide (element = Nil) then Ret (element, ps)
  else
    k ← ELEMENT_KEY t element;
    let cmp := compare k key in
    if decide (cmp = 0) then Ret (element, ps)
    else
      match fuel with
      | O => NoFuel
      | S fuel =>
          e ← load t element;
          let d := if decide (cmp < 0) then R else L in
          ps ← push (SLink d element) ps;
          descend fuel t key (child_of d e) ps
      end.

(** The result of [tree_insert]: NULL, the address 1, or an element. *)
Inductive insert_result := Failed | Unique | Inserted (n : nat).

Definition u32_size (z : Z) : Z := z mod 2 ^ 32.
Definition u64_size (z : Z) : Z := z mod 2 ^ 64.

(** The new element at the end of the path. *)
Definition add_element t ps (key : K) (n : nat) : outcome (TREE K) :=
  parent ← of_option (head ps);
  t ← write_slot t parent (Elem n);
  let t := with_payload (<[n := (key, 1)]> (payload t)) (with_links (<[n := mkElement Nil Nil RED]> (links t)) t) in
  let t := with_counts (u32_size (elements_in_tree t + 1)) (allocated t) t in
  rb_insert t ps (Elem n).

(** [alloc] is the result of the allocation.  After [reset_tree] the tree is empty, so the
    function calls itself at most once. *)
Fixpoint tree_insert (calls : nat) t (key : K) (key_size : Z) (alloc : option nat) : outcome (insert_result * TREE K) :=
  '(element, ps) ← descend (size (links t)) t key (root t) [SRoot];
  match element with
  | Elem n =>
      if bool_decide (Z.land (flag t) TREE_NO_DUPS ≠ 0) then Ret (Failed, t)
      else
        '(k, count) ← of_option (payload t !! n);
        let count := (count + 1) mod 2 ^ 31 in
        let count := if bool_decide (count = 0) then (count - 1) mod 2 ^ 31 else count in
        Ret (Inserted n, with_payload (<[n := (k, count)]> (payload t)) t)
  | _ =>
      if bool_decide (Z.land (flag t) TREE_ONLY_DUPS ≠ 0) then Ret (Unique, t)
      else
        let alloc_size := u32_size (sizeof_TREE_ELEMENT + key_size + size_of_element t) in
        let t := with_counts (elements_in_tree t) (u64_size (allocated t + alloc_size)) t in
        if bool_decide (memory_limit t ≠ 0) && bool_decide (elements_in_tree t ≠ 0) && bool_decide (allocated t > memory_limit t) then
          match calls with
          | O => NoFuel
          | S calls => t ← reset_tree t; tree_insert calls t key key_size alloc
          end
        else
          match alloc with
          | None => Ret (Failed, t)
          | Some n => t ← add_element t ps key n; Ret (Inserted n, t)
          end
  end.

(** ** Deletion *)

(** The rest of a turn of [rb_delete_fixup], with the black sibling [w]; [inr] is the tree and the new
    [x] when the loop ends. *)
Definition rb_delete_black (d : dir) t ps (par w : ptr) (s1 : slot) : outcome (TREE K * list slot * ptr + TREE K * ptr) :=
  ew ← load t w;
  near ← load t (child_of d ew);
  far ← load t (child_of (flip d) ew);
  if decide (e_colour near = BLACK ∧ e_colour far = BLACK) then
    t ← store t w (paint RED);
    Ret (inl (t, drop 1 ps, par))
  else
    '(t, w) ← (if decide (e_colour far = BLACK) then
        t ← store t (child_of d ew) (paint BLACK);
        t ← store t w (paint RED);
        t ← rotate (flip d) t (SLink (flip d) par) w;
        epar ← load t par;
        Ret (t, child_of (flip d) epar)
      else Ret (t, w));
    epar ← load t par;
    t ← store t w (paint (e_colour epar));
    t ← store t par (paint BLACK);
    ew ← load t w;
    t ← store t (child_of (flip d) ew) (paint BLACK);
    t ← rotate d t s1 par;
    Ret (inr (t, root t)).

(** One turn of the loop of [rb_delete_fixup] with [x] the child of [par] in the direction [d]. *)
Definition rb_delete_turn (d : dir) t ps (par : ptr) (s1 : slot) : outcome (TREE K * list slot * ptr + TREE K * ptr) :=
  epar ← load t par;
  let w := child_of (flip d) epar in
  ew ← load t w;
  if decide (e_colour ew = RED) then
    t ← store t w (paint BLACK);
    t ← store t par (paint RED);
    t ← rotate d t s1 par;
    ps ← push (SLink d par) (SLink d w :: drop 1 ps);
    epar ← load t par;
    rb_delete_black d t ps par (child_of (flip d) epar) (SLink d w)
  else rb_delete_black d t ps par w s1.

Fixpoint rb_delete_loop (fuel : nat) t ps (x : ptr) : outcome (TREE K * ptr) :=
  if decide (x = root t) then Ret (t, x)
  else
    ex ← load t x;
    if decide (e_colour ex = BLACK) then
      match fuel with
      | O => NoFuel
      | S fuel =>
          s1 ← of_option (ps !! 1%nat);
          par ← read_slot t s1;
          epar ← load t par;
          r ← rb_delete_turn (if decide (x = e_left epar) then L else R) t ps par s1;
          match r with
          | inl (t, ps, x) => rb_delete_loop fuel t ps x
          | inr (t, x) => Ret (t, x)
          end
      end
    else Ret (t, x).

Definition rb_delete_fixup t ps : outcome (TREE K) :=
  s ← of_option (head ps);
  x ← read_slot t s;
  '(t, x) ← rb_delete_loop (S (length ps)) t ps x;
  store t x (paint BLACK).

(** The loop of [tree_delete] to the leftmost element below [nod]. *)
Fixpoint leftmost (fuel : nat) t (nod : ptr) ps : outcome (ptr * list slot) :=
  e ← load t nod;
  if decide (e_left e = Nil) then Ret (nod, ps)
  else
    match fuel with
    | O => NoFuel
    | S fuel => ps ← push (SLink L nod) ps; leftmost fuel t (e_left e) ps
    end.

(** Takes [element] out of the tree: the array [parents] and the colour that was removed. *)
Definition unlink t (element : ptr) ps : outcome (TREE K * list slot * colour) :=
  parent ← of_option (head ps);
  e ← load t element;
  if decide (e_left e = Nil) then t ← write_slot t parent (e_right e); Ret (t, ps, e_colour e)
  else if decide (e_right e = Nil) then t ← write_slot t parent (e_left e); Ret (t, ps, e_colour e)
  else
    let org := length ps in
    ps ← push (SLink R element) ps;
    '(nod, ps) ← leftmost (size (links t)) t (e_right e) ps;
    enod ← load t nod;
    last ← of_option (head ps);
    t ← write_slot t last (e_right enod);
    t ← write_slot t parent nod;
    let ps := <[(length ps - S org)%nat := SLink R nod]> ps in
    e ← load t element;
    t ← store t nod (λ _, e);
    Ret (t, ps, e_colour enod).

(** The result is 1 when nothing is deleted. *)
Definition tree_delete t (key : K) (key_size : Z) : outcome (Z * TREE K) :=
  if negb (with_delete t) then Ret (1, t)
  else
    '(element, ps) ← descend (size (links t)) t key (root t) [SRoot];
    if decide (element = Nil) then Ret (1, t)
    else
      '(t, ps, remove_colour) ← unlink t element ps;
      t ← (if decide (remove_colour = BLACK) then rb_delete_fixup t ps else Ret t);
      t ← (if has_free t then k ← ELEMENT_KEY t element; Ret (call_free (FreeKey k) t) else Ret t);
      let t := with_counts (elements_in_tree t) (u64_size (allocated t - (sizeof_TREE_ELEMENT + size_of_element t + key_size))) t in
      t ← my_free element t;
      Ret (0, with_counts (u32_size (elements_in_tree t - 1)) (allocated t) t).

(** ** Search *)

Fixpoint search_loop (fuel : nat) t (key : K) (element : ptr) : outcome (option K) :=
  if decide (element = Nil) then Ret None
  else
    k ← ELEMENT_KEY t element;
    let cmp := compare k key in
    if decide (cmp = 0) then Ret (Some k)
    else
      match fuel with
      | O => NoFuel
      | S fuel => e ← load t element; search_loop fuel t key (if decide (cmp < 0) then e_right e else e_left e)
      end.

Definition tree_search t (key : K) : outcome (option K) := search_loop (size (links t)) t key (root t).

(** [enum ha_rkey_function] *)
Inductive ha_rkey_function :=
| HA_READ_KEY_EXACT | HA_READ_KEY_OR_NEXT | HA_READ_KEY_OR_PREV | HA_READ_AFTER_KEY | HA_READ_BEFORE_KEY
| HA_READ_PREFIX | HA_READ_PREFIX_LAST | HA_READ_PREFIX_LAST_OR_PREV
| HA_READ_MBR_CONTAIN | HA_READ_MBR_INTERSECT | HA_READ_MBR_WITHIN | HA_READ_MBR_DISJOINT | HA_READ_MBR_EQUAL.

(** The array [parents] of the caller has [MAX_TREE_HEIGHT+1] entries; again the last is first.  A
    pointer into the array is the part of the array up to the entry. *)
Definition push_parent (p : ptr) (ps : list ptr) : outcome (list ptr) :=
  if decide (length ps < S MAX_TREE_HEIGHT)%nat then Ret (p :: ps) else UB.

(** What [flag] does with an element equal to the key: whether it is remembered, and where to
    go on. *)
Definition on_equal (flag : ha_rkey_function) : option (bool * dir) :=
  match flag with
  | HA_READ_KEY_EXACT | HA_READ_KEY_OR_NEXT | HA_READ_BEFORE_KEY | HA_READ_KEY_OR_PREV => Some (true, L)
  | HA_READ_AFTER_KEY => Some (false, R)
  | HA_READ_PREFIX_LAST | HA_READ_PREFIX_LAST_OR_PREV => Some (true, R)
  | _ => None
  end.

(** [last_left_step_parent], [last_right_step_parent] and [last_equal_element] *)
Record last_steps := mkLast { last_left : option (list ptr); last_right : option (list ptr); last_equal : option (list ptr) }.

(** The step from the position [ps] in the direction [d]. *)
Definition note (remember : bool) (d : dir) (ps : list ptr) (last : last_steps) : last_steps :=
  let equal := if remember then Some ps else last_equal last in
  match d with
  | R => mkLast (last_left last) (Some ps) equal
  | L => mkLast (Some ps) (last_right last) equal
  end.

(** The loop of [tree_search_key]; [None] when it returns NULL. *)
Fixpoint key_loop (fuel : nat) t (key : K) (flag : ha_rkey_function) (element : ptr) (ps : list ptr) (last : last_steps) : outcome (option last_steps) :=
  if decide (element = Nil) then Ret (Some last)
  else
    match fuel with
    | O => NoFuel
    | S fuel =>
        ps ← push_parent element ps;
        k ← ELEMENT_KEY t element;
        let cmp := compare k key in
        let step := if decide (cmp = 0) then on_equal flag else Some (false, if decide (cmp < 0) then R else L) in
        match step with
        | None => Ret None
        | Some (remember, d) =>
            e ← load t element;
            key_loop fuel t key flag (child_of d e) ps (note remember d ps last)
        end
    end.

Definition or_else {A} (a b : option A) : option A := match a with Some _ => a | None => b end.

(** The result is [*last_pos]; [None] stands for NULL. *)
Definition tree_search_key t (key : K) (flag : ha_rkey_function) : outcome (option (K * list ptr)) :=
  last ← key_loop (size (links t)) t key flag (root t) [Nil] (mkLast None None None);
  match last with
  | None => Ret None
  | Some last =>
      let last_pos :=
        match flag with
        | HA_READ_KEY_EXACT | HA_READ_PREFIX_LAST => last_equal last
        | HA_READ_KEY_OR_NEXT => or_else (last_equal last) (last_left last)
        | HA_READ_AFTER_KEY => last_left last
        | HA_READ_PREFIX_LAST_OR_PREV | HA_READ_KEY_OR_PREV => or_else (last_equal last) (last_right last)
        | HA_READ_BEFORE_KEY => last_right last
        | _ => None
        end in
      match last_pos with
      | None => Ret None
      | Some pos => x ← of_option (head pos); k ← ELEMENT_KEY t x; Ret (Some (k, pos))
      end
  end.

(** The loop of [tree_search_edge], and of [tree_search_next] below a child. *)
Fixpoint edge_loop (fuel : nat) t (d : dir) (x : ptr) (ps : list ptr) : outcome (list ptr) :=
  if decide (x = Nil) then Ret ps
  else
    match fuel with
    | O => NoFuel
    | S fuel => ps ← push_parent x ps; e ← load t x; edge_loop fuel t d (child_of d e) ps
    end.

Definition tree_search_edge t (d : dir) : outcome (option K * list ptr) :=
  ps ← edge_loop (size (links t)) t d (root t) [Nil];
  x ← of_option (head ps);
  if decide (x = Nil) then Ret (None, ps) else k ← ELEMENT_KEY t x; Ret (Some k, ps).

(** The second loop of [tree_search_next]: up while [x] is the child in the direction [r]. *)
Fixpoint climb t (r : dir) (x : ptr) (ps : list ptr) : outcome (list ptr) :=
  match ps with
  | [] => UB
  | y :: ps' =>
      if decide (y = Nil) then Ret ps
      else ey ← load t y; if decide (x = child_of r ey) then climb t r y ps' else Ret ps
  end.

(** [l_offs] and [r_offs] as directions. *)
Definition tree_search_next t (last_pos : list ptr) (l r : dir) : outcome (option K * list ptr) :=
  x ← of_option (head last_pos);
  e ← load t x;
  if decide (child_of r e = Nil) then
    pos ← climb t r x (tail last_pos);
    y ← of_option (head pos);
    if decide (y = Nil) then Ret (None, pos) else k ← ELEMENT_KEY t y; Ret (Some k, pos)
  else
    pos ← edge_loop (size (links t)) t l (child_of r e) last_pos;
    y ← of_option (head pos);
    k ← ELEMENT_KEY t y;
    Ret (Some k, pos).

(** ** Walking through a tree *)

(** The two functions of [tree_walk]; [action] gets the key, the count and its own argument, and
    stops the walk with a result other than 0. *)
Fixpoint walk {A} (fuel : nat) t (first : dir) (action : K → Z → A → Z * A) (element : ptr) (arg : A) : outcome (Z * A) :=
  e ← load t element;
  if decide (child_of first e = NULL) then Ret (0, arg)
  else
    match fuel with
    | O => NoFuel
    | S fuel =>
        '(error, arg) ← walk fuel t first action (child_of first e) arg;
        if decide (error = 0) then
          n ← (match element with Elem n => Ret n | _ => UB end);
          '(k, count) ← of_option (payload t !! n);
          let '(error, arg) := action k count arg in
          if decide (error = 0) then walk fuel t first action (child_of (flip first) e) arg else Ret (error, arg)
        else Ret (error, arg)
    end.

Definition tree_walk {A} t (action : K → Z → A → Z * A) (arg : A) (visit : dir) : outcome (Z * A) :=
  walk (S (size (links t))) t visit action (root t) arg.

(** [test_rb_tree], the check of debug builds: the number of black elements on every path, or -1. *)
Fixpoint test_rb_tree (fuel : nat) t (element : ptr) : outcome Z :=
  e ← load t element;
  if decide (e_left e = NULL) then Ret 0
  else
    match fuel with
    | O => NoFuel
    | S fuel =>
        el ← load t (e_left e);
        er ← load t (e_right e);
        if decide (e_colour e = RED ∧ (e_colour el = RED ∨ e_colour er = RED)) then Ret (-1)
        else
          count_l ← test_rb_tree fuel t (e_left e);
          count_r ← test_rb_tree fuel t (e_right e);
          Ret (if decide (0 ≤ count_l ∧ 0 ≤ count_r ∧ count_l = count_r) then count_l + (if decide (e_colour e = BLACK) then 1 else 0) else -1)
    end.

End tree.
