(* ===== verification/TreeRep.v ===== *)
(** * Red-black trees: the tree in memory

    The elements in memory represent a tree ([focus]); a position in it is a subtree and the
    path from there to the root, which is what the array [parents] records.  Painting an element and
    rotating change the represented tree and nothing else ([same]). *)

From S2P Require Import Prelude Tree.

(** ** Trees and paths *)

Inductive ftree := E | N (c : colour) (l : ftree) (n : nat) (r : ftree).

#[global] Instance ftree_eq_dec : EqDecision ftree.
Proof. solve_decision. Defined.

(** The element [n] with the subtree [a] in the direction [d] and [b] in the other. *)
Definition mk (d : dir) (c : colour) (a : ftree) (n : nat) (b : ftree) : ftree :=
  match d with L => N c a n b | R => N c b n a end.

(** The elements in order. *)
Fixpoint elems (t : ftree) : list nat :=
  match t with E => [] | N _ l n r => elems l ++ n :: elems r end.

Definition ptr_of (t : ftree) : ptr := match t with E => Nil | N _ _ n _ => Elem n end.

Definition element (d : dir) (c : colour) (p q : ptr) : TREE_ELEMENT :=
  match d with L => mkElement p q c | R => mkElement q p c end.

Definition node_of (t : ftree) : TREE_ELEMENT :=
  match t with E => mkElement NULL NULL BLACK | N c l _ r => mkElement (ptr_of l) (ptr_of r) c end.

Definition col (t : ftree) : colour := e_colour (node_of t).
Definition recolour (c : colour) (t : ftree) : ftree := match t with E => E | N _ l n r => N c l n r end.

(** A step of a path: the subtree is the child of [f_elem] in the direction [f_dir], with the sibling
    [f_sib]. *)
Record frame := Fr { f_dir : dir; f_col : colour; f_elem : nat; f_sib : ftree }.

Definition plug1 (f : frame) (t : ftree) : ftree := mk (f_dir f) (f_col f) t (f_elem f) (f_sib f).

Fixpoint plug (t : ftree) (path : list frame) : ftree :=
  match path with [] => t | f :: path => plug (plug1 f t) path end.

Definition link_of (f : frame) : slot := SLink (f_dir f) (Elem (f_elem f)).
Definition slot_of (path : list frame) : slot := match path with [] => SRoot | f :: _ => link_of f end.
Definition slots (path : list frame) : list slot := (link_of <$> path) ++ [SRoot].

Fixpoint pelems (path : list frame) : list nat :=
  match path with [] => [] | f :: path => f_elem f :: elems (f_sib f) ++ pelems path end.

Lemma flip_flip d : flip (flip d) = d.
Proof. by destruct d. Qed.

Lemma mk_flip d c a n b : mk (flip d) c b n a = mk d c a n b.
Proof. by destruct d. Qed.

Lemma ptr_of_mk d c a n b : ptr_of (mk d c a n b) = Elem n.
Proof. by destruct d. Qed.

Lemma node_of_mk d c a n b : node_of (mk d c a n b) = element d c (ptr_of a) (ptr_of b).
Proof. by destruct d. Qed.

Lemma col_mk d c a n b : col (mk d c a n b) = c.
Proof. by destruct d. Qed.

Lemma recolour_mk c' d c a n b : recolour c' (mk d c a n b) = mk d c' a n b.
Proof. by destruct d. Qed.

Lemma child_element d c p q : child_of d (element d c p q) = p.
Proof. by destruct d. Qed.

Lemma child_flip d c p q : child_of (flip d) (element d c p q) = q.
Proof. by destruct d. Qed.

Lemma colour_element d c p q : e_colour (element d c p q) = c.
Proof. by destruct d. Qed.

Lemma set_link_element d c p q p' : set_link d p' (element d c p q) = element d c p' q.
Proof. by destruct d. Qed.

Lemma set_link_flip d c p q q' : set_link (flip d) q' (element d c p q) = element d c p q'.
Proof. by destruct d. Qed.

Lemma paint_element d c p q c' : paint c' (element d c p q) = element d c' p q.
Proof. by destruct d. Qed.

Create HintDb tree.
#[export] Hint Rewrite flip_flip ptr_of_mk node_of_mk col_mk recolour_mk child_element child_flip colour_element set_link_element
  set_link_flip paint_element : tree.

Lemma elems_mk d c a n b : elems (mk d c a n b) ≡ₚ n :: elems a ++ elems b.
Proof. destruct d; cbn; [by rewrite <- Permutation_middle |]. rewrite <- Permutation_middle. by rewrite (Permutation_app_comm (elems b)). Qed.

Lemma elems_plug t path : elems (plug t path) ≡ₚ elems t ++ pelems path.
Proof.
  revert t. induction path as [| f path IH]; intros t; cbn; [by rewrite app_nil_r |]. rewrite IH. unfold plug1. rewrite elems_mk. cbn.
  rewrite <- Permutation_middle. by rewrite app_assoc.
Qed.

(** The tree only depends on the order of the elements of the subtree. *)
Lemma elems_plug_eq t t' path : elems t = elems t' → elems (plug t path) = elems (plug t' path).
Proof.
  revert t t'. induction path as [| f path IH]; intros t t' Heq; [done |]. cbn. apply IH. unfold plug1. destruct (f_dir f); cbn; by rewrite Heq.
Qed.

Lemma elems_recolour c t : elems (recolour c t) = elems t.
Proof. by destruct t. Qed.

Lemma ptr_of_recolour c t : ptr_of (recolour c t) = ptr_of t.
Proof. by destruct t. Qed.

Lemma plug_app t p q : plug t (p ++ q) = plug (plug t p) q.
Proof. revert t. induction p as [| f p IH]; intros t; [done |]. cbn. apply IH. Qed.

Lemma pelems_app p q : pelems (p ++ q) = pelems p ++ pelems q.
Proof. induction p as [| f p IH]; [done |]. cbn. by rewrite IH, app_assoc. Qed.

Lemma length_slots path : length (slots path) = S (length path).
Proof. unfold slots. rewrite length_app, length_fmap. cbn. lia. Qed.

Lemma slots_cons f path : slots (f :: path) = link_of f :: slots path.
Proof. done. Qed.

Lemma slots_lookup path : slots path !! 0%nat = Some (slot_of path).
Proof. by destruct path. Qed.

Lemma slots_head path : head (slots path) = Some (slot_of path).
Proof. by destruct path. Qed.

(** ** Representation *)

Implicit Types h : gmap nat TREE_ELEMENT.

Fixpoint holds h (t : ftree) : Prop :=
  match t with
  | E => True
  | N c l n r => h !! n = Some (mkElement (ptr_of l) (ptr_of r) c) ∧ holds h l ∧ holds h r
  end.

(** The elements on the path, when the link at its end is [p]. *)
Fixpoint pholds h (path : list frame) (p : ptr) : Prop :=
  match path with
  | [] => True
  | f :: path => h !! f_elem f = Some (element (f_dir f) (f_col f) p (ptr_of (f_sib f))) ∧ holds h (f_sib f) ∧ pholds h path (Elem (f_elem f))
  end.

(** The root of a tree with the path [path] to a subtree with the address [p]. *)
Fixpoint top (path : list frame) (p : ptr) : ptr :=
  match path with [] => p | f :: path => top path (Elem (f_elem f)) end.

Lemma holds_mk h d c a n b :
  holds h (mk d c a n b) ↔ h !! n = Some (element d c (ptr_of a) (ptr_of b)) ∧ holds h a ∧ holds h b.
Proof. destruct d; cbn; tauto. Qed.

Lemma holds_eq h h' t : (∀ n, n ∈ elems t → h' !! n = h !! n) → holds h t → holds h' t.
Proof.
  induction t as [| c l IHl n r IHr]; [done |]. cbn. intros Heq (Hn & Hl & Hr). split_and!.
  - rewrite Heq; [done | set_solver].
  - apply IHl; [| done]. intros m Hm. apply Heq. set_solver.
  - apply IHr; [| done]. intros m Hm. apply Heq. set_solver.
Qed.

Lemma pholds_eq h h' path p : (∀ n, n ∈ pelems path → h' !! n = h !! n) → pholds h path p → pholds h' path p.
Proof.
  revert p. induction path as [| f path IH]; intros p; [done |]. cbn. intros Heq (Hn & Hs & Hp). split_and!.
  - rewrite Heq; [done | set_solver].
  - eapply holds_eq; [| done]. intros m Hm. apply Heq. set_solver.
  - apply IH; [| done]. intros m Hm. apply Heq. set_solver.
Qed.

Lemma holds_insert h t n e : n ∉ elems t → holds h t → holds (<[n := e]> h) t.
Proof. intros Hn. apply holds_eq. intros m Hm. apply lookup_insert_ne. set_solver. Qed.

Lemma pholds_insert h path p n e : n ∉ pelems path → pholds h path p → pholds (<[n := e]> h) path p.
Proof. intros Hn. apply pholds_eq. intros m Hm. apply lookup_insert_ne. set_solver. Qed.

Section rep.
Context {K : Type}.
Implicit Types T : TREE K.

(** The tree [plug t path] in memory. *)
Record focus T (t : ftree) (path : list frame) : Prop := mkFocus {
  fo_root : root T = top path (ptr_of t);
  fo_holds : holds (links T) t;
  fo_path : pholds (links T) path (ptr_of t);
  fo_nodup : NoDup (elems t ++ pelems path);
  fo_null : null_element T = mkElement NULL NULL BLACK
}.

(** [T'] differs from [T] in its root and in links and colours only. *)
Definition same T T' : Prop := ∃ h r, T' = with_links h (with_root r T) ∧ dom h = dom (links T).

#[global] Instance same_preorder : PreOrder same.
Proof.
  split.
  - intros T. exists (links T), (root T). by destruct T.
  - intros T1 T2 T3 (h & r & -> & Hd) (h' & r' & -> & Hd'). exists h', r'. split; [done |]. cbn in Hd'. congruence.
Qed.

Lemma nodup_mk d c a n b l : NoDup (elems (mk d c a n b) ++ l) ↔ NoDup (n :: elems a ++ elems b ++ l).
Proof. rewrite elems_mk. cbn. by rewrite app_assoc. Qed.

(** Moving up and down in the tree. *)
Lemma focus_up T t f path : focus T t (f :: path) ↔ focus T (plug1 f t) path.
Proof.
  unfold plug1. split.
  - intros [Hr Hh (Hf & Hs & Hp) Hnd Hnull]. cbn in *. split; autorewrite with tree; [done | by rewrite holds_mk | done | | done].
    rewrite nodup_mk. by rewrite (Permutation_middle (elems t)).
  - intros [Hr Hh Hp Hnd Hnull]. autorewrite with tree in *. apply holds_mk in Hh as (Hf & Ht & Hs). apply nodup_mk in Hnd.
    split; cbn; [done | done | done | | done]. by rewrite <- (Permutation_middle (elems t)).
Qed.

Lemma focus_down T d c a n b path : focus T (mk d c a n b) path → focus T a (Fr d c n b :: path).
Proof. intros Hf. by apply focus_up. Qed.

Lemma focus_side T d c a n b path : focus T (mk d c a n b) path → focus T b (Fr (flip d) c n a :: path).
Proof. intros Hf. apply focus_down. by rewrite mk_flip. Qed.

Lemma focus_back T d c a n b path : focus T a (Fr d c n b :: path) → focus T (mk d c a n b) path.
Proof. intros Hf. exact (proj1 (focus_up _ _ _ _) Hf). Qed.

Lemma focus_home T d c a n b path : focus T b (Fr (flip d) c n a :: path) → focus T (mk d c a n b) path.
Proof. intros Hf. apply focus_back in Hf. by rewrite mk_flip in Hf. Qed.

Lemma focus_plug T t path : focus T t path ↔ focus T (plug t path) [].
Proof. revert t. induction path as [| f path IH]; intros t; [done |]. rewrite focus_up, IH. done. Qed.

Lemma focus_app T t q path : focus T t (q ++ path) ↔ focus T (plug t q) path.
Proof. rewrite focus_plug, plug_app, <- focus_plug. done. Qed.

Lemma load_focus T t path : focus T t path → load T (ptr_of t) = Ret (node_of t).
Proof. intros [_ Hh _ _ Hnull]. destruct t as [| c l n r]; cbn; [by rewrite Hnull |]. destruct Hh as (-> & _). done. Qed.

Lemma load_mk T d c a n b path : focus T (mk d c a n b) path → load T (Elem n) = Ret (element d c (ptr_of a) (ptr_of b)).
Proof. intros Hf. apply load_focus in Hf. by autorewrite with tree in Hf. Qed.

Lemma read_focus T t path : focus T t path → read_slot T (slot_of path) = Ret (ptr_of t).
Proof.
  intros [Hr _ Hp _ _]. destruct path as [| f path]; cbn in *; [by rewrite Hr |]. destruct Hp as (-> & _). cbn. by rewrite child_element.
Qed.

(** Writing the link at the end of the path. *)
Lemma write_focus T path p p' :
  root T = top path p → pholds (links T) path p → NoDup (pelems path) →
  ∃ T', write_slot T (slot_of path) p' = Ret T' ∧ same T T' ∧ null_element T' = null_element T ∧ root T' = top path p' ∧
    pholds (links T') path p' ∧ ∀ n, n ∉ pelems path → links T' !! n = links T !! n.
Proof.
  intros Hr Hp Hnd. destruct path as [| f path]; cbn in *.
  { exists (with_root p' T). split_and!; [done | | done..]. exists (links T), p'. by destruct T. }
  destruct Hp as (Hf & Hs & Hp). unfold store, load. rewrite Hf. cbn. rewrite set_link_element.
  apply NoDup_cons in Hnd as [Hnin Hnd]. eexists. split_and!; [done | | done | done | | | |].
  - eexists _, (root T). split; [by destruct T |]. apply dom_insert_lookup_L. by eexists.
  - cbn. by rewrite lookup_insert_eq.
  - cbn. apply holds_insert; [| done]. set_solver.
  - cbn. apply pholds_insert; [| done]. set_solver.
  - intros n Hn. cbn. apply lookup_insert_ne. set_solver.
Qed.

Lemma store_elem T n e f : links T !! n = Some e → store T (Elem n) f = Ret (with_links (<[n := f e]> (links T)) T).
Proof. intros H. unfold store, load. by rewrite H. Qed.

Lemma same_store T n e e' : links T !! n = Some e → same T (with_links (<[n := e']> (links T)) T).
Proof. intros H. eexists _, (root T). split; [by destruct T |]. apply dom_insert_lookup_L. by eexists. Qed.

(** Painting an element. *)
Lemma paint_focus T t path c :
  focus T t path → t ≠ E ∨ c = BLACK → ∃ T', store T (ptr_of t) (paint c) = Ret T' ∧ focus T' (recolour c t) path ∧ same T T'.
Proof.
  intros [Hr Hh Hp Hnd Hnull] Hc. destruct t as [| c0 l n r]; cbn [holds ptr_of elems recolour] in *.
  { destruct Hc as [| ->]; [done |]. unfold store. cbn. rewrite Hnull. eexists. split; [done |].
    replace (with_null _ T) with T by (destruct T; cbn in *; by subst). split; [done | reflexivity]. }
  destruct Hh as (Hn & Hl & Hr'). rewrite (store_elem _ _ _ _ Hn). eexists. split; [done |]. split; [| by eapply same_store].
  pose proof (proj1 (nodup_mk L c0 l n r _) Hnd) as Hnd'. apply NoDup_cons in Hnd' as [Hnin _].
  split; cbn; [done | | | done | done].
  - rewrite lookup_insert_eq. split_and!; [done | apply holds_insert; set_solver | apply holds_insert; set_solver].
  - apply pholds_insert; [set_solver | done].
Qed.

(** A rotation. *)
Lemma rotate_focus T d cn a n cm b m e path :
  focus T (mk d cn a n (mk d cm b m e)) path →
  ∃ T', rotate d T (slot_of path) (Elem n) = Ret T' ∧ focus T' (mk d cm (mk d cn a n b) m e) path ∧ same T T'.
Proof.
  intros Hf. pose proof (load_mk _ _ _ _ _ _ _ Hf) as Hn. pose proof (focus_side _ _ _ _ _ _ _ Hf) as Hfm.
  pose proof (load_mk _ _ _ _ _ _ _ Hfm) as Hm. destruct Hf as [Hr Hh Hp Hnd Hnull]. autorewrite with tree in *.
  apply holds_mk in Hh as (Ln & Ha & (Lm & Hb & He)%holds_mk). apply nodup_mk in Hnd. rewrite (elems_mk d cm) in Hnd. autorewrite with tree in *.
  unfold rotate. rewrite Hn. obind. rewrite child_flip, Hm. obind. autorewrite with tree.
  rewrite (store_elem _ _ _ _ Ln), set_link_flip. obind. set (h1 := <[n := _]> _). set (T1 := with_links h1 T).
  assert (n ∉ elems a ∧ n ∉ elems b ∧ n ∉ elems e ∧ n ∉ pelems path ∧ n ≠ m ∧ m ∉ elems a ∧ m ∉ elems b ∧ m ∉ elems e ∧ m ∉ pelems path ∧ NoDup (pelems path) ∧
    (∀ x, x ∈ elems a → x ∉ pelems path) ∧ (∀ x, x ∈ elems b → x ∉ pelems path) ∧ (∀ x, x ∈ elems e → x ∉ pelems path)) as
    (? & ? & ? & ? & ? & ? & ? & ? & ? & ? & ? & ? & ?).
  { cbn in Hnd. rewrite ?NoDup_cons, ?NoDup_app in Hnd. rewrite ?NoDup_cons, ?NoDup_app in Hnd. set_solver. }
  destruct (write_focus T1 path (Elem n) (Elem m)) as (T2 & -> & Hs2 & Hn2 & Hr2 & Hp2 & Hold); [done | by apply pholds_insert | done |].
  obind. assert (links T2 !! m = Some (element d cm (ptr_of b) (ptr_of e))) as Lm2.
  { rewrite Hold by done. cbn. unfold h1. by rewrite lookup_insert_ne. }
  rewrite (store_elem _ _ _ _ Lm2), set_link_element. eexists. split; [done |]. split; cycle 1.
  { transitivity T1; [by eapply same_store |]. transitivity T2; [done |]. by eapply same_store. }
  assert (∀ t, n ∉ elems t → m ∉ elems t → (∀ x, x ∈ elems t → x ∉ pelems path) → holds (links T) t →
    holds (<[m := element d cm (Elem n) (ptr_of e)]> (links T2)) t) as Hkeep.
  { intros t Hnt Hmt Hpt. apply holds_eq. intros x Hx. rewrite lookup_insert_ne by set_solver. rewrite Hold by set_solver. cbn. unfold h1.
    apply lookup_insert_ne. set_solver. }
  split; autorewrite with tree; [done | | cbn; by apply pholds_insert | | cbn; by rewrite Hn2].
  - rewrite !holds_mk. autorewrite with tree. cbn. rewrite lookup_insert_eq, lookup_insert_ne, Hold by done. cbn. unfold h1. rewrite lookup_insert_eq.
    split_and!; [done | done | by apply Hkeep..].
  - rewrite nodup_mk, (elems_mk d cn). eapply NoDup_Permutation_proper; [| exact Hnd]. cbn. solve_Permutation.
Qed.

End rep.
