(* ===== verification/TreeInsert.v ===== *)
(** * Red-black trees: balance and insertion

    The colour rules with the black height ([rb]), their counterpart for paths ([ctx]), and the
    loop of [rb_insert]: it ends, restores the colour rules and keeps the elements in order. *)

From S2P Require Import Prelude Tree TreeRep.

(** ** Colour rules *)

(** No red element has a red child, and every path has [h] black elements. *)
Inductive rb : ftree → nat → Prop :=
| rb_E : rb E 0
| rb_black l n r h : rb l h → rb r h → rb (N BLACK l n r) (S h)
| rb_red l n r h : rb l h → rb r h → col l = BLACK → col r = BLACK → rb (N RED l n r) h.

Definition pcol (path : list frame) : option colour := f_col <$> head path.

(** A path on which a subtree with black height [h] fits. *)
Fixpoint ctx (path : list frame) (h : nat) : Prop :=
  match path with
  | [] => True
  | f :: path =>
      rb (f_sib f) h ∧
      match f_col f with
      | BLACK => ctx path (S h)
      | RED => col (f_sib f) = BLACK ∧ pcol path = Some BLACK ∧ ctx path h
      end
  end.

Lemma rb_mk_black d a n b h : rb (mk d BLACK a n b) (S h) ↔ rb a h ∧ rb b h.
Proof. destruct d; (split; [by inversion 1 | intros []; by constructor]). Qed.

Lemma rb_mk_red d a n b h : rb (mk d RED a n b) h ↔ rb a h ∧ rb b h ∧ col a = BLACK ∧ col b = BLACK.
Proof. destruct d; (split; [by inversion 1 | intros (? & ? & ? & ?); by constructor]). Qed.

Lemma col_recolour c t : t ≠ E → col (recolour c t) = c.
Proof. by destruct t. Qed.

Lemma recolour_id t : col t = BLACK → recolour BLACK t = t.
Proof. destruct t as [| [] l n r]; by cbn. Qed.

Lemma rb_blacken t h : rb t h → rb (recolour BLACK t) (if decide (col t = RED) then S h else h).
Proof. intros Hrb. destruct Hrb; cbn; by constructor. Qed.

Lemma rb_nonempty t h : rb t (S h) → t ≠ E.
Proof. inversion 1; done. Qed.

Lemma plug_rb path : ∀ t h,
  ctx path h → rb t h → (col t = RED → pcol path ≠ Some RED) → ∃ h', rb (plug t path) h'.
Proof.
  induction path as [| f path IH]; intros t h Hctx Hrb Hcol; [by eexists |]. destruct f as [d c n s]. cbn in *. destruct Hctx as [Hs Hc].
  destruct c.
  - destruct Hc as (Hcs & Hpc & Hctx). apply (IH _ h); [done | apply rb_mk_red | by rewrite Hpc].
    split_and!; [done | done | | done]. destruct (col t); [by destruct Hcol | done].
  - apply (IH _ (S h)); [done | by apply rb_mk_black |]. unfold plug1. by rewrite col_mk.
Qed.

Lemma unplug_rb path : ∀ t h',
  rb (plug t path) h' → col (plug t path) = BLACK → ∃ h, rb t h ∧ ctx path h ∧ (col t = RED → pcol path = Some BLACK).
Proof.
  induction path as [| f path IH]; intros t h' Hrb Hcol; cbn in *.
  { exists h'. split_and!; [done | done |]. by rewrite Hcol. }
  destruct (IH _ _ Hrb Hcol) as (h & Hrb' & Hctx & Hred). destruct f as [d c n s]. unfold plug1 in *. cbn in *. rewrite col_mk in Hred. destruct c.
  - apply rb_mk_red in Hrb' as (Ht & Hs & Hct & Hcs). exists h. split_and!; try done; [by apply Hred | by rewrite Hct].
  - destruct h as [| h]; [destruct d; inversion Hrb' |]. apply rb_mk_black in Hrb' as [Ht Hs]. by exists h.
Qed.

(** ** Height *)

Fixpoint height (t : ftree) : nat := match t with E => 0 | N _ l _ r => S (max (height l) (height r)) end.

Lemma rb_height t h : rb t h → (height t ≤ 2 * h + (if decide (col t = RED) then 1 else 0))%nat.
Proof.
  induction 1 as [| l n r h _ IHl _ IHr | l n r h _ IHl _ IHr Hl Hr]; [done | |]; cbn [height].
  - rewrite (decide_False (P := col (N BLACK l n r) = RED)) by done. repeat case_decide; lia.
  - rewrite (decide_True (P := col (N RED l n r) = RED)) by done. rewrite decide_False in IHl by (by rewrite Hl). rewrite decide_False in IHr by (by rewrite Hr). lia.
Qed.

Lemma rb_size t h : rb t h → (2 ^ h ≤ S (length (elems t)))%nat.
Proof. induction 1; cbn [elems Nat.pow]; rewrite ?length_app; cbn [length]; lia. Qed.

(** With fewer than 2^31 elements, no path is longer than 62. *)
Lemma rb_height_bound t h : rb t h → col t = BLACK → Z.of_nat (length (elems t)) < 2 ^ 31 → (height t ≤ 62)%nat.
Proof.
  intros Hrb Hc Hn. pose proof (rb_height _ _ Hrb) as Hh. rewrite decide_False in Hh by (by rewrite Hc).
  enough (h < 32)%nat by lia. apply (Nat.pow_lt_mono_r_iff 2); [lia |]. pose proof (rb_size _ _ Hrb).
  apply (Nat.le_lt_trans _ (S (length (elems t)))); [done |]. apply Nat2Z.inj_lt. rewrite Nat2Z.inj_pow. lia.
Qed.

Lemma height_plug t path : (length path + height t ≤ height (plug t path))%nat.
Proof.
  revert t. induction path as [| f path IH]; intros t; [done |]. cbn [plug length]. etrans; [| apply IH].
  unfold plug1. destruct (f_dir f); cbn [mk height]; lia.
Qed.

(** ** The loop of [rb_insert] *)

Lemma node_dir d c l n r : ∃ a b, N c l n r = mk d c a n b.
Proof. destruct d; by eexists _, _. Qed.

Lemma top_elem f path p : ∃ m, top (f :: path) p = Elem m ∧ m ∈ pelems (f :: path).
Proof.
  revert f p. induction path as [| g path IH]; intros f p; [exists (f_elem f); split; [done | by left] |].
  destruct (IH g (Elem (f_elem f))) as (m & Hm & Hin). exists m. split; [done |]. cbn in *. set_solver.
Qed.

(** Equality of the elements of two trees, by cases on the directions. *)
Ltac elems_eq :=
  repeat match goal with d : dir |- _ => destruct d end; cbn [mk flip elems]; rewrite ?elems_recolour;
  repeat first [rewrite <- app_assoc | progress (cbn [app mk elems])].

Section insert.
Context {K : Type}.
Implicit Types T : TREE K.

Lemma focus_not_root T t f path : focus T t (f :: path) → ptr_of t ≠ root T.
Proof.
  intros [Hr _ _ Hnd _]. rewrite Hr. destruct (top_elem f path (ptr_of t)) as (m & -> & Hm). destruct t as [| c l n r]; [done |]. cbn. intros [= ->].
  apply NoDup_app in Hnd as (_ & Hnd & _). apply (Hnd m); [cbn; set_solver | done].
Qed.

(** The links of an element to its two subtrees differ. *)
Lemma focus_links T d c a n b path : focus T (mk d c a n b) path → a ≠ E ∨ b ≠ E → ptr_of a ≠ ptr_of b.
Proof.
  intros [_ _ _ Hnd _] Hne. apply nodup_mk in Hnd. destruct a as [| ca la na ra], b as [| cb lb nb tb]; cbn; try done; [by destruct Hne |]. intros [= ->].
  apply NoDup_cons in Hnd as [_ Hnd]. rewrite app_assoc in Hnd. apply NoDup_app in Hnd as (Hnd & _). apply NoDup_app in Hnd as (_ & Hnd & _).
  apply (Hnd nb); cbn; set_solver.
Qed.

Lemma which_child d c p q : p ≠ q → (if decide (p = e_left (element d c p q)) then L else R) = d.
Proof. destruct d; cbn; intros Hne; case_decide; done. Qed.

Lemma paint_mk T d c0 a n b path c :
  focus T (mk d c0 a n b) path → ∃ T', store T (Elem n) (paint c) = Ret T' ∧ focus T' (mk d c a n b) path ∧ same T T'.
Proof.
  intros Hf. destruct (paint_focus T _ path c Hf) as (T' & HT & Hf' & Hs); [left; by destruct d |]. autorewrite with tree in *. eauto.
Qed.

(** The sibling of the parent is red: it and the parent are painted black, the grandparent red. *)
Lemma turn_recolour T d t0 df p s g u path leaf s1 s2 ps :
  focus T (mk d BLACK (mk df RED t0 p s) g u) path → col u = RED → ∃ T',
  rb_insert_turn d T ps leaf (Elem p) (Elem g) s1 s2 = Ret (inl (T', drop 2 ps, Elem g)) ∧
  focus T' (mk d RED (mk df BLACK t0 p s) g (recolour BLACK u)) path ∧ same T T'.
Proof.
  intros Hg Hu. unfold rb_insert_turn. rewrite (load_mk _ _ _ _ _ _ _ Hg). obind. rewrite child_flip.
  rewrite (load_focus _ _ _ (focus_side _ _ _ _ _ _ _ Hg)). obind. fold (col u). rewrite decide_True by done.
  destruct (paint_mk _ _ _ _ _ _ _ BLACK (focus_down _ _ _ _ _ _ _ Hg)) as (T1 & -> & Hf1 & Hs1). obind. apply focus_back, focus_side in Hf1.
  destruct (paint_focus _ _ _ BLACK Hf1) as (T2 & -> & Hf2 & Hs2); [by right |]. obind. apply focus_home in Hf2.
  destruct (paint_mk _ _ _ _ _ _ _ RED Hf2) as (T3 & -> & Hf3 & Hs3). obind. exists T3. split; [done |]. split; [done |].
  by transitivity T1; [| transitivity T2].
Qed.

(** The sibling of the parent is black and the leaf is on the outer side: one rotation. *)
Lemma turn_outer T d t0 p s g u path leaf s1 ps :
  focus T (mk d BLACK (mk d RED t0 p s) g u) path → col u = BLACK → leaf = ptr_of t0 → t0 ≠ E → ∃ T',
  rb_insert_turn d T ps leaf (Elem p) (Elem g) s1 (slot_of path) = Ret (inr T') ∧
  focus T' (mk d BLACK t0 p (mk d RED s g u)) path ∧ same T T'.
Proof.
  intros Hg Hu -> Ht. unfold rb_insert_turn. rewrite (load_mk _ _ _ _ _ _ _ Hg). obind. rewrite child_flip.
  rewrite (load_focus _ _ _ (focus_side _ _ _ _ _ _ _ Hg)). obind. fold (col u). rewrite decide_False by (by rewrite Hu).
  pose proof (focus_down _ _ _ _ _ _ _ Hg) as Hf. rewrite (load_mk _ _ _ _ _ _ _ Hf). obind. rewrite child_flip.
  rewrite decide_False by (eapply focus_links; [done | by left]). obind.
  destruct (paint_mk _ _ _ _ _ _ _ BLACK Hf) as (T1 & -> & Hf1 & Hs1). obind. apply focus_back in Hf1.
  destruct (paint_mk _ _ _ _ _ _ _ RED Hf1) as (T2 & -> & Hf2 & Hs2). obind. rewrite <- (mk_flip d RED), <- (mk_flip d BLACK) in Hf2.
  destruct (rotate_focus _ _ _ _ _ _ _ _ _ _ Hf2) as (T3 & -> & Hf3 & Hs3). obind. rewrite !mk_flip in Hf3. exists T3. split; [done |]. split; [done |].
  by transitivity T1; [| transitivity T2].
Qed.

(** The leaf is on the inner side: a rotation at the parent comes first. *)
Lemma turn_inner T d a n b p s g u path ps :
  focus T (mk d BLACK (mk d RED s p (mk d RED a n b)) g u) path → col u = BLACK → ∃ T',
  rb_insert_turn d T ps (Elem n) (Elem p) (Elem g) (SLink d (Elem g)) (slot_of path) = Ret (inr T') ∧
  focus T' (mk d BLACK (mk d RED s p a) n (mk d RED b g u)) path ∧ same T T'.
Proof.
  intros Hg Hu. unfold rb_insert_turn. rewrite (load_mk _ _ _ _ _ _ _ Hg). obind. rewrite child_flip.
  rewrite (load_focus _ _ _ (focus_side _ _ _ _ _ _ _ Hg)). obind. fold (col u). rewrite decide_False by (by rewrite Hu).
  pose proof (focus_down _ _ _ _ _ _ _ Hg) as Hf. rewrite (load_mk _ _ _ _ _ _ _ Hf). obind. rewrite child_flip, ptr_of_mk.
  rewrite decide_True by done. change (SLink d (Elem g)) with (slot_of (Fr d BLACK g u :: path)).
  destruct (rotate_focus _ _ _ _ _ _ _ _ _ _ Hf) as (T0 & -> & Hf0 & Hs0). obind.
  destruct (paint_mk _ _ _ _ _ _ _ BLACK Hf0) as (T1 & -> & Hf1 & Hs1). obind. apply focus_back in Hf1.
  destruct (paint_mk _ _ _ _ _ _ _ RED Hf1) as (T2 & -> & Hf2 & Hs2). obind. rewrite <- (mk_flip d RED), <- (mk_flip d BLACK) in Hf2.
  destruct (rotate_focus _ _ _ _ _ _ _ _ _ _ Hf2) as (T3 & -> & Hf3 & Hs3). obind. rewrite !mk_flip in Hf3. exists T3. split; [done |]. split; [done |].
  by transitivity T0; [| transitivity T1; [| transitivity T2]].
Qed.

(** One turn: the subtree two steps up keeps its elements and fits on the rest of the path. *)
Lemma rb_insert_turn_spec T d l n r df p s g u path h :
  let t0 := N RED l n r in
  focus T t0 (Fr df RED p s :: Fr d BLACK g u :: path) → rb t0 h → rb s h → col s = BLACK → rb u h → ∀ ps, ∃ res,
  rb_insert_turn d T ps (Elem n) (Elem p) (Elem g) (SLink d (Elem g)) (slot_of path) = Ret res ∧ ∃ T' t',
    focus T' t' path ∧ same T T' ∧ rb t' (S h) ∧ elems t' = elems (mk d BLACK (mk df RED t0 p s) g u) ∧
    match res with
    | inl (T1, ps', leaf) => T1 = T' ∧ ps' = drop 2 ps ∧ leaf = ptr_of t' ∧ col t' = RED ∧ t' ≠ E
    | inr T1 => T1 = T' ∧ col t' = BLACK
    end.
Proof.
  intros t0 Hf Hrb Hs Hcs Hu ps. apply focus_back, focus_back in Hf. destruct (col u) eqn:Hcu.
  - destruct (turn_recolour _ _ _ _ _ _ _ _ _ (Elem n) (SLink d (Elem g)) (slot_of path) ps Hf Hcu) as (T' & -> & Hf' & Hsame).
    eexists. split; [done |]. exists T', (mk d RED (mk df BLACK t0 p s) g (recolour BLACK u)). autorewrite with tree.
    split_and!; try done; [| | by destruct d].
    + apply rb_mk_red. autorewrite with tree. pose proof (rb_blacken _ _ Hu) as Hub. rewrite decide_True in Hub by done.
      split_and!; [by apply rb_mk_black | done | done | by destruct u].
    + by elems_eq.
  - destruct (decide (df = d)) as [-> | Hne].
    + destruct (turn_outer _ _ _ _ _ _ _ _ (Elem n) (SLink d (Elem g)) ps Hf Hcu) as (T' & -> & Hf' & Hsame); [done | done |].
      eexists. split; [done |]. exists T', (mk d BLACK t0 p (mk d RED s g u)). autorewrite with tree. split_and!; try done.
      * apply rb_mk_black. split; [done |]. by apply rb_mk_red.
      * by elems_eq.
    + assert (df = flip d) as -> by (by destruct d, df). destruct (node_dir d RED l n r) as (a & b & Heq). unfold t0 in *. rewrite Heq in *.
      rewrite mk_flip in *. destruct (turn_inner _ _ _ _ _ _ _ _ _ _ ps Hf Hcu) as (T' & -> & Hf' & Hsame).
      apply rb_mk_red in Hrb as (Ha & Hb & Hca & Hcb). eexists. split; [done |]. exists T', (mk d BLACK (mk d RED s p a) n (mk d RED b g u)).
      autorewrite with tree. split_and!; try done.
      * apply rb_mk_black. split; by apply rb_mk_red.
      * by elems_eq.
Qed.

Lemma rb_insert_loop_spec : ∀ fuel path T t0 h,
  (length path ≤ fuel)%nat → focus T t0 path → rb t0 h → ctx path h → t0 ≠ E → col t0 = RED → ∃ T' t',
  rb_insert_loop fuel T (slots path) (ptr_of t0) = Ret T' ∧ focus T' t' [] ∧ elems t' = elems (plug t0 path) ∧ (∃ h', rb t' h') ∧ same T T'.
Proof.
  induction fuel as [| fuel IH]; intros path T t0 h Hfuel Hf Hrb Hctx Hne Hcol.
  { destruct path; [| cbn in *; lia]. cbn. rewrite decide_True by (symmetry; apply (fo_root _ _ _ Hf)). exists T, t0. split_and!; [done | done | done | by eexists | reflexivity]. }
  cbn [rb_insert_loop]. assert (∀ path, focus T t0 path → ctx path h → pcol path ≠ Some RED → ∃ T' t',
    Ret T = Ret T' ∧ focus T' t' [] ∧ elems t' = elems (plug t0 path) ∧ (∃ h', rb t' h') ∧ same T T') as Hdone.
  { intros path' Hf' Hctx' Hp. exists T, (plug t0 path'). split_and!; [done | exact (proj1 (focus_plug _ _ _) Hf') | done | by eapply plug_rb | reflexivity]. }
  destruct path as [| [df [] p s] path].
  { rewrite decide_True by (symmetry; apply (fo_root _ _ _ Hf)). by apply Hdone. }
  2: { rewrite decide_False by (eapply focus_not_root; done). rewrite slots_cons. cbn [lookup list_lookup]. rewrite slots_lookup. obind.
    cbn [of_option]. obind. rewrite (read_focus _ _ _ (focus_back _ _ _ _ _ _ _ Hf)). obind. rewrite (load_focus _ _ _ (focus_back _ _ _ _ _ _ _ Hf)). obind.
    fold (col (mk df BLACK t0 p s)). rewrite col_mk, decide_False by done. by apply Hdone. }
  rewrite decide_False by (eapply focus_not_root; done). rewrite slots_cons. cbn [lookup list_lookup]. rewrite slots_lookup. cbn [of_option]. obind.
  rewrite (read_focus _ _ _ (focus_back _ _ _ _ _ _ _ Hf)). obind. rewrite (load_focus _ _ _ (focus_back _ _ _ _ _ _ _ Hf)). obind.
  fold (col (mk df RED t0 p s)). rewrite col_mk, decide_True by done. destruct Hctx as (Hs & Hcs & Hpc & Hctx). cbn in Hs, Hcs.
  destruct path as [| [d c g u] path]; [done |]. injection Hpc as ->. destruct Hctx as [Hu Hctx]. cbn in Hu, Hctx.
  rewrite slots_cons. cbn [lookup list_lookup]. rewrite slots_lookup. cbn [of_option]. obind.
  pose proof (focus_back _ _ _ _ _ _ _ (focus_back _ _ _ _ _ _ _ Hf)) as Hg. rewrite (read_focus _ _ _ Hg). obind. rewrite !ptr_of_mk.
  rewrite (load_mk _ _ _ _ _ _ _ Hg). obind.
  pose proof (focus_links _ _ _ _ _ _ _ Hg ltac:(left; by destruct df)) as Hlinks. rewrite ptr_of_mk in *. rewrite which_child by done.
  destruct t0 as [| c0 l n r]; [done |]. cbn in Hcol. subst c0.
  destruct (rb_insert_turn_spec _ _ _ _ _ _ _ _ _ _ _ _ Hf Hrb Hs Hcs Hu (slots (Fr df RED p s :: Fr d BLACK g u :: path)))
    as (res & Hturn & T1 & t1 & Hf1 & Hs1 & Hrb1 & Helems & Hres).
  rewrite <- !slots_cons. change (slot_of (Fr d BLACK g u :: path)) with (SLink d (Elem g)). change (ptr_of (N RED l n r)) with (Elem n).
  rewrite Hturn. obind. clear Hturn. cbn [plug]. unfold plug1. cbn [f_dir f_col f_elem f_sib].
  destruct res as [[[T2 ps'] leaf] | T2].
  - destruct Hres as (-> & -> & -> & Hc1 & Hne1). destruct (IH path T1 t1 (S h)) as (T' & t' & Hloop & Hf' & He' & Hrb' & Hs');
      [cbn in Hfuel; lia | done..|]. exists T', t'. split_and!; [done | done | | done | by transitivity T1]. rewrite He'. by apply elems_plug_eq.
  - destruct Hres as (-> & Hc1). exists T1, (plug t1 path). split_and!; [done | exact (proj1 (focus_plug _ _ _) Hf1) | by apply elems_plug_eq | | done].
    eapply plug_rb; [done | done | by rewrite Hc1].
Qed.


Lemma rb_insert_spec T n path :
  focus T (N RED E n E) path → ctx path 0 → ∃ T' t',
  rb_insert T (slots path) (Elem n) = Ret T' ∧ focus T' t' [] ∧ elems t' = elems (plug (N RED E n E) path) ∧
  (∃ h, rb t' h) ∧ col t' = BLACK ∧ same T T'.
Proof.
  intros Hf Hctx. unfold rb_insert. destruct (paint_mk T L RED E n E path RED Hf) as (T1 & -> & Hf1 & Hs1). obind.
  destruct (rb_insert_loop_spec (length (slots path)) path T1 (N RED E n E) 0) as (T2 & t2 & Hloop & Hf2 & He2 & (h & Hrb2) & Hs2);
    [rewrite length_slots; lia | done | by repeat constructor | done | done | done |].
  cbn [ptr_of] in Hloop. rewrite Hloop. obind. rewrite (fo_root _ _ _ Hf2). cbn [top]. assert (t2 ≠ E) as Hne.
  { intros ->. cbn in He2. apply (f_equal length) in He2. rewrite elems_plug in He2. done. }
  destruct (paint_focus _ _ _ BLACK Hf2) as (T3 & -> & Hf3 & Hs3); [by left |]. exists T3, (recolour BLACK t2). split_and!; [done | done | | | | ].
  - by rewrite elems_recolour.
  - eexists. by apply rb_blacken.
  - by apply col_recolour.
  - by transitivity T1; [| transitivity T2].
Qed.

End insert.
