(* ===== verification/TreeSpec.v ===== *)
(** * Red-black trees as sorted tables

    What a tree stands for: a table of keys with their counts, sorted by the comparison function
    ([represents]); the search for a key in the tree, and insertion. *)

From S2P Require Import Prelude Tree TreeRep TreeInsert.

(** ** Elements to the left and right of a position *)

Fixpoint before (path : list frame) : list nat :=
  match path with
  | [] => []
  | f :: path => match f_dir f with L => before path | R => before path ++ elems (f_sib f) ++ [f_elem f] end
  end.

Fixpoint after (path : list frame) : list nat :=
  match path with
  | [] => []
  | f :: path => match f_dir f with L => f_elem f :: elems (f_sib f) ++ after path | R => after path end
  end.

Lemma elems_split t path : elems (plug t path) = before path ++ elems t ++ after path.
Proof.
  revert t. induction path as [| f path IH]; intros t; cbn; [by rewrite app_nil_r |]. rewrite IH. unfold plug1. destruct (f_dir f); cbn.
  - by rewrite <- app_assoc.
  - by rewrite <- !app_assoc.
Qed.

Lemma height_elems t : (height t ≤ length (elems t))%nat.
Proof. induction t as [| c l IHl n r IHr]; cbn; [done |]. rewrite length_app. cbn. lia. Qed.

Section spec.
Context {K : Type} (compare : K → K → Z) `{Hcmp : !Comparison compare}.
Implicit Types (T : TREE K) (es : list (K * Z)).

(** ** Sorted tables *)

Definition key_lt (a b : K * Z) : Prop := compare a.1 b.1 < 0.
Definition less (key : K) (e : K * Z) : Prop := compare e.1 key < 0.
Definition greater (key : K) (e : K * Z) : Prop := compare e.1 key > 0.

Lemma compare_lt_l x y z : compare x y < 0 → compare y z ≤ 0 → compare x z < 0.
Proof using Hcmp.
  intros Hxy Hyz. pose proof (compare_sym x y). pose proof (compare_sym x z). pose proof (compare_sym z x). pose proof (compare_trans y z x). lia.
Qed.

Lemma compare_lt_r x y z : compare x y ≤ 0 → compare y z < 0 → compare x z < 0.
Proof using Hcmp.
  intros Hxy Hyz. pose proof (compare_sym y z). pose proof (compare_sym x z). pose proof (compare_sym z x). pose proof (compare_trans z x y). lia.
Qed.

Lemma compare_gt x y : compare x y > 0 ↔ compare y x < 0.
Proof using Hcmp. symmetry. apply compare_sym. Qed.

Lemma compare_eq x y : compare x y = 0 ↔ compare y x = 0.
Proof using Hcmp. pose proof (compare_sym x y). pose proof (compare_sym y x). lia. Qed.

(** The count after one more insertion: it stays at its maximum. *)
Definition bump (count : Z) : Z :=
  let count := (count + 1) mod 2 ^ 31 in if bool_decide (count = 0) then (count - 1) mod 2 ^ 31 else count.

Fixpoint upsert (key : K) es : list (K * Z) :=
  match es with
  | [] => [(key, 1)]
  | e :: es =>
      if decide (compare e.1 key < 0) then e :: upsert key es
      else if decide (compare e.1 key = 0) then (e.1, bump e.2) :: es
      else (key, 1) :: e :: es
  end.

Fixpoint remove (key : K) es : list (K * Z) :=
  match es with
  | [] => []
  | e :: es => if decide (compare e.1 key = 0) then es else e :: remove key es
  end.

Fixpoint find_key (key : K) es : option (K * Z) :=
  match es with
  | [] => None
  | e :: es => if decide (compare e.1 key = 0) then Some e else find_key key es
  end.

Lemma upsert_new key es es' : Forall (less key) es → Forall (greater key) es' → upsert key (es ++ es') = es ++ (key, 1) :: es'.
Proof.
  unfold less, greater. induction 1 as [| e es He _ IH]; intros Hes'; cbn; [| rewrite decide_True by done; by rewrite IH].
  destruct Hes' as [| e' es' He' _]; [done |]. cbn. rewrite decide_False, decide_False by lia. done.
Qed.

Lemma upsert_old key es e es' : Forall (less key) es → compare e.1 key = 0 → upsert key (es ++ e :: es') = es ++ (e.1, bump e.2) :: es'.
Proof.
  unfold less. intros Hes He. induction Hes as [| e' es He' _ IH]; cbn; [| rewrite decide_True by done; by rewrite IH].
  rewrite decide_False by lia. by rewrite decide_True.
Qed.

Lemma remove_split key es e es' : Forall (less key) es → compare e.1 key = 0 → remove key (es ++ e :: es') = es ++ es'.
Proof. unfold less. induction 1 as [| e' es He' _ IH]; intros He; cbn; [by rewrite decide_True |]. rewrite decide_False by lia. by rewrite IH. Qed.

Lemma find_split key es e es' : Forall (less key) es → compare e.1 key = 0 → find_key key (es ++ e :: es') = Some e.
Proof. unfold less. induction 1 as [| e' es He' _ IH]; intros He; cbn; [by rewrite decide_True |]. rewrite decide_False by lia. by rewrite IH. Qed.

Lemma find_none key es es' : Forall (less key) es → Forall (greater key) es' → find_key key (es ++ es') = None.
Proof.
  unfold less, greater. induction 1 as [| e' es He' _ IH]; intros Hes'; cbn; [| rewrite decide_False by lia; by apply IH].
  induction Hes' as [| e es' He _ IH']; [done |]. cbn. by rewrite decide_False by lia.
Qed.

(** ** What a tree stands for *)

Definition entries (d : gmap nat (K * Z)) (ns : list nat) es : Prop := Forall2 (λ n e, d !! n = Some e) ns es.

Definition represents T es : Prop := ∃ t,
  focus T t [] ∧ (∃ h, rb t h) ∧ col t = BLACK ∧ entries (payload T) (elems t) es ∧ StronglySorted key_lt es ∧
  dom (links T) = list_to_set (elems t) ∧ dom (payload T) = dom (links T) ∧ elements_in_tree T = Z.of_nat (length es).

Lemma sorted_split es e es' key :
  StronglySorted key_lt (es ++ e :: es') → (compare e.1 key ≤ 0 → Forall (less key) es) ∧ (compare e.1 key >= 0 → Forall (greater key) es').
Proof using Hcmp.
  intros Hs. split; intros He; apply Forall_forall; intros x Hx.
  - apply (compare_lt_l _ e.1); [| done]. change (key_lt x e). eapply StronglySorted_app_1_elem_of; [done | done | by left].
  - apply StronglySorted_app_1_r in Hs. inversion Hs as [| ? ? ? Hall]. subst. rewrite Forall_forall in Hall. specialize (Hall x Hx).
    unfold greater. apply compare_gt. eapply compare_lt_r; [| done]. pose proof (compare_sym key e.1). pose proof (compare_sym e.1 key). lia.
Qed.

(** ** The search for a key *)

Lemma load_key T t path n e c l r : t = N c l n r → focus T t path → payload T !! n = Some e → ELEMENT_KEY T (ptr_of t) = Ret e.1.
Proof. intros -> _ He. cbn. rewrite He. by destruct e. Qed.

(** The position where the search ends: the elements to its left are less than the key, those to
    its right are greater, and there is nothing there or an element equal to the key. *)
Record found T (key : K) (t : ftree) (path : list frame) (eb em ea : list (K * Z)) : Prop := mkFound {
  fd_before : entries (payload T) (before path) eb;
  fd_here : entries (payload T) (elems t) em;
  fd_after : entries (payload T) (after path) ea;
  fd_less : Forall (less key) eb;
  fd_greater : Forall (greater key) ea
}.

Lemma found_step T key c l n r path eb em ea :
  found T key (N c l n r) path eb em ea → StronglySorted key_lt em → ∃ el e er,
  em = el ++ e :: er ∧ payload T !! n = Some e ∧ entries (payload T) (elems l) el ∧ entries (payload T) (elems r) er ∧
  StronglySorted key_lt el ∧ StronglySorted key_lt er ∧
  (compare e.1 key < 0 → found T key r (Fr R c n l :: path) (eb ++ el ++ [e]) er ea) ∧
  (compare e.1 key > 0 → found T key l (Fr L c n r :: path) eb el (e :: er ++ ea)) ∧
  (compare e.1 key = 0 → Forall (less key) (eb ++ el) ∧ Forall (greater key) (er ++ ea)).
Proof using Hcmp.
  intros [Hb Hm Ha Hless Hgt] Hs. unfold entries in *. cbn [elems] in Hm.
  apply Forall2_app_inv_l in Hm as (el & er0 & Hel & Her0 & ->). inversion Her0 as [| ? e ? er He Her]. subst. clear Her0.
  exists el, e, er. pose proof (sorted_split el e er key Hs) as [Hsl Hsr]. apply StronglySorted_app in Hs as (_ & Hs1 & Hs2).
  inversion Hs2 as [| ? ? Hs3 _]. subst. split_and!; try done.
  - intros Hlt. split; cbn; try done.
    + apply Forall2_app; [done |]. apply Forall2_app; [done |]. by repeat constructor.
    + apply Forall_app. split; [done |]. apply Forall_app. split; [apply Hsl; lia | by repeat constructor].
  - intros Hgt'. split; cbn; try done.
    + constructor; [done |]. by apply Forall2_app.
    + constructor; [done |]. apply Forall_app. split; [apply Hsr; lia | done].
  - intros Heq. rewrite !Forall_app. split_and!; [done | apply Hsl; lia | apply Hsr; lia | done].
Qed.

Lemma descend_spec T key : ∀ fuel t path eb em ea,
  (height t ≤ fuel)%nat → (length path + height t ≤ 63)%nat → focus T t path → found T key t path eb em ea → StronglySorted key_lt em →
  ∃ t' path' eb' em' ea', descend compare fuel T key (ptr_of t) (slots path) = Ret (ptr_of t', slots path') ∧
    plug t' path' = plug t path ∧ found T key t' path' eb' em' ea' ∧ eb' ++ em' ++ ea' = eb ++ em ++ ea ∧ StronglySorted key_lt em' ∧
    (t' = E ∨ ∃ c l n r e, t' = N c l n r ∧ payload T !! n = Some e ∧ compare e.1 key = 0).
Proof using Hcmp.
  induction fuel as [| fuel IH]; intros t path eb em ea Hfuel Hlen Hf Hfound Hs.
  { destruct t; [| cbn in *; lia]. exists E, path, eb, em, ea. split_and!; eauto. }
  destruct t as [| c l n r]; [exists E, path, eb, em, ea; split_and!; eauto |]. cbn [descend]. rewrite decide_False by done.
  destruct (found_step _ _ _ _ _ _ _ _ _ _ Hfound Hs) as (el & e & er & -> & He & _ & _ & Hsl & Hsr & Hr & Hl & Heq).
  rewrite (load_key _ _ _ _ _ _ _ _ eq_refl Hf He). obind. destruct (decide (compare e.1 key = 0)) as [H0 | Hne].
  { exists (N c l n r), path, eb, (el ++ e :: er), ea. split_and!; try done. right. by exists c, l, n, r, e. }
  rewrite (load_focus _ _ _ Hf). obind. cbn [height] in *. unfold push. rewrite length_slots.
  rewrite (decide_True (P := (S (length path) < MAX_TREE_HEIGHT)%nat)) by (unfold MAX_TREE_HEIGHT; lia). obind.
  destruct (decide (compare e.1 key < 0)) as [Hlt | Hge].
  - destruct (IH r (Fr R c n l :: path) (eb ++ el ++ [e]) er ea) as (t' & path' & eb' & em' & ea' & Hd & Hplug & Hfd & Happ & Hs' & Hend);
      [lia | cbn; lia | by apply (focus_side T L) | by apply Hr | done |].
    exists t', path', eb', em', ea'. split_and!; try done. rewrite Happ. by rewrite <- !app_assoc.
  - destruct (IH l (Fr L c n r :: path) eb el (e :: er ++ ea)) as (t' & path' & eb' & em' & ea' & Hd & Hplug & Hfd & Happ & Hs' & Hend);
      [lia | cbn; lia | by apply (focus_down T L) | apply Hl; lia | done |].
    exists t', path', eb', em', ea'. split_and!; try done. rewrite Happ. by rewrite <- !app_assoc.
Qed.

(** A position in the tree of a table. *)
Record located T (key : K) es (t : ftree) (path : list frame) (eb em ea : list (K * Z)) : Prop := mkLocated {
  lc_focus : focus T t path;
  lc_rb : ∃ h, rb t h ∧ ctx path h ∧ (col t = RED → pcol path = Some BLACK);
  lc_whole : (∃ h, rb (plug t path) h) ∧ col (plug t path) = BLACK;
  lc_path : (length path + height t ≤ 62)%nat;
  lc_found : found T key t path eb em ea;
  lc_entries : es = eb ++ em ++ ea;
  lc_sorted : StronglySorted key_lt es;
  lc_dom : dom (links T) = list_to_set (before path ++ elems t ++ after path);
  lc_payload : dom (payload T) = dom (links T);
  lc_count : elements_in_tree T = Z.of_nat (length es)
}.

Lemma size_links T t : focus T t [] → dom (links T) = list_to_set (elems t) → size (links T) = length (elems t).
Proof.
  intros [_ _ _ Hnd _] Hd. rewrite <- size_dom, Hd. apply size_list_to_set. by rewrite app_nil_r in Hnd.
Qed.

Lemma descend_root T es key :
  represents T es → Z.of_nat (length es) < 2 ^ 31 → ∃ t path eb em ea,
  descend compare (size (links T)) T key (root T) [SRoot] = Ret (ptr_of t, slots path) ∧ located T key es t path eb em ea ∧
  (t = E ∧ em = [] ∨ ∃ c l n r e, t = N c l n r ∧ payload T !! n = Some e ∧ compare e.1 key = 0).
Proof using Hcmp.
  intros (t0 & Hf & (h & Hrb) & Hcol & Hes & Hs & Hd & Hp & Hc) Hlen. pose proof (Forall2_length _ _ _ Hes) as Hl.
  pose proof (rb_height_bound _ _ Hrb Hcol ltac:(lia)) as Hh. pose proof (height_elems t0). rewrite <- Hl in Hlen.
  destruct (descend_spec T key (size (links T)) t0 [] [] es []) as (t & path & eb & em & ea & Hdesc & Hplug & Hfd & Happ & Hs' & Hend);
    [by rewrite (size_links _ t0) | cbn; lia | done | by split; try constructor | done |].
  rewrite (fo_root _ _ _ Hf). cbn [top] in *. change [SRoot] with (slots []). cbn [app] in Happ. rewrite app_nil_r in Happ. cbn [plug] in Hplug.
  exists t, path, eb, em, ea. split; [done |]. rewrite <- Hplug in *. split.
  - split; try done.
    + by apply focus_plug.
    + by eapply unplug_rb.
    + split; [by eexists | done].
    + pose proof (height_plug t path). lia.
    + by rewrite Hd, elems_split.
  - destruct Hend as [-> | Hend]; [left | by right]. split; [done |]. pose proof (fd_here _ _ _ _ _ _ _ Hfd) as Hm. by inversion Hm.
Qed.

(** ** Insertion *)

Definition settings T := (size_of_element T, memory_limit T, with_delete T, has_free T, flag T).

Lemma focus_ext T T' t path :
  root T' = root T → links T' = links T → null_element T' = null_element T → focus T t path → focus T' t path.
Proof. intros Hr Hl Hn [H1 H2 H3 H4 H5]. split; congruence. Qed.

Lemma entries_insert d n e ns es : n ∉ ns → entries d ns es → entries (<[n := e]> d) ns es.
Proof.
  intros Hn Hes. induction Hes as [| m e' ns es He Hes IH]; constructor; [| by apply IH; set_solver].
  by rewrite lookup_insert_ne by set_solver.
Qed.

Lemma pelems_before_after path n : n ∈ pelems path ↔ n ∈ before path ++ after path.
Proof.
  pose proof (elems_split E path) as Hs. cbn in Hs. rewrite <- Hs, elems_plug. done.
Qed.

Lemma sorted_insert es es' key c :
  StronglySorted key_lt (es ++ es') → Forall (less key) es → Forall (greater key) es' → StronglySorted key_lt (es ++ (key, c) :: es').
Proof using Hcmp.
  intros Hs Hl Hg. apply StronglySorted_app in Hs as (Hs & Hs1 & Hs2). rewrite Forall_forall in Hl. apply StronglySorted_app_2.
  - intros x y Hx [-> | Hy]%elem_of_cons; [by apply Hl | by apply Hs].
  - done.
  - constructor; [done |]. eapply Forall_impl; [done |]. intros e He. by apply compare_gt.
Qed.

Lemma add_element_spec T key es path eb ea n :
  located T key es E path eb [] ea → links T !! n = None → Z.of_nat (length es) < 2 ^ 31 → ∃ T',
  add_element T (slots path) key n = Ret T' ∧ represents T' (upsert key es) ∧ settings T' = settings T ∧
  allocated T' = allocated T ∧ freed T' = freed T.
Proof using Hcmp.
  intros [Hf (h & Hrb & Hctx & _) _ _ [Hb _ Ha Hless Hgt] -> Hs Hd Hp Hc] Hn Hlen. cbn [app elems] in *.
  inversion Hrb. subst h. pose proof Hf as [Hr _ Hph Hnd Hnull]. cbn [elems app] in Hnd.
  assert (n ∉ before path ++ after path) as Hfresh.
  { intros Hin. apply not_elem_of_dom in Hn. rewrite Hd in Hn. apply Hn. by apply elem_of_list_to_set. }
  assert (n ∉ pelems path) as Hfresh' by (by rewrite pelems_before_after).
  unfold add_element. rewrite slots_head. cbn [of_option]. obind.
  destruct (write_focus T path Nil (Elem n)) as (T1 & -> & (h1 & r1 & -> & Hd1) & Hn1 & Hr1 & Hp1 & Hold); [done..|]. obind. cbn in Hr1, Hp1, Hold.
  set (T2 := with_counts _ _ _). assert (focus T2 (N RED E n E) path) as Hf2.
  { split; cbn; [done | by rewrite lookup_insert_eq | by apply pholds_insert | by constructor | done]. }
  destruct (rb_insert_spec T2 n path Hf2 Hctx) as (T3 & t3 & -> & Hf3 & He3 & Hrb3 & Hc3 & (h3 & r3 & -> & Hd3)).
  eexists. split; [done |]. split_and!; [| done..]. exists t3. rewrite elems_split in He3. cbn [elems app] in He3.
  rewrite upsert_new by done. split_and!; try done; cbn [links payload elements_in_tree with_links with_root T2 with_counts with_payload] in *.
  - rewrite He3. apply Forall2_app; [| constructor]; cbn; [| by rewrite lookup_insert_eq |].
    + apply entries_insert; [set_solver | done].
    + apply entries_insert; [set_solver | done].
  - by apply sorted_insert.
  - rewrite Hd3, He3. cbn. rewrite dom_insert_L, Hd1, Hd. rewrite !list_to_set_app_L. cbn. set_solver.
  - rewrite Hd3. cbn. by rewrite !dom_insert_L, Hp, Hd1.
  - rewrite Hc, !length_app in *. cbn. unfold u32_size. rewrite Z.mod_small; lia.
Qed.

(** The tables around an element equal to the key. *)
Lemma located_node T key es c l n r path eb em ea e :
  located T key es (N c l n r) path eb em ea → payload T !! n = Some e → compare e.1 key = 0 → ∃ el er,
  es = (eb ++ el) ++ e :: er ++ ea ∧ entries (payload T) (before path ++ elems l) (eb ++ el) ∧ entries (payload T) (elems r ++ after path) (er ++ ea) ∧
  Forall (less key) (eb ++ el) ∧ Forall (greater key) (er ++ ea).
Proof using Hcmp.
  intros [_ _ _ _ Hfd -> Hs _ _ _] He Heq. apply StronglySorted_app_1_r, StronglySorted_app_1_l in Hs.
  destruct (found_step _ _ _ _ _ _ _ _ _ _ Hfd Hs) as (el & e' & er & -> & He' & Hel & Her & _ & _ & _ & _ & Hlg).
  rewrite He in He'. injection He' as <-. specialize (Hlg Heq). destruct Hfd as [Hb _ Ha _ _]. exists el, er.
  split_and!; [by rewrite <- !app_assoc | by apply Forall2_app | by apply Forall2_app | apply Hlg | apply Hlg].
Qed.

Lemma sorted_replace es e e' es' : e'.1 = e.1 → StronglySorted key_lt (es ++ e :: es') → StronglySorted key_lt (es ++ e' :: es').
Proof.
  intros Heq Hs. apply StronglySorted_app in Hs as (Hs & Hs1 & Hs2). inversion Hs2 as [| ? ? Hs3 Hall]. subst. apply StronglySorted_app_2.
  - intros x y Hx [-> | Hy]%elem_of_cons; [| apply Hs; [done | by right]]. unfold key_lt. rewrite Heq. apply (Hs x e); [done | by left].
  - done.
  - constructor; [done |]. eapply Forall_impl; [done |]. intros y. unfold key_lt. by rewrite Heq.
Qed.

Lemma bump_spec T key es c l n r path eb em ea k ct :
  located T key es (N c l n r) path eb em ea → payload T !! n = Some (k, ct) → compare k key = 0 →
  represents (with_payload (<[n := (k, bump ct)]> (payload T)) T) (upsert key es).
Proof using Hcmp.
  intros Hloc He Heq. destruct (located_node _ _ _ _ _ _ _ _ _ _ _ _ Hloc He Heq) as (el & er & Hes & Hb & Ha & Hl & Hg).
  destruct Hloc as [Hf _ (Hrb & Hcol) _ _ _ Hs Hd Hp Hc]. pose proof (fo_nodup _ _ _ (proj1 (focus_plug _ _ _) Hf)) as Hnd.
  rewrite app_nil_r, elems_split in Hnd. cbn [elems] in Hnd. rewrite Hes in *. rewrite upsert_old by done. exists (plug (N c l n r) path).
  assert (before path ++ (elems l ++ n :: elems r) ++ after path = (before path ++ elems l) ++ n :: elems r ++ after path) as Hsplit by (by rewrite <- !app_assoc).
  rewrite Hsplit in Hnd. apply NoDup_app in Hnd as (_ & Hnin1 & Hnd). apply NoDup_cons in Hnd as [Hnin2 _].
  split_and!; try done; cbn [payload with_payload links] in *.
  - apply (focus_ext T); [done.. | exact (proj1 (focus_plug _ _ _) Hf)].
  - rewrite elems_split. cbn [elems]. rewrite Hsplit. apply Forall2_app; [| constructor]; cbn; [| by rewrite lookup_insert_eq |].
    + apply entries_insert; [intros Hin; apply (Hnin1 n Hin); by left | done].
    + by apply entries_insert.
  - by eapply sorted_replace; [| exact Hs].
  - by rewrite Hd, elems_split.
  - rewrite <- Hp. apply dom_insert_lookup_L. by eexists.
  - cbn. rewrite Hc, !length_app. done.
Qed.

(** ** Releasing a tree *)

(** The calls of the function [free] when a tree is released. *)
Definition free_calls T es : list (free_call K) :=
  if with_delete T then if has_free T then (λ e, FreeKey e.1) <$> es else []
  else if has_free T then
    (if bool_decide (memory_limit T ≠ 0) then [FreeInit] else []) ++ ((λ e, FreeKey e.1) <$> es) ++
    (if bool_decide (memory_limit T ≠ 0) then [FreeEnd] else [])
  else [].

(** The memory [h'] is [h] without the elements [ns] when elements are freed one by one. *)
Definition without {A} (b : bool) (ns : list nat) (h h' : gmap nat A) : Prop :=
  ∀ n, h' !! n = if b && bool_decide (n ∈ ns) then None else h !! n.

(** The effect of [delete_tree_element] on the elements [ns] with the entries [es]. *)
Record released T (ns : list nat) es T' : Prop := mkReleased {
  rl_links : without (with_delete T) ns (links T) (links T');
  rl_payload : without (with_delete T) ns (payload T) (payload T');
  rl_freed : freed T' = freed T ++ (if has_free T then (λ e, FreeKey e.1) <$> es else []);
  rl_settings : settings T' = settings T;
  rl_root : root T' = root T;
  rl_null : null_element T' = null_element T
}.

Lemma without_app {A} b ns ns' (h h1 h2 : gmap nat A) : without b ns h h1 → without b ns' h1 h2 → without b (ns ++ ns') h h2.
Proof.
  intros H1 H2 n. rewrite H2, H1. destruct b; cbn; [| done]. repeat case_bool_decide; set_solver.
Qed.

Lemma released_app T ns es T1 ns' es' T2 : released T ns es T1 → released T1 ns' es' T2 → released T (ns ++ ns') (es ++ es') T2.
Proof.
  intros [L1 P1 F1 S1 R1 N1] [L2 P2 F2 S2 R2 N2]. injection S1 as S1a S1b S1c S1d S1e. rewrite S1c, S1d in *. split.
  - by eapply without_app.
  - by eapply without_app.
  - rewrite F2, F1. destruct (has_free T); [by rewrite fmap_app, app_assoc | by rewrite !app_nil_r].
  - rewrite S2. unfold settings. congruence.
  - congruence.
  - congruence.
Qed.

Lemma holds_without h h' b ns t : without b ns h h' → (∀ n, n ∈ elems t → n ∉ ns) → holds h t → holds h' t.
Proof.
  intros Hw Hns. apply holds_eq. intros n Hn. rewrite Hw. rewrite bool_decide_false by (by apply Hns). by rewrite andb_false_r.
Qed.

Lemma entries_without d d' b ns ms es : without b ns d d' → (∀ n, n ∈ ms → n ∉ ns) → entries d ms es → entries d' ms es.
Proof.
  intros Hw Hns Hes. induction Hes as [| m e ms es He Hes IH]; constructor; [| apply IH; set_solver].
  rewrite Hw. rewrite bool_decide_false by (apply Hns; by left). by rewrite andb_false_r.
Qed.

Lemma without_delete {A} (b : bool) ns n ns' (h h' : gmap nat A) :
  without b (ns ++ ns') h h' → without b (ns ++ n :: ns') h (if b then delete n h' else h').
Proof.
  intros Hw m. destruct b; cbn; [| by rewrite Hw]. destruct (decide (m = n)) as [-> | Hne].
  - rewrite lookup_delete_eq, bool_decide_true by set_solver. done.
  - rewrite lookup_delete_ne, Hw by done. cbn. repeat case_bool_decide; set_solver.
Qed.

Lemma delete_tree_element_spec : ∀ fuel t T es,
  (height t ≤ fuel)%nat → holds (links T) t → NoDup (elems t) → entries (payload T) (elems t) es → null_element T = mkElement NULL NULL BLACK →
  ∃ T', delete_tree_element fuel T (ptr_of t) = Ret T' ∧ released T (elems t) es T'.
Proof.
  induction fuel as [| fuel IH]; intros t T es Hfuel Hh Hnd Hes Hnull.
  1: destruct t; [| cbn in *; lia].
  2: destruct t as [| c l n r].
  1-2: exists T; split; [done |]; inversion Hes; split; try done; [intros m | intros m | destruct (has_free T); by rewrite app_nil_r]; cbn; by rewrite andb_false_r.
  cbn [height] in Hfuel. destruct Hh as (Hn & Hl & Hr). cbn [elems] in Hes, Hnd. apply Forall2_app_inv_l in Hes as (el & er0 & Hel & Her0 & ->).
  inversion Her0 as [| ? e ? er He Her]. subst. clear Her0. apply NoDup_app in Hnd as (Hndl & Hlr & [Hnr Hndr]%NoDup_cons).
  cbn [delete_tree_element ptr_of]. rewrite decide_False by done. cbn [load]. rewrite Hn. cbn [of_option]. obind. cbn [e_left e_right].
  destruct (IH l T el) as (T1 & -> & R1); [lia | done.. |]. obind. pose proof R1 as [L1 P1 F1 S1 R1' N1]. injection S1 as S1a S1b S1c S1d S1e.
  assert (n ∉ elems l) as Hnl by (intros Hin; apply (Hlr n Hin); by left).
  assert (links T1 !! n = links T !! n ∧ payload T1 !! n = payload T !! n) as [Hn1 He1].
  { rewrite L1, P1, bool_decide_false by done. by rewrite andb_false_r. }
  set (T2 := if has_free T1 then call_free (FreeKey e.1) T1 else T1).
  assert ((if has_free T1 then k ← ELEMENT_KEY T1 (Elem n); Ret (call_free (FreeKey k) T1) else Ret T1) = Ret T2) as ->.
  { unfold T2. cbn. rewrite He1, He. destruct e. by destruct (has_free T1). }
  obind. assert (links T2 = links T1 ∧ payload T2 = payload T1 ∧ null_element T2 = null_element T1 ∧ settings T2 = settings T1 ∧ root T2 = root T1) as
    (L2 & P2 & N2 & S2 & Ro2) by (unfold T2; by destruct (has_free T1)).
  rewrite L2, Hn1, Hn. cbn [of_option]. obind. cbn [e_right].
  destruct (IH r T2 er) as (T3 & -> & [L3 P3 F3 S3 R3 N3]).
  { lia. }
  { rewrite L2. eapply holds_without; [done | | done]. set_solver. }
  { done. }
  { rewrite P2. eapply entries_without; [done | | done]. set_solver. }
  { congruence. }
  obind. rewrite L2, P2 in *. injection S2 as S2a S2b S2c S2d S2e. injection S3 as S3a S3b S3c S3d S3e.
  rewrite S2c, S1c in L3, P3. assert (links T3 !! n = links T !! n) as Hn3.
  { rewrite L3, bool_decide_false by done. by rewrite andb_false_r. }
  set (T4 := if with_delete T3 then with_payload (delete n (payload T3)) (with_links (delete n (links T3)) T3) else T3).
  exists T4. split; [unfold T4; cbn; rewrite Hn3, Hn; by destruct (with_delete T3) |].
  assert (with_delete T3 = with_delete T) as Hw by congruence.
  pose proof (without_delete _ _ n _ _ _ (without_app _ _ _ _ _ _ L1 L3)) as HL.
  pose proof (without_delete _ _ n _ _ _ (without_app _ _ _ _ _ _ P1 P3)) as HP. split.
  - unfold T4. rewrite Hw. by destruct (with_delete T).
  - unfold T4. rewrite Hw. by destruct (with_delete T).
  - transitivity (freed T3); [unfold T4; by destruct (with_delete T3) |]. rewrite F3, S2d, S1d. unfold T2. rewrite S1d.
    destruct (has_free T); cbn; rewrite F1; [| by rewrite !app_nil_r]. rewrite fmap_app, <- !app_assoc. done.
  - transitivity (settings T3); [unfold T4; by destruct (with_delete T3) |]. unfold settings. congruence.
  - transitivity (root T3); [unfold T4; by destruct (with_delete T3) | congruence].
  - transitivity (null_element T3); [unfold T4; by destruct (with_delete T3) | congruence].
Qed.

(** [delete_tree] and [reset_tree] leave an empty tree and call [free] on every key in order. *)
Lemma free_tree_spec T es :
  represents T es → ∃ T', free_tree T = Ret T' ∧ represents T' [] ∧ settings T' = settings T ∧ allocated T' = 0 ∧
    freed T' = freed T ++ free_calls T es ∧ links T' = ∅.
Proof.
  intros (t & Hf & Hrb & Hcol & Hes & Hs & Hd & Hp & Hc). unfold free_tree, free_calls.
  pose proof (fo_nodup _ _ _ Hf) as Hnd. rewrite app_nil_r in Hnd. pose proof (height_elems t) as Hht.
  assert (∀ T', links T' = ∅ → payload T' = ∅ → null_element T' = null_element T → represents (with_counts 0 0 (with_root Nil T')) []) as Hempty.
  { intros T' Hl' Hp' Hn'. exists E. cbn. rewrite Hl', Hp'. split_and!; try done.
    - split; cbn; try done; [constructor | by rewrite Hn', (fo_null _ _ _ Hf)].
    - exists 0%nat. constructor.
    - constructor.
    - constructor. }
  rewrite decide_False by (rewrite (fo_root _ _ _ Hf); by destruct t).
  assert (∀ T0, links T0 = links T → payload T0 = payload T → null_element T0 = null_element T → ∃ T1,
    delete_tree_element (S (size (links T))) T0 (ptr_of t) = Ret T1 ∧ released T0 (elems t) es T1) as Hdel.
  { intros T0 Hl0 Hp0 Hn0. apply delete_tree_element_spec; [rewrite (size_links _ t); [lia | done | done] | | done | by rewrite Hp0 | ].
    - rewrite Hl0. apply (fo_holds _ _ _ Hf).
    - rewrite Hn0. apply (fo_null _ _ _ Hf). }
  assert (root T = ptr_of t) as Hroot by apply (fo_root _ _ _ Hf).
  assert (∀ n, n ∉ elems t → links T !! n = None ∧ payload T !! n = None) as Hout.
  { intros n Hn. split; apply not_elem_of_dom; rewrite ?Hp, Hd; by rewrite elem_of_list_to_set. }
  destruct (with_delete T) eqn:Hw.
  - rewrite Hroot. destruct (Hdel T) as (T1 & -> & [L1 P1 F1 S1 R1 N1]); [done.. |]. obind. rewrite Hw in *.
    assert (links T1 = ∅ ∧ payload T1 = ∅) as [HL HP].
    { split; apply map_eq; intros n; rewrite lookup_empty; [rewrite L1 | rewrite P1]; cbn; (case_bool_decide; [done | by apply Hout]). }
    eexists. split; [done |]. split_and!; [by apply Hempty | done | done | done | done].
  - destruct (has_free T) eqn:Hfree.
    + set (T0 := if bool_decide (memory_limit T ≠ 0) then call_free FreeInit T else T).
      assert (links T0 = links T ∧ payload T0 = payload T ∧ null_element T0 = null_element T ∧ root T0 = root T ∧ settings T0 = settings T ∧
        freed T0 = freed T ++ (if bool_decide (memory_limit T ≠ 0) then [FreeInit] else [])) as (L0 & P0 & N0 & R0 & S0 & F0).
      { unfold T0. case_bool_decide; split_and!; try done. by rewrite app_nil_r. }
      rewrite R0, Hroot. destruct (Hdel T0) as (T1 & -> & [L1 P1 F1 S1 R1 N1]); [done.. |]. obind.
      rewrite S0 in S1. injection S0 as S0a S0b S0c S0d S0e. pose proof S1 as S1'. injection S1' as S1a S1b S1c S1d S1e.
      eexists. split; [done |]. rewrite S1b. rewrite S0d, Hfree, F0 in F1. split_and!; [apply Hempty; [done | done |] | | | |].
      * case_bool_decide; cbn; congruence.
      * unfold settings in *. case_bool_decide; cbn; congruence.
      * done.
      * case_bool_decide; cbn; rewrite F1; rewrite <- ?app_assoc; [done | by rewrite app_nil_r].
      * done.
    + obind. eexists. split; [done |]. split_and!; [by apply Hempty | done | done | cbn; by rewrite app_nil_r | done].
Qed.

(** ** [tree_insert] *)

Lemma located_counts T key es t path eb em ea a :
  located T key es t path eb em ea → located (with_counts (elements_in_tree T) a T) key es t path eb em ea.
Proof. intros [Hf H1 H2 H3 [H4 H5 H6 H7 H8] H9 H10 H11 H12 H13]. split; try done. by apply (focus_ext T). Qed.

Lemma represents_counts T es a : represents T es → represents (with_counts (elements_in_tree T) a T) es.
Proof. intros (t & Hf & H). exists t. split; [by apply (focus_ext T) | exact H]. Qed.

(** The memory counted for a new element, and whether it exceeds the limit of the tree. *)
Definition new_size T (key_size : Z) : Z := u64_size (allocated T + u32_size (sizeof_TREE_ELEMENT + key_size + size_of_element T)).
Definition full T es (key_size : Z) : Prop := memory_limit T ≠ 0 ∧ es ≠ [] ∧ new_size T key_size > memory_limit T.

#[global] Instance full_dec T es ks : Decision (full T es ks).
Proof. unfold full. destruct es; [right; tauto |]. destruct (decide (memory_limit T ≠ 0 ∧ new_size T ks > memory_limit T)); [left | right]; naive_solver. Defined.

Lemma full_eq T es ks : elements_in_tree T = Z.of_nat (length es) →
  bool_decide (memory_limit T ≠ 0) && bool_decide (elements_in_tree T ≠ 0) && bool_decide (new_size T ks > memory_limit T) = bool_decide (full T es ks).
Proof.
  intros Hc. rewrite <- !bool_decide_and. apply bool_decide_ext. unfold full. rewrite Hc. destruct es; cbn; [naive_solver lia |].
  split; [intros ((? & ?) & ?) | intros (? & ? & ?)]; split_and!; done || lia.
Qed.

(** A key that is not in the tree, within the limit. *)
Lemma insert_absent calls T es key ks alloc :
  represents T es → Z.of_nat (length es) < 2 ^ 31 → find_key key es = None → Z.land (flag T) TREE_ONLY_DUPS = 0 → ¬ full T es ks →
  (∀ n, alloc = Some n → links T !! n = None) → ∃ res T',
  tree_insert compare calls T key ks alloc = Ret (res, T') ∧ settings T' = settings T ∧ freed T' = freed T ∧
  match alloc with None => res = Failed ∧ represents T' es | Some n => res = Inserted n ∧ represents T' (upsert key es) end.
Proof using Hcmp.
  intros Hrep Hlen Hnone Hflag Hfull Halloc. destruct (descend_root T es key Hrep Hlen) as (t & path & eb & em & ea & Hd & Hloc & Hend).
  destruct Hend as [[-> ->] | (c & l & n & r & e & -> & He & Heq)]; cycle 1.
  { destruct (located_node _ _ _ _ _ _ _ _ _ _ _ _ Hloc He Heq) as (el & er & -> & _ & _ & Hl & _). by rewrite find_split in Hnone. }
  assert (elements_in_tree T = Z.of_nat (length es)) as Hc by apply (lc_count _ _ _ _ _ _ _ _ Hloc).
  destruct calls as [| calls]; cbn [tree_insert]; rewrite Hd; obind; cbn [ptr_of]; rewrite (bool_decide_false (Z.land _ _ ≠ 0)) by lia;
    cbn [memory_limit elements_in_tree allocated with_counts]; fold (new_size T ks); rewrite (full_eq T es), bool_decide_false by done.
  all: destruct alloc as [n |]; [| eexists _, _; split; [done |]; split_and!; [done..| by apply represents_counts]].
  all: destruct (add_element_spec _ key es path eb ea n (located_counts _ _ _ _ _ _ _ _ (new_size T ks) Hloc)) as (T' & -> & Hrep' & Hs' & _ & Hf');
    [by apply Halloc | done |]; obind; eexists _, _; split; [done |]; by split_and!.
Qed.

(** C12: [tree_insert] is insertion into a sorted table.  On a tree with fewer than 2^31 elements that
    stands for the table [es], it returns, within the array [parents] and without touching memory that is
    not there.  If the key is in the table it counts it once more, or refuses it under
    [TREE_NO_DUPS].  If not, it adds it with the count 1 in its place, after emptying the tree (with a call of [free]
    for every key) when the memory limit would be exceeded, refuses it under [TREE_ONLY_DUPS], and reports
    failure when there is no memory.  In every case the new tree is again sorted and
    balanced and stands for the new table. *)
Theorem tree_insert_correct T es key ks alloc :
  represents T es → Z.of_nat (length es) < 2 ^ 31 → (∀ n, alloc = Some n → links T !! n = None) → ∃ res T',
  tree_insert compare 1 T key ks alloc = Ret (res, T') ∧ settings T' = settings T ∧
  match find_key key es with
  | Some _ =>
      if bool_decide (Z.land (flag T) TREE_NO_DUPS ≠ 0) then res = Failed ∧ T' = T
      else (∃ n, res = Inserted n) ∧ represents T' (upsert key es) ∧ freed T' = freed T
  | None =>
      if bool_decide (Z.land (flag T) TREE_ONLY_DUPS ≠ 0) then res = Unique ∧ T' = T
      else
        let es0 := if bool_decide (full T es ks) then [] else es in
        freed T' = freed T ++ (if bool_decide (full T es ks) then free_calls T es else []) ∧
        match alloc with
        | None => res = Failed ∧ represents T' es0
        | Some n => res = Inserted n ∧ represents T' (upsert key es0)
        end
  end.
Proof using Hcmp.
  intros Hrep Hlen Halloc. destruct (descend_root T es key Hrep Hlen) as (t & path & eb & em & ea & Hd & Hloc & Hend).
  destruct Hend as [[-> ->] | (c & l & n & r & e & -> & He & Heq)]; cycle 1.
  { destruct (located_node _ _ _ _ _ _ _ _ _ _ _ _ Hloc He Heq) as (el & er & Hes & _ & _ & Hl & _).
    assert (find_key key es = Some e) as -> by (rewrite Hes; by apply find_split). cbn [tree_insert]. rewrite Hd. obind. cbn [ptr_of]. case_bool_decide; [by eexists _, _ |].
    destruct e as [k ct]. rewrite He. cbn [of_option]. obind. eexists _, _. split; [done |]. split; [done |]. split; [by eexists |]. split; [| done].
    by eapply bump_spec. }
  assert (find_key key es = None) as Hnone.
  { pose proof (lc_found _ _ _ _ _ _ _ _ Hloc) as [_ _ _ Hl Hg]. rewrite (lc_entries _ _ _ _ _ _ _ _ Hloc). by apply find_none. }
  rewrite Hnone. destruct (decide (Z.land (flag T) TREE_ONLY_DUPS = 0)) as [Hflag | Hflag]; cycle 1.
  { rewrite bool_decide_true by done. cbn [tree_insert]. rewrite Hd. obind. cbn [ptr_of]. rewrite bool_decide_true by done. by eexists _, _. }
  rewrite (bool_decide_false (Z.land _ TREE_ONLY_DUPS ≠ 0)) by lia. destruct (decide (full T es ks)) as [Hfull | Hfull]; cycle 1.
  { rewrite bool_decide_false by done. rewrite app_nil_r. destruct (insert_absent 1 T es key ks alloc) as (res & T' & Hi & Hs' & Hf' & Hres); try done. by exists res, T'. }
  rewrite bool_decide_true by done. cbn [tree_insert]. rewrite Hd. obind. cbn [ptr_of]. rewrite (bool_decide_false (Z.land _ TREE_ONLY_DUPS ≠ 0)) by lia.
  cbn [memory_limit elements_in_tree allocated with_counts]. fold (new_size T ks).
  rewrite (full_eq T es), bool_decide_true by (done || apply (lc_count _ _ _ _ _ _ _ _ Hloc)). unfold reset_tree.
  destruct (free_tree_spec _ es (represents_counts _ _ (new_size T ks) Hrep)) as (T1 & -> & Hrep1 & Hs1 & Ha1 & Hf1 & Hl1). obind.
  pose proof Hs1 as Hs1'. injection Hs1' as _ _ _ _ Hflag1. cbn in Hflag1.
  destruct (insert_absent 0 T1 [] key ks alloc) as (res & T' & Hi & Hs' & Hf' & Hres); [done | done | done | congruence | | |].
  { intros (_ & ? & _). done. }
  { intros n _. by rewrite Hl1. }
  exists res, T'. split; [done |]. split; [by rewrite Hs', Hs1 |]. split; [by rewrite Hf', Hf1 | done].
Qed.

End spec.

(** ** Example: numbers *)

Definition by_value (a b : Z) : Z := a - b.

#[global] Instance by_value_comparison : Comparison by_value.
Proof. split; unfold by_value; lia. Qed.

Lemma init_represents {K} (compare : K → K → Z) limit size b d : represents compare (init_tree limit size b d) [].
Proof.
  exists E. split_and!; try done; [| by exists 0%nat; constructor | constructor | constructor]. split; try done. constructor.
Qed.

(** A tree of three elements: 5 above 3 and 8. *)
Definition three : TREE Z :=
  mkTREE (Elem 1) (mkElement NULL NULL BLACK)
    {[ 1%nat := mkElement (Elem 2) (Elem 3) BLACK; 2%nat := mkElement Nil Nil RED; 3%nat := mkElement Nil Nil RED ]}
    {[ 1%nat := (5, 1); 2%nat := (3, 2); 3%nat := (8, 1) ]} 3 8 0 96 true true 0 [].

Lemma three_represents : represents by_value three [(3, 2); (5, 1); (8, 1)].
Proof.
  exists (N BLACK (N RED E 2 E) 1 (N RED E 3 E)). split_and!; try done.
  - split; cbn; try done. repeat constructor; set_solver.
  - exists 1%nat. by repeat constructor.
  - by repeat constructor.
  - by repeat constructor.
Qed.

Lemma tree_insert_correct_witness :
  represents by_value (init_tree 0 8 false true) [] ∧
  ∃ res T', tree_insert by_value 1 (init_tree 0 8 false true) 5 0 (Some 7%nat) = Ret (res, T') ∧ represents by_value T' [(5, 1)].
Proof.
  split; [apply init_represents |].
  destruct (tree_insert_correct by_value (init_tree 0 8 false true) [] 5 0 (Some 7%nat)) as (res & T' & Hi & _ & _ & _ & Hrep);
    [apply init_represents | done | done |]. exists res, T'. split; [exact Hi | exact Hrep].
Defined.
