(* ===== verification/TreeDelete.v ===== *)
(** * Red-black trees: deletion

    The loop of [rb_delete_fixup] restores the colour rules when a subtree has one black
    element too few; [tree_delete] removes exactly the element of the key. *)

From S2P Require Import Prelude Tree TreeRep TreeInsert TreeSpec.

Section fixup.
Context {K : Type}.
Implicit Types T : TREE K.

(** The far child of the sibling is red: the final rotation. *)
Lemma rotate_far T d c x p a w b path :
  focus T (mk d c x p (mk d BLACK a w b)) path → b ≠ E → ∃ T',
  (epar ← load T (Elem p);
   t ← store T (Elem w) (paint (e_colour epar));
   t ← store t (Elem p) (paint BLACK);
   ew ← load t (Elem w);
   t ← store t (child_of (flip d) ew) (paint BLACK);
   t ← rotate d t (slot_of path) (Elem p);
   Ret (inr (t, root t) : TREE K * list slot * ptr + TREE K * ptr)) = Ret (inr (T', root T')) ∧
  focus T' (mk d c (mk d BLACK x p a) w (recolour BLACK b)) path ∧ same T T'.
Proof.
  intros Hf Hb. rewrite (load_mk _ _ _ _ _ _ _ Hf). obind. rewrite colour_element.
  destruct (paint_mk _ _ _ _ _ _ _ c (focus_side _ _ _ _ _ _ _ Hf)) as (T1 & -> & Hf1 & Hs1). obind. apply focus_home in Hf1.
  destruct (paint_mk _ _ _ _ _ _ _ BLACK Hf1) as (T2 & -> & Hf2 & Hs2). obind.
  rewrite (load_mk _ _ _ _ _ _ _ (focus_side _ _ _ _ _ _ _ Hf2)). obind. rewrite child_flip.
  destruct (paint_focus _ _ _ BLACK (focus_side _ _ _ _ _ _ _ (focus_side _ _ _ _ _ _ _ Hf2))) as (T3 & -> & Hf3 & Hs3); [by left |].
  obind. apply focus_home, focus_home in Hf3. destruct (rotate_focus _ _ _ _ _ _ _ _ _ _ Hf3) as (T4 & -> & Hf4 & Hs4). obind.
  exists T4. split; [done |]. split; [done |]. by transitivity T1; [| transitivity T2; [| transitivity T3]].
Qed.

(** Both children of the sibling are black. *)
Lemma black_both T d c x p a w b path s1 ps :
  focus T (mk d c x p (mk d BLACK a w b)) path → col a = BLACK → col b = BLACK → ∃ T',
  rb_delete_black d T ps (Elem p) (Elem w) s1 = Ret (inl (T', drop 1 ps, Elem p)) ∧
  focus T' (mk d c x p (mk d RED a w b)) path ∧ same T T'.
Proof.
  intros Hf Ha Hb. pose proof (focus_side _ _ _ _ _ _ _ Hf) as Hw. unfold rb_delete_black. rewrite (load_mk _ _ _ _ _ _ _ Hw). obind.
  rewrite child_element, child_flip, (load_focus _ _ _ (focus_down _ _ _ _ _ _ _ Hw)). obind. rewrite (load_focus _ _ _ (focus_side _ _ _ _ _ _ _ Hw)). obind.
  fold (col a) (col b). rewrite decide_True by done. destruct (paint_mk _ _ _ _ _ _ _ RED Hw) as (T1 & -> & Hf1 & Hs1). obind. apply focus_home in Hf1. by exists T1.
Qed.

Lemma black_far T d c x p a w b path ps :
  focus T (mk d c x p (mk d BLACK a w b)) path → col b = RED → ∃ T',
  rb_delete_black d T ps (Elem p) (Elem w) (slot_of path) = Ret (inr (T', root T')) ∧
  focus T' (mk d c (mk d BLACK x p a) w (recolour BLACK b)) path ∧ same T T'.
Proof.
  intros Hf Hb. pose proof (focus_side _ _ _ _ _ _ _ Hf) as Hw. unfold rb_delete_black. rewrite (load_mk _ _ _ _ _ _ _ Hw). obind.
  rewrite child_element, child_flip, (load_focus _ _ _ (focus_down _ _ _ _ _ _ _ Hw)). obind. rewrite (load_focus _ _ _ (focus_side _ _ _ _ _ _ _ Hw)). obind.
  fold (col a) (col b). rewrite Hb, decide_False, decide_False by naive_solver. obind. apply rotate_far; [done | by destruct b].
Qed.

Lemma black_near T d c x p a1 m a2 w b path ps :
  focus T (mk d c x p (mk d BLACK (mk d RED a1 m a2) w b)) path → col b = BLACK → ∃ T',
  rb_delete_black d T ps (Elem p) (Elem w) (slot_of path) = Ret (inr (T', root T')) ∧
  focus T' (mk d c (mk d BLACK x p a1) m (mk d BLACK a2 w b)) path ∧ same T T'.
Proof.
  intros Hf Hb. pose proof (focus_side _ _ _ _ _ _ _ Hf) as Hw. unfold rb_delete_black. rewrite (load_mk _ _ _ _ _ _ _ Hw). obind.
  rewrite child_element, child_flip, (load_focus _ _ _ (focus_down _ _ _ _ _ _ _ Hw)). obind. rewrite (load_focus _ _ _ (focus_side _ _ _ _ _ _ _ Hw)). obind.
  fold (col (mk d RED a1 m a2)) (col b). rewrite col_mk, ptr_of_mk, Hb. rewrite decide_False by naive_solver. rewrite decide_True by done.
  destruct (paint_mk _ _ _ _ _ _ _ BLACK (focus_down _ _ _ _ _ _ _ Hw)) as (T1 & -> & Hf1 & Hs1). obind. apply focus_back in Hf1.
  destruct (paint_mk _ _ _ _ _ _ _ RED Hf1) as (T2 & -> & Hf2 & Hs2). obind. rewrite <- (mk_flip d RED), <- (mk_flip d BLACK) in Hf2.
  change (SLink (flip d) (Elem p)) with (slot_of (Fr (flip d) c p x :: path)).
  destruct (rotate_focus _ _ _ _ _ _ _ _ _ _ Hf2) as (T3 & -> & Hf3 & Hs3). obind. rewrite !mk_flip in Hf3. apply focus_home in Hf3.
  rewrite (load_mk _ _ _ _ _ _ _ Hf3). obind. rewrite child_flip, ptr_of_mk.
  destruct (rotate_far _ _ _ _ _ _ _ _ _ Hf3) as (T4 & Hrot & Hf4 & Hs4); [by destruct d |]. rewrite recolour_mk in Hf4.
  exists T4. split; [exact Hrot |]. split; [done |]. by transitivity T1; [| transitivity T2; [| transitivity T3]].
Qed.

Definition up (c : colour) (h : nat) : nat := match c with BLACK => S h | RED => h end.

Lemma rb_mk d c a n b h : rb a h → rb b h → col a = BLACK → col b = BLACK → rb (mk d c a n b) (up c h).
Proof. intros. destruct c; cbn; [by apply rb_mk_red | by apply rb_mk_black]. Qed.

Lemma rb_black_inv d t h : rb t (S h) → col t = BLACK → ∃ a n b, t = mk d BLACK a n b ∧ rb a h ∧ rb b h.
Proof.
  intros Hrb Hc. destruct t as [| [] l n r]; [by inversion Hrb | done |]. inversion Hrb. subst. destruct d; by eexists _, _, _.
Qed.

Lemma rb_red_inv d t h : rb t h → col t = RED → ∃ a n b, t = mk d RED a n b ∧ rb a h ∧ rb b h ∧ col a = BLACK ∧ col b = BLACK.
Proof.
  intros Hrb Hc. destruct t as [| [] l n r]; [done | | done]. inversion Hrb. subst. destruct d; by eexists _, _, _.
Qed.

(** The sibling [s] is black: the subtree becomes right, or it stays one black element short
    after painting its root black. *)
Lemma black_spec T d c x p s path h ps :
  focus T (mk d c x p s) path → rb x h → rb s (S h) → col s = BLACK → ∃ res,
  rb_delete_black d T ps (Elem p) (ptr_of s) (slot_of path) = Ret res ∧ ∃ T' t',
    focus T' t' path ∧ same T T' ∧ elems t' = elems (mk d c x p s) ∧ col t' = c ∧ t' ≠ E ∧
    match res with
    | inl (T1, ps', x') => T1 = T' ∧ ps' = drop 1 ps ∧ x' = ptr_of t' ∧ rb (recolour BLACK t') (S h)
    | inr (T1, r) => T1 = T' ∧ r = root T' ∧ rb t' (up c (S h))
    end.
Proof.
  intros Hf Hx Hs Hcs. destruct (rb_black_inv d s h Hs Hcs) as (a & w & b & -> & Ha & Hb). rewrite ptr_of_mk.
  assert (∀ c t u n, mk d c t n u ≠ E) as Hne by (by destruct d).
  destruct (col b) eqn:Hcb; [| destruct (col a) eqn:Hca].
  - destruct (black_far _ _ _ _ _ _ _ _ _ ps Hf Hcb) as (T' & -> & Hf' & Hsame). eexists. split; [done |].
    eexists _, _. split; [done |]. split_and!; try done; [by elems_eq | by autorewrite with tree |].
    pose proof (rb_blacken _ _ Hb) as Hb'. rewrite decide_True in Hb' by done.
    apply rb_mk; [by apply rb_mk_black | done | by autorewrite with tree | by destruct b].
  - destruct (rb_red_inv d a h Ha Hca) as (a1 & m & a2 & -> & Ha1 & Ha2 & _ & _).
    destruct (black_near _ _ _ _ _ _ _ _ _ _ _ ps Hf Hcb) as (T' & -> & Hf' & Hsame). eexists. split; [done |].
    eexists _, _. split; [done |]. split_and!; try done; [by elems_eq | by autorewrite with tree |].
    apply rb_mk; [by apply rb_mk_black | by apply rb_mk_black | by autorewrite with tree | by autorewrite with tree].
  - destruct (black_both _ _ _ _ _ _ _ _ _ (slot_of path) ps Hf Hca Hcb) as (T' & -> & Hf' & Hsame). eexists. split; [done |].
    eexists _, _. split; [done |]. split_and!; try done; [by elems_eq | by autorewrite with tree | by autorewrite with tree |].
    rewrite recolour_mk. apply rb_mk_black. split; [done |]. by apply rb_mk_red.
Qed.

(** One turn.  The subtree [x] has one black element too few for its path. *)
Lemma rb_delete_turn_spec T d c x p s path h :
  focus T x (Fr d c p s :: path) → rb x h → ctx (Fr d c p s :: path) (S h) → (length path ≤ 61)%nat → ∃ res,
  rb_delete_turn d T (slots (Fr d c p s :: path)) (Elem p) (slot_of path) = Ret res ∧ ∃ T' t' path' h',
    focus T' t' path' ∧ same T T' ∧ elems (plug t' path') = elems (plug x (Fr d c p s :: path)) ∧ t' ≠ E ∧
    match res with
    | inl (T1, ps', x') => T1 = T' ∧ ps' = slots path' ∧ x' = ptr_of t' ∧ ctx path' (S h') ∧
        rb (recolour BLACK t') (if decide (col t' = RED) then S h' else h') ∧ (length path' ≤ S (length path))%nat ∧ (col t' = RED ∨ path' = path)
    | inr (T1, r) => T1 = T' ∧ r = root T' ∧ rb t' h' ∧ ctx path' h' ∧ (col t' = RED → pcol path' = Some BLACK)
    end.
Proof.
  intros Hf Hx [Hs Hctx] Hlen. cbn in Hs, Hctx. apply focus_back in Hf. unfold rb_delete_turn. rewrite (load_mk _ _ _ _ _ _ _ Hf). obind. rewrite child_flip.
  rewrite (load_focus _ _ _ (focus_side _ _ _ _ _ _ _ Hf)). obind. fold (col s). destruct (decide (col s = RED)) as [Hcs | Hcs].
  - destruct c; [naive_solver congruence |]. destruct (rb_red_inv d s _ Hs Hcs) as (a & w & b & -> & Ha & Hb & Hca & Hcb). rewrite ptr_of_mk.
    destruct (paint_mk _ _ _ _ _ _ _ BLACK (focus_side _ _ _ _ _ _ _ Hf)) as (T1 & -> & Hf1 & Hs1). obind. apply focus_home in Hf1.
    destruct (paint_mk _ _ _ _ _ _ _ RED Hf1) as (T2 & -> & Hf2 & Hs2). obind.
    destruct (rotate_focus _ _ _ _ _ _ _ _ _ _ Hf2) as (T3 & -> & Hf3 & Hs3). obind. apply focus_down in Hf3.
    rewrite slots_cons. cbn [drop]. unfold push.
    rewrite (decide_True (P := (length (SLink d (Elem w) :: slots path) < MAX_TREE_HEIGHT)%nat)) by (cbn [length]; rewrite length_slots; unfold MAX_TREE_HEIGHT; lia). obind.
    rewrite (load_mk _ _ _ _ _ _ _ Hf3). obind. rewrite child_flip. change (SLink d (Elem w)) with (slot_of (Fr d BLACK w b :: path)) at 2.
    destruct (black_spec _ _ _ _ _ _ _ h (SLink d (Elem p) :: slots (Fr d BLACK w b :: path)) Hf3 Hx Ha Hca)
      as (res & Hres & T4 & t4 & Hf4 & Hs4 & He4 & Hc4 & Hne4 & Hr4).
    exists res. split; [exact Hres |]. exists T4, t4, (Fr d BLACK w b :: path).
    assert (elems (plug t4 (Fr d BLACK w b :: path)) = elems (plug x (Fr d BLACK p (mk d RED a w b) :: path))) as Hel.
    { cbn [plug]. apply elems_plug_eq. unfold plug1. cbn [f_dir f_col f_elem f_sib]. transitivity (elems (mk d BLACK (mk d RED x p a) w b)); [| by elems_eq].
      destruct d; cbn; by rewrite He4. }
    assert (same T T4) by (by transitivity T1; [| transitivity T2; [| transitivity T3]]).
    destruct res as [[[T5 ps'] x'] | [T5 r]].
    + destruct Hr4 as (-> & -> & -> & Hrb). exists h. rewrite decide_True by done. split_and!; try done. by left.
    + destruct Hr4 as (-> & -> & Hrb). exists (S h). by split_and!.
  - assert (col s = BLACK) as Hcs' by (by destruct (col s)).
    destruct (black_spec _ _ _ _ _ _ _ h (slots (Fr d c p s :: path)) Hf Hx Hs Hcs') as (res & Hres & T4 & t4 & Hf4 & Hs4 & He4 & Hc4 & Hne4 & Hr4).
    exists res. split; [exact Hres |]. exists T4, t4, path. assert (elems (plug t4 path) = elems (plug x (Fr d c p s :: path))) as Hel.
    { cbn [plug]. by apply elems_plug_eq. }
    destruct res as [[[T5 ps'] x'] | [T5 r]].
    + destruct Hr4 as (-> & -> & -> & Hrb). destruct c.
      * exists h. rewrite decide_True by done. split_and!; try done; [apply Hctx | lia | by left].
      * exists (S h). rewrite decide_False by (by rewrite Hc4). split_and!; try done; [lia | by right].
    + destruct Hr4 as (-> & -> & Hrb). exists (up c (S h)). destruct c; cbn; split_and!; try done; [apply Hctx | intros _; apply Hctx | by rewrite Hc4].
Qed.

Lemma ctx_root path : ∀ t h, ctx path h → path ≠ [] → col (plug t path) = BLACK.
Proof.
  induction path as [| f path IH]; intros t h Hctx Hne; [done |]. destruct Hctx as [_ Hctx]. cbn. destruct path as [| g path].
  - cbn. unfold plug1. rewrite col_mk. destruct (f_col f); [naive_solver | done].
  - destruct (f_col f); [eapply IH; [apply Hctx | done] | by eapply IH].
Qed.

(** What the loop of [rb_delete_fixup] and the painting after it achieve. *)
Definition fixed T (t : ftree) (r : outcome (TREE K * ptr)) : Prop := ∃ T' x, r = Ret (T', x) ∧ ∃ T'' t',
  store T' x (paint BLACK) = Ret T'' ∧ focus T'' t' [] ∧ (∃ h, rb t' h) ∧ col t' = BLACK ∧ elems t' = elems t ∧ same T T''.

(** The loop ends at the root, at a red element, or after the last rotation. *)
Lemma fixed_end T x path h :
  focus T x path → ctx path (S h) → rb (recolour BLACK x) (if decide (col x = RED) then S h else h) → path = [] ∨ col x = RED →
  fixed T (plug x path) (Ret (T, ptr_of x)).
Proof.
  intros Hf Hctx Hrb Hend. eexists _, _. split; [done |]. destruct (paint_focus _ _ _ BLACK Hf) as (T' & HT & Hf' & Hs); [by right |].
  exists T', (plug (recolour BLACK x) path). split_and!; [done | exact (proj1 (focus_plug _ _ _) Hf') | | | | done].
  - destruct Hend as [-> | Hred]; [by eexists |]. rewrite decide_True in Hrb by done. eapply plug_rb; [done | done |]. by destruct x.
  - destruct path as [| f path]; [by destruct x |]. by eapply ctx_root.
  - apply elems_plug_eq. apply elems_recolour.
Qed.

Lemma rb_delete_loop_spec : ∀ fuel path T x h,
  (col x = BLACK → length path ≤ fuel)%nat → focus T x path → ctx path (S h) → rb (recolour BLACK x) (if decide (col x = RED) then S h else h) →
  (length path ≤ 62)%nat → fixed T (plug x path) (rb_delete_loop fuel T (slots path) (ptr_of x)).
Proof.
  assert (∀ fuel path T x h, focus T x path → ctx path (S h) → rb (recolour BLACK x) (if decide (col x = RED) then S h else h) → path = [] ∨ col x = RED →
    fixed T (plug x path) (rb_delete_loop fuel T (slots path) (ptr_of x))) as Hexit.
  { intros fuel path T x h Hf Hctx Hrb Hend. destruct path as [| f path].
    - replace (rb_delete_loop _ _ _ _) with (Ret (T, ptr_of x)); [by eapply fixed_end |].
      pose proof (fo_root _ _ _ Hf). destruct fuel; cbn; by rewrite decide_True.
    - destruct Hend as [| Hred]; [done |]. replace (rb_delete_loop _ _ _ _) with (Ret (T, ptr_of x)); [eapply fixed_end; [done.. | by right] |].
      destruct fuel; cbn [rb_delete_loop]; rewrite decide_False by (by eapply focus_not_root); rewrite (load_focus _ _ _ Hf); obind; fold (col x);
      by rewrite decide_False by (by rewrite Hred). }
  induction fuel as [| fuel IH]; intros path T x h Hfuel Hf Hctx Hrb Hlen; (destruct (decide (col x = RED)) as [Hred | Hcol]; [eapply Hexit; [done.. | by rewrite decide_True | by right] |]).
  { assert (col x = BLACK) as Hb by (by destruct (col x)). destruct path; [| specialize (Hfuel Hb); cbn in *; lia]. eapply Hexit; [done | done | by rewrite decide_False | by left]. }
  assert (col x = BLACK) as Hb by (by destruct (col x)). rewrite recolour_id in Hrb by done.
  destruct path as [| [d c p s] path]; [eapply Hexit; [done | done | by rewrite decide_False, recolour_id | by left] |].
  cbn [rb_delete_loop]. rewrite decide_False by (by eapply focus_not_root). rewrite (load_focus _ _ _ Hf). obind. fold (col x). rewrite decide_True by done.
  rewrite slots_cons. cbn [lookup list_lookup]. rewrite slots_lookup. cbn [of_option]. obind. pose proof (focus_back _ _ _ _ _ _ _ Hf) as Hp.
  rewrite (read_focus _ _ _ Hp), ptr_of_mk. obind. rewrite (load_mk _ _ _ _ _ _ _ Hp). obind.
  rewrite which_child by (eapply focus_links; [done | right; destruct Hctx as [Hs _]; by eapply rb_nonempty]). rewrite <- slots_cons. cbn in Hlen.
  destruct (rb_delete_turn_spec _ _ _ _ _ _ _ _ Hf Hrb Hctx ltac:(lia)) as (res & -> & T1 & t1 & path1 & h1 & Hf1 & Hs1 & He1 & Hne1 & Hres). obind.
  destruct res as [[[T2 ps2] x2] | [T2 r]].
  - destruct Hres as (-> & -> & -> & Hctx1 & Hrb1 & Hlen1 & Hor).
    destruct (IH path1 T1 t1 h1) as (T3 & x3 & -> & T4 & t4 & Hst & Hf4 & Hrb4 & Hc4 & He4 & Hs4); [| done.. | lia |].
    { intros Hcb. destruct Hor as [Hr | ->]; [congruence |]. specialize (Hfuel Hb). cbn in Hfuel. lia. }
    exists T3, x3. split; [done |]. exists T4, t4. split_and!; try done; [congruence | by transitivity T1].
  - destruct Hres as (-> & -> & Hrb1 & Hctx1 & Hpc1). exists T1, (root T1). split; [done |]. apply focus_plug in Hf1. rewrite (fo_root _ _ _ Hf1). cbn [top].
    destruct (paint_focus _ _ _ BLACK Hf1) as (T3 & HT3 & Hf3 & Hs3); [by right |]. exists T3, (recolour BLACK (plug t1 path1)).
    destruct (plug_rb path1 t1 h1) as (h' & Hrb'); [done | done | intros Hr; by rewrite (Hpc1 Hr) |].
    split_and!; [done | done | eexists; by apply rb_blacken | by destruct (plug t1 path1) | by rewrite elems_recolour | by transitivity T1].
Qed.

Lemma rb_delete_fixup_spec T x path h :
  focus T x path → rb x h → ctx path (S h) → (length path ≤ 62)%nat → ∃ T' t',
  rb_delete_fixup T (slots path) = Ret T' ∧ focus T' t' [] ∧ (∃ h', rb t' h') ∧ col t' = BLACK ∧ elems t' = elems (plug x path) ∧ same T T'.
Proof.
  intros Hf Hrb Hctx Hlen. unfold rb_delete_fixup. rewrite slots_head. cbn [of_option]. obind. rewrite (read_focus _ _ _ Hf). obind.
  destruct (rb_delete_loop_spec (S (length (slots path))) path T x h) as (T1 & x1 & -> & T' & t' & Hst & H); [rewrite length_slots; lia | done | done | by apply rb_blacken | done |].
  obind. exists T', t'. split; [done |]. tauto.
Qed.

(** ** Taking an element out of the tree *)

(** Writing the link at the end of the path to a part of the subtree there. *)
Lemma replace_focus T t t' path :
  focus T t path → holds (links T) t' → NoDup (elems t') → (∀ n, n ∈ elems t' → n ∈ elems t) → ∃ T',
  write_slot T (slot_of path) (ptr_of t') = Ret T' ∧ focus T' t' path ∧ same T T' ∧ ∀ n, n ∉ pelems path → links T' !! n = links T !! n.
Proof.
  intros [Hr Hh Hp Hnd Hnull] Ht' Hnd' Hsub. apply NoDup_app in Hnd as (Hnd1 & Hdis & Hnd2).
  destruct (write_focus T path (ptr_of t) (ptr_of t') Hr Hp Hnd2) as (T' & HT & Hs & Hn & Hr' & Hp' & Hold). exists T'. split_and!; try done. split; try done.
  - eapply holds_eq; [| done]. intros n Hin. apply Hold. by apply Hdis, Hsub.
  - apply NoDup_app. split_and!; [done | | done]. intros n Hin. by apply Hdis, Hsub.
  - congruence.
Qed.

Lemma leftmost_spec T : ∀ fuel t path,
  (height t ≤ S fuel)%nat → (length path + height t ≤ 63)%nat → t ≠ E → focus T t path → ∃ c m r q,
  t = plug (N c E m r) q ∧ Forall (λ f, f_dir f = L) q ∧ leftmost fuel T (ptr_of t) (slots path) = Ret (Elem m, slots (q ++ path)).
Proof.
  induction fuel as [| fuel IH]; intros t path Hfuel Hlen Hne Hf.
  - destruct t as [| c l n r]; [done |]. destruct l; [| cbn in *; lia]. exists c, n, r, []. split_and!; [done | done |].
    cbn. pose proof (load_focus _ _ _ Hf) as Hl. cbn in Hl. rewrite Hl. done.
  - destruct t as [| c l n r]; [done |]. cbn [leftmost]. rewrite (load_focus _ _ _ Hf). obind. cbn [node_of e_left].
    destruct (decide (l = E)) as [-> | Hl]; [exists c, n, r, []; by split_and! |]. rewrite decide_False by (by destruct l).
    unfold push. cbn [height] in *. rewrite (decide_True (P := (length (slots path) < MAX_TREE_HEIGHT)%nat)) by (rewrite length_slots; unfold MAX_TREE_HEIGHT; lia). obind.
    destruct (IH l (Fr L c n r :: path)) as (cm & m & rm & q & Heq & Hq & Hleft); [lia | cbn; lia | done | by apply (focus_down T L) |].
    exists cm, m, rm, (q ++ [Fr L c n r]). split_and!.
    + rewrite plug_app. cbn. by rewrite <- Heq.
    + apply Forall_app. split; [done | by repeat constructor].
    + rewrite <- app_assoc. exact Hleft.
Qed.

(** [m], which is in memory but not in the tree, takes the place of [n]. *)
Lemma rename_focus T d c a n b path m em :
  focus T (mk d c a n b) path → links T !! m = Some em → m ∉ elems (mk d c a n b) ++ pelems path → ∃ T1 T2,
  write_slot T (slot_of path) (Elem m) = Ret T1 ∧ load T1 (Elem n) = Ret (element d c (ptr_of a) (ptr_of b)) ∧
  store T1 (Elem m) (λ _, element d c (ptr_of a) (ptr_of b)) = Ret T2 ∧ focus T2 (mk d c a m b) path ∧ same T T2.
Proof.
  intros [Hr Hh Hp Hnd Hnull] Hm Hfresh. rewrite ptr_of_mk in *. apply holds_mk in Hh as (Hn & Ha & Hb). apply nodup_mk in Hnd.
  rewrite (elems_mk d c a n b) in Hfresh. assert (n ∉ pelems path ∧ m ≠ n ∧ m ∉ elems a ∧ m ∉ elems b ∧ m ∉ pelems path ∧ NoDup (pelems path) ∧
    (∀ x, x ∈ elems a → x ∉ pelems path) ∧ (∀ x, x ∈ elems b → x ∉ pelems path)) as (? & ? & ? & ? & ? & ? & Hpa & Hpb).
  { rewrite NoDup_cons, !NoDup_app in Hnd. set_solver. }
  destruct (write_focus T path (Elem n) (Elem m)) as (T1 & HT & Hs & Hnl & Hr' & Hp' & Hold); [done.. |].
  assert (links T1 !! m = Some em) as Hm1 by (by rewrite Hold). eexists T1, _. split; [done |]. split; [cbn; by rewrite Hold, Hn |]. split; [by apply store_elem |].
  split; [| transitivity T1; [done | by eapply same_store]]. split; rewrite ?ptr_of_mk; try done.
  - apply holds_mk. cbn. rewrite lookup_insert_eq. split_and!; [done | |]; (eapply holds_eq; [| done]); intros x Hx.
    + rewrite lookup_insert_ne by set_solver. apply Hold. by apply Hpa.
    + rewrite lookup_insert_ne by set_solver. apply Hold. by apply Hpb.
  - cbn. by apply pholds_insert.
  - rewrite nodup_mk. apply NoDup_cons in Hnd as [_ Hnd]. constructor; [set_solver | done].
  - cbn. congruence.
Qed.

Lemma ctx_rename q d c n m s path h : ctx (q ++ Fr d c n s :: path) h → ctx (q ++ Fr d c m s :: path) h.
Proof.
  revert h. induction q as [| f q IH]; intros h; [done |]. cbn. intros [Hs Hc]. split; [done |]. destruct (f_col f); [| by apply IH].
  destruct Hc as (H1 & H2 & H3). split_and!; [done | by destruct q | by apply IH].
Qed.

Lemma slots_app q path : slots (q ++ path) = (link_of <$> q) ++ slots path.
Proof. unfold slots. by rewrite fmap_app, app_assoc. Qed.

Lemma slots_rename q d c n m s path :
  <[length q := SLink d (Elem m)]> (slots (q ++ Fr d c n s :: path)) = slots (q ++ Fr d c m s :: path).
Proof.
  rewrite !slots_app. rewrite <- (length_fmap link_of q). rewrite <- (Nat.add_0_r (length _)) at 1. by rewrite insert_app_r.
Qed.

(** A position from which a black or red element was removed. *)
Record removed T (t : ftree) (path : list frame) (c : colour) (T' : TREE K) (ns : list nat) : Prop := mkRemoved {
  rm_focus : focus T' t path;
  rm_same : same T T';
  rm_rb : ∃ h, rb t h ∧ ctx path (up c h);
  rm_red : c = RED → col t = BLACK ∧ path ≠ [];
  rm_path : (length path ≤ 62)%nat;
  rm_elems : elems (plug t path) = ns
}.

(** The element has at most one child. *)
Lemma removed_child T d c t n path h :
  focus T (mk d c t n E) path → rb (mk d c t n E) h → ctx path h → (c = RED → pcol path = Some BLACK) → (length path ≤ 62)%nat → ∃ T',
  write_slot T (slot_of path) (ptr_of t) = Ret T' ∧ removed T t path c T' (before path ++ elems t ++ after path).
Proof.
  intros Hf Hrb Hctx Hpc Hlen. pose proof (fo_nodup _ _ _ Hf) as Hnd. pose proof (fo_holds _ _ _ Hf) as Hh. apply holds_mk in Hh as (_ & Ht & _).
  apply nodup_mk, NoDup_cons in Hnd as [_ Hnd]. apply NoDup_app in Hnd as (Hndt & _).
  destruct (replace_focus _ _ t _ Hf Ht Hndt) as (T' & HT & Hf' & Hs & _).
  { intros x Hx. rewrite elems_mk. set_solver. }
  exists T'. split; [done |]. split; try done; [| | by rewrite elems_split].
  - destruct c; [apply rb_mk_red in Hrb as (Hrt & _) | destruct h; [destruct d; inversion Hrb |]; apply rb_mk_black in Hrb as (Hrt & _)]; by eexists.
  - intros ->. apply rb_mk_red in Hrb as (_ & _ & Hct & _). split; [done |]. intros ->. by specialize (Hpc eq_refl).
Qed.

Lemma elems_leftmost c m r q : Forall (λ f, f_dir f = L) q → elems (plug (N c E m r) q) = m :: elems (plug r q).
Proof.
  intros Hq. rewrite !elems_split. assert (before q = []) as ->; [| done]. induction Hq as [| f q Hf _ IH]; [done |]. cbn. by rewrite Hf.
Qed.

(** The element has two children: the leftmost element [m] of the right subtree takes its place. *)
Lemma unlink_inner T c l n cm m rm q path h' :
  let r := plug (N cm E m rm) q in let path1 := q ++ Fr R c n l :: path in
  focus T (N c l n r) path → rb (plug (N c l n r) path) h' → col (plug (N c l n r) path) = BLACK → (length path1 ≤ 62)%nat → Forall (λ f, f_dir f = L) q → ∃ T1 T2 T3,
  load T (Elem m) = Ret (mkElement Nil (ptr_of rm) cm) ∧ write_slot T (slot_of path1) (ptr_of rm) = Ret T1 ∧ write_slot T1 (slot_of path) (Elem m) = Ret T2 ∧
  (e ← load T2 (Elem n); store T2 (Elem m) (λ _, e)) = Ret T3 ∧
  removed T rm (q ++ Fr R c m l :: path) cm T3 (before path ++ (elems l ++ elems r) ++ after path).
Proof.
  intros r path1 Hf Hrb Hcol Hlen Hq. assert (plug (N c l n r) path = plug (N cm E m rm) path1) as Hplug by (unfold path1; by rewrite plug_app).
  assert (focus T (N cm E m rm) path1) as Hm by (apply focus_app; by apply (focus_side T L)).
  rewrite Hplug in *. destruct (unplug_rb _ _ _ Hrb Hcol) as (h & Hrbm & Hctx & Hpc).
  pose proof (load_focus _ _ _ Hm) as Hload. pose proof (fo_nodup _ _ _ Hm) as Hnd. cbn in Hnd. apply NoDup_cons in Hnd as [Hfresh _].
  destruct (removed_child T R cm rm m path1 h Hm Hrbm Hctx Hpc Hlen) as (T1 & HT1 & [Hf1 Hs1 Hrb1 Hred1 _ _]).
  pose proof (proj1 (focus_app _ _ _ _) Hf1) as Hf1'. apply focus_back in Hf1'.
  assert (∃ em, links T1 !! m = Some em) as (em & Hem).
  { destruct Hs1 as (h1 & r1 & -> & Hd1). apply elem_of_dom. cbn. rewrite Hd1. apply elem_of_dom. cbn in Hload.
    destruct (links T !! m); [by eexists | done]. }
  destruct (rename_focus _ _ _ _ _ _ _ m em Hf1' Hem) as (T2 & T3 & HT2 & Hl2 & HT3 & Hf3 & Hs3).
  { rewrite <- elems_plug. replace (plug (mk R c (plug rm q) n l) path) with (plug rm path1) by (unfold path1; by rewrite plug_app). by rewrite elems_plug. }
  exists T1, T2, T3. split_and!; [done | done | done | rewrite Hl2; exact HT3 |]. apply focus_down in Hf3.
  assert (length (q ++ Fr R c m l :: path) = length path1) as Hlen2 by (unfold path1; rewrite !length_app; done). split.
  - by apply focus_app.
  - by transitivity T1.
  - destruct Hrb1 as (h2 & H2 & H2'). exists h2. split; [done |]. by eapply ctx_rename.
  - intros Hc. split; [by apply Hred1 |]. by destruct q.
  - by rewrite Hlen2.
  - rewrite plug_app, elems_split. unfold r. rewrite elems_leftmost by done. cbn [before after f_dir f_elem f_sib]. by rewrite <- !app_assoc.
Qed.

Lemma unlink_spec T c l n r path h' :
  focus T (N c l n r) path → rb (plug (N c l n r) path) h' → col (plug (N c l n r) path) = BLACK → (length path + height (N c l n r) ≤ 62)%nat →
  (height (N c l n r) ≤ size (links T))%nat → ∃ T' t path' c', unlink T (Elem n) (slots path) = Ret (T', slots path', c') ∧
  removed T t path' c' T' (before path ++ (elems l ++ elems r) ++ after path).
Proof.
  intros Hf Hrb Hcol Hlen Hsize. destruct (unplug_rb _ _ _ Hrb Hcol) as (h & Hrbn & Hctx & Hpc). cbn in Hpc.
  unfold unlink. rewrite slots_head. cbn [of_option]. obind. pose proof (load_focus _ _ _ Hf) as Hload. cbn [ptr_of node_of] in Hload. rewrite Hload. obind. cbn [e_left e_right e_colour].
  destruct (decide (l = E)) as [-> | Hl]; [| destruct (decide (r = E)) as [-> | Hr]].
  - rewrite decide_True by done. destruct (removed_child T R c r n path h) as (T' & -> & Hrm); [done.. | cbn in Hlen; lia |]. by eexists _, _, _, _.
  - rewrite decide_False by (by destruct l). rewrite decide_True by done. rewrite app_nil_r.
    destruct (removed_child T L c l n path h) as (T' & -> & Hrm); [done.. | cbn in Hlen; lia |]. by eexists _, _, _, _.
  - rewrite decide_False by (by destruct l). rewrite decide_False by (by destruct r). cbn [height] in *. unfold push.
    rewrite (decide_True (P := (length (slots path) < MAX_TREE_HEIGHT)%nat)) by (rewrite length_slots; unfold MAX_TREE_HEIGHT; lia). obind.
    pose proof (focus_side T L _ _ _ _ _ Hf) as Hfr. cbn [flip] in Hfr.
    destruct (leftmost_spec T (size (links T)) r (Fr R c n l :: path)) as (cm & m & rm & q & -> & Hq & Hleft); [lia | cbn; lia | done | done |].
    rewrite slots_cons in Hleft. unfold link_of in Hleft. cbn [f_dir f_elem] in Hleft. rewrite Hleft. obind.
    set (path1 := q ++ Fr R c n l :: path). assert (length path1 ≤ 62)%nat as Hlen1.
    { unfold path1. rewrite length_app. cbn [length]. pose proof (height_plug (N cm E m rm) q). cbn [height] in *. lia. }
    destruct (unlink_inner T c l n cm m rm q path h' Hf Hrb Hcol Hlen1 Hq) as (T1 & T2 & T3 & -> & HT1 & HT2 & HT3 & Hrm). obind.
    cbn [e_right e_colour]. rewrite slots_head. cbn [of_option]. obind. fold path1 in HT1. rewrite HT1. obind. rewrite HT2. obind.
    destruct (load T2 (Elem n)) as [e | |]; try done. cbn in HT3. obind. change (store T2 (Elem m) (λ _, e) = Ret T3) in HT3. rewrite HT3. obind.
    exists T3, rm, (q ++ Fr R c m l :: path), cm. split; [| done]. do 3 f_equal. unfold path1. rewrite <- (slots_rename q R c n m l path). f_equal.
    rewrite !length_slots, length_app. cbn. lia.
Qed.

Lemma removed_fixed T t path c T1 ns :
  removed T t path c T1 ns → ∃ T2 t2, (if decide (c = BLACK) then rb_delete_fixup T1 (slots path) else Ret T1) = Ret T2 ∧
  focus T2 t2 [] ∧ (∃ h, rb t2 h) ∧ col t2 = BLACK ∧ elems t2 = ns ∧ same T T2.
Proof.
  intros [Hf Hs (h & Hrb & Hctx) Hred Hlen Hel]. destruct c.
  - rewrite decide_False by done. destruct (Hred eq_refl) as [Hct Hne]. exists T1, (plug t path).
    split_and!; [done | exact (proj1 (focus_plug _ _ _) Hf) | | by eapply ctx_root | done | done]. eapply plug_rb; [done | done | by rewrite Hct].
  - rewrite decide_True by done. destruct (rb_delete_fixup_spec T1 t path h Hf Hrb Hctx Hlen) as (T2 & t2 & -> & Hf2 & Hrb2 & Hc2 & He2 & Hs2).
    exists T2, t2. split_and!; [done.. | congruence | by transitivity T1].
Qed.

End fixup.

Section delete.
Context {K : Type} (compare : K → K → Z) `{Hcmp : !Comparison compare}.
Implicit Types (T : TREE K) (es : list (K * Z)).

Lemma entries_delete d n ns es : n ∉ ns → entries d ns es → entries (K := K) (delete n d) ns es.
Proof.
  intros Hn Hes. induction Hes as [| m e ns es He Hes IH]; constructor; [| by apply IH; set_solver].
  by rewrite lookup_delete_ne by set_solver.
Qed.

Lemma sorted_remove es e es' : StronglySorted (key_lt compare) (es ++ e :: es') → StronglySorted (key_lt compare) (es ++ es').
Proof.
  intros Hs. apply StronglySorted_app in Hs as (Hs & Hs1 & Hs2). inversion Hs2. subst. apply StronglySorted_app_2; [| done | done].
  intros x y Hx Hy. apply Hs; [done | by right].
Qed.

(** Freeing the element [n], which is no longer in the tree. *)
Lemma free_represents T t n ns es e es' :
  focus T t [] → (∃ h, rb t h) → col t = BLACK → elems t = ns → n ∉ ns → dom (links T) = {[ n ]} ∪ list_to_set ns → dom (payload T) = dom (links T) →
  entries (payload T) ns (es ++ es') → StronglySorted (key_lt compare) (es ++ e :: es') → elements_in_tree T = Z.of_nat (length (es ++ e :: es')) →
  Z.of_nat (length (es ++ e :: es')) < 2 ^ 31 → ∃ T', my_free (Elem n) T = Ret T' ∧
  (∀ a, represents compare (with_counts (u32_size (elements_in_tree T' - 1)) a T') (es ++ es')) ∧ settings T' = settings T ∧ freed T' = freed T.
Proof.
  intros Hf Hrb Hc He Hn Hd Hp Hes Hs Hcount Hlen. assert (is_Some (links T !! n)) as [x Hx] by (apply elem_of_dom; rewrite Hd; set_solver).
  cbn. rewrite Hx. cbn. eexists. split; [done |]. split_and!; [| done | done]. intros a. exists t. split_and!; [| done | done | | | | |]; cbn.
  - destruct Hf as [H1 H2 H3 H4 H5]. split; cbn; try done. eapply holds_eq; [| done]. intros m Hm. apply lookup_delete_ne. set_solver.
  - rewrite He. by apply entries_delete.
  - by eapply sorted_remove.
  - rewrite dom_delete_L, Hd, He. set_solver.
  - by rewrite !dom_delete_L, Hp.
  - rewrite Hcount, !length_app in *. cbn in *. unfold u32_size. rewrite Z.mod_small; lia.
Qed.

(** C14: [tree_delete] removes exactly the entry of the key.  On a tree made with deletion, with fewer than 2^31
    elements, that stands for the table [es]: if the key is in the table, the result is 0 and the tree
    stands for the table without that entry, sorted and balanced again, the memory of exactly that element
    is released, and [free] is called on its key; otherwise the result is 1 and nothing
    changes.  No element outside the tree and no entry outside the array [parents] is accessed. *)
Theorem tree_delete_correct T es key ks :
  represents compare T es → Z.of_nat (length es) < 2 ^ 31 → ∃ res T',
  tree_delete compare T key ks = Ret (res, T') ∧ settings T' = settings T ∧
  if with_delete T then
    match find_key compare key es with
    | None => res = 1 ∧ T' = T
    | Some e => res = 0 ∧ represents compare T' (remove compare key es) ∧ freed T' = freed T ++ (if has_free T then [FreeKey e.1] else [])
    end
  else res = 1 ∧ T' = T.
Proof using Hcmp.
  intros Hrep Hlen. unfold tree_delete. destruct (with_delete T) eqn:Hw; cbn [negb]; [| by eexists _, _].
  destruct (descend_root compare T es key Hrep Hlen) as (t & path & eb & em & ea & -> & Hloc & Hend). obind.
  destruct Hend as [[-> ->] | (c & l & n & r & e & -> & He & Heq)].
  { rewrite decide_True by done. pose proof (lc_found _ _ _ _ _ _ _ _ _ Hloc) as [_ _ _ Hl Hg].
    rewrite (lc_entries _ _ _ _ _ _ _ _ _ Hloc), find_none by done. by eexists _, _. }
  rewrite decide_False by done. destruct (located_node _ _ _ _ _ _ _ _ _ _ _ _ _ Hloc He Heq) as (el & er & Hes & Hb & Ha & Hl & Hg).
  destruct Hloc as [Hf _ ((h & Hrb) & Hcol) Hpath _ _ Hs Hd Hp Hc]. cbn [ptr_of].
  pose proof (proj1 (focus_plug _ _ _) Hf) as Hwhole. pose proof (fo_nodup _ _ _ Hwhole) as Hnd. rewrite app_nil_r, elems_split in Hnd. cbn [elems] in Hnd.
  destruct (unlink_spec T c l n r path h Hf Hrb Hcol Hpath) as (T1 & t1 & path1 & c1 & -> & Hrm).
  { rewrite (size_links T _ Hwhole) by (by rewrite Hd, elems_split). rewrite <- height_elems. pose proof (height_plug (N c l n r) path). lia. }
  obind. destruct (removed_fixed _ _ _ _ _ _ Hrm) as (T2 & t2 & -> & Hf2 & Hrb2 & Hc2 & He2 & (h2 & r2 & -> & Hd2)). obind. set (T2 := with_links h2 (with_root r2 T)) in *.
  assert (find_key compare key es = Some e) as -> by (rewrite Hes; by apply find_split). rewrite Hes, remove_split by done.
  set (T3 := if has_free T then call_free (FreeKey e.1) T2 else T2).
  assert ((if has_free T2 then k ← ELEMENT_KEY T2 (Elem n); Ret (call_free (FreeKey k) T2) else Ret T2) = Ret T3) as ->.
  { unfold T3. cbn. rewrite He. destruct e. by destruct (has_free T). }
  obind. set (T4 := with_counts _ _ T3).
  assert (root T4 = root T2 ∧ links T4 = h2 ∧ payload T4 = payload T ∧ null_element T4 = null_element T2 ∧ elements_in_tree T4 = elements_in_tree T ∧ settings T4 = settings T ∧
    freed T4 = freed T ++ (if has_free T then [FreeKey e.1] else [])) as (R4 & L4 & P4 & N4 & C4 & S4 & F4).
  { unfold T4, T3. destruct (has_free T); split_and!; try done. cbn. by rewrite app_nil_r. }
  assert (before path ++ (elems l ++ n :: elems r) ++ after path ≡ₚ n :: before path ++ (elems l ++ elems r) ++ after path) as Hperm by solve_Permutation.
  rewrite Hperm in Hnd. apply NoDup_cons in Hnd as [Hnin _].
  destruct (free_represents T4 t2 n (before path ++ (elems l ++ elems r) ++ after path) (eb ++ el) e (er ++ ea)) as (T5 & -> & Hrep5 & S5 & F5); try done.
  - by apply (focus_ext T2).
  - rewrite L4, Hd2, Hd. cbn [elems]. apply set_eq. intros x. rewrite !elem_of_list_to_set, Hperm. set_solver.
  - rewrite L4, P4, Hd2. done.
  - rewrite P4. rewrite <- app_assoc, (app_assoc (before path)). by apply Forall2_app.
  - by rewrite <- Hes.
  - by rewrite C4, <- Hes.
  - by rewrite <- Hes.
  - obind. eexists _, _. split; [done |]. split; [transitivity (settings T5); [done | congruence] |].
    split_and!; [done | apply Hrep5 | transitivity (freed T5); [done | congruence]].
Qed.

End delete.

Lemma tree_delete_correct_witness :
  let T := mkTREE (Elem 3) (mkElement NULL NULL BLACK) {[ 3%nat := mkElement Nil Nil BLACK ]} {[ 3%nat := (5, 1) ]} 1 8 0 32 true true 0 [] in
  represents by_value T [(5, 1)] ∧ ∃ T', tree_delete by_value T 5 0 = Ret (0, T') ∧ represents by_value T' [] ∧ freed T' = [FreeKey 5].
Proof.
  assert (represents by_value (mkTREE (Elem 3) (mkElement NULL NULL BLACK) {[ 3%nat := mkElement Nil Nil BLACK ]} {[ 3%nat := (5, 1) ]} 1 8 0 32 true true 0 []) [(5, 1)]) as Hrep.
  { exists (N BLACK E 3 E). split_and!; try done; [| exists 1%nat; by repeat constructor | by repeat constructor | by repeat constructor].
    split; cbn; try done. by repeat constructor; set_solver. }
  split; [exact Hrep |]. destruct (tree_delete_correct by_value _ _ 5 0 Hrep) as (res & T' & Hi & _ & -> & Hrep' & Hf); [done |].
  exists T'. split; [exact Hi |]. split; [exact Hrep' | exact Hf].
Defined.
