(* ===== verification/TreeScan.v ===== *)
(** * Red-black trees: searching and walking

    [tree_search], [tree_walk] and [test_rb_tree] against the table a tree stands for. *)

From S2P Require Import Prelude Tree TreeRep TreeInsert TreeSpec.

Section scan.
Context {K : Type} (compare : K → K → Z) `{Hcmp : !Comparison compare}.
Implicit Types (T : TREE K) (es : list (K * Z)).

(** ** [tree_search] *)

Lemma search_loop_spec T key : ∀ fuel t path eb em ea,
  (height t ≤ fuel)%nat → focus T t path → found compare T key t path eb em ea → StronglySorted (key_lt compare) em →
  search_loop compare fuel T key (ptr_of t) = Ret (fst <$> find_key compare key (eb ++ em ++ ea)).
Proof using Hcmp.
  assert (∀ eb em ea t path, t = E → found compare T key t path eb em ea → find_key compare key (eb ++ em ++ ea) = None) as Hnone.
  { intros eb em ea t path -> [_ Hm _ Hl Hg]. inversion Hm. by apply find_none. }
  induction fuel as [| fuel IH]; intros t path eb em ea Hfuel Hf Hfound Hs; (destruct t as [| c l n r]; [by rewrite (Hnone _ _ _ _ _ eq_refl Hfound) |]); [cbn in *; lia |].
  cbn [search_loop]. rewrite decide_False by done.
  destruct (found_step _ _ _ _ _ _ _ _ _ _ _ Hfound Hs) as (el & e & er & -> & He & _ & _ & Hsl & Hsr & Hr & Hl & Heq).
  rewrite (load_key _ _ _ _ _ _ _ _ eq_refl Hf He). obind. destruct (decide (compare e.1 key = 0)) as [H0 | Hne].
  { replace (eb ++ (el ++ e :: er) ++ ea) with ((eb ++ el) ++ e :: er ++ ea) by (by rewrite <- !app_assoc). rewrite find_split by naive_solver. done. }
  rewrite (load_focus _ _ _ Hf). obind. cbn [height node_of e_left e_right] in *. destruct (decide (compare e.1 key < 0)) as [Hlt | Hge].
  - rewrite (IH r (Fr R c n l :: path) (eb ++ el ++ [e]) er ea); [by rewrite <- !app_assoc | lia | by apply (focus_side T L) | by apply Hr | done].
  - rewrite (IH l (Fr L c n r :: path) eb el (e :: er ++ ea)); [by rewrite <- !app_assoc | lia | by apply (focus_down T L) | apply Hl; lia | done].
Qed.

(** ** [tree_walk] *)

(** The action on the entries of a table, up to the first error. *)
Fixpoint walk_list {A} (action : K → Z → A → Z * A) es (arg : A) : Z * A :=
  match es with
  | [] => (0, arg)
  | e :: es => let '(error, arg) := action e.1 e.2 arg in if decide (error = 0) then walk_list action es arg else (error, arg)
  end.

Lemma walk_list_app {A} (action : K → Z → A → Z * A) es es' arg :
  walk_list action (es ++ es') arg =
  let '(error, arg) := walk_list action es arg in if decide (error = 0) then walk_list action es' arg else (error, arg).
Proof.
  revert arg. induction es as [| e es IH]; intros arg; cbn; [done |]. destruct (action e.1 e.2 arg) as [error arg']. case_decide as H; [apply IH |].
  by rewrite decide_False.
Qed.

Definition ordered {A} (d : dir) (l : list A) : list A := match d with L => l | R => reverse l end.

Lemma walk_spec {A} (action : K → Z → A → Z * A) T first : ∀ fuel t path es arg,
  (height t < fuel)%nat → focus T t path → entries (payload T) (elems t) es →
  walk fuel T first action (ptr_of t) arg = Ret (walk_list action (ordered first es) arg).
Proof.
  induction fuel as [| fuel IH]; intros t path es arg Hfuel Hf Hes; [lia |]. cbn [walk]. rewrite (load_focus _ _ _ Hf). obind.
  destruct t as [| c l n r]; cbn [node_of elems height] in *.
  { inversion Hes. destruct first; cbn; done. }
  apply Forall2_app_inv_l in Hes as (el & er0 & Hel & Her0 & ->). inversion Her0 as [| ? e ? er He Her]. subst.
  destruct first; cbn [child_of flip e_left e_right ptr_of ordered]; (rewrite decide_False by (first [by destruct l | by destruct r])).
  - rewrite (IH l _ el _ ltac:(lia) (focus_down T L _ _ _ _ _ Hf) Hel). obind. cbn [ordered]. rewrite walk_list_app. destruct (walk_list action el arg) as [err a].
    destruct (decide (err = 0)); [| done]. cbn [of_option]. rewrite He. cbn [of_option]. obind. destruct e as [k ct]. cbn [walk_list fst snd].
    destruct (action k ct a) as [err' a']. case_decide; [| done]. by rewrite (IH r _ er _ ltac:(lia) (focus_side T L _ _ _ _ _ Hf) Her).
  - rewrite (IH r _ er _ ltac:(lia) (focus_side T L _ _ _ _ _ Hf) Her). obind. rewrite reverse_app, reverse_cons, <- app_assoc, walk_list_app. cbn [ordered].
    destruct (walk_list action (reverse er) arg) as [err a].
    destruct (decide (err = 0)); [| done]. cbn [of_option]. rewrite He. cbn [of_option]. obind. destruct e as [k ct]. cbn [app walk_list fst snd].
    destruct (action k ct a) as [err' a']. case_decide; [| done]. by rewrite (IH l _ el _ ltac:(lia) (focus_down T L _ _ _ _ _ Hf) Hel).
Qed.

(** ** [test_rb_tree] *)

Lemma test_rb_tree_spec T : ∀ fuel t path h, (height t < fuel)%nat → focus T t path → rb t h → test_rb_tree fuel T (ptr_of t) = Ret (Z.of_nat h).
Proof.
  induction fuel as [| fuel IH]; intros t path h Hfuel Hf Hrb; [lia |]. cbn [test_rb_tree]. rewrite (load_focus _ _ _ Hf). obind.
  destruct t as [| c l n r]; cbn [node_of e_left e_right e_colour height] in *; [by inversion Hrb |]. rewrite decide_False by (by destruct l).
  pose proof (focus_down T L _ _ _ _ _ Hf) as Hl. pose proof (focus_side T L _ _ _ _ _ Hf) as Hr.
  rewrite (load_focus _ _ _ Hl). obind. rewrite (load_focus _ _ _ Hr). obind. fold (col l) (col r).
  inversion Hrb as [| ? ? ? h' Hrl Hrr | ? ? ? h' Hrl Hrr Hcl Hcr]; subst.
  - rewrite decide_False by naive_solver. rewrite (IH l _ h'), (IH r _ h') by (done || lia). obind. rewrite (decide_True (P := BLACK = BLACK)), decide_True by (done || lia). f_equal. lia.
  - rewrite Hcl, Hcr. rewrite decide_False by naive_solver. rewrite (IH l _ h), (IH r _ h) by (done || lia). obind. rewrite (decide_False (P := RED = BLACK)), decide_True by (done || lia). f_equal. lia.
Qed.

(** Searching and walking read the table.  On a tree that stands for the table [es]: [tree_search] returns the
    stored key equal to the given one, or NULL when there is none; [tree_walk] applies the action to the
    entries in ascending or descending order with their counts, and stops with the first
    result that is not 0; and the self-test of debug builds finds the tree correct. *)
Theorem tree_reads_correct T es :
  represents compare T es →
  (∀ key, tree_search compare T key = Ret (fst <$> find_key compare key es)) ∧
  (∀ A (action : K → Z → A → Z * A) arg visit, tree_walk T action arg visit = Ret (walk_list action (ordered visit es) arg)) ∧
  (∃ h, test_rb_tree (S (size (links T))) T (root T) = Ret h ∧ 0 ≤ h).
Proof using Hcmp.
  intros (t & Hf & (h & Hrb) & _ & Hes & Hs & Hd & _ & _). pose proof (size_links _ _ Hf Hd) as Hsize. pose proof (height_elems t) as Hh.
  pose proof (fo_root _ _ _ Hf) as Hroot. cbn in Hroot. split_and!.
  - intros key. unfold tree_search. rewrite Hroot, (search_loop_spec T key _ t [] [] es []); [by rewrite app_nil_r | lia | done | by split; try constructor | done].
  - intros A action arg visit. unfold tree_walk. rewrite Hroot. eapply walk_spec; [lia | done | done].
  - exists (Z.of_nat h). split; [| lia]. rewrite Hroot. eapply test_rb_tree_spec; [lia | done | done].
Qed.

End scan.

Lemma tree_reads_correct_witness :
  represents by_value three [(3, 2); (5, 1); (8, 1)] ∧ tree_search by_value three 8 = Ret (Some 8) ∧ tree_search by_value three 4 = Ret None ∧
  tree_walk three (λ key count seen, (0, seen ++ [(key, count)])) [] R = Ret (0, [(8, 1); (5, 1); (3, 2)]).
Proof.
  destruct (tree_reads_correct by_value three _ three_represents) as (Hsearch & Hwalk & _).
  split; [exact three_represents |]. rewrite !Hsearch, Hwalk. split; [reflexivity |]. split; reflexivity.
Defined.
