(* ===== verification/TreeCursor.v ===== *)
(** * Red-black trees: positions

    The functions [tree_search_key], [tree_search_edge] and [tree_search_next] keep a position in the tree as
    the path of elements to it in an array [parents] of the caller.  Such a path is an
    index into the table the tree stands for ([at_entry]): the edges are the first and the last index,
    the next element is one index further, and a search by key ends at the index its flag asks for. *)

From S2P Require Import Prelude Tree TreeRep TreeInsert TreeSpec TreeScan.

(** The array [parents] for a path, the last entry first. *)
Definition stack (path : list frame) : list ptr := ((λ f, Elem (f_elem f)) <$> path) ++ [Nil].

Lemma length_stack path : length (stack path) = S (length path).
Proof. unfold stack. rewrite length_app, length_fmap. cbn. lia. Qed.

(** The elements beyond a position in the direction [r], the nearest first. *)
Definition beyond (r : dir) (path : list frame) : list nat := match r with R => after path | L => reverse (before path) end.

Lemma beyond_same f r path : f_dir f = r → beyond r (f :: path) = beyond r path.
Proof. intros <-. unfold beyond. cbn. by destruct (f_dir f). Qed.

Lemma beyond_other f r path : f_dir f = flip r → beyond r (f :: path) = f_elem f :: ordered (flip r) (elems (f_sib f)) ++ beyond r path.
Proof.
  intros Hf. unfold beyond. cbn [before after]. rewrite Hf. destruct r; [| done]. cbn [flip ordered]. by rewrite !reverse_app.
Qed.

(** A tree in memory is determined by its root. *)
Lemma holds_unique h t : ∀ t', holds h t → holds h t' → ptr_of t = ptr_of t' → t = t'.
Proof.
  induction t as [| c l IHl n r IHr]; intros [| c' l' n' r']; cbn; try done. intros (Hn & Hl & Hr) (Hn' & Hl' & Hr') [= <-].
  rewrite Hn in Hn'. injection Hn' as Hpl Hpr <-. by rewrite (IHl l'), (IHr r').
Qed.

Section cursor.
Context {K : Type} (compare : K → K → Z) `{Hcmp : !Comparison compare}.
Implicit Types (T : TREE K) (es : list (K * Z)).

Lemma focus_unique T t path t' : focus T t path → focus T t' [] → plug t path = t'.
Proof.
  intros Hf Hf'. apply focus_plug in Hf. eapply holds_unique; [apply Hf | apply Hf' |]. pose proof (fo_root _ _ _ Hf). pose proof (fo_root _ _ _ Hf'). cbn in *. congruence.
Qed.

(** The position is that of the entry with the index [i]. *)
Definition at_entry T (pos : list ptr) (i : nat) : Prop := ∃ c l n r path,
  focus T (N c l n r) path ∧ pos = Elem n :: stack path ∧ i = length (before path ++ elems l).

(** ** Edges *)

Lemma edge_loop_spec T d : ∀ fuel t path,
  (height t ≤ fuel)%nat → (length path + height t ≤ 64)%nat → t ≠ E → focus T t path → ∃ c n x q,
  t = plug (mk d c E n x) q ∧ Forall (λ f, f_dir f = d) q ∧ edge_loop fuel T d (ptr_of t) (stack path) = Ret (Elem n :: stack (q ++ path)).
Proof.
  induction fuel as [| fuel IH]; intros t path Hfuel Hlen Hne Hf; (destruct t as [| c l0 n r0]; [done |]); [cbn in *; lia |].
  destruct (node_dir d c l0 n r0) as (a & b & Heq). rewrite Heq in *. clear Heq l0 r0.
  assert (height a < height (mk d c a n b))%nat by (destruct d; cbn; lia).
  cbn [edge_loop]. rewrite ptr_of_mk, decide_False by done. unfold push_parent. rewrite length_stack, decide_True by (unfold MAX_TREE_HEIGHT; lia). obind.
  rewrite (load_mk _ _ _ _ _ _ _ Hf). obind. rewrite child_element. destruct (decide (a = E)) as [-> | Ha].
  { exists c, n, b, []. split_and!; [done | done |]. by destruct fuel. }
  destruct (IH a (Fr d c n b :: path)) as (c' & n' & x & q & -> & Hq & Hloop); [lia | cbn; lia | done | by apply focus_down |].
  exists c', n', x, (q ++ [Fr d c n b]). split_and!.
  - by rewrite plug_app.
  - apply Forall_app. split; [done | by repeat constructor].
  - rewrite <- app_assoc. exact Hloop.
Qed.

Lemma beyond_edge d q : Forall (λ f, f_dir f = flip d) q → beyond (flip d) q = [].
Proof. induction 1 as [| f q Hf _ IH]; [by destruct d |]. by rewrite beyond_same. Qed.

(** The first element in the direction. *)
Lemma edge_first d c n x q : Forall (λ f, f_dir f = d) q → head (ordered d (elems (plug (mk d c E n x) q))) = Some n.
Proof.
  intros Hq. rewrite elems_split. destruct d; cbn.
  - pose proof (beyond_edge R q Hq) as Hb. unfold beyond in Hb. cbn in Hb. apply (f_equal reverse) in Hb. rewrite reverse_involutive in Hb. by rewrite Hb.
  - pose proof (beyond_edge L q Hq) as Hb. unfold beyond in Hb. cbn in Hb. rewrite Hb, app_nil_r, !reverse_app. done.
Qed.

(** ** The next element *)

Lemma climb_spec T r : ∀ path t, focus T t path → t ≠ E → ∃ pos, climb T r (ptr_of t) (stack path) = Ret pos ∧
  match beyond r path with
  | [] => pos = [Nil]
  | n :: _ => ∃ c a b p2, focus T (N c a n b) p2 ∧ pos = Elem n :: stack p2
  end.
Proof.
  induction path as [| f path IH]; intros t Hf Ht; [exists [Nil]; split; [done |]; by destruct r |].
  pose proof Hf as Hup. apply focus_up in Hup. unfold plug1 in Hup. unfold stack. cbn [fmap list_fmap app climb]. fold (stack path).
  rewrite decide_False by done. rewrite (load_mk _ _ _ _ _ _ _ Hup). obind. destruct (decide (f_dir f = r)) as [Hd | Hd].
  - subst r. rewrite child_element, decide_True by done. rewrite beyond_same by done.
    destruct (IH _ Hup) as (pos & Hc & Hpos); [by destruct (f_dir f) |]. rewrite ptr_of_mk in Hc. by exists pos.
  - assert (f_dir f = flip r) as Hd' by (by destruct (f_dir f), r). rewrite beyond_other by done.
    replace (child_of r _) with (ptr_of (f_sib f)) by (rewrite Hd'; by destruct r).
    rewrite decide_False by (eapply focus_links; [done | by left]). eexists. split; [done |].
    destruct (f_dir f); by eexists _, _, _, path.
Qed.

(** The index one step further in the direction [r]. *)
Definition step_index (r : dir) (i : nat) : option nat :=
  match r, i with R, _ => Some (S i) | L, S j => Some j | L, O => None end.

Definition at_index {A} (l : list A) (i : option nat) : option A := i ≫= λ i, l !! i.

Lemma head_lookup {A} (l : list A) : head l = l !! 0%nat.
Proof. by destruct l. Qed.

Lemma head_reverse {A} (l : list A) : head (reverse l) = last l.
Proof. by rewrite <- (reverse_involutive l) at 2; rewrite last_reverse. Qed.

(** The elements ahead of a position start with the one at the next index. *)
Lemma ahead_index c l n r path d :
  head (match d with R => elems r ++ after path | L => reverse (elems l) ++ reverse (before path) end) =
  at_index (elems (plug (N c l n r) path)) (step_index d (length (before path ++ elems l))).
Proof.
  rewrite elems_split. cbn [elems]. replace (before path ++ (elems l ++ n :: elems r) ++ after path) with ((before path ++ elems l) ++ n :: elems r ++ after path)
    by (by rewrite <- !app_assoc). set (b := before path ++ elems l). destruct d; cbn [step_index at_index mbind option_bind].
  - rewrite <- reverse_app, head_reverse. fold b. rewrite last_lookup. destruct (length b) as [| j] eqn:Hb; cbn.
    + by destruct b.
    + rewrite lookup_app_l by lia. done.
  - rewrite head_lookup, (lookup_app_r b) by lia. by replace (S (length b) - length b)%nat with 1%nat by lia.
Qed.

Lemma at_entry_intro T t c l n r path i : focus T t [] → focus T (N c l n r) path → elems t !! i = Some n → at_entry T (Elem n :: stack path) i.
Proof.
  intros Ht Hf Hi. exists c, l, n, r, path. split_and!; [done | done |]. pose proof (fo_nodup _ _ _ Ht) as Hnd. rewrite app_nil_r in Hnd.
  eapply NoDup_lookup; [done | done |]. rewrite <- (focus_unique _ _ _ _ Hf Ht), elems_split. cbn [elems].
  rewrite app_assoc, lookup_app_l by (rewrite !length_app; cbn; lia). rewrite app_assoc, lookup_app_r by lia. by rewrite Nat.sub_diag.
Qed.

Lemma element_entry T es t n i : entries (payload T) (elems t) es → elems t !! i = Some n → ∃ e, es !! i = Some e ∧ ELEMENT_KEY T (Elem n) = Ret e.1.
Proof.
  intros Hes Hi. destruct (Forall2_lookup_l _ _ _ _ _ Hes Hi) as (e & He & Hp). exists e. split; [done |]. cbn. rewrite Hp. by destruct e.
Qed.

Lemma search_next_spec T es pos i r :
  represents compare T es → Z.of_nat (length es) < 2 ^ 31 → at_entry T pos i → ∃ pos',
  tree_search_next T pos (flip r) r = Ret (fst <$> at_index es (step_index r i), pos') ∧
  ∀ j, step_index r i = Some j → (j < length es)%nat → at_entry T pos' j.
Proof.
  intros (t & Hft & (h & Hrb) & Hcol & Hes & _ & Hd & _ & _) Hlen (c & l & n & rt & path & Hf & -> & Hi).
  pose proof (Forall2_length _ _ _ Hes) as Hl. pose proof (rb_height_bound _ _ Hrb Hcol ltac:(lia)) as Hh.
  pose proof (size_links _ _ Hft Hd) as Hsize. pose proof (height_elems t) as Hhe. pose proof (focus_unique _ _ _ _ Hf Hft) as Hplug.
  pose proof (ahead_index c l n rt path r) as Hahead. rewrite <- Hi, Hplug in Hahead.
  assert (∀ pos' n', at_index (elems t) (step_index r i) = Some n' → (∃ c' a b p2, focus T (N c' a n' b) p2 ∧ pos' = Elem n' :: stack p2) →
    (∃ e, at_index es (step_index r i) = Some e ∧ ELEMENT_KEY T (Elem n') = Ret e.1) ∧
    ∀ j, step_index r i = Some j → (j < length es)%nat → at_entry T pos' j) as Hto.
  { intros pos' n' Hn' (c' & a & b & p2 & Hf' & ->). destruct (step_index r i) as [j |] eqn:Hj; [| done]. cbn in Hn'. split; [by apply (element_entry _ _ t) |].
    intros j' [= <-] _. by eapply at_entry_intro. }
  assert (∃ a b, N c l n rt = mk r c a n b ∧ head (ordered (flip r) (elems a) ++ beyond r path) = at_index (elems t) (step_index r i)) as (a & b & Heq & Hnext).
  { destruct r; by eexists _, _. }
  rewrite Heq in *. clear Heq Hahead. unfold tree_search_next. cbn [head of_option tail]. obind. rewrite (load_mk _ _ _ _ _ _ _ Hf). obind. rewrite child_element.
  destruct (decide (a = E)) as [-> | Ha].
  - rewrite decide_True by done. pose proof (climb_spec T r path _ Hf ltac:(by destruct r)) as (pos' & Hc & Hpos). rewrite ptr_of_mk in Hc. rewrite Hc. obind.
    replace (ordered (flip r) (elems E)) with (@nil nat) in Hnext by (by destruct r). cbn [app] in Hnext. destruct (beyond r path) as [| n' rest]; cbn [head] in Hnext.
    + subst pos'. cbn [head of_option]. obind. rewrite decide_True by done. exists [Nil]. symmetry in Hnext. destruct (step_index r i) as [j |] eqn:Hj; cbn in *; [| done].
      apply lookup_ge_None in Hnext. rewrite (lookup_ge_None_2 es) by lia. split; [done |]. intros j' [= <-] ?. lia.
    + symmetry in Hnext. destruct (Hto _ _ Hnext Hpos) as [(e & He & Hk) Hat]. destruct Hpos as (c' & a' & b' & p2 & Hf' & ->). cbn [head of_option]. obind.
      rewrite decide_False by done. rewrite Hk. obind. rewrite He. by eexists.
  - rewrite decide_False by (by destruct a). change (Elem n :: stack path) with (stack (Fr r c n b :: path)). pose proof (height_plug (mk r c a n b) path) as Hhp. rewrite Hplug in Hhp.
    assert (height a < height (mk r c a n b))%nat by (destruct r; cbn; lia).
    destruct (edge_loop_spec T (flip r) (size (links T)) a (Fr r c n b :: path)) as (c' & n' & x & q & -> & Hq & ->); [lia | cbn; lia | done | by apply focus_down |].
    obind. cbn [head of_option]. obind. pose proof (edge_first (flip r) c' n' x q Hq) as Hfirst.
    destruct (ordered (flip r) (elems (plug (mk (flip r) c' E n' x) q))) as [| ? rest]; [done |]. injection Hfirst as ->. cbn [app head] in Hnext. symmetry in Hnext.
    destruct (Hto (Elem n' :: stack (q ++ Fr r c n b :: path)) _ Hnext) as [(e & He & Hk) Hat].
    { apply focus_down, (proj2 (focus_app _ _ _ _)) in Hf. destruct r; cbn in Hf; eexists _, _, _, _; (split; [exact Hf | done]). }
    rewrite Hk. obind. rewrite He. by eexists.
Qed.

(** The index of the edge in the direction [d]. *)
Definition edge_index {A} (d : dir) (l : list A) : nat := match d with L => 0 | R => length l - 1 end.

Lemma edge_lookup {A} d (l : list A) : head (ordered d l) = l !! edge_index d l.
Proof. destruct d; cbn [ordered edge_index]; [apply head_lookup |]. rewrite head_reverse, last_lookup. by destruct l; cbn; rewrite ?Nat.sub_0_r. Qed.

Lemma search_edge_spec T es d :
  represents compare T es → Z.of_nat (length es) < 2 ^ 31 → ∃ pos,
  tree_search_edge T d = Ret (fst <$> es !! edge_index d es, pos) ∧ (es ≠ [] → at_entry T pos (edge_index d es)).
Proof.
  intros (t & Hf & (h & Hrb) & Hcol & Hes & _ & Hd & _ & _) Hlen. pose proof (Forall2_length _ _ _ Hes) as Hl.
  pose proof (rb_height_bound _ _ Hrb Hcol ltac:(lia)) as Hh. pose proof (size_links _ _ Hf Hd) as Hsize. pose proof (height_elems t) as Hhe.
  unfold tree_search_edge. rewrite (fo_root _ _ _ Hf). cbn [top]. destruct (decide (t = E)) as [-> | Ht].
  { inversion Hes. subst. exists [Nil]. split; [| done]. cbn. by destruct (size (links T)), d. }
  change [Nil] with (stack []). destruct (edge_loop_spec T d (size (links T)) t []) as (c & n & x & q & -> & Hq & ->); [lia | cbn; lia | done | done |].
  obind. cbn [head of_option]. obind. rewrite decide_False by done. rewrite app_nil_r. pose proof (edge_first d c n x q Hq) as Hfirst.
  rewrite edge_lookup in Hfirst. destruct (element_entry T es _ n _ Hes Hfirst) as (e & He & ->). obind.
  assert (edge_index d (elems (plug (mk d c E n x) q)) = edge_index d es) as Hidx by (destruct d; cbn [edge_index]; [done | by rewrite Hl]). rewrite Hidx in *.
  exists (Elem n :: stack q). rewrite He. split; [done |]. intros _. apply (proj2 (focus_plug _ _ _)) in Hf as Hfq.
  destruct d; cbn in Hfq; by eapply at_entry_intro.
Qed.

(** ** Searching by key *)

Definition low (dq : dir) (key : K) (e : K * Z) : Prop := compare e.1 key < 0 ∨ compare e.1 key = 0 ∧ dq = R.
Definition high (dq : dir) (key : K) (e : K * Z) : Prop := compare e.1 key > 0 ∨ compare e.1 key = 0 ∧ dq = L.

(** What the loop remembers when the entries [eb] are to the left of its position and [ea] to the right:
    the first of [ea], the last of [eb], and an entry equal to the key. *)
Record remembers T (key : K) es (remember : bool) (eb ea : list (K * Z)) (last : last_steps) : Prop := mkRemembers {
  rem_left : match last_left last with None => ea = [] | Some pos => ea ≠ [] ∧ at_entry T pos (length es - length ea) end;
  rem_right : match last_right last with None => eb = [] | Some pos => eb ≠ [] ∧ at_entry T pos (length eb - 1) end;
  rem_equal : remember = true → match last_equal last with
    | None => Forall (λ e, compare e.1 key ≠ 0) (eb ++ ea)
    | Some pos => ∃ i e, at_entry T pos i ∧ es !! i = Some e ∧ compare e.1 key = 0
    end
}.

(** One step of the loop at the entry [e], to the left or to the right. *)
Lemma remembers_step T key es b dq eb el e er ea last pos :
  let d := if decide (compare e.1 key = 0) then dq else if decide (compare e.1 key < 0) then R else L in
  let keep := if decide (compare e.1 key = 0) then b else false in
  es = eb ++ (el ++ e :: er) ++ ea → StronglySorted (key_lt compare) (el ++ e :: er) → at_entry T pos (length (eb ++ el)) →
  Forall (low dq key) eb → Forall (high dq key) ea → remembers T key es b eb ea last →
  match d with
  | R => Forall (low dq key) (eb ++ el ++ [e]) ∧ remembers T key es b (eb ++ el ++ [e]) ea (note keep d pos last)
  | L => Forall (high dq key) (e :: er ++ ea) ∧ remembers T key es b eb (e :: er ++ ea) (note keep d pos last)
  end.
Proof using Hcmp.
  intros d keep Hes Hs Hpos Hlo Hhi [Hl Hr He]. destruct (sorted_split compare el e er key Hs) as [Hless Hgreater].
  assert (es !! length (eb ++ el) = Some e) as Hat.
  { rewrite Hes. replace (eb ++ (el ++ e :: er) ++ ea) with ((eb ++ el) ++ e :: er ++ ea) by (by rewrite <- !app_assoc). rewrite lookup_app_r by lia. by rewrite Nat.sub_diag. }
  set (equal := if keep then Some pos else last_equal last). assert (b = true → match equal with
    | None => Forall (λ x, compare x.1 key ≠ 0) ((eb ++ ea) ++ [e])
    | Some pos => ∃ i x, at_entry T pos i ∧ es !! i = Some x ∧ compare x.1 key = 0 end) as Heq.
  { intros Hb. specialize (He Hb). unfold equal, keep. destruct (decide (compare e.1 key = 0)) as [H0 | H0].
    - rewrite Hb. by exists (length (eb ++ el)), e.
    - destruct (last_equal last); [done |]. apply Forall_app. split; [done | by repeat constructor]. }
  destruct d eqn:Hd.
  - assert (compare e.1 key >= 0 ∧ (compare e.1 key = 0 → dq = L)) as [Hge Hdq] by (unfold d in Hd; repeat case_decide; split; done || lia).
    specialize (Hgreater Hge). assert (Forall (high dq key) (e :: er ++ ea)) as Hhi'.
    { constructor; [unfold high; destruct (decide (compare e.1 key = 0)); [right; tauto | left; lia] |]. apply Forall_app. split; [| done].
      eapply Forall_impl; [done |]. intros x Hx. by left. }
    split; [done |]. split; cbn [note last_left last_right last_equal]; fold equal.
    + split; [done |]. replace (length es - _)%nat with (length (eb ++ el)); [done |]. rewrite Hes, !length_app. cbn. rewrite !length_app. lia.
    + done.
    + intros Hb. specialize (Heq Hb). destruct equal; [done |]. rewrite !Forall_app, !Forall_cons, !Forall_app in *.
      destruct Heq as ((? & ?) & ? & _). split_and!; try done. eapply Forall_impl; [exact Hgreater |]. unfold greater. cbn. lia.
  - assert (compare e.1 key ≤ 0 ∧ (compare e.1 key = 0 → dq = R)) as [Hle Hdq] by (unfold d in Hd; repeat case_decide; split; done || lia).
    specialize (Hless Hle). assert (Forall (low dq key) (eb ++ el ++ [e])) as Hlo'.
    { rewrite !Forall_app. split_and!; [done | | constructor; [| done]].
      - eapply Forall_impl; [done |]. intros x Hx. by left.
      - unfold low. destruct (decide (compare e.1 key = 0)); [right; tauto | left; lia]. }
    split; [done |]. split; cbn [note last_left last_right last_equal]; fold equal.
    + done.
    + split; [by destruct eb, el |]. replace (length _ - 1)%nat with (length (eb ++ el)); [done |]. rewrite !length_app. cbn. lia.
    + intros Hb. specialize (Heq Hb). destruct equal; [done |]. rewrite !Forall_app in *.
      destruct Heq as ((? & ?) & ?). split_and!; try done. eapply Forall_impl; [exact Hless |]. unfold less. cbn. lia.
Qed.

(** The loop of [tree_search_key]. *)
Lemma key_loop_spec T key flag es : let '(b, dq) := default (false, L) (on_equal flag) in ∀ fuel t path eb em ea last,
  (height t ≤ fuel)%nat → (length path + height t ≤ 64)%nat → focus T t path →
  entries (payload T) (before path) eb → entries (payload T) (elems t) em → es = eb ++ em ++ ea → StronglySorted (key_lt compare) em →
  Forall (low dq key) eb → Forall (high dq key) ea → remembers T key es b eb ea last → ∃ res,
  key_loop compare fuel T key flag (ptr_of t) (stack path) last = Ret res ∧
  match res with
  | None => on_equal flag = None
  | Some last' => ∃ eb' ea', es = eb' ++ ea' ∧ Forall (low dq key) eb' ∧ Forall (high dq key) ea' ∧ remembers T key es b eb' ea' last'
  end.
Proof using Hcmp.
  destruct (default (false, L) (on_equal flag)) as [b dq] eqn:Hflag. induction fuel as [| fuel IH]; intros t path eb em ea last Hfuel Hlen Hf Hb Hm Hes Hs Hlo Hhi Hrem.
  1: destruct t; [| cbn in *; lia].
  2: destruct t as [| c l n r].
  1-2: exists (Some last); split; [done |]; inversion Hm; subst; by exists eb, ea.
  cbn [key_loop ptr_of height] in *. rewrite decide_False by done. unfold push_parent. rewrite length_stack, decide_True by (unfold MAX_TREE_HEIGHT; lia). obind.
  cbn [elems] in Hm. apply Forall2_app_inv_l in Hm as (el & er0 & Hel & Her0 & ->). inversion Her0 as [| ? e ? er He Her]. subst er0. clear Her0.
  pose proof (load_key T _ path n e c l r eq_refl Hf He) as Hk. cbn [ptr_of] in Hk. rewrite Hk. obind. clear Hk.
  assert (at_entry T (Elem n :: stack path) (length (eb ++ el))) as Hpos.
  { exists c, l, n, r, path. split_and!; [done | done |]. rewrite !length_app. by rewrite (Forall2_length _ _ _ Hb), (Forall2_length _ _ _ Hel). }
  pose proof (remembers_step T key es b dq eb el e er ea last _ Hes Hs Hpos Hlo Hhi Hrem) as Hstep. cbv zeta in Hstep.
  set (d := if decide (compare e.1 key = 0) then dq else if decide (compare e.1 key < 0) then R else L) in *.
  set (keep := if decide (compare e.1 key = 0) then b else false) in *.
  assert ((if decide (compare e.1 key = 0) then on_equal flag else Some (false, if decide (compare e.1 key < 0) then R else L)) = Some (keep, d) ∨
    on_equal flag = None ∧ (if decide (compare e.1 key = 0) then on_equal flag else Some (false, if decide (compare e.1 key < 0) then R else L)) = None) as [-> | [Hnone ->]].
  { unfold keep, d. destruct (decide (compare e.1 key = 0)); [| by left]. destruct (on_equal flag); [left; cbn in Hflag; congruence | by right]. }
  2: by exists None.
  rewrite (load_focus _ _ _ Hf : load T (Elem n) = _). obind. change (Elem n :: stack path) with (stack (Fr d c n (if decide (d = L) then r else l) :: path)).
  apply StronglySorted_app in Hs as (_ & Hsl & Hsr). inversion Hsr as [| ? ? Hsr' _]. subst.
  destruct d; cbn [child_of node_of e_left e_right] in *; destruct Hstep as [Hside Hrem'].
  - apply (IH l (Fr L c n r :: path) eb el (e :: er ++ ea)); try done; [lia | cbn; lia | by apply (focus_down T L) | by rewrite <- !app_assoc].
  - apply (IH r (Fr R c n l :: path) (eb ++ el ++ [e]) er ea); try done; [lia | cbn; lia | by apply (focus_side T L) | | by rewrite <- !app_assoc].
    cbn. apply Forall2_app; [done |]. apply Forall2_app; [done | by repeat constructor].
Qed.

(** The index [i] that a flag asks for: the entry of the key, the first one from the key on, the first one after it, the
    last one before it, or the last one up to it. *)
Definition selects (flag : ha_rkey_function) (key : K) es (i : nat) : Prop :=
  match flag with
  | HA_READ_KEY_EXACT | HA_READ_PREFIX_LAST => ∃ e, es !! i = Some e ∧ compare e.1 key = 0
  | HA_READ_KEY_OR_NEXT => ∀ j e, es !! j = Some e → (compare e.1 key < 0 ↔ (j < i)%nat)
  | HA_READ_AFTER_KEY => ∀ j e, es !! j = Some e → (compare e.1 key ≤ 0 ↔ (j < i)%nat)
  | HA_READ_BEFORE_KEY => ∀ j e, es !! j = Some e → (compare e.1 key < 0 ↔ (j ≤ i)%nat)
  | HA_READ_KEY_OR_PREV | HA_READ_PREFIX_LAST_OR_PREV => ∀ j e, es !! j = Some e → (compare e.1 key ≤ 0 ↔ (j ≤ i)%nat)
  | _ => False
  end.

(** There is no such index. *)
Definition selects_none (flag : ha_rkey_function) (key : K) es : Prop :=
  Forall (λ e, match flag with
    | HA_READ_KEY_EXACT | HA_READ_PREFIX_LAST => compare e.1 key ≠ 0
    | HA_READ_KEY_OR_NEXT => compare e.1 key < 0
    | HA_READ_AFTER_KEY => compare e.1 key ≤ 0
    | HA_READ_BEFORE_KEY => compare e.1 key >= 0
    | HA_READ_KEY_OR_PREV | HA_READ_PREFIX_LAST_OR_PREV => compare e.1 key > 0
    | _ => True
    end) es.

(** The entries on both sides of an entry equal to the key. *)
Lemma equal_index es key i e :
  StronglySorted (key_lt compare) es → es !! i = Some e → compare e.1 key = 0 → ∀ j x, es !! j = Some x →
  (compare x.1 key < 0 ↔ (j < i)%nat) ∧ (compare x.1 key ≤ 0 ↔ (j ≤ i)%nat).
Proof using Hcmp.
  intros Hs Hi He j x Hj. apply list_elem_of_split_length in Hi as (es1 & es2 & -> & ->). destruct (sorted_split compare _ _ _ key Hs) as [Hl Hg].
  specialize (Hl ltac:(lia)). specialize (Hg ltac:(lia)). unfold less, greater in *. destruct (decide (j < length es1)%nat) as [Hlt | Hge].
  - rewrite lookup_app_l in Hj by done. rewrite Forall_forall in Hl. specialize (Hl x (list_elem_of_lookup_2 _ _ _ Hj)). lia.
  - rewrite lookup_app_r in Hj by lia. destruct (j - length es1)%nat as [| k] eqn:Hk; cbn in Hj; [injection Hj as ->; lia |].
    rewrite Forall_forall in Hg. specialize (Hg x (list_elem_of_lookup_2 _ _ _ Hj)). lia.
Qed.

Lemma low_index dq key eb ea : Forall (low dq key) eb → Forall (high dq key) ea → ∀ j x, (eb ++ ea) !! j = Some x → (low dq key x ↔ (j < length eb)%nat).
Proof.
  intros Hlo Hhi j x Hj. rewrite Forall_forall in Hlo, Hhi. destruct (decide (j < length eb)%nat) as [Hlt | Hge].
  - rewrite lookup_app_l in Hj by done. split; [done |]. intros _. by eapply Hlo, list_elem_of_lookup_2.
  - rewrite lookup_app_r in Hj by lia. split; [| lia]. pose proof (Hhi x (list_elem_of_lookup_2 _ _ _ Hj)) as [Hh | [Hh ->]]; intros [Hl | [Hl Hd]]; done || lia.
Qed.

Lemma at_entry_key T es pos i :
  represents compare T es → at_entry T pos i → ∃ x e, head pos = Some x ∧ ELEMENT_KEY T x = Ret e.1 ∧ es !! i = Some e.
Proof.
  intros (t & Ht & _ & _ & Hes & _) (c & l & n & r & path & Hf & -> & Hi). assert (elems t !! i = Some n) as Hn.
  { rewrite <- (focus_unique _ _ _ _ Hf Ht), elems_split, Hi. cbn [elems].
    rewrite app_assoc, lookup_app_l by (rewrite !length_app; cbn; lia). rewrite app_assoc, lookup_app_r by lia. by rewrite Nat.sub_diag. }
  destruct (element_entry _ _ _ _ _ Hes Hn) as (e & He & Hk). by exists (Elem n), e.
Qed.

(** What [tree_search_key] returns for the position it has chosen. *)
Lemma key_result T es key flag (last_pos : option (list ptr)) :
  represents compare T es → match last_pos with None => selects_none flag key es | Some pos => ∃ i, at_entry T pos i ∧ selects flag key es i end → ∃ r,
  match last_pos with None => Ret None | Some pos => x ← of_option (head pos); k ← ELEMENT_KEY T x; Ret (Some (k, pos)) end = Ret r ∧
  match r with
  | None => selects_none flag key es
  | Some (k, pos) => ∃ i e, es !! i = Some e ∧ k = e.1 ∧ at_entry T pos i ∧ selects flag key es i
  end.
Proof.
  intros Hrep Hpos. destruct last_pos as [pos |]; [| by exists None]. destruct Hpos as (i & Hat & Hsel).
  destruct (at_entry_key _ _ _ _ Hrep Hat) as (x & e & -> & Hk & He). cbn [of_option]. obind. rewrite Hk. obind. eexists. split; [done |]. by exists i, e.
Qed.

(** The position that the flag chooses among those the loop remembers. *)
Definition chosen (flag : ha_rkey_function) (last : last_steps) : option (list ptr) :=
  match flag with
  | HA_READ_KEY_EXACT | HA_READ_PREFIX_LAST => last_equal last
  | HA_READ_KEY_OR_NEXT => or_else (last_equal last) (last_left last)
  | HA_READ_AFTER_KEY => last_left last
  | HA_READ_PREFIX_LAST_OR_PREV | HA_READ_KEY_OR_PREV => or_else (last_equal last) (last_right last)
  | HA_READ_BEFORE_KEY => last_right last
  | _ => None
  end.

Lemma select_spec T es key flag b dq eb ea last :
  default (false, L) (on_equal flag) = (b, dq) → StronglySorted (key_lt compare) es → es = eb ++ ea → Forall (low dq key) eb → Forall (high dq key) ea →
  remembers T key es b eb ea last →
  match chosen flag last with None => selects_none flag key es | Some pos => ∃ i, at_entry T pos i ∧ selects flag key es i end.
Proof using Hcmp.
  intros Hflag Hs Hes Hlo Hhi [Hleft Hright Heq]. pose proof (low_index dq key eb ea Hlo Hhi) as Hidx. rewrite <- Hes in Hidx.
  assert (match last_left last with Some pos => at_entry T pos (length eb) ∧ ∀ j x, es !! j = Some x → (low dq key x ↔ (j < length eb)%nat)
    | None => ∀ j x, es !! j = Some x → low dq key x end) as Hl.
  { destruct (last_left last); [| subst; intros j x Hj; apply (Hidx j x Hj); apply lookup_lt_Some in Hj; by rewrite app_nil_r in Hj].
    destruct Hleft as [_ Hat]. split; [| done]. by replace (length es - length ea)%nat with (length eb) in Hat by (rewrite Hes, length_app; lia). }
  assert (match last_right last with Some pos => at_entry T pos (length eb - 1) ∧ ∀ j x, es !! j = Some x → (low dq key x ↔ (j ≤ length eb - 1)%nat)
    | None => ∀ j x, es !! j = Some x → ¬ low dq key x end) as Hr.
  { destruct (last_right last); [| subst; intros j x Hj Hx; by apply (Hidx j x Hj) in Hx; cbn in Hx; lia].
    destruct Hright as [Hne Hat]. split; [done |]. intros j x Hj. rewrite (Hidx j x Hj). destruct eb; [done |]. cbn. lia. }
  assert (b = true → match last_equal last with
    | Some pos => ∃ i e, at_entry T pos i ∧ es !! i = Some e ∧ compare e.1 key = 0 ∧
        ∀ j x, es !! j = Some x → (compare x.1 key < 0 ↔ (j < i)%nat) ∧ (compare x.1 key ≤ 0 ↔ (j ≤ i)%nat)
    | None => ∀ j x, es !! j = Some x → compare x.1 key ≠ 0 end) as He.
  { intros Hb. specialize (Heq Hb). destruct (last_equal last).
    - destruct Heq as (i & e & Hat & Hi & He). exists i, e. split_and!; try done. by eapply equal_index.
    - rewrite <- Hes, Forall_lookup in Heq. done. }
  clear Hleft Hright Heq Hidx Hlo Hhi Hs. unfold selects, selects_none. unfold low in Hl, Hr.
  destruct flag; injection Hflag as <- <-; unfold chosen, or_else; try specialize (He eq_refl);
    try (destruct (last_equal last) as [pos |]; [destruct He as (i & e & Hat & Hi & He & Hsplit); exists i; split; [done |]; by exists e || (intros j x Hj; by apply (Hsplit j x Hj)) |]);
    try (by apply (proj2 (Forall_lookup _ _))).
  1, 3: destruct (last_left last) as [pos |]; [destruct Hl as [Hat Hl]; exists (length eb); split; [done |] | apply (proj2 (Forall_lookup _ _))].
  5, 6, 7: destruct (last_right last) as [pos |]; [destruct Hr as [Hat Hr]; exists (length eb - 1)%nat; split; [done |] | apply (proj2 (Forall_lookup _ _))].
  all: intros j x Hj; try specialize (He j x Hj); try specialize (Hl j x Hj); try specialize (Hr j x Hj).
  all: assert (L ≠ R) by done; destruct (Z.lt_trichotomy (compare x.1 key) 0) as [Hc | [Hc | Hc]]; intuition lia.
Qed.

Lemma search_key_spec T es key flag :
  represents compare T es → Z.of_nat (length es) < 2 ^ 31 → ∃ r, tree_search_key compare T key flag = Ret r ∧
  match r with
  | None => selects_none flag key es
  | Some (k, pos) => ∃ i e, es !! i = Some e ∧ k = e.1 ∧ at_entry T pos i ∧ selects flag key es i
  end.
Proof using Hcmp.
  intros Hrep Hlen. pose proof Hrep as (t & Hf & (h & Hrb) & Hcol & Hes & Hs & Hd & _ & _). pose proof (Forall2_length _ _ _ Hes) as Hl.
  pose proof (rb_height_bound _ _ Hrb Hcol ltac:(lia)) as Hh. pose proof (size_links _ _ Hf Hd) as Hsize. pose proof (height_elems t) as Hhe.
  unfold tree_search_key. rewrite (fo_root _ _ _ Hf). cbn [top]. change [Nil] with (stack []). pose proof (key_loop_spec T key flag es) as Hloop.
  destruct (default (false, L) (on_equal flag)) as [b dq] eqn:Hflag.
  destruct (Hloop (size (links T)) t [] [] es [] (mkLast None None None)) as (res & -> & Hres); [lia | cbn; lia | done | constructor | done | by rewrite app_nil_r | done.. | |].
  { split; [done | done | intros _; constructor]. }
  obind. destruct res as [last |]; [| exists None; split; [done |]; destruct flag; try done; by apply Forall_true].
  destruct Hres as (eb & ea & Hsplit & Hlo & Hhi & Hrem). apply (key_result T es key flag (chosen flag last)); [done |]. by eapply select_spec.
Qed.

(** Positions in a tree are indices into its sorted table.  [tree_search_edge] returns the key of the first or last entry,
    or NULL when the tree is empty; from the position of an entry [tree_search_next] returns the key of the neighbour in the
    direction asked for, or NULL at the end, and the position it returns is that of the neighbour; [tree_search_key] finds
    the entry its flag asks for (the key itself, the first entry not before it or after it, the last entry before
    it or not after it), or NULL exactly when there is none.  No call writes past the 64 entries of [parents]. *)
Theorem tree_positions_correct T es :
  represents compare T es → Z.of_nat (length es) < 2 ^ 31 →
  (∀ d, ∃ pos, tree_search_edge T d = Ret (fst <$> es !! edge_index d es, pos) ∧ (es ≠ [] → at_entry T pos (edge_index d es))) ∧
  (∀ pos i r, at_entry T pos i → ∃ pos', tree_search_next T pos (flip r) r = Ret (fst <$> at_index es (step_index r i), pos') ∧
     ∀ j, step_index r i = Some j → (j < length es)%nat → at_entry T pos' j) ∧
  (∀ key flag, ∃ r, tree_search_key compare T key flag = Ret r ∧
     match r with
     | None => selects_none flag key es
     | Some (k, pos) => ∃ i e, es !! i = Some e ∧ k = e.1 ∧ at_entry T pos i ∧ selects flag key es i
     end).
Proof using Hcmp.
  intros Hrep Hlen. split_and!; intros; [by apply search_edge_spec | by apply search_next_spec | by apply search_key_spec].
Qed.

End cursor.

Lemma tree_positions_correct_witness :
  represents by_value three [(3, 2); (5, 1); (8, 1)] ∧
  ∃ pos pos', tree_search_edge three L = Ret (Some 3, pos) ∧ tree_search_next three pos L R = Ret (Some 5, pos') ∧ at_entry three pos' 1 ∧
  ∃ r, tree_search_key by_value three 6 HA_READ_KEY_OR_NEXT = Ret r ∧ fst <$> r = Some 8.
Proof.
  split; [exact three_represents |].
  destruct (tree_positions_correct by_value three _ three_represents ltac:(done)) as (Hedge & Hnext & Hkey).
  destruct (Hedge L) as (pos & He & Hat). destruct (Hnext pos 0%nat R (Hat ltac:(done))) as (pos' & Hn & Hat').
  exists pos, pos'. split; [exact He |]. split; [exact Hn |]. split; [exact (Hat' 1%nat eq_refl ltac:(cbn; lia)) |].
  destruct (Hkey 6 HA_READ_KEY_OR_NEXT) as (r & Hr & _). exists r. split; [exact Hr |]. vm_compute in Hr. by injection Hr as <-.
Defined.
