(* ===== verification/Hash.v ===== *)
(** * Hash tables (src/project4/mariadb/server/mysys/hash.c, include/hash.h)

    Linear hashing: the table has as many buckets as records, and grows and shrinks by one bucket at a time.  All records
    lie in one array; the records of a bucket are a chain of indices that starts at the index of the bucket, and a
    record that lies at the index of a bucket without records belongs to the chain of another bucket.

    A record is a pointer.  Its key is read through [key_of] (the callback [get_key] or a fixed offset); the hash function
    and the comparison of the character set are parameters too.  The dynamic array is a map from the indices below
    its number of elements; a new element has unspecified contents. *)

From S2P Require Import Prelude.

Definition NO_RECORD : Z := 2 ^ 32 - 1.
Definition LOWFIND : Z := 1.
Definition LOWUSED : Z := 2.
Definition HIGHFIND : Z := 4.
Definition HIGHUSED : Z := 8.
Definition HASH_UNIQUE : Z := 1.

Definition uint (z : Z) : Z := z mod 2 ^ 32.

Record HASH_LINK (R : Type) := mkLink { next : Z; hash_nr : Z; data : R }.
Arguments mkLink {R} _ _ _.
Arguments next {R} _.
Arguments hash_nr {R} _.
Arguments data {R} _.

(** [freed] records the calls of [hash->free]; the program does not have it. *)
Record HASH (R : Type) := mkHASH {
  key_length : Z; blength : Z; records : Z; flags : Z;
  array : gmap Z (HASH_LINK R);
  free : bool;
  freed : list R
}.
Arguments mkHASH {R} _ _ _ _ _ _ _.
Arguments key_length {R} _.
Arguments blength {R} _.
Arguments records {R} _.
Arguments flags {R} _.
Arguments array {R} _.
Arguments free {R} _.
Arguments freed {R} _.

Section hash.
Context {R : Type} `{EqDecision R}.
(** [my_hash_key], [hash->hash_function] and [my_strnncoll]; a key is the list of its bytes. *)
Context (key_of : R → str) (hash_function : str → Z) (strnncoll : str → str → Z).
Implicit Types (H : HASH R) (m : gmap Z (HASH_LINK R)).

(** ** Memory *)

Definition cell m (i : Z) : outcome (HASH_LINK R) := of_option (m !! i).

Definition set_cell m (i : Z) (f : HASH_LINK R → HASH_LINK R) : outcome (gmap Z (HASH_LINK R)) :=
  e ← cell m i; Ret (<[i := f e]> m).

Definition with_next (z : Z) (e : HASH_LINK R) : HASH_LINK R := mkLink z (hash_nr e) (data e).
Definition with_hash (z : Z) (e : HASH_LINK R) : HASH_LINK R := mkLink (next e) z (data e).

Definition with_table (b n : Z) m H : HASH R := mkHASH (key_length H) b n (flags H) m (free H) (freed H).

Definition call_free (r : R) H : HASH R :=
  if free H then mkHASH (key_length H) (blength H) (records H) (flags H) (array H) true (freed H ++ [r]) else H.

(** The first [len] bytes of a key in memory. *)
Definition key_bytes (key : str) (len : Z) : outcome str :=
  if bool_decide (len ≤ Z.of_nat (length key)) then Ret (take (Z.to_nat len) key) else UB.

(** ** The whole table *)

Definition my_hash_init2 (key_length : Z) (free_element : bool) (flags : Z) : HASH R :=
  mkHASH key_length 1 0 flags ∅ free_element [].

Fixpoint free_loop (todo : nat) (i : Z) H : outcome (HASH R) :=
  match todo with
  | O => Ret H
  | S todo => e ← cell (array H) i; free_loop todo (i + 1) (call_free (data e) H)
  end.

Definition my_hash_free_elements H : outcome (HASH R) :=
  let n := records H in
  let H := with_table (blength H) 0 (array H) H in
  if free H then free_loop (Z.to_nat n) 0 H else Ret H.

Definition my_hash_free H : outcome (HASH R) :=
  H ← my_hash_free_elements H;
  Ret (mkHASH (key_length H) 0 (records H) (flags H) ∅ false (freed H)).

Definition my_hash_reset H : outcome (HASH R) :=
  H ← my_hash_free_elements H;
  Ret (with_table 1 (records H) ∅ H).

(** ** Buckets and keys *)

Definition my_hash_mask (hashnr buffmax maxlength : Z) : Z :=
  if bool_decide (Z.land hashnr (buffmax - 1) < maxlength) then Z.land hashnr (buffmax - 1)
  else Z.land hashnr (Z.shiftr buffmax 1 - 1).

Definition my_hash_rec_mask (pos : HASH_LINK R) (buffmax maxlength : Z) : Z := my_hash_mask (hash_nr pos) buffmax maxlength.

Definition rec_hashnr (record : R) : Z := hash_function (key_of record).

(** Whether the key differs from that of the record. *)
Definition hashcmp (pos : HASH_LINK R) (key : str) (len : Z) : outcome bool :=
  let rec_key := key_of (data pos) in
  let rec_keylength := Z.of_nat (length rec_key) in
  if bool_decide (len ≠ 0 ∧ len ≠ rec_keylength) then Ret true
  else k ← key_bytes key rec_keylength; Ret (bool_decide (strnncoll rec_key k ≠ 0)).

(** ** Searching *)

(** The loop of [my_hash_first_from_hash_value]; [flag] holds in the first round. *)
Fixpoint first_loop (fuel : nat) H (key : str) (len : Z) (flag : bool) (idx : Z) : outcome (option (R * Z)) :=
  match fuel with
  | O => NoFuel
  | S fuel =>
      pos ← cell (array H) idx;
      differs ← hashcmp pos key len;
      if negb differs then Ret (Some (data pos, idx))
      else if flag && bool_decide (my_hash_rec_mask pos (blength H) (records H) ≠ idx) then Ret None
      else if bool_decide (next pos = NO_RECORD) then Ret None
      else first_loop fuel H key len false (next pos)
  end.

(** The record found, and [current_record]. *)
Definition my_hash_first_from_hash_value H (hash_value : Z) (key : str) (len : Z) : outcome (option R * Z) :=
  if bool_decide (records H = 0) then Ret (None, NO_RECORD)
  else
    r ← first_loop (size (array H)) H key len true (my_hash_mask hash_value (blength H) (records H));
    Ret (match r with Some (d, idx) => (Some d, idx) | None => (None, NO_RECORD) end).

Definition my_hash_first H (key : str) (len : Z) : outcome (option R * Z) :=
  k ← key_bytes key (if bool_decide (len = 0) then key_length H else len);
  my_hash_first_from_hash_value H (hash_function k) key len.

Definition my_hash_search H (key : str) (len : Z) : outcome (option R) :=
  r ← my_hash_first H key len; Ret r.1.

Definition my_hash_search_using_hash_value H (hash_value : Z) (key : str) (len : Z) : outcome (option R) :=
  r ← my_hash_first_from_hash_value H hash_value key len; Ret r.1.

Fixpoint next_loop (fuel : nat) H (key : str) (len : Z) (idx : Z) : outcome (option (R * Z)) :=
  if bool_decide (idx = NO_RECORD) then Ret None
  else
    match fuel with
    | O => NoFuel
    | S fuel =>
        pos ← cell (array H) idx;
        differs ← hashcmp pos key len;
        if negb differs then Ret (Some (data pos, idx)) else next_loop fuel H key len (next pos)
    end.

Definition my_hash_next H (key : str) (len : Z) (current_record : Z) : outcome (option R * Z) :=
  if bool_decide (current_record = NO_RECORD) then Ret (None, current_record)
  else
    e ← cell (array H) current_record;
    r ← next_loop (size (array H)) H key len (next e);
    Ret (match r with Some (d, idx) => (Some d, idx) | None => (None, NO_RECORD) end).

(** ** Inserting *)

Fixpoint movelink_loop (fuel : nat) m (find next_link newlink : Z) : outcome (gmap Z (HASH_LINK R)) :=
  match fuel with
  | O => NoFuel
  | S fuel =>
      old_link ← cell m next_link;
      if bool_decide (next old_link = find) then set_cell m next_link (with_next newlink)
      else movelink_loop fuel m find (next old_link) newlink
  end.

Definition movelink m (find next_link newlink : Z) : outcome (gmap Z (HASH_LINK R)) :=
  movelink_loop (size m) m find next_link newlink.

(** The locals of the loop that splits a bucket: [flag], [empty], and [gpos], [rec_hash_nr], [rec_data] of the records that
    stay and [gpos2], [rec2_hash_nr], [rec2_data] of the records that move, once they are set. *)
Record split := mkSplit { flag : Z; empty : Z; low : option (Z * Z * R); high : option (Z * Z * R) }.

(** [gpos->data= rec_data; gpos->hash_nr= rec_hash_nr; gpos->next= z] *)
Definition put m (g : option (Z * Z * R)) (z : Z) : outcome (gmap Z (HASH_LINK R)) :=
  '(gpos, h, d) ← of_option g; set_cell m gpos (λ _, mkLink z h d).

Definition has (flag bit : Z) : bool := bool_decide (Z.land flag bit ≠ 0).

(** The body of the loop for the record at [idx] that stays. *)
Definition split_low m (s : split) (idx : Z) (pos : HASH_LINK R) : outcome (gmap Z (HASH_LINK R) * split) :=
  if negb (has (flag s) LOWFIND) then
    if has (flag s) HIGHFIND
    then Ret (m, mkSplit (Z.lor LOWFIND HIGHFIND) idx (Some (empty s, hash_nr pos, data pos)) (high s))
    else Ret (m, mkSplit (Z.lor LOWFIND LOWUSED) (empty s) (Some (idx, hash_nr pos, data pos)) (high s))
  else
    '(m, fl) ← (if negb (has (flag s) LOWUSED)
                then m ← put m (low s) idx; Ret (m, Z.lor (Z.land (flag s) HIGHFIND) (Z.lor LOWFIND LOWUSED))
                else Ret (m, flag s));
    Ret (m, mkSplit fl (empty s) (Some (idx, hash_nr pos, data pos)) (high s)).

(** And for one that moves. *)
Definition split_high m (s : split) (idx : Z) (pos : HASH_LINK R) : outcome (gmap Z (HASH_LINK R) * split) :=
  if negb (has (flag s) HIGHFIND) then
    Ret (m, mkSplit (Z.lor (Z.land (flag s) LOWFIND) HIGHFIND) idx (low s) (Some (empty s, hash_nr pos, data pos)))
  else
    '(m, fl) ← (if negb (has (flag s) HIGHUSED)
                then m ← put m (high s) idx; Ret (m, Z.lor (Z.land (flag s) LOWFIND) (Z.lor HIGHFIND HIGHUSED))
                else Ret (m, flag s));
    Ret (m, mkSplit fl (empty s) (low s) (Some (idx, hash_nr pos, data pos))).

Fixpoint split_loop (fuel : nat) (b n halfbuff first_index : Z) m (s : split) (idx : Z) : outcome (gmap Z (HASH_LINK R) * split) :=
  match fuel with
  | O => NoFuel
  | S fuel =>
      pos ← cell m idx;
      if bool_decide (flag s = 0) && bool_decide (my_hash_mask (hash_nr pos) b n ≠ first_index) then Ret (m, s)
      else
        '(m, s) ← (if bool_decide (Z.land (hash_nr pos) halfbuff = 0) then split_low m s idx pos else split_high m s idx pos);
        pos ← cell m idx;
        if bool_decide (next pos = NO_RECORD) then Ret (m, s)
        else split_loop fuel b n halfbuff first_index m s (next pos)
  end.

(** The records of one bucket are divided between it and the new bucket; the result is the array and [empty]. *)
Definition split_bucket (b n : Z) m (last : Z) : outcome (gmap Z (HASH_LINK R) * Z) :=
  let halfbuff := uint (Z.shiftr b 1) in
  let first_index := uint (n - halfbuff) in
  if bool_decide (first_index = n) then Ret (m, last)
  else
    '(m, s) ← split_loop (size m) b n halfbuff first_index m (mkSplit 0 last None None) first_index;
    m ← (if bool_decide (Z.land (flag s) (Z.lor LOWFIND LOWUSED) = LOWFIND) then put m (low s) NO_RECORD else Ret m);
    m ← (if bool_decide (Z.land (flag s) (Z.lor HIGHFIND HIGHUSED) = HIGHFIND) then put m (high s) NO_RECORD else Ret m);
    Ret (m, empty s).

(** The new record at its place; [empty] is the free cell. *)
Definition place_record (b n : Z) m (empty hashnr : Z) (record : R) : outcome (gmap Z (HASH_LINK R)) :=
  let idx := my_hash_mask hashnr b (n + 1) in
  m ← (if bool_decide (idx = empty) then set_cell m idx (with_next NO_RECORD)
       else
         pos ← cell m idx;
         m ← set_cell m empty (λ _, pos);
         let gpos := my_hash_rec_mask pos b (n + 1) in
         if bool_decide (idx = gpos) then set_cell m idx (with_next empty)
         else m ← set_cell m idx (with_next NO_RECORD); movelink m idx gpos empty);
  set_cell m idx (λ e, mkLink (next e) hashnr record).

(** [memory] is the contents of the element that [alloc_dynamic] returns, or [None] when there is no memory.  The result is
    whether the insertion failed. *)
Definition my_hash_insert H (memory : option (HASH_LINK R)) (record : R) : outcome (bool * HASH R) :=
  let key := key_of record in
  let current_hash_nr := hash_function key in
  duplicate ← (if bool_decide (Z.land (flags H) HASH_UNIQUE ≠ 0)
               then my_hash_search_using_hash_value H current_hash_nr key (Z.of_nat (length key)) else Ret None);
  match duplicate, memory with
  | Some _, _ | None, None => Ret (true, H)
  | None, Some junk =>
      let b := blength H in
      let n := records H in
      '(m, empty) ← split_bucket b n (<[n := junk]> (array H)) n;
      m ← place_record b n m empty current_hash_nr record;
      Ret (false, with_table (if bool_decide (n + 1 = b) then b + b else b) (n + 1) m H)
  end.

(** ** Deleting *)

(** The search for the record: its index and that of the record before it in the chain. *)
Fixpoint find_record (fuel : nat) m (record : R) (gpos : option Z) (pos : Z) : outcome (option (option Z * Z)) :=
  match fuel with
  | O => NoFuel
  | S fuel =>
      e ← cell m pos;
      if decide (data e = record) then Ret (Some (gpos, pos))
      else if bool_decide (next e = NO_RECORD) then Ret None
      else find_record fuel m record (Some pos) (next e)
  end.

(** Take the record at [pos] out of its chain; the result is the array and the cell that is free now. *)
Definition remove_link m (gpos : option Z) (pos : Z) : outcome (gmap Z (HASH_LINK R) * Z) :=
  e ← cell m pos;
  match gpos with
  | Some g => m ← set_cell m g (with_next (next e)); Ret (m, pos)
  | None =>
      if bool_decide (next e = NO_RECORD) then Ret (m, pos)
      else
        e' ← cell m (next e);
        m ← set_cell m pos (λ _, e');
        Ret (m, next e)
  end.

(** Move the record in the last cell; [b] and [n] are the sizes before the deletion, [b'] and [n'] those after it. *)
Definition move_last (b b' n' : Z) m (empty : Z) : outcome (gmap Z (HASH_LINK R)) :=
  let lastpos := n' in
  if bool_decide (empty = lastpos) then Ret m
  else
    last ← cell m lastpos;
    let pos := my_hash_mask (hash_nr last) b' n' in
    if bool_decide (pos = empty) then set_cell m empty (λ _, last)
    else
      e ← cell m pos;
      let pos3 := my_hash_mask (hash_nr e) b' n' in
      if bool_decide (pos ≠ pos3) then
        m ← set_cell m empty (λ _, e);
        m ← set_cell m pos (λ _, last);
        movelink m pos pos3 empty
      else
        let pos2 := my_hash_mask (hash_nr last) b (n' + 1) in
        let same := bool_decide (pos2 = my_hash_mask (hash_nr e) b (n' + 1)) in
        if same && bool_decide (pos2 ≠ n') then
          m ← set_cell m empty (λ _, last);
          movelink m lastpos pos empty
        else
          let idx := if same then pos else NO_RECORD in
          m ← set_cell m empty (λ _, last);
          e ← cell m pos;
          m ← movelink m idx empty (next e);
          set_cell m pos (with_next empty).

(** The result is 1 when the record is not found. *)
Definition my_hash_delete H (record : R) : outcome (Z * HASH R) :=
  if bool_decide (records H = 0) then Ret (1, H)
  else
    let b := blength H in
    r ← find_record (size (array H)) (array H) record None (my_hash_mask (rec_hashnr record) b (records H));
    match r with
    | None => Ret (1, H)
    | Some (gpos, pos) =>
        let n' := records H - 1 in
        let b' := if bool_decide (n' < Z.shiftr b 1) then Z.shiftr b 1 else b in
        '(m, empty) ← remove_link (array H) gpos pos;
        m ← move_last b b' n' m empty;
        Ret (0, call_free record (with_table b' n' (delete n' m) H))
    end.

(** ** Updating *)

(** The loop of [my_hash_update] over the records with the new key: whether another record has it. *)
Fixpoint other_record (fuel : nat) H (record : R) (key : str) (len : Z) (found : option R) (state : Z) : outcome bool :=
  match found with
  | None => Ret false
  | Some r =>
      if decide (r = record) then
        match fuel with
        | O => NoFuel
        | S fuel => '(found, state) ← my_hash_next H key len state; other_record fuel H record key len found state
        end
      else Ret true
  end.

Definition duplicate_key H (record : R) (hashnr : Z) (key : str) (len : Z) : outcome bool :=
  if bool_decide (Z.land HASH_UNIQUE (flags H) ≠ 0) then
    '(found, state) ← my_hash_first_from_hash_value H hashnr key len;
    other_record (size (array H)) H record key len found state
  else Ret false.

(** Put the record [org_link] into the chain of the bucket [new_index]; [empty] is the free cell, and [idx] the one in
    which the record was. *)
Definition relink (b n : Z) m (new_index empty idx hashnr : Z) (org_link : HASH_LINK R) : outcome (gmap Z (HASH_LINK R)) :=
  if bool_decide (new_index = empty) then
    m ← (if bool_decide (empty ≠ idx) then set_cell m empty (λ _, org_link) else Ret m);
    m ← set_cell m empty (with_next NO_RECORD);
    set_cell m empty (with_hash hashnr)
  else
    pos ← cell m new_index;
    let new_pos_index := my_hash_rec_mask pos b n in
    if bool_decide (new_index ≠ new_pos_index) then
      m ← set_cell m empty (λ _, pos);
      m ← movelink m new_index new_pos_index empty;
      m ← set_cell m new_index (λ _, with_next NO_RECORD org_link);
      set_cell m new_index (with_hash hashnr)
    else
      m ← set_cell m empty (λ _, with_next (next pos) org_link);
      m ← set_cell m empty (with_hash hashnr);
      set_cell m new_index (with_next empty).

(** The key of the record has changed from [old_key]; the result is 1 on failure. *)
Definition my_hash_update H (record : R) (old_key : str) (old_key_length : Z) : outcome (Z * HASH R) :=
  let new_key := key_of record in
  let hashnr := hash_function new_key in
  dup ← duplicate_key H record hashnr new_key (Z.of_nat (length new_key));
  if (dup : bool) then Ret (1, H)
  else
    let b := blength H in
    let n := records H in
    k ← key_bytes old_key (if bool_decide (old_key_length = 0) then key_length H else old_key_length);
    let org_index := my_hash_mask (hash_function k) b n in
    let new_index := my_hash_mask hashnr b n in
    r ← find_record (size (array H)) (array H) record None org_index;
    match r with
    | None => Ret (1, H)
    | Some (previous, idx) =>
        if bool_decide (org_index = new_index) then
          m ← set_cell (array H) idx (with_hash hashnr); Ret (0, with_table b n m H)
        else
          org_link ← cell (array H) idx;
          '(m, empty) ← remove_link (array H) previous idx;
          m ← relink b n m new_index empty idx hashnr org_link;
          Ret (0, with_table b n m H)
    end.

(** ** Other functions *)

Definition my_hash_element H (idx : Z) : outcome (option R) :=
  if bool_decide (idx < records H) then e ← cell (array H) idx; Ret (Some (data e)) else Ret None.

Definition my_hash_replace H (current_record : Z) (new_row : R) : outcome (HASH R) :=
  if bool_decide (current_record ≠ NO_RECORD) then
    m ← set_cell (array H) current_record (λ e, mkLink (next e) (hash_nr e) new_row);
    Ret (with_table (blength H) (records H) m H)
  else Ret H.

Fixpoint iterate_loop {A} (todo : nat) m (action : R → A → bool * A) (i : Z) (arg : A) : outcome (bool * A) :=
  match todo with
  | O => Ret (false, arg)
  | S todo =>
      e ← cell m i;
      let '(stop, arg) := action (data e) arg in
      if stop then Ret (true, arg) else iterate_loop todo m action (i + 1) arg
  end.

Definition my_hash_iterate {A} H (action : R → A → bool * A) (arg : A) : outcome (bool * A) :=
  iterate_loop (Z.to_nat (records H)) (array H) action 0 arg.

(** [my_hash_check]: the inner loop along a chain, with [found] and [error]. *)
Fixpoint check_chain (fuel : nat) (b n : Z) m (i idx found : Z) (error : bool) : outcome (Z * bool) :=
  if bool_decide (idx ≠ NO_RECORD) && bool_decide (found < n + 1) then
    match fuel with
    | O => NoFuel
    | S fuel =>
        let error := error || bool_decide (n ≤ idx) in
        hash_info ← cell m idx;
        if bool_decide (my_hash_rec_mask hash_info b n ≠ i)
        then check_chain fuel b n m i (next hash_info) found true
        else check_chain fuel b n m i (next hash_info) (found + 1) error
    end
  else Ret (found, error).

Fixpoint check_loop (todo : nat) (b n : Z) m (i found : Z) (error : bool) : outcome (Z * bool) :=
  match todo with
  | O => Ret (found, error)
  | S todo =>
      e ← cell m i;
      let error := error || bool_decide (hash_nr e ≠ rec_hashnr (data e)) in
      '(found, error) ← (if bool_decide (my_hash_rec_mask e b n = i)
                         then check_chain (size m) b n m i (next e) (found + 1) error
                         else Ret (found, error));
      check_loop todo b n m (i + 1) found error
  end.

Definition my_hash_check H : outcome bool :=
  '(found, error) ← check_loop (Z.to_nat (records H)) (blength H) (records H) (array H) 0 0 false;
  Ret (error || bool_decide (found ≠ records H)).

End hash.
