(* ===== verification/HashRep.v ===== *)
(** * Hash tables: chains and tables

    The array of a hash table as a collection of chains.  [seg] is a piece of a chain in memory; [table] says that the
    cells of the array, but for at most one free cell, are divided into chains by the bucket of their hash number, and
    that the chain of a bucket starts at the index of the bucket.  The records of a table are the contents of its
    live cells ([contents]). *)

From S2P Require Import Prelude Hash.

Lemma insert_is_Some {A} (M : gmap Z A) i x : is_Some (M !! i) → ∀ j, is_Some (<[i := x]> M !! j) ↔ is_Some (M !! j).
Proof. intros Hi j. rewrite lookup_insert. case_decide; [subst; naive_solver | done]. Qed.

(** ** Buckets *)

(** The sizes of a table: [b] is a power of two and [n] lies between half of it and [b]. *)
Definition sizes (b n : Z) : Prop := ∃ k, 0 ≤ k ∧ b = 2 ^ k ∧ b / 2 ≤ n < b.

Lemma land_ones_mod h k : 0 ≤ k → Z.land h (2 ^ k - 1) = h mod 2 ^ k.
Proof. intros Hk. rewrite <- Z.land_ones by done. by rewrite Z.ones_equiv. Qed.

Lemma land_low_bit h j : 0 ≤ j → Z.land h (2 ^ j) = if Z.testbit h j then 2 ^ j else 0.
Proof.
  intros Hj. apply Z.bits_inj'. intros i Hi. rewrite Z.land_spec, Z.pow2_bits_eqb by done. destruct (Z.eqb_spec j i) as [-> | Hne].
  - destruct (Z.testbit h i); [by rewrite Z.pow2_bits_true | by rewrite Z.bits_0].
  - rewrite andb_false_r. destruct (Z.testbit h j); [by rewrite Z.pow2_bits_false | by rewrite Z.bits_0].
Qed.

(** One more bit of a hash number. *)
Lemma mod_step h j : 0 ≤ j → h mod 2 ^ (j + 1) = h mod 2 ^ j + (if Z.testbit h j then 2 ^ j else 0).
Proof.
  intros Hj. rewrite Z.pow_add_r, Z.pow_1_r by lia. rewrite Z.rem_mul_r by lia. f_equal. rewrite <- Z.testbit_spec' by done.
  destruct (Z.testbit h j); cbn [Z.b2z]; lia.
Qed.

(** [my_hash_mask] for the power [2 ^ (j + 1)]. *)
Lemma mask_mod h j n : 0 ≤ j → my_hash_mask h (2 ^ (j + 1)) n = if decide (h mod 2 ^ (j + 1) < n) then h mod 2 ^ (j + 1) else h mod 2 ^ j.
Proof.
  intros Hj. unfold my_hash_mask. assert (Z.shiftr (2 ^ (j + 1)) 1 = 2 ^ j) as ->.
  { rewrite Z.shiftr_div_pow2, Z.pow_add_r, Z.pow_1_r by lia. apply Z.div_mul. lia. }
  rewrite !land_ones_mod by lia. case_decide; [by rewrite bool_decide_true | by rewrite bool_decide_false].
Qed.

Lemma mask_range h b n : 0 < n → sizes b n ∨ n = b ∧ sizes b (n - 1) → 0 ≤ my_hash_mask h b n < n.
Proof.
  intros Hn Hs. assert (∃ k, 0 ≤ k ∧ b = 2 ^ k ∧ b / 2 ≤ n ≤ b) as (k & Hk & -> & Hb) by (destruct Hs as [(k & ? & ? & ?) | [? (k & ? & ? & ?)]]; exists k; lia).
  destruct (decide (k = 0)) as [-> | Hk0].
  { unfold my_hash_mask. change (2 ^ 0 - 1) with 0. rewrite Z.land_0_r. by rewrite bool_decide_true by lia. }
  replace k with (k - 1 + 1) in * by lia. rewrite mask_mod by lia. rewrite Z.pow_add_r, Z.pow_1_r, Z.div_mul in Hb by lia.
  pose proof (Z.mod_pos_bound h (2 ^ (k - 1)) ltac:(lia)). pose proof (Z.mod_pos_bound h (2 ^ (k - 1 + 1)) ltac:(lia)). case_decide; lia.
Qed.

(** With one more bucket the records of the bucket [n - b / 2] whose next bit is set go to the bucket [n], and no other
    records move. *)
Lemma mask_split h b n : sizes b n → 0 < n →
  my_hash_mask h b (n + 1) =
    if decide (my_hash_mask h b n = n - b / 2 ∧ Z.land h (b / 2) ≠ 0) then n else my_hash_mask h b n.
Proof.
  intros (k & Hk & -> & Hb) Hn. destruct (decide (k = 0)) as [-> | Hk0]; [cbn in Hb; lia |]. replace k with (k - 1 + 1) in * by lia.
  assert (0 ≤ k - 1) as Hj by lia. set (j := k - 1) in *. clearbody j. rewrite !mask_mod by done.
  replace (2 ^ (j + 1) / 2) with (2 ^ j) in * by (rewrite Z.pow_add_r, Z.pow_1_r, Z.div_mul by lia; done). rewrite land_low_bit by done.
  pose proof (mod_step h j Hj) as Hmod. rewrite Z.pow_add_r, Z.pow_1_r in * by lia. pose proof (Z.mod_pos_bound h (2 ^ j) ltac:(lia)).
  destruct (Z.testbit h j); repeat case_decide; lia.
Qed.

Lemma mask_double h b : (∃ k, 0 ≤ k ∧ b = 2 ^ k) → my_hash_mask h (b + b) b = my_hash_mask h b b.
Proof.
  intros (k & Hk & ->). replace (2 ^ k + 2 ^ k) with (2 ^ (k + 1)) by (rewrite Z.pow_add_r, Z.pow_1_r by lia; lia). rewrite mask_mod by done.
  pose proof (mod_step h k Hk). pose proof (Z.mod_pos_bound h (2 ^ k) ltac:(lia)). unfold my_hash_mask. rewrite land_ones_mod by done.
  rewrite bool_decide_true by lia. destruct (Z.testbit h k); case_decide; lia.
Qed.

Section rep.
Context {R : Type}.
Implicit Types (m : gmap Z (HASH_LINK R)) (L : gmap Z (Z * R)) (e : HASH_LINK R).

(** ** Pieces of chains *)

(** From the pointer [x] through the cells [l] to the pointer [z]. *)
Fixpoint seg m (x : Z) (l : list Z) (z : Z) : Prop :=
  match l with
  | [] => x = z
  | y :: l => x = y ∧ ∃ e, m !! y = Some e ∧ seg m (next e) l z
  end.

Lemma seg_app m l1 l2 : ∀ x z, seg m x (l1 ++ l2) z ↔ ∃ y, seg m x l1 y ∧ seg m y l2 z.
Proof.
  induction l1 as [| a l1 IH]; intros x z; cbn [app seg]; [naive_solver |]. setoid_rewrite IH. naive_solver.
Qed.

(** The memory outside the cells does not matter, and inside only the links do. *)
Lemma seg_frame m m' l : ∀ x z, (∀ i, i ∈ l → next <$> m' !! i = next <$> m !! i) → seg m x l z → seg m' x l z.
Proof.
  induction l as [| a l IH]; intros x z Hm; [done |]. intros [-> (e & He & Hs)]. split; [done |].
  pose proof (Hm a ltac:(by left)) as Ha. rewrite He in Ha. destruct (m' !! a) as [e' |]; [| done]. injection Ha as Ha. exists e'. split; [done |]. rewrite Ha.
  apply IH; [| done]. intros i Hi. apply Hm. by right.
Qed.

Lemma seg_insert m l x z i e : i ∉ l → seg m x l z → seg (<[i := e]> m) x l z.
Proof. intros Hi. apply seg_frame. intros j Hj. by rewrite lookup_insert_ne by congruence. Qed.

Lemma seg_snoc m l x g z e : m !! g = Some e → seg m x l g → next e = z → seg m x (l ++ [g]) z.
Proof. intros He Hs Hz. apply seg_app. exists g. split; [done |]. split; [done |]. by exists e. Qed.

Lemma seg_lookup m l : ∀ x z i, seg m x l z → i ∈ l → is_Some (m !! i).
Proof. induction l as [| a l IH]; intros x z i; [by intros _ ?%not_elem_of_nil |]. intros [-> (e & He & Hs)] [-> | Hi]%elem_of_cons; [done | by eapply IH]. Qed.

Lemma seg_start m l x z : l ≠ [] → seg m x l z → ∃ l', l = x :: l'.
Proof. destruct l as [| a l]; [done |]. intros _ [-> _]. by eexists. Qed.

(** A whole chain ends in [NO_RECORD], which is no index. *)
Abbreviation path m x l := (seg m x l NO_RECORD).

Lemma path_unique m l : m !! NO_RECORD = None → ∀ x l', path m x l → path m x l' → l = l'.
Proof.
  intros Hno. induction l as [| a l IH]; intros x l' Hl Hl'.
  - cbn in Hl. subst. destruct l' as [| b l']; [done |]. destruct Hl' as [<- (e & He & _)]. congruence.
  - destruct Hl as [-> (e & He & Hl)]. destruct l' as [| b l']; [cbn in Hl'; subst; congruence |].
    destruct Hl' as [<- (e' & He' & Hl')]. f_equal. apply (IH (next e)); [done |]. congruence.
Qed.

Lemma path_NoDup m l : m !! NO_RECORD = None → ∀ x, path m x l → NoDup l.
Proof.
  intros Hno. induction l as [| a l IH]; intros x Hl; [constructor |]. pose proof Hl as [-> (e & He & Hs)]. constructor; [| by eapply IH].
  intros Ha. apply list_elem_of_split in Ha as (l1 & l2 & ->). pose proof Hs as Hs2. apply seg_app in Hs2 as (y & _ & Hy).
  pose proof Hy as [-> _]. pose proof (path_unique m _ Hno _ _ Hl Hy) as Heq. apply (f_equal length) in Heq. rewrite !length_cons, length_app, length_cons in Heq. lia.
Qed.

Lemma seg_length m l x z : NoDup l → seg m x l z → (length l ≤ size m)%nat.
Proof.
  intros Hnd Hs. assert (list_to_set l ⊆ dom m) as Hsub.
  { intros i Hi. rewrite elem_of_list_to_set in Hi. apply elem_of_dom. by eapply seg_lookup. }
  apply subseteq_size in Hsub. by rewrite size_list_to_set, size_dom in Hsub.
Qed.

(** ** [movelink] *)

Lemma movelink_loop_spec m w z l : ∀ fuel x g e,
  (length l < fuel)%nat → seg m x l g → z ∉ l → z ≠ g → m !! g = Some e → next e = z →
  movelink_loop fuel m z x w = Ret (<[g := with_next w e]> m).
Proof.
  induction l as [| a l IH]; intros fuel x g e Hfuel Hs Hz Hzg He Hnext; (destruct fuel as [| fuel]; [cbn in *; lia |]); cbn [movelink_loop seg length] in *.
  - subst x. unfold set_cell, cell. rewrite He. cbn [of_option]. obind. by rewrite bool_decide_true.
  - destruct Hs as [-> (e' & He' & Hs)]. unfold cell. rewrite He'. cbn [of_option]. obind. rewrite bool_decide_false; cycle 1.
    { intros Hn. rewrite Hn in Hs. destruct l as [| b l]; [cbn in Hs; congruence |]. destruct Hs as [-> _]. set_solver. }
    apply (IH fuel (next e') g e); [lia | done | set_solver | done..].
Qed.

(** The link to [z] at the end of the cells [l ++ [g]] becomes a link to [w]. *)
Lemma movelink_spec m x l g z w :
  NoDup (l ++ [g]) → seg m x (l ++ [g]) z → z ∉ l ++ [g] → ∃ e, m !! g = Some e ∧ movelink m z x w = Ret (<[g := with_next w e]> m).
Proof.
  intros Hnd Hs Hz. pose proof (seg_length _ _ _ _ Hnd Hs) as Hlen. rewrite length_app in Hlen. cbn in Hlen.
  apply seg_app in Hs as (y & Hs & -> & e & He & Hn). cbn in Hn. exists e. split; [done |].
  apply (movelink_loop_spec _ _ _ l); [lia | done | set_solver | set_solver | done | done].
Qed.

(** ** Tables *)

Definition payload e : Z * R := (hash_nr e, data e).

(** The records in the cells. *)
Definition contents L : list (Z * R) := (map_to_list L).*2.

Lemma contents_add L i x : L !! i = None → contents (<[i := x]> L) ≡ₚ x :: contents L.
Proof. intros Hi. unfold contents. by rewrite (map_to_list_insert L i x Hi). Qed.

Lemma contents_delete L i x : L !! i = Some x → contents L ≡ₚ x :: contents (delete i L).
Proof. intros Hi. rewrite <- (insert_delete_id L i x Hi) at 1. apply contents_add. apply lookup_delete_eq. Qed.

Lemma contents_move L i j x : L !! i = Some x → L !! j = None → contents (<[j := x]> (delete i L)) ≡ₚ contents L.
Proof.
  intros Hi Hj. rewrite contents_add, <- contents_delete; [done | done |]. destruct (decide (i = j)); [congruence |]. by rewrite lookup_delete_ne.
Qed.

Lemma contents_elem L x : x ∈ contents L ↔ ∃ i, L !! i = Some x.
Proof.
  unfold contents. rewrite list_elem_of_fmap. split.
  - intros ([i y] & -> & Hi). exists i. by apply elem_of_map_to_list.
  - intros (i & Hi). exists (i, x). split; [done |]. by apply elem_of_map_to_list.
Qed.

(** The cells below [n] but for the cell [hole] are live; [home] gives the bucket of a hash number, [ch] the chain of a
    bucket. *)
Record table (home : Z → Z) m (n : Z) (hole : option Z) L (ch : Z → list Z) : Prop := {
  t_dom i : is_Some (m !! i) ↔ 0 ≤ i < n;
  t_size : n ≤ NO_RECORD;
  t_live i : L !! i = if decide (hole = Some i) then None else payload <$> m !! i;
  t_path p : ch p ≠ [] → path m p (ch p);
  t_in p i : i ∈ ch p ↔ ∃ h d, L !! i = Some (h, d) ∧ home h = p
}.
End rep.

Abbreviation path m x l := (seg m x l NO_RECORD).
