(* ===== verification/HashTable.v ===== *)
(** * Hash tables: changing one chain

    The steps from which insertion, deletion and update are made: taking a record out of its chain, moving a record from
    the cell of another bucket to the free cell, and putting a record into the chain of its bucket. *)

From stdpp Require Import functions.
From S2P Require Import Prelude Hash HashRep.

Section table.
Context {R : Type} (home : Z → Z).
Implicit Types (m : gmap Z (HASH_LINK R)) (L : gmap Z (Z * R)) (e : HASH_LINK R) (ch : Z → list Z).

(** ** Facts about tables *)

(** Case analysis on the keys of updates. *)
Ltac lookups := rewrite ?lookup_insert, ?lookup_delete; repeat case_decide; subst; simplify_eq/=; try done.

Lemma in_range m n hole L ch i : table home m n hole L ch → 0 ≤ i < n → is_Some (m !! i).
Proof. intros HT. apply HT. Qed.

Lemma live_range m n hole L ch i x : table home m n hole L ch → L !! i = Some x → 0 ≤ i < n.
Proof. intros HT Hi. rewrite (t_live _ _ _ _ _ _ HT) in Hi. case_decide; [done |]. apply (t_dom _ _ _ _ _ _ HT). by destruct (m !! i). Qed.

Lemma live_cell m n hole L ch i h d : table home m n hole L ch → L !! i = Some (h, d) → ∃ z, m !! i = Some (mkLink z h d).
Proof.
  intros HT Hi. rewrite (t_live _ _ _ _ _ _ HT) in Hi. case_decide; [done |]. destruct (m !! i) as [[z h' d'] |]; [| done]. injection Hi as -> ->. by exists z.
Qed.

Lemma cell_live m n hole L ch i e : table home m n hole L ch → m !! i = Some e → hole ≠ Some i → L !! i = Some (payload e).
Proof. intros HT Hi Hne. rewrite (t_live _ _ _ _ _ _ HT), Hi. by rewrite decide_False. Qed.

Lemma hole_dead m n i L ch : table home m n (Some i) L ch → L !! i = None.
Proof. intros HT. rewrite (t_live _ _ _ _ _ _ HT). by rewrite decide_True. Qed.

Lemma no_cell m n hole L ch : table home m n hole L ch → m !! NO_RECORD = None.
Proof.
  intros HT. apply eq_None_not_Some. intros Hs%(t_dom _ _ _ _ _ _ HT). pose proof (t_size _ _ _ _ _ _ HT). lia.
Qed.

Lemma chain_NoDup m n hole L ch p : table home m n hole L ch → NoDup (ch p).
Proof.
  intros HT. destruct (decide (ch p = [])) as [-> | Hp]; [constructor |]. eapply path_NoDup; [by eapply no_cell |]. by apply (t_path _ _ _ _ _ _ HT).
Qed.

Lemma chain_range m n hole L ch p i : table home m n hole L ch → i ∈ ch p → 0 ≤ i < n.
Proof. intros HT (h & d & Hi & _)%(t_in _ _ _ _ _ _ HT). by eapply live_range. Qed.

Lemma chain_cell m n hole L ch p i : table home m n hole L ch → i ∈ ch p → is_Some (m !! i).
Proof. intros HT Hi. apply (t_dom _ _ _ _ _ _ HT). by eapply chain_range. Qed.

(** A chain starts at the index of its bucket. *)
Lemma chain_start m n hole L ch p i : table home m n hole L ch → i ∈ ch p → ∃ l, ch p = p :: l.
Proof. intros HT Hi. eapply seg_start; [| apply (t_path _ _ _ _ _ _ HT)]; intros Hp; rewrite Hp in Hi; by apply not_elem_of_nil in Hi. Qed.

Lemma chain_of m n hole L ch i h d : table home m n hole L ch → L !! i = Some (h, d) → i ∈ ch (home h).
Proof. intros HT Hi. apply (t_in _ _ _ _ _ _ HT). by exists h, d. Qed.

Lemma chain_none m n hole L ch p : table home m n hole L ch → L !! p = None → ch p = [].
Proof.
  intros HT Hp. destruct (ch p) as [| i l] eqn:Hch; [done |]. destruct (chain_start _ _ _ _ _ p i HT) as (l' & Hl); [rewrite Hch; by left |].
  assert (p ∈ ch p) as (h & d & Hi & _)%(t_in _ _ _ _ _ _ HT) by (rewrite Hl; by left). congruence.
Qed.

(** A record outside its bucket's index has a record before it in the chain. *)
Lemma bucket_before m n hole L ch i h d :
  table home m n hole L ch → L !! i = Some (h, d) → home h ≠ i → ∃ l1 g l2 e, ch (home h) = (l1 ++ [g]) ++ i :: l2 ∧ m !! g = Some e ∧ next e = i.
Proof.
  intros HT Hi Hne. pose proof (chain_of _ _ _ _ _ _ _ _ HT Hi) as Hin. destruct (chain_start _ _ _ _ _ _ _ HT Hin) as (l & Hl).
  apply list_elem_of_split in Hin as (l1 & l2 & Hch). destruct l1 as [| g l1 _] using rev_ind; [cbn in Hch; congruence |].
  pose proof (t_path _ _ _ _ _ _ HT (home h) ltac:(by rewrite Hl)) as Hp. rewrite Hch, <- app_assoc in Hp. apply seg_app in Hp as (y & _ & _ & e & He & Hs).
  cbn in Hs. destruct Hs as [Hs _]. by exists l1, g, l2, e.
Qed.

(** The contents of the free cell do not matter. *)
Lemma hole_any m n i L ch e : table home m n (Some i) L ch → 0 ≤ i < n → table home (<[i := e]> m) n (Some i) L ch.
Proof.
  intros HT Hr. split.
  - intros j. destruct (decide (j = i)) as [-> | Hne]; [rewrite lookup_insert_eq; naive_solver | rewrite lookup_insert_ne by done; apply HT].
  - apply HT.
  - intros j. destruct (decide (j = i)) as [-> | Hne]; [rewrite (hole_dead _ _ _ _ _ HT); by rewrite decide_True |].
    rewrite lookup_insert_ne by done. apply HT.
  - intros p Hp. apply seg_insert; [| by apply HT]. intros (h & d & Hi & _)%(t_in _ _ _ _ _ _ HT). by rewrite (hole_dead _ _ _ _ _ HT) in Hi.
  - apply HT.
Qed.

(** ** Changing one chain *)

(** The chain of [p] becomes [l]: its new cells were not live, its old cells that are not in [l] are not live any more,
    and the other cells keep their records and links. *)
Lemma table_change m n hole L ch p m' hole' L' l :
  table home m n hole L ch →
  (∀ i, is_Some (m' !! i) ↔ is_Some (m !! i)) →
  (∀ i, L' !! i = if decide (hole' = Some i) then None else payload <$> m' !! i) →
  (l ≠ [] → path m' p l) →
  (∀ i, i ∈ l → ∃ h d, L' !! i = Some (h, d) ∧ home h = p) →
  (∀ i, i ∈ ch p → i ∉ l → L' !! i = None) →
  (∀ i, i ∈ l → i ∉ ch p → L !! i = None) →
  (∀ i, i ∉ ch p → i ∉ l → L' !! i = L !! i ∧ (is_Some (L !! i) → next <$> m' !! i = next <$> m !! i)) →
  table home m' n hole' L' (<[p := l]> ch).
Proof.
  intros HT Hdom Hlive Hpath Hin Hout Hnew Hrest. assert (∀ p' i, p' ≠ p → i ∈ ch p' → i ∉ ch p ∧ i ∉ l) as Hother.
  { intros p' i Hne Hi. pose proof Hi as (h & d & HL & Hh)%(t_in _ _ _ _ _ _ HT). assert (i ∉ ch p) as Hp.
    { intros (h' & d' & HL' & Hh')%(t_in _ _ _ _ _ _ HT). congruence. }
    split; [done |]. intros Hl. specialize (Hnew i Hl Hp). congruence. }
  split.
  - intros i. rewrite Hdom. apply HT.
  - apply HT.
  - done.
  - intros p' Hp'. destruct (decide (p' = p)) as [-> | Hne]; [rewrite fn_lookup_insert in *; by apply Hpath |]. rewrite fn_lookup_insert_ne in * by congruence.
    eapply seg_frame; [| by apply (t_path _ _ _ _ _ _ HT)]. intros i Hi. destruct (Hother p' i Hne Hi). apply Hrest; [done | done |].
    apply (t_in _ _ _ _ _ _ HT) in Hi as (h & d & -> & _). by eexists.
  - intros p' i. destruct (decide (p' = p)) as [-> | Hne].
    + rewrite fn_lookup_insert. split; [apply Hin |]. intros (h & d & HL & Hh). destruct (decide (i ∈ l)) as [| Hl]; [done |]. exfalso.
      destruct (decide (i ∈ ch p)) as [Hp | Hp]; [by rewrite (Hout i Hp Hl) in HL |]. apply Hp. apply (t_in _ _ _ _ _ _ HT). exists h, d.
      destruct (Hrest i Hp Hl) as [<- _]. done.
    + rewrite fn_lookup_insert_ne by congruence. split.
      * intros Hi. destruct (Hother p' i Hne Hi) as [Hp Hl]. destruct (Hrest i Hp Hl) as [-> _]. by apply (t_in _ _ _ _ _ _ HT).
      * intros (h & d & HL & Hh). destruct (decide (i ∈ l)) as [Hl | Hl]; [destruct (Hin i Hl) as (h' & d' & HL' & Hh'); congruence |].
        destruct (decide (i ∈ ch p)) as [Hp | Hp]; [by rewrite (Hout i Hp Hl) in HL |]. apply (t_in _ _ _ _ _ _ HT). exists h, d.
        destruct (Hrest i Hp Hl) as [<- _]. done.
Qed.

(** ** Putting a record into its chain *)

(** The free cell, the first cell and the rest of a chain are different. *)
Lemma chain_apart m n j L ch p l : table home m n (Some j) L ch → ch p = p :: l → j ≠ p ∧ j ∉ l ∧ p ∉ l.
Proof.
  intros HT Hch. pose proof (hole_dead _ _ _ _ _ HT) as Hdead. pose proof (chain_NoDup _ _ _ _ _ p HT) as Hnd. rewrite Hch in Hnd. apply NoDup_cons in Hnd as [Hp _].
  assert (j ∉ p :: l) as Hj%not_elem_of_cons; [| tauto]. rewrite <- Hch. intros (h & d & Hj & _)%(t_in _ _ _ _ _ _ HT). congruence.
Qed.

(** The record at the index of its bucket, which was free. *)
Lemma fill_single m n i L ch h d :
  table home m n (Some i) L ch → home h = i → 0 ≤ i < n →
  table home (<[i := mkLink NO_RECORD h d]> m) n None (<[i := (h, d)]> L) (<[i := [i]]> ch).
Proof.
  intros HT Hh Hr. pose proof (hole_dead _ _ _ _ _ HT) as Hdead. pose proof (chain_none _ _ _ _ _ _ HT Hdead) as Hch.
  eapply table_change; [done | | | | | | |].
  - apply insert_is_Some. by eapply in_range.
  - intros j. rewrite !lookup_insert. case_decide; [by lookups |]. rewrite (t_live _ _ _ _ _ _ HT). by lookups.
  - intros _. cbn. split; [done |]. exists (mkLink NO_RECORD h d). by simplify_map_eq.
  - intros j ->%list_elem_of_singleton. exists h, d. by simplify_map_eq.
  - rewrite Hch. by intros j ?%not_elem_of_nil.
  - intros j ->%list_elem_of_singleton _. done.
  - intros j _ Hj. rewrite not_elem_of_cons in Hj. destruct Hj as [Hj _]. by simplify_map_eq.
Qed.

(** The record as the new first one of a chain, whose old first record goes to the free cell. *)
Lemma push_head m n j L ch p l e h d :
  table home m n (Some j) L ch → 0 ≤ j < n → ch p = p :: l → m !! p = Some e → home h = p →
  table home (<[p := mkLink j h d]> (<[j := e]> m)) n None (<[p := (h, d)]> (<[j := payload e]> L)) (<[p := p :: j :: l]> ch).
Proof.
  intros HT Hr Hch He Hh. pose proof (hole_dead _ _ _ _ _ HT) as Hdead.
  pose proof (chain_apart _ _ _ _ _ _ _ HT Hch) as (Hjp & Hjl & Hpl).
  pose proof (t_path _ _ _ _ _ _ HT p ltac:(by rewrite Hch)) as Hpath. rewrite Hch in Hpath. destruct Hpath as [_ (e' & He' & Hpath)].
  assert (e' = e) as -> by congruence. pose proof (cell_live _ _ _ _ _ _ _ HT He ltac:(congruence)) as HLp.
  eapply table_change; [done | | | | | | |].
  - intros i. rewrite !insert_is_Some; [done | by eapply in_range | by rewrite lookup_insert_ne].
  - intros i. rewrite !lookup_insert. repeat case_decide; subst; try done. rewrite (t_live _ _ _ _ _ _ HT). by lookups.
  - intros _. cbn. split; [done |]. eexists. simplify_map_eq. split; [done |]. cbn. split; [done |]. eexists. simplify_map_eq. split; [done |].
    by apply seg_insert, seg_insert.
  - intros i Hi. destruct (decide (p = i)) as [<- | Hip]; [exists h, d; by rewrite lookup_insert_eq |]. rewrite lookup_insert_ne by done.
    destruct (decide (j = i)) as [<- | Hij].
    + assert (p ∈ ch p) as (h' & d' & Hp & Hh')%(t_in _ _ _ _ _ _ HT) by (rewrite Hch; by left). exists h', d'. rewrite lookup_insert_eq, <- HLp. done.
    + rewrite lookup_insert_ne by done. apply (t_in _ _ _ _ _ _ HT). rewrite Hch. set_solver.
  - rewrite Hch. set_solver.
  - rewrite Hch. intros i Hi Hn. assert (i = j) as -> by set_solver. done.
  - rewrite Hch. intros i Hi Hn. by rewrite !lookup_insert_ne by set_solver.
Qed.

(** The record in the free cell, as the second one of a chain. *)
Lemma push_second m n j L ch p l e h d :
  table home m n (Some j) L ch → 0 ≤ j < n → ch p = p :: l → m !! p = Some e → home h = p →
  table home (<[p := with_next j e]> (<[j := mkLink (next e) h d]> m)) n None (<[j := (h, d)]> L) (<[p := p :: j :: l]> ch).
Proof.
  intros HT Hr Hch He Hh. pose proof (hole_dead _ _ _ _ _ HT) as Hdead. pose proof (chain_apart _ _ _ _ _ _ _ HT Hch) as (Hjp & Hjl & Hpl).
  pose proof (t_path _ _ _ _ _ _ HT p ltac:(by rewrite Hch)) as Hpath. rewrite Hch in Hpath. destruct Hpath as [_ (e' & He' & Hpath)].
  assert (e' = e) as -> by congruence. pose proof (cell_live _ _ _ _ _ _ _ HT He ltac:(congruence)) as HLp.
  eapply table_change; [done | | | | | | |].
  - intros i. rewrite !insert_is_Some; [done | by eapply in_range | by rewrite lookup_insert_ne].
  - intros i. rewrite !lookup_insert. repeat case_decide; subst; try done. rewrite (t_live _ _ _ _ _ _ HT). by lookups.
  - intros _. cbn. split; [done |]. eexists. simplify_map_eq. split; [done |]. cbn. split; [done |]. eexists. simplify_map_eq. split; [done |].
    by apply seg_insert, seg_insert.
  - intros i Hi. rewrite !elem_of_cons in Hi. destruct (decide (i = j)) as [-> | Hij]; [exists h, d; by simplify_map_eq |]. rewrite lookup_insert_ne by done.
    apply (t_in _ _ _ _ _ _ HT). rewrite Hch. set_solver.
  - rewrite Hch. set_solver.
  - rewrite Hch. intros i Hi Hn. assert (i = j) as -> by set_solver. done.
  - rewrite Hch. intros i Hi Hn. by rewrite !lookup_insert_ne by set_solver.
Qed.

(** ** Moving a record to the free cell *)

(** The record at [i], which is not the first of its chain, moves to the free cell [j]; [movelink] finds the link to it, whatever
    is in the cells [i] and [j] meanwhile. *)
Lemma relocate m n j L ch i h d e :
  table home m n (Some j) L ch → 0 ≤ j < n → L !! i = Some (h, d) → home h ≠ i → m !! i = Some e → ∃ l1 g l2 eg,
  ch (home h) = (l1 ++ [g]) ++ i :: l2 ∧ m !! g = Some eg ∧ g ≠ i ∧ g ≠ j ∧
  (∀ m1, (∀ k, k ≠ i → k ≠ j → m1 !! k = m !! k) → movelink m1 i (home h) j = Ret (<[g := with_next j eg]> m1)) ∧
  table home (<[g := with_next j eg]> (<[j := e]> m)) n (Some i) (<[j := (h, d)]> (delete i L)) (<[home h := (l1 ++ [g]) ++ j :: l2]> ch).
Proof.
  intros HT Hr HLi Hne He. pose proof (hole_dead _ _ _ _ _ HT) as Hdead. destruct (bucket_before _ _ _ _ _ _ _ _ HT HLi Hne) as (l1 & g & l2 & eg & Hch & Hg & Hnext).
  pose proof (chain_NoDup _ _ _ _ _ (home h) HT) as Hnd. rewrite Hch in Hnd. pose proof Hnd as (Hnd1 & Hdisj & Hnd2)%NoDup_app. apply NoDup_cons in Hnd2 as [Hi2 _].
  assert (i ∉ l1 ++ [g]) as Hi1 by (intros Hi; apply (Hdisj i Hi); by left). assert (j ∉ (l1 ++ [g]) ++ i :: l2) as Hj.
  { rewrite <- Hch. intros (? & ? & ? & _)%(t_in _ _ _ _ _ _ HT). congruence. }
  pose proof (t_path _ _ _ _ _ _ HT (home h) ltac:(rewrite Hch; by destruct l1)) as Hpath. rewrite Hch in Hpath. apply seg_app in Hpath as (y & Hp1 & -> & e' & He' & Hp2).
  assert (e' = e) as -> by congruence. assert (g ≠ i ∧ g ≠ j) as [Hgi Hgj] by set_solver.
  exists l1, g, l2, eg. split; [done |]. split; [done |]. split; [done |]. split; [done |]. split.
  { intros m1 Hm1. destruct (movelink_spec m1 (home h) l1 g i j) as (eg' & Hg' & Hmove); [done | | done |].
    - eapply seg_frame; [| done]. intros k Hk. rewrite Hm1; [done | by intros -> | intros ->; set_solver].
    - rewrite Hm1 in Hg' by done. rewrite Hmove. congruence. }
  assert (L !! g = Some (payload eg)) as HLg by (eapply cell_live; [done | done | congruence]).
  eapply table_change; [done | | | | | | |].
  - intros k. rewrite !insert_is_Some; [done | by eapply in_range | by rewrite lookup_insert_ne].
  - intros k. rewrite !lookup_insert, lookup_delete. destruct (decide (g = k)) as [<- | Hgk]; [by rewrite !decide_False by congruence |].
    destruct (decide (j = k)) as [<- | Hjk]; [| rewrite (t_live _ _ _ _ _ _ HT); by lookups]. rewrite decide_False by (intros [= ->]; congruence).
    rewrite (cell_live _ _ _ _ _ _ _ HT He) in HLi by (intros [= ->]; congruence). by rewrite <- HLi.
  - intros _. apply seg_app. exists j. split.
    + apply seg_app in Hp1 as (y & Hp1 & -> & _). apply (seg_snoc _ _ _ _ _ (with_next j eg)); [by rewrite lookup_insert_eq | | done].
      apply NoDup_app in Hnd1 as (_ & Hg1 & _). apply seg_insert; [intros Hg'; apply (Hg1 g Hg'); by left |]. apply seg_insert; [set_solver | done].
    + split; [done |]. exists e. rewrite lookup_insert_ne, lookup_insert_eq by done. split; [done |]. apply seg_insert; [| apply seg_insert; [set_solver | done]].
      intros Hg'. apply (Hdisj g); [set_solver | by right].
  - intros k Hk. destruct (decide (j = k)) as [<- | Hjk]; [exists h, d; by rewrite lookup_insert_eq |]. rewrite lookup_insert_ne by done.
    assert (k ≠ i) by (intros ->; set_solver). rewrite lookup_delete_ne by done. apply (t_in _ _ _ _ _ _ HT). rewrite Hch. set_solver.
  - rewrite Hch. intros k Hk Hk'. assert (k = i) as -> by set_solver. rewrite lookup_insert_ne, lookup_delete_eq by (intros ->; set_solver). done.
  - rewrite Hch. intros k Hk Hk'. assert (k = j) as -> by set_solver. done.
  - rewrite Hch. intros k Hk Hk'. rewrite lookup_insert_ne, lookup_delete_ne by set_solver. by rewrite !lookup_insert_ne by set_solver.
Qed.

(** ** Taking a record out *)

(** A record that is not the first of its chain. *)
Lemma unlink_middle m n L ch p l1 g x l2 e eg :
  table home m n None L ch → ch p = (l1 ++ [g]) ++ x :: l2 → m !! x = Some e → m !! g = Some eg →
  table home (<[g := with_next (next e) eg]> m) n (Some x) (delete x L) (<[p := (l1 ++ [g]) ++ l2]> ch).
Proof.
  intros HT Hch He Hg. pose proof (chain_NoDup _ _ _ _ _ p HT) as Hnd. rewrite Hch in Hnd. pose proof Hnd as (Hnd1 & Hdisj & Hnd2)%NoDup_app.
  apply NoDup_cons in Hnd2 as [Hx2 _]. assert (x ∉ l1 ++ [g]) as Hx1 by (intros Hx; apply (Hdisj x Hx); by left).
  assert (g ≠ x) as Hgx by set_solver. apply NoDup_app in Hnd1 as (_ & Hg1 & _).
  pose proof (t_path _ _ _ _ _ _ HT p ltac:(rewrite Hch; by destruct l1)) as Hpath. rewrite Hch in Hpath. apply seg_app in Hpath as (y & Hp1 & -> & e' & He' & Hp2).
  assert (e' = e) as -> by congruence. apply seg_app in Hp1 as (y & Hp1 & -> & _).
  eapply table_change; [done | | | | | | |].
  - apply insert_is_Some. by eexists.
  - intros k. rewrite lookup_insert, lookup_delete, (t_live _ _ _ _ _ _ HT). destruct (decide (g = k)) as [<- |]; [by rewrite Hg; lookups | by lookups].
  - intros _. apply seg_app. exists (next e). split.
    + apply (seg_snoc _ _ _ _ _ (with_next (next e) eg)); [by rewrite lookup_insert_eq | | done]. apply seg_insert; [| done]. intros Hg'. apply (Hg1 g Hg'). by left.
    + apply seg_insert; [| done]. intros Hg'. apply (Hdisj g); [set_solver | by right].
  - intros k Hk. assert (k ≠ x) by (intros ->; set_solver). rewrite lookup_delete_ne by done. apply (t_in _ _ _ _ _ _ HT). rewrite Hch. set_solver.
  - rewrite Hch. intros k Hk Hk'. assert (k = x) as -> by set_solver. apply lookup_delete_eq.
  - rewrite Hch. set_solver.
  - rewrite Hch. intros k Hk Hk'. rewrite lookup_delete_ne by set_solver. by rewrite lookup_insert_ne by set_solver.
Qed.

(** The only record of its chain. *)
Lemma unlink_single m n L ch p : table home m n None L ch → ch p = [p] → table home m n (Some p) (delete p L) (<[p := []]> ch).
Proof.
  intros HT Hch. eapply table_change; [done | done | | done | by intros k ?%not_elem_of_nil | | by intros k ?%not_elem_of_nil |].
  - intros k. rewrite lookup_delete, (t_live _ _ _ _ _ _ HT). by lookups.
  - rewrite Hch. intros k ->%list_elem_of_singleton _. apply lookup_delete_eq.
  - rewrite Hch. intros k Hk _. rewrite lookup_delete_ne by set_solver. done.
Qed.

(** The first record of its chain: the second takes its place. *)
Lemma unlink_first m n L ch p y l e :
  table home m n None L ch → ch p = p :: y :: l → m !! y = Some e →
  table home (<[p := e]> m) n (Some y) (<[p := payload e]> (delete y (delete p L))) (<[p := p :: l]> ch).
Proof.
  intros HT Hch Hy. pose proof (chain_NoDup _ _ _ _ _ p HT) as Hnd. rewrite Hch in Hnd. apply NoDup_cons in Hnd as [Hp Hnd]. apply NoDup_cons in Hnd as [Hyl _].
  assert (p ≠ y) as Hpy by set_solver. pose proof (t_path _ _ _ _ _ _ HT p ltac:(by rewrite Hch)) as Hpath. rewrite Hch in Hpath.
  destruct Hpath as [_ (e1 & He1 & _ & e2 & He2 & Hpath)]. assert (e2 = e) as -> by congruence.
  pose proof (cell_live _ _ _ _ _ _ _ HT Hy ltac:(done)) as HLy.
  eapply table_change; [done | | | | | | |].
  - apply insert_is_Some. by eexists.
  - intros k. rewrite !lookup_insert, !lookup_delete, (t_live _ _ _ _ _ _ HT). by lookups.
  - intros _. split; [done |]. exists e. rewrite lookup_insert_eq. split; [done |]. apply seg_insert; [set_solver | done].
  - intros k Hk. destruct (decide (p = k)) as [<- | Hpk].
    + assert (y ∈ ch p) as (h & d & Hy' & Hh)%(t_in _ _ _ _ _ _ HT) by (rewrite Hch; set_solver). exists h, d. rewrite lookup_insert_eq, <- HLy. done.
    + assert (y ≠ k) by (intros ->; set_solver). rewrite lookup_insert_ne, !lookup_delete_ne by done. apply (t_in _ _ _ _ _ _ HT). rewrite Hch. set_solver.
  - rewrite Hch. intros k Hk Hk'. assert (k = y) as -> by set_solver. by rewrite lookup_insert_ne, lookup_delete_eq.
  - rewrite Hch. set_solver.
  - rewrite Hch. intros k Hk Hk'. rewrite lookup_insert_ne, !lookup_delete_ne by set_solver. by rewrite lookup_insert_ne by set_solver.
Qed.

(** [remove_link] for the record at [x] in the chain [l1 ++ x :: l2]. *)
Lemma remove_link_spec m n L ch p l1 x l2 h d e :
  table home m n None L ch → ch p = l1 ++ x :: l2 → m !! x = Some e → L !! x = Some (h, d) → ∃ m' hole L' ch',
  remove_link m (last l1) x = Ret (m', hole) ∧ table home m' n (Some hole) L' ch' ∧ 0 ≤ hole < n ∧
  contents L ≡ₚ (h, d) :: contents L' ∧ (hole = x → m' !! x = Some e).
Proof.
  intros HT Hch He HLx. unfold remove_link, cell. rewrite He. cbn [of_option]. obind. pose proof (live_range _ _ _ _ _ _ _ HT HLx) as Hx.
  pose proof (t_path _ _ _ _ _ _ HT p ltac:(rewrite Hch; by destruct l1)) as Hpath. rewrite Hch in Hpath. destruct l1 as [| g l1 _] using rev_ind.
  - destruct Hpath as [-> (e' & He' & Hpath)]. assert (e' = e) as -> by congruence. cbn [last]. destruct l2 as [| y l2]; cbn [seg app] in *.
    + rewrite bool_decide_true by done. exists m, x, (delete x L), (<[x := []]> ch). split; [done |]. split; [by apply unlink_single |].
      split; [done |]. split; [by apply contents_delete | done].
    + destruct Hpath as [Hn (ey & Hy & _)]. rewrite Hn. rewrite bool_decide_false; cycle 1.
      { pose proof (no_cell _ _ _ _ _ HT). congruence. }
      rewrite Hy. cbn [of_option]. obind. unfold set_cell, cell. rewrite He. cbn [of_option]. obind.
      eexists _, _, _, _. split; [done |]. split; [by eapply unlink_first |].
      pose proof (chain_NoDup _ _ _ _ _ x HT) as Hnd. rewrite Hch in Hnd. assert (y ≠ x) by (inversion Hnd; set_solver).
      split; [apply (t_dom _ _ _ _ _ _ HT); by eexists |]. split; [| done]. rewrite (contents_delete L x) by done. constructor. symmetry. apply contents_move.
      * rewrite lookup_delete_ne by done. by eapply cell_live.
      * apply lookup_delete_eq.
  - rewrite last_snoc. rewrite <- app_assoc in Hpath. apply seg_app in Hpath as (y & _ & -> & eg & Hg & _). unfold set_cell, cell. rewrite Hg. cbn [of_option]. obind.
    eexists _, _, _, _. split; [done |]. split; [by eapply unlink_middle |]. split; [done |]. split; [by apply contents_delete |].
    intros _. rewrite lookup_insert_ne; [done |]. pose proof (chain_NoDup _ _ _ _ _ p HT) as Hnd. rewrite Hch in Hnd. apply NoDup_app in Hnd as (_ & Hd & _).
    intros ->. apply (Hd x); set_solver.
Qed.

End table.
