(* ===== verification/HashInsert.v ===== *)
(** * Hash tables: insertion

    [split_bucket] adds a bucket to a table and leaves one cell free; [place_record] puts the new record into the table. *)

From stdpp Require Import functions.
From S2P Require Import Prelude Hash HashRep HashTable.

(** Equality of maps that are updates of one another. *)
Ltac map_ext := apply map_eq; intros ?; rewrite ?lookup_insert, ?lookup_delete; repeat case_decide; subst; unfold with_hash, with_next; cbn; congruence.

(** Write the array of a table as [M]. *)
Ltac array_is M := match goal with |- table _ ?M' _ _ _ _ => replace M' with M by map_ext end.

Section insert.
Context {R : Type} `{EqDecision R}.
Implicit Types (m : gmap Z (HASH_LINK R)) (L : gmap Z (Z * R)) (e : HASH_LINK R) (ch : Z → list Z).

Lemma cell_Ret m i e : m !! i = Some e → cell m i = Ret e.
Proof. intros He. unfold cell. by rewrite He. Qed.

Lemma set_cell_Ret m i e f : m !! i = Some e → set_cell m i f = Ret (<[i := f e]> m).
Proof. intros He. unfold set_cell. by rewrite (cell_Ret _ _ _ He). Qed.

(** ** The new record *)

Lemma place_record_spec b n m j L ch h r :
  (∀ h, 0 ≤ my_hash_mask h b (n + 1) < n + 1) →
  table (λ h, my_hash_mask h b (n + 1)) m (n + 1) (Some j) L ch → 0 ≤ j < n + 1 → ∃ m' L' ch',
  place_record b n m j h r = Ret m' ∧ table (λ h, my_hash_mask h b (n + 1)) m' (n + 1) None L' ch' ∧ contents L' ≡ₚ (h, r) :: contents L.
Proof.
  intros Hrange HT Hj. specialize (Hrange h). unfold place_record. set (home := λ h, my_hash_mask h b (n + 1)) in *. change (my_hash_mask h b (n + 1)) with (home h) in *.
  pose proof (hole_dead _ _ _ _ _ _ HT) as Hdead. destruct (in_range _ _ _ _ _ _ _ HT Hj) as [ej Hej]. destruct (in_range _ _ _ _ _ _ _ HT Hrange) as [e He].
  case_bool_decide as Hidx.
  { subst j. rewrite (set_cell_Ret _ _ _ _ He). obind. rewrite (set_cell_Ret _ _ _ _ (lookup_insert_eq _ _ _)).
    eexists _, _, _. split; [done |]. split; [| by apply (contents_add L (home h) (h, r))]. array_is (<[home h := mkLink NO_RECORD h r]> m).
    by apply fill_single. }
  rewrite (cell_Ret _ _ _ He). obind. rewrite (set_cell_Ret _ _ _ _ Hej). obind. pose proof (cell_live _ _ _ _ _ _ _ _ HT He ltac:(congruence)) as HLe.
  change (my_hash_rec_mask e b (n + 1)) with (home (hash_nr e)). case_bool_decide as Hg.
  - rewrite (set_cell_Ret _ _ e) by (by rewrite lookup_insert_ne). obind. rewrite (set_cell_Ret _ _ _ _ (lookup_insert_eq _ _ _)).
    destruct (chain_start home _ _ _ _ _ (home h) (home h) HT) as (l & Hl); [apply (t_in _ _ _ _ _ _ HT); eexists _, _; split; [done |]; by symmetry |].
    eexists _, _, _. split; [done |]. split.
    { array_is (<[home h := mkLink j h r]> (<[j := e]> m)). by apply (push_head home m _ j L ch (home h) l e). }
    replace (<[home h := (h, r)]> (<[j := payload e]> L)) with (<[home h := (h, r)]> (<[j := payload e]> (delete (home h) L))) by map_ext.
    rewrite contents_add by (rewrite lookup_insert_ne by done; apply lookup_delete_eq). by rewrite contents_move.
  - rewrite (set_cell_Ret _ _ e) by (by rewrite lookup_insert_ne). obind.
    destruct (relocate home _ _ _ _ _ (home h) (hash_nr e) (data e) e HT Hj HLe ltac:(congruence) He) as (l1 & g & l2 & eg & Hch & Heg & Hgi & Hgj & Hmove & HT').
    rewrite Hmove by (intros k ? ?; by rewrite !lookup_insert_ne). obind. rewrite (set_cell_Ret _ _ (with_next NO_RECORD e)); cycle 1.
    { rewrite lookup_insert_ne by done. apply lookup_insert_eq. }
    eexists _, _, _. split; [done |]. split.
    { apply (fill_single home _ _ _ _ _ h r) in HT'; [| done | done]. array_is (<[home h := mkLink NO_RECORD h r]> (<[g := with_next j eg]> (<[j := e]> m))). exact HT'. }
    rewrite contents_add; [by rewrite contents_move |]. rewrite lookup_insert_ne by done. apply lookup_delete_eq.
Qed.

End insert.
