(* ===== verification/HashSplit.v ===== *)
(** * Hash tables: splitting a bucket

    The loop of [my_hash_insert] walks along the chain of one bucket and makes two chains of it: the records that stay, from the
    index of the bucket on, and the records that move, from the index of the new bucket on.  Records stay in their cells
    except for the first of each chain; the write of a link is put off until it is known. *)

From stdpp Require Import functions.
From S2P Require Import Prelude Hash HashRep HashTable HashInsert.

Section split.
Context {R : Type} `{EqDecision R}.
Implicit Types (m : gmap Z (HASH_LINK R)) (L : gmap Z (Z * R)) (e : HASH_LINK R) (ch : Z → list Z).

(** ** One of the two chains

    The chain has the cells [pl] so far.  All but the last are as they should be; the last, [g], will get the record [(h, d)].  When
    it is in [use], it is the last cell that the loop has passed, and has not been touched. *)
Definition side m0 m L (done : list Z) (start : Z) (pl : list Z) (used : bool) (g : option (Z * Z * R)) : Prop :=
  pl = [] ∧ used = false ∨
  ∃ l t h d, pl = l ++ [t] ∧ g = Some (t, h, d) ∧ L !! t = Some (h, d) ∧ seg m start l t ∧
    (∀ x, x ∈ l → payload <$> m !! x = L !! x) ∧
    (used = true → m !! t = m0 !! t ∧ payload <$> m !! t = L !! t ∧ ∃ l', done = l' ++ [t]).

Section sides.
Context (m0 : gmap Z (HASH_LINK R)) (start : Z).

(** The loop goes on in the other chain. *)
Lemma side_other m L m' L' done done' pl used g :
  side m0 m L done start pl used g → (∀ x, x ∈ pl → m' !! x = m !! x ∧ L' !! x = L !! x) → side m0 m' L' done' start pl false g.
Proof.
  intros [[-> _] | (l & t & h & d & -> & -> & Ht & Hs & Hl & _)] Hsame; [by left |]. right. exists l, t, h, d. split_and!; try done.
  - destruct (Hsame t) as [_ ->]; [set_solver | done].
  - eapply seg_frame; [| done]. intros i Hi. destruct (Hsame i) as [-> _]; [set_solver | done].
  - intros x Hx. destruct (Hsame x) as [-> ->]; [set_solver | by apply Hl].
Qed.

(** The first record, in its cell or moved. *)
Lemma side_first_used m L done e : m !! start = Some e → m0 !! start = Some e → L !! start = Some (payload e) →
  side m0 m L (done ++ [start]) start [start] true (Some (start, hash_nr e, data e)).
Proof.
  intros He He0 HL. right. exists [], start, (hash_nr e), (data e). split_and!; try done; [by intros x ?%not_elem_of_nil |]. intros _. split; [congruence |]. split; [by rewrite He |]. by exists done.
Qed.

Lemma side_first_moved m L done h d : L !! start = Some (h, d) → side m0 m L done start [start] false (Some (start, h, d)).
Proof. intros HL. right. exists [], start, h, d. split_and!; try done. by intros x ?%not_elem_of_nil. Qed.

(** A further record at [idx], when the last cell has to be written. *)
Lemma side_put m L done pl g idx e :
  side m0 m L done start pl false g → pl ≠ [] → NoDup pl → idx ∉ pl → m !! idx = Some e → m0 !! idx = Some e → L !! idx = Some (payload e) →
  (∀ x, x ∈ pl → is_Some (m !! x)) → ∃ m' t, t ∈ pl ∧ put m g idx = Ret m' ∧ (∀ x, x ≠ t → m' !! x = m !! x) ∧ is_Some (m' !! t) ∧
  side m0 m' L (done ++ [idx]) start (pl ++ [idx]) true (Some (idx, hash_nr e, data e)).
Proof.
  intros [[-> _] | (l & t & h & d & -> & -> & Ht & Hs & Hl & _)] Hne Hnd Hidx He He0 HL Hin; [done |]. destruct (Hin t ltac:(set_solver)) as [et Het].
  apply NoDup_app in Hnd as (_ & Hd & _). assert (t ∉ l) as Htl by (intros Htl; apply (Hd t Htl); by left). assert (idx ≠ t) by set_solver.
  cbn [put of_option]. obind. unfold put. cbn [of_option]. obind. rewrite (set_cell_Ret _ _ _ _ Het). eexists _, t. split; [set_solver |]. split; [done |].
  split; [intros x Hx; by rewrite lookup_insert_ne |]. split; [by rewrite lookup_insert_eq |]. right. exists (l ++ [t]), idx, (hash_nr e), (data e). split_and!; try done.
  - apply (seg_snoc _ _ _ _ _ (mkLink idx h d)); [by rewrite lookup_insert_eq | by apply seg_insert | done].
  - intros x [Hx | ->%list_elem_of_singleton]%elem_of_app; [rewrite lookup_insert_ne by congruence; by apply Hl |]. by rewrite lookup_insert_eq.
  - intros _. rewrite lookup_insert_ne by done. split; [congruence |]. split; [by rewrite He |]. by exists done.
Qed.

(** A further record right after the last cell. *)
Lemma side_next m L done pl g idx e et :
  side m0 m L done start pl true g → m !! idx = Some e → m0 !! idx = Some e → L !! idx = Some (payload e) →
  (∀ t, last done = Some t → m0 !! t = Some et) → next et = idx →
  side m0 m L (done ++ [idx]) start (pl ++ [idx]) true (Some (idx, hash_nr e, data e)).
Proof.
  intros [[_ Hu] | (l & t & h & d & -> & -> & Ht & Hs & Hl & Hu)] He He0 HL Het Hnext; [done |]. destruct (Hu eq_refl) as (Hm & Hp & l' & ->).
  rewrite last_snoc in Het. specialize (Het t eq_refl). right. exists (l ++ [t]), idx, (hash_nr e), (data e). split_and!; try done.
  - eapply seg_snoc; [rewrite Hm; exact Het | done | done].
  - intros x [Hx | ->%list_elem_of_singleton]%elem_of_app; [by apply Hl | done].
  - intros _. split; [congruence |]. split; [by rewrite He |]. by exists (l' ++ [t]).
Qed.

(** Changes in other cells do not matter. *)
Lemma side_frame m L m' done pl used g : side m0 m L done start pl used g → (∀ x, x ∈ pl → m' !! x = m !! x) → side m0 m' L done start pl used g.
Proof.
  intros [[-> ->] | (l & t & h & d & -> & -> & Ht & Hs & Hl & Hu)] Hsame; [by left |]. right. exists l, t, h, d. split_and!; try done.
  - eapply seg_frame; [| done]. intros i Hi. rewrite Hsame; [done | set_solver].
  - intros x Hx. rewrite Hsame; [by apply Hl | set_solver].
  - intros Hused. rewrite Hsame by set_solver. by apply Hu.
Qed.

(** The end of the chain: the last cell is written unless it is in use. *)
Lemma side_end m L done pl used g :
  side m0 m L done start pl used g → NoDup pl → (∀ x, x ∈ pl → is_Some (m !! x)) → (∀ t e, last done = Some t → m0 !! t = Some e → next e = NO_RECORD) → ∃ m',
  (if bool_decide (pl ≠ [] ∧ used = false) then put m g NO_RECORD else Ret m) = Ret m' ∧ (pl ≠ [] → path m' start pl) ∧
  (∀ x, x ∈ pl → payload <$> m' !! x = L !! x) ∧ (∀ x, x ∉ pl → m' !! x = m !! x) ∧ (∀ x, is_Some (m' !! x) ↔ is_Some (m !! x)).
Proof.
  intros [[-> ->] | (l & t & h & d & -> & -> & Ht & Hs & Hl & Hu)] Hnd Hin Hlast.
  { exists m. rewrite bool_decide_false by tauto. split_and!; try done. by intros x ?%not_elem_of_nil. }
  destruct (Hin t ltac:(set_solver)) as [et Het]. apply NoDup_app in Hnd as (_ & Hd & _). assert (t ∉ l) as Htl by (intros Htl; apply (Hd t Htl); by left).
  destruct used.
  - rewrite bool_decide_false by naive_solver. destruct (Hu eq_refl) as (Hm & Hp & l' & ->). exists m. split_and!; try done.
    + intros _. eapply seg_snoc; [done | done |]. apply (Hlast t); [apply last_snoc | congruence].
    + intros x [Hx | ->%list_elem_of_singleton]%elem_of_app; [by apply Hl | done].
  - rewrite bool_decide_true by (split; [by destruct l | done]). unfold put. cbn [of_option]. obind. rewrite (set_cell_Ret _ _ _ _ Het). eexists. split_and!; [done | | | |].
    + intros _. apply (seg_snoc _ _ _ _ _ (mkLink NO_RECORD h d)); [by rewrite lookup_insert_eq | by apply seg_insert | done].
    + intros x [Hx | ->%list_elem_of_singleton]%elem_of_app; [rewrite lookup_insert_ne by congruence; by apply Hl |]. by rewrite lookup_insert_eq.
    + intros x Hx. rewrite lookup_insert_ne by set_solver. done.
    + apply insert_is_Some. by rewrite Het.
Qed.
End sides.

(** ** The loop *)

Definition flag_of (lf lu hf hu : bool) : Z := (if lf then 1 else 0) + (if lu then 2 else 0) + (if hf then 4 else 0) + (if hu then 8 else 0).

Lemma has_flags lf lu hf hu : let fl := flag_of lf lu hf hu in
  has fl LOWFIND = lf ∧ has fl LOWUSED = lu ∧ has fl HIGHFIND = hf ∧ has fl HIGHUSED = hu ∧
  Z.lor (Z.land fl HIGHFIND) (Z.lor LOWFIND LOWUSED) = flag_of true true hf false ∧
  Z.lor (Z.land fl LOWFIND) HIGHFIND = flag_of lf false true false ∧
  Z.lor (Z.land fl LOWFIND) (Z.lor HIGHFIND HIGHUSED) = flag_of lf false true true.
Proof. by destruct lf, lu, hf, hu. Qed.

Definition some_cells (l : list Z) : bool := match l with [] => false | _ => true end.

Section loop.
(** The chain [l] of the bucket [q] of a table with [n] buckets; the new cell is [n]. *)
Context (b n half q : Z) (m0 : gmap Z (HASH_LINK R)) (L0 : gmap Z (Z * R)) (l : list Z).
Hypothesis Hpath : path m0 q l.
Hypothesis Hnodup : NoDup l.
Hypothesis Hnew : n ∉ l.
Hypothesis Hcell : is_Some (m0 !! n).
Hypothesis Hmember : ∀ x, x ∈ l → ∃ e, m0 !! x = Some e ∧ L0 !! x = Some (payload e) ∧ my_hash_mask (hash_nr e) b n = q.

(** After the cells [done]: the records that stay are in [pl], those that move in [ph]; [L] has the records where they will be. *)
Record splitting (done pl ph : list Z) (ul uh : bool) m (s : split) L : Prop := {
  sp_cells : pl ++ ph ++ [empty s] ≡ₚ done ++ [n];
  sp_flag : flag s = flag_of (some_cells pl) ul (some_cells ph) uh;
  sp_one : ul = true → uh = false;
  sp_low : side m0 m L done q pl ul (low s);
  sp_high : side m0 m L done n ph uh (high s);
  sp_stay t : t ∈ pl → ∃ h d, L !! t = Some (h, d) ∧ my_hash_mask h b n = q ∧ Z.land h half = 0;
  sp_move t : t ∈ ph → ∃ h d, L !! t = Some (h, d) ∧ my_hash_mask h b n = q ∧ Z.land h half ≠ 0;
  sp_contents : contents L ≡ₚ contents L0;
  sp_rest i : i ∉ done → i ≠ n → L !! i = L0 !! i ∧ m !! i = m0 !! i;
  sp_dom i : is_Some (m !! i) ↔ is_Some (m0 !! i);
  sp_empty : L !! empty s = None;
  sp_first : ph = [] → empty s = n;
  sp_second : pl = [] → ph ≠ [] → empty s = q
}.

(** The cells of the two chains are cells that the loop has passed, and the new one. *)
Lemma splitting_cells done pl ph ul uh m s L x : splitting done pl ph ul uh m s L → x ∈ pl ∨ x ∈ ph ∨ x = empty s ↔ x ∈ done ∨ x = n.
Proof.
  clear Hpath Hnodup Hnew Hcell Hmember. intros HS. pose proof (sp_cells _ _ _ _ _ _ _ _ HS) as Hc. assert (x ∈ pl ++ ph ++ [empty s] ↔ x ∈ done ++ [n]) as Hx by (by rewrite Hc). set_solver.
Qed.

Lemma splitting_NoDup done todo pl ph ul uh m s L : l = done ++ todo → splitting done pl ph ul uh m s L → NoDup (pl ++ ph ++ [empty s]).
Proof.
  intros -> HS. rewrite (sp_cells _ _ _ _ _ _ _ _ HS). apply NoDup_app in Hnodup as (Hd & _). apply NoDup_app. split; [done |]. split; [set_solver | apply NoDup_singleton].
Qed.

(** The cell the loop is at. *)
Lemma splitting_current done idx todo pl ph ul uh m s L : l = done ++ idx :: todo → splitting done pl ph ul uh m s L → ∃ e,
  m !! idx = Some e ∧ m0 !! idx = Some e ∧ L !! idx = Some (payload e) ∧ my_hash_mask (hash_nr e) b n = q ∧
  idx ∉ pl ∧ idx ∉ ph ∧ idx ≠ empty s ∧ idx ≠ n ∧ idx ∉ done ∧ (∀ t et, last done = Some t → m0 !! t = Some et → next et = idx) ∧
  (∀ x, x ∈ pl ∨ x ∈ ph → is_Some (m !! x)).
Proof.
  intros Hl HS. destruct (Hmember idx) as (e & He & HLe & Hm); [rewrite Hl; set_solver |]. exists e. assert (idx ∉ done ∧ idx ≠ n) as [Hd Hn].
  { rewrite Hl in Hnodup, Hnew. apply NoDup_app in Hnodup as (_ & Hdis & _). split; [| set_solver]. intros Hi. apply (Hdis idx Hi). by left. }
  destruct (sp_rest _ _ _ _ _ _ _ _ HS idx Hd Hn) as [HLr Hmr]. pose proof (splitting_cells _ _ _ _ _ _ _ _ idx HS) as Hcells.
  split_and!; try done; try congruence; try tauto.
  - intros t et Hlast Het. apply last_Some in Hlast as (l' & ->). rewrite Hl, <- app_assoc in Hpath. apply seg_app in Hpath as (y & _ & -> & et' & Het' & Hseg).
    destruct Hseg as [Hseg _]. congruence.
  - intros x Hx. apply (sp_dom _ _ _ _ _ _ _ _ HS). assert (x ∈ done ∨ x = n) as [Hx' | ->] by (apply (splitting_cells _ _ _ _ _ _ _ _ x HS); tauto).
    + destruct (Hmember x) as (ex & -> & _); [rewrite Hl; set_solver | done].
    + done.
Qed.

(** The start of the chain. *)
Lemma splitting_start done idx todo ul uh m s L : l = done ++ idx :: todo → splitting done [] [] ul uh m s L → done = [] ∧ idx = q.
Proof.
  intros Hl HS. pose proof (Permutation_length (sp_cells _ _ _ _ _ _ _ _ HS)) as Hlen. rewrite !length_app in Hlen. cbn in Hlen. destruct done; [| cbn in Hlen; lia].
  split; [done |]. rewrite Hl in Hpath. by destruct Hpath as [-> _].
Qed.

(** The next record stays, in its cell. *)
Lemma stay_in_place done idx todo pl ph ul uh m s L m' s' :
  l = done ++ idx :: todo → splitting done pl ph ul uh m s L →
  (∀ e, m !! idx = Some e → Z.land (hash_nr e) half = 0) →
  (∀ x, x ∉ done → x ≠ n → m' !! x = m !! x) → (∀ x, is_Some (m' !! x) ↔ is_Some (m !! x)) →
  flag s' = flag_of true true (some_cells ph) false → empty s' = empty s →
  side m0 m' L (done ++ [idx]) q (pl ++ [idx]) true (low s') → side m0 m' L (done ++ [idx]) n ph false (high s') →
  splitting (done ++ [idx]) (pl ++ [idx]) ph true false m' s' L.
Proof.
  intros Hl HS Hlow Hm' Hdom' Hflag' Hempty' Hlow' Hhigh'. destruct (splitting_current _ _ _ _ _ _ _ _ _ _ Hl HS) as (e & He & He0 & HLe & Hmask & _).
  specialize (Hlow e He). destruct HS as [Hcells Hflag Hone Hside Hside2 Hstay Hmove Hcont Hrest Hdom Hempty Hfirst Hsecond]. split; try done.
  - rewrite Hempty'. rewrite <- !app_assoc. rewrite (Permutation_app_comm [idx]), !app_assoc, <- (app_assoc pl), Hcells. solve_Permutation.
  - rewrite Hflag'. by destruct pl.
  - intros t [Ht | ->%list_elem_of_singleton]%elem_of_app; [by apply Hstay |]. by exists (hash_nr e), (data e).
  - intros i Hi Hn. destruct (Hrest i) as [-> <-]; [set_solver | done |]. split; [done |]. apply Hm'; [set_solver | done].
  - intros i. by rewrite Hdom'.
  - by rewrite Hempty'.
  - rewrite Hempty'. done.
  - by destruct pl.
Qed.

(** The next record stays and moves to the start of its chain, which the first one has left. *)
Lemma stay_moved done idx todo ph ul uh m s L m' s' e :
  l = done ++ idx :: todo → splitting done [] ph ul uh m s L → ph ≠ [] → m !! idx = Some e → Z.land (hash_nr e) half = 0 →
  m' = m → flag s' = flag_of true false true false → empty s' = idx → low s' = Some (empty s, hash_nr e, data e) → high s' = high s →
  splitting (done ++ [idx]) [empty s] ph false false m' s' (<[empty s := payload e]> (delete idx L)).
Proof.
  intros Hl HS Hph0 He Hlow -> Hflag' Hempty' Hlow' Hhigh'.
  destruct (splitting_current _ _ _ _ _ _ _ _ _ _ Hl HS) as (e' & He' & He0 & HLe & Hmask & Hpl & Hph & Hemp & Hn & Hdone & _ & _).
  assert (e' = e) as -> by congruence. pose proof (splitting_NoDup _ _ _ _ _ _ _ _ _ Hl HS) as Hnd. apply NoDup_app in Hnd as (_ & Hdis & _).
  pose proof (splitting_cells _ _ _ _ _ _ _ _ (empty s) HS) as Hce. pose proof HS as [Hcells Hflag Hone Hside Hside2 Hstay Hmove Hcont Hrest Hdom Hempty Hfirst Hsecond]. split.
  - rewrite Hempty'. transitivity (idx :: (done ++ [n])); [rewrite <- Hcells; solve_Permutation | solve_Permutation].
  - rewrite Hflag'. by destruct ph.
  - done.
  - rewrite Hlow', Hsecond by done. apply side_first_moved. by rewrite lookup_insert_eq.
  - rewrite Hhigh'. eapply side_other; [done |]. intros x Hx. split; [done |]. rewrite lookup_insert_ne, lookup_delete_ne by (intros <-; first [done | set_solver]). done.
  - intros t ->%list_elem_of_singleton. exists (hash_nr e), (data e). by rewrite lookup_insert_eq.
  - intros t Ht. rewrite lookup_insert_ne, lookup_delete_ne by (intros <-; first [done | set_solver]). by apply Hmove.
  - by rewrite contents_move.
  - intros i Hi Hin. assert (i ≠ empty s) by (intros ->; set_solver). rewrite lookup_insert_ne, lookup_delete_ne by set_solver. apply Hrest; [set_solver | done].
  - done.
  - rewrite Hempty'. by rewrite lookup_insert_ne, lookup_delete_eq by congruence.
  - done.
  - done.
Qed.

(** The next record moves within the table but stays in its cell. *)
Lemma move_in_place done idx todo pl ph ul uh m s L m' s' :
  l = done ++ idx :: todo → splitting done pl ph ul uh m s L → ph ≠ [] →
  (∀ e, m !! idx = Some e → Z.land (hash_nr e) half ≠ 0) →
  (∀ x, x ∉ done → x ≠ n → m' !! x = m !! x) → (∀ x, is_Some (m' !! x) ↔ is_Some (m !! x)) →
  flag s' = flag_of (some_cells pl) false true true → empty s' = empty s →
  side m0 m' L (done ++ [idx]) q pl false (low s') → side m0 m' L (done ++ [idx]) n (ph ++ [idx]) true (high s') →
  splitting (done ++ [idx]) pl (ph ++ [idx]) false true m' s' L.
Proof.
  intros Hl HS Hph0 Hhigh Hm' Hdom' Hflag' Hempty' Hlow' Hhigh'. destruct (splitting_current _ _ _ _ _ _ _ _ _ _ Hl HS) as (e & He & He0 & HLe & Hmask & _).
  specialize (Hhigh e He). destruct HS as [Hcells Hflag Hone Hside Hside2 Hstay Hmove Hcont Hrest Hdom Hempty Hfirst Hsecond]. split; try done.
  - rewrite Hempty'. rewrite <- !app_assoc. rewrite (Permutation_app_comm [idx]), !app_assoc, <- (app_assoc pl), Hcells. solve_Permutation.
  - rewrite Hflag'. by destruct ph.
  - intros t [Ht | ->%list_elem_of_singleton]%elem_of_app; [by apply Hmove |]. by exists (hash_nr e), (data e).
  - intros i Hi Hn. destruct (Hrest i) as [-> <-]; [set_solver | done |]. split; [done |]. apply Hm'; [set_solver | done].
  - intros i. by rewrite Hdom'.
  - by rewrite Hempty'.
  - by destruct ph.
  - rewrite Hempty'. intros Hp _. by apply Hsecond.
Qed.

(** The first record that moves goes to the new cell. *)
Lemma move_moved done idx todo pl ul uh m s L m' s' e :
  l = done ++ idx :: todo → splitting done pl [] ul uh m s L → m !! idx = Some e → Z.land (hash_nr e) half ≠ 0 →
  m' = m → flag s' = flag_of (some_cells pl) false true false → empty s' = idx → low s' = low s → high s' = Some (empty s, hash_nr e, data e) →
  splitting (done ++ [idx]) pl [empty s] false false m' s' (<[empty s := payload e]> (delete idx L)).
Proof.
  intros Hl HS He Hhigh -> Hflag' Hempty' Hlow' Hhigh'.
  destruct (splitting_current _ _ _ _ _ _ _ _ _ _ Hl HS) as (e' & He' & He0 & HLe & Hmask & Hpl & Hph & Hemp & Hn & Hdone & _ & _).
  assert (e' = e) as -> by congruence. pose proof (splitting_NoDup _ _ _ _ _ _ _ _ _ Hl HS) as Hnd. apply NoDup_app in Hnd as (_ & Hdis & _).
  pose proof (splitting_cells _ _ _ _ _ _ _ _ (empty s) HS) as Hce. pose proof HS as [Hcells Hflag Hone Hside Hside2 Hstay Hmove Hcont Hrest Hdom Hempty Hfirst Hsecond].
  assert (∀ t, t ∈ pl → t ≠ empty s) as Hte by (intros t Ht ->; apply (Hdis (empty s) Ht); set_solver). split.
  - rewrite Hempty'. transitivity (idx :: (done ++ [n])); [rewrite <- Hcells; solve_Permutation | solve_Permutation].
  - by rewrite Hflag'.
  - done.
  - rewrite Hlow'. eapply side_other; [done |]. intros x Hx. split; [done |]. specialize (Hte x Hx). rewrite lookup_insert_ne, lookup_delete_ne by congruence. done.
  - rewrite Hhigh', Hfirst by done. apply side_first_moved. by rewrite lookup_insert_eq.
  - intros t Ht. specialize (Hte t Ht). rewrite lookup_insert_ne, lookup_delete_ne by congruence. by apply Hstay.
  - intros t ->%list_elem_of_singleton. exists (hash_nr e), (data e). by rewrite lookup_insert_eq.
  - by rewrite contents_move.
  - intros i Hi Hin. assert (i ≠ empty s) by (intros ->; set_solver). rewrite lookup_insert_ne, lookup_delete_ne by set_solver. apply Hrest; [set_solver | done].
  - done.
  - rewrite Hempty'. by rewrite lookup_insert_ne, lookup_delete_eq by congruence.
  - done.
  - intros -> _. rewrite Hempty'. by eapply splitting_start.
Qed.

(** The last cell that the loop has passed. *)
Lemma side_used_last m L done todo start pl g : l = done ++ todo → side m0 m L done start pl true g → ∃ t et, last done = Some t ∧ m0 !! t = Some et.
Proof.
  intros Hl [[_ ?] | (l' & t & h & d & _ & _ & _ & _ & _ & Hu)]; [done |]. destruct (Hu eq_refl) as (_ & _ & l'' & ->). exists t.
  destruct (Hmember t) as (et & Het & _); [rewrite Hl; set_solver |]. exists et. by rewrite last_snoc.
Qed.

(** ** The steps *)

(** Writing a cell of one of the two chains does not change the cells ahead of the loop. *)
Lemma put_frame done pl ph ul uh m s L m' t idx :
  splitting done pl ph ul uh m s L → t ∈ pl ∨ t ∈ ph → idx ∉ pl → idx ∉ ph → (∀ x, x ≠ t → m' !! x = m !! x) → is_Some (m' !! t) → is_Some (m !! t) →
  (∀ x, x ∉ done → x ≠ n → m' !! x = m !! x) ∧ (∀ x, is_Some (m' !! x) ↔ is_Some (m !! x)) ∧ m' !! idx = m !! idx.
Proof.
  intros HS Ht Hi1 Hi2 Hm' Hs' Hs. pose proof (splitting_cells _ _ _ _ _ _ _ _ t HS) as Hce. split_and!.
  - intros x Hx Hn. apply Hm'. intros ->. tauto.
  - intros x. destruct (decide (x = t)) as [-> | Hne]; [done | by rewrite Hm'].
  - apply Hm'. intros ->. tauto.
Qed.

Lemma split_low_spec done idx todo pl ph ul uh m s L e :
  l = done ++ idx :: todo → splitting done pl ph ul uh m s L → m !! idx = Some e → Z.land (hash_nr e) half = 0 → ∃ m' s' pl' ph' ul' uh' L',
  split_low m s idx e = Ret (m', s') ∧ m' !! idx = m !! idx ∧ splitting (done ++ [idx]) pl' ph' ul' uh' m' s' L'.
Proof.
  intros Hl HS He Hlow. destruct (splitting_current _ _ _ _ _ _ _ _ _ _ Hl HS) as (e' & He' & He0 & HLe & Hmask & Hpl & Hph & Hemp & Hn & Hdone & Hprev & Hin).
  assert (e' = e) as -> by congruence. clear He'. pose proof (splitting_NoDup _ _ _ _ _ _ _ _ _ Hl HS) as (Hnd1 & Hdis & _)%NoDup_app.
  assert (∀ e', m !! idx = Some e' → Z.land (hash_nr e') half = 0) as Hlow' by (intros e'; congruence).
  pose proof (has_flags (some_cells pl) ul (some_cells ph) uh) as (Hlf & Hlu & Hhf & _ & Hnew1 & _). cbv zeta in *.
  unfold split_low. rewrite (sp_flag _ _ _ _ _ _ _ _ HS), Hlf, Hlu, Hhf. destruct (decide (pl = [])) as [-> | Hpl0]; cbn [some_cells negb].
  - destruct (decide (ph = [])) as [-> | Hph0].
    + destruct (splitting_start _ _ _ _ _ _ _ _ Hl HS) as [-> ->]. cbn [some_cells]. eexists m, _, [q], [], true, false, L. split; [done |]. split; [done |].
      apply (stay_in_place [] q todo [] [] ul uh m s L); try done; [by apply side_first_used | by left].
    + replace (some_cells ph) with true by (by destruct ph). eexists m, _, [empty s], ph, false, false, _. split; [done |]. split; [done |]. by eapply stay_moved.
  - replace (some_cells pl) with true by (by destruct pl). cbn [negb]. destruct ul; cbn [negb]; obind.
    + eexists m, _, (pl ++ [idx]), ph, true, false, L. split; [done |]. split; [done |]. pose proof (sp_one _ _ _ _ _ _ _ _ HS eq_refl) as ->.
      apply (stay_in_place done idx todo pl ph true false m s L); try done.
      * cbn [low]. pose proof (sp_low _ _ _ _ _ _ _ _ HS) as Hside. destruct (side_used_last _ _ _ _ _ _ _ Hl Hside) as (t & et & Hlast & Het). eapply (side_next _ _ _ _ _ _ _ _ _ et); [done.. | | by eapply Hprev]. intros t'. rewrite Hlast. by intros [= <-].
      * eapply side_other; [apply (sp_high _ _ _ _ _ _ _ _ HS) | done].
    + destruct (side_put m0 q m L done pl (low s) idx e) as (m' & t & Ht & Hput & Hm' & Hs' & Hside); try done; [apply (sp_low _ _ _ _ _ _ _ _ HS) | by intros x Hx; apply Hin; left |].
      rewrite Hput. obind. destruct (put_frame _ _ _ _ _ _ _ _ m' t idx HS) as (Hf1 & Hf2 & Hf3); try done; [by left | by apply Hin; left |].
      eexists m', _, (pl ++ [idx]), ph, true, false, L. split; [done |]. split; [done |]. apply (stay_in_place done idx todo pl ph false uh m s L); try done.
      * cbn [flag]. rewrite <- Hnew1. by destruct pl.
      * eapply side_other; [apply (sp_high _ _ _ _ _ _ _ _ HS) |]. intros x Hx. split; [| done]. apply Hm'. intros ->. apply (Hdis t Ht). set_solver.
Qed.

Lemma split_high_spec done idx todo pl ph ul uh m s L e :
  l = done ++ idx :: todo → splitting done pl ph ul uh m s L → m !! idx = Some e → Z.land (hash_nr e) half ≠ 0 → ∃ m' s' pl' ph' ul' uh' L',
  split_high m s idx e = Ret (m', s') ∧ m' !! idx = m !! idx ∧ splitting (done ++ [idx]) pl' ph' ul' uh' m' s' L'.
Proof.
  intros Hl HS He Hhigh. destruct (splitting_current _ _ _ _ _ _ _ _ _ _ Hl HS) as (e' & He' & He0 & HLe & Hmask & Hpl & Hph & Hemp & Hn & Hdone & Hprev & Hin).
  assert (e' = e) as -> by congruence. clear He'. pose proof (splitting_NoDup _ _ _ _ _ _ _ _ _ Hl HS) as (_ & Hdis & (Hnd2 & _)%NoDup_app)%NoDup_app.
  assert (∀ e', m !! idx = Some e' → Z.land (hash_nr e') half ≠ 0) as Hhigh' by (intros e'; congruence).
  pose proof (has_flags (some_cells pl) ul (some_cells ph) uh) as (_ & _ & Hhf & Hhu & _ & Hnew1 & Hnew2). cbv zeta in *.
  unfold split_high. rewrite (sp_flag _ _ _ _ _ _ _ _ HS), Hhf, Hhu. destruct (decide (ph = [])) as [-> | Hph0]; cbn [some_cells negb].
  - eexists m, _, pl, [empty s], false, false, _. split; [done |]. split; [done |]. by eapply move_moved.
  - replace (some_cells ph) with true by (by destruct ph). cbn [negb]. destruct uh; cbn [negb]; obind.
    + eexists m, _, pl, (ph ++ [idx]), false, true, L. split; [done |]. split; [done |]. assert (ul = false) as -> by (destruct ul; [by pose proof (sp_one _ _ _ _ _ _ _ _ HS eq_refl) | done]).
      apply (move_in_place done idx todo pl ph false true m s L); try done.
      * eapply side_other; [apply (sp_low _ _ _ _ _ _ _ _ HS) | done].
      * cbn [high]. pose proof (sp_high _ _ _ _ _ _ _ _ HS) as Hside. destruct (side_used_last _ _ _ _ _ _ _ Hl Hside) as (t & et & Hlast & Het).
        eapply (side_next _ _ _ _ _ _ _ _ _ et); [done.. | | by eapply Hprev]. intros t'. rewrite Hlast. by intros [= <-].
    + destruct (side_put m0 n m L done ph (high s) idx e) as (m' & t & Ht & Hput & Hm' & Hs' & Hside); try done; [apply (sp_high _ _ _ _ _ _ _ _ HS) | by intros x Hx; apply Hin; right |].
      rewrite Hput. obind. destruct (put_frame _ _ _ _ _ _ _ _ m' t idx HS) as (Hf1 & Hf2 & Hf3); try done; [by right | by apply Hin; right |].
      eexists m', _, pl, (ph ++ [idx]), false, true, L. split; [done |]. split; [done |]. apply (move_in_place done idx todo pl ph ul false m s L); try done.
      * cbn [flag]. rewrite <- Hnew2. by destruct ph.
      * eapply side_other; [apply (sp_low _ _ _ _ _ _ _ _ HS) |]. intros x Hx. split; [| done]. apply Hm'. intros ->. apply (Hdis t Hx). set_solver.
Qed.

Lemma split_loop_spec todo : ∀ fuel done idx pl ph ul uh m s L,
  (length todo < fuel)%nat → m0 !! NO_RECORD = None → l = done ++ idx :: todo → splitting done pl ph ul uh m s L → ∃ m' s' pl' ph' ul' uh' L',
  split_loop fuel b n half q m s idx = Ret (m', s') ∧ splitting l pl' ph' ul' uh' m' s' L'.
Proof.
  induction todo as [| y todo IH]; intros fuel done idx pl ph ul uh m s L Hfuel Hno Hl HS; (destruct fuel as [| fuel]; [cbn in *; lia |]); cbn [split_loop].
  all: destruct (splitting_current _ _ _ _ _ _ _ _ _ _ Hl HS) as (e & He & He0 & HLe & Hmask & _).
  all: rewrite (cell_Ret _ _ _ He); obind; rewrite (bool_decide_false (my_hash_mask _ _ _ ≠ q)) by tauto; rewrite andb_false_r.
  all: assert (∃ m' s' pl' ph' ul' uh' L', (if bool_decide (Z.land (hash_nr e) half = 0) then split_low m s idx e else split_high m s idx e) = Ret (m', s') ∧
      m' !! idx = m !! idx ∧ splitting (done ++ [idx]) pl' ph' ul' uh' m' s' L') as (m' & s' & pl' & ph' & ul' & uh' & L' & Hstep & Hidx & HS')
    by (case_bool_decide; [by eapply split_low_spec | by eapply split_high_spec]).
  all: rewrite Hstep; obind; rewrite (cell_Ret m' idx e) by congruence; obind.
  all: pose proof Hpath as Hp; rewrite Hl in Hp; apply seg_app in Hp as (z & _ & -> & e' & He' & Hseg); assert (e' = e) as -> by congruence.
  - cbn in Hseg. rewrite bool_decide_true by done. exists m', s', pl', ph', ul', uh', L'. split; [done |]. by rewrite Hl.
  - destruct Hseg as [Hy (ey & Hey & _)]. rewrite Hy, bool_decide_false by congruence. apply (IH fuel (done ++ [idx]) y pl' ph' ul' uh' m' s' L'); [cbn in *; lia | done | | done].
    by rewrite <- app_assoc.
Qed.

(** The two writes after the loop. *)
Lemma split_end_spec pl ph ul uh m s L :
  l ≠ [] → splitting l pl ph ul uh m s L → ∃ m1 m2,
  (if bool_decide (Z.land (flag s) (Z.lor LOWFIND LOWUSED) = LOWFIND) then put m (low s) NO_RECORD else Ret m) = Ret m1 ∧
  (if bool_decide (Z.land (flag s) (Z.lor HIGHFIND HIGHUSED) = HIGHFIND) then put m1 (high s) NO_RECORD else Ret m1) = Ret m2 ∧
  (pl ≠ [] → path m2 q pl) ∧ (ph ≠ [] → path m2 n ph) ∧ (∀ x, x ∈ pl ∨ x ∈ ph → payload <$> m2 !! x = L !! x) ∧
  (∀ x, x ∉ l → x ≠ n → m2 !! x = m0 !! x) ∧ (∀ x, is_Some (m2 !! x) ↔ is_Some (m0 !! x)).
Proof.
  intros Hne HS. pose proof (splitting_NoDup l [] _ _ _ _ _ _ _ ltac:(by rewrite app_nil_r) HS) as (Hnd1 & Hdis & (Hnd2 & _)%NoDup_app)%NoDup_app.
  pose proof (λ x, splitting_cells _ _ _ _ _ _ _ _ x HS) as Hcells. destruct HS as [_ Hflag Hone Hside Hside2 _ _ _ Hrest Hdom _ _ _].
  assert (∀ x, x ∈ pl ∨ x ∈ ph → is_Some (m !! x)) as Hin.
  { intros x Hx. apply Hdom. assert (x ∈ l ∨ x = n) as [Hx' | ->] by (apply Hcells; tauto); [| done]. by destruct (Hmember x Hx') as (ex & -> & _). }
  assert (∀ t e, last l = Some t → m0 !! t = Some e → next e = NO_RECORD) as Hlast.
  { intros t e Hl He. apply last_Some in Hl as (l' & Hl). rewrite Hl in Hpath. apply seg_app in Hpath as (y & _ & -> & e' & He' & Hs). cbn in Hs. congruence. }
  destruct (side_end m0 q m L l pl ul (low s)) as (m1 & Hput1 & Hpath1 & Hpay1 & Hsame1 & Hdom1); [done | done | naive_solver | done |].
  destruct (side_end m0 n m1 L l ph uh (high s)) as (m2 & Hput2 & Hpath2 & Hpay2 & Hsame2 & Hdom2).
  { eapply side_frame; [done |]. intros x Hx. apply Hsame1. intros Hx1. apply (Hdis x Hx1). set_solver. }
  { done. }
  { intros x Hx. apply Hdom1, Hin. by right. }
  { done. }
  exists m1, m2. split_and!.
  - rewrite <- Hput1, Hflag. assert (ul = true → pl ≠ []) as Hul by (intros ->; destruct Hside as [[_ ?] | (l' & t & h & d & -> & _)]; [done | by destruct l']).
    destruct pl, ul; try (by destruct (some_cells ph), uh).
  - rewrite <- Hput2, Hflag. assert (uh = true → ph ≠ []) as Huh by (intros ->; destruct Hside2 as [[_ ?] | (l' & t & h & d & -> & _)]; [done | by destruct l']).
    destruct ph, uh; try (by destruct (some_cells pl), ul). 
  - intros Hp. eapply seg_frame; [| by apply Hpath1]. intros i Hi. rewrite Hsame2; [done |]. intros Hi2. apply (Hdis i Hi). set_solver.
  - done.
  - intros x [Hx | Hx]; [rewrite Hsame2; [by apply Hpay1 | intros Hi2; apply (Hdis x Hx); set_solver] | by apply Hpay2].
  - intros x Hx Hn. specialize (Hcells x). rewrite Hsame2, Hsame1 by tauto. by apply Hrest.
  - intros x. by rewrite Hdom2, Hdom1.
Qed.

(** Before the loop. *)
Lemma splitting_init : L0 !! n = None → splitting [] [] [] false false m0 (mkSplit 0 n None None) L0.
Proof. clear Hpath Hnodup Hnew Hcell Hmember. intros Hn. split; try done; try (by intros t ?%not_elem_of_nil); by left. Qed.

(** All of it. *)
Lemma split_chain_spec fuel todo : l = q :: todo → (length todo < fuel)%nat → m0 !! NO_RECORD = None → L0 !! n = None → ∃ m s pl ph ul uh m1 m2 L,
  split_loop fuel b n half q m0 (mkSplit 0 n None None) q = Ret (m, s) ∧ splitting l pl ph ul uh m s L ∧
  (if bool_decide (Z.land (flag s) (Z.lor LOWFIND LOWUSED) = LOWFIND) then put m (low s) NO_RECORD else Ret m) = Ret m1 ∧
  (if bool_decide (Z.land (flag s) (Z.lor HIGHFIND HIGHUSED) = HIGHFIND) then put m1 (high s) NO_RECORD else Ret m1) = Ret m2 ∧
  (pl ≠ [] → path m2 q pl) ∧ (ph ≠ [] → path m2 n ph) ∧ (∀ x, x ∈ pl ∨ x ∈ ph → payload <$> m2 !! x = L !! x) ∧
  (∀ x, x ∉ l → x ≠ n → m2 !! x = m0 !! x) ∧ (∀ x, is_Some (m2 !! x) ↔ is_Some (m0 !! x)).
Proof.
  intros Hl Hfuel Hno Hn. destruct (split_loop_spec todo fuel [] q [] [] false false m0 (mkSplit 0 n None None) L0) as (m & s & pl & ph & ul & uh & L & Hloop & HS);
    [done | done | done | by apply splitting_init |].
  destruct (split_end_spec pl ph ul uh m s L) as (m1 & m2 & H1 & H2 & Hend); [by rewrite Hl | done |]. by exists m, s, pl, ph, ul, uh, m1, m2, L.
Qed.
End loop.

(** ** The table with one more bucket *)

(** No record belongs to the new bucket. *)
Lemma table_grow home home' m n L ch junk :
  table home m n None L ch → 0 ≤ n < NO_RECORD → (∀ i h d, L !! i = Some (h, d) → home' h = home h) → table home' (<[n := junk]> m) (n + 1) (Some n) L ch.
Proof.
  intros HT Hn Hhome. assert (m !! n = None) as Hmn by (apply eq_None_not_Some; intros Hs%(t_dom _ _ _ _ _ _ HT); lia). split.
  - intros i. rewrite lookup_insert. case_decide; [subst; split; [lia | by eexists] |]. rewrite (t_dom _ _ _ _ _ _ HT). lia.
  - lia.
  - intros i. rewrite (t_live _ _ _ _ _ _ HT), lookup_insert. repeat case_decide; simplify_eq; try done. by rewrite Hmn.
  - intros p Hp. apply seg_insert; [| by apply HT]. intros Hi%(chain_range _ _ _ _ _ _ _ _ HT). lia.
  - intros p i. rewrite (t_in _ _ _ _ _ _ HT). split; intros (h & d & Hi & Hh); exists h, d; (split; [done |]); rewrite <- Hh; [| symmetry]; by eapply Hhome.
Qed.

(** The chain [l] of [q] has become the chains [pl] of [q] and [ph] of [n]. *)
Lemma table_split b n half q m L ch junk pl ph ul uh m1 s L' m' :
  let home k h := my_hash_mask h b k in
  table (home n) m n None L ch → 0 ≤ n < NO_RECORD → q ≠ n →
  (∀ h, home (n + 1) h = if decide (home n h = q ∧ Z.land h half ≠ 0) then n else home n h) →
  (∀ h, home n h ≠ n) →
  splitting b n half q (<[n := junk]> m) L (ch q) pl ph ul uh m1 s L' →
  (pl ≠ [] → path m' q pl) → (ph ≠ [] → path m' n ph) → (∀ x, x ∈ pl ∨ x ∈ ph → payload <$> m' !! x = L' !! x) →
  (∀ x, x ∉ ch q → x ≠ n → m' !! x = <[n := junk]> m !! x) → (∀ x, is_Some (m' !! x) ↔ is_Some (<[n := junk]> m !! x)) →
  table (home (n + 1)) m' (n + 1) (Some (empty s)) L' (<[q := pl]> (<[n := ph]> ch)).
Proof.
  intros home HT Hn Hqn Hsplit Hlast HS Hpl Hph Hpay Hsame Hdom. assert (∀ x, x ∈ pl ∨ x ∈ ph ∨ x = empty s ↔ x ∈ ch q ∨ x = n) as Hcells by (intros x; eapply splitting_cells; exact HS).
  destruct HS as [_ _ _ _ _ Hstay Hmove _ Hrest _ Hempty _ _].
  assert (∀ i h d, i ∉ pl → i ∉ ph → L' !! i = Some (h, d) → L !! i = Some (h, d) ∧ home (n + 1) h = home n h ∧ home n h ≠ q ∧ home n h ≠ n) as Hother.
  { intros i h d Hi1 Hi2 Hi. assert (i ≠ empty s) by congruence. specialize (Hcells i). destruct (Hrest i) as [HLi _]; [tauto | tauto |]. rewrite HLi in Hi.
    assert (home n h ≠ q) as Hhq by (intros Hh; assert (i ∈ ch q) by (apply (t_in _ _ _ _ _ _ HT); by exists h, d); tauto).
    split; [done |]. rewrite Hsplit, decide_False by tauto. by split_and!. }
  split.
  - intros i. rewrite Hdom, lookup_insert. case_decide; [subst; split; [lia | by eexists] |]. rewrite (t_dom _ _ _ _ _ _ HT). lia.
  - lia.
  - intros i. destruct (decide (empty s = i)) as [<- | Hne]; [by rewrite decide_True |]. rewrite decide_False by congruence. specialize (Hcells i).
    destruct (decide (i ∈ pl ∨ i ∈ ph)) as [Hi | Hi]; [symmetry; by apply Hpay |]. assert (i ∉ ch q ∧ i ≠ n) as [Hq Hin] by (split; intros ?; naive_solver).
    destruct (Hrest i Hq Hin) as [-> _]. rewrite Hsame by done. rewrite lookup_insert_ne by done. by rewrite (t_live _ _ _ _ _ _ HT), decide_False.
  - intros p. destruct (decide (p = q)) as [-> | Hpq]; [by rewrite fn_lookup_insert |]. rewrite fn_lookup_insert_ne by done.
    destruct (decide (p = n)) as [-> | Hpn]; [by rewrite fn_lookup_insert |]. rewrite fn_lookup_insert_ne by done. intros Hp.
    eapply seg_frame; [| by apply (t_path _ _ _ _ _ _ HT)]. intros i Hi. pose proof (chain_range _ _ _ _ _ _ _ _ HT Hi). rewrite Hsame, lookup_insert_ne; [done | lia | | lia].
    apply (t_in _ _ _ _ _ _ HT) in Hi as (h & d & Hi & Hh). intros (h' & d' & Hi' & Hh')%(t_in _ _ _ _ _ _ HT). congruence.
  - intros p i. destruct (decide (p = q)) as [-> | Hpq]; [rewrite fn_lookup_insert | rewrite fn_lookup_insert_ne by done; destruct (decide (p = n)) as [-> | Hpn]; [rewrite fn_lookup_insert | rewrite fn_lookup_insert_ne by done]].
    + split.
      * intros (h & d & Hi & Hh & Hb)%Hstay. exists h, d. split; [done |]. rewrite Hsplit. by rewrite decide_False by tauto.
      * intros (h & d & Hi & Hh). destruct (decide (i ∈ pl)) as [| Hi1]; [done |]. exfalso. destruct (decide (i ∈ ph)) as [Hi2 | Hi2].
        -- apply Hmove in Hi2 as (h' & d' & Hi' & Hh' & Hb). rewrite Hsplit, decide_True in Hh; [done |]. simplify_eq. done.
        -- destruct (Hother i h d Hi1 Hi2 Hi) as (_ & ? & ? & ?). congruence.
    + split.
      * intros (h & d & Hi & Hh & Hb)%Hmove. exists h, d. split; [done |]. rewrite Hsplit. by rewrite decide_True by done.
      * intros (h & d & Hi & Hh). destruct (decide (i ∈ ph)) as [| Hi2]; [done |]. exfalso. destruct (decide (i ∈ pl)) as [Hi1 | Hi1].
        -- apply Hstay in Hi1 as (h' & d' & Hi' & Hh' & Hb). simplify_eq. rewrite Hsplit, decide_False in Hh by tauto. by apply (Hlast h).
        -- destruct (Hother i h d Hi1 Hi2 Hi) as (_ & ? & ? & ?). congruence.
    + split.
      * intros (h & d & Hi & Hh)%(t_in _ _ _ _ _ _ HT). exists h, d. assert (i ∉ ch q) as Hq by (intros (h' & d' & Hi' & Hh')%(t_in _ _ _ _ _ _ HT); congruence).
        pose proof (live_range _ _ _ _ _ _ _ _ HT Hi). destruct (Hrest i Hq ltac:(lia)) as [-> _]. split; [done |]. rewrite Hsplit, decide_False; [done |]. intros [? _]. congruence.
      * intros (h & d & Hi & Hh). apply (t_in _ _ _ _ _ _ HT). exists h, d. assert (i ∉ pl ∧ i ∉ ph) as [Hi1 Hi2].
        { split; [intros Hi'%Hstay | intros Hi'%Hmove]; destruct Hi' as (h' & d' & Hi' & Hh' & Hb); simplify_eq; rewrite Hsplit in Hpq, Hpn; case_decide; tauto. }
        destruct (Hother i h d Hi1 Hi2 Hi) as (HLi & Heq & _). split; [done | congruence].
Qed.

Lemma split_bucket_spec b n m L ch junk :
  sizes b n → n < NO_RECORD → table (λ h, my_hash_mask h b n) m n None L ch → ∃ m' j L' ch',
  split_bucket b n (<[n := junk]> m) n = Ret (m', j) ∧ table (λ h, my_hash_mask h b (n + 1)) m' (n + 1) (Some j) L' ch' ∧ 0 ≤ j < n + 1 ∧
  contents L' ≡ₚ contents L.
Proof.
  intros Hsizes Hn HT. pose proof Hsizes as (k & Hk & Hb & Hbn). assert (0 ≤ b / 2) as Hb2 by (apply Z.div_pos; lia).
  unfold split_bucket. rewrite Z.shiftr_div_pow2, Z.pow_1_r by lia. unfold uint. unfold NO_RECORD in Hn. rewrite (Z.mod_small (b / 2)), (Z.mod_small (n - b / 2)) by lia.
  destruct (decide (n = 0)) as [-> | Hn0].
  { assert (b / 2 = 0) as -> by lia. rewrite bool_decide_true by done. eexists _, _, L, ch. split; [done |]. split; [| split; [lia | done]].
    eapply table_grow; [done | unfold NO_RECORD; lia |]. intros i h d Hi. apply (live_range _ _ _ _ _ _ _ _ HT) in Hi. lia. }
  assert (1 ≤ b / 2) as Hhalf.
  { destruct (decide (k = 0)) as [-> |]; [cbn in *; lia |]. replace b with (2 ^ (k - 1) * 2) by (rewrite Hb; replace k with (k - 1 + 1) at 2 by lia; by rewrite Z.pow_add_r by lia).
    rewrite Z.div_mul by lia. lia. }
  rewrite bool_decide_false by lia. set (q := n - b / 2) in *. set (m0 := <[n := junk]> m).
  assert (∀ h, my_hash_mask h b (n + 1) = if decide (my_hash_mask h b n = q ∧ Z.land h (b / 2) ≠ 0) then n else my_hash_mask h b n) as Hsplit
    by (intros h; by apply mask_split; [| lia]).
  assert (∀ h, 0 ≤ my_hash_mask h b n < n) as Hrange by (intros h; apply mask_range; [lia | by left]).
  assert (m !! n = None) as Hmn by (apply eq_None_not_Some; intros Hs%(t_dom _ _ _ _ _ _ HT); lia).
  assert (n ∉ ch q) as Hnq by (intros Hi%(chain_range _ _ _ _ _ _ _ _ HT); lia).
  assert (m0 !! NO_RECORD = None) as Hno by (unfold m0; rewrite lookup_insert_ne by (unfold NO_RECORD; lia); by eapply no_cell).
  assert (size m0 ≠ 0%nat) as Hsize by (apply map_size_non_empty_iff, insert_non_empty).
  destruct (decide (ch q = [])) as [Hq | Hq].
  - destruct (in_range _ m n None L ch q HT ltac:(lia)) as [eq Heq]. pose proof (cell_live _ _ _ _ _ _ _ _ HT Heq ltac:(done)) as HLq.
    assert (my_hash_mask (hash_nr eq) b n ≠ q) as Hmask by (intros Hh; assert (q ∈ ch q) as Hi by (apply (t_in _ _ _ _ _ _ HT); eexists _, _; by split); rewrite Hq in Hi; by apply not_elem_of_nil in Hi).
    destruct (size m0) as [| fuel]; [done |]. cbn [split_loop]. rewrite (cell_Ret m0 q eq) by (unfold m0; by rewrite lookup_insert_ne by lia). obind.
    cbn [flag]. rewrite (bool_decide_true (0 = 0)), (bool_decide_true (my_hash_mask _ _ _ ≠ q)) by done. cbn [andb]. obind. cbn [flag empty]. obind.
    eexists _, _, L, ch. split; [done |]. split; [| split; [lia | done]]. eapply table_grow; [done | unfold NO_RECORD; lia |].
    intros i h d Hi. cbn. rewrite Hsplit, decide_False; [done |]. intros [Hh _]. assert (i ∈ ch q) as Hiq by (apply (t_in _ _ _ _ _ _ HT); by exists h, d).
    rewrite Hq in Hiq. by apply not_elem_of_nil in Hiq.
  - assert (∀ x, x ∈ ch q → ∃ e, m0 !! x = Some e ∧ L !! x = Some (payload e) ∧ my_hash_mask (hash_nr e) b n = q) as Hmember.
    { intros x Hx. pose proof Hx as (h & d & HLx & Hh)%(t_in _ _ _ _ _ _ HT). destruct (live_cell _ _ _ _ _ _ _ _ _ HT HLx) as (z & Hz). exists (mkLink z h d).
      unfold m0. rewrite lookup_insert_ne by (intros <-; done). done. }
    assert (path m0 q (ch q)) as Hpath by (apply seg_insert; [done | by apply (t_path _ _ _ _ _ _ HT)]).
    pose proof (chain_NoDup _ _ _ _ _ _ q HT) as Hnd. destruct (seg_start _ _ _ _ Hq Hpath) as (todo & Htodo). pose proof (seg_length _ _ _ _ Hnd Hpath) as Hlen.
    rewrite Htodo in Hlen. cbn in Hlen. assert (L !! n = None) as HLn by (by rewrite (t_live _ _ _ _ _ _ HT), Hmn).
    destruct (split_chain_spec b n (b / 2) q m0 L (ch q) Hpath Hnd Hnq ltac:(unfold m0; by rewrite lookup_insert_eq) Hmember (size m0) todo)
      as (m1 & s & pl & ph & ul & uh & m2 & m3 & L' & -> & HS & H1 & H2 & Hp1 & Hp2 & Hpay & Hsame & Hdom); [done | lia | done | done |].
    obind. rewrite H1. obind. rewrite H2. obind. eexists _, _, L', _. split; [done |].
    split; [apply (table_split b n (b / 2) q m L ch junk pl ph ul uh m1 s L'); try done; [unfold NO_RECORD; lia | lia | intros h; specialize (Hrange h); lia] |].
    split; [| apply HS].
    assert (empty s ∈ ch q ∨ empty s = n) as [He | ->]; [eapply splitting_cells; [done |]; tauto | | lia]. apply (chain_range _ _ _ _ _ _ _ _ HT) in He. lia.
Qed.

End split.
