(* ===== verification/HashDelete.v ===== *)
(** * Hash tables: deletion

    When a record has been taken out, the table loses its last bucket, whose records go back to the bucket they were split
    from, and its last cell, whose record goes to the free cell. *)

From stdpp Require Import functions.
From S2P Require Import Prelude Hash HashRep HashTable HashInsert.

Section delete.
Context {R : Type} `{EqDecision R}.
Implicit Types (m : gmap Z (HASH_LINK R)) (L : gmap Z (Z * R)) (e : HASH_LINK R) (ch : Z → list Z).

(** The last cell is free: it can be dropped. *)
Lemma table_shrink home home' m n L ch :
  table home m (n + 1) (Some n) L ch → 0 ≤ n → (∀ i h d, L !! i = Some (h, d) → home' h = home h) → table home' (delete n m) n None L ch.
Proof.
  intros HT Hn Hhome. pose proof (hole_dead _ _ _ _ _ _ HT) as Hdead. split.
  - intros i. rewrite lookup_delete. case_decide; [subst; split; [by intros [? ?] | lia] |]. rewrite (t_dom _ _ _ _ _ _ HT). lia.
  - pose proof (t_size _ _ _ _ _ _ HT). lia.
  - intros i. rewrite lookup_delete. destruct (decide (n = i)) as [<- | Hne]; [done |]. rewrite (t_live _ _ _ _ _ _ HT). by rewrite decide_False by congruence.
  - intros p Hp. eapply seg_frame; [| by apply (t_path _ _ _ _ _ _ HT)]. intros i (h & d & Hi & _)%(t_in _ _ _ _ _ _ HT). rewrite lookup_delete_ne; [done |]. congruence.
  - intros p i. rewrite (t_in _ _ _ _ _ _ HT). split; intros (h & d & Hi & Hh); exists h, d; (split; [done |]); rewrite <- Hh; [| symmetry]; by eapply Hhome.
Qed.

(** The record in the cell [k], the first of the chain of the bucket [k], goes to the free cell [j], and the chain becomes part
    of the chain [l] of the bucket [q]. *)
Lemma table_merge home home' m n j k q L ch m' l h d :
  table home m n (Some j) L ch → (∀ h, home' h = if decide (home h = k) then q else home h) → q ≠ k →
  L !! k = Some (h, d) → home h = k → 0 ≤ j < n →
  (∀ i, i ∈ l ↔ i = j ∨ i ∈ ch k ∧ i ≠ k ∨ i ∈ ch q) → path m' q l → (∀ i, is_Some (m' !! i) ↔ is_Some (m !! i)) →
  (∀ i, i ≠ k → payload <$> m' !! i = if decide (i = j) then Some (h, d) else payload <$> m !! i) →
  (∀ i, i ∉ ch k → i ∉ ch q → i ≠ j → m' !! i = m !! i) →
  table home' m' n (Some k) (<[j := (h, d)]> (delete k L)) (<[q := l]> (<[k := []]> ch)).
Proof.
  intros HT Hhome Hqk HLk Hh Hj Hl Hpath Hdom Hpay Hframe. pose proof (hole_dead _ _ _ _ _ _ HT) as Hdead. assert (j ≠ k) as Hjk by congruence.
  split.
  - intros i. rewrite Hdom. apply HT.
  - apply HT.
  - intros i. rewrite lookup_insert, lookup_delete. destruct (decide (j = i)) as [<- | Hji].
    { rewrite decide_False by congruence. by rewrite Hpay, decide_True. }
    destruct (decide (k = i)) as [<- | Hki]; [by rewrite decide_True |]. rewrite decide_False by congruence. rewrite Hpay, decide_False by congruence.
    rewrite (t_live _ _ _ _ _ _ HT). by rewrite decide_False by congruence.
  - intros p. destruct (decide (p = q)) as [-> | Hpq]; [by rewrite fn_lookup_insert |]. rewrite fn_lookup_insert_ne by done.
    destruct (decide (p = k)) as [-> | Hpk]; [by rewrite fn_lookup_insert |]. rewrite fn_lookup_insert_ne by done. intros Hp.
    eapply seg_frame; [| by apply (t_path _ _ _ _ _ _ HT)]. intros i (h' & d' & Hi & Hh')%(t_in _ _ _ _ _ _ HT). rewrite Hframe; [done | | |].
    1, 2: intros (h'' & d'' & Hi'' & Hh'')%(t_in _ _ _ _ _ _ HT); congruence.
    congruence.
  - assert (∀ i, i ≠ j → i ≠ k → ∀ h' d', <[j := (h, d)]> (delete k L) !! i = Some (h', d') ↔ L !! i = Some (h', d')) as Hsame.
    { intros i Hij Hik h' d'. by rewrite lookup_insert_ne, lookup_delete_ne by congruence. }
    assert (∀ p i, i ∈ ch p → i ≠ j) as Hnj by (intros p i (h' & d' & Hi & _)%(t_in _ _ _ _ _ _ HT); congruence).
    intros p i. destruct (decide (p = q)) as [-> | Hpq].
    + rewrite fn_lookup_insert, Hl. destruct (decide (i = j)) as [-> | Hij].
      { rewrite lookup_insert_eq. split; [intros _ | by left]. exists h, d. split; [done |]. by rewrite Hhome, decide_True. }
      destruct (decide (i = k)) as [-> | Hik].
      { rewrite lookup_insert_ne, lookup_delete_eq by done. split; [| by intros (? & ? & ? & _)]. intros [? | [[_ ?] | Hi]]; [done | done |].
        apply (t_in _ _ _ _ _ _ HT) in Hi as (h' & d' & Hi & Hh'). congruence. }
      setoid_rewrite Hsame; [| done | done]. rewrite !(t_in _ _ _ _ _ _ HT). setoid_rewrite Hhome. split.
      * intros [? | [[(h' & d' & Hi & Hh') _] | (h' & d' & Hi & Hh')]]; [done | |]; exists h', d'; (split; [done |]); by case_decide.
      * intros (h' & d' & Hi & Hh'). case_decide; [right; left; split; [by exists h', d' | done] | right; right; by exists h', d'].
    + rewrite fn_lookup_insert_ne by done. destruct (decide (p = k)) as [-> | Hpk].
      { rewrite fn_lookup_insert. split; [by intros ?%not_elem_of_nil |]. intros (h' & d' & Hi & Hh'). rewrite Hhome in Hh'. by case_decide. }
      rewrite fn_lookup_insert_ne by done. destruct (decide (i = j)) as [-> | Hij].
      { rewrite lookup_insert_eq. split; [intros Hi; by apply Hnj in Hi |]. intros (h' & d' & [= <- <-] & Hh'). rewrite Hhome, decide_True in Hh' by done. done. }
      destruct (decide (i = k)) as [-> | Hik].
      { rewrite lookup_insert_ne, lookup_delete_eq by done. split; [| by intros (? & ? & ? & _)]. intros (h' & d' & Hi & Hh')%(t_in _ _ _ _ _ _ HT). congruence. }
      setoid_rewrite Hsame; [| done | done]. rewrite (t_in _ _ _ _ _ _ HT). setoid_rewrite Hhome.
      split; intros (h' & d' & Hi & Hh'); exists h', d'; (split; [done |]); case_decide; congruence.
Qed.

(** Put the cells [j :: ls], which end in a link to [z], between [q] and its successors [lr]. *)
Lemma splice m q e j ls z lr :
  m !! q = Some e → NoDup (q :: (j :: ls) ++ lr) → seg m j (j :: ls) z → z ∉ j :: ls → path m (next e) lr → ∃ m',
  movelink m z j (next e) = Ret m' ∧ m' !! q = Some e ∧ path (<[q := with_next j e]> m') q (q :: j :: ls ++ lr) ∧
  (∀ i, i ∉ j :: ls → m' !! i = m !! i) ∧ (∀ i, payload <$> m' !! i = payload <$> m !! i).
Proof.
  intros He Hnd Hs Hz Hp. apply NoDup_cons in Hnd as [Hq Hnd]. pose proof Hnd as (Hnd1 & Hdis & _)%NoDup_app.
  destruct (exists_last (l := j :: ls)) as (l & g & Hlg); [done |]. rewrite Hlg in *. destruct (movelink_spec m j l g z (next e)) as (eg & Hg & Hmove); [done | done | done |].
  exists (<[g := with_next (next e) eg]> m). split; [done |]. assert (g ≠ q) as Hgq by set_solver. split; [by rewrite lookup_insert_ne |]. split_and!.
  - apply seg_app in Hs as (y & Hs & -> & _). apply NoDup_app in Hnd1 as (_ & Hgl & _). split; [done |]. exists (with_next j e). rewrite lookup_insert_eq. split; [done |].
    cbn [next with_next]. change (j :: ls ++ lr) with ((j :: ls) ++ lr). rewrite Hlg. apply seg_insert; [done |]. apply seg_app. exists (next e). split.
    + apply (seg_snoc _ _ _ _ _ (with_next (next e) eg)); [by rewrite lookup_insert_eq | | done]. apply seg_insert; [| done]. intros Hg'. apply (Hgl g Hg'). by left.
    + apply seg_insert; [| done]. intros Hg'. apply (Hdis g); [set_solver | done].
  - intros i Hi. rewrite lookup_insert_ne; [done |]. set_solver.
  - intros i. rewrite lookup_insert. case_decide; [subst; by rewrite Hg | done].
Qed.

(** ** Moving the last record *)

Section last.
Context (b b' n q : Z).
Abbreviation home := (λ h, my_hash_mask h b (n + 1)).
Abbreviation home' := (λ h, my_hash_mask h b' n).
Hypothesis Hq : 0 ≤ q < n.
Hypothesis Hmerge : ∀ h, my_hash_mask h b' n = if decide (my_hash_mask h b (n + 1) = n) then q else my_hash_mask h b (n + 1).

Lemma home_below i h d m hole L ch : table home m (n + 1) hole L ch → L !! i = Some (h, d) → 0 ≤ home h ≤ n.
Proof.
  intros HT Hi. pose proof (chain_of _ _ _ _ _ _ _ _ _ HT Hi) as Hin. destruct (chain_start _ _ _ _ _ _ _ _ HT Hin) as (l & Hl).
  assert (home h ∈ ch (home h)) as Hh by (rewrite Hl; by left). apply (chain_range _ _ _ _ _ _ _ _ HT) in Hh. lia.
Qed.

(** The last record is not the first of its chain. *)
Lemma move_last_inner m j L ch h d e :
  table home m (n + 1) (Some j) L ch → 0 ≤ j < n + 1 → L !! n = Some (h, d) → home h ≠ n → m !! n = Some e → ∃ m' L' ch',
  move_last b b' n m j = Ret m' ∧ table home' (delete n m') n None L' ch' ∧ contents L' ≡ₚ contents L.
Proof.
  intros HT Hj HLn Hne He. pose proof (hole_dead _ _ _ _ _ _ HT) as Hdead. unfold move_last. rewrite bool_decide_false by congruence. rewrite (cell_Ret _ _ _ He). obind.
  assert (hash_nr e = h) as Hhash by (rewrite (cell_live _ _ _ _ _ _ _ _ HT He ltac:(congruence)) in HLn; by injection HLn). rewrite Hhash, Hmerge, decide_False by done.
  pose proof (chain_of _ _ _ _ _ _ _ _ _ HT HLn) as Hin. destruct (chain_start _ _ _ _ _ _ _ _ HT Hin) as (l & Hl). cbn beta in *.
  assert (home h ∈ ch (home h)) as (hp & dp & HLp & Hhp)%(t_in _ _ _ _ _ _ HT) by (rewrite Hl; by left). cbn beta in *.
  rewrite bool_decide_false by congruence. destruct (live_cell _ _ _ _ _ _ _ _ _ HT HLp) as (z & Hz). rewrite (cell_Ret _ _ _ Hz). obind. cbn [hash_nr].
  rewrite Hmerge, decide_False by congruence. rewrite bool_decide_false by congruence. rewrite Hhp, (bool_decide_true (my_hash_mask h b (n + 1) = my_hash_mask h b (n + 1))) by done.
  rewrite bool_decide_true by done. cbn [andb]. destruct (in_range _ _ _ _ _ _ _ HT Hj) as [ej Hej]. rewrite (set_cell_Ret _ _ _ _ Hej). obind.
  destruct (relocate home _ _ _ _ _ n h d e HT Hj HLn Hne He) as (l1 & g & l2 & eg & Hch & Heg & Hgi & Hgj & Hmove & HT').
  rewrite Hmove by (intros k ? ?; by rewrite lookup_insert_ne). eexists _, (<[j := (h, d)]> (delete n L)), _. split; [done |]. split; [| by apply contents_move].
  eapply table_shrink; [exact HT' | lia |]. intros i h' d' Hi. cbn beta. rewrite Hmerge, decide_False; [done |]. intros Hh'.
  pose proof (chain_of _ _ _ _ _ _ _ _ _ HT' Hi) as Hn. cbn beta in Hn. rewrite Hh', (chain_none _ _ _ _ _ _ _ HT' (hole_dead _ _ _ _ _ _ HT')) in Hn. by apply not_elem_of_nil in Hn.
Qed.

(** The merged table without the last cell. *)
Lemma merged_shrink m L ch : table home' m (n + 1) (Some n) L ch → table home' (delete n m) n None L ch.
Proof. intros HT. eapply table_shrink; [exact HT | lia | done]. Qed.

(** The last record is the first of its chain, and the bucket [q] of the records that come back is empty and its cell free. *)
Lemma take_over m L ch h d e :
  table home m (n + 1) (Some q) L ch → L !! n = Some (h, d) → home h = n → m !! n = Some e → ∃ ch',
  table home' (delete n (<[q := e]> m)) n None (<[q := (h, d)]> (delete n L)) ch' .
Proof.
  intros HT HLn Hh He. pose proof (hole_dead _ _ _ _ _ _ HT) as Hdead. pose proof (cell_live _ _ _ _ _ _ _ _ HT He ltac:(congruence)) as HLe.
  pose proof (chain_of _ _ _ _ _ _ _ _ _ HT HLn) as Hin. cbn beta in Hin. rewrite Hh in Hin. destruct (chain_start _ _ _ _ _ _ _ _ HT Hin) as (l & Hl).
  pose proof (t_path _ _ _ _ _ _ HT n ltac:(by rewrite Hl)) as Hpath. rewrite Hl in Hpath. destruct Hpath as [_ (e' & He' & Hpath)]. assert (e' = e) as -> by congruence.
  pose proof (chain_NoDup _ _ _ _ _ _ n HT) as Hnd. rewrite Hl in Hnd. apply NoDup_cons in Hnd as [Hnl _]. pose proof (chain_none _ _ _ _ _ _ _ HT Hdead) as Hchq.
  assert (q ∉ n :: l) as Hql by (rewrite <- Hl; intros (? & ? & ? & _)%(t_in _ _ _ _ _ _ HT); congruence).
  eexists. apply merged_shrink. apply (table_merge home _ m _ _ n q L ch _ (q :: l)); try done; try lia.
  - intros i. rewrite Hl, Hchq. set_solver.
  - split; [done |]. exists e. rewrite lookup_insert_eq. split; [done |]. apply seg_insert; [set_solver | done].
  - apply insert_is_Some. apply (t_dom _ _ _ _ _ _ HT). lia.
  - intros i Hi. rewrite lookup_insert. repeat case_decide; subst; try done. cbn. congruence.
  - intros i _ _ Hi. by rewrite lookup_insert_ne by congruence.
Qed.

(** The last record is the first of its chain, and the cell of the bucket [q] holds a record that stays there.  The cells [j :: ls], with
    the last record now in [j], go between this record and its successors [lr]. *)
Lemma take_in m j L ch h d e eq ls z lr :
  table home m (n + 1) (Some j) L ch → 0 ≤ j < n + 1 → L !! n = Some (h, d) → home h = n → m !! n = Some e → m !! q = Some eq → j ≠ q →
  NoDup (q :: (j :: ls) ++ lr) → seg m (next e) ls z → z ∉ j :: ls → path m (next eq) lr →
  (∀ i, i ∈ q :: ls ++ lr ↔ i ∈ ch n ∧ i ≠ n ∨ i ∈ ch q) → ∃ m' ch',
  (m ← set_cell m j (λ _, e); eq ← cell m q; m ← movelink m z j (next eq); set_cell m q (with_next j)) = Ret m' ∧
  table home' (delete n m') n None (<[j := (h, d)]> (delete n L)) ch'.
Proof.
  intros HT Hj HLn Hh He Heq Hjq Hnd Hs Hz Hlr Hmem. pose proof (hole_dead _ _ _ _ _ _ HT) as Hdead. destruct (in_range _ _ _ _ _ _ _ HT Hj) as [ej Hej].
  pose proof Hnd as [Hqn (Hndj & Hdis & _)%NoDup_app]%NoDup_cons. apply NoDup_cons in Hndj as [Hjls _].
  rewrite (set_cell_Ret _ _ _ _ Hej). obind. rewrite (cell_Ret _ q eq) by (by rewrite lookup_insert_ne). obind.
  destruct (splice (<[j := e]> m) q eq j ls z lr) as (m' & Hmove & Hq' & Hpath & Hsame & Hpay); [by rewrite lookup_insert_ne | done | | done | |].
  { split; [done |]. exists e. rewrite lookup_insert_eq. split; [done |]. by apply seg_insert. }
  { apply seg_insert; [| done]. apply Hdis. by left. }
  rewrite Hmove. obind. rewrite (set_cell_Ret _ _ _ _ Hq'). eexists _, _. split; [done |]. apply merged_shrink.
  pose proof (cell_live _ _ _ _ _ _ _ _ HT He ltac:(congruence)) as HLe.
  assert (∀ i, payload <$> <[q := with_next j eq]> m' !! i = payload <$> <[j := e]> m !! i) as Hall.
  { intros i. rewrite lookup_insert. case_decide; [subst; by rewrite lookup_insert_ne, Heq by done | apply Hpay]. }
  apply (table_merge home _ m _ _ n q L ch _ (q :: j :: ls ++ lr)); try done; try lia.
  - intros i. specialize (Hmem i). rewrite !elem_of_cons in *. tauto.
  - intros i. specialize (Hall i). transitivity (is_Some (<[j := e]> m !! i)); [| apply insert_is_Some; by rewrite Hej].
    destruct (<[q := with_next j eq]> m' !! i), (<[j := e]> m !! i); try done; split; intros [? ?]; done.
  - intros i Hi. rewrite Hall, lookup_insert. repeat case_decide; subst; try done. cbn. congruence.
  - intros i Hi1 Hi2 Hij. specialize (Hmem i). rewrite !elem_of_cons, elem_of_app in Hmem. rewrite lookup_insert_ne by (intros <-; tauto). rewrite Hsame.
    + by rewrite lookup_insert_ne.
    + rewrite elem_of_cons. tauto.
Qed.

(** The cell of the bucket [q] holds a record of another chain, which goes to the free cell first. *)
Lemma take_over_stray m j L ch h d e eq :
  table home m (n + 1) (Some j) L ch → 0 ≤ j < n + 1 → L !! n = Some (h, d) → home h = n → m !! n = Some e → m !! q = Some eq → j ≠ q →
  home (hash_nr eq) ≠ q → home (hash_nr eq) ≠ n → ∃ m' L' ch',
  (m ← set_cell m j (λ _, eq); m ← set_cell m q (λ _, e); movelink m q (home (hash_nr eq)) j) = Ret m' ∧
  table home' (delete n m') n None L' ch' ∧ contents L' ≡ₚ contents L.
Proof.
  intros HT Hj HLn Hh He Heq Hjq Hhq Hhn. pose proof (hole_dead _ _ _ _ _ _ HT) as Hdead. destruct (in_range _ _ _ _ _ _ _ HT Hj) as [ej Hej].
  pose proof (cell_live _ _ _ _ _ _ _ _ HT Heq ltac:(congruence)) as HLq. rewrite (set_cell_Ret _ _ _ _ Hej). obind. rewrite (set_cell_Ret _ q eq) by (by rewrite lookup_insert_ne). obind.
  destruct (relocate home _ _ _ _ _ q (hash_nr eq) (data eq) eq HT Hj HLq Hhq Heq) as (l1 & g & l2 & eg & Hch & Heg & Hgi & Hgj & Hmove & HT').
  rewrite Hmove by (intros k ? ?; by rewrite !lookup_insert_ne). assert (n ≠ g) as Hng.
  { intros <-. assert (n ∈ ch (home (hash_nr eq))) as (h' & d' & Hi & Hh')%(t_in _ _ _ _ _ _ HT) by (rewrite Hch; set_solver). cbn beta in *. congruence. }
  assert (n ≠ j) as Hnj by congruence. destruct (take_over _ _ _ h d e HT') as (ch' & HT''); [by rewrite lookup_insert_ne, lookup_delete_ne by lia | done | by rewrite !lookup_insert_ne by congruence |].
  eexists _, _, ch'. split; [done |]. replace (<[g := _]> (<[q := _]> (<[j := _]> m))) with (<[q := e]> (<[g := with_next j eg]> (<[j := eq]> m))) by map_ext.
  split; [exact HT'' |]. rewrite contents_move; [by apply contents_move | by rewrite lookup_insert_ne, lookup_delete_ne by lia |].
  by rewrite lookup_insert_ne, lookup_delete_eq.
Qed.

(** The cell of the bucket [q] holds a record of the last chain or the first record of its own chain. *)
Lemma take_in_cells m j L ch h d e eq :
  table home m (n + 1) (Some j) L ch → 0 ≤ j < n + 1 → L !! n = Some (h, d) → home h = n → m !! n = Some e → m !! q = Some eq → j ≠ q →
  home (hash_nr eq) = n ∨ home (hash_nr eq) = q → ∃ ls lr,
  let z := if decide (home (hash_nr eq) = n) then q else NO_RECORD in
  NoDup (q :: (j :: ls) ++ lr) ∧ seg m (next e) ls z ∧ z ∉ j :: ls ∧ path m (next eq) lr ∧ ∀ i, i ∈ q :: ls ++ lr ↔ i ∈ ch n ∧ i ≠ n ∨ i ∈ ch q.
Proof.
  intros HT Hj HLn Hh He Heq Hjq Hhq. pose proof (hole_dead _ _ _ _ _ _ HT) as Hdead.
  assert (∀ p, j ∉ ch p) as Hjp by (intros p (? & ? & ? & _)%(t_in _ _ _ _ _ _ HT); congruence).
  pose proof (chain_of _ _ _ _ _ _ _ _ _ HT HLn) as Hin. cbn beta in Hin. rewrite Hh in Hin. destruct (chain_start _ _ _ _ _ _ _ _ HT Hin) as (l & Hl).
  pose proof (t_path _ _ _ _ _ _ HT n ltac:(by rewrite Hl)) as Hpath. rewrite Hl in Hpath. destruct Hpath as [_ (e' & He' & Hpath)]. assert (e' = e) as -> by congruence.
  pose proof (chain_NoDup _ _ _ _ _ _ n HT) as Hnd. pose proof (Hjp n) as Hjn. rewrite Hl in Hnd, Hjn. apply NoDup_cons in Hnd as [Hnl Hnd].
  pose proof (cell_live _ _ _ _ _ _ _ _ HT Heq ltac:(congruence)) as HLq. pose proof (chain_of _ _ _ _ _ _ _ _ _ HT HLq) as Hqin. cbn beta in Hqin.
  destruct (decide (home (hash_nr eq) = n)) as [Hn | Hn].
  - rewrite Hn, Hl in Hqin. apply elem_of_cons in Hqin as [? | Hqin]; [lia |]. apply list_elem_of_split in Hqin as (l1 & l2 & ->). exists l1, l2. cbv zeta.
    assert (ch q = []) as ->.
    { destruct (ch q) as [| x lx] eqn:Hx; [done |]. destruct (chain_start _ _ _ _ _ _ q x HT) as (lx' & Hlx); [rewrite Hx; by left |].
      assert (q ∈ ch q) as (h' & d' & Hi & Hh')%(t_in _ _ _ _ _ _ HT) by (rewrite Hlx; by left). cbn beta in *. rewrite HLq in Hi. injection Hi as <- <-. lia. }
    apply seg_app in Hpath as (y & Hs & -> & eq' & Heq' & Hp2). assert (eq' = eq) as -> by congruence.
    apply NoDup_app in Hnd as (Hnd1 & Hdis & Hnd2). apply NoDup_cons in Hnd2 as [Hq2 Hnd2]. split_and!; [| done | | done |].
    + assert (q ∉ l1) by (intros Hi; apply (Hdis q Hi); by left). constructor; [set_solver |]. cbn. constructor; [set_solver |]. apply NoDup_app. set_solver.
    + intros [-> | Hi]%elem_of_cons; [done |]. apply (Hdis q Hi). by left.
    + rewrite Hl. set_solver.
  - destruct Hhq as [? | Hhq]; [done |]. rewrite Hhq in Hqin. destruct (chain_start _ _ _ _ _ _ _ _ HT Hqin) as (lq & Hlq). exists l, lq. cbv zeta.
    pose proof (t_path _ _ _ _ _ _ HT q ltac:(by rewrite Hlq)) as Hpq. rewrite Hlq in Hpq. destruct Hpq as [_ (eq' & Heq' & Hpq)]. assert (eq' = eq) as -> by congruence.
    pose proof (chain_NoDup _ _ _ _ _ _ q HT) as Hndq. pose proof (Hjp q) as Hjq'. rewrite Hlq in Hndq, Hjq'. assert (∀ i, i ∈ ch n → i ∉ ch q) as Hdis.
    { intros i (h1 & d1 & Hi1 & Hh1)%(t_in _ _ _ _ _ _ HT) (h2 & d2 & Hi2 & Hh2)%(t_in _ _ _ _ _ _ HT). cbn beta in *. rewrite Hi1 in Hi2. injection Hi2 as <- <-. lia. }
    rewrite Hl, Hlq in Hdis. apply NoDup_cons in Hndq as [Hq2 Hndq]. split_and!; [| done | | done |].
    + constructor; [set_solver |]. cbn. constructor; [set_solver |]. apply NoDup_app. split; [done |]. split; [| done]. intros i Hi Hi'. apply (Hdis i); by right.
    + intros Hi. pose proof (t_size _ _ _ _ _ _ HT). assert (NO_RECORD ∈ j :: ch n) as [Hi' | Hi']%elem_of_cons by (rewrite Hl; set_solver); [lia |].
      apply (chain_range _ _ _ _ _ _ _ _ HT) in Hi'. lia.
    + rewrite Hl, Hlq. set_solver.
Qed.

Lemma move_last_first m j L ch h d e :
  table home m (n + 1) (Some j) L ch → 0 ≤ j < n + 1 → L !! n = Some (h, d) → home h = n → m !! n = Some e → ∃ m' L' ch',
  move_last b b' n m j = Ret m' ∧ table home' (delete n m') n None L' ch' ∧ contents L' ≡ₚ contents L.
Proof.
  intros HT Hj HLn Hh He. pose proof (hole_dead _ _ _ _ _ _ HT) as Hdead. unfold move_last. rewrite bool_decide_false by congruence. rewrite (cell_Ret _ _ _ He). obind.
  assert (hash_nr e = h) as -> by (rewrite (cell_live _ _ _ _ _ _ _ _ HT He ltac:(congruence)) in HLn; by injection HLn). rewrite Hmerge, decide_True by done.
  case_bool_decide as Hqj.
  { rewrite <- Hqj in *. destruct (in_range _ _ _ _ _ _ _ HT Hj) as [ej Hej]. rewrite (set_cell_Ret _ _ _ _ Hej). destruct (take_over _ _ _ _ _ _ HT HLn Hh He) as (ch' & HT').
    eexists _, _, ch'. split; [done |]. split; [exact HT' | by apply contents_move]. }
  destruct (in_range _ _ _ _ _ _ q HT ltac:(lia)) as [eq Heq]. rewrite (cell_Ret _ _ _ Heq). obind. rewrite Hmerge. rewrite Hh.
  destruct (decide (home (hash_nr eq) = n ∨ home (hash_nr eq) = q)) as [Hhq | Hhq]; cycle 1.
  { rewrite decide_False by tauto. rewrite bool_decide_true by (intros ?; apply Hhq; right; congruence). eapply take_over_stray; [done.. | | |]; [congruence | tauto | tauto]. }
  rewrite (bool_decide_false (q ≠ _)) by (case_decide; [tauto | destruct Hhq; [done | intros []; by symmetry]]).
  destruct (take_in_cells _ _ _ _ _ _ _ _ HT Hj HLn Hh He Heq ltac:(congruence) Hhq) as (ls & lr & Hnd & Hs & Hz & Hlr & Hmem). cbv zeta in *.
  rewrite (bool_decide_false (n ≠ n)) by tauto. rewrite andb_false_r.
  destruct (take_in _ _ _ _ h d e eq ls _ lr HT Hj HLn Hh He Heq ltac:(congruence) Hnd Hs Hz Hlr Hmem) as (m' & ch' & Hrun & HT').
  exists m', (<[j := (h, d)]> (delete n L)), ch'. split; [| split; [done | by apply contents_move]]. rewrite <- Hrun.
  case_decide as Hn; [by rewrite bool_decide_true | by rewrite bool_decide_false by congruence].
Qed.
End last.

Lemma move_last_spec b b' n q m j L ch :
  (0 < n → 0 ≤ q < n ∧ ∀ h, my_hash_mask h b' n = if decide (my_hash_mask h b (n + 1) = n) then q else my_hash_mask h b (n + 1)) → 0 ≤ n →
  table (λ h, my_hash_mask h b (n + 1)) m (n + 1) (Some j) L ch → 0 ≤ j < n + 1 → ∃ m' L' ch',
  move_last b b' n m j = Ret m' ∧ table (λ h, my_hash_mask h b' n) (delete n m') n None L' ch' ∧ contents L' ≡ₚ contents L.
Proof.
  intros Hmerge Hn HT Hj. destruct (decide (j = n)) as [-> | Hjn].
  { unfold move_last. rewrite bool_decide_true by done. exists m, L, ch. split; [done |]. split; [| done]. eapply table_shrink; [exact HT | done |].
    intros i h d Hi. pose proof (hole_dead _ _ _ _ _ _ HT) as Hdead. assert (i ≠ n) by congruence. pose proof (live_range _ _ _ _ _ _ _ _ HT Hi).
    destruct (Hmerge ltac:(lia)) as [_ Hm]. cbn beta. rewrite Hm, decide_False; [done |]. intros Hh. pose proof (chain_of _ _ _ _ _ _ _ _ _ HT Hi) as Hin. cbn beta in Hin.
    rewrite Hh, (chain_none _ _ _ _ _ _ _ HT Hdead) in Hin. by apply not_elem_of_nil in Hin. }
  destruct (Hmerge ltac:(lia)) as [Hq Hm]. destruct (in_range _ _ _ _ _ _ n HT ltac:(lia)) as [e He]. pose proof (cell_live _ _ _ _ _ _ _ _ HT He ltac:(congruence)) as HLn.
  destruct (decide (my_hash_mask (hash_nr e) b (n + 1) = n)); [by eapply move_last_first | by eapply move_last_inner].
Qed.

End delete.
