(* ===== verification/HashSpec.v ===== *)
(** * Hash tables: the records of a table, and searching

    A hash table stands for a collection of records ([hash_table]).  [my_hash_first] and [my_hash_next] enumerate the records
    with a key; the search for a record by its address finds it if it is there. *)

From stdpp Require Import functions.
From S2P Require Import Prelude Hash HashRep HashTable HashInsert.

(** What a hash table requires of its character set: keys that are equal have the same hash number. *)
Class Collation (hash_function : str → Z) (strnncoll : str → str → Z) : Prop :=
  equal_hash a b : length a = length b → strnncoll a b = 0 → hash_function a = hash_function b.

Section spec.
Context {R : Type} `{EqDecision R}.
Context (key_of : R → str) (hash_function : str → Z) (strnncoll : str → str → Z) `{Hcoll : !Collation hash_function strnncoll}.
Implicit Types (H : HASH R) (m : gmap Z (HASH_LINK R)) (L : gmap Z (Z * R)) (e : HASH_LINK R) (ch : Z → list Z) (rs : list R).

Definition bucket H (h : Z) : Z := my_hash_mask h (blength H) (records H).

(** The table has the records [rs], in some order. *)
Definition hash_table H rs : Prop := ∃ L ch,
  table (bucket H) (array H) (records H) None L ch ∧ sizes (blength H) (records H) ∧
  (∀ i h d, L !! i = Some (h, d) → h = hash_function (key_of d)) ∧ (contents L).*2 ≡ₚ rs.

(** The record has the key. *)
Definition same_key (key : str) (r : R) : Prop := length (key_of r) = length key ∧ strnncoll (key_of r) key = 0.
#[global] Instance same_key_dec key r : Decision (same_key key r).
Proof. unfold same_key. apply _. Defined.

Lemma hashcmp_spec e key : key ≠ [] → hashcmp key_of strnncoll e key (Z.of_nat (length key)) = Ret (bool_decide (¬ same_key key (data e))).
Proof.
  intros Hne. unfold hashcmp. assert (length key ≠ 0%nat) by (by destruct key). destruct (decide (length (key_of (data e)) = length key)) as [Hl | Hl].
  - rewrite bool_decide_false by lia. unfold key_bytes. rewrite bool_decide_true by lia. obind. rewrite Hl, Nat2Z.id, take_ge by lia. f_equal. apply bool_decide_ext. unfold same_key. tauto.
  - rewrite bool_decide_true by lia. f_equal. symmetry. apply bool_decide_eq_true. unfold same_key. tauto.
Qed.

(** ** Searching by key *)

(** The records of a chain that have the key, with their cells; the first of them. *)
Definition matches m (key : str) (l : list Z) : list (R * Z) :=
  omap (λ i, e ← m !! i; if decide (same_key key (data e)) then Some (data e, i) else None) l.
Definition match_in m (key : str) (l : list Z) : option (R * Z) := head (matches m key l).

Lemma matches_cons m key x l e : m !! x = Some e → matches m key (x :: l) = if decide (same_key key (data e)) then (data e, x) :: matches m key l else matches m key l.
Proof. intros He. unfold matches. cbn [omap list_omap]. rewrite He. cbn [mbind option_bind]. by case_decide. Qed.

Lemma match_in_cons m key x l e : m !! x = Some e → match_in m key (x :: l) = if decide (same_key key (data e)) then Some (data e, x) else match_in m key l.
Proof. intros He. unfold match_in. rewrite (matches_cons _ _ _ _ _ He). by case_decide. Qed.

Lemma next_loop_spec H key : key ≠ [] → array H !! NO_RECORD = None → ∀ l fuel x, (length l ≤ fuel)%nat → path (array H) x l →
  next_loop key_of strnncoll fuel H key (Z.of_nat (length key)) x = Ret (match_in (array H) key l).
Proof.
  intros Hkey Hno. induction l as [| y l IH]; intros fuel x Hfuel Hp.
  - cbn in Hp. subst. destruct fuel; cbn [next_loop]; by rewrite bool_decide_true.
  - destruct fuel as [| fuel]; [cbn in Hfuel; lia |]. destruct Hp as [-> (e & He & Hp)]. cbn [next_loop]. rewrite bool_decide_false by congruence.
    rewrite (cell_Ret _ _ _ He). obind. rewrite hashcmp_spec by done. obind. rewrite (match_in_cons _ _ _ _ _ He). case_bool_decide as Hs; cbn [negb].
    + rewrite (decide_False (P := same_key key (data e))) by done. apply IH; [cbn in Hfuel; lia | done].
    + by rewrite (decide_True (P := same_key key (data e))) by done.
Qed.

Lemma first_loop_spec H key : key ≠ [] → array H !! NO_RECORD = None → ∀ l fuel x flag, (length l ≤ fuel)%nat → l ≠ [] → path (array H) x l →
  (flag = true → ∀ e, array H !! x = Some e → bucket H (hash_nr e) = x) →
  first_loop key_of strnncoll fuel H key (Z.of_nat (length key)) flag x = Ret (match_in (array H) key l).
Proof.
  intros Hkey Hno. induction l as [| y l IH]; intros fuel x flag Hfuel Hl Hp Hflag; [done |].
  destruct fuel as [| fuel]; [cbn in Hfuel; lia |]. destruct Hp as [-> (e & He & Hp)]. cbn [first_loop].
  rewrite (cell_Ret _ _ _ He). obind. rewrite hashcmp_spec by done. obind. rewrite (match_in_cons _ _ _ _ _ He). case_bool_decide as Hs; cbn [negb]; [| by rewrite decide_True].
  rewrite decide_False by done. assert (flag && bool_decide (my_hash_rec_mask e (blength H) (records H) ≠ y) = false) as ->.
  { destruct flag; [| done]. rewrite bool_decide_false; [done |]. specialize (Hflag eq_refl e He). unfold bucket, my_hash_rec_mask in *. tauto. }
  destruct l as [| z l]; [cbn in Hp; by rewrite bool_decide_true |]. rewrite bool_decide_false; [apply IH; [cbn in *; lia | done | done | done] |].
  destruct Hp as [-> (e' & He' & _)]. congruence.
Qed.

(** The bucket of a hash number is an index. *)
Lemma bucket_range H h : sizes (blength H) (records H) → 0 < records H → 0 ≤ bucket H h < records H.
Proof. intros Hs Hn. apply mask_range; [done | by left]. Qed.

(** The chain that a search follows: when the bucket is empty, the record of another bucket in its cell. *)
Definition search_chain ch (p : Z) : list Z := if decide (ch p = []) then [p] else ch p.

Lemma first_search H L ch h key :
  table (bucket H) (array H) (records H) None L ch → sizes (blength H) (records H) → 0 < records H → key ≠ [] →
  first_loop key_of strnncoll (size (array H)) H key (Z.of_nat (length key)) true (bucket H h) = Ret (match_in (array H) key (search_chain ch (bucket H h))).
Proof.
  intros HT Hs Hn Hkey. pose proof (no_cell _ _ _ _ _ _ HT) as Hno. pose proof (bucket_range H h Hs Hn) as Hr. unfold search_chain. case_decide as Hch.
  - destruct (in_range _ _ _ _ _ _ _ HT Hr) as [e He]. assert (size (array H) ≠ 0%nat) as Hsize by (apply map_size_non_empty_iff; intros Hm; by rewrite Hm in He).
    destruct (size (array H)) as [| fuel]; [done |]. cbn [first_loop]. rewrite (cell_Ret _ _ _ He). obind. rewrite hashcmp_spec by done. obind. rewrite (match_in_cons _ _ _ _ _ He).
    case_bool_decide as Hk; cbn [negb]; [| by rewrite decide_True]. rewrite decide_False by done. cbn [andb]. rewrite bool_decide_true; [done |].
    intros Hb. pose proof (chain_of _ _ _ _ _ _ _ _ _ HT (cell_live _ _ _ _ _ _ _ _ HT He ltac:(done))) as Hin. unfold my_hash_rec_mask in Hb. fold (bucket H (hash_nr e)) in Hb.
    rewrite Hb, Hch in Hin. by apply not_elem_of_nil in Hin.
  - pose proof (t_path _ _ _ _ _ _ HT _ Hch) as Hp. pose proof (seg_length _ _ _ _ (chain_NoDup _ _ _ _ _ _ _ HT) Hp) as Hlen. apply first_loop_spec; try done.
    intros _ e He. destruct (seg_start _ _ _ _ Hch Hp) as (l & Hl). assert (bucket H h ∈ ch (bucket H h)) as (h' & d' & Hi & Hh)%(t_in _ _ _ _ _ _ HT) by (rewrite Hl; by left).
    rewrite (cell_live _ _ _ _ _ _ _ _ HT He ltac:(done)) in Hi. by injection Hi as <- <-.
Qed.

(** All records with the key, as callers enumerate them: [my_hash_first], then [my_hash_next] until it returns NULL. *)
Fixpoint next_all (fuel : nat) H (key : str) (r : option R) (state : Z) : outcome (list R) :=
  match r with
  | None => Ret []
  | Some d =>
      match fuel with
      | O => NoFuel
      | S fuel =>
          '(r, state) ← my_hash_next key_of strnncoll H key (Z.of_nat (length key)) state;
          ds ← next_all fuel H key r state;
          Ret (d :: ds)
      end
  end.

Definition search_all H (key : str) : outcome (list R) :=
  '(r, state) ← my_hash_first key_of hash_function strnncoll H key (Z.of_nat (length key));
  next_all (S (size (array H))) H key r state.

(** The first match splits the chain. *)
Lemma match_in_split m key l : (∀ i, i ∈ l → is_Some (m !! i)) →
  match match_in m key l with
  | None => matches m key l = []
  | Some (d, i) => ∃ l1 l2 e, l = l1 ++ i :: l2 ∧ m !! i = Some e ∧ data e = d ∧ same_key key d ∧ matches m key l = (d, i) :: matches m key l2
  end.
Proof.
  induction l as [| x l IH]; intros Hin; [done |]. destruct (Hin x ltac:(by left)) as [e He]. rewrite (match_in_cons _ _ _ _ _ He), (matches_cons _ _ _ _ _ He). case_decide as Hs.
  - by exists [], l, e.
  - specialize (IH (λ i Hi, Hin i ltac:(by right))). destruct (match_in m key l) as [[d i] |]; [| done]. destruct IH as (l1 & l2 & e' & -> & Hi & Hd & Hsame & Hm). by exists (x :: l1), l2, e'.
Qed.

Lemma my_hash_next_spec H key i e l : key ≠ [] → array H !! NO_RECORD = None → array H !! i = Some e → path (array H) (next e) l → (length l ≤ size (array H))%nat →
  my_hash_next key_of strnncoll H key (Z.of_nat (length key)) i = Ret (match match_in (array H) key l with Some (d, idx) => (Some d, idx) | None => (None, NO_RECORD) end).
Proof.
  intros Hkey Hno He Hp Hlen. unfold my_hash_next. rewrite bool_decide_false by congruence. rewrite (cell_Ret _ _ _ He). obind. by rewrite (next_loop_spec _ _ Hkey Hno l).
Qed.

Lemma next_all_spec H key : key ≠ [] → array H !! NO_RECORD = None → ∀ fuel l i e, (length l < fuel)%nat → (length l ≤ size (array H))%nat →
  array H !! i = Some e → path (array H) (next e) l → next_all fuel H key (Some (data e)) i = Ret (data e :: (matches (array H) key l).*1).
Proof.
  intros Hkey Hno. induction fuel as [| fuel IH]; intros l i e Hfuel Hsize He Hp; [lia |]. cbn [next_all]. rewrite (my_hash_next_spec H key i e l) by done. obind.
  pose proof (match_in_split (array H) key l) as Hm. destruct (match_in (array H) key l) as [[d i'] |].
  - destruct Hm as (l1 & l2 & e' & -> & He' & <- & _ & ->); [intros j Hj; by eapply seg_lookup |]. apply seg_app in Hp as (y & _ & -> & e'' & He'' & Hp).
    assert (e'' = e') as -> by congruence. rewrite length_app in *. cbn in *. rewrite (IH l2 _ e'); [done | lia | lia | done | done].
  - rewrite Hm by (intros j Hj; by eapply seg_lookup). by destruct fuel.
Qed.

Lemma matches_elem m key l d i : (d, i) ∈ matches m key l ↔ i ∈ l ∧ ∃ e, m !! i = Some e ∧ data e = d ∧ same_key key d.
Proof.
  unfold matches. rewrite list_elem_of_omap. split.
  - intros (x & Hx & Hf). destruct (m !! x) as [e |] eqn:He; [| done]. cbn in Hf. case_decide; [| done]. injection Hf as <- <-. split; [done |]. by exists e.
  - intros (Hi & e & He & <- & Hs). exists i. split; [done |]. rewrite He. cbn. by rewrite decide_True.
Qed.

(** The matches in the chain of the key are the records of the table that have the key. *)
Lemma chain_matches H rs L ch key :
  table (bucket H) (array H) (records H) None L ch → (∀ i h d, L !! i = Some (h, d) → h = hash_function (key_of d)) → (contents L).*2 ≡ₚ rs →
  (matches (array H) key (ch (bucket H (hash_function key)))).*1 ≡ₚ filter (same_key key) rs.
Proof using Hcoll.
  intros HT Hhash Hrs. rewrite <- Hrs. unfold contents. rewrite !filter_fmap, <- list_fmap_compose.
  transitivity (((λ x, (x.2.2, x.1)) <$> filter (λ x, same_key key x.2.2) (map_to_list L)).*1); [| by rewrite <- list_fmap_compose].
  apply fmap_Permutation. apply NoDup_Permutation.
  - apply NoDup_omap_inj; [| by eapply chain_NoDup]. intros x y z _ _ Hx Hy. destruct (array H !! x), (array H !! y); try done. cbn in *. repeat case_decide; congruence.
  - apply NoDup_fmap_2_strong; [| apply NoDup_filter, NoDup_map_to_list]. intros [i x] [i' x'] [_ Hi]%list_elem_of_filter [_ Hi']%list_elem_of_filter [= _ ->].
    apply elem_of_map_to_list in Hi, Hi'. congruence.
  - intros [d i]. rewrite matches_elem, list_elem_of_fmap. split.
    + intros (Hi & e & He & <- & Hs). exists (i, payload e). split; [done |]. apply list_elem_of_filter. split; [done |]. apply elem_of_map_to_list. by eapply cell_live.
    + intros ([i' [h d']] & [= -> ->] & [Hs Hi]%list_elem_of_filter). cbn in *. apply elem_of_map_to_list in Hi. destruct (live_cell _ _ _ _ _ _ _ _ _ HT Hi) as (z & Hz).
      split; [| by eexists]. apply (t_in _ _ _ _ _ _ HT). exists h, d'. split; [done |]. rewrite (Hhash _ _ _ Hi). f_equal. destruct Hs. by apply equal_hash.
Qed.

(** ** Searching for a record *)

(** [find_record] along a chain: the first cell with the record. *)
Lemma find_record_spec m r : m !! NO_RECORD = None → ∀ l fuel prev x, (length l ≤ fuel)%nat → l ≠ [] → path m x l →
  ∃ res, find_record fuel m r prev x = Ret res ∧
  match res with
  | None => ∀ i e, i ∈ l → m !! i = Some e → data e ≠ r
  | Some (g, i) => ∃ l1 l2 e, l = l1 ++ i :: l2 ∧ m !! i = Some e ∧ data e = r ∧ g = (match last l1 with Some g => Some g | None => prev end)
  end.
Proof.
  intros Hno. induction l as [| y l IH]; intros fuel prev x Hfuel Hl Hp; [done |]. destruct fuel as [| fuel]; [cbn in Hfuel; lia |].
  destruct Hp as [-> (e & He & Hp)]. cbn [find_record]. rewrite (cell_Ret _ _ _ He). obind. destruct (decide (data e = r)) as [Hd | Hd].
  { eexists. split; [done |]. cbv iota beta. by exists [], l, e. }
  destruct l as [| z l].
  { cbn in Hp. rewrite bool_decide_true by done. exists None. split; [done |]. intros i e' ->%list_elem_of_singleton. congruence. }
  rewrite bool_decide_false by (destruct Hp as [-> (? & ? & _)]; congruence). destruct (IH fuel (Some y) (next e)) as (res & Hres & Hspec); [cbn in *; lia | done | done |].
  exists res. split; [done |]. destruct res as [[g i] |].
  - destruct Hspec as (l1 & l2 & e' & Heq & Hi & Hd' & ->). exists (y :: l1), l2, e'. rewrite Heq. split_and!; try done. rewrite last_cons. by destruct (last l1).
  - intros i e' [-> | Hi]%elem_of_cons; [congruence | by apply Hspec].
Qed.

(** From any live cell the links lead to the end of its chain. *)
Lemma path_from home m n hole L ch i h d : table home m n hole L ch → L !! i = Some (h, d) → ∃ l, path m i (i :: l) ∧ NoDup (i :: l).
Proof.
  intros HT Hi. pose proof (chain_of _ _ _ _ _ _ _ _ _ HT Hi) as Hin. pose proof (chain_NoDup _ _ _ _ _ _ (home h) HT) as Hnd.
  assert (ch (home h) ≠ []) as Hne by (intros Hch; rewrite Hch in Hin; by apply not_elem_of_nil in Hin). pose proof (t_path _ _ _ _ _ _ HT _ Hne) as Hp.
  apply list_elem_of_split in Hin as (l1 & l2 & Hl). rewrite Hl in Hp, Hnd. exists l2. apply seg_app in Hp as (y & _ & Hp). pose proof Hp as [-> _].
  split; [done |]. by apply NoDup_app in Hnd as (_ & _ & ?).
Qed.

(** The search for the record [r] from the bucket [p] of its hash number. *)
Lemma find_in_table H L ch r p :
  table (bucket H) (array H) (records H) None L ch → 0 ≤ p < records H → (∀ i h, L !! i = Some (h, r) → bucket H h = p) → ∃ res,
  find_record (size (array H)) (array H) r None p = Ret res ∧
  match res with
  | None => ∀ i h, L !! i ≠ Some (h, r)
  | Some (g, x) => ∃ l1 l2 e, ch p = l1 ++ x :: l2 ∧ array H !! x = Some e ∧ data e = r ∧ g = last l1
  end.
Proof.
  intros HT Hp Hr. pose proof (no_cell _ _ _ _ _ _ HT) as Hno. destruct (in_range _ _ _ _ _ _ _ HT Hp) as [e He]. pose proof (cell_live _ _ _ _ _ _ _ _ HT He ltac:(done)) as HLe.
  assert (∀ i h, L !! i = Some (h, r) → i ∈ ch p) as Hin by (intros i h Hi; rewrite <- (Hr i h Hi); by eapply chain_of). destruct (decide (ch p = [])) as [Hch | Hch].
  - destruct (path_from _ _ _ _ _ _ _ _ _ HT HLe) as (l & Hpath & Hnd). pose proof (seg_length _ _ _ _ Hnd Hpath) as Hlen.
    destruct (find_record_spec _ r Hno (p :: l) (size (array H)) None p) as (res & Hres & Hspec); [done | done | done |]. exists res. split; [done |].
    assert (∀ i h, L !! i ≠ Some (h, r)) as Hnone by (intros i h Hi; specialize (Hin i h Hi); rewrite Hch in Hin; by apply not_elem_of_nil in Hin).
    destruct res as [[g x] |]; [| done]. destruct Hspec as (l1 & l2 & e' & _ & Hx & <- & _). by destruct (Hnone x (hash_nr e')); eapply cell_live.
  - pose proof (t_path _ _ _ _ _ _ HT p Hch) as Hpath. pose proof (seg_length _ _ _ _ (chain_NoDup _ _ _ _ _ _ p HT) Hpath) as Hlen.
    destruct (find_record_spec _ r Hno (ch p) (size (array H)) None p) as (res & Hres & Hspec); [done | done | done |]. exists res. split; [done |]. destruct res as [[g x] |].
    + destruct Hspec as (l1 & l2 & e' & Hl & Hx & Hd & ->). exists l1, l2, e'. split_and!; try done. by destruct (last l1).
    + intros i h Hi. destruct (live_cell _ _ _ _ _ _ _ _ _ HT Hi) as (z & Hz). by apply (Hspec i _ (Hin i h Hi) Hz).
Qed.

(** ** Tables *)

Lemma empty_table home m n hole L ch : table home m n hole L ch → n ≤ 0 → contents L = [].
Proof.
  intros HT Hn. unfold contents. assert (L = ∅) as ->; [| by rewrite map_to_list_empty]. apply map_empty. intros i. destruct (L !! i) as [x |] eqn:Hi; [| done].
  apply (live_range _ _ _ _ _ _ _ _ HT) in Hi. lia.
Qed.

(** A new table is empty. *)
Lemma init_table b n f : hash_table (my_hash_init2 b n f : HASH R) [].
Proof.
  exists ∅, (λ _, []). split; [| split; [| split; [done | done]]].
  - split; cbn; try done.
    + intros i. rewrite lookup_empty. split; [by intros [] | lia].
    + intros p i. split; [by intros ?%not_elem_of_nil | by intros (h & d & Hi & _)].
  - by exists 0.
Qed.

(** A table with one record. *)
Lemma single_table kl f fr r :
  hash_table (mkHASH kl 2 1 f {[0 := mkLink NO_RECORD (hash_function (key_of r)) r]} fr []) [r].
Proof.
  assert (∀ h, my_hash_mask h 2 1 = 0) as Hmask by (intros h; pose proof (bucket_range (mkHASH 0 2 1 0 ∅ false []) h ltac:(by exists 1) ltac:(done)) as Hr; unfold bucket in Hr; cbn in Hr; lia).
  exists {[0 := (hash_function (key_of r), r)]}, (λ p, if decide (p = 0) then [0] else []). split; [| split; [by exists 1 | split]].
  - split; cbn; [| done | | |].
    + intros i. rewrite lookup_singleton_is_Some. lia.
    + intros i. rewrite (decide_False (P := None = Some i)) by done. rewrite !lookup_singleton. by case_decide.
    + intros p Hp. case_decide as Hp0; [subst | done]. split; [done |]. eexists. by split; [apply lookup_singleton_eq |].
    + intros p i. unfold bucket. cbn. setoid_rewrite Hmask. setoid_rewrite lookup_singleton_Some. case_decide as Hp.
      * rewrite Hp, list_elem_of_singleton. split; [intros ->; eexists _, _; done | by intros (h & d & [<- _] & _)].
      * split; [by intros ?%not_elem_of_nil |]. intros (? & ? & _ & Hp'). by rewrite Hp' in Hp.
  - by intros i h d [_ [= <- <-]]%lookup_singleton_Some.
  - unfold contents. by rewrite map_to_list_singleton.
Qed.

(** A search among records whose hash numbers are right: the first match of the chain. *)
Lemma first_value_spec H L ch key :
  table (bucket H) (array H) (records H) None L ch → sizes (blength H) (records H) → (∀ i h d, L !! i = Some (h, d) → h = hash_function (key_of d)) → key ≠ [] →
  my_hash_first_from_hash_value key_of strnncoll H (hash_function key) key (Z.of_nat (length key)) =
    Ret (match match_in (array H) key (ch (bucket H (hash_function key))) with Some (d, i) => (Some d, i) | None => (None, NO_RECORD) end).
Proof using Hcoll.
  intros HT Hs Hhash Hkey. unfold my_hash_first_from_hash_value. case_bool_decide as Hn.
  - destruct (ch (bucket H (hash_function key))) as [| i l] eqn:Hch; [done |]. assert (i ∈ ch (bucket H (hash_function key))) as Hi by (rewrite Hch; by left).
    apply (chain_range _ _ _ _ _ _ _ _ HT) in Hi. lia.
  - assert (0 < records H) by (destruct Hs as (k & ? & ? & ?); pose proof (Z.div_pos (blength H) 2); lia). fold (bucket H (hash_function key)).
    rewrite (first_search H L ch) by done. obind. f_equal. unfold search_chain. case_decide as Hch; [| done]. rewrite Hch.
    pose proof (bucket_range H (hash_function key) Hs ltac:(done)) as Hr. destruct (in_range _ _ _ _ _ _ _ HT Hr) as [e He]. rewrite (match_in_cons _ _ _ _ _ He), decide_False; [done |].
    intros [Hlen Hc]. pose proof (cell_live _ _ _ _ _ _ _ _ HT He ltac:(done)) as HLe. pose proof (chain_of _ _ _ _ _ _ _ _ _ HT HLe) as Hin.
    rewrite (Hhash _ _ _ HLe), (equal_hash _ _ Hlen Hc), Hch in Hin. by apply not_elem_of_nil in Hin.
Qed.

(** Searching by key.  On a table with the records [rs], [my_hash_first] followed by calls of [my_hash_next] until NULL returns every
    record that has the key exactly once, and nothing else; [my_hash_search] returns the first of them, and NULL when
    there is none.  This needs of the character set only that equal keys have equal hash numbers. *)
Theorem hash_search_correct H rs key :
  hash_table H rs → key ≠ [] → ∃ ds,
  search_all H key = Ret ds ∧ ds ≡ₚ filter (same_key key) rs ∧
  my_hash_search key_of hash_function strnncoll H key (Z.of_nat (length key)) = Ret (head ds).
Proof using Hcoll.
  intros (L & ch & HT & Hs & Hhash & Hrs) Hkey. set (l := ch (bucket H (hash_function key))). exists (matches (array H) key l).*1.
  pose proof (first_value_spec H L ch key HT Hs Hhash Hkey) as Hfirst. fold l in Hfirst.
  assert (my_hash_first key_of hash_function strnncoll H key (Z.of_nat (length key)) = Ret (match match_in (array H) key l with Some (d, i) => (Some d, i) | None => (None, NO_RECORD) end)) as Hf.
  { unfold my_hash_first. rewrite bool_decide_false by (destruct key; [done | cbn; lia]). unfold key_bytes. rewrite bool_decide_true by lia. obind. by rewrite Nat2Z.id, take_ge by lia. }
  pose proof (match_in_split (array H) key l ltac:(intros i Hi; by eapply chain_cell)) as Hsplit. split; [| split].
  - unfold search_all. rewrite Hf. obind. destruct (match_in (array H) key l) as [[d i] |] eqn:Hm; [| by rewrite Hsplit].
    destruct Hsplit as (l1 & l2 & e & Hl & He & <- & _ & ->).
    assert (path (array H) (bucket H (hash_function key)) (l1 ++ i :: l2)) as Hp by (rewrite <- Hl; apply (t_path _ _ _ _ _ _ HT); fold l; rewrite Hl; by destruct l1).
    pose proof (chain_NoDup _ _ _ _ _ _ (bucket H (hash_function key)) HT) as Hnd. fold l in Hnd. rewrite Hl in Hnd. pose proof (seg_length _ _ _ _ Hnd Hp) as Hlen.
    rewrite length_app in Hlen. cbn in Hlen. apply seg_app in Hp as (y & _ & -> & e' & He' & Hp). assert (e' = e) as -> by congruence.
    apply (next_all_spec H key Hkey (no_cell _ _ _ _ _ _ HT)); [lia | lia | done | done].
  - by apply (chain_matches H rs L ch).
  - unfold my_hash_search. rewrite Hf. obind. unfold match_in. by destruct (matches (array H) key l) as [| [d i] ?].
Qed.
End spec.

(** Keys of one byte, hashed and compared as numbers. *)
Definition byte_key (r : Z) : str := [r].
Definition byte_hash (key : str) : Z := foldr Z.add 0 key.
Definition byte_coll (a b : str) : Z := if decide (a = b) then 0 else 1.

#[global] Instance byte_collation : Collation byte_hash byte_coll.
Proof. intros a b _. unfold byte_coll. by case_decide; [subst |]. Qed.

Definition one_record : HASH Z := mkHASH 0 2 1 HASH_UNIQUE {[0 := mkLink NO_RECORD 7 7]} true [].

Lemma one_record_table : hash_table byte_key byte_hash one_record [7].
Proof. apply (single_table byte_key byte_hash 0 HASH_UNIQUE true 7). Qed.

Lemma hash_search_correct_witness : ∃ ds,
  search_all byte_key byte_hash byte_coll one_record [7] = Ret ds ∧ ds ≡ₚ filter (same_key byte_key byte_coll [7]) [7] ∧
  my_hash_search byte_key byte_hash byte_coll one_record [7] 1 = Ret (head ds).
Proof. apply (hash_search_correct byte_key byte_hash byte_coll one_record [7] [7]); [apply one_record_table | done]. Defined.
