(* ===== verification/HashOps.v ===== *)
(** * Hash tables: the operations

    Insertion, deletion, update and the check of a whole table against the records it stands for. *)

From stdpp Require Import functions.
From S2P Require Import Prelude Hash HashRep HashTable HashInsert HashSplit HashDelete HashSpec.

Section ops.
Context {R : Type} `{EqDecision R}.
Context (key_of : R → str) (hash_function : str → Z) (strnncoll : str → str → Z) `{Hcoll : !Collation hash_function strnncoll}.
Implicit Types (H : HASH R) (m : gmap Z (HASH_LINK R)) (L : gmap Z (Z * R)) (e : HASH_LINK R) (ch : Z → list Z) (rs : list R).


(** What the operations leave alone. *)
Definition settings H : Z * Z * bool := (key_length H, flags H, free H).

(** ** Insertion *)

Lemma sizes_step b n : sizes b n → sizes (if bool_decide (n + 1 = b) then b + b else b) (n + 1).
Proof.
  intros (k & Hk & -> & Hn). case_bool_decide as Hb.
  - exists (k + 1). rewrite Hb. replace (2 ^ k + 2 ^ k) with (2 ^ (k + 1)) by (rewrite Z.pow_add_r, Z.pow_1_r by lia; lia). split; [lia |]. split; [done |].
    rewrite Z.pow_add_r, Z.pow_1_r, Z.div_mul by lia. lia.
  - exists k. lia.
Qed.

(** Doubling the table changes no bucket. *)
Lemma table_double b n m L ch :
  sizes b n → table (λ h, my_hash_mask h b (n + 1)) m (n + 1) None L ch →
  table (λ h, my_hash_mask h (if bool_decide (n + 1 = b) then b + b else b) (n + 1)) m (n + 1) None L ch.
Proof.
  intros (k & Hk & Hb & _) HT. case_bool_decide as Hn; [| done]. destruct HT as [Hdom Hsize Hlive Hpath Hin]. split; try done. intros p i. rewrite Hin.
  split; intros (h & d & Hi & Hh); exists h, d; (split; [done |]); rewrite <- Hh, Hn; [| symmetry]; apply mask_double; by exists k.
Qed.

(** The live cells are the cells below [n]. *)
Lemma live_cells home m n L ch : table home m n None L ch → (map_to_list L).*1 ≡ₚ seqZ 0 n.
Proof.
  intros HT. apply NoDup_Permutation; [apply NoDup_fst_map_to_list | apply NoDup_seqZ |]. intros i. rewrite elem_of_seqZ, list_elem_of_fmap. split.
  - intros ([i' x] & -> & Hi%elem_of_map_to_list). apply (live_range _ _ _ _ _ _ _ _ HT) in Hi. cbn. lia.
  - intros Hi. destruct (in_range _ _ _ _ _ _ i HT ltac:(lia)) as [e He]. exists (i, payload e). split; [done |]. apply elem_of_map_to_list. by eapply cell_live.
Qed.

(** The number of records. *)
Lemma table_count home m n L ch : table home m n None L ch → 0 ≤ n → Z.of_nat (length (contents L)) = n.
Proof.
  intros Hp%live_cells%Permutation_length Hn. unfold contents. rewrite length_seqZ, (length_fmap fst (map_to_list L)) in Hp. rewrite length_fmap. lia.
Qed.

Lemma hash_table_count H rs : hash_table key_of hash_function H rs → Z.of_nat (length rs) = records H.
Proof.
  intros (L & ch & HT & (k & Hk & Hb & Hn) & _ & Hrs). rewrite <- Hrs, length_fmap. eapply table_count; [exact HT |].
  pose proof (Z.div_pos (blength H) 2). lia.
Qed.

(** Hash numbers that are right, up to the order of the records. *)
Lemma hashes_move L L' (x : list (Z * R)) :
  contents L' ≡ₚ x ++ contents L → Forall (λ x, x.1 = hash_function (key_of x.2)) x → (∀ i h d, L !! i = Some (h, d) → h = hash_function (key_of d)) →
  ∀ i h d, L' !! i = Some (h, d) → h = hash_function (key_of d).
Proof.
  intros Hp Hx HL i h d Hi. assert ((h, d) ∈ x ++ contents L) as [Hin | Hin]%elem_of_app by (rewrite <- Hp; apply contents_elem; by exists i).
  - rewrite Forall_forall in Hx. by apply (Hx (h, d)).
  - apply contents_elem in Hin as (i' & Hi'). by eapply HL.
Qed.

Lemma insert_record H rs junk r :
  hash_table key_of hash_function H rs → Z.of_nat (length rs) < NO_RECORD → ∃ m j m',
  split_bucket (blength H) (records H) (<[records H := junk]> (array H)) (records H) = Ret (m, j) ∧
  place_record (blength H) (records H) m j (hash_function (key_of r)) r = Ret m' ∧
  hash_table key_of hash_function
    (with_table (if bool_decide (records H + 1 = blength H) then blength H + blength H else blength H) (records H + 1) m' H) (r :: rs).
Proof.
  intros HH Hlen. rewrite (hash_table_count H rs HH) in Hlen. destruct HH as (L & ch & HT & Hs & Hhash & Hrs).
  destruct (split_bucket_spec (blength H) (records H) (array H) L ch junk Hs Hlen HT) as (m & j & L1 & ch1 & Hsplit & HT1 & Hj & Hc1).
  destruct (place_record_spec (blength H) (records H) m j L1 ch1 (hash_function (key_of r)) r) as (m' & L2 & ch2 & Hplace & HT2 & Hc2); [| done | done |].
  { pose proof Hs as (k & Hk & Hb & Hn). pose proof (Z.div_pos (blength H) 2). intros h. apply mask_range; [lia |]. destruct (decide (records H + 1 = blength H)) as [He | Hne].
    - right. split; [done |]. by replace (records H + 1 - 1) with (records H) by lia.
    - left. exists k. lia. }
  exists m, j, m'. split; [done |]. split; [done |]. exists L2, ch2. split_and!.
  - by apply table_double.
  - by apply sizes_step.
  - eapply (hashes_move L1 _ [(_, _)]); [exact Hc2 | by repeat constructor |]. eapply (hashes_move L _ []); [exact Hc1 | constructor | done].
  - rewrite Hc2. cbn. by rewrite Hc1, Hrs.
Qed.

(** No record has the key exactly when the search finds none. *)
Lemma key_absent H rs L ch key :
  table (bucket H) (array H) (records H) None L ch → (∀ i h d, L !! i = Some (h, d) → h = hash_function (key_of d)) → (contents L).*2 ≡ₚ rs →
  Exists (same_key key_of strnncoll key) rs ↔ match_in key_of strnncoll (array H) key (ch (bucket H (hash_function key))) ≠ None.
Proof using Hcoll.
  intros HT Hhash Hrs. pose proof (chain_matches key_of hash_function strnncoll H rs L ch key HT Hhash Hrs) as Hm. unfold match_in. rewrite Exists_exists. split.
  - intros (d & Hd & Hs). assert (d ∈ filter (same_key key_of strnncoll key) rs) as Hin by (by apply list_elem_of_filter). rewrite <- Hm in Hin.
    by destruct (matches _ _ _ _ _); [apply not_elem_of_nil in Hin |].
  - destruct (matches _ _ _ _ _) as [| [d i] l]; [done |]. intros _. exists d. assert (d ∈ filter (same_key key_of strnncoll key) rs) as [? ?]%list_elem_of_filter; [| done].
    rewrite <- Hm. by left.
Qed.

(** C15: Insertion.  On a table with the records [rs], [my_hash_insert] refuses a record whose key is in the table if the table is unique, and
    any record if there is no memory, and then changes nothing; otherwise it adds the record. *)
Theorem hash_insert_correct H rs memory r :
  hash_table key_of hash_function H rs → Z.of_nat (length rs) < NO_RECORD → key_of r ≠ [] → ∃ failed H',
  my_hash_insert key_of hash_function strnncoll H memory r = Ret (failed, H') ∧
  if bool_decide (Z.land (flags H) HASH_UNIQUE ≠ 0 ∧ Exists (same_key key_of strnncoll (key_of r)) rs) || bool_decide (¬ is_Some memory)
  then failed = true ∧ H' = H
  else failed = false ∧ hash_table key_of hash_function H' (r :: rs) ∧ settings H' = settings H ∧ freed H' = freed H.
Proof using Hcoll.
  intros HH Hlen Hkey. pose proof HH as (L & ch & HT & Hs & Hhash & Hrs). unfold my_hash_insert.
  assert (∃ dup, (if bool_decide (Z.land (flags H) HASH_UNIQUE ≠ 0)
      then my_hash_search_using_hash_value key_of strnncoll H (hash_function (key_of r)) (key_of r) (Z.of_nat (length (key_of r))) else Ret None) = Ret dup ∧
      (dup = None ↔ ¬ (Z.land (flags H) HASH_UNIQUE ≠ 0 ∧ Exists (same_key key_of strnncoll (key_of r)) rs))) as (dup & -> & Hdup).
  { case_bool_decide as Hu; [| exists None; split; [done |]; tauto]. unfold my_hash_search_using_hash_value. erewrite first_value_spec by done. obind.
    eexists. split; [done |]. rewrite (key_absent H rs L ch (key_of r)) by done. destruct (match_in _ _ _ _ _) as [[d i] |]; naive_solver. }
  obind. destruct dup as [d |].
  - rewrite (bool_decide_true (_ ∧ _)); [by exists true, H |]. apply dec_stable. intros Hn. by apply Hdup in Hn.
  - rewrite (bool_decide_false (_ ∧ _)) by (by apply Hdup). cbn [orb]. destruct memory as [junk |]; [| rewrite bool_decide_true by (intros [? ?]; done); by exists true, H].
    rewrite (bool_decide_false (¬ is_Some (Some junk))) by (intros Hn; by apply Hn).
    destruct (insert_record H rs junk r HH Hlen) as (m & j & m' & -> & Hplace & HH'). obind. rewrite Hplace. obind. by eexists _, _.
Qed.

(** ** Deletion *)

(** The sizes after a deletion, and the bucket that gets the records of the last one. *)
Lemma shrink_masks b n : sizes b n → 0 < n →
  let b' := if bool_decide (n - 1 < Z.shiftr b 1) then Z.shiftr b 1 else b in
  sizes b' (n - 1) ∧
  (0 < n - 1 → 0 ≤ n - 1 - b' / 2 < n - 1 ∧
    ∀ h, my_hash_mask h b' (n - 1) = if decide (my_hash_mask h b (n - 1 + 1) = n - 1) then n - 1 - b' / 2 else my_hash_mask h b (n - 1 + 1)).
Proof.
  intros Hs Hn b'. pose proof Hs as (k & Hk & Hb & Hbn). assert (sizes b' (n - 1) ∧ ∀ h, my_hash_mask h b n = my_hash_mask h b' n) as [Hs' Hmask].
  { unfold b'. rewrite Z.shiftr_div_pow2, Z.pow_1_r by lia. case_bool_decide as Hhalf; [| split; [exists k; lia | done]].
    destruct (decide (k = 0)) as [-> | Hk0]; [cbn in *; subst; cbn in *; lia |]. assert (b = 2 ^ (k - 1) * 2) as Hb2 by (rewrite Hb; replace k with (k - 1 + 1) at 1 by lia; by rewrite Z.pow_add_r by lia).
    assert (b / 2 = 2 ^ (k - 1)) as Hb' by (rewrite Hb2; apply Z.div_mul; lia). rewrite Hb' in *. split.
    - exists (k - 1). split; [lia |]. split; [done |]. split; [| lia]. assert (n = 2 ^ (k - 1)) as -> by lia.
      pose proof (Z.div_lt (2 ^ (k - 1)) 2). lia.
    - intros h. assert (n = 2 ^ (k - 1)) as -> by lia. replace b with (2 ^ (k - 1) + 2 ^ (k - 1)) by lia. apply mask_double. exists (k - 1). lia. }
  split; [done |]. intros Hn1. pose proof Hs' as (k' & Hk' & Hb' & Hbn'). assert (1 ≤ b' / 2) as Hhalf.
  { destruct (decide (k' = 0)) as [-> |]; [rewrite Hb' in *; cbn in *; lia |]. apply Z.div_le_lower_bound; [lia |]. rewrite Hb'. replace k' with (k' - 1 + 1) by lia. rewrite Z.pow_add_r by lia. lia. }
  split; [lia |]. intros h. replace (n - 1 + 1) with n by lia. rewrite Hmask. pose proof (mask_split h b' (n - 1) Hs' Hn1) as Hsplit. replace (n - 1 + 1) with n in Hsplit by lia.
  pose proof (mask_range h b' (n - 1) Hn1 (or_introl Hs')) as Hr. rewrite Hsplit. destruct (decide (my_hash_mask h b' (n - 1) = n - 1 - b' / 2 ∧ Z.land h (b' / 2) ≠ 0)) as [[Hq _] |].
  - by rewrite decide_True.
  - by rewrite decide_False by lia.
Qed.

Lemma call_free_settings r H : settings (call_free r H) = settings H ∧ freed (call_free r H) = freed H ++ (if free H then [r] else []).
Proof. unfold call_free, settings. destruct (free H) eqn:Hf; cbn; [done |]. by rewrite Hf, app_nil_r. Qed.

Lemma call_free_table r H rs : hash_table key_of hash_function H rs → hash_table key_of hash_function (call_free r H) rs.
Proof. unfold call_free. by destruct (free H). Qed.

(** C18: Deletion.  [my_hash_delete] removes exactly the record with the given address, and calls [hash->free] on it if it is set; it returns 1
    and changes nothing if the record is not in the table. *)
Theorem hash_delete_correct H rs r :
  hash_table key_of hash_function H rs → ∃ res H',
  my_hash_delete key_of hash_function H r = Ret (res, H') ∧ settings H' = settings H ∧
  if decide (r ∈ rs)
  then res = 0 ∧ freed H' = freed H ++ (if free H then [r] else []) ∧ ∃ rs', rs ≡ₚ r :: rs' ∧ hash_table key_of hash_function H' rs'
  else res = 1 ∧ H' = H.
Proof.
  intros HH. pose proof (hash_table_count H rs HH) as Hcount. pose proof HH as (L & ch & HT & Hs & Hhash & Hrs). unfold my_hash_delete. case_bool_decide as Hn.
  { exists 1, H. split; [done |]. split; [done |]. rewrite decide_False; [done |]. destruct rs; [apply not_elem_of_nil | cbn in Hcount; lia]. }
  assert (0 < records H) as Hpos by lia. fold (bucket H (rec_hashnr key_of hash_function r)).
  assert (r ∈ rs ↔ ∃ i h, L !! i = Some (h, r)) as Hin.
  { rewrite <- Hrs, list_elem_of_fmap. split; [intros ([h d] & -> & (i & Hi)%contents_elem); by exists i, h | intros (i & h & Hi); exists (h, r); split; [done |]; apply contents_elem; by exists i]. }
  destruct (find_in_table H L ch r (bucket H (rec_hashnr key_of hash_function r)) HT) as (res & -> & Hres); [by apply bucket_range | intros i h Hi; by rewrite (Hhash i h r Hi) |].
  obind. destruct res as [[g x] |]; cycle 1.
  { exists 1, H. split; [done |]. split; [done |]. rewrite decide_False; [done |]. intros (i & h & Hi)%Hin. by apply (Hres i h). }
  destruct Hres as (l1 & l2 & e & Hch & He & <- & ->). pose proof (cell_live _ _ _ _ _ _ _ _ HT He ltac:(done)) as HLx.
  destruct (remove_link_spec (bucket H) _ _ _ _ _ l1 x l2 (hash_nr e) (data e) e HT Hch He HLx) as (m1 & hole & L1 & ch1 & -> & HT1 & Hhole & Hc1 & _). obind.
  destruct (shrink_masks (blength H) (records H) Hs Hpos) as [Hs' Hmerge]. set (b' := if bool_decide _ then _ else _) in *. unfold bucket in HT1. replace (records H) with (records H - 1 + 1) in HT1, Hhole by lia.
  destruct (move_last_spec (blength H) b' (records H - 1) _ m1 hole L1 ch1 Hmerge ltac:(lia) HT1 Hhole) as (m2 & L2 & ch2 & -> & HT2 & Hc2). obind.
  eexists _, _. split; [done |]. destruct (call_free_settings (data e) (with_table b' (records H - 1) (delete (records H - 1) m2) H)) as [-> ->]. split; [done |].
  rewrite decide_True by (apply Hin; by exists x, (hash_nr e)). split; [done |]. split; [done |]. exists (contents L2).*2. split; [by rewrite <- Hrs, Hc1, Hc2 |].
  apply call_free_table. exists L2, ch2. split_and!; try done.
  intros i h d Hi. assert ((h, d) ∈ contents L) as (i' & Hi')%contents_elem; [rewrite Hc1, <- Hc2; right; apply contents_elem; by exists i | by eapply Hhash].
Qed.
End ops.

(** Inserting into the table with the record 7, a second record goes in and the same key is refused. *)
Lemma hash_insert_correct_witness :
  (∃ failed H', my_hash_insert byte_key byte_hash byte_coll one_record (Some (mkLink 0 0 0)) 8 = Ret (failed, H') ∧
     failed = false ∧ hash_table byte_key byte_hash H' [8; 7] ∧ settings H' = settings one_record ∧ freed H' = []) ∧
  (∃ failed H', my_hash_insert byte_key byte_hash byte_coll one_record (Some (mkLink 0 0 0)) 7 = Ret (failed, H') ∧ failed = true ∧ H' = one_record).
Proof.
  split.
  - apply (hash_insert_correct byte_key byte_hash byte_coll one_record [7] (Some (mkLink 0 0 0)) 8); [apply one_record_table | done | done].
  - apply (hash_insert_correct byte_key byte_hash byte_coll one_record [7] (Some (mkLink 0 0 0)) 7); [apply one_record_table | done | done].
Defined.

Lemma hash_delete_correct_witness : ∃ res H',
  my_hash_delete byte_key byte_hash one_record 7 = Ret (res, H') ∧ settings H' = settings one_record ∧
  res = 0 ∧ freed H' = [7] ∧ ∃ rs', [7] ≡ₚ 7 :: rs' ∧ hash_table byte_key byte_hash H' rs'.
Proof.
  pose proof (hash_delete_correct byte_key byte_hash one_record [7] 7 one_record_table) as (res & H' & Hr & Hs & Hd).
  exists res, H'. case_decide as Hin; [done |]. destruct Hin. by left.
Defined.
