(* ===== verification/HashUpdate.v ===== *)
(** * Hash tables: a record whose key has changed

    [my_hash_update] moves a record to the bucket of its new key.  Until it does, the hash number of the record in the table is that of
    the old key, while a comparison already sees the new one. *)

From stdpp Require Import functions.
From S2P Require Import Prelude Hash HashRep HashTable HashInsert HashSpec HashOps.

Section update.
Context {R : Type} `{EqDecision R}.
Context (key_of : R → str) (hash_function : str → Z) (strnncoll : str → str → Z) `{Hcoll : !Collation hash_function strnncoll}.
Implicit Types (H : HASH R) (m : gmap Z (HASH_LINK R)) (L : gmap Z (Z * R)) (e : HASH_LINK R) (ch : Z → list Z) (rs : list R).


(** ** The record in its new chain *)

Lemma relink_spec b n m hole L ch idx h e :
  let home h := my_hash_mask h b n in
  table home m n (Some hole) L ch → 0 ≤ hole < n → 0 ≤ home h < n → (hole = idx → m !! idx = Some e) → ∃ m' L' ch',
  relink b n m (home h) hole idx h e = Ret m' ∧ table home m' n None L' ch' ∧ contents L' ≡ₚ (h, data e) :: contents L.
Proof.
  intros home HT Hhole Hr Hidx. unfold relink. destruct (in_range _ _ _ _ _ _ _ HT Hhole) as [eh Heh]. pose proof (hole_dead _ _ _ _ _ _ HT) as Hdead. case_bool_decide as Hni.
  - assert (∃ m1, (if bool_decide (hole ≠ idx) then set_cell m hole (λ _, e) else Ret m) = Ret m1 ∧ m1 !! hole = Some e ∧ ∀ i, i ≠ hole → m1 !! i = m !! i) as (m1 & -> & Hm1 & Hsame).
    { case_bool_decide as Hi.
      - rewrite (set_cell_Ret _ _ _ _ Heh). eexists. split; [done |]. split; [apply lookup_insert_eq |]. intros i Hne. by rewrite lookup_insert_ne.
      - exists m. split_and!; [done | rewrite Hi; by apply Hidx | done]. }
    obind. rewrite (set_cell_Ret _ _ _ _ Hm1). obind. rewrite (set_cell_Ret _ _ _ _ (lookup_insert_eq _ _ _)). eexists _, _, _. split; [done |].
    split; [| by apply (contents_add L hole (h, data e))]. replace (<[hole := _]> (<[hole := _]> m1)) with (<[hole := mkLink NO_RECORD h (data e)]> m).
    + rewrite <- Hni. apply fill_single; [by rewrite Hni | done | by rewrite Hni].
    + apply map_eq. intros i. rewrite !lookup_insert. case_decide; [done |]. by rewrite Hsame.
  - destruct (in_range _ _ _ _ _ _ _ HT Hr) as [p Hp]. rewrite (cell_Ret _ _ _ Hp). obind. pose proof (cell_live _ _ _ _ _ _ _ _ HT Hp ltac:(congruence)) as HLp.
    unfold my_hash_rec_mask. change (my_hash_mask (hash_nr p) b n) with (home (hash_nr p)). case_bool_decide as Hnp; rewrite (set_cell_Ret _ _ _ _ Heh); obind.
    + destruct (relocate home _ _ _ _ _ (home h) (hash_nr p) (data p) p HT Hhole HLp ltac:(congruence) Hp) as (l1 & g & l2 & eg & Hch & Heg & Hgi & Hgj & Hmove & HT').
      rewrite Hmove by (intros k ? ?; by rewrite lookup_insert_ne). obind. rewrite (set_cell_Ret _ (home h) p) by (by rewrite !lookup_insert_ne). obind.
      rewrite (set_cell_Ret _ _ _ _ (lookup_insert_eq _ _ _)). eexists _, _, _. split; [done |]. apply (fill_single home _ _ _ _ _ h (data e)) in HT'; [| done | done]. split.
      { array_is (<[home h := mkLink NO_RECORD h (data e)]> (<[g := with_next hole eg]> (<[hole := p]> m))). exact HT'. }
      rewrite contents_add; [by rewrite contents_move |]. rewrite lookup_insert_ne by congruence. apply lookup_delete_eq.
    + rewrite (set_cell_Ret _ _ _ _ (lookup_insert_eq _ _ _)). obind.
      rewrite (set_cell_Ret _ (home h) p) by (by rewrite !lookup_insert_ne by congruence). 
      destruct (chain_start home _ _ _ _ _ (home h) (home h) HT) as (l & Hl); [apply (t_in _ _ _ _ _ _ HT); by eexists _, _ |]. eexists _, _, _. split; [done |]. split.
      { array_is (<[home h := with_next hole p]> (<[hole := mkLink (next p) h (data e)]> m)). by apply (push_second home m n hole L ch (home h) l p h (data e)). }
      by apply contents_add.
Qed.

(** The hash number changes and the bucket does not. *)
Lemma table_rehash home m n L ch i h d h' e :
  table home m n None L ch → m !! i = Some e → L !! i = Some (h, d) → home h' = home h → table home (<[i := with_hash h' e]> m) n None (<[i := (h', d)]> L) ch.
Proof.
  intros HT He HLi Hh. pose proof (cell_live _ _ _ _ _ _ _ _ HT He ltac:(done)) as HLe. rewrite HLi in HLe. injection HLe as -> ->. split.
  - intros j. rewrite insert_is_Some by (by rewrite He). apply HT.
  - apply HT.
  - intros j. rewrite !lookup_insert. case_decide; [done |]. apply (t_live _ _ _ _ _ _ HT).
  - intros p Hp. eapply seg_frame; [| by apply (t_path _ _ _ _ _ _ HT)]. intros j _. rewrite lookup_insert. case_decide; [subst; by rewrite He | done].
  - intros p j. rewrite (t_in _ _ _ _ _ _ HT), lookup_insert. case_decide as Hij; [subst |  done]. rewrite HLi. split; intros (h1 & d1 & [= <- <-] & <-); by eexists _, _.
Qed.

(** ** The search for another record with the key *)

Section duplicates.
Context H L ch (r : R) rs.
Hypothesis HT : table (bucket H) (array H) (records H) None L ch.
Hypothesis Hs : sizes (blength H) (records H).
Hypothesis Hrs : (contents L).*2 ≡ₚ r :: rs.
Hypothesis Honce : r ∉ rs.
Hypothesis Hhash : ∀ i h d, L !! i = Some (h, d) → d ≠ r → h = hash_function (key_of d).

Lemma live_record i h d : L !! i = Some (h, d) → d = r ∨ d ∈ rs.
Proof.
  intros Hi. assert (d ∈ (contents L).*2) as Hd by (apply list_elem_of_fmap; exists (h, d); split; [done |]; apply contents_elem; by exists i).
  rewrite Hrs in Hd. by apply elem_of_cons in Hd.
Qed.

Lemma record_live d : d ∈ r :: rs → ∃ i h, L !! i = Some (h, d).
Proof. rewrite <- Hrs, list_elem_of_fmap. intros ([h d'] & -> & (i & Hi)%contents_elem). by exists i, h. Qed.

Lemma record_once i j h h' : L !! i = Some (h, r) → L !! j = Some (h', r) → i = j.
Proof.
  intros Hi Hj. destruct (decide (i = j)) as [| Hne]; [done |]. destruct Honce. pose proof Hrs as Hp. rewrite (contents_delete L i (h, r) Hi) in Hp. cbn in Hp.
  apply Permutation_cons_inv in Hp. rewrite <- Hp. apply list_elem_of_fmap. exists (h', r). split; [done |]. apply contents_elem. exists j. by rewrite lookup_delete_ne.
Qed.

Lemma other_record_spec key i e l fuel :
  key ≠ [] → (0 < fuel)%nat → array H !! i = Some e → path (array H) (next e) l → (length l ≤ size (array H))%nat → i ∉ l →
  other_record key_of strnncoll fuel H r key (Z.of_nat (length key)) (Some (data e)) i = Ret (bool_decide (data e ≠ r ∨ matches key_of strnncoll (array H) key l ≠ [])).
Proof.
  intros Hkey Hfuel He Hp Hlen Hil. destruct fuel as [| fuel]; [lia |]. cbn [other_record]. destruct (decide (data e = r)) as [Hd | Hd]; [| by rewrite bool_decide_true by tauto].
  rewrite (my_hash_next_spec key_of strnncoll H key i e l) by (done || by eapply no_cell). obind.
  pose proof (match_in_split key_of strnncoll (array H) key l ltac:(intros j Hj; by eapply seg_lookup)) as Hm. destruct (match_in _ _ _ _ _) as [[d j] |].
  - destruct Hm as (l1 & l2 & e' & -> & Hj & <- & _ & ->). rewrite bool_decide_true by (by right). assert (data e' ≠ r) as Hne.
    { intros Hd'. apply Hil. rewrite (record_once i j (hash_nr e) (hash_nr e')); [set_solver | |]; rewrite <- ?Hd, <- ?Hd'; [by eapply cell_live |].
      rewrite Hd, <- Hd'. by eapply cell_live. }
    destruct fuel; cbn [other_record]; by rewrite decide_False.
  - rewrite Hm, bool_decide_false by tauto. by destruct fuel.
Qed.

(** A record other than [r] that has the key is in the chain of the key. *)
Lemma match_live key d : d ∈ rs → same_key key_of strnncoll key d → ∃ i, (d, i) ∈ matches key_of strnncoll (array H) key (ch (bucket H (hash_function key))).
Proof using HT Hs Hrs Honce Hhash Hcoll.
  intros Hd Hsame. destruct (record_live d ltac:(by right)) as (i & h & Hi). exists i. destruct (live_cell _ _ _ _ _ _ _ _ _ HT Hi) as (z & Hz). apply matches_elem. split; [| by eexists].
  apply (t_in _ _ _ _ _ _ HT). exists h, d. split; [done |]. rewrite (Hhash i h d Hi) by (intros ->; done). f_equal. destruct Hsame. by apply equal_hash.
Qed.

Lemma match_record key l d i : (d, i) ∈ matches key_of strnncoll (array H) key l → d ≠ r → Exists (same_key key_of strnncoll key) rs.
Proof using HT Hrs.
  intros (_ & e & He & <- & Hsame)%matches_elem Hne. apply Exists_exists. exists (data e). split; [| done].
  destruct (live_record i (hash_nr e) (data e)) as [|]; [by eapply cell_live | done | done].
Qed.

Lemma duplicate_key_spec key : key ≠ [] →
  duplicate_key key_of strnncoll H r (hash_function key) key (Z.of_nat (length key)) =
    Ret (bool_decide (Z.land HASH_UNIQUE (flags H) ≠ 0 ∧ Exists (same_key key_of strnncoll key) rs)).
Proof using HT Hs Hrs Honce Hhash Hcoll.
  intros Hkey. unfold duplicate_key. case_bool_decide as Hu; [| by rewrite bool_decide_false by tauto]. destruct (record_live r ltac:(by left)) as (ir & hr & Hir).
  pose proof (live_range _ _ _ _ _ _ _ _ HT Hir) as Hn. unfold my_hash_first_from_hash_value. rewrite bool_decide_false by lia. set (p := bucket H (hash_function key)).
  fold (bucket H (hash_function key)). rewrite (first_search key_of strnncoll H L ch) by (done || lia). fold p. obind. set (l := search_chain ch p).
  assert (∀ i, i ∈ l → is_Some (array H !! i)) as Hcells.
  { unfold l, search_chain. case_decide; intros i Hi; [| by eapply chain_cell]. apply list_elem_of_singleton in Hi as ->. eapply in_range; [done |]. apply bucket_range; [done | lia]. }
  assert (∀ d, d ∈ rs → same_key key_of strnncoll key d → l = ch p ∧ ∃ i, (d, i) ∈ matches key_of strnncoll (array H) key (ch p)) as Hlive.
  { intros d Hd Hsame. destruct (match_live key d Hd Hsame) as (i & Hi). fold p in Hi. split; [| by exists i]. unfold l, search_chain. rewrite decide_False; [done |].
    intros Hch. rewrite Hch in Hi. by apply not_elem_of_nil in Hi. }
  pose proof (match_in_split key_of strnncoll (array H) key l Hcells) as Hm. destruct (match_in _ _ _ _ _) as [[d i] |]; cycle 1.
  { obind. destruct (size (array H)); cbn [other_record]; rewrite bool_decide_false; try done.
    all: intros [_ (d & Hd & Hsame)%Exists_exists]; destruct (Hlive d Hd Hsame) as (Hl & j & Hj); rewrite <- Hl, Hm in Hj; by apply not_elem_of_nil in Hj. }
  destruct Hm as (l1 & l2 & e & Hl & He & <- & Hsame & Hm). obind. assert (∃ l', path (array H) (next e) l' ∧ NoDup (i :: l') ∧ (l = ch p → l' = l2)) as (l' & Hp & Hnd & Hl').
  { destruct (path_from _ _ _ _ _ _ _ _ _ HT (cell_live _ _ _ _ _ _ _ _ HT He ltac:(done))) as (l' & Hp & Hnd). pose proof Hp as [_ (e' & He' & Hp')].
    assert (e' = e) as -> by congruence. exists l'. split_and!; [done | done |]. intros Hch. assert (path (array H) p (l1 ++ i :: l2)) as Hall.
    { rewrite <- Hl, Hch. apply (t_path _ _ _ _ _ _ HT). rewrite <- Hch, Hl. by destruct l1. }
    apply seg_app in Hall as (y & _ & Hy). pose proof Hy as [-> _]. pose proof (path_unique _ _ (no_cell _ _ _ _ _ _ HT) _ _ Hp Hy) as Heq. by injection Heq. }
  pose proof (seg_length _ _ i NO_RECORD Hnd ltac:(split; [done |]; by exists e)) as Hlen. cbn in Hlen. apply NoDup_cons in Hnd as [Hil _].
  rewrite (other_record_spec key i e l') by (done || lia). f_equal. apply bool_decide_ext. split.
  - intros Hor. split; [done |]. destruct (decide (data e = r)) as [Hd | Hd]; [| apply (match_record key [i] (data e) i); [apply matches_elem; split; [by left | by exists e] | done]].
    destruct Hor as [? | Hne]; [done |]. destruct (matches _ _ _ _ l') as [| [d j] ms] eqn:Hms; [done |]. assert ((d, j) ∈ matches key_of strnncoll (array H) key l') as Hj by (rewrite Hms; by left).
    apply (match_record key l' d j Hj). intros ->. apply matches_elem in Hj as (Hj & e' & He' & Hd' & _). destruct Hil.
    rewrite (record_once i j (hash_nr e) (hash_nr e')); [done | rewrite <- Hd; by eapply cell_live | rewrite <- Hd'; by eapply cell_live].
  - intros [_ (d & Hd & Hsd)%Exists_exists]. destruct (Hlive d Hd Hsd) as (Hch & j & Hj). rewrite <- Hch, Hm in Hj. apply elem_of_cons in Hj as [[= -> ->] | Hj].
    + left. intros Hr. by rewrite Hr in Hd.
    + right. rewrite (Hl' Hch). intros Hnil. rewrite Hnil in Hj. by apply not_elem_of_nil in Hj.
Qed.
End duplicates.

Section move.
Context H L ch (r : R) rs (x : Z) e.
Hypothesis HT : table (bucket H) (array H) (records H) None L ch.
Hypothesis Hs : sizes (blength H) (records H).
Hypothesis Hrs : (contents L).*2 ≡ₚ r :: rs.
Hypothesis Honce : r ∉ rs.
Hypothesis Hhash : ∀ i h d, L !! i = Some (h, d) → d ≠ r → h = hash_function (key_of d).
Hypothesis He : array H !! x = Some e.
Hypothesis Hr : data e = r.

(** The record stays in its chain. *)
Lemma update_stay : bucket H (hash_function (key_of r)) = bucket H (hash_nr e) →
  hash_table key_of hash_function (with_table (blength H) (records H) (<[x := with_hash (hash_function (key_of r)) e]> (array H)) H) (r :: rs).
Proof using HT Hs Hrs Honce Hhash He Hr.
  intros Hb. pose proof (cell_live _ _ _ _ _ _ _ _ HT He ltac:(done)) as HLx. unfold payload in HLx. rewrite Hr in HLx. exists (<[x := (hash_function (key_of r), r)]> L), ch. split_and!; [| done | |].
  - by apply (table_rehash _ _ _ _ _ _ (hash_nr e) r).
  - intros i h d. rewrite lookup_insert. case_decide as Hxi; [by intros [= <- <-] |]. intros Hi. eapply Hhash; [done |]. intros ->. destruct Hxi. by eapply record_once.
  - rewrite <- insert_delete_eq, contents_add by apply lookup_delete_eq. cbn. by rewrite <- Hrs, (contents_delete L x _ HLx).
Qed.

(** The record goes to another chain. *)
Lemma update_move p l1 l2 : ch p = l1 ++ x :: l2 → ∃ m1 hole m2,
  remove_link (array H) (last l1) x = Ret (m1, hole) ∧
  relink (blength H) (records H) m1 (bucket H (hash_function (key_of r))) hole x (hash_function (key_of r)) e = Ret m2 ∧
  hash_table key_of hash_function (with_table (blength H) (records H) m2 H) (r :: rs).
Proof using HT Hs Hrs Honce Hhash He Hr.
  intros Hch. pose proof (cell_live _ _ _ _ _ _ _ _ HT He ltac:(done)) as HLx. pose proof (live_range _ _ _ _ _ _ _ _ HT HLx) as Hn.
  destruct (remove_link_spec (bucket H) _ _ _ _ _ l1 x l2 (hash_nr e) (data e) e HT Hch He HLx) as (m1 & hole & L1 & ch1 & Hremove & HT1 & Hhole & Hc1 & Hsame).
  destruct (relink_spec (blength H) (records H) m1 hole L1 ch1 x (hash_function (key_of r)) e HT1 Hhole) as (m2 & L2 & ch2 & Hrelink & HT2 & Hc2);
    [apply (bucket_range H); [done | lia] | intros ->; by apply Hsame |].
  exists m1, hole, m2. split; [done |]. split; [done |]. rewrite Hr in Hc1, Hc2. exists L2, ch2. split_and!; [done | done | |].
  - eapply (hashes_move key_of hash_function L1 L2 [(_, _)]); [exact Hc2 | by repeat constructor |]. intros i h d Hi.
    assert ((h, d) ∈ contents L1) as Hin by (apply contents_elem; by exists i). assert ((contents L1).*2 ≡ₚ rs) as Hp.
    { apply (Permutation_cons_inv (a := r)). rewrite <- Hrs, Hc1. done. }
    assert (d ∈ rs) as Hd by (rewrite <- Hp; apply list_elem_of_fmap; by exists (h, d)). assert ((h, d) ∈ contents L) as (i' & Hi')%contents_elem by (rewrite Hc1; by right).
    eapply Hhash; [done |]. by intros ->.
  - rewrite Hc2. cbn. by rewrite <- Hrs, Hc1.
Qed.
End move.

(** Update.  The key of the record [r] has changed, and [old_of] gives the keys before the change.  [my_hash_update], called with the old
    key, fails and changes nothing if the table is unique and another record has the new key; otherwise the table is one for the new keys,
    with the same records. *)
Theorem hash_update_correct (old_of : R → str) H rs r :
  hash_table old_of hash_function H (r :: rs) → r ∉ rs → (∀ d, d ∈ rs → old_of d = key_of d) → old_of r ≠ [] → key_of r ≠ [] → ∃ res H',
  my_hash_update key_of hash_function strnncoll H r (old_of r) (Z.of_nat (length (old_of r))) = Ret (res, H') ∧
  settings H' = settings H ∧ freed H' = freed H ∧
  if bool_decide (Z.land HASH_UNIQUE (flags H) ≠ 0 ∧ Exists (same_key key_of strnncoll (key_of r)) rs) then res = 1 ∧ H' = H
  else res = 0 ∧ hash_table key_of hash_function H' (r :: rs).
Proof using Hcoll.
  intros (L & ch & HT & Hs & Hold & Hrs) Honce Hsame Hok Hnk.
  assert (∀ i h d, L !! i = Some (h, d) → d ≠ r → h = hash_function (key_of d)) as Hhash.
  { intros i h d Hi Hd. rewrite <- Hsame; [by eapply Hold |]. by destruct (live_record L r rs Hrs i h d Hi). }
  unfold my_hash_update. rewrite (duplicate_key_spec H L ch r rs) by done. obind. case_bool_decide as Hdup; [by eexists _, _ |].
  rewrite bool_decide_false by (destruct (old_of r); [done | cbn; lia]). unfold key_bytes. rewrite bool_decide_true by lia. obind. rewrite Nat2Z.id, take_ge by lia.
  destruct (record_live L r rs Hrs r ltac:(by left)) as (ir & hr & Hir). pose proof (live_range _ _ _ _ _ _ _ _ HT Hir) as Hn. assert (0 < records H) as Hpos by lia.
  fold (bucket H (hash_function (old_of r))). fold (bucket H (hash_function (key_of r))).
  destruct (find_in_table H L ch r (bucket H (hash_function (old_of r))) HT) as (res & -> & Hres); [by apply bucket_range | intros i h Hi; by rewrite (Hold i h r Hi) |].
  obind. destruct res as [[g x] |]; [| by destruct (Hres ir hr)]. destruct Hres as (l1 & l2 & e & Hch & He & <- & ->).
  pose proof (cell_live _ _ _ _ _ _ _ _ HT He ltac:(done)) as HLx. pose proof (Hold _ _ _ HLx) as Hhx.
  case_bool_decide as Hsm.
  - rewrite (set_cell_Ret _ _ _ _ He). obind. eexists _, _. split; [done |]. split; [done |]. split; [done |]. split; [done |].
    apply (update_stay H L ch); try done. by rewrite Hhx.
  - rewrite (cell_Ret _ _ _ He). obind. destruct (update_move H L ch (data e) rs x e HT Hs Hrs Honce Hhash He eq_refl _ l1 l2 Hch) as (m1 & hole & m2 & -> & Hrelink & HH).
    obind. rewrite Hrelink. obind. by eexists _, _.
Qed.
End update.

(** The record 7 gets the key 12. *)
Definition new_key (r : Z) : str := [r + 5].

Lemma hash_update_correct_witness : ∃ res H',
  my_hash_update new_key byte_hash byte_coll one_record 7 [7] 1 = Ret (res, H') ∧ settings H' = settings one_record ∧ freed H' = [] ∧
  res = 0 ∧ hash_table new_key byte_hash H' [7].
Proof.
  apply (hash_update_correct new_key byte_hash byte_coll byte_key one_record [] 7); [apply one_record_table | by intros ?%not_elem_of_nil | by intros d ?%not_elem_of_nil | done | done].
Defined.
