(* ===== verification/HashWhole.v ===== *)
(** * Hash tables: all records

    [my_hash_check] accepts every table; iterating over a table, taking its elements by index and freeing it meet every record once. *)

From stdpp Require Import functions.
From S2P Require Import Prelude Hash HashRep HashTable HashInsert HashSpec HashOps.

Section whole.
Context {R : Type} `{EqDecision R}.
Implicit Types (H : HASH R) (m : gmap Z (HASH_LINK R)) (L : gmap Z (Z * R)) (e : HASH_LINK R) (ch : Z → list Z) (rs : list R).

(** ** [my_hash_check] *)

Section check.
Context H L ch.
Hypothesis HT : table (bucket H) (array H) (records H) None L ch.

(** The cells of the chains of the first [k] buckets. *)
Definition passed (k : nat) : list Z := concat (ch <$> (Z.of_nat <$> seq 0 k)).

Lemma passed_S k : passed (S k) = passed k ++ ch (Z.of_nat k).
Proof. unfold passed. rewrite seq_S, !fmap_app, concat_app. cbn. by rewrite app_nil_r. Qed.

Lemma passed_elem k i : i ∈ passed k ↔ ∃ p, (p < k)%nat ∧ i ∈ ch (Z.of_nat p).
Proof.
  induction k as [| k IH]; [split; [by intros ?%not_elem_of_nil | intros (p & ? & _); lia] |]. rewrite passed_S, elem_of_app, IH. split.
  - intros [(p & Hp & Hi) | Hi]; [exists p; split; [lia | done] | exists k; split; [lia | done]].
  - intros (p & Hp & Hi). destruct (decide (p = k)) as [-> | Hne]; [by right | left; exists p; split; [lia | done]].
Qed.

Lemma passed_NoDup k : NoDup (passed k).
Proof using HT.
  induction k as [| k IH]; [constructor |]. rewrite passed_S. apply NoDup_app. split; [done |]. split; [| by eapply chain_NoDup].
  intros i (p & Hp & (h & d & Hi & Hh)%(t_in _ _ _ _ _ _ HT))%passed_elem (h' & d' & Hi' & Hh')%(t_in _ _ _ _ _ _ HT). rewrite Hi in Hi'. injection Hi' as <- <-. lia.
Qed.

(** The chains have all cells, and never more. *)
Lemma passed_length k : (k ≤ Z.to_nat (records H))%nat → Z.of_nat (length (passed k)) ≤ Z.max 0 (records H) ∧ (k = Z.to_nat (records H) → Z.of_nat (length (passed k)) = Z.max 0 (records H)).
Proof using HT.
  intros Hk. assert (passed k ⊆ seqZ 0 (records H)) as Hsub.
  { intros i (p & Hp & Hi)%passed_elem. apply (chain_range _ _ _ _ _ _ _ _ HT) in Hi. apply elem_of_seqZ. lia. }
  pose proof (NoDup_submseteq _ _ (passed_NoDup k) Hsub) as Hle%submseteq_length. rewrite length_seqZ in Hle. split; [lia |]. intros ->.
  assert (seqZ 0 (records H) ⊆ passed (Z.to_nat (records H))) as Hsup.
  { intros i Hi%elem_of_seqZ. destruct (in_range _ _ _ _ _ _ i HT ltac:(lia)) as [e He]. pose proof (cell_live _ _ _ _ _ _ _ _ HT He ltac:(done)) as HLi.
    pose proof (chain_of _ _ _ _ _ _ _ _ _ HT HLi) as Hin. apply passed_elem. destruct (chain_start _ _ _ _ _ _ _ _ HT Hin) as (l & Hl).
    assert (bucket H (hash_nr e) ∈ ch (bucket H (hash_nr e))) as Hb by (rewrite Hl; by left). apply (chain_range _ _ _ _ _ _ _ _ HT) in Hb.
    exists (Z.to_nat (bucket H (hash_nr e))). rewrite Z2Nat.id by lia. split; [lia | done]. }
  pose proof (NoDup_submseteq _ _ (NoDup_seqZ 0 (records H)) Hsup) as Hge%submseteq_length. rewrite length_seqZ in Hge. lia.
Qed.

Lemma check_chain_spec p : ∀ l fuel x found error,
  (length l ≤ fuel)%nat → path (array H) x l → (∀ i, i ∈ l → i ∈ ch p) → found + Z.of_nat (length l) ≤ records H →
  check_chain fuel (blength H) (records H) (array H) p x found error = Ret (found + Z.of_nat (length l), error).
Proof using HT.
  induction l as [| y l IH]; intros fuel x found error Hfuel Hp Hin Hle.
  - cbn in Hp. subst. rewrite Z.add_0_r. by destruct fuel; cbn [check_chain]; rewrite (bool_decide_false (NO_RECORD ≠ NO_RECORD)) by tauto.
  - destruct fuel as [| fuel]; [cbn in Hfuel; lia |]. destruct Hp as [-> (e & He & Hp)]. pose proof (Hin y ltac:(by left)) as Hy. pose proof (chain_range _ _ _ _ _ _ _ _ HT Hy) as Hr.
    cbn [check_chain length] in *. pose proof (no_cell _ _ _ _ _ _ HT). rewrite (bool_decide_true (y ≠ NO_RECORD)), (bool_decide_true (found < _)) by (lia || congruence). cbn [andb].
    rewrite (cell_Ret _ _ _ He). obind. rewrite (bool_decide_false (records H ≤ y)), orb_false_r by lia. apply (t_in _ _ _ _ _ _ HT) in Hy as (h & d & Hi & Hh).
    rewrite (cell_live _ _ _ _ _ _ _ _ HT He) in Hi by done. injection Hi as <- <-. rewrite bool_decide_false by (unfold my_hash_rec_mask; fold (bucket H (hash_nr e)); tauto).
    rewrite IH; [f_equal; f_equal; lia | lia | done | set_solver | lia].
Qed.
Context (key_of : R → str) (hash_function : str → Z).
Hypothesis Hhash : ∀ i h d, L !! i = Some (h, d) → h = hash_function (key_of d).

Lemma check_loop_spec todo : ∀ k, (k + todo = Z.to_nat (records H))%nat →
  check_loop key_of hash_function todo (blength H) (records H) (array H) (Z.of_nat k) (Z.of_nat (length (passed k))) false =
    Ret (Z.of_nat (length (passed (k + todo))), false).
Proof using HT Hhash.
  induction todo as [| todo IH]; intros k Hk; [by rewrite Nat.add_0_r |]. cbn [check_loop].
  destruct (in_range _ _ _ _ _ _ (Z.of_nat k) HT ltac:(lia)) as [e He]. pose proof (cell_live _ _ _ _ _ _ _ _ HT He ltac:(done)) as HLe. rewrite (cell_Ret _ _ _ He). obind.
  rewrite (bool_decide_false (hash_nr e ≠ _)) by (unfold rec_hashnr; rewrite (Hhash _ _ _ HLe); tauto). cbn [orb].
  replace (k + S todo)%nat with (S k + todo)%nat by lia. rewrite <- IH by lia. clear IH. rewrite passed_S, length_app.
  pose proof (passed_length (S k) ltac:(lia)) as [Hle _]. rewrite passed_S, length_app in Hle. unfold my_hash_rec_mask. fold (bucket H (hash_nr e)).
  replace (Z.of_nat (S k)) with (Z.of_nat k + 1) by lia. case_bool_decide as Hb.
  - pose proof (chain_of _ _ _ _ _ _ _ _ _ HT HLe) as Hin. rewrite Hb in Hin. assert (ch (Z.of_nat k) ≠ []) as Hne by (intros Hch; rewrite Hch in Hin; by apply not_elem_of_nil in Hin).
    pose proof (t_path _ _ _ _ _ _ HT _ Hne) as Hp. pose proof (seg_length _ _ _ _ (chain_NoDup _ _ _ _ _ _ _ HT) Hp) as Hsize. destruct (seg_start _ _ _ _ Hne Hp) as (l & Hl).
    rewrite Hl in Hp, Hsize, Hle |- *. destruct Hp as [_ (e' & He' & Hp)]. assert (e' = e) as -> by congruence. cbn [length] in *.
    rewrite (check_chain_spec (Z.of_nat k) l) by (done || lia || (rewrite Hl; set_solver)). obind. f_equal. lia.
  - obind. assert (ch (Z.of_nat k) = []) as ->; [| by rewrite Nat.add_0_r]. apply dec_stable. intros Hne. pose proof (t_path _ _ _ _ _ _ HT _ Hne) as Hp.
    destruct (seg_start _ _ _ _ Hne Hp) as (l & Hl). assert (Z.of_nat k ∈ ch (Z.of_nat k)) as (h & d & Hi & Hh)%(t_in _ _ _ _ _ _ HT) by (rewrite Hl; by left).
    rewrite HLe in Hi. by injection Hi as <- <-.
Qed.
End check.

(** ** Visiting all records *)

(** The records [ds] are in the cells from [i] on. *)
Definition holds m (i : Z) (ds : list R) : Prop := ∀ j d, ds !! j = Some d → ∃ e, m !! (i + Z.of_nat j) = Some e ∧ data e = d.

Lemma holds_cons m i d ds : holds m i (d :: ds) → (∃ e, m !! i = Some e ∧ data e = d) ∧ holds m (i + 1) ds.
Proof.
  intros Hds. split; [rewrite <- (Z.add_0_r i); by apply (Hds 0%nat) |]. intros j d' Hj. destruct (Hds (S j) d' Hj) as (e & He & Hd).
  exists e. split; [| done]. by replace (i + 1 + Z.of_nat j) with (i + Z.of_nat (S j)) by lia.
Qed.

(** The record in a cell, if there is one. *)
Definition slot m (i : Z) : option R := data <$> m !! i.

Lemma slots_hold m todo : ∀ k, (∀ i, k ≤ i < k + Z.of_nat todo → is_Some (m !! i)) →
  holds m k (omap (slot m) (seqZ k (Z.of_nat todo))) ∧ length (omap (slot m) (seqZ k (Z.of_nat todo))) = todo.
Proof.
  induction todo as [| todo IH]; intros k Hk; [done |]. destruct (Hk k ltac:(lia)) as [e He]. destruct (IH (k + 1)) as [Hds Hlen]; [intros i Hi; apply Hk; lia |].
  rewrite seqZ_cons by lia. replace (Z.pred (Z.of_nat (S todo))) with (Z.of_nat todo) by lia. 
  assert (∀ l, omap (slot m) (k :: l) = data e :: omap (slot m) l) as -> by (intros l; cbn [omap list_omap]; unfold slot at 1; by rewrite He).
  split; [| cbn [length]; by f_equal]. intros [| j] d Hj; [injection Hj as <-; rewrite Z.add_0_r; by exists e |]. destruct (Hds j d Hj) as (e' & He' & Hd). exists e'. split; [| done].
  by replace (k + Z.of_nat (S j)) with (k + 1 + Z.of_nat j) by lia.
Qed.

Lemma slots_contents home m n L ch : table home m n None L ch → omap (slot m) (seqZ 0 n) ≡ₚ (contents L).*2.
Proof.
  intros HT. rewrite <- (live_cells _ _ _ _ _ HT). unfold contents. assert (∀ x, x ∈ map_to_list L → slot m x.1 = Some x.2.2) as Hx.
  { intros [i [h d]] (z & Hz)%elem_of_map_to_list%(live_cell _ _ _ _ _ _ _ _ _ HT). unfold slot. cbn. by rewrite Hz. }
  induction (map_to_list L) as [| x l IH]; [done |]. cbn [fmap list_fmap omap list_omap]. rewrite (Hx x ltac:(by left)). constructor. apply IH. intros y Hy. apply Hx. by right.
Qed.

(** Applying [action] to the records in turn, until it asks to stop. *)
Fixpoint visit {A} (action : R → A → bool * A) (ds : list R) (arg : A) : bool * A :=
  match ds with
  | [] => (false, arg)
  | d :: ds => let '(stop, arg) := action d arg in if stop then (true, arg) else visit action ds arg
  end.

Lemma iterate_loop_spec {A} (action : R → A → bool * A) m ds : ∀ i arg, holds m i ds → iterate_loop (length ds) m action i arg = Ret (visit action ds arg).
Proof.
  induction ds as [| d ds IH]; intros i arg Hds; [done |]. apply holds_cons in Hds as [(e & He & <-) Hds]. cbn [length iterate_loop visit]. rewrite (cell_Ret _ _ _ He). obind.
  destruct (action (data e) arg) as [[] arg']; [done | by apply IH].
Qed.

Lemma free_loop_spec ds : ∀ i H, free H = true → holds (array H) i ds →
  free_loop (length ds) i H = Ret (mkHASH (key_length H) (blength H) (records H) (flags H) (array H) true (freed H ++ ds)).
Proof.
  induction ds as [| d ds IH]; intros i H Hfree Hds; [destruct H; cbn in *; subst; by rewrite app_nil_r |]. apply holds_cons in Hds as [(e & He & <-) Hds]. cbn [length free_loop].
  rewrite (cell_Ret _ _ _ He). obind. unfold call_free. rewrite Hfree. rewrite IH by done. cbn. by rewrite <- app_assoc.
Qed.

Context (key_of : R → str) (hash_function : str → Z).

(** All records.  On a table with the records [rs], [my_hash_check] reports no error; [my_hash_iterate] visits the records [rs], each once, in the
    order of their indices, until the action asks to stop; [my_hash_element] gives the record of an index, and NULL past
    the end; [my_hash_reset] and [my_hash_free] call [hash->free], if it is set, on every record once, and leave an
    empty table and a table without buckets. *)
Theorem hash_whole_correct H rs :
  hash_table key_of hash_function H rs →
  my_hash_check key_of hash_function H = Ret false ∧ ∃ ds, ds ≡ₚ rs ∧
  (∀ A (action : R → A → bool * A) arg, my_hash_iterate H action arg = Ret (visit action ds arg)) ∧
  (∀ i, 0 ≤ i → my_hash_element H i = Ret (ds !! Z.to_nat i)) ∧
  (∃ H', my_hash_reset H = Ret H' ∧ hash_table key_of hash_function H' [] ∧ settings H' = settings H ∧ freed H' = freed H ++ (if free H then ds else [])) ∧
  (∃ H', my_hash_free H = Ret H' ∧ blength H' = 0 ∧ records H' = 0 ∧ array H' = ∅ ∧ freed H' = freed H ++ (if free H then ds else [])).
Proof.
  intros HH. pose proof (hash_table_count _ _ _ _ HH) as Hn. destruct HH as (L & ch & HT & Hs & Hhash & Hrs). split.
  { unfold my_hash_check. pose proof (check_loop_spec H L ch HT key_of hash_function Hhash (Z.to_nat (records H)) 0 ltac:(done)) as Hc. change (Z.of_nat (length (passed ch 0))) with 0 in Hc.
    change (Z.of_nat 0) with 0 in Hc. rewrite Hc. obind. rewrite Nat.add_0_l.
    destruct (passed_length H L ch HT (Z.to_nat (records H)) ltac:(done)) as [_ ->]; [| done]. by rewrite bool_decide_false by lia. }
  destruct (slots_hold (array H) (Z.to_nat (records H)) 0) as [Hds Hlen]; [intros i Hi; apply (in_range _ _ _ _ _ _ _ HT); lia |]. rewrite Z2Nat.id in Hds, Hlen by lia.
  set (ds := omap (slot (array H)) (seqZ 0 (records H))) in *. assert (ds ≡ₚ rs) as Hp by (rewrite <- Hrs; by eapply slots_contents). exists ds. split; [done |].
  assert (my_hash_free_elements H = Ret (mkHASH (key_length H) (blength H) 0 (flags H) (array H) (free H) (freed H ++ (if free H then ds else [])))) as Hfree.
  { unfold my_hash_free_elements. cbn. destruct (free H) eqn:Hf; [| unfold with_table; by rewrite Hf, app_nil_r]. rewrite <- Hlen, free_loop_spec; done. }
  split_and!.
  - intros A action arg. unfold my_hash_iterate. rewrite <- Hlen. by apply iterate_loop_spec.
  - intros i Hi. unfold my_hash_element. case_bool_decide as Hr; [| by rewrite lookup_ge_None_2 by lia]. destruct (lookup_lt_is_Some_2 ds (Z.to_nat i) ltac:(lia)) as [d Hd].
    rewrite Hd. destruct (Hds _ _ Hd) as (e & He & <-). rewrite Z.add_0_l, Z2Nat.id in He by done. by rewrite (cell_Ret _ _ _ He).
  - unfold my_hash_reset. rewrite Hfree. obind. eexists. split; [done |]. split; [| done]. apply (init_table key_of hash_function 0 false 0).
  - unfold my_hash_free. rewrite Hfree. obind. eexists. split; [done |]. done.
Qed.
End whole.

Lemma hash_whole_correct_witness :
  my_hash_check byte_key byte_hash one_record = Ret false ∧ ∃ ds, ds ≡ₚ [7] ∧
  (∀ A (action : Z → A → bool * A) arg, my_hash_iterate one_record action arg = Ret (visit action ds arg)) ∧
  (∀ i, 0 ≤ i → my_hash_element one_record i = Ret (ds !! Z.to_nat i)) ∧
  (∃ H', my_hash_reset one_record = Ret H' ∧ hash_table byte_key byte_hash H' [] ∧ settings H' = settings one_record ∧ freed H' = ds) ∧
  (∃ H', my_hash_free one_record = Ret H' ∧ blength H' = 0 ∧ records H' = 0 ∧ array H' = ∅ ∧ freed H' = ds).
Proof. apply (hash_whole_correct byte_key byte_hash one_record [7]). apply one_record_table. Defined.
