(* ===== verification/IntStr.v ===== *)
(** * Integers and text (src/project4/mariadb/server/strings/)

    Printing and reading integers: [int2str], [int10_to_str] (int2str.c), [ll2str], [longlong10_to_str] (longlong2str.c),
    [llstr], [ullstr] (llstr.c), [my_strtoll10] (my_strtoll10.c) and [str2int] (str2int.c).

    Memory is a list of characters, numbers from 0 to 255, and a pointer is an index; an access past the end is undefined, as is signed
    arithmetic that overflows.  [long] and [long long] have 64 bits, but in [ll2str] and [longlong10_to_str], which are compiled only where
    [long] is shorter: there it has 32 bits.  The theorems are in [IntStrSpec], [StrToll] and [StrToInt]. *)

From S2P Require Import Prelude.

(** ** Machine integers *)

Definition uchar (z : Z) : Z := z mod 2 ^ 8.
Definition ulong (z : Z) : Z := z mod 2 ^ 64.
(** The conversion of an unsigned number to [long]. *)
Definition to_long (z : Z) : Z := (z + 2 ^ 63) mod 2 ^ 64 - 2 ^ 63.

Definition LONG_MIN : Z := - 2 ^ 63.
Definition LONG_MAX : Z := 2 ^ 63 - 1.
Definition ULONG_MAX : Z := 2 ^ 64 - 1.
Definition in_long (z : Z) : Prop := LONG_MIN ≤ z ≤ LONG_MAX.
#[global] Instance in_long_dec z : Decision (in_long z).
Proof. unfold in_long. apply _. Defined.

(** Signed arithmetic. *)
Definition long_op (z : Z) : outcome Z := if bool_decide (in_long z) then Ret z else UB.

(** [LONG_MAX] where [long] has 32 bits. *)
Definition LONG_MAX_32 : Z := 2 ^ 31 - 1.

Definition MY_ERRNO_EDOM : Z := 33.
Definition MY_ERRNO_ERANGE : Z := 34.

(** ** Printing *)

Definition _dig_vec_upper : list Z :=
  [48; 49; 50; 51; 52; 53; 54; 55; 56; 57; 65; 66; 67; 68; 69; 70; 71; 72; 73; 74; 75; 76; 77; 78; 79; 80; 81; 82; 83; 84; 85; 86; 87; 88; 89; 90; 0].
Definition _dig_vec_lower : list Z :=
  [48; 49; 50; 51; 52; 53; 54; 55; 56; 57; 97; 98; 99; 100; 101; 102; 103; 104; 105; 106; 107; 108; 109; 110; 111; 112; 113; 114; 115; 116; 117; 118; 119; 120; 121; 122; 0].

(** [char buffer[65]], whose last element is set to NUL; the index of that element. *)
Definition new_buffer : list Z := replicate 65 0.
Definition buffer_end : Z := 64.

(** A character is put in front. *)
Definition prepend (buffer : list Z) (p c : Z) : outcome (list Z * Z) :=
  buffer ← buffer.[p - 1 := c]; Ret (buffer, p - 1).

(** [while (val != 0)]: the digits of [val], from [digit]. *)
Fixpoint digits_loop (fuel : nat) (digit : Z → outcome Z) (radix : Z) (buffer : list Z) (p val : Z) : outcome (list Z * Z) :=
  if bool_decide (val = 0) then Ret (buffer, p)
  else
    match fuel with
    | O => NoFuel
    | S fuel =>
        c ← digit (Z.rem val radix);
        '(buffer, p) ← prepend buffer p c;
        digits_loop fuel digit radix buffer p (Z.quot val radix)
    end.

(** The last loop, which copies up to the NUL; the result has the index of the NUL written. *)
Fixpoint copy_loop (fuel : nat) (buffer : list Z) (p : Z) (mem : list Z) (dst : Z) : outcome (list Z * Z) :=
  match fuel with
  | O => NoFuel
  | S fuel =>
      c ← buffer.[p];
      mem ← mem.[dst := c];
      if bool_decide (c ≠ 0) then copy_loop fuel buffer (p + 1) mem (dst + 1) else Ret (mem, dst)
  end.

(** The sign of a signed radix; the result has [dst] and [uval]. *)
Definition put_sign (val : Z) (mem : list Z) (dst radix : Z) : outcome (list Z * Z * Z) :=
  let uval := ulong val in
  if bool_decide (radix < 0) && bool_decide (val < 0)
  then mem ← mem.[dst := 45]; Ret (mem, dst + 1, ulong (0 - uval))
  else Ret (mem, dst, uval).

(** The result has the memory, and the pointer returned, or [None] for NullS. *)
Definition int2str (val : Z) (mem : list Z) (dst radix : Z) (upcase : bool) : outcome (list Z * option Z) :=
  let dig_vec := if upcase then _dig_vec_upper else _dig_vec_lower in
  if bool_decide (radix < 0) && (bool_decide (radix < -36) || bool_decide (radix > -2)) then Ret (mem, None)
  else if negb (bool_decide (radix < 0)) && (bool_decide (radix > 36) || bool_decide (radix < 2)) then Ret (mem, None)
  else
    '(mem, dst, uval) ← put_sign val mem dst radix;
    let radix := Z.abs radix in
    let new_val := to_long (uval / radix) in
    c ← dig_vec.[uchar (ulong (uval - ulong (ulong new_val * radix)))];
    '(buffer, p) ← prepend new_buffer buffer_end c;
    '(buffer, p) ← digits_loop 65 (λ d, dig_vec.[d]) radix buffer p new_val;
    '(mem, dst) ← copy_loop 65 buffer p mem dst;
    Ret (mem, Some dst).

Definition int10_to_str (val : Z) (mem : list Z) (dst radix : Z) : outcome (list Z * Z) :=
  '(mem, dst, uval) ← put_sign val mem dst radix;
  let new_val := to_long (uval / 10) in
  '(buffer, p) ← prepend new_buffer buffer_end (48 + ulong (uval - ulong (ulong new_val * 10)));
  '(buffer, p) ← digits_loop 65 (λ d, Ret (48 + d)) 10 buffer p new_val;
  copy_loop 65 buffer p mem dst.

(** [while (uval > (ulonglong) LONG_MAX)], on unsigned numbers. *)
Fixpoint ulong_loop (fuel : nat) (digit : Z → outcome Z) (radix : Z) (buffer : list Z) (p uval : Z) : outcome (list Z * Z * Z) :=
  if bool_decide (uval > LONG_MAX_32) then
    match fuel with
    | O => NoFuel
    | S fuel =>
        let quo := uval / radix in
        c ← digit (uval - quo * radix);
        '(buffer, p) ← prepend buffer p c;
        ulong_loop fuel digit radix buffer p quo
    end
  else Ret (buffer, p, uval).

(** The digits of [uval], the last 31 bits of it as a [long]. *)
Definition ll_digits (digit : Z → outcome Z) (radix uval : Z) (mem : list Z) (dst : Z) : outcome (list Z * Z) :=
  if bool_decide (uval = 0) then mem ← mem.[dst := 48]; mem ← mem.[dst + 1 := 0]; Ret (mem, dst + 1)
  else
    '(buffer, p, uval) ← ulong_loop 65 digit radix new_buffer buffer_end uval;
    '(buffer, p) ← digits_loop 65 digit radix buffer p uval;
    copy_loop 65 buffer p mem dst.

Definition ll2str (val : Z) (mem : list Z) (dst radix : Z) (upcase : bool) : outcome (list Z * option Z) :=
  let dig_vec := if upcase then _dig_vec_upper else _dig_vec_lower in
  if bool_decide (radix < 0) && (bool_decide (radix < -36) || bool_decide (radix > -2)) then Ret (mem, None)
  else if negb (bool_decide (radix < 0)) && (bool_decide (radix > 36) || bool_decide (radix < 2)) then Ret (mem, None)
  else
    '(mem, dst, uval) ← put_sign val mem dst radix;
    '(mem, dst) ← ll_digits (λ d, dig_vec.[d]) (Z.abs radix) uval mem dst;
    Ret (mem, Some dst).

Definition longlong10_to_str (val : Z) (mem : list Z) (dst radix : Z) : outcome (list Z * Z) :=
  '(mem, dst, uval) ← put_sign val mem dst radix;
  ll_digits (λ d, _dig_vec_upper.[d]) 10 uval mem dst.

(** [llstr] and [ullstr] call [longlong10_to_str], which is [int10_to_str] where [long] has 64 bits. *)
Definition llstr (value : Z) (mem : list Z) (buff : Z) : outcome (list Z * Z) :=
  '(mem, _) ← int10_to_str value mem buff (-10); Ret (mem, buff).
Definition ullstr (value : Z) (mem : list Z) (buff : Z) : outcome (list Z * Z) :=
  '(mem, _) ← int10_to_str value mem buff 10; Ret (mem, buff).

(** ** Reading: [my_strtoll10] *)

Definition MAX_NEGATIVE_NUMBER : Z := 0x8000000000000000.
Definition INIT_CNT : Z := 9.
Definition LFACTOR : Z := 1000000000.
Definition LFACTOR1 : Z := 10000000000.
Definition LFACTOR2 : Z := 100000000000.
Definition lfactor : list Z := [1; 10; 100; 1000; 10000; 100000; 1000000; 10000000; 100000000].

Definition is_blank (c : Z) : bool := bool_decide (c = 32) || bool_decide (c = 9).

(** The blanks before [end]. *)
Fixpoint skip_until (fuel : nat) (mem : list Z) (s end_ : Z) : outcome Z :=
  if bool_decide (s = end_) then Ret s
  else
    match fuel with
    | O => NoFuel
    | S fuel => c ← mem.[s]; if is_blank c then skip_until fuel mem (s + 1) end_ else Ret s
    end.

(** The blanks of a string that ends in NUL. *)
Fixpoint skip_blanks (fuel : nat) (mem : list Z) (s : Z) : outcome Z :=
  match fuel with
  | O => NoFuel
  | S fuel => c ← mem.[s]; if is_blank c then skip_blanks fuel mem (s + 1) else Ret s
  end.

(** The value of a character as a digit, above 9 for other characters. *)
Definition digit_at (mem : list Z) (s : Z) : outcome Z := c ← mem.[s]; Ret (uchar (c - 48)).

(** What the function gives: its value, where it stopped, and the error. *)
Record number := mkNumber { n_value : Z; n_stop : Z; n_error : Z }.

(** The labels [no_conv] and [overflow]. *)
Definition no_conv (nptr : Z) : number := mkNumber 0 nptr MY_ERRNO_EDOM.
Definition overflow (negative : bool) (stop : Z) : number := mkNumber (if negative then LONG_MIN else to_long ULONG_MAX) stop MY_ERRNO_ERANGE.

(** The end of the labels [end_i], [end_i_and_j], [end3] and [end4]: the number [li] with its sign. *)
Definition signed (negative : bool) (li stop error : Z) : outcome number :=
  v ← (if negative then long_op (- to_long li) else Ret (to_long li)); Ret (mkNumber v stop error).

(** The leading zeros after the first; whether they reach [end]. *)
Fixpoint zeros_loop (fuel : nat) (mem : list Z) (s end_ : Z) : outcome (Z * bool) :=
  match fuel with
  | O => NoFuel
  | S fuel =>
      let s := s + 1 in
      if bool_decide (s = end_) then Ret (s, true)
      else c ← mem.[s]; if bool_decide (c = 48) then zeros_loop fuel mem s end_ else Ret (s, false)
  end.

(** The digits up to [n_end]; whether there was another character before it. *)
Fixpoint digits_until (fuel : nat) (mem : list Z) (s n_end i : Z) : outcome (Z * Z * bool) :=
  if bool_decide (s = n_end) then Ret (s, i, false)
  else
    match fuel with
    | O => NoFuel
    | S fuel =>
        c ← digit_at mem s;
        if bool_decide (c > 9) then Ret (s, i, true) else digits_until fuel mem (s + 1) n_end (ulong (i * 10 + c))
    end.

(** The labels [end3] and [end4]: eighteen digits, and nineteen. *)
Definition end3 (i j s : Z) (negative : bool) (error : Z) : outcome number := signed negative (ulong (ulong (i * LFACTOR) + j)) s error.
Definition end4 (i j k s : Z) (negative : bool) (error : Z) : outcome number :=
  let li := ulong (ulong (ulong (i * LFACTOR1) + ulong (j * 10)) + k) in
  if negative && bool_decide (li > MAX_NEGATIVE_NUMBER) then Ret (overflow negative s) else signed negative li s error.

(** After eighteen digits: at most two more. *)
Definition last_digits (mem : list Z) (s end_ i j : Z) (negative : bool) (error : Z) : outcome number :=
  if bool_decide (s = end_) then end3 i j s negative error
  else
    c ← digit_at mem s;
    if bool_decide (c > 9) then end3 i j s negative error
    else
      let k := c in
      let s := s + 1 in
      if bool_decide (s = end_) then end4 i j k s negative error
      else
        c ← digit_at mem s;
        if bool_decide (c > 9) then end4 i j k s negative error
        else
          let k := ulong (k * 10 + c) in
          let s := s + 1 in
          more ← (if bool_decide (s ≠ end_) then c ← digit_at mem s; Ret (bool_decide (c ≤ 9)) else Ret false);
          let max := if negative then MAX_NEGATIVE_NUMBER else ULONG_MAX in
          let cutoff := max / LFACTOR2 in
          let cutoff2 := max mod LFACTOR2 / 100 in
          let cutoff3 := max mod 100 in
          if (more : bool) then Ret (overflow negative s)
          else if bool_decide (i > cutoff ∨ i = cutoff ∧ (j > cutoff2 ∨ j = cutoff2 ∧ k > cutoff3)) then Ret (overflow negative s)
          else Ret (mkNumber (to_long (ulong (ulong (ulong (i * LFACTOR2) + ulong (j * 100)) + k))) s error).

(** The digits after the leading zeros or the first digit, the first part of them up to [n_end]. *)
Definition read_digits (mem : list Z) (s n_end end_ i : Z) (negative : bool) (error : Z) : outcome number :=
  '(s, i, stopped) ← digits_until 9 mem s (if bool_decide (n_end > end_) then end_ else n_end) i;
  if stopped || bool_decide (s = end_) then signed negative i s error
  else
    let start := s in
    let true_end := s + INIT_CNT in
    let n_end := if bool_decide (true_end > end_) then end_ else true_end in
    '(s, j, stopped) ← digits_until 9 mem s n_end 0;
    if stopped || bool_decide (s = end_) && bool_decide (s ≠ true_end)
    then f ← lfactor.[s - start]; signed negative (ulong (ulong (i * f) + j)) s error
    else last_digits mem s end_ i j negative error.

(** After the sign, with [s] not at [end]. *)
Definition read_unsigned (mem : list Z) (nptr s end_ : Z) (negative : bool) (error : Z) : outcome number :=
  c ← mem.[s];
  if bool_decide (c = 48) then
    '(s, at_end) ← zeros_loop (S (length mem)) mem s end_;
    if (at_end : bool) then signed negative 0 s error else read_digits mem s (s + INIT_CNT) end_ 0 negative error
  else
    c ← digit_at mem s;
    if bool_decide (c > 9) then Ret (no_conv nptr) else read_digits mem (s + 1) (s + 1 + INIT_CNT - 1) end_ c negative error.

(** After the blanks, with [s] not at [end]. *)
Definition read_number (mem : list Z) (nptr s end_ : Z) : outcome number :=
  c ← mem.[s];
  let negative := bool_decide (c = 45) in
  let error := if negative then -1 else 0 in
  let s := if negative || bool_decide (c = 43) then s + 1 else s in
  if bool_decide (s = end_) then Ret (no_conv nptr) else read_unsigned mem nptr s end_ negative error.

(** [endptr] is [None] for NULL. *)
Definition my_strtoll10 (mem : list Z) (nptr : Z) (endptr : option Z) : outcome number :=
  match endptr with
  | Some end_ =>
      s ← skip_until (length mem) mem nptr end_;
      if bool_decide (s = end_) then Ret (no_conv nptr) else read_number mem nptr s end_
  | None =>
      s ← skip_blanks (S (length mem)) mem nptr;
      c ← mem.[s];
      if bool_decide (c = 0) then Ret (no_conv nptr) else read_number mem nptr s (s + 65535)
  end.

(** ** Reading: [str2int] *)

Definition ctype_latin1 : list Z :=
  [
   0;
   32; 32; 32; 32; 32; 32; 32; 32; 32; 40; 40; 40; 40; 40; 32; 32;
   32; 32; 32; 32; 32; 32; 32; 32; 32; 32; 32; 32; 32; 32; 32; 32;
   72; 16; 16; 16; 16; 16; 16; 16; 16; 16; 16; 16; 16; 16; 16; 16;
   132; 132; 132; 132; 132; 132; 132; 132; 132; 132; 16; 16; 16; 16; 16; 16;
   16; 129; 129; 129; 129; 129; 129; 1; 1; 1; 1; 1; 1; 1; 1; 1;
   1; 1; 1; 1; 1; 1; 1; 1; 1; 1; 1; 16; 16; 16; 16; 16;
   16; 130; 130; 130; 130; 130; 130; 2; 2; 2; 2; 2; 2; 2; 2; 2;
   2; 2; 2; 2; 2; 2; 2; 2; 2; 2; 2; 16; 16; 16; 16; 32;
   16; 0; 16; 2; 16; 16; 16; 16; 16; 16; 1; 16; 1; 0; 1; 0;
   0; 16; 16; 16; 16; 16; 16; 16; 16; 16; 2; 16; 2; 0; 2; 1;
   72; 16; 16; 16; 16; 16; 16; 16; 16; 16; 16; 16; 16; 16; 16; 16;
   16; 16; 16; 16; 16; 16; 16; 16; 16; 16; 16; 16; 16; 16; 16; 16;
   1; 1; 1; 1; 1; 1; 1; 1; 1; 1; 1; 1; 1; 1; 1; 1;
   1; 1; 1; 1; 1; 1; 1; 16; 1; 1; 1; 1; 1; 1; 1; 2;
   2; 2; 2; 2; 2; 2; 2; 2; 2; 2; 2; 2; 2; 2; 2; 2;
   2; 2; 2; 2; 2; 2; 2; 16; 2; 2; 2; 2; 2; 2; 2; 2].
Definition _MY_SPC : Z := 8.

(** [my_isspace(&my_charset_latin1, c)]. *)
Definition my_isspace (c : Z) : outcome bool := t ← ctype_latin1.[1 + uchar c]; Ret (bool_decide (Z.land t _MY_SPC ≠ 0)).

Definition char_val (x : Z) : Z :=
  if bool_decide (48 ≤ x ≤ 57) then x - 48
  else if bool_decide (65 ≤ x ≤ 90) then x - 65 + 10
  else if bool_decide (97 ≤ x ≤ 122) then x - 97 + 10
  else 127.

Fixpoint skip_spaces (fuel : nat) (mem : list Z) (src : Z) : outcome Z :=
  match fuel with
  | O => NoFuel
  | S fuel =>
      c ← mem.[src];
      sp ← my_isspace c;
      if (sp : bool) then skip_spaces fuel mem (src + 1) else Ret src
  end.

Fixpoint skip_zeros (fuel : nat) (mem : list Z) (src : Z) : outcome Z :=
  match fuel with
  | O => NoFuel
  | S fuel => c ← mem.[src]; if bool_decide (c = 48) then skip_zeros fuel mem (src + 1) else Ret src
  end.

(** At most twenty digits; [digits] has the first [n] elements of the array. *)
Fixpoint scan_digits (fuel : nat) (mem : list Z) (radix src : Z) (digits : list Z) : outcome (Z * list Z) :=
  match fuel with
  | O => NoFuel
  | S fuel =>
      c ← mem.[src];
      if bool_decide (char_val c < radix) && bool_decide (Z.of_nat (length digits) < 20)
      then scan_digits fuel mem radix (src + 1) (digits ++ [char_val c])
      else Ret (src, digits)
  end.

(** The loop from the last digit to the second; [None] is the error ERANGE. *)
Fixpoint convert (fuel : nat) (digits : list Z) (radix n limit sofar scale : Z) : outcome (option (Z * Z * Z * Z)) :=
  let n := n - 1 in
  if bool_decide (1 ≤ n) then
    match fuel with
    | O => NoFuel
    | S fuel =>
        d ← digits.[n];
        if bool_decide (- d < limit) then Ret None
        else
          rest ← long_op (limit + d);
          prod ← long_op (d * scale);
          sofar ← long_op (sofar + prod);
          scale ← long_op (scale * radix);
          convert fuel digits radix n (Z.quot rest radix) sofar scale
    end
  else Ret (Some (n, limit, sofar, scale)).

(** The first digit. *)
Definition last_digit (digits : list Z) (r : option (Z * Z * Z * Z)) : outcome (option Z) :=
  match r with
  | None => Ret None
  | Some (n, limit, sofar, scale) =>
      if bool_decide (n = 0) then
        d ← digits.[n];
        if bool_decide (- d < limit) then Ret None
        else prod ← long_op (d * scale); sofar ← long_op (sofar + prod); Ret (Some sofar)
      else Ret (Some sofar)
  end.

(** The negated value of the digits, or [None] if it is below [limit]. *)
Definition to_number (digits : list Z) (radix limit : Z) : outcome (option Z) :=
  r ← convert 20 digits radix (Z.of_nat (length digits)) limit 0 (-1);
  last_digit digits r.

(** The pointer returned, [None] for NullS; the number in [val]; [errno]. *)
Record integer := mkInteger { i_result : option Z; i_val : Z; i_errno : Z }.
Definition failure (errno : Z) : integer := mkInteger None 0 errno.

Definition str2int (mem : list Z) (src radix lower upper : Z) : outcome integer :=
  limit ← (if bool_decide (lower > 0) then long_op (- lower) else Ret lower);
  scale ← (if bool_decide (upper > 0) then long_op (- upper) else Ret upper);
  let limit := if bool_decide (scale < limit) then scale else limit in
  src ← skip_spaces (S (length mem)) mem src;
  c ← mem.[src];
  let '(src, sign) := if bool_decide (c = 43) then (src + 1, -1) else if bool_decide (c = 45) then (src + 1, 1) else (src, -1) in
  let start := src in
  src ← skip_zeros (S (length mem)) mem src;
  '(src, digits) ← scan_digits 21 mem radix src [];
  if bool_decide (start = src) then Ret (failure MY_ERRNO_EDOM)
  else
    sofar ← to_number digits radix limit;
    match sofar with
    | None => Ret (failure MY_ERRNO_ERANGE)
    | Some sofar =>
        if bool_decide (sign < 0) then
          if bool_decide (sofar < - LONG_MAX) then Ret (failure MY_ERRNO_ERANGE)
          else
            sofar ← long_op (- sofar);
            if bool_decide (sofar > upper) then Ret (failure MY_ERRNO_ERANGE) else Ret (mkInteger (Some src) sofar 0)
        else if bool_decide (sofar < lower) then Ret (failure MY_ERRNO_ERANGE)
        else Ret (mkInteger (Some src) sofar 0)
    end.
