(* ===== verification/IntStrSpec.v ===== *)
(** * Integers and text: printing

    The numeral of a number in a radix ([numeral]), and the theorem that every printing function writes it. *)

From S2P Require Import Prelude IntStr.

Ltac long_range := unfold in_long, LONG_MIN, LONG_MAX in *; lia.

Lemma long_op_Ret z : in_long z → long_op z = Ret z.
Proof. intros Hz. unfold long_op. by rewrite bool_decide_true. Qed.

(** ** Numerals *)

(** The value of the digits [ds], the most significant first. *)
Definition value (r : Z) (ds : list Z) : Z := foldl (λ a d, a * r + d) 0 ds.

Lemma foldl_value r ds : ∀ a, foldl (λ a d, a * r + d) a ds = a * r ^ Z.of_nat (length ds) + value r ds.
Proof.
  induction ds as [| d ds IH]; intros a; [cbn; lia |]. unfold value. cbn [foldl length]. rewrite !IH. rewrite Nat2Z.inj_succ, Z.pow_succ_r by lia. lia.
Qed.

Lemma value_app r ds ds' : value r (ds ++ ds') = value r ds * r ^ Z.of_nat (length ds') + value r ds'.
Proof. unfold value at 1. rewrite foldl_app. apply foldl_value. Qed.

Lemma value_snoc r ds d : value r (ds ++ [d]) = value r ds * r + d.
Proof. unfold value. by rewrite foldl_app. Qed.

Lemma value_cons r d ds : value r (d :: ds) = d * r ^ Z.of_nat (length ds) + value r ds.
Proof. unfold value at 1. cbn [foldl]. rewrite foldl_value. lia. Qed.

Definition digit_list (r : Z) (ds : list Z) : Prop := Forall (λ d, 0 ≤ d < r) ds.

Lemma value_bound r ds : 0 < r → digit_list r ds → 0 ≤ value r ds < r ^ Z.of_nat (length ds).
Proof.
  intros Hr. induction ds as [| d ds IH] using rev_ind; intros Hds; [cbn; lia |]. apply Forall_app in Hds as [Hds Hd%Forall_inv]. specialize (IH Hds).
  rewrite value_snoc, length_app, Nat2Z.inj_add, Z.pow_add_r by lia. change (r ^ Z.of_nat (length [d])) with (r ^ 1). rewrite Z.pow_1_r.
  nia.
Qed.

(** The digits of [n] without leading zeros, none for 0. *)
Definition repr (r n : Z) (ds : list Z) : Prop := digit_list r ds ∧ value r ds = n ∧ head ds ≠ Some 0.

Lemma head_of_snoc {A} (l : list A) x y : head (l ++ [x]) ≠ Some y → head l ≠ Some y.
Proof. by destruct l. Qed.

Lemma repr_pos r n ds : 0 < r → repr r n ds → ds ≠ [] → r ^ (Z.of_nat (length ds) - 1) ≤ n.
Proof.
  intros Hr (Hds & <- & Hh) Hne. destruct ds as [| d ds]; [done |]. apply Forall_cons in Hds as [Hd Hds]. pose proof (value_bound r ds Hr Hds). rewrite value_cons.
  cbn [length head] in *. assert (d ≠ 0) by congruence. replace (Z.of_nat (S (length ds)) - 1) with (Z.of_nat (length ds)) by lia. nia.
Qed.

Lemma repr_zero r ds : 0 < r → repr r 0 ds → ds = [].
Proof.
  intros Hr Hds. destruct ds as [| d ds]; [done |]. pose proof (repr_pos r 0 (d :: ds) Hr Hds ltac:(done)). pose proof (Z.pow_pos_nonneg r (Z.of_nat (length (d :: ds)) - 1)). cbn in *. lia.
Qed.

Lemma repr_snoc r n ds d : 0 < r → repr r n (ds ++ [d]) → n ≠ 0 ∧ n / r = value r ds ∧ n mod r = d ∧ repr r (n / r) ds ∧ 0 ≤ d < r.
Proof.
  intros Hr Hds. pose proof (repr_pos r n _ Hr Hds) as Hpos. destruct Hds as (Hds & <- & Hh). apply Forall_app in Hds as [Hds Hd%Forall_inv]. rewrite value_snoc in *.
  assert ((value r ds * r + d) / r = value r ds) as Hq by (rewrite Z.div_add_l by lia; rewrite Z.div_small; lia). split_and!; try lia; try done.
  - specialize (Hpos ltac:(by destruct ds)). rewrite length_app in Hpos. cbn in Hpos. pose proof (Z.pow_pos_nonneg r (Z.of_nat (length ds + 1) - 1)). lia.
  - rewrite Z.add_comm, Z.mod_add, Z.mod_small by lia. done.
  - rewrite Hq. split; [done |]. split; [done |]. by eapply head_of_snoc.
Qed.

Lemma repr_exists r (m : nat) : 1 < r → ∀ n, 0 ≤ n < r ^ Z.of_nat m → ∃ ds, repr r n ds ∧ (length ds ≤ m)%nat.
Proof.
  intros Hr. induction m as [| m IH]; intros n Hn; [exists []; split; [| cbn; lia]; split_and!; [constructor | cbn in *; lia | done] |].
  destruct (decide (n = 0)) as [-> | Hn0]; [exists []; split; [by split_and!; [constructor | |] | cbn; lia] |].
  destruct (IH (n / r)) as (ds & (Hds & Hv & Hh) & Hlen).
  { split; [by apply Z.div_pos; lia |]. apply Z.div_lt_upper_bound; [lia |]. rewrite Nat2Z.inj_succ, Z.pow_succ_r in Hn by lia. lia. }
  pose proof (Z.mod_pos_bound n r ltac:(lia)) as Hm. pose proof (Z.div_mod n r ltac:(lia)) as Hdm. exists (ds ++ [n mod r]). split; [| rewrite length_app; cbn; lia]. split_and!.
  - apply Forall_app. split; [done |]. by apply Forall_singleton.
  - rewrite value_snoc, Hv. lia.
  - destruct ds as [| d ds]; [| done]. change (value r []) with 0 in Hv. cbn. intros [= Hmod]. lia.
Qed.

(** The numeral of [n]: its digits without leading zeros, and 0 for the number 0. *)
Definition numeral (r n : Z) (ds : list Z) : Prop := digit_list r ds ∧ value r ds = n ∧ ds ≠ [] ∧ (head ds = Some 0 → ds = [0]).

Lemma numeral_snoc r n ds : 1 < r → 0 ≤ n → repr r (n / r) ds → numeral r n (ds ++ [n mod r]).
Proof.
  intros Hr Hn (Hds & Hv & Hh). pose proof (Z.mod_pos_bound n r ltac:(lia)). pose proof (Z.div_mod n r ltac:(lia)). split_and!.
  - apply Forall_app. split; [done |]. by apply Forall_singleton.
  - rewrite value_snoc. lia.
  - by destruct ds.
  - destruct ds as [| d ds]; cbn in *; [by intros [= ->] | done].
Qed.

Lemma repr_numeral r n ds : 1 < r → 0 < n → repr r n ds → numeral r n ds.
Proof. intros Hr Hn (Hds & Hv & Hh). split_and!; [done | done | intros ->; cbn in Hv; lia | done]. Qed.

(** A number has one numeral. *)
Lemma repr_unique r ds : 1 < r → ∀ n ds', repr r n ds → repr r n ds' → ds = ds'.
Proof.
  intros Hr. induction ds as [| d ds IH] using rev_ind; intros n ds' Hds Hds'.
  - destruct Hds as (_ & <- & _). symmetry. by apply (repr_zero r ds' ltac:(lia)).
  - apply repr_snoc in Hds as (Hn & _ & Hd & Hds & _); [| lia]. induction ds' as [| d' ds' _] using rev_ind; [destruct Hds' as (_ & <- & _); by cbn in Hn |].
    apply repr_snoc in Hds' as (_ & _ & Hd' & Hds' & _); [| lia]. rewrite (IH _ _ Hds Hds'). congruence.
Qed.

(** ** Loops *)

Section loops.
Context (r : Z) (digit : Z → outcome Z) (char : Z → Z).
Hypothesis Hr : 1 < r.
Hypothesis Hdigit : ∀ d, 0 ≤ d < r → digit d = Ret (char d).

Lemma prepend_spec k w c : (0 < k)%nat → prepend (replicate k 0 ++ w) (Z.of_nat k) c = Ret (replicate (k - 1) 0 ++ c :: w, Z.of_nat (k - 1)).
Proof.
  intros Hk. unfold prepend. destruct k as [| k]; [lia |]. replace (Z.of_nat (S k) - 1) with (Z.of_nat k) by lia.
  rewrite vset_nat by (rewrite length_app, length_replicate; lia). obind. replace (S k - 1)%nat with k by lia. do 3 f_equal.
  rewrite replicate_S_end, <- (app_assoc (replicate k 0)). by rewrite insert_app_r_alt, length_replicate, Nat.sub_diag by (rewrite length_replicate; lia).
Qed.

Lemma digits_loop_spec ds : ∀ fuel k w val, repr r val ds → (length ds ≤ fuel)%nat → (length ds ≤ k)%nat →
  digits_loop fuel digit r (replicate k 0 ++ w) (Z.of_nat k) val = Ret (replicate (k - length ds) 0 ++ (char <$> ds) ++ w, Z.of_nat (k - length ds)).
Proof.
  induction ds as [| d ds IH] using rev_ind; intros fuel k w val Hds Hfuel Hk.
  - destruct Hds as (_ & <- & _). rewrite Nat.sub_0_r. by destruct fuel.
  - apply repr_snoc in Hds as (Hn & Hq & Hd & Hds & Hrange); [| lia]. rewrite length_app in *. cbn [length] in *. destruct fuel as [| fuel]; [lia |].
    pose proof Hds as (Hl & Hv & _). pose proof (value_bound r ds ltac:(lia) Hl). assert (0 ≤ val) by (pose proof (Z.div_mod val r ltac:(lia)); nia).
    cbn [digits_loop]. rewrite bool_decide_false by done. rewrite Z.rem_mod_nonneg, Z.quot_div_nonneg by lia. rewrite Hd, Hdigit by done. obind.
    rewrite prepend_spec by lia. obind. rewrite IH by (done || lia). rewrite fmap_app, <- app_assoc. do 2 f_equal; [f_equal |]; f_equal; lia.
Qed.

(** The digits above 31 bits, and then the rest. *)
Lemma ulong_loop_spec ds : ∀ fuel k w val, repr r val ds → (length ds ≤ fuel)%nat → (length ds ≤ k)%nat → (length ds ≤ 65)%nat →
  ('(buffer, p, uval) ← ulong_loop fuel digit r (replicate k 0 ++ w) (Z.of_nat k) val; digits_loop 65 digit r buffer p uval) =
    Ret (replicate (k - length ds) 0 ++ (char <$> ds) ++ w, Z.of_nat (k - length ds)).
Proof.
  induction ds as [| d ds IH] using rev_ind; intros fuel k w val Hds Hfuel Hk H65.
  - pose proof Hds as (_ & Hv & _). cbn in Hv. subst val. destruct fuel; cbn [ulong_loop]; rewrite bool_decide_false by done; obind; by apply (digits_loop_spec []).
  - destruct fuel as [| fuel]; [rewrite length_app in *; cbn in *; lia |]. cbn [ulong_loop]. case_bool_decide as Hbig; [| by apply digits_loop_spec].
    apply repr_snoc in Hds as (Hn & Hq & Hd & Hds & Hrange); [| lia]. rewrite length_app in *. cbn [length] in *.
    pose proof (Z.div_mod val r ltac:(lia)). replace (val - val / r * r) with d by lia. rewrite Hdigit by done. obind. rewrite prepend_spec by lia. obind.
    rewrite IH by (done || lia). rewrite fmap_app, <- app_assoc. do 2 f_equal; [f_equal |]; f_equal; lia.
Qed.
End loops.

Lemma copy_loop_spec text : ∀ fuel A p M1 X M2,
  (length text < fuel)%nat → Forall (λ c, c ≠ 0) text → p = length A → length X = S (length text) →
  copy_loop fuel (A ++ text ++ [0]) (Z.of_nat p) (M1 ++ X ++ M2) (Z.of_nat (length M1)) = Ret (M1 ++ text ++ [0] ++ M2, Z.of_nat (length M1 + length text)).
Proof.
  induction text as [| c text IH]; intros fuel A p M1 X M2 Hfuel Hnz -> HX; (destruct fuel as [| fuel]; [cbn in *; lia |]); cbn [copy_loop].
  - destruct X as [| x [| ? ?]]; try done. rewrite (vget_nat _ _ 0) by (by rewrite lookup_app_r, Nat.sub_diag by lia). obind.
    rewrite vset_nat by (rewrite !length_app; cbn; lia). obind. rewrite insert_app_r_alt, Nat.sub_diag by lia. cbn. by rewrite Nat.add_0_r.
  - destruct X as [| x X]; [done |]. apply Forall_cons in Hnz as [Hc Hnz]. rewrite (vget_nat _ _ c) by (by rewrite lookup_app_r, Nat.sub_diag by lia). obind.
    rewrite vset_nat by (rewrite !length_app; cbn; lia). obind. rewrite insert_app_r_alt, Nat.sub_diag by lia. cbn [insert list_insert app]. rewrite bool_decide_true by done.
    specialize (IH fuel (A ++ [c]) (S (length A)) (M1 ++ [c]) X M2 ltac:(cbn in *; lia) Hnz ltac:(rewrite length_app; cbn; lia) ltac:(cbn in *; lia)).
    rewrite <- !app_assoc, length_app in IH. cbn [app length] in IH. replace (Z.of_nat (length A) + 1) with (Z.of_nat (S (length A))) by lia.
    replace (Z.of_nat (length M1) + 1) with (Z.of_nat (length M1 + 1)) by lia. cbn [app]. rewrite IH. do 2 f_equal. cbn [length]. lia.
Qed.

(** ** Printing *)

Definition dig_vec (upcase : bool) : list Z := if upcase then _dig_vec_upper else _dig_vec_lower.
Definition char_of (upcase : bool) (d : Z) : Z := default 0 (dig_vec upcase !! Z.to_nat d).

Lemma dig_vec_char upcase d : 0 ≤ d < 36 → (dig_vec upcase).[d] = Ret (char_of upcase d).
Proof.
  intros Hd. unfold vget, char_of. rewrite bool_decide_true by lia. destruct (lookup_lt_is_Some_2 (dig_vec upcase) (Z.to_nat d)) as [c ->]; [destruct upcase; cbn; lia | done].
Qed.

Lemma char_of_nonzero upcase d : 0 ≤ d < 36 → char_of upcase d ≠ 0.
Proof.
  intros Hd. assert (Forall (λ d, char_of upcase d ≠ 0) (seqZ 0 36)) as Hall by (destruct upcase; apply (bool_decide_unpack _); vm_compute; done).
  rewrite Forall_forall in Hall. apply Hall, elem_of_seqZ. lia.
Qed.

Lemma char_of_decimal upcase d : 0 ≤ d < 10 → char_of upcase d = 48 + d.
Proof.
  intros Hd. assert (Forall (λ d, char_of upcase d = 48 + d) (seqZ 0 10)) as Hall by (destruct upcase; apply (bool_decide_unpack _); vm_compute; done).
  rewrite Forall_forall in Hall. apply Hall, elem_of_seqZ. lia.
Qed.

Lemma chars_nonzero upcase r ds : r ≤ 36 → digit_list r ds → Forall (λ c, c ≠ 0) (char_of upcase <$> ds).
Proof. intros Hr Hds. apply Forall_fmap. eapply Forall_impl; [exact Hds |]. intros d Hd. cbn in Hd. apply char_of_nonzero. lia. Qed.

(** The number printed and its sign. *)
Definition magnitude (val radix : Z) : Z := if decide (radix < 0) then Z.abs val else ulong val.
Definition sign_of (val radix : Z) : list Z := if decide (radix < 0 ∧ val < 0) then [45] else [].

Lemma ulong_long val : in_long val → ulong val = if decide (val < 0) then val + 2 ^ 64 else val.
Proof.
  unfold in_long, LONG_MIN, LONG_MAX, ulong. intros Hv. case_decide; [symmetry; apply (Z.mod_unique _ _ (-1)); lia | apply Z.mod_small; lia].
Qed.

Lemma magnitude_range val radix : in_long val → 0 ≤ magnitude val radix < 2 ^ 64.
Proof. intros Hv. unfold magnitude. rewrite (ulong_long val Hv). unfold in_long, LONG_MIN, LONG_MAX in Hv. repeat case_decide; lia. Qed.

Lemma put_sign_spec val radix M1 X M2 n : in_long val → length X = (length (sign_of val radix) + n)%nat → ∃ X', length X' = n ∧
  put_sign val (M1 ++ X ++ M2) (Z.of_nat (length M1)) radix =
    Ret ((M1 ++ sign_of val radix) ++ X' ++ M2, Z.of_nat (length (M1 ++ sign_of val radix)), magnitude val radix).
Proof.
  intros Hv HX. pose proof (ulong_long val Hv) as Hu. unfold put_sign, sign_of, magnitude in *. unfold in_long, LONG_MIN, LONG_MAX in Hv. repeat case_decide; try lia; cbn in HX.
  { rewrite !bool_decide_true by lia. cbn [andb]. destruct X as [| x X]; [done |]. exists X. cbn in HX. split; [lia |]. rewrite vset_nat by (rewrite !length_app; cbn; lia). obind.
    rewrite insert_app_r_alt, Nat.sub_diag by lia. cbn [insert list_insert app]. rewrite <- app_assoc, length_app. cbn [app length]. rewrite Hu. unfold ulong. f_equal. f_equal; [f_equal; lia |].
    symmetry. apply (Z.mod_unique _ _ (-1)); lia. }
  all: exists X; rewrite app_nil_r; split; [done |].
  all: replace (bool_decide (radix < 0) && bool_decide (val < 0)) with false by (symmetry; apply andb_false_iff; rewrite !bool_decide_eq_false; lia).
  all: do 2 f_equal; lia.
Qed.

(** The digits of a nonzero number, and its first digit printed apart. *)
Lemma numeral_split r n : 1 < r → 0 ≤ n < 2 ^ 64 → ∃ ds,
  (length ds ≤ 63)%nat ∧ repr r (n / r) ds ∧ numeral r n (ds ++ [n mod r]) ∧ (n ≠ 0 → repr r n (ds ++ [n mod r])) ∧ (n = 0 → ds = [] ∧ n mod r = 0).
Proof.
  intros Hr Hn. destruct (repr_exists r 63 Hr (n / r)) as (ds & Hds & Hlen).
  { split; [apply Z.div_pos; lia |]. apply Z.div_lt_upper_bound; [lia |]. pose proof (Z.pow_le_mono_l 2 r 63 ltac:(lia)). nia. }
  exists ds. pose proof (numeral_snoc r n ds Hr ltac:(lia) Hds) as Hnum. split_and!; try done.
  - intros Hn0. destruct Hnum as (Hl & Hv & _ & Hh). split; [done |]. split; [done |]. intros Hz. specialize (Hh Hz). rewrite Hh in Hv. by cbn in Hv.
  - intros ->. split; [| by apply Z.mod_0_l; lia]. apply (repr_zero r); [lia |]. by rewrite Z.div_0_l in Hds by lia.
Qed.

Lemma to_long_id z : in_long z → to_long z = z.
Proof. unfold in_long, LONG_MIN, LONG_MAX, to_long. intros Hz. rewrite Z.mod_small; lia. Qed.

Lemma ulong_id z : 0 ≤ z < 2 ^ 64 → ulong z = z.
Proof. apply Z.mod_small. Qed.

(** What [int2str] and [int10_to_str] do after the sign. *)
Lemma first_digit r n : 1 < r ≤ 36 → 0 ≤ n < 2 ^ 64 → to_long (n / r) = n / r ∧ ulong (n - ulong (ulong (n / r) * r)) = n mod r.
Proof.
  intros Hr Hn. pose proof (Z.div_mod n r ltac:(lia)) as Hdm. pose proof (Z.mod_pos_bound n r ltac:(lia)). pose proof (Z.div_pos n r ltac:(lia) ltac:(lia)).
  pose proof (Z.div_lt_upper_bound n r (2 ^ 63) ltac:(lia) ltac:(lia)). split; [apply to_long_id; long_range |].
  rewrite (ulong_id (n / r)), (ulong_id (n / r * r)), ulong_id by nia. lia.
Qed.

Lemma print_tail r n ds digit upcase M X M2 : 1 < r ≤ 36 → (∀ d, 0 ≤ d < r → digit d = Ret (char_of upcase d)) →
  (length ds ≤ 63)%nat → repr r (n / r) ds → digit_list r (ds ++ [n mod r]) → length X = S (length (ds ++ [n mod r])) →
  ('(buffer, p) ← prepend new_buffer buffer_end (char_of upcase (n mod r)); '(buffer, p) ← digits_loop 65 digit r buffer p (n / r); copy_loop 65 buffer p (M ++ X ++ M2) (Z.of_nat (length M))) =
    Ret (M ++ (char_of upcase <$> ds ++ [n mod r]) ++ [0] ++ M2, Z.of_nat (length M + length (ds ++ [n mod r]))).
Proof.
  intros Hr Hd Hlen Hds Hl HX. change new_buffer with (replicate 64 0 ++ [0]). change buffer_end with (Z.of_nat 64). rewrite prepend_spec by lia. obind.
  rewrite (digits_loop_spec r digit (char_of upcase) ltac:(lia) Hd ds) by (done || lia). obind.
  pose proof (copy_loop_spec (char_of upcase <$> ds ++ [n mod r]) 65 (replicate (64 - 1 - length ds) 0) (64 - 1 - length ds) M X M2) as Hc. rewrite length_fmap in Hc.
  rewrite fmap_app, <- !app_assoc in Hc. cbn [fmap list_fmap app] in Hc. rewrite Hc; [by rewrite fmap_app, <- app_assoc | rewrite length_app; cbn; lia | | by rewrite length_replicate | done].
  pose proof (chars_nonzero upcase r _ ltac:(lia) Hl) as Hnz. by rewrite fmap_app in Hnz.
Qed.

Lemma ll_digits_spec r n ds digit upcase M X M2 : 1 < r ≤ 36 → (∀ d, 0 ≤ d < r → digit d = Ret (char_of upcase d)) →
  (length ds ≤ 63)%nat → 0 ≤ n → numeral r n (ds ++ [n mod r]) → (n ≠ 0 → repr r n (ds ++ [n mod r])) → (n = 0 → ds = [] ∧ n mod r = 0) → length X = S (length (ds ++ [n mod r])) →
  ll_digits digit r n (M ++ X ++ M2) (Z.of_nat (length M)) = Ret (M ++ (char_of upcase <$> ds ++ [n mod r]) ++ [0] ++ M2, Z.of_nat (length M + length (ds ++ [n mod r]))).
Proof.
  intros Hr Hd Hlen Hn0 (Hl & _) Hrepr Hzero HX. unfold ll_digits. case_bool_decide as Hn.
  - destruct (Hzero Hn) as [-> Hm]. rewrite Hm in *. destruct X as [| x [| y [| ? ?]]]; try done. rewrite vset_nat by (rewrite !length_app; cbn; lia). obind.
    rewrite insert_app_r_alt, Nat.sub_diag by lia. cbn [insert list_insert app]. replace (Z.of_nat (length M) + 1) with (Z.of_nat (length M + 1)) by lia.
    rewrite vset_nat by (rewrite !length_app; cbn; lia). obind. rewrite insert_app_r_alt by lia. replace (length M + 1 - length M)%nat with 1%nat by lia. by destruct upcase.
  - specialize (Hrepr Hn). pose proof (ulong_loop_spec r digit (char_of upcase) ltac:(lia) Hd _ 65 64 [0] n Hrepr) as Hloop. rewrite length_app in Hloop. cbn [length] in Hloop.
    specialize (Hloop ltac:(lia) ltac:(lia) ltac:(lia)). change (replicate 64 0 ++ [0]) with new_buffer in Hloop. change (Z.of_nat 64) with buffer_end in Hloop.
    destruct (ulong_loop 65 digit r new_buffer buffer_end n) as [[[buffer p] u] | |]; [| done | done]. revert Hloop. obind. intros ->. obind.
    pose proof (copy_loop_spec (char_of upcase <$> ds ++ [n mod r]) 65 (replicate (64 - (length ds + 1)) 0) (64 - (length ds + 1)) M X M2) as Hc. rewrite length_fmap in Hc.
    apply Hc; [rewrite length_app; cbn; lia | by eapply chars_nonzero; [| exact Hl]; lia | by rewrite length_replicate | done].
Qed.

(** Whether the radix is one that the functions accept. *)
Definition good_radix (radix : Z) : Prop := 2 ≤ Z.abs radix ≤ 36.

Lemma radix_tests radix (A : Type) (x y : A) : good_radix radix →
  (if bool_decide (radix < 0) && (bool_decide (radix < -36) || bool_decide (radix > -2)) then x
   else if negb (bool_decide (radix < 0)) && (bool_decide (radix > 36) || bool_decide (radix < 2)) then x else y) = y.
Proof.
  intros Hr. unfold good_radix in Hr. destruct (decide (radix < 0)) as [Hneg | Hneg].
  - rewrite (bool_decide_true (radix < 0)), (bool_decide_false (radix < -36)), (bool_decide_false (radix > -2)) by lia. done.
  - rewrite (bool_decide_false (radix < 0)), (bool_decide_false (radix > 36)), (bool_decide_false (radix < 2)) by lia. done.
Qed.

(** The numeral of a number, and what each function makes of it. *)
Lemma print_numeral val radix upcase :
  in_long val → good_radix radix → ∃ ds, numeral (Z.abs radix) (magnitude val radix) ds ∧
  ∀ M1 X M2, length X = S (length (sign_of val radix) + length ds) →
  let mem := M1 ++ X ++ M2 in
  let dst := Z.of_nat (length M1) in
  let mem' := M1 ++ sign_of val radix ++ (char_of upcase <$> ds) ++ [0] ++ M2 in
  let stop := Z.of_nat (length M1 + length (sign_of val radix) + length ds) in
  int2str val mem dst radix upcase = Ret (mem', Some stop) ∧ ll2str val mem dst radix upcase = Ret (mem', Some stop) ∧
  (Z.abs radix = 10 → int10_to_str val mem dst radix = Ret (mem', stop) ∧ longlong10_to_str val mem dst radix = Ret (mem', stop)).
Proof.
  intros Hval Hradix. set (r := Z.abs radix). set (n := magnitude val radix). assert (1 < r ≤ 36) as Hr by (unfold good_radix in Hradix; lia).
  pose proof (magnitude_range val radix Hval) as Hn. fold n in Hn. destruct (numeral_split r n ltac:(lia) Hn) as (ds & Hlen & Hds & Hnum & Hrepr & Hzero).
  exists (ds ++ [n mod r]). split; [done |]. intros M1 X M2 HX mem dst mem' stop. pose proof Hnum as (Hl & _). destruct (first_digit r n Hr Hn) as [Hlong Hdig].
  pose proof (Z.mod_pos_bound n r ltac:(lia)) as Hm. destruct (put_sign_spec val radix M1 X M2 (S (length (ds ++ [n mod r]))) Hval ltac:(lia)) as (X' & HX' & Hsign).
  fold n mem dst in Hsign. set (M := M1 ++ sign_of val radix) in *.
  assert (Ret (M ++ (char_of upcase <$> ds ++ [n mod r]) ++ [0] ++ M2, Z.of_nat (length M + length (ds ++ [n mod r]))) = Ret (mem', stop)) as Hout
    by (unfold M, mem', stop; by rewrite <- !app_assoc, length_app).
  assert (∀ d, 0 ≤ d < r → (dig_vec upcase).[d] = Ret (char_of upcase d)) as Hd by (intros d Hd; apply dig_vec_char; lia).
  split_and!; [| | intros H10; split].
  - unfold int2str. rewrite radix_tests by done. rewrite Hsign. obind. fold r. rewrite Hlong, Hdig. unfold uchar. rewrite Z.mod_small by lia. fold (dig_vec upcase). rewrite Hd by lia. obind.
    pose proof (print_tail r n ds _ upcase M X' M2 Hr Hd Hlen Hds Hl HX') as Hprint. rewrite Hout in Hprint. destruct (prepend new_buffer _ _) as [[b p] | |]; [| done | done]. revert Hprint. obind.
    destruct (digits_loop _ _ _ _ _ _) as [[b' p'] | |]; [| done | done]. obind. intros ->. done.
  - unfold ll2str. rewrite radix_tests by done. rewrite Hsign. obind. fold r (dig_vec upcase). rewrite (ll_digits_spec r n ds _ upcase), Hout by (done || lia). done.
  - unfold int10_to_str. rewrite Hsign. obind. rewrite <- H10, Hlong, Hdig, <- (char_of_decimal upcase) by lia.
    rewrite <- Hout. apply (print_tail r n ds _ upcase); try done. intros d Hdd. by rewrite char_of_decimal by lia.
  - unfold longlong10_to_str. rewrite Hsign. obind. rewrite <- H10, (ll_digits_spec r n ds _ upcase) by (done || lia || (intros d Hdd; rewrite (char_of_decimal upcase) by lia;
      rewrite <- (char_of_decimal true) by lia; by apply (dig_vec_char true); lia)). done.
Qed.

(** C30: Printing.  For every 64-bit integer and every radix from 2 to 36 the functions write, after a minus sign if the radix is negative and the
    number is, the numeral of the number (of the same bits as an unsigned number if the radix is positive) and a NUL, and
    return the address of the NUL; the 65 bytes of the buffer are enough.  [ll2str] with its two loops does the same as
    [int2str], and for the radix 10 [int10_to_str] and [longlong10_to_str] do.  Nothing else of the memory changes. *)
Theorem print_correct val radix upcase :
  in_long val → good_radix radix → ∃ ds, numeral (Z.abs radix) (magnitude val radix) ds ∧
  ∀ M1 X M2, length X = S (length (sign_of val radix) + length ds) →
  let mem := M1 ++ X ++ M2 in
  let dst := Z.of_nat (length M1) in
  let mem' := M1 ++ sign_of val radix ++ (char_of upcase <$> ds) ++ [0] ++ M2 in
  let stop := Z.of_nat (length M1 + length (sign_of val radix) + length ds) in
  int2str val mem dst radix upcase = Ret (mem', Some stop) ∧ ll2str val mem dst radix upcase = Ret (mem', Some stop) ∧
  (Z.abs radix = 10 → int10_to_str val mem dst radix = Ret (mem', stop) ∧ longlong10_to_str val mem dst radix = Ret (mem', stop)).
Proof. apply print_numeral. Qed.

Lemma print_correct_witness : ∃ ds, numeral 16 255 ds ∧
  ∀ M1 X M2, length X = S (1 + length ds) →
  int2str (-255) (M1 ++ X ++ M2) (Z.of_nat (length M1)) (-16) true =
    Ret (M1 ++ [45] ++ (char_of true <$> ds) ++ [0] ++ M2, Some (Z.of_nat (length M1 + 1 + length ds))).
Proof.
  destruct (print_correct (-255) (-16) true) as (ds & Hnum & Hout); [long_range | unfold good_radix; lia |].
  exists ds. split; [exact Hnum |]. intros M1 X M2 HX. by apply Hout.
Defined.
