(* ===== verification/StrToll.v ===== *)
(** * Integers and text: [my_strtoll10]

    What [my_strtoll10] returns for every text ([strtoll10_spec]), and that reading undoes printing. *)

From S2P Require Import Prelude IntStr IntStrSpec.

(** ** The specification *)

(** The longest prefix of characters that satisfy [P]. *)
Fixpoint prefix_while (P : Z → bool) (l : list Z) : list Z :=
  match l with
  | [] => []
  | c :: l => if P c then c :: prefix_while P l else []
  end.

Definition is_zero (c : Z) : bool := bool_decide (c = 48).
Definition is_digit (c : Z) : bool := bool_decide (48 ≤ c ≤ 57).

(** The number with the magnitude [v] whose digits end at [stop], or the error; a positive number is returned as its 64 bits,
    and the negation of 2^63 is undefined. *)
Definition conclude (negative : bool) (v stop cut : Z) : outcome number :=
  if negative then
    if decide (v < 2 ^ 63) then Ret (mkNumber (- v) stop (-1))
    else if decide (v = 2 ^ 63) then UB
    else Ret (mkNumber LONG_MIN (Z.min stop cut) MY_ERRNO_ERANGE)
  else if decide (v < 2 ^ 64) then Ret (mkNumber (to_long v) stop 0)
  else Ret (mkNumber (-1) (Z.min stop cut) MY_ERRNO_ERANGE).

(** The number at [s], after the blanks and the sign. *)
Definition unsigned_spec (at_ s : Z) (t : list Z) (negative : bool) : outcome number :=
  let zeros := prefix_while is_zero t in
  let digits := prefix_while is_digit (drop (length zeros) t) in
  let first := s + Z.of_nat (length zeros) in
  if decide (zeros ++ digits = []) then Ret (no_conv at_)
  else conclude negative (value 10 ((λ c, c - 48) <$> digits)) (first + Z.of_nat (length digits)) (first + 20).

(** The text [t] at the address [at_]: blanks, a sign, zeros and digits; an overflow is reported after at most twenty digits. *)
Definition strtoll10_spec (at_ : Z) (t : list Z) : outcome number :=
  let blanks := prefix_while is_blank t in
  let t := drop (length blanks) t in
  let negative := bool_decide (head t = Some 45) in
  let sign := if negative || bool_decide (head t = Some 43) then 1%nat else 0%nat in
  unsigned_spec at_ (at_ + Z.of_nat (length blanks + sign)) (drop sign t) negative.

(** ** Memory *)

(** The characters [l] are at the address [s]. *)
Definition sees (mem : list Z) (s : Z) (l : list Z) : Prop := ∀ i c, l !! i = Some c → mem.[s + Z.of_nat i] = Ret c.

Lemma sees_cons mem s c l : sees mem s (c :: l) → mem.[s] = Ret c ∧ sees mem (s + 1) l.
Proof.
  intros Hs. split; [rewrite <- (Z.add_0_r s); by apply (Hs 0%nat) |]. intros i c' Hi. specialize (Hs (S i) c' Hi).
  by replace (s + 1 + Z.of_nat i) with (s + Z.of_nat (S i)) by lia.
Qed.

Lemma sees_drop mem s n l : sees mem s l → sees mem (s + Z.of_nat n) (drop n l).
Proof.
  intros Hs i c Hi. rewrite lookup_drop in Hi. specialize (Hs _ _ Hi). by replace (s + Z.of_nat n + Z.of_nat i) with (s + Z.of_nat (n + i)) by lia.
Qed.

Lemma sees_app mem s l l' : sees mem s (l ++ l') → sees mem (s + Z.of_nat (length l)) l'.
Proof. intros Hs. pose proof (sees_drop mem s (length l) _ Hs) as Hd. by rewrite drop_app_length in Hd. Qed.

Lemma sees_mem A l B : sees (A ++ l ++ B) (Z.of_nat (length A)) l.
Proof.
  intros i c Hi. replace (Z.of_nat (length A) + Z.of_nat i) with (Z.of_nat (length A + i)) by lia. apply vget_nat.
  rewrite lookup_app_r, lookup_app_l by (apply lookup_lt_Some in Hi; lia). by replace (length A + i - length A)%nat with i by lia.
Qed.

(** Where the text stops: at [end_], or at a character that is no digit. *)
Definition stops (s end_ : Z) (tl : list Z) : Prop := match tl with [] => s = end_ | c :: _ => is_digit c = false ∧ 0 ≤ c < 256 ∧ s < end_ end.

Lemma uchar_nondigit c : 0 ≤ c < 256 → is_digit c = false → uchar (c - 48) > 9.
Proof.
  intros Hc Hd%bool_decide_eq_false. unfold uchar. destruct (decide (c < 48)); [rewrite <- (Z.mod_unique _ _ (-1) (c - 48 + 256)); lia | rewrite Z.mod_small; lia].
Qed.

Definition chars (ds : list Z) : list Z := (λ d, d + 48) <$> ds.

Lemma digit_at_digit mem s d l : sees mem s (chars (d :: []) ++ l) → 0 ≤ d < 10 → digit_at mem s = Ret d.
Proof. intros [Hs _]%sees_cons Hd. unfold digit_at. rewrite Hs. obind. unfold uchar. rewrite Z.mod_small by lia. f_equal. lia. Qed.

Lemma digit_at_other mem s end_ tl : sees mem s tl → stops s end_ tl → s ≠ end_ → ∃ c, digit_at mem s = Ret c ∧ c > 9.
Proof.
  destruct tl as [| c tl]; [done |]. intros [Hs _]%sees_cons (Hc & Hr & _) _. unfold digit_at. rewrite Hs. obind. eexists. split; [done |]. by apply uchar_nondigit.
Qed.

(** ** The digits *)

Lemma value_take_le ds n : digit_list 10 ds → ∀ i, 0 ≤ i → foldl (λ a d, a * 10 + d) i (take n ds) ≤ foldl (λ a d, a * 10 + d) i ds.
Proof.
  intros Hds i Hi. rewrite <- (take_drop n ds) at 2. rewrite foldl_app, (foldl_value 10 (drop n ds)).
  assert (digit_list 10 (drop n ds)) as Hd by (by apply Forall_drop). pose proof (value_bound 10 _ ltac:(lia) Hd).
  assert (0 ≤ foldl (λ a d, a * 10 + d) i (take n ds)) by (rewrite foldl_value; pose proof (value_bound 10 (take n ds) ltac:(lia) ltac:(by apply Forall_take)); nia).
  pose proof (Z.pow_pos_nonneg 10 (Z.of_nat (length (drop n ds)))). nia.
Qed.

Lemma digits_until_spec mem end_ tl ds : ∀ fuel s m i,
  digit_list 10 ds → sees mem s (chars ds ++ tl) → stops (s + Z.of_nat (length ds)) end_ tl → (m ≤ fuel)%nat → (s + Z.of_nat m ≤ end_) → 0 ≤ i →
  foldl (λ a d, a * 10 + d) i (take m ds) < 2 ^ 64 →
  digits_until fuel mem s (s + Z.of_nat m) i =
    Ret (s + Z.of_nat (length (take m ds)), foldl (λ a d, a * 10 + d) i (take m ds), bool_decide (length ds < m)%nat).
Proof.
  induction ds as [| d ds IH]; intros fuel s m i Hds Hsees Hstops Hfuel Hend Hi Hv.
  - cbn in Hstops, Hsees. rewrite take_nil. cbn [length foldl]. rewrite Z.add_0_r in *. destruct m as [| m].
    + replace (s + Z.of_nat 0) with s by lia. by destruct fuel; cbn [digits_until]; rewrite bool_decide_true.
    + destruct fuel as [| fuel]; [lia |]. cbn [digits_until]. rewrite bool_decide_false by lia. destruct (digit_at_other mem s end_ tl Hsees Hstops ltac:(lia)) as (c & -> & Hc).
      obind. by rewrite !bool_decide_true by lia.
  - apply Forall_cons in Hds as [Hd Hds]. destruct m as [| m].
    + cbn [take length foldl]. replace (s + Z.of_nat 0) with s by lia. by destruct fuel; cbn [digits_until]; rewrite bool_decide_true.
    + destruct fuel as [| fuel]; [lia |]. cbn [digits_until]. rewrite bool_decide_false by lia. rewrite (digit_at_digit mem s d (chars ds ++ tl)) by done. obind.
      rewrite bool_decide_false by lia. cbn [take foldl length] in *. apply sees_cons in Hsees as [_ Hsees].
      assert (i * 10 + d ≤ foldl (λ a d, a * 10 + d) (i * 10 + d) (take m ds)) by (apply (value_take_le (take m ds) 0); [by apply Forall_take | lia]).
      rewrite ulong_id by lia. replace (s + Z.of_nat (S m)) with (s + 1 + Z.of_nat m) by lia.
      rewrite IH; [| done | done | | lia | lia | lia | done]; [| by replace (s + 1 + Z.of_nat (length ds)) with (s + Z.of_nat (S (length ds))) by lia].
      do 2 f_equal; [f_equal; lia |]. apply bool_decide_ext. lia.
Qed.

Lemma signed_conclude (negative : bool) v stop cut : 0 ≤ v < 2 ^ 64 → (negative = true → v ≤ 2 ^ 63) → signed negative v stop (if negative then -1 else 0) = conclude negative v stop cut.
Proof.
  intros Hv Hneg. unfold signed, conclude. destruct negative; [| by rewrite decide_True by lia]. specialize (Hneg eq_refl). case_decide as H63.
  - rewrite to_long_id by long_range. unfold long_op. rewrite bool_decide_true by long_range. done.
  - rewrite decide_True by lia. assert (v = 2 ^ 63) as -> by lia. done.
Qed.

Lemma conclude_over (negative : bool) v stop cut : (if negative then 2 ^ 63 else 2 ^ 64 - 1) < v → conclude negative v stop cut = Ret (overflow negative (Z.min stop cut)).
Proof. intros Hv. unfold conclude. destruct negative; [rewrite !decide_False by lia | rewrite decide_False by lia]; done. Qed.

Section after_18.
Context (mem : list Z) (s end_ i j : Z) (tl : list Z) (negative : bool).
Hypothesis Hi : 10 ^ 8 ≤ i < 10 ^ 9.
Hypothesis Hj : 0 ≤ j < 10 ^ 9.
Let error : Z := if negative then -1 else 0.

Lemma end3_spec cut : end3 i j s negative error = conclude negative (i * 10 ^ 9 + j) s cut.
Proof. unfold end3, LFACTOR, error. rewrite (ulong_id (i * 1000000000)), ulong_id by lia. apply signed_conclude; lia. Qed.

Lemma end4_spec k : 0 ≤ k < 10 → end4 i j k (s + 1) negative error = conclude negative ((i * 10 ^ 9 + j) * 10 + k) (s + 1) (s + 2).
Proof.
  intros Hk. unfold end4, LFACTOR1, MAX_NEGATIVE_NUMBER, error. rewrite (ulong_id (i * 10000000000)), (ulong_id (j * 10)), (ulong_id (_ + j * 10)), ulong_id by lia.
  replace (i * 10000000000 + j * 10 + k) with ((i * 10 ^ 9 + j) * 10 + k) by lia. destruct negative; cbn [andb]; [case_bool_decide |].
  - rewrite conclude_over by lia. by rewrite Z.min_l by lia.
  - apply (signed_conclude true); lia.
  - apply (signed_conclude false); lia.
Qed.

(** Twenty digits: the comparison with the parts of the maximum. *)
Lemma cutoff_spec max k : 0 ≤ k < 100 → 0 ≤ max → (i > max / LFACTOR2 ∨ i = max / LFACTOR2 ∧ (j > max mod LFACTOR2 / 100 ∨ j = max mod LFACTOR2 / 100 ∧ k > max mod 100)) ↔ max < (i * 10 ^ 9 + j) * 100 + k.
Proof.
  intros Hk Hm. unfold LFACTOR2. pose proof (Z.div_mod max 100000000000 ltac:(lia)). pose proof (Z.mod_pos_bound max 100000000000 ltac:(lia)).
  pose proof (Z.div_mod (max mod 100000000000) 100 ltac:(lia)). pose proof (Z.mod_pos_bound (max mod 100000000000) 100 ltac:(lia)).
  assert (max mod 100000000000 mod 100 = max mod 100) as Hmm by (change 100000000000 with (100 * 1000000000); rewrite Z.rem_mul_r by lia; rewrite Z.add_mod, (Z.mul_comm 100), Z.mod_mul, Z.add_0_r, !Z.mod_mod by lia; done).
  lia.
Qed.

Lemma last_digits_spec ds :
  digit_list 10 ds → sees mem s (chars ds ++ tl) → stops (s + Z.of_nat (length ds)) end_ tl →
  last_digits mem s end_ i j negative error = conclude negative ((i * 10 ^ 9 + j) * 10 ^ Z.of_nat (length ds) + value 10 ds) (s + Z.of_nat (length ds)) (s + 2).
Proof using Hi Hj.
  intros Hds Hsees Hstops. unfold last_digits. destruct ds as [| k ds].
  { cbn in Hsees. change (value 10 []) with 0. change (Z.of_nat (length [])) with 0 in *. rewrite Z.pow_0_r, Z.mul_1_r, !Z.add_0_r in *. rewrite <- (end3_spec (s + 2)).
    case_bool_decide as He; [done |]. destruct (digit_at_other mem s end_ tl Hsees Hstops He) as (c & -> & Hc). obind. by rewrite bool_decide_true by lia. }
  apply Forall_cons in Hds as [Hk Hds]. cbn [length] in *. assert (s ≠ end_) as Hse by (destruct tl; cbn in Hstops; lia). rewrite bool_decide_false by done.
  rewrite (digit_at_digit mem s k (chars ds ++ tl)) by done. obind. rewrite bool_decide_false by lia. apply sees_cons in Hsees as [_ Hsees]. destruct ds as [| k2 ds].
  { cbn in Hsees. change (value 10 [k]) with k. change (Z.of_nat (S (length []))) with 1 in *. rewrite Z.pow_1_r in *.
    rewrite <- (end4_spec k Hk). case_bool_decide as He; [done |]. destruct (digit_at_other mem (s + 1) end_ tl Hsees Hstops He) as (c & -> & Hc). obind. by rewrite bool_decide_true by lia. }
  apply Forall_cons in Hds as [Hk2 Hds]. cbn [length] in *. assert (s + 1 ≠ end_) as Hse1 by (destruct tl; cbn in Hstops; lia). rewrite (bool_decide_false (s + 1 = end_)) by done.
  rewrite (digit_at_digit mem (s + 1) k2 (chars ds ++ tl)) by done. obind. rewrite (bool_decide_false (k2 > 9)) by lia. apply sees_cons in Hsees as [_ Hsees].
  rewrite (ulong_id (k * 10 + k2)) by lia. replace (s + 1 + 1) with (s + 2) in * by lia. set (V := (i * 10 ^ 9 + j) * 10 ^ Z.of_nat (S (S (length ds))) + value 10 (k :: k2 :: ds)).
  assert (V = ((i * 10 ^ 9 + j) * 100 + (k * 10 + k2)) * 10 ^ Z.of_nat (length ds) + value 10 ds) as HV.
  { unfold V. rewrite !value_cons. cbn [length]. rewrite !Nat2Z.inj_succ, !Z.pow_succ_r by lia. lia. }
  pose proof (value_bound 10 ds ltac:(lia) Hds) as Hvb. assert (((if negative then MAX_NEGATIVE_NUMBER else ULONG_MAX) = if negative then 2 ^ 63 else 2 ^ 64 - 1)) as -> by (by destruct negative).
  destruct ds as [| k3 ds].
  - cbn in Hsees, Hvb. change (Z.of_nat (S (S (length [])))) with 2 in *. change (value 10 []) with 0 in HV. rewrite Z.pow_0_r, Z.mul_1_r, Z.add_0_r in HV.
    assert ((if bool_decide (s + 2 ≠ end_) then c ← digit_at mem (s + 2); Ret (bool_decide (c ≤ 9)) else Ret false) = Ret false) as ->.
    { case_bool_decide as He; [| done]. destruct (digit_at_other mem (s + 2) end_ tl Hsees Hstops He) as (c & -> & Hc). obind. by rewrite (bool_decide_false (c ≤ 9)) by lia. }
    obind. pose proof (cutoff_spec (if negative then 2 ^ 63 else 2 ^ 64 - 1) (k * 10 + k2) ltac:(lia) ltac:(destruct negative; lia)) as Hcut.
    rewrite <- HV in Hcut. case_bool_decide as Hover; rewrite Hcut in Hover.
    + rewrite conclude_over by (by destruct negative). by rewrite Z.min_id.
    + destruct negative; [lia |]. unfold conclude, LFACTOR2. rewrite decide_True by lia. rewrite (ulong_id (i * _)), (ulong_id (j * 100)), (ulong_id (_ + j * 100)), ulong_id by lia.
      do 3 f_equal. lia.
  - apply Forall_cons in Hds as [Hk3 Hds]. cbn [length] in *. assert (s + 2 ≠ end_) as Hse2 by (destruct tl; cbn in Hstops; lia). rewrite (bool_decide_true (s + 2 ≠ end_)) by done.
    rewrite (digit_at_digit mem (s + 2) k3 (chars ds ++ tl)) by done. obind. rewrite (bool_decide_true (k3 ≤ 9)) by lia. rewrite conclude_over; [by rewrite Z.min_r by lia |].
    rewrite Nat2Z.inj_succ, Z.pow_succ_r in HV by lia. pose proof (Z.pow_pos_nonneg 10 (Z.of_nat (length ds))). destruct negative; nia.
Qed.
End after_18.

Lemma lfactor_spec (n : nat) : (n < 9)%nat → lfactor.[Z.of_nat n] = Ret (10 ^ Z.of_nat n).
Proof. intros Hn. do 9 (destruct n as [| n]; [done |]). lia. Qed.

(** The end of a part of at most [n] digits. *)
Lemma part_end s (n : nat) end_ tl (ds : list Z) : stops (s + Z.of_nat (length ds)) end_ tl →
  (if bool_decide (s + Z.of_nat n > end_) then end_ else s + Z.of_nat n) = s + Z.of_nat (if decide (length ds < n)%nat then (if decide (tl = []) then length ds else n `min` Z.to_nat (end_ - s))%nat else n).
Proof. intros Hs. destruct tl; cbn in Hs; repeat case_decide; case_bool_decide; try done; lia. Qed.

Lemma part_spec mem s (n : nat) end_ tl ds i : (n ≤ 9)%nat → 0 ≤ i → i * 10 ^ Z.of_nat n ≤ 10 ^ 10 → digit_list 10 ds → sees mem s (chars ds ++ tl) → stops (s + Z.of_nat (length ds)) end_ tl → ∃ stopped,
  digits_until 9 mem s (if bool_decide (s + Z.of_nat n > end_) then end_ else s + Z.of_nat n) i =
    Ret (s + Z.of_nat (length (take n ds)), i * 10 ^ Z.of_nat (length (take n ds)) + value 10 (take n ds), stopped) ∧
  if decide (length ds < n)%nat then stopped || bool_decide (s + Z.of_nat (length ds) = end_) = true else stopped = false.
Proof.
  intros Hn Hi Hi2 Hds Hsees Hstops. rewrite (part_end s n end_ tl ds Hstops). set (m := if decide (length ds < n)%nat then _ else _).
  assert (take m ds = take n ds ∧ (m ≤ 9)%nat ∧ s + Z.of_nat m ≤ end_) as (Htake & Hm & Hend).
  { unfold m. case_decide as Hlt; [| split; [done |]; destruct tl; cbn in Hstops; lia]. destruct tl; cbn in Hstops; case_decide; try done; rewrite !take_ge by lia; split; try done; lia. }
  assert (digit_list 10 (take n ds)) as Hdt by (by apply Forall_take). pose proof (value_bound 10 _ ltac:(lia) Hdt) as Hv. pose proof (length_take ds n) as Hlen.
  pose proof (Z.pow_le_mono_r 10 (Z.of_nat (length (take n ds))) (Z.of_nat n) ltac:(lia) ltac:(lia)) as Hpow. pose proof (Z.pow_le_mono_r 10 (Z.of_nat n) 9 ltac:(lia) ltac:(lia)).
  assert (i * 10 ^ Z.of_nat (length (take n ds)) ≤ i * 10 ^ Z.of_nat n) by (by apply Z.mul_le_mono_nonneg_l).
  rewrite (digits_until_spec mem end_ tl ds) by (done || lia || (rewrite foldl_value, Htake; lia)). rewrite foldl_value, Htake. eexists. split; [done |].
  unfold m. case_decide as Hlt; [| apply bool_decide_eq_false; lia]. destruct tl; cbn in Hstops; case_decide; try done.
  - rewrite Hstops, (bool_decide_true (end_ = end_)) by done. apply orb_true_r.
  - rewrite bool_decide_true by lia. done.
Qed.

(** After the first part: at least nine digits. *)
Lemma second_part mem b end_ i ds tl (negative : bool) :
  10 ^ 8 ≤ i < 10 ^ 9 → digit_list 10 ds → sees mem (b + 9) (chars ds ++ tl) → stops (b + 9 + Z.of_nat (length ds)) end_ tl →
  let error := if negative then -1 else 0 in
  (let start := b + 9 in
   let true_end := b + 9 + INIT_CNT in
   let n_end := if bool_decide (true_end > end_) then end_ else true_end in
   '(s, j, stopped) ← digits_until 9 mem (b + 9) n_end 0;
   if stopped || bool_decide (s = end_) && bool_decide (s ≠ true_end)
   then f ← lfactor.[s - start]; signed negative (ulong (ulong (i * f) + j)) s error
   else last_digits mem s end_ i j negative error) =
  conclude negative (i * 10 ^ Z.of_nat (length ds) + value 10 ds) (b + 9 + Z.of_nat (length ds)) (b + 20).
Proof.
  intros Hi Hds Hsees Hstops error. cbv zeta. change (b + 9 + INIT_CNT) with (b + 9 + Z.of_nat 9).
  destruct (part_spec mem (b + 9) 9 end_ tl ds 0 ltac:(lia) ltac:(lia) ltac:(lia) Hds Hsees Hstops) as (stopped & -> & Hstop). obind. rewrite Z.mul_0_l, Z.add_0_l. case_decide as Hlt.
  - rewrite (take_ge ds 9) by lia. assert (stopped || bool_decide (b + 9 + Z.of_nat (length ds) = end_) && bool_decide (b + 9 + Z.of_nat (length ds) ≠ b + 9 + Z.of_nat 9) = true) as ->
      by (rewrite (bool_decide_true (_ ≠ b + 9 + Z.of_nat 9)) by lia; by rewrite andb_true_r).
    replace (b + 9 + Z.of_nat (length ds) - (b + 9)) with (Z.of_nat (length ds)) by lia. rewrite lfactor_spec by lia. obind. pose proof (value_bound 10 ds ltac:(lia) Hds).
    pose proof (Z.pow_le_mono_r 10 (Z.of_nat (length ds)) 8 ltac:(lia) ltac:(lia)). rewrite (ulong_id (i * _)), ulong_id by nia. apply signed_conclude; nia.
  - subst stopped. cbn [orb]. rewrite length_take_le by lia. rewrite (bool_decide_false (_ ≠ _)) by lia. rewrite andb_false_r.
    pose proof (value_bound 10 (take 9 ds) ltac:(lia) ltac:(by apply Forall_take)) as Hj. rewrite length_take_le in Hj by lia.
    assert (sees mem (b + 9 + Z.of_nat 9) (chars (drop 9 ds) ++ tl)) as Hsees2.
    { pose proof (sees_drop _ _ 9 _ Hsees) as Hs2. rewrite drop_app_le in Hs2 by (unfold chars; rewrite length_fmap; lia). unfold chars in *. by rewrite <- fmap_drop in Hs2. }
    rewrite (last_digits_spec mem _ end_ i _ tl negative Hi Hj (drop 9 ds)); [| by apply Forall_drop | done | by rewrite length_drop; replace (b + 9 + Z.of_nat 9 + Z.of_nat (length ds - 9)) with (b + 9 + Z.of_nat (length ds)) by lia].
    rewrite length_drop. f_equal; [| lia | lia]. assert (value 10 ds = value 10 (take 9 ds) * 10 ^ Z.of_nat (length ds - 9) + value 10 (drop 9 ds)) as Hv
      by (rewrite <- (take_drop 9 ds) at 1; by rewrite value_app, length_drop).
    replace (Z.of_nat (length ds)) with (Z.of_nat 9 + Z.of_nat (length ds - 9)) by lia. rewrite Z.pow_add_r by lia. change (10 ^ Z.of_nat 9) with (10 ^ 9). lia.
Qed.

Lemma read_digits_spec mem b end_ D ds tl (negative : bool) :
  (length D ≤ 1)%nat → digit_list 10 (D ++ ds) → head (D ++ ds) ≠ Some 0 → sees mem (b + Z.of_nat (length D)) (chars ds ++ tl) → stops (b + Z.of_nat (length (D ++ ds))) end_ tl →
  read_digits mem (b + Z.of_nat (length D)) (b + 9) end_ (value 10 D) negative (if negative then -1 else 0) =
    conclude negative (value 10 (D ++ ds)) (b + Z.of_nat (length (D ++ ds))) (b + 20).
Proof.
  intros HD Hdl Hh Hsees Hstops. pose proof Hdl as [HdD Hds]%Forall_app. pose proof (value_bound 10 D ltac:(lia) HdD) as HvD. unfold read_digits.
  replace (b + 9) with (b + Z.of_nat (length D) + Z.of_nat (9 - length D)) by lia. rewrite length_app in *.
  destruct (part_spec mem (b + Z.of_nat (length D)) (9 - length D) end_ tl ds (value 10 D)) as (stopped & -> & Hstop); try done; try lia.
  { destruct D as [| d [| ? ?]]; cbn in *; lia. }
  { by replace (b + Z.of_nat (length D) + Z.of_nat (length ds)) with (b + Z.of_nat (length D + length ds)) by lia. }
  obind. rewrite <- value_app. case_decide as Hlt.
  - rewrite (take_ge ds) by lia. rewrite Hstop. replace (b + Z.of_nat (length D) + Z.of_nat (length ds)) with (b + Z.of_nat (length D + length ds)) by lia.
    pose proof (value_bound 10 _ ltac:(lia) Hdl) as Hv. rewrite length_app in Hv. pose proof (Z.pow_le_mono_r 10 (Z.of_nat (length D + length ds)) 9 ltac:(lia) ltac:(lia)). apply signed_conclude; lia.
  - subst stopped. cbn [orb]. rewrite length_take_le by lia. replace (b + Z.of_nat (length D) + Z.of_nat (9 - length D)) with (b + 9) by lia.
    set (D9 := D ++ take (9 - length D) ds). assert (length D9 = 9%nat) as Hlen9 by (unfold D9; rewrite length_app, length_take_le; lia).
    assert (D ++ ds = D9 ++ drop (9 - length D) ds) as Hsplit by (unfold D9; by rewrite <- app_assoc, take_drop). set (ds2 := drop (9 - length D) ds) in *.
    assert (length ds2 = (length ds - (9 - length D))%nat) as Hlen2 by apply length_drop. rewrite Hsplit in Hdl, Hh |- *. apply Forall_app in Hdl as [Hd9 Hd2].
    assert (10 ^ 8 ≤ value 10 D9 < 10 ^ 9) as Hi.
    { pose proof (value_bound 10 D9 ltac:(lia) Hd9) as Hv. rewrite Hlen9 in Hv. split; [| lia].
      pose proof (repr_pos 10 (value 10 D9) D9 ltac:(lia)) as Hp. rewrite Hlen9 in Hp. apply Hp; [| by destruct D9]. split; [done |]. split; [done |]. by destruct D9. }
    rewrite value_app. case_bool_decide as He.
    + assert (ds2 = []) as -> by (apply length_zero_iff_nil; destruct tl; cbn in Hstops; lia). rewrite Z.mul_1_r, Z.add_0_r. rewrite He, (signed_conclude _ _ _ (b + 20)) by lia.
      f_equal. destruct tl; cbn in Hstops, Hlen2; lia.
    + pose proof (second_part mem b end_ (value 10 D9) ds2 tl negative Hi Hd2) as H2. cbv zeta in H2. rewrite H2; [f_equal; lia | |].
      * pose proof (sees_drop _ _ (9 - length D) _ Hsees) as Hs2. rewrite drop_app_le in Hs2 by (unfold chars; rewrite length_fmap; lia). unfold chars in *. rewrite <- fmap_drop in Hs2.
        by replace (b + Z.of_nat (length D) + Z.of_nat (9 - length D)) with (b + 9) in Hs2 by lia.
      * by replace (b + 9 + Z.of_nat (length ds2)) with (b + Z.of_nat (length D + length ds)) by lia.
Qed.

(** ** The parts of a text *)

Lemma prefix_while_split P l : ∃ rest, l = prefix_while P l ++ rest ∧ drop (length (prefix_while P l)) l = rest ∧ Forall (λ c, P c = true) (prefix_while P l) ∧ (∀ c, head rest = Some c → P c = false).
Proof.
  induction l as [| c l (rest & IH1 & IH2 & IH3 & IH4)]; [by exists [] |]. cbn [prefix_while]. destruct (P c) eqn:Hc.
  - exists rest. split_and!; [cbn; by f_equal | done | by constructor | done].
  - exists (c :: l). split_and!; try done. by intros c' [= <-].
Qed.

(** The text up to [end_], or up to a NUL before it. *)
Definition fits (s end_ : Z) (t : list Z) : Prop := s + Z.of_nat (length t) = end_ ∨ (∃ u, t = u ++ [0]) ∧ s + Z.of_nat (length t) ≤ end_.

Lemma fits_app s end_ a t : fits s end_ (a ++ t) → Forall (λ c, c ≠ 0) a → fits (s + Z.of_nat (length a)) end_ t.
Proof.
  intros Hf Ha. unfold fits in *. rewrite length_app in Hf. destruct Hf as [Hf | [(u & Hu) Hf]]; [left; lia | right]. split; [| lia].
  induction t as [| c t _] using rev_ind.
  - rewrite app_nil_r in Hu. subst. apply Forall_app in Ha as [_ Ha%Forall_inv]. done.
  - rewrite app_assoc in Hu. apply app_inj_2 in Hu as [_ [= ->]]; [| done]. by exists t.
Qed.

Lemma fits_end s end_ t : fits s end_ t → s = end_ ↔ t = [].
Proof. intros [Hf | [(u & ->) Hf]]; [destruct t; cbn in Hf; split; try done; lia |]. rewrite length_app in Hf. cbn in Hf. split; [lia | by destruct u]. Qed.

Lemma fits_stops s end_ t : fits s end_ t → Forall (λ c, 0 ≤ c < 256) t → (∀ c, head t = Some c → is_digit c = false) → stops s end_ t.
Proof.
  intros Hf Ht Hh. pose proof (fits_end s end_ t Hf) as He. destruct t as [| c t]; cbn; [by apply He |]. split; [by apply Hh |]. apply Forall_inv in Ht. split; [done |].
  destruct Hf as [Hf | [_ Hf]]; cbn in Hf; lia.
Qed.

Lemma digits_chars P l : (∀ c, P c = true → is_digit c = true) → Forall (λ c, P c = true) l → chars ((λ c, c - 48) <$> l) = l ∧ digit_list 10 ((λ c, c - 48) <$> l).
Proof.
  intros HP Hl. unfold chars. rewrite <- list_fmap_compose. split.
  - clear HP Hl. induction l as [| c l IH]; [done |]. cbn in *. rewrite IH. f_equal. lia.
  - apply Forall_fmap. eapply Forall_impl; [exact Hl |]. intros c Hc%HP%bool_decide_eq_true. cbn. lia.
Qed.

Lemma skip_until_spec mem t : ∀ fuel s, (length t ≤ fuel)%nat → sees mem s t →
  skip_until fuel mem s (s + Z.of_nat (length t)) = Ret (s + Z.of_nat (length (prefix_while is_blank t))).
Proof.
  induction t as [| c t IH]; intros fuel s Hfuel Hs.
  - cbn [length prefix_while]. rewrite Z.add_0_r. by destruct fuel; cbn [skip_until]; rewrite bool_decide_true.
  - destruct fuel as [| fuel]; [cbn in Hfuel; lia |]. apply sees_cons in Hs as [Hc Hs]. cbn [skip_until prefix_while length]. rewrite bool_decide_false by lia. rewrite Hc. obind.
    destruct (is_blank c); [| cbn; by rewrite Z.add_0_r]. replace (s + Z.of_nat (S (length t))) with (s + 1 + Z.of_nat (length t)) by lia. rewrite IH by (done || (cbn in Hfuel; lia)).
    f_equal. cbn [length]. lia.
Qed.

Lemma skip_blanks_spec mem t : ∀ fuel s, (length t < fuel)%nat → sees mem s (t ++ [0]) → skip_blanks fuel mem s = Ret (s + Z.of_nat (length (prefix_while is_blank t))).
Proof.
  induction t as [| c t IH]; intros fuel s Hfuel Hs; (destruct fuel as [| fuel]; [cbn in Hfuel; lia |]); apply sees_cons in Hs as [Hc Hs]; cbn [skip_blanks prefix_while]; rewrite Hc; obind.
  - cbn. by rewrite Z.add_0_r.
  - destruct (is_blank c); [| cbn; by rewrite Z.add_0_r]. rewrite IH by (done || (cbn in Hfuel; lia)). f_equal. cbn [length]. lia.
Qed.

Lemma zeros_loop_spec mem end_ t : ∀ fuel s, (length t < fuel)%nat → sees mem (s + 1) t → fits (s + 1) end_ t →
  zeros_loop fuel mem s end_ = Ret (s + 1 + Z.of_nat (length (prefix_while is_zero t)), bool_decide (drop (length (prefix_while is_zero t)) t = [])).
Proof.
  induction t as [| c t IH]; intros fuel s Hfuel Hs Hf; (destruct fuel as [| fuel]; [cbn in Hfuel; lia |]); cbn [zeros_loop].
  - rewrite bool_decide_true by (by apply (fits_end _ _ _ Hf)). cbn. by rewrite Z.add_0_r.
  - rewrite bool_decide_false by (by rewrite (fits_end _ _ _ Hf)). apply sees_cons in Hs as [Hc Hs]. rewrite Hc. obind. cbn [prefix_while]. fold (is_zero c).
    destruct (is_zero c) eqn:Hz; [| cbn; by rewrite Z.add_0_r]. apply bool_decide_eq_true in Hz. subst c.
    rewrite IH; [cbn [length drop]; do 2 f_equal; lia | cbn in Hfuel; lia | done |]. apply (fits_app _ _ [48]) in Hf; [done | by constructor].
Qed.

(** The digits at [b], of which the first is no zero. *)
Lemma read_text mem b end_ (D : list Z) t (negative : bool) :
  (length D ≤ 1)%nat → sees mem (b + Z.of_nat (length D)) t → fits (b + Z.of_nat (length D)) end_ t → Forall (λ c, 0 ≤ c < 256) t →
  digit_list 10 D → (D = [] → head t ≠ Some 48) → D ≠ [0] →
  let digits := (λ c, c - 48) <$> prefix_while is_digit t in
  read_digits mem (b + Z.of_nat (length D)) (b + 9) end_ (value 10 D) negative (if negative then -1 else 0) =
    conclude negative (value 10 (D ++ digits)) (b + Z.of_nat (length (D ++ digits))) (b + 20).
Proof.
  intros HD Hsees Hfits Hbytes HdD Hhead Hhead' digits. destruct (prefix_while_split is_digit t) as (rest & Hsplit & _ & Hall & Hrest).
  destruct (digits_chars is_digit _ ltac:(done) Hall) as [Hchars Hdl]. fold digits in Hchars, Hdl. assert (Forall (λ c, c ≠ 0) (prefix_while is_digit t)) as Hnz.
  { eapply Forall_impl; [exact Hall |]. intros c Hc%bool_decide_eq_true. lia. }
  rewrite Hsplit in Hfits, Hsees, Hbytes. apply Forall_app in Hbytes as [_ Hbytes]. apply fits_app in Hfits; [| done]. assert (length digits = length (prefix_while is_digit t)) as Hlen by apply length_fmap.
  apply (read_digits_spec mem b end_ D digits rest); [done | by apply Forall_app | | by rewrite Hchars |].
  - destruct D as [| d D]; [| destruct D as [| ? ?]; [cbn; intros [= ->]; done | cbn in HD; lia]]. specialize (Hhead eq_refl). unfold digits. destruct t as [| c t]; [done |]. cbn.
    destruct (is_digit c); [| done]. cbn. intros [= Hc]. destruct Hhead. cbn. f_equal. lia.
  - apply fits_stops; [| done | done]. rewrite length_app, Hlen. by replace (b + Z.of_nat (length D + length (prefix_while is_digit t))) with (b + Z.of_nat (length D) + Z.of_nat (length (prefix_while is_digit t))) by lia.
Qed.

Lemma read_unsigned_spec mem at_ s end_ t (negative : bool) : t ≠ [] → sees mem s t → fits s end_ t → Forall (λ c, 0 ≤ c < 256) t → (length t ≤ length mem)%nat →
  read_unsigned mem at_ s end_ negative (if negative then -1 else 0) = unsigned_spec at_ s t negative.
Proof.
  intros Hne Hsees Hfits Hbytes Hlen. unfold read_unsigned, unsigned_spec. destruct t as [| c t]; [done |]. pose proof Hsees as [Hc Hsees']%sees_cons. rewrite Hc. obind. cbn [prefix_while].
  pose proof Hbytes as [Hbc Hbt]%Forall_cons. fold (is_zero c). destruct (is_zero c) eqn:Hz.
  - apply bool_decide_eq_true in Hz. subst c. apply (fits_app _ _ [48]) in Hfits; [| by constructor]. rewrite (zeros_loop_spec mem end_ t) by (done || (cbn in Hlen; lia)). obind.
    destruct (prefix_while_split is_zero t) as (rest & Hsplit & Hdrop & Hall & Hrest). rewrite Hdrop. rewrite decide_False by done. cbn [length drop]. rewrite Hdrop.
    replace (s + Z.of_nat (S (length (prefix_while is_zero t)))) with (s + 1 + Z.of_nat (length (prefix_while is_zero t))) by lia. set (s' := s + 1 + Z.of_nat (length (prefix_while is_zero t))).
    case_bool_decide as Hr; [subst rest; rewrite Hr; cbn; rewrite Z.add_0_r; apply signed_conclude; lia |].
    assert (Forall (λ c, c ≠ 0) (prefix_while is_zero t)) as Hnz by (eapply Forall_impl; [exact Hall |]; intros x Hx%bool_decide_eq_true; lia).
    pose proof (read_text mem s' end_ [] rest negative) as Hread. cbn [length app value foldl] in Hread. rewrite Z.add_0_r, length_fmap in Hread. apply Hread; try done.
    + lia.
    + rewrite Hsplit in Hsees'. by apply sees_app in Hsees'.
    + rewrite Hsplit in Hfits. by apply fits_app in Hfits.
    + rewrite Hsplit in Hbt. by apply Forall_app in Hbt as [_ ?].
    + constructor.
    + intros _ Hh. by specialize (Hrest 48 Hh).
  - cbn [length drop app]. rewrite Z.add_0_r. cbn [prefix_while]. destruct (is_digit c) eqn:Hd.
    + rewrite decide_False by done. pose proof Hd as Hd'%bool_decide_eq_true. apply bool_decide_eq_false in Hz. unfold digit_at. rewrite Hc. obind. unfold uchar. rewrite Z.mod_small by lia.
      rewrite bool_decide_false by lia. apply (fits_app _ _ [c]) in Hfits; [| by constructor; [lia |]]. change (s + 1 + INIT_CNT - 1) with (s + 1 + 9 - 1). replace (s + 1 + 9 - 1) with (s + 9) by lia.
      pose proof (read_text mem s end_ [c - 48] t negative) as Hread. cbn [length fmap list_fmap app] in *. change (value 10 [c - 48]) with (0 * 10 + (c - 48)) in Hread. rewrite Z.add_0_l in Hread.
      rewrite length_fmap in Hread. change (s + Z.of_nat 1) with (s + 1) in Hread. apply Hread; try done.
      * constructor; [lia | constructor].
      * intros [= Hc0]. lia.
    + rewrite decide_True by done. unfold digit_at. rewrite Hc. obind. pose proof (uchar_nondigit c Hbc Hd). by rewrite bool_decide_true by lia.
Qed.

Lemma read_number_spec mem at_ s end_ t : t ≠ [] → sees mem s t → fits s end_ t → Forall (λ c, 0 ≤ c < 256) t → (length t ≤ length mem)%nat →
  read_number mem at_ s end_ =
    (let negative := bool_decide (head t = Some 45) in
     let sign := if negative || bool_decide (head t = Some 43) then 1%nat else 0%nat in
     unsigned_spec at_ (s + Z.of_nat sign) (drop sign t) negative).
Proof.
  intros Hne Hsees Hfits Hbytes Hlen. unfold read_number. destruct t as [| c t]; [done |]. pose proof Hsees as [Hc Hsees']%sees_cons. rewrite Hc. obind. cbn [head].
  rewrite (bool_decide_ext (Some c = Some 45) (c = 45)), (bool_decide_ext (Some c = Some 43) (c = 43)) by naive_solver. cbv zeta. set (negative := bool_decide (c = 45)).
  destruct (negative || bool_decide (c = 43)) eqn:Hsign.
  - assert (c ≠ 0) as Hc0 by (apply orb_true_iff in Hsign as [H%bool_decide_eq_true | H%bool_decide_eq_true]; lia). apply (fits_app _ _ [c]) in Hfits; [| by constructor]. cbn [drop length] in *.
    change (s + Z.of_nat 1) with (s + 1) in *. apply Forall_cons in Hbytes as [_ Hbytes]. destruct (decide (s + 1 = end_)) as [He | He];
      [rewrite bool_decide_true by done; apply (fits_end _ _ _ Hfits) in He; rewrite He; reflexivity | rewrite (bool_decide_false (s + 1 = end_)) by done].
    rewrite drop_0. apply read_unsigned_spec; try done; [| lia]. intros Ht. apply He. by apply (fits_end _ _ _ Hfits).
  - rewrite Z.add_0_r. rewrite bool_decide_false by (by rewrite (fits_end _ _ _ Hfits)). by apply (read_unsigned_spec mem at_ s end_ (c :: t)).
Qed.

Lemma blanks_nonzero l : Forall (λ c, is_blank c = true) l → Forall (λ c, c ≠ 0) l.
Proof. intros Hl. eapply Forall_impl; [exact Hl |]. intros c Hc. apply orb_true_iff in Hc as [Hc%bool_decide_eq_true | Hc%bool_decide_eq_true]; lia. Qed.

Lemma strtoll10_fixed A t B : Forall (λ c, 0 ≤ c < 256) t →
  my_strtoll10 (A ++ t ++ B) (Z.of_nat (length A)) (Some (Z.of_nat (length A) + Z.of_nat (length t))) = strtoll10_spec (Z.of_nat (length A)) t.
Proof.
  intros Hbytes. pose proof (sees_mem A t B) as Hsees. unfold my_strtoll10, strtoll10_spec. rewrite skip_until_spec by (done || (rewrite !length_app; lia)). obind.
  destruct (prefix_while_split is_blank t) as (rest & Hsplit & Hdrop & Hall & Hrest). rewrite Hdrop. set (s := Z.of_nat (length A) + Z.of_nat (length (prefix_while is_blank t))).
  assert (fits s (Z.of_nat (length A) + Z.of_nat (length t)) rest) as Hfits by (left; unfold s; rewrite Hsplit at 2; rewrite length_app; lia).
  apply (sees_drop _ _ (length (prefix_while is_blank t))) in Hsees. rewrite Hdrop in Hsees. fold s in Hsees. rewrite Hsplit in Hbytes. apply Forall_app in Hbytes as [_ Hbytes]. case_bool_decide as He.
  - apply (fits_end _ _ _ Hfits) in He. rewrite He. reflexivity.
  - rewrite (read_number_spec _ _ s _ rest) by (done || (intros Hr; by apply He, (proj2 (fits_end _ _ _ Hfits))) || (rewrite Hsplit, !length_app; lia)). cbv zeta. unfold s. by rewrite <- Z.add_assoc, <- Nat2Z.inj_add.
Qed.

(** A NUL at the end is no part of a number. *)
Lemma prefix_while_nul P t : P 0 = false → prefix_while P (t ++ [0]) = prefix_while P t.
Proof. intros HP. induction t as [| c t IH]; cbn; [by rewrite HP | by rewrite IH]. Qed.

Lemma prefix_while_length P t : (length (prefix_while P t) ≤ length t)%nat.
Proof. induction t as [| c t IH]; cbn; [lia |]. destruct (P c); cbn; lia. Qed.

Lemma unsigned_nul at_ s t negative : unsigned_spec at_ s (t ++ [0]) negative = unsigned_spec at_ s t negative.
Proof. unfold unsigned_spec. by rewrite prefix_while_nul, drop_app_le, prefix_while_nul by (done || apply prefix_while_length). Qed.

Lemma strtoll10_nul A t B : Forall (λ c, 0 < c < 256) t → Z.of_nat (length t) < 65535 →
  my_strtoll10 (A ++ t ++ 0 :: B) (Z.of_nat (length A)) None = strtoll10_spec (Z.of_nat (length A)) t.
Proof.
  intros Hbytes Hlen. assert (sees (A ++ t ++ 0 :: B) (Z.of_nat (length A)) (t ++ [0])) as Hsees by (pose proof (sees_mem A (t ++ [0]) B) as Hs; by rewrite <- app_assoc in Hs).
  unfold my_strtoll10, strtoll10_spec. rewrite (skip_blanks_spec _ t) by (done || (rewrite !length_app; lia)). obind.
  destruct (prefix_while_split is_blank t) as (rest & Hsplit & Hdrop & Hall & Hrest). rewrite Hdrop. set (s := Z.of_nat (length A) + Z.of_nat (length (prefix_while is_blank t))).
  apply (sees_drop _ _ (length (prefix_while is_blank t))) in Hsees. rewrite drop_app_le, Hdrop in Hsees by apply prefix_while_length. fold s in Hsees. assert (Forall (λ c, 0 < c < 256) rest) as Hbr by (rewrite Hsplit in Hbytes; by apply Forall_app in Hbytes as [_ ?]).
  assert (length rest ≤ length t)%nat as Hlr by (rewrite Hsplit, length_app; lia). destruct rest as [| c rest].
  - apply sees_cons in Hsees as [-> _]. done.
  - pose proof Hsees as [-> _]%sees_cons. apply Forall_inv in Hbr as Hc. obind. rewrite bool_decide_false by lia. rewrite (read_number_spec _ _ s _ ((c :: rest) ++ [0])); try done.
    + cbv zeta. cbn [head app]. set (sign := if _ : bool then _ else _). replace (drop sign (c :: rest ++ [0])) with (drop sign (c :: rest) ++ [0]) by (unfold sign; by destruct (_ || _)).
      rewrite unsigned_nul. unfold s. by rewrite <- Z.add_assoc, <- Nat2Z.inj_add.
    + right. split; [by eexists |]. rewrite length_app. cbn [length] in *. lia.
    + apply Forall_app. split; [eapply Forall_impl; [exact Hbr |]; intros x Hx; cbn in Hx; lia | by constructor].
    + rewrite !length_app. cbn [length] in *. lia.
Qed.

(** C28: Reading.  For every text, with its end given or up to a NUL, [my_strtoll10] skips blanks, a sign and leading zeros and returns the number of the
    digits that follow, the address after them and no error (-1 for a negative number); EDOM if there are no digits;
    ERANGE for a number above 2^64 - 1 or below -2^63, with the extreme value.  The 64 bits of a number above 2^63 - 1
    are returned as they are.  For -2^63 itself the negation overflows, which is undefined. *)
Theorem strtoll10_correct A t B :
  Forall (λ c, 0 ≤ c < 256) t →
  my_strtoll10 (A ++ t ++ B) (Z.of_nat (length A)) (Some (Z.of_nat (length A) + Z.of_nat (length t))) = strtoll10_spec (Z.of_nat (length A)) t ∧
  (0 ∉ t → Z.of_nat (length t) < 65535 → my_strtoll10 (A ++ t ++ 0 :: B) (Z.of_nat (length A)) None = strtoll10_spec (Z.of_nat (length A)) t).
Proof.
  intros Ht. split; [by apply strtoll10_fixed |]. intros H0 Hlen. apply strtoll10_nul; [| done]. rewrite Forall_forall in *. intros c Hc. pose proof (Ht c Hc). assert (c ≠ 0) by (by intros ->). lia.
Qed.

(** The text of 21 zeros and the number 18446744073709551615, with a sign and a blank before them. *)
Lemma strtoll10_correct_witness :
  let t := [32; 43] ++ replicate 21 48 ++ [49; 56; 52; 52; 54; 55; 52; 52; 48; 55; 51; 55; 48; 57; 53; 53; 49; 54; 49; 53] in
  my_strtoll10 ([65] ++ t ++ [66]) 1 (Some 44) = Ret (mkNumber (-1) 44 0).
Proof.
  intros t. destruct (strtoll10_correct [65] t [66]) as [H _]; [apply (bool_decide_unpack _); vm_compute; done |]. etransitivity; [exact H |]. vm_compute. reflexivity.
Defined.

(** ** Reading what was printed *)

Lemma prefix_while_all P l : Forall (λ c, P c = true) l → prefix_while P l = l.
Proof. induction 1 as [| c l Hc _ IH]; [done |]. cbn. by rewrite Hc, IH. Qed.

Lemma chars_digits ds : digit_list 10 ds → Forall (λ c, is_digit c = true) (chars ds).
Proof. intros Hds. apply Forall_fmap. eapply Forall_impl; [exact Hds |]. intros d Hd. cbn in *. unfold is_digit. apply bool_decide_eq_true. lia. Qed.

Lemma chars_of upcase ds : digit_list 10 ds → char_of upcase <$> ds = chars ds.
Proof. intros Hds. apply list_fmap_ext. intros i d Hd%list_elem_of_lookup_2. pose proof (proj1 (Forall_forall _ _) Hds d Hd) as Hr. cbn in Hr. rewrite char_of_decimal by lia. lia. Qed.

Lemma unsigned_numeral at_ s n ds negative : numeral 10 n ds → ∃ cut, unsigned_spec at_ s (chars ds) negative = conclude negative n (s + Z.of_nat (length ds)) cut.
Proof.
  intros (Hds & Hv & Hne & Hh). unfold unsigned_spec. destruct ds as [| d ds]; [done |]. destruct (decide (d = 0)) as [-> | Hd0].
  - specialize (Hh eq_refl). injection Hh as ->. cbn in Hv. subst n. eexists. cbn. by rewrite Z.add_0_r.
  - assert (prefix_while is_zero (chars (d :: ds)) = []) as -> by (cbn; unfold is_zero; by rewrite bool_decide_false by lia). cbn [length drop app]. rewrite drop_0, Z.add_0_r.
    rewrite prefix_while_all by (by apply chars_digits). rewrite decide_False by done. eexists. unfold chars at 2. rewrite length_fmap. f_equal. rewrite <- Hv. f_equal. unfold chars. rewrite <- list_fmap_compose.
    rewrite <- (list_fmap_id (d :: ds)) at 2. apply list_fmap_ext. intros i x _. cbn. lia.
Qed.

Lemma spec_numeral at_ n ds (negative : bool) : numeral 10 n ds → ∃ cut,
  strtoll10_spec at_ ((if negative then [45] else []) ++ chars ds) = conclude negative n (at_ + Z.of_nat (length (if negative then [45] else []) + length ds)) cut.
Proof.
  intros Hnum. pose proof Hnum as (Hds & _ & Hne & _). destruct negative.
  - change (strtoll10_spec at_ ([45] ++ chars ds)) with (unsigned_spec at_ (at_ + 1) (chars ds) true).
    destruct (unsigned_numeral at_ (at_ + 1) n ds true Hnum) as (cut & ->). exists cut. f_equal. cbn [length]. lia.
  - unfold strtoll10_spec. destruct ds as [| d ds]; [done |]. apply Forall_cons in Hds as [Hd _].
    assert (prefix_while is_blank ([] ++ chars (d :: ds)) = []) as -> by (cbn; unfold is_blank; by rewrite !bool_decide_false by lia). cbn [length drop app]. rewrite drop_0.
    assert (bool_decide (head (chars (d :: ds)) = Some 45) = false) as -> by (apply bool_decide_eq_false; cbn; intros [= ?]; lia).
    assert (bool_decide (head (chars (d :: ds)) = Some 43) = false) as -> by (apply bool_decide_eq_false; cbn; intros [= ?]; lia). cbn [orb]. rewrite drop_0.
    destruct (unsigned_numeral at_ (at_ + Z.of_nat 0) n (d :: ds) false Hnum) as (cut & Hc). exists cut. etransitivity; [exact Hc |]. f_equal. cbn [length]. lia.
Qed.

Lemma numeral_length r n ds k : 1 < r → numeral r n ds → n < r ^ Z.of_nat k → (0 < k)%nat → (length ds ≤ k)%nat.
Proof.
  intros Hr (Hds & Hv & Hne & Hh) Hn Hk. destruct (decide (head ds = Some 0)) as [H0 | H0]; [rewrite (Hh H0); cbn; lia |].
  pose proof (repr_pos r n ds ltac:(lia) (conj Hds (conj Hv H0)) Hne) as Hp. destruct (decide (length ds ≤ k)%nat) as [| Hl]; [done |].
  pose proof (Z.pow_le_mono_r r (Z.of_nat k) (Z.of_nat (length ds) - 1) ltac:(lia) ltac:(lia)). lia.
Qed.

Lemma conclude_magnitude val radix stop cut : in_long val →
  conclude (bool_decide (radix < 0 ∧ val < 0)) (magnitude val radix) stop cut =
    if decide (radix < 0 ∧ val = LONG_MIN) then UB else Ret (mkNumber val stop (if decide (radix < 0 ∧ val < 0) then -1 else 0)).
Proof.
  intros Hval. pose proof (ulong_long val Hval) as Hu. unfold conclude, magnitude. unfold in_long, LONG_MIN, LONG_MAX in *. case_bool_decide as Hs.
  - rewrite (decide_True (P := radix < 0)), (decide_True (P := radix < 0 ∧ val < 0)) by lia. destruct (decide (val = - 2 ^ 63)) as [-> | Hm].
    + rewrite decide_False, decide_True, decide_True by lia. done.
    + rewrite decide_True, decide_False by lia. do 2 f_equal. lia.
  - rewrite (decide_False (P := radix < 0 ∧ val < 0)), (decide_False (P := radix < 0 ∧ val = - 2 ^ 63)) by lia. destruct (decide (radix < 0)).
    + rewrite decide_True by lia. do 2 f_equal. rewrite to_long_id by long_range. lia.
    + rewrite Hu. case_decide as Hneg; rewrite decide_True by lia; do 2 f_equal.
      * unfold to_long. rewrite <- (Z.mod_unique (val + 2 ^ 64 + 2 ^ 63) (2 ^ 64) 1 (val + 2 ^ 63)); lia.
      * apply to_long_id. long_range.
Qed.

(** Round trip.  A 64-bit integer printed in decimal, signed (radix -10) or unsigned (radix 10), into 21 bytes of memory and read again by
    [my_strtoll10] up to the NUL gives the same integer, with its sign as the error, and stops at the NUL; but for the
    integer -2^63 printed with its sign, on which reading is undefined. *)
Theorem decimal_roundtrip val radix M1 X M2 :
  in_long val → Z.abs radix = 10 → (21 ≤ length X)%nat → ∃ mem stop,
  int10_to_str val (M1 ++ X ++ M2) (Z.of_nat (length M1)) radix = Ret (mem, stop) ∧
  my_strtoll10 mem (Z.of_nat (length M1)) None =
    if decide (radix < 0 ∧ val = LONG_MIN) then UB else Ret (mkNumber val stop (if decide (radix < 0 ∧ val < 0) then -1 else 0)).
Proof.
  intros Hval H10 HX. destruct (print_numeral val radix true Hval) as (ds & Hnum & Hprint); [unfold good_radix; lia |]. rewrite H10 in Hnum.
  pose proof (magnitude_range val radix Hval) as Hmag. pose proof Hnum as (Hds & _). set (k := S (length (sign_of val radix) + length ds)). assert (k ≤ 21)%nat as Hk.
  { unfold k, sign_of. case_decide as Hs; cbn [length].
    - pose proof (numeral_length 10 _ ds 19 ltac:(lia) Hnum). unfold magnitude in *. rewrite decide_True in * by lia. unfold in_long, LONG_MIN, LONG_MAX in Hval. lia.
    - pose proof (numeral_length 10 _ ds 20 ltac:(lia) Hnum). lia. }
  specialize (Hprint M1 (take k X) (drop k X ++ M2) ltac:(rewrite length_take_le; lia)). cbv zeta in Hprint. rewrite (app_assoc (take k X)), take_drop in Hprint. destruct Hprint as (_ & _ & Hp). destruct (Hp H10) as [-> _].
  eexists _, _. split; [done |]. rewrite (chars_of true ds Hds). set (negative := bool_decide (radix < 0 ∧ val < 0)).
  assert (sign_of val radix = if negative then [45] else []) as Hsg by (unfold sign_of, negative; repeat case_decide; by repeat case_bool_decide). rewrite Hsg. rewrite (app_assoc _ (chars ds)).
  cbn [app]. rewrite strtoll10_nul.
  - destruct (spec_numeral (Z.of_nat (length M1)) _ ds negative Hnum) as (cut & ->). rewrite <- (conclude_magnitude val radix _ cut Hval). fold negative. f_equal. lia.
  - apply Forall_app. split; [by destruct negative; repeat constructor |]. apply Forall_fmap. eapply Forall_impl; [exact Hds |]. intros d Hd. cbn in *. lia.
  - unfold chars. rewrite length_app, length_fmap, <- Hsg. lia.
Qed.

Lemma decimal_roundtrip_witness :
  (∃ mem stop, int10_to_str (-42) ([7] ++ replicate 21 0 ++ [9]) 1 (-10) = Ret (mem, stop) ∧ my_strtoll10 mem 1 None = Ret (mkNumber (-42) stop (-1))) ∧
  (∃ mem stop, int10_to_str LONG_MIN ([7] ++ replicate 21 0 ++ [9]) 1 (-10) = Ret (mem, stop) ∧ my_strtoll10 mem 1 None = UB).
Proof.
  split.
  - apply (decimal_roundtrip (-42) (-10) [7] (replicate 21 0) [9]); [long_range | done | cbn; lia].
  - apply (decimal_roundtrip LONG_MIN (-10) [7] (replicate 21 0) [9]); [long_range | done | cbn; lia].
Defined.
