(* ===== verification/StrToInt.v ===== *)
(** * Integers and text: [str2int]

    What [str2int] returns for every text that ends in NUL, that it reads what [int2str] printed, and where it departs from its description. *)

From S2P Require Import Prelude IntStr IntStrSpec StrToll.

(** ** The number *)

Section number.
Context (r N : Z).
Hypothesis Hr : 2 ≤ r ≤ 36.
Hypothesis HN : 0 ≤ N ≤ 2 ^ 63.

(** What is left of the bound above the digits of value [v], of which there are [k]. *)
Definition allows (v : Z) (k : nat) (q : Z) : Prop := 0 ≤ q ∧ ∀ x, 0 ≤ x → v + r ^ Z.of_nat k * x ≤ N ↔ x ≤ q.

Lemma allows_step v k q d : allows v k q → 0 ≤ d ≤ q → allows (v + r ^ Z.of_nat k * d) (S k) ((q - d) / r).
Proof using Hr HN.
  intros [Hq Hleft] Hd. split; [apply Z.div_pos; lia |]. intros x Hx. rewrite Nat2Z.inj_succ, Z.pow_succ_r by lia.
  specialize (Hleft (r * x + d) ltac:(nia)). replace (v + r ^ Z.of_nat k * d + r * r ^ Z.of_nat k * x) with (v + r ^ Z.of_nat k * (r * x + d)) by lia.
  rewrite Hleft. pose proof (Z.div_mod (q - d) r ltac:(lia)). pose proof (Z.mod_pos_bound (q - d) r ltac:(lia)). nia.
Qed.

Lemma allows_bound v k q d : allows v k q → 0 ≤ d ≤ q → v + r ^ Z.of_nat k * d ≤ N.
Proof. intros [_ Hleft] Hd. apply Hleft; lia. Qed.

Lemma convert_spec hi : ∀ lo fuel q, digit_list r (hi ++ lo) → head hi ≠ Some 0 → (length hi ≤ S fuel)%nat → allows (value r lo) (length lo) q →
  ∃ res, (x ← convert fuel (hi ++ lo) r (Z.of_nat (length hi)) (- q) (- value r lo) (- r ^ Z.of_nat (length lo)); last_digit (hi ++ lo) x) = res ∧
  (res = UB ∧ N < value r (hi ++ lo) ∨ res = Ret (if decide (value r (hi ++ lo) ≤ N) then Some (- value r (hi ++ lo)) else None)) ∧
  (r ^ (Z.of_nat (length (hi ++ lo)) - 1) ≤ 2 ^ 63 → res ≠ UB).
Proof using Hr HN.
  induction hi as [| d hi IH] using rev_ind; intros lo fuel q Hds Hh Hfuel Hleft.
  - eexists. split; [destruct fuel; cbn [convert length]; rewrite (bool_decide_false (1 ≤ _)) by lia; obind; unfold last_digit; by rewrite bool_decide_false |]. cbn [app] in *.
    destruct Hleft as [Hq Hleft]. specialize (Hleft 0 ltac:(lia)). rewrite decide_True by lia. split; [by right | done].
  - rewrite <- app_assoc in *. cbn [app] in *. pose proof Hds as [Hdh [Hd Hdl]%Forall_cons]%Forall_app. pose proof (value_bound r lo ltac:(lia) Hdl) as Hlo.
    assert ((hi ++ d :: lo).[Z.of_nat (length hi)] = Ret d) as Hget by (apply vget_nat; by rewrite lookup_app_r, Nat.sub_diag by lia). rewrite length_app in Hfuel |- *. cbn [length] in *.
    assert (value r (d :: lo) = value r lo + r ^ Z.of_nat (length lo) * d) as Hv by (rewrite value_cons; lia). assert (0 ≤ value r hi * r ^ Z.of_nat (length (d :: lo))) as Hhi0
      by (pose proof (value_bound r hi ltac:(lia) Hdh); pose proof (Z.pow_pos_nonneg r (Z.of_nat (length (d :: lo)))); nia).
    assert (q < d → N < value r (hi ++ d :: lo)) as Hover.
    { intros Hqd. rewrite value_app, Hv. destruct Hleft as [_ Hleft]. specialize (Hleft d ltac:(lia)). lia. }
    destruct (decide (hi = [])) as [-> | Hne].
    + cbn [length app] in *. eexists. split; [destruct fuel; cbn [convert]; rewrite (bool_decide_false (1 ≤ _)) by lia; obind; unfold last_digit;
        change (Z.of_nat (0 + 1) - 1) with 0; rewrite bool_decide_true by done; change (Z.of_nat 0) with 0 in Hget; rewrite Hget; obind; reflexivity |].
      case_bool_decide as Hq; [rewrite decide_False by (pose proof (Hover ltac:(lia)); lia); split; [by right | done] |].
      pose proof (allows_bound _ _ _ d Hleft ltac:(lia)) as Hb. rewrite decide_True by (rewrite Hv; lia).
      assert (0 ≤ r ^ Z.of_nat (length lo) * d) by (pose proof (Z.pow_pos_nonneg r (Z.of_nat (length lo))); nia).
      rewrite (long_op_Ret (d * _)) by long_range. obind. rewrite long_op_Ret by long_range. obind.
      rewrite Hv. split; [right; do 2 f_equal; lia | done].
    + destruct fuel as [| fuel]; [destruct hi; [done | cbn in Hfuel; lia] |]. cbn [convert]. assert (length hi ≠ 0%nat) as Hlen by (by destruct hi). rewrite (bool_decide_true (1 ≤ _)) by lia.
      replace (Z.of_nat (length hi + 1) - 1) with (Z.of_nat (length hi)) by lia. rewrite Hget. obind. case_bool_decide as Hq.
      { obind. cbn [last_digit]. rewrite decide_False by (pose proof (Hover ltac:(lia)); lia). eexists. split; [done |]. split; [by right | done]. }
      pose proof (allows_bound _ _ _ d Hleft ltac:(lia)) as Hb. pose proof (allows_step _ _ _ d Hleft ltac:(lia)) as Hstep. pose proof Hleft as [Hq0 _].
      assert (0 ≤ r ^ Z.of_nat (length lo) * d) by (pose proof (Z.pow_pos_nonneg r (Z.of_nat (length lo))); nia). assert (q ≤ N) as HqN
        by (destruct Hleft as [_ Hleft]; specialize (Hleft q Hq0); pose proof (Z.pow_pos_nonneg r (Z.of_nat (length lo))); nia).
      rewrite (long_op_Ret (- q + d)) by long_range. obind. rewrite (long_op_Ret (d * _)) by long_range. obind.
      rewrite (long_op_Ret (- value r lo + _)) by long_range. obind.
      replace (- r ^ Z.of_nat (length lo) * r) with (- r ^ Z.of_nat (length (d :: lo))) by (cbn [length]; rewrite Nat2Z.inj_succ, Z.pow_succ_r by lia; lia).
      replace (- value r lo + d * - r ^ Z.of_nat (length lo)) with (- value r (d :: lo)) by lia. rewrite <- Hv in Hstep.
      replace (Z.quot (- q + d) r) with (- ((q - d) / r)) by (replace (- q + d) with (- (q - d)) by lia; rewrite Z.quot_opp_l, Z.quot_div_nonneg by lia; done).
      destruct (decide (r ^ Z.of_nat (length (d :: lo)) ≤ 2 ^ 63)) as [Hs | Hs].
      * pose proof (Z.pow_pos_nonneg r (Z.of_nat (length (d :: lo)))). rewrite long_op_Ret by long_range. obind.
        apply (IH (d :: lo) fuel); [done | by eapply head_of_snoc | lia | done].
      * unfold long_op. rewrite bool_decide_false by long_range. obind. exists UB. split; [done |].
        assert (r ^ Z.of_nat (length (d :: lo)) ≤ r ^ (Z.of_nat (length (hi ++ d :: lo)) - 1)) as Hmono by (apply Z.pow_le_mono_r; [lia |]; rewrite length_app; lia).
        assert (r ^ (Z.of_nat (length (hi ++ d :: lo)) - 1) ≤ value r (hi ++ d :: lo)) by (apply repr_pos; [lia | split; [done | split; [done | by destruct hi]] | by destruct hi]).
        split; [left; split; [done | lia] | lia].
Qed.

(** The value of the digits [ds], if it is within the bound; the product that overflows can only come with a value that is not. *)
Lemma to_number_spec ds : digit_list r ds → head ds ≠ Some 0 → (length ds ≤ 20)%nat →
  (to_number ds r (- N) = UB ∧ N < value r ds ∨ to_number ds r (- N) = Ret (if decide (value r ds ≤ N) then Some (- value r ds) else None)) ∧
  (r ^ (Z.of_nat (length ds) - 1) ≤ 2 ^ 63 → to_number ds r (- N) ≠ UB).
Proof using Hr HN.
  intros Hds Hh Hlen. destruct (convert_spec ds [] 20 N) as (res & Hres & Hspec); [by rewrite app_nil_r | done | lia | split; [lia |]; intros x Hx; cbn; lia |].
  rewrite !app_nil_r in *. unfold to_number. change (- r ^ Z.of_nat (length [])) with (-1) in Hres. change (- value r []) with 0 in Hres. by rewrite Hres.
Qed.
End number.

(** ** The text *)

(** White space: tab, newline, vertical tab, form feed, carriage return, space and the space that does not break. *)
Definition is_space (c : Z) : bool := bool_decide (9 ≤ c ≤ 13 ∨ c = 32 ∨ c = 160).

Lemma my_isspace_spec c : 0 ≤ c < 256 → my_isspace c = Ret (is_space c).
Proof.
  intros Hc. assert (Forall (λ c, my_isspace c = Ret (is_space c)) (seqZ 0 256)) as Hall.
  { apply Forall_forall. intros x Hx%elem_of_seqZ. assert (∃ n, (n < 256)%nat ∧ x = Z.of_nat n) as (n & Hn & ->) by (exists (Z.to_nat x); lia). clear Hx.
    do 256 (destruct n as [| n]; [vm_compute; reflexivity |]). lia. }
  rewrite Forall_forall in Hall. apply Hall, elem_of_seqZ. lia.
Qed.

Lemma skip_spaces_spec mem t : ∀ fuel s, Forall (λ c, 0 < c < 256) t → (length t < fuel)%nat → sees mem s (t ++ [0]) →
  skip_spaces fuel mem s = Ret (s + Z.of_nat (length (prefix_while is_space t))).
Proof.
  induction t as [| c t IH]; intros fuel s Ht Hfuel Hs; (destruct fuel as [| fuel]; [cbn in Hfuel; lia |]); apply sees_cons in Hs as [Hc Hs]; cbn [skip_spaces prefix_while]; rewrite Hc; obind.
  - change (my_isspace 0) with (Ret false). obind. by rewrite Z.add_0_r.
  - apply Forall_cons in Ht as [Hbc Ht]. rewrite my_isspace_spec by lia. obind. destruct (is_space c); [| cbn; by rewrite Z.add_0_r]. rewrite IH by (done || (cbn in Hfuel; lia)). f_equal. cbn [length]. lia.
Qed.

Lemma skip_zeros_spec mem t : ∀ fuel s, (length t < fuel)%nat → sees mem s (t ++ [0]) → skip_zeros fuel mem s = Ret (s + Z.of_nat (length (prefix_while is_zero t))).
Proof.
  induction t as [| c t IH]; intros fuel s Hfuel Hs; (destruct fuel as [| fuel]; [cbn in Hfuel; lia |]); apply sees_cons in Hs as [Hc Hs]; cbn [skip_zeros prefix_while]; rewrite Hc; obind.
  - cbn. by rewrite Z.add_0_r.
  - fold (is_zero c). destruct (is_zero c); [| cbn; by rewrite Z.add_0_r]. rewrite IH by (done || (cbn in Hfuel; lia)). f_equal. cbn [length]. lia.
Qed.

Definition is_radix_digit (r c : Z) : bool := bool_decide (char_val c < r).

Lemma scan_digits_spec mem r t : 2 ≤ r ≤ 36 → ∀ fuel s acc, (length acc ≤ 20)%nat → (20 - length acc < fuel)%nat → sees mem s (t ++ [0]) →
  let digits := take (20 - length acc) (prefix_while (is_radix_digit r) t) in
  scan_digits fuel mem r s acc = Ret (s + Z.of_nat (length digits), acc ++ (char_val <$> digits)).
Proof.
  intros Hr. induction t as [| c t IH]; intros fuel s acc Hacc Hfuel Hs digits; (destruct fuel as [| fuel]; [lia |]); apply sees_cons in Hs as [Hc Hs]; cbn [scan_digits]; rewrite Hc; obind.
  - rewrite bool_decide_false by (change (char_val 0) with 127; lia). unfold digits. cbn [prefix_while]. rewrite take_nil. cbn. by rewrite Z.add_0_r, app_nil_r.
  - unfold digits. cbn [prefix_while]. fold (is_radix_digit r c). destruct (is_radix_digit r c); [| rewrite take_nil; cbn; by rewrite Z.add_0_r, app_nil_r]. cbn [andb].
    destruct (decide (length acc = 20%nat)) as [H20 | H20].
    + rewrite bool_decide_false by lia. rewrite H20. cbn. by rewrite Z.add_0_r, app_nil_r.
    + rewrite bool_decide_true by lia. rewrite IH; [| rewrite length_app; cbn; lia | rewrite length_app; cbn; lia | done]. rewrite length_app. cbn [length].
      destruct (20 - length acc)%nat as [| m] eqn:Hm; [lia |]. replace (20 - (length acc + 1))%nat with m by lia. cbn [take length fmap list_fmap]. rewrite <- app_assoc. cbn. f_equal. f_equal. lia.
Qed.

(** What [str2int] takes of a text: whether the number is negative, the characters before its zeros, the number of zeros, and at most twenty digits. *)
Definition reading (r : Z) (t : list Z) : bool * nat * nat * list Z :=
  let spaces := prefix_while is_space t in
  let t := drop (length spaces) t in
  let negative := bool_decide (head t = Some 45) in
  let sign := if negative || bool_decide (head t = Some 43) then 1%nat else 0%nat in
  let t := drop sign t in
  let zeros := prefix_while is_zero t in
  let digits := take 20 (prefix_while (is_radix_digit r) (drop (length zeros) t)) in
  (negative, (length spaces + sign)%nat, length zeros, char_val <$> digits).

Lemma radix_digits r t : 2 ≤ r ≤ 36 → digit_list r (char_val <$> prefix_while (is_radix_digit r) t).
Proof.
  intros Hr. apply Forall_fmap. destruct (prefix_while_split (is_radix_digit r) t) as (_ & _ & _ & Hall & _). eapply Forall_impl; [exact Hall |]. intros c Hc%bool_decide_eq_true. cbn.
  unfold char_val in *. repeat case_bool_decide; lia.
Qed.

Lemma char_val_zero c : char_val c = 0 → c = 48.
Proof. unfold char_val. repeat case_bool_decide; lia. Qed.

Lemma reading_spec r t negative skipped zeros ds : 2 ≤ r ≤ 36 → reading r t = (negative, skipped, zeros, ds) → digit_list r ds ∧ head ds ≠ Some 0 ∧ (length ds ≤ 20)%nat.
Proof.
  intros Hr [= <- <- <- <-]. set (t' := drop _ t). set (t'' := drop _ t'). destruct (prefix_while_split is_zero t'') as (rest & _ & -> & _ & Hrest). split_and!.
  - rewrite fmap_take. by apply Forall_take, radix_digits.
  - destruct rest as [| c rest]; [done |]. cbn. destruct (is_radix_digit r c); [| done]. cbn. intros [= Hc%char_val_zero]. subst. by specialize (Hrest 48 eq_refl).
  - rewrite length_fmap, length_take. lia.
Qed.

Lemma sign_spec mem s t : sees mem s (t ++ [0]) → ∃ c, mem.[s] = Ret c ∧
  let negative := bool_decide (head t = Some 45) in
  let sign := if negative || bool_decide (head t = Some 43) then 1%nat else 0%nat in
  (if bool_decide (c = 43) then (s + 1, -1) else if bool_decide (c = 45) then (s + 1, 1) else (s, -1)) = (s + Z.of_nat sign, if negative then 1 else -1) ∧ (sign ≤ length t)%nat.
Proof.
  destruct t as [| c t]; intros [Hc _]%sees_cons; eexists; (split; [exact Hc |]); cbn [head].
  - rewrite !bool_decide_false by done. cbn. rewrite Z.add_0_r. done.
  - rewrite (bool_decide_ext (Some c = Some 45) (c = 45)), (bool_decide_ext (Some c = Some 43) (c = 43)) by naive_solver. cbn [length].
    destruct (decide (c = 45)) as [-> | H45]; [split; [done | change (1 ≤ S (length t))%nat; lia] |]. rewrite (bool_decide_false (c = 45)) by done. cbn [orb]. case_bool_decide; split; try lia; [done | by rewrite Z.add_0_r].
Qed.

(** The number that [str2int] has read, and its fate. *)
Lemma str2int_reading A t B r lower upper negative skipped zeros ds :
  2 ≤ r ≤ 36 → in_long lower → in_long upper → Forall (λ c, 0 < c < 256) t → reading r t = (negative, skipped, zeros, ds) →
  let limit := - Z.max (Z.abs lower) (Z.abs upper) in
  let stop := Z.of_nat (length A + skipped + zeros + length ds) in
  str2int (A ++ t ++ 0 :: B) (Z.of_nat (length A)) r lower upper =
    if decide (zeros = 0%nat ∧ ds = []) then Ret (failure MY_ERRNO_EDOM)
    else
      sofar ← to_number ds r limit;
      match sofar with
      | None => Ret (failure MY_ERRNO_ERANGE)
      | Some sofar =>
          if negative then if bool_decide (sofar < lower) then Ret (failure MY_ERRNO_ERANGE) else Ret (mkInteger (Some stop) sofar 0)
          else if bool_decide (sofar < - LONG_MAX) then Ret (failure MY_ERRNO_ERANGE)
          else
            sofar ← long_op (- sofar);
            if bool_decide (sofar > upper) then Ret (failure MY_ERRNO_ERANGE) else Ret (mkInteger (Some stop) sofar 0)
      end.
Proof.
  intros Hr Hlo Hup Ht Hread limit stop. assert (sees (A ++ t ++ 0 :: B) (Z.of_nat (length A)) (t ++ [0])) as Hsees by (pose proof (sees_mem A (t ++ [0]) B) as Hs; by rewrite <- app_assoc in Hs).
  unfold str2int. assert ((if bool_decide (lower > 0) then long_op (- lower) else Ret lower) = Ret (- Z.abs lower)) as -> by (case_bool_decide; [rewrite long_op_Ret by long_range |]; f_equal; lia).
  assert ((if bool_decide (upper > 0) then long_op (- upper) else Ret upper) = Ret (- Z.abs upper)) as -> by (case_bool_decide; [rewrite long_op_Ret by long_range |]; f_equal; lia). obind.
  assert ((if bool_decide (- Z.abs upper < - Z.abs lower) then - Z.abs upper else - Z.abs lower) = limit) as -> by (unfold limit; case_bool_decide; lia).
  rewrite (skip_spaces_spec _ t) by (done || (rewrite !length_app; lia)). obind. unfold reading in Hread. pose proof (prefix_while_length is_space t) as Hlen. apply (sees_drop _ _ (length (prefix_while is_space t))) in Hsees.
  rewrite drop_app_le in Hsees by done. set (k := length (prefix_while is_space t)) in *. set (t1 := drop k t) in *. assert (length t1 = (length t - k)%nat) as Hlen1 by apply length_drop.
  destruct (sign_spec _ _ t1 Hsees) as (c & -> & Hsign & Hls). obind. rewrite Hsign. set (neg := bool_decide (head t1 = Some 45)) in *. set (sign := if neg || _ then _ else _) in *.
  apply (sees_drop _ _ sign) in Hsees. rewrite drop_app_le in Hsees by done. set (t2 := drop sign t1) in *. assert (length t2 = (length t1 - sign)%nat) as Hlen2 by apply length_drop.
  rewrite (skip_zeros_spec _ t2) by (done || (rewrite !length_app; lia)). obind. pose proof (prefix_while_length is_zero t2). apply (sees_drop _ _ (length (prefix_while is_zero t2))) in Hsees.
  rewrite drop_app_le in Hsees by done. rewrite (scan_digits_spec _ r _ Hr _ _ []) by (done || (cbn; lia)). obind. cbn [app length]. change (20 - 0)%nat with 20%nat. injection Hread as <- <- <- <-.
  set (zs := prefix_while is_zero t2) in *. set (digits := take 20 (prefix_while (is_radix_digit r) (drop (length zs) t2))) in *. unfold stop. rewrite length_fmap. set (s := Z.of_nat (length A) + Z.of_nat k + Z.of_nat sign).
  assert (bool_decide (s = s + Z.of_nat (length zs) + Z.of_nat (length digits)) = bool_decide (length zs = 0%nat ∧ char_val <$> digits = [])) as ->.
  { apply bool_decide_ext. rewrite <- (length_zero_iff_nil (char_val <$> digits)), length_fmap. lia. }
  destruct (decide (length zs = 0%nat ∧ char_val <$> digits = [])) as [Hnone | Hnone]; [by rewrite bool_decide_true by exact Hnone | rewrite bool_decide_false by exact Hnone]. destruct (to_number _ _ _) as [[sofar |] | |]; [| done | done | done]. obind.
  assert (s + Z.of_nat (length zs) + Z.of_nat (length digits) = Z.of_nat (length A + (k + sign) + length zs + length digits)) as -> by (unfold s; lia). by destruct neg.
Qed.

(** The number read is accepted if it is above [lower] or below [upper], by its sign. *)
Definition accepted (negative : bool) (v lower upper : Z) : Prop := if negative then lower ≤ v else v ≤ upper.
#[global] Instance accepted_dec negative v lower upper : Decision (accepted negative v lower upper).
Proof. destruct negative; cbn; apply _. Defined.

Lemma str2int_text A t B r lower upper negative skipped zeros ds :
  2 ≤ r ≤ 36 → in_long lower → in_long upper → Forall (λ c, 0 < c < 256) t → reading r t = (negative, skipped, zeros, ds) →
  let v := if negative then - value r ds else value r ds in
  let result := str2int (A ++ t ++ 0 :: B) (Z.of_nat (length A)) r lower upper in
  if decide (zeros = 0%nat ∧ ds = []) then result = Ret (failure MY_ERRNO_EDOM)
  else if decide (accepted negative v lower upper) then result = Ret (mkInteger (Some (Z.of_nat (length A + skipped + zeros + length ds))) v 0)
  else (result = Ret (failure MY_ERRNO_ERANGE) ∨ result = UB) ∧ (r ^ (Z.of_nat (length ds) - 1) ≤ 2 ^ 63 → result = Ret (failure MY_ERRNO_ERANGE)).
Proof.
  intros Hr Hlo Hup Ht Hread v result. pose proof (reading_spec _ _ _ _ _ _ Hr Hread) as (Hds & Hh & Hlen). unfold result. rewrite (str2int_reading A t B r lower upper _ _ _ _ Hr Hlo Hup Ht Hread). cbv zeta.
  set (N := Z.max (Z.abs lower) (Z.abs upper)). assert (0 ≤ N ≤ 2 ^ 63) as HN by (unfold N; long_range). pose proof (value_bound r ds ltac:(lia) Hds) as Hv. case_decide as Hnone; [done |].
  destruct (to_number_spec r N Hr HN ds Hds Hh Hlen) as [[[HUB Hbig] | Hres] Hno].
  - rewrite HUB in *. obind. rewrite decide_False by (unfold accepted, v; destruct negative; unfold N in Hbig; lia). split; [by right |]. intros Hpow. by destruct (Hno Hpow).
  - rewrite Hres. obind. clear Hres Hno. destruct (decide (value r ds ≤ N)) as [HvN | HvN]; [| rewrite decide_False by (unfold accepted, v; destruct negative; unfold N in HvN; lia); split; [by left | done]].
    destruct negative; cbn [accepted] in *.
    + case_decide as Ha; [by rewrite bool_decide_false by lia |]. rewrite bool_decide_true by lia. split; [by left | done].
    + case_bool_decide as Hmax; [rewrite decide_False by long_range; split; [by left | done] |]. rewrite long_op_Ret by long_range. obind. rewrite Z.opp_involutive.
      case_decide as Ha; [by rewrite bool_decide_false by lia |]. rewrite bool_decide_true by lia. split; [by left | done].
Qed.

(** C31: Reading with bounds.  On a text that ends in NUL [str2int] skips white space, a sign and leading zeros and takes at most twenty digits of the radix; the number is that of the digits taken, so that a longer one is cut ([str2int_deviates]).  Without a
    digit it fails with EDOM.  A negative number is accepted if it is not below [lower], any other if it is not above
    [upper], and is returned with the address after the digits; a number that is refused gives ERANGE, unless the power
    of the radix for its first digit exceeds 2^63, when the multiplication may overflow instead. *)
Theorem str2int_correct A t B r lower upper :
  2 ≤ r ≤ 36 → in_long lower → in_long upper → Forall (λ c, 0 < c < 256) t →
  let '(negative, skipped, zeros, ds) := reading r t in
  let v := if negative then - value r ds else value r ds in
  let result := str2int (A ++ t ++ 0 :: B) (Z.of_nat (length A)) r lower upper in
  if decide (zeros = 0%nat ∧ ds = []) then result = Ret (failure MY_ERRNO_EDOM)
  else if decide (accepted negative v lower upper) then result = Ret (mkInteger (Some (Z.of_nat (length A + skipped + zeros + length ds))) v 0)
  else (result = Ret (failure MY_ERRNO_ERANGE) ∨ result = UB) ∧ (r ^ (Z.of_nat (length ds) - 1) ≤ 2 ^ 63 → result = Ret (failure MY_ERRNO_ERANGE)).
Proof. intros Hr Hlo Hup Ht. destruct (reading r t) as [[[negative skipped] zeros] ds] eqn:Hread. by apply str2int_text. Qed.

(** The text -7ff in hexadecimal. *)
Lemma str2int_correct_witness : str2int ([9] ++ [32; 45; 48; 55; 102; 70] ++ 0 :: [9]) 1 16 (-5000) 100 = Ret (mkInteger (Some 7) (-2047) 0).
Proof.
  pose proof (str2int_correct [9] [32; 45; 48; 55; 102; 70] [9] 16 (-5000) 100 ltac:(lia) ltac:(long_range) ltac:(long_range) ltac:(repeat constructor; lia)) as H. exact H.
Defined.

(** ** Reading what was printed *)

Lemma char_val_of upcase d : 0 ≤ d < 36 → char_val (char_of upcase d) = d ∧ 0 < char_of upcase d < 256 ∧ (d ≠ 0 → char_of upcase d ≠ 48) ∧ is_space (char_of upcase d) = false ∧
  char_of upcase d ≠ 45 ∧ char_of upcase d ≠ 43.
Proof.
  intros Hd. assert (∃ n, (n < 36)%nat ∧ d = Z.of_nat n) as (n & Hn & ->) by (exists (Z.to_nat d); lia). clear Hd.
  do 36 (destruct n as [| n]; [destruct upcase; vm_compute; split_and!; done |]). lia.
Qed.

Lemma reading_numeral r n ds upcase (negative : bool) : 2 ≤ r ≤ 36 → numeral r n ds → (length ds ≤ 20)%nat → ∃ zeros ds',
  reading r ((if negative then [45] else []) ++ (char_of upcase <$> ds)) = (negative, length (if negative then [45] else []), zeros, ds') ∧
  value r ds' = n ∧ (zeros + length ds')%nat = length ds ∧ ¬ (zeros = 0%nat ∧ ds' = []).
Proof.
  intros Hr (Hds & Hv & Hne & Hh) Hlen. destruct ds as [| d ds]; [done |]. pose proof Hds as [Hd _]%Forall_cons. destruct (char_val_of upcase d ltac:(lia)) as (Hcv & Hb & H48 & Hsp & H45 & H43).
  assert (reading r ((if negative then [45] else []) ++ (char_of upcase <$> d :: ds)) =
    (negative, length (if negative then [45] else []), length (prefix_while is_zero (char_of upcase <$> d :: ds)),
     char_val <$> take 20 (prefix_while (is_radix_digit r) (drop (length (prefix_while is_zero (char_of upcase <$> d :: ds))) (char_of upcase <$> d :: ds))))) as ->.
  { destruct negative; [reflexivity |]. unfold reading. cbn [app]. assert (prefix_while is_space (char_of upcase <$> d :: ds) = []) as -> by (cbn; by rewrite Hsp). cbn [length drop].
    rewrite drop_0, (bool_decide_false (head _ = Some 45)), (bool_decide_false (head _ = Some 43)) by (cbn; congruence). cbn [orb]. by rewrite drop_0. }
  destruct (decide (d = 0)) as [-> | Hd0].
  - specialize (Hh eq_refl). injection Hh as ->. exists 1%nat, []. split; [destruct upcase; reflexivity |]. cbn in Hv. split; [done |]. split; [done |]. by intros [? _].
  - assert (prefix_while is_zero (char_of upcase <$> d :: ds) = []) as -> by (cbn; unfold is_zero; by rewrite bool_decide_false by (by apply H48)). cbn [length]. rewrite drop_0.
    rewrite prefix_while_all, take_ge by (first [rewrite length_fmap; done | apply Forall_fmap; eapply Forall_impl; [exact Hds |]; intros x Hx; cbn in *; unfold is_radix_digit; apply bool_decide_eq_true;
      destruct (char_val_of upcase x ltac:(lia)) as [-> _]; lia]). exists 0%nat, (d :: ds). split; [| split_and!; [done | done | by intros [_ ?]]]. f_equal. rewrite <- list_fmap_compose. rewrite <- (list_fmap_id (d :: ds)) at 2.
    apply list_fmap_ext. intros i x Hx%list_elem_of_lookup_2. pose proof (proj1 (Forall_forall _ _) Hds x Hx) as Hxr. cbn in *. by destruct (char_val_of upcase x ltac:(lia)) as [-> _].
Qed.

(** Round trip in a radix.  Every 64-bit integer printed by [int2str] with its sign in a radix from 9 to 36 and read by [str2int] with
    the bounds of [long] gives the same integer without an error, and the address of the NUL. *)
Theorem radix_roundtrip val r upcase M1 X M2 :
  in_long val → 9 ≤ r ≤ 36 → (22 ≤ length X)%nat → ∃ mem stop,
  int2str val (M1 ++ X ++ M2) (Z.of_nat (length M1)) (- r) upcase = Ret (mem, Some stop) ∧
  str2int mem (Z.of_nat (length M1)) r LONG_MIN LONG_MAX = Ret (mkInteger (Some stop) val 0).
Proof.
  intros Hval Hr HX. destruct (print_numeral val (- r) upcase Hval) as (ds & Hnum & Hprint); [unfold good_radix; lia |]. replace (Z.abs (- r)) with r in Hnum by lia.
  unfold magnitude, sign_of in *. rewrite decide_True in Hnum by lia. set (negative := bool_decide (val < 0)). assert ((if decide (- r < 0 ∧ val < 0) then [45] else []) = if negative then [45] else []) as Hsg
    by (unfold negative; case_decide; [rewrite bool_decide_true by lia | rewrite bool_decide_false by lia]; done). rewrite Hsg in Hprint.
  pose proof (Z.pow_le_mono_l 9 r 20 ltac:(lia)). assert (length ds ≤ 20)%nat as Hlen by (apply (numeral_length r (Z.abs val)); [lia | done | change (Z.of_nat 20) with 20; long_range | lia]).
  set (k := S (length (if negative then [45] else []) + length ds)). assert (k ≤ 22)%nat as Hk by (unfold k; destruct negative; cbn; lia).
  specialize (Hprint M1 (take k X) (drop k X ++ M2) ltac:(rewrite length_take_le; lia)). cbv zeta in Hprint. rewrite (app_assoc (take k X)), take_drop in Hprint. destruct Hprint as (-> & _).
  eexists _, _. split; [done |]. destruct (reading_numeral r _ ds upcase negative ltac:(lia) Hnum Hlen) as (zeros & ds' & Hread & Hv & Hl & Hsome). rewrite (app_assoc (if negative then _ else _)). cbn [app].
  set (t := (if negative then [45] else []) ++ (char_of upcase <$> ds)) in *. assert (Forall (λ c, 0 < c < 256) t) as Ht.
  { apply Forall_app. split; [by destruct negative; repeat constructor |]. apply Forall_fmap. eapply Forall_impl; [apply Hnum |]. intros x Hx. cbn in *. apply char_val_of. lia. }
  pose proof (str2int_text M1 t (drop k X ++ M2) r LONG_MIN LONG_MAX _ _ _ _ ltac:(lia) ltac:(long_range) ltac:(long_range) Ht Hread) as Htext. cbv zeta in Htext.
  rewrite decide_False in Htext by done. rewrite Hv in Htext. assert ((if negative then - Z.abs val else Z.abs val) = val) as Hval' by (unfold negative; case_bool_decide; lia).
  rewrite Hval', decide_True in Htext by (unfold accepted; destruct negative; long_range). rewrite Htext. do 3 f_equal. lia.
Qed.

Lemma radix_roundtrip_witness : ∃ mem stop,
  int2str LONG_MIN ([1] ++ replicate 22 0 ++ [2]) 1 (-9) false = Ret (mem, Some stop) ∧ str2int mem 1 9 LONG_MIN LONG_MAX = Ret (mkInteger (Some stop) LONG_MIN 0).
Proof. apply (radix_roundtrip LONG_MIN 9 false [1] (replicate 22 0) [2]); [long_range | lia | cbn; lia]. Defined.

(** Where [str2int] departs from its description: a number of more than twenty digits in radix 2 is cut without an error; the number
    10^19 makes a multiplication overflow; 3 is accepted between 5 and 10; and a newline is skipped as white space. *)
Theorem str2int_deviates :
  str2int (replicate 21 49 ++ [0]) 0 2 LONG_MIN LONG_MAX = Ret (mkInteger (Some 20) (2 ^ 20 - 1) 0) ∧
  str2int ([49] ++ replicate 19 48 ++ [0]) 0 10 LONG_MIN LONG_MAX = UB ∧
  str2int [51; 0] 0 10 5 10 = Ret (mkInteger (Some 1) 3 0) ∧
  str2int [10; 51; 0] 0 10 0 10 = Ret (mkInteger (Some 2) 3 0).
Proof. vm_compute. done. Qed.
