(* ===== verification/Qsort.v ===== *)
(** * Sorting (src/project4/mariadb/server/mysys/mf_qsort.c)

    [my_qsort], of which [my_qsort2] is a copy with one more argument for the comparison: quicksort with a stack of ranges, a
    median as the pivot, and insertion sort for small ranges.

    The array is a list; a pointer into it is the index of the element, and the difference of two pointers is the difference of the
    indices times [size].  The stack has [STACK_SIZE] elements, of which the first is not written: the last POP leaves the
    loop, and the range that it reads is not used. *)

From S2P Require Import Prelude.

Definition STACK_SIZE : Z := 8 * 8.
Definition THRESHOLD_FOR_INSERT_SORT : Z := 10.

Section qsort.
Context {A : Type} (cmp : A → A → Z).
Implicit Types (l : list A).

Definition CMP l (a b : Z) : outcome Z := x ← l.[a]; y ← l.[b]; Ret (cmp x y).

Definition SWAP l (a b : Z) : outcome (list A) :=
  x ← l.[a];
  y ← l.[b];
  l ← l.[a := y];
  l.[b := x].

(** Put the median in the middle argument. *)
Definition MEDIAN l (low mid high : Z) : outcome (list A) :=
  c ← CMP l high low;
  l ← (if bool_decide (c < 0) then SWAP l high low else Ret l);
  c ← CMP l mid low;
  if bool_decide (c < 0) then SWAP l mid low
  else
    c ← CMP l high mid;
    if bool_decide (c < 0) then SWAP l mid high else Ret l.

(** ** Insertion sort *)

Fixpoint sink (fuel : nat) l (low ptr : Z) : outcome (list A) :=
  if bool_decide (ptr > low) then
    c ← CMP l (ptr - 1) ptr;
    if bool_decide (c > 0) then
      match fuel with
      | O => NoFuel
      | S fuel => l ← SWAP l ptr (ptr - 1); sink fuel l low (ptr - 1)
      end
    else Ret l
  else Ret l.

Fixpoint insert_sort (fuel : nat) l (low high low_ptr : Z) : outcome (list A) :=
  if bool_decide (low_ptr ≤ high) then
    match fuel with
    | O => NoFuel
    | S fuel => l ← sink (length l) l low low_ptr; insert_sort fuel l low high (low_ptr + 1)
    end
  else Ret l.

(** ** Partition *)

(** The pivot is put at [mid]; the result has [mid] and the first [low_ptr] and [high_ptr]. *)
Definition find_pivot l (low high count : Z) : outcome (list A * Z * Z * Z) :=
  let mid := low + Z.shiftr count 1 in
  if bool_decide (count > 40) then
    let step := count / 8 in
    l ← MEDIAN l low (low + step) (low + step * 2);
    l ← MEDIAN l (mid - step) mid (mid + step);
    l ← MEDIAN l (high - 2 * step) (high - step) high;
    l ← MEDIAN l (low + step) mid (high - step);
    Ret (l, mid, low, high)
  else
    l ← MEDIAN l low mid high;
    Ret (l, mid, low + 1, high - 1).

Fixpoint scan_up (fuel : nat) l (pivot : A) (low_ptr : Z) : outcome Z :=
  x ← l.[low_ptr];
  if bool_decide (cmp x pivot < 0) then
    match fuel with
    | O => NoFuel
    | S fuel => scan_up fuel l pivot (low_ptr + 1)
    end
  else Ret low_ptr.

Fixpoint scan_down (fuel : nat) l (pivot : A) (high_ptr : Z) : outcome Z :=
  x ← l.[high_ptr];
  if bool_decide (cmp pivot x < 0) then
    match fuel with
    | O => NoFuel
    | S fuel => scan_down fuel l pivot (high_ptr - 1)
    end
  else Ret high_ptr.

Fixpoint partition (fuel : nat) l (pivot : A) (low_ptr high_ptr : Z) : outcome (list A * Z * Z) :=
  match fuel with
  | O => NoFuel
  | S fuel =>
      low_ptr ← scan_up (length l) l pivot low_ptr;
      high_ptr ← scan_down (length l) l pivot high_ptr;
      if bool_decide (low_ptr < high_ptr) then
        l ← SWAP l low_ptr high_ptr;
        let low_ptr := low_ptr + 1 in
        let high_ptr := high_ptr - 1 in
        if bool_decide (low_ptr ≤ high_ptr) then partition fuel l pivot low_ptr high_ptr else Ret (l, low_ptr, high_ptr)
      else if bool_decide (low_ptr = high_ptr) then Ret (l, low_ptr + 1, high_ptr - 1)
      else Ret (l, low_ptr, high_ptr)
  end.

(** ** The loop over the ranges *)

(** [PUSH]: the entries pushed, the last one first. *)
Definition PUSH (stack : list (Z * Z)) (low high : Z) : outcome (list (Z * Z)) :=
  if bool_decide (1 + Z.of_nat (length stack) < STACK_SIZE) then Ret ((low, high) :: stack) else UB.

(** [POP]; [None] when the stack pointer is back at the start. *)
Definition POP (stack : list (Z * Z)) : option (list (Z * Z) * Z * Z) :=
  match stack with
  | [] => None
  | (low, high) :: stack => Some (stack, low, high)
  end.

(** The next range after a partition; the differences in bytes are converted to [int]. *)
Definition next_range (size : Z) (stack : list (Z * Z)) (low high low_ptr high_ptr : Z) : outcome (option (list (Z * Z) * Z * Z)) :=
  let empty a b := bool_decide (wrap32 (size * (b - a)) ≤ 0) in
  if empty low high_ptr then
    if empty low_ptr high then Ret (POP stack) else Ret (Some (stack, low_ptr, high))
  else if empty low_ptr high then Ret (Some (stack, low, high_ptr))
  else if bool_decide (high_ptr - low > high - low_ptr) then
    stack ← PUSH stack low high_ptr; Ret (Some (stack, low_ptr, high))
  else
    stack ← PUSH stack low_ptr high; Ret (Some (stack, low, high_ptr)).

(** One turn: the range is sorted, or partitioned. *)
Definition sort_range (size : Z) l (stack : list (Z * Z)) (low high : Z) : outcome (list A * option (list (Z * Z) * Z * Z)) :=
  let count := high - low + 1 in
  if bool_decide (count < THRESHOLD_FOR_INSERT_SORT) then
    l ← insert_sort (length l) l low high (low + 1);
    Ret (l, POP stack)
  else
    '(l, mid, low_ptr, high_ptr) ← find_pivot l low high count;
    pivot ← l.[mid];
    '(l, low_ptr, high_ptr) ← partition (length l) l pivot low_ptr high_ptr;
    next ← next_range size stack low high low_ptr high_ptr;
    Ret (l, next).

Fixpoint sort_loop (fuel : nat) (size : Z) l (stack : list (Z * Z)) (low high : Z) : outcome (list A) :=
  match fuel with
  | O => NoFuel
  | S fuel =>
      '(l, next) ← sort_range size l stack low high;
      match next with
      | None => Ret l
      | Some (stack, low, high) => sort_loop fuel size l stack low high
      end
  end.

Definition my_qsort (size : Z) l : outcome (list A) :=
  let count := Z.of_nat (length l) in
  if bool_decide (count ≤ 1) then Ret l else sort_loop (2 * length l) size l [] 0 (count - 1).
End qsort.
