(* ===== verification/QsortSpec.v ===== *)
(** * Sorting: correctness

    [my_qsort] sorts an array of less than 2^31 bytes for every comparison of a total preorder, within its stack.  The invariant
    of the loop ([pending]) says that two elements that are not in one range that is still to be sorted are in order. *)

From S2P Require Import Prelude Qsort.

(** ** Access by index *)

Section access.
Context {A : Type}.
Implicit Types (l : list A).

Lemma vget_range l i : 0 ≤ i < Z.of_nat (length l) → ∃ x, l.[i] = Ret x.
Proof.
  intros Hi. unfold vget. rewrite bool_decide_true by lia. destruct (lookup_lt_is_Some_2 l (Z.to_nat i)) as [x Hx]; [lia |]. rewrite Hx. by eexists.
Qed.

Lemma vget_inside l i x : l.[i] = Ret x → 0 ≤ i < Z.of_nat (length l).
Proof.
  unfold vget. case_bool_decide as Hi; [| done]. destruct (l !! Z.to_nat i) as [y |] eqn:Hy; [| done]. intros _. apply lookup_lt_Some in Hy. lia.
Qed.

Lemma vget_lookup l i x : l.[i] = Ret x ↔ 0 ≤ i ∧ l !! Z.to_nat i = Some x.
Proof. unfold vget. case_bool_decide; [| naive_solver lia]. destruct (l !! Z.to_nat i); cbn; naive_solver. Qed.

(** [l'] is [l] with the elements from [a] to [b] rearranged. *)
Record rearranged (a b : Z) l l' : Prop := {
  ra_perm : l' ≡ₚ l;
  ra_outside k : k < a ∨ b < k → l'.[k] = l.[k];
  ra_inside k : a ≤ k ≤ b → ∃ k', a ≤ k' ≤ b ∧ l'.[k] = l.[k']
}.

Lemma rearranged_refl a b l : rearranged a b l l.
Proof. split; [done | done |]. intros k Hk. by exists k. Qed.

Lemma rearranged_trans a b l1 l2 l3 : rearranged a b l1 l2 → rearranged a b l2 l3 → rearranged a b l1 l3.
Proof.
  intros [Hp1 Ho1 Hi1] [Hp2 Ho2 Hi2]. split; [by rewrite Hp2 | intros k Hk; by rewrite Ho2, Ho1 |].
  intros k Hk. destruct (Hi2 k Hk) as (k' & Hk' & ->). destruct (Hi1 k' Hk') as (k'' & Hk'' & ->). by exists k''.
Qed.

Lemma rearranged_length a b l l' : rearranged a b l l' → length l' = length l.
Proof. intros [Hp _ _]. by apply Permutation_length. Qed.

Lemma rearranged_widen a b a' b' l l' : rearranged a b l l' → a' ≤ a → b ≤ b' → rearranged a' b' l l'.
Proof.
  intros [Hp Ho Hi] Ha Hb. split; [done | intros k Hk; apply Ho; lia |]. intros k Hk. destruct (decide (a ≤ k ≤ b)) as [Hin | Hin].
  - destruct (Hi k Hin) as (k' & Hk' & Heq). exists k'. split; [lia | done].
  - exists k. split; [done | apply Ho; lia].
Qed.

Lemma swapped_perm l i j x y : l !! i = Some x → l !! j = Some y → <[j := x]> (<[i := y]> l) ≡ₚ l.
Proof.
  intros Hi Hj. destruct (decide (i = j)) as [-> | Hne]; [assert (x = y) as -> by congruence; by rewrite list_insert_insert_eq, list_insert_id |].
  apply Permutation_inj. split; [by rewrite !length_insert |]. exists (λ k, if decide (k = i) then j else if decide (k = j) then i else k). split.
  - intros a b. repeat case_decide; congruence.
  - intros k. pose proof (lookup_lt_Some _ _ _ Hi). pose proof (lookup_lt_Some _ _ _ Hj). cbv beta. destruct (decide (k = j)) as [-> | Hkj].
    + rewrite list_lookup_insert_eq by (by rewrite length_insert). by destruct (decide (j = i)).
    + rewrite list_lookup_insert_ne by done. destruct (decide (k = i)) as [-> | Hki]; [by rewrite list_lookup_insert_eq | by rewrite list_lookup_insert_ne].
Qed.

Lemma SWAP_spec l i j : 0 ≤ i < Z.of_nat (length l) → 0 ≤ j < Z.of_nat (length l) → ∃ l',
  SWAP l i j = Ret l' ∧ l'.[i] = l.[j] ∧ l'.[j] = l.[i] ∧ (∀ k, k ≠ i → k ≠ j → l'.[k] = l.[k]) ∧ l' ≡ₚ l.
Proof.
  intros Hi Hj. destruct (vget_range l i Hi) as [x Hx], (vget_range l j Hj) as [y Hy]. unfold SWAP. rewrite Hx, Hy. obind. unfold vset. rewrite bool_decide_true by done. obind.
  rewrite bool_decide_true by (by rewrite length_insert). eexists. split; [done |]. apply vget_lookup in Hx as [_ Hx], Hy as [_ Hy]. split_and!.
  - apply vget_lookup. split; [lia |]. destruct (decide (i = j)) as [-> | Hne]; [rewrite list_lookup_insert_eq by (rewrite length_insert; lia); congruence |].
    rewrite list_lookup_insert_ne by lia. by rewrite list_lookup_insert_eq by lia.
  - apply vget_lookup. split; [lia |]. by rewrite list_lookup_insert_eq by (rewrite length_insert; lia).
  - intros k Hki Hkj. unfold vget. case_bool_decide; [| done]. by rewrite !list_lookup_insert_ne by lia.
  - by apply swapped_perm.
Qed.

Lemma SWAP_rearranged l a b i j : 0 ≤ a → b < Z.of_nat (length l) → a ≤ i ≤ b → a ≤ j ≤ b → ∃ l',
  SWAP l i j = Ret l' ∧ rearranged a b l l' ∧ l'.[i] = l.[j] ∧ l'.[j] = l.[i] ∧ (∀ k, k ≠ i → k ≠ j → l'.[k] = l.[k]).
Proof.
  intros Ha Hb Hi Hj. destruct (SWAP_spec l i j ltac:(lia) ltac:(lia)) as (l' & -> & Hgi & Hgj & Hgk & Hp). exists l'. split; [done |]. split; [| done]. split; [done | intros k Hk; apply Hgk; lia |].
  intros k Hk. destruct (decide (k = i)) as [-> | Hki]; [by exists j |]. destruct (decide (k = j)) as [-> | Hkj]; [by exists i |]. exists k. split; [done | by apply Hgk].
Qed.
End access.

(** ** Order *)

Section order.
Context {A : Type} (cmp : A → A → Z) `{Hcmp : !Comparison cmp}.
Implicit Types (l : list A) (x y p : A).

Lemma cmp_total x y : cmp x y ≤ 0 ∨ cmp y x ≤ 0.
Proof using Hcmp. pose proof (compare_sym (compare := cmp) x y). lia. Qed.

Lemma cmp_flip x y : ¬ cmp x y < 0 → cmp y x ≤ 0.
Proof using Hcmp. pose proof (compare_sym (compare := cmp) y x). pose proof (compare_sym (compare := cmp) x y). lia. Qed.

Lemma cmp_refl x : cmp x x = 0.
Proof using Hcmp. pose proof (compare_sym (compare := cmp) x x). lia. Qed.

(** The elements at [i] and [j] are in order. *)
Definition ordered l (i j : Z) : Prop := ∀ x y, l.[i] = Ret x → l.[j] = Ret y → cmp x y ≤ 0.

Lemma ordered_trans l i j k : 0 ≤ j < Z.of_nat (length l) → ordered l i j → ordered l j k → ordered l i k.
Proof using Hcmp. intros Hj Hij Hjk x z Hx Hz. destruct (vget_range l j Hj) as [y Hy]. apply (compare_trans x y z); [by apply Hij | by apply Hjk]. Qed.

Lemma ordered_same l l' i j i' j' : ordered l i j → l'.[i'] = l.[i] → l'.[j'] = l.[j] → ordered l' i' j'.
Proof. intros Ho Hi Hj x y Hx Hy. apply Ho; congruence. Qed.

Lemma CMP_spec l i j : 0 ≤ i < Z.of_nat (length l) → 0 ≤ j < Z.of_nat (length l) → ∃ x y, l.[i] = Ret x ∧ l.[j] = Ret y ∧ CMP cmp l i j = Ret (cmp x y).
Proof. intros Hi Hj. destruct (vget_range l i Hi) as [x Hx], (vget_range l j Hj) as [y Hy]. exists x, y. unfold CMP. by rewrite Hx, Hy. Qed.

(** ** Insertion sort *)

Lemma sink_spec low top : 0 ≤ low → ∀ fuel l ptr, top < Z.of_nat (length l) → low ≤ ptr ≤ top → ptr - low ≤ Z.of_nat fuel →
  (∀ i j, low ≤ i < j → j ≤ top → j ≠ ptr → ordered l i j) →
  ∃ l', sink cmp fuel l low ptr = Ret l' ∧ rearranged low top l l' ∧ ∀ i j, low ≤ i < j → j ≤ top → ordered l' i j.
Proof using Hcmp.
  intros Hlow. induction fuel as [| fuel IH]; intros l ptr Htop Hptr Hfuel Hord.
  { cbn [sink]. rewrite bool_decide_false by lia. exists l. split; [done |]. split; [apply rearranged_refl |]. intros i j Hi Hj. apply Hord; lia. }
  cbn [sink]. case_bool_decide as Hgt; [| exists l; split; [done |]; split; [apply rearranged_refl |]; intros i j Hi Hj; apply Hord; lia].
  destruct (CMP_spec l (ptr - 1) ptr ltac:(lia) ltac:(lia)) as (x & y & Hx & Hy & ->). obind. case_bool_decide as Hc.
  - destruct (SWAP_rearranged l low top ptr (ptr - 1)) as (l1 & -> & Hra & Hg1 & Hg2 & Hg); try lia. obind. pose proof (rearranged_length _ _ _ _ Hra) as Hlen.
    destruct (IH l1 (ptr - 1)) as (l' & -> & Hra' & Hord'); try lia.
    + intros i j Hij Hj Hne. destruct (decide (j = ptr)) as [-> | Hjp].
      * destruct (decide (i = ptr - 1)) as [-> | Hip]; [| apply (ordered_same l l1 i (ptr - 1)); [apply Hord; lia | apply Hg; lia | done]].
        intros u v Hu Hv. rewrite Hg2, Hy in Hu. rewrite Hg1, Hx in Hv. injection Hu as <-. injection Hv as <-. pose proof (compare_sym (compare := cmp) y x). lia.
      * destruct (decide (i = ptr - 1)) as [-> | Hip]; [apply (ordered_same l l1 ptr j); [apply Hord; lia | done | apply Hg; lia] |].
        destruct (decide (i = ptr)) as [-> | Hip']; [apply (ordered_same l l1 (ptr - 1) j); [apply Hord; lia | done | apply Hg; lia] |].
        apply (ordered_same l l1 i j); [apply Hord; lia | apply Hg; lia | apply Hg; lia].
    + exists l'. split; [done |]. split; [by eapply rearranged_trans | done].
  - exists l. split; [done |]. split; [apply rearranged_refl |]. assert (ordered l (ptr - 1) ptr) as Hlast by (intros u v Hu Hv; rewrite Hx in Hu; rewrite Hy in Hv; injection Hu as <-; injection Hv as <-; lia).
    intros i j Hij Hj. destruct (decide (j = ptr)) as [-> | Hjp]; [| by apply Hord]. destruct (decide (i = ptr - 1)) as [-> | Hip]; [done |].
    apply (ordered_trans l i (ptr - 1) ptr); [lia | apply Hord; lia | done].
Qed.

Lemma insert_sort_spec low high : 0 ≤ low → ∀ fuel l low_ptr, high < Z.of_nat (length l) → low ≤ low_ptr ≤ high + 1 → high + 1 - low_ptr ≤ Z.of_nat fuel →
  (∀ i j, low ≤ i < j → j < low_ptr → ordered l i j) →
  ∃ l', insert_sort cmp fuel l low high low_ptr = Ret l' ∧ rearranged low high l l' ∧ ∀ i j, low ≤ i < j → j ≤ high → ordered l' i j.
Proof using Hcmp.
  intros Hlow. induction fuel as [| fuel IH]; intros l p Hhigh Hp Hfuel Hord; cbn [insert_sort].
  { rewrite bool_decide_false by lia. exists l. split; [done |]. split; [apply rearranged_refl |]. intros i j Hi Hj. apply Hord; lia. }
  case_bool_decide as Hle; [| exists l; split; [done |]; split; [apply rearranged_refl |]; intros i j Hi Hj; apply Hord; lia].
  destruct (sink_spec low p Hlow (length l) l p) as (l1 & -> & Hra & Hord1); try lia; [intros i j Hi Hj Hne; apply Hord; lia |]. obind.
  pose proof (rearranged_length _ _ _ _ Hra) as Hlen. destruct (IH l1 (p + 1)) as (l' & -> & Hra' & Hord'); try lia; [intros i j Hi Hj; apply Hord1; lia |].
  exists l'. split; [done |]. split; [| done]. eapply rearranged_trans; [by eapply rearranged_widen; [exact Hra | lia | lia] | done].
Qed.
(** ** Partition *)

Lemma MEDIAN_spec a b l low mid high : 0 ≤ a → b < Z.of_nat (length l) → a ≤ low ≤ b → a ≤ mid ≤ b → a ≤ high ≤ b → low ≠ mid → mid ≠ high → low ≠ high →
  ∃ l', MEDIAN cmp l low mid high = Ret l' ∧ rearranged a b l l' ∧ ordered l' low mid ∧ ordered l' mid high.
Proof using Hcmp.
  intros Ha Hb Hlow Hmid Hhigh Hlm Hmh Hlh. unfold MEDIAN. destruct (CMP_spec l high low ltac:(lia) ltac:(lia)) as (x & y & Hx & Hy & ->). obind.
  assert (∃ l1, (if bool_decide (cmp x y < 0) then SWAP l high low else Ret l) = Ret l1 ∧ rearranged a b l l1 ∧ ordered l1 low high) as (l1 & -> & Hra & Hlow_high).
  { case_bool_decide as Hc.
    - destruct (SWAP_rearranged l a b high low) as (l1 & -> & Hra & Hg1 & Hg2 & _); try lia. exists l1. split; [done |]. split; [done |]. intros u v Hu Hv. rewrite Hg2, Hx in Hu. rewrite Hg1, Hy in Hv.
      injection Hu as <-. injection Hv as <-. lia.
    - exists l. split; [done |]. split; [apply rearranged_refl |]. intros u v Hu Hv. rewrite Hy in Hu. rewrite Hx in Hv. injection Hu as <-. injection Hv as <-. by apply cmp_flip. }
  obind. clear Hx Hy x y. pose proof (rearranged_length _ _ _ _ Hra) as Hlen. destruct (CMP_spec l1 mid low ltac:(lia) ltac:(lia)) as (x & y & Hx & Hy & ->). obind. case_bool_decide as Hc.
  - destruct (SWAP_rearranged l1 a b mid low) as (l2 & -> & Hra2 & Hg1 & Hg2 & Hg); try lia. exists l2. split; [done |]. split; [by eapply rearranged_trans |]. split.
    + intros u v Hu Hv. rewrite Hg2, Hx in Hu. rewrite Hg1, Hy in Hv. injection Hu as <-. injection Hv as <-. lia.
    + apply (ordered_same l1 l2 low high); [done | done | apply Hg; lia].
  - assert (ordered l1 low mid) as Hlow_mid by (intros u v Hu Hv; rewrite Hy in Hu; rewrite Hx in Hv; injection Hu as <-; injection Hv as <-; by apply cmp_flip).
    clear Hx Hy Hc x y. destruct (CMP_spec l1 high mid ltac:(lia) ltac:(lia)) as (x & y & Hx & Hy & ->). obind. case_bool_decide as Hc.
    + destruct (SWAP_rearranged l1 a b mid high) as (l2 & -> & Hra2 & Hg1 & Hg2 & Hg); try lia. exists l2. split; [done |]. split; [by eapply rearranged_trans |]. split.
      * apply (ordered_same l1 l2 low high); [done | apply Hg; lia | done].
      * intros u v Hu Hv. rewrite Hg1, Hx in Hu. rewrite Hg2, Hy in Hv. injection Hu as <-. injection Hv as <-. lia.
    + exists l1. split; [done |]. split; [done |]. split; [done |]. intros u v Hu Hv. rewrite Hy in Hu. rewrite Hx in Hv. injection Hu as <-. injection Hv as <-. by apply cmp_flip.
Qed.

(** The elements below [low_ptr] are at most the pivot, those above [high_ptr] at least. *)
Definition split_at l (a b : Z) (p : A) (low_ptr high_ptr : Z) : Prop :=
  (∀ k x, a ≤ k < low_ptr → l.[k] = Ret x → cmp x p ≤ 0) ∧ (∀ k x, high_ptr < k ≤ b → l.[k] = Ret x → cmp p x ≤ 0).

Lemma find_pivot_spec l a b : 0 ≤ a → b < Z.of_nat (length l) → 10 ≤ b - a + 1 → ∃ l' mid lp hp p,
  find_pivot cmp l a b (b - a + 1) = Ret (l', mid, lp, hp) ∧ rearranged a b l l' ∧ a < mid < b ∧ a ≤ lp ≤ mid ∧ mid ≤ hp ≤ b ∧ l'.[mid] = Ret p ∧ split_at l' a b p lp hp.
Proof using Hcmp.
  intros Ha Hb Hcount. unfold find_pivot. set (count := b - a + 1) in *. rewrite Z.shiftr_div_pow2, Z.pow_1_r by lia. set (mid := a + count / 2).
  pose proof (Z.div_mod count 2 ltac:(lia)). pose proof (Z.mod_pos_bound count 2 ltac:(lia)). assert (a < mid < b) as Hmid by (unfold mid, count in *; lia). case_bool_decide as H40.
  - pose proof (Z.div_mod count 8 ltac:(lia)). pose proof (Z.mod_pos_bound count 8 ltac:(lia)). set (step := count / 8) in *. assert (5 ≤ step) by lia.
    assert (mid + 4 * step ≤ b + 1 ∧ a + 4 * step ≤ mid) as [Hstep1 Hstep2] by (unfold mid, count in *; lia).
    destruct (MEDIAN_spec a b l a (a + step) (a + step * 2)) as (l1 & -> & Hra1 & _); try lia. obind. pose proof (rearranged_length _ _ _ _ Hra1) as Hlen1.
    destruct (MEDIAN_spec a b l1 (mid - step) mid (mid + step)) as (l2 & -> & Hra2 & _); try lia. obind. pose proof (rearranged_length _ _ _ _ Hra2) as Hlen2.
    destruct (MEDIAN_spec a b l2 (b - 2 * step) (b - step) b) as (l3 & -> & Hra3 & _); try lia. obind. pose proof (rearranged_length _ _ _ _ Hra3) as Hlen3.
    destruct (MEDIAN_spec a b l3 (a + step) mid (b - step)) as (l4 & -> & Hra4 & _); try lia. obind. pose proof (rearranged_length _ _ _ _ Hra4) as Hlen4.
    destruct (vget_range l4 mid ltac:(lia)) as [p Hp]. exists l4, mid, a, b, p. split_and!; try done; try lia; [| split; intros k x Hk; lia].
    eapply rearranged_trans; [| done]. eapply rearranged_trans; [| done]. by eapply rearranged_trans.
  - destruct (MEDIAN_spec a b l a mid b) as (l1 & -> & Hra & Hlm & Hmh); try lia. obind. pose proof (rearranged_length _ _ _ _ Hra) as Hlen.
    destruct (vget_range l1 mid ltac:(lia)) as [p Hp]. exists l1, mid, (a + 1), (b - 1), p. split_and!; try done; try lia. split.
    + intros k x Hk Hx. assert (k = a) as -> by lia. by apply Hlm.
    + intros k x Hk Hx. assert (k = b) as -> by lia. by apply Hmh.
Qed.

Lemma scan_up_spec l p u xu : l.[u] = Ret xu → cmp p xu ≤ 0 → ∀ fuel s, 0 ≤ s ≤ u → u - s ≤ Z.of_nat fuel →
  ∃ s' x, scan_up cmp fuel l p s = Ret s' ∧ s ≤ s' ≤ u ∧ l.[s'] = Ret x ∧ cmp p x ≤ 0 ∧ ∀ k y, s ≤ k < s' → l.[k] = Ret y → cmp y p ≤ 0.
Proof using Hcmp.
  intros Hu Hxu. pose proof (vget_inside _ _ _ Hu). induction fuel as [| fuel IH]; intros s Hs Hfuel; (destruct (vget_range l s ltac:(lia)) as [x Hx]); cbn [scan_up]; rewrite Hx; obind; case_bool_decide as Hc.
  - assert (s = u) as -> by lia. pose proof (compare_sym (compare := cmp) x p). assert (x = xu) as -> by congruence. lia.
  - exists s, x. split_and!; try done; try lia. by apply cmp_flip.
  - assert (s ≠ u) by (intros ->; pose proof (compare_sym (compare := cmp) x p); assert (x = xu) as -> by congruence; lia).
    destruct (IH (s + 1)) as (s' & x' & -> & Hs' & Hx' & Hc' & Hbelow); try lia. exists s', x'. split_and!; try done; try lia.
    intros k y Hk Hy. destruct (decide (k = s)) as [-> | Hne]; [| apply (Hbelow k); [lia | done]]. assert (y = x) as -> by congruence. lia.
  - exists s, x. split_and!; try done; try lia. by apply cmp_flip.
Qed.

Lemma scan_down_spec l p w xw : l.[w] = Ret xw → cmp xw p ≤ 0 → ∀ fuel s, w ≤ s < Z.of_nat (length l) → s - w ≤ Z.of_nat fuel →
  ∃ s' x, scan_down cmp fuel l p s = Ret s' ∧ w ≤ s' ≤ s ∧ l.[s'] = Ret x ∧ cmp x p ≤ 0 ∧ ∀ k y, s' < k ≤ s → l.[k] = Ret y → cmp p y ≤ 0.
Proof using Hcmp.
  intros Hw Hxw. pose proof (vget_inside _ _ _ Hw). induction fuel as [| fuel IH]; intros s Hs Hfuel; (destruct (vget_range l s ltac:(lia)) as [x Hx]); cbn [scan_down]; rewrite Hx; obind; case_bool_decide as Hc.
  - assert (s = w) as -> by lia. pose proof (compare_sym (compare := cmp) p x). assert (x = xw) as -> by congruence. lia.
  - exists s, x. split_and!; try done; try lia. by apply cmp_flip.
  - assert (s ≠ w) by (intros ->; pose proof (compare_sym (compare := cmp) p x); assert (x = xw) as -> by congruence; lia).
    destruct (IH (s - 1)) as (s' & x' & -> & Hs' & Hx' & Hc' & Habove); try lia. exists s', x'. split_and!; try done; try lia.
    intros k y Hk Hy. destruct (decide (k = s)) as [-> | Hne]; [| apply (Habove k); [lia | done]]. assert (y = x) as -> by congruence. lia.
  - exists s, x. split_and!; try done; try lia. by apply cmp_flip.
Qed.
Lemma split_at_scans l a b p lp hp lp1 hp1 : split_at l a b p lp hp →
  (∀ k y, lp ≤ k < lp1 → l.[k] = Ret y → cmp y p ≤ 0) → (∀ k y, hp1 < k ≤ hp → l.[k] = Ret y → cmp p y ≤ 0) → split_at l a b p lp1 hp1.
Proof.
  intros [Hlow Hhigh] Hup Hdown. split; intros k x Hk Hx.
  - destruct (decide (k < lp)) as [Hlt | Hge]; [apply (Hlow k); [lia | done] | apply (Hup k); [lia | done]].
  - destruct (decide (hp < k)) as [Hlt | Hge]; [apply (Hhigh k); [lia | done] | apply (Hdown k); [lia | done]].
Qed.

Lemma split_at_swap l l' a b p i j x y : split_at l a b p i j → i < j → l.[i] = Ret x → cmp p x ≤ 0 → l.[j] = Ret y → cmp y p ≤ 0 →
  l'.[i] = l.[j] → l'.[j] = l.[i] → (∀ k, k ≠ i → k ≠ j → l'.[k] = l.[k]) → split_at l' a b p (i + 1) (j - 1).
Proof.
  intros [Hlow Hhigh] Hij Hx Hpx Hy Hyp Hgi Hgj Hg. split; intros k z Hk Hz.
  - destruct (decide (k = i)) as [-> | Hki]; [assert (z = y) as -> by congruence; done |]. rewrite Hg in Hz by lia. apply (Hlow k); [lia | done].
  - destruct (decide (k = j)) as [-> | Hkj]; [assert (z = x) as -> by congruence; done |]. rewrite Hg in Hz by lia. apply (Hhigh k); [lia | done].
Qed.

(** What stops the scans: an element that is not below the pivot, and one that is not above it. *)
Definition stoppers l (a b : Z) (p : A) (lp hp : Z) : Prop := ∃ u w xu xw,
  lp ≤ u ≤ b ∧ l.[u] = Ret xu ∧ cmp p xu ≤ 0 ∧ a ≤ w ≤ hp ∧ l.[w] = Ret xw ∧ cmp xw p ≤ 0 ∧ (a < lp ∧ hp < b ∨ u = w ∧ a < u < b).

Lemma partition_spec a b p : 0 ≤ a → ∀ fuel l lp hp, b < Z.of_nat (length l) → a ≤ lp → hp ≤ b → lp ≤ hp → hp - lp < Z.of_nat fuel → split_at l a b p lp hp → stoppers l a b p lp hp →
  ∃ l' lp' hp', partition cmp fuel l p lp hp = Ret (l', lp', hp') ∧ rearranged a b l l' ∧ split_at l' a b p lp' hp' ∧ hp' < lp' ∧ a < lp' ≤ b + 1 ∧ a - 1 ≤ hp' < b.
Proof using Hcmp.
  intros Ha. induction fuel as [| fuel IH]; intros l lp hp Hb Hlp Hhp Hle Hfuel Hsplit (u & w & xu & xw & Hu & Hxu & Hpu & Hw & Hxw & Hwp & Hpos); [lia |]. cbn [partition].
  destruct (scan_up_spec l p u xu Hxu Hpu (length l) lp ltac:(lia) ltac:(lia)) as (lp1 & x & -> & Hlp1 & Hx & Hpx & Hup). obind.
  destruct (scan_down_spec l p w xw Hxw Hwp (length l) hp ltac:(lia) ltac:(lia)) as (hp1 & y & -> & Hhp1 & Hy & Hyp & Hdown). obind.
  pose proof (split_at_scans _ _ _ _ _ _ _ _ Hsplit Hup Hdown) as Hsplit1. case_bool_decide as Hlt.
  - destruct (SWAP_rearranged l a b lp1 hp1) as (l1 & -> & Hra & Hg1 & Hg2 & Hg); try lia. obind. pose proof (rearranged_length _ _ _ _ Hra) as Hlen.
    pose proof (split_at_swap _ _ _ _ _ _ _ _ _ Hsplit1 Hlt Hx Hpx Hy Hyp Hg1 Hg2 Hg) as Hsplit2. case_bool_decide as Hmore.
    + destruct (IH l1 (lp1 + 1) (hp1 - 1)) as (l' & lp' & hp' & -> & Hra' & Hrest); try lia; [done | |].
      { exists hp1, lp1, x, y. rewrite Hg1, Hg2. split_and!; try done; try lia. }
      exists l', lp', hp'. split; [done |]. split; [by eapply rearranged_trans | done].
    + exists l1, (lp1 + 1), (hp1 - 1). split_and!; try done; lia.
  - case_bool_decide as Heq.
    + subst hp1. assert (y = x) as -> by congruence. exists l, (lp1 + 1), (lp1 - 1). split_and!; try done; try lia; [apply rearranged_refl |]. destruct Hsplit1 as [Hlow Hhigh]. split; intros k z Hk Hz.
      * destruct (decide (k = lp1)) as [-> | Hne]; [congruence | apply (Hlow k); [lia | done]].
      * destruct (decide (k = lp1)) as [-> | Hne]; [congruence | apply (Hhigh k); [lia | done]].
    + exists l, lp1, hp1. split_and!; try done; try lia. apply rearranged_refl.
Qed.
End order.

(** ** The ranges *)

Section ranges.
Context {A : Type} (cmp : A → A → Z) `{Hcmp : !Comparison cmp}.
Implicit Types (l : list A) (rs : list (Z * Z)).

(** Elements that are not in one range are in order. *)
Definition pending l rs : Prop := ∀ i j, 0 ≤ i < j → j < Z.of_nat (length l) → (∃ a b, (a, b) ∈ rs ∧ a ≤ i ∧ j ≤ b) ∨ ordered cmp l i j.

Definition disjoint_range (r r' : Z * Z) : Prop := r.2 < r'.1 ∨ r'.2 < r.1.

Fixpoint apart rs : Prop :=
  match rs with
  | [] => True
  | r :: rs => Forall (disjoint_range r) rs ∧ apart rs
  end.

(** A range with [k] ranges below it on the stack has at most [n / 2^k] elements. *)
Fixpoint halving (n : Z) rs : Prop :=
  match rs with
  | [] => True
  | (a, b) :: rs => (b - a + 1) * 2 ^ Z.of_nat (length rs) ≤ n ∧ halving n rs
  end.

Fixpoint weight rs : Z :=
  match rs with
  | [] => 0
  | (a, b) :: rs => 2 * (b - a + 1) - 1 + weight rs
  end.

Record state l rs : Prop := {
  s_range : Forall (λ r, 0 ≤ r.1 < r.2 ∧ r.2 < Z.of_nat (length l)) rs;
  s_apart : apart rs;
  s_halving : halving (Z.of_nat (length l)) rs;
  s_pending : pending l rs
}.

(** Sorting or dividing the range from [a] to [b]. *)
Lemma pending_step l l' a b rs cur : 0 ≤ a → b < Z.of_nat (length l) → pending l ((a, b) :: rs) → Forall (disjoint_range (a, b)) rs → rearranged a b l l' →
  (∀ i j, a ≤ i < j → j ≤ b → (∃ a' b', (a', b') ∈ cur ∧ a' ≤ i ∧ j ≤ b') ∨ ordered cmp l' i j) → pending l' (cur ++ rs).
Proof.
  intros Ha Hb Hpend Hdis Hra Hcur i j Hij Hj. rewrite (rearranged_length _ _ _ _ Hra) in Hj. destruct Hra as [_ Hout Hin]. rewrite Forall_forall in Hdis.
  assert (∀ i' j', 0 ≤ i' < j' → j' < Z.of_nat (length l) → (i' < a ∨ b < j') → (∃ a' b', (a', b') ∈ rs ∧ a' ≤ i' ∧ j' ≤ b' ∧ (b' < a ∨ b < a')) ∨ ordered cmp l i' j') as Hold.
  { intros i' j' Hi' Hj' Houts. destruct (Hpend i' j' Hi' Hj') as [(a' & b' & [[= -> ->] | Hr]%elem_of_cons & ? & ?) | Ho]; [lia | | by right].
    left. exists a', b'. split_and!; try done. specialize (Hdis _ Hr). unfold disjoint_range in Hdis. cbn in Hdis. lia. }
  destruct (decide (a ≤ i ∧ j ≤ b)) as [Hboth | Hboth].
  { destruct (Hcur i j ltac:(lia) ltac:(lia)) as [(a' & b' & Hr & Hab) | Ho]; [| by right]. left. exists a', b'. split; [apply elem_of_app; by left | done]. }
  destruct (decide (a ≤ j ≤ b)) as [Hjin | Hjout]; [| destruct (decide (a ≤ i ≤ b)) as [Hiin | Hiout]].
  - destruct (Hin j Hjin) as (j' & Hj' & Heq). destruct (Hold i j' ltac:(lia) ltac:(lia) ltac:(lia)) as [(a' & b' & Hr & Hab) | Ho]; [lia |]. right. apply (ordered_same cmp l l' i j'); [done | apply Hout; lia | done].
  - destruct (Hin i Hiin) as (i' & Hi' & Heq). destruct (Hold i' j ltac:(lia) ltac:(lia) ltac:(lia)) as [(a' & b' & Hr & Hab) | Ho]; [lia |]. right. apply (ordered_same cmp l l' i' j); [done | done | apply Hout; lia].
  - destruct (Hpend i j Hij Hj) as [(a' & b' & [[= -> ->] | Hr]%elem_of_cons & Hab) | Ho]; [lia | left; exists a', b'; split; [apply elem_of_app; by right | done] |].
    right. apply (ordered_same cmp l l' i j); [done | apply Hout; lia | apply Hout; lia].
Qed.

Definition ranges_of (next : option (list (Z * Z) * Z * Z)) : list (Z * Z) := match next with None => [] | Some (stack, a, b) => (a, b) :: stack end.

Lemma ranges_of_POP stack : ranges_of (POP stack) = stack.
Proof. by destruct stack as [| [a b] stack]. Qed.

(** The parts of a range that are left: those with more than one element, the smaller one first. *)
Definition parts (a b lp hp : Z) : list (Z * Z) :=
  if decide (hp ≤ a) then (if decide (b ≤ lp) then [] else [(lp, b)])
  else if decide (b ≤ lp) then [(a, hp)]
  else if decide (hp - a > b - lp) then [(lp, b); (a, hp)] else [(a, hp); (lp, b)].

Lemma next_range_spec size n stack a b lp hp :
  0 < size → size * (n - 1) ≤ int_max → 0 ≤ a < b → b < n → a < lp ≤ b + 1 → a - 1 ≤ hp < b → 2 ^ Z.of_nat (length stack) ≤ n →
  ∃ next, next_range size stack a b lp hp = Ret next ∧ ranges_of next = parts a b lp hp ++ stack.
Proof.
  intros Hsize Hmax Hab Hbn Hlp Hhp Hstack. unfold next_range, parts. assert (∀ x y, -1 ≤ y - x ≤ n - 1 → bool_decide (wrap32 (size * (y - x)) ≤ 0) = bool_decide (y ≤ x)) as Hcast.
  { intros x y Hxy. rewrite wrap32_id by (unfold in_int, int_min, int_max in *; nia). apply bool_decide_ext. nia. }
  rewrite !Hcast by lia. assert (∀ x y, PUSH stack x y = Ret ((x, y) :: stack)) as Hpush.
  { intros x y. unfold PUSH, STACK_SIZE. rewrite bool_decide_true; [done |]. destruct (decide (Z.of_nat (length stack) < 63)) as [| Hbig]; [lia |].
    pose proof (Z.pow_le_mono_r 2 63 (Z.of_nat (length stack)) ltac:(lia) ltac:(lia)). unfold int_max in Hmax. nia. }
  destruct (decide (hp ≤ a)) as [Hl | Hl]; [rewrite (bool_decide_true (hp ≤ a)) by done | rewrite (bool_decide_false (hp ≤ a)) by done];
    (destruct (decide (b ≤ lp)) as [Hr | Hr]; [rewrite (bool_decide_true (b ≤ lp)) by done | rewrite (bool_decide_false (b ≤ lp)) by done]).
  - eexists. split; [done |]. apply ranges_of_POP.
  - by eexists.
  - by eexists.
  - case_bool_decide as Hcmp'; [rewrite decide_True by done | rewrite decide_False by done]; rewrite Hpush; obind; by eexists.
Qed.

Lemma parts_facts a b lp hp rs n : a < lp ≤ b + 1 → a - 1 ≤ hp < b → hp < lp → a < b →
  Forall (disjoint_range (a, b)) rs → apart rs → (b - a + 1) * 2 ^ Z.of_nat (length rs) ≤ n → halving n rs → 0 ≤ a → b < n →
  apart (parts a b lp hp ++ rs) ∧ halving n (parts a b lp hp ++ rs) ∧ Forall (λ r, 0 ≤ r.1 < r.2 ∧ r.2 < n) (parts a b lp hp) ∧ weight (parts a b lp hp ++ rs) < weight ((a, b) :: rs).
Proof.
  intros Hlp Hhp Hgap Hab Hdis Hap Hhalf Hhalving Ha Hb. pose proof (Z.pow_pos_nonneg 2 (Z.of_nat (length rs))).
  assert (∀ a' b', a ≤ a' → b' ≤ b → Forall (disjoint_range (a', b')) rs) as Hsub.
  { intros a' b' Ha' Hb'. eapply Forall_impl; [exact Hdis |]. intros r Hr. unfold disjoint_range in *. cbn in *. lia. }
  unfold parts. repeat case_decide; cbn [app apart halving weight length]; rewrite ?Nat2Z.inj_succ, ?Z.pow_succ_r by lia; split_and!; repeat constructor; cbn [fst snd]; try done; try lia; try nia;
    try (apply Hsub; lia); unfold disjoint_range; cbn; lia.
Qed.
(** A pair in a divided range: in one of the parts, or in order. *)
Lemma parts_cover l a b p lp hp i j : split_at cmp l a b p lp hp → hp < lp → a ≤ i < j → j ≤ b →
  (∃ a' b', (a', b') ∈ parts a b lp hp ∧ a' ≤ i ∧ j ≤ b') ∨ ordered cmp l i j.
Proof using Hcmp.
  intros [Hlow Hhigh] Hgap Hi Hj. destruct (decide (j ≤ hp)) as [Hjh | Hjh]; [| destruct (decide (lp ≤ i)) as [Hil | Hil]].
  - left. exists a, hp. split; [| lia]. unfold parts. repeat case_decide; try lia; rewrite ?elem_of_cons; tauto.
  - left. exists lp, b. split; [| lia]. unfold parts. repeat case_decide; try lia; rewrite ?elem_of_cons; tauto.
  - right. intros x y Hx Hy. apply (compare_trans x p y); [apply (Hlow i); [lia | done] | apply (Hhigh j); [lia | done]].
Qed.

Lemma sort_range_spec size l stack a b : 0 < size → size * (Z.of_nat (length l) - 1) ≤ int_max → state l ((a, b) :: stack) → ∃ l' next,
  sort_range cmp size l stack a b = Ret (l', next) ∧ l' ≡ₚ l ∧ state l' (ranges_of next) ∧ weight (ranges_of next) < weight ((a, b) :: stack).
Proof using Hcmp.
  intros Hsize Hmax [[[Hab Hb] Hrange]%Forall_cons [Hdis Hapart] [Hhalf Hhalving] Hpend]. cbn in Hab, Hb. unfold sort_range, THRESHOLD_FOR_INSERT_SORT. case_bool_decide as Hcount.
  - destruct (insert_sort_spec cmp a b ltac:(lia) (length l) l (a + 1)) as (l' & -> & Hra & Hord); try lia. obind. pose proof (rearranged_length _ _ _ _ Hra) as Hlen.
    exists l', (POP stack). rewrite ranges_of_POP. split; [done |]. split; [apply Hra |]. split; [| cbn [weight]; lia]. split; rewrite ?Hlen; try done.
    apply (pending_step l l' a b stack []); try done; [lia |]. intros i j Hi Hj. right. by apply Hord.
  - destruct (find_pivot_spec cmp l a b) as (l1 & mid & lp & hp & p & -> & Hra1 & Hmid & Hlp & Hhp & Hp & Hsplit); try lia. obind. rewrite Hp. obind. pose proof (rearranged_length _ _ _ _ Hra1) as Hlen1.
    destruct (partition_spec cmp a b p ltac:(lia) (length l1) l1 lp hp) as (l2 & lp2 & hp2 & -> & Hra2 & Hsplit2 & Hgap & Hlp2 & Hhp2); try lia; [done | |].
    { exists mid, mid, p, p. rewrite (cmp_refl cmp p). split_and!; try done; try lia. }
    obind. pose proof (rearranged_length _ _ _ _ Hra2) as Hlen2. destruct (next_range_spec size (Z.of_nat (length l)) stack a b lp2 hp2) as (next & -> & Hnext); try lia.
    { pose proof (Z.pow_pos_nonneg 2 (Z.of_nat (length stack))). nia. }
    obind. exists l2, next. rewrite Hnext. pose proof (rearranged_trans _ _ _ _ _ Hra1 Hra2) as Hra. split; [done |]. split; [apply Hra |].
    destruct (parts_facts a b lp2 hp2 stack (Z.of_nat (length l))) as (Hap & Hhv & Hpr & Hw); try done; try lia. split; [| done].
    split; rewrite ?Hlen2, ?Hlen1; [by apply Forall_app | done | done |]. apply (pending_step l l2 a b stack (parts a b lp2 hp2)); try done; try lia. intros i j Hi Hj. by apply (parts_cover l2 a b p).
Qed.

Lemma sort_loop_spec size fuel : ∀ l stack a b, 0 < size → size * (Z.of_nat (length l) - 1) ≤ int_max → state l ((a, b) :: stack) → weight ((a, b) :: stack) ≤ Z.of_nat fuel →
  ∃ l', sort_loop cmp fuel size l stack a b = Ret l' ∧ l' ≡ₚ l ∧ pending l' [].
Proof using Hcmp.
  induction fuel as [| fuel IH]; intros l stack a b Hsize Hmax Hstate Hfuel.
  { assert (∀ rs, Forall (λ r, 0 ≤ r.1 < r.2 ∧ r.2 < Z.of_nat (length l)) rs → 0 ≤ weight rs) as Hw by (induction 1 as [| [x y] rs Hr _ IHrs]; cbn in *; lia).
    destruct Hstate as [[Hab Hrange]%Forall_cons _ _ _]. specialize (Hw _ Hrange). cbn in *. lia. }
  cbn [sort_loop]. destruct (sort_range_spec size l stack a b Hsize Hmax Hstate) as (l1 & next & -> & Hp1 & Hstate1 & Hw). obind. destruct next as [[[stack' a'] b'] |]; cbn [ranges_of] in *.
  - destruct (IH l1 stack' a' b') as (l' & -> & Hp & Hsorted); [done | by rewrite (Permutation_length Hp1) | done | lia |]. exists l'. split; [done |]. split; [by rewrite Hp | done].
  - exists l1. split; [done |]. split; [done |]. apply Hstate1.
Qed.

Lemma pending_sorted l : pending l [] → StronglySorted (λ x y, cmp x y ≤ 0) l.
Proof.
  intros Hpend. assert (∀ i j x y, (i < j)%nat → l !! i = Some x → l !! j = Some y → cmp x y ≤ 0) as Hord.
  { intros i j x y Hij Hx Hy. pose proof (lookup_lt_Some _ _ _ Hy). destruct (Hpend (Z.of_nat i) (Z.of_nat j) ltac:(lia) ltac:(lia)) as [(a & b & Hr & _) | Ho]; [by apply not_elem_of_nil in Hr |].
    apply Ho; by apply vget_nat. }
  clear Hpend. induction l as [| x l IH]; [constructor |]. constructor; [apply IH; intros i j y z Hij; apply (Hord (S i) (S j)); lia |].
  apply Forall_lookup. intros i y Hy. apply (Hord 0%nat (S i)); [lia | done | done].
Qed.

(** C19: Sorting.  For every comparison of a total preorder and every array whose last element is less than 2^31 bytes from its first, [my_qsort]
    terminates with the elements in order, a permutation of those it was given.  All accesses are inside the array, and
    the stack of ranges, whose larger part is pushed, never exceeds its 64 entries. *)
Theorem my_qsort_correct size l :
  0 < size → size * (Z.of_nat (length l) - 1) ≤ int_max →
  ∃ l', my_qsort cmp size l = Ret l' ∧ l' ≡ₚ l ∧ StronglySorted (λ x y, cmp x y ≤ 0) l'.
Proof using Hcmp.
  intros Hsize Hmax. unfold my_qsort. case_bool_decide as Hcount.
  - exists l. split; [done |]. split; [done |]. destruct l as [| x [| y l]]; [constructor | by repeat constructor | cbn in Hcount; lia].
  - destruct (sort_loop_spec size (2 * length l) l [] 0 (Z.of_nat (length l) - 1)) as (l' & -> & Hp & Hpend); [done | done | | cbn; lia | exists l'; split; [done |]; split; [done | by apply pending_sorted]].
    split; [repeat constructor; cbn; lia | done | cbn; lia |]. intros i j Hij Hj. left. exists 0, (Z.of_nat (length l) - 1). split; [by left | lia].
Qed.
End ranges.

#[global] Instance difference_comparison : Comparison (λ a b : Z, a - b).
Proof. split; lia. Qed.

(** Fifty numbers of eight bytes. *)
Lemma my_qsort_correct_witness : ∃ l',
  my_qsort (λ a b, a - b) 8 ((λ i, i * 37 mod 50) <$> seqZ 0 50) = Ret l' ∧ l' ≡ₚ ((λ i, i * 37 mod 50) <$> seqZ 0 50) ∧ StronglySorted (λ x y, x - y ≤ 0) l'.
Proof. apply (my_qsort_correct (λ a b, a - b) 8); [lia | apply (bool_decide_unpack _); vm_compute; done]. Defined.

(** The conversion of a difference in bytes to [int]: an array of twenty elements of 2^28 bytes is returned without an error, and not in order. *)
Theorem my_qsort_large_unsorted : ∃ l l', my_qsort (λ a b, a - b) (2 ^ 28) l = Ret l' ∧ length l = 20%nat ∧ ¬ StronglySorted (λ x y, x - y ≤ 0) l'.
Proof.
  exists ((λ i, i * 7 mod 20) <$> seqZ 0 20). eexists. split; [vm_compute; reflexivity |]. split; [done |]. intros Hs.
  repeat match goal with H : StronglySorted _ (_ :: _) |- _ => apply StronglySorted_inv in H as [H Hf]; repeat (apply Forall_cons in Hf as [? Hf]); try lia; clear Hf end.
Qed.
