(* ===== verification/Bits.v ===== *)
(** * Bit functions
    (src/project4/mariadb/server/include/my_bit.h and mysys/my_bit.c)

    The functions on 32-bit words that the bitmaps and hash tables of the server use, with
    unsigned arithmetic that wraps written out, and their specifications on the bits of
    the argument. *)

From S2P Require Import Prelude.

(** ** Unsigned integers *)

Definition u32 (z : Z) : Z := z mod 2 ^ 32.
Definition in_u32 (z : Z) : Prop := 0 ≤ z < 2 ^ 32.
#[global] Instance in_u32_dec z : Decision (in_u32 z).
Proof. unfold in_u32. apply _. Defined.

Lemma u32_small z : 0 ≤ z < 2 ^ 32 → u32 z = z.
Proof. intros Hz. by apply Z.mod_small. Qed.

(** ** The functions *)

(** [my_bit_log2]; 64 turns are enough for an [ulong]. *)
Fixpoint log2_loop (fuel : nat) (value bit : Z) : outcome Z :=
  if bool_decide (value > 1) then
    match fuel with
    | O => NoFuel
    | S fuel => log2_loop fuel (Z.shiftr value 1) (bit + 1)
    end
  else Ret bit.

Definition my_bit_log2 (value : Z) : outcome Z := log2_loop 64 value 0.

Definition my_count_bits_uint32 (v : Z) : Z :=
  let v := u32 (v - Z.land (Z.shiftr v 1) 0x55555555) in
  let v := u32 (Z.land v 0x33333333 + Z.land (Z.shiftr v 2) 0x33333333) in
  Z.shiftr (u32 (Z.land (u32 (v + Z.shiftr v 4)) 0xF0F0F0F * 0x1010101)) 24.

Definition my_count_bits (x : Z) : Z :=
  u32 (my_count_bits_uint32 (u32 x) + my_count_bits_uint32 (u32 (Z.shiftr x 32))).

(** The five assignments [v|= v >> k] that [my_round_up_to_next_power] and
    [my_clear_highest_bit] share. *)
Definition smear (v : Z) : Z :=
  let v := Z.lor v (Z.shiftr v 1) in
  let v := Z.lor v (Z.shiftr v 2) in
  let v := Z.lor v (Z.shiftr v 4) in
  let v := Z.lor v (Z.shiftr v 8) in
  Z.lor v (Z.shiftr v 16).

Definition my_round_up_to_next_power (v : Z) : Z := u32 (smear (u32 (v - 1)) + 1).

Definition my_clear_highest_bit (v : Z) : Z := Z.land v (smear (Z.shiftr v 1)).

Definition my_bits_reverse_table : list Z :=
  [
   0; 128; 64; 192; 32; 160; 96; 224; 16; 144; 80; 208; 48; 176; 112; 240;
   8; 136; 72; 200; 40; 168; 104; 232; 24; 152; 88; 216; 56; 184; 120; 248;
   4; 132; 68; 196; 36; 164; 100; 228; 20; 148; 84; 212; 52; 180; 116; 244;
   12; 140; 76; 204; 44; 172; 108; 236; 28; 156; 92; 220; 60; 188; 124; 252;
   2; 130; 66; 194; 34; 162; 98; 226; 18; 146; 82; 210; 50; 178; 114; 242;
   10; 138; 74; 202; 42; 170; 106; 234; 26; 154; 90; 218; 58; 186; 122; 250;
   6; 134; 70; 198; 38; 166; 102; 230; 22; 150; 86; 214; 54; 182; 118; 246;
   14; 142; 78; 206; 46; 174; 110; 238; 30; 158; 94; 222; 62; 190; 126; 254;
   1; 129; 65; 193; 33; 161; 97; 225; 17; 145; 81; 209; 49; 177; 113; 241;
   9; 137; 73; 201; 41; 169; 105; 233; 25; 153; 89; 217; 57; 185; 121; 249;
   5; 133; 69; 197; 37; 165; 101; 229; 21; 149; 85; 213; 53; 181; 117; 245;
   13; 141; 77; 205; 45; 173; 109; 237; 29; 157; 93; 221; 61; 189; 125; 253;
   3; 131; 67; 195; 35; 163; 99; 227; 19; 147; 83; 211; 51; 179; 115; 243;
   11; 139; 75; 203; 43; 171; 107; 235; 27; 155; 91; 219; 59; 187; 123; 251;
   7; 135; 71; 199; 39; 167; 103; 231; 23; 151; 87; 215; 55; 183; 119; 247;
   15; 143; 79; 207; 47; 175; 111; 239; 31; 159; 95; 223; 63; 191; 127; 255].

Definition my_reverse_bits (key : Z) : outcome Z :=
  a ← vget my_bits_reverse_table (Z.land key 255);
  b ← vget my_bits_reverse_table (Z.land (Z.shiftr key 8) 255);
  c ← vget my_bits_reverse_table (Z.land (Z.shiftr key 16) 255);
  d ← vget my_bits_reverse_table (Z.shiftr key 24);
  Ret (Z.lor (Z.lor (Z.lor (u32 (Z.shiftl a 24)) (Z.shiftl b 16)) (Z.shiftl c 8)) d).

(** [ulong] has 64 bits; a shift by a negative amount is undefined. *)
Definition my_set_bits (n : Z) : outcome Z :=
  if bool_decide (0 ≤ n - 1 < 64) then
    Ret (u32 (Z.lor (Z.shiftl ((Z.shiftl 1 (n - 1) - 1) mod 2 ^ 64) 1 mod 2 ^ 64) 1))
  else UB.

(** ** Logarithm *)

Lemma log2_loop_spec fuel : ∀ v b,
  0 < v < 2 ^ (Z.of_nat fuel + 1) → log2_loop fuel v b = Ret (b + Z.log2 v).
Proof.
  induction fuel as [| fuel IH]; intros v b Hv; cbn [log2_loop].
  { assert (v = 1) as -> by lia. rewrite bool_decide_false by lia. f_equal. cbn. lia. }
  case_bool_decide as H1.
  - assert (Z.shiftr v 1 = v / 2) as Hs by (rewrite Z.shiftr_div_pow2 by lia; done).
    assert (0 < v / 2) by (apply Z.div_str_pos; lia). rewrite Hs, IH.
    + f_equal. replace (Z.log2 v) with (Z.log2 (v / 2) + 1); [lia |].
      rewrite <- Hs, Z.log2_shiftr by lia. pose proof (Z.log2_le_mono 2 v ltac:(lia)). cbn in *. lia.
    + split; [done |]. apply Z.div_lt_upper_bound; [lia |]. rewrite <- Z.pow_succ_r by lia.
      replace (Z.succ (Z.of_nat fuel + 1)) with (Z.of_nat (S fuel) + 1) by lia. lia.
  - assert (v = 1) as -> by lia. f_equal. cbn. lia.
Qed.

(** [my_bit_log2] is the logarithm rounded down. *)
Lemma my_bit_log2_floor v : 0 < v < 2 ^ 64 → my_bit_log2 v = Ret (Z.log2 v).
Proof. intros Hv. apply (log2_loop_spec 64 v 0). cbn. lia. Qed.

(** ** Words as bytes *)

Lemma testbit_merge lo hi i :
  0 ≤ lo < 256 → 0 ≤ i → Z.testbit (lo + 256 * hi) i = if bool_decide (i < 8) then Z.testbit lo i else Z.testbit hi (i - 8).
Proof.
  intros Hlo Hi. case_bool_decide as H8.
  - rewrite <- (Z.mod_pow2_bits_low _ 8) by lia. change (2 ^ 8) with 256.
    rewrite Z.mul_comm, Z_mod_plus_full, Z.mod_small by lia. done.
  - rewrite <- (Z.sub_add 8 i) at 1. rewrite <- Z.div_pow2_bits by lia. change (2 ^ 8) with 256.
    rewrite Z.mul_comm, Z.div_add, Z.div_small by lia. done.
Qed.

Lemma testbit_above a n i : 0 ≤ a < 2 ^ n → n ≤ i → Z.testbit a i = false.
Proof.
  intros Ha Hi. assert (0 ≤ n) by (destruct (decide (0 ≤ n)); [done |]; rewrite Z.pow_neg_r in Ha; lia).
  rewrite <- (Z.mod_small a (2 ^ n)) by lia. by apply Z.mod_pow2_bits_high.
Qed.

Lemma land_bound a m n : 0 ≤ m < 2 ^ n → 0 ≤ Z.land a m < 2 ^ n.
Proof.
  intros Hm. assert (0 ≤ n) by (destruct (decide (0 ≤ n)); [done |]; rewrite Z.pow_neg_r in Hm; lia).
  split; [apply Z.land_nonneg; lia |].
  assert (Z.land a m = Z.land a m mod 2 ^ n) as ->; [| apply Z.mod_pos_bound; lia].
  apply Z.bits_inj'. intros i Hi. destruct (decide (i < n)) as [Hl | Hl].
  - by rewrite Z.mod_pow2_bits_low.
  - rewrite Z.mod_pow2_bits_high, Z.land_spec by lia. rewrite (testbit_above m n i) by lia. apply andb_false_r.
Qed.

(** A masked shift works on each byte alone when the mask drops what comes from the byte above. *)
Lemma land_shift_merge k m M lo hi :
  0 ≤ k ≤ 8 → 0 ≤ lo < 256 → 0 ≤ m < 2 ^ (8 - k) →
  Z.land (Z.shiftr (lo + 256 * hi) k) (m + 256 * M) = Z.land (Z.shiftr lo k) m + 256 * Z.land (Z.shiftr hi k) M.
Proof.
  intros Hk Hlo Hm. assert (0 ≤ m < 256).
  { assert (2 ^ (8 - k) ≤ 2 ^ 8) by (apply Z.pow_le_mono_r; lia). lia. }
  pose proof (land_bound (Z.shiftr lo k) m 8 ltac:(lia)) as Hb.
  apply Z.bits_inj'. intros i Hi. rewrite Z.land_spec, Z.shiftr_spec, !testbit_merge by lia.
  destruct (decide (i < 8)) as [Hi8 | Hi8].
  - rewrite !(bool_decide_true (i < 8)), Z.land_spec, Z.shiftr_spec by lia. destruct (decide (i + k < 8)).
    + by rewrite bool_decide_true by lia.
    + rewrite (testbit_above m (8 - k) i) by lia. by rewrite !andb_false_r.
  - rewrite !(bool_decide_false (i < 8)), bool_decide_false, Z.land_spec, Z.shiftr_spec by lia.
    do 2 f_equal. lia.
Qed.

Lemma land_sum_merge M lo hi :
  0 ≤ lo → 0 ≤ hi → lo + lo / 16 + 16 * (hi mod 16) < 256 →
  Z.land (lo + 256 * hi + Z.shiftr (lo + 256 * hi) 4) (15 + 256 * M) =
  (lo + lo / 16) mod 16 + 256 * Z.land (hi + Z.shiftr hi 4) M.
Proof.
  intros Hlo Hhi Hsum. pose proof (Z.div_pos lo 16 Hlo ltac:(lia)). pose proof (Z.mod_pos_bound hi 16 ltac:(lia)).
  rewrite !Z.shiftr_div_pow2 by lia. change (2 ^ 4) with 16.
  assert ((lo + 256 * hi) / 16 = lo / 16 + 16 * hi) as ->.
  { replace (lo + 256 * hi) with (lo + 16 * hi * 16) by lia. rewrite Z.div_add by lia. lia. }
  replace (lo + 256 * hi + (lo / 16 + 16 * hi)) with (lo + lo / 16 + 16 * (hi mod 16) + 256 * (hi + hi / 16)).
  2: { pose proof (Z.div_mod hi 16 ltac:(lia)). lia. }
  pose proof (land_shift_merge 0 15 M (lo + lo / 16 + 16 * (hi mod 16)) (hi + hi / 16)) as Hm.
  rewrite !Z.shiftr_0_r in Hm. rewrite Hm by (cbn; lia). f_equal.
  change 15 with (Z.ones 4). rewrite Z.land_ones by lia. change (2 ^ 4) with 16.
  rewrite (Z.mul_comm 16), Z_mod_plus_full. done.
Qed.

(** ** Number of bits *)

(** The positions below [n] whose bit is set. *)
Definition set_bits (n v : Z) : list Z := filter (λ i, Z.testbit v i = true) (seqZ 0 n).

Definition popcount (n v : Z) : Z := Z.of_nat (length (set_bits n v)).

Lemma set_bits_merge n lo hi :
  0 ≤ lo < 256 → 0 ≤ n → popcount (8 + n) (lo + 256 * hi) = popcount 8 lo + popcount n hi.
Proof.
  intros Hlo Hn. unfold popcount, set_bits. rewrite seqZ_app, filter_app, length_app, Nat2Z.inj_add by lia. f_equal.
  - do 2 f_equal. apply filter_ext_in. intros i Hi%elem_of_seqZ. rewrite testbit_merge by lia. by rewrite bool_decide_true by lia.
  - f_equal. assert (seqZ (0 + 8) n = Z.add 8 <$> seqZ 0 n) as -> by (by rewrite fmap_add_seqZ). rewrite filter_fmap_length. f_equal.
    apply filter_ext_in. intros i Hi%elem_of_seqZ. cbn. rewrite testbit_merge by lia. rewrite bool_decide_false by lia.
    by replace (8 + i - 8) with i by lia.
Qed.

Lemma popcount_bound n v : 0 ≤ n → 0 ≤ popcount n v ≤ n.
Proof.
  intros Hn. unfold popcount, set_bits.
  pose proof (length_filter (λ i, Z.testbit v i = true) (seqZ 0 n)) as H. rewrite length_seqZ in H. lia.
Qed.

(** The three phases of the count on one byte. *)
Definition count_pairs (b : Z) : Z := b - Z.land (Z.shiftr b 1) 0x55.
Definition count_nibbles (b : Z) : Z := Z.land (count_pairs b) 0x33 + Z.land (Z.shiftr (count_pairs b) 2) 0x33.

Lemma count_byte b :
  0 ≤ b < 256 →
  0 ≤ count_pairs b < 256 ∧ 0 ≤ count_nibbles b < 256 ∧ count_nibbles b mod 16 ≤ 4 ∧ count_nibbles b / 16 ≤ 4 ∧
  (count_nibbles b + count_nibbles b / 16) mod 16 = popcount 8 b.
Proof.
  intros Hb. assert (forallb (λ b,
      (0 <=? count_pairs b) && (count_pairs b <? 256) && (0 <=? count_nibbles b) && (count_nibbles b <? 256) &&
      (count_nibbles b mod 16 <=? 4) && (count_nibbles b / 16 <=? 4) &&
      ((count_nibbles b + count_nibbles b / 16) mod 16 =? popcount 8 b)) (seqZ 0 256) = true) as Hall by (vm_compute; reflexivity).
  rewrite forallb_forall in Hall. specialize (Hall b). rewrite <- list_elem_of_In, elem_of_seqZ in Hall.
  specialize (Hall ltac:(lia)). rewrite !andb_true_iff, !Z.leb_le, !Z.ltb_lt, Z.eqb_eq in Hall. lia.
Qed.

Definition word4 (a b c d : Z) : Z := a + 256 * (b + 256 * (c + 256 * d)).

Lemma word_bytes v :
  in_u32 v → ∃ a b c d, v = word4 a b c d ∧ 0 ≤ a < 256 ∧ 0 ≤ b < 256 ∧ 0 ≤ c < 256 ∧ 0 ≤ d < 256.
Proof.
  unfold in_u32. intros Hv.
  exists (v mod 256), (v / 256 mod 256), (v / 256 / 256 mod 256), (v / 256 / 256 / 256).
  pose proof (Z.div_mod v 256). pose proof (Z.div_mod (v / 256) 256). pose proof (Z.div_mod (v / 256 / 256) 256).
  pose proof (Z.mod_pos_bound v 256). pose proof (Z.mod_pos_bound (v / 256) 256). pose proof (Z.mod_pos_bound (v / 256 / 256) 256).
  unfold word4. split_and!; lia.
Qed.

Lemma count_nibbles_sum b n : 0 ≤ b < 256 → count_nibbles b mod 16 ≤ 4 → count_nibbles b / 16 ≤ 4 →
  0 ≤ count_nibbles b → 0 ≤ n ≤ 4 → count_nibbles b + count_nibbles b / 16 + 16 * n < 256.
Proof. intros. pose proof (Z.div_mod (count_nibbles b) 16). lia. Qed.

Section count.
Context (a b c d : Z) (Ha : 0 ≤ a < 256) (Hb : 0 ≤ b < 256) (Hc : 0 ≤ c < 256) (Hd : 0 ≤ d < 256).

Lemma u32_word4 w x y z :
  0 ≤ w < 256 → 0 ≤ x < 256 → 0 ≤ y < 256 → 0 ≤ z < 256 → u32 (word4 w x y z) = word4 w x y z.
Proof. intros. unfold u32, word4. rewrite Z.mod_small; lia. Qed.

Lemma count_phase1 :
  u32 (word4 a b c d - Z.land (Z.shiftr (word4 a b c d) 1) 0x55555555) =
  word4 (count_pairs a) (count_pairs b) (count_pairs c) (count_pairs d).
Proof.
  change 0x55555555 with (0x55 + 256 * (0x55 + 256 * (0x55 + 256 * 0x55))).
  unfold word4 at 1 2. rewrite !land_shift_merge by (cbn; lia).
  destruct (count_byte a Ha), (count_byte b Hb), (count_byte c Hc), (count_byte d Hd).
  rewrite <- u32_word4 by lia. f_equal. unfold word4, count_pairs. lia.
Qed.

Lemma count_phase2 :
  let v := word4 (count_pairs a) (count_pairs b) (count_pairs c) (count_pairs d) in
  u32 (Z.land v 0x33333333 + Z.land (Z.shiftr v 2) 0x33333333) =
  word4 (count_nibbles a) (count_nibbles b) (count_nibbles c) (count_nibbles d).
Proof.
  destruct (count_byte a Ha) as (A1 & A2 & _), (count_byte b Hb) as (B1 & B2 & _),
    (count_byte c Hc) as (C1 & C2 & _), (count_byte d Hd) as (D1 & D2 & _).
  intros v. rewrite <- (Z.shiftr_0_r v) at 1.
  change 0x33333333 with (0x33 + 256 * (0x33 + 256 * (0x33 + 256 * 0x33))).
  unfold v, word4 at 1 2. rewrite !land_shift_merge by (cbn; lia). rewrite <- u32_word4 by lia. f_equal.
  unfold word4, count_nibbles. rewrite !Z.shiftr_0_r. lia.
Qed.

Lemma count_phase3 :
  let v := word4 (count_nibbles a) (count_nibbles b) (count_nibbles c) (count_nibbles d) in
  Z.land (u32 (v + Z.shiftr v 4)) 0xF0F0F0F = word4 (popcount 8 a) (popcount 8 b) (popcount 8 c) (popcount 8 d).
Proof.
  destruct (count_byte a Ha) as (A1 & A2 & A3 & A4 & <-), (count_byte b Hb) as (B1 & B2 & B3 & B4 & <-),
    (count_byte c Hc) as (C1 & C2 & C3 & C4 & <-), (count_byte d Hd) as (D1 & D2 & D3 & D4 & <-).
  intros v. assert (0 ≤ v ≤ 0x44444444) as Hv.
  { unfold v, word4. pose proof (Z.div_mod (count_nibbles a) 16). pose proof (Z.div_mod (count_nibbles b) 16).
    pose proof (Z.div_mod (count_nibbles c) 16). pose proof (Z.div_mod (count_nibbles d) 16). lia. }
  assert (u32 (v + Z.shiftr v 4) = v + Z.shiftr v 4) as ->.
  { apply Z.mod_small. rewrite Z.shiftr_div_pow2 by lia. pose proof (Z.div_pos v (2 ^ 4)).
    pose proof (Z.div_le_upper_bound v (2 ^ 4) v). lia. }
  change 0xF0F0F0F with (15 + 256 * (15 + 256 * (15 + 256 * 15))).
  pose proof (Z.mod_pos_bound (count_nibbles b) 16). pose proof (Z.mod_pos_bound (count_nibbles c) 16).
  pose proof (Z.mod_pos_bound (count_nibbles d) 16).
  assert (∀ x y, (x + 256 * y) mod 16 = x mod 16) as Hm16.
  { intros x y. replace (256 * y) with (16 * y * 16) by lia. apply Z_mod_plus_full. }
  unfold v, word4 at 1 2.
  rewrite land_sum_merge by (try (rewrite Hm16; apply count_nibbles_sum); lia).
  rewrite land_sum_merge by (try (rewrite Hm16; apply count_nibbles_sum); lia).
  rewrite land_sum_merge by (try (apply count_nibbles_sum); lia).
  change (Z.land (count_nibbles d + Z.shiftr (count_nibbles d) 4) 15) with
    (Z.land (count_nibbles d + Z.shiftr (count_nibbles d) 4) (Z.ones 4)).
  rewrite Z.land_ones, (Z.shiftr_div_pow2 (count_nibbles d)) by lia. done.
Qed.

End count.

(** [my_count_bits_uint32] counts the set bits of a word. *)
Lemma my_count_bits_uint32_popcount v : in_u32 v → my_count_bits_uint32 v = popcount 32 v.
Proof.
  intros (a & b & c & d & -> & Ha & Hb & Hc & Hd)%word_bytes. unfold my_count_bits_uint32.
  rewrite count_phase1, count_phase2, count_phase3 by done.
  assert (popcount 32 (word4 a b c d) = popcount 8 a + popcount 8 b + popcount 8 c + popcount 8 d) as ->.
  { unfold word4. change 32 with (8 + (8 + (8 + 8))). rewrite !set_bits_merge by lia. lia. }
  pose proof (popcount_bound 8 a ltac:(lia)). pose proof (popcount_bound 8 b ltac:(lia)).
  pose proof (popcount_bound 8 c ltac:(lia)). pose proof (popcount_bound 8 d ltac:(lia)).
  set (p := popcount 8 a) in *. set (q := popcount 8 b) in *. set (r := popcount 8 c) in *. set (s := popcount 8 d) in *.
  assert (u32 (word4 p q r s * 0x1010101) = word4 p (p + q) (p + q + r) (p + q + r + s)) as ->.
  { unfold u32. symmetry. apply (Z.mod_unique _ _ (q + r + s + 256 * (r + s) + 65536 * s)); unfold word4; lia. }
  rewrite Z.shiftr_div_pow2 by lia. symmetry. apply (Z.div_unique _ _ _ (p + 256 * (p + q) + 65536 * (p + q + r))); unfold word4; lia.
Qed.

Lemma my_count_bits_popcount x : 0 ≤ x < 2 ^ 64 → my_count_bits x = popcount 64 x.
Proof.
  intros Hx. assert (u32 x + 2 ^ 32 * Z.shiftr x 32 = x ∧ 0 ≤ Z.shiftr x 32 < 2 ^ 32) as [Hsplit Hhi].
  { rewrite Z.shiftr_div_pow2 by lia. unfold u32. pose proof (Z.div_mod x (2 ^ 32)). split; [lia |].
    split; [apply Z.div_pos; lia | apply Z.div_lt_upper_bound; lia]. }
  assert (0 ≤ u32 x < 2 ^ 32) as Hlo by (apply Z.mod_pos_bound; lia).
  unfold my_count_bits. assert (u32 (Z.shiftr x 32) = Z.shiftr x 32) as -> by (by apply Z.mod_small). rewrite !my_count_bits_uint32_popcount by done.
  pose proof (popcount_bound 32 (u32 x) ltac:(lia)). pose proof (popcount_bound 32 (Z.shiftr x 32) ltac:(lia)).
  unfold u32 at 1. rewrite Z.mod_small by lia.
  unfold popcount, set_bits. change 64 with (32 + 32). rewrite seqZ_app, filter_app, length_app, Nat2Z.inj_add by lia.
  f_equal.
  - do 2 f_equal. apply filter_ext_in. intros i Hi%elem_of_seqZ. unfold u32. by rewrite Z.mod_pow2_bits_low by lia.
  - f_equal. assert (seqZ (0 + 32) 32 = Z.add 32 <$> seqZ 0 32) as -> by (by rewrite fmap_add_seqZ).
    rewrite filter_fmap_length. f_equal. apply filter_ext_in. intros i Hi%elem_of_seqZ.
    rewrite Z.shiftr_spec by lia. by rewrite Z.add_comm.
Qed.

(** ** Powers of two *)

(** The bits of [v] from [l - k + 1] to its highest bit [l] are set. *)
Definition top_ones (l k v : Z) : Prop :=
  0 ≤ v < 2 ^ (l + 1) ∧ ∀ i, l - k < i ≤ l → 0 ≤ i → Z.testbit v i = true.

Lemma smear_step l k v : 0 ≤ l → 0 ≤ k → top_ones l k v → top_ones l (2 * k) (Z.lor v (Z.shiftr v k)).
Proof.
  intros Hl Hk [Hv Hones]. split.
  - split; [apply Z.lor_nonneg; rewrite Z.shiftr_nonneg; lia |].
    assert (Z.lor v (Z.shiftr v k) = Z.lor v (Z.shiftr v k) mod 2 ^ (l + 1)) as ->; [| apply Z.mod_pos_bound; lia].
    apply Z.bits_inj'. intros i Hi. destruct (decide (i < l + 1)); [by rewrite Z.mod_pow2_bits_low |].
    rewrite Z.mod_pow2_bits_high, Z.lor_spec, Z.shiftr_spec by lia.
    rewrite !(testbit_above v (l + 1)) by lia. done.
  - intros i Hi Hi0. rewrite Z.lor_spec, Z.shiftr_spec by lia. destruct (decide (l - k < i)).
    + by rewrite Hones by lia.
    + rewrite (Hones (i + k)) by lia. apply orb_true_r.
Qed.

Lemma top_ones_all l k v : 0 ≤ l < k → top_ones l k v → v = 2 ^ (l + 1) - 1.
Proof.
  intros Hk [Hv Hones]. replace (2 ^ (l + 1) - 1) with (Z.ones (l + 1)) by (rewrite Z.ones_equiv; lia). apply Z.bits_inj'. intros i Hi. destruct (decide (i ≤ l)).
  - rewrite Z.ones_spec_low by lia. apply Hones; lia.
  - rewrite Z.ones_spec_high by lia. apply (testbit_above v (l + 1)); lia.
Qed.

Lemma smear_ones v : 0 < v < 2 ^ 32 → smear v = 2 ^ (Z.log2 v + 1) - 1.
Proof.
  intros Hv. set (l := Z.log2 v). assert (0 ≤ l < 32) as Hl by (split; [apply Z.log2_nonneg | apply Z.log2_lt_pow2; lia]).
  assert (top_ones l 1 v) as H0.
  { split; [unfold l; rewrite Z.add_1_r; pose proof (Z.log2_spec v ltac:(lia)); lia |].
    intros i Hi Hi0. replace i with l by lia. apply Z.bit_log2. lia. }
  apply (top_ones_all l 32); [done |].
  by do 4 (apply smear_step in H0; [| lia | lia]); apply (smear_step l 16) in H0; [| lia | lia].
Qed.

(** [my_round_up_to_next_power] gives the least power of two that is not below its argument,
    and 0 for 0 and for arguments above the largest power. *)
Lemma my_round_up_to_next_power_spec v :
  in_u32 v →
  (0 < v ≤ 2 ^ 31 → ∃ k, 0 ≤ k ≤ 31 ∧ my_round_up_to_next_power v = 2 ^ k ∧ v ≤ 2 ^ k ∧ ∀ j, 0 ≤ j → v ≤ 2 ^ j → k ≤ j) ∧
  (v = 0 ∨ 2 ^ 31 < v → my_round_up_to_next_power v = 0).
Proof.
  intros Hv. unfold in_u32 in Hv. assert (∀ w, w = u32 (v - 1) → 0 < w < 2 ^ 32 → my_round_up_to_next_power v = u32 (2 ^ (Z.log2 w + 1))) as Hup.
  { intros w -> Hw. unfold my_round_up_to_next_power. rewrite smear_ones by done. f_equal. lia. }
  assert (0 < v → u32 (v - 1) = v - 1) as Hsub by (intros; apply Z.mod_small; lia).
  split.
  - intros [H0 H31]. destruct (decide (v = 1)) as [-> | H1].
    { exists 0. split_and!; try lia. reflexivity. }
    rewrite (Hup (v - 1)) by (rewrite ?Hsub; lia). exists (Z.log2 (v - 1) + 1).
    pose proof (Z.log2_nonneg (v - 1)). pose proof (Z.log2_spec (v - 1) ltac:(lia)) as [_ Hlog].
    assert (Z.log2 (v - 1) < 31) by (apply Z.log2_lt_pow2; lia).
    assert (2 ^ (Z.log2 (v - 1) + 1) ≤ 2 ^ 31) by (apply Z.pow_le_mono_r; lia).
    rewrite <- Z.add_1_r in Hlog. split_and!; [lia | lia | apply Z.mod_small; lia | lia |].
    intros j Hj Hle. enough (Z.log2 (v - 1) < j) by lia. apply Z.log2_lt_pow2; lia.
  - intros [-> | H31]; [reflexivity |]. rewrite (Hup (v - 1)) by (rewrite ?Hsub; lia).
    assert (Z.log2 (v - 1) = 31) as ->; [| reflexivity]. apply Z.log2_unique; lia.
Qed.

Lemma my_clear_highest_bit_spec v : 0 < v < 2 ^ 32 → my_clear_highest_bit v = v - 2 ^ Z.log2 v.
Proof.
  intros Hv. unfold my_clear_highest_bit. destruct (decide (v = 1)) as [-> | H1]; [reflexivity |].
  assert (Z.shiftr v 1 = v / 2) as Hs by (by rewrite Z.shiftr_div_pow2 by lia).
  assert (0 < v / 2) by (apply Z.div_str_pos; lia). assert (v / 2 ≤ v) by (apply Z.div_le_upper_bound; lia).
  rewrite smear_ones by lia.
  assert (Z.log2 (Z.shiftr v 1) + 1 = Z.log2 v) as ->.
  { rewrite Z.log2_shiftr by lia. pose proof (Z.log2_le_mono 2 v ltac:(lia)). cbn in *. lia. }
  pose proof (Z.log2_spec v ltac:(lia)) as [Hlo Hhi]. pose proof (Z.log2_nonneg v). rewrite Z.pow_succ_r in Hhi by lia.
  replace (2 ^ Z.log2 v - 1) with (Z.ones (Z.log2 v)) by (rewrite Z.ones_equiv; lia). rewrite Z.land_ones by lia.
  symmetry. apply (Z.mod_unique _ _ 1); lia.
Qed.

Lemma my_set_bits_spec n : 1 ≤ n ≤ 32 → my_set_bits n = Ret (2 ^ n - 1).
Proof.
  intros Hn. assert (n ∈ seqZ 1 32) as Hin by (apply elem_of_seqZ; lia).
  assert (Forall (λ n, my_set_bits n = Ret (2 ^ n - 1)) (seqZ 1 32)) as Hall by (repeat constructor).
  rewrite Forall_forall in Hall. by apply Hall.
Qed.

(** ** Reversal *)

Lemma reverse_table b :
  0 ≤ b < 256 → ∃ r, vget my_bits_reverse_table b = Ret r ∧ 0 ≤ r < 256 ∧ ∀ i, 0 ≤ i < 8 → Z.testbit r i = Z.testbit b (7 - i).
Proof.
  intros Hb. assert (forallb (λ b, match my_bits_reverse_table !! Z.to_nat b with
      | Some r => (0 <=? r) && (r <? 256) && forallb (λ i, eqb (Z.testbit r i) (Z.testbit b (7 - i))) (seqZ 0 8)
      | None => false end) (seqZ 0 256) = true) as Hall by (vm_compute; reflexivity).
  rewrite forallb_forall in Hall. specialize (Hall b). rewrite <- list_elem_of_In, elem_of_seqZ in Hall. specialize (Hall ltac:(lia)).
  unfold vget. rewrite bool_decide_true by lia. destruct (my_bits_reverse_table !! Z.to_nat b) as [r |]; [| done].
  exists r. rewrite !andb_true_iff, Z.leb_le, Z.ltb_lt, forallb_forall in Hall. destruct Hall as [Hr Hbits].
  split_and!; [done | lia | lia |]. intros i Hi. apply eqb_prop, Hbits. rewrite <- list_elem_of_In. apply elem_of_seqZ. lia.
Qed.

Lemma testbit_word4 a b c d i :
  0 ≤ a < 256 → 0 ≤ b < 256 → 0 ≤ c < 256 → 0 ≤ d < 256 → 0 ≤ i →
  Z.testbit (word4 a b c d) i =
    if decide (i < 8) then Z.testbit a i else if decide (i < 16) then Z.testbit b (i - 8)
    else if decide (i < 24) then Z.testbit c (i - 16) else Z.testbit d (i - 24).
Proof.
  intros Ha Hb Hc Hd Hi. unfold word4. repeat (rewrite testbit_merge by lia; case_bool_decide; repeat destruct (decide _); try lia); try done.
  all: f_equal; lia.
Qed.

Lemma word4_bytes_of a b c d :
  0 ≤ a < 256 → 0 ≤ b < 256 → 0 ≤ c < 256 → 0 ≤ d < 256 →
  Z.land (word4 a b c d) 255 = a ∧ Z.land (Z.shiftr (word4 a b c d) 8) 255 = b ∧
  Z.land (Z.shiftr (word4 a b c d) 16) 255 = c ∧ Z.shiftr (word4 a b c d) 24 = d.
Proof.
  intros Ha Hb Hc Hd. change 255 with (Z.ones 8). rewrite !Z.land_ones, !Z.shiftr_div_pow2 by lia. unfold word4.
  split_and!; symmetry.
  - apply (Z.mod_unique _ _ (b + 256 * (c + 256 * d))); lia.
  - apply (Z.mod_unique _ _ (c + 256 * d)); [lia |]. rewrite <- (Z.div_unique _ (2 ^ 8) (b + 256 * (c + 256 * d)) a); lia.
  - apply (Z.mod_unique _ _ d); [lia |]. rewrite <- (Z.div_unique _ (2 ^ 16) (c + 256 * d) (a + 256 * b)); lia.
  - apply (Z.div_unique _ _ _ (a + 256 * (b + 256 * c))); lia.
Qed.

Lemma lor_word4 a b c d :
  0 ≤ a < 256 → 0 ≤ b < 256 → 0 ≤ c < 256 → 0 ≤ d < 256 →
  Z.lor (Z.lor (Z.lor (u32 (Z.shiftl d 24)) (Z.shiftl c 16)) (Z.shiftl b 8)) a = word4 a b c d.
Proof.
  intros Ha Hb Hc Hd. assert (u32 (Z.shiftl d 24) = Z.shiftl d 24) as ->.
  { apply Z.mod_small. rewrite Z.shiftl_mul_pow2 by lia. lia. }
  apply Z.bits_inj'. intros i Hi. rewrite testbit_word4, !Z.lor_spec, !Z.shiftl_spec by lia.
  assert (∀ x k, 0 ≤ x < 256 → k < 0 ∨ 8 ≤ k → Z.testbit x k = false) as Hout.
  { intros x k Hx [? | ?]; [by apply Z.testbit_neg_r | by apply (testbit_above x 8)]. }
  repeat destruct (decide _).
  - rewrite (Hout d), (Hout c), (Hout b) by lia. done.
  - rewrite (Hout d), (Hout c), (Hout a) by lia. by rewrite orb_false_r.
  - rewrite (Hout d), (Hout b), (Hout a) by lia. by rewrite !orb_false_r.
  - rewrite (Hout c), (Hout b), (Hout a) by lia. by rewrite !orb_false_r.
Qed.

Lemma my_reverse_bits_spec v :
  in_u32 v → ∃ r, my_reverse_bits v = Ret r ∧ in_u32 r ∧ ∀ i, 0 ≤ i < 32 → Z.testbit r i = Z.testbit v (31 - i).
Proof.
  intros (a & b & c & d & -> & Ha & Hb & Hc & Hd)%word_bytes. unfold my_reverse_bits.
  destruct (word4_bytes_of a b c d Ha Hb Hc Hd) as (-> & -> & -> & ->).
  destruct (reverse_table a Ha) as (ra & -> & Hra & Ba), (reverse_table b Hb) as (rb & -> & Hrb & Bb),
    (reverse_table c Hc) as (rc & -> & Hrc & Bc), (reverse_table d Hd) as (rd & -> & Hrd & Bd).
  obind. rewrite lor_word4 by done. exists (word4 rd rc rb ra). split_and!; [done | unfold in_u32, word4; lia |].
  intros i Hi. rewrite !testbit_word4 by lia. repeat destruct (decide _); try lia.
  - rewrite Bd by lia. f_equal. lia.
  - rewrite Bc by lia. f_equal. lia.
  - rewrite Bb by lia. f_equal. lia.
  - rewrite Ba by lia. f_equal. lia.
Qed.

(** [my_reverse_bits] is its own inverse: on every 32-bit word it returns the word with
    the bits in the opposite order, and applied to the result it returns the argument. *)
Theorem my_reverse_bits_involutive v :
  in_u32 v → ∃ r, my_reverse_bits v = Ret r ∧ my_reverse_bits r = Ret v ∧ ∀ i, 0 ≤ i < 32 → Z.testbit r i = Z.testbit v (31 - i).
Proof.
  intros Hv. destruct (my_reverse_bits_spec v Hv) as (r & Hr & Hru & Hbits). exists r. split_and!; [done | | done].
  destruct (my_reverse_bits_spec r Hru) as (v' & Hv' & Hvu & Hbits'). rewrite Hv'. f_equal. apply Z.bits_inj'. intros i Hi.
  destruct (decide (i < 32)); [| by rewrite !(testbit_above _ 32) by (unfold in_u32 in *; lia)].
  rewrite Hbits', Hbits by lia. f_equal. lia.
Qed.

Lemma my_reverse_bits_involutive_witness :
  ∃ r, my_reverse_bits 0x80000005 = Ret r ∧ my_reverse_bits r = Ret 0x80000005 ∧
    ∀ i, 0 ≤ i < 32 → Z.testbit r i = Z.testbit 0x80000005 (31 - i).
Proof. apply (my_reverse_bits_involutive 0x80000005). unfold in_u32. lia. Defined.

(** [my_count_bits] equals the number of set bits of its 64-bit argument; the parallel
    sums neither overflow nor borrow between the fields of the word. *)
Theorem my_count_bits_exact x : 0 ≤ x < 2 ^ 64 → my_count_bits x = popcount 64 x.
Proof. apply my_count_bits_popcount. Qed.

Lemma my_count_bits_exact_witness : 0 ≤ 0xF0F0000000000003 < 2 ^ 64 ∧ my_count_bits 0xF0F0000000000003 = 10.
Proof. split; [lia |]. rewrite (my_count_bits_exact 0xF0F0000000000003) by lia. vm_compute. reflexivity. Defined.
