(* ===== verification/DynArray.v ===== *)
(** * Dynamic arrays (src/project4/mariadb/server/mysys/array.c)

    An array of elements of [size_of_element] bytes in a buffer that grows.  The buffer is the list of its bytes, and a pointer into it is an
    offset; an access outside it, or to no buffer, is undefined.  The products of a number of elements and the size of an element
    are computed in [uint], as in the code, and wrap.

    Of [malloc_flags] only [MY_INIT_BUFFER_USED] is kept; the flags [MY_HOLD_ON_ERROR] and [MY_FREE_ON_ERROR], which no caller passes, are off.
    [fresh n] is the block of [n] bytes that [my_malloc] returns, with any contents, or [None] when there is no memory. *)

From S2P Require Import Prelude Bits.

Record DYNAMIC_ARRAY := mkArray {
  buffer : option (list Z);
  elements : Z;
  max_element : Z;
  alloc_increment : Z;
  size_of_element : Z;
  init_buffer_used : bool
}.

Section array.
Context (fresh : Z → option (list Z)).
Implicit Types (array : DYNAMIC_ARRAY) (b : list Z).

(** ** Memory *)

(** [memcpy] to the buffer, and from it. *)
Definition write_at array (offset : Z) (bytes : list Z) : outcome DYNAMIC_ARRAY :=
  b ← of_option (buffer array);
  if bool_decide (0 ≤ offset ∧ offset + Z.of_nat (length bytes) ≤ Z.of_nat (length b))
  then Ret (mkArray (Some (take (Z.to_nat offset) b ++ bytes ++ drop (Z.to_nat offset + length bytes) b))
                    (elements array) (max_element array) (alloc_increment array) (size_of_element array) (init_buffer_used array))
  else UB.

Definition read_at array (offset len : Z) : outcome (list Z) :=
  b ← of_option (buffer array);
  if bool_decide (0 ≤ offset ∧ 0 ≤ len ∧ offset + len ≤ Z.of_nat (length b)) then Ret (take (Z.to_nat len) (drop (Z.to_nat offset) b)) else UB.

(** [my_realloc] of the buffer, also when there is none. *)
Definition my_realloc (old : option (list Z)) (n : Z) : option (list Z) :=
  match old, fresh n with
  | _, None => None
  | None, Some new => Some new
  | Some old, Some new => Some (take (Z.to_nat n) old ++ drop (length old) new)
  end.

Definition with_elements (n : Z) array : DYNAMIC_ARRAY :=
  mkArray (buffer array) n (max_element array) (alloc_increment array) (size_of_element array) (init_buffer_used array).

Definition with_buffer (b : option (list Z)) (max : Z) (static : bool) array : DYNAMIC_ARRAY :=
  mkArray b (elements array) max (alloc_increment array) (size_of_element array) static.

(** ** Operations *)

Definition MALLOC_OVERHEAD : Z := 8.

Definition choose_increment (element_size init_alloc alloc_increment : Z) : outcome Z :=
  if bool_decide (alloc_increment = 0) then
    if bool_decide (element_size = 0) then UB
    else
      let increment := Z.max ((8192 - MALLOC_OVERHEAD) / element_size) 16 in
      if bool_decide (init_alloc > 8) && bool_decide (increment > u32 (init_alloc * 2)) then Ret (u32 (init_alloc * 2)) else Ret increment
  else Ret alloc_increment.

Definition init_dynamic_array2 (element_size : Z) (init_buffer : option (list Z)) (init_alloc alloc_increment : Z) : outcome DYNAMIC_ARRAY :=
  alloc_increment ← choose_increment element_size init_alloc alloc_increment;
  match init_buffer with
  | Some b => Ret (mkArray (Some b) 0 init_alloc alloc_increment element_size true)
  | None =>
      if bool_decide (init_alloc ≠ 0) then
        match fresh (u32 (element_size * init_alloc)) with
        | Some b => Ret (mkArray (Some b) 0 init_alloc alloc_increment element_size false)
        | None => Ret (mkArray None 0 0 alloc_increment element_size false)
        end
      else Ret (mkArray None 0 init_alloc alloc_increment element_size false)
  end.

(** A larger buffer of [max] elements; [None] when there is no memory.  The elements of a buffer that the caller supplied are copied. *)
Definition grow array (max : Z) : outcome (option DYNAMIC_ARRAY) :=
  let n := u32 (max * size_of_element array) in
  if init_buffer_used array then
    match fresh n with
    | None => Ret None
    | Some new =>
        old ← read_at array 0 (u32 (elements array * size_of_element array));
        array ← write_at (with_buffer (Some new) max false array) 0 old;
        Ret (Some array)
    end
  else
    match my_realloc (buffer array) n with
    | None => Ret None
    | Some new => Ret (Some (with_buffer (Some new) max false array))
    end.

(** The offset of the space for an element, or [None] for NULL. *)
Definition alloc_dynamic array : outcome (option Z * DYNAMIC_ARRAY) :=
  grown ← (if bool_decide (elements array = max_element array)
           then grow array (u32 (max_element array + alloc_increment array))
           else Ret (Some array));
  match grown with
  | None => Ret (None, array)
  | Some array => Ret (Some (u32 (elements array * size_of_element array)), with_elements (u32 (elements array + 1)) array)
  end.

(** The result is true when the insertion failed. *)
Definition insert_dynamic array (element : list Z) : outcome (bool * DYNAMIC_ARRAY) :=
  '(offset, array) ←
    (if bool_decide (elements array = max_element array) then alloc_dynamic array
     else Ret (Some (u32 (elements array * size_of_element array)), with_elements (u32 (elements array + 1)) array));
  match offset with
  | None => Ret (true, array)
  | Some offset => array ← write_at array offset element; Ret (false, array)
  end.

(** The offset of the element taken off, or [None] for NULL. *)
Definition pop_dynamic array : option Z * DYNAMIC_ARRAY :=
  if bool_decide (elements array ≠ 0)
  then (Some (u32 (u32 (elements array - 1) * size_of_element array)), with_elements (u32 (elements array - 1)) array)
  else (None, array).

(** The result is true when there is no memory, but false when the memory that should replace a buffer of the caller is missing. *)
Definition allocate_dynamic array (max_elements : Z) : outcome (bool * DYNAMIC_ARRAY) :=
  if bool_decide (max_element array ≤ max_elements) then
    if bool_decide (alloc_increment array = 0) then UB
    else
      let size := u32 (u32 (max_elements + alloc_increment array) / alloc_increment array * alloc_increment array) in
      grown ← grow array size;
      match grown with
      | None => Ret (negb (init_buffer_used array), array)
      | Some array => Ret (false, array)
      end
  else Ret (false, array).

Definition set_dynamic array (element : list Z) (idx : Z) : outcome (bool * DYNAMIC_ARRAY) :=
  if bool_decide (elements array ≤ idx) then
    '(failed, array) ← (if bool_decide (max_element array ≤ idx) then allocate_dynamic array idx else Ret (false, array));
    if (failed : bool) then Ret (true, array)
    else
      array ← write_at array (u32 (elements array * size_of_element array)) (replicate (Z.to_nat (u32 ((idx - elements array) * size_of_element array))) 0);
      array ← write_at (with_elements (u32 (idx + 1)) array) (u32 (idx * size_of_element array)) element;
      Ret (false, array)
  else
    array ← write_at array (u32 (idx * size_of_element array)) element;
    Ret (false, array).

Definition get_dynamic array (idx : Z) : outcome (list Z) :=
  if bool_decide (elements array ≤ idx) then Ret (replicate (Z.to_nat (size_of_element array)) 0)
  else read_at array (u32 (idx * size_of_element array)) (size_of_element array).

Definition delete_dynamic array : DYNAMIC_ARRAY :=
  mkArray None 0 0 (alloc_increment array) (size_of_element array) (init_buffer_used array).

Definition delete_dynamic_element array (idx : Z) : outcome DYNAMIC_ARRAY :=
  let ptr := u32 (size_of_element array * idx) in
  let array := with_elements (u32 (elements array - 1)) array in
  bytes ← read_at array (ptr + size_of_element array) (u32 ((elements array - idx) * size_of_element array));
  write_at array ptr bytes.

(** The elements given to the callback, in turn. *)
Fixpoint callback_loop (todo : nat) array (ptr : Z) : outcome (list (list Z)) :=
  match todo with
  | O => Ret []
  | S todo =>
      e ← read_at array ptr (size_of_element array);
      es ← callback_loop todo array (ptr + size_of_element array);
      Ret (e :: es)
  end.

Definition delete_dynamic_with_callback array : outcome (list (list Z) * DYNAMIC_ARRAY) :=
  es ← callback_loop (Z.to_nat (elements array)) array 0;
  Ret (es, delete_dynamic array).

(** The buffer is lost when [my_realloc] fails. *)
Definition freeze_size array : DYNAMIC_ARRAY :=
  if init_buffer_used array then array
  else
    let n := Z.max (elements array) 1 in
    match buffer array with
    | Some b =>
        if bool_decide (max_element array > n)
        then with_buffer (my_realloc (Some b) (u32 (n * size_of_element array))) n false array
        else array
    | None => array
    end.
End array.

(** [reset_dynamic]. *)
Definition reset_dynamic (array : DYNAMIC_ARRAY) : DYNAMIC_ARRAY := with_elements 0 array.
