(* ===== verification/DynArraySpec.v ===== *)
(** * Dynamic arrays: the list of elements

    A dynamic array stands for the list of its elements ([represents]), and the operations are those of lists as long as the buffer has less
    than 2^32 bytes.  The last theorems have the failures of memory that the code does not survive. *)

From S2P Require Import Prelude Bits DynArray.

(** What the arrays require of [my_malloc]: a block has the size that was asked for. *)
Class Allocator (fresh : Z → option (list Z)) : Prop :=
  fresh_size n b : 0 ≤ n → fresh n = Some b → Z.of_nat (length b) = n.

Section spec.
Context (fresh : Z → option (list Z)) `{Hfresh : !Allocator fresh}.
Implicit Types (array : DYNAMIC_ARRAY) (es : list (list Z)) (e b rest : list Z).

Record represents array es : Prop := {
  r_size : 0 < size_of_element array;
  r_increment : 0 < alloc_increment array;
  r_elements : Forall (λ e, Z.of_nat (length e) = size_of_element array) es;
  r_count : elements array = Z.of_nat (length es);
  r_max : elements array ≤ max_element array;
  r_fit : max_element array * size_of_element array < 2 ^ 32;
  r_static : init_buffer_used array = true → buffer array ≠ None;
  r_buffer : match buffer array with
             | None => max_element array = 0
             | Some b => ∃ rest, b = concat es ++ rest ∧ Z.of_nat (length b) = max_element array * size_of_element array
             end
}.

Lemma length_elements (size : Z) es : Forall (λ e, Z.of_nat (length e) = size) es → Z.of_nat (length (concat es)) = Z.of_nat (length es) * size.
Proof. induction 1 as [| e es He _ IH]; [done |]. cbn [concat length]. rewrite length_app. lia. Qed.

Lemma write_at_spec array A X B bytes : buffer array = Some (A ++ X ++ B) → length X = length bytes →
  write_at array (Z.of_nat (length A)) bytes =
    Ret (mkArray (Some (A ++ bytes ++ B)) (elements array) (max_element array) (alloc_increment array) (size_of_element array) (init_buffer_used array)).
Proof.
  intros Hb HX. unfold write_at. rewrite Hb. cbn [of_option]. obind. rewrite bool_decide_true by (rewrite !length_app; lia). rewrite Nat2Z.id, take_app_length.
  by replace (drop (length A + length bytes) (A ++ X ++ B)) with B by (rewrite <- HX, <- length_app, (app_assoc A X B), drop_app_length; done).
Qed.

Lemma read_at_spec array A X B : buffer array = Some (A ++ X ++ B) → read_at array (Z.of_nat (length A)) (Z.of_nat (length X)) = Ret X.
Proof.
  intros Hb. unfold read_at. rewrite Hb. cbn [of_option]. obind. rewrite bool_decide_true by (rewrite !length_app; lia). by rewrite !Nat2Z.id, drop_app_length, take_app_length.
Qed.

(** The first [n] bytes of what follows the elements. *)
Lemma split_rest b A rest n : b = A ++ rest → (length A + n ≤ length b)%nat → ∃ X B, b = A ++ X ++ B ∧ length X = n.
Proof. intros -> Hn. rewrite length_app in Hn. exists (take n rest), (drop n rest). rewrite take_drop. split; [done |]. rewrite length_take. lia. Qed.

Lemma grow_spec array es max : represents array es → max_element array ≤ max → max * size_of_element array < 2 ^ 32 →
  match fresh (max * size_of_element array) with
  | None => grow fresh array max = Ret None
  | Some _ => ∃ array', grow fresh array max = Ret (Some array') ∧ represents array' es ∧
      max_element array' = max ∧ alloc_increment array' = alloc_increment array ∧ size_of_element array' = size_of_element array
  end.
Proof using Hfresh.
  intros [Hsize Hinc Hes Hcount Hmax Hfit Hstatic Hbuf] Hge Hlt. pose proof (length_elements _ _ Hes) as Hlen. unfold grow. rewrite u32_small by nia. destruct (fresh _) as [new |] eqn:Hnew; cycle 1.
  { unfold my_realloc. rewrite Hnew. destruct (init_buffer_used array), (buffer array); done. }
  pose proof Hnew as Hnl. apply fresh_size in Hnl; [| nia]. destruct (init_buffer_used array).
  - destruct (buffer array) as [b |] eqn:Hb; [| by destruct (Hstatic eq_refl)]. destruct Hbuf as (rest & -> & Hbl). rewrite u32_small by nia.
    replace (elements array * size_of_element array) with (Z.of_nat (length (concat es))) by lia. pose proof (read_at_spec array [] (concat es) rest Hb) as Hread. change (Z.of_nat (length [])) with 0 in Hread. rewrite Hread. obind.
    destruct (split_rest new [] new (length (concat es)) eq_refl) as (X & B & HX & HXl); [cbn; nia |]. pose proof (write_at_spec (with_buffer (Some new) max false array) [] X B (concat es)) as Hwrite.
    change (Z.of_nat (length [])) with 0 in Hwrite. rewrite Hwrite by (done || (cbn; by rewrite HX)). obind. eexists. split; [done |]. split; [| done]. split; cbn; try done; try lia. exists B. split; [done |].
    cbn [app] in HX. subst new. rewrite length_app in *. lia.
  - unfold my_realloc. rewrite Hnew. destruct (buffer array) as [b |] eqn:Hb.
    + destruct Hbuf as (rest & -> & Hbl). eexists. split; [done |]. split; [| done]. split; cbn; try done; try lia. rewrite take_ge by (apply Nat2Z.inj_le; rewrite Hbl; nia).
      exists (rest ++ drop (length (concat es ++ rest)) new). split; [by rewrite app_assoc |]. rewrite length_app, length_drop. nia.
    + eexists. split; [done |]. split; [| done]. destruct es; [| cbn in *; lia]. split; cbn; try done; try lia. by exists new.
Qed.

(** What no operation but those that make the buffer grow changes. *)
Definition shape array : Z * Z * Z := (alloc_increment array, size_of_element array, max_element array).

(** What an operation on the element [n] does to it. *)
Definition kept (n : nat) array array' : Prop :=
  alloc_increment array' = alloc_increment array ∧ size_of_element array' = size_of_element array ∧
  max_element array' ≤ Z.max (max_element array) (Z.of_nat n + alloc_increment array).

Lemma shape_kept n array array' : shape array' = shape array → kept n array array'.
Proof. intros [= Hi Hs Hm]. unfold kept. lia. Qed.

(** Bytes written after the elements, and the new number of elements. *)
Lemma write_after array es new n : represents array es → Forall (λ e, Z.of_nat (length e) = size_of_element array) new → n = Z.of_nat (length es + length new) →
  (length new ≠ 0)%nat → n ≤ max_element array → ∃ array',
  write_at (with_elements n array) (u32 (elements array * size_of_element array)) (concat new) = Ret array' ∧ represents array' (es ++ new) ∧ shape array' = shape array.
Proof.
  intros [Hsize Hinc Hes Hcount Hmax Hfit Hstatic Hbuf] Hnew -> Hnz Hn. pose proof (length_elements _ _ Hes) as Hlen. pose proof (length_elements _ _ Hnew) as Hlenn. rewrite u32_small by nia.
  destruct (buffer array) as [b |] eqn:Hb; [| lia]. destruct Hbuf as (rest & Hb' & Hbl). destruct (split_rest b (concat es) rest (length (concat new)) Hb') as (X & B & HX & HXl); [nia |].
  replace (elements array * size_of_element array) with (Z.of_nat (length (concat es))) by lia. rewrite (write_at_spec _ (concat es) X B); [| cbn; by rewrite Hb, HX | done].
  eexists. split; [done |]. split; [| done]. split; cbn; try done; try lia; [by apply Forall_app | rewrite length_app; lia |]. exists B. split; [by rewrite concat_app, <- app_assoc |].
  rewrite HX, !length_app in Hbl. rewrite !length_app. lia.
Qed.

Lemma insert_spec array es e : represents array es → Z.of_nat (length e) = size_of_element array → (max_element array + alloc_increment array) * size_of_element array < 2 ^ 32 →
  if decide (Z.of_nat (length es) = max_element array ∧ fresh ((max_element array + alloc_increment array) * size_of_element array) = None) then insert_dynamic fresh array e = Ret (true, array)
  else ∃ array', insert_dynamic fresh array e = Ret (false, array') ∧ represents array' (es ++ [e]) ∧ kept (length es) array array'.
Proof using Hfresh.
  intros Hr He Hfit. pose proof Hr as [Hsize Hinc _ Hcount Hmax _ _ _]. assert (max_element array + alloc_increment array < 2 ^ 32) as Hm32 by nia. unfold insert_dynamic, alloc_dynamic.
  assert (∀ a, represents a es → size_of_element a = size_of_element array → elements a < max_element a → max_element a < 2 ^ 32 →
    ∃ a', write_at (with_elements (u32 (elements a + 1)) a) (u32 (elements a * size_of_element a)) e = Ret a' ∧ represents a' (es ++ [e]) ∧ shape a' = shape a) as Happend.
  { intros a Ha Hs Hroom Hm. rewrite (u32_small (elements a + 1)) by (destruct Ha; lia). destruct (write_after a es [e] (elements a + 1) Ha) as (a' & Hw & Ha' & Hsh); try (cbn; lia).
    - constructor; [lia | constructor].
    - destruct Ha. cbn [length]. lia.
    - cbn [concat] in Hw. rewrite app_nil_r in Hw. eauto. }
  case_bool_decide as Hfull; cycle 1.
  { rewrite decide_False by lia. obind. destruct (Happend array Hr eq_refl ltac:(lia) ltac:(lia)) as (a' & -> & Ha' & Hsh). obind. eauto using shape_kept. }
  pose proof (grow_spec array es (max_element array + alloc_increment array) Hr ltac:(lia) Hfit) as Hgrow. rewrite (u32_small (max_element array + _)) by lia. destruct (fresh _) as [new |] eqn:Hnew.
  - rewrite decide_False by (intros [_ ?]; done). destruct Hgrow as (a1 & -> & Ha1 & Hmax1 & Hinc1 & Hsize1). obind. pose proof (r_count _ _ Ha1). destruct (Happend a1 Ha1 Hsize1 ltac:(lia) ltac:(lia)) as (a' & -> & Ha' & Hsh). obind.
    eexists. split; [done |]. split; [done |]. injection Hsh as ???. unfold kept. lia.
  - rewrite decide_True by (split; [lia | done]). by rewrite Hgrow.
Qed.

(** Setting an element past the end fills the gap with zeros. *)
Definition set_list (size : Z) es (e : list Z) (idx : nat) : list (list Z) :=
  if decide (idx < length es)%nat then <[idx := e]> es else es ++ replicate (idx - length es) (replicate (Z.to_nat size) 0) ++ [e].

Lemma concat_zeros n k : concat (replicate n (replicate k 0)) = replicate (n * k) 0.
Proof. induction n as [| n IH]; [done |]. cbn [replicate concat Nat.mul]. by rewrite IH, <- replicate_add. Qed.

Lemma set_past array es e (idx : nat) : represents array es → Z.of_nat (length e) = size_of_element array → (length es ≤ idx)%nat → Z.of_nat idx < max_element array → ∃ a1 a2,
  write_at array (u32 (elements array * size_of_element array)) (replicate (Z.to_nat (u32 ((Z.of_nat idx - elements array) * size_of_element array))) 0) = Ret a1 ∧
  write_at (with_elements (u32 (Z.of_nat idx + 1)) a1) (u32 (Z.of_nat idx * size_of_element a1)) e = Ret a2 ∧
  represents a2 (set_list (size_of_element array) es e idx) ∧ shape a2 = shape array.
Proof.
  intros [Hsize Hinc Hes Hcount Hmax Hfit Hstatic Hbuf] He Hidx Hroom. pose proof (length_elements _ _ Hes) as Hlen. destruct (buffer array) as [b |] eqn:Hb; [| lia]. destruct Hbuf as (rest & Hb' & Hbl).
  rewrite (u32_small (elements array * _)), (u32_small ((_ - _) * _)) by nia. set (gap := (idx - length es)%nat). set (k := Z.to_nat (size_of_element array)).
  replace (Z.to_nat ((Z.of_nat idx - elements array) * size_of_element array)) with (gap * k)%nat by (unfold gap, k; nia).
  destruct (split_rest b (concat es) rest (gap * k) Hb') as (X & B & HX & HXl); [unfold gap, k; nia |]. replace (elements array * size_of_element array) with (Z.of_nat (length (concat es))) by lia.
  rewrite (write_at_spec array (concat es) X B) by (rewrite ?length_replicate; congruence). match goal with |- ∃ a1 a2, Ret ?a = Ret a1 ∧ _ => exists a end. set (zeros := replicate (gap * k) 0).
  assert (Z.of_nat (length (concat es ++ zeros)) = Z.of_nat idx * size_of_element array) as Hoff by (unfold zeros; rewrite length_app, length_replicate; unfold gap, k; nia).
  destruct (split_rest (concat es ++ zeros ++ B) (concat es ++ zeros) B (length e)) as (Y & B' & HY & HYl); [by rewrite app_assoc | |].
  { apply Nat2Z.inj_le. rewrite Nat2Z.inj_add, Hoff. replace (length (concat es ++ zeros ++ B)) with (length b) by (rewrite HX; unfold zeros; rewrite !length_app, length_replicate; lia). rewrite Hbl. nia. }
  assert (Z.of_nat idx + 1 ≤ max_element array * size_of_element array ∧ Z.of_nat idx * size_of_element array ≤ max_element array * size_of_element array) by nia.
  cbn [size_of_element]. rewrite (u32_small (Z.of_nat idx + 1)), (u32_small (Z.of_nat idx * _)), <- Hoff by lia. eexists. split; [done |].
  rewrite (write_at_spec _ (concat es ++ zeros) Y B') by (exact HYl || (cbn [buffer with_elements]; f_equal; exact HY)). split; [done |]. split; [| done]. unfold set_list. rewrite decide_False by lia. fold gap k. split; cbn; try done; try lia.
  - rewrite !Forall_app. split; [done |]. split; [| by constructor]. apply Forall_replicate. rewrite length_replicate. unfold k. lia.
  - rewrite !length_app, length_replicate. cbn. unfold gap. lia.
  - exists B'. split; [rewrite !concat_app, concat_zeros; cbn; by rewrite app_nil_r, <- !app_assoc |]. rewrite HX, !length_app, HXl in Hbl. apply (f_equal length) in HY. unfold zeros in *. rewrite !length_app, !length_replicate in *. lia.
Qed.

Lemma allocate_spec array es n : represents array es → 0 ≤ n → (n + alloc_increment array) * size_of_element array < 2 ^ 32 → max_element array ≤ n →
  ∃ max, n < max ∧
  match fresh (max * size_of_element array) with
  | None => allocate_dynamic fresh array n = Ret (negb (init_buffer_used array), array)
  | Some _ => ∃ array', allocate_dynamic fresh array n = Ret (false, array') ∧ represents array' es ∧ n < max_element array' ∧ kept (Z.to_nat n) array array'
  end.
Proof using Hfresh.
  intros Hr Hn Hfit Hge. pose proof Hr as [Hsize Hinc _ Hcount Hmax _ _ _]. unfold allocate_dynamic. rewrite bool_decide_true by done. rewrite bool_decide_false by lia.
  pose proof (Z.div_mod (n + alloc_increment array) (alloc_increment array) ltac:(lia)) as Hdm. pose proof (Z.mod_pos_bound (n + alloc_increment array) (alloc_increment array) ltac:(lia)) as Hmod.
  set (max := (n + alloc_increment array) / alloc_increment array * alloc_increment array) in *. assert (n < max ≤ n + alloc_increment array) as Hm by (unfold max; lia).
  rewrite (u32_small (n + _)) by nia. fold max. rewrite (u32_small max) by nia. exists max. split; [lia |]. pose proof (grow_spec array es max Hr ltac:(lia) ltac:(nia)) as Hgrow.
  destruct (fresh _) as [new |]; [| by rewrite Hgrow]. destruct Hgrow as (a1 & -> & Ha1 & Hm1 & Hi1 & Hs1). obind. eexists. split; [done |]. split; [done |]. split; [lia |]. unfold kept. lia.
Qed.

(** The place of an element in the buffer. *)
Lemma element_at array es (idx : nat) : represents array es → (idx < length es)%nat → ∃ es1 x es2 rest,
  es = es1 ++ x :: es2 ∧ length es1 = idx ∧ buffer array = Some (concat es1 ++ x ++ concat es2 ++ rest) ∧
  Z.of_nat (length (concat es1)) = Z.of_nat idx * size_of_element array ∧ Z.of_nat (length x) = size_of_element array ∧
  0 ≤ Z.of_nat idx * size_of_element array < 2 ^ 32.
Proof.
  intros [Hsize Hinc Hes Hcount Hmax Hfit _ Hbuf] Hidx. destruct (lookup_lt_is_Some_2 es idx Hidx) as [x Hx]. pose proof (list_elem_of_split_length es idx x Hx) as (es1 & es2 & -> & Hl1). apply Forall_app in Hes as [Hes1 [Hxl Hes2]%Forall_cons].
  destruct (buffer array) as [b |]; [| lia]. destruct Hbuf as (rest & -> & Hbl). pose proof (length_elements _ _ Hes1) as Hlen1. exists es1, x, es2, rest. rewrite concat_app. cbn [concat]. rewrite <- !app_assoc. repeat split; try done; nia.
Qed.

Lemma set_spec array es e (idx : nat) : represents array es → Z.of_nat (length e) = size_of_element array → (Z.of_nat idx + alloc_increment array) * size_of_element array < 2 ^ 32 →
  (∃ array', set_dynamic fresh array e (Z.of_nat idx) = Ret (false, array') ∧ represents array' (set_list (size_of_element array) es e idx) ∧ kept idx array array') ∨
  max_element array ≤ Z.of_nat idx ∧ (∃ n, fresh n = None) ∧ (init_buffer_used array = false → set_dynamic fresh array e (Z.of_nat idx) = Ret (true, array)).
Proof using Hfresh.
  intros Hr He Hfit. pose proof Hr as [Hsize Hinc Hes Hcount Hmax Hfit' _ Hbuf]. unfold set_dynamic. rewrite Hcount. case_bool_decide as Hpast.
  - case_bool_decide as Hfull.
    + destruct (allocate_spec array es (Z.of_nat idx) Hr ltac:(lia) Hfit Hfull) as (max & Hm & Halloc). destruct (fresh _) as [new |] eqn:Hnew.
      * destruct Halloc as (a1 & -> & Ha1 & Hroom & Hi1 & Hs1 & Hm1). obind. destruct (set_past a1 es e idx Ha1 ltac:(lia) ltac:(lia) Hroom) as (a2 & a3 & -> & Hw & Ha3 & Hsh3). obind. rewrite Hw. obind.
        left. eexists. split; [done |]. rewrite Hs1 in Ha3. split; [done |]. injection Hsh3 as ???. unfold kept. lia.
      * right. split; [done |]. split; [by eexists |]. intros Hns. rewrite Halloc, Hns. done.
    + obind. destruct (set_past array es e idx Hr He ltac:(lia) ltac:(lia)) as (a2 & a3 & Hw1 & Hw & Ha3 & Hsh3). rewrite Hcount in Hw1. rewrite Hcount, Hw1. obind. rewrite Hw. obind. left. eauto using shape_kept.
  - left. destruct (element_at array es idx Hr ltac:(lia)) as (es1 & x & es2 & rest & -> & Hl1 & Hb & Hlen1 & Hxl & Hoff). rewrite u32_small, <- Hlen1 by done.
    rewrite (write_at_spec array (concat es1) x (concat es2 ++ rest) e Hb) by lia. obind. eexists. split; [done |]. split; [| by apply shape_kept]. unfold set_list. rewrite decide_True by (rewrite length_app; cbn; lia).
    rewrite insert_app_r_alt by lia. replace (idx - length es1)%nat with 0%nat by lia. apply Forall_app in Hes as [Hes1 [_ Hes2]%Forall_cons].
    split; cbn; try done; try lia; [apply Forall_app; by split; [| constructor] | rewrite length_app in *; cbn in *; lia |].
    exists rest. split; [rewrite concat_app; cbn; by rewrite <- !app_assoc |]. rewrite Hb in Hbuf. destruct Hbuf as (? & _ & Hbl). rewrite !length_app in Hbl. rewrite !length_app. lia.
Qed.

Lemma get_spec array es (idx : nat) : represents array es →
  get_dynamic array (Z.of_nat idx) = Ret (default (replicate (Z.to_nat (size_of_element array)) 0) (es !! idx)).
Proof.
  intros Hr. unfold get_dynamic. rewrite (r_count _ _ Hr). case_bool_decide as Hpast; [by rewrite lookup_ge_None_2 by lia |].
  destruct (element_at array es idx Hr ltac:(lia)) as (es1 & x & es2 & rest & -> & <- & Hb & Hlen1 & Hxl & Hoff). rewrite u32_small, <- Hlen1, <- Hxl by done. rewrite (read_at_spec array _ _ _ Hb). by rewrite list_lookup_middle.
Qed.

Lemma pop_spec array es e : represents array (es ++ [e]) → ∃ offset array',
  pop_dynamic array = (Some offset, array') ∧ represents array' es ∧ read_at array' offset (size_of_element array) = Ret e ∧ shape array' = shape array.
Proof.
  intros Hr. pose proof Hr as [Hsize Hinc Hes Hcount Hmax Hfit Hstatic Hbuf]. rewrite length_app in Hcount. cbn in Hcount.
  destruct (element_at array (es ++ [e]) (length es) Hr) as (es1 & x & es2 & rest & Heq & Hl1 & Hb & Hlen1 & Hxl & Hoff); [rewrite length_app; cbn; lia |].
  apply app_inj_1 in Heq as [<- [= <- <-]]; [| done]. unfold pop_dynamic. rewrite bool_decide_true by lia. replace (u32 (elements array - 1)) with (Z.of_nat (length es)) by (rewrite u32_small; nia). rewrite u32_small by done.
  eexists _, _. split; [done |]. split; [| split; [rewrite <- Hlen1, <- Hxl; by apply (read_at_spec _ _ _ (concat [] ++ rest)) | done]].
  apply Forall_app in Hes as [Hes _]. split; cbn; try done; try lia. rewrite Hb in Hbuf |- *. destruct Hbuf as (? & _ & Hbl). by eexists.
Qed.

Lemma delete_spec array es1 x es2 : represents array (es1 ++ x :: es2) →
  ∃ array', delete_dynamic_element array (Z.of_nat (length es1)) = Ret array' ∧ represents array' (es1 ++ es2) ∧ shape array' = shape array.
Proof.
  intros Hr. pose proof Hr as [Hsize Hinc Hes Hcount Hmax Hfit Hstatic Hbuf]. rewrite length_app in Hcount. cbn in Hcount.
  destruct (element_at array (es1 ++ x :: es2) (length es1) Hr) as (es1' & x' & es2' & rest & Heq & Hl1 & Hb & Hlen1 & Hxl & Hoff); [rewrite length_app; cbn; lia |].
  apply app_inj_1 in Heq as [<- [= <- <-]]; [| done]. apply Forall_app in Hes as [Hes1 [_ Hes2]%Forall_cons]. pose proof (length_elements _ _ Hes2) as Hlen2.
  unfold delete_dynamic_element. cbn [with_elements elements size_of_element]. rewrite Z.mul_comm, (u32_small (Z.of_nat (length es1) * _)) by done.
  rewrite (u32_small (elements array - 1)), (u32_small ((_ - 1 - _) * _)) by nia. replace ((elements array - 1 - Z.of_nat (length es1)) * size_of_element array) with (Z.of_nat (length (concat es2))) by nia.
  replace (Z.of_nat (length es1) * size_of_element array + size_of_element array) with (Z.of_nat (length (concat es1 ++ x))) by (rewrite length_app; lia).
  rewrite (read_at_spec _ _ _ rest) by (cbn; rewrite Hb; by rewrite <- app_assoc). obind. rewrite <- Hlen1.
  destruct (split_rest (concat es1 ++ (x ++ concat es2 ++ rest)) (concat es1) _ (length (concat es2)) eq_refl) as (X & B & HX & HXl); [rewrite !length_app; lia |].
  rewrite (write_at_spec _ _ X B) by (done || (cbn; by rewrite Hb, HX)). eexists. split; [done |]. split; [| done]. split; cbn; try done; try lia; [by apply Forall_app | rewrite length_app; lia |].
  exists B. split; [by rewrite concat_app, <- app_assoc |]. rewrite Hb, HX in Hbuf. destruct Hbuf as (? & _ & Hbl). rewrite !length_app, HXl in Hbl. rewrite !length_app. lia.
Qed.

Lemma reset_spec array es : represents array es → represents (reset_dynamic array) [].
Proof.
  intros [Hsize Hinc Hes Hcount Hmax Hfit Hstatic Hbuf]. split; cbn; try done; try lia. destruct (buffer array) as [b |]; [| done]. destruct Hbuf as (rest & _ & Hbl). by exists b.
Qed.

Lemma freeze_spec array es : represents array es → (∀ n, fresh n ≠ None) →
  represents (freeze_size fresh array) es ∧ kept 0 array (freeze_size fresh array).
Proof using Hfresh.
  intros Hr Hmem. pose proof Hr as [Hsize Hinc Hes Hcount Hmax Hfit Hstatic Hbuf]. unfold freeze_size. destruct (init_buffer_used array) eqn:Hs; [by auto using shape_kept |].
  destruct (buffer array) as [b |] eqn:Hb; [| by auto using shape_kept]. case_bool_decide as Hless; [| by auto using shape_kept]. split; [| unfold kept; cbn; lia].
  destruct Hbuf as (rest & -> & Hbl). pose proof (length_elements _ _ Hes) as Hlen. set (n := Z.max (elements array) 1) in *. assert (elements array ≤ n ∧ 1 ≤ n) as [Hn Hn1] by lia. rewrite u32_small by nia.
  unfold my_realloc. destruct (fresh _) as [new |] eqn:Hnew; [| by destruct (Hmem _ Hnew)]. apply fresh_size in Hnew; [| nia]. split; cbn; try done; try lia; try nia.
  exists (take (Z.to_nat (n * size_of_element array) - length (concat es)) rest ++ drop (length (concat es ++ rest)) new). rewrite app_assoc. rewrite take_app, (take_ge (concat es)) by nia.
  split; [done |]. rewrite length_app in *. rewrite !length_app, length_take, length_drop. nia.
Qed.

Lemma callback_spec array es1 es2 : Forall (λ e, Z.of_nat (length e) = size_of_element array) es2 → (∃ rest, buffer array = Some (concat es1 ++ concat es2 ++ rest)) ∨ es2 = [] →
  callback_loop (length es2) array (Z.of_nat (length (concat es1))) = Ret es2.
Proof.
  intros Hes. revert es1. induction Hes as [| e es2 He Hes2 IH]; intros es1 Hb; [done |]. destruct Hb as [[rest Hb] |]; [| done]. cbn [concat] in Hb. rewrite <- app_assoc in Hb. cbn [length callback_loop].
  rewrite <- He, (read_at_spec array _ _ _ Hb). obind. specialize (IH (es1 ++ [e])). rewrite concat_app in IH. cbn [concat] in IH. rewrite app_nil_r, length_app, Nat2Z.inj_add in IH. rewrite IH; [done |]. left. exists rest. by rewrite <- app_assoc.
Qed.

Lemma delete_all_spec array es : represents array es → delete_dynamic_with_callback array = Ret (es, delete_dynamic array).
Proof.
  intros [Hsize Hinc Hes Hcount Hmax Hfit Hstatic Hbuf]. unfold delete_dynamic_with_callback. rewrite Hcount, Nat2Z.id. pose proof (callback_spec array [] es Hes) as Hloop. change (Z.of_nat (length (concat []))) with 0 in Hloop. rewrite Hloop; [done |].
  destruct (buffer array) as [b |] eqn:Hb; [destruct Hbuf as (rest & -> & _); left; by exists rest |]. right. destruct es; [done | cbn in *; lia].
Qed.

Lemma increment_spec size init_alloc increment : 0 < size → 0 ≤ init_alloc < 2 ^ 31 → 0 ≤ increment →
  ∃ inc, choose_increment size init_alloc increment = Ret inc ∧ 0 < inc ∧ (increment ≠ 0 → inc = increment).
Proof.
  intros Hsize Halloc Hinc. unfold choose_increment. case_bool_decide as Hz; [| by exists increment; repeat split; lia]. rewrite bool_decide_false by lia. rewrite u32_small by lia.
  destruct (bool_decide (init_alloc > 8)) eqn:H8; [apply bool_decide_eq_true in H8 |]; cbn [andb]; [case_bool_decide |]; eexists; (split; [done |]); lia.
Qed.

Lemma init_spec size init_buffer init_alloc increment : 0 < size → 0 ≤ init_alloc < 2 ^ 31 → 0 ≤ increment → init_alloc * size < 2 ^ 32 →
  match init_buffer with Some b => Z.of_nat (length b) = init_alloc * size | None => True end → ∃ array,
  init_dynamic_array2 fresh size init_buffer init_alloc increment = Ret array ∧ represents array [] ∧ size_of_element array = size ∧ max_element array ≤ init_alloc ∧ (increment ≠ 0 → alloc_increment array = increment).
Proof using Hfresh.
  intros Hsize Halloc Hinc Hfit Hbuf. unfold init_dynamic_array2.
  destruct (increment_spec size init_alloc increment) as (inc & -> & Hpos & Hsame); [done.. |].
  obind. destruct init_buffer as [b |].
  - eexists. split; [done |]. split; [| by split]. split; cbn; try done; try lia. by exists b.
  - case_bool_decide as Hz.
    + rewrite u32_small, Z.mul_comm by nia. destruct (fresh _) as [b |] eqn:Hnew; (eexists; split; [done |]; split; [| split; [done |]; split; [cbn; lia | done]]); split; cbn; try done; try lia. apply fresh_size in Hnew; [| nia]. by exists b.
    + eexists. split; [done |]. split; [| by split]. split; cbn; try done; try lia.
Qed.

(** ** Sequences of operations *)

Inductive operation :=
  | Insert (e : list Z)
  | Pop
  | Put (e : list Z) (idx : nat)
  | Get (idx : nat)
  | Remove (idx : nat)
  | Freeze
  | Empty.

Inductive reply :=
  | Done (failed : bool)
  | Element (e : option (list Z)).

(** An operation on the array; an element that was popped is read at once. *)
Definition perform array (op : operation) : outcome (reply * DYNAMIC_ARRAY) :=
  match op with
  | Insert e => '(failed, array) ← insert_dynamic fresh array e; Ret (Done failed, array)
  | Pop =>
      match pop_dynamic array with
      | (None, array) => Ret (Element None, array)
      | (Some offset, array) => e ← read_at array offset (size_of_element array); Ret (Element (Some e), array)
      end
  | Put e idx => '(failed, array) ← set_dynamic fresh array e (Z.of_nat idx); Ret (Done failed, array)
  | Get idx => e ← get_dynamic array (Z.of_nat idx); Ret (Element (Some e), array)
  | Remove idx => array ← delete_dynamic_element array (Z.of_nat idx); Ret (Done false, array)
  | Freeze => Ret (Done false, freeze_size fresh array)
  | Empty => Ret (Done false, reset_dynamic array)
  end.

Fixpoint perform_all array (ops : list operation) : outcome (list reply * DYNAMIC_ARRAY) :=
  match ops with
  | [] => Ret ([], array)
  | op :: ops =>
      '(r, array) ← perform array op;
      '(rs, array) ← perform_all array ops;
      Ret (r :: rs, array)
  end.

(** The same on the list of elements of [size] bytes, of which there are at most [limit]; [None] for a use outside the contract. *)
Definition perform_list (size : Z) (limit : nat) es (op : operation) : option (reply * list (list Z)) :=
  match op with
  | Insert e => if decide (Z.of_nat (length e) = size ∧ length es < limit)%nat then Some (Done false, es ++ [e]) else None
  | Pop => Some (Element (last es), removelast es)
  | Put e idx => if decide (Z.of_nat (length e) = size ∧ idx < limit)%nat then Some (Done false, set_list size es e idx) else None
  | Get idx => Some (Element (Some (default (replicate (Z.to_nat size) 0) (es !! idx))), es)
  | Remove idx => if decide (idx < length es)%nat then Some (Done false, delete idx es) else None
  | Freeze => Some (Done false, es)
  | Empty => Some (Done false, [])
  end.

Fixpoint perform_all_list (size : Z) (limit : nat) es (ops : list operation) : option (list reply * list (list Z)) :=
  match ops with
  | [] => Some ([], es)
  | op :: ops =>
      '(r, es) ← perform_list size limit es op;
      '(rs, es) ← perform_all_list size limit es ops;
      Some (r :: rs, es)
  end.

(** The array has the elements [es] and the given sizes, and its buffer is not larger than a list of [limit] elements needs. *)
Definition holds (size increment : Z) (limit : nat) array es : Prop :=
  represents array es ∧ size_of_element array = size ∧ alloc_increment array = increment ∧ max_element array ≤ Z.of_nat limit + increment.

Lemma kept_holds size increment limit n array es array' es' : holds size increment limit array es → represents array' es' → kept n array array' → (n ≤ limit)%nat →
  holds size increment limit array' es'.
Proof. intros (_ & <- & <- & Hmax) Hr (Hi & Hs & Hm) Hn. split; [done |]. lia. Qed.

Lemma perform_spec size increment limit array es op r es' : (∀ n, fresh n ≠ None) → (Z.of_nat limit + 2 * increment) * size < 2 ^ 32 →
  holds size increment limit array es → perform_list size limit es op = Some (r, es') →
  ∃ array', perform array op = Ret (r, array') ∧ holds size increment limit array' es'.
Proof using Hfresh.
  intros Hmem Hfit Hh. pose proof Hh as (Hr & <- & <- & Hmax). pose proof (r_size _ _ Hr). pose proof (r_increment _ _ Hr). destruct op as [e | | e idx | idx | idx | |]; cbn [perform_list perform]; intros Hop.
  - destruct (decide _) as [[He Hl] |]; [| done]. injection Hop as <- <-. pose proof (insert_spec array es e Hr He ltac:(nia)) as Hspec. rewrite decide_False in Hspec by (intros [_ ?]; by eapply Hmem).
    destruct Hspec as (a & -> & Ha & Hk). obind. eexists. split; [done |]. eapply kept_holds; eauto with lia.
  - injection Hop as <- <-. destruct es as [| e es _] using rev_ind.
    + unfold pop_dynamic. rewrite (r_count _ _ Hr). cbn. eauto.
    + destruct (pop_spec array es e Hr) as (offset & a & -> & Ha & Hread & Hsh). pose proof Hsh as [= _ -> _]. rewrite Hread. obind. rewrite last_snoc, removelast_last. eexists. split; [done |]. eapply (kept_holds _ _ _ 0); eauto using shape_kept with lia.
  - destruct (decide _) as [[He Hl] |]; [| done]. injection Hop as <- <-. destruct (set_spec array es e idx Hr He ltac:(nia)) as [(a & -> & Ha & Hk) | (_ & [n Hn] & _)]; [| by destruct (Hmem n)].
    obind. eexists. split; [done |]. eapply kept_holds; eauto with lia.
  - injection Hop as <- <-. rewrite (get_spec array es idx Hr). obind. eauto.
  - destruct (decide _) as [Hl |]; [| done]. injection Hop as <- <-. destruct (lookup_lt_is_Some_2 es idx Hl) as [x Hx]. pose proof (list_elem_of_split_length es idx x Hx) as (es1 & es2 & -> & ->).
    destruct (delete_spec array es1 x es2 Hr) as (a & -> & Ha & Hsh). obind. rewrite delete_middle. eexists. split; [done |]. eapply (kept_holds _ _ _ 0); eauto using shape_kept with lia.
  - injection Hop as <- <-. destruct (freeze_spec array es Hr Hmem) as [Ha Hk]. eexists. split; [done |]. eapply kept_holds; eauto with lia.
  - injection Hop as <- <-. eexists. split; [done |]. apply (kept_holds _ _ _ 0 array es); [done | by eapply reset_spec | by apply shape_kept | lia].
Qed.

Lemma perform_all_spec size increment limit ops : (∀ n, fresh n ≠ None) → (Z.of_nat limit + 2 * increment) * size < 2 ^ 32 →
  ∀ array es rs es', holds size increment limit array es → perform_all_list size limit es ops = Some (rs, es') →
  ∃ array', perform_all array ops = Ret (rs, array') ∧ holds size increment limit array' es'.
Proof using Hfresh.
  intros Hmem Hfit. induction ops as [| op ops IH]; intros array es rs es' Hh; cbn [perform_all_list perform_all]; [intros [= <- <-]; eauto |].
  destruct (perform_list size limit es op) as [[r es1] |] eqn:Hop; [| done]. cbn. destruct (perform_all_list size limit es1 ops) as [[rs' es2] |] eqn:Hops; [| done]. intros [= <- <-].
  destruct (perform_spec size increment limit array es op r es1 Hmem Hfit Hh Hop) as (a1 & -> & Ha1). obind. destruct (IH a1 es1 rs' es2 Ha1 Hops) as (a2 & -> & Ha2). obind. eauto.
Qed.

(** ** Failures of memory *)

Lemma write_at_length array offset bytes array' : write_at array offset bytes = Ret array' →
  0 ≤ offset ∧ ∃ b b', buffer array = Some b ∧ buffer array' = Some b' ∧ length b' = length b ∧ offset + Z.of_nat (length bytes) ≤ Z.of_nat (length b) ∧ shape array' = shape array.
Proof.
  unfold write_at. destruct (buffer array) as [b |]; cbn [of_option]; [| done]. obind. case_bool_decide as Hin; [| done]. intros [= <-]. split; [lia |]. eexists _, _. split; [done |]. split; [done |]. split; [| by split; [lia |]].
  rewrite !length_app, length_take, length_drop. lia.
Qed.

(** When there is no memory to replace the buffer of the caller, [allocate_dynamic] reports success, and [set_dynamic] writes outside the buffer. *)
Theorem set_without_memory array es e (idx : nat) : represents array es → init_buffer_used array = true → (∀ n, fresh n = None) → Z.of_nat (length e) = size_of_element array →
  max_element array ≤ Z.of_nat idx → (Z.of_nat idx + alloc_increment array) * size_of_element array < 2 ^ 32 →
  allocate_dynamic fresh array (Z.of_nat idx) = Ret (false, array) ∧ set_dynamic fresh array e (Z.of_nat idx) = UB.
Proof using Hfresh.
  intros Hr Hs Hmem He Hidx Hfit. pose proof Hr as [Hsize Hinc _ Hcount Hmax _ _ Hbuf]. destruct (allocate_spec array es (Z.of_nat idx) Hr ltac:(lia) Hfit Hidx) as (max & _ & Halloc). rewrite Hmem, Hs in Halloc.
  split; [done |]. unfold set_dynamic. rewrite bool_decide_true by lia. rewrite bool_decide_true, Halloc by done. obind. cbn [negb]. destruct (write_at array _ _) as [a1 | |] eqn:Hw; [| done | unfold write_at in Hw; destruct (buffer array); cbn in Hw; [by case_bool_decide | done]].
  obind. destruct (write_at_length _ _ _ _ Hw) as (_ & b & b' & Hb & Hb' & Hl & _ & [= _ Hs1 _]). rewrite Hb in Hbuf. destruct Hbuf as (_ & _ & Hbl). unfold write_at. cbn [with_elements buffer]. rewrite Hb'. cbn [of_option]. obind.
  rewrite bool_decide_false; [done |]. rewrite Hs1, u32_small, Hl, Hbl, He by nia. nia.
Qed.

(** [freeze_size] loses the elements when there is no memory. *)
Theorem freeze_without_memory array es : represents array es → init_buffer_used array = false → (∀ n, fresh n = None) → 0 < elements array < max_element array →
  get_dynamic (freeze_size fresh array) 0 = UB.
Proof.
  intros Hr Hs Hmem Hlt. pose proof (r_buffer _ _ Hr) as Hbuf. unfold freeze_size. rewrite Hs. destruct (buffer array) as [b |]; [| lia]. rewrite bool_decide_true by lia. unfold my_realloc. rewrite Hmem. unfold get_dynamic. cbn [elements with_buffer]. by rewrite bool_decide_false by lia.
Qed.

(** C29: a dynamic array is a list.  While there is memory, every sequence of insertions, pops, writes, reads and deletions by index, [freeze_size] and [reset_dynamic] on a new array
    gives the replies of the list, does not leave the buffer, and [delete_dynamic_with_callback] then visits the elements that are left, once each and in order.  A write past the end
    fills the gap with zeros and a read past the end gives zeros.  The first buffer may be the caller's; the bound keeps the sizes in bytes below 2^32. *)
Theorem dynamic_array_correct size increment init_alloc init_buffer limit ops rs es : (∀ n, fresh n ≠ None) → 0 < size → 0 < increment →
  (Z.of_nat limit + 2 * increment) * size < 2 ^ 31 → 0 ≤ init_alloc ≤ Z.of_nat limit →
  match init_buffer with Some b => Z.of_nat (length b) = init_alloc * size | None => True end →
  perform_all_list size limit [] ops = Some (rs, es) → ∃ array array',
  init_dynamic_array2 fresh size init_buffer init_alloc increment = Ret array ∧ perform_all array ops = Ret (rs, array') ∧
  delete_dynamic_with_callback array' = Ret (es, delete_dynamic array').
Proof using Hfresh.
  intros Hmem Hsize Hinc Hfit Hinit Hbuf Hops. destruct (init_spec size init_buffer init_alloc increment) as (array & Hnew & Hr & Hs & Hm & Hi); try done; try nia.
  destruct (perform_all_spec size increment limit ops Hmem ltac:(lia) array [] rs es) as (array' & Hrun & Hr' & _); [split; [done |]; lia | done |]. exists array, array'. eauto using delete_all_spec.
Qed.
End spec.

(** Memory filled with zeros. *)
Definition zero_memory (n : Z) : option (list Z) := Some (replicate (Z.to_nat n) 0).

#[export] Instance zero_allocator : Allocator zero_memory.
Proof. intros n b Hn [= <-]. rewrite length_replicate. lia. Qed.

(** The theorem for two-byte elements in a buffer of the caller that becomes too small. *)
Lemma dynamic_array_correct_witness :
  let ops := [Insert [1; 2]; Insert [3; 4]; Put [5; 6] 3; Remove 0; Get 1; Freeze; Pop; Get 7] in
  ∃ array array', init_dynamic_array2 zero_memory 2 (Some [9; 9]) 1 1 = Ret array ∧
    perform_all zero_memory array ops =
      Ret ([Done false; Done false; Done false; Done false; Element (Some [0; 0]); Done false; Element (Some [5; 6]); Element (Some [0; 0])], array') ∧
    delete_dynamic_with_callback array' = Ret ([[3; 4]; [0; 0]], delete_dynamic array').
Proof. apply (dynamic_array_correct zero_memory 2 1 1 (Some [9; 9]) 8); try done; lia. Defined.
