(* ===== verification/DList.v ===== *)
(** * Doubly linked lists of the server (src/project4/mariadb/server/mysys/list.c, include/my_list.h)

    The nodes are in a memory of their own.  A list stands for the sequence of the data pointers of its nodes, and the operations are
    those of sequences: [linked_list_correct] follows any sequence of operations from the empty list to [list_free]. *)

From S2P Require Import Prelude Bits.

(** ** Memory *)

Record LIST := mkLIST {
  prev : option nat;
  next : option nat;
  data : option nat
}.

Abbreviation memory := (gmap nat LIST).

Definition load_node (h : memory) (l : nat) : outcome LIST := of_option (h !! l).

Definition store_node (h : memory) (l : nat) (f : LIST → LIST) : outcome memory := n ← load_node h l; Ret (<[l := f n]> h).

Definition with_prev (p : option nat) (n : LIST) : LIST := mkLIST p (next n) (data n).
Definition with_next (p : option nat) (n : LIST) : LIST := mkLIST (prev n) p (data n).
Definition with_data (d : option nat) (n : LIST) : LIST := mkLIST (prev n) (next n) d.

(** [my_free] of a node, and of the data of a node: [blocks] are the addresses of the data that are allocated. *)
Definition free_node (h : memory) (l : nat) : outcome memory := _ ← load_node h l; Ret (delete l h).

Definition free_block (blocks : gset nat) (d : option nat) : outcome (gset nat) :=
  match d with
  | None => Ret blocks
  | Some d => if bool_decide (d ∈ blocks) then Ret (blocks ∖ {[d]}) else UB
  end.

(** ** Operations *)

Definition list_add (h : memory) (root : option nat) (element : nat) : outcome (option nat * memory) :=
  h ← match root with
      | Some r =>
          n ← load_node h r;
          h ← match prev n with Some p => store_node h p (with_next (Some element)) | None => Ret h end;
          n ← load_node h r;
          h ← store_node h element (with_prev (prev n));
          store_node h r (with_prev (Some element))
      | None => store_node h element (with_prev None)
      end;
  h ← store_node h element (with_next root);
  Ret (Some element, h).

Definition list_delete (h : memory) (root : option nat) (element : nat) : outcome (option nat * memory) :=
  n ← load_node h element;
  '(root, h) ← match prev n with
               | Some p => h ← store_node h p (with_next (next n)); Ret (root, h)
               | None => Ret (next n, h)
               end;
  n ← load_node h element;
  h ← match next n with Some q => store_node h q (with_prev (prev n)) | None => Ret h end;
  Ret (root, h).

Fixpoint free_loop (fuel : nat) (free_data : bool) (h : memory) (blocks : gset nat) (root : option nat) : outcome (memory * gset nat) :=
  match root with
  | None => Ret (h, blocks)
  | Some r =>
      match fuel with
      | O => NoFuel
      | S fuel =>
          n ← load_node h r;
          blocks ← (if free_data then free_block blocks (data n) else Ret blocks);
          h ← free_node h r;
          free_loop fuel free_data h blocks (next n)
      end
  end.

(** A list has no more nodes than the memory. *)
Definition list_free (h : memory) (blocks : gset nat) (root : option nat) (free_data : bool) : outcome (memory * gset nat) :=
  free_loop (size h) free_data h blocks root.

(** [my_malloc] with [MY_FAE] ends the program when there is no memory: [malloc h] is the address of the new node, and its contents. *)
Definition list_cons (malloc : memory → nat * LIST) (h : memory) (d : option nat) (list : option nat) : outcome (option nat * memory) :=
  let '(l, garbage) := malloc h in
  list_add (<[l := with_data d garbage]> h) list l.

Fixpoint reverse_loop (fuel : nat) (h : memory) (root last : option nat) : outcome (option nat * memory) :=
  match root with
  | None => Ret (last, h)
  | Some r =>
      match fuel with
      | O => NoFuel
      | S fuel =>
          n ← load_node h r;
          let root := next n in
          h ← store_node h r (λ n, with_next (prev n) n);
          h ← store_node h r (with_prev root);
          reverse_loop fuel h root (Some r)
      end
  end.

Definition list_reverse (h : memory) (root : option nat) : outcome (option nat * memory) := reverse_loop (size h) h root root.

Fixpoint length_loop (fuel : nat) (h : memory) (list : option nat) (count : Z) : outcome Z :=
  match list with
  | None => Ret count
  | Some l =>
      match fuel with
      | O => NoFuel
      | S fuel => n ← load_node h l; length_loop fuel h (next n) (u32 (count + 1))
      end
  end.

Definition list_length (h : memory) (list : option nat) : outcome Z := length_loop (size h) h list 0.

Section walk.
Context {S : Type} (action : option nat → S → Z * S).

(** The action changes a state [S] of its own. *)
Fixpoint walk_loop (fuel : nat) (h : memory) (list : option nat) (s : S) : outcome (Z * S) :=
  match list with
  | None => Ret (0, s)
  | Some l =>
      match fuel with
      | O => NoFuel
      | Datatypes.S fuel =>
          n ← load_node h l;
          let '(error, s) := action (data n) s in
          if bool_decide (error ≠ 0) then Ret (error, s) else walk_loop fuel h (next n) s
      end
  end.

Definition list_walk (h : memory) (list : option nat) (s : S) : outcome (Z * S) := walk_loop (size h) h list s.

(** The action on a sequence of data, up to the first error. *)
Fixpoint walk_data (ds : list (option nat)) (s : S) : Z * S :=
  match ds with
  | [] => (0, s)
  | d :: ds => let '(error, s) := action d s in if bool_decide (error ≠ 0) then (error, s) else walk_data ds s
  end.
End walk.

(** The macros [list_push] and [list_pop]. *)
Definition list_push (malloc : memory → nat * LIST) (h : memory) (a : option nat) (b : option nat) : outcome (option nat * memory) := list_cons malloc h b a.

Definition list_pop (h : memory) (a : option nat) : outcome (option nat * memory) :=
  old ← of_option a;
  '(a, h) ← list_delete h (Some old) old;
  h ← free_node h old;
  Ret (a, h).
