(* ===== verification/DListSpec.v ===== *)
(** * Doubly linked lists: the sequence of their data *)

From S2P Require Import Prelude Bits DList.

(** ** Segments *)

(** A node and its data. *)
Abbreviation cells := (list (nat * option nat)).

Definition first (cs : cells) (q : option nat) : option nat := match cs with [] => q | (l, _) :: _ => Some l end.

Fixpoint final (p : option nat) (cs : cells) : option nat := match cs with [] => p | (l, _) :: cs => final (Some l) cs end.

(** The nodes [cs] follow each other; [p] is before the first and [q] after the last. *)
Fixpoint segment (h : memory) (p : option nat) (cs : cells) (q : option nat) : Prop :=
  match cs with
  | [] => True
  | (l, d) :: cs => h !! l = Some (mkLIST p (first cs q) d) ∧ segment h (Some l) cs q
  end.

Lemma segment_app h cs1 cs2 p q : segment h p (cs1 ++ cs2) q ↔ segment h p cs1 (first cs2 q) ∧ segment h (final p cs1) cs2 q.
Proof.
  revert p. induction cs1 as [| [l d] cs1 IH]; intros p; cbn [segment app final]; [tauto |]. rewrite IH. replace (first (cs1 ++ cs2) q) with (first cs1 (first cs2 q)) by (by destruct cs1 as [| []]). tauto.
Qed.

Lemma segment_ext h h' cs p q : (∀ l, l ∈ cs.*1 → h' !! l = h !! l) → segment h p cs q → segment h' p cs q.
Proof.
  revert p. induction cs as [| [l d] cs IH]; intros p Hext; [done |]. cbn [segment]. intros [Hl Hcs]. split; [rewrite Hext; [done | by left] |]. apply IH; [| done]. intros l' Hl'. apply Hext. by right.
Qed.

Lemma not_in_cells (A B : cells) e d l : l ∉ (A ++ (e, d) :: B).*1 → l ∉ A.*1 ∧ l ≠ e ∧ l ∉ B.*1.
Proof. rewrite fmap_app, fmap_cons. cbn [fst]. intros [HA [He HB]%not_elem_of_cons]%not_elem_of_app. done. Qed.

Lemma segment_fresh h cs p q l n : l ∉ cs.*1 → segment h p cs q → segment (<[l := n]> h) p cs q.
Proof. intros Hl. apply segment_ext. intros l' Hl'. apply lookup_insert_ne. by intros ->. Qed.

Lemma final_snoc p cs l d : final p (cs ++ [(l, d)]) = Some l.
Proof. revert p. induction cs as [| [l' d'] cs IH]; intros p; [done |]. cbn [app final]. apply IH. Qed.

Lemma store_node_Ret h l f n : h !! l = Some n → store_node h l f = Ret (<[l := f n]> h).
Proof. intros Hl. unfold store_node, load_node. by rewrite Hl. Qed.

(** The pointers to the neighbours of a place, which the operations change. *)
Lemma relink_before h cs q q' : NoDup (cs.*1) → segment h None cs q →
  ∃ h', match final None cs with Some p => store_node h p (with_next q') | None => Ret h end = Ret h' ∧ segment h' None cs q' ∧
        ∀ l, l ∉ cs.*1 → h' !! l = h !! l.
Proof.
  destruct cs as [| [l d] cs _] using rev_ind; [by exists h |]. rewrite fmap_app, final_snoc, segment_app. intros (_ & Hd & _)%NoDup_app [Hcs [Hl _]]. cbn [first] in *.
  rewrite (store_node_Ret _ _ _ _ Hl). eexists. split; [done |]. rewrite segment_app. split; [split |].
  - apply segment_fresh; [| done]. intros Hin. apply (Hd l Hin). cbn. by left.
  - cbn. by rewrite lookup_insert_eq.
  - intros l' Hl'. apply lookup_insert_ne. set_solver.
Qed.

Lemma relink_after h cs p p' : NoDup (cs.*1) → segment h p cs None →
  ∃ h', match first cs None with Some q => store_node h q (with_prev p') | None => Ret h end = Ret h' ∧ segment h' p' cs None ∧
        ∀ l, l ∉ cs.*1 → h' !! l = h !! l.
Proof.
  destruct cs as [| [l d] cs]; [by exists h |]. cbn [fmap list_fmap first segment]. intros [Hd _]%NoDup_cons [Hl Hcs]. rewrite (store_node_Ret _ _ _ _ Hl). eexists. split; [done |]. cbn. rewrite lookup_insert_eq. split; [split; [done |] |].
  - by apply segment_fresh.
  - intros l' Hl'. apply lookup_insert_ne. set_solver.
Qed.

(** ** The operations *)

Lemma add_spec h A B e n : NoDup ((A ++ B).*1) → e ∉ (A ++ B).*1 → h !! e = Some n → segment h None (A ++ B) None → (B = [] → A = []) →
  ∃ h', list_add h (first B None) e = Ret (Some e, h') ∧ segment h' None (A ++ (e, data n) :: B) None ∧ ∀ l, l ∉ (A ++ (e, data n) :: B).*1 → h' !! l = h !! l.
Proof.
  rewrite fmap_app. intros (HA & HAB & HB)%NoDup_app He Hn [HsA HsB]%segment_app Hempty. unfold list_add. destruct B as [| [r d] B].
  { rewrite (Hempty eq_refl) in *. cbn [first]. rewrite (store_node_Ret _ _ _ _ Hn). obind. rewrite (store_node_Ret _ _ _ _ (lookup_insert_eq _ _ _)). obind. eexists. split; [done |]. cbn. rewrite lookup_insert_eq. split; [done |].
    intros l [Hl _]%not_elem_of_cons. by rewrite !lookup_insert_ne. }
  cbn [first segment fmap list_fmap] in *. apply not_elem_of_app in He as [HeA HeB]. apply not_elem_of_cons in HeB as [Her HeB]. apply NoDup_cons in HB as [HrB HB]. destruct HsB as [Hr HsB].
  assert (r ∉ A.*1) as HrA by (intros Hin; apply (HAB r Hin); by left). unfold load_node. rewrite Hr. cbn [of_option]. obind. cbn [prev].
  destruct (relink_before h A (Some r) (Some e) HA HsA) as (h1 & -> & HsA1 & Hf1). obind. rewrite (Hf1 r HrA), Hr. cbn [of_option]. obind. cbn [prev]. rewrite <- (Hf1 e HeA) in Hn. rewrite <- (Hf1 r HrA) in Hr.
  rewrite (store_node_Ret _ _ _ _ Hn). obind. rewrite (store_node_Ret _ r _ _ (eq_trans (lookup_insert_ne _ _ _ _ Her) Hr)). obind.
  rewrite (store_node_Ret _ e _ _ (eq_trans (lookup_insert_ne _ _ _ _ (not_eq_sym Her)) (lookup_insert_eq _ _ _))). obind. eexists. split; [done |]. rewrite segment_app. split; [split |].
  - cbn [first]. by repeat (apply segment_fresh; [done |]).
  - cbn [segment first]. rewrite lookup_insert_eq, (lookup_insert_ne _ e r), lookup_insert_eq by done. split; [done |]. split; [done |]. repeat (apply segment_fresh; [done |]).
    apply (segment_ext h); [| done]. intros l Hl. apply Hf1. intros Hin. apply (HAB l Hin). by right.
  - intros l (HlA & Hle & Hlr)%not_in_cells. apply not_elem_of_cons in Hlr as [Hlr _]. rewrite !lookup_insert_ne by done. by apply Hf1.
Qed.

Lemma remove_spec h A e d B root : NoDup ((A ++ (e, d) :: B).*1) → segment h None (A ++ (e, d) :: B) None →
  ∃ h', list_delete h root e = Ret (match A with [] => first B None | _ => root end, h') ∧ segment h' None (A ++ B) None ∧ ∀ l, l ∉ (A ++ B).*1 → h' !! l = h !! l.
Proof.
  rewrite fmap_app. cbn [fmap list_fmap]. intros (HA & HAB & [HeB HB]%NoDup_cons)%NoDup_app [HsA [He HsB]]%segment_app. cbn [fst first] in *. assert (e ∉ A.*1) as HeA by (intros Hin; apply (HAB e Hin); by left).
  destruct (relink_before h A (Some e) (first B None) HA HsA) as (h1 & Hw1 & HsA1 & Hf1). assert (∀ l, l ∈ B.*1 → l ∉ A.*1) as HBA by (intros l Hl Hin; apply (HAB l Hin); by right).
  assert (segment h1 (Some e) B None) as HsB1 by (apply (segment_ext h); auto). destruct (relink_after h1 B (Some e) (final None A) HB HsB1) as (h2 & Hw2 & HsB2 & Hf2).
  unfold list_delete, load_node. rewrite He. cbn [of_option]. obind. cbn [prev next].
  assert (match final None A with Some p => h ← store_node h p (with_next (first B None)); Ret (root, h) | None => Ret (first B None, h) end
          = Ret (match A with [] => first B None | _ => root end, h1)) as ->.
  { destruct (final None A) eqn:Hfin; [rewrite Hw1; obind |]; destruct A as [| [a da] A _] using rev_ind; try done; [by destruct A | congruence | rewrite final_snoc in Hfin; done]. }
  obind. rewrite (Hf1 e HeA), He. cbn [of_option]. obind. cbn [prev next]. rewrite Hw2. obind. eexists. split; [done |]. rewrite segment_app. split; [split |].
  - apply (segment_ext h1); [| done]. intros l Hl. apply Hf2. intros Hin. by apply (HBA l).
  - done.
  - intros l Hl. rewrite fmap_app in Hl. apply not_elem_of_app in Hl as [HlA HlB]. by rewrite Hf2, Hf1.
Qed.

Lemma reverse_spec R : ∀ fuel h P last, segment h (first R None) P None → segment h (first P None) R None → NoDup ((P ++ R).*1) → (length R ≤ fuel)%nat → (R = [] → last = first P None) →
  ∃ h', reverse_loop fuel h (first R None) last = Ret (first (rev R ++ P) None, h') ∧ segment h' None (rev R ++ P) None ∧ ∀ l, l ∉ R.*1 → h' !! l = h !! l.
Proof.
  induction R as [| [r d] R IH]; intros fuel h P last HP HR Hnd Hfuel Hlast; [exists h; rewrite Hlast by done; destruct fuel; done |]. destruct fuel as [| fuel]; [cbn in *; lia |]. cbn [first segment reverse_loop length] in *. destruct HR as [Hr HR].
  unfold load_node. rewrite Hr. cbn [of_option]. obind. rewrite (store_node_Ret _ _ _ _ Hr). obind. rewrite (store_node_Ret _ _ _ _ (lookup_insert_eq _ _ _)). obind. rewrite insert_insert_eq. cbn [with_next with_prev next prev data].
  rewrite fmap_app in Hnd. cbn [fmap list_fmap fst] in Hnd. apply NoDup_app in Hnd as (HndP & Hdis & [HrR HndR]%NoDup_cons). assert (r ∉ P.*1) as HrP by (intros Hin; apply (Hdis r Hin); by left).
  destruct (IH fuel (<[r := mkLIST (first R None) (first P None) d]> h) ((r, d) :: P) (Some r)) as (h' & Hrun & Hs & Hf).
  - cbn [segment]. rewrite lookup_insert_eq. split; [done |]. by apply segment_fresh.
  - by apply segment_fresh.
  - cbn [app fmap list_fmap fst]. rewrite fmap_app. constructor; [by apply not_elem_of_app |]. apply NoDup_app. split; [done |]. split; [| done]. intros l Hl Hin. apply (Hdis l Hl). by right.
  - lia.
  - done.
  - exists h'. cbn [rev]. rewrite <- app_assoc. split; [done |]. split; [done |]. intros l [Hlr HlR]%not_elem_of_cons. rewrite Hf by done. by apply lookup_insert_ne.
Qed.

Lemma length_spec cs : ∀ fuel h p count, segment h p cs None → (length cs ≤ fuel)%nat → 0 ≤ count < 2 ^ 32 → length_loop fuel h (first cs None) count = Ret (u32 (count + Z.of_nat (length cs))).
Proof.
  induction cs as [| [l d] cs IH]; intros fuel h p count Hs Hfuel Hc.
  - cbn [length]. rewrite Z.add_0_r. unfold u32. rewrite Z.mod_small by lia. by destruct fuel.
  - destruct fuel as [| fuel]; [cbn in *; lia |]. cbn [first segment length_loop length] in *. destruct Hs as [Hl Hs]. unfold load_node. rewrite Hl. cbn [of_option]. obind. cbn [next].
    rewrite (IH fuel h (Some l)); [| done | lia | apply Z.mod_pos_bound; lia]. unfold u32. rewrite Zplus_mod_idemp_l. do 2 f_equal. lia.
Qed.

Lemma walk_list_spec {S} (action : option nat → S → Z * S) cs : ∀ fuel h p s, segment h p cs None → (length cs ≤ fuel)%nat → walk_loop action fuel h (first cs None) s = Ret (walk_data action (cs.*2) s).
Proof.
  induction cs as [| [l d] cs IH]; intros fuel h p s Hs Hfuel; [by destruct fuel |]. destruct fuel as [| fuel]; [cbn in *; lia |]. cbn [first segment walk_loop walk_data length fmap list_fmap snd] in *. destruct Hs as [Hl Hs].
  unfold load_node. rewrite Hl. cbn [of_option]. obind. cbn [next data]. destruct (action d s) as [error s']. case_bool_decide; [done |]. apply (IH fuel h (Some l)); [done | lia].
Qed.

(** The data blocks of the cells. *)
Definition blocks_of (ds : list (option nat)) : list nat := omap id ds.

Lemma free_spec (free_data : bool) cs : ∀ fuel h blocks p, segment h p cs None → NoDup (cs.*1) → (length cs ≤ fuel)%nat →
  (free_data = true → NoDup (blocks_of (cs.*2)) ∧ list_to_set (blocks_of (cs.*2)) ⊆ blocks) →
  ∃ h', free_loop fuel free_data h blocks (first cs None) = Ret (h', if free_data then blocks ∖ list_to_set (blocks_of (cs.*2)) else blocks) ∧
        ∀ l, h' !! l = if decide (l ∈ cs.*1) then None else h !! l.
Proof.
  induction cs as [| [l d] cs IH]; intros fuel h blocks p Hs Hnd Hfuel Hblocks.
  { exists h. split; [| done]. cbn. destruct fuel, free_data; cbn; do 2 f_equal; set_solver. }
  destruct fuel as [| fuel]; [cbn in *; lia |]. cbn [first segment free_loop length fmap list_fmap fst snd] in *. destruct Hs as [Hl Hs]. apply NoDup_cons in Hnd as [Hlc Hnd]. unfold load_node. rewrite Hl. cbn [of_option]. obind. cbn [data next].
  assert ((if free_data then free_block blocks d else Ret blocks) = Ret (if free_data then blocks ∖ list_to_set (blocks_of [d]) else blocks)) as ->.
  { destruct free_data; [| done]. destruct (Hblocks eq_refl) as [_ Hsub]. destruct d as [d |]; cbn in *; [rewrite bool_decide_true by set_solver |]; f_equal; set_solver. }
  obind. unfold free_node, load_node. rewrite Hl. cbn [of_option]. obind.
  destruct (IH fuel (delete l h) (if free_data then blocks ∖ list_to_set (blocks_of [d]) else blocks) (Some l)) as (h' & -> & Hf).
  - apply (segment_ext h); [| done]. intros l' Hl'. apply lookup_delete_ne. by intros ->.
  - done.
  - lia.
  - intros ->. destruct (Hblocks eq_refl) as [Hndb Hsub]. unfold blocks_of in *. destruct d as [d |]; cbn in *; [apply NoDup_cons in Hndb as [Hd Hndb] |]; split; set_solver.
  - exists h'. split; [| intros l'; rewrite Hf; destruct (decide (l' = l)) as [-> |]; [rewrite decide_False, decide_True, lookup_delete_eq by set_solver; done |]].
    + do 2 f_equal. destruct free_data; [| done]. unfold blocks_of. destruct d; cbn; set_solver.
    + rewrite lookup_delete_ne by done. destruct (decide (l' ∈ cs.*1)); [rewrite decide_True by set_solver | rewrite decide_False by set_solver]; done.
Qed.

(** ** Sequences of operations *)

(** What [list_cons] requires of [my_malloc]. *)
Class Malloc (malloc : memory → nat * LIST) : Prop := malloc_fresh h : h !! (malloc h).1 = None.

Inductive request :=
  | Push (d : option nat)
  | Shift
  | Reverse
  | AddBefore (idx : nat) (d : option nat)
  | Unlink (idx : nat).

(** The callers find a node by its place. *)
Fixpoint nth_node (idx : nat) (h : memory) (root : option nat) : outcome nat :=
  l ← of_option root;
  match idx with
  | O => Ret l
  | S idx => n ← load_node h l; nth_node idx h (next n)
  end.

Section client.
Context (malloc : memory → nat * LIST) `{Hmalloc : !Malloc malloc}.

(** A node that is put before another is allocated, and one that is unlinked is freed. *)
Definition serve (h : memory) (root : option nat) (r : request) : outcome (option nat * memory) :=
  match r with
  | Push d => list_push malloc h root d
  | Shift => list_pop h root
  | Reverse => list_reverse h root
  | AddBefore idx d =>
      l ← nth_node idx h root;
      let '(e, garbage) := malloc h in
      '(new_root, h) ← list_add (<[e := with_data d garbage]> h) (Some l) e;
      Ret (if bool_decide (root = Some l) then new_root else root, h)
  | Unlink idx =>
      l ← nth_node idx h root;
      '(root, h) ← list_delete h root l;
      h ← free_node h l;
      Ret (root, h)
  end.

Fixpoint serve_all (h : memory) (root : option nat) (rs : list request) : outcome (option nat * memory) :=
  match rs with
  | [] => Ret (root, h)
  | r :: rs => '(root, h) ← serve h root r; serve_all h root rs
  end.

(** The same on the sequence of the data; [None] for a place that does not exist. *)
Definition serve_list (ds : list (option nat)) (r : request) : option (list (option nat)) :=
  match r with
  | Push d => Some (d :: ds)
  | Shift => match ds with [] => None | _ :: ds => Some ds end
  | Reverse => Some (rev ds)
  | AddBefore idx d => if decide (idx < length ds)%nat then Some (take idx ds ++ d :: drop idx ds) else None
  | Unlink idx => if decide (idx < length ds)%nat then Some (delete idx ds) else None
  end.

Fixpoint serve_all_list (ds : list (option nat)) (rs : list request) : option (list (option nat)) :=
  match rs with
  | [] => Some ds
  | r :: rs => ds ← serve_list ds r; serve_all_list ds rs
  end.

(** The nodes [cs] are a whole list, and the rest of the memory is [frame]. *)
Record owned (frame h : memory) (cs : cells) : Prop := {
  own_segment : segment h None cs None;
  own_nodup : NoDup (cs.*1);
  own_frame l : l ∉ cs.*1 → h !! l = frame !! l;
  own_fresh l : l ∈ cs.*1 → frame !! l = None
}.

Lemma segment_domain h cs p q l : segment h p cs q → l ∈ cs.*1 → l ∈ dom h.
Proof.
  revert p. induction cs as [| [l' d] cs IH]; intros p; cbn [segment fmap list_fmap fst]; [by intros _ ?%elem_of_nil |]. intros [Hl Hcs] [-> | Hin]%elem_of_cons; [by apply elem_of_dom_2 in Hl | by apply (IH (Some l'))].
Qed.

Lemma owned_length frame h cs : owned frame h cs → (length cs ≤ size h)%nat.
Proof.
  intros [Hs Hnd _ _]. rewrite <- (length_fmap fst), <- (size_list_to_set (C := gset nat) (cs.*1)), <- size_dom by done. apply subseteq_size. intros l Hl%elem_of_list_to_set. by eapply segment_domain.
Qed.

Lemma nth_node_spec h A e d B p : segment h p (A ++ (e, d) :: B) None → nth_node (length A) h (first (A ++ (e, d) :: B) None) = Ret e.
Proof.
  revert p. induction A as [| [a d'] A IH]; intros p; [done |]. cbn [app segment length nth_node first of_option]. intros [Ha Hs]. obind. unfold load_node. rewrite Ha. cbn [of_option]. obind. by apply (IH (Some a)).
Qed.

(** A node that was put between [A] and [B]. *)
Lemma owned_add frame h h' A B e d garbage : owned frame h (A ++ B) → h !! e = None → segment h' None (A ++ (e, d) :: B) None →
  (∀ l, l ∉ (A ++ (e, d) :: B).*1 → h' !! l = <[e := garbage]> h !! l) → owned frame h' (A ++ (e, d) :: B).
Proof.
  intros [Hs Hnd Hf Hn] He Hs' Hf'. assert (e ∉ (A ++ B).*1) as Hin by (intros Hin; eapply segment_domain in Hin; [| done]; by apply elem_of_dom in Hin as [? ?]; congruence).
  assert ((A ++ (e, d) :: B).*1 ≡ₚ e :: (A ++ B).*1) as Hperm by (rewrite !fmap_app; cbn; by rewrite Permutation_middle). split; [done | by rewrite Hperm; constructor | |].
  - intros l Hl. rewrite Hf' by done. rewrite Hperm in Hl. apply not_elem_of_cons in Hl as [Hle Hl]. rewrite lookup_insert_ne by done. by apply Hf.
  - intros l Hl. rewrite Hperm in Hl. apply elem_of_cons in Hl as [-> | Hl]; [rewrite <- Hf by done; done | by apply Hn].
Qed.

(** A node that was taken from between them and freed. *)
Lemma owned_remove frame h h' A B e d : owned frame h (A ++ (e, d) :: B) → segment h' None (A ++ B) None → (∀ l, l ∉ (A ++ B).*1 → h' !! l = h !! l) →
  (∃ n, h' !! e = Some n) ∧ owned frame (delete e h') (A ++ B).
Proof.
  intros [Hs Hnd Hf Hn] Hs' Hf'. assert ((A ++ (e, d) :: B).*1 ≡ₚ e :: (A ++ B).*1) as Hperm by (rewrite !fmap_app; cbn; by rewrite Permutation_middle). rewrite Hperm in Hnd. apply NoDup_cons in Hnd as [He Hnd]. split.
  - rewrite Hf' by done. assert (e ∈ dom h) as [n Hn']%elem_of_dom by (eapply segment_domain; [done |]; rewrite Hperm; by left). eauto.
  - split; [| done | |].
    + apply (segment_ext h'); [| done]. intros l Hl. apply lookup_delete_ne. by intros ->.
    + intros l Hl. destruct (decide (l = e)) as [-> | Hne]; [rewrite lookup_delete_eq; symmetry; apply Hn; rewrite Hperm; by left |].
      rewrite lookup_delete_ne, Hf' by done. apply Hf. rewrite Hperm. by apply not_elem_of_cons.
    + intros l Hl. apply Hn. rewrite Hperm. by right.
Qed.

(** The cells around a place of the sequence. *)
Lemma cells_at (cs : cells) idx : (idx < length (cs.*2))%nat → ∃ A e d B, cs = A ++ (e, d) :: B ∧ length A = idx.
Proof.
  rewrite length_fmap. intros Hidx. destruct (lookup_lt_is_Some_2 cs idx Hidx) as [[e d] Hx]. pose proof (list_elem_of_split_length cs idx _ Hx) as (A & B & -> & ->). by exists A, e, d, B.
Qed.

Lemma push_spec frame h A B d : owned frame h (A ++ B) → (B = [] → A = []) → let '(e, garbage) := malloc h in ∃ h',
  list_add (<[e := with_data d garbage]> h) (first B None) e = Ret (Some e, h') ∧ owned frame h' (A ++ (e, d) :: B).
Proof using Hmalloc.
  intros Hown Hempty. pose proof Hown as [Hs Hnd _ _]. pose proof (malloc_fresh h) as He. destruct (malloc h) as [e garbage]. cbn [fst] in He.
  assert (e ∉ (A ++ B).*1) as Hin by (intros Hin; eapply segment_domain in Hin; [| done]; by apply elem_of_dom in Hin as [? ?]; congruence).
  destruct (add_spec (<[e := with_data d garbage]> h) A B e (with_data d garbage)) as (h' & Hadd & Hs' & Hf'); [done | done | apply lookup_insert_eq | by apply segment_fresh | done |]. exists h'. split; [done |]. by eapply owned_add.
Qed.

Lemma unlink_node_spec frame h A e d B : owned frame h (A ++ (e, d) :: B) → ∃ h',
  list_delete h (first (A ++ (e, d) :: B) None) e = Ret (first (A ++ B) None, h') ∧ free_node h' e = Ret (delete e h') ∧ owned frame (delete e h') (A ++ B).
Proof.
  intros Hown. destruct (remove_spec h A e d B (first (A ++ (e, d) :: B) None)) as (h' & Hdel & Hs' & Hf'); [apply Hown.. |]. exists h'. split; [rewrite Hdel; by destruct A as [| []] |].
  destruct (owned_remove frame h h' A B e d Hown Hs' Hf') as [[n Hn] Hown']. split; [| done]. unfold free_node, load_node. by rewrite Hn.
Qed.

Lemma serve_spec frame h cs r ds : owned frame h cs → serve_list (cs.*2) r = Some ds →
  ∃ h' cs', serve h (first cs None) r = Ret (first cs' None, h') ∧ owned frame h' cs' ∧ cs'.*2 = ds.
Proof using Hmalloc.
  intros Hown. destruct r as [d | | | idx d | idx]; cbn [serve_list serve].
  - intros [= <-]. pose proof (push_spec frame h [] cs d Hown) as Hadd. unfold list_push, list_cons. destruct (malloc h) as [e garbage]. destruct Hadd as (h' & -> & Hown'); [done |]. by exists h', ((e, d) :: cs).
  - destruct cs as [| [e d] cs]; [done |]. intros [= <-]. destruct (unlink_node_spec frame h [] e d cs Hown) as (h' & Hdel & Hfree & Hown'). cbn [app first] in *. unfold list_pop. cbn [of_option]. obind. rewrite Hdel. obind. rewrite Hfree. obind. by exists (delete e h'), cs.
  - intros [= <-]. destruct (reverse_spec cs (size h) h [] (first cs None)) as (h' & Hrev & Hs & Hf); [done | apply Hown | apply Hown | by eapply owned_length | by intros -> |].
    unfold list_reverse. rewrite Hrev, app_nil_r in *. exists h', (rev cs). split; [done |]. split; [| rewrite !rev_alt; apply fmap_reverse]. destruct Hown as [_ Hnd Hfr Hn]. assert ((rev cs).*1 ≡ₚ cs.*1) as Hperm by (by rewrite <- Permutation_rev).
    split; [done | by rewrite Hperm | |]; intros l; rewrite Hperm; intros Hl; [rewrite Hf by done; by apply Hfr | by apply Hn].
  - destruct (decide _) as [Hidx |]; [| done]. intros [= <-]. destruct (cells_at cs idx Hidx) as (A & l & dl & B & -> & <-). rewrite (nth_node_spec h A l dl B None) by apply Hown. obind.
    pose proof (push_spec frame h A ((l, dl) :: B) d Hown) as Hadd. destruct (malloc h) as [e garbage]. destruct Hadd as (h' & Hadd & Hown'); [done |]. cbn [first] in Hadd. rewrite Hadd. obind.
    exists h', (A ++ (e, d) :: (l, dl) :: B). rewrite !fmap_app, take_app_length', drop_app_length' by (by rewrite length_fmap). split; [| by split]. do 2 f_equal.
    destruct A as [| [a da] A]; [by rewrite bool_decide_true |]. rewrite bool_decide_false; [done |]. cbn. intros [= ->]. pose proof (own_nodup _ _ _ Hown) as Hnd. cbn in Hnd. apply NoDup_cons in Hnd as [Hnd _]. apply Hnd. rewrite fmap_app. set_solver.
  - destruct (decide _) as [Hidx |]; [| done]. intros [= <-]. destruct (cells_at cs idx Hidx) as (A & e & d & B & -> & <-). rewrite (nth_node_spec h A e d B None) by apply Hown. obind.
    destruct (unlink_node_spec frame h A e d B Hown) as (h' & -> & Hfree & Hown'). obind. rewrite Hfree. obind. exists (delete e h'), (A ++ B). split; [done |]. split; [done |]. rewrite !fmap_app. cbn [fmap list_fmap snd]. by rewrite <- (length_fmap snd A), delete_middle.
Qed.

Lemma serve_all_spec frame rs : ∀ h cs ds, owned frame h cs → serve_all_list (cs.*2) rs = Some ds →
  ∃ h' cs', serve_all h (first cs None) rs = Ret (first cs' None, h') ∧ owned frame h' cs' ∧ cs'.*2 = ds.
Proof using Hmalloc.
  induction rs as [| r rs IH]; intros h cs ds Hown; cbn [serve_all_list serve_all]; [intros [= <-]; eauto |]. destruct (serve_list (cs.*2) r) as [ds1 |] eqn:Hr; [| done]. cbn [mbind option_bind]. intros Hrs.
  destruct (serve_spec frame h cs r ds1 Hown Hr) as (h1 & cs1 & -> & Hown1 & <-). obind. by apply IH.
Qed.

Lemma owned_free frame h cs blocks (free_data : bool) : owned frame h cs → (free_data = true → NoDup (blocks_of (cs.*2)) ∧ list_to_set (blocks_of (cs.*2)) ⊆ blocks) →
  list_free h blocks (first cs None) free_data = Ret (frame, if free_data then blocks ∖ list_to_set (blocks_of (cs.*2)) else blocks).
Proof.
  intros Hown Hblocks. destruct (free_spec free_data cs (size h) h blocks None) as (h' & Hfree & Hf); [apply Hown.. | by eapply owned_length | done |]. unfold list_free. rewrite Hfree. do 2 f_equal. apply map_eq. intros l. rewrite Hf.
  destruct (decide _) as [Hin | Hin]; [symmetry; by apply Hown | by apply Hown].
Qed.

(** C32: a doubly linked list is the sequence of its data.  Every sequence of pushes, pops, reversals, insertions before a node and deletions of a node, from the empty list, ends without
    undefined behaviour with the list of the data that the same operations on a sequence give: [list_length] is its length (in 32 bits), [list_walk] gives its data to the action, in order
    and up to the first error, and [list_free] returns exactly the memory of the list, and the data when it is asked to. *)
Theorem linked_list_correct frame rs ds : serve_all_list [] rs = Some ds → ∃ h root,
  serve_all frame None rs = Ret (root, h) ∧ list_length h root = Ret (u32 (Z.of_nat (length ds))) ∧
  (∀ S (action : option nat → S → Z * S) s, list_walk action h root s = Ret (walk_data action ds s)) ∧
  (∀ blocks, list_free h blocks root false = Ret (frame, blocks)) ∧
  (∀ blocks, NoDup (blocks_of ds) → list_to_set (blocks_of ds) ⊆ blocks → list_free h blocks root true = Ret (frame, blocks ∖ list_to_set (blocks_of ds))).
Proof using Hmalloc.
  intros Hrs. destruct (serve_all_spec frame rs frame [] ds) as (h & cs & Hrun & Hown & <-); [| done |].
  { split; [done | constructor | done | by intros l ?%elem_of_nil]. }
  exists h, (first cs None). split; [done |]. pose proof (owned_length _ _ _ Hown) as Hlen. split; [| split; [| split]].
  - unfold list_length. rewrite (length_spec cs (size h) h None 0), length_fmap by (apply Hown || lia). done.
  - intros S action s. apply (walk_list_spec action cs (size h) h None); [apply Hown | done].
  - intros blocks. by apply (owned_free frame h cs blocks false).
  - intros blocks Hnd Hsub. by apply (owned_free frame h cs blocks true).
Qed.
End client.

(** The first address that is not in use, with a node of zeros. *)
Definition first_free (h : memory) : nat * LIST := (fresh (dom h), mkLIST None None None).

#[export] Instance first_free_malloc : Malloc first_free.
Proof. intros h. apply not_elem_of_dom, is_fresh. Qed.

(** The theorem for a list that is built from both ends. *)
Lemma linked_list_correct_witness : ∃ h root,
  serve_all first_free ∅ None [Push (Some 7%nat); Push None; AddBefore 1 (Some 8%nat); Reverse; Unlink 0; Push (Some 9%nat); Shift] = Ret (root, h) ∧
  list_length h root = Ret 2 ∧ list_free h {[8%nat; 5%nat]} root true = Ret (∅, {[8%nat; 5%nat]} ∖ {[8%nat]}).
Proof.
  destruct (linked_list_correct first_free ∅ [Push (Some 7%nat); Push None; AddBefore 1 (Some 8%nat); Reverse; Unlink 0; Push (Some 9%nat); Shift] [Some 8%nat; None]) as (h & root & Hrun & Hlen & _ & _ & Hfree); [reflexivity |].
  exists h, root. split; [exact Hrun |]. split; [exact Hlen |]. specialize (Hfree {[8%nat; 5%nat]}). cbn in Hfree. rewrite Hfree; [| apply NoDup_singleton | set_solver]. reflexivity.
Defined.
