(* ===== verification/LfArray.v ===== *)
(** * The wait-free dynamic array of the server (src/project4/mariadb/server/mysys/lf_dynarray.c, include/lf.h)

    An array that grows without moving its elements: four trees of height 0 to 3, whose nodes are blocks of 256 pointers and whose leaves are blocks of 256
    elements.  [lf_dynarray_lvalue] creates the blocks on the way to an element with a compare-and-swap each and frees its block again when another
    thread was first.  The machine of this file has one access to shared memory per step, for any number of threads that call [lf_dynarray_lvalue] and [lf_dynarray_value].
    [lf_dynarray_iterate] and [lf_dynarray_destroy] are functions of a state in which no other thread runs.

    The place of the elements within the memory of a leaf is a matter of its own, see [place_data].  In the machine an element is a leaf and a number. *)

From S2P Require Import Prelude Bits.

Definition LF_DYNARRAY_LEVEL_LENGTH : Z := 256.
Definition LF_DYNARRAY_LEVELS : nat := 4.

Definition dynarray_idxes_in_prev_levels : list Z :=
  let n := LF_DYNARRAY_LEVEL_LENGTH in [0; n; n * n + n; n * n * n + n * n + n].

Definition dynarray_idxes_in_prev_level : list Z :=
  let n := LF_DYNARRAY_LEVEL_LENGTH in [0; n; n * n; n * n * n].

(** ** The memory of a leaf *)

(** The size of the memory that is allocated for elements of the given size, and where in it the elements begin when it is at [alloc]. *)
Definition leaf_bytes (size_of_element : Z) : Z := LF_DYNARRAY_LEVEL_LENGTH * size_of_element + Z.max size_of_element 8.

Definition place_data (alloc size_of_element : Z) : Z :=
  let data := alloc + 8 in
  let mod_ := data mod size_of_element in
  if bool_decide (mod_ = 0) then data else data + size_of_element - mod_.

(** ** State *)

Inductive block := Dir (entries : list (option nat)) | Leaf.

(** What [ptr_ptr] points to: a level of the array, or an entry of a block. *)
Inductive slot := Level (i : nat) | Entry (b : nat) (j : nat).

(** The points of a thread; [i] and [idx] are the local variables.  [Read] to [Drop]: [lf_dynarray_lvalue]; [Peek]: [lf_dynarray_value]. *)
Inductive array_pc :=
| Idle
| Read (s : slot) (i : nat) (idx : Z)
| Alloc (s : slot) (i : nat) (idx : Z)
| Cas (s : slot) (i : nat) (idx : Z) (alloc : nat)
| Drop (alloc ptr : nat) (i : nat) (idx : Z)
| Peek (s : slot) (i : nat) (idx : Z).

(** A thread, and the index it was called with. *)
Record thread := mkThread { pc : array_pc; arg : Z }.

(** [LF_DYNARRAY] with the memory and the threads.  [answers] has what the calls returned for their index: an element, or NULL. *)
Record LF_DYNARRAY := mkArray {
  level : list (option nat);
  heap : gmap nat block;
  threads : list thread;
  answers : list (Z * option (nat * Z))
}.

(** What the machine does not decide: the call, the address of new memory, and whether there is any. *)
Inductive request := LValue (idx : Z) | Value (idx : Z).
Record choice := mkChoice { c_request : request; c_addr : nat; c_fail : bool }.

Implicit Types (σ : LF_DYNARRAY) (th : thread) (t b : nat) (s : slot).

Definition with_heap h σ : LF_DYNARRAY := mkArray (level σ) h (threads σ) (answers σ).
Definition with_level ls σ : LF_DYNARRAY := mkArray ls (heap σ) (threads σ) (answers σ).
Definition with_thread t th σ : LF_DYNARRAY := mkArray (level σ) (heap σ) (<[t := th]> (threads σ)) (answers σ).
Definition answer (idx : Z) (r : option (nat * Z)) σ : LF_DYNARRAY := mkArray (level σ) (heap σ) (threads σ) (answers σ ++ [(idx, r)]).
Definition goto p th : thread := mkThread p (arg th).

(** The entries of a block, which is undefined for a leaf. *)
Definition entries (h : gmap nat block) b : outcome (list (option nat)) :=
  match h !! b with Some (Dir ps) => Ret ps | _ => UB end.

Definition read_slot σ s : outcome (option nat) :=
  match s with
  | Level i => at_ (level σ) i
  | Entry b j => ps ← entries (heap σ) b; at_ ps j
  end.

Definition write_slot σ s (p : option nat) : outcome LF_DYNARRAY :=
  match s with
  | Level i => _ ← at_ (level σ) i; Ret (with_level (<[i := p]> (level σ)) σ)
  | Entry b j => ps ← entries (heap σ) b; _ ← at_ ps j; Ret (with_heap (<[b := Dir (<[j := p]> ps)]> (heap σ)) σ)
  end.

(** ** Steps *)

(** The loop that finds the level of an index; below level 0 it would leave the table. *)
Fixpoint find_level (i : nat) (idx : Z) : outcome nat :=
  n ← at_ dynarray_idxes_in_prev_levels i;
  if bool_decide (idx < n) then match i with O => UB | S i => find_level i idx end else Ret i.

(** The beginning of both functions: the level and the index in it. *)
Definition locate (idx : Z) : outcome (nat * Z) :=
  i ← find_level (LF_DYNARRAY_LEVELS - 1) idx;
  n ← at_ dynarray_idxes_in_prev_levels i;
  Ret (i, u32 (idx - n)).

(** Which entry to follow at level [i], and the rest of the index. *)
Definition descend (i : nat) (idx : Z) : outcome (nat * Z) :=
  n ← at_ dynarray_idxes_in_prev_level i;
  if bool_decide (n = 0) then UB else Ret (Z.to_nat (idx / n), idx mod n).

(** [lf_dynarray_lvalue] has the pointer to the next block. *)
Definition proceed σ th (ptr : nat) (i : nat) (idx : Z) : outcome (LF_DYNARRAY * thread) :=
  match i with
  | O => Ret (answer (arg th) (Some (ptr, idx)) σ, goto Idle th)
  | S i' => '(j, rest) ← descend i idx; Ret (σ, goto (Read (Entry ptr j) i' rest) th)
  end.

(** The memory that is allocated at level [i]: zeroes. *)
Definition new_block (i : nat) : block :=
  match i with O => Leaf | _ => Dir (replicate (Z.to_nat LF_DYNARRAY_LEVEL_LENGTH) None) end.

Definition lvalue_step σ th (c : choice) (p : array_pc) : outcome (option (LF_DYNARRAY * thread)) :=
  match p with
  | Read s i idx =>
      ptr ← read_slot σ s;
      match ptr with
      | Some b => r ← proceed σ th b i idx; Ret (Some r)
      | None => Ret (Some (σ, goto (Alloc s i idx) th))
      end
  | Alloc s i idx =>
      if c_fail c then Ret (Some (answer (arg th) None σ, goto Idle th))
      else match heap σ !! c_addr c with
           | Some _ => Ret None
           | None => Ret (Some (with_heap (<[c_addr c := new_block i]> (heap σ)) σ, goto (Cas s i idx (c_addr c)) th))
           end
  | Cas s i idx alloc =>
      ptr ← read_slot σ s;
      match ptr with
      | None => σ ← write_slot σ s (Some alloc); r ← proceed σ th alloc i idx; Ret (Some r)
      | Some b => Ret (Some (σ, goto (Drop alloc b i idx) th))
      end
  | Drop alloc ptr i idx =>
      _ ← of_option (heap σ !! alloc);
      r ← proceed (with_heap (delete alloc (heap σ)) σ) th ptr i idx; Ret (Some r)
  | _ => UB
  end.

Definition value_step σ th (p : array_pc) : outcome (LF_DYNARRAY * thread) :=
  match p with
  | Peek s i idx =>
      ptr ← read_slot σ s;
      match ptr with
      | None => Ret (answer (arg th) None σ, goto Idle th)
      | Some b =>
          match i with
          | O => Ret (answer (arg th) (Some (b, idx)) σ, goto Idle th)
          | S i' => '(j, rest) ← descend i idx; Ret (σ, goto (Peek (Entry b j) i' rest) th)
          end
      end
  | _ => UB
  end.

(** A step of a thread whose state is [th]; the arguments of the functions are of type [uint]. *)
Definition thread_step σ th (c : choice) : outcome (option (LF_DYNARRAY * thread)) :=
  match pc th with
  | Idle =>
      match c_request c with
      | LValue idx => '(i, rest) ← locate (u32 idx); Ret (Some (σ, mkThread (Read (Level i) i rest) (u32 idx)))
      | Value idx => '(i, rest) ← locate (u32 idx); Ret (Some (σ, mkThread (Peek (Level i) i rest) (u32 idx)))
      end
  | Peek _ _ _ => r ← value_step σ th (pc th); Ret (Some r)
  | _ => lvalue_step σ th c (pc th)
  end.

Definition step σ t (c : choice) : outcome (option LF_DYNARRAY) :=
  match threads σ !! t with
  | None => Ret None
  | Some th =>
      r ← thread_step σ th c;
      match r with
      | None => Ret None
      | Some (σ', th') => Ret (Some (with_thread t th' σ'))
      end
  end.

(** [lf_dynarray_init]. *)
Definition lf_dynarray_init (n : nat) : LF_DYNARRAY := mkArray (replicate LF_DYNARRAY_LEVELS None) ∅ (replicate n (mkThread Idle 0)) [].

Inductive reachable (n : nat) : LF_DYNARRAY → Prop :=
| reach_init : reachable n (lf_dynarray_init n)
| reach_step σ t c σ' : reachable n σ → step σ t c = Ret (Some σ') → reachable n σ'.

(** A run of given choices. *)
Fixpoint run (cs : list (nat * choice)) σ : outcome LF_DYNARRAY :=
  match cs with
  | [] => Ret σ
  | (t, c) :: cs => r ← step σ t c; run cs (default σ r)
  end.

(** ** Functions that are not called concurrently *)

Definition seq_loop {A} (f : option nat → A → outcome A) : list (option nat) → A → outcome A :=
  fix go ps a := match ps with [] => Ret a | p :: ps => a ← f p a; go ps a end.

(** [recursive_free]. *)
Fixpoint recursive_free (i : nat) (p : option nat) (h : gmap nat block) : outcome (gmap nat block) :=
  match p with
  | None => Ret h
  | Some b =>
      match i with
      | O => match h !! b with Some Leaf => Ret (delete b h) | _ => UB end
      | S i =>
          ps ← entries h b;
          h ← seq_loop (recursive_free i) ps h;
          Ret (delete b h)
      end
  end.

(** The trees, each with its height. *)
Fixpoint level_loop {A} (f : nat → option nat → A → outcome A) (i : nat) (ps : list (option nat)) (a : A) : outcome A :=
  match ps with [] => Ret a | p :: ps => a ← f i p a; level_loop f (S i) ps a end.

Definition lf_dynarray_destroy σ : outcome (gmap nat block) := level_loop recursive_free 0 (level σ) (heap σ).

(** [recursive_iterate]: the function gets a leaf and its argument, and a result other than 0 ends the iteration. *)
Fixpoint recursive_iterate {A} (h : gmap nat block) (func : nat → A → Z * A) (i : nat) (p : option nat) (st : Z * A) : outcome (Z * A) :=
  if bool_decide (st.1 = 0) then
    match p with
    | None => Ret st
    | Some b =>
        match i with
        | O => Ret (func b st.2)
        | S i => ps ← entries h b; seq_loop (recursive_iterate h func i) ps st
        end
    end
  else Ret st.

Definition lf_dynarray_iterate {A} σ (func : nat → A → Z * A) (a : A) : outcome (Z * A) :=
  level_loop (recursive_iterate (heap σ) func) 0 (level σ) (0, a).
