(* ===== verification/LfArraySpec.v ===== *)
(** * The wait-free dynamic array: theorems

    Every index has one element for all threads, no two indices share one, a call ends within sixteen steps of its own, and no block is lost. *)

From S2P Require Import Prelude Bits LfArray.

Implicit Types (σ : LF_DYNARRAY) (th : thread) (t u b : nat) (s : slot) (pre : list nat).

(** ** The memory of a leaf *)

(** The elements are aligned and, when their size divides 8 or is a multiple of 8, they fit with the word before them into the memory that is allocated. *)
Lemma place_data_fits alloc size : 0 < size → (8 | alloc) → (size | 8) ∨ (8 | size) →
  (size | place_data alloc size) ∧ alloc + 8 ≤ place_data alloc size ∧ place_data alloc size + LF_DYNARRAY_LEVEL_LENGTH * size ≤ alloc + leaf_bytes size.
Proof.
  intros Hs [a Ha] Hd. unfold place_data, leaf_bytes. cbn zeta. pose proof (Z.mod_pos_bound (alloc + 8) size Hs) as Hm. pose proof (Z.div_mod (alloc + 8) size ltac:(lia)) as Hdm. case_bool_decide as H0.
  - split_and!; [by apply Z.mod_divide; [lia |] | lia | lia].
  - split_and!; [exists ((alloc + 8) / size + 1); lia | lia |]. destruct Hd as [[k Hk] | [k Hk]]; [destruct H0; apply Z.mod_divide; [lia |]; exists ((a + 1) * k); rewrite <- Z.mul_assoc, <- Hk; lia |].
    assert ((alloc + 8) mod size mod 8 = 0) as Hm8. { replace (alloc + 8) with ((a + 1) * 8) by lia. rewrite Hk, Zmult_mod_distr_r. apply Z.mod_mul. lia. }
    apply Z.mod_divide in Hm8 as [x Hx]; [| lia]. lia.
Qed.

(** ** Indices *)

(** The entries on the way from the root of a tree of height [i] to the element number [r], and the number of that element in its leaf. *)
Fixpoint digits (i : nat) (r : Z) : list nat :=
  match i with O => [] | S i' => Z.to_nat (r / 256 ^ Z.of_nat i) :: digits i' (r mod 256 ^ Z.of_nat i) end.

Fixpoint offset (i : nat) (r : Z) : Z := match i with O => r | S i' => offset i' (r mod 256 ^ Z.of_nat i) end.

Lemma pow_S i : 256 ^ Z.of_nat (S i) = 256 * 256 ^ Z.of_nat i.
Proof. rewrite Nat2Z.inj_succ, Z.pow_succ_r by lia. done. Qed.

Lemma pow_pos i : 0 < 256 ^ Z.of_nat i.
Proof. apply Z.pow_pos_nonneg; lia. Qed.

Lemma digits_inj i : ∀ r r', 0 ≤ r → 0 ≤ r' → digits i r = digits i r' → offset i r = offset i r' → r = r'.
Proof.
  induction i as [| i IH]; intros r r' Hr Hr'; cbn [digits offset]; [done |]. intros [= Hd Hds] Ho. pose proof (pow_pos (S i)) as Hp. apply IH in Ho; [| apply Z.mod_pos_bound; lia.. | done].
  assert (0 ≤ r / 256 ^ Z.of_nat (S i) ∧ 0 ≤ r' / 256 ^ Z.of_nat (S i)) as [? ?] by (split; apply Z.div_pos; lia). rewrite (Z.div_mod r (256 ^ Z.of_nat (S i))), (Z.div_mod r' (256 ^ Z.of_nat (S i))), Ho by lia. apply Z2Nat.inj in Hd; lia.
Qed.

Lemma descend_ok i idx : (i < 3)%nat → 0 ≤ idx < 256 ^ Z.of_nat (S (S i)) →
  ∃ j rest, descend (S i) idx = Ret (j, rest) ∧ (j < 256)%nat ∧ 0 ≤ rest < 256 ^ Z.of_nat (S i) ∧ digits (S i) idx = j :: digits i rest ∧ offset (S i) idx = offset i rest.
Proof.
  intros Hi Hidx. set (n := 256 ^ Z.of_nat (S i)). pose proof (pow_pos (S i)) as Hn. fold n in Hn. assert (at_ dynarray_idxes_in_prev_level (S i) = Ret n) as Hat by (destruct i as [| [| [| ]]]; [reflexivity.. | lia]).
  exists (Z.to_nat (idx / n)), (idx mod n). unfold descend. rewrite Hat. obind. rewrite bool_decide_false by lia. split_and!; [done | | apply Z.mod_pos_bound, Hn | apply Z.mod_pos_bound, Hn | done | done].
  rewrite pow_S in Hidx. fold n in Hidx. pose proof (Z.div_lt_upper_bound idx n 256 Hn ltac:(lia)). pose proof (Z.div_pos idx n ltac:(lia) Hn). lia.
Qed.

(** The first index of each level, and the level of an index. *)
Lemma locate_ok a : 0 ≤ a < 2 ^ 32 → ∃ k r n, locate a = Ret (k, r) ∧ (k < 4)%nat ∧ dynarray_idxes_in_prev_levels !! k = Some n ∧ a = n + r ∧ 0 ≤ r < 256 ^ Z.of_nat (S k).
Proof.
  intros Ha. unfold locate, LF_DYNARRAY_LEVELS. cbn -[u32 Z.mul Z.add Z.pow]. unfold LF_DYNARRAY_LEVEL_LENGTH. repeat (case_bool_decide; cbn -[u32 Z.mul Z.add Z.pow]); unfold LF_DYNARRAY_LEVEL_LENGTH in *; try lia; rewrite u32_small by lia; eexists _, _, _; (split; [done |]); cbn; unfold LF_DYNARRAY_LEVEL_LENGTH; split_and!; lia || done.
Qed.

Lemma locate_inj a a' k r : 0 ≤ a < 2 ^ 32 → 0 ≤ a' < 2 ^ 32 → locate a = Ret (k, r) → locate a' = Ret (k, r) → a = a'.
Proof. intros Ha Ha' H H'. destruct (locate_ok a Ha) as (k1 & r1 & n1 & E1 & _ & Hn1 & -> & _), (locate_ok a' Ha') as (k2 & r2 & n2 & E2 & _ & Hn2 & -> & _). congruence. Qed.

(** ** The invariant *)

(** The place of a block: the height of its tree, and the entries on the way to it. *)
Abbreviation position := (nat * list nat)%type.
Implicit Types (pos : gmap nat position) (q : position).

Definition slot_pos pos s : option position :=
  match s with
  | Level i => if decide (i < 4)%nat then Some (i, []) else None
  | Entry b j => '(k, pre) ← pos !! b; if decide (length pre < k ∧ j < 256)%nat then Some (k, pre ++ [j]) else None
  end.

(** A call for the index [a] goes through the place [(k, pre)] when it has [i] levels to go and the rest [idx] of the index. *)
Definition on_path (a : Z) (k : nat) pre (i : nat) (idx : Z) : Prop :=
  0 ≤ a < 2 ^ 32 ∧ (length pre + i = k)%nat ∧ (k < 4)%nat ∧ 0 ≤ idx < 256 ^ Z.of_nat (S i) ∧ ∃ r, 0 ≤ r ∧ locate a = Ret (k, r) ∧ digits k r = pre ++ digits i idx ∧ offset k r = offset i idx.

Definition at_slot pos (a : Z) s (i : nat) (idx : Z) : Prop := ∃ k pre, slot_pos pos s = Some (k, pre) ∧ on_path a k pre i idx.

Definition thread_ok pos th : Prop :=
  match pc th with
  | Idle => True
  | Read s i idx | Alloc s i idx | Cas s i idx _ | Peek s i idx => at_slot pos (arg th) s i idx
  | Drop _ ptr i idx => ∃ k pre, pos !! ptr = Some (k, pre) ∧ on_path (arg th) k pre i idx
  end.

(** The block that a thread has allocated and not made known, with its height. *)
Definition own_block (p : array_pc) : option (nat * nat) := match p with Cas _ i _ b | Drop b _ i _ => Some (b, i) | _ => None end.

Definition block_ok (i : nat) (x : option block) : Prop :=
  match i with O => x = Some Leaf | S _ => ∃ ps, x = Some (Dir ps) ∧ length ps = 256%nat end.

Record array_inv σ pos : Prop := {
  ar_level : length (level σ) = 4%nat;
  ar_block : ∀ b k pre, pos !! b = Some (k, pre) → ∃ i, (length pre + i = k ∧ k < 4)%nat ∧ block_ok i (heap σ !! b);
  ar_slot : ∀ s q, slot_pos pos s = Some q → ∃ p, read_slot σ s = Ret p ∧ ∀ b, p = Some b ↔ pos !! b = Some q;
  ar_parent : ∀ b q, pos !! b = Some q → ∃ s, slot_pos pos s = Some q;
  ar_thread : ∀ t th, threads σ !! t = Some th → thread_ok pos th;
  ar_own : ∀ t th b i, threads σ !! t = Some th → own_block (pc th) = Some (b, i) → pos !! b = None ∧ heap σ !! b = Some (new_block i);
  ar_apart : ∀ t u th thu b i j, threads σ !! t = Some th → threads σ !! u = Some thu → own_block (pc th) = Some (b, i) → own_block (pc thu) = Some (b, j) → t = u;
  ar_heap : ∀ b, is_Some (heap σ !! b) → is_Some (pos !! b) ∨ ∃ t th i, threads σ !! t = Some th ∧ own_block (pc th) = Some (b, i);
  ar_answer : ∀ a b off, (a, Some (b, off)) ∈ answers σ → ∃ k pre, pos !! b = Some (k, pre) ∧ on_path a k pre 0 off
}.

Lemma slot_pos_mono pos b0 q0 s q : pos !! b0 = None → slot_pos pos s = Some q → slot_pos (<[b0 := q0]> pos) s = Some q.
Proof.
  intros Hb. destruct s as [i | b j]; cbn; [done |]. destruct (pos !! b) as [[k pre] |] eqn:E; [| done]. rewrite lookup_insert_ne by congruence. by rewrite E.
Qed.

(** The first step of a call. *)
Lemma call_start_ok pos a : 0 ≤ a < 2 ^ 32 → ∃ k r, locate a = Ret (k, r) ∧ at_slot pos a (Level k) k r.
Proof.
  intros Ha. destruct (locate_ok a Ha) as (k & r & n & E & Hk & _ & _ & Hr). exists k, r. split; [done |]. exists k, []. cbn. rewrite decide_True by done. split; [done |]. split_and!; try done; try lia. exists r. split_and!; try done. lia.
Qed.

(** From a block one level down. *)
Lemma descend_path pos a b k pre i idx : pos !! b = Some (k, pre) → on_path a k pre (S i) idx → ∃ j rest, descend (S i) idx = Ret (j, rest) ∧ at_slot pos a (Entry b j) i rest.
Proof.
  intros Hb (Ha & Hl & Hk & Hidx & r & Hr & Hloc & Hd & Ho). destruct (descend_ok i idx ltac:(lia) Hidx) as (j & rest & Hdes & Hj & Hrest & Hds & Hoff). exists j, rest. split; [done |]. exists k, (pre ++ [j]). cbn. rewrite Hb. cbn. rewrite decide_True by lia. split; [done |].
  split_and!; try done; try lia; [rewrite length_app; cbn; lia |]. exists r. split_and!; try done; [by rewrite Hd, Hds, <- app_assoc | by rewrite Ho].
Qed.

(** ** Steps *)

#[global] Instance slot_eq_dec : EqDecision slot.
Proof. solve_decision. Defined.

Lemma pos_inj σ pos b b' q : array_inv σ pos → pos !! b = Some q → pos !! b' = Some q → b = b'.
Proof. intros Hinv Hb Hb'. destruct (ar_parent _ _ Hinv b q Hb) as [s Hs]. destruct (ar_slot _ _ Hinv s q Hs) as (p & _ & Hp). apply Hp in Hb, Hb'. congruence. Qed.

Lemma slot_pos_inj σ pos s s' q : array_inv σ pos → slot_pos pos s = Some q → slot_pos pos s' = Some q → s = s'.
Proof.
  intros Hinv. assert (∀ b j, slot_pos pos (Entry b j) = Some q → ∃ k pre, pos !! b = Some (k, pre) ∧ q = (k, pre ++ [j])) as He.
  { intros b j H. cbn in H. destruct (pos !! b) as [[k pre] |] eqn:E; [| done]. cbn in H. case_decide; [| done]. injection H as <-. by exists k, pre. }
  destruct s as [i | b j], s' as [i' | b' j']; intros H H'.
  - cbn in H, H'. repeat case_decide; congruence.
  - apply He in H' as (k & pre & _ & ->). cbn in H. case_decide; [injection H as _ H; by destruct pre | done].
  - apply He in H as (k & pre & _ & ->). cbn in H'. case_decide; [injection H' as _ H'; by destruct pre | done].
  - apply He in H as (k & pre & Hb & ->), H' as (k' & pre' & Hb' & [= -> [-> ->]%app_inj_tail]). by rewrite (pos_inj σ pos b b' _ Hinv Hb Hb').
Qed.

(** No block lies behind an empty entry. *)
Lemma nothing_below σ pos s k pre j b : array_inv σ pos → slot_pos pos s = Some (k, pre) → read_slot σ s = Ret None → pos !! b ≠ Some (k, pre ++ [j]).
Proof.
  intros Hinv Hs Hr Hb. destruct (ar_parent _ _ Hinv b _ Hb) as [[i | b' j'] Hs']; cbn in Hs'; [case_decide; [injection Hs' as _ Hpre; by destruct pre | done] |].
  destruct (pos !! b') as [[k' pre'] |] eqn:E; [| done]. cbn in Hs'. case_decide; [| done]. injection Hs' as -> [-> ->]%app_inj_tail. destruct (ar_slot _ _ Hinv s _ Hs) as (p & Hp & Hiff). apply Hiff in E. congruence.
Qed.

Lemma inserted {A} (ls : list A) t (x : A) u y : <[t := x]> ls !! u = Some y → (u = t ∧ y = x) ∨ u ≠ t ∧ ls !! u = Some y.
Proof. intros [(-> & -> & _) | [? ?]]%list_lookup_insert_Some; [by left | by right]. Qed.

Section step.
Context σ pos t th (Hinv : array_inv σ pos) (Ht : threads σ !! t = Some th).

(** The thread and the answers change, and nothing else. *)
Lemma keep_memory th' σ' : level σ' = level σ → heap σ' = heap σ → threads σ' = threads σ → (∀ x, x ∈ answers σ' → x ∈ answers σ ∨ x.2 = None ∨ ∃ b k pre off, x = (arg th, Some (b, off)) ∧ pos !! b = Some (k, pre) ∧ on_path (arg th) k pre 0 off) →
  own_block (pc th') = own_block (pc th) → thread_ok pos th' → array_inv (with_thread t th' σ') pos.
Proof using Hinv Ht.
  intros E1 E2 E3 Ha Ho Hth. pose proof Hinv as [J1 J2 J3 J4 J5 J6 J7 J8 J9]. pose proof (lookup_lt_Some _ _ _ Ht) as Hlt.
  assert (∀ u thu, <[t := th']> (threads σ) !! u = Some thu → ∃ thu0, threads σ !! u = Some thu0 ∧ own_block (pc thu) = own_block (pc thu0) ∧ thread_ok pos thu) as Hths.
  { intros u thu Hu. destruct (decide (u = t)) as [-> | Hne]; [rewrite list_lookup_insert_eq in Hu by done; injection Hu as <-; by exists th |]. rewrite list_lookup_insert_ne in Hu by done. exists thu. split_and!; [done | done | by apply (J5 u)]. }
  split; cbn [level heap threads answers with_thread]; rewrite ?E1, ?E2, ?E3; try done.
  - intros s q Hs. destruct (J3 s q Hs) as (p & Hp & Hiff). exists p. split; [| done]. rewrite <- Hp. destruct s; cbn; by rewrite ?E1, ?E2.
  - intros u thu Hu. by destruct (Hths u thu Hu) as (? & _ & _ & ?).
  - intros u thu b i (thu0 & Hu & -> & _)%Hths. by apply (J6 u).
  - intros u w thu thw b i j (thu0 & Hu & -> & _)%Hths (thw0 & Hw & -> & _)%Hths. by apply J7.
  - intros b [Hb | (u & thu & i & Hu & Hb)]%J8; [by left | right]. destruct (decide (u = t)) as [-> | Hne]; [exists t, th', i; rewrite list_lookup_insert_eq by done; split; [done |]; rewrite Ho; congruence | exists u, thu, i; by rewrite list_lookup_insert_ne].
  - intros a b off [Hx | [Hx | (b' & k & pre & off' & [= -> -> ->] & Hb & Hp)]]%Ha; [by apply J9 | done | by exists k, pre].
Qed.

(** A block is allocated. *)
Lemma alloc_block b i th' : heap σ !! b = None → own_block (pc th) = None → own_block (pc th') = Some (b, i) → thread_ok pos th' → array_inv (with_thread t th' (with_heap (<[b := new_block i]> (heap σ)) σ)) pos.
Proof using Hinv Ht.
  intros Hb Hno Ho Hth. pose proof Hinv as [J1 J2 J3 J4 J5 J6 J7 J8 J9]. pose proof (lookup_lt_Some _ _ _ Ht) as Hlt.
  assert (∀ x, is_Some (heap σ !! x) → <[b := new_block i]> (heap σ) !! x = heap σ !! x) as Hother by (intros x [v Hx]; apply lookup_insert_ne; congruence).
  assert (∀ x k pre, pos !! x = Some (k, pre) → is_Some (heap σ !! x)) as Hsome. { intros x k pre Hx. destruct (J2 x k pre Hx) as ([| i'] & _ & Hok); [rewrite Hok; by eexists | destruct Hok as (ps & -> & _); by eexists]. }
  pose proof (inserted (threads σ) t th') as Hths.
  split; cbn [level heap threads answers with_thread with_heap]; try done.
  - intros x k pre Hx. destruct (J2 x k pre Hx) as (i' & Hi' & Hok). exists i'. rewrite Hother by (by eapply Hsome). done.
  - intros s q Hs. destruct (J3 s q Hs) as (p & Hp & Hiff). exists p. split; [| done]. rewrite <- Hp. destruct s as [| x j]; [done |]. cbn in *. unfold entries. cbn. destruct (pos !! x) as [[k pre] |] eqn:E; [| done]. rewrite Hother by (by eapply Hsome). done.
  - intros u thu [[-> ->] | [Hne Hu]]%Hths; [done | by apply (J5 u)].
  - intros u thu x j [[-> ->] | [Hne Hu]]%Hths Hx; [rewrite Ho in Hx; injection Hx as <- <-; split; [| apply lookup_insert_eq] | destruct (J6 u thu x j Hu Hx) as [Hp Hh]; split; [done | rewrite Hother; [done | by rewrite Hh]]].
    apply eq_None_not_Some. intros [[k pre] Hx]. apply Hsome in Hx as [? ?]. congruence.
  - intros u w thu thw x i' j' [[-> ->] | [Hne Hu]]%Hths [[-> ->] | [Hne' Hw]]%Hths Hx Hx'; [done | | | by eapply J7].
    + rewrite Ho in Hx. injection Hx as <- <-. destruct (J6 w thw b j' Hw Hx') as [_ H]. congruence.
    + rewrite Ho in Hx'. injection Hx' as <- <-. destruct (J6 u thu b i' Hu Hx) as [_ H]. congruence.
  - intros x Hx. destruct (decide (x = b)) as [-> | Hxb]; [right; exists t, th', i; by rewrite list_lookup_insert_eq |]. rewrite lookup_insert_ne in Hx by done. destruct (J8 x Hx) as [H | (u & thu & j & Hu & H)]; [by left | right; exists u, thu, j]. rewrite list_lookup_insert_ne; [done |]. intros ->. congruence.
Qed.

(** The block of the thread is freed. *)
Lemma drop_block b i th' : own_block (pc th) = Some (b, i) → own_block (pc th') = None → thread_ok pos th' → array_inv (with_thread t th' (with_heap (delete b (heap σ)) σ)) pos.
Proof using Hinv Ht.
  intros Ho Hno Hth. pose proof Hinv as [J1 J2 J3 J4 J5 J6 J7 J8 J9]. pose proof (lookup_lt_Some _ _ _ Ht) as Hlt. destruct (J6 t th b i Ht Ho) as [Hb _].
  assert (∀ x, is_Some (pos !! x) → delete b (heap σ) !! x = heap σ !! x) as Hother by (intros x [v Hx]; apply lookup_delete_ne; congruence).
  pose proof (inserted (threads σ) t th') as Hths.
  split; cbn [level heap threads answers with_thread with_heap]; try done.
  - intros x k pre Hx. destruct (J2 x k pre Hx) as (i' & Hi' & Hok). exists i'. by rewrite Hother by (by rewrite Hx).
  - intros s q Hs. destruct (J3 s q Hs) as (p & Hp & Hiff). exists p. split; [| done]. rewrite <- Hp. destruct s as [| x j]; [done |]. cbn in *. unfold entries. cbn. destruct (pos !! x) as [[k pre] |] eqn:E; [| done]. by rewrite Hother by (by rewrite E).
  - intros u thu [[-> ->] | [Hne Hu]]%Hths; [done | by apply (J5 u)].
  - intros u thu x j [[-> ->] | [Hne Hu]]%Hths Hx; [congruence |]. destruct (J6 u thu x j Hu Hx) as [Hp Hh]. split; [done |]. rewrite lookup_delete_ne; [done |]. intros ->. by apply Hne, (J7 u t thu th x j i).
  - intros u w thu thw x i' j' [[-> ->] | [Hne Hu]]%Hths [[-> ->] | [Hne' Hw]]%Hths Hx Hx'; [done | congruence | congruence | by eapply J7].
  - intros x [v [Hxb Hx]%lookup_delete_Some]. destruct (J8 x ltac:(by eexists)) as [H | (u & thu & j & Hu & H)]; [by left | right; exists u, thu, j]. rewrite list_lookup_insert_ne; [done |]. intros ->. congruence.
Qed.

(** Writing an entry. *)
Lemma write_slot_ok s p x : read_slot σ s = Ret p → ∃ σ1, write_slot σ s x = Ret σ1 ∧ threads σ1 = threads σ ∧ answers σ1 = answers σ ∧ length (level σ1) = length (level σ) ∧ read_slot σ1 s = Ret x ∧
  (∀ s', s' ≠ s → read_slot σ1 s' = read_slot σ s') ∧ (∀ b, (∀ j, s ≠ Entry b j) → heap σ1 !! b = heap σ !! b) ∧ (∀ b i, block_ok i (heap σ !! b) → block_ok i (heap σ1 !! b)) ∧ (∀ b, is_Some (heap σ1 !! b) → is_Some (heap σ !! b)).
Proof using.
  destruct s as [i | b j]; cbn.
  - intros Hp%at_inv. rewrite (at_lookup _ _ _ Hp). obind. eexists. split; [done |]. cbn. rewrite length_insert. split_and!; try done.
    + apply at_lookup, list_lookup_insert_eq. by eapply lookup_lt_Some.
    + intros [i' | b j] Hne; [| done]. cbn. unfold at_. rewrite list_lookup_insert_ne; [done | congruence].
  - intros (ps & Hps & Hp%at_inv)%bind_Ret_inv. rewrite Hps. obind. rewrite (at_lookup _ _ _ Hp). obind. eexists. split; [done |]. unfold entries in Hps. destruct (heap σ !! b) as [[ps0 |] |] eqn:Eb; simplify_eq. cbn. split_and!; try done.
    + unfold entries. cbn. rewrite lookup_insert_eq. obind. apply at_lookup, list_lookup_insert_eq. by eapply lookup_lt_Some.
    + intros [i' | b' j'] Hne; [done |]. cbn. unfold entries. cbn. destruct (decide (b' = b)) as [-> | Hb]; [| by rewrite lookup_insert_ne]. rewrite lookup_insert_eq, Eb. obind. unfold at_. rewrite list_lookup_insert_ne; [done | congruence].
    + intros b' Hb'. apply lookup_insert_ne. intros ->. by apply (Hb' j).
    + intros b' i Hok. destruct (decide (b' = b)) as [-> | Hb]; [| by rewrite lookup_insert_ne]. rewrite lookup_insert_eq. rewrite Eb in Hok. destruct i as [| i]; [done |]. destruct Hok as (ps' & [= ->] & Hl). exists (<[j := x]> ps'). by rewrite length_insert.
    + intros b' Hb'. destruct (decide (b' = b)) as [-> | Hb]; [by eexists | by rewrite lookup_insert_ne in Hb'].
Qed.

(** The block of the thread becomes known at an empty entry. *)
Lemma publish_block s i idx b th' : pc th = Cas s i idx b → read_slot σ s = Ret None → ∃ σ1 q, write_slot σ s (Some b) = Ret σ1 ∧ slot_pos pos s = Some q ∧ threads σ1 = threads σ ∧ answers σ1 = answers σ ∧ pos !! b = None ∧
  (own_block (pc th') = None → thread_ok (<[b := q]> pos) th' → array_inv (with_thread t th' σ1) (<[b := q]> pos)).
Proof using Hinv Ht.
  intros E Hr. pose proof Hinv as [J1 J2 J3 J4 J5 J6 J7 J8 J9]. pose proof (lookup_lt_Some _ _ _ Ht) as Hlt. pose proof (J5 t th Ht) as Hth0. unfold thread_ok in Hth0. rewrite E in Hth0. destruct Hth0 as (k & pre & Hs & Ha & Hlen & Hk & _).
  assert (own_block (pc th) = Some (b, i)) as Ho by (by rewrite E). destruct (J6 t th b i Ht Ho) as [Hb Hnew]. destruct (write_slot_ok s None (Some b) Hr) as (σ1 & Hw & E1 & E2 & E3 & R1 & R2 & R3 & R4 & R5). exists σ1, (k, pre). split_and!; try done. intros Hno Hth. pose proof (inserted (threads σ) t th') as Hths.
  assert (∀ j, s ≠ Entry b j) as Hsb. { intros j ->. cbn in Hs. by rewrite Hb in Hs. }
  assert (∀ x q', pos !! x = Some q' → <[b := (k, pre)]> pos !! x = Some q') as Hmono by (intros x q' Hx; rewrite lookup_insert_ne; [done | congruence]).
  split; cbn [level heap threads answers with_thread]; rewrite ?E1, ?E2, ?E3; try done.
  - intros x k' pre' Hx. destruct (decide (x = b)) as [-> | Hxb]; [rewrite lookup_insert_eq in Hx; injection Hx as <- <-; exists i; split; [done |]; apply R4; rewrite Hnew; destruct i; [done | by eexists] |].
    rewrite lookup_insert_ne in Hx by done. destruct (J2 x k' pre' Hx) as (i' & Hi' & Hok). exists i'. split; [done | by apply R4].
  - change (∀ s' q', slot_pos (<[b := (k, pre)]> pos) s' = Some q' → ∃ p, read_slot σ1 s' = Ret p ∧ ∀ x, p = Some x ↔ <[b := (k, pre)]> pos !! x = Some q'). intros s' q' Hs'. destruct (decide (s' = s)) as [-> | Hne].
    + rewrite (slot_pos_mono _ _ _ _ _ Hb Hs) in Hs'. injection Hs' as <-. exists (Some b). split; [done |]. intros x. destruct (decide (x = b)) as [-> | Hxb]; [by rewrite lookup_insert_eq |]. rewrite lookup_insert_ne by done. split; [congruence |]. intros Hx. destruct (J3 s _ Hs) as (p & Hp & Hiff). apply Hiff in Hx. congruence.
    + rewrite (R2 s' Hne). destruct s' as [i' | b' j']; [| destruct (decide (b' = b)) as [-> | Hb']].
      * destruct (J3 (Level i') q' Hs') as (p & Hp & Hiff). exists p. split; [done |]. intros x. rewrite Hiff. destruct (decide (x = b)) as [-> | Hxb]; [rewrite lookup_insert_eq, Hb; split; [done |] | by rewrite lookup_insert_ne]. intros [= <-]. destruct Hne. by eapply slot_pos_inj.
      * cbn in Hs'. rewrite lookup_insert_eq in Hs'. cbn in Hs'. case_decide as Hd; [| done]. injection Hs' as <-. cbn [read_slot]. unfold entries. rewrite Hnew. destruct i as [| i]; [lia |]. cbn [new_block]. obind. rewrite (at_lookup _ _ None) by (apply lookup_replicate; split; [done | unfold LF_DYNARRAY_LEVEL_LENGTH; lia]). exists None. split; [done |]. intros x. split; [done |].
        destruct (decide (x = b)) as [-> | Hxb]; [rewrite lookup_insert_eq; intros [= Hx%(f_equal length)]; rewrite length_app in Hx; cbn in Hx; lia | rewrite lookup_insert_ne by done; intros Hx; by eapply nothing_below in Hx].
      * assert (slot_pos pos (Entry b' j') = Some q') as Hs0 by (cbn in *; by rewrite lookup_insert_ne in Hs'). destruct (J3 _ q' Hs0) as (p & Hp & Hiff). exists p. split; [done |]. intros x. rewrite Hiff. destruct (decide (x = b)) as [-> | Hxb]; [rewrite lookup_insert_eq, Hb; split; [done |] | by rewrite lookup_insert_ne]. intros [= <-]. destruct Hne. by eapply slot_pos_inj.
  - intros x q' Hx. destruct (decide (x = b)) as [-> | Hxb]; [rewrite lookup_insert_eq in Hx; injection Hx as <-; exists s; by apply slot_pos_mono |]. rewrite lookup_insert_ne in Hx by done. destruct (J4 x q' Hx) as [s' Hs']. exists s'. by apply slot_pos_mono.
  - intros u thu [[-> ->] | [Hne Hu]]%Hths; [done |]. pose proof (J5 u thu Hu) as Hok. unfold thread_ok, at_slot in *. destruct (pc thu); try done; destruct Hok as (k' & pre' & Hp & Hpath); exists k', pre'; (split; [| done]); by apply slot_pos_mono || by apply Hmono.
  - intros u thu x j [[-> ->] | [Hne Hu]]%Hths Hx; [congruence |]. destruct (J6 u thu x j Hu Hx) as [Hp Hh]. assert (x ≠ b) as Hxb by (intros ->; by apply Hne, (J7 u t thu th b j i)). rewrite lookup_insert_ne by done. split; [done |]. rewrite R3; [done |]. intros j' ->. cbn in Hs. by rewrite Hp in Hs.
  - intros u w thu thw x i' j' [[-> ->] | [Hne Hu]]%Hths [[-> ->] | [Hne' Hw']]%Hths Hx Hx'; [done | congruence | congruence | by eapply J7].
  - intros x Hx%R5%J8. destruct (decide (x = b)) as [-> | Hxb]; [left; rewrite lookup_insert_eq; by eexists |]. rewrite lookup_insert_ne by done. destruct Hx as [H | (u & thu & j & Hu & H)]; [by left | right; exists u, thu, j]. rewrite list_lookup_insert_ne; [done |]. intros ->. congruence.
  - intros a x off Hx. destruct (J9 a x off Hx) as (k' & pre' & Hp & Hpath). exists k', pre'. split; [by apply Hmono | done].
Qed.
End step.

(** The number of steps that a call may still take. *)
Definition left (p : array_pc) : nat :=
  match p with Idle => 0 | Read _ i _ => 4 * i + 4 | Alloc _ i _ => 4 * i + 3 | Cas _ i _ _ => 4 * i + 2 | Drop _ _ i _ => 4 * i + 1 | Peek _ i _ => i + 1 end.

(** A step of [t] keeps the invariant and brings its call nearer to the end. *)
Definition advances σ t th (r : outcome (option (LF_DYNARRAY * thread))) : Prop :=
  r = Ret None ∨ ∃ σ' th', r = Ret (Some (σ', th')) ∧ threads σ' = threads σ ∧ (pc th ≠ Idle → left (pc th') < left (pc th))%nat ∧ ∃ pos', array_inv (with_thread t th' σ') pos'.

(** What [lf_dynarray_lvalue] does with the pointer to a block. *)
Lemma proceed_ok σ pos th ptr k pre i idx : pos !! ptr = Some (k, pre) → on_path (arg th) k pre i idx → ∃ σ' th', proceed σ th ptr i idx = Ret (σ', th') ∧
  level σ' = level σ ∧ heap σ' = heap σ ∧ threads σ' = threads σ ∧ own_block (pc th') = None ∧ thread_ok pos th' ∧ (left (pc th') < 4 * i + 1)%nat ∧
  ∀ x, x ∈ answers σ' → x ∈ answers σ ∨ x.2 = None ∨ ∃ b k pre off, x = (arg th, Some (b, off)) ∧ pos !! b = Some (k, pre) ∧ on_path (arg th) k pre 0 off.
Proof.
  intros Hb Hp. destruct i as [| i]; cbn [proceed].
  - eexists _, _. split; [done |]. split_and!; try done; [cbn; lia |]. intros x [Hx | ->%list_elem_of_singleton]%elem_of_app; [by left | right; right]. by exists ptr, k, pre, idx.
  - destruct (descend_path pos (arg th) ptr k pre i idx Hb Hp) as (j & rest & -> & Hs). obind. eexists _, _. split; [done |]. split_and!; try done; [cbn; lia |]. intros x Hx. by left.
Qed.

(** A change of the memory, followed by one of the thread and the answers. *)
Lemma after_memory t th th0 σ1 pos th' σ' : threads σ1 !! t = Some th → array_inv (with_thread t th0 σ1) pos → arg th0 = arg th → level σ' = level σ1 → heap σ' = heap σ1 → threads σ' = threads σ1 →
  (∀ x, x ∈ answers σ' → x ∈ answers σ1 ∨ x.2 = None ∨ ∃ b k pre off, x = (arg th, Some (b, off)) ∧ pos !! b = Some (k, pre) ∧ on_path (arg th) k pre 0 off) →
  own_block (pc th') = own_block (pc th0) → thread_ok pos th' → array_inv (with_thread t th' σ') pos.
Proof.
  intros Ht Hinv Ea E1 E2 E3 Hans Ho Hok. rewrite <- Ea in Hans. replace (with_thread t th' σ') with (with_thread t th' (with_thread t th0 σ')) by (unfold with_thread; cbn; by rewrite list_insert_insert_eq).
  apply (keep_memory (with_thread t th0 σ1) pos t th0 Hinv); cbn; try done; [| by rewrite E3]. apply list_lookup_insert_eq. by eapply lookup_lt_Some.
Qed.

Section step.
Context σ pos t th (Hinv : array_inv σ pos) (Ht : threads σ !! t = Some th).

(** The block at the slot that a call has reached. *)
Lemma slot_block a s i idx b : at_slot pos a s i idx → read_slot σ s = Ret (Some b) → ∃ k pre, pos !! b = Some (k, pre) ∧ on_path a k pre i idx.
Proof using Hinv. intros (k & pre & Hs & Hp) Hr. exists k, pre. split; [| done]. destruct (ar_slot _ _ Hinv s _ Hs) as (p & Hr' & Hiff). apply Hiff. congruence. Qed.

Lemma slot_read a s i idx : at_slot pos a s i idx → ∃ p, read_slot σ s = Ret p.
Proof using Hinv. intros (k & pre & Hs & _). destruct (ar_slot _ _ Hinv s _ Hs) as (p & Hr & _). by exists p. Qed.

Lemma idle_start c : pc th = Idle → advances σ t th (thread_step σ th c).
Proof using Hinv Ht.
  intros E. unfold thread_step. rewrite E. right. assert (∀ idx, 0 ≤ u32 idx < 2 ^ 32) as Hu by (intros; apply Z.mod_pos_bound; lia). destruct (c_request c) as [idx | idx]; destruct (call_start_ok pos (u32 idx) (Hu idx)) as (k & r & -> & Hs); obind;
    (eexists _, _; split; [done |]; split; [done |]; split; [done |]; exists pos; apply (keep_memory σ pos t th Hinv Ht); [done | done | done | by left | by rewrite E | done]).
Qed.

Lemma lvalue_ok c : match pc th with Read _ _ _ | Alloc _ _ _ | Cas _ _ _ _ | Drop _ _ _ _ => True | _ => False end → advances σ t th (lvalue_step σ th c (pc th)).
Proof using Hinv Ht.
  intros Hpc. pose proof (ar_thread _ _ Hinv t th Ht) as Hth. unfold thread_ok in Hth. destruct (pc th) as [| s i idx | s i idx | s i idx b | b ptr i idx | s i idx] eqn:E; try done; clear Hpc; cbn [lvalue_step].
  - destruct (slot_read _ _ _ _ Hth) as [p Hp]. rewrite Hp. obind. right. destruct p as [b |].
    + destruct (slot_block _ _ _ _ _ Hth Hp) as (k & pre & Hb & Hpath). destruct (proceed_ok σ pos th b k pre i idx Hb Hpath) as (σ' & th' & -> & E1 & E2 & E3 & E4 & Hok & Hleft & Hans). obind. eexists _, _. split; [done |]. rewrite E3, E. split; [done |]. split; [cbn [left]; lia |].
      exists pos. apply (keep_memory σ pos t th Hinv Ht); try done. by rewrite E4, E.
    + eexists _, _. split; [done |]. rewrite E. split; [done |]. split; [cbn; lia |]. exists pos. apply (keep_memory σ pos t th Hinv Ht); try done; [by left | by rewrite E].
  - destruct (c_fail c).
    + right. eexists _, _. split; [done |]. rewrite E. split; [done |]. split; [cbn; lia |]. exists pos. apply (keep_memory σ pos t th Hinv Ht); try done; [| by rewrite E]. intros x [Hx | ->%list_elem_of_singleton]%elem_of_app; [by left | right; by left].
    + destruct (heap σ !! c_addr c) eqn:Ea; [by left | right]. eexists _, _. split; [done |]. rewrite E. split; [done |]. split; [cbn; lia |]. exists pos. apply (alloc_block σ pos t th Hinv Ht); try done. by rewrite E.
  - destruct (slot_read _ _ _ _ Hth) as [p Hp]. rewrite Hp. obind. right. destruct p as [b' |].
    + eexists _, _. split; [done |]. rewrite E. split; [done |]. split; [cbn; lia |]. destruct (slot_block _ _ _ _ _ Hth Hp) as (k & pre & Hb & Hpath). exists pos. apply (keep_memory σ pos t th Hinv Ht); try done; [by left | by rewrite E | by exists k, pre].
    + destruct (publish_block σ pos t th Hinv Ht s i idx b th E Hp) as (σ1 & [k pre] & Hw & Hs & E1 & E2 & Hb & _). rewrite Hw. obind. assert (on_path (arg th) k pre i idx) as Hpath. { destruct Hth as (k' & pre' & Hs' & ?). congruence. }
      destruct (proceed_ok σ1 (<[b := (k, pre)]> pos) th b k pre i idx (lookup_insert_eq _ _ _) Hpath) as (σ' & th' & -> & F1 & F2 & F3 & F4 & Hok & Hleft & Hans). obind.
      eexists _, _. split; [done |]. rewrite F3, E1, E. split; [done |]. split; [cbn [left]; lia |]. exists (<[b := (k, pre)]> pos).
      apply (after_memory t th (goto (Read s i idx) th) σ1); try done; [by rewrite E1 |].
      destruct (publish_block σ pos t th Hinv Ht s i idx b (goto (Read s i idx) th) E Hp) as (σ2 & q & Hw2 & Hs2 & _ & _ & _ & Hinv'). rewrite Hw in Hw2. injection Hw2 as <-. rewrite Hs in Hs2. injection Hs2 as <-. apply Hinv'; [done |].
      exists k, pre. split; [by apply slot_pos_mono | done].
  - destruct Hth as (k & pre & Hb & Hpath). assert (own_block (pc th) = Some (b, i)) as Ho by (by rewrite E). destruct (ar_own _ _ Hinv t th b i Ht Ho) as [_ ->]. cbn [of_option]. obind. right.
    destruct (proceed_ok (with_heap (delete b (heap σ)) σ) pos th ptr k pre i idx Hb Hpath) as (σ' & th' & -> & F1 & F2 & F3 & F4 & Hok & Hleft & Hans). obind. eexists _, _. split; [done |]. rewrite F3, E. split; [done |]. split; [cbn [left]; lia |]. exists pos.
    apply (after_memory t th (goto Idle th) (with_heap (delete b (heap σ)) σ)); try done. by apply (drop_block σ pos t th Hinv Ht b i).
Qed.

Lemma value_ok s i idx : pc th = Peek s i idx → ∃ σ' th', value_step σ th (Peek s i idx) = Ret (σ', th') ∧ threads σ' = threads σ ∧ (left (pc th') < left (pc th))%nat ∧ array_inv (with_thread t th' σ') pos.
Proof using Hinv Ht.
  intros E. pose proof (ar_thread _ _ Hinv t th Ht) as Hth. unfold thread_ok in Hth. rewrite E in Hth. cbn [value_step]. destruct (slot_read _ _ _ _ Hth) as [p Hp]. rewrite Hp, E. obind. destruct p as [b |].
  - destruct (slot_block _ _ _ _ _ Hth Hp) as (k & pre & Hb & Hpath). destruct i as [| i].
    + eexists _, _. split; [done |]. split; [done |]. split; [cbn; lia |]. apply (keep_memory σ pos t th Hinv Ht); try done; [| by rewrite E]. intros x [Hx | ->%list_elem_of_singleton]%elem_of_app; [by left | right; right]. by exists b, k, pre, idx.
    + destruct (descend_path pos (arg th) b k pre i idx Hb Hpath) as (j & rest & -> & Hs). obind. eexists _, _. split; [done |]. split; [done |]. split; [cbn; lia |]. apply (keep_memory σ pos t th Hinv Ht); try done; [by left | by rewrite E].
  - eexists _, _. split; [done |]. split; [done |]. split; [cbn; lia |]. apply (keep_memory σ pos t th Hinv Ht); try done; [| by rewrite E]. intros x [Hx | ->%list_elem_of_singleton]%elem_of_app; [by left | right; by left].
Qed.

Lemma array_thread_ok c : advances σ t th (thread_step σ th c).
Proof using Hinv Ht.
  destruct (pc th) eqn:E; [by apply idle_start | unfold thread_step; rewrite E, <- E; apply lvalue_ok; by rewrite E.. |]. unfold thread_step. rewrite E. destruct (value_ok _ _ _ E) as (σ' & th' & -> & ? & ? & ?). obind. right. eexists _, _. split; [done |]. split_and!; [done | done | by exists pos].
Qed.
End step.

Lemma array_step_ok σ pos t c : array_inv σ pos → step σ t c = Ret None ∨ ∃ σ' th th' pos', step σ t c = Ret (Some σ') ∧ threads σ !! t = Some th ∧ threads σ' !! t = Some th' ∧ (pc th ≠ Idle → left (pc th') < left (pc th))%nat ∧ array_inv σ' pos'.
Proof.
  intros Hinv. unfold step. destruct (threads σ !! t) as [th |] eqn:Ht; [| by left]. destruct (array_thread_ok σ pos t th Hinv Ht c) as [-> | (σ' & th' & -> & Hth & Hleft & pos' & Hk)]; obind; [by left | right].
  exists (with_thread t th' σ'), th, th', pos'. split_and!; try done. cbn. rewrite Hth. apply list_lookup_insert_eq. by eapply lookup_lt_Some.
Qed.

Lemma array_init_ok num : array_inv (lf_dynarray_init num) ∅.
Proof.
  assert (∀ t th, threads (lf_dynarray_init num) !! t = Some th → pc th = Idle) as Hidle by (by intros t th [-> _]%lookup_replicate). split; try done.
  - intros [i | b j] q Hs; [| done]. cbn in Hs. case_decide as Hi; [| done]. exists None. split; [| done]. cbn [read_slot]. apply at_lookup, lookup_replicate. by split.
  - intros t th Ht. unfold thread_ok. by rewrite (Hidle t th Ht).
  - intros t th b i Ht. by rewrite (Hidle t th Ht).
  - intros t u th thu b i j Ht _. by rewrite (Hidle t th Ht).
  - intros b [x Hx]. done.
  - intros a b off Hx. by apply elem_of_nil in Hx.
Qed.

Lemma array_reachable num σ : reachable num σ → ∃ pos, array_inv σ pos.
Proof.
  induction 1 as [| σ t c σ' _ [pos IH] Hstep]; [by exists ∅; apply array_init_ok |]. destruct (array_step_ok σ pos t c IH) as [E | (σ'' & _ & _ & pos' & E & _ & _ & _ & H)]; [congruence |]. exists pos'. congruence.
Qed.

(** ** Going through all blocks *)

(** The position [q] lies in the tree below [(k, pre)]. *)
Definition under (k : nat) pre q : Prop := q.1 = k ∧ pre `prefix_of` q.2.

#[global] Instance under_dec k pre q : Decision (under k pre q).
Proof. unfold under. apply _. Defined.

(** The leaves below a pointer at height [i], in the order of their indices. *)
Fixpoint leaves (h : gmap nat block) (i : nat) (p : option nat) : list nat :=
  match p with
  | None => []
  | Some b => match i with O => [b] | S i => match h !! b with Some (Dir ps) => concat (map (leaves h i) ps) | _ => [] end end
  end.

(** The calls of a function for a list of leaves, until it returns something other than 0. *)
Definition visit {A} (func : nat → A → Z * A) (ls : list nat) (st : Z * A) : Z * A :=
  fold_left (λ st b, if bool_decide (st.1 = 0) then func b st.2 else st) ls st.

Lemma visit_stop {A} (func : nat → A → Z * A) ls st : st.1 ≠ 0 → visit func ls st = st.
Proof. intros H. unfold visit. induction ls as [| b ls IH]; [done |]. cbn. by rewrite bool_decide_false. Qed.

Lemma seq_loop_visit {A} (func : nat → A → Z * A) (f : option nat → Z * A → outcome (Z * A)) (g : option nat → list nat) ps : (∀ p st, p ∈ ps → f p st = Ret (visit func (g p) st)) → ∀ st, seq_loop f ps st = Ret (visit func (concat (map g ps)) st).
Proof.
  induction ps as [| p ps IH]; intros Hf st; [done |]. cbn. rewrite Hf by (by left). obind. rewrite IH by (intros p' st' Hp; apply Hf; by right). f_equal. unfold visit. by rewrite fold_left_app.
Qed.

Lemma elem_of_concat_map {A} (f : A → list nat) ps b : b ∈ concat (map f ps) ↔ ∃ j p, ps !! j = Some p ∧ b ∈ f p.
Proof.
  induction ps as [| p ps IH]; cbn; [split; [by intros ?%elem_of_nil | by intros (? & ? & ? & _)] |]. rewrite elem_of_app, IH. split.
  - intros [H | (j & p' & Hj & H)]; [by exists 0%nat, p | by exists (S j), p'].
  - intros ([| j] & p' & Hj & H); [injection Hj as <-; by left | right; by exists j, p'].
Qed.

Lemma NoDup_concat_map {A} (f : A → list nat) ps : (∀ j p, ps !! j = Some p → NoDup (f p)) → (∀ j j' p p' b, ps !! j = Some p → ps !! j' = Some p' → b ∈ f p → b ∈ f p' → j = j') → NoDup (concat (map f ps)).
Proof.
  induction ps as [| p ps IH]; intros Hnd Hdisj; [apply NoDup_nil_2 |]. cbn. apply NoDup_app. split_and!; [by apply (Hnd 0%nat) | | apply IH; [intros j; by apply (Hnd (S j)) | intros j j' q q' b Hj Hj' Hb Hb'; assert (S j = S j') by (by eapply Hdisj); lia]].
  intros b Hb (j & q & Hj & Hb')%elem_of_concat_map. by specialize (Hdisj 0%nat (S j) p q b eq_refl Hj Hb Hb').
Qed.

Section trees.
Context σ pos (Hinv : array_inv σ pos).

(** A block has all its ancestors, at entries within the blocks. *)
Lemma ancestor b k pre ext : pos !! b = Some (k, pre ++ ext) → ∃ b', pos !! b' = Some (k, pre).
Proof using Hinv.
  revert b. induction ext as [| j ext IH] using rev_ind; intros b Hb; [exists b; by rewrite app_nil_r in Hb |]. rewrite app_assoc in Hb. destruct (ar_parent _ _ Hinv b _ Hb) as [[i | b' j'] Hs]; cbn in Hs; [case_decide; [injection Hs as _ Hs; by destruct (pre ++ ext) | done] |].
  destruct (pos !! b') as [[k' pre'] |] eqn:E; [| done]. cbn in Hs. case_decide; [| done]. injection Hs as -> [-> _]%app_inj_tail. by eapply IH.
Qed.

Lemma ancestor_entry b k pre j ext : pos !! b = Some (k, pre ++ j :: ext) → (j < 256)%nat.
Proof using Hinv.
  rewrite cons_middle, app_assoc. intros [b' Hb']%ancestor. destruct (ar_parent _ _ Hinv b' _ Hb') as [[i | b'' j'] Hs]; cbn in Hs; [case_decide; [injection Hs as _ Hs; by destruct pre | done] |].
  destruct (pos !! b'') as [[k' pre'] |] eqn:E; [| done]. cbn in Hs. case_decide as Hj; [| done]. injection Hs as _ [_ <-]%app_inj_tail. lia.
Qed.

(** The entries of the block at a place. *)
Lemma block_entries b k pre i : pos !! b = Some (k, pre) → (length pre + S i = k)%nat → ∃ ps, heap σ !! b = Some (Dir ps) ∧ length ps = 256%nat ∧ ∀ j p, ps !! j = Some p → ∀ x, p = Some x ↔ pos !! x = Some (k, pre ++ [j]).
Proof using Hinv.
  intros Hb Hk. destruct (ar_block _ _ Hinv b k pre Hb) as (i' & Hi' & Hok). destruct i' as [| i']; [lia |]. destruct Hok as (ps & Hps & Hl). exists ps. split_and!; [done | done |]. intros j p Hj. pose proof (lookup_lt_Some _ _ _ Hj).
  assert (slot_pos pos (Entry b j) = Some (k, pre ++ [j])) as Hs by (cbn; rewrite Hb; cbn; rewrite decide_True by lia; done). destruct (ar_slot _ _ Hinv _ _ Hs) as (p' & Hr & Hiff). cbn in Hr. unfold entries in Hr. rewrite Hps in Hr. cbn [mbind outcome_bind] in Hr. rewrite (at_lookup _ _ _ Hj) in Hr. injection Hr as <-. done.
Qed.

Lemma block_leaf b k pre : pos !! b = Some (k, pre) → length pre = k → heap σ !! b = Some Leaf.
Proof using Hinv. intros Hb Hk. destruct (ar_block _ _ Hinv b k pre Hb) as (i & Hi & Hok). assert (i = O) as -> by lia. done. Qed.

Lemma under_none k pre b q : (∀ x, pos !! x ≠ Some (k, pre)) → pos !! b = Some q → ¬ under k pre q.
Proof using Hinv. intros Hno Hb [<- [ext E]]. destruct q as [k q]. cbn in *. subst. destruct (ancestor _ _ _ _ Hb) as [b' Hb']. by apply (Hno b'). Qed.

Lemma under_split k pre b q : pos !! b = Some q → under k pre q → q = (k, pre) ∨ ∃ j, (j < 256)%nat ∧ under k (pre ++ [j]) q.
Proof using Hinv.
  intros Hb [<- [ext E]]. destruct q as [k q]. cbn in *. subst. destruct ext as [| j ext]; [left; by rewrite app_nil_r | right]. exists j. split; [by eapply ancestor_entry |]. split; [done |]. exists ext. by rewrite <- app_assoc.
Qed.
End trees.

Section walks.
Context σ pos (Hinv : array_inv σ pos).

(** [recursive_free] of a pointer at a place removes the blocks below that place. *)
Definition freed k pre (h h' : gmap nat block) : Prop :=
  ∀ b, (∀ q, pos !! b = Some q → under k pre q → h' !! b = None) ∧ ((∀ q, pos !! b = Some q → ¬ under k pre q) → h' !! b = h !! b).

Lemma free_entries i k pre : (∀ p h j, (∀ x, p = Some x ↔ pos !! x = Some (k, pre ++ [j])) → (∀ b q, pos !! b = Some q → under k (pre ++ [j]) q → h !! b = heap σ !! b) → ∃ h', recursive_free i p h = Ret h' ∧ freed k (pre ++ [j]) h h') →
  ∀ ps n h, (∀ j p, ps !! j = Some p → ∀ x, p = Some x ↔ pos !! x = Some (k, pre ++ [(n + j)%nat])) → (∀ b q j, pos !! b = Some q → under k (pre ++ [(n + j)%nat]) q → h !! b = heap σ !! b) →
  ∃ h', seq_loop (recursive_free i) ps h = Ret h' ∧ ∀ b, (∀ q j, pos !! b = Some q → (j < length ps)%nat → under k (pre ++ [(n + j)%nat]) q → h' !! b = None) ∧
    ((∀ q j, pos !! b = Some q → (j < length ps)%nat → ¬ under k (pre ++ [(n + j)%nat]) q) → h' !! b = h !! b).
Proof using.
  intros IH ps. induction ps as [| p ps IHps]; intros n h Hps Hh; [exists h; split; [done |]; intros b; split; [intros q j _ Hj; cbn in Hj; lia | done] |]. cbn [seq_loop].
  destruct (IH p h n) as (h1 & -> & Hf); [specialize (Hps 0%nat p eq_refl); by rewrite Nat.add_0_r in Hps | intros b q Hb Hu; apply (Hh b q 0%nat Hb); by rewrite Nat.add_0_r |]. obind.
  assert (∀ q j, under k (pre ++ [n]) q → under k (pre ++ [(S n + j)%nat]) q → False) as Hdisj. { intros q j [_ [e1 E1]] [_ [e2 E2]]. rewrite E1, <- !app_assoc in E2. apply app_inv_head in E2. injection E2 as ?. lia. }
  destruct (IHps (S n) h1) as (h2 & -> & Hrest).
  - intros j p' Hj. specialize (Hps (S j) p' Hj). by rewrite Nat.add_succ_r in Hps.
  - intros b q j Hb Hu. rewrite (proj2 (Hf b)); [apply (Hh b q (S j) Hb); by rewrite Nat.add_succ_r |]. intros q' Hq' Hu'. assert (q' = q) as -> by congruence. by eapply Hdisj.
  - exists h2. split; [done |]. intros b. split.
    + intros q [| j] Hb Hj Hu; [| rewrite Nat.add_succ_r in Hu; apply (proj1 (Hrest b) q j Hb); [cbn in Hj; lia | done]]. rewrite Nat.add_0_r in Hu. rewrite (proj2 (Hrest b)); [by apply (proj1 (Hf b) q) |]. intros q' j Hq' _ Hu'. assert (q' = q) as -> by congruence. by eapply Hdisj.
    + intros Hno. rewrite (proj2 (Hrest b)); [apply (proj2 (Hf b)); intros q Hb; specialize (Hno q 0%nat Hb ltac:(cbn; lia)); by rewrite Nat.add_0_r in Hno |]. intros q j Hb Hj. specialize (Hno q (S j) Hb ltac:(cbn; lia)). by rewrite Nat.add_succ_r in Hno.
Qed.

Lemma recursive_free_spec i : ∀ p h k pre, (length pre + i = k)%nat → (∀ x, p = Some x ↔ pos !! x = Some (k, pre)) → (∀ b q, pos !! b = Some q → under k pre q → h !! b = heap σ !! b) → ∃ h', recursive_free i p h = Ret h' ∧ freed k pre h h'.
Proof using Hinv.
  induction i as [| i IH]; intros p h k pre Hk Hp Hh; (destruct p as [b0 |]; [| exists h; split; [done |]; intros b; split; [intros q Hb Hu; exfalso; eapply (under_none σ pos Hinv k pre b q); [| done | done]; intros x Hx; by apply Hp in Hx | done]]);
    (assert (pos !! b0 = Some (k, pre)) as Hb0 by (by apply Hp)); (assert (h !! b0 = heap σ !! b0) as E0 by (apply (Hh b0 _ Hb0); split; [done | by exists []; rewrite app_nil_r])); cbn [recursive_free].
  - rewrite E0, (block_leaf σ pos Hinv b0 k pre) by (done || lia). eexists. split; [done |]. intros b. destruct (decide (b = b0)) as [-> | Hne]; [rewrite lookup_delete_eq; split; [done |]; intros Hno; exfalso; apply (Hno _ Hb0); split; [done | by exists []; rewrite app_nil_r] |].
    rewrite lookup_delete_ne by done. split; [| done]. intros q Hb [<- [ext E]]. destruct q as [k q]. cbn in *. subst. destruct ext as [| j ext]; [rewrite app_nil_r in Hb; destruct Hne; by eapply pos_inj |].
    destruct (ar_block _ _ Hinv b _ _ Hb) as (i & Hi & _). rewrite length_app in Hi. cbn in Hi. lia.
  - destruct (block_entries σ pos Hinv b0 k pre i Hb0 Hk) as (ps & Hps & Hlen & Hent). unfold entries. rewrite E0, Hps. obind. destruct (free_entries i k pre) with (ps := ps) (n := 0%nat) (h := h) as (h1 & -> & Hf).
    + intros p' h' j Hp' Hh'. apply IH; [rewrite length_app; cbn; lia | done | done].
    + done.
    + intros b q j Hb [Hk' [ext E]]. apply (Hh b q Hb). split; [done |]. exists ([(0 + j)%nat] ++ ext). by rewrite app_assoc.
    + obind. eexists. split; [done |]. intros b. split.
      * intros q Hb Hu. destruct (decide (b = b0)) as [-> | Hne]; [by rewrite lookup_delete_eq |]. rewrite lookup_delete_ne by done. destruct (under_split σ pos Hinv k pre b q Hb Hu) as [-> | (j & Hj & Hu')]; [destruct Hne; by eapply pos_inj |]. apply (proj1 (Hf b) q j Hb); [lia | done].
      * intros Hno. assert (b ≠ b0) as Hne. { intros ->. apply (Hno _ Hb0). split; [done | by exists []; rewrite app_nil_r]. } rewrite lookup_delete_ne by done. apply (proj2 (Hf b)). intros q j Hb _ [Hk' [ext E]]. apply (Hno q Hb). split; [done |]. exists ([(0 + j)%nat] ++ ext). by rewrite app_assoc.
Qed.

(** The levels of the array. *)
Lemma level_entry j p : level σ !! j = Some p → ∀ x, p = Some x ↔ pos !! x = Some (j, []).
Proof using Hinv.
  intros Hj. pose proof (lookup_lt_Some _ _ _ Hj) as Hl. rewrite (ar_level _ _ Hinv) in Hl. assert (slot_pos pos (Level j) = Some (j, [])) as Hs by (cbn; by rewrite decide_True). destruct (ar_slot _ _ Hinv _ _ Hs) as (p' & Hr & Hiff). cbn in Hr. rewrite (at_lookup _ _ _ Hj) in Hr. by injection Hr as <-.
Qed.

Lemma free_levels ls : ∀ n h, (∀ j p, ls !! j = Some p → ∀ x, p = Some x ↔ pos !! x = Some ((n + j)%nat, [])) → (∀ b q, pos !! b = Some q → (n ≤ q.1)%nat → h !! b = heap σ !! b) →
  ∃ h', level_loop recursive_free n ls h = Ret h' ∧ ∀ b, (∀ q, pos !! b = Some q → (n ≤ q.1 < n + length ls)%nat → h' !! b = None) ∧ ((∀ q, pos !! b = Some q → (q.1 < n)%nat) → h' !! b = h !! b).
Proof using Hinv.
  induction ls as [| p ls IH]; intros n h Hls Hh; [exists h; split; [done |]; intros b; split; [intros q _ Hq; cbn in Hq; lia | done] |]. cbn [level_loop].
  destruct (recursive_free_spec n p h n []) as (h1 & -> & Hf); [done | specialize (Hls 0%nat p eq_refl); by rewrite Nat.add_0_r in Hls | intros b q Hb [<- _]; by apply (Hh b q Hb) |]. obind.
  destruct (IH (S n) h1) as (h2 & -> & Hrest).
  - intros j p' Hj. specialize (Hls (S j) p' Hj). by rewrite Nat.add_succ_r in Hls.
  - intros b q Hb Hq. rewrite (proj2 (Hf b)); [apply (Hh b q Hb); lia |]. intros q' Hq' [<- _]. assert (q' = q) as -> by congruence. lia.
  - exists h2. split; [done |]. intros b. split.
    + intros q Hb Hq. cbn [length] in Hq. destruct (decide (q.1 = n)) as [Hn | Hn]; [| apply (proj1 (Hrest b) q Hb); lia]. rewrite (proj2 (Hrest b)); [apply (proj1 (Hf b) q Hb); split; [done | apply prefix_nil] |]. intros q' Hq'. assert (q' = q) as -> by congruence. lia.
    + intros Hno. rewrite (proj2 (Hrest b)); [apply (proj2 (Hf b)); intros q Hb [Hq _]; specialize (Hno q Hb); lia |]. intros q Hb. specialize (Hno q Hb). lia.
Qed.

Lemma destroy_ok : (∀ t th, threads σ !! t = Some th → pc th = Idle) → lf_dynarray_destroy σ = Ret ∅.
Proof using Hinv.
  intros Hidle. unfold lf_dynarray_destroy. destruct (free_levels (level σ) 0 (heap σ)) as (h & -> & Hh); [apply level_entry | done |]. f_equal. apply map_eq. intros b. rewrite lookup_empty. destruct (pos !! b) as [[k pre] |] eqn:Hb.
  - apply (proj1 (Hh b) _ Hb). rewrite (ar_level _ _ Hinv). destruct (ar_block _ _ Hinv b k pre Hb) as (i & Hi & _). cbn. lia.
  - rewrite (proj2 (Hh b)) by congruence. apply eq_None_not_Some. intros [[? ?] | (t & th & i & Ht & Ho)]%(ar_heap _ _ Hinv); [congruence |]. by rewrite (Hidle t th Ht) in Ho.
Qed.

(** The leaves below a place. *)
Lemma leaves_spec i : ∀ p k pre, (length pre + i = k)%nat → (∀ x, p = Some x ↔ pos !! x = Some (k, pre)) →
  NoDup (leaves (heap σ) i p) ∧ (∀ b, b ∈ leaves (heap σ) i p ↔ ∃ q, pos !! b = Some q ∧ under k pre q ∧ length q.2 = k) ∧ ∀ A (func : nat → A → Z * A) st, recursive_iterate (heap σ) func i p st = Ret (visit func (leaves (heap σ) i p) st).
Proof using Hinv.
  induction i as [| i IH]; intros p k pre Hk Hp.
  all: destruct p as [b0 |]; [| split_and!; [apply NoDup_nil_2 | intros b; split; [by intros ?%elem_of_nil | intros (q & Hb & Hu & _); exfalso; eapply (under_none σ pos Hinv k pre b q); [| done | done]; intros x Hx; by apply Hp in Hx] | intros A func st; cbn; by case_bool_decide]].
  all: assert (pos !! b0 = Some (k, pre)) as Hb0 by (by apply Hp).
  - cbn. split_and!; [apply NoDup_singleton | | intros A func st; cbn; by case_bool_decide]. intros b. rewrite list_elem_of_singleton. split; [intros ->; exists (k, pre); split_and!; [done | split; [done | by exists []; rewrite app_nil_r] | cbn; lia] |].
    intros ([k' q] & Hb & [Hk' [ext E]] & Hl). cbn in *. subst. rewrite length_app in Hl. destruct ext; [| cbn in Hl; lia]. rewrite app_nil_r in Hb. by eapply pos_inj.
  - destruct (block_entries σ pos Hinv b0 k pre i Hb0 Hk) as (ps & Hps & Hlen & Hent). cbn [leaves]. rewrite Hps.
    assert (∀ j p, ps !! j = Some p → NoDup (leaves (heap σ) i p) ∧ (∀ b, b ∈ leaves (heap σ) i p ↔ ∃ q, pos !! b = Some q ∧ under k (pre ++ [j]) q ∧ length q.2 = k) ∧ ∀ A (func : nat → A → Z * A) st, recursive_iterate (heap σ) func i p st = Ret (visit func (leaves (heap σ) i p) st)) as Hsub.
    { intros j p Hj. apply IH; [rewrite length_app; cbn; lia | by apply Hent]. }
    assert (∀ j j' p p' b, ps !! j = Some p → ps !! j' = Some p' → b ∈ leaves (heap σ) i p → b ∈ leaves (heap σ) i p' → j = j') as Hdisj.
    { intros j j' p p' b Hj Hj' Hb Hb'. apply (Hsub j p Hj) in Hb as (q & Hq & [_ [e1 E1]] & _). apply (Hsub j' p' Hj') in Hb' as (q' & Hq' & [_ [e2 E2]] & _). assert (q' = q) as -> by congruence. rewrite E1, <- !app_assoc in E2. apply app_inv_head in E2. by injection E2 as ?. }
    split_and!.
    + apply NoDup_concat_map; [intros j p Hj; by apply (Hsub j) | done].
    + intros b. rewrite elem_of_concat_map. split.
      * intros (j & p & Hj & (q & Hq & [Hqk [ext E]] & Hl)%(Hsub j p Hj)). exists q. split_and!; [done | split; [done |] | done]. exists ([j] ++ ext). by rewrite app_assoc.
      * intros (q & Hq & Hu & Hl). destruct (under_split σ pos Hinv k pre b q Hq Hu) as [-> | (j & Hj & Hu')]; [cbn in Hl; lia |]. destruct (lookup_lt_is_Some_2 ps j ltac:(lia)) as [p Hp']. exists j, p. split; [done |]. apply (Hsub j p Hp'). by exists q.
    + intros A func st. cbn. case_bool_decide as Hst; [unfold entries; rewrite Hps; obind | by rewrite visit_stop]. apply seq_loop_visit. intros p st' [j Hj]%list_elem_of_lookup. by apply (Hsub j).
Qed.

Lemma iterate_levels ls : ∀ n, (∀ j p, ls !! j = Some p → ∀ x, p = Some x ↔ pos !! x = Some ((n + j)%nat, [])) → ∃ bs, NoDup bs ∧ (∀ b, b ∈ bs ↔ ∃ q, pos !! b = Some q ∧ (n ≤ q.1 < n + length ls)%nat ∧ length q.2 = q.1) ∧
  ∀ A (func : nat → A → Z * A) st, level_loop (recursive_iterate (heap σ) func) n ls st = Ret (visit func bs st).
Proof using Hinv.
  induction ls as [| p ls IH]; intros n Hls; [exists []; split_and!; [apply NoDup_nil_2 | | done]; intros b; split; [by intros ?%elem_of_nil | intros (q & _ & Hq & _); cbn in Hq; lia] |].
  destruct (IH (S n)) as (bs & Hnd & Hin & Hit); [intros j p' Hj; specialize (Hls (S j) p' Hj); by rewrite Nat.add_succ_r in Hls |]. destruct (leaves_spec n p n []) as (Hnd' & Hin' & Hit'); [done | specialize (Hls 0%nat p eq_refl); by rewrite Nat.add_0_r in Hls |].
  exists (leaves (heap σ) n p ++ bs). split_and!.
  - apply NoDup_app. split_and!; [done | | done]. intros b (q & Hq & [Hqn _] & _)%Hin' (q' & Hq' & Hn & _)%Hin. assert (q' = q) as -> by congruence. lia.
  - intros b. rewrite elem_of_app, Hin, Hin'. cbn [length]. split.
    + intros [(q & Hq & [Hqn _] & Hl) | (q & Hq & Hn & Hl)]; exists q; split_and!; done || lia.
    + intros (q & Hq & Hn & Hl). destruct (decide (q.1 = n)) as [Hqn | Hqn]; [left | right]; exists q; split_and!; try done; try lia. split; [done | apply prefix_nil].
  - intros A func st. cbn [level_loop]. rewrite Hit'. obind. rewrite Hit. f_equal. unfold visit. by rewrite fold_left_app.
Qed.

Lemma iterate_ok : (∀ t th, threads σ !! t = Some th → pc th = Idle) → ∃ bs, NoDup bs ∧ (∀ b, b ∈ bs ↔ heap σ !! b = Some Leaf) ∧ ∀ A (func : nat → A → Z * A) a, lf_dynarray_iterate σ func a = Ret (visit func bs (0, a)).
Proof using Hinv.
  intros Hidle. destruct (iterate_levels (level σ) 0) as (bs & Hnd & Hin & Hit); [apply level_entry |]. exists bs. split_and!; [done | | intros A func a; apply Hit]. intros b. rewrite Hin. split.
  - intros ([k pre] & Hb & _ & Hl). by eapply block_leaf.
  - intros Hb. destruct (ar_heap _ _ Hinv b) as [[[k pre] Hp] | (t & th & i & Ht & Ho)]; [by rewrite Hb | | by rewrite (Hidle t th Ht) in Ho]. exists (k, pre). destruct (ar_block _ _ Hinv b k pre Hp) as ([| i] & Hi & Hok); [cbn; rewrite (ar_level _ _ Hinv); split_and!; try done; lia |].
    destruct Hok as (ps & Hps & _). congruence.
Qed.
End walks.

(** ** The theorems *)

Lemma answers_agree σ pos a a' x y : array_inv σ pos → (a, Some x) ∈ answers σ → (a', Some y) ∈ answers σ → a = a' ↔ x = y.
Proof.
  intros Hinv Hx Hy. destruct x as [b off], y as [b' off']. destruct (ar_answer _ _ Hinv a b off Hx) as (k & pre & Hb & Ha & _ & _ & _ & r & Hr & Hloc & Hd & Ho). destruct (ar_answer _ _ Hinv a' b' off' Hy) as (k' & pre' & Hb' & Ha' & _ & _ & _ & r' & Hr' & Hloc' & Hd' & Ho').
  cbn in Hd, Ho, Hd', Ho'. rewrite app_nil_r in Hd, Hd'. split.
  - intros ->. rewrite Hloc in Hloc'. injection Hloc' as <- <-. assert (pre = pre') as <- by congruence. f_equal; [by eapply pos_inj | congruence].
  - intros [= <- <-]. rewrite Hb in Hb'. injection Hb' as <- <-. assert (r = r') as <- by (apply (digits_inj k); congruence). by eapply locate_inj.
Qed.

(** C16: the wait-free dynamic array.  For any number of threads that call [lf_dynarray_lvalue] and [lf_dynarray_value] in any interleaving, with any failures of memory:

    - no call reads or writes outside of a block;
    - all calls that return an element for the same index, at any time and in any thread, return the same element, and calls for different indices return different elements, each within a leaf that is still allocated;
    - when no call runs, [lf_dynarray_destroy] frees every block exactly once, so that blocks which lost a race have not been lost, and [lf_dynarray_iterate] calls its function for every leaf once, until the function returns something other than 0. *)
Theorem lf_dynarray_correct num σ : reachable num σ →
  (∀ t c, ∃ r, step σ t c = Ret r) ∧
  (∀ a a' x y, (a, Some x) ∈ answers σ → (a', Some y) ∈ answers σ → a = a' ↔ x = y) ∧
  (∀ a b off, (a, Some (b, off)) ∈ answers σ → heap σ !! b = Some Leaf ∧ 0 ≤ off < LF_DYNARRAY_LEVEL_LENGTH) ∧
  ((∀ t th, threads σ !! t = Some th → pc th = Idle) →
    lf_dynarray_destroy σ = Ret ∅ ∧
    ∃ bs, NoDup bs ∧ (∀ b, b ∈ bs ↔ heap σ !! b = Some Leaf) ∧ ∀ A (func : nat → A → Z * A) a, lf_dynarray_iterate σ func a = Ret (visit func bs (0, a))).
Proof.
  intros [pos Hinv]%array_reachable. split_and!.
  - intros t c. destruct (array_step_ok σ pos t c Hinv) as [-> | (σ' & _ & _ & _ & -> & _)]; by eexists.
  - intros a a' x y. by apply (answers_agree σ pos).
  - intros a b off Hx. destruct (ar_answer _ _ Hinv a b off Hx) as (k & pre & Hb & _ & Hk & _ & Hoff & _). split; [apply (block_leaf σ pos Hinv b k pre Hb); lia | change (256 ^ Z.of_nat 1) with 256 in Hoff; done].
  - intros Hidle. split; [by apply (destroy_ok σ pos Hinv) | by apply (iterate_ok σ pos Hinv)].
Qed.

(** A call takes at most sixteen steps of its own thread, whatever the others do: every step brings it nearer to its end, and the others do not touch its state. *)
Theorem lf_dynarray_wait_free num σ t th : reachable num σ → threads σ !! t = Some th → (left (pc th) ≤ 16)%nat ∧ (left (pc th) = 0%nat ↔ pc th = Idle) ∧
  ∀ u c σ', step σ u c = Ret (Some σ') → ∃ th', threads σ' !! t = Some th' ∧ if decide (u = t) then pc th ≠ Idle → (left (pc th') < left (pc th))%nat else th' = th.
Proof.
  intros [pos Hinv]%array_reachable Ht. split_and!.
  - pose proof (ar_thread _ _ Hinv t th Ht) as Hok. unfold thread_ok, at_slot, on_path in Hok. destruct (pc th); cbn [left]; try lia; destruct Hok as (k & pre & _ & _ & Hl & Hk & _); lia.
  - destruct (pc th); cbn [left]; split; done || lia.
  - intros u c σ' Hstep. case_decide as Hu; [subst u |].
    + destruct (array_step_ok σ pos t c Hinv) as [E | (σ'' & th0 & th' & _ & E & Ht0 & Ht' & Hleft & _)]; [congruence |]. assert (σ'' = σ') as -> by congruence. assert (th0 = th) as -> by congruence. by exists th'.
    + exists th. split; [| done]. unfold step in Hstep. destruct (threads σ !! u) as [thu |] eqn:Hthu; [| done]. destruct (array_thread_ok σ pos u thu Hinv Hthu c) as [E | (σ1 & th1 & E & Hth1 & _)]; rewrite E in Hstep; cbn in Hstep; [done |]. injection Hstep as <-. cbn. by rewrite Hth1, list_lookup_insert_ne.
Qed.

(** ** A run *)

(** Two threads ask for the element 300 at the same time; thread 1 loses the race for the block of pointers, thread 0 the one for the leaf.  Thread 0 asks for element 301 after that. *)
Definition race_run : list (nat * choice) :=
  let c idx a := mkChoice (LValue (Z.of_nat idx)) a false in
  [(0, c 300 0); (1, c 300 0); (0, c 300 0); (1, c 300 0); (0, c 300 10); (1, c 300 20); (0, c 300 0); (1, c 300 0); (1, c 300 0);
   (0, c 300 0); (1, c 300 0); (0, c 300 30); (1, c 300 40); (1, c 300 0); (0, c 300 0); (0, c 300 0);
   (0, c 301 0); (0, c 301 0); (0, c 301 0)]%nat.

Definition state_after (cs : list (nat * choice)) (num : nat) : LF_DYNARRAY := match run cs (lf_dynarray_init num) with Ret σ => σ | _ => lf_dynarray_init num end.

Lemma array_run_reachable num cs : ∀ σ σ', reachable num σ → run cs σ = Ret σ' → reachable num σ'.
Proof. induction cs as [| [t c] cs IH]; intros σ σ' Hr Hrun; [by injection Hrun as <- |]. cbn [run] in Hrun. apply bind_Ret_inv in Hrun as (r & Hstep & Hrun). eapply IH; [| done]. destruct r as [σ1 |]; [by eapply reach_step | done]. Qed.

Lemma race_reachable : reachable 2 (state_after race_run 2).
Proof. apply (array_run_reachable 2 race_run (lf_dynarray_init 2)); [apply reach_init | vm_compute; reflexivity]. Qed.

(** Both get the same element, and the blocks are freed in the end. *)
Lemma lf_dynarray_correct_witness :
  answers (state_after race_run 2) = [(300, Some (40%nat, 44)); (300, Some (40%nat, 44)); (301, Some (40%nat, 45))] ∧ size (heap (state_after race_run 2)) = 2%nat ∧ lf_dynarray_destroy (state_after race_run 2) = Ret ∅.
Proof.
  split_and!; [vm_compute; reflexivity | vm_compute; reflexivity |]. apply (lf_dynarray_correct 2 (state_after race_run 2) race_reachable). intros t th Ht.
  assert (map pc (threads (state_after race_run 2)) = [Idle; Idle]) as E by (vm_compute; reflexivity). apply (f_equal (λ ls, ls !! t)) in E. rewrite list_lookup_fmap, Ht in E. clear Ht. destruct t as [| [| t]]; [by injection E | by injection E | done].
Defined.

(** When the size of the elements is 12 and [malloc] returns the address 32, the last element ends behind the memory of the leaf. *)
Theorem leaf_too_small : place_data 32 12 + LF_DYNARRAY_LEVEL_LENGTH * 12 = 32 + leaf_bytes 12 + 4.
Proof. reflexivity. Qed.
