(* ===== verification/LfAlloc.v ===== *)
(** * The lock-free memory allocator of the server (src/project4/mariadb/server/mysys/lf_alloc-pin.c, include/lf.h)

    Free objects are a stack that is linked through the objects themselves.  [lf_alloc_new] takes the first one with a
    compare-and-swap, which is right only when that object has not left the stack and come back since its link was read: this
    is what the pins are for.  [lf_pinbox_free] puts an object into the purgatory of the thread, a list that is linked through the same
    word of the objects, and [lf_pinbox_real_free] moves what nobody has pinned to the stack.

    The machine of this file has one access to shared memory per step, for any number of threads.  Between the operations a thread may
    write into the objects that are in use, and pin whatever it likes.  Objects are addresses; [mem] has their word at the offset
    [free_ptr_offset].  Whether there is enough room on the stack for [alloca], which decides between binary and linear search, is a choice. *)

From stdpp Require Import sorting.
From S2P Require Import Prelude Bits.

Definition LF_PINBOX_PINS : nat := 4.
Definition LF_PURGATORY_SIZE : Z := 100.

(** ** The search in the collected pins *)

(** [qsort] with [ptr_cmp]. *)
Definition sort_pins (addr : list nat) : list nat := merge_sort Nat.le addr.

(** The loop of the binary search, and the test behind it. *)
Fixpoint search_loop (fuel : nat) (addr : list nat) (cur a b : nat) : outcome (nat * nat) :=
  match fuel with
  | O => NoFuel
  | S fuel =>
      let c := (a + (b - a) / 2)%nat in
      if bool_decide (1 < b - a)%nat then
        p ← at_ addr c;
        if bool_decide (cur = p) then search_loop fuel addr cur c c
        else if bool_decide (p < cur)%nat then search_loop fuel addr cur c b
        else search_loop fuel addr cur a c
      else Ret (a, b)
  end.

Definition search_pins (addr : list nat) (cur : nat) : outcome bool :=
  if bool_decide (addr = []) then Ret false
  else
    '(a, b) ← search_loop (S (length addr)) addr cur 0 (length addr - 1);
    p ← at_ addr a;
    q ← at_ addr b;
    Ret (bool_decide (cur = p) || bool_decide (cur = q)).

(** ** State *)

(** The local variables of [lf_pinbox_real_free]: the rest of the list, the two ends of what is to be freed, and the sorted pins unless
    there was no room for them; [put] says that [lf_pinbox_put_pins] called it. *)
Record release := mkRelease {
  todo : option nat;
  ends : option (nat * nat);
  pinned : option (list nat);
  put : bool
}.

(** The points of a thread.  [N*]: [lf_alloc_new]; [Purge]: [lf_pinbox_free]; [R*]: [lf_pinbox_real_free]; [P*]: [alloc_free]. *)
Inductive alloc_pc :=
| Idle
| NRead
| NPin (node : option nat)
| NCheck (node : option nat)
| NMalloc
| NNext (node : nat)
| NCas (node : nat) (next : option nat)
| NUnpin (node : option nat)
| Purge (addr : nat)
| RStart (put : bool)
| RHarvest (granary : list nat) (i : nat) (put : bool)
| RTake (r : release)
| RMatch (r : release) (cur : nat) (i : nat)
| RFree (r : release) (cur : nat)
| RKeep (r : release) (cur : nat)
| PRead (first last : nat) (put : bool)
| PLink (first last : nat) (tmp : option nat) (put : bool)
| PCas (first last : nat) (tmp : option nat) (put : bool).

Record LF_PINS := mkPins {
  pc : alloc_pc;
  pin : list (option nat);
  purgatory : option nat;
  purgatory_count : Z
}.

(** [LF_ALLOCATOR] with the memory and the threads.  [used] has the objects that [lf_alloc_new] has returned and that have not been freed. *)
Record LF_ALLOCATOR := mkAlloc {
  mem : gmap nat (option nat);
  top : option nat;
  used : list nat;
  threads : list LF_PINS
}.

(** What a thread does between the operations. *)
Inductive request := New | Free (l : nat) | PutPins | Pin (s : nat) (p : option nat) | Write (l : nat) (v : option nat).

(** What the machine does not decide. *)
Record choice := mkChoice { c_request : request; c_addr : nat; c_word : option nat; c_fail : bool }.

Implicit Types (σ : LF_ALLOCATOR) (th : LF_PINS) (t l : nat).

Definition with_mem m σ : LF_ALLOCATOR := mkAlloc m (top σ) (used σ) (threads σ).
Definition with_top p σ : LF_ALLOCATOR := mkAlloc (mem σ) p (used σ) (threads σ).
Definition with_used ls σ : LF_ALLOCATOR := mkAlloc (mem σ) (top σ) ls (threads σ).
Definition with_thread t th σ : LF_ALLOCATOR := mkAlloc (mem σ) (top σ) (used σ) (<[t := th]> (threads σ)).

Definition goto p th : LF_PINS := mkPins p (pin th) (purgatory th) (purgatory_count th).
Definition lf_pin (s : nat) (p : option nat) th : LF_PINS := mkPins (pc th) (<[s := p]> (pin th)) (purgatory th) (purgatory_count th).
Definition with_purgatory (p : option nat) (n : Z) th : LF_PINS := mkPins (pc th) (pin th) p n.

(** [anext_node]. *)
Definition load σ l : outcome (option nat) := of_option (mem σ !! l).
Definition store σ l (v : option nat) : outcome LF_ALLOCATOR := _ ← load σ l; Ret (with_mem (<[l := v]> (mem σ)) σ).

(** The pin number [i] of the array of all pins. *)
Definition harvest σ (i : nat) : option nat :=
  th ← threads σ !! (i / LF_PINBOX_PINS)%nat; p ← pin th !! (i mod LF_PINBOX_PINS)%nat; p.

(** ** Steps *)

Definition add_to_purgatory σ th l : outcome (LF_ALLOCATOR * LF_PINS) :=
  σ ← store σ l (purgatory th);
  Ret (σ, with_purgatory (Some l) (u32 (purgatory_count th + 1)) th).

(** The return of [lf_pinbox_real_free]; [lf_pinbox_put_pins] calls it again until the purgatory is empty. *)
Definition finish th (put : bool) : LF_PINS :=
  goto (if put && negb (bool_decide (purgatory_count th = 0)) then RStart true else Idle) th.

(** The purgatory is taken as a whole once the pins are known. *)
Definition take_purgatory th (pinned : option (list nat)) (put : bool) : LF_PINS :=
  goto (RTake (mkRelease (purgatory th) None pinned put)) (with_purgatory None 0 th).

Definition with_todo p r : release := mkRelease p (ends r) (pinned r) (put r).
Definition with_ends e r : release := mkRelease (todo r) e (pinned r) (put r).

Definition new_step σ th (c : choice) (p : alloc_pc) : outcome (option (LF_ALLOCATOR * LF_PINS)) :=
  match p with
  | NRead => Ret (Some (σ, goto (NPin (top σ)) th))
  | NPin node => Ret (Some (σ, goto (NCheck node) (lf_pin 0 node th)))
  | NCheck node =>
      Ret (Some (σ, goto (if bool_decide (node = top σ) then match node with None => NMalloc | Some l => NNext l end else NRead) th))
  | NMalloc =>
      if c_fail c then Ret (Some (σ, goto (NUnpin None) th))
      else match mem σ !! c_addr c with
           | Some _ => Ret None
           | None => Ret (Some (with_mem (<[c_addr c := c_word c]> (mem σ)) σ, goto (NUnpin (Some (c_addr c))) th))
           end
  | NNext l => next ← load σ l; Ret (Some (σ, goto (NCas l next) th))
  | NCas l next =>
      Ret (Some (if bool_decide (top σ = Some l) then (with_top next σ, goto (NUnpin (Some l)) th) else (σ, goto NRead th)))
  | NUnpin node =>
      Ret (Some (match node with Some l => with_used (l :: used σ) σ | None => σ end, goto Idle (lf_pin 0 None th)))
  | _ => UB
  end.

Definition release_step σ th (c : choice) (p : alloc_pc) : outcome (LF_ALLOCATOR * LF_PINS) :=
  match p with
  | Purge l =>
      '(σ, th) ← add_to_purgatory σ th l;
      Ret (σ, goto (if bool_decide (purgatory_count th mod LF_PURGATORY_SIZE = 0) then RStart false else Idle) th)
  | RStart put => Ret (σ, if c_fail c then take_purgatory th None put else goto (RHarvest [] 0 put) th)
  | RHarvest granary i put =>
      if bool_decide (i < length (threads σ) * LF_PINBOX_PINS)%nat then
        Ret (σ, goto (RHarvest (match harvest σ i with Some p => granary ++ [p] | None => granary end) (S i) put) th)
      else Ret (σ, take_purgatory th (Some (sort_pins granary)) put)
  | RTake r =>
      match todo r with
      | None => Ret (σ, match ends r with Some (first, last) => goto (PRead first last (put r)) th | None => finish th (put r) end)
      | Some cur =>
          next ← load σ cur;
          let r := with_todo next r in
          match pinned r with
          | Some addr => found ← search_pins addr cur; Ret (σ, goto (if (found : bool) then RKeep r cur else RFree r cur) th)
          | None => Ret (σ, goto (RMatch r cur 0) th)
          end
      end
  | RMatch r cur i =>
      if bool_decide (i < length (threads σ) * LF_PINBOX_PINS)%nat then
        Ret (σ, goto (if bool_decide (harvest σ i = Some cur) then RKeep r cur else RMatch r cur (S i)) th)
      else Ret (σ, goto (RFree r cur) th)
  | RFree r cur =>
      match ends r with
      | None => Ret (σ, goto (RTake (with_ends (Some (cur, cur)) r)) th)
      | Some (first, last) => σ ← store σ last (Some cur); Ret (σ, goto (RTake (with_ends (Some (first, cur)) r)) th)
      end
  | RKeep r cur =>
      '(σ, th) ← add_to_purgatory σ th cur;
      Ret (σ, goto (RTake r) th)
  | PRead first last put => Ret (σ, goto (PLink first last (top σ) put) th)
  | PLink first last tmp put => σ ← store σ last tmp; Ret (σ, goto (PCas first last tmp put) th)
  | PCas first last tmp put =>
      if bool_decide (top σ = tmp) then Ret (with_top (Some first) σ, finish th put)
      else Ret (σ, goto (PLink first last (top σ) put) th)
  | _ => UB
  end.

Definition idle_step σ th (q : request) : outcome (option (LF_ALLOCATOR * LF_PINS)) :=
  match q with
  | New => Ret (Some (σ, goto NRead th))
  | Free l =>
      if bool_decide (l ∈ used σ) then Ret (Some (with_used (filter (λ x, x ≠ l) (used σ)) σ, goto (Purge l) th)) else Ret None
  | PutPins => Ret (Some (σ, finish th true))
  | Pin s p => Ret (Some (σ, lf_pin s p th))
  | Write l v => if bool_decide (l ∈ used σ) then σ ← store σ l v; Ret (Some (σ, th)) else Ret None
  end.

(** A step of a thread whose state is [th].  [None]: the thread cannot do this, because the object is not in use or the address of new memory is. *)
Definition thread_step σ th (c : choice) : outcome (option (LF_ALLOCATOR * LF_PINS)) :=
  match pc th with
  | Idle => idle_step σ th (c_request c)
  | NRead | NPin _ | NCheck _ | NMalloc | NNext _ | NCas _ _ | NUnpin _ => new_step σ th c (pc th)
  | _ => r ← release_step σ th c (pc th); Ret (Some r)
  end.

Definition step σ t (c : choice) : outcome (option LF_ALLOCATOR) :=
  match threads σ !! t with
  | None => Ret None
  | Some th =>
      r ← thread_step σ th c;
      match r with
      | None => Ret None
      | Some (σ', th') => Ret (Some (with_thread t th' σ'))
      end
  end.

(** [lf_alloc_init], for [n] threads that have pins. *)
Definition lf_alloc_init (n : nat) : LF_ALLOCATOR := mkAlloc ∅ None [] (replicate n (mkPins Idle (replicate LF_PINBOX_PINS None) None 0)).

Inductive reachable (n : nat) : LF_ALLOCATOR → Prop :=
| reach_init : reachable n (lf_alloc_init n)
| reach_step σ t c σ' : reachable n σ → step σ t c = Ret (Some σ') → reachable n σ'.

(** A run of given choices. *)
Fixpoint run (cs : list (nat * choice)) σ : outcome LF_ALLOCATOR :=
  match cs with
  | [] => Ret σ
  | (t, c) :: cs => r ← step σ t c; run cs (default σ r)
  end.

(** ** Functions that are not called concurrently *)

(** [lf_alloc_pool_count]. *)
Fixpoint count_loop (fuel : nat) σ (node : option nat) (i : Z) : outcome Z :=
  match fuel, node with
  | _, None => Ret i
  | O, _ => NoFuel
  | S fuel, Some l => next ← load σ l; count_loop fuel σ next (u32 (i + 1))
  end.

Definition lf_alloc_pool_count σ : outcome Z := count_loop (size (mem σ)) σ (top σ) 0.

(** [lf_alloc_destroy]: the objects of the stack are freed. *)
Fixpoint destroy_loop (fuel : nat) σ (node : option nat) : outcome LF_ALLOCATOR :=
  match fuel, node with
  | _, None => Ret (with_top None σ)
  | O, _ => NoFuel
  | S fuel, Some l => tmp ← load σ l; destroy_loop fuel (with_mem (delete l (mem σ)) σ) tmp
  end.

Definition lf_alloc_destroy σ : outcome LF_ALLOCATOR := destroy_loop (size (mem σ)) σ (top σ).
