(* ===== verification/LfAllocInv.v ===== *)
(** * The lock-free memory allocator: the invariant

    The binary search in the pins, the owner of each object of the machine of [LfAlloc], what a thread knows of its lists and of the object it is
    about to take from the stack, and when a step of one thread keeps all this. *)

From stdpp Require Import sorting.
From S2P Require Import Prelude Bits LfAlloc.

(** ** The search in the pins *)

Lemma sort_pins_elem addr l : l ∈ sort_pins addr ↔ l ∈ addr.
Proof. unfold sort_pins. by rewrite (merge_sort_Permutation Nat.le addr). Qed.

Lemma sort_pins_sorted addr : StronglySorted Nat.le (sort_pins addr).
Proof. apply StronglySorted_merge_sort; [intros x y z; lia | intros x y; lia]. Qed.

Lemma sorted_lookup ls i j x y : StronglySorted Nat.le ls → ls !! i = Some x → ls !! j = Some y → (i ≤ j)%nat → (x ≤ y)%nat.
Proof.
  intros Hs. revert i j. induction Hs as [| z ls Hs IH Hz]; intros i j Hi Hj Hij; [done |]. destruct i as [| i], j as [| j]; cbn in Hi, Hj; [by simplify_eq | | lia | by eapply (IH i j); [..| lia]].
  injection Hi as <-. eapply Forall_lookup_1 in Hz; [| done]. lia.
Qed.

(** The loop ends, and an occurrence of [cur] stays between its ends. *)
Lemma pin_search_loop_spec addr cur fuel a b : StronglySorted Nat.le addr → (a ≤ b < length addr)%nat → (b - a < fuel)%nat →
  ∃ a' b', search_loop fuel addr cur a b = Ret (a', b') ∧ (a' ≤ b' < length addr)%nat ∧ (b' - a' ≤ 1)%nat ∧
    ((∃ i, (a ≤ i ≤ b)%nat ∧ addr !! i = Some cur) → ∃ i, (a' ≤ i ≤ b')%nat ∧ addr !! i = Some cur).
Proof.
  intros Hs. revert a b. induction fuel as [| fuel IH]; intros a b Hab Hf; [lia |]. cbn [search_loop]. case_bool_decide as Hw; [| exists a, b; split_and!; [done | lia | lia | lia | done]].
  set (c := (a + (b - a) / 2)%nat). assert (a < c < b)%nat as Hc. { unfold c. pose proof (Nat.div_str_pos (b - a) 2 ltac:(lia)). pose proof (Nat.div_lt (b - a) 2 ltac:(lia) ltac:(lia)). lia. }
  destruct (lookup_lt_is_Some_2 addr c ltac:(lia)) as [p Hp]. rewrite (at_lookup _ _ _ Hp). obind. case_bool_decide as He; [| case_bool_decide as Hlt].
  - subst p. destruct (IH c c ltac:(lia) ltac:(lia)) as (a' & b' & -> & ? & ? & Hin). exists a', b'. split_and!; [done | lia | lia | lia |]. intros _. apply Hin. exists c. split; [lia | done].
  - destruct (IH c b ltac:(lia) ltac:(lia)) as (a' & b' & -> & ? & ? & Hin). exists a', b'. split_and!; [done | lia | lia | lia |]. intros (i & Hi & Hcur). apply Hin. exists i. split; [| done].
    destruct (decide (i ≤ c)%nat) as [Hic | ?]; [| lia]. pose proof (sorted_lookup _ _ _ _ _ Hs Hcur Hp Hic). lia.
  - destruct (IH a c ltac:(lia) ltac:(lia)) as (a' & b' & -> & ? & ? & Hin). exists a', b'. split_and!; [done | lia | lia | lia |]. intros (i & Hi & Hcur). apply Hin. exists i. split; [| done].
    destruct (decide (c ≤ i)%nat) as [Hic | ?]; [| lia]. pose proof (sorted_lookup _ _ _ _ _ Hs Hp Hcur Hic). lia.
Qed.

Lemma search_pins_spec addr cur : StronglySorted Nat.le addr → search_pins addr cur = Ret (bool_decide (cur ∈ addr)).
Proof.
  intros Hs. unfold search_pins. case_bool_decide as Hnil; [by subst |]. assert (0 < length addr)%nat by (destruct addr; [done | cbn; lia]).
  destruct (pin_search_loop_spec addr cur (S (length addr)) 0 (length addr - 1) Hs ltac:(lia) ltac:(lia)) as (a & b & -> & Hab & Hw & Hin). obind.
  destruct (lookup_lt_is_Some_2 addr a ltac:(lia)) as [p Hp], (lookup_lt_is_Some_2 addr b ltac:(lia)) as [q Hq]. rewrite (at_lookup _ _ _ Hp), (at_lookup _ _ _ Hq). obind. f_equal.
  destruct (decide (cur ∈ addr)) as [Hm | Hm]; [rewrite (bool_decide_true _ Hm) | rewrite (bool_decide_false _ Hm)].
  - apply list_elem_of_lookup in Hm as [i Hi]. destruct Hin as (j & Hj & Hcur); [exists i; split; [apply lookup_lt_Some in Hi; lia | done] |].
    assert (j = a ∨ j = b) as [-> | ->] by lia; simplify_eq; [by rewrite bool_decide_true |]. by rewrite (bool_decide_true (q = q)), orb_true_r.
  - rewrite !bool_decide_false; [done | intros -> | intros ->]; apply Hm; by eapply list_elem_of_lookup_2.
Qed.

(** ** Owners *)

(** Where an object is within a thread: in the rest of its list, in its hands, among what it frees, or in its purgatory. *)
Inductive place := Todo | Cur | Freed | Purg.
Inductive owner := OFree | OUsed | Mine (t : nat) (p : place).

#[global] Instance place_eq_dec : EqDecision place.
Proof. solve_decision. Defined.

#[global] Instance owner_eq_dec : EqDecision owner.
Proof. solve_decision. Defined.

Implicit Types (σ : LF_ALLOCATOR) (th : LF_PINS) (t u w l n : nat) (own : gmap nat owner) (m : gmap nat (option nat)).

(** The objects [ls], linked from [p] to [q]. *)
Fixpoint linked m (p : option nat) (ls : list nat) (q : option nat) : Prop :=
  match ls with
  | [] => p = q
  | l :: ls => p = Some l ∧ ∃ next, m !! l = Some next ∧ linked m next ls q
  end.

Lemma alloc_linked_ext m m' p ls q : linked m p ls q → (∀ l, l ∈ ls → m' !! l = m !! l) → linked m' p ls q.
Proof.
  revert p. induction ls as [| l ls IH]; intros p; cbn; [done |]. intros (-> & nx & Hl & H) Hext. split; [done |]. exists nx. split; [by rewrite Hext by (by left) |]. apply IH; [done |]. intros x Hx. apply Hext. by right.
Qed.

Lemma alloc_linked_app m p ls1 q ls2 r : linked m p ls1 q → linked m q ls2 r → linked m p (ls1 ++ ls2) r.
Proof. revert p. induction ls1 as [| l ls1 IH]; intros p; cbn; [by intros -> |]. intros (-> & nx & Hl & H) H2. split; [done |]. exists nx. split; [done |]. by apply IH. Qed.

(** The list that begins at [p] has exactly the objects of the owner [o]. *)
Definition region own m (o : owner) (p : option nat) : Prop := ∃ ls, linked m p ls None ∧ NoDup ls ∧ ∀ l, own !! l = Some o ↔ l ∈ ls.

(** The same for the objects between the two ends of what is freed. *)
Definition segment own m (o : owner) (e : option (nat * nat)) : Prop :=
  match e with
  | None => ∀ l, own !! l ≠ Some o
  | Some (first, last) => ∃ ls, linked m (Some first) ls (Some last) ∧ NoDup (ls ++ [last]) ∧ ∀ l, own !! l = Some o ↔ l ∈ ls ++ [last]
  end.

Lemma region_frame own own' m m' o p : region own m o p → (∀ l, own' !! l = Some o ↔ own !! l = Some o) → (∀ l, own !! l = Some o → m' !! l = m !! l) → region own' m' o p.
Proof. intros (ls & Hl & Hnd & Hin) Ho Hm. exists ls. split_and!; [| done |]; [apply (alloc_linked_ext m); [done |]; intros l Hls; by apply Hm, Hin | intros l; by rewrite Ho]. Qed.

Lemma segment_frame own own' m m' o e : segment own m o e → (∀ l, own' !! l = Some o ↔ own !! l = Some o) → (∀ l, own !! l = Some o → m' !! l = m !! l) → segment own' m' o e.
Proof.
  destruct e as [[f la] |]; cbn; intros H Ho Hm; [| intros l; by rewrite Ho]. destruct H as (ls & Hl & Hnd & Hin). exists ls. split_and!; [| done |]; [apply (alloc_linked_ext m); [done |]; intros l Hls; apply Hm, Hin, elem_of_app; by left | intros l; by rewrite Ho].
Qed.

Lemma region_none own m o : region own m o None ↔ ∀ l, own !! l ≠ Some o.
Proof.
  split; [| intros H; exists []; split_and!; [done | constructor |]; intros l; split; [by intros ?%H | by intros ?%elem_of_nil]].
  intros ([| x ls] & Hl & _ & Hin) l; [by intros ?%Hin%elem_of_nil | by destruct Hl].
Qed.

(** The first object leaves the list. *)
Lemma region_pop own m o l o' : region own m o (Some l) → o' ≠ o → ∃ next, m !! l = Some next ∧ own !! l = Some o ∧ region (<[l := o']> own) m o next.
Proof.
  intros (ls & Hl & Hnd & Hin) Hne. destruct ls as [| x ls]; [done |]. destruct Hl as ([= <-] & nx & Hx & Hl). apply NoDup_cons in Hnd as [Hni Hnd]. exists nx. split_and!; [done | apply Hin; by left |]. exists ls. split_and!; [done | done |].
  intros y. destruct (decide (y = l)) as [-> | Hy]; [rewrite lookup_insert_eq; naive_solver |]. rewrite lookup_insert_ne, Hin, elem_of_cons by done. naive_solver.
Qed.

(** An object is put in front of it. *)
Lemma region_push own m o l p : region own m o p → own !! l ≠ Some o → region (<[l := o]> own) (<[l := p]> m) o (Some l).
Proof.
  intros (ls & Hl & Hnd & Hin) Hno. assert (l ∉ ls) as Hni by (by rewrite <- Hin). exists (l :: ls). split_and!.
  - split; [done |]. exists p. rewrite lookup_insert_eq. split; [done |]. apply (alloc_linked_ext m); [done |]. intros x Hx. rewrite lookup_insert_ne; [done |]. by intros ->.
  - by apply NoDup_cons.
  - intros y. destruct (decide (y = l)) as [-> | Hy]; [rewrite lookup_insert_eq, elem_of_cons; naive_solver |]. rewrite lookup_insert_ne, Hin, elem_of_cons by done. naive_solver.
Qed.

(** All objects of [a] go to [b]. *)
Definition relabel (a b : owner) own : gmap nat owner := (λ o, if decide (o = a) then b else o) <$> own.

Lemma relabel_to a b own l : relabel a b own !! l = Some b ↔ own !! l = Some a ∨ own !! l = Some b.
Proof. unfold relabel. rewrite lookup_fmap. destruct (own !! l) as [o |]; [| naive_solver]. cbn. case_decide; naive_solver. Qed.

Lemma relabel_other a b own l o : o ≠ a → o ≠ b → relabel a b own !! l = Some o ↔ own !! l = Some o.
Proof. intros Ha Hb. unfold relabel. rewrite lookup_fmap. destruct (own !! l) as [o' |]; [| done]. cbn. case_decide; naive_solver. Qed.

Lemma relabel_from a b own l : a ≠ b → relabel a b own !! l ≠ Some a.
Proof. intros Hab. unfold relabel. rewrite lookup_fmap. destruct (own !! l) as [o' |]; [| done]. cbn. case_decide; naive_solver. Qed.

Lemma relabel_some a b own l : is_Some (relabel a b own !! l) ↔ is_Some (own !! l).
Proof. unfold relabel. rewrite lookup_fmap. apply fmap_is_Some. Qed.

(** ** The invariant *)

Definition release_of (p : alloc_pc) : option release :=
  match p with RTake r | RMatch r _ _ | RFree r _ | RKeep r _ => Some r | _ => None end.

Definition todo_of (p : alloc_pc) : option nat := r ← release_of p; todo r.

Definition ends_of (p : alloc_pc) : option (nat * nat) :=
  match p with PRead f la _ | PLink f la _ _ | PCas f la _ _ => Some (f, la) | _ => r ← release_of p; ends r end.

Definition cur_of (p : alloc_pc) : option nat :=
  match p with NUnpin node => node | Purge l | RMatch _ l _ | RFree _ l | RKeep _ l => Some l | _ => None end.

(** The object that the thread will take from the stack if it is still the first. *)
Definition node_of (p : alloc_pc) : option nat := match p with NNext l | NCas l _ => Some l | _ => None end.

(** The lists of the thread [t]. *)
Record local own m t th : Prop := {
  lo_pins : length (pin th) = LF_PINBOX_PINS;
  lo_todo : region own m (Mine t Todo) (todo_of (pc th));
  lo_ends : segment own m (Mine t Freed) (ends_of (pc th));
  lo_purg : region own m (Mine t Purg) (purgatory th);
  lo_cur : ∀ l, own !! l = Some (Mine t Cur) ↔ cur_of (pc th) = Some l;
  lo_sorted : ∀ r addr, release_of (pc th) = Some r → pinned r = Some addr → StronglySorted Nat.le addr;
  lo_link : match pc th with PCas _ la tmp _ => m !! la = Some tmp | _ => True end
}.

(** What a thread that is about to take an object knows: the object is pinned and not on its way to the stack, hence has been on the stack without a change if it is there. *)
Definition safe own m th : Prop :=
  match pc th with
  | NCheck node => pin th !! 0%nat = Some node
  | NNext l => pin th !! 0%nat = Some (Some l) ∧ is_Some (own !! l) ∧ ∀ u, own !! l ≠ Some (Mine u Freed)
  | NCas l next => pin th !! 0%nat = Some (Some l) ∧ is_Some (own !! l) ∧ (∀ u, own !! l ≠ Some (Mine u Freed)) ∧ (own !! l = Some OFree → m !! l = Some next)
  | _ => True
  end.

(** The thread [u], whose state is [th], has seen or will see that the thread [t] has pinned [l]. *)
Definition sees own u th t l : Prop :=
  let listed := ∀ r addr, release_of (pc th) = Some r → pinned r = Some addr → own !! l = Some (Mine u Todo) → l ∈ addr in
  match pc th with
  | RHarvest granary i _ => own !! l = Some (Mine u Purg) → l ∈ granary ∨ (i ≤ t * LF_PINBOX_PINS)%nat
  | RTake _ | RKeep _ _ => listed
  | RMatch _ cur i => listed ∧ (l = cur → (i ≤ t * LF_PINBOX_PINS)%nat)
  | RFree _ cur => listed ∧ l ≠ cur
  | _ => True
  end.

Record alloc_inv σ own : Prop := {
  in_dom : ∀ l, is_Some (own !! l) ↔ is_Some (mem σ !! l);
  in_free : region own (mem σ) OFree (top σ);
  in_used : NoDup (used σ) ∧ ∀ l, own !! l = Some OUsed ↔ l ∈ used σ;
  in_mine : ∀ l t p, own !! l = Some (Mine t p) → (t < length (threads σ))%nat;
  in_local : ∀ t th, threads σ !! t = Some th → local own (mem σ) t th;
  in_safe : ∀ t th, threads σ !! t = Some th → safe own (mem σ) th;
  in_sees : ∀ u thu t th l, threads σ !! u = Some thu → threads σ !! t = Some th → node_of (pc th) = Some l → sees own u thu t l
}.

(** ** Steps of one thread *)

Lemma alloc_safe_node own m th l : safe own m th → node_of (pc th) = Some l → pin th !! 0%nat = Some (Some l) ∧ is_Some (own !! l) ∧ ∀ u, own !! l ≠ Some (Mine u Freed).
Proof. unfold safe. destruct (pc th); cbn; try done; intros H [= ->]; tauto. Qed.

(** What another thread sees does not depend on changes among the objects that are not its own. *)
Lemma sees_ext own own' u th t l : (∀ p, own' !! l = Some (Mine u p) ↔ own !! l = Some (Mine u p)) → sees own u th t l → sees own' u th t l.
Proof. intros Ho. unfold sees. destruct (pc th); cbn; try done; pose proof (Ho Todo); pose proof (Ho Purg); naive_solver. Qed.

(** A thread that is not releasing has nothing to see. *)
Lemma sees_free own u th t l : own !! l = Some OFree → (∀ x, cur_of (pc th) = Some x → own !! x = Some (Mine u Cur)) → sees own u th t l.
Proof. intros Hl Hc. unfold sees. destruct (pc th); cbn in *; try done; rewrite Hl; try split; try done; intros ->; by rewrite (Hc _ eq_refl) in Hl. Qed.

Section step.
Context σ own t th (Hinv : alloc_inv σ own) (Ht : threads σ !! t = Some th).
Context σ' th' own' (Hths : threads σ' = threads σ).

(** The conditions under which a step of [t] keeps the invariant: its own lists are in order again, the lists of the others are not touched, and an object goes to the
    stack, or on the way to it, only if nobody is about to take it. *)
Lemma inv_step :
  (∀ l, is_Some (own' !! l) ↔ is_Some (mem σ' !! l)) →
  (∀ l, is_Some (own !! l) → is_Some (own' !! l)) →
  region own' (mem σ') OFree (top σ') →
  (NoDup (used σ') ∧ ∀ l, own' !! l = Some OUsed ↔ l ∈ used σ') →
  (∀ u p l, u ≠ t → own' !! l = Some (Mine u p) ↔ own !! l = Some (Mine u p)) →
  (∀ u p l, u ≠ t → own !! l = Some (Mine u p) → mem σ' !! l = mem σ !! l) →
  (∀ l, own' !! l = Some (Mine t Freed) → own !! l = Some (Mine t Freed) ∨ ∀ u thu, threads σ !! u = Some thu → node_of (pc thu) ≠ Some l) →
  (∀ l, own' !! l = Some OFree → (own !! l = Some OFree ∧ mem σ' !! l = mem σ !! l) ∨ own !! l = Some (Mine t Freed)) →
  local own' (mem σ') t th' →
  safe own' (mem σ') th' →
  (∀ l, node_of (pc th') = Some l → own' !! l = Some OFree ∨ node_of (pc th) = Some l) →
  (∀ u thu l, u ≠ t → threads σ !! u = Some thu → node_of (pc thu) = Some l → sees own' t th' u l) →
  alloc_inv (with_thread t th' σ') own'.
Proof using Hinv Ht Hths.
  intros Hdom Hsome Hfree Hused Hother Hmem Hfreed Hpush Hlocal Hsafe Hnode Hsees. pose proof Hinv as [Jdom Jfree Jused Jmine Jlocal Jsafe Jsees]. pose proof (lookup_lt_Some _ _ _ Ht) as Htl.
  split; cbn [mem top used threads with_thread]; rewrite ?Hths; try done.
  - intros l u p Hl. rewrite length_insert. destruct (decide (u = t)) as [-> | Hne]; [done |]. by apply (Jmine l u p), Hother.
  - intros u thu Hu. destruct (decide (u = t)) as [-> | Hne]; [rewrite list_lookup_insert_eq in Hu by done; by simplify_eq |]. rewrite list_lookup_insert_ne in Hu by done. destruct (Jlocal u thu Hu) as [L1 L2 L3 L4 L5 L6 L7]. split; try done.
    + apply (region_frame own _ (mem σ)); [done | intros l; by apply Hother | intros l; by apply Hmem].
    + apply (segment_frame own _ (mem σ)); [done | intros l; by apply Hother | intros l; by apply Hmem].
    + apply (region_frame own _ (mem σ)); [done | intros l; by apply Hother | intros l; by apply Hmem].
    + intros l. rewrite Hother by done. apply L5.
    + destruct (pc thu) eqn:E; try done. rewrite (Hmem u Freed); [done | done |]. destruct L3 as (ls & _ & _ & Hin). apply Hin, elem_of_app. right. by left.
  - intros u thu Hu. destruct (decide (u = t)) as [-> | Hne]; [rewrite list_lookup_insert_eq in Hu by done; by simplify_eq |]. rewrite list_lookup_insert_ne in Hu by done. specialize (Jsafe u thu Hu).
    assert (∀ l, node_of (pc thu) = Some l → is_Some (own' !! l) ∧ ∀ w, own' !! l ≠ Some (Mine w Freed)) as Hn.
    { intros l Hl. destruct (alloc_safe_node _ _ _ _ Jsafe Hl) as (_ & Hs & Hf). split; [by apply Hsome |]. intros w Hw. destruct (decide (w = t)) as [-> | Hwt]; [| by apply (Hf w), Hother].
      destruct (Hfreed l Hw) as [H | H]; [by apply (Hf t) | by apply (H u thu)]. }
    unfold safe in *. destruct (pc thu) as [| | | | | l | l nx | | | | | | | | | | |]; try done; [split; [apply Jsafe | by apply Hn] |]. split_and!; [apply Jsafe | by apply Hn | by apply Hn |]. destruct Jsafe as (_ & _ & Hf & Hlk).
    intros [[H1 ->] | H1]%Hpush; [by apply Hlk | by apply Hf in H1].
  - intros u thu w thw l Hu Hw Hl. destruct (decide (u = t)) as [-> | Hut]; [rewrite list_lookup_insert_eq in Hu by done | rewrite list_lookup_insert_ne in Hu by done];
      (destruct (decide (w = t)) as [-> | Hwt]; [rewrite list_lookup_insert_eq in Hw by done | rewrite list_lookup_insert_ne in Hw by done]); simplify_eq.
    + unfold sees. by destruct (pc thu).
    + by eapply Hsees.
    + destruct (Hnode l Hl) as [Hf | Hn]; [| eapply sees_ext; [intros p; by apply Hother | by eapply Jsees]]. apply sees_free; [done |]. intros x Hx. apply Hother; [done |]. by apply (lo_cur _ _ _ _ (Jlocal u thu Hu)).
    + eapply sees_ext; [intros p; by apply Hother | by eapply Jsees].
Qed.
End step.

Lemma insert_other own l o x y : own !! l ≠ Some x → o ≠ x → <[l := o]> own !! y = Some x ↔ own !! y = Some x.
Proof. intros Hl Ho. destruct (decide (y = l)) as [-> | Hy]; [rewrite lookup_insert_eq; naive_solver | by rewrite lookup_insert_ne]. Qed.

Section moves.
Context σ own t th (Hinv : alloc_inv σ own) (Ht : threads σ !! t = Some th).

(** Nothing changes but the thread. *)
Lemma inv_goto th' : local own (mem σ) t th' → safe own (mem σ) th' → (∀ l, node_of (pc th') = Some l → own !! l = Some OFree ∨ node_of (pc th) = Some l) →
  (∀ u thu l, u ≠ t → threads σ !! u = Some thu → node_of (pc thu) = Some l → sees own t th' u l) → alloc_inv (with_thread t th' σ) own.
Proof using Hinv Ht. intros Hl Hs Hn Hsee. pose proof Hinv as []. by apply (inv_step σ own t th); auto. Qed.

(** An object goes to or from this thread, and words of its objects change. *)
Lemma inv_move l o o' σ' th' :
  own !! l = Some o → (∀ u p, o = Mine u p → u = t) → (∀ u p, o' = Mine u p → u = t) → o' ≠ OFree →
  (o' = Mine t Freed → ∀ u thu, threads σ !! u = Some thu → node_of (pc thu) ≠ Some l) →
  threads σ' = threads σ →
  (∀ y, is_Some (mem σ' !! y) ↔ is_Some (mem σ !! y)) →
  (∀ y, (∀ p, own !! y ≠ Some (Mine t p)) → mem σ' !! y = mem σ !! y) →
  region (<[l := o']> own) (mem σ') OFree (top σ') →
  (NoDup (used σ') ∧ ∀ y, <[l := o']> own !! y = Some OUsed ↔ y ∈ used σ') →
  local (<[l := o']> own) (mem σ') t th' → safe (<[l := o']> own) (mem σ') th' → node_of (pc th') = None →
  (∀ u thu y, u ≠ t → threads σ !! u = Some thu → node_of (pc thu) = Some y → sees (<[l := o']> own) t th' u y) →
  alloc_inv (with_thread t th' σ') (<[l := o']> own).
Proof using Hinv Ht.
  intros Hl Ho Ho' Hnf Hfr Hths Hdom Hmem Hfree Hused Hlocal Hsafe Hnode Hsees. pose proof (in_dom _ _ Hinv) as Jdom. apply (inv_step σ own t th); try done.
  - intros y. rewrite Hdom, <- Jdom. destruct (decide (y = l)) as [-> | Hy]; [rewrite lookup_insert_eq, Hl; split; by eexists | by rewrite lookup_insert_ne].
  - intros y Hy. destruct (decide (y = l)) as [-> | ?]; [rewrite lookup_insert_eq; by eexists | by rewrite lookup_insert_ne].
  - intros u p y Hu. apply insert_other; [rewrite Hl; intros [= ->]; by apply Hu, (Ho u p) | intros ->; by apply Hu, (Ho' u p)].
  - intros u p y Hu Hy. apply Hmem. intros q. rewrite Hy. congruence.
  - intros y Hy. destruct (decide (y = l)) as [-> | Hyl]; [rewrite lookup_insert_eq in Hy; right; apply Hfr; congruence | left; by rewrite lookup_insert_ne in Hy].
  - intros y Hy. destruct (decide (y = l)) as [-> | Hyl]; [rewrite lookup_insert_eq in Hy; congruence |]. rewrite lookup_insert_ne in Hy by done. left. split; [done |]. apply Hmem. intros p. by rewrite Hy.
  - rewrite Hnode. done.
Qed.

(** The thread goes on with the same lists. *)
Lemma local_same own0 m th' : local own0 m t th → length (pin th') = length (pin th) → purgatory th' = purgatory th → todo_of (pc th') = todo_of (pc th) → ends_of (pc th') = ends_of (pc th) → cur_of (pc th') = cur_of (pc th) →
  (∀ r, release_of (pc th') = Some r → ∃ r0, release_of (pc th) = Some r0 ∧ pinned r = pinned r0) → match pc th' with PCas _ la tmp _ => m !! la = Some tmp | _ => True end → local own0 m t th'.
Proof using. intros [] E1 E2 E3 E4 E5 Hr Hl. split; rewrite ?E1, ?E2, ?E3, ?E4; try done; [intros l; by rewrite E5 |]. intros r addr (r0 & H0 & Ep)%Hr. rewrite Ep. by apply lo_sorted0. Qed.
End moves.
