(* ===== verification/LfAllocSpec.v ===== *)
(** * The lock-free memory allocator: no object is in two places

    Every step of the machine of [LfAlloc] keeps the invariant of [LfAllocInv].  Hence at any time every object is on the stack of free objects, in use, or with one
    thread, and nothing of this is lost or damaged by a compare-and-swap that sees an address again. *)

From stdpp Require Import sorting.
From S2P Require Import Prelude Bits LfAlloc LfAllocInv.

Implicit Types (σ : LF_ALLOCATOR) (th : LF_PINS) (t u w l n : nat) (own : gmap nat owner) (m : gmap nat (option nat)).

(** The invariant holds after a step of [t]. *)
Definition kept t σ' th' : Prop := ∃ own', alloc_inv (with_thread t th' σ') own'.

Definition ok_or_waits t (r : outcome (option (LF_ALLOCATOR * LF_PINS))) : Prop := r = Ret None ∨ ∃ σ' th', r = Ret (Some (σ', th')) ∧ kept t σ' th'.

Section steps.
Context σ own t th (Hinv : alloc_inv σ own) (Ht : threads σ !! t = Some th).

Lemma mine : local own (mem σ) t th.
Proof using Hinv Ht. by apply (in_local _ _ Hinv). Qed.

Lemma alloc_known : safe own (mem σ) th.
Proof using Hinv Ht. by apply (in_safe _ _ Hinv t). Qed.

Lemma seen u thu l : threads σ !! u = Some thu → node_of (pc thu) = Some l → sees own t th u l.
Proof using Hinv Ht. intros. by apply (in_sees _ _ Hinv t th u thu). Qed.

Lemma stored l : is_Some (own !! l) → ∃ v, load σ l = Ret v ∧ ∀ v', store σ l v' = Ret (with_mem (<[l := v']> (mem σ)) σ).
Proof using Hinv. intros [v Hv]%(in_dom _ _ Hinv). exists v. unfold store, load. rewrite Hv. done. Qed.

Lemma insert_some m l v y : is_Some (m !! l) → is_Some (<[l := v]> m !! y) ↔ is_Some (m !! y).
Proof using. intros Hl. destruct (decide (y = l)) as [-> | ?]; [rewrite lookup_insert_eq; split; [done | by eexists] | by rewrite lookup_insert_ne]. Qed.

(** The thread goes on with the same lists. *)
Lemma kept_goto th' : pin th' = pin th → purgatory th' = purgatory th → todo_of (pc th') = todo_of (pc th) → ends_of (pc th') = ends_of (pc th) → cur_of (pc th') = cur_of (pc th) →
  (∀ r, release_of (pc th') = Some r → ∃ r0, release_of (pc th) = Some r0 ∧ pinned r = pinned r0) → match pc th' with PCas _ la tmp _ => mem σ !! la = Some tmp | _ => True end → safe own (mem σ) th' →
  (∀ l, node_of (pc th') = Some l → own !! l = Some OFree ∨ node_of (pc th) = Some l) →
  (∀ u thu l, u ≠ t → threads σ !! u = Some thu → node_of (pc thu) = Some l → sees own t th' u l) → kept t σ th'.
Proof using Hinv Ht.
  intros E1 E2 E3 E4 E5 E6 Hl Hs Hn Hsee. exists own. apply (inv_goto σ own t th); try done. eapply local_same; [apply mine | by rewrite E1 | done..].
Qed.

(** ** [lf_alloc_new] *)

Lemma top_free l : top σ = Some l → own !! l = Some OFree.
Proof using Hinv. intros Htop. pose proof (in_free _ _ Hinv) as (ls & Hls & _ & Hin). rewrite Htop in Hls. destruct ls as [| x ls]; [done |]. destruct Hls as ([= <-] & _). apply Hin. by left. Qed.

Lemma check_ok node : pc th = NCheck node → kept t σ (goto (if bool_decide (node = top σ) then match node with None => NMalloc | Some l => NNext l end else NRead) th).
Proof using Hinv Ht.
  intros E. pose proof alloc_known as Hk. unfold safe in Hk. rewrite E in Hk. case_bool_decide as Htop; [destruct node as [l |] |]; apply kept_goto; cbn; rewrite ?E; try done.
  - unfold safe. cbn. by rewrite (top_free l).
  - intros l' [= <-]. left. by apply top_free.
Qed.

Lemma malloc_ok a v : pc th = NMalloc → mem σ !! a = None → kept t (with_mem (<[a := v]> (mem σ)) σ) (goto (NUnpin (Some a)) th).
Proof using Hinv Ht.
  intros E Ha. pose proof Hinv as [Jdom Jfree Jused Jmine Jlocal Jsafe Jsees]. pose proof mine as [L1 L2 L3 L4 L5 L6 L7]. rewrite E in *.
  assert (own !! a = None) as Hown. { apply eq_None_not_Some. rewrite Jdom, Ha. by intros [? ?]. }
  assert (∀ o y, Mine t Cur ≠ o → <[a := Mine t Cur]> own !! y = Some o ↔ own !! y = Some o) as Hi by (intros; apply insert_other; congruence).
  assert (∀ o y, own !! y = Some o → <[a := v]> (mem σ) !! y = mem σ !! y) as Hm by (intros o y Hy; apply lookup_insert_ne; congruence).
  exists (<[a := Mine t Cur]> own). apply (inv_step σ own t th); cbn; try done.
  - intros y. destruct (decide (y = a)) as [-> | ?]; [by rewrite !lookup_insert_eq; split; eexists | by rewrite !lookup_insert_ne].
  - intros y Hy. destruct (decide (y = a)) as [-> | ?]; [by rewrite lookup_insert_eq; eexists | by rewrite lookup_insert_ne].
  - eapply region_frame; [done | intros y; by apply Hi | intros y; by apply Hm].
  - split; [apply Jused |]. intros y. rewrite Hi by done. apply Jused.
  - intros u p y Hu. apply Hi. congruence.
  - intros u p y _. by apply Hm.
  - intros y Hy. left. by apply Hi in Hy.
  - intros y Hy. left. apply Hi in Hy; [| done]. split; [done | by eapply Hm].
  - split; cbn; try done.
    + eapply region_frame; [done | intros y; by apply Hi | intros y; by apply Hm].
    + intros y. by rewrite Hi.
    + eapply region_frame; [done | intros y; by apply Hi | intros y; by apply Hm].
    + intros y. cbn in L5. destruct (decide (y = a)) as [-> | ?]; [by rewrite lookup_insert_eq |]. rewrite lookup_insert_ne, L5 by done. naive_solver.
Qed.

Lemma next_ok l : pc th = NNext l → ∃ next, load σ l = Ret next ∧ kept t σ (goto (NCas l next) th).
Proof using Hinv Ht.
  intros E. pose proof alloc_known as Hk. unfold safe in Hk. rewrite E in Hk. destruct Hk as (Hp & Hs & Hf). destruct (stored l Hs) as (v & Hl & _). exists v. split; [done |]. unfold load in Hl. destruct (mem σ !! l) eqn:El; [| done]. injection Hl as ->.
  apply kept_goto; cbn; rewrite ?E; try done. intros l' [= <-]. by right.
Qed.

(** The compare-and-swap of [lf_alloc_new]: when [l] is the first object again, or still, its link is the one that was read. *)
Lemma cas_ok l next : pc th = NCas l next → top σ = Some l → kept t (with_top next σ) (goto (NUnpin (Some l)) th).
Proof using Hinv Ht.
  intros E Htop. pose proof alloc_known as Hk. unfold safe in Hk. rewrite E in Hk. destruct Hk as (_ & _ & _ & Hnx). pose proof (in_free _ _ Hinv) as Hfree. rewrite Htop in Hfree. destruct (region_pop _ _ _ _ (Mine t Cur) Hfree ltac:(done)) as (nx & Hnx' & Hl & Hpop).
  rewrite (Hnx Hl) in Hnx'. injection Hnx' as <-. pose proof mine as [L1 L2 L3 L4 L5 L6 L7]. rewrite E in *.
  assert (∀ o y, Mine t Cur ≠ o → OFree ≠ o → <[l := Mine t Cur]> own !! y = Some o ↔ own !! y = Some o) as Hi by (intros; apply insert_other; congruence).
  exists (<[l := Mine t Cur]> own). eapply (inv_move σ own t th Hinv Ht l OFree); try done; [congruence | |].
  - pose proof (in_used _ _ Hinv) as [Hnd Hin]. split; [done |]. intros y. by rewrite Hi, Hin.
  - split; cbn; try done.
    + eapply region_frame; [done | intros y; by apply Hi | done].
    + intros y. by rewrite Hi.
    + eapply region_frame; [done | intros y; by apply Hi | done].
    + intros y. cbn in L5. destruct (decide (y = l)) as [-> | ?]; [by rewrite lookup_insert_eq |]. rewrite lookup_insert_ne, L5 by done. naive_solver.
Qed.

Lemma unpin_ok node : pc th = NUnpin node → kept t (match node with Some l => with_used (l :: used σ) σ | None => σ end) (goto Idle (lf_pin 0 None th)).
Proof using Hinv Ht.
  intros E. pose proof mine as [L1 L2 L3 L4 L5 L6 L7]. rewrite E in *. assert (length (<[0%nat := None]> (pin th)) = LF_PINBOX_PINS) as Hpins by (by rewrite length_insert). destruct node as [l |].
  - assert (own !! l = Some (Mine t Cur)) as Hl by (by apply L5). assert (∀ o y, Mine t Cur ≠ o → OUsed ≠ o → <[l := OUsed]> own !! y = Some o ↔ own !! y = Some o) as Hi by (intros; apply insert_other; congruence).
    exists (<[l := OUsed]> own). eapply (inv_move σ own t th Hinv Ht l (Mine t Cur)); try done; [congruence | | |].
    + eapply region_frame; [apply Hinv | intros y; by apply Hi | done].
    + pose proof (in_used _ _ Hinv) as [Hnd Hin]. cbn. split; [apply NoDup_cons; split; [rewrite <- Hin; congruence | done] |]. intros y. destruct (decide (y = l)) as [-> | Hy]; [rewrite lookup_insert_eq, elem_of_cons; naive_solver |].
      rewrite lookup_insert_ne, Hin, elem_of_cons by done. naive_solver.
    + split; cbn; try done.
      * eapply region_frame; [done | intros y; by apply Hi | done].
      * intros y. by rewrite Hi.
      * eapply region_frame; [done | intros y; by apply Hi | done].
      * intros y. destruct (decide (y = l)) as [-> | Hy]; [by rewrite lookup_insert_eq |]. rewrite lookup_insert_ne, L5 by done. cbn. naive_solver.
  - exists own. apply (inv_goto σ own t th); try done.
Qed.

Lemma new_ok c : match pc th with NRead | NPin _ | NCheck _ | NMalloc | NNext _ | NCas _ _ | NUnpin _ => True | _ => False end → ok_or_waits t (new_step σ th c (pc th)).
Proof using Hinv Ht.
  intros Hpc. destruct (pc th) as [| | node | node | | l | l nx | node | | | | | | | | | |] eqn:E; try done; clear Hpc; cbn [new_step].
  - right. eexists _, _. split; [done |]. apply kept_goto; cbn; rewrite ?E; done.
  - right. eexists _, _. split; [done |]. exists own. pose proof mine as [L1 L2 L3 L4 L5 L6 L7]. rewrite E in *. apply (inv_goto σ own t th); cbn; try done.
    + split; cbn; try done. by rewrite length_insert.
    + unfold safe. cbn. rewrite list_lookup_insert_eq; [done |]. rewrite L1. unfold LF_PINBOX_PINS. lia.
  - right. eexists _, _. split; [done |]. by apply check_ok.
  - destruct (c_fail c); [right; eexists _, _; split; [done |]; apply kept_goto; cbn; rewrite ?E; done |]. destruct (mem σ !! c_addr c) eqn:Ea; [by left |]. right. eexists _, _. split; [done |]. by apply malloc_ok.
  - destruct (next_ok l E) as (next & -> & H). right. by eexists _, _.
  - right. case_bool_decide as Htop; eexists _, _; (split; [done |]); [by apply cas_ok | apply kept_goto; cbn; rewrite ?E; done].
  - right. eexists _, _. split; [done |]. by apply unpin_ok.
Qed.

(** ** [lf_pinbox_free] and [lf_pinbox_real_free] *)

(** The object in the hands of the thread goes to its purgatory. *)
Lemma alloc_purge_ok l p' : cur_of (pc th) = Some l → todo_of p' = todo_of (pc th) → ends_of p' = ends_of (pc th) → cur_of p' = None → release_of p' = release_of (pc th) → node_of p' = None →
  match p' with PCas _ _ _ _ | NCheck _ => False | _ => True end →
  (∀ own' u thu y (k : Z), own' !! y = Some (Mine t Todo) ↔ own !! y = Some (Mine t Todo) → threads σ !! u = Some thu → node_of (pc thu) = Some y → sees own' t (goto p' (with_purgatory (Some l) k th)) u y) →
  ∃ σ' th', add_to_purgatory σ th l = Ret (σ', th') ∧ purgatory_count th' = u32 (purgatory_count th + 1) ∧ kept t σ' (goto p' th').
Proof using Hinv Ht.
  intros Hcur Et Ee Ec Er En Hp Hsees. pose proof mine as [L1 L2 L3 L4 L5 L6 L7]. assert (own !! l = Some (Mine t Cur)) as Hl by (by apply L5). destruct (stored l ltac:(by rewrite Hl)) as (v & Hload & Hstore). unfold add_to_purgatory. rewrite Hstore. obind.
  eexists _, _. split; [done |]. split; [done |]. assert (∀ o y, Mine t Cur ≠ o → Mine t Purg ≠ o → <[l := Mine t Purg]> own !! y = Some o ↔ own !! y = Some o) as Hi by (intros; apply insert_other; congruence).
  assert (∀ o y, o ≠ Mine t Cur → own !! y = Some o → <[l := purgatory th]> (mem σ) !! y = mem σ !! y) as Hm by (intros o y Ho Hy; apply lookup_insert_ne; congruence).
  exists (<[l := Mine t Purg]> own). eapply (inv_move σ own t th Hinv Ht l (Mine t Cur)); cbn; try done.
  - congruence.
  - congruence.
  - intros y. apply insert_some, (in_dom _ _ Hinv). by rewrite Hl.
  - intros y Hy. apply lookup_insert_ne. intros ->. by apply (Hy Cur).
  - eapply region_frame; [apply Hinv | intros y; by apply Hi | intros y; by apply Hm].
  - split; [apply Hinv |]. intros y. rewrite Hi by done. apply Hinv.
  - split; cbn; rewrite ?Et, ?Ee, ?Ec, ?Er; try done.
    + eapply region_frame; [done | intros y; by apply Hi | intros y; by apply Hm].
    + eapply segment_frame; [done | intros y; by apply Hi | intros y; by apply Hm].
    + apply region_push; [done | congruence].
    + intros y. destruct (decide (y = l)) as [-> | ?]; [by rewrite lookup_insert_eq |]. rewrite lookup_insert_ne, L5, Hcur by done. naive_solver.
    + by destruct p'.
  - unfold safe. cbn. by destruct p'.
  - intros u thu y _ Hu Hy. eapply Hsees; [by apply Hi | done | done].
Qed.

(** The purgatory becomes the list to go through. *)
Lemma take_ok addr put : release_of (pc th) = None → todo_of (pc th) = None → ends_of (pc th) = None → cur_of (pc th) = None → (∀ ls, addr = Some ls → StronglySorted Nat.le ls) →
  (∀ u thu l ls, threads σ !! u = Some thu → node_of (pc thu) = Some l → addr = Some ls → own !! l = Some (Mine t Purg) → l ∈ ls) → kept t σ (take_purgatory th addr put).
Proof using Hinv Ht.
  intros Er Et Ee Ec Hsort Hin. pose proof mine as [L1 L2 L3 L4 L5 L6 L7]. rewrite Et, ?Ee, ?Ec in *. pose proof (proj1 (region_none _ _ _) L2) as Hno. set (own' := relabel (Mine t Purg) (Mine t Todo) own).
  assert (∀ o y, o ≠ Mine t Purg → o ≠ Mine t Todo → own' !! y = Some o ↔ own !! y = Some o) as Hi by (intros; by apply relabel_other).
  assert (∀ y, own' !! y = Some (Mine t Todo) ↔ own !! y = Some (Mine t Purg)) as Ht'. { intros y. unfold own'. rewrite relabel_to. specialize (Hno y). tauto. }
  exists own'. pose proof Hinv as [Jdom Jfree Jused Jmine Jlocal Jsafe Jsees]. apply (inv_step σ own t th); cbn; try done.
  - intros y. unfold own'. by rewrite relabel_some.
  - intros y. unfold own'. by rewrite relabel_some.
  - eapply region_frame; [done | intros y; by apply Hi | done].
  - split; [apply Jused |]. intros y. rewrite Hi by done. apply Jused.
  - intros u p y Hu. apply Hi; congruence.
  - intros y Hy. left. by apply Hi in Hy.
  - intros y Hy. left. by apply Hi in Hy.
  - split; cbn; try done.
    + destruct L4 as (ls & Hls & Hnd & Hin'). exists ls. split_and!; [done | done |]. intros y. by rewrite Ht'.
    + intros y. rewrite Hi by done. apply L3.
    + apply region_none. intros y. by apply relabel_from.
    + intros y. rewrite Hi by done. apply L5.
    + intros r ls [= <-]. apply Hsort.
  - intros u thu y _ Hu Hy. unfold sees. cbn. intros r ls [= <-] Hr Hy'. apply Ht' in Hy'. by eapply Hin.
Qed.

(** The pin that protects [l] is among those that are read. *)
Lemma harvest_pin u thu l : threads σ !! u = Some thu → node_of (pc thu) = Some l → harvest σ (u * LF_PINBOX_PINS) = Some l ∧ (u * LF_PINBOX_PINS < length (threads σ) * LF_PINBOX_PINS)%nat.
Proof using Hinv.
  intros Hu Hl. destruct (alloc_safe_node _ _ _ _ (in_safe _ _ Hinv u thu Hu) Hl) as (Hp & _ & _). pose proof (lookup_lt_Some _ _ _ Hu). unfold harvest. rewrite Nat.div_mul, Nat.Div0.mod_mul by done. rewrite Hu. cbn. rewrite Hp. split; [done |]. unfold LF_PINBOX_PINS. lia.
Qed.

Lemma alloc_harvest_ok granary i put : pc th = RHarvest granary i put →
  kept t σ (goto (RHarvest (match harvest σ i with Some p => granary ++ [p] | None => granary end) (S i) put) th).
Proof using Hinv Ht.
  intros E. apply kept_goto; cbn; rewrite ?E; try done. intros u thu l _ Hu Hl. pose proof (seen u thu l Hu Hl) as Hsee. unfold sees in *. cbn. rewrite E in Hsee. intros Ho.
  destruct (Hsee Ho) as [Hin | Hle]; [left; destruct (harvest σ i); [apply elem_of_app; by left | done] |]. destruct (decide (i = u * LF_PINBOX_PINS)%nat) as [-> | Hne]; [| right; lia].
  destruct (harvest_pin u thu l Hu Hl) as [-> _]. left. apply elem_of_app. right. by left.
Qed.

Lemma harvested_ok granary i put : pc th = RHarvest granary i put → (length (threads σ) * LF_PINBOX_PINS ≤ i)%nat → kept t σ (take_purgatory th (Some (sort_pins granary)) put).
Proof using Hinv Ht.
  intros E Hi. apply take_ok; rewrite ?E; try done; [intros ls [= <-]; apply sort_pins_sorted |]. intros u thu l ls Hu Hl [= <-] Ho. apply sort_pins_elem. pose proof (seen u thu l Hu Hl) as Hsee. unfold sees in Hsee. rewrite E in Hsee.
  destruct (Hsee Ho) as [Hin | Hle]; [done |]. pose proof (harvest_pin u thu l Hu Hl) as [_ ?]. lia.
Qed.

(** The next object of the list is looked at. *)
Lemma next_cur r cur next p' : pc th = RTake r → todo r = Some cur → load σ cur = Ret next → release_of p' = Some (with_todo next r) → cur_of p' = Some cur → node_of p' = None → ends_of p' = ends r →
  match p' with PCas _ _ _ _ | NCheck _ => False | _ => True end →
  (∀ own' u thu y, (own' !! y = Some (Mine t Todo) → own !! y = Some (Mine t Todo)) → own !! cur = Some (Mine t Todo) → threads σ !! u = Some thu → node_of (pc thu) = Some y → sees own' t (goto p' th) u y) → kept t σ (goto p' th).
Proof using Hinv Ht.
  intros E Et Hload Er Ec En Ee Hp Hsees. pose proof mine as [L1 L2 L3 L4 L5 L6 L7]. rewrite E in *. cbn in L2, L3, L5. rewrite Et in L2. destruct (region_pop _ _ _ _ (Mine t Cur) L2 ltac:(done)) as (nx & Hnx & Hcur & Hpop). unfold load in Hload. rewrite Hnx in Hload. injection Hload as ->.
  assert (∀ o y, Mine t Cur ≠ o → Mine t Todo ≠ o → <[cur := Mine t Cur]> own !! y = Some o ↔ own !! y = Some o) as Hi by (intros; apply insert_other; congruence).
  exists (<[cur := Mine t Cur]> own). eapply (inv_move σ own t th Hinv Ht cur (Mine t Todo)); cbn; try done.
  - congruence.
  - congruence.
  - eapply region_frame; [apply Hinv | intros y; by apply Hi | done].
  - split; [apply Hinv |]. intros y. rewrite Hi by done. apply Hinv.
  - split; cbn; rewrite ?Ee, ?Ec; try done.
    + unfold todo_of. by rewrite Er.
    + eapply segment_frame; [done | intros y; by apply Hi | done].
    + eapply region_frame; [done | intros y; by apply Hi | done].
    + intros y. destruct (decide (y = cur)) as [-> | ?]; [by rewrite lookup_insert_eq |]. rewrite lookup_insert_ne, L5 by done. naive_solver.
    + intros r' addr Hr'. rewrite Er in Hr'. injection Hr' as <-. intros Ha. by apply (L6 r).
    + by destruct p'.
  - unfold safe. cbn. by destruct p'.
  - intros u thu y _ Hu Hy. apply (Hsees _ u thu y); try done. destruct (decide (y = cur)) as [-> | ?]; [rewrite lookup_insert_eq; congruence | by rewrite lookup_insert_ne].
Qed.

Lemma take_step_ok r c : pc th = RTake r → ∃ σ' th', release_step σ th c (RTake r) = Ret (σ', th') ∧ kept t σ' th'.
Proof using Hinv Ht.
  intros E. pose proof mine as [L1 L2 L3 L4 L5 L6 L7]. rewrite E in *. cbn in L2. cbn [release_step]. destruct (todo r) as [cur |] eqn:Et.
  - destruct (region_pop _ _ _ _ (Mine t Cur) L2 ltac:(done)) as (nx & Hnx & Hcur & _). assert (load σ cur = Ret nx) as Hload by (unfold load; by rewrite Hnx). rewrite Hload. obind. cbn zeta. change (pinned (with_todo nx r)) with (pinned r).
    assert (∀ u thu y, threads σ !! u = Some thu → node_of (pc thu) = Some y → ∀ addr, pinned r = Some addr → own !! y = Some (Mine t Todo) → y ∈ addr) as Hlisted.
    { intros u thu y Hu Hy addr Ha Ho. pose proof (seen u thu y Hu Hy) as Hsee. unfold sees in Hsee. rewrite E in Hsee. by eapply Hsee. }
    destruct (pinned r) as [addr |] eqn:Ep.
    + rewrite search_pins_spec by (by apply (L6 r)). obind. eexists _, _. split; [done |]. case_bool_decide as Hin; (apply (next_cur r cur nx); [done.. |]); intros own' u thu y Ho Ho' Hu Hy; unfold sees; cbn.
      * intros r' a [= <-] Ha Hy'. cbn in Ha. apply (Hlisted u thu y Hu Hy a); [congruence | by apply Ho].
      * split; [intros r' a [= <-] Ha Hy'; cbn in Ha; apply (Hlisted u thu y Hu Hy a); [congruence | by apply Ho] |]. intros ->. apply Hin. by apply (Hlisted u thu cur Hu Hy).
    + eexists _, _. split; [done |]. apply (next_cur r cur nx); [done.. |]. intros own' u thu y Ho Ho' Hu Hy. unfold sees. cbn. split; [intros r' a [= <-] Ha; cbn in Ha; congruence | lia].
  - eexists _, _. split; [done |]. destruct (ends r) as [[f la] |] eqn:Ee; [apply kept_goto; cbn; rewrite ?E, ?Et, ?Ee; done |]. unfold finish. destruct (put r && _); apply kept_goto; cbn; rewrite ?E; cbn; rewrite ?Et, ?Ee; done.
Qed.

Lemma match_ok r cur i c : pc th = RMatch r cur i → ∃ σ' th', release_step σ th c (RMatch r cur i) = Ret (σ', th') ∧ kept t σ' th'.
Proof using Hinv Ht.
  intros E. cbn [release_step]. case_bool_decide as Hi; eexists _, _; (split; [done |]); [case_bool_decide as Hh |]; (apply kept_goto; cbn; rewrite ?E; try done; [by eexists |]); intros u thu l _ Hu Hl; pose proof (seen u thu l Hu Hl) as Hsee; unfold sees in *;
    rewrite E in Hsee; cbn in *; destruct Hsee as [Hlisted Hle]; [done | split; [done |] | split; [done |]].
  - intros ->. specialize (Hle eq_refl). destruct (decide (i = u * LF_PINBOX_PINS)%nat) as [-> | Hne]; [| lia]. by destruct (harvest_pin u thu cur Hu Hl) as [? _].
  - intros ->. specialize (Hle eq_refl). pose proof (harvest_pin u thu cur Hu Hl) as [_ ?]. lia.
Qed.

(** An object that nobody is about to take is added to those that are freed. *)
Lemma alloc_free_ok r cur c : pc th = RFree r cur → ∃ σ' th', release_step σ th c (RFree r cur) = Ret (σ', th') ∧ kept t σ' th'.
Proof using Hinv Ht.
  intros E. pose proof mine as [L1 L2 L3 L4 L5 L6 L7]. assert (∀ u thu, threads σ !! u = Some thu → node_of (pc thu) ≠ Some cur) as Hnone.
  { intros u thu Hu Hl. pose proof (seen u thu cur Hu Hl) as Hsee. unfold sees in Hsee. rewrite E in Hsee. by destruct Hsee. }
  rewrite E in *. cbn in L2, L3, L5. assert (own !! cur = Some (Mine t Cur)) as Hcur by (by apply L5).
  assert (∀ o y, Mine t Cur ≠ o → Mine t Freed ≠ o → <[cur := Mine t Freed]> own !! y = Some o ↔ own !! y = Some o) as Hi by (intros; apply insert_other; congruence).
  assert (∀ m' e, (∀ y, is_Some (m' !! y) ↔ is_Some (mem σ !! y)) → (∀ y o, o ≠ Mine t Freed → own !! y = Some o → m' !! y = mem σ !! y) → segment (<[cur := Mine t Freed]> own) m' (Mine t Freed) e →
    kept t (with_mem m' σ) (goto (RTake (with_ends e r)) th)) as Hgo.
  { intros m' e Hdom Hm Hseg. exists (<[cur := Mine t Freed]> own). eapply (inv_move σ own t th Hinv Ht cur (Mine t Cur)); cbn; try done; [congruence | congruence | | | | |].
    - intros y Hy. destruct (own !! y) as [o |] eqn:Eo; [by eapply Hm; [| done]; intros ->; apply (Hy Freed) |]. apply eq_None_not_Some in Eo. rewrite (in_dom _ _ Hinv) in Eo. pose proof (Hdom y). destruct (m' !! y), (mem σ !! y); naive_solver.
    - eapply region_frame; [apply Hinv | intros y; by apply Hi | intros y; by apply Hm].
    - split; [apply Hinv |]. intros y. rewrite Hi by done. apply Hinv.
    - split; cbn; try done.
      + eapply region_frame; [done | intros y; by apply Hi | intros y; by apply Hm].
      + eapply region_frame; [done | intros y; by apply Hi | intros y; by apply Hm].
      + intros y. destruct (decide (y = cur)) as [-> | ?]; [by rewrite lookup_insert_eq |]. rewrite lookup_insert_ne, L5 by done. naive_solver.
      + intros r' addr [= <-]. by apply (L6 r).
    - intros u thu y _ Hu Hy. pose proof (seen u thu y Hu Hy) as Hsee. unfold sees in *. rewrite E in Hsee. destruct Hsee as [Hlisted _]. cbn in *. intros r' addr [= <-] Ha Ho. apply (Hlisted r addr); [done | done |]. by apply Hi. }
  cbn [release_step]. destruct (ends r) as [[f la] |] eqn:Ee.
  - destruct L3 as (ls & Hls & Hnd & Hin). assert (own !! la = Some (Mine t Freed)) as Hla by (apply Hin, elem_of_app; right; by left). assert (cur ∉ ls ++ [la]) as Hnc by (rewrite <- Hin; congruence).
    destruct (stored la ltac:(by rewrite Hla)) as (v & _ & Hst). rewrite Hst. obind. eexists _, _. split; [done |]. apply Hgo.
    + intros y. apply insert_some, (in_dom _ _ Hinv). by rewrite Hla.
    + intros y o Ho Hy. apply lookup_insert_ne. congruence.
    + exists (ls ++ [la]). split_and!.
      * eapply alloc_linked_app; [eapply alloc_linked_ext; [exact Hls |] |].
        -- intros y Hy. apply lookup_insert_ne. intros ->. apply NoDup_app in Hnd as (_ & Hd & _). apply (Hd y Hy). by left.
        -- split; [done |]. exists (Some cur). by rewrite lookup_insert_eq.
      * apply NoDup_app. split_and!; [done | intros y Hy ->%list_elem_of_singleton; by apply Hnc | apply NoDup_singleton].
      * intros y. destruct (decide (y = cur)) as [-> | ?]; [rewrite lookup_insert_eq, elem_of_app; split; [intros _; right; by left | done] |]. rewrite lookup_insert_ne, Hin, (elem_of_app (ls ++ [la])), list_elem_of_singleton by done. naive_solver.
  - eexists _, _. split; [done |]. cut (kept t (with_mem (mem σ) σ) (goto (RTake (with_ends (Some (cur, cur)) r)) th)); [by destruct σ |]. apply Hgo; [done | done |]. exists []. split_and!; [done | apply NoDup_singleton |].
    intros y. cbn. rewrite list_elem_of_singleton. destruct (decide (y = cur)) as [-> | ?]; [by rewrite lookup_insert_eq |]. rewrite lookup_insert_ne by done. specialize (L3 y). naive_solver.
Qed.

(** ** [alloc_free] *)

Lemma link_ok f la tmp put c : pc th = PLink f la tmp put → ∃ σ' th', release_step σ th c (PLink f la tmp put) = Ret (σ', th') ∧ kept t σ' th'.
Proof using Hinv Ht.
  intros E. pose proof mine as [L1 L2 L3 L4 L5 L6 L7]. rewrite E in *. cbn in L2, L3, L5. destruct L3 as (ls & Hls & Hnd & Hin). assert (own !! la = Some (Mine t Freed)) as Hla by (apply Hin, elem_of_app; right; by left).
  cbn [release_step]. destruct (stored la ltac:(by rewrite Hla)) as (v & _ & Hst). rewrite Hst. obind. eexists _, _. split; [done |]. exists own. pose proof Hinv as [Jdom Jfree Jused Jmine Jlocal Jsafe Jsees].
  assert (∀ y o, o ≠ Mine t Freed → own !! y = Some o → <[la := tmp]> (mem σ) !! y = mem σ !! y) as Hm by (intros y o Ho Hy; apply lookup_insert_ne; congruence). apply (inv_step σ own t th); cbn; try done.
  - intros y. rewrite Jdom. symmetry. apply insert_some, Jdom. by rewrite Hla.
  - eapply region_frame; [done | done | intros y; by apply Hm].
  - intros u p y Hu Hy. eapply Hm; [| done]. congruence.
  - intros y Hy. by left.
  - intros y Hy. left. split; [done |]. by apply (Hm y OFree).
  - split; cbn; try done.
    + eapply region_frame; [done | done | intros y; by apply Hm].
    + exists ls. split_and!; [| done | done]. eapply alloc_linked_ext; [done |]. intros y Hy. apply lookup_insert_ne. intros ->. apply NoDup_app in Hnd as (_ & Hd & _). apply (Hd y Hy). by left.
    + eapply region_frame; [done | done | intros y; by apply Hm].
    + by rewrite lookup_insert_eq.
Qed.

(** What is freed becomes the beginning of the stack. *)
Lemma push_ok f la put : pc th = PCas f la (top σ) put → kept t (with_top (Some f) σ) (finish th put).
Proof using Hinv Ht.
  intros E. pose proof mine as [L1 L2 L3 L4 L5 L6 L7]. rewrite E in *. cbn in L2, L3, L5. destruct L3 as (ls & Hls & Hnd & Hin). pose proof Hinv as [Jdom (fr & Hfr & Hnf & Hinf) Jused Jmine Jlocal Jsafe Jsees].
  set (own' := relabel (Mine t Freed) OFree own). assert (∀ o y, o ≠ Mine t Freed → o ≠ OFree → own' !! y = Some o ↔ own !! y = Some o) as Hi by (intros; by apply relabel_other).
  assert (∀ y, own' !! y = Some OFree ↔ own !! y = Some (Mine t Freed) ∨ own !! y = Some OFree) as Hf by (intros y; apply relabel_to). exists own'. apply (inv_step σ own t th); cbn; try done.
  - intros y. unfold own'. by rewrite relabel_some.
  - intros y. unfold own'. by rewrite relabel_some.
  - exists ((ls ++ [la]) ++ fr). split_and!.
    + eapply alloc_linked_app; [| exact Hfr]. eapply alloc_linked_app; [done |]. split; [done |]. by exists (top σ).
    + apply NoDup_app. split_and!; [done | | done]. intros y Hy Hy'. apply Hin in Hy. apply Hinf in Hy'. congruence.
    + intros y. rewrite Hf, Hin, Hinf, (elem_of_app (ls ++ [la])). done.
  - split; [apply Jused |]. intros y. rewrite Hi by done. apply Jused.
  - intros u p y Hu. apply Hi; congruence.
  - intros y Hy. by apply relabel_from in Hy.
  - intros y [Hy | Hy]%Hf; [by right | by left].
  - unfold finish. destruct (put && _); (split; cbn; try done; [| | | intros y; rewrite Hi by done; apply L5]);
      [eapply region_frame; [done | intros y; by apply Hi | done] | intros y; by apply relabel_from | eapply region_frame; [done | intros y; by apply Hi | done] |
       eapply region_frame; [done | intros y; by apply Hi | done] | intros y; by apply relabel_from | eapply region_frame; [done | intros y; by apply Hi | done]].
  - unfold finish, safe. by destruct (put && _).
  - unfold finish. by destruct (put && _).
  - intros u thu y _ Hu Hy. unfold finish, sees. by destruct (put && _).
Qed.

Lemma alloc_release_ok c : (match pc th with Purge _ | RStart _ | RHarvest _ _ _ | RTake _ | RMatch _ _ _ | RFree _ _ | RKeep _ _ | PRead _ _ _ | PLink _ _ _ _ | PCas _ _ _ _ => True | _ => False end) →
  ∃ σ' th', release_step σ th c (pc th) = Ret (σ', th') ∧ kept t σ' th'.
Proof using Hinv Ht.
  intros Hpc. destruct (pc th) eqn:E; try done; clear Hpc.
  - cbn [release_step]. destruct (alloc_purge_ok addr (if bool_decide (u32 (purgatory_count th + 1) mod LF_PURGATORY_SIZE = 0) then RStart false else Idle)) as (σ' & th' & -> & Hc & Hk); rewrite ?E; try done; try (by case_bool_decide). obind. eexists _, _. split; [done |]. by rewrite Hc.
  - cbn [release_step]. eexists _, _. split; [done |]. destruct (c_fail c); [apply take_ok; rewrite ?E; done |]. apply kept_goto; cbn; rewrite ?E; try done. intros u thu l _ Hu Hl. unfold sees. cbn. lia.
  - cbn [release_step]. case_bool_decide as Hi; eexists _, _; (split; [done |]); [by apply alloc_harvest_ok | eapply harvested_ok; [done | lia]].
  - by apply take_step_ok.
  - by apply match_ok.
  - by apply alloc_free_ok.
  - cbn [release_step]. destruct (alloc_purge_ok cur (RTake r)) as (σ' & th' & -> & Hc & Hk); rewrite ?E; try done; [| obind; by eexists _, _]. intros own' u thu y k Ho Hu Hy. pose proof (seen u thu y Hu Hy) as Hsee. unfold sees in *. rewrite E in Hsee. cbn in *.
    intros r' addr Hr Ha Hy'. apply (Hsee r' addr Hr Ha). by apply Ho.
  - cbn [release_step]. eexists _, _. split; [done |]. apply kept_goto; cbn; rewrite ?E; done.
  - by apply link_ok.
  - cbn [release_step]. case_bool_decide as Htop; eexists _, _; (split; [done |]); [subst; by eapply push_ok | apply kept_goto; cbn; rewrite ?E; done].
Qed.

(** ** Between the operations *)

Lemma alloc_idle_ok q : pc th = Idle → ok_or_waits t (idle_step σ th q).
Proof using Hinv Ht.
  intros E. pose proof mine as [L1 L2 L3 L4 L5 L6 L7]. pose proof Hinv as [Jdom Jfree [Jnd Jused] Jmine Jlocal Jsafe Jsees]. destruct q as [| l | | s p | l v]; cbn [idle_step].
  - right. eexists _, _. split; [done |]. apply kept_goto; cbn; rewrite ?E; done.
  - case_bool_decide as Hl; [right | by left]. eexists _, _. split; [done |]. rewrite E in *. cbn in L5. assert (own !! l = Some OUsed) as Ho by (by apply Jused).
    assert (∀ o y, Mine t Cur ≠ o → OUsed ≠ o → <[l := Mine t Cur]> own !! y = Some o ↔ own !! y = Some o) as Hi by (intros; apply insert_other; congruence).
    exists (<[l := Mine t Cur]> own). eapply (inv_move σ own t th Hinv Ht l OUsed); cbn; try done; [congruence | | |].
    + eapply region_frame; [done | intros y; by apply Hi | done].
    + split; [by apply NoDup_filter |]. intros y. rewrite list_elem_of_filter, <- Jused. destruct (decide (y = l)) as [-> | ?]; [rewrite lookup_insert_eq; naive_solver | rewrite lookup_insert_ne by done; naive_solver].
    + split; cbn; try done; [eapply region_frame; [done | intros y; by apply Hi | done] | intros y; by rewrite Hi | eapply region_frame; [done | intros y; by apply Hi | done] |].
      intros y. destruct (decide (y = l)) as [-> | ?]; [by rewrite lookup_insert_eq |]. rewrite lookup_insert_ne, L5 by done. naive_solver.
  - right. eexists _, _. split; [done |]. unfold finish. destruct (true && _); apply kept_goto; cbn; rewrite ?E; done.
  - right. eexists _, _. split; [done |]. exists own. apply (inv_goto σ own t th Hinv Ht); cbn; rewrite ?E; try done; [| unfold safe; cbn; by rewrite E | intros; unfold sees; cbn; by rewrite E].
    rewrite E in *. split; cbn; rewrite ?length_insert, ?E; done.
  - case_bool_decide as Hl; [right | by left]. assert (own !! l = Some OUsed) as Ho by (by apply Jused). destruct (stored l ltac:(by rewrite Ho)) as (w & _ & Hst). rewrite Hst. obind. eexists _, _. split; [done |]. exists own.
    assert (∀ y o, o ≠ OUsed → own !! y = Some o → <[l := v]> (mem σ) !! y = mem σ !! y) as Hm by (intros y o Hne Hy; apply lookup_insert_ne; congruence). apply (inv_step σ own t th); cbn; try done.
    + intros y. rewrite Jdom. symmetry. apply insert_some, Jdom. by rewrite Ho.
    + eapply region_frame; [done | done | intros y; by apply Hm].
    + intros u p y _. by apply Hm.
    + intros y Hy. by left.
    + intros y Hy. left. split; [done |]. by apply (Hm y OFree).
    + split; rewrite ?E in *; try done; eapply region_frame; [done | done | intros y; by apply Hm | done | done | intros y; by apply Hm].
    + unfold safe. by rewrite E.
    + intros y. by rewrite E.
    + intros u thu y _ _ _. unfold sees. by rewrite E.
Qed.

Lemma alloc_thread_step_ok c : ok_or_waits t (thread_step σ th c).
Proof using Hinv Ht.
  unfold thread_step. destruct (pc th) eqn:E; try (rewrite <- E; apply new_ok; by rewrite E); [by apply alloc_idle_ok | ..];
    (rewrite <- E; destruct (alloc_release_ok c) as (σ' & th' & -> & Hk); [by rewrite E |]; obind; right; by eexists _, _).
Qed.
End steps.

Lemma alloc_step_ok σ own t c : alloc_inv σ own → step σ t c = Ret None ∨ ∃ σ' own', step σ t c = Ret (Some σ') ∧ alloc_inv σ' own'.
Proof.
  intros Hinv. unfold step. destruct (threads σ !! t) as [th |] eqn:Ht; [| by left]. destruct (alloc_thread_step_ok σ own t th Hinv Ht c) as [-> | (σ' & th' & -> & own' & Hk)]; obind; [by left | right; by eexists _, _].
Qed.

Lemma alloc_init_ok num : alloc_inv (lf_alloc_init num) ∅.
Proof.
  assert (∀ o, region ∅ ∅ o None) as Hno by (intros o; by apply region_none). split; cbn; try done.
  - intros l. split; by intros [? ?].
  - split; [apply NoDup_nil_2 |]. intros l. split; [done | by intros ?%elem_of_nil].
  - intros t th [-> _]%lookup_replicate. by split.
  - by intros t th [-> _]%lookup_replicate.
  - by intros u thu t th l _ [-> _]%lookup_replicate.
Qed.

Lemma alloc_reachable_inv num σ : reachable num σ → ∃ own, alloc_inv σ own.
Proof. induction 1 as [| σ t c σ' _ [own IH] Hstep]; [by exists ∅; apply alloc_init_ok |]. destruct (alloc_step_ok σ own t c IH) as [E | (σ'' & own' & E & H)]; [congruence |]. exists own'. congruence. Qed.

(** ** The functions that are not called concurrently *)

Lemma linked_size m p ls : linked m p ls None → NoDup ls → (length ls ≤ size m)%nat.
Proof.
  intros Hl Hnd. rewrite <- (size_list_to_set (C := gset nat)) by done. rewrite <- (size_dom (D := gset nat)). apply subseteq_size. intros x Hx%elem_of_list_to_set. apply elem_of_dom.
  revert p Hl. induction ls as [| l ls IH]; intros p Hl; [by apply elem_of_nil in Hx |]. destruct Hl as (-> & nx & Hnx & Hl). apply elem_of_cons in Hx as [-> | Hx]; [by eexists |]. apply NoDup_cons in Hnd as [_ Hnd]. by apply (IH Hnd Hx nx).
Qed.

Lemma count_loop_spec σ ls : ∀ fuel p i, linked (mem σ) p ls None → (length ls ≤ fuel)%nat → 0 ≤ i < 2 ^ 32 → count_loop fuel σ p i = Ret (u32 (i + Z.of_nat (length ls))).
Proof.
  induction ls as [| l ls IH]; intros fuel p i Hl Hf Hi.
  - cbn in Hl. subst p. cbn. rewrite Z.add_0_r, u32_small by done. by destruct fuel.
  - destruct Hl as (-> & nx & Hnx & Hl). cbn [length] in *. destruct fuel as [| fuel]; [lia |]. cbn [count_loop]. unfold load. rewrite Hnx. cbn [of_option]. obind. rewrite IH by (done || lia || apply Z.mod_pos_bound; lia). f_equal. unfold u32. rewrite Zplus_mod_idemp_l. f_equal. lia.
Qed.

Lemma destroy_loop_spec ls : ∀ fuel σ p, linked (mem σ) p ls None → NoDup ls → (length ls ≤ fuel)%nat →
  destroy_loop fuel σ p = Ret (with_top None (with_mem (filter (λ '(l, _), l ∉ ls) (mem σ)) σ)).
Proof.
  induction ls as [| l ls IH]; intros fuel σ p Hl Hnd Hf.
  - cbn in Hl. subst p. rewrite map_filter_id by (intros ? ? ? ?%elem_of_nil; done). destruct σ; by destruct fuel.
  - destruct Hl as (-> & nx & Hnx & Hl). apply NoDup_cons in Hnd as [Hni Hnd]. cbn [length] in *. destruct fuel as [| fuel]; [lia |]. cbn [destroy_loop]. unfold load. rewrite Hnx. cbn [of_option]. obind. rewrite IH; cbn [mem with_mem]; [| eapply alloc_linked_ext; [done |]; intros y Hy; apply lookup_delete_ne; by intros -> | done | lia].
    do 2 f_equal. unfold with_mem. cbn. f_equal. apply map_eq. intros y. apply option_eq. intros v. rewrite !map_lookup_filter_Some, lookup_delete_Some, not_elem_of_cons. naive_solver.
Qed.

(** ** The theorem *)

(** The objects of the thread [t]. *)
Definition of_thread t (o : option owner) : bool := match o with Some (Mine u _) => bool_decide (u = t) | _ => false end.

Definition held own m t : list nat := filter (λ l, of_thread t (own !! l)) (map_to_list m).*1.

Lemma elem_of_held own m t l : (∀ l, is_Some (own !! l) ↔ is_Some (m !! l)) → l ∈ held own m t ↔ ∃ p, own !! l = Some (Mine t p).
Proof.
  intros Hdom. unfold held. rewrite list_elem_of_filter. split; [intros [H _]; destruct (own !! l) as [[| | u p] |]; try done; apply bool_decide_unpack in H as ->; by exists p |]. intros [p Hp]. rewrite Hp. split; [by apply bool_decide_pack |]. destruct (proj1 (Hdom l) (mk_is_Some _ _ Hp)) as [v Hv]. apply list_elem_of_fmap. exists (l, v). split; [done |]. by apply elem_of_map_to_list.
Qed.

Lemma idle_held σ own t th : alloc_inv σ own → threads σ !! t = Some th → pc th = Idle → ∃ ls, linked (mem σ) (purgatory th) ls None ∧ ls ≡ₚ held own (mem σ) t.
Proof.
  intros Hinv Ht E. destruct (in_local _ _ Hinv t th Ht) as [L1 L2 L3 (ls & Hls & Hnd & Hin) L5 L6 L7]. rewrite E in *. cbn in L2, L3, L5. exists ls. split; [done |]. apply NoDup_Permutation; [done | apply NoDup_filter, NoDup_fst_map_to_list |].
  intros l. rewrite elem_of_held, <- Hin by apply Hinv. split; [intros H; by eexists |]. intros [[] Hp]; [by apply (proj1 (region_none _ _ _) L2) in Hp | by apply L5 in Hp | by apply L3 in Hp | done].
Qed.

(** C10: the lock-free allocator.  Whatever any number of threads allocate, free, pin and write into what they use, in any interleaving:

    - no operation reads or writes an address that is not an object;
    - the stack, the objects in use and those that the threads keep for later make up all objects, each exactly once, so that [lf_alloc_new] never returns an object
      that is in use, waits in a purgatory or stays on the stack, and no object is lost: the pins exclude the ABA problem of the stack;
    - a thread between two operations keeps exactly the objects of its purgatory;
    - when nothing runs, [lf_alloc_pool_count] counts the stack, and [lf_alloc_destroy] frees the objects of the stack and no others. *)
Theorem lf_alloc_correct num σ : reachable num σ →
  (∀ t c, ∃ r, step σ t c = Ret r) ∧
  ∃ free (kept_by : nat → list nat),
    linked (mem σ) (top σ) free None ∧
    free ++ used σ ++ (seq 0 (length (threads σ)) ≫= kept_by) ≡ₚ (map_to_list (mem σ)).*1 ∧
    (∀ t th, threads σ !! t = Some th → pc th = Idle → ∃ ls, linked (mem σ) (purgatory th) ls None ∧ ls ≡ₚ kept_by t) ∧
    lf_alloc_pool_count σ = Ret (u32 (Z.of_nat (length free))) ∧
    lf_alloc_destroy σ = Ret (with_top None (with_mem (filter (λ '(l, _), l ∉ free) (mem σ)) σ)).
Proof.
  intros [own Hinv]%alloc_reachable_inv. split; [intros t c; destruct (alloc_step_ok σ own t c Hinv) as [-> | (σ' & _ & -> & _)]; by eexists |]. pose proof Hinv as [Jdom (free & Hfree & Hnd & Hin) [Jnd Jused] Jmine _ _ _].
  exists free, (held own (mem σ)). pose proof (linked_size _ _ _ Hfree Hnd) as Hsize. split_and!; [done | | intros t th; by apply idle_held | by apply (count_loop_spec σ free) | by apply destroy_loop_spec]. apply NoDup_Permutation; [| apply NoDup_fst_map_to_list |].
  - apply NoDup_app. split_and!; [done | | apply NoDup_app; split_and!; [done | | apply NoDup_bind; [| intros t _; apply NoDup_filter, NoDup_fst_map_to_list | apply NoDup_seq]]].
    + intros l Hl. apply Hin in Hl. rewrite elem_of_app, <- Jused, list_elem_of_bind. setoid_rewrite elem_of_held; [| done]. naive_solver.
    + intros l Hl. apply Jused in Hl. rewrite list_elem_of_bind. setoid_rewrite elem_of_held; [| done]. naive_solver.
    + intros t u l _ _. rewrite !elem_of_held by done. naive_solver.
  - intros l. rewrite !elem_of_app, <- Hin, <- Jused, list_elem_of_bind, list_elem_of_fmap. setoid_rewrite elem_of_held; [| done]. setoid_rewrite elem_of_seq. split.
    + intros Hl. assert (is_Some (own !! l)) as [v Hv]%Jdom by naive_solver. exists (l, v). split; [done | by apply elem_of_map_to_list].
    + intros ([l' v] & -> & Hv%elem_of_map_to_list). destruct (proj2 (Jdom l') (mk_is_Some _ _ Hv)) as [[| | t p] Ho]; [by left | right; by left | right; right]. exists t. split; [by exists p |]. pose proof (Jmine _ _ _ Ho). lia.
Qed.

(** ** A run *)

(** [steps] steps of the thread [t], which makes the request [q] when it is idle and gets new memory at [a]. *)
Definition does (steps t : nat) (q : request) (a : nat) : list (nat * choice) := replicate steps (t, mkChoice q a None false).

(** Thread 1 allocates two objects and frees them.  Thread 0 is about to take object 1, whose link it has read, when thread 1 takes both, frees object 1 and empties its purgatory as far as it can. *)
Definition aba_run : list (nat * choice) :=
  does 6 1 New 1 ++ does 6 1 New 2 ++ does 2 1 (Free 2) 0 ++ does 2 1 (Free 1) 0 ++ does 20 1 PutPins 0 ++
  does 5 0 New 3 ++ does 7 1 New 4 ++ does 7 1 New 5 ++ does 2 1 (Free 1) 0 ++ does 16 1 PutPins 0.

Definition state_after (cs : list (nat * choice)) (num : nat) : LF_ALLOCATOR := match run cs (lf_alloc_init num) with Ret σ => σ | _ => lf_alloc_init num end.

Lemma alloc_run_reachable num cs : ∀ σ σ', reachable num σ → run cs σ = Ret σ' → reachable num σ'.
Proof. induction cs as [| [t c] cs IH]; intros σ σ' Hr Hrun; [by injection Hrun as <- |]. cbn [run] in Hrun. apply bind_Ret_inv in Hrun as (r & Hstep & Hrun). eapply IH; [| done]. destruct r as [σ1 |]; [by eapply reach_step | done]. Qed.

Lemma aba_reachable : reachable 2 (state_after aba_run 2).
Proof. apply (alloc_run_reachable 2 aba_run (lf_alloc_init 2)); [apply reach_init | vm_compute; reflexivity]. Qed.

(** In the state of this run object 1 is in the purgatory of thread 1, the stack is empty and object 2 in use. *)
Lemma lf_alloc_correct_witness :
  map pc (threads (state_after aba_run 2)) = [NCas 1 (Some 2%nat); RHarvest [1%nat] 1 true] ∧ top (state_after aba_run 2) = None ∧ used (state_after aba_run 2) = [2%nat] ∧
  ∀ t c, ∃ r, step (state_after aba_run 2) t c = Ret r.
Proof. split_and!; [vm_compute; reflexivity.. |]. apply (lf_alloc_correct 2 (state_after aba_run 2)), aba_reachable. Defined.
