(* ===== verification/LfHash.v ===== *)
(** * The lock-free hash table of the server (src/project4/mariadb/server/mysys/lf_hash.c, lf_alloc-pin.c, include/lf.h)

    A sorted list with atomic operations, into which the buckets point, and the pins that keep a node from being reused while a thread
    reads it.  This file has the machine, one access to shared memory per step, for any number of threads:

    - [l_find], [l_insert], [l_delete] and [l_search] on the list, whose links carry the mark of a deleted node;
    - [lf_hash_insert], [lf_hash_delete], [lf_hash_search] and [initialize_bucket] with its recursion;
    - [lf_pin], the purgatory of a thread and [lf_pinbox_real_free], which reads the pins of all threads one after the other.

    A node that has been freed is not in memory: an access to it is undefined, as is freeing it again, and its address can be given to a new node.  Memory
    is sequentially consistent.  [lf_alloc_new] may return any address that is not in use, which is what the theorem of [LfAllocSpec] says of the allocator;
    the buckets are a map, which is what that of [LfArraySpec] says of the dynamic array behind them.  [coll] is [my_strnncoll] of the character set and [hash_function] its hash function.

    The history of the elements and the answers of the operations are recorded for the theorems; no step depends on them. *)

From S2P Require Import Prelude Bits.

Definition LF_PINBOX_PINS : nat := 4.
Definition LF_PURGATORY_SIZE : nat := 100.
Definition INT_MAX32 : Z := 0x7FFFFFFF.

(** [LF_SLIST].  [link] has the pointer and [deleted] the last bit of the link.  [data] is the element behind the node and [key_ok] says
    that the pointer [key] leads to it: [add_to_purgatory] overwrites that pointer. *)
Record LF_SLIST (K : Type) := mkNode {
  link : option nat;
  deleted : bool;
  hashnr : Z;
  key_ok : bool;
  data : K
}.
Arguments mkNode {K}. Arguments link {K}. Arguments deleted {K}. Arguments hashnr {K}. Arguments key_ok {K}. Arguments data {K}.

(** What [cursor->prev] points to: a bucket, or the link of a node. *)
Inductive cell := Slot (b : Z) | Link (l : nat).

#[global] Instance cell_eq_dec : EqDecision cell.
Proof. solve_decision. Defined.

Inductive operation (K : Type) := Insert (k : K) | Delete (k : K) | Search (k : K) | PutPins.
Arguments Insert {K}. Arguments Delete {K}. Arguments Search {K}. Arguments PutPins {K}.

Inductive result := Inserted | Duplicate | OutOfMemory | Deleted | NotFound | Found (l : nat).

(** What a call of [l_find] is for.  [Dummy b d fs]: [initialize_bucket] inserts the node [d] for the bucket [b], called by itself for the
    buckets and nodes [fs]; [Main]: the operation itself; [Again]: the second call in [l_delete]. *)
Inductive task := Dummy (b : Z) (d : nat) (fs : list (Z * nat)) | Main | Again.

(** The parameters of [l_find] that change, and its cursor. *)
Record find := mkFind {
  f_head : cell;
  f_prev : cell;
  f_curr : option nat;
  f_next : option nat
}.

(** The points of [l_find], with its local variables. *)
Inductive find_pc :=
| FRead
| FPin1
| FCheck1
| FTop
| FKey (cur_hashnr : Z)
| FLink (cur_hashnr : Z) (cur_key : bool)
| FPin0 (cur_hashnr : Z) (cur_key : bool) (mark : bool)
| FCheck0 (cur_hashnr : Z) (cur_key : bool) (mark : bool)
| FCompare (cur_hashnr : Z) (cur_key : bool)
| FPin2 (cur_hashnr : Z)
| FHelp
| FPurge
| FAdvance.

(** The points of a thread.  [Alloc] to [CheckBucket]: the beginning of the operations; [Ib*]: [initialize_bucket]; [In*]: [l_insert];
    [De*]: [l_delete]; [Se*]: [l_search]; [FreeNode] to [CasSize]: the end of [lf_hash_insert]; [CountDown]: the end of [lf_hash_delete];
    [Held]: the caller of [lf_hash_search] uses the element; [Scan]: [lf_pinbox_real_free], after which the thread goes on. *)
Inductive lf_pc :=
| Idle
| Alloc
| ReadSize
| CheckBucket (b : Z)
| IbAlloc (b : Z) (fs : list (Z * nat))
| IbParent (b : Z) (d : nat) (fs : list (Z * nat))
| IbFree (b : Z) (d cur : nat) (fs : list (Z * nat))
| IbCas (b : Z) (d : nat) (fs : list (Z * nat))
| IbFail (b : Z) (fs : list (Z * nat))
| Find (k : task) (f : find) (p : find_pc)
| InLink (k : task) (f : find)
| InCas (k : task) (f : find)
| InUnpin (s : nat) (k : task) (dup : option nat)
| DeMark (f : find)
| DeUnlink (f : find)
| DePurge (f : find)
| DeUnpin (s : nat) (r : bool)
| SePin (found : option nat)
| SeUnpin (s : nat) (found : option nat)
| FreeNode
| ReadCsize
| CountUp (csize : Z)
| CasSize (csize : Z)
| CountDown
| Return (r : result)
| Held (l : nat)
| Scan (granary : list nat) (i : nat) (k : lf_pc).

(** [LF_PINS] and the local variables of the thread that has it; [start]: the length of the history when the operation began. *)
Record LF_PINS (K : Type) := mkPins {
  pc : lf_pc;
  op : operation K;
  bucket : Z;
  node : option nat;
  pin : list (option nat);
  purgatory : list nat;
  start : nat
}.
Arguments mkPins {K}. Arguments pc {K}. Arguments op {K}. Arguments bucket {K}. Arguments node {K}. Arguments pin {K}. Arguments purgatory {K}. Arguments start {K}.

(** An element was added to the table, or removed from it. *)
Inductive change (K : Type) := Added (t l : nat) (k : K) | Removed (t l : nat) (k : K).
Arguments Added {K}. Arguments Removed {K}.

(** The operation [a_op] of the thread [a_tid] returned [a_result]; [a_from] and [a_to] are the lengths of the history when it began and when it returned. *)
Record answer (K : Type) := mkAnswer { a_tid : nat; a_op : operation K; a_from : nat; a_to : nat; a_result : result }.
Arguments mkAnswer {K}. Arguments a_tid {K}. Arguments a_op {K}. Arguments a_from {K}. Arguments a_to {K}. Arguments a_result {K}.

(** [LF_HASH] with the memory and the threads. *)
Record LF_HASH (K : Type) := mkTable {
  heap : gmap nat (LF_SLIST K);
  array : gmap Z nat;
  h_size : Z;
  count : Z;
  threads : list (LF_PINS K);
  history : list (change K);
  answers : list (answer K)
}.
Arguments mkTable {K}. Arguments heap {K}. Arguments array {K}. Arguments h_size {K}. Arguments count {K}. Arguments threads {K}. Arguments history {K}. Arguments answers {K}.

(** What the machine does not decide: the next operation, the address and the contents of new memory, whether there is any, and what the caller does with an element. *)
Record choice (K : Type) := mkChoice { c_op : operation K; c_addr : nat; c_garbage : LF_SLIST K; c_fail : bool }.
Arguments mkChoice {K}. Arguments c_op {K}. Arguments c_addr {K}. Arguments c_garbage {K}. Arguments c_fail {K}.

Section machine.
Context {K : Type} (coll : K → K → Z) (hash_function : K → Z) (dummy_key : K) (unique : bool).
Implicit Types (σ : LF_HASH K) (th : LF_PINS K) (n : LF_SLIST K) (t l : nat).

(** ** Updates *)

Definition with_heap h σ : LF_HASH K := mkTable h (array σ) (h_size σ) (count σ) (threads σ) (history σ) (answers σ).
Definition with_array a σ : LF_HASH K := mkTable (heap σ) a (h_size σ) (count σ) (threads σ) (history σ) (answers σ).
Definition with_size s σ : LF_HASH K := mkTable (heap σ) (array σ) s (count σ) (threads σ) (history σ) (answers σ).
Definition with_count c σ : LF_HASH K := mkTable (heap σ) (array σ) (h_size σ) c (threads σ) (history σ) (answers σ).
Definition record (c : change K) σ : LF_HASH K := mkTable (heap σ) (array σ) (h_size σ) (count σ) (threads σ) (history σ ++ [c]) (answers σ).
Definition reply (a : answer K) σ : LF_HASH K := mkTable (heap σ) (array σ) (h_size σ) (count σ) (threads σ) (history σ) (answers σ ++ [a]).
Definition with_thread t th σ : LF_HASH K := mkTable (heap σ) (array σ) (h_size σ) (count σ) (<[t := th]> (threads σ)) (history σ) (answers σ).

Definition goto p th : LF_PINS K := mkPins p (op th) (bucket th) (node th) (pin th) (purgatory th) (start th).
Definition with_bucket b th : LF_PINS K := mkPins (pc th) (op th) b (node th) (pin th) (purgatory th) (start th).
Definition with_node (l : option nat) th : LF_PINS K := mkPins (pc th) (op th) (bucket th) l (pin th) (purgatory th) (start th).
Definition with_purgatory ls th : LF_PINS K := mkPins (pc th) (op th) (bucket th) (node th) (pin th) ls (start th).

(** [lf_pin] and [lf_unpin]. *)
Definition lf_pin (s : nat) (p : option nat) th : LF_PINS K :=
  mkPins (pc th) (op th) (bucket th) (node th) (<[s := p]> (pin th)) (purgatory th) (start th).

Definition set_link (p : option nat) n : LF_SLIST K := mkNode p false (hashnr n) (key_ok n) (data n).
Definition set_deleted n : LF_SLIST K := mkNode (link n) true (hashnr n) (key_ok n) (data n).
Definition set_hashnr (h : Z) n : LF_SLIST K := mkNode (link n) (deleted n) h (key_ok n) (data n).
Definition set_key (k : K) n : LF_SLIST K := mkNode (link n) (deleted n) (hashnr n) true k.
Definition clobber n : LF_SLIST K := mkNode (link n) (deleted n) (hashnr n) false (data n).

(** ** Memory *)

Definition load σ l : outcome (LF_SLIST K) := of_option (heap σ !! l).

Definition store σ l (f : LF_SLIST K → LF_SLIST K) : outcome (LF_HASH K) :=
  n ← load σ l; Ret (with_heap (<[l := f n]> (heap σ)) σ).

Definition dispose σ l : outcome (LF_HASH K) := _ ← load σ l; Ret (with_heap (delete l (heap σ)) σ).

(** The link that [cursor->prev] points to, with its mark. *)
Definition read_cell σ (c : cell) : outcome (option nat * bool) :=
  match c with
  | Slot b => Ret (array σ !! b, false)
  | Link l => n ← load σ l; Ret (link n, deleted n)
  end.

(** [my_atomic_casptr] of a link without mark. *)
Definition cas_cell σ (c : cell) (old new : option nat) : outcome (bool * LF_HASH K) :=
  v ← read_cell σ c;
  if decide (v = (old, false)) then
    match c with
    | Slot b => Ret (true, with_array (partial_alter (λ _, new) b (array σ)) σ)
    | Link l => σ ← store σ l (set_link new); Ret (true, σ)
    end
  else Ret (false, σ).

(** ** Hash numbers *)

Definition reversed (v : Z) : Z := match my_reverse_bits v with Ret r => r | _ => 0 end.

Definition hash_of (k : K) : Z := Z.land (hash_function k) INT_MAX32.

(** The place of an element in the list, and that of the dummy node of a bucket. *)
Definition element_hashnr (k : K) : Z := Z.lor (reversed (hash_of k)) 1.
Definition dummy_hashnr (b : Z) : Z := reversed b.

Definition op_key (o : operation K) : K := match o with Insert k | Delete k | Search k => k | PutPins => dummy_key end.

(** The arguments [hashnr] and [key] of [l_find]. *)
Definition target th (k : task) : Z * K :=
  match k with
  | Dummy b _ _ => (dummy_hashnr b, dummy_key)
  | Main | Again => (element_hashnr (op_key (op th)), op_key (op th))
  end.

(** ** Purgatory *)

(** [lf_pinbox_free] of the node [l], after which the thread goes on at [k]. *)
Definition lf_pinbox_free σ th l (k : lf_pc) : outcome (LF_HASH K * LF_PINS K) :=
  σ ← store σ l clobber;
  let ls := l :: purgatory th in
  Ret (σ, goto (if bool_decide (length ls mod LF_PURGATORY_SIZE = 0)%nat then Scan [] 0 k else k) (with_purgatory ls th)).

(** [harvest_pins]: the pin number [i] of the array of all pins. *)
Definition harvest σ (i : nat) : option nat :=
  th ← threads σ !! (i / LF_PINBOX_PINS)%nat; p ← pin th !! (i mod LF_PINBOX_PINS)%nat; p.

(** The loop of [lf_pinbox_real_free] over the purgatory: what is kept, and what is freed. *)
Fixpoint sort_out (granary ls kept freed : list nat) : list nat * list nat :=
  match ls with
  | [] => (kept, freed)
  | cur :: ls => if bool_decide (cur ∈ granary) then sort_out granary ls (cur :: kept) freed else sort_out granary ls kept (cur :: freed)
  end.

(** [free_func]: what is freed must be in memory, so freeing a node twice is undefined. *)
Fixpoint free_all (h : gmap nat (LF_SLIST K)) (ls : list nat) : outcome (gmap nat (LF_SLIST K)) :=
  match ls with
  | [] => Ret h
  | l :: ls => _ ← of_option (h !! l); free_all (delete l h) ls
  end.

(** ** Control *)

(** The beginning of [l_find]: its parameter [head] is a bucket. *)
Definition parent (b : Z) : Z := my_clear_highest_bit b.

Definition find_from (c : cell) : find := mkFind c c None None.

Definition l_find_start th (k : task) : LF_PINS K :=
  goto (Find k (find_from (Slot (match k with Dummy b _ _ => parent b | _ => bucket th end))) FRead) th.

(** The operation itself, once its bucket has a dummy node; the new node of an insertion gets its hash number. *)
Definition begin_main σ th : outcome (LF_HASH K * LF_PINS K) :=
  match op th with
  | Insert k =>
      l ← of_option (node th);
      σ ← store σ l (set_hashnr (element_hashnr k));
      Ret (σ, l_find_start th Main)
  | _ => Ret (σ, l_find_start th Main)
  end.

(** [initialize_bucket] goes on to insert the dummy node. *)
Definition insert_dummy σ th (b : Z) (d : nat) (fs : list (Z * nat)) : outcome (LF_HASH K * LF_PINS K) :=
  σ ← store σ d (λ n, set_hashnr (dummy_hashnr b) (set_key dummy_key n));
  Ret (σ, l_find_start th (Dummy b d fs)).

(** The return of [initialize_bucket], to itself or to the operation. *)
Definition bucket_ready σ th (fs : list (Z * nat)) : outcome (LF_HASH K * LF_PINS K) :=
  match fs with
  | [] => begin_main σ th
  | (b, d) :: fs => insert_dummy σ th b d fs
  end.

(** Its return without memory.  An insertion gives up and does not free its node; the others try the bucket before. *)
Definition bucket_failed th (b : Z) (fs : list (Z * nat)) : LF_PINS K :=
  match fs with
  | [] =>
      match op th with
      | Insert _ => goto (Return OutOfMemory) (with_node None th)
      | _ => if bool_decide (b = 0) then goto (Return NotFound) th else goto (CheckBucket (parent b)) th
      end
  | _ => goto (IbFail b fs) th
  end.

(** What follows a call of [l_find]. *)
Definition l_find_return th (k : task) (f : find) (found : bool) : LF_PINS K :=
  let insert (u : bool) := goto (if found && u then InUnpin 0 k (f_curr f) else InLink k f) th in
  match k with
  | Dummy _ _ _ => insert true
  | Again => goto (DeUnpin 0 true) th
  | Main =>
      match op th with
      | Insert _ => insert unique
      | Delete _ => goto (if found then DeMark f else DeUnpin 0 false) th
      | _ => goto (SePin (if found then f_curr f else None)) th
      end
  end.

(** What follows [l_insert]; [dup] is the node it returns. *)
Definition l_insert_return th (k : task) (dup : option nat) : LF_PINS K :=
  match k, dup with
  | Dummy b d fs, Some cur => goto (IbFree b d cur fs) th
  | Dummy b d fs, None => goto (IbCas b d fs) th
  | _, Some _ => goto FreeNode th
  | _, None => goto ReadCsize th
  end.

(** ** Steps *)

(** A step of [l_find]; [Ret (σ, th)] is the state after it. *)
Definition find_step σ th (k : task) (f : find) (p : find_pc) : outcome (LF_HASH K * LF_PINS K) :=
  let go f p := Ret (σ, goto (Find k f p) th) in
  let continue h := Ret (σ, goto (Find k f (FPin2 h)) th) in
  match p with
  | FRead =>
      '(curr, _) ← read_cell σ (f_prev f);
      go (mkFind (f_head f) (f_prev f) curr (f_next f)) FPin1
  | FPin1 => Ret (σ, goto (Find k f FCheck1) (lf_pin 1 (f_curr f) th))
  | FCheck1 =>
      v ← read_cell σ (f_prev f);
      go f (if decide (v = (f_curr f, false)) then FTop else FRead)
  | FTop =>
      match f_curr f with
      | None => Ret (σ, l_find_return th k f false)
      | Some c => n ← load σ c; go f (FKey (hashnr n))
      end
  | FKey h =>
      c ← of_option (f_curr f);
      n ← load σ c; go f (FLink h (key_ok n))
  | FLink h ok =>
      c ← of_option (f_curr f);
      n ← load σ c;
      go (mkFind (f_head f) (f_prev f) (f_curr f) (link n)) (FPin0 h ok (deleted n))
  | FPin0 h ok mark => Ret (σ, goto (Find k f (FCheck0 h ok mark)) (lf_pin 0 (f_next f) th))
  | FCheck0 h ok mark =>
      c ← of_option (f_curr f);
      n ← load σ c;
      if decide ((link n, deleted n) = (f_next f, mark)) then
        if (mark : bool) then go f FHelp
        else if bool_decide (h < (target th k).1) then continue h
        else if bool_decide ((target th k).1 < h) then Ret (σ, l_find_return th k f false)
        else go f (FCompare h ok)
      else go f (FLink h ok)
  | FCompare h ok =>
      c ← of_option (f_curr f);
      n ← load σ c;
      if (ok : bool) then
        let r := coll (data n) (target th k).2 in
        if bool_decide (0 ≤ r) then Ret (σ, l_find_return th k f (bool_decide (r = 0))) else continue h
      else UB
  | FPin2 h =>
      c ← of_option (f_curr f);
      let head := if Z.odd h then f_head f else Link c in
      Ret (σ, goto (Find k (mkFind head (Link c) (f_curr f) (f_next f)) FAdvance) (lf_pin 2 (f_curr f) th))
  | FHelp =>
      '(done, σ) ← cas_cell σ (f_prev f) (f_curr f) (f_next f);
      if (done : bool) then Ret (σ, goto (Find k f FPurge) th)
      else Ret (σ, goto (Find k (mkFind (f_head f) (f_head f) (f_curr f) (f_next f)) FRead) th)
  | FPurge =>
      c ← of_option (f_curr f);
      lf_pinbox_free σ th c (Find k f FAdvance)
  | FAdvance =>
      Ret (σ, goto (Find k (mkFind (f_head f) (f_prev f) (f_next f) (f_next f)) FTop) (lf_pin 1 (f_next f) th))
  end.

(** Steps of [l_insert], [l_delete] and [l_search] between and after their calls of [l_find]. *)
Definition list_step σ t th (p : lf_pc) : outcome (LF_HASH K * LF_PINS K) :=
  match p with
  | InLink k f =>
      l ← of_option (match k with Dummy _ d _ => Some d | _ => node th end);
      σ ← store σ l (set_link (f_curr f));
      Ret (σ, goto (InCas k f) th)
  | InCas k f =>
      l ← of_option (match k with Dummy _ d _ => Some d | _ => node th end);
      '(done, σ) ← cas_cell σ (f_prev f) (f_curr f) (Some l);
      if (done : bool) then
        match k with
        | Dummy _ _ _ => Ret (σ, goto (InUnpin 0 k None) th)
        | _ => Ret (record (Added t l (op_key (op th))) σ, goto (InUnpin 0 k None) (with_node None th))
        end
      else Ret (σ, l_find_start th k)
  | InUnpin s k dup =>
      let th := lf_pin s None th in
      Ret (σ, if bool_decide (s = 2)%nat then l_insert_return th k dup else goto (InUnpin (S s) k dup) th)
  | DeMark f =>
      c ← of_option (f_curr f);
      n ← load σ c;
      if decide ((link n, deleted n) = (f_next f, false)) then
        σ ← store σ c set_deleted;
        Ret (record (Removed t c (data n)) σ, goto (DeUnlink f) th)
      else Ret (σ, l_find_start th Main)
  | DeUnlink f =>
      '(done, σ) ← cas_cell σ (f_prev f) (f_curr f) (f_next f);
      Ret (σ, if (done : bool) then goto (DePurge f) th else l_find_start th Again)
  | DePurge f =>
      c ← of_option (f_curr f);
      lf_pinbox_free σ th c (DeUnpin 0 true)
  | DeUnpin s r =>
      let th := lf_pin s None th in
      Ret (σ, goto (if bool_decide (s = 2)%nat then if r then CountDown else Return NotFound else DeUnpin (S s) r) th)
  | SePin found => Ret (σ, goto (SeUnpin 1 found) (lf_pin 2 found th))
  | SeUnpin s found =>
      Ret (σ, goto (match s with
                    | O => Return (match found with Some l => Found l | None => NotFound end)
                    | S s => SeUnpin s found
                    end) (lf_pin s None th))
  | _ => UB
  end.

(** Steps of [initialize_bucket]. *)
Definition bucket_step σ th (c : choice K) (p : lf_pc) : outcome (option (LF_HASH K * LF_PINS K)) :=
  match p with
  | CheckBucket b =>
      match array σ !! b with
      | Some _ => r ← begin_main σ (with_bucket b th); Ret (Some r)
      | None => Ret (Some (σ, goto (IbAlloc b []) (with_bucket b th)))
      end
  | IbAlloc b fs =>
      if c_fail c then Ret (Some (σ, bucket_failed th b fs))
      else match heap σ !! c_addr c with
           | Some _ => Ret None
           | None => Ret (Some (with_heap (<[c_addr c := c_garbage c]> (heap σ)) σ, goto (IbParent b (c_addr c) fs) th))
           end
  | IbParent b d fs =>
      if bool_decide (array σ !! parent b = None ∧ b ≠ 0) then Ret (Some (σ, goto (IbAlloc (parent b) ((b, d) :: fs)) th))
      else r ← insert_dummy σ th b d fs; Ret (Some r)
  | IbFail _ ((b, d) :: fs) => σ ← dispose σ d; Ret (Some (σ, bucket_failed th b fs))
  | IbFree b d cur fs => σ ← dispose σ d; Ret (Some (σ, goto (IbCas b cur fs) th))
  | IbCas b d fs =>
      let σ := if bool_decide (array σ !! b = None) then with_array (<[b := d]> (array σ)) σ else σ in
      r ← bucket_ready σ th fs; Ret (Some r)
  | _ => UB
  end.

(** A step of the thread [t], whose state is [th].  [None]: the address of new memory is in use. *)
Definition thread_step σ t th (c : choice K) : outcome (option (LF_HASH K * LF_PINS K)) :=
  match pc th with
  | Idle =>
      let th := mkPins Idle (c_op c) 0 None (pin th) (purgatory th) (length (history σ)) in
      match c_op c with
      | Insert _ => Ret (Some (σ, goto Alloc th))
      | Delete _ | Search _ => Ret (Some (σ, goto ReadSize th))
      | PutPins => Ret (Some (σ, goto (match purgatory th with [] => Idle | _ => Scan [] 0 Idle end) th))
      end
  | Alloc =>
      if c_fail c then Ret (Some (σ, goto (Return OutOfMemory) th))
      else match heap σ !! c_addr c with
           | Some _ => Ret None
           | None => Ret (Some (with_heap (<[c_addr c := set_key (op_key (op th)) (c_garbage c)]> (heap σ)) σ, goto ReadSize (with_node (Some (c_addr c)) th)))
           end
  | ReadSize => Ret (Some (σ, goto (CheckBucket (hash_of (op_key (op th)) mod h_size σ)) th))
  | CheckBucket _ | IbAlloc _ _ | IbParent _ _ _ | IbFree _ _ _ _ | IbCas _ _ _ | IbFail _ _ => bucket_step σ th c (pc th)
  | Find k f p => r ← find_step σ th k f p; Ret (Some r)
  | InLink _ _ | InCas _ _ | InUnpin _ _ _ | DeMark _ | DeUnlink _ | DePurge _ | DeUnpin _ _ | SePin _ | SeUnpin _ _ =>
      r ← list_step σ t th (pc th); Ret (Some r)
  | FreeNode =>
      l ← of_option (node th);
      r ← lf_pinbox_free σ (with_node None th) l (Return Duplicate); Ret (Some r)
  | ReadCsize => Ret (Some (σ, goto (CountUp (h_size σ)) th))
  | CountUp csize =>
      Ret (Some (with_count (count σ + 1) σ, goto (if bool_decide (csize < count σ + 1) then CasSize csize else Return Inserted) th))
  | CasSize csize =>
      twice ← int_op (csize * 2);
      Ret (Some (if bool_decide (h_size σ = csize) then with_size twice σ else σ, goto (Return Inserted) th))
  | CountDown => Ret (Some (with_count (count σ - 1) σ, goto (Return Deleted) th))
  | Return r =>
      Ret (Some (reply (mkAnswer t (op th) (start th) (length (history σ)) r) σ, goto (match r with Found l => Held l | _ => Idle end) th))
  | Held l =>
      if c_fail c then Ret (Some (σ, goto Idle (lf_pin 2 None th)))
      else _ ← load σ l; Ret (Some (σ, th))
  | Scan granary i k =>
      if bool_decide (i < length (threads σ) * LF_PINBOX_PINS)%nat then
        Ret (Some (σ, goto (Scan (match harvest σ i with Some p => granary ++ [p] | None => granary end) (S i) k) th))
      else
        let '(kept, freed) := sort_out granary (purgatory th) [] [] in
        h ← free_all (heap σ) freed;
        Ret (Some (with_heap h σ,
                   goto (match k, kept with Idle, _ :: _ => Scan [] 0 Idle | _, _ => k end) (with_purgatory kept th)))
  end.

Definition step σ t (c : choice K) : outcome (option (LF_HASH K)) :=
  match threads σ !! t with
  | None => Ret None
  | Some th =>
      r ← thread_step σ t th c;
      match r with
      | None => Ret None
      | Some (σ', th') => Ret (Some (with_thread t th' σ'))
      end
  end.

(** [lf_hash_init], for [n] threads that have pins. *)
Definition lf_hash_init (n : nat) : LF_HASH K :=
  mkTable ∅ ∅ 1 0 (replicate n (mkPins Idle PutPins 0 None (replicate LF_PINBOX_PINS None) [] 0)) [] [].

(** The states of a table with less than 2^30 elements, whose size can still be doubled in an [int]. *)
Inductive reachable (n : nat) : LF_HASH K → Prop :=
| reach_init : reachable n (lf_hash_init n)
| reach_step σ t c σ' : reachable n σ → count σ < 2 ^ 30 → step σ t c = Ret (Some σ') → reachable n σ'.

(** A run of given choices. *)
Fixpoint run (cs : list (nat * choice K)) σ : outcome (LF_HASH K) :=
  match cs with
  | [] => Ret σ
  | (t, c) :: cs => r ← step σ t c; run cs (default σ r)
  end.
End machine.
