(* ===== verification/LfOrder.v ===== *)
(** * The lock-free hash table: order, buckets and history

    The order of the list, the places of the dummy nodes in it, and the collection of elements that a history stands for. *)

From S2P Require Import Prelude Bits LfHash.

Section order.
Context {K : Type} (coll : K → K → Z) `{!Comparison coll} (hash_function : K → Z).
Implicit Types (r s : Z * K) (k : K).

(** ** The order of the list *)

Definition before r s : Prop := r.1 < s.1 ∨ r.1 = s.1 ∧ coll r.2 s.2 < 0.

Lemma coll_refl k : coll k k = 0.
Proof. pose proof (compare_sym k k). lia. Qed.

Lemma coll_flip x y : ¬ coll x y < 0 ↔ coll y x ≤ 0.
Proof. pose proof (compare_sym x y). lia. Qed.

Lemma coll_eq_sym x y : coll x y = 0 → coll y x = 0.
Proof. pose proof (compare_sym x y). pose proof (compare_sym y x). lia. Qed.

Lemma coll_trans_lt x y z : coll x y ≤ 0 → coll y z < 0 → coll x z < 0.
Proof.
  intros H1 H2. destruct (decide (coll x z < 0)) as [| H3]; [done |]. exfalso. apply coll_flip in H3. pose proof (compare_trans z x y H3 H1) as H4%coll_flip. lia.
Qed.

Lemma rank_before_trans r s u : before r s → before s u → before r u.
Proof. intros [H1 | [E1 H1]] [H2 | [E2 H2]]; unfold before; [lia.. |]. right. split; [lia |]. by eapply coll_trans_lt; [apply Z.lt_le_incl |]. Qed.

Lemma before_irrefl r : ¬ before r r.
Proof. intros [? | [_ H]]; [lia |]. rewrite coll_refl in H. lia. Qed.

(** [¬ before s r] is the order [r ≤ s]. *)
Lemma not_before_trans r s u : ¬ before s r → ¬ before u s → ¬ before u r.
Proof.
  intros H1 H2 [H | [E H]].
  - destruct (decide (u.1 < s.1)); [by apply H2; left |]. apply H1. left. lia.
  - destruct (decide (u.1 < s.1)); [by apply H2; left |]. destruct (decide (s.1 < r.1)); [by apply H1; left |].
    assert (¬ coll s.2 r.2 < 0) as H3 by (intros ?; apply H1; right; lia). assert (¬ coll u.2 s.2 < 0) as H4 by (intros ?; apply H2; right; lia).
    apply coll_flip in H3, H4. pose proof (compare_trans _ _ _ H3 H4) as H5%coll_flip. lia.
Qed.

Lemma before_not_before r s : before r s → ¬ before s r.
Proof. intros H1 H2. exact (before_irrefl r (rank_before_trans _ _ _ H1 H2)). Qed.

Lemma before_le_trans r s u : before r s → ¬ before u s → before r u.
Proof.
  intros H1 H2. destruct (decide (r.1 < u.1)) as [| Hn]; [by left |]. destruct H1 as [H1 | [E1 H1]].
  - exfalso. apply H2. left. lia.
  - right. assert (u.1 = s.1) as E by (destruct (decide (u.1 < s.1)); [exfalso; apply H2; by left | lia]). split; [lia |]. assert (¬ coll u.2 s.2 < 0) as H4%coll_flip by (intros ?; apply H2; right; lia).
    destruct (decide (coll r.2 u.2 < 0)) as [| H5%coll_flip]; [done |]. pose proof (compare_trans _ _ _ H4 H5) as H6%coll_flip. lia.
Qed.

Lemma le_before_trans r s u : ¬ before s r → before s u → before r u.
Proof.
  intros H1 H2. destruct (decide (r.1 < u.1)) as [| Hn]; [by left |]. assert (¬ s.1 < r.1) by (intros ?; apply H1; by left). destruct H2 as [H2 | [E2 H2]]; [lia |]. right. split; [lia |].
  apply (coll_trans_lt _ s.2); [| done]. apply coll_flip. intros ?. apply H1. right. lia.
Qed.

(** The place of an element that is [r], neither before nor after. *)
Definition same_place k r : Prop := element_hashnr hash_function k = r.1 ∧ coll k r.2 = 0.

Lemma same_place_before k r s : same_place k r → before (element_hashnr hash_function k, k) s ↔ before r s.
Proof.
  intros [E C]. pose proof (coll_eq_sym _ _ C) as C'. unfold before. cbn. rewrite E. split; intros [? | [? ?]]; try (by left); right; (split; [done |]).
  - by apply (coll_trans_lt _ k); [lia |].
  - by apply (coll_trans_lt _ r.2); [lia |].
Qed.

Lemma same_place_after k r s : same_place k r → before s (element_hashnr hash_function k, k) ↔ before s r.
Proof.
  intros [E C]. pose proof (coll_eq_sym _ _ C) as C'. unfold before. cbn. rewrite E. split; intros [? | [? H]]; try (by left); right; (split; [done |]).
  - destruct (decide (coll s.2 r.2 < 0)) as [| Hn%coll_flip]; [done |]. assert (coll k s.2 ≤ 0) as ?%coll_flip by (apply (compare_trans _ r.2); lia). lia.
  - destruct (decide (coll s.2 k < 0)) as [| Hn%coll_flip]; [done |]. assert (coll r.2 s.2 ≤ 0) as ?%coll_flip by (apply (compare_trans _ k); lia). lia.
Qed.
End order.

(** ** Buckets *)

Lemma reversed_spec v : in_u32 v → in_u32 (reversed v) ∧ ∀ i, 0 ≤ i < 32 → Z.testbit (reversed v) i = Z.testbit v (31 - i).
Proof. intros Hv. unfold reversed. destruct (my_reverse_bits_spec v Hv) as (r & -> & Hr). done. Qed.

(** A number whose bits are among those of another is not larger. *)
Lemma bits_le a b : in_u32 a → in_u32 b → (∀ i, 0 ≤ i < 32 → Z.testbit a i = true → Z.testbit b i = true) → a ≤ b.
Proof.
  intros Ha Hb Hbits. apply Z.ldiff_le; [destruct Hb; lia |]. apply Z.bits_inj'. intros i Hi. rewrite Z.ldiff_spec, Z.bits_0. destruct (decide (i < 32)) as [Hlt |].
  - destruct (Z.testbit a i) eqn:E; [rewrite (Hbits i) by (lia || done) |]; done.
  - destruct Ha. rewrite (Z.bits_above_log2 a), andb_false_l; [done | done |]. destruct (decide (a = 0)) as [-> |]; [cbn; lia |]. apply Z.log2_lt_pow2; [lia |]. apply (Z.lt_le_trans _ (2 ^ 32)); [done |]. apply Z.pow_le_mono_r; lia.
Qed.

Lemma reversed_le a b : in_u32 a → in_u32 b → (∀ i, 0 ≤ i → Z.testbit a i = true → Z.testbit b i = true) → reversed a ≤ reversed b.
Proof.
  intros Ha Hb Hbits. destruct (reversed_spec a Ha) as [Hra Ra], (reversed_spec b Hb) as [Hrb Rb]. apply bits_le; [done.. |]. intros i Hi. rewrite Ra, Rb by done. apply Hbits. lia.
Qed.

Lemma reversed_inj a b : in_u32 a → in_u32 b → reversed a = reversed b → a = b.
Proof.
  intros Ha Hb E. destruct (reversed_spec a Ha) as [_ Ra], (reversed_spec b Hb) as [_ Rb]. apply Z.le_antisymm; apply bits_le; try done; intros i Hi;
    replace i with (31 - (31 - i)) by lia; rewrite <- Ra, <- Rb by lia; by rewrite E.
Qed.

Lemma reversed_0 : reversed 0 = 0.
Proof. reflexivity. Qed.

Lemma reversed_even b : 0 ≤ b < 2 ^ 31 → Z.even (reversed b) = true.
Proof.
  intros Hb. destruct (reversed_spec b) as [_ Rb]; [unfold in_u32; lia |]. rewrite <- Z.negb_odd, <- Z.bit0_odd, Rb by lia. replace (31 - 0) with 31 by lia. destruct (decide (b = 0)) as [-> |]; [done |].
  rewrite Z.bits_above_log2; [done | lia |]. apply Z.log2_lt_pow2; lia.
Qed.

Lemma parent_0 : parent 0 = 0.
Proof. reflexivity. Qed.

Lemma parent_spec b : 0 < b < 2 ^ 31 → parent b = b - 2 ^ Z.log2 b ∧ 0 ≤ parent b < b ∧ reversed (parent b) < reversed b.
Proof.
  intros Hb. unfold parent. rewrite my_clear_highest_bit_spec by lia. pose proof (Z.log2_spec b ltac:(lia)) as [Hlo Hhi]. pose proof (Z.pow_pos_nonneg 2 (Z.log2 b) ltac:(lia) (Z.log2_nonneg b)) as Hpos.
  split; [done |]. split; [lia |]. assert (in_u32 (b - 2 ^ Z.log2 b) ∧ in_u32 b) as [Hp Hb'] by (unfold in_u32; lia).
  assert (reversed (b - 2 ^ Z.log2 b) ≤ reversed b); cycle 1.
  { assert (reversed (b - 2 ^ Z.log2 b) ≠ reversed b); [| lia]. intros E%reversed_inj; [lia | done | done]. }
  apply reversed_le; [done.. |]. intros i Hi. destruct (decide (i < Z.log2 b)) as [Hlt |].
  - rewrite <- (Z.mod_pow2_bits_low (b - _) (Z.log2 b) i), <- (Z.mod_pow2_bits_low b (Z.log2 b) i) by lia. replace (b - 2 ^ Z.log2 b) with (b + (-1) * 2 ^ Z.log2 b) by lia. rewrite Z.mod_add by lia. done.
  - intros Hbit. exfalso. destruct (decide (b - 2 ^ Z.log2 b = 0)) as [E | Hnz]; [by rewrite E, Z.bits_0 in Hbit |]. rewrite Z.bits_above_log2 in Hbit; [done | lia |].
    apply Z.log2_lt_pow2; [lia |]. apply (Z.lt_le_trans _ (2 ^ Z.log2 b)); [rewrite Z.pow_succ_r in Hhi by apply Z.log2_nonneg; lia |]. apply Z.pow_le_mono_r; lia.
Qed.

Lemma hash_of_range {K} (hash_function : K → Z) k : 0 ≤ hash_of hash_function k < 2 ^ 31.
Proof. unfold hash_of. change INT_MAX32 with (Z.ones 31). rewrite Z.land_ones by lia. apply Z.mod_pos_bound. lia. Qed.

Lemma element_odd {K} (hash_function : K → Z) k : Z.odd (element_hashnr hash_function k) = true.
Proof. unfold element_hashnr. rewrite <- Z.bit0_odd, Z.lor_spec. apply orb_true_r. Qed.

Lemma element_after {K} (hash_function : K → Z) k : reversed (hash_of hash_function k) < element_hashnr hash_function k.
Proof.
  pose proof (hash_of_range hash_function k) as Hh. pose proof (reversed_even _ Hh) as Hev. unfold element_hashnr. set (r := reversed _) in *. assert (Z.lor r 1 = r + 1) as ->; [| lia].
  apply Z.even_spec in Hev as [q ->]. assert (Z.land (2 * q) 1 = 0) as Hl by (change 1 with (Z.ones 1); rewrite Z.land_ones, Z.mul_comm by lia; apply Z.mod_mul; lia). by rewrite Z.add_nocarry_lxor, Z.lxor_lor.
Qed.

(** The bucket of a hash number, for a table of any size. *)
Lemma slot_before_element {K} (hash_function : K → Z) k j : 0 ≤ j ≤ 30 →
  0 ≤ hash_of hash_function k mod 2 ^ j < 2 ^ 31 ∧ dummy_hashnr (hash_of hash_function k mod 2 ^ j) < element_hashnr hash_function k.
Proof.
  intros Hj. pose proof (hash_of_range hash_function k) as Hh. set (h := hash_of hash_function k) in *. pose proof (Z.mod_pos_bound h (2 ^ j) ltac:(apply Z.pow_pos_nonneg; lia)) as Hm. pose proof (Z.mod_le h (2 ^ j) ltac:(lia) ltac:(apply Z.pow_pos_nonneg; lia)) as Hle.
  split; [lia |]. apply (Z.le_lt_trans _ (reversed h)); [| apply element_after]. apply reversed_le; [unfold in_u32; lia.. |]. intros i Hi. destruct (decide (i < j)); [by rewrite Z.mod_pow2_bits_low by lia | by rewrite Z.mod_pow2_bits_high by lia].
Qed.

(** ** History *)

Section history.
Context {K : Type} (coll : K → K → Z) (hash_function : K → Z).
Implicit Types (h : list (change K)).

Definition apply_change (m : gmap nat K) (c : change K) : gmap nat K :=
  match c with Added _ l k => <[l := k]> m | Removed _ l _ => delete l m end.

(** The elements in the table after a history, by the address of their node. *)
Definition contents h : gmap nat K := foldl apply_change ∅ h.

Definition tid (c : change K) : nat := match c with Added t _ _ | Removed t _ _ => t end.

(** The changes that a thread made. *)
Definition mine (t : nat) h : list (change K) := filter (λ c, tid c = t) h.

Definition absent (m : gmap nat K) (k : K) : Prop := ∀ l d, m !! l = Some d → coll d k ≠ 0.

Lemma contents_snoc h c : contents (h ++ [c]) = apply_change (contents h) c.
Proof. unfold contents. by rewrite foldl_app. Qed.

Lemma mine_app t h h' : mine t (h ++ h') = mine t h ++ mine t h'.
Proof. apply filter_app. Qed.
End history.

Arguments contents : simpl never.
Arguments mine : simpl never.
