(* ===== verification/LfInv.v ===== *)
(** * The lock-free hash table: the invariant

    The memory is divided: a node is in the list, private to a thread that will insert it, retired by a thread that has unlinked it or given
    it up, or lost.  A thread that stands on a node has it in one of its pins, early enough for any thread that wants to
    free the node to find it; this file has these statements and the proof that the steps of other threads do not affect them. *)

From S2P Require Import Prelude Bits LfHash LfOrder.

Inductive owner := Chain | Private (t : nat) | Retired (t : nat) | Lost.

Section invariant.
Context {K : Type} (coll : K → K → Z) `{!Comparison coll} (hash_function : K → Z) (dummy_key : K) (unique : bool).
Implicit Types (σ : LF_HASH K) (th : LF_PINS K) (n m : LF_SLIST K) (t l : nat) (ns : list nat) (own : gmap nat owner) (tg : Z * K).

Abbreviation before := (before coll).
Abbreviation element_hashnr := (element_hashnr hash_function).
Abbreviation target := (target hash_function dummy_key).
Abbreviation op_key := (op_key dummy_key).
Abbreviation absent := (absent coll).

Definition rank n : Z * K := (hashnr n, data n).

(** ** The list *)

Fixpoint chain (h : gmap nat (LF_SLIST K)) (p : option nat) ns : Prop :=
  match ns with
  | [] => p = None
  | l :: ns => p = Some l ∧ ∃ n, h !! l = Some n ∧ chain h (link n) ns
  end.

Definition ordered (h : gmap nat (LF_SLIST K)) (l x : nat) : Prop := ∀ n m, h !! l = Some n → h !! x = Some m → ¬ before (rank m) (rank n).

(** A node of the list: a dummy node, which is never deleted, or an element. *)
Definition well_formed n : Prop :=
  key_ok n = true ∧ 0 ≤ hashnr n ∧ (Z.even (hashnr n) = true → deleted n = false ∧ data n = dummy_key) ∧ (Z.even (hashnr n) = false → hashnr n = element_hashnr (data n)).

(** A change that the table [m] allows. *)
Definition legal (m : gmap nat K) (c : change K) : Prop :=
  match c with
  | Added _ l k => m !! l = None ∧ (unique = true → absent m k)
  | Removed _ l k => m !! l = Some k
  end.

Record shape σ ns own : Prop := {
  s_nodup : NoDup ns;
  s_chain : chain (heap σ) (array σ !! 0) ns;
  s_sorted : StronglySorted (ordered (heap σ)) ns;
  s_nodes l n : l ∈ ns → heap σ !! l = Some n → well_formed n;
  s_own l : own !! l = Some Chain ↔ l ∈ ns;
  s_dom l : is_Some (own !! l) ↔ is_Some (heap σ !! l);
  s_slots b d : array σ !! b = Some d → 0 ≤ b < 2 ^ 31 ∧ ∃ n, heap σ !! d = Some n ∧ own !! d = Some Chain ∧ hashnr n = dummy_hashnr b;
  s_contents l k : contents (history σ) !! l = Some k ↔ ∃ n, own !! l = Some Chain ∧ heap σ !! l = Some n ∧ deleted n = false ∧ Z.odd (hashnr n) = true ∧ data n = k;
  s_history i c : history σ !! i = Some c → legal (contents (take i (history σ))) c;
  s_size : ∃ j, 0 ≤ j ≤ 30 ∧ h_size σ = 2 ^ j
}.

(** ** Pins *)

(** No thread that is reading the pins will miss the pin number [pos], if it wants to free [l]. *)
Definition covered (ths : list (LF_PINS K)) (pos l : nat) : Prop :=
  ∀ u thu granary i k, ths !! u = Some thu → pc thu = Scan granary i k → l ∈ purgatory thu → (i ≤ pos)%nat ∨ l ∈ granary.

(** A node that is in the list, or that was. *)
Definition public own l n : Prop := own !! l = Some Chain ∨ (∃ u, own !! l = Some (Retired u)) ∧ deleted n = true ∧ Z.odd (hashnr n) = true.

(** The thread [t] may use the node [l], which it has in its pin [s]. *)
Definition safe σ own t th (s l : nat) : Prop :=
  (s < LF_PINBOX_PINS)%nat ∧ pin th !! s = Some (Some l) ∧ covered (threads σ) (t * LF_PINBOX_PINS + s) l ∧ ∃ n, heap σ !! l = Some n ∧ public own l n.

(** ** What a thread knows *)

Definition is_dummy σ own (l : nat) tg : Prop := ∃ n, heap σ !! l = Some n ∧ own !! l = Some Chain ∧ Z.even (hashnr n) = true ∧ before (rank n) tg.

(** A bucket from which [l_find] can start. *)
Definition slot_ok σ own tg (b : Z) : Prop := (∃ d, array σ !! b = Some d ∧ is_dummy σ own d tg) ∨ b = 0 ∧ tg.1 = 0.

Definition head_ok σ own tg (c : cell) : Prop := match c with Slot b => slot_ok σ own tg b | Link l => is_dummy σ own l tg end.

Definition prev_ok σ own t th tg (c : cell) : Prop :=
  match c with
  | Slot b => slot_ok σ own tg b
  | Link l => is_dummy σ own l tg ∨ safe σ own t th 2 l ∧ ∃ n, heap σ !! l = Some n ∧ before (rank n) tg
  end.

(** At some time during the operation no element had the place [tg]; this is known when the list was seen to go past it. *)
Definition was_absent σ th tg : Prop :=
  ∃ i, (start th ≤ i ≤ length (history σ))%nat ∧ ∀ l k, contents (take i (history σ)) !! l = Some k → ¬ same_place coll hash_function k tg.

Definition past σ tg (x : option nat) : Prop := match x with None => True | Some c => ∀ n, heap σ !! c = Some n → before tg (rank n) end.

Definition node_seen σ own t th tg (s : nat) (x : option nat) : Prop :=
  match x with None => True | Some c => safe σ own t th s c end ∧ (past σ tg x → was_absent σ th tg).

(** At some time during the operation the element was in the table. *)
Definition was_present σ th (l : nat) (k : K) : Prop := ∃ i, (start th ≤ i ≤ length (history σ))%nat ∧ contents (take i (history σ)) !! l = Some k.

Definition no_change σ t th : Prop := mine t (drop (start th) (history σ)) = [].

(** ** The points of an operation *)

(** The node of an insertion holds the new element. *)
Definition node_ready σ th : Prop :=
  match op th with
  | Insert k => ∃ l n, node th = Some l ∧ heap σ !! l = Some n ∧ data n = k ∧ key_ok n = true
  | PutPins => False
  | _ => node th = None
  end.

Definition starting σ t th : Prop := no_change σ t th ∧ node_ready σ th.

Definition main_target th : Z * K := (element_hashnr (op_key (op th)), op_key (op th)).

Definition bucket_ok th (b : Z) : Prop := 0 ≤ b < 2 ^ 31 ∧ dummy_hashnr b < element_hashnr (op_key (op th)).

Definition was_empty σ th : Prop := ∃ i, (start th ≤ i ≤ length (history σ))%nat ∧ contents (take i (history σ)) = ∅.

(** The calls of [initialize_bucket]: the bucket [b] and those that wait for it. *)
Fixpoint stack_ok σ th (b : Z) (fs : list (Z * nat)) : Prop :=
  match fs with
  | [] => b = bucket th ∧ bucket_ok th b ∧ (b = 0 → was_empty σ th)
  | (b', _) :: fs => parent b' = b ∧ 0 < b' < 2 ^ 31 ∧ stack_ok σ th b' fs
  end.

(** The dummy node of a bucket. *)
Definition dummy_at σ own (l : nat) (b : Z) : Prop := ∃ n, heap σ !! l = Some n ∧ own !! l = Some Chain ∧ hashnr n = dummy_hashnr b.

Definition removed σ t th : Prop :=
  ∃ k l d, op th = Delete k ∧ mine t (drop (start th) (history σ)) = [Removed t l d] ∧ coll d k = 0.

Definition inserted σ t th : Prop := ∃ k l, op th = Insert k ∧ mine t (drop (start th) (history σ)) = [Added t l k].

Definition start_bucket th (k : task) : Z := match k with Dummy b _ _ => parent b | _ => bucket th end.

Definition task_ok σ own t th (k : task) : Prop :=
  slot_ok σ own (target th k) (start_bucket th k) ∧
  match k with
  | Dummy b d fs => 0 ≤ b < 2 ^ 31 ∧ starting σ t th ∧ stack_ok σ th b fs ∧ ∃ n, heap σ !! d = Some n ∧ rank n = target th k ∧ key_ok n = true
  | Main => starting σ t th ∧ ∀ k l n, op th = Insert k → node th = Some l → heap σ !! l = Some n → rank n = main_target th
  | Again => removed σ t th
  end.

(** The node [cursor->curr], and what [l_find] has read of it. *)
Definition curr_read σ (f : find) (h : Z) (ok : bool) : Prop := ∃ c n, f_curr f = Some c ∧ heap σ !! c = Some n ∧ h = hashnr n ∧ (ok = false → deleted n = true).

Definition curr_dead σ own t th (f : find) : Prop :=
  ∃ c n, f_curr f = Some c ∧ heap σ !! c = Some n ∧ safe σ own t th 1 c ∧ deleted n = true ∧ link n = f_next f.

Definition find_ok σ own t th (k : task) (f : find) (p : find_pc) : Prop :=
  let tg := target th k in
  head_ok σ own tg (f_head f) ∧
  match p with
  | FRead | FPin1 => f_prev f = f_head f
  | FCheck1 => f_prev f = f_head f ∧ pin th !! 1%nat = Some (f_curr f)
  | FTop => prev_ok σ own t th tg (f_prev f) ∧ node_seen σ own t th tg 1 (f_curr f)
  | FKey h => prev_ok σ own t th tg (f_prev f) ∧ node_seen σ own t th tg 1 (f_curr f) ∧ curr_read σ f h true
  | FLink h ok | FPin0 h ok _ => prev_ok σ own t th tg (f_prev f) ∧ node_seen σ own t th tg 1 (f_curr f) ∧ curr_read σ f h ok
  | FCheck0 h ok _ => prev_ok σ own t th tg (f_prev f) ∧ node_seen σ own t th tg 1 (f_curr f) ∧ curr_read σ f h ok ∧ pin th !! 0%nat = Some (f_next f)
  | FCompare h ok =>
      prev_ok σ own t th tg (f_prev f) ∧ node_seen σ own t th tg 1 (f_curr f) ∧ ok = true ∧ h = tg.1 ∧
      match f_next f with None => True | Some x => safe σ own t th 0 x end ∧
      ∃ c n, f_curr f = Some c ∧ heap σ !! c = Some n ∧ h = hashnr n ∧ (Z.odd h = true → was_present σ th c (data n)) ∧
        (before (rank n) tg → past σ tg (f_next f) → was_absent σ th tg)
  | FPin2 h => node_seen σ own t th tg 0 (f_next f) ∧ ∃ c n, f_curr f = Some c ∧ heap σ !! c = Some n ∧ safe σ own t th 1 c ∧ h = hashnr n ∧ before (rank n) tg
  | FHelp => prev_ok σ own t th tg (f_prev f) ∧ curr_dead σ own t th f ∧ pin th !! 0%nat = Some (f_next f)
  | FPurge => prev_ok σ own t th tg (f_prev f) ∧ node_seen σ own t th tg 0 (f_next f) ∧ is_Some (f_curr f)
  | FAdvance => prev_ok σ own t th tg (f_prev f) ∧ node_seen σ own t th tg 0 (f_next f)
  end.

(** The place that [l_find] gives to [l_insert]. *)
Definition place_ok σ own t th (k : task) (f : find) : Prop :=
  prev_ok σ own t th (target th k) (f_prev f) ∧
  match f_curr f with
  | None => True
  | Some c => safe σ own t th 1 c ∧ ∀ n, heap σ !! c = Some n →
      ¬ before (rank n) (target th k) ∧ (match k with Dummy _ _ _ => True | _ => unique = true end → before (target th k) (rank n))
  end.

Definition task_node th (k : task) : option nat := match k with Dummy _ d _ => Some d | _ => node th end.

Definition inserting th (k : task) : Prop := match k with Dummy _ _ _ => True | Main => ∃ x, op th = Insert x | Again => False end.

Definition duplicate σ th : Prop := unique = true ∧ ∃ k l d, op th = Insert k ∧ was_present σ th l d ∧ coll d k = 0.

Definition element_found σ th (l : nat) : Prop := ∃ d, was_present σ th l d ∧ coll d (op_key (op th)) = 0.

Definition returned σ own t th (r : result) : Prop :=
  match op th, r with
  | Insert _, Inserted => inserted σ t th
  | Insert _, Duplicate => no_change σ t th ∧ duplicate σ th
  | Insert _, OutOfMemory => no_change σ t th
  | Delete _, Deleted => removed σ t th
  | Delete _, NotFound | Search _, NotFound => no_change σ t th ∧ was_absent σ th (main_target th)
  | Search _, Found l => no_change σ t th ∧ element_found σ th l ∧ safe σ own t th 2 l
  | _, _ => False
  end.

(** The node that a thread has unlinked and not yet put into its purgatory. *)
Definition pending (p : lf_pc) : list nat :=
  match p with Find _ f FPurge | DePurge f => option_list (f_curr f) | _ => [] end.

(** Where a thread can go on after it has read the pins. *)
Definition resumes (p : lf_pc) : Prop := pending p = [] ∧ match p with Scan _ _ _ => False | _ => True end.

Fixpoint pc_ok σ own t th (p : lf_pc) : Prop :=
  match p with
  | Idle => True
  | Alloc => no_change σ t th ∧ ∃ k, op th = Insert k
  | ReadSize => starting σ t th
  | CheckBucket b => starting σ t th ∧ bucket_ok th b
  | IbAlloc b fs | IbParent b _ fs => starting σ t th ∧ stack_ok σ th b fs
  | IbFail b fs => starting σ t th ∧ stack_ok σ th b fs ∧ fs ≠ []
  | IbFree b _ d fs | IbCas b d fs => starting σ t th ∧ stack_ok σ th b fs ∧ dummy_at σ own d b
  | Find k f p => task_ok σ own t th k ∧ find_ok σ own t th k f p
  | InLink k f => inserting th k ∧ task_ok σ own t th k ∧ place_ok σ own t th k f
  | InCas k f => inserting th k ∧ task_ok σ own t th k ∧ place_ok σ own t th k f ∧ ∃ l n, task_node th k = Some l ∧ heap σ !! l = Some n ∧ link n = f_curr f ∧ deleted n = false
  | InUnpin s k dup =>
      (s ≤ 2)%nat ∧
      match k, dup with
      | Dummy b d fs, None => starting σ t th ∧ stack_ok σ th b fs ∧ dummy_at σ own d b
      | Dummy b _ fs, Some d => starting σ t th ∧ stack_ok σ th b fs ∧ dummy_at σ own d b
      | Main, None => inserted σ t th
      | Main, Some _ => starting σ t th ∧ duplicate σ th
      | Again, _ => False
      end
  | DeMark f => (∃ k, op th = Delete k) ∧ task_ok σ own t th Main ∧ prev_ok σ own t th (main_target th) (f_prev f) ∧
      ∃ c n, f_curr f = Some c ∧ heap σ !! c = Some n ∧ safe σ own t th 1 c ∧ hashnr n = (main_target th).1 ∧ coll (data n) (main_target th).2 = 0
  | DeUnlink f => task_ok σ own t th Again ∧ prev_ok σ own t th (main_target th) (f_prev f) ∧ curr_dead σ own t th f
  | DePurge f => removed σ t th ∧ is_Some (f_curr f)
  | DeUnpin s r => (s ≤ 2)%nat ∧ if r then removed σ t th else (∃ k, op th = Delete k) ∧ no_change σ t th ∧ was_absent σ th (main_target th)
  | SePin found =>
      (∃ k, op th = Search k) ∧ no_change σ t th ∧
      match found with Some c => element_found σ th c ∧ safe σ own t th 1 c | None => was_absent σ th (main_target th) end
  | SeUnpin s found =>
      (s ≤ 1)%nat ∧ (∃ k, op th = Search k) ∧ no_change σ t th ∧
      match found with Some c => element_found σ th c ∧ safe σ own t th 2 c | None => was_absent σ th (main_target th) end
  | FreeNode => starting σ t th ∧ duplicate σ th
  | ReadCsize => inserted σ t th
  | CountUp csize => inserted σ t th ∧ ∃ j, 0 ≤ j ≤ 30 ∧ csize = 2 ^ j
  | CasSize csize => inserted σ t th ∧ ∃ j, 0 ≤ j ≤ 29 ∧ csize = 2 ^ j
  | CountDown => removed σ t th
  | Return r => returned σ own t th r
  | Held l => safe σ own t th 2 l
  | Scan _ _ k => resumes k ∧ pc_ok σ own t th k
  end.

(** ** Ownership *)

(** The private nodes of a thread. *)
Definition task_privates (k : task) : list nat := match k with Dummy _ d fs => d :: fs.*2 | _ => [] end.

Fixpoint pc_privates (p : lf_pc) : list nat :=
  match p with
  | IbAlloc _ fs | IbFail _ fs | IbCas _ _ fs => fs.*2
  | IbParent _ d fs | IbFree _ d _ fs => d :: fs.*2
  | Find k _ _ | InLink k _ | InCas k _ => task_privates k
  | InUnpin _ k dup => match k, dup with Dummy _ _ fs, None => fs.*2 | _, _ => task_privates k end
  | Scan _ _ k => pc_privates k
  | _ => []
  end.

Definition privates th : list nat := option_list (node th) ++ pc_privates (pc th).

Record thread_ok σ own t th : Prop := {
  t_pins : length (pin th) = LF_PINBOX_PINS;
  t_start : (start th ≤ length (history σ))%nat;
  t_privates : Forall (λ l, own !! l = Some (Private t)) (privates th);
  t_distinct : NoDup (privates th);
  t_retired : Forall (λ l, own !! l = Some (Retired t)) (pending (pc th) ++ purgatory th);
  t_purgatory : NoDup (pending (pc th) ++ purgatory th);
  t_pc : pc_ok σ own t th (pc th)
}.

(** At some time during the operation. *)
Definition during (h : list (change K)) (a : answer K) (P : gmap nat K → Prop) : Prop := ∃ i, (a_from a ≤ i ≤ a_to a)%nat ∧ P (contents (take i h)).

(** An answer is right: an operation that succeeded made its one change, and one that did not made none and found the table so at some time while it ran. *)
Definition justified (h : list (change K)) (a : answer K) : Prop :=
  (a_from a ≤ a_to a ≤ length h)%nat ∧
  let changes := mine (a_tid a) (drop (a_from a) (take (a_to a) h)) in
  match a_op a, a_result a with
  | Insert k, Inserted => ∃ l, changes = [Added (a_tid a) l k]
  | Insert k, Duplicate => changes = [] ∧ unique = true ∧ during h a (λ m : gmap nat K, ¬ absent m k)
  | Insert _, OutOfMemory => changes = []
  | Delete k, Deleted => ∃ l d, changes = [Removed (a_tid a) l d] ∧ coll d k = 0
  | Delete k, NotFound | Search k, NotFound => changes = [] ∧ during h a (λ m : gmap nat K, absent m k)
  | Search k, Found l => changes = [] ∧ during h a (λ m : gmap nat K, ∃ d, m !! l = Some d ∧ coll d k = 0)
  | _, _ => False
  end.

Record lf_inv σ : Prop := {
  inv_shape : ∃ ns own, shape σ ns own ∧ ∀ t th, threads σ !! t = Some th → thread_ok σ own t th;
  inv_answers : Forall (justified (history σ)) (answers σ)
}.
End invariant.
