(* ===== verification/LfSteps.v ===== *)
(** * The lock-free hash table: what other threads cannot change, and the changes of shared memory

    What a thread knows is kept by the steps of the others.  Each step that changes memory keeps the shape of the table, and is harmless to the other threads. *)

From S2P Require Import Prelude Bits LfHash LfOrder LfInv.

Section mono.
Context {K : Type} (coll : K → K → Z) `{!Comparison coll} (hash_function : K → Z) (dummy_key : K) (unique : bool).
Implicit Types (σ : LF_HASH K) (th : LF_PINS K) (n m : LF_SLIST K) (t l : nat) (ns : list nat) (own : gmap nat owner) (tg : Z * K).

Abbreviation before := (before coll).
Abbreviation is_dummy := (is_dummy coll).
Abbreviation slot_ok := (slot_ok coll).
Abbreviation head_ok := (head_ok coll).
Abbreviation prev_ok := (prev_ok coll).
Abbreviation was_absent := (was_absent coll hash_function).
Abbreviation past := (past coll).
Abbreviation node_seen := (node_seen coll hash_function).
Abbreviation target := (target hash_function dummy_key).
Abbreviation stack_ok := (stack_ok hash_function dummy_key).
Abbreviation task_ok := (task_ok coll hash_function dummy_key).
Abbreviation find_ok := (find_ok coll hash_function dummy_key).
Abbreviation place_ok := (place_ok coll hash_function dummy_key unique).
Abbreviation pc_ok := (pc_ok coll hash_function dummy_key unique).

(** A node of the list after any number of steps. *)
Definition later n m : Prop := rank m = rank n ∧ (deleted n = true → deleted m = true ∧ link m = link n).

(** The changes of shared memory that a thread has to reckon with. *)
Record evolves σ own σ' own' t th : Prop := {
  e_array b d : array σ !! b = Some d → array σ' !! b = Some d;
  e_dummy l n : own !! l = Some Chain → heap σ !! l = Some n → Z.even (hashnr n) = true → own' !! l = Some Chain ∧ ∃ m, heap σ' !! l = Some m ∧ rank m = rank n;
  e_safe s l n : safe σ own t th s l → heap σ !! l = Some n → safe σ' own' t th s l ∧ ∃ m, heap σ' !! l = Some m ∧ later n m;
  e_history : ∃ ext, history σ' = history σ ++ ext
}.

(** Those that leave alone what the thread owns, as the changes of other threads do. *)
Record interferes σ own σ' own' t th : Prop := {
  i_evolves : evolves σ own σ' own' t th;
  i_private l : own !! l = Some (Private t) → own' !! l = Some (Private t) ∧ heap σ' !! l = heap σ !! l;
  i_history ext : history σ' = history σ ++ ext → mine t ext = []
}.

Lemma stack_bucket σ th b fs : stack_ok σ th b fs → 0 ≤ b < 2 ^ 31.
Proof.
  revert b. induction fs as [| [b' d] fs IH]; intros b; cbn [LfInv.stack_ok]; [by intros (_ & [? _] & _) |]. intros (<- & Hb & _). destruct (parent_spec b' Hb) as (_ & ? & _). lia.
Qed.

Section evolves.
Context σ own σ' own' t th (He : evolves σ own σ' own' t th).

Lemma is_dummy_mono l tg : is_dummy σ own l tg → is_dummy σ' own' l tg.
Proof using He.
  intros (n & Hn & Ho & Hev & Hb). destruct (e_dummy _ _ _ _ _ _ He l n Ho Hn Hev) as (Ho' & m & Hm & Hr). pose proof Hr as [= Hh _]. exists m. by rewrite Hr, Hh.
Qed.

Lemma dummy_at_mono l b : 0 ≤ b < 2 ^ 31 → dummy_at σ own l b → dummy_at σ' own' l b.
Proof using He.
  intros Hb (n & Hn & Ho & Hh). destruct (e_dummy _ _ _ _ _ _ He l n Ho Hn) as (Ho' & m & Hm & Hr); [rewrite Hh; by apply reversed_even |]. exists m. injection Hr as Hh' _. by rewrite Hh'.
Qed.

Lemma slot_ok_mono tg b : slot_ok σ own tg b → slot_ok σ' own' tg b.
Proof using He. intros [(d & Hd & Hdummy) | H]; [left | by right]. exists d. split; [by apply He |]. by apply is_dummy_mono. Qed.

Lemma head_ok_mono tg c : head_ok σ own tg c → head_ok σ' own' tg c.
Proof using He. destruct c; [apply slot_ok_mono | apply is_dummy_mono]. Qed.

Lemma safe_mono s l : safe σ own t th s l → safe σ' own' t th s l.
Proof using He. intros Hs. pose proof Hs as (_ & _ & _ & n & Hn & _). by destruct (e_safe _ _ _ _ _ _ He s l n Hs Hn). Qed.

Lemma safe_node s l n : safe σ own t th s l → heap σ !! l = Some n → ∃ m, heap σ' !! l = Some m ∧ later n m.
Proof using He. intros Hs Hn. by destruct (e_safe _ _ _ _ _ _ He s l n Hs Hn). Qed.

Lemma prev_ok_mono tg c : prev_ok σ own t th tg c → prev_ok σ' own' t th tg c.
Proof using He.
  destruct c as [b | l]; [apply slot_ok_mono |]. intros [Hd | [Hs (n & Hn & Hb)]]; [left; by apply is_dummy_mono |]. right. split; [by apply safe_mono |]. destruct (safe_node 2 l n Hs Hn) as (m & Hm & Hr & _). exists m. by rewrite Hr.
Qed.

Lemma past_anti tg s x : match x with None => True | Some c => safe σ own t th s c end → past σ' tg x → past σ tg x.
Proof using He. destruct x as [c |]; [| done]. intros Hs Hp n Hn. destruct (safe_node s c n Hs Hn) as (m & Hm & Hr & _). rewrite <- Hr. by apply Hp. Qed.

(** What was once the case remains so. *)
Lemma once_mono (P : gmap nat K → Prop) i : (start th ≤ i ≤ length (history σ))%nat ∧ P (contents (take i (history σ))) → (start th ≤ i ≤ length (history σ'))%nat ∧ P (contents (take i (history σ'))).
Proof using He. destruct (e_history _ _ _ _ _ _ He) as [ext ->]. intros [Hi HP]. rewrite length_app. split; [lia |]. by rewrite take_app_le by lia. Qed.

Lemma was_absent_mono tg : was_absent σ th tg → was_absent σ' th tg.
Proof using He. intros [i H]. exists i. revert H. apply (once_mono (λ m : gmap nat K, ∀ l k, m !! l = Some k → ¬ same_place coll hash_function k tg)). Qed.

Lemma was_present_mono l k : was_present σ th l k → was_present σ' th l k.
Proof using He. intros [i H]. exists i. revert H. apply (once_mono (λ m : gmap nat K, m !! l = Some k)). Qed.

Lemma was_empty_mono : was_empty σ th → was_empty σ' th.
Proof using He. intros [i H]. exists i. revert H. apply (once_mono (λ m : gmap nat K, m = ∅)). Qed.

Lemma node_seen_mono tg s x : node_seen σ own t th tg s x → node_seen σ' own' t th tg s x.
Proof using He.
  intros [Hs Hp]. split; [destruct x; [by apply safe_mono | done] |]. intros Hp'. apply was_absent_mono, Hp. by apply (past_anti tg s).
Qed.

Lemma curr_read_mono f h ok tg : node_seen σ own t th tg 1 (f_curr f) → curr_read σ f h ok → curr_read σ' f h ok.
Proof using He.
  intros [Hs _] (c & n & Hc & Hn & -> & Hok). rewrite Hc in Hs. destruct (safe_node 1 c n Hs Hn) as (m & Hm & [= Hh _] & Hd). exists c, m. split; [done |]. split; [done |]. split; [done |]. intros E. by destruct (Hd (Hok E)).
Qed.

Lemma curr_dead_mono f : curr_dead σ own t th f → curr_dead σ' own' t th f.
Proof using He.
  intros (c & n & Hc & Hn & Hs & Hdel & Hl). destruct (safe_node 1 c n Hs Hn) as (m & Hm & _ & Hd). destruct (Hd Hdel) as [Hdel' Hl']. exists c, m. split; [done |]. split; [done |]. split; [by apply safe_mono |]. by rewrite Hl'.
Qed.

Lemma stack_ok_mono b fs : stack_ok σ th b fs → stack_ok σ' th b fs.
Proof using He.
  revert b. induction fs as [| [b' d] fs IH]; intros b; cbn [LfInv.stack_ok].
  - intros (? & ? & H). split; [done |]. split; [done |]. intros ->. by apply was_empty_mono, H.
  - intros (? & ? & ?). auto.
Qed.

Lemma place_ok_mono k f : place_ok σ own t th k f → place_ok σ' own' t th k f.
Proof using He.
  intros [Hp Hc]. split; [by apply prev_ok_mono |]. destruct (f_curr f) as [c |]; [| done]. destruct Hc as [Hs Hc]. split; [by apply safe_mono |]. intros m Hm. pose proof Hs as (_ & _ & _ & n & Hn & _).
  destruct (safe_node 1 c n Hs Hn) as (m' & Hm' & Hr & _). assert (m' = m) as -> by congruence. rewrite Hr. by apply Hc.
Qed.

Lemma duplicate_mono : duplicate coll unique σ th → duplicate coll unique σ' th.
Proof using He. intros (Hu & k & l & d & Ho & Hp & Hc). split; [done |]. exists k, l, d. split; [done |]. split; [by apply was_present_mono | done]. Qed.

Lemma element_found_mono l : element_found coll dummy_key σ th l → element_found coll dummy_key σ' th l.
Proof using He. intros (d & Hp & Hc). exists d. split; [by apply was_present_mono | done]. Qed.

Lemma find_ok_mono k f p : find_ok σ own t th k f p → find_ok σ' own' t th k f p.
Proof using He.
  unfold LfInv.find_ok. cbn zeta. intros [Hh Hp]. split; [by apply head_ok_mono |]. destruct p; try done; destruct_and?; split_and?; eauto using prev_ok_mono, node_seen_mono, curr_read_mono, curr_dead_mono.
  - destruct (f_next f); [by apply safe_mono | done].
  - match goal with H : ∃ c n, _ |- _ => destruct H as (c & n & Hc & Hn & Hh' & Hpres & Habs) end. match goal with H : node_seen _ _ _ _ _ 1 _ |- _ => destruct H as [Hs _] end. rewrite Hc in Hs.
    destruct (safe_node 1 c n Hs Hn) as (m & Hm & Hr & _). pose proof Hr as [= Hh'' Hd]. exists c, m. split; [done |]. split; [done |]. split; [congruence |]. rewrite Hr, Hd. split; [intros ?; apply was_present_mono; auto |].
    intros Hb Hpast. apply was_absent_mono, Habs; [done |]. by apply (past_anti _ 0).
  - match goal with H : ∃ c n, _ |- _ => destruct H as (c & n & Hc & Hn & Hs & Hh' & Hb) end. destruct (safe_node 1 c n Hs Hn) as (m & Hm & Hr & _). pose proof Hr as [= Hh'' Hd]. exists c, m.
    split; [done |]. split; [done |]. split; [by apply safe_mono |]. rewrite Hr. split; [congruence | done].
Qed.
End evolves.

Section interferes.
Context σ own σ' own' t th (Hi : interferes σ own σ' own' t th) (Hstart : (start th ≤ length (history σ))%nat).

Lemma mine_mono : mine t (drop (start th) (history σ')) = mine t (drop (start th) (history σ)).
Proof using Hi Hstart.
  destruct Hi as [He _ Hh]. destruct (e_history _ _ _ _ _ _ He) as [ext E]. pose proof (Hh ext E) as Hext. by rewrite E, drop_app_le, mine_app, Hext, app_nil_r by done.
Qed.

Lemma no_change_mono : no_change σ t th → no_change σ' t th.
Proof using Hi Hstart. unfold no_change. by rewrite mine_mono. Qed.

Lemma removed_mono : removed coll σ t th → removed coll σ' t th.
Proof using Hi Hstart. unfold removed. by rewrite mine_mono. Qed.

Lemma inserted_mono : inserted σ t th → inserted σ' t th.
Proof using Hi Hstart. unfold inserted. by rewrite mine_mono. Qed.

Lemma private_node l : own !! l = Some (Private t) → heap σ' !! l = heap σ !! l.
Proof using Hi. apply Hi. Qed.

Context (Hnode : Forall (λ l, own !! l = Some (Private t)) (option_list (node th))).

Lemma node_kept l : node th = Some l → heap σ' !! l = heap σ !! l.
Proof using Hi Hnode. intros E. rewrite E in Hnode. apply private_node. by apply Forall_inv in Hnode. Qed.

Lemma starting_mono : starting σ t th → starting σ' t th.
Proof using Hi Hstart Hnode.
  intros [Hno Hr]. split; [by apply no_change_mono |]. revert Hr. unfold node_ready. destruct (op th); try done. intros (l & n & Hl & Hn & H). exists l, n. by rewrite node_kept.
Qed.

Lemma task_ok_mono k : Forall (λ l, own !! l = Some (Private t)) (task_privates k) → task_ok σ own t th k → task_ok σ' own' t th k.
Proof using Hi Hstart Hnode.
  intros Hpriv [Hs Hk]. pose proof (i_evolves _ _ _ _ _ _ Hi) as He. split; [by eapply slot_ok_mono |]. destruct k as [b d fs | |].
  - destruct Hk as (Hb & Hst & Hstack & n & Hn & Hrest). split; [done |]. split; [by apply starting_mono |]. split; [by eapply stack_ok_mono |]. exists n. split; [| done]. rewrite private_node; [done |]. by apply Forall_inv in Hpriv.
  - destruct Hk as [Hst Hk]. split; [by apply starting_mono |]. intros k l n Ho Hl Hn. rewrite node_kept in Hn by done. by eapply Hk.
  - by apply removed_mono.
Qed.

Lemma returned_mono r : returned coll hash_function dummy_key unique σ own t th r → returned coll hash_function dummy_key unique σ' own' t th r.
Proof using Hi Hstart.
  pose proof (i_evolves _ _ _ _ _ _ Hi) as He. unfold returned. destruct (op th), r; try done; intros; destruct_and?; split_and?; eauto using no_change_mono, inserted_mono, removed_mono, duplicate_mono, was_absent_mono, element_found_mono, safe_mono.
Qed.

Lemma dummy_ready_mono b fs d : starting σ t th ∧ stack_ok σ th b fs ∧ dummy_at σ own d b → starting σ' t th ∧ stack_ok σ' th b fs ∧ dummy_at σ' own' d b.
Proof using Hi Hstart Hnode.
  pose proof (i_evolves _ _ _ _ _ _ Hi) as He. intros (Hst & Hs & Hd). split; [by apply starting_mono |]. split; [by eapply stack_ok_mono |]. eapply dummy_at_mono; [done | by eapply stack_bucket | done].
Qed.

Lemma pc_ok_mono p : Forall (λ l, own !! l = Some (Private t)) (pc_privates p) → pc_ok σ own t th p → pc_ok σ' own' t th p.
Proof using Hi Hstart Hnode.
  pose proof (i_evolves _ _ _ _ _ _ Hi) as He. induction p; cbn [LfInv.pc_ok pc_privates]; intros Hpriv Hp; try done.
  all: try (destruct_and?; split_and?; eauto using starting_mono, no_change_mono, stack_ok_mono, task_ok_mono, find_ok_mono, place_ok_mono, removed_mono, inserted_mono, prev_ok_mono, curr_dead_mono, duplicate_mono, safe_mono, returned_mono; fail).
  - by apply dummy_ready_mono.
  - by apply dummy_ready_mono.
  - destruct Hp as (Hk & Ht & Hpl & l & n & Hl & Hn & H). split; [done |]. split; [by apply task_ok_mono |]. split; [by eapply place_ok_mono |]. exists l, n. split; [done |]. split; [| done].
    rewrite <- Hn. destruct k; cbn in Hl, Hpriv; [injection Hl as <-; apply private_node; by apply Forall_inv in Hpriv | by apply node_kept..].
  - destruct Hp as [Hs Hp]. split; [done |]. destruct k as [b d fs | |], dup as [d' |]; try done; [by apply dummy_ready_mono.. | | by apply inserted_mono]. destruct Hp. split; [by apply starting_mono | by eapply duplicate_mono].
  - destruct Hp as (Ho & Ht & Hpr & c & n & Hc & Hn & Hs & Hh & Hd). split; [done |]. split; [by apply task_ok_mono |]. split; [by eapply prev_ok_mono |]. destruct (safe_node _ _ _ _ _ _ He 1 c n Hs Hn) as (m & Hm & [= Hh' Hd'] & _).
    exists c, m. split; [done |]. split; [done |]. split; [by eapply safe_mono |]. by rewrite Hh', Hd'.
  - destruct Hp as [Hs Hp]. split; [done |]. destruct r; [by apply removed_mono |]. destruct Hp as (? & ? & ?). split; [done |]. split; [by apply no_change_mono | by eapply was_absent_mono].
  - destruct Hp as (Ho & Hno & Hp). split; [done |]. split; [by apply no_change_mono |]. destruct found; [| by eapply was_absent_mono]. destruct Hp. split; [by eapply element_found_mono | by eapply safe_mono].
  - destruct Hp as (Hs & Ho & Hno & Hp). split; [done |]. split; [done |]. split; [by apply no_change_mono |]. destruct found; [| by eapply was_absent_mono]. destruct Hp. split; [by eapply element_found_mono | by eapply safe_mono].
Qed.
End interferes.

(** A thread is unaffected by the steps of the others. *)
Lemma lf_thread_mono σ own σ' own' t th : interferes σ own σ' own' t th → (∀ l, own !! l = Some (Retired t) → own' !! l = Some (Retired t)) →
  thread_ok coll hash_function dummy_key unique σ own t th → thread_ok coll hash_function dummy_key unique σ' own' t th.
Proof.
  intros Hi Hret' [Hpin Hstart Hpriv Hnd Hret Hndr Hpc]. pose proof (i_evolves _ _ _ _ _ _ Hi) as He. split; try done.
  - destruct (e_history _ _ _ _ _ _ He) as [ext ->]. rewrite length_app. lia.
  - eapply Forall_impl; [done |]. intros l Hl. by apply Hi.
  - by eapply Forall_impl.
  - apply Forall_app in Hpriv as [Hnode Hpriv]. by eapply pc_ok_mono.
Qed.
End mono.

(** ** The changes of shared memory *)

Section steps.
Context {K : Type} (coll : K → K → Z) `{!Comparison coll} (hash_function : K → Z) (dummy_key : K) (unique : bool).
Implicit Types (σ : LF_HASH K) (th : LF_PINS K) (n m : LF_SLIST K) (t u l : nat) (ns : list nat) (own : gmap nat owner) (tg : Z * K).

Abbreviation before := (before coll).
Abbreviation shape := (shape coll hash_function dummy_key unique).
Abbreviation thread_ok := (thread_ok coll hash_function dummy_key unique).
Abbreviation ordered := (ordered coll).
Abbreviation well_formed := (well_formed hash_function dummy_key).

(** ** Harmless changes *)

(** A change that the thread [u] makes: nodes of the list stay what they were, up to their deletion, and what others own is not touched. *)
Record benign u σ own σ' own' : Prop := {
  b_array b d : array σ !! b = Some d → array σ' !! b = Some d;
  b_threads : threads σ' = threads σ;
  b_history : ∃ ext, history σ' = history σ ++ ext ∧ Forall (λ c, tid c = u) ext;
  b_chain l n : own !! l = Some Chain → heap σ !! l = Some n →
    (∃ m, heap σ' !! l = Some m ∧ later n m) ∧ (own' !! l = Some Chain ∨ own' !! l = Some (Retired u) ∧ deleted n = true ∧ Z.odd (hashnr n) = true);
  b_retired w l : own !! l = Some (Retired w) → own' !! l = Some (Retired w) ∧ ∀ n, heap σ !! l = Some n → ∃ m, heap σ' !! l = Some m ∧ later n m;
  b_private w l : own !! l = Some (Private w) → w ≠ u → own' !! l = Some (Private w) ∧ heap σ' !! l = heap σ !! l
}.

Lemma later_refl n : later n n.
Proof. done. Qed.

Lemma later_public own own' u l n m : later n m → public own l n →
  (own !! l = Some Chain → own' !! l = Some Chain ∨ own' !! l = Some (Retired u) ∧ deleted n = true ∧ Z.odd (hashnr n) = true) →
  (∀ w, own !! l = Some (Retired w) → own' !! l = Some (Retired w)) → public own' l m.
Proof.
  intros [[= Hh _] Hdel] [Ho | ((w & Ho) & Hd & Hodd)] Hc Hr.
  - destruct (Hc Ho) as [Ho' | (Ho' & Hd & Hodd)]; [by left |]. right. split; [by exists u |]. rewrite Hh. by destruct (Hdel Hd).
  - right. split; [exists w; by apply Hr |]. rewrite Hh. by destruct (Hdel Hd).
Qed.

Lemma benign_evolves u σ own σ' own' t th : benign u σ own σ' own' → evolves σ own σ' own' t th.
Proof.
  intros [Ha Ht Hh Hc Hr Hp]. split; [done | | | destruct Hh as (ext & ? & _); by exists ext].
  - intros l n Ho Hn Hev. destruct (Hc l n Ho Hn) as [(m & Hm & Hrk & _) [Ho' | (_ & _ & Hodd)]]; [eauto |]. rewrite <- Z.negb_even, Hev in Hodd. done.
  - intros s l n (Hs & Hpin & Hcov & n' & Hn' & Hpub) Hn. assert (n' = n) as -> by congruence.
    assert (∃ m, heap σ' !! l = Some m ∧ later n m) as (m & Hm & Hl). { destruct Hpub as [Ho | ((w & Ho) & _)]; [by apply Hc | by apply (Hr w)]. }
    split; [| eauto]. split; [done |]. split; [done |]. split; [by rewrite Ht |]. exists m. split; [done |]. apply (later_public own own' u l n); [done | done | |].
    + intros Ho. by apply Hc.
    + intros w Ho. by apply Hr.
Qed.

Lemma benign_interferes u σ own σ' own' t th : benign u σ own σ' own' → t ≠ u → interferes σ own σ' own' t th.
Proof.
  intros Hb Htu. split; [by eapply benign_evolves | |].
  - intros l Hl. by apply (b_private _ _ _ _ _ Hb).
  - intros ext E. destruct (b_history _ _ _ _ _ Hb) as (ext' & E' & Hall). rewrite E in E'. apply app_inv_head in E' as ->. apply filter_none. eapply Forall_impl; [done |]. cbn. intros c Hc. lia.
Qed.

(** The thread that took the step has its new state. *)
Definition scan_fresh (p : lf_pc) : Prop := match p with Scan _ i _ => i = 0%nat | _ => True end.

Lemma covered_thread ths u th pos l : scan_fresh (pc th) → covered ths pos l → covered (<[u := th]> ths) pos l.
Proof.
  intros Hf Hc w thw granary i k Hw Hpc Hin. destruct (decide (w = u)) as [-> | Hne].
  - apply list_lookup_insert_Some in Hw as [(_ & <- & _) | [? _]]; [| done]. left. rewrite Hpc in Hf. cbn in Hf. lia.
  - rewrite list_lookup_insert_ne in Hw by done. by eapply Hc.
Qed.

Lemma interferes_thread σ own u thu t th : (∀ s l, safe σ own t th s l → covered (<[u := thu]> (threads σ)) (t * LF_PINBOX_PINS + s) l) →
  interferes σ own (with_thread u thu σ) own t th.
Proof.
  intros Hcov. split; [split | |]; cbn; try done.
  - intros l n Ho Hn _. eauto.
  - intros s l n Hs Hn. split; [| exists n; by split; [| apply later_refl]]. pose proof (Hcov s l Hs). destruct Hs as (? & ? & _ & ?). done.
  - by exists []; rewrite app_nil_r.
  - intros ext E. rewrite <- (app_nil_r (history σ)) in E at 1. apply app_inv_head in E as <-. done.
Qed.

Lemma shape_thread σ ns own u th : shape σ ns own → shape (with_thread u th σ) ns own.
Proof. intros []. by split. Qed.

Definition table_ok σ ns own : Prop := shape σ ns own ∧ ∀ t th, threads σ !! t = Some th → thread_ok σ own t th.

(** How a step of the thread [u] is put together: its change of memory, and its own new state. *)
Lemma commit_thread σ1 ns1 own1 u th1 : shape σ1 ns1 own1 → (∀ t tht, t ≠ u → threads σ1 !! t = Some tht → thread_ok σ1 own1 t tht) → thread_ok σ1 own1 u th1 → scan_fresh (pc th1) → table_ok (with_thread u th1 σ1) ns1 own1.
Proof.
  intros Hshape Hths Hok Hfresh. split; [by apply shape_thread |]. intros t tht Ht. cbn [threads with_thread] in Ht.
  assert (thread_ok σ1 own1 t tht) as Hok'.
  { destruct (decide (t = u)) as [-> | Hne]; [apply list_lookup_insert_Some in Ht as [(_ & <- & _) | [? _]]; done |]. rewrite list_lookup_insert_ne in Ht by done. by apply Hths. }
  eapply lf_thread_mono; [| done | done]. apply interferes_thread. intros s l (_ & _ & Hc & _). by apply covered_thread.
Qed.

Lemma commit_step σ ns own σ1 ns1 own1 u th th1 : table_ok σ ns own → threads σ !! u = Some th → benign u σ own σ1 own1 →
  shape σ1 ns1 own1 → thread_ok σ1 own1 u th1 → scan_fresh (pc th1) → table_ok (with_thread u th1 σ1) ns1 own1.
Proof.
  intros [_ Hths] Hu Hb Hshape Hok Hfresh. apply commit_thread; try done. intros t tht Hne Ht. rewrite (b_threads _ _ _ _ _ Hb) in Ht. eapply lf_thread_mono; [by eapply benign_interferes | intros l; apply Hb | by apply Hths].
Qed.

Lemma benign_refl u σ own σ' : heap σ' = heap σ → array σ' = array σ → history σ' = history σ → threads σ' = threads σ → benign u σ own σ' own.
Proof.
  intros Eh Ea Ehist Et. split; rewrite ?Eh, ?Ea; try done.
  - exists []. by rewrite app_nil_r.
  - intros l n Ho Hn. split; [by exists n | by left].
  - intros w l Ho. split; [done |]. intros n Hn. by exists n.
Qed.

(** ** The chain of nodes *)

Lemma nodes_chain_ext (h h' : gmap nat (LF_SLIST K)) p ns : (∀ l n, l ∈ ns → h !! l = Some n → ∃ m, h' !! l = Some m ∧ link m = link n) → chain h p ns → chain h' p ns.
Proof.
  revert p. induction ns as [| l ns IH]; intros p Hext; cbn; [done |]. intros (-> & n & Hn & Hc). destruct (Hext l n) as (m & Hm & Hl); [by left | done |]. split; [done |]. exists m. split; [done |]. rewrite Hl. apply IH; [| done].
  intros x nx Hx. apply Hext. by right.
Qed.

(** The chain from a node of it on. *)
Lemma chain_at (h : gmap nat (LF_SLIST K)) p A l B : chain h p (A ++ l :: B) → ∃ n, h !! l = Some n ∧ chain h (link n) B.
Proof. revert p. induction A as [| a A IH]; intros p; cbn; [intros (_ & H); exact H |]. intros (_ & n & _ & Hc). by eapply IH. Qed.

Lemma chain_lookup (h : gmap nat (LF_SLIST K)) p ns l : chain h p ns → l ∈ ns → ∃ n, h !! l = Some n.
Proof. intros Hc Hl. apply list_elem_of_split in Hl as (A & B & ->). destruct (chain_at _ _ _ _ _ Hc) as (n & Hn & _). by exists n. Qed.

(** Another rest of the chain behind a node. *)
Lemma chain_relink (h h' : gmap nat (LF_SLIST K)) p A l B m B' : chain h p (A ++ l :: B) → (∀ x n, x ∈ A → h !! x = Some n → ∃ n', h' !! x = Some n' ∧ link n' = link n) →
  h' !! l = Some m → chain h' (link m) B' → chain h' p (A ++ l :: B').
Proof.
  revert p. induction A as [| a A IH]; intros p; cbn.
  - intros (-> & _) _ Hm Hc. split; [done |]. by exists m.
  - intros (-> & n & Hn & Hc) Hext Hm Hc'. destruct (Hext a n) as (n' & Hn' & Hl); [by left | done |]. split; [done |]. exists n'. split; [done |]. rewrite Hl. eapply IH; [done | | done | done]. intros x nx Hx. apply Hext. by right.
Qed.

Lemma chain_first (h : gmap nat (LF_SLIST K)) p ns : chain h p ns → p = list.head ns.
Proof. destruct ns; cbn; [done |]. by intros [-> _]. Qed.

(** Facts about the order that only depend on the ranks. *)
Lemma ordered_ext (h h' : gmap nat (LF_SLIST K)) ns : (∀ l m, l ∈ ns → h' !! l = Some m → ∃ n, h !! l = Some n ∧ rank m = rank n) → StronglySorted (ordered h) ns → StronglySorted (ordered h') ns.
Proof.
  intros Hext. induction 1 as [| l ns Hs IH Hl]; constructor.
  - apply IH. intros x m Hx. apply Hext. by right.
  - rewrite Forall_forall in *. intros x Hx n' m' Hn' Hm'. destruct (Hext l n') as (n & Hn & ->); [by left | done |]. destruct (Hext x m') as (m & Hm & ->); [by right | done |]. by apply (Hl x Hx).
Qed.

Lemma ordered_before (h : gmap nat (LF_SLIST K)) A l B x n m : StronglySorted (ordered h) (A ++ l :: B) → h !! l = Some n → h !! x = Some m → x ∈ A ++ [l] → ¬ before (rank n) (rank m).
Proof.
  intros [HAB [_ _]]%StronglySorted_app Hn Hm [Hx | ->%list_elem_of_singleton]%elem_of_app.
  - apply (HAB x l); [done | by left | done | done].
  - assert (m = n) as -> by congruence. by apply before_irrefl.
Qed.

Lemma ordered_after (h : gmap nat (LF_SLIST K)) A l B x n m : StronglySorted (ordered h) (A ++ l :: B) → h !! l = Some n → h !! x = Some m → x ∈ l :: B → ¬ before (rank m) (rank n).
Proof.
  intros [_ [_ Hs]]%StronglySorted_app Hn Hm [-> | Hx]%elem_of_cons.
  - assert (m = n) as -> by congruence. by apply before_irrefl.
  - apply StronglySorted_cons in Hs as [Hl _]. rewrite Forall_forall in Hl. by apply (Hl x Hx).
Qed.

(** ** Changes outside the list *)

Lemma own_lookup σ ns own l o : shape σ ns own → own !! l = Some o → ∃ n, heap σ !! l = Some n.
Proof. intros Hs Ho. destruct (s_dom _ _ _ _ _ _ _ Hs l) as [H _]. destruct H as [n Hn]; [by exists o |]. by exists n. Qed.

Lemma shape_off_chain σ ns own σ' own' : shape σ ns own → array σ' = array σ → history σ' = history σ → h_size σ' = h_size σ →
  (∀ l, own' !! l = Some Chain ↔ own !! l = Some Chain) → (∀ l, own !! l = Some Chain → heap σ' !! l = heap σ !! l) →
  (∀ l, is_Some (own' !! l) ↔ is_Some (heap σ' !! l)) → shape σ' ns own'.
Proof.
  intros [Hnd Hc Hs Hn Ho Hd Hsl Hco Hhi Hsz] Ea Eh Es Hown Hheap Hdom. assert (∀ l, l ∈ ns → heap σ' !! l = heap σ !! l) as Hns by (intros l Hl; apply Hheap; by apply Ho).
  split; rewrite ?Ea, ?Eh, ?Es; try done.
  - eapply nodes_chain_ext; [| done]. intros l n Hl Hn'. exists n. by rewrite Hns.
  - eapply ordered_ext; [| done]. intros l m Hl Hm. exists m. by rewrite <- Hns.
  - intros l n Hl Hn'. rewrite Hns in Hn' by done. by eapply Hn.
  - intros l. by rewrite Hown.
  - intros b d Hbd. destruct (Hsl b d Hbd) as (Hb & n & Hn' & Hod & Hh). split; [done |]. exists n. rewrite Hheap, Hown by done. done.
  - intros l k. rewrite Hco. split; intros (n & Hon & Hn' & Hrest); exists n.
    + by rewrite Hown, Hheap.
    + apply Hown in Hon. by rewrite Hheap in Hn'.
Qed.

(** A write to a private node, or to one that this thread has retired. *)
Lemma write_off_chain σ ns own u l n m : shape σ ns own → heap σ !! l = Some n → own !! l = Some (Private u) ∨ own !! l = Some (Retired u) ∧ later n m →
  let σ' := with_heap (<[l := m]> (heap σ)) σ in shape σ' ns own ∧ benign u σ own σ' own.
Proof.
  intros Hs Hn Ho σ'. assert (∀ x, own !! x = Some Chain → x ≠ l) as Hne by (intros x Hx ->; destruct Ho as [? | [? _]]; congruence). split.
  - apply (shape_off_chain σ ns own); try done.
    + intros x Hx. cbn. by rewrite lookup_insert_ne by (by apply not_eq_sym, Hne).
    + intros x. rewrite (s_dom _ _ _ _ _ _ _ Hs x). cbn. destruct (decide (x = l)) as [-> | ?]; [rewrite lookup_insert_eq, Hn; split; eauto | by rewrite lookup_insert_ne].
  - split; cbn; try done.
    + exists []. by rewrite app_nil_r.
    + intros x nx Hx Hnx. rewrite lookup_insert_ne by (by apply not_eq_sym, Hne). split; [by exists nx | by left].
    + intros w x Hx. split; [done |]. intros nx Hnx. destruct (decide (x = l)) as [-> | ?]; [| rewrite lookup_insert_ne by done; by exists nx].
      rewrite lookup_insert_eq. exists m. split; [done |]. destruct Ho as [? | [_ ?]]; congruence.
    + intros w x Hx Hw. split; [done |]. apply lookup_insert_ne. intros ->. destruct Ho as [? | [? _]]; congruence.
Qed.

Lemma allocate_node σ ns own u l n : shape σ ns own → heap σ !! l = None →
  let σ' := with_heap (<[l := n]> (heap σ)) σ in let own' := <[l := Private u]> own in own !! l = None ∧ shape σ' ns own' ∧ benign u σ own σ' own'.
Proof.
  intros Hs Hl σ' own'. assert (own !! l = None) as Ho by (apply eq_None_not_Some; rewrite (s_dom _ _ _ _ _ _ _ Hs l), Hl; by intros [? ?]).
  assert (∀ x o, own !! x = Some o → x ≠ l) as Hne by (intros x o Hx ->; congruence). split; [done |]. split.
  - apply (shape_off_chain σ ns own); try done.
    + intros x. unfold own'. destruct (decide (x = l)) as [-> | ?]; [rewrite lookup_insert_eq, Ho; done | by rewrite lookup_insert_ne].
    + intros x Hx. cbn. by rewrite lookup_insert_ne by (by eapply not_eq_sym, Hne).
    + intros x. cbn. unfold own'. destruct (decide (x = l)) as [-> | ?]; [rewrite !lookup_insert_eq; split; eauto | rewrite !lookup_insert_ne by done; apply Hs].
  - split; cbn; unfold own'; try done.
    + exists []. by rewrite app_nil_r.
    + intros x nx Hx Hnx. rewrite !lookup_insert_ne by (by eapply not_eq_sym, Hne). split; [by exists nx | by left].
    + intros w x Hx. rewrite !lookup_insert_ne by (by eapply not_eq_sym, Hne). split; [done |]. intros nx Hnx. by exists nx.
    + intros w x Hx Hw. by rewrite !lookup_insert_ne by (by eapply not_eq_sym, Hne).
Qed.

Lemma dispose_node σ ns own u l : shape σ ns own → own !! l = Some (Private u) →
  let σ' := with_heap (delete l (heap σ)) σ in let own' := delete l own in dispose σ l = Ret σ' ∧ shape σ' ns own' ∧ benign u σ own σ' own'.
Proof.
  intros Hs Ho σ' own'. destruct (own_lookup _ _ _ _ _ Hs Ho) as [n Hn]. split; [unfold dispose, load; by rewrite Hn |]. split.
  - apply (shape_off_chain σ ns own); try done.
    + intros x. unfold own'. destruct (decide (x = l)) as [-> | ?]; [by rewrite lookup_delete_eq, Ho | by rewrite lookup_delete_ne].
    + intros x Hx. cbn. apply lookup_delete_ne. intros ->. congruence.
    + intros x. cbn. unfold own'. destruct (decide (x = l)) as [-> | ?]; [rewrite !lookup_delete_eq; split; by intros [? ?] | rewrite !lookup_delete_ne by done; apply Hs].
  - split; cbn; unfold own'; try done.
    + exists []. by rewrite app_nil_r.
    + intros x nx Hx Hnx. rewrite !lookup_delete_ne by (intros ->; congruence). split; [by exists nx | by left].
    + intros w x Hx. rewrite !lookup_delete_ne by (intros ->; congruence). split; [done |]. intros nx Hnx. by exists nx.
    + intros w x Hx Hw. rewrite !lookup_delete_ne by (intros ->; congruence). done.
Qed.

(** A private node is given up, to the purgatory of the thread or altogether. *)
Lemma hand_over σ ns own u l o m : shape σ ns own → own !! l = Some (Private u) → o = Retired u ∨ o = Lost →
  let σ' := with_heap (<[l := m]> (heap σ)) σ in let own' := <[l := o]> own in shape σ' ns own' ∧ benign u σ own σ' own'.
Proof.
  intros Hs Ho Hor σ' own'. destruct (own_lookup _ _ _ _ _ Hs Ho) as [n Hn]. assert (∀ x, own !! x = Some Chain → x ≠ l) as Hne by (intros x Hx ->; congruence). split.
  - apply (shape_off_chain σ ns own); try done.
    + intros x. unfold own'. destruct (decide (x = l)) as [-> | ?]; [rewrite lookup_insert_eq, Ho; destruct Hor as [-> | ->]; done | by rewrite lookup_insert_ne].
    + intros x Hx. cbn. by rewrite lookup_insert_ne by (by apply not_eq_sym, Hne).
    + intros x. cbn. unfold own'. destruct (decide (x = l)) as [-> | ?]; [rewrite !lookup_insert_eq; split; eauto | rewrite !lookup_insert_ne by done; apply Hs].
  - split; cbn; unfold own'; try done.
    + exists []. by rewrite app_nil_r.
    + intros x nx Hx Hnx. rewrite !lookup_insert_ne by (by apply not_eq_sym, Hne). split; [by exists nx | by left].
    + intros w x Hx. rewrite !lookup_insert_ne by (intros ->; congruence). split; [done |]. intros nx Hnx. by exists nx.
    + intros w x Hx Hw. rewrite !lookup_insert_ne by (intros ->; congruence). done.
Qed.
End steps.
