(* ===== verification/LfChain.v ===== *)
(** * The lock-free hash table: the changes of the list *)

From S2P Require Import Prelude Bits LfHash LfOrder LfInv LfSteps.

Section list.
Context {K : Type} (coll : K → K → Z) `{!Comparison coll} (hash_function : K → Z) (dummy_key : K) (unique : bool).
Implicit Types (σ : LF_HASH K) (th : LF_PINS K) (n m : LF_SLIST K) (t u l : nat) (ns : list nat) (own : gmap nat owner) (tg : Z * K).

Abbreviation before := (before coll).
Abbreviation shape := (shape coll hash_function dummy_key unique).
Abbreviation ordered := (ordered coll).
Abbreviation legal := (legal coll unique).
Abbreviation well_formed := (well_formed hash_function dummy_key).

(** The neighbours in the list of a node that is in it. *)
Lemma chain_split σ ns own l n : shape σ ns own → own !! l = Some Chain → heap σ !! l = Some n → ∃ A B, ns = A ++ l :: B ∧ chain (heap σ) (link n) B.
Proof.
  intros Hs Ho Hn. apply (s_own _ _ _ _ _ _ _ Hs) in Ho. apply list_elem_of_split in Ho as (A & B & ->). pose proof (s_chain _ _ _ _ _ _ _ Hs) as Hc. destruct (chain_at _ _ _ _ _ Hc) as (n' & Hn' & HB). exists A, B. split; [done |]. congruence.
Qed.

Lemma well_formed_link n p : well_formed n → well_formed (set_link p n).
Proof. intros (? & ? & Hev & ?). split; [done |]. split; [done |]. split; [| done]. intros E. by destruct (Hev E). Qed.

(** The history grows. *)
Lemma history_snoc σ c : (∀ i c, history σ !! i = Some c → legal (contents (take i (history σ))) c) → legal (contents (history σ)) c →
  ∀ i c', (history σ ++ [c]) !! i = Some c' → legal (contents (take i (history σ ++ [c]))) c'.
Proof.
  intros Hhi Hc i c' Hi. apply lookup_app_Some in Hi as [Hi | [Hge Hi]].
  - pose proof (lookup_lt_Some _ _ _ Hi). rewrite take_app_le by lia. by eapply Hhi.
  - destruct (i - length (history σ))%nat eqn:E; [| done]. injection Hi as <-. replace i with (length (history σ)) by lia. by rewrite take_app_length.
Qed.

(** The mark of a deleted node. *)
Lemma mark_node σ ns own u c n : shape σ ns own → own !! c = Some Chain → heap σ !! c = Some n → deleted n = false → Z.odd (hashnr n) = true →
  let σ' := record (Removed u c (data n)) (with_heap (<[c := set_deleted n]> (heap σ)) σ) in shape σ' ns own ∧ benign u σ own σ' own.
Proof.
  intros Hs Ho Hn Hdel Hodd σ'. split.
  - destruct Hs as [Hnd Hc Hso Hwf Hown Hdom Hsl Hco Hhi Hsz]. split; cbn; try done.
    + eapply nodes_chain_ext; [| done]. intros l m Hl Hm. destruct (decide (l = c)) as [-> | ?]; [rewrite lookup_insert_eq; exists (set_deleted n); split; [done |]; cbn; congruence | exists m; by rewrite lookup_insert_ne].
    + eapply ordered_ext; [| done]. intros l m Hl Hm. apply lookup_insert_Some in Hm as [[<- <-] | [? ?]]; [by exists n | by exists m].
    + intros l m Hl Hm. apply lookup_insert_Some in Hm as [[<- <-] | [? ?]]; [| by eapply Hwf]. destruct (Hwf c n) as (? & ? & ? & ?); [by apply Hown | done |]. split; [done |]. split; [done |]. split; [| done]. cbn. intros Hev. rewrite <- Z.negb_even, Hev in Hodd. done.
    + intros l. rewrite Hdom. destruct (decide (l = c)) as [-> | ?]; [rewrite lookup_insert_eq, Hn; split; eauto | by rewrite lookup_insert_ne].
    + intros b d Hbd. destruct (Hsl b d Hbd) as (Hb & m & Hm & Hod & Hh). split; [done |]. destruct (decide (d = c)) as [-> | ?]; [exists (set_deleted n); rewrite lookup_insert_eq; cbn; repeat split; congruence | exists m; by rewrite lookup_insert_ne].
    + intros l k. rewrite contents_snoc. cbn. destruct (decide (l = c)) as [-> | ?].
      * rewrite lookup_delete_eq, lookup_insert_eq. split; [done |]. by intros (m & _ & [= <-] & ? & _).
      * rewrite lookup_delete_ne, lookup_insert_ne by done. apply Hco.
    + apply history_snoc; [done |]. apply Hco. by exists n.
  - split; cbn; try done.
    + exists [Removed u c (data n)]. split; [done |]. by constructor.
    + intros l m Hl Hm. split; [| by left]. destruct (decide (l = c)) as [-> | ?]; [| rewrite lookup_insert_ne by done; by exists m]. rewrite lookup_insert_eq. exists (set_deleted n). split; [done |]. assert (m = n) as -> by congruence. split; [done |]. congruence.
    + intros w l Hl. split; [done |]. intros m Hm. rewrite lookup_insert_ne by (intros ->; congruence). by exists m.
    + intros w l Hl Hw. rewrite lookup_insert_ne by (intros ->; congruence). done.
Qed.

(** A deleted node is unlinked from the node before it. *)
Lemma unlink_cas σ ns own u p np c nc : shape σ ns own → own !! p = Some Chain → heap σ !! p = Some np → deleted np = false → link np = Some c → heap σ !! c = Some nc → deleted nc = true →
  let σ' := with_heap (<[p := set_link (link nc) np]> (heap σ)) σ in let own' := <[c := Retired u]> own in
  own !! c = Some Chain ∧ Z.odd (hashnr nc) = true ∧ c ≠ p ∧ (∃ ns', shape σ' ns' own') ∧ benign u σ own σ' own'.
Proof.
  intros Hs Hop Hp Hdp Hlp Hc Hdc σ' own'. destruct (chain_split σ ns own p np Hs Hop Hp) as (A & B & -> & HB). rewrite Hlp in HB. destruct B as [| c' B]; [done |]. destruct HB as ([= <-] & n' & Hn' & HB). assert (n' = nc) as -> by congruence.
  pose proof Hs as [Hnd Hch Hso Hwf Hown Hdom Hsl Hco Hhi Hsz]. assert (c ∈ A ++ p :: c :: B) as Hin by (apply elem_of_app; right; right; by left). assert (own !! c = Some Chain) as Hoc by (by apply Hown).
  assert (Z.odd (hashnr nc) = true) as Hodd. { destruct (Hwf c nc Hin Hc) as (_ & _ & Hev & _). rewrite <- Z.negb_even. destruct (Z.even (hashnr nc)); [| done]. destruct (Hev eq_refl). congruence. }
  assert (NoDup (A ++ p :: B) ∧ c ∉ A ++ p :: B) as [Hnd' Hcn].
  { assert (A ++ p :: c :: B ≡ₚ c :: A ++ p :: B) as Hperm by solve_Permutation. rewrite Hperm in Hnd. by apply NoDup_cons in Hnd as [? ?]. }
  assert (c ≠ p) as Hcp by (intros ->; apply Hcn; apply elem_of_app; right; by left). split; [done |]. split; [done |]. split; [done |].
  assert (∀ l, l ∈ A ++ p :: B → l ∈ A ++ p :: c :: B) as Hsub by (intros l; rewrite !elem_of_app, !elem_of_cons; tauto).
  assert (∀ l, l ∈ A ++ p :: c :: B → l ≠ c → l ∈ A ++ p :: B) as Hsub' by (intros l; rewrite !elem_of_app, !elem_of_cons; tauto).
  assert (p ∉ A ∧ p ∉ B) as [HpA HpB]. { apply NoDup_app in Hnd' as (_ & Hd & [HpB _]%NoDup_cons). split; [| done]. intros Hx. apply (Hd p Hx). by left. }
  split.
  - exists (A ++ p :: B). split; cbn; try done.
    + eapply (chain_relink (heap σ)); [done | | apply lookup_insert_eq |].
      * intros x nx Hx Hnx. exists nx. rewrite lookup_insert_ne; [done |]. by intros ->.
      * cbn. eapply nodes_chain_ext; [| done]. intros x nx Hx Hnx. exists nx. rewrite lookup_insert_ne; [done |]. by intros ->.
    + apply (ordered_ext coll (heap σ)).
      * intros l m Hl Hm. apply lookup_insert_Some in Hm as [[<- <-] | [? ?]]; [by exists np | by exists m].
      * apply StronglySorted_app in Hso as (Hx & HA & HpB'). apply StronglySorted_cons in HpB' as [Hfp HB']. apply StronglySorted_cons in HB' as [_ HB'].
        apply StronglySorted_app. split; [| split; [done |]]. { intros x y Hxi Hyi. apply Hx; [done |]. revert Hyi. rewrite !elem_of_cons. tauto. }
        apply StronglySorted_cons. split; [by apply Forall_cons in Hfp as [_ ?] | done].
    + intros l m Hl Hm. apply lookup_insert_Some in Hm as [[<- <-] | [? ?]]; [| eapply Hwf; [by apply Hsub | done]].
      apply well_formed_link, (Hwf p); [by apply Hsub | done].
    + intros l. unfold own'. destruct (decide (l = c)) as [-> | Hne]; [rewrite lookup_insert_eq; split; done |]. rewrite lookup_insert_ne, Hown by done. split; auto.
    + intros l. unfold own'. transitivity (is_Some (own !! l)).
      { destruct (decide (l = c)) as [-> | ?]; [rewrite lookup_insert_eq, Hoc; split; eauto | by rewrite lookup_insert_ne]. }
      rewrite Hdom. destruct (decide (l = p)) as [-> | ?]; [rewrite lookup_insert_eq, Hp; split; eauto | by rewrite lookup_insert_ne].
    + intros b d Hbd. destruct (Hsl b d Hbd) as (Hb & m & Hm & Hod & Hh). split; [done |]. assert (d ≠ c) as Hdc'. { intros ->. assert (m = nc) as -> by congruence. rewrite Hh, <- Z.negb_even, reversed_even in Hodd by done. done. }
      destruct (decide (d = p)) as [-> | ?]; [exists (set_link (link nc) np); rewrite lookup_insert_eq | exists m; rewrite lookup_insert_ne by done]; unfold own'; rewrite lookup_insert_ne by done; cbn; [assert (m = np) as -> by congruence |]; done.
    + intros l k. rewrite Hco. unfold own'. split; intros (m & Hom & Hm & Hd & Hod & Hk).
      * assert (l ≠ c) as Hlc by (intros ->; congruence). rewrite lookup_insert_ne by done. destruct (decide (l = p)) as [-> | ?]; [| exists m; by rewrite lookup_insert_ne].
        exists (set_link (link nc) np). rewrite lookup_insert_eq. assert (m = np) as -> by congruence. done.
      * assert (l ≠ c) as Hlc by (intros ->; rewrite lookup_insert_eq in Hom; done). rewrite lookup_insert_ne in Hom by done. destruct (decide (l = p)) as [-> | ?]; [| exists m; by rewrite lookup_insert_ne in Hm].
        rewrite lookup_insert_eq in Hm. injection Hm as <-. by exists np.
  - split; cbn; unfold own'; try done.
    + exists []. by rewrite app_nil_r.
    + intros l m Hl Hm. split.
      * destruct (decide (l = p)) as [-> | ?]; [| rewrite lookup_insert_ne by done; by exists m]. rewrite lookup_insert_eq. exists (set_link (link nc) np). split; [done |]. assert (m = np) as -> by congruence. split; [done |]. congruence.
      * destruct (decide (l = c)) as [-> | ?]; [right; rewrite lookup_insert_eq; assert (m = nc) as -> by congruence; done | left; by rewrite lookup_insert_ne].
    + intros w l Hl. rewrite lookup_insert_ne by (intros ->; congruence). split; [done |]. intros m Hm. rewrite lookup_insert_ne by (intros ->; congruence). by exists m.
    + intros w l Hl Hw. rewrite !lookup_insert_ne by (intros ->; congruence). done.
Qed.

(** A node that is put behind another keeps the list sorted. *)
Lemma sorted_between σ ns own p np l nl A B : shape σ ns own → ns = A ++ p :: B → heap σ !! p = Some np → chain (heap σ) (link np) B → heap σ !! l = Some nl →
  before (rank np) (rank nl) → (∀ c nc, link np = Some c → heap σ !! c = Some nc → ¬ before (rank nc) (rank nl)) → StronglySorted (ordered (heap σ)) (A ++ p :: l :: B).
Proof.
  intros Hs -> Hp HB Hl Hpl Hlc. pose proof (s_sorted _ _ _ _ _ _ _ Hs) as Hso. pose proof Hso as [HAB [HA [HpB HBs]%StronglySorted_cons]]%StronglySorted_app.
  assert (∀ x, x ∈ B → ordered (heap σ) l x) as HlB.
  { intros x Hx n m Hn Hm. assert (n = nl) as -> by congruence. destruct B as [| c B]; [by apply elem_of_nil in Hx |]. destruct HB as (Ec & nc & Hc & _). apply StronglySorted_cons in HBs as [HcB _].
    apply elem_of_cons in Hx as [-> | Hx]; [by apply (Hlc c m) |]. rewrite Forall_forall in HcB. exact (not_before_trans coll _ _ _ (Hlc c nc Ec Hc) (HcB x Hx nc m Hc Hm)). }
  assert (∀ x, x ∈ A ++ [p] → ordered (heap σ) x l) as HAl.
  { intros x Hx n m Hn Hm. assert (m = nl) as -> by congruence. apply before_not_before; [done |]. eapply le_before_trans; [done | | done]. by eapply (ordered_before coll (heap σ) A p B x). }
  apply StronglySorted_app. split; [| split; [done |]].
  - intros x y Hx [-> | [-> | Hy]%elem_of_cons]%elem_of_cons; [apply HAB; [done | by left] | apply HAl, elem_of_app; by left | apply HAB; [done | by right]].
  - apply StronglySorted_cons. split; [constructor; [apply HAl, elem_of_app; right; by left | done] |]. apply StronglySorted_cons. split; [by apply Forall_forall | done].
Qed.

(** No element has the place between two neighbours. *)
Lemma absent_between σ ns own p np tg l k : shape σ ns own → own !! p = Some Chain → heap σ !! p = Some np → before (rank np) tg →
  (∀ c nc, link np = Some c → heap σ !! c = Some nc → before tg (rank nc)) → contents (history σ) !! l = Some k → ¬ same_place coll hash_function k tg.
Proof.
  intros Hs Hop Hp Hbp Hbc (n & Ho & Hn & _ & Hodd & <-)%(s_contents _ _ _ _ _ _ _ Hs) Hsame. destruct (chain_split σ ns own p np Hs Hop Hp) as (A & B & -> & HB). apply (s_own _ _ _ _ _ _ _ Hs) in Ho as Hin.
  destruct (s_nodes _ _ _ _ _ _ _ Hs l n Hin Hn) as (_ & _ & _ & Hh). rewrite <- Z.negb_even in Hodd. apply negb_true_iff in Hodd. assert (rank n = (element_hashnr hash_function (data n), data n)) as Er by (unfold rank; by rewrite Hh).
  pose proof (s_sorted _ _ _ _ _ _ _ Hs) as Hso. apply elem_of_app in Hin as [Hin | [-> | Hin]%elem_of_cons].
  - assert (¬ before (rank np) (rank n)) as Hle by (eapply (ordered_before coll (heap σ) A p B l); [done.. |]; apply elem_of_app; by left). apply Hle. rewrite Er. by apply (same_place_after coll hash_function _ tg).
  - assert (n = np) as -> by congruence. rewrite Er in Hbp. apply (same_place_before coll hash_function _ tg) in Hbp; [| done]. by apply before_irrefl in Hbp.
  - destruct B as [| c B]; [by apply elem_of_nil in Hin |]. destruct HB as (Ec & nc & Hc & _). specialize (Hbc c nc Ec Hc). replace (A ++ p :: c :: B) with ((A ++ [p]) ++ c :: B) in Hso by (by rewrite <- app_assoc).
    assert (¬ before (rank n) (rank nc)) as Hle by (by eapply (ordered_after coll (heap σ) (A ++ [p]) c B l)). apply Hle. rewrite Er. apply (same_place_before coll hash_function _ tg); done.
Qed.

Lemma link_cas σ ns own u p np l nl ext σ' : shape σ ns own → own !! p = Some Chain → heap σ !! p = Some np → deleted np = false →
  own !! l = Some (Private u) → heap σ !! l = Some nl → link nl = link np → deleted nl = false → well_formed nl →
  before (rank np) (rank nl) → (∀ c nc, link np = Some c → heap σ !! c = Some nc → ¬ before (rank nc) (rank nl)) →
  (ext = [] ∧ Z.even (hashnr nl) = true ∨ ext = [Added u l (data nl)] ∧ Z.odd (hashnr nl) = true ∧ (unique = true → absent coll (contents (history σ)) (data nl))) →
  heap σ' = <[p := set_link (Some l) np]> (heap σ) → array σ' = array σ → h_size σ' = h_size σ → threads σ' = threads σ → history σ' = history σ ++ ext →
  (∃ ns', shape σ' ns' (<[l := Chain]> own)) ∧ benign u σ own σ' (<[l := Chain]> own).
Proof.
  intros Hs Hop Hp Hdp Hol Hl Hll Hdl Hwl Hpl Hlc Hext Eh Ea Es Et Ehi. destruct (chain_split σ ns own p np Hs Hop Hp) as (A & B & -> & HB). pose proof (sorted_between _ _ _ p np l nl A B Hs eq_refl Hp HB Hl Hpl Hlc) as Hsorted.
  pose proof Hs as [Hnd Hch Hso Hwf Hown Hdom Hsl Hco Hhi Hsz]. assert (l ∉ A ++ p :: B) as Hlns by (intros Hin%Hown; congruence). assert (l ≠ p) as Hlp by (intros ->; congruence).
  assert (p ∉ A ∧ p ∉ B) as [HpA HpB]. { apply NoDup_app in Hnd as (_ & Hd & [HpB _]%NoDup_cons). split; [| done]. intros Hx. apply (Hd p Hx). by left. }
  assert (A ++ p :: l :: B ≡ₚ l :: A ++ p :: B) as Hperm by solve_Permutation. split.
  - exists (A ++ p :: l :: B). split; rewrite ?Eh, ?Ea, ?Es, ?Ehi; try done.
    + rewrite Hperm. by constructor.
    + eapply (chain_relink (heap σ)); [done | | apply lookup_insert_eq |].
      * intros x nx Hx Hnx. exists nx. rewrite lookup_insert_ne; [done |]. by intros ->.
      * cbn. split; [done |]. exists nl. rewrite lookup_insert_ne, Hll by done. split; [done |]. eapply nodes_chain_ext; [| done]. intros x nx Hx Hnx. exists nx. rewrite lookup_insert_ne; [done |]. by intros ->.
    + eapply ordered_ext; [| done]. intros x m Hx Hm. apply lookup_insert_Some in Hm as [[<- <-] | [? ?]]; [by exists np | by exists m].
    + intros x m Hx Hm. rewrite Hperm in Hx. apply lookup_insert_Some in Hm as [[<- <-] | [Hne Hm]]; [apply well_formed_link, (Hwf p); [by apply Hown | done] |].
      apply elem_of_cons in Hx as [-> | Hx]; [by assert (m = nl) as -> by congruence | by eapply Hwf].
    + intros x. rewrite Hperm, elem_of_cons, <- Hown. destruct (decide (x = l)) as [-> | ?]; [rewrite lookup_insert_eq; tauto | rewrite lookup_insert_ne by done; tauto].
    + intros x. transitivity (is_Some (own !! x)).
      { destruct (decide (x = l)) as [-> | ?]; [rewrite lookup_insert_eq, Hol; split; eauto | by rewrite lookup_insert_ne]. }
      rewrite Hdom. destruct (decide (x = p)) as [-> | ?]; [rewrite lookup_insert_eq, Hp; split; eauto | by rewrite lookup_insert_ne].
    + intros b d Hbd. destruct (Hsl b d Hbd) as (Hb & m & Hm & Hod & Hh). split; [done |]. assert (d ≠ l) as Hdl' by (intros ->; congruence). rewrite (lookup_insert_ne own) by done.
      destruct (decide (d = p)) as [-> | ?]; [exists (set_link (Some l) np); rewrite lookup_insert_eq; assert (m = np) as -> by congruence; done | exists m; by rewrite lookup_insert_ne].
    + intros x k. destruct (decide (x = l)) as [-> | Hne].
      * rewrite lookup_insert_eq, lookup_insert_ne, Hl by done. destruct Hext as [[-> Hev] | (-> & Hodd & _)].
        -- rewrite app_nil_r, Hco, Hol. split; [by intros (? & ? & _) |]. intros (n & _ & [= <-] & _ & Hodd & _). by rewrite <- Z.negb_even, Hev in Hodd.
        -- rewrite contents_snoc. cbn. rewrite lookup_insert_eq. split; [intros [= <-]; by exists nl | by intros (n & _ & [= <-] & _ & _ & <-)].
      * assert (contents (history σ ++ ext) !! x = contents (history σ) !! x) as ->. { destruct Hext as [[-> _] | (-> & _)]; [by rewrite app_nil_r |]. rewrite contents_snoc. cbn. by rewrite lookup_insert_ne. }
        rewrite lookup_insert_ne, Hco by done. destruct (decide (x = p)) as [-> | ?]; [| by rewrite lookup_insert_ne]. rewrite lookup_insert_eq, Hp.
        split; [intros (n & ? & [= <-] & _ & ?); exists (set_link (Some l) np) | intros (n & ? & [= <-] & _ & ?); exists np]; (split; [done |]; split; [done |]; by split).
    + destruct Hext as [[-> _] | (-> & _ & Habs)]; [by rewrite app_nil_r |]. apply history_snoc; [done |]. split; [| done]. apply eq_None_not_Some. intros [k (n & Ho & _)%Hco]. congruence.
  - split; rewrite ?Eh, ?Ea; try done.
    + exists ext. split; [done |]. destruct Hext as [[-> _] | (-> & _)]; [done |]. by constructor.
    + intros x m Hx Hm. rewrite (lookup_insert_ne own) by (intros ->; congruence). split; [| by left]. destruct (decide (x = p)) as [-> | ?]; [| rewrite lookup_insert_ne by done; by exists m].
      rewrite lookup_insert_eq. eexists. split; [done |]. assert (m = np) as -> by congruence. split; [done |]. congruence.
    + intros w x Hx. rewrite (lookup_insert_ne own) by (intros ->; congruence). split; [done |]. intros m Hm. rewrite lookup_insert_ne by (intros ->; congruence). by exists m.
    + intros w x Hx Hw. rewrite !lookup_insert_ne by (intros ->; congruence). done.
Qed.

(** The first node of the list, the dummy node of the bucket 0. *)
Lemma link_first σ ns own u l nl σ' : shape σ ns own → array σ !! 0 = None → own !! l = Some (Private u) → heap σ !! l = Some nl → link nl = None → deleted nl = false → well_formed nl → hashnr nl = 0 →
  heap σ' = heap σ → array σ' = <[0 := l]> (array σ) → h_size σ' = h_size σ → threads σ' = threads σ → history σ' = history σ →
  shape σ' [l] (<[l := Chain]> own) ∧ benign u σ own σ' (<[l := Chain]> own).
Proof.
  intros Hs Ha Hol Hl Hll Hdl Hwl Hh Eh Ea Es Et Ehi. pose proof Hs as [Hnd Hch Hso Hwf Hown Hdom Hsl Hco Hhi Hsz]. rewrite Ha in Hch. assert (ns = []) as -> by (destruct ns; [done | by destruct Hch]).
  assert (∀ x, own !! x ≠ Some Chain) as Hnone by (intros x Hx%Hown; by apply elem_of_nil in Hx). split.
  - split; rewrite ?Eh, ?Ea, ?Es, ?Ehi; try done.
    + apply NoDup_singleton.
    + rewrite lookup_insert_eq. cbn. split; [done |]. exists nl. by rewrite Hll.
    + repeat constructor.
    + intros x m ->%list_elem_of_singleton Hm. by assert (m = nl) as -> by congruence.
    + intros x. rewrite list_elem_of_singleton. destruct (decide (x = l)) as [-> | ?]; [by rewrite lookup_insert_eq | rewrite lookup_insert_ne by done]. split; [| done]. intros Hx. by destruct (Hnone x).
    + intros x. rewrite <- Hdom. destruct (decide (x = l)) as [-> | ?]; [rewrite lookup_insert_eq, Hol; split; eauto | by rewrite lookup_insert_ne].
    + intros b d [[<- <-] | [_ Hbd]]%lookup_insert_Some; [split; [lia |]; exists nl; by rewrite lookup_insert_eq |]. destruct (Hsl b d Hbd) as (_ & _ & _ & Hd & _). by destruct (Hnone d).
    + intros x k. rewrite Hco. split; intros (n & Hx & Hn & Hd & Hodd & Hk); [by destruct (Hnone x) |]. destruct (decide (x = l)) as [-> | ?]; [assert (n = nl) as -> by congruence; by rewrite Hh in Hodd |]. rewrite lookup_insert_ne in Hx by done. by destruct (Hnone x).
  - split; rewrite ?Eh, ?Ea; try done.
    + intros b d Hbd. destruct (Hsl b d Hbd) as (_ & _ & _ & Hd & _). by destruct (Hnone d).
    + exists []. by rewrite app_nil_r.
    + intros x m Hx. by destruct (Hnone x).
    + intros w x Hx. rewrite lookup_insert_ne by (intros ->; congruence). split; [done |]. intros m Hm. by exists m.
    + intros w x Hx Hw. rewrite lookup_insert_ne by (intros ->; congruence). done.
Qed.

(** A bucket gets its dummy node. *)
Lemma publish_bucket σ ns own u b d : shape σ ns own → array σ !! b = None → 0 ≤ b < 2 ^ 31 → dummy_at σ own d b →
  let σ' := with_array (<[b := d]> (array σ)) σ in shape σ' ns own ∧ benign u σ own σ' own.
Proof.
  intros Hs Ha Hb (n & Hn & Ho & Hh) σ'. pose proof Hs as [Hnd Hch Hso Hwf Hown Hdom Hsl Hco Hhi Hsz]. assert (b ≠ 0) as Hb0. { intros ->. rewrite Ha in Hch. apply Hown in Ho. destruct ns; [by apply elem_of_nil in Ho | by destruct Hch]. } split.
  - split; cbn; try done.
    + by rewrite lookup_insert_ne.
    + intros b' d' [[<- <-] | [_ Hbd]]%lookup_insert_Some; [split; [done |]; by exists n | by apply Hsl].
  - split; cbn; try done.
    + intros b' d' Hbd. rewrite lookup_insert_ne; [done |]. intros ->. congruence.
    + exists []. by rewrite app_nil_r.
    + intros x m Hx Hm. split; [by exists m | by left].
    + intros w x Hx. split; [done |]. intros m Hm. by exists m.
Qed.
End list.
