(* ===== verification/LfFind.v ===== *)
(** * The lock-free hash table: [l_find]

    Every step of [l_find] is defined and keeps the invariant. *)

From S2P Require Import Prelude Bits LfHash LfOrder LfInv LfSteps LfChain.

Section find.
Context {K : Type} (coll : K → K → Z) `{!Comparison coll} (hash_function : K → Z) (dummy_key : K) (unique : bool).
Implicit Types (σ : LF_HASH K) (th : LF_PINS K) (n m : LF_SLIST K) (t u l : nat) (ns : list nat) (own : gmap nat owner) (tg : Z * K).

Abbreviation before := (before coll).
Abbreviation shape := (shape coll hash_function dummy_key unique).
Abbreviation thread_ok := (thread_ok coll hash_function dummy_key unique).
Abbreviation table_ok := (table_ok coll hash_function dummy_key unique).
Abbreviation prev_ok := (prev_ok coll).
Abbreviation was_absent := (was_absent coll hash_function).
Abbreviation past := (past coll).
Abbreviation node_seen := (node_seen coll hash_function).
Abbreviation target := (target hash_function dummy_key).
Abbreviation task_ok := (task_ok coll hash_function dummy_key).
Abbreviation find_ok := (find_ok coll hash_function dummy_key).
Abbreviation pc_ok := (pc_ok coll hash_function dummy_key unique).
Abbreviation justified := (justified coll unique).

(** ** The end of a step *)

(** The state [σ1] with the thread [u] at [th1] has the invariant, and at most one answer was added. *)
Definition accepted σ u σ1 th1 : Prop :=
  (∃ ns own, table_ok (with_thread u th1 σ1) ns own) ∧ (∃ ext, history σ1 = history σ ++ ext) ∧
  (answers σ1 = answers σ ∨ ∃ a, answers σ1 = answers σ ++ [a] ∧ justified (history σ1) a).

Lemma accept σ ns own σ1 ns1 own1 u th th1 : table_ok σ ns own → threads σ !! u = Some th → benign u σ own σ1 own1 → shape σ1 ns1 own1 → answers σ1 = answers σ →
  thread_ok σ1 own1 u th1 → scan_fresh (pc th1) → accepted σ u σ1 th1.
Proof.
  intros Hok Hu Hb Hs Ha Hth Hf. split; [exists ns1, own1; by eapply commit_step |]. split; [| by left]. destruct (b_history _ _ _ _ _ Hb) as (ext & E & _). by exists ext.
Qed.

(** What a thread knows does not depend on where it stands or on its purgatory. *)
Lemma stack_ok_same σ th p' pins ls b fs : stack_ok hash_function dummy_key σ th b fs → stack_ok hash_function dummy_key σ (mkPins p' (op th) (bucket th) (node th) pins ls (start th)) b fs.
Proof. revert b. induction fs as [| [b' d] fs IH]; intros b; [done |]. cbn. intros (? & ? & ?). auto. Qed.

Lemma task_ok_same σ own u th p' pins ls k : task_ok σ own u th k → task_ok σ own u (mkPins p' (op th) (bucket th) (node th) pins ls (start th)) k.
Proof.
  destruct k as [b d fs | |]; [| exact (λ H, H)..]. intros (? & ? & ? & ? & ?). split; [done |]. split; [done |]. split; [done |]. split; [by apply stack_ok_same | done].
Qed.

Lemma pc_ok_same σ own u th p' ls p : pc_ok σ own u th p → pc_ok σ own u (mkPins p' (op th) (bucket th) (node th) (pin th) ls (start th)) p.
Proof.
  pose proof (stack_ok_same σ th p' (pin th) ls) as Hst. pose proof (task_ok_same σ own u th p' (pin th) ls) as Hta. induction p as [| | | | | | | | | k f q | k f | k f | s k dup | | | | | | | | | | | | | |]; cbn [LfInv.pc_ok]; try exact (λ H, H); [intros (? & ?) | intros (? & ?) | intros (? & ? & ?) | intros (? & ? & ?) | intros (? & ? & ?) | ..]; auto.
  - intros [? H]. split; [by apply Hta |]. revert H. destruct k, q; exact (λ H, H).
  - intros (? & ? & H). split; [by destruct k |]. split; [by apply Hta |]. revert H. destruct k; exact (λ H, H).
  - intros (? & ? & H & H'). split; [by destruct k |]. split; [by apply Hta |]. split; [revert H; destruct k; exact (λ H, H) | revert H'; destruct k; exact (λ H, H)].
  - intros [? H]. split; [done |]. destruct k, dup; try exact H; destruct H as (? & ? & ?); auto.
  - intros [? ?]. auto.
Qed.
Section local.
Context σ ns own u th (Hok : table_ok σ ns own) (Hu : threads σ !! u = Some th).

Lemma here : thread_ok σ own u th.
Proof using Hok Hu. by apply Hok. Qed.

(** A step that only changes the state of the thread. *)
Lemma accept_local th1 : length (pin th1) = LF_PINBOX_PINS → (start th1 ≤ length (history σ))%nat → privates th1 = privates th → pending (pc th1) ++ purgatory th1 = pending (pc th) ++ purgatory th →
  pc_ok σ own u th1 (pc th1) → scan_fresh (pc th1) → accepted σ u σ th1.
Proof using Hok Hu.
  intros Hpin Hst Hpr Hpe Hpc Hf. pose proof Hok as [Hs _]. pose proof here as []. eapply accept; [done.. | by apply benign_refl | done | done | | done]. split; rewrite ?Hpr, ?Hpe; done.
Qed.

Lemma accept_goto p : pc_privates p = pc_privates (pc th) → pending p = pending (pc th) → pc_ok σ own u th p → scan_fresh p → accepted σ u σ (goto p th).
Proof using Hok Hu. intros Hpr Hpe Hpc Hf. pose proof here as []. apply accept_local; try done; [unfold privates; cbn [pc node purgatory goto]; congruence.. | by apply pc_ok_same]. Qed.

Lemma accept_pin p s x : pc_privates p = pc_privates (pc th) → pending p = pending (pc th) → pc_ok σ own u (lf_pin s x th) p → scan_fresh p → accepted σ u σ (goto p (lf_pin s x th)).
Proof using Hok Hu. intros Hpr Hpe Hpc Hf. pose proof here as []. apply accept_local; try done; [cbn; by rewrite length_insert | unfold privates; cbn [pc node purgatory goto lf_pin]; congruence.. | by apply (pc_ok_same _ _ _ (lf_pin s x th))]. Qed.

(** ** Pins *)

Lemma safe_other s s' x l : s ≠ s' → safe σ own u th s l → safe σ own u (lf_pin s' x th) s l.
Proof using. intros Hne (Hs & Hp & H). split; [done |]. split; [| done]. cbn. by rewrite list_lookup_insert_ne. Qed.

(** A pin may be copied upwards. *)
Lemma safe_copy s s' l : (s < s' < LF_PINBOX_PINS)%nat → safe σ own u th s l → safe σ own u (lf_pin s' (Some l) th) s' l.
Proof using Hok Hu.
  intros Hlt (Hs & Hp & Hc & H). pose proof here as []. split; [lia |]. split; [cbn; rewrite list_lookup_insert_eq; [done | lia] |]. split; [| done]. intros w thw g i k Hw Hpc Hin. destruct (Hc w thw g i k Hw Hpc Hin); [left; lia | by right].
Qed.

(** A node that is in the list is in no purgatory. *)
Lemma safe_chain s l : (s < LF_PINBOX_PINS)%nat → pin th !! s = Some (Some l) → own !! l = Some Chain → safe σ own u th s l.
Proof using Hok.
  intros Hs Hp Ho. destruct Hok as [Hsh Hths]. split; [done |]. split; [done |]. split.
  - intros w thw g i k Hw _ Hin. destruct (Hths w thw Hw) as [_ _ _ _ Hret _ _]. apply Forall_app in Hret as [_ Hret]. rewrite Forall_forall in Hret. specialize (Hret l Hin). congruence.
  - destruct (own_lookup _ _ _ _ _ _ _ _ _ Hsh Ho) as [n Hn]. exists n. split; [done |]. by left.
Qed.

Lemma public_alive l n : public own l n → deleted n = false → own !! l = Some Chain.
Proof using. intros [? | (_ & ? & _)] ?; [done | congruence]. Qed.

Lemma public_even l n : public own l n → Z.even (hashnr n) = true → own !! l = Some Chain.
Proof using. intros [? | (_ & _ & Hodd)] Hev; [done |]. by rewrite <- Z.negb_even, Hev in Hodd. Qed.

Lemma safe_load s l : safe σ own u th s l → ∃ n, heap σ !! l = Some n ∧ load σ l = Ret n ∧ public own l n.
Proof using. intros (_ & _ & _ & n & Hn & Hp). exists n. unfold load. by rewrite Hn. Qed.

(** ** The list is seen to go past a place *)

Lemma now_absent tg : (∀ l k, contents (history σ) !! l = Some k → ¬ same_place coll hash_function k tg) → was_absent σ th tg.
Proof using Hok Hu. intros H. pose proof here as []. exists (length (history σ)). split; [lia |]. by rewrite take_ge by lia. Qed.

Lemma now_present l n : own !! l = Some Chain → heap σ !! l = Some n → deleted n = false → Z.odd (hashnr n) = true → was_present σ th l (data n).
Proof using Hok Hu.
  intros Ho Hn Hd Hodd. pose proof here as []. exists (length (history σ)). split; [lia |]. rewrite take_ge by lia. destruct Hok as [Hs _]. apply (s_contents _ _ _ _ _ _ _ Hs). by exists n.
Qed.

(** The node that another node of the list links to. *)
Lemma seen_now tg s p np : (s < LF_PINBOX_PINS)%nat → own !! p = Some Chain → heap σ !! p = Some np → before (rank np) tg → pin th !! s = Some (link np) → node_seen σ own u th tg s (link np).
Proof using Hok Hu Comparison0.
  intros Hs Hop Hp Hb Hpin. pose proof Hok as [Hsh _]. split.
  - destruct (chain_split _ _ _ _ _ _ _ _ _ Hsh Hop Hp) as (A & B & Ens & HB). destruct (link np) as [c |] eqn:E; [| done]. apply safe_chain; [done.. |]. apply (s_own _ _ _ _ _ _ _ Hsh). rewrite Ens. destruct B as [| c' B]; [done |]. destruct HB as [[= <-] _]. apply elem_of_app. right. right. by left.
  - intros Hpast. apply now_absent. intros l k. apply (absent_between coll hash_function dummy_key unique σ ns own p np tg l k Hsh Hop Hp Hb). intros c nc E Hc. rewrite E in Hpast. by apply Hpast.
Qed.
(** ** The return of [l_find] *)

(** What [l_find] has found out about the place [tg]. *)
Definition find_result tg (f : find) (found : bool) : Prop :=
  prev_ok σ own u th tg (f_prev f) ∧
  if found then ∃ c n, f_curr f = Some c ∧ heap σ !! c = Some n ∧ safe σ own u th 1 c ∧ hashnr n = tg.1 ∧ coll (data n) tg.2 = 0 ∧ (Z.odd tg.1 = true → was_present σ th c (data n))
  else was_absent σ th tg ∧ match f_curr f with None => True | Some c => safe σ own u th 1 c ∧ ∀ n, heap σ !! c = Some n → before tg (rank n) end.

Lemma find_place k f (found : bool) : find_result (target th k) f found → (found = true → match k with Dummy _ _ _ => False | _ => unique = false end) → place_ok coll hash_function dummy_key unique σ own u th k f.
Proof using Comparison0.
  intros [Hp Hf] Hun. split; [done |]. destruct found.
  - destruct Hf as (c & n & -> & Hn & Hs & Hh & Hc & _). split; [done |]. intros n' Hn'. assert (n' = n) as -> by congruence. split; [intros [? | [_ ?]]; cbn in *; lia |]. specialize (Hun eq_refl). destruct k; [done | congruence..].
  - destruct Hf as [_ Hf]. destruct (f_curr f) as [c |]; [| done]. destruct Hf as [Hs Hf]. split; [done |]. intros n Hn. split; [apply before_not_before; [done |] |]; auto.
Qed.

Lemma l_find_return_ok k f p (found : bool) : pc th = Find k f p → pending (pc th) = [] → task_ok σ own u th k → find_result (target th k) f found → accepted σ u σ (l_find_return unique th k f found).
Proof using Hok Hu Comparison0.
  intros Hpc Hpe Hk Hf. pose proof Hk as [_ Hk']. unfold l_find_return. destruct k as [b d fs | |].
  - destruct Hk' as (Hb & Hst & Hstack & n & Hn & Hr & Hkey). destruct found; cbn [andb]; apply accept_goto; rewrite ?Hpc in *; try done.
    + cbn. destruct Hf as [_ (c & n' & Hc & Hn' & Hs & Hh & _)]. rewrite Hc. done.
    + destruct Hf as [_ (c & n' & Hc & Hn' & Hs & Hh & _)]. cbn [LfInv.pc_ok]. rewrite Hc. split; [lia |]. split; [done |]. split; [done |]. exists n'. split; [done |]. split; [| done].
      destruct (safe_load 1 c Hs) as (m & Hm & _ & Hpub). assert (m = n') as -> by congruence. eapply public_even; [done |]. rewrite Hh. by apply reversed_even.
    + split; [done |]. split; [done |]. by apply (find_place _ _ false).
  - pose proof Hk' as [[Hno Hnode] Hins]. unfold node_ready in Hnode. destruct (op th) as [x | x | x |] eqn:Ho; [| | | done].
    + destruct (found && unique) eqn:E; apply accept_goto; rewrite ?Hpc in *; try done.
      * apply andb_true_iff in E as [-> Hun]. destruct Hf as [_ (c & n & Hc & Hn & Hs & Hh & Hco & Hpres)]. cbn [LfInv.pc_ok]. rewrite Hc. split; [lia |]. split; [apply Hk' |]. split; [done |]. exists x, c, (data n).
        split; [done |]. cbn in Hco, Hpres. rewrite Ho in Hco, Hpres. split; [apply Hpres, element_odd | done].
      * split; [by exists x |]. split; [done |]. apply (find_place _ _ found); [done |]. intros ->. by destruct unique.
    + destruct found; apply accept_goto; rewrite ?Hpc in *; try done.
      * destruct Hf as [Hp (c & n & Hc & Hn & Hs & Hh & Hco & _)]. split; [by exists x |]. split; [done |]. split; [done |]. by exists c, n.
      * destruct Hf as [_ [Ha _]]. split; [lia |]. split; [by exists x | done].
    + destruct found; apply accept_goto; rewrite ?Hpc in *; try done.
      * destruct Hf as [_ (c & n & -> & Hn & Hs & Hh & Hco & Hpres)]. split; [by exists x |]. split; [done |]. split; [| done]. exists (data n). split; [| done]. apply Hpres, element_odd.
      * destruct Hf as [_ [Ha _]]. split; [by exists x |]. by split.
  - apply accept_goto; rewrite ?Hpc in *; try done. split; [lia | done].
Qed.
(** ** The purgatory *)

(** A change of memory that leaves the private nodes of the thread and the history alone. *)
Lemma own_step σ1 own1 k : benign u σ own σ1 own1 → history σ1 = history σ → (∀ l, own !! l = Some (Private u) → own1 !! l = Some (Private u) ∧ heap σ1 !! l = heap σ !! l) →
  Forall (λ l, own !! l = Some (Private u)) (option_list (node th) ++ pc_privates k) → pc_ok σ own u th k → pc_ok σ1 own1 u th k.
Proof using Hok Hu.
  intros Hb Eh Hpr Hall Hpc. pose proof here as []. apply Forall_app in Hall as [Hn Hk]. eapply pc_ok_mono; [| done..]. split; [by eapply benign_evolves | done |].
  intros ext E. rewrite Eh, <- (app_nil_r (history σ)) in E at 1. by apply app_inv_head in E as <-.
Qed.

Lemma purge_ok l k : pending (pc th) = [l] → pc_privates k = pc_privates (pc th) → pending k = [] → match k with Scan _ _ _ => False | _ => True end → pc_ok σ own u th k →
  ∃ σ1 th1, lf_pinbox_free σ th l k = Ret (σ1, th1) ∧ accepted σ u σ1 th1.
Proof using Hok Hu.
  intros Hpe Hpr Hpk Hk Hpc. pose proof here as [Hpin Hst Hpriv Hnd Hret Hndr _]. pose proof Hok as [Hsh _]. rewrite Hpe in Hret, Hndr. cbn [app] in Hret, Hndr. pose proof (Forall_inv Hret) as Hol. cbn in Hol. destruct (own_lookup _ _ _ _ _ _ _ _ _ Hsh Hol) as [n Hn].
  destruct (write_off_chain coll hash_function dummy_key unique σ ns own u l n (clobber n) Hsh Hn) as [Hsh1 Hb]; [right; by split |]. unfold lf_pinbox_free, store, load. rewrite Hn. cbn [of_option]. obind. eexists _, _. split; [done |].
  assert (pc_ok (with_heap (<[l := clobber n]> (heap σ)) σ) own u th k) as Hpc1.
  { eapply own_step; [done | done | | unfold privates in Hpriv; by rewrite Hpr | done]. intros x Hx. split; [done |]. cbn. rewrite lookup_insert_ne; [done |]. intros ->. congruence. }
  eapply accept; [done.. | |].
  - split; cbn [pin start history with_heap goto with_purgatory pc purgatory node]; try done.
    + unfold privates. cbn [node pc goto with_purgatory]. by case_bool_decide; cbn [pc_privates]; rewrite Hpr.
    + unfold privates. cbn [node pc goto with_purgatory]. by case_bool_decide; cbn [pc_privates]; rewrite Hpr.
    + by case_bool_decide; cbn [pending]; rewrite ?Hpk.
    + by case_bool_decide; cbn [pending]; rewrite ?Hpk.
    + case_bool_decide; [split; [done |] |]; exact (pc_ok_same _ _ _ th _ _ k Hpc1).
  - cbn [pc goto]. case_bool_decide; [done |]. by destruct k.
Qed.
(** ** Memory changes of the thread itself *)

Lemma table_benign σ1 ns1 own1 : benign u σ own σ1 own1 → shape σ1 ns1 own1 → history σ1 = history σ → (∀ l, own !! l = Some (Private u) → own1 !! l = Some (Private u) ∧ heap σ1 !! l = heap σ !! l) → table_ok σ1 ns1 own1.
Proof using Hok.
  intros Hb Hs Eh Hpr. pose proof Hok as [_ Hths]. split; [done |]. intros t tht Ht. rewrite (b_threads _ _ _ _ _ Hb) in Ht. specialize (Hths t tht Ht).
  eapply lf_thread_mono; [| intros l; apply Hb | done]. destruct (decide (t = u)) as [-> | Hne]; [| by eapply benign_interferes]. split; [by eapply benign_evolves | done |].
  intros ext E. rewrite Eh, <- (app_nil_r (history σ)) in E at 1. by apply app_inv_head in E as <-.
Qed.

Lemma safe_cell tg c : prev_ok σ own u th tg c → ∃ v, read_cell σ c = Ret v.
Proof using.
  destruct c as [b | l]; [by eexists |]. cbn [read_cell]. intros [(n & Hn & _) | [_ (n & Hn & _)]]; unfold load; rewrite Hn; by eexists.
Qed.

(** A node before the place, which was not deleted when its link was compared. *)
Lemma alive_prev tg l n : prev_ok σ own u th tg (Link l) → heap σ !! l = Some n → deleted n = false → own !! l = Some Chain ∧ before (rank n) tg.
Proof using.
  intros [(m & Hm & Ho & _ & Hb) | [Hs (m & Hm & Hb)]] Hn Hd; (assert (m = n) as -> by congruence); [done |]. split; [| done]. destruct (safe_load 2 l Hs) as (m & Hm' & _ & Hpub). assert (m = n) as -> by congruence. by eapply public_alive.
Qed.

End local.

(** The attempt to unlink a deleted node. *)
Lemma unlink_ok σ ns own u th tg f : table_ok σ ns own → threads σ !! u = Some th → prev_ok σ own u th tg (f_prev f) → curr_dead σ own u th f →
  cas_cell σ (f_prev f) (f_curr f) (f_next f) = Ret (false, σ) ∨
  ∃ c σ1 ns1, cas_cell σ (f_prev f) (f_curr f) (f_next f) = Ret (true, σ1) ∧ f_curr f = Some c ∧ own !! c = Some Chain ∧ benign u σ own σ1 (<[c := Retired u]> own) ∧ table_ok σ1 ns1 (<[c := Retired u]> own) ∧
    history σ1 = history σ ∧ answers σ1 = answers σ ∧ (pin th !! 0%nat = Some (f_next f) → node_seen σ1 (<[c := Retired u]> own) u th tg 0 (f_next f)).
Proof using Comparison0.
  intros Hok Hu Hp (c & n & Hc & Hn & Hs & Hd & Hl). pose proof Hok as [Hsh _]. unfold cas_cell. destruct (f_prev f) as [b | p]; cbn [read_cell].
  - left. obind. rewrite decide_False; [done |]. rewrite Hc. intros [= E]. destruct (s_slots _ _ _ _ _ _ _ Hsh b c E) as (Hb & m & Hm & Ho & Hh). assert (m = n) as -> by congruence.
    destruct (s_nodes _ _ _ _ _ _ _ Hsh c n) as (_ & _ & Hev & _); [by apply (s_own _ _ _ _ _ _ _ Hsh) | done |]. destruct Hev as [? _]; [rewrite Hh; by apply reversed_even | congruence].
  - assert (∃ np, heap σ !! p = Some np) as [np Hnp] by (destruct Hp as [(m & Hm & _) | [_ (m & Hm & _)]]; by exists m). unfold load, store, load. rewrite Hnp. cbn [of_option]. obind. destruct (decide _) as [E | _]; [right | by left].
    injection E as El Ed. destruct (alive_prev _ _ _ _ tg p np Hp Hnp Ed) as [Hop Hb]. rewrite Hc in El. destruct (unlink_cas coll hash_function dummy_key unique σ ns own u p np c n Hsh Hop Hnp Ed El Hn Hd) as (Hoc & Hodd & Hcp & [ns1 Hsh1] & Hben).
    rewrite Hl in Hsh1, Hben. obind. eexists c, _, ns1. split; [done |]. split; [done |]. split; [done |]. split; [exact Hben |].
    assert (table_ok (with_heap (<[p := set_link (f_next f) np]> (heap σ)) σ) ns1 (<[c := Retired u]> own)) as Hok1.
    { eapply table_benign; [done | done | done | done |]. intros x Hx. rewrite lookup_insert_ne by (intros ->; congruence). split; [done |]. cbn. rewrite lookup_insert_ne; [done |]. intros ->. congruence. }
    split; [done |]. split; [done |]. split; [done |]. intros Hpin.
    apply (seen_now _ _ _ u th Hok1 Hu tg 0 p (set_link (f_next f) np)); [unfold LF_PINBOX_PINS; lia | by rewrite lookup_insert_ne | cbn; apply lookup_insert_eq | done | done].
Qed.
(** ** The steps of [l_find] *)

Section find_steps.
Context σ ns own u th (Hok : table_ok σ ns own) (Hu : threads σ !! u = Some th).
Context k f p (Hpc : pc th = Find k f p) (Htask : task_ok σ own u th k) (Hfind : find_ok σ own u th k f p).

Definition fine (r : outcome (LF_HASH K * LF_PINS K)) : Prop := ∃ σ1 th1, r = Ret (σ1, th1) ∧ accepted σ u σ1 th1.

Lemma fine_goto f' p' : pending (pc th) = [] → pending (Find k f' p') = [] → find_ok σ own u th k f' p' → fine (Ret (σ, goto (Find k f' p') th)).
Proof using Hok Hu Hpc Htask. intros Hpe Hpe' Hf. eexists _, _. split; [done |]. eapply accept_goto; [done.. | by rewrite Hpc | congruence | by split | done]. Qed.

Lemma fine_pin f' p' s x : pending (pc th) = [] → pending (Find k f' p') = [] → find_ok σ own u (lf_pin s x th) k f' p' → fine (Ret (σ, goto (Find k f' p') (lf_pin s x th))).
Proof using Hok Hu Hpc Htask.
  intros Hpe Hpe' Hf. eexists _, _. split; [done |]. eapply accept_pin; [done.. | by rewrite Hpc | congruence | | done]. split; [| done]. exact (task_ok_same _ _ _ th _ _ _ k Htask).
Qed.

Lemma fine_return f' (found : bool) : pending (pc th) = [] → f' = f → find_result σ own u th (target th k) f found → fine (Ret (σ, l_find_return unique th k f' found)).
Proof using Hok Hu Hpc Htask Comparison0. intros Hpe -> Hf. eexists _, _. split; [done |]. by eapply l_find_return_ok. Qed.

(** The head of the list has been read, and pinned in time. *)
Lemma head_seen v : head_ok coll σ own (target th k) (f_head f) → pin th !! 1%nat = Some (f_curr f) → read_cell σ (f_head f) = Ret v → v = (f_curr f, false) →
  prev_ok σ own u th (target th k) (f_head f) ∧ node_seen σ own u th (target th k) 1 (f_curr f).
Proof using Hok Hu Comparison0.
  intros Hh Hpin Hv ->. set (tg := target th k) in *. pose proof Hok as [Hsh _]. destruct (f_head f) as [b | l]; cbn [read_cell] in Hv.
  - split; [done |]. injection Hv as Ea. split.
    + rewrite <- Ea in *. destruct (array σ !! b) as [d |] eqn:E; [| done]. destruct (s_slots _ _ _ _ _ _ _ Hsh b d E) as (_ & n & Hn & Ho & _). eapply safe_chain; try done. unfold LF_PINBOX_PINS. lia.
    + intros Hpast. eapply now_absent; [done.. |]. intros x kx _ [Hel _]. destruct Hh as [(d & Hd & n & Hn & _ & _ & Hb) | [_ Htg]].
      * rewrite <- Ea, Hd in Hpast. cbn in Hpast. specialize (Hpast n Hn). exact (before_irrefl coll _ (rank_before_trans coll _ _ _ Hb Hpast)).
      * pose proof (element_odd hash_function kx) as Hodd. rewrite Hel, Htg in Hodd. done.
  - split; [by left |]. destruct Hh as (n & Hn & Ho & Hev & Hb). unfold load in Hv. rewrite Hn in Hv. injection Hv as El _. rewrite <- El in *. eapply seen_now; try done. unfold LF_PINBOX_PINS. lia.
Qed.

(** The link of the current node has been read, and the node it leads to has been pinned in time. *)
Lemma check0_ok h ok mark c n : pending (pc th) = [] → head_ok coll σ own (target th k) (f_head f) → prev_ok σ own u th (target th k) (f_prev f) → node_seen σ own u th (target th k) 1 (f_curr f) → pin th !! 0%nat = Some (f_next f) →
  f_curr f = Some c → heap σ !! c = Some n → h = hashnr n → (ok = false → deleted n = true) → link n = f_next f → deleted n = mark →
  fine (if (mark : bool) then Ret (σ, goto (Find k f FHelp) th)
        else if bool_decide (h < (target th k).1) then Ret (σ, goto (Find k f (FPin2 h)) th)
        else if bool_decide ((target th k).1 < h) then Ret (σ, l_find_return unique th k f false)
        else Ret (σ, goto (Find k f (FCompare h ok)) th)).
Proof using Hok Hu Hpc Htask Comparison0.
  intros Hpe Hh Hp Hs Hpin Hc Hn -> Hok' Hl Hm. pose proof Hs as [Hsafe Hpast]. rewrite Hc in Hsafe. destruct (safe_load _ _ _ _ 1 c Hsafe) as (m & Hm' & _ & Hpub). assert (m = n) as -> by congruence. destruct mark.
  { apply fine_goto; [done.. |]. split; [done |]. split; [done |]. split; [| done]. by exists c, n. }
  pose proof (public_alive own c n Hpub Hm) as Hoc. set (tg := target th k) in *.
  assert (before (rank n) tg → node_seen σ own u th tg 0 (f_next f)) as Hnext. { intros Hb. rewrite <- Hl in *. eapply seen_now; try done. unfold LF_PINBOX_PINS. lia. }
  case_bool_decide as H1.
  { apply fine_goto; [done.. |]. assert (before (rank n) tg) as Hb by (by left). split; [done |]. split; [by apply Hnext |]. by exists c, n. }
  case_bool_decide as H2.
  { assert (∀ n', heap σ !! c = Some n' → before tg (rank n')) as Hb by (intros n' Hn'; assert (n' = n) as -> by congruence; by left). apply fine_return; [done.. |]. split; [done |]. rewrite Hc in *. split; [by apply Hpast |]. done. }
  apply fine_goto; [done.. |]. split; [done |]. split; [done |]. split; [done |]. split; [destruct ok; [done | by rewrite (Hok' eq_refl) in Hm] |]. split; [fold tg; lia |]. split.
  - destruct (f_next f) as [x |] eqn:E; [| done]. destruct (chain_split _ _ _ _ _ _ _ _ _ (proj1 Hok) Hoc Hn) as (A & B & Ens & HB). eapply safe_chain; try done; [unfold LF_PINBOX_PINS; lia |]. apply (s_own _ _ _ _ _ _ _ (proj1 Hok)). rewrite Ens. destruct B as [| x' B]; [cbn in HB; congruence |]. destruct HB as [Ex _].
    assert (x' = x) as -> by congruence. apply elem_of_app. right. right. by left.
  - exists c, n. split; [done |]. split; [done |]. split; [done |]. split; [intros Hodd; by eapply now_present |]. intros Hb. by apply Hnext.
Qed.

Lemma help_ok : p = FHelp → fine ('(done, σ') ← cas_cell σ (f_prev f) (f_curr f) (f_next f);
  if (done : bool) then Ret (σ', goto (Find k f FPurge) th) else Ret (σ', goto (Find k (mkFind (f_head f) (f_head f) (f_curr f) (f_next f)) FRead) th)).
Proof using Hok Hu Hpc Htask Hfind Comparison0.
  intros Ep. pose proof Hfind as [Hh Hf]. rewrite Ep in Hf. destruct Hf as (Hp & Hdead & Hpin). assert (pending (pc th) = []) as Hpe by (by rewrite Hpc, Ep).
  destruct (unlink_ok σ ns own u th (target th k) f Hok Hu Hp Hdead) as [-> | (c & σ1 & ns1 & -> & Hc & Hoc & Hb & Hok1 & Ehi & Ean & Hseen)]; obind.
  { by apply fine_goto; [.. | split]. }
  eexists _, _. split; [done |]. pose proof (b_threads _ _ _ _ _ Hb) as Et. assert (threads σ1 !! u = Some th) as Hu1 by (by rewrite Et). pose proof (here _ _ _ _ _ Hok1 Hu1) as [Hpins Hst Hpriv Hnd Hret Hndr Hpc1].
  rewrite Hpc in Hpc1. destruct Hpc1 as [Htask1 [Hh1 Hf1]]. rewrite Ep in Hf1. destruct Hf1 as (Hp1 & _). eapply accept; [done | done | done | by apply Hok1 | done | | done].
  split; try done.
  - unfold privates in *. cbn [pc goto node]. by rewrite Hpc in Hpriv.
  - unfold privates in *. cbn [pc goto node]. by rewrite Hpc in Hnd.
  - cbn [pc goto pending purgatory]. rewrite Hc. cbn. rewrite Hpe in Hret. constructor; [apply lookup_insert_eq | done].
  - cbn [pc goto pending purgatory]. rewrite Hc. cbn. rewrite Hpe in Hndr. constructor; [| done]. pose proof (here _ _ _ _ _ Hok Hu) as [_ _ _ _ Hret0 _ _]. rewrite Hpe in Hret0. intros Hin. cbn in Hret0. rewrite Forall_forall in Hret0. specialize (Hret0 c Hin). cbn in Hret0. congruence.
  - cbn [pc goto]. apply (pc_ok_same _ _ _ th). split; [done |]. split; [done |]. split; [done |]. split; [by apply Hseen | by rewrite Hc].
Qed.

End find_steps.

Lemma find_step_ok σ ns own u th k f p : table_ok σ ns own → threads σ !! u = Some th → pc th = Find k f p → fine σ u (find_step coll hash_function dummy_key unique σ th k f p).
Proof using Comparison0.
  intros Hok Hu Hpc. pose proof (t_pc _ _ _ _ _ _ _ _ (here _ _ _ _ _ Hok Hu)) as Hall. rewrite Hpc in Hall. destruct Hall as [Htask Hfind]. pose proof Hfind as [Hh Hf]. assert (p ≠ FPurge → pending (pc th) = []) as Hpe by (rewrite Hpc; by destruct p).
  destruct p as [| | | | h | h ok | h ok mark | h ok mark | h ok | h | | |]; cbn [find_step].
  - assert (∃ v, read_cell σ (f_prev f) = Ret v) as [[curr mark] ->]. { rewrite Hf. destruct (f_head f) as [b | l]; [by eexists |]. destruct Hh as (n & Hn & _). cbn. unfold load. rewrite Hn. by eexists. }
    obind. eapply fine_goto; [done.. | by apply Hpe | done | by split].
  - eapply fine_pin; [done.. | by apply Hpe | done |]. split; [done |]. split; [done |]. cbn. rewrite list_lookup_insert_eq; [done |]. rewrite (t_pins _ _ _ _ _ _ _ _ (here _ _ _ _ _ Hok Hu)). unfold LF_PINBOX_PINS. lia.
  - destruct Hf as [Ep Hpin]. rewrite Ep. assert (∃ v, read_cell σ (f_head f) = Ret v) as [v Hv]. { destruct (f_head f) as [b | l]; [by eexists |]. destruct Hh as (n & Hn & _). cbn. unfold load. rewrite Hn. by eexists. }
    rewrite Hv. obind. eapply fine_goto; [done.. | by apply Hpe | by case_decide |]. split; [done |]. destruct (decide (v = (f_curr f, false))) as [E | _]; [| done]. rewrite Ep. by eapply head_seen.
  - destruct Hf as [Hp Hs]. destruct (f_curr f) as [c |] eqn:Hc.
    + destruct Hs as [Hsafe Hpast]. destruct (safe_load _ _ _ _ 1 c Hsafe) as (n & Hn & -> & Hpub). obind. eapply fine_goto; [done.. | by apply Hpe | done |]. split; [done |]. split; [done |]. rewrite Hc. split; [done |]. by exists c, n.
    + eapply fine_return; [done.. | by apply Hpe | done |]. split; [done |]. rewrite Hc. split; [| done]. by apply Hs.
  - destruct Hf as (Hp & Hs & c & n & Hc & Hn & Hh' & _). rewrite Hc. cbn [of_option]. obind. unfold load. rewrite Hn. cbn [of_option]. obind. eapply fine_goto; [done.. | by apply Hpe | done |]. split; [done |]. split; [done |]. split; [done |].
    exists c, n. split; [done |]. split; [done |]. split; [done |]. intros Hkey. destruct Hs as [Hsafe _]. rewrite Hc in Hsafe. destruct (safe_load _ _ _ _ 1 c Hsafe) as (m & Hm & _ & Hpub). assert (m = n) as -> by congruence.
    destruct Hpub as [Ho | (_ & ? & _)]; [| done]. destruct (s_nodes _ _ _ _ _ _ _ (proj1 Hok) c n) as [? _]; [by apply (s_own _ _ _ _ _ _ _ (proj1 Hok)) | done | congruence].
  - destruct Hf as (Hp & Hs & Hr). pose proof Hr as (c & n & Hc & Hn & _). rewrite Hc. cbn [of_option]. obind. unfold load. rewrite Hn. cbn [of_option]. obind. rewrite <- Hc. eapply fine_goto; [done.. | by apply Hpe | done |]. by split.
  - destruct Hf as (Hp & Hs & Hr). eapply fine_pin; [done.. | by apply Hpe | done |]. split; [done |]. split; [| split; [| split; [done |]]].
    + destruct (f_prev f); [done |]. destruct Hp as [? | [Hsafe ?]]; [by left | right]. split; [by apply safe_other | done].
    + destruct Hs as [Hsafe ?]. split; [| done]. destruct (f_curr f); [by apply safe_other | done].
    + cbn. rewrite list_lookup_insert_eq; [done |]. rewrite (t_pins _ _ _ _ _ _ _ _ (here _ _ _ _ _ Hok Hu)). unfold LF_PINBOX_PINS. lia.
  - destruct Hf as (Hp & Hs & Hr & Hpin). pose proof Hr as (c & n & Hc & Hn & Hh' & Hok'). rewrite Hc. cbn [of_option]. obind. unfold load. rewrite Hn. cbn [of_option]. obind. destruct (decide _) as [E | _].
    + injection E as El Ed. eapply check0_ok; try done. by apply Hpe.
    + eapply fine_goto; [done.. | by apply Hpe | done |]. by split.
  - destruct Hf as (Hp & Hs & -> & Hh' & Hnext & c & n & Hc & Hn & Hh'' & Hpres & Habs). rewrite Hc. cbn [of_option]. obind. unfold load. rewrite Hn. cbn [of_option]. obind. cbn zeta. pose proof Hs as [Hsafe Hpast]. rewrite Hc in Hsafe. case_bool_decide as Hr.
    + eapply fine_return; [done.. | by apply Hpe | done |]. split; [done |]. case_bool_decide as Hr0; [exists c, n; rewrite <- Hh', <- Hh''; by split_and! |].
      assert (∀ n', heap σ !! c = Some n' → before (target th k) (rank n')) as Hb. { intros n' Hn'. assert (n' = n) as -> by congruence. right. cbn. split; [congruence |]. apply compare_sym. lia. }
      rewrite Hc in *. split; [by apply Hpast | done].
    + assert (before (rank n) (target th k)) as Hb by (right; cbn; split; [congruence | lia]). eapply fine_goto; [done.. | by apply Hpe | done |]. split; [done |]. split; [split; [done |]; by apply Habs |]. by exists c, n.
  - destruct Hf as (Hs & c & n & Hc & Hn & Hsafe & Hh' & Hb). rewrite Hc. cbn [of_option]. obind. eapply fine_pin; [done.. | by apply Hpe | done |].
    pose proof (safe_copy σ ns own u th Hok Hu 1 2 c ltac:(unfold LF_PINBOX_PINS; lia) Hsafe) as Hcopy. split; [| split].
    + cbn [f_head]. destruct (Z.odd h) eqn:Eo; [done |]. exists n. split; [done |]. assert (Z.even (hashnr n) = true) as Hev by (by rewrite <- Z.negb_odd, <- Hh', Eo). destruct (safe_load _ _ _ _ 1 c Hsafe) as (m & Hm & _ & Hpub). assert (m = n) as -> by congruence.
      split; [by eapply public_even |]. by split.
    + right. split; [done |]. by exists n.
    + destruct Hs as [Hsn ?]. split; [| done]. cbn [f_next]. destruct (f_next f); [by apply safe_other | done].
  - by eapply help_ok.
  - destruct Hf as (Hp & Hs & [c Hc]). rewrite Hc. cbn [of_option]. obind. eapply purge_ok; [done.. | by rewrite Hpc; cbn; rewrite Hc | by rewrite Hpc | done | done |]. by split.
  - destruct Hf as [Hp [Hsafe Hpast]]. eapply fine_pin; [done.. | by apply Hpe | done |]. split; [done |]. split; [| split].
    + cbn [f_prev]. destruct (f_prev f); [done |]. destruct Hp as [? | [Hsp ?]]; [by left | right]. split; [by apply safe_other | done].
    + cbn [f_curr]. destruct (f_next f) as [x |]; [| done]. eapply (safe_copy σ ns own u th Hok Hu 0 1); [unfold LF_PINBOX_PINS; lia | done].
    + done.
Qed.
End find.
