(* ===== verification/LfOps.v ===== *)
(** * The lock-free hash table: insertion, deletion and search in the list

    Every step of [l_insert], [l_delete] and [l_search] is defined and keeps the invariant. *)

From S2P Require Import Prelude Bits LfHash LfOrder LfInv LfSteps LfChain LfFind.

(** What the table requires of the hash function: keys that compare equal have one hash value. *)
Class SameHash {K} (coll : K → K → Z) (hash_function : K → Z) : Prop := same_hash x y : coll x y = 0 → hash_function x = hash_function y.

Section ops.
Context {K : Type} (coll : K → K → Z) `{!Comparison coll} (hash_function : K → Z) `{!SameHash coll hash_function} (dummy_key : K) (unique : bool).
Implicit Types (σ : LF_HASH K) (th : LF_PINS K) (n m : LF_SLIST K) (t u l : nat) (ns : list nat) (own : gmap nat owner) (tg : Z * K).

Abbreviation before := (before coll).
Abbreviation shape := (shape coll hash_function dummy_key unique).
Abbreviation thread_ok := (thread_ok coll hash_function dummy_key unique).
Abbreviation table_ok := (table_ok coll hash_function dummy_key unique).
Abbreviation prev_ok := (prev_ok coll).
Abbreviation target := (target hash_function dummy_key).
Abbreviation task_ok := (task_ok coll hash_function dummy_key).
Abbreviation place_ok := (place_ok coll hash_function dummy_key unique).
Abbreviation pc_ok := (pc_ok coll hash_function dummy_key unique).
Abbreviation accepted := (accepted coll hash_function dummy_key unique).
Abbreviation fine := (fine coll hash_function dummy_key unique).
Abbreviation well_formed := (well_formed hash_function dummy_key).

Lemma absent_place (m : gmap nat K) k : (∀ l d, m !! l = Some d → ¬ same_place coll hash_function d (element_hashnr hash_function k, k)) → absent coll m k.
Proof using SameHash0. intros H l d Hd Hc. apply (H l d Hd). split; [| done]. cbn. unfold element_hashnr, hash_of. by rewrite (same_hash d k Hc). Qed.

Lemma benign_trans u σ own σ1 own1 σ2 own2 : benign u σ own σ1 own1 → benign u σ1 own1 σ2 own2 → (∀ l, own1 !! l = Some Chain → own2 !! l = Some Chain) → benign u σ own σ2 own2.
Proof using.
  assert (∀ n m m' : LF_SLIST K, later n m → later m m' → later n m') as Hlater. { intros n m m' [Hr Hd] [Hr' Hd']. split; [congruence |]. intros E. destruct (Hd E) as [E' ?]. destruct (Hd' E'). split; congruence. }
  intros H1 H2 Hc. split.
  - intros b d Hb. by apply H2, H1.
  - rewrite (b_threads _ _ _ _ _ H2). apply H1.
  - destruct (b_history _ _ _ _ _ H1) as (e1 & E1 & F1), (b_history _ _ _ _ _ H2) as (e2 & E2 & F2). exists (e1 ++ e2). rewrite E2, E1, app_assoc. split; [done |]. by apply Forall_app.
  - intros l n Ho Hn. destruct (b_chain _ _ _ _ _ H1 l n Ho Hn) as [(m & Hm & Hl) [Ho1 | (Ho1 & Hd & Hodd)]].
    + destruct (b_chain _ _ _ _ _ H2 l m Ho1 Hm) as [(m' & Hm' & Hl') _]. split; [eauto | left; auto].
    + destruct (b_retired _ _ _ _ _ H2 u l Ho1) as [Ho2 H]. destruct (H m Hm) as (m' & Hm' & Hl'). split; [eauto | by right].
  - intros w l Ho. destruct (b_retired _ _ _ _ _ H1 w l Ho) as [Ho1 Hn1]. destruct (b_retired _ _ _ _ _ H2 w l Ho1) as [Ho2 Hn2]. split; [done |]. intros n Hn. destruct (Hn1 n Hn) as (m & Hm & ?). destruct (Hn2 m Hm) as (m' & ? & ?). eauto.
  - intros w l Ho Hw. destruct (b_private _ _ _ _ _ H1 w l Ho Hw) as [Ho1 E1]. destruct (b_private _ _ _ _ _ H2 w l Ho1 Hw) as [Ho2 E2]. split; [done | congruence].
Qed.

(** The beginning of [l_find]. *)
Lemma start_ok σ own u th k : task_ok σ own u th k → pc_ok σ own u th (Find k (find_from (Slot (start_bucket th k))) FRead).
Proof using. intros Hk. split; [done |]. split; [| done]. apply Hk. Qed.

(** A write to a private node that keeps its place and its key. *)
Section write.
Context σ ns own u th (Hok : table_ok σ ns own) (Hu : threads σ !! u = Some th).
Context l n m (Ho : own !! l = Some (Private u)) (Hn : heap σ !! l = Some n).
Let σ1 := with_heap (<[l := m]> (heap σ)) σ.

Lemma write_ok : shape σ1 ns own ∧ benign u σ own σ1 own ∧ evolves σ own σ1 own u th.
Proof using Hok Ho Hn. destruct (write_off_chain coll hash_function dummy_key unique σ ns own u l n m) as [Hs Hb]; [apply Hok | done | by left |]. split; [done |]. split; [done |]. by eapply benign_evolves. Qed.

Lemma starting_write : data m = data n → key_ok m = key_ok n → starting σ u th → starting σ1 u th.
Proof using Hn.
  intros Hd Hk [Hno Hr]. split; [done |]. revert Hr. unfold node_ready. destruct (op th); try done. intros (x & nx & Hx & Hnx & Hdx & Hkx). destruct (decide (x = l)) as [-> | Hne].
  - exists l, m. cbn. rewrite lookup_insert_eq. assert (nx = n) as -> by congruence. repeat split; congruence.
  - exists x, nx. cbn. by rewrite lookup_insert_ne.
Qed.

Lemma task_write k : rank m = rank n → key_ok m = key_ok n → task_ok σ own u th k → task_ok σ1 own u th k.
Proof using Hok Hu Ho Hn.
  intros Hr Hkey [Hs Hk]. pose proof write_ok as (_ & _ & He). pose proof Hr as [= _ Hd]. split; [by eapply slot_ok_mono |]. destruct k as [b d fs | |]; [| | done].
  - destruct Hk as (Hb & Hst & Hstack & nd & Hnd & Hrd & Hkd). split; [done |]. split; [by apply starting_write |]. split; [by eapply stack_ok_mono |]. destruct (decide (d = l)) as [-> | Hne].
    + exists m. split; [apply lookup_insert_eq |]. assert (nd = n) as -> by congruence. by rewrite Hr, Hkey.
    + exists nd. cbn. by rewrite lookup_insert_ne.
  - destruct Hk as [Hst Hk]. split; [by apply starting_write |]. intros k x nx Hop Hx Hnx. cbn in Hnx. apply lookup_insert_Some in Hnx as [[<- <-] | [? ?]]; [rewrite Hr |]; by eapply Hk.
Qed.
End write.

(** Facts that a thread keeps through its own changes of the list. *)
Lemma no_change_same σ σ1 u th : history σ1 = history σ → no_change σ u th → no_change σ1 u th.
Proof using. intros E. unfold no_change. by rewrite E. Qed.

Lemma mine_snoc σ u th c : (start th ≤ length (history σ))%nat → no_change σ u th → tid c = u → mine u (drop (start th) (history σ ++ [c])) = [c].
Proof using. intros Hs Hno Hc. rewrite drop_app_le, mine_app by done. unfold no_change in Hno. rewrite Hno. cbn. unfold mine. by rewrite filter_cons_True. Qed.

Section steps.
Context σ ns own u th (Hok : table_ok σ ns own) (Hu : threads σ !! u = Some th).

Lemma known : pc_ok σ own u th (pc th).
Proof using Hok Hu. apply (here _ _ _ _ _ _ _ _ _ Hok Hu). Qed.

(** A step that changes memory and not the ownership of nodes. *)
Lemma accept_same σ1 ns1 p : benign u σ own σ1 own → shape σ1 ns1 own → answers σ1 = answers σ → pc_privates p = pc_privates (pc th) → pending p = pending (pc th) → pc_ok σ1 own u th p → scan_fresh p → accepted σ u σ1 (goto p th).
Proof using Hok Hu.
  intros Hb Hs Ha Hpr Hpe Hp Hf. pose proof (here _ _ _ _ _ _ _ _ _ Hok Hu) as [Hpins Hst Hpriv Hnd Hret Hndr _]. eapply accept; [done.. | | done]. unfold privates in *.
  split; unfold privates; cbn [pc goto node purgatory]; rewrite ?Hpr, ?Hpe; try done; [| exact (pc_ok_same _ _ _ _ _ _ _ th _ _ p Hp)].
  destruct (b_history _ _ _ _ _ Hb) as (ext & -> & _). rewrite length_app. cbn. lia.
Qed.

(** The node of a task is private and has the place of the task. *)
Lemma task_node_ok k l : inserting th k → task_ok σ own u th k → task_node th k = Some l → (∀ x, x ∈ task_privates k → x ∈ privates th) →
  ∃ n, own !! l = Some (Private u) ∧ heap σ !! l = Some n ∧ rank n = target th k ∧ key_ok n = true.
Proof using Hok Hu.
  intros Hi [_ Hk] Hl Hpr. pose proof (t_privates _ _ _ _ _ _ _ _ (here _ _ _ _ _ _ _ _ _ Hok Hu)) as Hpriv. rewrite Forall_forall in Hpriv. destruct k as [b d fs | |]; [| | done].
  - injection Hl as <-. destruct Hk as (_ & _ & _ & n & Hn & Hr & Hkey). exists n. split; [apply Hpriv, Hpr; by left | done].
  - destruct Hi as [x Hx]. destruct Hk as [[_ Hready] Hk]. unfold node_ready in Hready. rewrite Hx in Hready. destruct Hready as (l' & n & Hl' & Hn & Hd & Hkey). cbn in Hl. assert (l' = l) as -> by congruence. exists n. split.
    + apply Hpriv. unfold privates. rewrite Hl. by left.
    + split; [done |]. split; [by eapply Hk | done].
Qed.

Lemma in_link_ok k f : pc th = InLink k f → fine σ u (list_step dummy_key σ u th (InLink k f)).
Proof using Hok Hu.
  intros Hpc. pose proof known as Hk. rewrite Hpc in Hk. destruct Hk as (Hi & Ht & Hp). pose proof (here _ _ _ _ _ _ _ _ _ Hok Hu) as [Hpins Hst Hpriv Hnd Hret Hndr _]. cbn [list_step].
  change (match k with Dummy _ d _ => Some d | _ => node th end) with (task_node th k). assert (∃ l, task_node th k = Some l) as [l Hl].
  { destruct k; [by eexists | | done]. destruct Hi as [x Hx]. destruct Ht as (_ & [_ Hr] & _). unfold node_ready in Hr. rewrite Hx in Hr. destruct Hr as (l & _ & Hl & _). by exists l. }
  destruct (task_node_ok k l Hi Ht Hl) as (n & Ho & Hn & Hr & Hkey); [intros x Hx; unfold privates; rewrite Hpc; apply elem_of_app; by right |].
  rewrite Hl. cbn [of_option]. obind. unfold store, load. rewrite Hn. cbn [of_option]. obind. eexists _, _. split; [done |].
  destruct (write_ok σ ns own u th Hok l n (set_link (f_curr f) n) Ho Hn) as (Hs1 & Hb & He). eapply accept_same; [done | done | done | by rewrite Hpc | by rewrite Hpc | | done]. split; [done |]. split; [by eapply task_write |]. split; [by eapply place_ok_mono |]. exists l, (set_link (f_curr f) n). split; [done |]. split; [apply lookup_insert_eq | done].
Qed.

Lemma target_well_formed k n : inserting th k → task_ok σ own u th k → rank n = target th k → key_ok n = true → deleted n = false → well_formed n ∧ Z.even (hashnr n) = match k with Dummy _ _ _ => true | _ => false end.
Proof using.
  intros Hi [_ Hk] Hr Hkey Hdel. destruct k as [b d fs | |]; [| | done]; injection Hr as Hh Hd.
  - destruct Hk as [Hb _]. pose proof (reversed_even b Hb) as Hev. assert (Z.even (hashnr n) = true) as Hev' by (by rewrite Hh). split; [| done]. split; [done |]. split; [rewrite Hh; destruct (reversed_spec b) as [[? _] _]; [unfold in_u32; lia | done] |]. split; [done |]. congruence.
  - pose proof (element_odd hash_function (op_key dummy_key (op th))) as Hodd. assert (Z.even (hashnr n) = false) as Hev by (by rewrite Hh, <- Z.negb_odd, Hodd). split; [| done]. split; [done |]. split; [| split; [congruence | by rewrite Hd]].
    rewrite Hh. pose proof (element_after hash_function (op_key dummy_key (op th))). destruct (reversed_spec (hash_of hash_function (op_key dummy_key (op th)))) as [[? _] _]; [pose proof (hash_of_range hash_function (op_key dummy_key (op th))); unfold in_u32; lia | lia].
Qed.

(** The attempt to link the node. *)
Lemma cas_link_ok k f l nl : inserting th k → task_ok σ own u th k → place_ok σ own u th k f → own !! l = Some (Private u) → heap σ !! l = Some nl → rank nl = target th k → key_ok nl = true → link nl = f_curr f → deleted nl = false →
  let ext := match k with Dummy _ _ _ => [] | _ => [Added u l (op_key dummy_key (op th))] end in
  cas_cell σ (f_prev f) (f_curr f) (Some l) = Ret (false, σ) ∨
  ∃ σ0, cas_cell σ (f_prev f) (f_curr f) (Some l) = Ret (true, σ0) ∧ answers σ0 = answers σ ∧ history σ0 = history σ ∧ (∀ x, own !! x = Some (Private u) → heap σ0 !! x = heap σ !! x) ∧
    ∀ σ1, heap σ1 = heap σ0 → array σ1 = array σ0 → h_size σ1 = h_size σ0 → threads σ1 = threads σ0 → history σ1 = history σ0 ++ ext →
      (∃ ns1, shape σ1 ns1 (<[l := Chain]> own)) ∧ benign u σ own σ1 (<[l := Chain]> own).
Proof using Hok Hu Comparison0 SameHash0.
  intros Hi Ht [Hp Hc] Ho Hl Hr Hkey Hll Hdl ext. pose proof Hok as [Hsh _]. destruct (target_well_formed k nl Hi Ht Hr Hkey Hdl) as [Hwf Hev]. unfold cas_cell. destruct (f_prev f) as [b | p]; cbn [read_cell].
  - obind. destruct (decide _) as [[= E] | _]; [right | by left]. rewrite <- E in *. destruct Hp as [(d & Hd & n & Hn & _ & _ & Hb) | [-> Htg]].
    { exfalso. rewrite Hd in Hc. destruct Hc as [_ Hc]. by apply (Hc n Hn). }
    assert (∃ b d fs, k = Dummy b d fs) as (b & d & fs & ->). { destruct k; [by eexists _, _, _ | | done]. pose proof (element_odd hash_function (op_key dummy_key (op th))) as Hodd. cbn in Htg. by rewrite Htg in Hodd. }
    pose proof Hr as [= Hh Hd]. cbn in Htg. destruct (array σ !! 0) as [d0 |] eqn:Ea.
    { exfalso. destruct (s_slots _ _ _ _ _ _ _ Hsh 0 d0 Ea) as (_ & n & Hn & Ho0 & Hh0). destruct Hc as [_ Hc]. destruct (Hc n Hn) as [_ Hlt]. destruct (Hlt I) as [? | [_ ?]]; cbn in *; [rewrite Hh0 in *; unfold dummy_hashnr in *; rewrite reversed_0 in *; lia |].
      destruct (s_nodes _ _ _ _ _ _ _ Hsh d0 n) as (_ & _ & Hdm & _); [by apply (s_own _ _ _ _ _ _ _ Hsh) | done |]. destruct Hdm as [_ Ed]; [by rewrite Hh0 |]. rewrite Ed, coll_refl in *; [lia | done]. }
    eexists. split; [done |]. split; [done |]. split; [done |]. split; [done |]. intros σ1 E1 E2 E3 E4 E5. cbn [ext] in E5. rewrite app_nil_r in E5.
    destruct (link_first coll hash_function dummy_key unique σ ns own u l nl σ1) as [H1 H2]; try done; try congruence. split; [by eexists | done].
  - assert (∃ np, heap σ !! p = Some np) as [np Hnp] by (destruct Hp as [(m & Hm & _) | [_ (m & Hm & _)]]; by exists m). unfold store, load. rewrite Hnp. cbn [of_option]. obind. destruct (decide _) as [E | _]; [right | by left].
    injection E as El Ed. destruct (alive_prev coll σ own u th (target th k) p np Hp Hnp Ed) as [Hop Hb]. eexists. split; [done |]. split; [done |]. split; [done |]. split; [intros x Hx; cbn; apply lookup_insert_ne; intros ->; congruence |].
    intros σ1 E1 E2 E3 E4 E5. eapply (link_cas coll hash_function dummy_key unique σ ns own u p np l nl ext); try done; [congruence | by rewrite Hr | |].
    + intros c nc Ec Hnc. rewrite Ec in El. rewrite <- El in Hc. destruct Hc as [_ Hc]. rewrite Hr. by apply (Hc nc Hnc).
    + destruct k as [b d fs | |]; [by left | right | done]. pose proof Hr as [= _ Hd]. cbn in Hd. rewrite Hd. split; [done |]. split; [by rewrite <- Z.negb_even, Hev |]. intros Hun. apply absent_place. intros x d Hx.
      apply (absent_between coll hash_function dummy_key unique σ ns own p np (target th Main) x d Hsh Hop Hnp Hb); [| done]. intros c nc Ec Hnc. rewrite Ec in El. rewrite <- El in Hc. destruct Hc as [_ Hc]. by apply (Hc nc Hnc).
Qed.

Lemma start_again k : pc_privates (pc th) = task_privates k → pending (pc th) = [] → task_ok σ own u th k → accepted σ u σ (l_find_start th k).
Proof using Hok Hu. intros Hpr Hpe Hk. eapply accept_goto; [done.. | | by apply start_ok | done]. by rewrite Hpe. Qed.

Lemma in_cas_ok k f : pc th = InCas k f → fine σ u (list_step dummy_key σ u th (InCas k f)).
Proof using Hok Hu Comparison0 SameHash0.
  intros Hpc. pose proof known as Hk. rewrite Hpc in Hk. destruct Hk as (Hi & Ht & Hp & l & n & Hl & Hn & Hll & Hdl). pose proof (here _ _ _ _ _ _ _ _ _ Hok Hu) as [Hpins Hst Hpriv Hnd Hret Hndr _]. cbn [list_step].
  change (match k with Dummy _ d _ => Some d | _ => node th end) with (task_node th k). rewrite Hl. cbn [of_option]. obind.
  destruct (task_node_ok k l Hi Ht Hl) as (n' & Ho & Hn' & Hr & Hkey); [intros x Hx; unfold privates; rewrite Hpc; apply elem_of_app; by right |]. assert (n' = n) as -> by congruence.
  destruct (cas_link_ok k f l n Hi Ht Hp Ho Hn Hr Hkey Hll Hdl) as [-> | (σ0 & -> & Ean & Ehi & Hpr0 & Hσ1)]; obind.
  { eexists _, _. split; [done |]. apply start_again; by rewrite ?Hpc. }
  destruct k as [b d fs | |]; [| | done].
  - destruct (Hσ1 σ0) as [[ns1 Hs1] Hb]; [done.. | by rewrite app_nil_r |]. injection Hl as <-. destruct Ht as (_ & Hbb & Hstart & Hstack & _). eexists _, _. split; [done |]. pose proof (benign_evolves _ _ _ _ _ u th Hb) as He.
    unfold privates in Hnd, Hpriv. rewrite Hpc in Hnd, Hpriv. cbn [pc_privates task_privates] in Hnd, Hpriv. assert (option_list (node th) ++ d :: fs.*2 ≡ₚ d :: option_list (node th) ++ fs.*2) as Hperm by solve_Permutation.
    rewrite Hperm in Hnd, Hpriv. apply NoDup_cons in Hnd as [Hd Hnd]. apply Forall_cons in Hpriv as [_ Hpriv]. assert (∀ x, x ∈ option_list (node th) ++ fs.*2 → <[d := Chain]> own !! x = own !! x) as Hsame by (intros x Hx; apply lookup_insert_ne; by intros ->).
    eapply accept; [done.. | | done]. split; unfold privates; cbn [pin start goto pc node purgatory pc_privates pending].
    + done.
    + by rewrite Ehi.
    + rewrite Forall_forall in *. intros x Hx. rewrite Hsame by done. by apply Hpriv.
    + done.
    + rewrite Hpc in Hret. eapply Forall_impl; [done |]. intros x Hx. apply (b_retired _ _ _ _ _ Hb u x Hx).
    + by rewrite Hpc in Hndr.
    + apply (pc_ok_same _ _ _ _ _ _ _ th). split; [lia |]. split; [| split; [by eapply stack_ok_mono |]].
      * destruct Hstart as [Hno Hready]. split; [by eapply no_change_same |]. revert Hready. unfold node_ready. destruct (op th); try done. intros (x & nx & Hx & Hnx & H). exists x, nx. split; [done |]. split; [| done]. rewrite Hpr0; [done |].
        rewrite Forall_forall in Hpriv. apply Hpriv. rewrite Hx. by left.
      * exists n. rewrite lookup_insert_eq. split; [by rewrite Hpr0 |]. split; [done |]. by injection Hr.
  - set (x := op_key dummy_key (op th)). destruct (Hσ1 (record (Added u l x) σ0)) as [[ns1 Hs1] Hb]; [done.. |]. eexists _, _. split; [done |]. destruct Hi as [y Hy]. eapply accept; [done.. | | done]. split; unfold privates; cbn [pin start goto pc with_node node purgatory pc_privates pending].
    + done.
    + cbn. rewrite Ehi, length_app. lia.
    + constructor.
    + constructor.
    + rewrite Hpc in Hret. eapply Forall_impl; [done |]. intros z Hz. apply (b_retired _ _ _ _ _ Hb u z Hz).
    + by rewrite Hpc in Hndr.
    + split; [lia |]. exists y, l. split; [done |]. cbn. rewrite Ehi. replace y with x by (unfold x; by rewrite Hy). apply (mine_snoc σ u th); [done | by apply Ht | done].
Qed.

Lemma in_unpin_ok s k dup : pc th = InUnpin s k dup → fine σ u (list_step dummy_key σ u th (InUnpin s k dup)).
Proof using Hok Hu.
  intros Hpc. pose proof known as Hk. rewrite Hpc in Hk. destruct Hk as (Hs & Hk). cbn [list_step]. eexists _, _. split; [done |].
  assert (∀ q, pc_privates q = pc_privates (pc th) → pending q = pending (pc th) → pc_ok σ own u (lf_pin s None th) q → scan_fresh q → accepted σ u σ (goto q (lf_pin s None th))) as Hgo by (intros q; by apply (accept_pin _ _ _ _ σ ns own u th Hok Hu)).
  assert (∀ b fs, stack_ok hash_function dummy_key σ th b fs → stack_ok hash_function dummy_key σ (lf_pin s None th) b fs) as Hst by (intros b fs; apply stack_ok_same).
  case_bool_decide as E.
  - unfold l_insert_return. destruct k as [b d fs | |], dup as [cur |]; try done; apply Hgo; rewrite ?Hpc; try done; destruct Hk as (? & ? & ?); by (split; [| split; [apply Hst |]]).
  - apply Hgo; rewrite ?Hpc; try done. split; [lia |]. destruct k as [b d fs | |], dup as [cur |]; try done; destruct Hk as (? & ? & ?); by (split; [| split; [apply Hst |]]).
Qed.

Lemma de_mark_ok f : pc th = DeMark f → fine σ u (list_step dummy_key σ u th (DeMark f)).
Proof using Hok Hu.
  intros Hpc. pose proof known as Hk. rewrite Hpc in Hk. destruct Hk as ([x Hx] & Ht & Hp & c & n & Hc & Hn & Hs & Hh & Hco). cbn [list_step]. rewrite Hc. cbn [of_option]. obind. unfold store, load. rewrite Hn. cbn [of_option]. obind. destruct (decide _) as [E | _]; cycle 1.
  { eexists _, _. split; [done |]. apply start_again; by rewrite ?Hpc. }
  injection E as El Ed. destruct (safe_load σ own u th 1 c Hs) as (m & Hm & _ & Hpub). assert (m = n) as -> by congruence. pose proof (public_alive own c n Hpub Ed) as Hoc. assert (Z.odd (hashnr n) = true) as Hodd by (rewrite Hh; apply element_odd).
  destruct (mark_node coll hash_function dummy_key unique σ ns own u c n) as [Hs1 Hb]; [apply Hok | done.. |]. pose proof (benign_evolves _ _ _ _ _ u th Hb) as He. eexists _, _. split; [done |].
  eapply accept_same; [exact Hb | exact Hs1 | done | by rewrite Hpc | by rewrite Hpc | | done]. destruct Ht as [Hslot [[Hno _] _]]. split; [split; [by eapply slot_ok_mono |] | split; [by eapply prev_ok_mono |]].
  - exists x, c, (data n). split; [done |]. split; [apply (mine_snoc σ u th); [| done | done] |].
    + apply (here _ _ _ _ _ _ _ _ _ Hok Hu).
    + revert Hco. unfold main_target. cbn [snd]. by rewrite Hx.
  - exists c, (set_deleted n). split; [done |]. split; [apply lookup_insert_eq |]. split; [by eapply safe_mono | done].
Qed.

Lemma de_unlink_ok f : pc th = DeUnlink f → fine σ u (list_step dummy_key σ u th (DeUnlink f)).
Proof using Hok Hu Comparison0.
  intros Hpc. pose proof known as Hk. rewrite Hpc in Hk. destruct Hk as (Ht & Hp & Hdead). cbn [list_step].
  destruct (unlink_ok coll hash_function dummy_key unique σ ns own u th _ f Hok Hu Hp Hdead) as [-> | (c & σ1 & ns1 & -> & Hc & Hoc & Hb & Hok1 & Ehi & Ean & _)]; obind; eexists _, _; (split; [done |]).
  { apply start_again; by rewrite ?Hpc. }
  pose proof (b_threads _ _ _ _ _ Hb) as Et. assert (threads σ1 !! u = Some th) as Hu1 by (by rewrite Et). pose proof (here _ _ _ _ _ _ _ _ _ Hok1 Hu1) as [Hpins Hst Hpriv Hnd Hret Hndr Hpc1]. rewrite Hpc in Hpc1. destruct Hpc1 as ([_ Hrem] & _).
  unfold privates in Hpriv, Hnd. rewrite Hpc in Hret, Hndr, Hpriv, Hnd. eapply accept; [done | done | done | by apply Hok1 | done | | done]. split; try done.
  - cbn [pc goto pending purgatory]. rewrite Hc. constructor; [apply lookup_insert_eq | done].
  - cbn [pc goto pending purgatory]. rewrite Hc. constructor; [| done]. pose proof (here _ _ _ _ _ _ _ _ _ Hok Hu) as [_ _ _ _ Hret0 _ _]. rewrite Hpc in Hret0. cbn in Hret0. rewrite Forall_forall in Hret0. intros Hin. specialize (Hret0 c Hin). cbn in Hret0. congruence.
Qed.

Lemma de_purge_ok f : pc th = DePurge f → fine σ u (list_step dummy_key σ u th (DePurge f)).
Proof using Hok Hu.
  intros Hpc. pose proof known as Hk. rewrite Hpc in Hk. destruct Hk as [Hrem [c Hc]]. cbn [list_step]. rewrite Hc. cbn [of_option]. obind. eapply purge_ok; [done | done | by rewrite Hpc; cbn; rewrite Hc | by rewrite Hpc | done | done |]. split; [lia | done].
Qed.

Lemma de_unpin_ok s r : pc th = DeUnpin s r → fine σ u (list_step dummy_key σ u th (DeUnpin s r)).
Proof using Hok Hu.
  intros Hpc. pose proof known as Hk. rewrite Hpc in Hk. destruct Hk as [Hs Hk]. cbn [list_step]. eexists _, _. split; [done |]. eapply accept_pin; [done | done | rewrite Hpc; case_bool_decide; by destruct r | rewrite Hpc; case_bool_decide; by destruct r | | case_bool_decide; by destruct r].
  case_bool_decide as E; [| split; [lia | done]]. destruct r; [done |]. destruct Hk as ([k Ho] & Hno & Ha). cbn. unfold returned. cbn. by rewrite Ho.
Qed.

Lemma se_pin_ok found : pc th = SePin found → fine σ u (list_step dummy_key σ u th (SePin found)).
Proof using Hok Hu.
  intros Hpc. pose proof known as Hk. rewrite Hpc in Hk. destruct Hk as (Ho & Hno & Hk). cbn [list_step]. eexists _, _. split; [done |]. eapply accept_pin; [done | done | by rewrite Hpc | by rewrite Hpc | | done]. split; [lia |]. split; [done |]. split; [done |].
  destruct found as [c |]; [| done]. destruct Hk as [Hf Hs]. split; [done |]. eapply (safe_copy _ _ _ _ σ ns own u th Hok Hu 1 2); [unfold LF_PINBOX_PINS; lia | done].
Qed.

Lemma se_unpin_ok s found : pc th = SeUnpin s found → fine σ u (list_step dummy_key σ u th (SeUnpin s found)).
Proof using Hok Hu.
  intros Hpc. pose proof known as Hk. rewrite Hpc in Hk. destruct Hk as (Hs & [k Ho] & Hno & Hk). cbn [list_step]. eexists _, _. split; [done |]. eapply accept_pin; [done | done | rewrite Hpc; by destruct s | rewrite Hpc; by destruct s | | by destruct s].
  assert (match found with Some c => element_found coll dummy_key σ (lf_pin s None th) c ∧ safe σ own u (lf_pin s None th) 2 c | None => was_absent coll hash_function σ (lf_pin s None th) (main_target hash_function dummy_key (lf_pin s None th)) end) as Hk'.
  { destruct found as [c |]; [| done]. destruct Hk. split; [done |]. apply safe_other; [lia | done]. }
  destruct s as [| s]; [| split; [lia |]; split; [by exists k | done]]. cbn. unfold returned. cbn [op lf_pin]. rewrite Ho. by destruct found.
Qed.
End steps.
End ops.
