(* ===== verification/LfBuckets.v ===== *)
(** * The lock-free hash table: buckets and pins

    Every step of [initialize_bucket] and of the choice of a bucket is defined and keeps the invariant.  [lf_pinbox_real_free] reads the pins of all threads, one after the other and from low to high, and frees what it has not
    seen: a node that a thread may use is not freed, although that thread copies its pins meanwhile. *)

From S2P Require Import Prelude Bits LfHash LfOrder LfInv LfSteps LfChain LfFind LfOps.

Section buckets.
Context {K : Type} (coll : K → K → Z) `{!Comparison coll} (hash_function : K → Z) `{!SameHash coll hash_function} (dummy_key : K) (unique : bool).
Implicit Types (σ : LF_HASH K) (th : LF_PINS K) (n m : LF_SLIST K) (t u l : nat) (ns : list nat) (own : gmap nat owner) (tg : Z * K).

Abbreviation shape := (shape coll hash_function dummy_key unique).
Abbreviation thread_ok := (thread_ok coll hash_function dummy_key unique).
Abbreviation table_ok := (table_ok coll hash_function dummy_key unique).
Abbreviation slot_ok := (slot_ok coll).
Abbreviation task_ok := (task_ok coll hash_function dummy_key).
Abbreviation stack_ok := (stack_ok hash_function dummy_key).
Abbreviation bucket_ok := (bucket_ok hash_function dummy_key).
Abbreviation main_target := (main_target hash_function dummy_key).
Abbreviation pc_ok := (pc_ok coll hash_function dummy_key unique).
Abbreviation accepted := (accepted coll hash_function dummy_key unique).
Abbreviation fine := (fine coll hash_function dummy_key unique).

(** A step that may also have to wait for memory. *)
Definition done_or_waits σ u (r : outcome (option (LF_HASH K * LF_PINS K))) : Prop := r = Ret None ∨ ∃ σ1 th1, r = Ret (Some (σ1, th1)) ∧ accepted σ u σ1 th1.

Lemma fine_done σ u r : fine σ u r → done_or_waits σ u (x ← r; Ret (Some x)).
Proof using. intros (σ1 & th1 & -> & H). right. by exists σ1, th1. Qed.

Lemma accepted_base σ σ1 u σ2 th2 : history σ1 = history σ → answers σ1 = answers σ → accepted σ1 u σ2 th2 → accepted σ u σ2 th2.
Proof using. intros Eh Ea (? & H & H'). rewrite Eh in H. rewrite Ea in H'. done. Qed.

(** ** Buckets with a dummy node *)

Lemma bucket_slot σ ns own tg b d : shape σ ns own → array σ !! b = Some d → dummy_hashnr b < tg.1 → slot_ok σ own tg b.
Proof using.
  intros Hs Hd Hlt. left. exists d. split; [done |]. destruct (s_slots _ _ _ _ _ _ _ Hs b d Hd) as (Hb & n & Hn & Ho & Hh). exists n. split; [done |]. split; [done |]. rewrite Hh. split; [by apply reversed_even |]. left. cbn. by rewrite Hh.
Qed.

Lemma with_bucket_same th : with_bucket (bucket th) th = th.
Proof using. by destruct th. Qed.

Section steps.
Context σ ns own u th (Hok : table_ok σ ns own) (Hu : threads σ !! u = Some th).

(** A state of the thread with the nodes that it has. *)
Lemma accept_owned σ1 ns1 own1 th1 : benign u σ own σ1 own1 → shape σ1 ns1 own1 → answers σ1 = answers σ → pending (pc th) = [] → pin th1 = pin th → start th1 = start th → purgatory th1 = purgatory th → pending (pc th1) = [] →
  Forall (λ l, own1 !! l = Some (Private u)) (privates th1) → NoDup (privates th1) → pc_ok σ1 own1 u th1 (pc th1) → scan_fresh (pc th1) → accepted σ u σ1 th1.
Proof using Hok Hu.
  intros Hb Hs Ha Hpe Epin Est Epu Hpe1 Hpr Hnd Hpc Hf. pose proof (here _ _ _ _ _ _ _ _ _ Hok Hu) as [Hpins Hst _ _ Hret Hndr _]. eapply accept; [done.. | | done]. rewrite Hpe in Hret, Hndr. split; rewrite ?Epin, ?Est, ?Epu, ?Hpe1; try done.
  - destruct (b_history _ _ _ _ _ Hb) as (ext & -> & _). rewrite length_app. lia.
  - eapply Forall_impl; [done |]. intros l Hl. apply (b_retired _ _ _ _ _ Hb u l Hl).
Qed.

Lemma stack_bucket_ok b fs : stack_ok σ th b fs → 0 ≤ b < 2 ^ 31.
Proof using. apply stack_bucket. Qed.

(** The operation itself begins. *)
Lemma begin_main_ok b d : pc_privates (pc th) = [] → pending (pc th) = [] → starting σ u th → bucket_ok th b → array σ !! b = Some d → fine σ u (begin_main hash_function σ (with_bucket b th)).
Proof using Hok Hu.
  intros Hpr Hpe Hst [Hb Hlt] Hd. pose proof Hok as [Hs _]. pose proof (here _ _ _ _ _ _ _ _ _ Hok Hu) as [_ _ Hpriv Hnd _ _ _]. unfold privates in Hpriv, Hnd. rewrite Hpr, app_nil_r in Hpriv, Hnd.
  pose proof (bucket_slot σ ns own (main_target th) b d Hs Hd Hlt) as Hslot. pose proof Hst as [Hno Hready]. unfold node_ready in Hready. unfold begin_main. cbn [op with_bucket]. destruct (op th) as [k | k | k |] eqn:Ho; [| | | done].
  - destruct Hready as (l & n & Hl & Hn & Hdn & Hkey). cbn [node with_bucket]. rewrite Hl in Hpriv |- *. cbn [of_option]. obind. unfold store, load. rewrite Hn. cbn [of_option]. obind. apply Forall_inv in Hpriv as Hol. cbn in Hol.
    destruct (write_ok coll hash_function dummy_key unique σ ns own u th Hok l n (set_hashnr (element_hashnr hash_function k) n) Hol Hn) as (Hs1 & Hb1 & He). eexists _, _. split; [done |].
    eapply accept_owned; [exact Hb1 | exact Hs1 | done.. | | | | done].
    + unfold privates. cbn. rewrite Hl. by constructor.
    + unfold privates. cbn. rewrite Hl. apply NoDup_singleton.
    + split; [| split; [by eapply slot_ok_mono | done]]. split; [by eapply slot_ok_mono |]. split; [by eapply starting_write |]. intros k' l' n' Ho' Hl' Hn'. cbn in Ho', Hl', Hn'. assert (l' = l) as -> by congruence. rewrite lookup_insert_eq in Hn'. injection Hn' as <-.
      unfold rank, LfInv.main_target. cbn. rewrite Ho. cbn. by rewrite Hdn.
  - eexists _, _. split; [done |]. eapply accept_owned; [by apply benign_refl | done.. | | | | done]; unfold privates; cbn [node pc goto l_find_start with_bucket pc_privates task_privates]; rewrite ?app_nil_r; [done | done |].
    split; [| split; [done | done]]. split; [done |]. split; [done |]. cbn. congruence.
  - eexists _, _. split; [done |]. eapply accept_owned; [by apply benign_refl | done.. | | | | done]; unfold privates; cbn [node pc goto l_find_start with_bucket pc_privates task_privates]; rewrite ?app_nil_r; [done | done |].
    split; [| split; [done | done]]. split; [done |]. split; [done |]. cbn. congruence.
Qed.

Lemma insert_dummy_ok b d fs : pc_privates (pc th) = d :: fs.*2 → pending (pc th) = [] → starting σ u th → stack_ok σ th b fs → (b = 0 ∨ is_Some (array σ !! parent b)) → fine σ u (insert_dummy dummy_key σ th b d fs).
Proof using Hok Hu.
  intros Hpr Hpe Hst Hstack Hpar. pose proof Hok as [Hs _]. pose proof (here _ _ _ _ _ _ _ _ _ Hok Hu) as [_ _ Hpriv Hnd _ _ _]. pose proof (stack_bucket_ok b fs Hstack) as Hb.
  assert (own !! d = Some (Private u)) as Hod. { rewrite Forall_forall in Hpriv. apply Hpriv. unfold privates. rewrite Hpr. apply elem_of_app. right. by left. }
  destruct (own_lookup _ _ _ _ _ _ _ _ _ Hs Hod) as [n Hn]. unfold insert_dummy, store, load. rewrite Hn. cbn [of_option]. obind. eexists _, _. split; [done |].
  destruct (write_ok coll hash_function dummy_key unique σ ns own u th Hok d n (set_hashnr (dummy_hashnr b) (set_key dummy_key n)) Hod Hn) as (Hs1 & Hb1 & He).
  assert (slot_ok (with_heap (<[d := set_hashnr (dummy_hashnr b) (set_key dummy_key n)]> (heap σ)) σ) own (dummy_hashnr b, dummy_key) (parent b)) as Hslot.
  { eapply slot_ok_mono; [done |]. destruct (decide (b = 0)) as [-> | Hne]; [right; by rewrite parent_0 |]. destruct Hpar as [? | [d' Hd']]; [done |]. eapply bucket_slot; [done | done |]. cbn. by destruct (parent_spec b) as (_ & _ & ?); [lia |]. }
  eapply accept_same; [done | done | exact Hb1 | exact Hs1 | done | by rewrite Hpr | by rewrite Hpe | | done]. split; [| by split]. split; [done |]. split; [done |]. split; [| split; [by eapply stack_ok_mono |]].
  - destruct Hst as [Hno Hready]. split; [done |]. revert Hready. unfold node_ready. destruct (op th); try done. intros (x & nx & Hx & Hnx & H). exists x, nx. split; [done |]. split; [| done]. cbn. rewrite lookup_insert_ne; [done |].
    intros ->. unfold privates in Hnd. rewrite Hpr, Hx in Hnd. apply NoDup_cons in Hnd as [Hnd _]. apply Hnd. by left.
  - eexists. split; [apply lookup_insert_eq | done].
Qed.

(** The return of [initialize_bucket]. *)
Lemma bucket_ready_ok b d fs : pc_privates (pc th) = fs.*2 → pending (pc th) = [] → starting σ u th → stack_ok σ th b fs → array σ !! b = Some d → fine σ u (bucket_ready hash_function dummy_key σ th fs).
Proof using Hok Hu.
  intros Hpr Hpe Hst Hstack Hd. destruct fs as [| [b' d'] fs]; cbn [bucket_ready].
  - destruct Hstack as (Eb & Hb & _). rewrite <- (with_bucket_same th), <- Eb. by eapply begin_main_ok.
  - destruct Hstack as (Hp & Hb' & Hstack). apply insert_dummy_ok; try done. right. rewrite Hp, Hd. by eexists.
Qed.

Lemma bucket_ok_parent b : bucket_ok th b → b ≠ 0 → bucket_ok th (parent b).
Proof using. intros [Hb Hlt] Hne. destruct (parent_spec b) as (_ & Hp & Hr); [lia |]. split; [lia |]. unfold dummy_hashnr in *. lia. Qed.

Lemma empty_absent tg : was_empty σ th → was_absent coll hash_function σ th tg.
Proof using. intros (i & Hi & E). exists i. split; [done |]. rewrite E. intros l k. by rewrite lookup_empty. Qed.
End steps.

(** Its return without memory. *)
Lemma bucket_failed_ok σ ns own u th σ1 ns1 own1 b fs : table_ok σ ns own → threads σ !! u = Some th → benign u σ own σ1 own1 → shape σ1 ns1 own1 → answers σ1 = answers σ → pending (pc th) = [] →
  Forall (λ l, own1 !! l = Some (Private u)) (option_list (node th) ++ fs.*2) → NoDup (option_list (node th) ++ fs.*2) → starting σ1 u th → stack_ok σ1 th b fs → accepted σ u σ1 (bucket_failed th b fs).
Proof using.
  intros Hok Hu Hb Hs Ha Hpe Hpriv Hnd Hst Hstack.
  assert (∀ q, pc_privates q = fs.*2 → pending q = [] → pc_ok σ1 own1 u th q → scan_fresh q → accepted σ u σ1 (goto q th)) as Hgo.
  { intros q Hq1 Hq2 Hq3 Hq4. eapply accept_owned; [done | done | exact Hb | exact Hs | done.. | | | | done]; [unfold privates; cbn; by rewrite Hq1.. | exact (pc_ok_same _ _ _ _ _ _ _ th _ _ q Hq3)]. }
  unfold bucket_failed. destruct fs as [| [b' d'] fs]; [| by apply Hgo]. destruct Hstack as (Eb & Hbk & Hemp). pose proof Hst as [Hno Hready]. unfold node_ready in Hready. destruct (op th) as [k | k | k |] eqn:Ho; [| | | done].
  - destruct Hready as (l & n & Hl & Hn & _). rewrite Hl in Hpriv. apply Forall_inv in Hpriv as Hol. cbn in Hol. destruct (hand_over coll hash_function dummy_key unique σ1 ns1 own1 u l Lost n Hs Hol) as [Hs2 Hb2]; [by right |]. rewrite insert_id in Hs2, Hb2 by done.
    assert (with_heap (heap σ1) σ1 = σ1) as E by (by destruct σ1). rewrite E in Hs2, Hb2. eapply accept_owned; [done | done | | exact Hs2 | done.. | | | | done].
    + eapply benign_trans; [done | done |]. intros x Hx. rewrite lookup_insert_ne; [done |]. intros ->. congruence.
    + constructor.
    + constructor.
    + cbn. unfold returned. cbn. rewrite Ho. done.
  - case_bool_decide as E; apply Hgo; try done; [cbn; unfold returned; rewrite Ho; split; [done |]; by apply empty_absent, Hemp | split; [done |]; by apply bucket_ok_parent].
  - case_bool_decide as E; apply Hgo; try done; [cbn; unfold returned; rewrite Ho; split; [done |]; by apply empty_absent, Hemp | split; [done |]; by apply bucket_ok_parent].
Qed.

(** ** The steps of [initialize_bucket] *)

(** Ownership of the private nodes after one more was allocated, or one was freed. *)
Lemma starting_private σ σ1 u th own : (∀ l, own !! l = Some (Private u) → heap σ1 !! l = heap σ !! l) → history σ1 = history σ → Forall (λ l, own !! l = Some (Private u)) (option_list (node th)) → starting σ u th → starting σ1 u th.
Proof using.
  intros Hsame Eh Hpriv [Hno Hready]. split; [by eapply no_change_same |]. revert Hready. unfold node_ready. destruct (op th); try done. intros (l & n & Hl & Hn & H). exists l, n. split; [done |]. split; [| done]. rewrite Hl in Hpriv. apply Forall_inv in Hpriv. by rewrite Hsame.
Qed.

Lemma check_bucket_ok σ ns own u th c b : table_ok σ ns own → threads σ !! u = Some th → pc th = CheckBucket b → done_or_waits σ u (bucket_step hash_function dummy_key σ th c (CheckBucket b)).
Proof using.
  intros Hok Hu Hpc. pose proof (known _ _ _ _ _ _ _ _ _ Hok Hu) as Hk. rewrite Hpc in Hk. destruct Hk as [Hst Hb]. cbn [bucket_step]. destruct (array σ !! b) as [d |] eqn:Ea.
  - apply fine_done. eapply begin_main_ok; try done; by rewrite Hpc.
  - right. eexists _, _. split; [done |]. pose proof (here _ _ _ _ _ _ _ _ _ Hok Hu) as [_ Hs _ _ _ _ _]. eapply accept_local; [done | done | apply (here _ _ _ _ _ _ _ _ _ Hok Hu) | done | unfold privates; cbn; by rewrite Hpc | cbn; by rewrite Hpc | | done].
    cbn. split; [done |]. split; [done |]. split; [done |]. intros ->. exists (length (history σ)). split; [cbn; lia |]. rewrite take_ge by lia. destruct Hok as [Hsh _]. apply map_empty. intros l. destruct (contents (history σ) !! l) as [k |] eqn:E; [| done].
    apply (s_contents _ _ _ _ _ _ _ Hsh) in E as (n & Ho & _). apply (s_own _ _ _ _ _ _ _ Hsh) in Ho. pose proof (s_chain _ _ _ _ _ _ _ Hsh) as Hc. rewrite Ea in Hc. destruct ns; [by apply elem_of_nil in Ho | by destruct Hc].
Qed.

Lemma ib_alloc_ok σ ns own u th c b fs : table_ok σ ns own → threads σ !! u = Some th → pc th = IbAlloc b fs → done_or_waits σ u (bucket_step hash_function dummy_key σ th c (IbAlloc b fs)).
Proof using.
  intros Hok Hu Hpc. pose proof (known _ _ _ _ _ _ _ _ _ Hok Hu) as Hk. rewrite Hpc in Hk. destruct Hk as [Hst Hstack]. pose proof Hok as [Hs _]. pose proof (here _ _ _ _ _ _ _ _ _ Hok Hu) as [_ _ Hpriv Hnd _ _ _]. unfold privates in Hpriv, Hnd. rewrite Hpc in Hpriv, Hnd. cbn [bucket_step].
  destruct (c_fail c). { right. eexists _, _. split; [done |]. eapply bucket_failed_ok; try done; [by apply benign_refl | by rewrite Hpc]. }
  destruct (heap σ !! c_addr c) as [? |] eqn:Ea; [by left | right]. eexists _, _. split; [done |]. set (d := c_addr c) in *. destruct (allocate_node coll hash_function dummy_key unique σ ns own u d (c_garbage c) Hs Ea) as (Hod & Hs1 & Hb).
  pose proof (benign_evolves _ _ _ _ _ u th Hb) as He. assert (∀ x, own !! x = Some (Private u) → x ≠ d) as Hne by (intros x Hx ->; congruence). rewrite Forall_forall in Hpriv.
  assert (option_list (node th) ++ d :: fs.*2 ≡ₚ d :: option_list (node th) ++ fs.*2) as Hperm by solve_Permutation. eapply accept_owned; [done | done | exact Hb | exact Hs1 | done | by rewrite Hpc | done.. | | | | done]; unfold privates; cbn [goto node pc pc_privates].
  - rewrite Hperm. constructor; [apply lookup_insert_eq |]. apply Forall_forall. intros x Hx. rewrite lookup_insert_ne by (apply not_eq_sym, Hne; by apply Hpriv). by apply Hpriv.
  - rewrite Hperm. constructor; [| done]. intros Hin. by apply (Hne d); [apply Hpriv |].
  - apply (pc_ok_same _ _ _ _ _ _ _ th). split; [| by eapply stack_ok_mono]. eapply (starting_private σ _ u th own); [| done | | done].
    + intros l Hl. cbn. rewrite lookup_insert_ne; [done |]. by apply not_eq_sym, Hne.
    + apply Forall_forall. intros x Hx. apply Hpriv. apply elem_of_app. by left.
Qed.

Lemma ib_parent_ok σ ns own u th c b d fs : table_ok σ ns own → threads σ !! u = Some th → pc th = IbParent b d fs → done_or_waits σ u (bucket_step hash_function dummy_key σ th c (IbParent b d fs)).
Proof using.
  intros Hok Hu Hpc. pose proof (known _ _ _ _ _ _ _ _ _ Hok Hu) as Hk. rewrite Hpc in Hk. destruct Hk as [Hst Hstack]. pose proof (stack_bucket_ok σ th b fs Hstack) as Hb. cbn [bucket_step]. case_bool_decide as E.
  - right. eexists _, _. split; [done |]. eapply accept_goto; [done | done | by rewrite Hpc | by rewrite Hpc | | done]. split; [done |]. split; [done |]. split; [lia | done].
  - apply fine_done. eapply insert_dummy_ok; try done; [by rewrite Hpc.. |]. destruct (decide (b = 0)) as [-> | ?]; [by left | right]. destruct (array σ !! parent b) eqn:Ea; [by eexists |]. by destruct E.
Qed.

(** The private node at the head of the stack is freed. *)
Lemma dispose_private σ ns own u th d (fs : list (Z * nat)) : table_ok σ ns own → threads σ !! u = Some th → pc_privates (pc th) = d :: fs.*2 → starting σ u th →
  let σ1 := with_heap (delete d (heap σ)) σ in let own1 := delete d own in
  dispose σ d = Ret σ1 ∧ shape σ1 ns own1 ∧ benign u σ own σ1 own1 ∧ evolves σ own σ1 own1 u th ∧ starting σ1 u th ∧ Forall (λ l, own1 !! l = Some (Private u)) (option_list (node th) ++ fs.*2) ∧ NoDup (option_list (node th) ++ fs.*2).
Proof using.
  intros Hok Hu Hpr Hst σ1 own1. pose proof Hok as [Hs _]. pose proof (here _ _ _ _ _ _ _ _ _ Hok Hu) as [_ _ Hpriv Hnd _ _ _]. unfold privates in Hpriv, Hnd. rewrite Hpr in Hpriv, Hnd.
  assert (option_list (node th) ++ d :: fs.*2 ≡ₚ d :: option_list (node th) ++ fs.*2) as Hperm by solve_Permutation. rewrite Hperm in Hpriv, Hnd. apply Forall_cons in Hpriv as [Hod Hpriv]. apply NoDup_cons in Hnd as [Hd Hnd].
  destruct (dispose_node coll hash_function dummy_key unique σ ns own u d Hs Hod) as (Hdis & Hs1 & Hb). pose proof (benign_evolves _ _ _ _ _ u th Hb) as He. rewrite Forall_forall in Hpriv.
  assert (∀ x, x ∈ option_list (node th) ++ fs.*2 → x ≠ d) as Hne by (intros x Hx ->; done). split; [done |]. split; [done |]. split; [done |]. split; [done |]. split; [| split; [| done]].
  - destruct Hst as [Hno Hready]. split; [done |]. revert Hready. unfold node_ready. destruct (op th); try done. intros (l & n & Hl & Hn & H). exists l, n. split; [done |]. split; [| done]. cbn. rewrite lookup_delete_ne; [done |]. apply not_eq_sym, Hne. rewrite Hl. by left.
  - apply Forall_forall. intros x Hx. unfold own1. rewrite lookup_delete_ne by (by apply not_eq_sym, Hne). by apply Hpriv.
Qed.

Lemma ib_fail_ok σ ns own u th c b fs : table_ok σ ns own → threads σ !! u = Some th → pc th = IbFail b fs → done_or_waits σ u (bucket_step hash_function dummy_key σ th c (IbFail b fs)).
Proof using.
  intros Hok Hu Hpc. pose proof (known _ _ _ _ _ _ _ _ _ Hok Hu) as Hk. rewrite Hpc in Hk. destruct Hk as (Hst & Hstack & Hne). destruct fs as [| [b' d] fs]; [done |]. destruct Hstack as (_ & _ & Hstack). cbn [bucket_step].
  destruct (dispose_private σ ns own u th d fs Hok Hu) as (-> & Hs1 & Hb & He & Hst1 & Hpriv & Hnd); [by rewrite Hpc | done |]. obind. right. eexists _, _. split; [done |]. eapply bucket_failed_ok; try done; [by rewrite Hpc | by eapply stack_ok_mono].
Qed.

Lemma ib_free_ok σ ns own u th c b d cur fs : table_ok σ ns own → threads σ !! u = Some th → pc th = IbFree b d cur fs → done_or_waits σ u (bucket_step hash_function dummy_key σ th c (IbFree b d cur fs)).
Proof using.
  intros Hok Hu Hpc. pose proof (known _ _ _ _ _ _ _ _ _ Hok Hu) as Hk. rewrite Hpc in Hk. destruct Hk as (Hst & Hstack & Hd). cbn [bucket_step].
  destruct (dispose_private σ ns own u th d fs Hok Hu) as (-> & Hs1 & Hb & He & Hst1 & Hpriv & Hnd); [by rewrite Hpc | done |]. obind. right. eexists _, _. split; [done |].
  eapply accept_owned; [done | done | exact Hb | exact Hs1 | done | by rewrite Hpc | done | done | done | done | exact Hpriv | exact Hnd | | done]. cbn [goto pc]. apply (pc_ok_same _ _ _ _ _ _ _ th). split; [done |]. split; [by eapply stack_ok_mono |]. eapply dummy_at_mono; [done | by eapply stack_bucket_ok | done].
Qed.

Lemma ib_cas_ok σ ns own u th c b d fs : table_ok σ ns own → threads σ !! u = Some th → pc th = IbCas b d fs → done_or_waits σ u (bucket_step hash_function dummy_key σ th c (IbCas b d fs)).
Proof using.
  intros Hok Hu Hpc. pose proof (known _ _ _ _ _ _ _ _ _ Hok Hu) as Hk. rewrite Hpc in Hk. destruct Hk as (Hst & Hstack & Hd). cbn [bucket_step]. case_bool_decide as E; cycle 1.
  { destruct (array σ !! b) as [d' |] eqn:Ea; [| done]. apply fine_done. eapply bucket_ready_ok; try done; by rewrite Hpc. }
  pose proof (stack_bucket_ok σ th b fs Hstack) as Hb. destruct (publish_bucket coll hash_function dummy_key unique σ ns own u b d) as [Hs1 Hben]; [apply Hok | done.. |]. set (σ1 := with_array (<[b := d]> (array σ)) σ) in *.
  assert (table_ok σ1 ns own) as Hok1 by (by eapply table_benign). pose proof (known _ _ _ _ _ _ _ _ _ Hok1 Hu) as Hk1. rewrite Hpc in Hk1. destruct Hk1 as (Hst1 & Hstack1 & _).
  assert (fine σ1 u (bucket_ready hash_function dummy_key σ1 th fs)) as (σ2 & th2 & -> & Hacc). { eapply bucket_ready_ok; try done; [by rewrite Hpc.. |]. cbn. apply lookup_insert_eq. }
  obind. right. eexists _, _. split; [done |]. by eapply accepted_base; [.. | exact Hacc].
Qed.
End buckets.

(** ** The pins protect *)

Lemma sort_out_spec granary ls kept freed :
  sort_out granary ls kept freed = (reverse (filter (λ x, x ∈ granary) ls) ++ kept, reverse (filter (λ x, x ∉ granary) ls) ++ freed).
Proof.
  revert kept freed. induction ls as [| x ls IH]; intros kept freed; [done |]. cbn [sort_out]. case_bool_decide as Hx.
  - rewrite IH, filter_cons_True, (filter_cons_False (λ x, x ∉ granary)) by (done || tauto). by rewrite reverse_cons, <- app_assoc.
  - rewrite IH, (filter_cons_False (λ x, x ∈ granary)), filter_cons_True by done. by rewrite reverse_cons, <- app_assoc.
Qed.

Lemma lookup_free {V} (m : gmap nat V) ls l : foldr delete m ls !! l = if decide (l ∈ ls) then None else m !! l.
Proof.
  induction ls as [| x ls IH]; cbn [foldr]; [done |]. destruct (decide (l = x)) as [-> | Hne]; [rewrite lookup_delete_eq, decide_True by (by left); done |]. rewrite lookup_delete_ne, IH by done.
  destruct (decide (l ∈ ls)) as [Hin | Hin]; [rewrite decide_True by (by right); done | rewrite decide_False; [done |]]. by intros [? | ?]%elem_of_cons.
Qed.

(** Nodes that are in memory, each once, are freed. *)
Lemma free_all_spec {K} (h : gmap nat (LF_SLIST K)) ls : NoDup ls → (∀ l, l ∈ ls → is_Some (h !! l)) → free_all h ls = Ret (foldr delete h ls).
Proof.
  revert h. induction ls as [| l ls IH]; intros h Hnd Hin; [done |]. apply NoDup_cons in Hnd as [Hl Hnd]. cbn [free_all foldr]. destruct (Hin l) as [n ->]; [by left |]. cbn. rewrite IH; [| done |].
  - f_equal. apply map_eq. intros x. rewrite lookup_free. destruct (decide (x = l)) as [-> | Hne]; [by rewrite decide_False, !lookup_delete_eq |]. by rewrite !lookup_delete_ne, lookup_free by done.
  - intros x Hx. rewrite lookup_delete_ne by congruence. apply Hin. by right.
Qed.

Section scan.
Context {K : Type} (coll : K → K → Z) `{!Comparison coll} (hash_function : K → Z) (dummy_key : K) (unique : bool).
Implicit Types (σ : LF_HASH K) (th : LF_PINS K) (n m : LF_SLIST K) (t u l : nat) (ns : list nat) (own : gmap nat owner) (tg : Z * K).

Abbreviation shape := (shape coll hash_function dummy_key unique).
Abbreviation thread_ok := (thread_ok coll hash_function dummy_key unique).
Abbreviation table_ok := (table_ok coll hash_function dummy_key unique).
Abbreviation pc_ok := (pc_ok coll hash_function dummy_key unique).
Abbreviation accepted := (accepted coll hash_function dummy_key unique).

Section real_free.
Context σ ns own u th granary i k (Hok : table_ok σ ns own) (Hu : threads σ !! u = Some th) (Hpc : pc th = Scan granary i k).

(** One more pin is read. *)
Lemma harvest_ok : (i < length (threads σ) * LF_PINBOX_PINS)%nat → accepted σ u σ (goto (Scan (match harvest σ i with Some p => granary ++ [p] | None => granary end) (S i) k) th).
Proof using Hok Hu Hpc.
  intros Hi. pose proof Hok as [Hs Hths]. pose proof (here _ _ _ _ _ _ _ _ _ Hok Hu) as [Hpins Hst Hpriv Hnd Hret Hndr Hp]. unfold privates in Hpriv, Hnd. rewrite Hpc in Hpriv, Hnd, Hret, Hndr, Hp. destruct Hp as [Hres Hp].
  set (g' := match harvest σ i with Some p => granary ++ [p] | None => granary end). split; [| split; [exists []; by rewrite app_nil_r | by left]]. exists ns, own. split; [by apply shape_thread |]. intros t tht Ht. cbn [threads with_thread] in Ht.
  assert (thread_ok σ own t tht ∧ ∃ tht0, threads σ !! t = Some tht0 ∧ pin tht0 = pin tht) as [Htok (tht0 & Ht0 & Epin)].
  { destruct (decide (t = u)) as [-> | Hne]; [| rewrite list_lookup_insert_ne in Ht by done; split; [by apply Hths | by exists tht]]. apply list_lookup_insert_Some in Ht as [(_ & <- & _) | [? _]]; [| done]. split; [| by exists th].
    split; unfold privates; try done. split; [done |]. exact (pc_ok_same _ _ _ _ _ _ _ th _ _ k Hp). }
  eapply lf_thread_mono; [| done | done]. apply interferes_thread. intros s l (Hs4 & Hpin & Hc & _) w thw g j k' Hw Hpcw Hin. destruct (decide (w = u)) as [-> | Hne]; [| rewrite list_lookup_insert_ne in Hw by done; by eapply Hc].
  apply list_lookup_insert_Some in Hw as [(_ & <- & _) | [? _]]; [| done]. injection Hpcw as <- <- <-. destruct (Hc u th granary i k Hu Hpc Hin) as [Hle | Hg]; [| right; unfold g'; destruct (harvest σ i); [apply elem_of_app; by left | done]].
  destruct (decide (i = t * LF_PINBOX_PINS + s)%nat) as [E | ?]; [right | left; lia]. unfold g', harvest. unfold LF_PINBOX_PINS in *. assert (i / 4 = t ∧ i mod 4 = s)%nat as [-> ->].
  { subst i. split; [rewrite Nat.div_add_l, Nat.div_small by lia; lia | rewrite Nat.add_comm, Nat.Div0.mod_add; by apply Nat.mod_small]. }
  rewrite Ht0. cbn. rewrite Epin, Hpin. cbn. apply elem_of_app. right. by left.
Qed.

(** What is not pinned is freed. *)
Let freed := filter (λ x, x ∉ granary) (purgatory th).
Let kept := filter (λ x, x ∈ granary) (purgatory th).

Lemma retired_purgatory l : l ∈ purgatory th → own !! l = Some (Retired u).
Proof using Hok Hu.
  intros Hl. pose proof (here _ _ _ _ _ _ _ _ _ Hok Hu) as [_ _ _ _ Hret _ _]. apply Forall_app in Hret as [_ Hret]. rewrite Forall_forall in Hret. by apply Hret.
Qed.

Lemma freed_retired l : l ∈ freed → own !! l = Some (Retired u).
Proof using Hok Hu. intros [_ Hl]%list_elem_of_filter. by apply retired_purgatory. Qed.

(** The nodes of the purgatory are in memory, and none is in it twice. *)
Lemma purgatory_freed : free_all (heap σ) (reverse freed) = Ret (foldr delete (heap σ) (reverse freed)).
Proof using Hok Hu.
  apply free_all_spec.
  - pose proof (here _ _ _ _ _ _ _ _ _ Hok Hu) as [_ _ _ _ _ Hndr _]. apply NoDup_app in Hndr as (_ & _ & Hndr). rewrite reverse_Permutation. by apply NoDup_filter.
  - intros l Hl. rewrite elem_of_reverse in Hl. destruct Hok as [Hs _]. apply (s_dom _ _ _ _ _ _ _ Hs). rewrite (freed_retired l Hl). by eexists.
Qed.

Lemma free_ok σ1 own1 : (length (threads σ) * LF_PINBOX_PINS ≤ i)%nat → σ1 = with_heap (foldr delete (heap σ) (reverse freed)) σ → own1 = foldr delete own (reverse freed) →
  shape σ1 ns own1 ∧ (∀ l, own1 !! l = if decide (l ∈ freed) then None else own !! l) ∧ ∀ t tht, threads σ !! t = Some tht → interferes σ own σ1 own1 t tht.
Proof using Hok Hu Hpc.
  intros Hi -> ->. pose proof Hok as [Hs Hths]. assert (∀ V (m : gmap nat V) l, foldr delete m (reverse freed) !! l = if decide (l ∈ freed) then None else m !! l) as Hlook.
  { intros V m l. rewrite lookup_free. destruct (decide (l ∈ freed)); [rewrite decide_True by (by rewrite elem_of_reverse); done | rewrite decide_False by (by rewrite elem_of_reverse); done]. }
  assert (∀ V (m : gmap nat V) l o, own !! l = Some o → o ≠ Retired u → foldr delete m (reverse freed) !! l = m !! l) as Hother. { intros V m l o Ho Hne. rewrite Hlook. destruct (decide _) as [Hin | _]; [| done]. apply freed_retired in Hin. congruence. }
  split; [| split; [done |]].
  - apply (shape_off_chain coll hash_function dummy_key unique σ ns own); try done.
    + intros l. rewrite Hlook. destruct (decide _) as [Hin | _]; [| done]. split; [done |]. intros Ho. apply freed_retired in Hin. congruence.
    + intros l Ho. cbn. by eapply Hother.
    + intros l. cbn. rewrite !Hlook. destruct (decide _); [split; by intros [? ?] | apply Hs].
  - intros t tht Ht. split; [split | |]; cbn; try done.
    + intros l n Ho Hn _. rewrite !(Hother _ _ l Chain) by done. split; [done |]. by exists n.
    + intros s l n (Hs4 & Hpin & Hc & n' & Hn' & Hpub) Hn. assert (l ∉ freed) as Hnf.
      { intros [Hg Hin]%list_elem_of_filter. destruct (Hc u th granary i k Hu Hpc Hin) as [Hle | ?]; [| done]. pose proof (lookup_lt_Some _ _ _ Ht). unfold LF_PINBOX_PINS in *. lia. }
      assert (foldr delete (heap σ) (reverse freed) !! l = heap σ !! l) as Eh by (rewrite Hlook; by rewrite decide_False). assert (foldr delete own (reverse freed) !! l = own !! l) as Eo by (rewrite Hlook; by rewrite decide_False).
      split; [| exists n; rewrite Eh; by split]. split; [done |]. split; [done |]. split; [done |]. exists n'. cbn. rewrite Eh. split; [done |]. unfold public. by rewrite Eo.
    + exists []. by rewrite app_nil_r.
    + intros l Ho. by rewrite !(Hother _ _ l (Private t)).
    + intros ext E. rewrite <- (app_nil_r (history σ)) in E at 1. by apply app_inv_head in E as <-.
Qed.

Lemma release_ok : (length (threads σ) * LF_PINBOX_PINS ≤ i)%nat →
  accepted σ u (with_heap (foldr delete (heap σ) (reverse freed)) σ) (goto (match k, reverse kept with Idle, _ :: _ => Scan [] 0 Idle | _, _ => k end) (with_purgatory (reverse kept) th)).
Proof using Hok Hu Hpc.
  intros Hi. destruct (free_ok _ _ Hi eq_refl eq_refl) as (Hs1 & Hown & Hint). set (σ1 := with_heap (foldr delete (heap σ) (reverse freed)) σ) in *. set (own1 := foldr delete own (reverse freed)) in *. pose proof Hok as [_ Hths].
  pose proof (here _ _ _ _ _ _ _ _ _ Hok Hu) as [Hpins Hst Hpriv Hnd Hret Hndr Hp]. unfold privates in Hpriv, Hnd. rewrite Hpc in Hpriv, Hnd, Hret, Hndr, Hp. cbn [pc_privates pending app] in Hpriv, Hnd, Hret, Hndr. destruct Hp as [[Hpe Hns] Hp].
  split; [| split; [exists []; by rewrite app_nil_r | by left]]. exists ns, own1. set (q := match k, reverse kept with Idle, _ :: _ => Scan [] 0 Idle | _, _ => k end).
  assert (pc_privates q = pc_privates k ∧ pending q = [] ∧ scan_fresh q ∧ (pc_ok σ1 own1 u th k → pc_ok σ1 own1 u th q)) as (Hq1 & Hq2 & Hq3 & Hq4). { unfold q. destruct k; try done; destruct (reverse kept); done. }
  apply commit_thread; [done | | | done].
  - intros t tht Hne Ht. eapply lf_thread_mono; [by apply Hint | | by apply Hths]. intros l Hl. rewrite Hown. destruct (decide _) as [Hin | _]; [| done]. apply freed_retired in Hin. congruence.
  - pose proof Hpriv as [Hpn Hpk]%Forall_app. split; unfold privates; cbn [pin start history goto with_purgatory pc purgatory node]; rewrite ?Hq1, ?Hq2; cbn [app]; try done.
    + eapply Forall_impl; [done |]. cbn. intros l Hl. rewrite Hown. destruct (decide _) as [Hin | _]; [| done]. apply freed_retired in Hin. congruence.
    + apply Forall_forall. intros l Hl. rewrite elem_of_reverse in Hl. apply list_elem_of_filter in Hl as [Hg Hl]. rewrite Hown, decide_False; [by apply retired_purgatory |]. by intros [? _]%list_elem_of_filter.
    + rewrite reverse_Permutation. by apply NoDup_filter.
    + refine (pc_ok_same _ _ _ _ _ _ _ th _ _ q (Hq4 _)). by eapply pc_ok_mono; [apply Hint | ..].
Qed.
End real_free.
End scan.
