(* ===== verification/LfMain.v ===== *)
(** * The lock-free hash table: memory safety and the answers of the operations

    For any number of threads and any interleaving, as long as the table has less than 2^30 elements. *)

From S2P Require Import Prelude Bits LfHash LfOrder LfInv LfSteps LfChain LfFind LfOps LfBuckets.

Section main.
Context {K : Type} (coll : K → K → Z) `{!Comparison coll} (hash_function : K → Z) `{!SameHash coll hash_function} (dummy_key : K) (unique : bool).
Implicit Types (σ : LF_HASH K) (th : LF_PINS K) (n m : LF_SLIST K) (t u l : nat) (ns : list nat) (own : gmap nat owner) (tg : Z * K).

Abbreviation shape := (shape coll hash_function dummy_key unique).
Abbreviation thread_ok := (thread_ok coll hash_function dummy_key unique).
Abbreviation table_ok := (table_ok coll hash_function dummy_key unique).
Abbreviation pc_ok := (pc_ok coll hash_function dummy_key unique).
Abbreviation accepted := (accepted coll hash_function dummy_key unique).
Abbreviation done_or_waits := (done_or_waits coll hash_function dummy_key unique).
Abbreviation justified := (justified coll unique).
Abbreviation thread_step := (thread_step coll hash_function dummy_key unique).
Abbreviation step := (step coll hash_function dummy_key unique).
Abbreviation reachable := (reachable coll hash_function dummy_key unique).
Abbreviation lf_inv := (lf_inv coll hash_function dummy_key unique).

Lemma done_now σ u σ1 th1 : accepted σ u σ1 th1 → done_or_waits σ u (Ret (Some (σ1, th1))).
Proof using. intros H. right. by exists σ1, th1. Qed.

(** The counters are not part of the shape. *)
Lemma shape_count σ ns own c : shape σ ns own → shape (with_count c σ) ns own.
Proof using. intros []. by split. Qed.

Lemma shape_size σ ns own s : shape σ ns own → (∃ j, 0 ≤ j ≤ 30 ∧ s = 2 ^ j) → shape (with_size s σ) ns own.
Proof using. intros [] ?. by split. Qed.

Section steps.
Context σ ns own u th (Hok : table_ok σ ns own) (Hu : threads σ !! u = Some th).

Lemma idle_ok c : pc th = Idle → done_or_waits σ u (thread_step σ u th c).
Proof using Hok Hu.
  intros Hpc. unfold LfHash.thread_step. rewrite Hpc. pose proof (here _ _ _ _ _ _ _ _ _ Hok Hu) as [Hpins Hst _ _ Hret Hndr _]. rewrite Hpc in Hret, Hndr. cbn zeta.
  assert (∀ q, pc_privates q = [] → pending q = [] → scan_fresh q → pc_ok σ own u (mkPins Idle (c_op c) 0 None (pin th) (purgatory th) (length (history σ))) q →
    accepted σ u σ (goto q (mkPins Idle (c_op c) 0 None (pin th) (purgatory th) (length (history σ))))) as Hgo.
  { intros q Hq1 Hq2 Hq3 Hq4. pose proof Hok as [Hs _]. eapply accept; [done | done | by apply benign_refl | done | done | | done]. split; unfold privates; cbn [pin start goto pc node purgatory option_list app]; rewrite ?Hq1, ?Hq2; try done; [constructor.. |].
    exact (pc_ok_same _ _ _ _ _ _ _ (mkPins Idle (c_op c) 0 None (pin th) (purgatory th) (length (history σ))) _ _ q Hq4). }
  assert (no_change σ u (mkPins Idle (c_op c) 0 None (pin th) (purgatory th) (length (history σ)))) as Hno by (unfold no_change; cbn; by rewrite drop_all).
  destruct (c_op c) as [k | k | k |] eqn:Ho; apply done_now, Hgo; try done.
  - split; [done |]. by exists k.
  - by destruct (purgatory th).
  - by destruct (purgatory th).
  - by destruct (purgatory th).
  - by destruct (purgatory th).
Qed.

Lemma alloc_ok c : pc th = Alloc → done_or_waits σ u (thread_step σ u th c).
Proof using Hok Hu.
  intros Hpc. pose proof (known _ _ _ _ _ _ _ _ _ Hok Hu) as Hk. unfold LfHash.thread_step. rewrite Hpc in Hk |- *. destruct Hk as [Hno [k Ho]]. pose proof Hok as [Hs _]. destruct (c_fail c).
  { apply done_now. eapply accept_goto; [done | done | by rewrite Hpc | by rewrite Hpc | | done]. cbn. unfold returned. by rewrite Ho. }
  destruct (heap σ !! c_addr c) as [? |] eqn:Ea; [by left |]. apply done_now. set (l := c_addr c) in *. destruct (allocate_node coll hash_function dummy_key unique σ ns own u l (set_key (op_key dummy_key (op th)) (c_garbage c)) Hs Ea) as (_ & Hs1 & Hb).
  eapply accept_owned; [done | done | exact Hb | exact Hs1 | done | by rewrite Hpc | done | done | done | done | | | | done].
  - unfold privates. cbn. constructor; [apply lookup_insert_eq | constructor].
  - unfold privates. cbn. apply NoDup_singleton.
  - split; [done |]. unfold node_ready. cbn [op goto with_node]. rewrite Ho. eexists l, _. split; [done |]. split; [apply lookup_insert_eq |]. cbn. by rewrite ?Ho.
Qed.

Lemma read_size_ok c : pc th = ReadSize → done_or_waits σ u (thread_step σ u th c).
Proof using Hok Hu.
  intros Hpc. pose proof (known _ _ _ _ _ _ _ _ _ Hok Hu) as Hk. unfold LfHash.thread_step. rewrite Hpc in Hk |- *. apply done_now. eapply accept_goto; [done | done | by rewrite Hpc | by rewrite Hpc | | done]. split; [done |].
  destruct Hok as [Hs _]. destruct (s_size _ _ _ _ _ _ _ Hs) as (j & Hj & ->). by apply slot_before_element.
Qed.

Lemma free_node_ok c : pc th = FreeNode → done_or_waits σ u (thread_step σ u th c).
Proof using Hok Hu.
  intros Hpc. pose proof (known _ _ _ _ _ _ _ _ _ Hok Hu) as Hk. unfold LfHash.thread_step. rewrite Hpc in Hk |- *. destruct Hk as [[Hno Hready] Hdup]. pose proof Hdup as (_ & k & _ & _ & Ho & _). unfold node_ready in Hready. rewrite Ho in Hready. destruct Hready as (l & n & Hl & Hn & _).
  pose proof Hok as [Hs _]. pose proof (here _ _ _ _ _ _ _ _ _ Hok Hu) as [Hpins Hst Hpriv _ Hret Hndr _]. unfold privates in Hpriv. rewrite Hl in Hpriv. apply Forall_inv in Hpriv as Hol. cbn in Hol. rewrite Hpc in Hret, Hndr. cbn [pending app] in Hret, Hndr.
  destruct (hand_over coll hash_function dummy_key unique σ ns own u l (Retired u) (clobber n) Hs Hol) as [Hs1 Hb]; [by left |]. pose proof (benign_evolves _ _ _ _ _ u th Hb) as He. rewrite Hl. cbn [of_option]. obind. unfold lf_pinbox_free, store, load. rewrite Hn. cbn [of_option]. obind. apply done_now.
  assert (l ∉ purgatory th) as Hnin. { rewrite Forall_forall in Hret. intros Hin. specialize (Hret l Hin). cbn in Hret. congruence. }
  eapply accept; [done | done | exact Hb | exact Hs1 | done | |]; [| cbn [pc goto]; by case_bool_decide]. split; unfold privates; cbn [pin start history with_heap goto with_purgatory pc purgatory node with_node option_list app]; try done.
  - case_bool_decide; constructor.
  - case_bool_decide; constructor.
  - assert (Forall (λ x, <[l := Retired u]> own !! x = Some (Retired u)) (l :: purgatory th)) as H.
    { constructor; [apply lookup_insert_eq |]. eapply Forall_impl; [done |]. intros x Hx. apply (b_retired _ _ _ _ _ Hb u x Hx). }
    by case_bool_decide.
  - assert (NoDup (l :: purgatory th)) by (by constructor). by case_bool_decide.
  - assert (returned coll hash_function dummy_key unique (with_heap (<[l := clobber n]> (heap σ)) σ) (<[l := Retired u]> own) u th Duplicate) as H by (unfold returned; rewrite Ho; split; [done | by eapply duplicate_mono]). by case_bool_decide.
Qed.

Lemma count_up_ok c csize : pc th = CountUp csize → count σ < 2 ^ 30 → done_or_waits σ u (thread_step σ u th c).
Proof using Hok Hu.
  intros Hpc Hcount. pose proof (known _ _ _ _ _ _ _ _ _ Hok Hu) as Hk. unfold LfHash.thread_step. rewrite Hpc in Hk |- *. destruct Hk as [Hins (j & Hj & Ej)]. pose proof Hok as [Hs _]. apply done_now.
  eapply accept_same; [done | done | by apply benign_refl | by apply shape_count | done | rewrite Hpc; by case_bool_decide | rewrite Hpc; by case_bool_decide | | by case_bool_decide]. case_bool_decide as Hlt.
  - split; [done |]. exists j. split; [| done]. split; [lia |]. assert (2 ^ j < 2 ^ 30) as Hpow by lia. apply Z.pow_lt_mono_r_iff in Hpow; lia.
  - destruct Hins as (k & l & Ho & H). cbn. unfold returned. rewrite Ho. by exists k, l.
Qed.

Lemma cas_size_ok c csize : pc th = CasSize csize → done_or_waits σ u (thread_step σ u th c).
Proof using Hok Hu.
  intros Hpc. pose proof (known _ _ _ _ _ _ _ _ _ Hok Hu) as Hk. unfold LfHash.thread_step. rewrite Hpc in Hk |- *. destruct Hk as [Hins (j & Hj & Ej)]. pose proof Hok as [Hs _]. assert (csize * 2 = 2 ^ (j + 1)) as E by (rewrite Z.pow_add_r, Ej by lia; lia).
  assert (0 < 2 ^ (j + 1) ≤ 2 ^ 30) as Hrange by (split; [apply Z.pow_pos_nonneg; lia | apply Z.pow_le_mono_r; lia]). rewrite int_op_Ret by int_range. obind. apply done_now.
  assert (pc_ok σ own u th (Return Inserted)) as Hp by (destruct Hins as (k & l & Ho & H); cbn; unfold returned; rewrite Ho; by exists k, l). case_bool_decide as Es.
  - eapply accept_same; [done | done | by apply benign_refl | apply shape_size; [done |] | done | by rewrite Hpc | by rewrite Hpc | done | done]. exists (j + 1). split; [lia | done].
  - eapply accept_goto; [done | done | by rewrite Hpc | by rewrite Hpc | done | done].
Qed.

(** The answer that an operation returns. *)
Lemma returned_justified r : returned coll hash_function dummy_key unique σ own u th r → justified (history σ) (mkAnswer u (op th) (start th) (length (history σ)) r).
Proof using Hok Hu SameHash0.
  intros Hr. pose proof (here _ _ _ _ _ _ _ _ _ Hok Hu) as [_ Hst _ _ _ _ _]. split; cbn; [lia |]. rewrite take_ge by lia.
  assert (∀ k, op th = Delete k ∨ op th = Search k → no_change σ u th ∧ was_absent coll hash_function σ th (main_target hash_function dummy_key th) →
    mine u (drop (start th) (history σ)) = [] ∧ ∃ i, (start th ≤ i ≤ length (history σ))%nat ∧ absent coll (contents (take i (history σ))) k) as Habs.
  { intros k Ho [Hno (i & Hi & H)]. split; [done |]. exists i. split; [done |]. apply (absent_place coll hash_function). intros l d Hd. specialize (H l d Hd). unfold main_target in H. by destruct Ho as [Ho | Ho]; rewrite Ho in H. }
  unfold returned in Hr. destruct (op th) as [k | k | k |] eqn:Ho, r; try done.
  - destruct Hr as (k' & l & Ho' & Hm). exists l. rewrite Ho in Ho'. by injection Ho' as <-.
  - destruct Hr as (Hno & Hun & k' & l & d & Ho' & (i & Hi & Hd) & Hc). rewrite Ho in Ho'. injection Ho' as <-. split; [done |]. split; [done |]. exists i. split; [done |]. intros Ha. by apply (Ha l d Hd).
  - destruct Hr as (k' & l & d & Ho' & Hm & Hc). rewrite Ho in Ho'. injection Ho' as <-. by exists l, d.
  - apply Habs; [by left | done].
  - apply Habs; [by right | done].
  - destruct Hr as (Hno & (d & (i & Hi & Hd) & Hc) & _). unfold LfHash.op_key in Hc. rewrite Ho in Hc. split; [done |]. exists i. split; [done |]. by exists d.
Qed.

Lemma return_ok c r : pc th = Return r → done_or_waits σ u (thread_step σ u th c).
Proof using Hok Hu SameHash0.
  intros Hpc. pose proof (known _ _ _ _ _ _ _ _ _ Hok Hu) as Hk. unfold LfHash.thread_step. rewrite Hpc in Hk |- *. set (a := mkAnswer u (op th) (start th) (length (history σ)) r). apply done_now. pose proof Hok as [Hs _].
  assert (shape (reply a σ) ns own) as Hs1 by (by destruct Hs). split; [| split; [exists []; by rewrite app_nil_r | right; exists a; split; [done | by apply returned_justified]]]. exists ns, own. eapply commit_step; [done | done | by apply benign_refl | done | | by destruct r].
  pose proof (here _ _ _ _ _ _ _ _ _ Hok Hu) as [Hpins Hst Hpriv Hnd Hret Hndr _]. unfold privates in Hpriv, Hnd. rewrite Hpc in Hpriv, Hnd, Hret, Hndr. split; unfold privates; cbn [pin start goto pc node purgatory]; try done; try (by destruct r).
  destruct r; try done. cbn in Hk. unfold returned in Hk. destruct (op th); try done. apply Hk.
Qed.

Lemma held_ok c l : pc th = Held l → done_or_waits σ u (thread_step σ u th c).
Proof using Hok Hu.
  intros Hpc. pose proof (known _ _ _ _ _ _ _ _ _ Hok Hu) as Hk. unfold LfHash.thread_step. rewrite Hpc in Hk |- *. destruct (c_fail c).
  - apply done_now. eapply accept_pin; [done | done | by rewrite Hpc | by rewrite Hpc | done | done].
  - destruct (safe_load σ own u th 2 l Hk) as (n & _ & -> & _). obind. apply done_now. pose proof (here _ _ _ _ _ _ _ _ _ Hok Hu) as []. eapply accept_local; try done. by rewrite Hpc.
Qed.

Lemma scan_ok c granary i k : pc th = Scan granary i k → done_or_waits σ u (thread_step σ u th c).
Proof using Hok Hu.
  intros Hpc. unfold LfHash.thread_step. rewrite Hpc. case_bool_decide as Hi.
  - apply done_now. by apply (harvest_ok coll hash_function dummy_key unique σ ns own u th granary i k Hok Hu Hpc).
  - rewrite sort_out_spec, !app_nil_r, (purgatory_freed coll hash_function dummy_key unique σ ns own u th granary Hok Hu). obind. apply done_now. eapply release_ok; [done.. | lia].
Qed.

Lemma thread_step_ok c : count σ < 2 ^ 30 → done_or_waits σ u (thread_step σ u th c).
Proof using Hok Hu Comparison0 SameHash0.
  intros Hcount. pose proof (known _ _ _ _ _ _ _ _ _ Hok Hu) as Hk. destruct (pc th) eqn:Hpc.
  - by apply idle_ok.
  - by apply alloc_ok.
  - by apply read_size_ok.
  - unfold LfHash.thread_step. rewrite Hpc. by eapply check_bucket_ok.
  - unfold LfHash.thread_step. rewrite Hpc. by eapply ib_alloc_ok.
  - unfold LfHash.thread_step. rewrite Hpc. by eapply ib_parent_ok.
  - unfold LfHash.thread_step. rewrite Hpc. by eapply ib_free_ok.
  - unfold LfHash.thread_step. rewrite Hpc. by eapply ib_cas_ok.
  - unfold LfHash.thread_step. rewrite Hpc. by eapply ib_fail_ok.
  - unfold LfHash.thread_step. rewrite Hpc. apply fine_done. by eapply find_step_ok.
  - unfold LfHash.thread_step. rewrite Hpc. apply fine_done. by eapply in_link_ok.
  - unfold LfHash.thread_step. rewrite Hpc. apply fine_done. by eapply in_cas_ok.
  - unfold LfHash.thread_step. rewrite Hpc. apply fine_done. by eapply in_unpin_ok.
  - unfold LfHash.thread_step. rewrite Hpc. apply fine_done. by eapply de_mark_ok.
  - unfold LfHash.thread_step. rewrite Hpc. apply fine_done. by eapply de_unlink_ok.
  - unfold LfHash.thread_step. rewrite Hpc. apply fine_done. by eapply de_purge_ok.
  - unfold LfHash.thread_step. rewrite Hpc. apply fine_done. by eapply de_unpin_ok.
  - unfold LfHash.thread_step. rewrite Hpc. apply fine_done. by eapply se_pin_ok.
  - unfold LfHash.thread_step. rewrite Hpc. apply fine_done. by eapply se_unpin_ok.
  - by apply free_node_ok.
  - unfold LfHash.thread_step. rewrite Hpc. apply done_now. eapply accept_goto; [done | done | by rewrite Hpc | by rewrite Hpc | | done]. split; [done |]. destruct Hok as [Hs _]. apply Hs.
  - by eapply count_up_ok.
  - by eapply cas_size_ok.
  - unfold LfHash.thread_step. rewrite Hpc. apply done_now. pose proof Hok as [Hs _]. eapply accept_same; [done | done | by apply benign_refl | by apply shape_count | done | by rewrite Hpc | by rewrite Hpc | | done].
    destruct Hk as (k & l & d & Ho & H). cbn. unfold returned. rewrite Ho. by exists k, l, d.
  - by eapply return_ok.
  - by eapply held_ok.
  - by eapply scan_ok.
Qed.
End steps.

Lemma justified_mono h ext a : justified h a → justified (h ++ ext) a.
Proof using.
  intros [Hr Ha]. unfold LfInv.justified. rewrite length_app. split; [lia |]. cbn zeta in *. rewrite take_app_le by lia.
  assert (∀ P, during h a P → during (h ++ ext) a P) as Hmono. { intros P (i & Hi & HP). exists i. split; [done |]. by rewrite take_app_le by lia. }
  destruct (a_op a), (a_result a); try done; destruct_and?; split_and?; try done; by apply Hmono.
Qed.

Lemma step_ok σ t c : lf_inv σ → count σ < 2 ^ 30 → step σ t c = Ret None ∨ ∃ σ', step σ t c = Ret (Some σ') ∧ lf_inv σ'.
Proof using Comparison0 SameHash0.
  intros [(ns & own & Hs & Hths) Hans] Hcount. unfold LfHash.step. destruct (threads σ !! t) as [th |] eqn:Hu; [| by left].
  destruct (thread_step_ok σ ns own t th (conj Hs Hths) Hu c Hcount) as [-> | (σ1 & th1 & -> & (ns1 & own1 & Hok1) & [ext Eh] & Ha)]; obind; [by left | right]. eexists. split; [done |]. split; [by exists ns1, own1 |]. cbn.
  assert (Forall (justified (history σ1)) (answers σ)) as Hold by (rewrite Eh; eapply Forall_impl; [done |]; intros a; apply justified_mono). destruct Ha as [-> | (a & -> & Ha)]; [done |]. apply Forall_app. split; [done |]. by constructor.
Qed.

Lemma lf_init_ok num : lf_inv (lf_hash_init num).
Proof using.
  split; [| done]. exists [], ∅. split.
  - split; cbn; try done.
    + constructor.
    + constructor.
    + intros l. rewrite lookup_empty. split; [done |]. by intros ?%elem_of_nil.
    + intros l. rewrite !lookup_empty. split; by intros [? ?].
    + intros l k. rewrite !lookup_empty. split; [done |]. by intros (? & ? & _).
    + exists 0. split; [lia | done].
  - intros t th Ht. cbn in Ht. apply lookup_replicate in Ht as [-> _]. split; cbn; try done; constructor.
Qed.

Lemma reachable_inv num σ : reachable num σ → lf_inv σ.
Proof using Comparison0 SameHash0.
  induction 1 as [| σ t c σ' _ IH Hc Hstep]; [apply lf_init_ok |]. destruct (step_ok σ t c IH Hc) as [E | (σ'' & E & H)]; congruence.
Qed.

(** C7: memory safety of the lock-free hash table.  For any number of threads that insert, delete, search and use what they have found, in any interleaving and with any failures of memory, no step touches memory that
    was freed, dereferences a null pointer, reads a key that the purgatory has overwritten or overflows, as long as there are less than 2^30 elements: the pins keep every node from being reused while a thread stands on it. *)
Theorem lf_hash_memory_safe num σ t c : reachable num σ → count σ < 2 ^ 30 → ∃ r, step σ t c = Ret r.
Proof using Comparison0 SameHash0. intros Hr Hc. destruct (step_ok σ t c (reachable_inv num σ Hr) Hc) as [-> | (σ' & -> & _)]; by eexists. Qed.

(** C8: the lock-free hash table is linearizable.  The changes of the elements are a sequence that a table allows, one after the other: an element is removed only when it is there, and a unique table never has
    two elements with one key.  Every operation that has returned made its one change, or none and found the table so at some time between its call and its return: an insertion is refused because of an element with the key, and a deletion or search
    fails because there was none.  The list, as far as it is not marked, is at all times the outcome of the changes. *)
Theorem lf_hash_linearizable num σ : reachable num σ →
  (∀ i c, history σ !! i = Some c → legal coll unique (contents (take i (history σ))) c) ∧
  (∀ a, a ∈ answers σ → justified (history σ) a) ∧
  (∃ ns, chain (heap σ) (array σ !! 0) ns ∧ NoDup ns ∧
    ∀ l k, contents (history σ) !! l = Some k ↔ l ∈ ns ∧ ∃ n, heap σ !! l = Some n ∧ deleted n = false ∧ Z.odd (hashnr n) = true ∧ data n = k).
Proof using Comparison0 SameHash0.
  intros [(ns & own & Hs & _) Ha]%reachable_inv. split; [apply Hs |]. split; [by apply Forall_forall |]. exists ns. split; [apply Hs |]. split; [apply Hs |].
  intros l k. rewrite (s_contents _ _ _ _ _ _ _ Hs). setoid_rewrite (s_own _ _ _ _ _ _ _ Hs). naive_solver.
Qed.
End main.

(** ** A run *)

(** Integers as keys, with their own order and their own value as hash. *)
Definition int_coll (x y : Z) : Z := x - y.

#[export] Instance int_coll_comparison : Comparison int_coll.
Proof. split; unfold int_coll; intros; lia. Qed.

#[export] Instance int_coll_hash : SameHash int_coll id.
Proof. intros x y H. unfold int_coll in H. cbn. lia. Qed.

Definition blank : LF_SLIST Z := mkNode None false 0 false 0.

(** [steps] steps of the thread [t], which begins with the operation [o] and finds the addresses from [a] on free. *)
Fixpoint alone (steps t a : nat) (o : operation Z) : list (nat * choice Z) :=
  match steps with
  | O => []
  | S steps => (t, mkChoice o a blank false) :: alone steps t (S a) o
  end.

Lemma run_reachable {K} (coll : K → K → Z) hash_function dummy_key unique num cs : ∀ σ σ', reachable coll hash_function dummy_key unique num σ →
  forallb (λ j, match run coll hash_function dummy_key unique (take j cs) σ with Ret σ'' => bool_decide (count σ'' < 2 ^ 30) | _ => false end) (seq 0 (length cs)) = true →
  run coll hash_function dummy_key unique cs σ = Ret σ' → reachable coll hash_function dummy_key unique num σ'.
Proof.
  induction cs as [| [t c] cs IH]; intros σ σ' Hr Hb Hrun; [by injection Hrun as <- |]. cbn [length seq forallb] in Hb. apply andb_true_iff in Hb as [Hc Hb]. apply bool_decide_eq_true in Hc. cbn [take run] in Hc.
  cbn [run] in Hrun. apply bind_Ret_inv in Hrun as (r & Hstep & Hrun). apply (IH (default σ r)); [| | done].
  - destruct r as [σ1 |]; [by eapply reach_step | done].
  - apply forallb_forall. intros j Hj%in_seq. rewrite forallb_forall in Hb. specialize (Hb (S j)). cbn [take run] in Hb. rewrite Hstep in Hb. apply Hb, in_seq. lia.
Qed.

(** Three threads: the first inserts 5 and searches for it, the second deletes it while the first uses it, and the third inserts it again. *)
Definition demo_run : list (nat * choice Z) :=
  alone 60 0 10 (Insert 5) ++ alone 20 0 10 (Search 5) ++ alone 40 1 200 (Delete 5) ++ alone 20 0 10 (Search 5) ++ alone 70 2 400 (Insert 5).

Definition state_after (cs : list (nat * choice Z)) (num : nat) : LF_HASH Z :=
  match run int_coll id 0 true cs (lf_hash_init num) with Ret σ => σ | _ => lf_hash_init num end.

Lemma demo_reachable : reachable int_coll id 0 true 3 (state_after demo_run 3).
Proof. apply (run_reachable int_coll id 0 true 3 demo_run (lf_hash_init 3)); [apply reach_init | vm_compute; reflexivity | vm_compute; reflexivity]. Qed.

(** The first theorem for the next access of the first thread to the element that was deleted meanwhile. *)
Lemma lf_hash_memory_safe_witness : (pc <$> threads (state_after demo_run 3) !! 0%nat) = Some (Held 11) ∧ ∃ r, step int_coll id 0 true (state_after demo_run 3) 0 (mkChoice (Search 5) 0 blank false) = Ret r.
Proof. split; [vm_compute; reflexivity |]. apply (lf_hash_memory_safe int_coll id 0 true 3); [apply demo_reachable | vm_compute; reflexivity]. Defined.

(** The second theorem for the answers of that run. *)
Lemma lf_hash_linearizable_witness : map a_result (answers (state_after demo_run 3)) = [Inserted; Duplicate; Deleted; Found 11; Inserted; Duplicate] ∧
  (∀ a, a ∈ answers (state_after demo_run 3) → justified int_coll true (history (state_after demo_run 3)) a).
Proof. split; [vm_compute; reflexivity |]. apply (lf_hash_linearizable int_coll id 0 true 3 (state_after demo_run 3)). apply demo_reachable. Defined.

(** An insertion that finds no memory for the bucket returns without its node, which stays allocated although nothing leads to it. *)
Definition leak_run : list (nat * choice Z) := alone 4 0 10 (Insert 5) ++ [(0%nat, mkChoice (Insert 5) 20%nat blank true)] ++ alone 1 0 30 (Insert 5).

Theorem insert_without_memory_leaks :
  let σ := state_after leak_run 1 in map a_result (answers σ) = [OutOfMemory] ∧ size (heap σ) = 1%nat ∧ array σ = ∅ ∧ map node (threads σ) = [None] ∧ map purgatory (threads σ) = [[]].
Proof. vm_compute. repeat split. Qed.
