(* ===== verification/Base64.v ===== *)
(** * Base64 (src/project4/mariadb/server/mysys/base64.c)

    The encoder and the streaming decoder.  Bytes and characters are numbers from 0 to 255; the
    decoder reads its input by position, as the code does by pointer.  The round trip is
    [base64_roundtrip]. *)

From S2P Require Import Prelude Bits.

(** ** Lengths *)

Definition my_base64_encode_max_arg_length : Z := 0x5EC0D4C6.

(** [int] arithmetic that overflows is undefined. *)
Definition my_base64_needed_encoded_length (length_of_data : Z) : outcome Z :=
  a ← int_op (length_of_data + 2);
  nb_base64_chars ← int_op (Z.quot a 3 * 4);
  b ← int_op (nb_base64_chars - 1);
  c ← int_op (nb_base64_chars + Z.quot b 76);
  int_op (c + 1).

Definition my_base64_needed_decoded_length (length_of_encoded_data : Z) : outcome Z :=
  int_op (Z.quot (wrap32 (length_of_encoded_data + 3)) 4 * 3).

(** ** Encoder *)

Definition base64_table : list Z :=
  [
   65; 66; 67; 68; 69; 70; 71; 72; 73; 74; 75; 76; 77; 78; 79; 80;
   81; 82; 83; 84; 85; 86; 87; 88; 89; 90; 97; 98; 99; 100; 101; 102;
   103; 104; 105; 106; 107; 108; 109; 110; 111; 112; 113; 114; 115; 116; 117; 118;
   119; 120; 121; 122; 48; 49; 50; 51; 52; 53; 54; 55; 56; 57; 43; 47].

(** One turn of the loop; the result is what the rest of the loop writes. *)
Fixpoint encode_loop (fuel : nat) (s : list Z) (i len : Z) : outcome (list Z) :=
  let src_len := Z.of_nat (length s) in
  if bool_decide (i < src_len) then
    match fuel with
    | O => NoFuel
    | S fuel =>
        let '(sep, len) := if bool_decide (len = 76) then ([10], 0) else ([], len) in
        c ← s.[i];
        let c := u32 (Z.shiftl c 8) in let i := i + 1 in
        c ← (if bool_decide (i < src_len) then b ← s.[i]; Ret (u32 (c + b)) else Ret c);
        let c := u32 (Z.shiftl c 8) in let i := i + 1 in
        c ← (if bool_decide (i < src_len) then b ← s.[i]; Ret (u32 (c + b)) else Ret c);
        let i := i + 1 in
        c1 ← base64_table.[Z.land (Z.shiftr c 18) 0x3F];
        c2 ← base64_table.[Z.land (Z.shiftr c 12) 0x3F];
        c3 ← (if bool_decide (i > src_len + 1) then Ret 61 else base64_table.[Z.land (Z.shiftr c 6) 0x3F]);
        c4 ← (if bool_decide (i > src_len) then Ret 61 else base64_table.[Z.land (Z.shiftr c 0) 0x3F]);
        rest ← encode_loop fuel s i (len + 4);
        Ret (sep ++ [c1; c2; c3; c4] ++ rest)
    end
  else Ret [].

Definition my_base64_encode (s : list Z) : outcome (list Z) := encode_loop (length s) s 0 0.

(** ** Decoder *)

(** [MY_BASE64_DECODER]; the input and its end are arguments of the functions. *)
Record DECODER := mkDecoder { d_src : Z; d_c : Z; d_error : bool; d_state : Z; d_mark : Z }.

Definition from_base64_table : list Z :=
  [
   -1; -1; -1; -1; -1; -1; -1; -1; -1; -2; -2; -2; -2; -2; -1; -1;
   -1; -1; -1; -1; -1; -1; -1; -1; -1; -1; -1; -1; -1; -1; -1; -1;
   -2; -1; -1; -1; -1; -1; -1; -1; -1; -1; -1; 62; -1; -1; -1; 63;
   52; 53; 54; 55; 56; 57; 58; 59; 60; 61; -1; -1; -1; -1; -1; -1;
   -1; 0; 1; 2; 3; 4; 5; 6; 7; 8; 9; 10; 11; 12; 13; 14;
   15; 16; 17; 18; 19; 20; 21; 22; 23; 24; 25; -1; -1; -1; -1; -1;
   -1; 26; 27; 28; 29; 30; 31; 32; 33; 34; 35; 36; 37; 38; 39; 40;
   41; 42; 43; 44; 45; 46; 47; 48; 49; 50; 51; -1; -1; -1; -1; -1;
   -1; -1; -1; -1; -1; -1; -1; -1; -1; -1; -1; -1; -1; -1; -1; -1;
   -1; -1; -1; -1; -1; -1; -1; -1; -1; -1; -1; -1; -1; -1; -1; -1;
   -2; -1; -1; -1; -1; -1; -1; -1; -1; -1; -1; -1; -1; -1; -1; -1;
   -1; -1; -1; -1; -1; -1; -1; -1; -1; -1; -1; -1; -1; -1; -1; -1;
   -1; -1; -1; -1; -1; -1; -1; -1; -1; -1; -1; -1; -1; -1; -1; -1;
   -1; -1; -1; -1; -1; -1; -1; -1; -1; -1; -1; -1; -1; -1; -1; -1;
   -1; -1; -1; -1; -1; -1; -1; -1; -1; -1; -1; -1; -1; -1; -1; -1;
   -1; -1; -1; -1; -1; -1; -1; -1; -1; -1; -1; -1; -1; -1; -1; -1].

(** The loop of [my_base64_decoder_skip_spaces]: the position of the first character that is
    not a space, or of the end. *)
Fixpoint skip_loop (fuel : nat) (s : list Z) (p : Z) : outcome Z :=
  if bool_decide (p < Z.of_nat (length s)) then
    match fuel with
    | O => NoFuel
    | S fuel =>
        ch ← s.[p]; v ← from_base64_table.[ch];
        if bool_decide (v ≠ -2) then Ret p else skip_loop fuel s (p + 1)
    end
  else Ret p.

Definition my_base64_decoder_skip_spaces (s : list Z) (d : DECODER) : outcome (bool * DECODER) :=
  p ← skip_loop (length s) s (d_src d);
  if bool_decide (p < Z.of_nat (length s)) then Ret (false, mkDecoder p (d_c d) (d_error d) (d_state d) (d_mark d))
  else Ret (true, mkDecoder p (d_c d) (if bool_decide (d_state d > 0) then true else d_error d) (d_state d) (d_mark d)).

Definition my_base64_add (s : list Z) (d : DECODER) : outcome (bool * DECODER) :=
  let c := u32 (Z.shiftl (d_c d) 6) in
  ch ← s.[d_src d]; res ← from_base64_table.[ch];
  if bool_decide (res < 0) then Ret (true, mkDecoder (d_src d + 1) c true (d_state d) (d_mark d))
  else Ret (false, mkDecoder (d_src d + 1) (u32 (c + res)) (d_error d) (d_state d) (d_mark d)).

Definition my_base64_decoder_getch (s : list Z) (d : DECODER) : outcome (bool * DECODER) :=
  '(stop, d) ← my_base64_decoder_skip_spaces s d;
  if (stop : bool) then Ret (true, d)
  else
    '(bad, d) ← my_base64_add s d;
    if negb bad then
      if bool_decide (d_mark d ≠ 0) then Ret (true, mkDecoder (d_src d - 1) (d_c d) true (d_state d) (d_mark d))
      else Ret (false, mkDecoder (d_src d) (d_c d) (d_error d) (d_state d + 1) (d_mark d))
    else if bool_decide (d_state d < 2) then Ret (true, mkDecoder (d_src d - 1) (d_c d) (d_error d) (d_state d) (d_mark d))
    else
      ch ← s.[d_src d - 1];
      if bool_decide (ch = 61) then Ret (false, mkDecoder (d_src d) (d_c d) false (d_state d + 1) (d_mark d + 1))
      else Ret (true, mkDecoder (d_src d - 1) (d_c d) (d_error d) (d_state d) (d_mark d)).

(** Four calls of [getch] joined by [||]. *)
Fixpoint getch_group (n : nat) (s : list Z) (d : DECODER) : outcome (bool * DECODER) :=
  match n with
  | O => Ret (false, d)
  | S n => '(stop, d) ← my_base64_decoder_getch s d; if (stop : bool) then Ret (true, d) else getch_group n s d
  end.

(** The loop over groups; [out] is what is written before [d]. *)
Fixpoint decode_loop (fuel : nat) (s : list Z) (multiple : bool) (d : DECODER) (out : list Z) : outcome (DECODER * list Z) :=
  match fuel with
  | O => NoFuel
  | S fuel =>
      '(stop, d) ← getch_group 4 s (mkDecoder (d_src d) 0 (d_error d) 0 (d_mark d));
      if (stop : bool) then Ret (d, out)
      else
        let out := out ++ [Z.land (Z.shiftr (d_c d) 16) 0xFF; Z.land (Z.shiftr (d_c d) 8) 0xFF; Z.land (Z.shiftr (d_c d) 0) 0xFF] in
        if bool_decide (d_mark d ≠ 0) then
          let out := take (length out - Z.to_nat (d_mark d)) out in
          if negb multiple then Ret (d, out)
          else decode_loop fuel s multiple (mkDecoder (d_src d) (d_c d) (d_error d) (d_state d) 0) out
        else decode_loop fuel s multiple d out
  end.

(** The result, which is a difference of pointers converted to [int], the bytes written and
    the value of [*end_ptr]. *)
Definition my_base64_decode (s : list Z) (multiple : bool) : outcome (Z * list Z * Z) :=
  '(d, out) ← decode_loop (S (length s)) s multiple (mkDecoder 0 0 false 0 0) [];
  '(stop, d) ← my_base64_decoder_skip_spaces s (mkDecoder (d_src d) (d_c d) (d_error d) 0 (d_mark d));
  let error := if (stop : bool) then d_error d else true in
  Ret (if error then -1 else wrap32 (Z.of_nat (length out)), out, d_src d).
