(* ===== verification/Base64Spec.v ===== *)
(** * Base64: encoding and decoding are inverse

    The loop of the encoder computes a reference encoding by groups of three bytes ([enc]); the
    decoder reads any encoding back, through the line separators; the length the code
    announces for the encoding is exact. *)

From S2P Require Import Prelude Bits Base64.

(** ** Reference encoding *)

Definition byte (b : Z) : Prop := 0 ≤ b < 256.

(** The character of six bits of a group. *)
Definition chr (c k : Z) : Z := base64_table !!! Z.to_nat (c / 2 ^ k mod 64).

Definition sep (len : Z) : list Z := if bool_decide (len = 76) then [10] else [].
Definition next_len (len : Z) : Z := (if bool_decide (len = 76) then 0 else len) + 4.

(** The encoding of [bs], with [len] characters on the current line. *)
Fixpoint enc (bs : list Z) (len : Z) : list Z :=
  match bs with
  | [] => []
  | [a] => let c := a * 65536 in sep len ++ [chr c 18; chr c 12; 61; 61]
  | [a; b] => let c := a * 65536 + b * 256 in sep len ++ [chr c 18; chr c 12; chr c 6; 61]
  | a :: b :: d :: bs => let c := a * 65536 + b * 256 + d in sep len ++ [chr c 18; chr c 12; chr c 6; chr c 0] ++ enc bs (next_len len)
  end.

Lemma vget_table v : 0 ≤ v < 64 → vget base64_table v = Ret (base64_table !!! Z.to_nat v).
Proof.
  intros Hv. unfold vget. rewrite bool_decide_true by lia.
  rewrite (list_lookup_lookup_total_lt base64_table (Z.to_nat v)) by (cbn; lia). done.
Qed.

Lemma vget_chr c k : 0 ≤ k → vget base64_table (Z.land (Z.shiftr c k) 0x3F) = Ret (chr c k).
Proof.
  intros Hk. change 0x3F with (Z.ones 6). rewrite Z.land_ones, Z.shiftr_div_pow2 by lia. apply vget_table. apply Z.mod_pos_bound. lia.
Qed.

Lemma lookup_vget (s : list Z) i b : 0 ≤ i → s !! Z.to_nat i = Some b → vget s i = Ret b.
Proof. intros Hi Hb. unfold vget. rewrite bool_decide_true by done. by rewrite Hb. Qed.

Lemma encode_loop_enc s : Forall byte s → ∀ fuel i len,
  0 ≤ i → Z.of_nat (length s) - i ≤ Z.of_nat fuel → encode_loop fuel s i len = Ret (enc (drop (Z.to_nat i) s) len).
Proof.
  intros Hs. induction fuel as [| fuel IH]; intros i len Hi Hf; cbn [encode_loop].
  { rewrite bool_decide_false by lia. by rewrite drop_ge by lia. }
  destruct (decide (i < Z.of_nat (length s))) as [Hlt | Hge]; cycle 1.
  { rewrite bool_decide_false by lia. by rewrite drop_ge by lia. }
  rewrite bool_decide_true by done. destruct (lookup_lt_is_Some_2 s (Z.to_nat i) ltac:(lia)) as [a Ha].
  assert (byte a) as Hba by (by eapply Forall_lookup_1). unfold byte in Hba.
  rewrite (drop_S _ _ _ Ha). rewrite (lookup_vget s i a) by done.
  assert ((if bool_decide (len = 76) then ([10], 0) else ([], len)) = (sep len, next_len len - 4)) as ->.
  { unfold next_len, sep. case_bool_decide; f_equal; lia. }
  obind.
  rewrite Z.shiftl_mul_pow2, (u32_small (a * 2 ^ 8)) by lia. replace (next_len len - 4 + 4) with (next_len len) by lia.
  replace (S (Z.to_nat i)) with (Z.to_nat (i + 1)) by lia.
  destruct (decide (i + 1 < Z.of_nat (length s))) as [Hlt1 | Hge1]; cycle 1.
  { rewrite (bool_decide_false (i + 1 < _)) by lia. obind. rewrite Z.shiftl_mul_pow2, u32_small by lia.
    rewrite (bool_decide_false (i + 1 + 1 < _)) by lia. obind. rewrite !vget_chr by lia. obind. rewrite !bool_decide_true by lia. obind.
    rewrite IH by lia. rewrite !drop_ge by lia. obind. replace (a * 2 ^ 8 * 2 ^ 8) with (a * 65536) by lia. done. }
  destruct (lookup_lt_is_Some_2 s (Z.to_nat (i + 1)) ltac:(lia)) as [b Hb]. assert (byte b) as Hbb by (by eapply Forall_lookup_1). unfold byte in Hbb.
  rewrite (bool_decide_true (i + 1 < _)) by lia. rewrite (lookup_vget s (i + 1) b) by (done || lia). obind.
  rewrite (u32_small (a * 2 ^ 8 + b)), Z.shiftl_mul_pow2, u32_small by lia. rewrite (drop_S _ _ _ Hb). replace (S (Z.to_nat (i + 1))) with (Z.to_nat (i + 1 + 1)) by lia.
  destruct (decide (i + 1 + 1 < Z.of_nat (length s))) as [Hlt2 | Hge2]; cycle 1.
  { rewrite (bool_decide_false (i + 1 + 1 < _)) by lia. obind. rewrite (bool_decide_false (i + 1 + 1 + 1 > _ + 1)), (bool_decide_true (i + 1 + 1 + 1 > _)) by lia.
    rewrite !vget_chr by lia. obind.
    rewrite IH by lia. rewrite !drop_ge by lia. obind. replace ((a * 2 ^ 8 + b) * 2 ^ 8) with (a * 65536 + b * 256) by lia. done. }
  destruct (lookup_lt_is_Some_2 s (Z.to_nat (i + 1 + 1)) ltac:(lia)) as [d Hd]. assert (byte d) as Hbd by (by eapply Forall_lookup_1). unfold byte in Hbd.
  rewrite (bool_decide_true (i + 1 + 1 < _)) by lia. rewrite (lookup_vget s (i + 1 + 1) d) by (done || lia). obind. rewrite u32_small by lia.
  rewrite !vget_chr by lia. obind. rewrite !bool_decide_false by lia. obind. rewrite IH by lia. obind.
  rewrite (drop_S _ _ _ Hd). replace (S (Z.to_nat (i + 1 + 1))) with (Z.to_nat (i + 1 + 1 + 1)) by lia.
  replace ((a * 2 ^ 8 + b) * 2 ^ 8 + d) with (a * 65536 + b * 256 + d) by lia. done.
Qed.

Lemma encode_enc s : Forall byte s → my_base64_encode s = Ret (enc s 0).
Proof. intros Hs. unfold my_base64_encode. rewrite encode_loop_enc by (done || lia). done. Qed.

(** ** Decoder *)

(** The input from the position [p] on is [l]. *)
Definition at_pos (s : list Z) (p : Z) (l : list Z) : Prop := 0 ≤ p ≤ Z.of_nat (length s) ∧ drop (Z.to_nat p) s = l.

Lemma at_pos_cons s p ch l : at_pos s p (ch :: l) → vget s p = Ret ch ∧ p < Z.of_nat (length s) ∧ at_pos s (p + 1) l.
Proof.
  intros [Hp Hd]. assert (s !! Z.to_nat p = Some ch) as Hl.
  { rewrite <- (Nat.add_0_r (Z.to_nat p)), <- lookup_drop, Hd. done. }
  pose proof (lookup_lt_Some _ _ _ Hl). split_and!; [apply lookup_vget; [lia | done] | lia | split; [lia |]].
  replace (Z.to_nat (p + 1)) with (S (Z.to_nat p)) by lia. rewrite (drop_S _ _ _ Hl) in Hd. by injection Hd.
Qed.

Lemma at_pos_nil s p : at_pos s p [] → p = Z.of_nat (length s).
Proof. intros [Hp Hd]. apply (f_equal length) in Hd. rewrite length_drop in Hd. cbn in Hd. lia. Qed.

Lemma at_pos_length s p l : at_pos s p l → Z.of_nat (length s) = p + Z.of_nat (length l).
Proof. intros [Hp Hd]. apply (f_equal length) in Hd. rewrite length_drop in Hd. lia. Qed.

(** Every character of the encoder is read back. *)
Lemma table_inverse v :
  0 ≤ v < 64 → let ch := base64_table !!! Z.to_nat v in vget from_base64_table ch = Ret v.
Proof.
  intros Hv. assert (Forall (λ v, vget from_base64_table (base64_table !!! Z.to_nat v) = Ret v) (seqZ 0 64)) as Hall by (repeat constructor).
  rewrite Forall_forall in Hall. apply Hall, elem_of_seqZ. lia.
Qed.

Lemma chr_value c k : vget from_base64_table (chr c k) = Ret (c / 2 ^ k mod 64).
Proof. apply table_inverse. apply Z.mod_pos_bound. lia. Qed.

(** Spaces: a line separator, or nothing. *)
Lemma skip_loop_sep s p sp ch v l fuel :
  at_pos s p (sp ++ ch :: l) → sp = [] ∨ sp = [10] → vget from_base64_table ch = Ret v → v ≠ -2 → (length sp < fuel)%nat →
  skip_loop fuel s p = Ret (p + Z.of_nat (length sp)) ∧ at_pos s (p + Z.of_nat (length sp)) (ch :: l).
Proof.
  intros Hpos Hsp Hv Hne Hf. destruct fuel as [| fuel]; [lia |]. destruct Hsp as [-> | ->]; cbn [app length] in *.
  - replace (p + Z.of_nat 0) with p by lia. destruct (at_pos_cons _ _ _ _ Hpos) as (Hg & Hlt & _). split; [| done].
    cbn [skip_loop]. rewrite bool_decide_true, Hg by done. obind. rewrite Hv. obind. by rewrite bool_decide_true.
  - destruct fuel as [| fuel]; [lia |]. destruct (at_pos_cons _ _ _ _ Hpos) as (Hg & Hlt & Hpos1).
    destruct (at_pos_cons _ _ _ _ Hpos1) as (Hg1 & Hlt1 & _). replace (p + Z.of_nat 1) with (p + 1) by lia. split; [| done].
    cbn [skip_loop]. rewrite bool_decide_true, Hg by done. obind. change (vget from_base64_table 10) with (Ret (-2)). obind.
    rewrite bool_decide_false by tauto. rewrite bool_decide_true, Hg1 by done. obind. rewrite Hv. obind. by rewrite bool_decide_true.
Qed.

Lemma getch_char s sp ch v l p c st :
  at_pos s p (sp ++ ch :: l) → sp = [] ∨ sp = [10] → vget from_base64_table ch = Ret v → 0 ≤ v < 64 → 0 ≤ c < 2 ^ 18 →
  let p' := p + Z.of_nat (length sp) + 1 in
  my_base64_decoder_getch s (mkDecoder p c false st 0) = Ret (false, mkDecoder p' (c * 64 + v) false (st + 1) 0) ∧ at_pos s p' l.
Proof.
  intros Hpos Hsp Hv Hv64 Hc p'. pose proof (at_pos_length _ _ _ Hpos) as Hlen. rewrite length_app in Hlen. cbn in Hlen.
  destruct Hpos as [Hp Hd] eqn:E. clear E.
  destruct (skip_loop_sep s p sp ch v l (length s)) as [Hskip Hpos']; [by split | done | done | lia | lia |].
  destruct (at_pos_cons _ _ _ _ Hpos') as (Hg & Hlt & Hnext). split; [| done].
  unfold my_base64_decoder_getch, my_base64_decoder_skip_spaces. cbn [d_src]. rewrite Hskip. obind. rewrite bool_decide_true by done. obind.
  unfold my_base64_add. cbn [d_src d_c d_error d_state d_mark]. rewrite Hg. obind. rewrite Hv. obind. rewrite (bool_decide_false (v < 0)) by lia. obind.
  cbn [negb d_mark d_src d_c d_error d_state]. rewrite (bool_decide_false (0 ≠ 0)) by tauto. rewrite Z.shiftl_mul_pow2, (u32_small (c * 2 ^ 6)), u32_small by lia. done.
Qed.

Lemma getch_pad s l p c st mk :
  at_pos s p (61 :: l) → 2 ≤ st → 0 ≤ c < 2 ^ 18 →
  my_base64_decoder_getch s (mkDecoder p c false st mk) = Ret (false, mkDecoder (p + 1) (c * 64) false (st + 1) (mk + 1)) ∧ at_pos s (p + 1) l.
Proof.
  intros Hpos Hst Hc. destruct (at_pos_cons _ _ _ _ Hpos) as (Hg & Hlt & Hnext). split; [| done].
  destruct (skip_loop_sep s p [] 61 (-1) l (length s)) as [Hskip _]; [done | by left | done | lia | cbn; destruct Hpos; lia |].
  unfold my_base64_decoder_getch, my_base64_decoder_skip_spaces. cbn [d_src]. rewrite Hskip. obind. cbn [length]. replace (p + Z.of_nat 0) with p by lia.
  rewrite bool_decide_true by done. obind. unfold my_base64_add. cbn [d_src d_c d_error d_state d_mark]. rewrite Hg. obind.
  change (vget from_base64_table 61) with (Ret (-1)). obind. rewrite bool_decide_true by lia. obind. cbn [negb d_state d_src d_c d_error d_mark].
  rewrite bool_decide_false by lia. replace (p + 1 - 1) with p by lia. rewrite Hg. obind. rewrite bool_decide_true by done.
  rewrite Z.shiftl_mul_pow2, u32_small by lia. done.
Qed.

(** The four characters of a group give back its 24 bits. *)
Lemma sextets c :
  0 ≤ c < 2 ^ 24 →
  ((c / 2 ^ 18 mod 64 * 64 + c / 2 ^ 12 mod 64) * 64 + c / 2 ^ 6 mod 64) * 64 + c / 2 ^ 0 mod 64 = c.
Proof.
  intros Hc. change (2 ^ 0) with 1. rewrite Z.div_1_r. change (2 ^ 18) with (64 * 64 * 64). change (2 ^ 12) with (64 * 64). change (2 ^ 6) with 64.
  rewrite <- !Z.div_div by lia. pose proof (Z.div_mod c 64). pose proof (Z.div_mod (c / 64) 64). pose proof (Z.div_mod (c / 64 / 64) 64).
  rewrite (Z.mod_small (c / 64 / 64 / 64)); [lia |]. split; [repeat apply Z.div_pos; lia |]. repeat apply Z.div_lt_upper_bound; lia.
Qed.

Definition is_sep (sp : list Z) : Prop := sp = [] ∨ sp = [10].

Lemma group_char n s sp c k l p acc st :
  at_pos s p (sp ++ chr c k :: l) → is_sep sp → 0 ≤ acc < 2 ^ 18 →
  let p' := p + Z.of_nat (length sp) + 1 in
  getch_group (S n) s (mkDecoder p acc false st 0) = getch_group n s (mkDecoder p' (acc * 64 + c / 2 ^ k mod 64) false (st + 1) 0) ∧
  at_pos s p' l ∧ 0 ≤ acc * 64 + c / 2 ^ k mod 64 < (acc + 1) * 64.
Proof.
  intros Hpos Hsp Hacc p'. pose proof (Z.mod_pos_bound (c / 2 ^ k) 64 ltac:(lia)) as Hv.
  destruct (getch_char s sp _ _ l p acc st Hpos Hsp (chr_value c k) Hv Hacc) as [Hg Hn].
  split_and!; [| done | lia | lia]. cbn [getch_group]. rewrite Hg. done.
Qed.

Lemma group_pad n s l p acc st mk :
  at_pos s p (61 :: l) → 2 ≤ st → 0 ≤ acc < 2 ^ 18 →
  getch_group (S n) s (mkDecoder p acc false st mk) = getch_group n s (mkDecoder (p + 1) (acc * 64) false (st + 1) (mk + 1)) ∧ at_pos s (p + 1) l.
Proof.
  intros Hpos Hst Hacc. destruct (getch_pad s l p acc st mk Hpos Hst Hacc) as [Hg Hn]. split; [| done]. cbn [getch_group]. by rewrite Hg.
Qed.

Lemma low_sextet c j k : 0 ≤ k → k + 6 ≤ j → c mod 2 ^ j = 0 → c / 2 ^ k mod 64 = 0.
Proof.
  intros Hk Hj Hmod. rewrite (Z.div_mod c (2 ^ j)), Hmod by (pose proof (Z.pow_pos_nonneg 2 j); lia).
  replace (2 ^ j) with (2 ^ (j - k - 6) * 64 * 2 ^ k) by (change 64 with (2 ^ 6); rewrite <- !Z.pow_add_r by lia; f_equal; lia).
  set (q := c / _). replace (_ + 0) with (2 ^ (j - k - 6) * q * 64 * 2 ^ k) by lia.
  rewrite Z.div_mul by (pose proof (Z.pow_pos_nonneg 2 k); lia). by apply Z.mod_mul.
Qed.

(** A group of the encoder: [mk] pads after its other characters. *)
Definition quad (c mk : Z) : list Z :=
  [chr c 18; chr c 12; if bool_decide (mk = 2) then 61 else chr c 6; if bool_decide (mk = 0) then chr c 0 else 61].

Lemma group_quad s sp c mk l p :
  at_pos s p (sp ++ quad c mk ++ l) → is_sep sp → 0 ≤ c < 2 ^ 24 → 0 ≤ mk ≤ 2 → c mod 2 ^ (8 * mk) = 0 →
  let p' := p + Z.of_nat (length sp) + 4 in
  getch_group 4 s (mkDecoder p 0 false 0 0) = Ret (false, mkDecoder p' c false 4 mk) ∧ at_pos s p' l.
Proof.
  intros Hpos Hsp Hc Hmk Hmod p'. pose proof (sextets c Hc) as Hsex. assert (is_sep []) as Hnil by (by left).
  set (v1 := 0 * 64 + c / 2 ^ 18 mod 64). set (v2 := v1 * 64 + c / 2 ^ 12 mod 64). set (v3 := v2 * 64 + c / 2 ^ 6 mod 64).
  destruct (group_char 3 s sp c 18 _ p 0 0 Hpos Hsp ltac:(lia)) as (G1 & Hpos1 & B1). fold v1 in G1, B1.
  destruct (group_char 2 s [] c 12 _ _ v1 (0 + 1) Hpos1 Hnil ltac:(lia)) as (G2 & Hpos2 & B2). fold v2 in G2, B2.
  rewrite G1, G2. clear G1 G2 Hpos Hpos1. cbn [length Z.of_nat] in *.
  replace (_ + 1 + Z.of_nat 0 + 1) with (p + Z.of_nat (length sp) + 2) in * by lia. change (0 + 1 + 1) with 2.
  assert (mk = 0 ∨ mk = 1 ∨ mk = 2) as [-> | [-> | ->]] by lia; repeat (rewrite bool_decide_true in Hpos2 by done || rewrite bool_decide_false in Hpos2 by lia).
  - destruct (group_char 1 s [] c 6 _ _ v2 2 Hpos2 Hnil ltac:(lia)) as (G3 & Hpos3 & B3). fold v3 in G3, B3.
    destruct (group_char 0 s [] c 0 _ _ v3 (2 + 1) Hpos3 Hnil ltac:(lia)) as (G4 & Hpos4 & B4). rewrite G3, G4. cbn [length] in *.
    replace (_ + 1) with p' in * by (unfold p'; lia). split; [| done]. cbn [getch_group]. do 3 f_equal. lia.
  - destruct (group_char 1 s [] c 6 _ _ v2 2 Hpos2 Hnil ltac:(lia)) as (G3 & Hpos3 & B3). fold v3 in G3, B3.
    destruct (group_pad 0 s l _ v3 (2 + 1) 0 Hpos3 ltac:(lia) ltac:(lia)) as (G4 & Hpos4). rewrite G3, G4. cbn [length] in *.
    replace (_ + 1) with p' in * by (unfold p'; lia). split; [| done]. cbn [getch_group]. do 3 f_equal.
    rewrite (low_sextet c 8 0) in Hsex by (done || lia). lia.
  - destruct (group_pad 1 s _ _ v2 2 0 Hpos2 ltac:(lia) ltac:(lia)) as (G3 & Hpos3).
    destruct (group_pad 0 s l _ (v2 * 64) (2 + 1) (0 + 1) Hpos3 ltac:(lia) ltac:(lia)) as (G4 & Hpos4). rewrite G3, G4.
    replace (_ + 1) with p' in * by (unfold p'; lia). split; [| done]. cbn [getch_group]. do 3 f_equal.
    rewrite (low_sextet c 16 0), (low_sextet c 16 6) in Hsex by (done || lia). lia.
Qed.

Lemma sep_is_sep len : is_sep (sep len).
Proof. unfold sep. case_bool_decide; [by right | by left]. Qed.

Lemma group_bytes a b d :
  byte a → byte b → byte d → let c := a * 65536 + b * 256 + d in
  [Z.land (Z.shiftr c 16) 0xFF; Z.land (Z.shiftr c 8) 0xFF; Z.land (Z.shiftr c 0) 0xFF] = [a; b; d].
Proof.
  intros Ha Hb Hd c. unfold byte in *. change 0xFF with (Z.ones 8). rewrite !Z.land_ones, !Z.shiftr_div_pow2 by lia.
  change (2 ^ 0) with 1. change (2 ^ 8) with 256. change (2 ^ 16) with (256 * 256).
  rewrite Z.div_1_r, <- Z.div_div by lia. replace c with ((a * 256 + b) * 256 + d) by (unfold c; lia).
  rewrite (Z.div_add_l _ 256), (Z.div_small d), Z.add_0_r, (Z.div_add_l a), (Z.div_small b), Z.add_0_r by lia.
  rewrite (Z.mod_small a), !(Z.add_comm (_ * 256)), !Z.mod_add, !Z.mod_small by lia. done.
Qed.

(** At the end of the input, the loop of the decoder stops without an error. *)
Lemma decode_loop_end fuel s multiple p c st out :
  at_pos s p [] → decode_loop (S fuel) s multiple (mkDecoder p c false st 0) out = Ret (mkDecoder p 0 false 0 0, out).
Proof.
  intros Hpos. pose proof (at_pos_nil _ _ Hpos) as ->. cbn [decode_loop getch_group d_src d_error d_mark].
  unfold my_base64_decoder_getch, my_base64_decoder_skip_spaces. cbn [d_src d_c d_error d_state d_mark].
  assert (skip_loop (length s) s (Z.of_nat (length s)) = Ret (Z.of_nat (length s))) as ->.
  { destruct (length s) eqn:E; cbn [skip_loop]; by rewrite bool_decide_false by lia. }
  obind. by rewrite bool_decide_false by lia.
Qed.

(** One turn of the loop on a group of the encoder. *)
Lemma decode_turn fuel s multiple sp a b d mk l p c st out :
  at_pos s p (sp ++ quad (a * 65536 + b * 256 + d) mk ++ l) → is_sep sp → byte a → byte b → byte d →
  0 ≤ mk ≤ 2 → (a * 65536 + b * 256 + d) mod 2 ^ (8 * mk) = 0 →
  let p' := p + Z.of_nat (length sp) + 4 in let out' := out ++ take (3 - Z.to_nat mk) [a; b; d] in
  at_pos s p' l ∧ ∃ c' st', decode_loop (S fuel) s multiple (mkDecoder p c false st 0) out =
    if bool_decide (mk ≠ 0) && negb multiple then Ret (mkDecoder p' c' false st' mk, out')
    else decode_loop fuel s multiple (mkDecoder p' c' false st' 0) out'.
Proof.
  intros Hpos Hsp Ha Hb Hd Hmk Hmod p' out'. set (g := a * 65536 + b * 256 + d) in *.
  destruct (group_quad s sp g mk l p Hpos Hsp) as [Hg Hnext]; [unfold byte in *; unfold g; lia | done | done |]. split; [done |].
  exists g, 4. cbn [decode_loop d_src d_error d_mark]. rewrite Hg. obind. cbn [d_src d_error d_mark d_c d_state].
  pose proof (group_bytes a b d Ha Hb Hd) as Hgb. cbn zeta in Hgb. fold g in Hgb. rewrite Hgb.
  assert (out' = take (length (out ++ [a; b; d]) - Z.to_nat mk) (out ++ [a; b; d])) as Hout.
  { unfold out'. rewrite length_app, take_app. cbn [length]. rewrite (take_ge out) by lia. do 2 f_equal. lia. }
  rewrite Hout. case_bool_decide as Hm; [by destruct multiple |]. subst mk.
  rewrite take_ge by (rewrite Nat.sub_0_r; done). done.
Qed.

Lemma decode_enc s multiple : ∀ fuel bs len p c st out,
  Forall byte bs → at_pos s p (enc bs len) → (length (enc bs len) < fuel)%nat →
  ∃ d', decode_loop fuel s multiple (mkDecoder p c false st 0) out = Ret (d', out ++ bs) ∧ d_src d' = Z.of_nat (length s) ∧ d_error d' = false.
Proof.
  induction fuel as [| fuel IH]; intros bs len p c st out Hbs Hpos Hf; [lia |].
  assert (byte 0) as H0 by (unfold byte; lia). pose proof (sep_is_sep len) as Hsp.
  assert (∀ p, at_pos s p [] → ∀ c st out, (0 < fuel)%nat → ∃ d',
    decode_loop fuel s multiple (mkDecoder p c false st 0) out = Ret (d', out) ∧ d_src d' = Z.of_nat (length s) ∧ d_error d' = false) as Hend.
  { intros q Hq c' st' out' Hlt. destruct fuel as [| fuel']; [lia |]. eexists. split; [by apply decode_loop_end |]. by pose proof (at_pos_nil _ _ Hq). }
  destruct bs as [| a [| b [| d bs]]]; cbn [enc] in *; rewrite ?length_app in Hf; cbn [length app] in Hf.
  - eexists. rewrite app_nil_r. split; [by apply decode_loop_end |]. by pose proof (at_pos_nil _ _ Hpos).
  - apply Forall_cons in Hbs as [Ha _].
    destruct (decode_turn fuel s multiple (sep len) a 0 0 2 [] p c st out) as (Hnext & c' & st' & ->); [by rewrite Z.mul_0_l, !Z.add_0_r | done.. | lia | by rewrite Z.mul_0_l, !Z.add_0_r; apply Z.mod_mul |].
    destruct multiple; cbn [negb andb]; [by apply Hend; [| lia] |]. eexists. split; [done |]. by pose proof (at_pos_nil _ _ Hnext).
  - apply Forall_cons in Hbs as [Ha [Hb _]%Forall_cons].
    destruct (decode_turn fuel s multiple (sep len) a b 0 1 [] p c st out) as (Hnext & c' & st' & ->); [by rewrite !Z.add_0_r | done.. | lia | |].
    { change (2 ^ (8 * 1)) with 256. replace (_ + 0) with ((a * 256 + b) * 256) by lia. by apply Z.mod_mul. }
    destruct multiple; cbn [negb andb]; [by apply Hend; [| lia] |]. eexists. split; [done |]. by pose proof (at_pos_nil _ _ Hnext).
  - apply Forall_cons in Hbs as [Ha [Hb [Hd Hbs]%Forall_cons]%Forall_cons].
    destruct (decode_turn fuel s multiple (sep len) a b d 0 (enc bs (next_len len)) p c st out) as (Hnext & c' & st' & ->); [done.. | lia | by rewrite Z.mod_1_r |].
    cbn [negb andb]. rewrite bool_decide_false by tauto. cbn [andb].
    destruct (IH bs _ _ c' st' (out ++ [a; b; d]) Hbs Hnext ltac:(lia)) as (d' & Hd' & Hrest). exists d'. split; [| done].
    rewrite <- app_assoc in Hd'. exact Hd'.
Qed.

Lemma skip_end s d :
  d_src d = Z.of_nat (length s) → d_state d = 0 → my_base64_decoder_skip_spaces s d = Ret (true, d).
Proof.
  destruct d as [p c e st mk]. cbn. intros -> ->. unfold my_base64_decoder_skip_spaces. cbn [d_src d_c d_error d_state d_mark].
  assert (skip_loop (length s) s (Z.of_nat (length s)) = Ret (Z.of_nat (length s))) as ->.
  { destruct (length s) eqn:E; cbn [skip_loop]; by rewrite bool_decide_false by lia. }
  obind. by rewrite bool_decide_false by lia.
Qed.

Lemma decode_exact bs multiple :
  Forall byte bs → my_base64_decode (enc bs 0) multiple = Ret (wrap32 (Z.of_nat (length bs)), bs, Z.of_nat (length (enc bs 0))).
Proof.
  intros Hbs. unfold my_base64_decode.
  destruct (decode_enc (enc bs 0) multiple (S (length (enc bs 0))) bs 0 0 0 0 []) as (d & -> & Hsrc & Herr); [done | split; [lia | done] | lia |].
  obind. rewrite (skip_end _ (mkDecoder _ _ _ _ _)) by done. obind. cbn [d_error d_src]. by rewrite Herr, Hsrc.
Qed.

(** ** Lengths *)

(** The number of groups of [bs]. *)
Definition groups (bs : list Z) : Z := (Z.of_nat (length bs) + 2) / 3.

Lemma groups_cons a b d bs : groups (a :: b :: d :: bs) = 1 + groups bs.
Proof.
  unfold groups. cbn [length]. replace (_ + 2) with (1 * 3 + (Z.of_nat (length bs) + 2)) by lia. by rewrite Z.div_add_l.
Qed.

Lemma groups_nonneg bs : 0 ≤ groups bs.
Proof. apply Z.div_pos; lia. Qed.

(** [j] groups are on the current line: a line has nineteen groups. *)
Lemma enc_length : ∀ n bs j,
  (length bs ≤ n)%nat → bs ≠ [] → 0 ≤ j ≤ 19 → Z.of_nat (length (enc bs (4 * j))) = 4 * groups bs + (j + groups bs - 1) / 19.
Proof.
  induction n as [| n IH]; intros bs j Hn Hne Hj; [by destruct bs; cbn in Hn; [| lia] |].
  assert (Z.of_nat (length (sep (4 * j))) = j / 19) as Hsep.
  { unfold sep. case_bool_decide; cbn; [by replace j with 19 by lia | by rewrite Z.div_small by lia]. }
  assert (∀ bs, groups bs = 1 → length (enc bs (4 * j)) = (length (sep (4 * j)) + 4)%nat →
    Z.of_nat (length (enc bs (4 * j))) = 4 * groups bs + (j + groups bs - 1) / 19) as Hone.
  { intros bs' -> ->. replace (j + 1 - 1) with j by lia. lia. }
  destruct bs as [| a [| b [| d bs]]]; [done | | |].
  1-2: by apply Hone; [| cbn [enc]; rewrite length_app].
  destruct (decide (bs = [])) as [-> | Hbs]; [by apply Hone; [| cbn [enc]; rewrite !length_app] |].
  rewrite groups_cons. cbn [enc]. rewrite !length_app. cbn [length] in *.
  assert (∃ j', next_len (4 * j) = 4 * j' ∧ 0 ≤ j' ≤ 19 ∧ j + 1 = j' + j / 19 * 19) as (j' & -> & Hj' & Heq).
  { unfold next_len. case_bool_decide; [exists 1; replace j with 19 by lia; done | exists (j + 1); rewrite Z.div_small; lia]. }
  rewrite Nat2Z.inj_add, Nat2Z.inj_add, Hsep, IH by (done || lia).
  replace (j + (1 + groups bs) - 1) with (j / 19 * 19 + (j' + groups bs - 1)) by lia. rewrite Z.div_add_l by lia. lia.
Qed.

(** The newlines of the announced length are those of the lines. *)
Lemma newlines n : 1 ≤ n → Z.quot (4 * n - 1) 76 = (n - 1) / 19.
Proof.
  intros Hn. rewrite Z.quot_div_nonneg by lia. pose proof (Z.div_mod (n - 1) 19). pose proof (Z.mod_pos_bound (n - 1) 19).
  symmetry. apply (Z.div_unique _ _ _ (4 * ((n - 1) mod 19) + 3)); lia.
Qed.

Lemma needed_encoded_length_exact bs :
  Z.of_nat (length bs) ≤ my_base64_encode_max_arg_length →
  my_base64_needed_encoded_length (Z.of_nat (length bs)) = Ret (Z.of_nat (length (enc bs 0)) + 1).
Proof.
  unfold my_base64_encode_max_arg_length. intros Hmax. unfold my_base64_needed_encoded_length. set (L := Z.of_nat (length bs)) in *.
  destruct (decide (bs = [])) as [-> | Hne]; [done |]. assert (1 ≤ L) by (destruct bs; cbn in *; [done | lia]).
  pose proof (enc_length _ bs 0 (le_n _) Hne ltac:(lia)) as Hlen. change (4 * 0) with 0 in Hlen. rewrite Hlen. unfold groups. fold L.
  pose proof (Z.div_mod (L + 2) 3). pose proof (Z.mod_pos_bound (L + 2) 3). set (n := (L + 2) / 3) in *.
  pose proof (Z.div_mod (n - 1) 19). pose proof (Z.mod_pos_bound (n - 1) 19). set (m := (n - 1) / 19) in *.
  rewrite (int_op_Ret (L + 2)) by int_range. obind. rewrite Z.quot_div_nonneg by lia. fold n.
  rewrite (int_op_Ret (n * 4)) by int_range. obind. rewrite (Z.mul_comm n), (int_op_Ret (4 * n - 1)) by int_range. obind.
  rewrite newlines by lia. fold m. orun. done.
Qed.

Lemma needed_decoded_length_enough bs :
  let t := Z.of_nat (length (enc bs 0)) in
  t ≤ int_max - 3 → ∃ n, my_base64_needed_decoded_length t = Ret n ∧ 3 * groups bs ≤ n.
Proof.
  intros t Ht. exists ((t + 3) / 4 * 3). unfold my_base64_needed_decoded_length, int_max in *.
  pose proof (Z.div_mod (t + 3) 4). pose proof (Z.mod_pos_bound (t + 3) 4). rewrite wrap32_id by int_range.
  rewrite Z.quot_div_nonneg by lia. rewrite int_op_Ret by int_range. split; [done |].
  destruct (decide (bs = [])) as [-> | Hne]; [done |].
  pose proof (enc_length _ bs 0 (le_n _) Hne ltac:(lia)) as Hlen. change (4 * 0) with 0 in Hlen. fold t in Hlen.
  assert (0 ≤ (0 + groups bs - 1) / 19); [| lia]. apply Z.div_pos; [| lia].
  enough (1 ≤ groups bs) by lia. apply Z.div_le_lower_bound; [lia |]. destruct bs; [done | cbn; lia].
Qed.

(** C27: Base64 encoding and decoding are inverse.  For every sequence of bytes, the encoder
    returns a text that the decoder, whether it accepts several chunks or not, reads back to the
    same bytes, with the end of the text as the end of the reading.  The result of the decoder
    is their number converted to [int], which is the number itself up to 2^31 - 1 bytes; from
    2^31 bytes on, where the text exceeds the documented maximum, it is another one.  Up to the maximum the code documents, the length announced for the text is its
    exact length with the terminating NUL, computed without overflow; and, except for the three
    greatest lengths, the length announced for the decoded data has room for every group. *)
Theorem base64_roundtrip bs multiple :
  Forall byte bs →
  ∃ text, my_base64_encode bs = Ret text ∧
    my_base64_decode text multiple = Ret (wrap32 (Z.of_nat (length bs)), bs, Z.of_nat (length text)) ∧
    (Z.of_nat (length bs) ≤ int_max →
     my_base64_decode text multiple = Ret (Z.of_nat (length bs), bs, Z.of_nat (length text))) ∧
    (Z.of_nat (length bs) ≤ my_base64_encode_max_arg_length →
     my_base64_needed_encoded_length (Z.of_nat (length bs)) = Ret (Z.of_nat (length text) + 1)) ∧
    (Z.of_nat (length text) ≤ int_max - 3 →
     ∃ n, my_base64_needed_decoded_length (Z.of_nat (length text)) = Ret n ∧ 3 * groups bs ≤ n).
Proof.
  intros Hbs. exists (enc bs 0). split_and!; [by apply encode_enc | by apply decode_exact | | |].
  - intros Hn. rewrite decode_exact by done. by rewrite wrap32_id by int_range.
  - apply needed_encoded_length_exact.
  - apply needed_decoded_length_enough.
Qed.

Lemma base64_roundtrip_witness :
  Forall byte (seqZ 0 58) ∧ ∃ text, my_base64_encode (seqZ 0 58) = Ret text ∧ my_base64_decode text false = Ret (58, seqZ 0 58, 81).
Proof.
  assert (Forall byte (seqZ 0 58)) as Hb.
  { apply Forall_forall. intros b Hb. apply elem_of_seqZ in Hb. unfold byte. lia. }
  split; [exact Hb |]. destruct (base64_roundtrip (seqZ 0 58) false Hb) as (text & Henc & Hdec & _). exists text. split; [exact Henc |].
  vm_compute in Henc. injection Henc as <-. exact Hdec.
Defined.

(** The length announced for the decoded data of a text of the greatest length that
    [my_base64_decode_max_arg_length] allows is negative: the sum is converted to [int] before
    it is divided. *)
Lemma needed_decoded_length_negative : my_base64_needed_decoded_length 0x7FFFFFFF = Ret (-1610612733).
Proof. reflexivity. Qed.
