(* ===== verification/Bitmap.v ===== *)
(** * Bitmaps (src/project4/mariadb/server/mysys/my_bitmap.c, include/my_bitmap.h)

    [MY_BITMAP] is an array of 32-bit words that the code also accesses as bytes (in the
    order of a little-endian machine).  Every function of the file is here; the
    thread-safe variants take the mutex around the plain ones, and the assertions are those of
    debug builds only.  The specifications are in BitmapSpec. *)

From S2P Require Import Prelude Bits.

Definition MY_BIT_NONE : Z := 2 ^ 32 - 1.

(** [MY_BITMAP]; [last_word_ptr] as an index of [bitmap]. *)
Record MY_BITMAP := mkMap {
  bitmap : list Z;
  last_word_ptr : Z;
  last_word_mask : Z;
  n_bits : Z
}.

Definition with_bitmap (ws : list Z) (m : MY_BITMAP) : MY_BITMAP := mkMap ws (last_word_ptr m) (last_word_mask m) (n_bits m).

Definition no_bytes_in_map (m : MY_BITMAP) : Z := u32 (n_bits m + 7) / 8.
Definition no_words_in_map (m : MY_BITMAP) : Z := u32 (n_bits m + 31) / 32.

(** ** Words as bytes *)

Definition get_byte (w j : Z) : Z := Z.land (Z.shiftr w (8 * j)) 255.
Definition set_byte (w j b : Z) : Z := Z.lor (Z.ldiff w (Z.shiftl 255 (8 * j))) (Z.shiftl b (8 * j)).

Definition load_byte (ws : list Z) (k : Z) : outcome Z := w ← ws.[k / 4]; Ret (get_byte w (k mod 4)).
Definition store_byte (ws : list Z) (k b : Z) : outcome (list Z) :=
  w ← ws.[k / 4]; ws.[k / 4 := set_byte w (k mod 4) b].

(** [memset] of [n] bytes from the byte [k]. *)
Fixpoint memset (n : nat) (k b : Z) (ws : list Z) : outcome (list Z) :=
  match n with
  | O => Ret ws
  | S n => ws ← store_byte ws k b; memset n (k + 1) b ws
  end.

(** ** Masks *)

Definition last_byte_mask (bits : Z) : Z :=
  let used := Z.land (u32 (bits - 1)) 7 in u32 (Z.shiftl 2 used) - 1.

Definition invers_last_byte_mask (bits : Z) : Z := Z.lxor (last_byte_mask bits) 255.

(** The switch that [create_last_word_mask] and [last_word_mask] share. *)
Definition mask_of (bytes mask : Z) : Z :=
  let r := Z.land bytes 3 in
  if bool_decide (r = 1) then set_byte 0xFFFFFFFF 0 mask
  else if bool_decide (r = 2) then set_byte (set_byte 0xFFFFFFFF 0 0) 1 mask
  else if bool_decide (r = 3) then set_byte (set_byte 0 2 mask) 3 0xFF
  else set_byte 0 3 mask.

Definition create_last_word_mask (m : MY_BITMAP) : MY_BITMAP :=
  let mask := invers_last_byte_mask (n_bits m) in
  mkMap (bitmap m) (no_words_in_map m - 1) (mask_of (no_bytes_in_map m) mask) (n_bits m).

Definition last_word_mask_of (bit : Z) : Z :=
  let n_bits := u32 (bit + 1) in
  mask_of (u32 (n_bits + 7) / 8) (invers_last_byte_mask n_bits).

(** ** Loops *)

(** The first [k] from [i] on with [p k]; the loops that use it have no other exit. *)
Fixpoint search (fuel : nat) (p : Z → bool) (i : Z) : outcome Z :=
  match fuel with
  | O => NoFuel
  | S fuel => if p i then Ret i else search fuel p (i + 1)
  end.

(** [for (; data_ptr < end; data_ptr++, i++) if (test) return/goto]: the index
    of the first word that passes the test, or [end]. *)
Fixpoint scan_words (n : nat) (test : Z → bool) (i : Z) (ws : list Z) : outcome Z :=
  match n with
  | O => Ret i
  | S n => w ← ws.[i]; if test w then Ret i else scan_words n test (i + 1) ws
  end.

Fixpoint scan_pairs (n : nat) (test : Z → Z → bool) (i : Z) (ws1 ws2 : list Z) : outcome Z :=
  match n with
  | O => Ret i
  | S n => w1 ← ws1.[i]; w2 ← ws2.[i]; if test w1 w2 then Ret i else scan_pairs n test (i + 1) ws1 ws2
  end.

Fixpoint scan_bytes (n : nat) (test : Z → bool) (k : Z) (ws : list Z) : outcome Z :=
  match n with
  | O => Ret k
  | S n => b ← load_byte ws k; if test b then Ret k else scan_bytes n test (k + 1) ws
  end.

(** [while (to < end) *to++ op= *from++] *)
Fixpoint combine_words (n : nat) (op : Z → Z → Z) (i : Z) (to from : list Z) : outcome (list Z) :=
  match n with
  | O => Ret to
  | S n =>
      w ← to.[i]; v ← from.[i];
      to ← to.[i := op w v]; combine_words n op (i + 1) to from
  end.

Fixpoint map_words (n : nat) (op : Z → Z) (i : Z) (to : list Z) : outcome (list Z) :=
  match n with
  | O => Ret to
  | S n => w ← to.[i]; to ← to.[i := op w]; map_words n op (i + 1) to
  end.

(** [~] on a word. *)
Definition not32 (w : Z) : Z := u32 (Z.lnot w).

(** ** Single bits *)

Definition bitmap_is_set (m : MY_BITMAP) (bit : Z) : outcome Z :=
  v ← load_byte (bitmap m) (bit / 8); Ret (Z.land v (Z.shiftl 1 (Z.land bit 7))).

Definition update_byte (f : Z → Z → Z) (m : MY_BITMAP) (bit : Z) : outcome (Z * MY_BITMAP) :=
  v ← load_byte (bitmap m) (bit / 8);
  let b := Z.shiftl 1 (Z.land bit 7) in
  ws ← store_byte (bitmap m) (bit / 8) (f v b);
  Ret (Z.land v b, with_bitmap ws m).

Definition set_op (v b : Z) : Z := Z.lor v b.
Definition clear_op (v b : Z) : Z := Z.land v (Z.land (Z.lnot b) 255).
Definition flip_op (v b : Z) : Z := Z.lxor v b.

Definition bitmap_fast_test_and_set (m : MY_BITMAP) (bit : Z) : outcome (Z * MY_BITMAP) := update_byte set_op m bit.
Definition bitmap_fast_test_and_clear (m : MY_BITMAP) (bit : Z) : outcome (Z * MY_BITMAP) := update_byte clear_op m bit.
Definition bitmap_test_and_set (m : MY_BITMAP) (bit : Z) : outcome (Z * MY_BITMAP) := bitmap_fast_test_and_set m bit.
Definition bitmap_test_and_clear (m : MY_BITMAP) (bit : Z) : outcome (Z * MY_BITMAP) := bitmap_fast_test_and_clear m bit.

Definition bitmap_set_bit (m : MY_BITMAP) (bit : Z) : outcome MY_BITMAP := r ← update_byte set_op m bit; Ret (snd r).
Definition bitmap_clear_bit (m : MY_BITMAP) (bit : Z) : outcome MY_BITMAP := r ← update_byte clear_op m bit; Ret (snd r).
Definition bitmap_flip_bit (m : MY_BITMAP) (bit : Z) : outcome MY_BITMAP := r ← update_byte flip_op m bit; Ret (snd r).

(** ** Whole maps *)

Definition bitmap_clear_all (m : MY_BITMAP) : outcome MY_BITMAP :=
  ws ← memset (Z.to_nat (4 * no_words_in_map m)) 0 0 (bitmap m); Ret (with_bitmap ws m).
Definition bitmap_set_all (m : MY_BITMAP) : outcome MY_BITMAP :=
  ws ← memset (Z.to_nat (4 * no_words_in_map m)) 0 0xFF (bitmap m); Ret (with_bitmap ws m).

(** [my_bitmap_init] with the buffer of the caller or of [my_malloc]. *)
Definition my_bitmap_init (buf : list Z) (n_bits : Z) : outcome MY_BITMAP :=
  bitmap_clear_all (create_last_word_mask (mkMap buf 0 0 n_bits)).

Definition bitmap_set_prefix (m : MY_BITMAP) (prefix_size : Z) : outcome MY_BITMAP :=
  let prefix_size := Z.min prefix_size (n_bits m) in
  let prefix_bytes := prefix_size / 8 in
  ws ← memset (Z.to_nat prefix_bytes) 0 0xFF (bitmap m);
  let prefix_bits := Z.land prefix_size 7 in
  '(ws, p) ← (if bool_decide (prefix_bits = 0) then Ret (ws, prefix_bytes)
              else ws ← store_byte ws prefix_bytes (Z.shiftl 1 prefix_bits - 1); Ret (ws, prefix_bytes + 1));
  let d := u32 (no_bytes_in_map m - p) in
  ws ← memset (Z.to_nat d) p 0 ws;
  Ret (with_bitmap ws m).

Definition bitmap_is_prefix (m : MY_BITMAP) (prefix_size : Z) : outcome bool :=
  let prefix_mask := last_byte_mask prefix_size in
  if bool_decide (prefix_size = 0) then Ret true
  else
    let end_prefix := (prefix_size - 1) / 8 in
    k ← scan_bytes (Z.to_nat end_prefix) (λ b, bool_decide (b ≠ 0xFF)) 0 (bitmap m);
    if bool_decide (k < end_prefix) then Ret false
    else
      let end_ := no_bytes_in_map m - 1 in
      b ← load_byte (bitmap m) k;
      if bool_decide (k = end_) then Ret (bool_decide (Z.land b (last_byte_mask (n_bits m)) = prefix_mask))
      else if bool_decide (b ≠ prefix_mask) then Ret false
      else
        k' ← scan_bytes (Z.to_nat (end_ - (k + 1))) (λ b, bool_decide (b ≠ 0)) (k + 1) (bitmap m);
        if bool_decide (k' < end_) then Ret false
        else b ← load_byte (bitmap m) end_; Ret (bool_decide (Z.land b (last_byte_mask (n_bits m)) = 0)).

Definition bitmap_set_above (m : MY_BITMAP) (from_byte use_bit : Z) : outcome MY_BITMAP :=
  let use_byte := if bool_decide (use_bit = 0) then 0 else 0xFF in
  ws ← memset (Z.to_nat (u32 (n_bits m + 7) / 8 - from_byte)) from_byte use_byte (bitmap m);
  Ret (with_bitmap ws m).

(** The number of words before the last. *)
Definition last_index (m : MY_BITMAP) : nat := Z.to_nat (last_word_ptr m).

Definition bitmap_is_set_all (m : MY_BITMAP) : outcome bool :=
  i ← scan_words (last_index m) (λ w, bool_decide (w ≠ 0xFFFFFFFF)) 0 (bitmap m);
  if bool_decide (i < last_word_ptr m) then Ret false
  else w ← (bitmap m).[i]; Ret (bool_decide (Z.lor w (last_word_mask m) = 0xFFFFFFFF)).

Definition bitmap_is_clear_all (m : MY_BITMAP) : outcome bool :=
  i ← scan_words (last_index m) (λ w, bool_decide (w ≠ 0)) 0 (bitmap m);
  if bool_decide (i < last_word_ptr m) then Ret false
  else w ← (bitmap m).[i]; Ret (bool_decide (Z.land w (not32 (last_word_mask m)) = 0)).

Definition bitmap_is_subset (m1 m2 : MY_BITMAP) : outcome bool :=
  i ← scan_pairs (last_index m1) (λ w1 w2, bool_decide (Z.land w1 (not32 w2) ≠ 0)) 0 (bitmap m1) (bitmap m2);
  if bool_decide (i < last_word_ptr m1) then Ret false
  else
    w1 ← (bitmap m1).[i]; w2 ← (bitmap m2).[i];
    Ret (bool_decide (Z.land (Z.land w1 (not32 w2)) (not32 (last_word_mask m1)) = 0)).

Definition bitmap_is_overlapping (m1 m2 : MY_BITMAP) : outcome bool :=
  i ← scan_pairs (last_index m1) (λ w1 w2, bool_decide (Z.land w1 w2 ≠ 0)) 0 (bitmap m1) (bitmap m2);
  if bool_decide (i < last_word_ptr m1) then Ret true
  else
    w1 ← (bitmap m1).[i]; w2 ← (bitmap m2).[i];
    Ret (bool_decide (Z.land (Z.land w1 w2) (not32 (last_word_mask m1)) ≠ 0)).

Definition bitmap_union_is_set_all (m1 m2 : MY_BITMAP) : outcome bool :=
  i ← scan_pairs (last_index m1) (λ w1 w2, bool_decide (Z.lor w1 w2 ≠ 0xFFFFFFFF)) 0 (bitmap m1) (bitmap m2);
  if bool_decide (i < last_word_ptr m1) then Ret false
  else
    w1 ← (bitmap m1).[i]; w2 ← (bitmap m2).[i];
    Ret (bool_decide (Z.lor (Z.lor w1 w2) (last_word_mask m1) ≠ 0xFFFFFFFF)).

Definition bitmap_cmp (m1 m2 : MY_BITMAP) : outcome bool :=
  i ← scan_pairs (Z.to_nat (no_words_in_map m1 - 1)) (λ w1 w2, bool_decide (w1 ≠ w2)) 0 (bitmap m1) (bitmap m2);
  if bool_decide (i < no_words_in_map m1 - 1) then Ret false
  else
    w1 ← (bitmap m1).[last_word_ptr m1]; w2 ← (bitmap m2).[last_word_ptr m2];
    Ret (bool_decide (Z.lor w1 (last_word_mask m1) = Z.lor w2 (last_word_mask m2))).

(** ** Set operations *)

Definition bitmap_intersect (m m2 : MY_BITMAP) : outcome MY_BITMAP :=
  let len := no_words_in_map m in
  let len2 := no_words_in_map m2 in
  to ← combine_words (Z.to_nat (Z.min len len2)) Z.land 0 (bitmap m) (bitmap m2);
  to ← (if bool_decide (len2 <= len) then
          w ← to.[len2 - 1];
          to ← to.[len2 - 1 := Z.land w (not32 (last_word_mask m2))];
          map_words (Z.to_nat (len - len2)) (λ _, 0) len2 to
        else Ret to);
  Ret (with_bitmap to m).

Definition pointwise (op : Z → Z → Z) (m m2 : MY_BITMAP) : outcome MY_BITMAP :=
  to ← combine_words (S (last_index m)) op 0 (bitmap m) (bitmap m2); Ret (with_bitmap to m).

Definition bitmap_subtract (m m2 : MY_BITMAP) : outcome MY_BITMAP := pointwise (λ w v, Z.land w (not32 v)) m m2.
Definition bitmap_union (m m2 : MY_BITMAP) : outcome MY_BITMAP := pointwise Z.lor m m2.
Definition bitmap_xor (m m2 : MY_BITMAP) : outcome MY_BITMAP := pointwise Z.lxor m m2.
Definition bitmap_copy (m m2 : MY_BITMAP) : outcome MY_BITMAP := pointwise (λ _ v, v) m m2.

Definition bitmap_invert (m : MY_BITMAP) : outcome MY_BITMAP :=
  to ← map_words (S (last_index m)) (λ w, Z.lxor w 0xFFFFFFFF) 0 (bitmap m); Ret (with_bitmap to m).

(** ** Counting and searching *)

Fixpoint count_words (n : nat) (i res : Z) (ws : list Z) : outcome Z :=
  match n with
  | O => Ret res
  | S n => w ← ws.[i]; count_words n (i + 1) (u32 (res + my_count_bits_uint32 w)) ws
  end.

Definition bitmap_bits_set (m : MY_BITMAP) : outcome Z :=
  res ← count_words (last_index m) 0 0 (bitmap m);
  w ← (bitmap m).[last_word_ptr m];
  Ret (u32 (res + my_count_bits_uint32 (Z.land w (not32 (last_word_mask m))))).

(** The lowest set bit of a word that is not zero. *)
Definition get_first_set (value word_pos : Z) : outcome Z :=
  byte_pos ← search 4 (λ j, bool_decide (get_byte value j ≠ 0)) 0;
  bit_pos ← search 8 (λ k, bool_decide (Z.land (get_byte value byte_pos) (Z.shiftl 1 k) ≠ 0)) 0;
  Ret (word_pos * 32 + byte_pos * 8 + bit_pos).

Definition bitmap_get_first_set (m : MY_BITMAP) : outcome Z :=
  i ← scan_words (last_index m) (λ w, bool_decide (w ≠ 0)) 0 (bitmap m);
  w ← (bitmap m).[i];
  if bool_decide (i < last_word_ptr m) then get_first_set w i
  else if bool_decide (Z.land w (not32 (last_word_mask m)) = 0) then Ret MY_BIT_NONE
  else get_first_set w i.

(** The bits of a word from the position [k] on. *)
Fixpoint clear_bytes (n : nat) (i w : Z) : Z :=
  match n with
  | O => w
  | S n => clear_bytes n (i + 1) (set_byte w i 0)
  end.

Definition mask_previous (w bit : Z) : Z :=
  let byte_to_mask := bit mod 32 / 8 in
  let w := clear_bytes (Z.to_nat byte_to_mask) 0 w in
  set_byte w byte_to_mask (Z.land (get_byte w byte_to_mask) (Z.land (Z.shiftl 0xFF (Z.land bit 7)) 0xFF)).

Definition bitmap_get_next_set (m : MY_BITMAP) (bitmap_bit : Z) : outcome Z :=
  let bitmap_bit := u32 (bitmap_bit + 1) in
  if bool_decide (n_bits m <= bitmap_bit) then Ret MY_BIT_NONE
  else
    let word_pos := bitmap_bit / 32 in
    w ← (bitmap m).[word_pos];
    let first_word := mask_previous w bitmap_bit in
    if bool_decide (word_pos = last_word_ptr m) then
      if bool_decide (Z.land first_word (not32 (last_word_mask m)) ≠ 0) then get_first_set first_word word_pos
      else Ret MY_BIT_NONE
    else if bool_decide (first_word ≠ 0) then get_first_set first_word word_pos
    else
      i ← scan_words (Z.to_nat (last_word_ptr m - (word_pos + 1))) (λ w, bool_decide (w ≠ 0)) (word_pos + 1) (bitmap m);
      w ← (bitmap m).[i];
      if bool_decide (i < last_word_ptr m) then get_first_set w i
      else if bool_decide (Z.land w (not32 (last_word_mask m)) = 0) then Ret MY_BIT_NONE
      else get_first_set w i.

(** The lowest clear bit of a word that is not full. *)
Definition get_first_clear (value word_pos : Z) : outcome Z :=
  j ← search 4 (λ j, bool_decide (get_byte value j ≠ 0xFF)) 0;
  k ← search 8 (λ k, bool_decide (Z.land (get_byte value j) (Z.shiftl 1 k) = 0)) 0;
  Ret (word_pos * 32 + j * 8 + k).

(** [bitmap_get_first] also sets the unused bits of the last word. *)
Definition bitmap_get_first (m : MY_BITMAP) : outcome (Z * MY_BITMAP) :=
  w ← (bitmap m).[last_word_ptr m];
  ws ← (bitmap m).[last_word_ptr m := Z.lor w (last_word_mask m)];
  let m := with_bitmap ws m in
  i ← scan_words (last_index m) (λ w, bool_decide (w ≠ 0xFFFFFFFF)) 0 ws;
  w ← ws.[i];
  if bool_decide (i < last_word_ptr m) then r ← get_first_clear w i; Ret (r, m)
  else if bool_decide (Z.lor w (last_word_mask m) = 0xFFFFFFFF) then Ret (MY_BIT_NONE, m)
  else r ← get_first_clear w i; Ret (r, m).

Definition bitmap_set_next (m : MY_BITMAP) : outcome (Z * MY_BITMAP) :=
  '(bit_found, m) ← bitmap_get_first m;
  if bool_decide (bit_found ≠ MY_BIT_NONE) then m ← bitmap_set_bit m bit_found; Ret (bit_found, m)
  else Ret (bit_found, m).

Definition bitmap_lock_set_next (m : MY_BITMAP) : outcome (Z * MY_BITMAP) := bitmap_set_next m.
Definition bitmap_lock_clear_bit (m : MY_BITMAP) (bit : Z) : outcome MY_BITMAP := bitmap_clear_bit m bit.

(** [bitmap_exists_intersection]: the [j] loop stops when [cur_res] is 0. *)
Fixpoint intersect_word (maps : list MY_BITMAP) (i cur_res : Z) : outcome Z :=
  match maps with
  | [] => Ret cur_res
  | m :: maps =>
      if bool_decide (cur_res = 0) then Ret cur_res
      else w ← (bitmap m).[i]; intersect_word maps i (Z.land cur_res w)
  end.

Fixpoint intersect_loop (n : nat) (maps : list MY_BITMAP) (i : Z) : outcome bool :=
  match n with
  | O => Ret false
  | S n =>
      cur_res ← intersect_word maps i 0xFFFFFFFF;
      if bool_decide (cur_res ≠ 0) then Ret true else intersect_loop n maps (i + 1)
  end.

Definition bitmap_exists_intersection (maps : list MY_BITMAP) (start_bit end_bit : Z) : outcome bool :=
  let start_idx := start_bit / 8 / 4 in
  let end_idx := end_bit / 8 / 4 in
  b ← intersect_loop (Z.to_nat (end_idx - start_idx)) maps start_idx;
  if (b : bool) then Ret true
  else
    cur_res ← intersect_word maps end_idx (not32 (last_word_mask_of end_bit));
    Ret (bool_decide (cur_res ≠ 0)).
