(* ===== verification/BitmapSpec.v ===== *)
(** * Bitmaps as sets of integers

    A bitmap of [n] bits stands for a set of numbers below [n] ([map_set]); the bits of
    the last word beyond [n] are arbitrary.  Each function of Bitmap computes the operation
    on sets its name says, with one exception, [bitmap_union_is_set_all]. *)

From S2P Require Import Prelude Bits Bitmap.

(** ** Bits of words *)

Lemma in_u32_ext a b : in_u32 a → in_u32 b → (∀ i, 0 ≤ i < 32 → Z.testbit a i = Z.testbit b i) → a = b.
Proof.
  intros Ha Hb Hab. apply Z.bits_inj'. intros i Hi. destruct (decide (i < 32)); [apply Hab; lia |].
  unfold in_u32 in *. by rewrite !(testbit_above _ 32) by lia.
Qed.

(** Numbers whose bits from 32 on are clear. *)
Lemma in_u32_bits a : 0 ≤ a → (∀ i, 32 ≤ i → Z.testbit a i = false) → in_u32 a.
Proof.
  intros Ha Hb. split; [done |]. assert (a = a mod 2 ^ 32) as ->; [| apply Z.mod_pos_bound; lia].
  apply Z.bits_inj'. intros i Hi. destruct (decide (i < 32)); [by rewrite Z.mod_pow2_bits_low by lia |].
  rewrite Z.mod_pow2_bits_high by lia. apply Hb. lia.
Qed.

Lemma in_u32_testbit a i : in_u32 a → 32 ≤ i → Z.testbit a i = false.
Proof. intros Ha Hi. by apply (testbit_above a 32). Qed.

Lemma in_u32_land a b : in_u32 a → in_u32 b → in_u32 (Z.land a b).
Proof. intros Ha Hb. apply (land_bound a b 32 Hb). Qed.

Lemma in_u32_lor a b : in_u32 a → in_u32 b → in_u32 (Z.lor a b).
Proof.
  intros Ha Hb. apply in_u32_bits; [apply Z.lor_nonneg; unfold in_u32 in *; lia |].
  intros i Hi. by rewrite Z.lor_spec, !in_u32_testbit.
Qed.

Lemma in_u32_lxor a b : in_u32 a → in_u32 b → in_u32 (Z.lxor a b).
Proof.
  intros Ha Hb. apply in_u32_bits; [apply Z.lxor_nonneg; unfold in_u32 in *; lia |].
  intros i Hi. by rewrite Z.lxor_spec, !in_u32_testbit.
Qed.

Lemma in_u32_not32 a : in_u32 (not32 a).
Proof. apply Z.mod_pos_bound. lia. Qed.

Lemma testbit_not32 a i : 0 ≤ i < 32 → Z.testbit (not32 a) i = negb (Z.testbit a i).
Proof. intros Hi. unfold not32, u32. rewrite Z.mod_pow2_bits_low, Z.lnot_spec by lia. done. Qed.

Lemma full_bits i : 0 ≤ i < 32 → Z.testbit 0xFFFFFFFF i = true.
Proof. intros Hi. change 0xFFFFFFFF with (Z.ones 32). apply Z.ones_spec_low. lia. Qed.

Create HintDb bits.
#[export] Hint Resolve in_u32_land in_u32_lor in_u32_lxor in_u32_not32 : bits.
#[export] Hint Extern 5 (in_u32 ?c) => (unfold in_u32; lia) : bits.

(** A word is zero, or full, when its bits are. *)
Lemma word_zero a : in_u32 a → a = 0 ↔ ∀ i, 0 ≤ i < 32 → Z.testbit a i = false.
Proof.
  intros Ha. split; [intros -> i _; apply Z.bits_0 |]. intros Hb. apply in_u32_ext; [done | unfold in_u32; lia |].
  intros i Hi. rewrite Hb by done. by rewrite Z.bits_0.
Qed.

Lemma word_full a : in_u32 a → a = 0xFFFFFFFF ↔ ∀ i, 0 ≤ i < 32 → Z.testbit a i = true.
Proof.
  intros Ha. split; [intros -> i Hi; by apply full_bits |]. intros Hb. apply in_u32_ext; [done | unfold in_u32; lia |].
  intros i Hi. rewrite Hb, full_bits by done. done.
Qed.

(** ** Bytes of words *)

Lemma get_byte_bits w j k : 0 ≤ j → 0 ≤ k → Z.testbit (get_byte w j) k = bool_decide (k < 8) && Z.testbit w (8 * j + k).
Proof.
  intros Hj Hk. unfold get_byte. rewrite Z.land_spec, Z.shiftr_spec by lia. change 255 with (Z.ones 8).
  case_bool_decide; [rewrite Z.ones_spec_low by lia | rewrite Z.ones_spec_high by lia].
  - rewrite andb_true_r. cbn [andb]. f_equal. lia.
  - by rewrite andb_false_r.
Qed.

Lemma get_byte_range w j : 0 ≤ get_byte w j < 256.
Proof. apply (land_bound _ 255 8). lia. Qed.

Lemma set_byte_bits w j b i :
  0 ≤ j → 0 ≤ b < 256 → 0 ≤ i →
  Z.testbit (set_byte w j b) i = if bool_decide (8 * j ≤ i < 8 * j + 8) then Z.testbit b (i - 8 * j) else Z.testbit w i.
Proof.
  intros Hj Hb Hi. unfold set_byte. rewrite Z.lor_spec, Z.ldiff_spec, !Z.shiftl_spec by lia. change 255 with (Z.ones 8).
  case_bool_decide.
  - rewrite Z.ones_spec_low by lia. by rewrite andb_false_r.
  - destruct (decide (i < 8 * j)).
    + rewrite !(Z.testbit_neg_r _ (i - 8 * j)) by lia. by rewrite andb_true_r, orb_false_r.
    + rewrite Z.ones_spec_high, (testbit_above b 8) by lia. by rewrite andb_true_r, orb_false_r.
Qed.

Lemma in_u32_set_byte w j b : in_u32 w → 0 ≤ j < 4 → 0 ≤ b < 256 → in_u32 (set_byte w j b).
Proof.
  intros Hw Hj Hb. apply in_u32_bits.
  - unfold set_byte. apply Z.lor_nonneg. split; [apply Z.ldiff_nonneg; unfold in_u32 in *; lia | rewrite Z.shiftl_nonneg; lia].
  - intros i Hi. rewrite set_byte_bits by lia. rewrite bool_decide_false by lia. by apply in_u32_testbit.
Qed.

(** ** Buffers *)

Definition word (ws : list Z) (q : Z) : Z := default 0 (ws !! Z.to_nat q).

Definition bit_of (ws : list Z) (i : Z) : bool := Z.testbit (word ws (i / 32)) (i mod 32).

Record buffer (n : Z) (ws : list Z) : Prop := {
  bu_len : Z.of_nat (length ws) = n;
  bu_words : Forall in_u32 ws
}.

Lemma in_u32_word n ws q : buffer n ws → in_u32 (word ws q).
Proof.
  intros [_ Hws]. unfold word. destruct (ws !! Z.to_nat q) as [w |] eqn:Hw; [| cbn; unfold in_u32; lia].
  by eapply Forall_lookup_1.
Qed.
#[export] Hint Resolve in_u32_word : bits.

Lemma word_bits ws q j : 0 ≤ j < 32 → Z.testbit (word ws q) j = bit_of ws (32 * q + j).
Proof.
  intros Hj. unfold bit_of. rewrite Z.mul_comm, Z.add_comm, Z.div_add, Z_mod_plus_full by lia.
  by rewrite Z.div_small, Z.mod_small by lia.
Qed.

Lemma vget_word n ws q : buffer n ws → 0 ≤ q < n → vget ws q = Ret (word ws q).
Proof.
  intros [Hl _] Hq. unfold vget, word. rewrite bool_decide_true by lia.
  destruct (lookup_lt_is_Some_2 ws (Z.to_nat q) ltac:(lia)) as [w ->]. done.
Qed.

Lemma div_mod_eq i q : 32 * q ≤ i < 32 * q + 32 → i / 32 = q ∧ i mod 32 = i - 32 * q.
Proof. intros Hi. split; symmetry; [apply (Z.div_unique _ _ _ (i - 32 * q)) | apply (Z.mod_unique _ _ q)]; lia. Qed.

(** A store of a word. *)
Lemma vset_word n ws q w :
  buffer n ws → 0 ≤ q < n → in_u32 w →
  ∃ ws', vset ws q w = Ret ws' ∧ buffer n ws' ∧
    (∀ p, 0 ≤ p → word ws' p = if bool_decide (p = q) then w else word ws p) ∧
    (∀ i, 0 ≤ i → bit_of ws' i = if bool_decide (32 * q ≤ i < 32 * q + 32) then Z.testbit w (i - 32 * q) else bit_of ws i).
Proof.
  intros [Hl Hws] Hq Hw. exists (<[Z.to_nat q := w]> ws). unfold vset. rewrite bool_decide_true by lia.
  assert (∀ p, 0 ≤ p → word (<[Z.to_nat q := w]> ws) p = if bool_decide (p = q) then w else word ws p) as Hword.
  { intros p Hp. unfold word. case_bool_decide as Hpq; [subst; by rewrite list_lookup_insert_eq by lia |].
    rewrite list_lookup_insert_ne; [done |]. lia. }
  split_and!; [done | | done |].
  - split; [by rewrite length_insert |]. by apply Forall_insert.
  - intros i Hi. unfold bit_of. rewrite Hword by (apply Z.div_pos; lia). case_bool_decide as Hb; case_bool_decide as Hb'; [| | | done].
    + f_equal. by apply div_mod_eq.
    + exfalso. apply Hb'. pose proof (Z.div_mod i 32). pose proof (Z.mod_pos_bound i 32). lia.
    + exfalso. by apply Hb, div_mod_eq.
Qed.

Lemma byte_index k : k = 4 * (k / 4) + k mod 4 ∧ 0 ≤ k mod 4 < 4.
Proof. pose proof (Z.div_mod k 4). pose proof (Z.mod_pos_bound k 4). lia. Qed.

Lemma load_byte_bits n ws k :
  buffer n ws → 0 ≤ k < 4 * n →
  ∃ b, load_byte ws k = Ret b ∧ 0 ≤ b < 256 ∧ ∀ j, 0 ≤ j < 8 → Z.testbit b j = bit_of ws (8 * k + j).
Proof.
  intros Hb Hk. destruct (byte_index k) as [Hk4 Hr]. unfold load_byte. rewrite (vget_word n) by (done || lia). obind.
  eexists. split_and!; [done | apply get_byte_range | apply get_byte_range |]. intros j Hj.
  rewrite get_byte_bits, word_bits by lia. rewrite bool_decide_true by lia. cbn [andb]. f_equal. lia.
Qed.

Lemma store_byte_bits n ws k b :
  buffer n ws → 0 ≤ k < 4 * n → 0 ≤ b < 256 →
  ∃ ws', store_byte ws k b = Ret ws' ∧ buffer n ws' ∧
    ∀ i, 0 ≤ i → bit_of ws' i = if bool_decide (8 * k ≤ i < 8 * k + 8) then Z.testbit b (i - 8 * k) else bit_of ws i.
Proof.
  intros Hws Hk Hb. destruct (byte_index k) as [Hk4 Hr]. unfold store_byte. rewrite (vget_word n) by (done || lia). obind.
  destruct (vset_word n ws (k / 4) (set_byte (word ws (k / 4)) (k mod 4) b)) as (ws' & -> & Hws' & _ & Hbits);
    [done | lia | apply in_u32_set_byte; eauto with bits |].
  exists ws'. split_and!; [done | done |]. intros i Hi. rewrite Hbits by done.
  destruct (decide (32 * (k / 4) ≤ i < 32 * (k / 4) + 32)) as [Hin | Hin].
  - rewrite (bool_decide_true (32 * (k / 4) ≤ i < 32 * (k / 4) + 32)) by done. rewrite set_byte_bits by lia.
    destruct (decide (8 * k ≤ i < 8 * k + 8)).
    + rewrite !bool_decide_true by lia. f_equal. lia.
    + rewrite !bool_decide_false by lia. rewrite word_bits by lia. f_equal. lia.
  - rewrite !bool_decide_false by lia. done.
Qed.

Lemma memset_bits n b : 0 ≤ b < 256 → ∀ (c : nat) k ws,
  buffer n ws → 0 ≤ k → k + Z.of_nat c ≤ 4 * n →
  ∃ ws', memset c k b ws = Ret ws' ∧ buffer n ws' ∧
    ∀ i, 0 ≤ i → bit_of ws' i = if bool_decide (8 * k ≤ i < 8 * (k + Z.of_nat c)) then Z.testbit b (i mod 8) else bit_of ws i.
Proof.
  intros Hb. induction c as [| c IH]; intros k ws Hws Hk Hc; cbn [memset].
  { exists ws. split_and!; [done | done |]. intros i Hi. by rewrite bool_decide_false by lia. }
  destruct (store_byte_bits n ws k b) as (ws1 & -> & Hws1 & Hb1); [done | lia | done |]. obind.
  destruct (IH (k + 1) ws1) as (ws2 & -> & Hws2 & Hb2); [done | lia | lia |].
  exists ws2. split_and!; [done | done |]. intros i Hi. rewrite Hb2, Hb1 by done.
  destruct (decide (8 * (k + 1) ≤ i < 8 * (k + 1 + Z.of_nat c))).
  - by rewrite !bool_decide_true by lia.
  - rewrite (bool_decide_false (8 * (k + 1) ≤ i < _)) by lia. destruct (decide (8 * k ≤ i < 8 * k + 8)).
    + rewrite !bool_decide_true by lia. f_equal. apply (Z.mod_unique _ _ k); lia.
    + by rewrite !bool_decide_false by lia.
Qed.

(** ** Loops over words *)

(** [op] works bit by bit as [f]. *)
Definition bitwise (op : Z → Z → Z) (f : bool → bool → bool) : Prop :=
  ∀ w v, in_u32 w → in_u32 v → in_u32 (op w v) ∧ ∀ j, 0 ≤ j < 32 → Z.testbit (op w v) j = f (Z.testbit w j) (Z.testbit v j).

Lemma combine_words_bits op f n n2 from : bitwise op f → buffer n2 from → ∀ (c : nat) q to,
  buffer n to → 0 ≤ q → q + Z.of_nat c ≤ n → q + Z.of_nat c ≤ n2 →
  ∃ to', combine_words c op q to from = Ret to' ∧ buffer n to' ∧
    ∀ i, 0 ≤ i → bit_of to' i =
      if bool_decide (32 * q ≤ i < 32 * (q + Z.of_nat c)) then f (bit_of to i) (bit_of from i) else bit_of to i.
Proof.
  intros Hop Hfrom. induction c as [| c IH]; intros q to Hto Hq Hn Hn2; cbn [combine_words].
  { exists to. split_and!; [done | done |]. intros i Hi. by rewrite bool_decide_false by lia. }
  rewrite (vget_word n to), (vget_word n2 from) by (done || lia). obind.
  destruct (Hop (word to q) (word from q)) as [Hu Hbits]; [eauto with bits | eauto with bits |].
  destruct (vset_word n to q (op (word to q) (word from q))) as (to1 & -> & Hto1 & _ & Hb1); [done | lia | done |]. obind.
  destruct (IH (q + 1) to1) as (to2 & -> & Hto2 & Hb2); [done | lia | lia | lia |].
  exists to2. split_and!; [done | done |]. intros i Hi. rewrite Hb2, Hb1 by done.
  destruct (decide (32 * q ≤ i < 32 * q + 32)).
  - rewrite (bool_decide_false (32 * (q + 1) ≤ i < _)), !bool_decide_true by lia.
    rewrite Hbits, !word_bits by lia. by replace (32 * q + (i - 32 * q)) with i by lia.
  - rewrite (bool_decide_false (32 * q ≤ i < 32 * q + 32)) by lia.
    destruct (decide (32 * (q + 1) ≤ i < 32 * (q + 1 + Z.of_nat c))).
    + by rewrite !bool_decide_true by lia.
    + by rewrite !bool_decide_false by lia.
Qed.

(** A loop over one array is the loop over two in which the second is not used. *)
Lemma map_words_combine n op : ∀ (c : nat) q to from,
  buffer n to → buffer n from → 0 ≤ q → q + Z.of_nat c ≤ n → (∀ w, in_u32 w → in_u32 (op w)) →
  map_words c op q to = combine_words c (λ w _, op w) q to from.
Proof.
  induction c as [| c IH]; intros q to from Hto Hfrom Hq Hn Hop; [done |]. cbn [map_words combine_words].
  rewrite !(vget_word n) by (done || lia). obind.
  destruct (vset_word n to q (op (word to q))) as (to1 & -> & Hto1 & _); [done | lia | apply Hop; eauto with bits |]. obind.
  by apply IH; [| | lia | lia |].
Qed.

Lemma scan_words_spec n ws test : buffer n ws → ∀ (c : nat) q,
  0 ≤ q → q + Z.of_nat c ≤ n →
  ∃ r, scan_words c test q ws = Ret r ∧ q ≤ r ≤ q + Z.of_nat c ∧
    (∀ p, q ≤ p < r → test (word ws p) = false) ∧ (r < q + Z.of_nat c → test (word ws r) = true).
Proof.
  intros Hws. induction c as [| c IH]; intros q Hq Hn; cbn [scan_words].
  { exists q. split_and!; [done | lia | lia | lia | lia]. }
  rewrite (vget_word n) by (done || lia). obind. destruct (test (word ws q)) eqn:Ht.
  { exists q. split_and!; [done | lia | lia | lia | done]. }
  destruct (IH (q + 1)) as (r & -> & Hr & Hbefore & Hat); [lia | lia |].
  exists r. split_and!; [done | lia | lia | | intros; apply Hat; lia].
  intros p Hp. destruct (decide (p = q)) as [-> |]; [done | apply Hbefore; lia].
Qed.

Lemma scan_pairs_spec n n2 ws ws2 test : buffer n ws → buffer n2 ws2 → ∀ (c : nat) q,
  0 ≤ q → q + Z.of_nat c ≤ n → q + Z.of_nat c ≤ n2 →
  ∃ r, scan_pairs c test q ws ws2 = Ret r ∧ q ≤ r ≤ q + Z.of_nat c ∧
    (∀ p, q ≤ p < r → test (word ws p) (word ws2 p) = false) ∧
    (r < q + Z.of_nat c → test (word ws r) (word ws2 r) = true).
Proof.
  intros Hws Hws2. induction c as [| c IH]; intros q Hq Hn Hn2; cbn [scan_pairs].
  { exists q. split_and!; [done | lia | lia | lia | lia]. }
  rewrite (vget_word n ws), (vget_word n2 ws2) by (done || lia). obind. destruct (test (word ws q) (word ws2 q)) eqn:Ht.
  { exists q. split_and!; [done | lia | lia | lia | done]. }
  destruct (IH (q + 1)) as (r & -> & Hr & Hbefore & Hat); [lia | lia | lia |].
  exists r. split_and!; [done | lia | lia | | intros; apply Hat; lia].
  intros p Hp. destruct (decide (p = q)) as [-> |]; [done | apply Hbefore; lia].
Qed.

Lemma find_spec (p : Z → bool) : ∀ (c : nat) i x,
  i ≤ x < i + Z.of_nat c → p x = true → ∃ r, search c p i = Ret r ∧ i ≤ r ≤ x ∧ p r = true ∧ ∀ j, i ≤ j < r → p j = false.
Proof.
  induction c as [| c IH]; intros i x Hx Hp; [lia |]. cbn [search]. destruct (p i) eqn:Hi.
  { exists i. split_and!; [done | lia | lia | done | lia]. }
  destruct (IH (i + 1) x) as (r & -> & Hr & Hpr & Hj); [| done |].
  { assert (i ≠ x) by congruence. lia. }
  exists r. split_and!; [done | lia | lia | done |]. intros j Hji. destruct (decide (j = i)) as [-> |]; [done | apply Hj; lia].
Qed.

(** ** Well-formed maps *)

Record map_ok (m : MY_BITMAP) : Prop := {
  mo_bits : 0 < n_bits m ≤ 2 ^ 32 - 32;
  mo_buf : buffer (last_word_ptr m + 1) (bitmap m);
  mo_last : 32 * last_word_ptr m < n_bits m ≤ 32 * last_word_ptr m + 32;
  mo_mask : in_u32 (last_word_mask m);
  mo_mask_bits j : 0 ≤ j < 32 → Z.testbit (last_word_mask m) j = bool_decide (n_bits m ≤ 32 * last_word_ptr m + j)
}.

(** The set a map stands for. *)
Definition map_set (m : MY_BITMAP) : gset Z :=
  list_to_set (filter (λ i, bit_of (bitmap m) i = true) (seqZ 0 (n_bits m))).

Lemma elem_of_map_set m i : i ∈ map_set m ↔ 0 ≤ i < n_bits m ∧ bit_of (bitmap m) i = true.
Proof. unfold map_set. rewrite elem_of_list_to_set, list_elem_of_filter, elem_of_seqZ. naive_solver lia. Qed.

Lemma words_eq n : 0 < n ≤ 2 ^ 32 - 32 → u32 (n + 31) / 32 = (n - 1) / 32 + 1 ∧ u32 (n + 7) / 8 = (n - 1) / 8 + 1.
Proof.
  intros Hn. unfold u32. rewrite !Z.mod_small by lia. split.
  - replace (n + 31) with (n - 1 + 1 * 32) by lia. by rewrite Z.div_add by lia.
  - replace (n + 7) with (n - 1 + 1 * 8) by lia. by rewrite Z.div_add by lia.
Qed.

(** The bits of the mask beyond the [r] used bits of the last word. *)
Lemma mask_small r : 1 ≤ r ≤ 32 →
  in_u32 (mask_of ((r - 1) / 8 + 1) (invers_last_byte_mask r)) ∧
  ∀ j, 0 ≤ j < 32 → Z.testbit (mask_of ((r - 1) / 8 + 1) (invers_last_byte_mask r)) j = bool_decide (r ≤ j).
Proof.
  intros Hr. assert (forallb (λ r, let m := mask_of ((r - 1) / 8 + 1) (invers_last_byte_mask r) in
      (0 <=? m) && (m <? 2 ^ 32) && forallb (λ j, eqb (Z.testbit m j) (r <=? j)) (seqZ 0 32)) (seqZ 1 32) = true) as Hall
    by (vm_compute; reflexivity).
  rewrite forallb_forall in Hall. specialize (Hall r). rewrite <- list_elem_of_In, elem_of_seqZ in Hall. specialize (Hall ltac:(lia)).
  cbn zeta in Hall. rewrite !andb_true_iff, Z.leb_le, Z.ltb_lt, forallb_forall in Hall. destruct Hall as [Hm Hbits].
  split; [done |]. intros j Hj. specialize (Hbits j). rewrite <- list_elem_of_In, elem_of_seqZ in Hbits.
  rewrite (eqb_prop _ _ (Hbits ltac:(lia))). apply eq_true_iff_eq. by rewrite bool_decide_eq_true, Z.leb_le.
Qed.

Lemma mask_of_bits n q : 0 < n ≤ 2 ^ 32 - 32 → 32 * q < n ≤ 32 * q + 32 →
  in_u32 (mask_of (u32 (n + 7) / 8) (invers_last_byte_mask n)) ∧
  ∀ j, 0 ≤ j < 32 → Z.testbit (mask_of (u32 (n + 7) / 8) (invers_last_byte_mask n)) j = bool_decide (n ≤ 32 * q + j).
Proof.
  intros Hn Hq. set (r := n - 32 * q). destruct (words_eq n Hn) as [_ ->].
  assert ((n - 1) / 8 = (r - 1) / 8 + q * 4) as Hdiv.
  { unfold r. rewrite <- Z.div_add by lia. rewrite (Z.mul_comm q 4). rewrite <- (Z.div_mul_cancel_r (n - 32 * q - 1 + 4 * q * 8) 8 1) by lia.
    rewrite !Z.mul_1_r. f_equal. lia. }
  assert (mask_of ((n - 1) / 8 + 1) (invers_last_byte_mask n) = mask_of ((r - 1) / 8 + 1) (invers_last_byte_mask r)) as ->.
  { assert (Z.land ((n - 1) / 8 + 1) 3 = Z.land ((r - 1) / 8 + 1) 3) as Hland.
    { rewrite Hdiv. change 3 with (Z.ones 2). rewrite !Z.land_ones by lia. change (2 ^ 2) with 4.
      replace ((r - 1) / 8 + q * 4 + 1) with ((r - 1) / 8 + 1 + q * 4) by lia. apply Z_mod_plus_full. }
    assert (invers_last_byte_mask n = invers_last_byte_mask r) as Hinv.
    { unfold invers_last_byte_mask, last_byte_mask. assert (Z.land (u32 (n - 1)) 7 = Z.land (u32 (r - 1)) 7) as ->; [| done].
      unfold u32. rewrite !Z.mod_small by (unfold r; lia). change 7 with (Z.ones 3). rewrite !Z.land_ones by lia. change (2 ^ 3) with 8.
      replace (n - 1) with (r - 1 + 4 * q * 8) by (unfold r; lia). apply Z_mod_plus_full. }
    unfold mask_of. by rewrite Hland, Hinv. }
  destruct (mask_small r ltac:(unfold r; lia)) as [Hm Hbits]. split; [done |]. intros j Hj. rewrite Hbits by done.
  apply bool_decide_ext. unfold r. lia.
Qed.

(** [bit_of] of a word outside the map is not looked at: two sets are compared below [n_bits]. *)
Lemma map_ok_with m ws : map_ok m → buffer (last_word_ptr m + 1) ws → map_ok (with_bitmap ws m).
Proof. intros [H1 H2 H3 H4 H5] Hws. by split. Qed.

Lemma no_words_ok m : map_ok m → no_words_in_map m = last_word_ptr m + 1 ∧ 0 ≤ last_word_ptr m ∧ no_bytes_in_map m = (n_bits m - 1) / 8 + 1.
Proof.
  intros [Hb _ Hl _ _]. destruct (words_eq (n_bits m) Hb) as [Hw Hby]. unfold no_words_in_map, no_bytes_in_map. rewrite Hw.
  split_and!; [f_equal; symmetry; apply (Z.div_unique _ _ _ (n_bits m - 1 - 32 * last_word_ptr m)); lia | lia | done].
Qed.

Lemma init_ok buf n :
  0 < n ≤ 2 ^ 32 - 32 → buffer (u32 (n + 31) / 32) buf →
  ∃ m, my_bitmap_init buf n = Ret m ∧ map_ok m ∧ n_bits m = n ∧ map_set m = ∅.
Proof.
  intros Hn Hbuf. destruct (words_eq n Hn) as [Hw _]. rewrite Hw in Hbuf.
  pose proof (Z.div_mod (n - 1) 32 ltac:(lia)). pose proof (Z.mod_pos_bound (n - 1) 32 ltac:(lia)). set (q := (n - 1) / 32) in *.
  destruct (mask_of_bits n q) as [Hmask Hbits]; [lia | lia |].
  unfold my_bitmap_init, bitmap_clear_all, create_last_word_mask, no_words_in_map, no_bytes_in_map. cbn [n_bits bitmap]. rewrite Hw.
  destruct (memset_bits (q + 1) 0 ltac:(lia) (Z.to_nat (4 * (q + 1))) 0 buf) as (ws & -> & Hws & Hb); [done | lia | lia |].
  eexists. split; [done |]. split_and!; [| done |].
  - split; cbn; [done | by replace (q + 1 - 1 + 1) with (q + 1) by lia | lia | done |]. intros j Hj. rewrite Hbits by done.
    by replace (q + 1 - 1) with q by lia.
  - apply set_eq. intros i. rewrite elem_of_map_set. cbn. split; [| set_solver]. intros [Hi Hbi]. rewrite Hb in Hbi by lia.
    rewrite bool_decide_true in Hbi by lia. by rewrite Z.bits_0 in Hbi.
Qed.

(** ** Set operations *)

Lemma last_index_ok m : map_ok m → Z.of_nat (last_index m) = last_word_ptr m.
Proof. intros Hm. destruct (no_words_ok m Hm) as (_ & ? & _). unfold last_index. lia. Qed.

Lemma last_eq m m2 : map_ok m → map_ok m2 → n_bits m = n_bits m2 → last_word_ptr m = last_word_ptr m2.
Proof. intros [_ _ H1 _ _] [_ _ H2 _ _] Hn. lia. Qed.

(** A set from the bits below [n_bits]. *)
Lemma map_set_ext m (P : Z → Prop) (X : gset Z) :
  (∀ i, 0 ≤ i < n_bits m → bit_of (bitmap m) i = true ↔ P i) → (∀ i, i ∈ X ↔ 0 ≤ i < n_bits m ∧ P i) → map_set m = X.
Proof. intros HP HX. apply set_eq. intros i. rewrite elem_of_map_set, HX. naive_solver. Qed.

Lemma pointwise_ok op f m m2 :
  bitwise op f → map_ok m → map_ok m2 → n_bits m = n_bits m2 →
  ∃ m', pointwise op m m2 = Ret m' ∧ map_ok m' ∧ n_bits m' = n_bits m ∧
    ∀ i, 0 ≤ i < n_bits m → bit_of (bitmap m') i = f (bit_of (bitmap m) i) (bit_of (bitmap m2) i).
Proof.
  intros Hop Hm Hm2 Hn. pose proof (last_eq m m2 Hm Hm2 Hn) as Hl. pose proof (last_index_ok m Hm) as Hli.
  destruct (combine_words_bits op f _ _ _ Hop (mo_buf _ Hm2) (S (last_index m)) 0 (bitmap m) (mo_buf _ Hm)) as (ws & Hc & Hws & Hb);
    [lia | lia | lia |].
  unfold pointwise. rewrite Hc. eexists. split; [done |]. split_and!; [by apply map_ok_with | done |].
  intros i Hi. cbn. rewrite Hb by lia. pose proof (mo_last _ Hm). by rewrite bool_decide_true by lia.
Qed.

Lemma bitwise_lor : bitwise Z.lor orb.
Proof. intros w v Hw Hv. split; [eauto with bits |]. intros j Hj. by rewrite Z.lor_spec. Qed.
Lemma bitwise_lxor : bitwise Z.lxor xorb.
Proof. intros w v Hw Hv. split; [eauto with bits |]. intros j Hj. by rewrite Z.lxor_spec. Qed.
Lemma bitwise_land : bitwise Z.land andb.
Proof. intros w v Hw Hv. split; [eauto with bits |]. intros j Hj. by rewrite Z.land_spec. Qed.
Lemma bitwise_diff : bitwise (λ w v, Z.land w (not32 v)) (λ a b, a && negb b).
Proof. intros w v Hw Hv. split; [eauto with bits |]. intros j Hj. by rewrite Z.land_spec, testbit_not32. Qed.
Lemma bitwise_copy : bitwise (λ _ v, v) (λ _ b, b).
Proof. by intros w v Hw Hv. Qed.
Lemma bitwise_not : bitwise (λ w _, Z.lxor w 0xFFFFFFFF) (λ a _, negb a).
Proof.
  intros w v Hw Hv. split; [eauto with bits |]. intros j Hj. rewrite Z.lxor_spec, full_bits by done. by destruct (Z.testbit w j).
Qed.
Lemma bitwise_zero : bitwise (λ _ _, 0) (λ _ _, false).
Proof. intros w v Hw Hv. split; [eauto with bits |]. intros j Hj. apply Z.bits_0. Qed.

Lemma invert_ok m :
  map_ok m → ∃ m', bitmap_invert m = Ret m' ∧ map_ok m' ∧ n_bits m' = n_bits m ∧
    ∀ i, 0 ≤ i < n_bits m → bit_of (bitmap m') i = negb (bit_of (bitmap m) i).
Proof.
  intros Hm. destruct (pointwise_ok _ _ m m bitwise_not Hm Hm eq_refl) as (m' & Hp & ?). exists m'. split; [| done].
  rewrite <- Hp. unfold bitmap_invert, pointwise. pose proof (last_index_ok m Hm) as Hli.
  rewrite (map_words_combine (last_word_ptr m + 1) _ _ 0 (bitmap m) (bitmap m)); [done | apply Hm | apply Hm | lia | lia |].
  intros w Hw. apply (bitwise_not w w Hw Hw).
Qed.

(** The part of [bitmap_intersect] for words that only the first map has. *)
Lemma clear_words_bits n c q ws :
  buffer n ws → 0 ≤ q → q + Z.of_nat c ≤ n →
  ∃ ws', map_words c (λ _, 0) q ws = Ret ws' ∧ buffer n ws' ∧
    ∀ i, 0 ≤ i → bit_of ws' i = if bool_decide (32 * q ≤ i < 32 * (q + Z.of_nat c)) then false else bit_of ws i.
Proof.
  intros Hws Hq Hc. rewrite (map_words_combine n _ c q ws ws) by (done || intros; unfold in_u32; lia).
  by apply (combine_words_bits _ _ n n ws bitwise_zero Hws c q ws Hws).
Qed.

Lemma intersect_ok m m2 :
  map_ok m → map_ok m2 →
  ∃ m', bitmap_intersect m m2 = Ret m' ∧ map_ok m' ∧ n_bits m' = n_bits m ∧
    ∀ i, 0 ≤ i < n_bits m → bit_of (bitmap m') i = bit_of (bitmap m) i && bool_decide (i < n_bits m2) && bit_of (bitmap m2) i.
Proof.
  intros Hm Hm2. unfold bitmap_intersect. destruct (no_words_ok m Hm) as (-> & Hl & _). destruct (no_words_ok m2 Hm2) as (-> & Hl2 & _).
  set (l := last_word_ptr m) in *. set (l2 := last_word_ptr m2) in *.
  pose proof (mo_last _ Hm) as HL. pose proof (mo_last _ Hm2) as HL2. fold l in HL. fold l2 in HL2.
  destruct (combine_words_bits _ _ _ _ _ bitwise_land (mo_buf _ Hm2) (Z.to_nat (Z.min (l + 1) (l2 + 1))) 0 (bitmap m) (mo_buf _ Hm))
    as (ws & -> & Hws & Hb); [lia | fold l; lia | fold l2; lia |]. fold l in Hws. obind.
  destruct (decide (l2 ≤ l)) as [Hle | Hle]; cycle 1.
  { rewrite bool_decide_false by lia. obind. eexists. split; [done |]. split_and!; [by apply map_ok_with | done |].
    intros i Hi. cbn. rewrite Hb by lia. rewrite !bool_decide_true by lia. by rewrite andb_true_r. }
  rewrite bool_decide_true by lia. rewrite (vget_word (l + 1) ws) by (done || lia). obind.
  replace (l2 + 1 - 1) with l2 by lia.
  destruct (vset_word (l + 1) ws l2 (Z.land (word ws l2) (not32 (last_word_mask m2)))) as (ws1 & -> & Hws1 & _ & Hb1);
    [done | lia | eauto with bits |]. obind.
  destruct (clear_words_bits (l + 1) (Z.to_nat (l + 1 - (l2 + 1))) (l2 + 1) ws1) as (ws2 & -> & Hws2 & Hb2); [done | lia | lia |]. obind.
  eexists. split; [done |]. split_and!; [by apply map_ok_with | done |]. intros i Hi. cbn. rewrite Hb2, Hb1 by lia.
  destruct (decide (32 * (l2 + 1) ≤ i)).
  { rewrite bool_decide_true by lia. rewrite (bool_decide_false (i < n_bits m2)) by lia. by rewrite andb_false_r. }
  rewrite (bool_decide_false (32 * (l2 + 1) ≤ i < _)) by lia. destruct (decide (32 * l2 ≤ i)).
  - rewrite (bool_decide_true (32 * l2 ≤ i < _)) by lia. rewrite Z.land_spec, testbit_not32, word_bits by lia.
    rewrite (mo_mask_bits _ Hm2) by lia. fold l2. replace (32 * l2 + (i - 32 * l2)) with i by lia. rewrite Hb by lia.
    rewrite (bool_decide_true (32 * 0 ≤ i < _)) by lia. destruct (decide (n_bits m2 ≤ i)).
    + rewrite (bool_decide_true (n_bits m2 ≤ i)), (bool_decide_false (i < _)) by lia. by rewrite !andb_false_r.
    + rewrite (bool_decide_false (n_bits m2 ≤ i)), (bool_decide_true (i < _)) by lia. by rewrite !andb_true_r.
  - rewrite (bool_decide_false (32 * l2 ≤ i < _)) by lia. rewrite Hb by lia. rewrite !bool_decide_true by lia. by rewrite andb_true_r.
Qed.

(** An equivalence between memberships, by cases on the bits. *)
Ltac by_bits m m2 Hb :=
  match goal with |- context [bit_of (bitmap m2) ?i] =>
    destruct (decide (0 ≤ i < n_bits m)); [rewrite Hb by done | intuition lia];
    destruct (bit_of (bitmap m) i), (bit_of (bitmap m2) i); cbn; intuition (lia || congruence)
  end.

(** C26: The operations of bitmaps are the operations of sets: on maps of the same size
    [bitmap_union], [bitmap_subtract], [bitmap_xor] and [bitmap_copy] leave in the first map
    the union, difference, symmetric difference and copy, [bitmap_invert] leaves the
    complement, and [bitmap_intersect] leaves the intersection also for maps of
    different sizes; unused bits never leak into the result and no access is out of bounds. *)
Theorem bitmap_operations m m2 :
  map_ok m → map_ok m2 →
  (n_bits m = n_bits m2 →
    (∃ m', bitmap_union m m2 = Ret m' ∧ map_ok m' ∧ map_set m' = map_set m ∪ map_set m2) ∧
    (∃ m', bitmap_subtract m m2 = Ret m' ∧ map_ok m' ∧ map_set m' = map_set m ∖ map_set m2) ∧
    (∃ m', bitmap_xor m m2 = Ret m' ∧ map_ok m' ∧ map_set m' = (map_set m ∖ map_set m2) ∪ (map_set m2 ∖ map_set m)) ∧
    (∃ m', bitmap_copy m m2 = Ret m' ∧ map_ok m' ∧ map_set m' = map_set m2)) ∧
  (∃ m', bitmap_invert m = Ret m' ∧ map_ok m' ∧ map_set m' = list_to_set (seqZ 0 (n_bits m)) ∖ map_set m) ∧
  (∃ m', bitmap_intersect m m2 = Ret m' ∧ map_ok m' ∧ map_set m' = map_set m ∩ map_set m2).
Proof.
  intros Hm Hm2. split; [intros Hn; split_and! | split].
  - destruct (pointwise_ok _ _ m m2 bitwise_lor Hm Hm2 Hn) as (m' & Hp & Hok & Hn' & Hb). exists m'. split_and!; [done | done |].
    apply set_eq. intros i. rewrite elem_of_union, !elem_of_map_set, <- Hn, Hn'. by_bits m m2 Hb.
  - destruct (pointwise_ok _ _ m m2 bitwise_diff Hm Hm2 Hn) as (m' & Hp & Hok & Hn' & Hb). exists m'. split_and!; [done | done |].
    apply set_eq. intros i. rewrite elem_of_difference, !elem_of_map_set, <- Hn, Hn'. by_bits m m2 Hb.
  - destruct (pointwise_ok _ _ m m2 bitwise_lxor Hm Hm2 Hn) as (m' & Hp & Hok & Hn' & Hb). exists m'. split_and!; [done | done |].
    apply set_eq. intros i. rewrite elem_of_union, !elem_of_difference, !elem_of_map_set, <- Hn, Hn'. by_bits m m2 Hb.
  - destruct (pointwise_ok _ _ m m2 bitwise_copy Hm Hm2 Hn) as (m' & Hp & Hok & Hn' & Hb). exists m'. split_and!; [done | done |].
    apply set_eq. intros i. rewrite !elem_of_map_set, <- Hn, Hn'. by_bits m m2 Hb.
  - destruct (invert_ok m Hm) as (m' & Hp & Hok & Hn' & Hb). exists m'. split_and!; [done | done |].
    apply set_eq. intros i. rewrite elem_of_difference, elem_of_list_to_set, elem_of_seqZ, !elem_of_map_set, Hn'. by_bits m m Hb.
  - destruct (intersect_ok m m2 Hm Hm2) as (m' & Hp & Hok & Hn' & Hb). exists m'. split_and!; [done | done |].
    apply set_eq. intros i. rewrite elem_of_intersection, !elem_of_map_set, Hn'.
    destruct (decide (i < n_bits m2)); [| destruct (decide (0 ≤ i < n_bits m)); [| intuition lia];
      rewrite Hb, bool_decide_false, andb_false_r by done; intuition (lia || congruence)].
    destruct (decide (0 ≤ i < n_bits m)); [| intuition lia]. rewrite Hb, bool_decide_true by done.
    destruct (bit_of (bitmap m) i), (bit_of (bitmap m2) i); cbn; intuition (lia || congruence).
Qed.

Lemma bitmap_operations_witness :
  let m := mkMap [0xF0; 0xFFFFFFF1] 1 0xFFFFFFF0 36 in let m2 := mkMap [0x3C; 2] 1 0xFFFFFFF0 36 in
  map_set m = {[4; 5; 6; 7; 32]} ∧
  ∃ m', bitmap_intersect m m2 = Ret m' ∧ map_ok m' ∧ map_set m' = map_set m ∩ map_set m2.
Proof.
  intros m m2. split; [vm_compute; reflexivity |].
  assert (∀ j, 0 ≤ j < 32 → Z.testbit 0xFFFFFFF0 j = bool_decide (36 ≤ 32 * 1 + j)) as Hmask.
  { intros j Hj. assert (Forall (λ j, Z.testbit 0xFFFFFFF0 j = bool_decide (36 ≤ 32 * 1 + j)) (seqZ 0 32)) as Hall by (repeat constructor).
    rewrite Forall_forall in Hall. apply Hall, elem_of_seqZ. lia. }
  refine (proj2 (proj2 (bitmap_operations m m2 _ _))); (split; cbn; [lia | split; [done | repeat constructor; unfold in_u32; lia] | lia | unfold in_u32; lia | exact Hmask]).
Defined.

(** ** Predicates *)

Lemma scan_words_pairs n test ws : buffer n ws → ∀ (c : nat) q, 0 ≤ q → q + Z.of_nat c ≤ n →
  scan_words c test q ws = scan_pairs c (λ w _, test w) q ws ws.
Proof.
  intros Hws. induction c as [| c IH]; intros q Hq Hc; [done |]. cbn [scan_words scan_pairs].
  rewrite (vget_word n ws) by (done || lia). obind. case_match; [done |]. apply IH; lia.
Qed.

Section predicate.
Context (m m2 : MY_BITMAP) (Hm : map_ok m) (Hm2 : map_ok m2) (Hn : n_bits m = n_bits m2).
Context (test : Z → Z → bool) (good : bool → bool → bool).
Context (Htest : ∀ w v, in_u32 w → in_u32 v → test w v = false ↔ ∀ j, 0 ≤ j < 32 → good (Z.testbit w j) (Z.testbit v j) = true).

Definition good_at (i : Z) : Prop := good (bit_of (bitmap m) i) (bit_of (bitmap m2) i) = true.

(** The loop over the words before the last finds a bad bit, or there is none. *)
Lemma scan_good :
  ∃ r, scan_pairs (last_index m) test 0 (bitmap m) (bitmap m2) = Ret r ∧
    (r < last_word_ptr m → ¬ ∀ i, 0 ≤ i < n_bits m → good_at i) ∧
    (¬ r < last_word_ptr m → r = last_word_ptr m ∧ ∀ i, 0 ≤ i < 32 * last_word_ptr m → good_at i).
Proof.
  pose proof (last_eq m m2 Hm Hm2 Hn) as Hl. pose proof (last_index_ok m Hm) as Hli. pose proof (mo_last _ Hm) as HL.
  pose proof (mo_buf _ Hm) as B1. pose proof (mo_buf _ Hm2) as B2.
  destruct (scan_pairs_spec _ _ _ _ test B1 B2 (last_index m) 0) as (r & -> & Hr & Hbefore & Hat); [lia | lia | lia |].
  exists r. split_and!; [done | |].
  - intros Hlt Hall. specialize (Hat ltac:(lia)).
    assert (test (word (bitmap m) r) (word (bitmap m2) r) = false); [| congruence].
    apply Htest; [eauto with bits | eauto with bits |]. intros j Hj. rewrite !word_bits by lia. apply Hall. lia.
  - intros Hge. split; [lia |]. intros i Hi. unfold good_at.
    pose proof (Z.div_mod i 32 ltac:(lia)). pose proof (Z.mod_pos_bound i 32 ltac:(lia)).
    assert (∀ j, 0 ≤ j < 32 → good (Z.testbit (word (bitmap m) (i / 32)) j) (Z.testbit (word (bitmap m2) (i / 32)) j) = true) as Hg.
    { apply Htest; [eauto with bits | eauto with bits |]. apply Hbefore. lia. }
    specialize (Hg (i mod 32) ltac:(lia)). rewrite !word_bits in Hg by lia. by replace (32 * (i / 32) + i mod 32) with i in Hg by lia.
Qed.

(** The used bits of the last word. *)
Lemma last_good :
  (∀ i, 0 ≤ i < 32 * last_word_ptr m → good_at i) →
  (∀ j, 0 ≤ j < 32 → Z.testbit (last_word_mask m) j = false →
    good (Z.testbit (word (bitmap m) (last_word_ptr m)) j) (Z.testbit (word (bitmap m2) (last_word_ptr m)) j) = true) ↔
  (∀ i, 0 ≤ i < n_bits m → good_at i).
Proof.
  intros Hbefore. pose proof (mo_last _ Hm) as HL. set (l := last_word_ptr m) in *. split.
  - intros Hlast i Hi. destruct (decide (i < 32 * l)); [apply Hbefore; lia |]. specialize (Hlast (i - 32 * l) ltac:(lia)).
    rewrite (mo_mask_bits _ Hm) in Hlast by lia. fold l in Hlast. rewrite !word_bits in Hlast by lia.
    replace (32 * l + (i - 32 * l)) with i in Hlast by lia. apply Hlast. apply bool_decide_false. lia.
  - intros Hall j Hj Hmask. rewrite (mo_mask_bits _ Hm) in Hmask by lia. apply bool_decide_eq_false in Hmask. fold l in Hmask.
    rewrite !word_bits by lia. destruct (no_words_ok m Hm) as (_ & ? & _). apply Hall. lia.
Qed.

(** Both together: the function returns [c] when all bits below [n_bits] are good. *)
Lemma predicate_ok (c : bool) (last : Z → Z → bool) :
  (∀ w v, in_u32 w → in_u32 v → last w v = c ↔
    ∀ j, 0 ≤ j < 32 → Z.testbit (last_word_mask m) j = false → good (Z.testbit w j) (Z.testbit v j) = true) →
  ∃ r, (i ← scan_pairs (last_index m) test 0 (bitmap m) (bitmap m2);
        if bool_decide (i < last_word_ptr m) then Ret (negb c)
        else w ← vget (bitmap m) i; v ← vget (bitmap m2) i; Ret (last w v)) = Ret r ∧
    (r = c ↔ ∀ i, 0 ≤ i < n_bits m → good_at i).
Proof.
  intros Hlast. pose proof (last_eq m m2 Hm Hm2 Hn) as Hl. pose proof (last_index_ok m Hm) as Hli.
  pose proof (mo_buf _ Hm) as B1. pose proof (mo_buf _ Hm2) as B2.
  destruct scan_good as (i & -> & Hbad & Hgood). obind. destruct (decide (i < last_word_ptr m)) as [Hi | Hi].
  - rewrite bool_decide_true by done. exists (negb c). split; [done |]. split; [by destruct c |]. intros Hall. by apply Hbad in Hi.
  - rewrite bool_decide_false by done. destruct (Hgood Hi) as [-> Hbefore].
    rewrite (vget_word _ _ _ B1), (vget_word _ _ _ B2) by lia. obind. eexists. split; [done |].
    rewrite Hlast by eauto with bits. by apply last_good.
Qed.

End predicate.

Lemma bool_decide_iff (P : Prop) `{Decision P} (b : bool) : (b = true ↔ P) → b = bool_decide P.
Proof. intros Hb. apply eq_true_iff_eq. by rewrite bool_decide_eq_true. Qed.

(** [n] words are read through [Z.lor] with the mask, or through [Z.land] with its complement. *)
Lemma masked_zero w mask :
  in_u32 w → in_u32 mask → Z.land w (not32 mask) = 0 ↔ ∀ j, 0 ≤ j < 32 → Z.testbit mask j = false → Z.testbit w j = false.
Proof.
  intros Hw Hmask. rewrite word_zero by eauto with bits. split; intros Hb j Hj.
  - intros Hmj. specialize (Hb j Hj). by rewrite Z.land_spec, testbit_not32, Hmj, andb_true_r in Hb by done.
  - rewrite Z.land_spec, testbit_not32 by done. destruct (Z.testbit mask j) eqn:Hmj; [apply andb_false_r |]. by rewrite Hb.
Qed.

Lemma masked_full w mask :
  in_u32 w → in_u32 mask → Z.lor w mask = 0xFFFFFFFF ↔ ∀ j, 0 ≤ j < 32 → Z.testbit mask j = false → Z.testbit w j = true.
Proof.
  intros Hw Hmask. rewrite word_full by eauto with bits. split; intros Hb j Hj.
  - intros Hmj. specialize (Hb j Hj). by rewrite Z.lor_spec, Hmj, orb_false_r in Hb.
  - rewrite Z.lor_spec. destruct (Z.testbit mask j) eqn:Hmj; [apply orb_true_r |]. by rewrite Hb.
Qed.

Lemma is_set_all_ok m : map_ok m → bitmap_is_set_all m = Ret (bool_decide (map_set m = list_to_set (seqZ 0 (n_bits m)))).
Proof.
  intros Hm. pose proof (mo_buf _ Hm) as B. pose proof (last_index_ok m Hm) as Hli.
  destruct (predicate_ok m m Hm Hm eq_refl (λ w _, bool_decide (w ≠ 0xFFFFFFFF)) (λ a _, a)) with (c := true)
    (last := λ w v : Z, bool_decide (Z.lor w (last_word_mask m) = 0xFFFFFFFF)) as (r & Hr & Hspec).
  - intros w v Hw Hv. rewrite bool_decide_eq_false. split; [intros ?%dec_stable; by apply word_full | intros Hb Hne; by apply Hne, word_full].
  - intros w v Hw Hv. rewrite bool_decide_eq_true. apply masked_full; [done | apply Hm].
  - unfold bitmap_is_set_all. rewrite (scan_words_pairs (last_word_ptr m + 1)) by (done || lia).
    trans (Ret r); [| f_equal; apply bool_decide_iff; rewrite Hspec].
    + rewrite <- Hr. destruct (scan_pairs _ _ _ _ _) as [i | |]; [| done | done]. obind. case_bool_decide; [done |].
      by destruct (vget (bitmap m) i).
    + unfold good_at. split.
      * intros Hall. apply (map_set_ext _ (λ _, True)); [intros i Hi; split; [done | intros _; by apply Hall] |].
        intros i. rewrite elem_of_list_to_set, elem_of_seqZ. naive_solver lia.
      * intros Hset i Hi. assert (i ∈ map_set m) as Hin; [| by apply elem_of_map_set in Hin as [_ ?]].
        rewrite Hset, elem_of_list_to_set, elem_of_seqZ. lia.
Qed.

Lemma is_clear_all_ok m : map_ok m → bitmap_is_clear_all m = Ret (bool_decide (map_set m = ∅)).
Proof.
  intros Hm. pose proof (mo_buf _ Hm) as B. pose proof (last_index_ok m Hm) as Hli.
  destruct (predicate_ok m m Hm Hm eq_refl (λ w _, bool_decide (w ≠ 0)) (λ a _, negb a)) with (c := true)
    (last := λ w v : Z, bool_decide (Z.land w (not32 (last_word_mask m)) = 0)) as (r & Hr & Hspec).
  - intros w v Hw Hv. rewrite bool_decide_eq_false. setoid_rewrite negb_true_iff. rewrite <- word_zero by done.
    split; [by intros ?%dec_stable | by intros ? ?].
  - intros w v Hw Hv. rewrite bool_decide_eq_true. setoid_rewrite negb_true_iff. apply masked_zero; [done | apply Hm].
  - unfold bitmap_is_clear_all. rewrite (scan_words_pairs (last_word_ptr m + 1)) by (done || lia).
    trans (Ret r); [| f_equal; apply bool_decide_iff; rewrite Hspec].
    + rewrite <- Hr. destruct (scan_pairs _ _ _ _ _) as [i | |]; [| done | done]. obind. case_bool_decide; [done |].
      by destruct (vget (bitmap m) i).
    + unfold good_at. setoid_rewrite negb_true_iff. split.
      * intros Hall. apply elem_of_equiv_empty_L. intros i [Hi Hb]%elem_of_map_set. by rewrite Hall in Hb.
      * intros Hset i Hi. apply not_true_is_false. intros Hb. assert (i ∈ map_set m) as Hin by (by apply elem_of_map_set).
        rewrite Hset in Hin. set_solver.
Qed.

Lemma is_subset_ok m m2 :
  map_ok m → map_ok m2 → n_bits m = n_bits m2 → bitmap_is_subset m m2 = Ret (bool_decide (map_set m ⊆ map_set m2)).
Proof.
  intros Hm Hm2 Hn.
  destruct (predicate_ok m m2 Hm Hm2 Hn (λ w v, bool_decide (Z.land w (not32 v) ≠ 0)) (λ a b, negb (a && negb b))) with (c := true)
    (last := λ w v, bool_decide (Z.land (Z.land w (not32 v)) (not32 (last_word_mask m)) = 0)) as (r & Hr & Hspec).
  - intros w v Hw Hv. rewrite bool_decide_eq_false. setoid_rewrite negb_true_iff.
    rewrite (dec_stable_iff (Z.land w (not32 v) = 0)), word_zero by eauto with bits.
    apply forall_proper; intros j. apply impl_proper_l; intros Hj. by rewrite Z.land_spec, testbit_not32.
  - intros w v Hw Hv. rewrite bool_decide_eq_true, masked_zero by (eauto with bits || apply Hm).
    apply forall_proper; intros j. apply impl_proper_l; intros Hj. by rewrite Z.land_spec, testbit_not32, negb_true_iff.
  - unfold bitmap_is_subset. cbn [negb] in Hr. rewrite Hr. f_equal. apply bool_decide_iff. rewrite Hspec. unfold good_at. split.
    + intros Hall i [Hi Hb]%elem_of_map_set. apply elem_of_map_set. rewrite <- Hn. split; [done |]. specialize (Hall i Hi).
      rewrite Hb in Hall. by destruct (bit_of (bitmap m2) i).
    + intros Hset i Hi. destruct (bit_of (bitmap m) i) eqn:Hb; [| done].
      assert (i ∈ map_set m2) as [_ ->]%elem_of_map_set; [| done]. apply Hset. by apply elem_of_map_set.
Qed.
