(* ===== verification/BitmapQuery.v ===== *)
(** * Bitmaps: comparisons, counts, searches and single bits

    The rest of the specifications: [bitmap_is_overlapping], [bitmap_cmp],
    [bitmap_union_is_set_all], [bitmap_bits_set], the searches for set and clear bits, and the
    functions that change one bit or a prefix. *)

From S2P Require Import Prelude Bits Bitmap BitmapSpec.

Lemma is_overlapping_ok m m2 :
  map_ok m → map_ok m2 → n_bits m = n_bits m2 → bitmap_is_overlapping m m2 = Ret (bool_decide (map_set m ∩ map_set m2 ≠ ∅)).
Proof.
  intros Hm Hm2 Hn.
  destruct (predicate_ok m m2 Hm Hm2 Hn (λ w v, bool_decide (Z.land w v ≠ 0)) (λ a b, negb (a && b))) with (c := false)
    (last := λ w v, bool_decide (Z.land (Z.land w v) (not32 (last_word_mask m)) ≠ 0)) as (r & Hr & Hspec).
  - intros w v Hw Hv. rewrite bool_decide_eq_false, (dec_stable_iff (Z.land w v = 0)), word_zero by eauto with bits.
    apply forall_proper; intros j. apply impl_proper_l; intros Hj. by rewrite Z.land_spec, negb_true_iff.
  - intros w v Hw Hv. rewrite bool_decide_eq_false, (dec_stable_iff (_ = 0)), masked_zero by (eauto with bits || apply Hm).
    apply forall_proper; intros j. apply impl_proper_l; intros Hj. by rewrite Z.land_spec, negb_true_iff.
  - unfold bitmap_is_overlapping. cbn [negb] in Hr. rewrite Hr. f_equal.
    assert (r = false ↔ map_set m ∩ map_set m2 = ∅) as Hiff.
    { rewrite Hspec. unfold good_at. split.
      - intros Hall. apply elem_of_equiv_empty_L. intros i [[Hi Hb]%elem_of_map_set [_ Hb2]%elem_of_map_set]%elem_of_intersection.
        specialize (Hall i Hi). by rewrite Hb, Hb2 in Hall.
      - intros Hset i Hi. apply negb_true_iff, not_true_is_false. intros [Hb Hb2]%andb_true_iff.
        assert (i ∈ map_set m ∩ map_set m2) as Hin; [| rewrite Hset in Hin; set_solver].
        apply elem_of_intersection. rewrite !elem_of_map_set, <- Hn. done. }
    destruct r; symmetry; [apply bool_decide_true | apply bool_decide_false]; naive_solver.
Qed.

Lemma cmp_ok m m2 :
  map_ok m → map_ok m2 → n_bits m = n_bits m2 → bitmap_cmp m m2 = Ret (bool_decide (map_set m = map_set m2)).
Proof.
  intros Hm Hm2 Hn. pose proof (last_eq m m2 Hm Hm2 Hn) as Hl. pose proof (last_index_ok m Hm) as Hli.
  assert (last_word_mask m2 = last_word_mask m) as Hmask.
  { apply in_u32_ext; [apply Hm2 | apply Hm |]. intros j Hj. rewrite (mo_mask_bits _ Hm), (mo_mask_bits _ Hm2) by done.
    by rewrite Hn, Hl. }
  destruct (predicate_ok m m2 Hm Hm2 Hn (λ w v, bool_decide (w ≠ v)) eqb) with (c := true)
    (last := λ w v, bool_decide (Z.lor w (last_word_mask m) = Z.lor v (last_word_mask m))) as (r & Hr & Hspec).
  - intros w v Hw Hv. rewrite bool_decide_eq_false, (dec_stable_iff (w = v)). setoid_rewrite eqb_true_iff.
    split; [by intros -> | by apply in_u32_ext].
  - intros w v Hw Hv. rewrite bool_decide_eq_true. setoid_rewrite eqb_true_iff. pose proof (mo_mask _ Hm). split.
    + intros Heq j Hj Hmj. assert (Z.testbit (Z.lor w (last_word_mask m)) j = Z.testbit (Z.lor v (last_word_mask m)) j) as Hb by (by rewrite Heq).
      by rewrite !Z.lor_spec, Hmj, !orb_false_r in Hb.
    + intros Hb. apply in_u32_ext; [eauto with bits | eauto with bits |]. intros j Hj. rewrite !Z.lor_spec.
      destruct (Z.testbit (last_word_mask m) j) eqn:Hmj; [by rewrite !orb_true_r | by rewrite Hb].
  - unfold bitmap_cmp. destruct (no_words_ok m Hm) as (-> & H0 & _). replace (last_word_ptr m + 1 - 1) with (last_word_ptr m) by lia.
    rewrite <- Hl, Hmask. trans (Ret r); [rewrite <- Hr; fold (last_index m) | f_equal; apply bool_decide_iff; rewrite Hspec].
    + destruct (scan_good m m2 Hm Hm2 Hn (λ w v, bool_decide (w ≠ v)) eqb) as (i & -> & _ & Hi).
      { intros w v Hw Hv. rewrite bool_decide_eq_false, (dec_stable_iff (w = v)). setoid_rewrite eqb_true_iff.
        split; [by intros -> | by apply in_u32_ext]. }
      obind. case_bool_decide as Hlt; [done |]. by destruct (Hi Hlt) as [-> _].
    + unfold good_at. setoid_rewrite eqb_true_iff. split.
      * intros Hall. apply set_eq. intros i. rewrite !elem_of_map_set, <- Hn. split; intros [Hi Hb]; specialize (Hall i Hi); split; congruence.
      * intros Hset i Hi. assert (i ∈ map_set m ↔ i ∈ map_set m2) as Hiff by (by rewrite Hset). rewrite !elem_of_map_set, <- Hn in Hiff.
        destruct (bit_of (bitmap m) i), (bit_of (bitmap m2) i); naive_solver.
Qed.

(** The predicates on bitmaps decide the relations of the sets: [bitmap_is_set_all],
    [bitmap_is_clear_all], [bitmap_is_subset], [bitmap_is_overlapping] and [bitmap_cmp] return
    whether the map is full, is empty, is contained in, meets or equals the other one, whatever
    the unused bits of the last words are. *)
Theorem bitmap_predicates m m2 :
  map_ok m → map_ok m2 → n_bits m = n_bits m2 →
  bitmap_is_set_all m = Ret (bool_decide (map_set m = list_to_set (seqZ 0 (n_bits m)))) ∧
  bitmap_is_clear_all m = Ret (bool_decide (map_set m = ∅)) ∧
  bitmap_is_subset m m2 = Ret (bool_decide (map_set m ⊆ map_set m2)) ∧
  bitmap_is_overlapping m m2 = Ret (bool_decide (map_set m ∩ map_set m2 ≠ ∅)) ∧
  bitmap_cmp m m2 = Ret (bool_decide (map_set m = map_set m2)).
Proof.
  intros Hm Hm2 Hn. split_and!; [by apply is_set_all_ok | by apply is_clear_all_ok | by apply is_subset_ok | by apply is_overlapping_ok | by apply cmp_ok].
Qed.

(** A decision procedure for [map_ok], for maps that are given. *)
Definition map_check (m : MY_BITMAP) : bool :=
  (0 <? n_bits m) && (n_bits m <=? 2 ^ 32 - 32) &&
  (Z.of_nat (length (bitmap m)) =? last_word_ptr m + 1) && forallb (λ w, (0 <=? w) && (w <? 2 ^ 32)) (bitmap m) &&
  (32 * last_word_ptr m <? n_bits m) && (n_bits m <=? 32 * last_word_ptr m + 32) &&
  (0 <=? last_word_mask m) && (last_word_mask m <? 2 ^ 32) &&
  forallb (λ j, eqb (Z.testbit (last_word_mask m) j) (n_bits m <=? 32 * last_word_ptr m + j)) (seqZ 0 32).

Lemma map_check_ok m : map_check m = true → map_ok m.
Proof.
  unfold map_check. rewrite !andb_true_iff, !Z.ltb_lt, !Z.leb_le, Z.eqb_eq, !forallb_forall.
  intros ((((((((H1 & H2) & H3) & H4) & H5) & H6) & H7) & H8) & H9). split; [lia | | lia | unfold in_u32; lia |].
  - split; [done |]. apply Forall_forall. intros w Hw%list_elem_of_In%H4. rewrite andb_true_iff, Z.leb_le, Z.ltb_lt in Hw. done.
  - intros j Hj. specialize (H9 j). rewrite <- list_elem_of_In, elem_of_seqZ in H9. rewrite (eqb_prop _ _ (H9 ltac:(lia))).
    apply eq_true_iff_eq. by rewrite bool_decide_eq_true, Z.leb_le.
Qed.

(** Two maps of 36 bits with different unused bits. *)
Definition map_a : MY_BITMAP := mkMap [0xF0; 0xFFFFFFF1] 1 0xFFFFFFF0 36.
Definition map_b : MY_BITMAP := mkMap [0xF4; 0x3] 1 0xFFFFFFF0 36.

Lemma bitmap_predicates_witness :
  map_set map_a = {[4; 5; 6; 7; 32]} ∧ bitmap_is_subset map_a map_b = Ret true ∧ bitmap_cmp map_a map_b = Ret false.
Proof.
  split; [vm_compute; reflexivity |].
  destruct (bitmap_predicates map_a map_b) as (_ & _ & Hs & _ & Hc);
    [by apply map_check_ok | by apply map_check_ok | done |].
  rewrite Hs, Hc. split; f_equal; vm_compute; reflexivity.
Defined.

(** [bitmap_union_is_set_all] does not do what its comment says: whenever the union of the
    two maps has all bits set, it returns false. *)
Theorem union_is_set_all_wrong m m2 :
  map_ok m → map_ok m2 → n_bits m = n_bits m2 → map_set m ∪ map_set m2 = list_to_set (seqZ 0 (n_bits m)) →
  bitmap_union_is_set_all m m2 = Ret false.
Proof.
  intros Hm Hm2 Hn Hfull. pose proof (last_eq m m2 Hm Hm2 Hn) as Hl. pose proof (last_index_ok m Hm) as Hli.
  pose proof (mo_buf _ Hm) as B1. pose proof (mo_buf _ Hm2) as B2.
  assert (∀ i, 0 ≤ i < n_bits m → good_at m m2 orb i) as Hall.
  { intros i Hi. assert (i ∈ map_set m ∪ map_set m2) as Hin by (rewrite Hfull, elem_of_list_to_set, elem_of_seqZ; lia).
    rewrite elem_of_union, !elem_of_map_set in Hin. unfold good_at. apply orb_true_iff. tauto. }
  unfold bitmap_union_is_set_all.
  destruct (scan_good m m2 Hm Hm2 Hn (λ w v, bool_decide (Z.lor w v ≠ 0xFFFFFFFF)) orb) as (i & -> & Hbad & Hgood).
  { intros w v Hw Hv. rewrite bool_decide_eq_false, (dec_stable_iff (_ = _)), word_full by eauto with bits.
    apply forall_proper; intros j. by rewrite Z.lor_spec. }
  obind. case_bool_decide as Hi; [done |]. destruct (Hgood Hi) as [-> Hbefore].
  rewrite (vget_word _ _ _ B1), (vget_word _ _ _ B2) by lia. obind. f_equal. apply bool_decide_false. intros Hne. apply Hne.
  apply masked_full; [eauto with bits | apply Hm |]. intros j Hj Hmask. rewrite Z.lor_spec.
  by apply (proj2 (last_good m m2 Hm orb Hbefore) Hall).
Qed.

Lemma union_is_set_all_wrong_witness :
  let m := mkMap [7] 0 0xFFFFFFF0 4 in let m2 := mkMap [8] 0 0xFFFFFFF0 4 in
  map_set m ∪ map_set m2 = {[0; 1; 2; 3]} ∧ bitmap_union_is_set_all m m2 = Ret false.
Proof.
  intros m m2. split; [vm_compute; reflexivity |].
  apply (union_is_set_all_wrong m m2); [by apply map_check_ok | by apply map_check_ok | done | vm_compute; reflexivity].
Defined.

(** ** Counting *)

Definition bits_from (ws : list Z) (i n : Z) : Z := Z.of_nat (length (filter (λ i, bit_of ws i = true) (seqZ i n))).

Lemma bits_from_app ws i n n' : 0 ≤ n → 0 ≤ n' → bits_from ws i (n + n') = bits_from ws i n + bits_from ws (i + n) n'.
Proof. intros Hn Hn'. unfold bits_from. rewrite seqZ_app by lia. rewrite filter_app, length_app. lia. Qed.

Lemma bits_from_bound ws i n : 0 ≤ n → 0 ≤ bits_from ws i n ≤ n.
Proof.
  intros Hn. unfold bits_from. pose proof (length_filter (λ i, bit_of ws i = true) (seqZ i n)) as H. rewrite length_seqZ in H. lia.
Qed.

(** The set bits of a word, counted in the buffer. *)
Lemma popcount_from ws w i n :
  0 ≤ n ≤ 32 → (∀ j, 0 ≤ j < n → Z.testbit w j = bit_of ws (i + j)) → (∀ j, n ≤ j < 32 → Z.testbit w j = false) →
  popcount 32 w = bits_from ws i n.
Proof.
  intros Hn Hlow Hhigh. unfold popcount, set_bits, bits_from. replace 32 with (n + (32 - n)) by lia.
  rewrite seqZ_app, filter_app, length_app by lia. rewrite (proj2 (filter_none _ (seqZ (0 + n) (32 - n)))).
  - rewrite Nat.add_0_r. f_equal. replace (seqZ i n) with (Z.add i <$> seqZ 0 n) by (rewrite fmap_add_seqZ; f_equal; lia).
    rewrite filter_fmap_length. f_equal. apply filter_ext_in. intros j Hj%elem_of_seqZ. by rewrite Hlow by lia.
  - apply Forall_forall. intros j Hj%elem_of_seqZ. rewrite Hhigh by lia. done.
Qed.

Lemma count_words_ok n ws : buffer n ws → ∀ (c : nat) q res,
  0 ≤ q → q + Z.of_nat c ≤ n → 0 ≤ res → res + 32 * Z.of_nat c < 2 ^ 32 →
  count_words c q res ws = Ret (res + bits_from ws (32 * q) (32 * Z.of_nat c)).
Proof.
  intros Hws. induction c as [| c IH]; intros q res Hq Hc Hres Hbound; cbn [count_words].
  { f_equal. unfold bits_from. rewrite seqZ_nil by lia. rewrite filter_nil. cbn [length]. lia. }
  rewrite (vget_word n) by (done || lia). obind. rewrite my_count_bits_uint32_popcount by eauto with bits.
  rewrite (popcount_from ws _ (32 * q) 32) by first [lia | intros j ?; lia | intros j ?; by apply word_bits].
  pose proof (bits_from_bound ws (32 * q) 32 ltac:(lia)).
  unfold u32. rewrite Z.mod_small by lia. rewrite IH by lia. f_equal.
  replace (32 * Z.of_nat (S c)) with (32 + 32 * Z.of_nat c) by lia. rewrite bits_from_app by lia.
  replace (32 * (q + 1)) with (32 * q + 32) by lia. lia.
Qed.

Lemma size_map_set m : Z.of_nat (size (map_set m)) = bits_from (bitmap m) 0 (n_bits m).
Proof. unfold map_set, bits_from. rewrite size_list_to_set; [done |]. apply NoDup_filter, NoDup_seqZ. Qed.

Lemma bits_set_ok m : map_ok m → bitmap_bits_set m = Ret (Z.of_nat (size (map_set m))).
Proof.
  intros Hm. pose proof (mo_buf _ Hm) as B. pose proof (mo_last _ Hm) as HL. pose proof (mo_bits _ Hm) as HB.
  pose proof (last_index_ok m Hm) as Hli. destruct (no_words_ok m Hm) as (_ & H0 & _). set (l := last_word_ptr m) in *.
  unfold bitmap_bits_set. rewrite (count_words_ok _ _ B) by lia. obind. fold l. rewrite (vget_word _ _ _ B) by lia. obind.
  rewrite my_count_bits_uint32_popcount by (eauto with bits).
  rewrite (popcount_from (bitmap m) _ (32 * l) (n_bits m - 32 * l)).
  - rewrite size_map_set. replace (n_bits m) with (32 * l + (n_bits m - 32 * l)) at 2 by lia. rewrite bits_from_app by lia.
    rewrite Hli. fold l. change (32 * 0) with 0. change (0 + 32 * l) with (32 * l).
    pose proof (bits_from_bound (bitmap m) 0 (32 * l) ltac:(lia)). pose proof (bits_from_bound (bitmap m) (32 * l) (n_bits m - 32 * l) ltac:(lia)).
    unfold u32. rewrite Z.mod_small by lia. done.
  - lia.
  - intros j Hj. rewrite Z.land_spec, testbit_not32, word_bits by lia. rewrite (mo_mask_bits _ Hm), bool_decide_false by (fold l; lia).
    apply andb_true_r.
  - intros j Hj. rewrite Z.land_spec, testbit_not32 by lia. rewrite (mo_mask_bits _ Hm), bool_decide_true by (fold l; lia).
    apply andb_false_r.
Qed.

(** ** Searching *)

Lemma search_ext (p p' : Z → bool) : ∀ (c : nat) i,
  (∀ j, i ≤ j < i + Z.of_nat c → p j = p' j) → search c p i = search c p' i.
Proof.
  induction c as [| c IH]; intros i Hp; [done |]. cbn [search]. rewrite Hp by lia. destruct (p' i); [done |].
  apply IH. intros j Hj. apply Hp. lia.
Qed.

Lemma search_range p : ∀ (c : nat) i r, search c p i = Ret r → i ≤ r < i + Z.of_nat c.
Proof.
  induction c as [| c IH]; intros i r; cbn [search]; [done |]. destruct (p i); [intros [= ->]; lia |].
  intros Hr%IH. lia.
Qed.

Lemma land_bit b k : 0 ≤ k → Z.land b (Z.shiftl 1 k) = if Z.testbit b k then 2 ^ k else 0.
Proof.
  intros Hk. apply Z.bits_inj'. intros i Hi. rewrite Z.land_spec, Z.shiftl_spec by lia. destruct (decide (i = k)) as [-> | Hne].
  - rewrite Z.sub_diag. change (Z.testbit 1 0) with true. rewrite andb_true_r. destruct (Z.testbit b k); [by rewrite Z.pow2_bits_true | by rewrite Z.bits_0].
  - assert (Z.testbit 1 (i - k) = false) as ->.
    { destruct (decide (i < k)); [apply Z.testbit_neg_r; lia | apply (testbit_above 1 1); lia]. }
    rewrite andb_false_r. destruct (Z.testbit b k); [by rewrite Z.pow2_bits_false by lia | by rewrite Z.bits_0].
Qed.

Lemma land_bit_test b k : 0 ≤ k → bool_decide (Z.land b (Z.shiftl 1 k) ≠ 0) = Z.testbit b k.
Proof.
  intros Hk. rewrite land_bit by done. destruct (Z.testbit b k).
  - apply bool_decide_true. pose proof (Z.pow_pos_nonneg 2 k). lia.
  - apply bool_decide_false. tauto.
Qed.

Lemma byte_clear w j : 0 ≤ j → get_byte w j = 0 ↔ ∀ k, 0 ≤ k < 8 → Z.testbit w (8 * j + k) = false.
Proof.
  intros Hj. split.
  - intros Hz k Hk. pose proof (get_byte_bits w j k Hj ltac:(lia)) as Hb. rewrite Hz, Z.bits_0, bool_decide_true in Hb by lia. done.
  - intros Hb. apply Z.bits_inj'. intros k Hk. rewrite get_byte_bits, Z.bits_0 by lia. case_bool_decide; [apply Hb; lia | done].
Qed.

Lemma get_first_set_ok v q :
  in_u32 v → v ≠ 0 →
  ∃ j, get_first_set v q = Ret (32 * q + j) ∧ 0 ≤ j < 32 ∧ Z.testbit v j = true ∧ ∀ k, 0 ≤ k < j → Z.testbit v k = false.
Proof.
  intros Hv Hnz. assert (0 < v) as Hpos by (unfold in_u32 in Hv; lia). set (x := Z.log2 v).
  assert (0 ≤ x < 32) as Hx by (split; [apply Z.log2_nonneg | apply Z.log2_lt_pow2; unfold in_u32 in Hv; lia]).
  assert (Z.testbit v x = true) as Hbx by (apply Z.bit_log2; lia).
  pose proof (Z.div_mod x 8 ltac:(lia)) as Hdiv. pose proof (Z.mod_pos_bound x 8 ltac:(lia)) as Hmod.
  unfold get_first_set.
  destruct (find_spec (λ j, bool_decide (get_byte v j ≠ 0)) 4 0 (x / 8)) as (jb & -> & Hjb & Hnzb & Hbefore); [lia | |].
  { apply bool_decide_true. intros Hz. rewrite byte_clear in Hz by lia. specialize (Hz (x mod 8) ltac:(lia)).
    replace (8 * (x / 8) + x mod 8) with x in Hz by lia. congruence. }
  apply bool_decide_eq_true in Hnzb. obind.
  assert (0 < get_byte v jb < 2 ^ 8) as Hbyte by (pose proof (get_byte_range v jb); lia). set (y := Z.log2 (get_byte v jb)).
  assert (0 ≤ y < 8) as Hy by (split; [apply Z.log2_nonneg | apply Z.log2_lt_pow2; lia]).
  destruct (find_spec (λ k, bool_decide (Z.land (get_byte v jb) (Z.shiftl 1 k) ≠ 0)) 8 0 y) as (kb & -> & Hkb & Hset & Hkbefore); [lia | |].
  { rewrite land_bit_test by lia. apply Z.bit_log2. lia. }
  obind. exists (8 * jb + kb). rewrite land_bit_test, get_byte_bits, bool_decide_true in Hset by lia.
  split_and!; [f_equal; lia | lia | lia | done |]. intros k Hk.
  pose proof (Z.div_mod k 8 ltac:(lia)). pose proof (Z.mod_pos_bound k 8 ltac:(lia)).
  destruct (decide (k < 8 * jb)).
  - specialize (Hbefore (k / 8) ltac:(lia)). apply bool_decide_eq_false, dec_stable in Hbefore. rewrite byte_clear in Hbefore by lia.
    specialize (Hbefore (k mod 8) ltac:(lia)). by replace (8 * (k / 8) + k mod 8) with k in Hbefore by lia.
  - specialize (Hkbefore (k - 8 * jb) ltac:(lia)). rewrite land_bit_test, get_byte_bits, bool_decide_true in Hkbefore by lia.
    cbn [andb] in Hkbefore. by replace (8 * jb + (k - 8 * jb)) with k in Hkbefore by lia.
Qed.

(** The lowest clear bit of a word is the lowest set bit of its complement. *)
Lemma get_first_clear_not v q : in_u32 v → get_first_clear v q = get_first_set (not32 v) q.
Proof.
  intros Hv. assert (∀ j k, 0 ≤ j < 4 → 0 ≤ k < 8 → Z.testbit (get_byte (not32 v) j) k = negb (Z.testbit (get_byte v j) k)) as Hbits.
  { intros j k Hj Hk. rewrite !get_byte_bits, bool_decide_true by lia. cbn [andb]. by apply testbit_not32; lia. }
  unfold get_first_clear, get_first_set.
  rewrite (search_ext (λ j, bool_decide (get_byte v j ≠ 255)) (λ j, bool_decide (get_byte (not32 v) j ≠ 0))).
  - destruct (search 4 _ 0) as [j | |] eqn:Hs; [| done | done]. obind.
    apply search_range in Hs. rewrite (search_ext (λ k, bool_decide (Z.land (get_byte v j) (Z.shiftl 1 k) = 0))
      (λ k, bool_decide (Z.land (get_byte (not32 v) j) (Z.shiftl 1 k) ≠ 0))); [done |].
    intros k Hk. rewrite land_bit_test, Hbits by lia. rewrite land_bit by lia. pose proof (Z.pow_pos_nonneg 2 k).
    destruct (Z.testbit (get_byte v j) k); [apply bool_decide_false; lia | by apply bool_decide_true].
  - intros j Hj. apply bool_decide_ext, not_iff_compat. split; intros Heq.
    + apply Z.bits_inj'. intros k Hk. rewrite Z.bits_0. destruct (decide (k < 8)).
      * rewrite Hbits, Heq by lia. change 255 with (Z.ones 8). by rewrite Z.ones_spec_low by lia.
      * rewrite get_byte_bits, bool_decide_false by lia. done.
    + change 255 with (Z.ones 8). apply Z.bits_inj'. intros k Hk. destruct (decide (k < 8)).
      * rewrite Z.ones_spec_low by lia. pose proof (Hbits j k ltac:(lia) ltac:(lia)) as Hb. rewrite Heq, Z.bits_0 in Hb.
        by destruct (Z.testbit (get_byte v j) k).
      * rewrite get_byte_bits, bool_decide_false, Z.ones_spec_high by lia. done.
Qed.

(** [r] is the least member of [X], or [MY_BIT_NONE] when [X] is empty. *)
Definition least_of (X : Z → Prop) (r : Z) : Prop :=
  (r = MY_BIT_NONE ∧ ∀ i, ¬ X i) ∨ (X r ∧ ∀ i, X i → r ≤ i).

(** The search for the first word that differs from [skip], and in it for the first bit: with
    [skip = 0] for a set bit, with all bits set for a clear one. *)
Section first.
Context (m : MY_BITMAP) (Hm : map_ok m) (value : bool) (first : Z → Z → outcome Z) (skip : Z) (last_empty : Z → bool).
Context (Hskip : ∀ w, in_u32 w → w = skip ↔ ∀ j, 0 ≤ j < 32 → Z.testbit w j = negb value).
Context (Hlast : ∀ w, in_u32 w → last_empty w = true ↔
  ∀ j, 0 ≤ j < 32 → Z.testbit (last_word_mask m) j = false → Z.testbit w j = negb value).
Context (Hfirst : ∀ w q, in_u32 w → w ≠ skip →
  ∃ j, first w q = Ret (32 * q + j) ∧ 0 ≤ j < 32 ∧ Z.testbit w j = value ∧ ∀ k, 0 ≤ k < j → Z.testbit w k = negb value).

Definition first_from (q : Z) : outcome Z :=
  i ← scan_words (Z.to_nat (last_word_ptr m - q)) (λ w, bool_decide (w ≠ skip)) q (bitmap m);
  w ← vget (bitmap m) i;
  if bool_decide (i < last_word_ptr m) then first w i
  else if last_empty w then Ret MY_BIT_NONE else first w i.

Lemma first_in_word q w (lo : Z) :
  in_u32 w → 0 ≤ q ≤ last_word_ptr m → (q = last_word_ptr m → last_empty w = false) → w ≠ skip →
  (∀ j, 0 ≤ j < 32 → Z.testbit w j = value ↔ (lo ≤ 32 * q + j ∧ bit_of (bitmap m) (32 * q + j) = value)) →
  (∀ i, lo ≤ i < 32 * q → 0 ≤ i → bit_of (bitmap m) i = negb value) →
  ∃ r, first w q = Ret r ∧ least_of (λ i, lo ≤ i ∧ 0 ≤ i < n_bits m ∧ bit_of (bitmap m) i = value) r.
Proof.
  intros Hw Hq Hl Hne Hbits Hbefore. pose proof (mo_last _ Hm) as HL.
  destruct (Hfirst w q Hw Hne) as (j & -> & Hj & Hbj & Hmin). exists (32 * q + j). split; [done |]. right.
  assert (32 * q + j < n_bits m) as Hlt.
  { destruct (decide (q = last_word_ptr m)) as [Hql | Hql]; [| lia]. specialize (Hl Hql).
    destruct (decide (32 * q + j < n_bits m)); [done |]. exfalso. apply (eq_true_false_abs (last_empty w)); [| done].
    apply Hlast; [done |]. intros k Hk Hmk. rewrite (mo_mask_bits _ Hm) in Hmk by done. apply bool_decide_eq_false in Hmk.
    apply Hmin. lia. }
  apply Hbits in Hbj as [Hlo Hb]; [| done]. split; [split_and!; (done || lia) |]. intros i (Hi1 & Hi2 & Hb').
  destruct (decide (i < 32 * q + j)); [| lia]. exfalso. destruct (decide (i < 32 * q)).
  - rewrite Hbefore in Hb' by lia. by destruct value.
  - specialize (Hmin (i - 32 * q) ltac:(lia)). assert (Z.testbit w (i - 32 * q) = value) as Hx; [| rewrite Hx in Hmin; by destruct value].
    apply Hbits; [lia |]. replace (32 * q + (i - 32 * q)) with i by lia. done.
Qed.

Lemma first_from_ok q (lo : Z) :
  0 ≤ q ≤ last_word_ptr m → lo ≤ 32 * q → (∀ i, lo ≤ i < 32 * q → 0 ≤ i → bit_of (bitmap m) i = negb value) →
  ∃ r, first_from q = Ret r ∧ least_of (λ i, lo ≤ i ∧ 0 ≤ i < n_bits m ∧ bit_of (bitmap m) i = value) r.
Proof.
  intros Hq Hlo Hbefore. pose proof (mo_buf _ Hm) as B. pose proof (mo_last _ Hm) as HL. unfold first_from.
  destruct (scan_words_spec _ _ (λ w, bool_decide (w ≠ skip)) B (Z.to_nat (last_word_ptr m - q)) q) as (i & -> & Hi & Hskipped & Hat);
    [lia | lia |]. obind. rewrite (vget_word _ _ _ B) by lia. obind.
  assert (∀ k, lo ≤ k < 32 * i → 0 ≤ k → bit_of (bitmap m) k = negb value) as Hclear.
  { intros k Hk Hk0. destruct (decide (k < 32 * q)); [by apply Hbefore; lia |].
    pose proof (Z.div_mod k 32 ltac:(lia)). pose proof (Z.mod_pos_bound k 32 ltac:(lia)).
    specialize (Hskipped (k / 32) ltac:(lia)). apply bool_decide_eq_false, dec_stable in Hskipped.
    unfold bit_of. apply Hskip; [eauto with bits | done | lia]. }
  assert (∀ j, 0 ≤ j < 32 → Z.testbit (word (bitmap m) i) j = value ↔ lo ≤ 32 * i + j ∧ bit_of (bitmap m) (32 * i + j) = value) as Hbits.
  { intros j Hj. rewrite word_bits by done. split; [intros Hb; split; [lia | done] | by intros [_ ?]]. }
  destruct (decide (i < last_word_ptr m)) as [Hlt | Hlt];
    [rewrite (bool_decide_true (i < _)) by done | rewrite (bool_decide_false (i < _)) by done].
  - apply (first_in_word i _ lo); [eauto with bits | lia | lia | | done | done]. specialize (Hat ltac:(lia)). by apply bool_decide_eq_true in Hat.
  - assert (i = last_word_ptr m) as -> by lia. destruct (last_empty (word (bitmap m) (last_word_ptr m))) eqn:Hle.
    + eexists. split; [done |]. left. split; [done |]. intros k (Hk1 & Hk2 & Hb).
      destruct (decide (k < 32 * last_word_ptr m)); [rewrite Hclear in Hb by lia; by destruct value |].
      rewrite Hlast in Hle by eauto with bits. specialize (Hle (k - 32 * last_word_ptr m) ltac:(lia)).
      rewrite (mo_mask_bits _ Hm), word_bits in Hle by lia.
      replace (32 * last_word_ptr m + (k - 32 * last_word_ptr m)) with k in Hle by lia.
      rewrite Hle in Hb by (apply bool_decide_false; lia). by destruct value.
    + apply (first_in_word (last_word_ptr m) _ lo); [eauto with bits | lia | done | | done | done].
      intros Heq. rewrite Heq in Hle. assert (last_empty skip = true); [| congruence].
      assert (in_u32 skip) as Hs by (rewrite <- Heq; eauto with bits).
      apply Hlast; [done |]. intros j Hj _. by apply Hskip.
Qed.

End first.

Lemma get_first_set_map m : map_ok m → ∃ r, bitmap_get_first_set m = Ret r ∧ least_of (.∈ map_set m) r.
Proof.
  intros Hm. destruct (no_words_ok m Hm) as (_ & H0 & _).
  destruct (first_from_ok m Hm true get_first_set 0 (λ w, bool_decide (Z.land w (not32 (last_word_mask m)) = 0))) with (q := 0) (lo := 0) as (r & Hr & Hleast).
  - intros w Hw. by apply word_zero.
  - intros w Hw. rewrite bool_decide_eq_true. apply masked_zero; [done | apply Hm].
  - intros w q Hw Hne. by apply get_first_set_ok.
  - lia.
  - lia.
  - lia.
  - exists r. split.
    + rewrite <- Hr. unfold bitmap_get_first_set, first_from, last_index. rewrite Z.sub_0_r.
      destruct (scan_words _ _ _ _) as [i | |]; [| done | done]. obind. destruct (vget _ _); [| done | done]. obind. by repeat case_bool_decide.
    + destruct Hleast as [[-> Hno] | [Hin Hmin]]; [left | right].
      * split; [done |]. intros i [Hi Hb]%elem_of_map_set. apply (Hno i). split_and!; (done || lia).
      * destruct Hin as (_ & Hi & Hb). split; [by apply elem_of_map_set |]. intros i [Hi' Hb']%elem_of_map_set. apply Hmin. split_and!; (done || lia).
Qed.

Lemma clear_bytes_bits : ∀ (n : nat) i w, in_u32 w → 0 ≤ i → i + Z.of_nat n ≤ 4 →
  in_u32 (clear_bytes n i w) ∧
  ∀ j, 0 ≤ j → Z.testbit (clear_bytes n i w) j = if bool_decide (8 * i ≤ j < 8 * (i + Z.of_nat n)) then false else Z.testbit w j.
Proof.
  induction n as [| n IH]; intros i w Hw Hi Hn; cbn [clear_bytes].
  { split; [done |]. intros j Hj. by rewrite bool_decide_false by lia. }
  destruct (IH (i + 1) (set_byte w i 0)) as [Hu Hb]; [apply in_u32_set_byte; (done || lia) | lia | lia |]. split; [done |].
  intros j Hj. rewrite Hb, set_byte_bits by lia. destruct (decide (8 * i ≤ j < 8 * i + 8)).
  - rewrite (bool_decide_true (8 * i ≤ j < 8 * i + 8)), (bool_decide_true (8 * i ≤ j < 8 * (i + _))) by lia.
    rewrite Z.bits_0. by case_bool_decide.
  - rewrite (bool_decide_false (8 * i ≤ j < 8 * i + 8)) by lia. destruct (decide (8 * (i + 1) ≤ j < 8 * (i + 1 + Z.of_nat n))).
    + by rewrite !bool_decide_true by lia.
    + by rewrite !bool_decide_false by lia.
Qed.

Lemma mask_previous_bits w bit :
  in_u32 w → 0 ≤ bit →
  in_u32 (mask_previous w bit) ∧
  ∀ j, 0 ≤ j < 32 → Z.testbit (mask_previous w bit) j = bool_decide (bit mod 32 ≤ j) && Z.testbit w j.
Proof.
  intros Hw Hbit. unfold mask_previous. set (r := bit mod 32). assert (0 ≤ r < 32) as Hr by (apply Z.mod_pos_bound; lia).
  pose proof (Z.div_mod r 8 ltac:(lia)) as Hd. pose proof (Z.mod_pos_bound r 8 ltac:(lia)) as Hm.
  set (k := r / 8) in *. destruct (clear_bytes_bits (Z.to_nat k) 0 w) as [Hu Hb]; [done | lia | lia |].
  set (w1 := clear_bytes (Z.to_nat k) 0 w) in *.
  assert (Z.land bit 7 = r mod 8) as Hland.
  { change 7 with (Z.ones 3). rewrite Z.land_ones by lia. change (2 ^ 3) with 8. unfold r.
    rewrite (Z.div_mod bit 32) at 1 by lia. replace (32 * (bit / 32)) with (bit / 32 * 4 * 8) by lia.
    by rewrite Z.add_comm, Z_mod_plus_full. }
  set (b := Z.land (get_byte w1 k) (Z.land (Z.shiftl 255 (Z.land bit 7)) 255)).
  assert (0 ≤ b < 256) as Hbyte by (apply (land_bound _ _ 8), (land_bound _ 255 8); lia).
  split; [apply in_u32_set_byte; (done || lia) |]. intros j Hj. rewrite set_byte_bits by lia.
  destruct (decide (8 * k ≤ j < 8 * k + 8)) as [Hk | Hk].
  - rewrite (bool_decide_true (8 * k ≤ j < _)) by done. unfold b. rewrite !Z.land_spec, get_byte_bits, Z.shiftl_spec by lia.
    rewrite bool_decide_true by lia. cbn [andb]. replace (8 * k + (j - 8 * k)) with j by lia. rewrite Hb, bool_decide_false by lia.
    change 255 with (Z.ones 8). rewrite (Z.ones_spec_low 8 (j - 8 * k)) by lia. rewrite andb_true_r, Hland.
    destruct (decide (r ≤ j)).
    + rewrite Z.ones_spec_low, bool_decide_true by lia. by rewrite andb_true_r.
    + rewrite (Z.testbit_neg_r (Z.ones 8)), bool_decide_false by lia. by rewrite andb_false_r.
  - rewrite (bool_decide_false (8 * k ≤ j < _)) by done. rewrite Hb by lia. destruct (decide (j < 8 * k)).
    + rewrite bool_decide_true, bool_decide_false by lia. done.
    + rewrite bool_decide_false, bool_decide_true by lia. done.
Qed.

Lemma least_of_proper X Y r : (∀ i, X i ↔ Y i) → least_of X r → least_of Y r.
Proof. intros HXY [[-> Hno] | [Hin Hmin]]; [left | right]; setoid_rewrite <- HXY; done. Qed.

Lemma get_next_set_map m b :
  map_ok m → 0 ≤ b < 2 ^ 32 - 1 → ∃ r, bitmap_get_next_set m b = Ret r ∧ least_of (λ i, b < i ∧ i ∈ map_set m) r.
Proof.
  intros Hm Hb. pose proof (mo_buf _ Hm) as B. pose proof (mo_last _ Hm) as HL. destruct (no_words_ok m Hm) as (_ & H0 & _).
  unfold bitmap_get_next_set. assert (u32 (b + 1) = b + 1) as -> by (apply Z.mod_small; lia). case_bool_decide as Hn.
  { eexists. split; [done |]. left. split; [done |]. intros i [Hi [Hi' _]%elem_of_map_set]. lia. }
  pose proof (Z.div_mod (b + 1) 32 ltac:(lia)) as Hd. pose proof (Z.mod_pos_bound (b + 1) 32 ltac:(lia)) as Hr.
  set (q := (b + 1) / 32) in *. assert (0 ≤ q ≤ last_word_ptr m) as Hq by lia.
  rewrite (vget_word _ _ _ B) by lia. obind.
  destruct (mask_previous_bits (word (bitmap m) q) (b + 1)) as [Hu Hbits]; [eauto with bits | lia |].
  set (w := mask_previous (word (bitmap m) q) (b + 1)) in *.
  assert (∀ j, 0 ≤ j < 32 → Z.testbit w j = true ↔ b + 1 ≤ 32 * q + j ∧ bit_of (bitmap m) (32 * q + j) = true) as Hbits'.
  { intros j Hj. rewrite Hbits, word_bits, andb_true_iff, bool_decide_eq_true by done. intuition lia. }
  assert (∃ r, (if bool_decide (q = last_word_ptr m) then
      if bool_decide (Z.land w (not32 (last_word_mask m)) ≠ 0) then get_first_set w q else Ret MY_BIT_NONE
    else if bool_decide (w ≠ 0) then get_first_set w q
    else first_from m get_first_set 0 (λ w, bool_decide (Z.land w (not32 (last_word_mask m)) = 0)) (q + 1)) = Ret r ∧
    least_of (λ i, b + 1 ≤ i ∧ 0 ≤ i < n_bits m ∧ bit_of (bitmap m) i = true) r) as (r & Hr' & Hleast).
  2: { exists r. split; [| eapply least_of_proper; [| done]; intros i; rewrite elem_of_map_set; intuition lia].
       rewrite <- Hr'. case_bool_decide; [done |]. case_bool_decide; [done |]. unfold first_from.
       destruct (scan_words _ _ _ _) as [i | |]; [| done | done]. obind. destruct (vget _ _); [| done | done]. obind. by repeat case_bool_decide. }
  assert (∀ w, in_u32 w → bool_decide (Z.land w (not32 (last_word_mask m)) = 0) = true ↔
    ∀ j, 0 ≤ j < 32 → Z.testbit (last_word_mask m) j = false → Z.testbit w j = negb true) as Hlast.
  { intros v Hv. rewrite bool_decide_eq_true. apply masked_zero; [done | apply Hm]. }
  assert (∀ w q, in_u32 w → w ≠ 0 → ∃ j, get_first_set w q = Ret (32 * q + j) ∧ 0 ≤ j < 32 ∧ Z.testbit w j = true ∧
    ∀ k, 0 ≤ k < j → Z.testbit w k = negb true) as Hfirst by (intros; by apply get_first_set_ok).
  assert (∀ v, in_u32 v → v = 0 ↔ ∀ j, 0 ≤ j < 32 → Z.testbit v j = negb true) as Hskip by (intros v Hv; by apply word_zero).
  case_bool_decide as Hql; [| case_bool_decide as Hw].
  - case_bool_decide as Hw.
    + eapply first_in_word; [done | exact Hskip | exact Hlast | exact Hfirst | done | done | | | done | lia].
      * intros _. by apply bool_decide_false.
      * intros ->. by rewrite Z.land_0_l in Hw.
    + eexists. split; [done |]. left. split; [done |]. intros i (Hi & Hin & Hbi).
      rewrite masked_zero in Hw by (done || apply Hm). specialize (Hw (i - 32 * q) ltac:(lia)).
      rewrite (mo_mask_bits _ Hm) in Hw by lia. rewrite <- Hql in Hw. specialize (Hw ltac:(apply bool_decide_false; lia)).
      assert (Z.testbit w (i - 32 * q) = true); [| congruence]. apply Hbits'; [lia |]. by replace (32 * q + (i - 32 * q)) with i by lia.
  - eapply first_in_word; [done | exact Hskip | exact Hlast | exact Hfirst | done | done | lia | done | done | lia].
  - eapply first_from_ok; [done | exact Hskip | exact Hlast | exact Hfirst | lia | lia |].
    intros i Hi Hi0. destruct (bit_of (bitmap m) i) eqn:Hbi; [| done]. exfalso.
    assert (Z.testbit w (i - 32 * q) = true) as Hx; [| rewrite Hw, Z.bits_0 in Hx; done].
    apply Hbits'; [lia |]. replace (32 * q + (i - 32 * q)) with i by lia. split; [lia | done].
Qed.

(** ** Single bits *)

Lemma bit_index bit : 0 ≤ bit → bit = 8 * (bit / 8) + Z.land bit 7 ∧ 0 ≤ Z.land bit 7 < 8.
Proof.
  intros Hb. change 7 with (Z.ones 3). rewrite Z.land_ones by lia. change (2 ^ 3) with 8.
  pose proof (Z.div_mod bit 8). pose proof (Z.mod_pos_bound bit 8). lia.
Qed.

(** [f] changes the bit that is set in its second argument by [h]. *)
Definition changes_bit (f : Z → Z → Z) (h : bool → bool) : Prop :=
  ∀ v k, 0 ≤ v < 256 → 0 ≤ k < 8 → 0 ≤ f v (Z.shiftl 1 k) < 256 ∧
    ∀ j, 0 ≤ j < 8 → Z.testbit (f v (Z.shiftl 1 k)) j = if bool_decide (j = k) then h (Z.testbit v j) else Z.testbit v j.

Lemma changes_bit_check f h :
  forallb (λ v, forallb (λ k, (0 <=? f v (Z.shiftl 1 k)) && (f v (Z.shiftl 1 k) <? 256) &&
    forallb (λ j, eqb (Z.testbit (f v (Z.shiftl 1 k)) j) (if Z.eqb j k then h (Z.testbit v j) else Z.testbit v j)) (seqZ 0 8))
    (seqZ 0 8)) (seqZ 0 256) = true → changes_bit f h.
Proof.
  intros Hall v k Hv Hk. rewrite forallb_forall in Hall. specialize (Hall v). rewrite <- list_elem_of_In, elem_of_seqZ in Hall.
  specialize (Hall ltac:(lia)). rewrite forallb_forall in Hall. specialize (Hall k). rewrite <- list_elem_of_In, elem_of_seqZ in Hall.
  specialize (Hall ltac:(lia)). rewrite !andb_true_iff, Z.leb_le, Z.ltb_lt, forallb_forall in Hall. destruct Hall as [Hr Hbits].
  split; [lia |]. intros j Hj. specialize (Hbits j). rewrite <- list_elem_of_In, elem_of_seqZ in Hbits.
  rewrite (eqb_prop _ _ (Hbits ltac:(lia))). destruct (Z.eqb_spec j k); [by rewrite bool_decide_true | by rewrite bool_decide_false].
Qed.

Lemma set_changes : changes_bit set_op (λ _, true).
Proof. apply changes_bit_check. vm_compute. reflexivity. Qed.
Lemma clear_changes : changes_bit clear_op (λ _, false).
Proof. apply changes_bit_check. vm_compute. reflexivity. Qed.
Lemma flip_changes : changes_bit flip_op negb.
Proof. apply changes_bit_check. vm_compute. reflexivity. Qed.

Lemma update_byte_ok f h m bit :
  changes_bit f h → map_ok m → 0 ≤ bit < n_bits m →
  ∃ v m', update_byte f m bit = Ret (v, m') ∧ map_ok m' ∧ n_bits m' = n_bits m ∧
    bool_decide (v ≠ 0) = bit_of (bitmap m) bit ∧
    ∀ i, 0 ≤ i → bit_of (bitmap m') i = if bool_decide (i = bit) then h (bit_of (bitmap m) i) else bit_of (bitmap m) i.
Proof.
  intros Hf Hm Hbit. pose proof (mo_buf _ Hm) as B. pose proof (mo_last _ Hm) as HL.
  destruct (bit_index bit ltac:(lia)) as [Hsplit Hr]. set (k := bit / 8) in *. set (r := Z.land bit 7) in *.
  assert (0 ≤ k < 4 * (last_word_ptr m + 1)) as Hk by lia.
  destruct (load_byte_bits _ _ k B Hk) as (v & Hload & Hv & Hvb). unfold update_byte. fold k r. rewrite Hload. obind.
  destruct (Hf v r Hv Hr) as [Hfr Hfb].
  destruct (store_byte_bits _ _ k (f v (Z.shiftl 1 r)) B Hk Hfr) as (ws & -> & Hws & Hb). obind.
  eexists _, _. split; [done |]. split_and!; [by apply map_ok_with | done | |].
  - rewrite land_bit_test by lia. rewrite Hvb by lia. f_equal. lia.
  - intros i Hi. cbn [bitmap with_bitmap]. rewrite Hb by done. destruct (decide (8 * k ≤ i < 8 * k + 8)) as [Hin | Hin].
    + rewrite (bool_decide_true (8 * k ≤ i < _)) by done. rewrite Hfb, Hvb by lia. replace (8 * k + (i - 8 * k)) with i by lia.
      destruct (decide (i = bit)); [by rewrite !bool_decide_true by lia | by rewrite !bool_decide_false by lia].
    + rewrite !bool_decide_false by lia. done.
Qed.

(** An equivalence between memberships, by cases on the bit that changes. *)
Ltac by_bit Hb bit :=
  match goal with |- context [bit_of _ ?i] =>
    destruct (decide (0 ≤ i)); [specialize (Hb i ltac:(lia)) | intuition lia];
    destruct (decide (i = bit)) as [-> |];
    [rewrite bool_decide_true in Hb by done | rewrite bool_decide_false in Hb by done]; rewrite Hb;
    try (match goal with E : bit_of _ bit = _ |- _ => rewrite E end; cbn [negb]);
    intuition (lia || congruence)
  end.

(** The functions on single bits are insertion into, removal from and membership in the
    set: [bitmap_test_and_set] and [bitmap_test_and_clear] return a value that is not 0 when
    the bit was set before, and change that bit only. *)
Theorem bitmap_single_bits m bit :
  map_ok m → 0 ≤ bit < n_bits m →
  (∃ v m', bitmap_test_and_set m bit = Ret (v, m') ∧ map_ok m' ∧ (v ≠ 0 ↔ bit ∈ map_set m) ∧ map_set m' = {[bit]} ∪ map_set m) ∧
  (∃ v m', bitmap_test_and_clear m bit = Ret (v, m') ∧ map_ok m' ∧ (v ≠ 0 ↔ bit ∈ map_set m) ∧ map_set m' = map_set m ∖ {[bit]}) ∧
  (∃ v, bitmap_is_set m bit = Ret v ∧ (v ≠ 0 ↔ bit ∈ map_set m)) ∧
  (∃ m', bitmap_flip_bit m bit = Ret m' ∧ map_ok m' ∧
    map_set m' = if bool_decide (bit ∈ map_set m) then map_set m ∖ {[bit]} else {[bit]} ∪ map_set m).
Proof.
  intros Hm Hbit.
  assert (∀ v, bool_decide (v ≠ 0) = bit_of (bitmap m) bit → v ≠ 0 ↔ bit ∈ map_set m) as Hret.
  { intros v Hv. rewrite elem_of_map_set, <- Hv, bool_decide_eq_true. tauto. }
  split_and!.
  - destruct (update_byte_ok _ _ m bit set_changes Hm Hbit) as (v & m' & He & Hok & Hn & Hv & Hb). exists v, m'.
    split_and!; [done | done | by apply Hret |]. apply set_eq. intros i. rewrite elem_of_union, elem_of_singleton, !elem_of_map_set, Hn.
    by_bit Hb bit.
  - destruct (update_byte_ok _ _ m bit clear_changes Hm Hbit) as (v & m' & He & Hok & Hn & Hv & Hb). exists v, m'.
    split_and!; [done | done | by apply Hret |]. apply set_eq. intros i. rewrite elem_of_difference, elem_of_singleton, !elem_of_map_set, Hn.
    by_bit Hb bit.
  - destruct (update_byte_ok _ _ m bit set_changes Hm Hbit) as (v & m' & He & _ & _ & Hv & _). exists v. split; [| by apply Hret].
    unfold update_byte in He. unfold bitmap_is_set. apply bind_Ret_inv in He as (b & -> & He). obind.
    apply bind_Ret_inv in He as (ws & _ & [= <- _]). done.
  - destruct (update_byte_ok _ _ m bit flip_changes Hm Hbit) as (v & m' & He & Hok & Hn & Hv & Hb). exists m'.
    unfold bitmap_flip_bit. rewrite He. split_and!; [done | done |]. apply set_eq. intros i.
    assert (bool_decide (bit ∈ map_set m) = bit_of (bitmap m) bit) as ->.
    { symmetry. apply bool_decide_iff. rewrite elem_of_map_set. tauto. }
    destruct (bit_of (bitmap m) bit) eqn:Hbit1;
      rewrite ?elem_of_difference, ?elem_of_union, elem_of_singleton, !elem_of_map_set, Hn; by_bit Hb bit.
Qed.

Lemma bitmap_single_bits_witness :
  map_set map_a = {[4; 5; 6; 7; 32]} ∧ ∃ v m', bitmap_test_and_clear map_a 32 = Ret (v, m') ∧ v ≠ 0 ∧ map_set m' = {[4; 5; 6; 7]}.
Proof.
  split; [vm_compute; reflexivity |].
  destruct (bitmap_single_bits map_a 32) as (_ & (v & m' & He & _ & Hv & Hs) & _); [by apply map_check_ok | cbn; lia |].
  exists v, m'. split; [exact He |]. split; [apply Hv; vm_compute; reflexivity |]. rewrite Hs. vm_compute. reflexivity.
Defined.

(** ** Free bits *)

Lemma get_first_map m :
  map_ok m → ∃ r m', bitmap_get_first m = Ret (r, m') ∧ map_ok m' ∧ n_bits m' = n_bits m ∧ map_set m' = map_set m ∧
    least_of (λ i, 0 ≤ i < n_bits m ∧ i ∉ map_set m) r.
Proof.
  intros Hm. pose proof (mo_buf _ Hm) as B. pose proof (mo_last _ Hm) as HL. destruct (no_words_ok m Hm) as (_ & H0 & _).
  pose proof (mo_mask _ Hm) as Hmask. unfold bitmap_get_first. rewrite (vget_word _ _ _ B) by lia. obind.
  destruct (vset_word _ _ (last_word_ptr m) (Z.lor (word (bitmap m) (last_word_ptr m)) (last_word_mask m)) B) as (ws & -> & Hws & _ & Hb);
    [lia | eauto with bits |]. obind.
  set (m' := with_bitmap ws m). assert (map_ok m') as Hm' by (by apply map_ok_with).
  assert (∀ i, 0 ≤ i < n_bits m → bit_of ws i = bit_of (bitmap m) i) as Hsame.
  { intros i Hi. rewrite Hb by lia. case_bool_decide as Hin; [| done]. rewrite Z.lor_spec, word_bits, (mo_mask_bits _ Hm) by lia.
    rewrite bool_decide_false, orb_false_r by lia. f_equal. lia. }
  assert (map_set m' = map_set m) as Hset.
  { apply set_eq. intros i. rewrite !elem_of_map_set. cbn. split; intros [Hi Hbi]; split; try done; [by rewrite <- Hsame | by rewrite Hsame]. }
  destruct (first_from_ok m' Hm' false get_first_clear 0xFFFFFFFF (λ w, bool_decide (Z.lor w (last_word_mask m) = 0xFFFFFFFF)))
    with (q := 0) (lo := 0) as (r & Hr & Hleast).
  - intros w Hw. by apply word_full.
  - intros w Hw. rewrite bool_decide_eq_true. by apply masked_full.
  - intros w q Hw Hne. rewrite get_first_clear_not by done. destruct (get_first_set_ok (not32 w) q) as (j & Hj & Hj32 & Hset1 & Hmin).
    { apply in_u32_not32. }
    { intros Hz. apply Hne, word_full; [done |]. intros i Hi. rewrite word_zero in Hz by apply in_u32_not32. specialize (Hz i Hi).
      rewrite testbit_not32 in Hz by done. by destruct (Z.testbit w i). }
    exists j. split_and!; [done | lia | lia | |].
    + rewrite testbit_not32 in Hset1 by done. by destruct (Z.testbit w j).
    + intros k Hk. specialize (Hmin k Hk). rewrite testbit_not32 in Hmin by lia. by destruct (Z.testbit w k).
  - cbn. lia.
  - lia.
  - lia.
  - exists r, m'. split_and!; [| done | done | done |].
    + unfold first_from in Hr. rewrite Z.sub_0_r in Hr. cbn [bitmap last_word_ptr m' with_bitmap last_word_mask] in *.
      unfold last_index. cbn [last_word_ptr with_bitmap].
      destruct (scan_words _ _ _ _) as [i | |]; [| done | done]. cbn [mbind outcome_bind] in *. destruct (vget _ _); [| done | done]. cbn [mbind outcome_bind] in *.
      repeat case_bool_decide; rewrite ?Hr; obind; [done | by injection Hr as -> | done].
    + eapply least_of_proper; [| exact Hleast]. intros i. rewrite elem_of_map_set. cbn.
      split; [intros (_ & Hi & Hbi) | intros [Hi Hbi]]; (split_and!; [lia.. |]).
      * intros [_ Hbi']. rewrite Hsame in Hbi by done. congruence.
      * rewrite Hsame by done. destruct (bit_of (bitmap m) i); [| done]. exfalso. apply Hbi. done.
Qed.

Lemma n_bits_none m r : map_ok m → 0 ≤ r < n_bits m → r ≠ MY_BIT_NONE.
Proof. intros Hm Hr. pose proof (mo_bits _ Hm). unfold MY_BIT_NONE. lia. Qed.

(** The searches return the least bit: [bitmap_get_first_set] the least member of the
    set, [bitmap_get_next_set] the least one above a given bit, [bitmap_get_first] the least bit
    that is free, and [MY_BIT_NONE] only when there is none; [bitmap_bits_set] returns the size of
    the set, and [bitmap_set_next] adds the least free bit. *)
Theorem bitmap_searches m :
  map_ok m →
  bitmap_bits_set m = Ret (Z.of_nat (size (map_set m))) ∧
  (∃ r, bitmap_get_first_set m = Ret r ∧ least_of (.∈ map_set m) r) ∧
  (∀ b, 0 ≤ b < 2 ^ 32 - 1 → ∃ r, bitmap_get_next_set m b = Ret r ∧ least_of (λ i, b < i ∧ i ∈ map_set m) r) ∧
  (∃ r m', bitmap_set_next m = Ret (r, m') ∧ map_ok m' ∧ least_of (λ i, 0 ≤ i < n_bits m ∧ i ∉ map_set m) r ∧
    map_set m' = if bool_decide (r = MY_BIT_NONE) then map_set m else {[r]} ∪ map_set m).
Proof.
  intros Hm. split_and!; [by apply bits_set_ok | by apply get_first_set_map | intros; by apply get_next_set_map |].
  destruct (get_first_map m Hm) as (r & m1 & He & Hm1 & Hn & Hset & Hleast). unfold bitmap_set_next. rewrite He. obind.
  destruct Hleast as [[-> Hno] | [[Hr Hfree] Hmin]].
  - rewrite bool_decide_false by tauto. exists MY_BIT_NONE, m1. split_and!; [done | done | by left | done].
  - pose proof (n_bits_none m r Hm Hr) as Hne. rewrite (bool_decide_true (r ≠ _)) by done.
    destruct (update_byte_ok _ _ m1 r set_changes Hm1) as (v & m2 & Hu & Hm2 & Hn2 & _ & Hb); [by rewrite Hn |].
    unfold bitmap_set_bit. rewrite Hu. obind. exists r, m2. split_and!; [done | done | by right |].
    rewrite (bool_decide_false (r = _)) by done. rewrite <- Hset. apply set_eq. intros i.
    rewrite elem_of_union, elem_of_singleton, !elem_of_map_set, Hn2. rewrite Hn in *. by_bit Hb r.
Qed.

Lemma bitmap_searches_witness :
  map_set map_b = {[2; 4; 5; 6; 7; 32; 33]} ∧ (∃ r, bitmap_get_next_set map_b 7 = Ret r ∧ least_of (λ i, 7 < i ∧ i ∈ map_set map_b) r).
Proof.
  split; [vm_compute; reflexivity |]. destruct (bitmap_searches map_b) as (_ & _ & Hnext & _); [by apply map_check_ok |].
  apply Hnext. lia.
Defined.
