(* ===== verification/BitmapPrefix.v ===== *)
(** * Bitmaps: prefixes and intersections of several maps

    [bitmap_set_prefix], [bitmap_is_prefix], [bitmap_set_above] and
    [bitmap_exists_intersection]. *)

From S2P Require Import Prelude Bits Bitmap BitmapSpec BitmapQuery.

Definition byte_at (ws : list Z) (k : Z) : Z := get_byte (word ws (k / 4)) (k mod 4).

Lemma load_byte_at n ws k : buffer n ws → 0 ≤ k < 4 * n → load_byte ws k = Ret (byte_at ws k).
Proof. intros Hws Hk. destruct (byte_index k). unfold load_byte. by rewrite (vget_word n) by (done || lia). Qed.

Lemma byte_at_bits n ws k j :
  buffer n ws → 0 ≤ k < 4 * n → 0 ≤ j → Z.testbit (byte_at ws k) j = bool_decide (j < 8) && bit_of ws (8 * k + j).
Proof.
  intros Hws Hk Hj. destruct (byte_index k) as [Hk4 Hr]. unfold byte_at. rewrite get_byte_bits by lia.
  destruct (decide (j < 8)); [| by rewrite bool_decide_false by lia]. rewrite word_bits by lia. do 2 f_equal. lia.
Qed.

(** Bytes are equal when their eight bits are. *)
Lemma byte_ext a b : 0 ≤ a < 256 → 0 ≤ b < 256 → a = b ↔ ∀ j, 0 ≤ j < 8 → Z.testbit a j = Z.testbit b j.
Proof.
  intros Ha Hb. split; [by intros -> |]. intros Hab. apply Z.bits_inj'. intros j Hj. destruct (decide (j < 8)); [apply Hab; lia |].
  by rewrite !(testbit_above _ 8) by lia.
Qed.

Lemma byte_at_eq n ws k b :
  buffer n ws → 0 ≤ k < 4 * n → 0 ≤ b < 256 → byte_at ws k = b ↔ ∀ j, 0 ≤ j < 8 → bit_of ws (8 * k + j) = Z.testbit b j.
Proof.
  intros Hws Hk Hb. rewrite byte_ext by (done || apply get_byte_range).
  apply forall_proper; intros j. apply impl_proper_l; intros Hj. rewrite (byte_at_bits n), bool_decide_true by (done || lia). done.
Qed.

Lemma scan_bytes_spec n ws test : buffer n ws → ∀ (c : nat) k,
  0 ≤ k → k + Z.of_nat c ≤ 4 * n →
  ∃ r, scan_bytes c test k ws = Ret r ∧ k ≤ r ≤ k + Z.of_nat c ∧
    (∀ p, k ≤ p < r → test (byte_at ws p) = false) ∧ (r < k + Z.of_nat c → test (byte_at ws r) = true).
Proof.
  intros Hws. induction c as [| c IH]; intros k Hk Hn; cbn [scan_bytes].
  { exists k. split_and!; [done | lia | lia | lia | lia]. }
  rewrite (load_byte_at n) by (done || lia). obind. destruct (test (byte_at ws k)) eqn:Ht.
  { exists k. split_and!; [done | lia | lia | lia | done]. }
  destruct (IH (k + 1)) as (r & -> & Hr & Hbefore & Hat); [lia | lia |].
  exists r. split_and!; [done | lia | lia | | intros; apply Hat; lia].
  intros p Hp. destruct (decide (p = k)) as [-> |]; [done | apply Hbefore; lia].
Qed.

(** The mask of the significant bits of the byte that holds the last of [n] bits. *)
Lemma last_byte_mask_bits n : 0 < n < 2 ^ 32 →
  0 ≤ last_byte_mask n < 256 ∧ ∀ j, 0 ≤ j < 8 → Z.testbit (last_byte_mask n) j = bool_decide (8 * ((n - 1) / 8) + j < n).
Proof.
  intros Hn. unfold last_byte_mask. assert (u32 (n - 1) = n - 1) as -> by (apply Z.mod_small; lia).
  destruct (bit_index (n - 1) ltac:(lia)) as [Hsplit Hr]. set (r := Z.land (n - 1) 7) in *.
  assert (u32 (Z.shiftl 2 r) - 1 = Z.ones (r + 1)) as ->.
  { rewrite Z.shiftl_mul_pow2, Z.ones_equiv by lia. rewrite <- Z.pow_succ_r by lia.
    assert (2 ^ Z.succ r ≤ 2 ^ 8) by (apply Z.pow_le_mono_r; lia). assert (0 < 2 ^ Z.succ r) by (apply Z.pow_pos_nonneg; lia).
    unfold u32. rewrite Z.mod_small by lia. f_equal. }
  split.
  - rewrite Z.ones_equiv. assert (2 ^ (r + 1) ≤ 2 ^ 8) by (apply Z.pow_le_mono_r; lia). assert (0 < 2 ^ (r + 1)) by (apply Z.pow_pos_nonneg; lia). lia.
  - intros j Hj. destruct (decide (j < r + 1)).
    + rewrite Z.ones_spec_low, bool_decide_true by lia. done.
    + rewrite Z.ones_spec_high, bool_decide_false by lia. done.
Qed.

(** ** Prefixes *)

Definition prefix_bits (m : MY_BITMAP) (k : Z) : Prop := ∀ i, 0 ≤ i < n_bits m → bit_of (bitmap m) i = bool_decide (i < k).

Lemma prefix_bits_set m k : 0 ≤ k ≤ n_bits m → prefix_bits m k ↔ map_set m = list_to_set (seqZ 0 k).
Proof.
  intros Hk. split.
  - intros Hb. apply set_eq. intros i. rewrite elem_of_map_set, elem_of_list_to_set, elem_of_seqZ. split.
    + intros [Hi Hbi]. rewrite Hb in Hbi by done. apply bool_decide_eq_true in Hbi. lia.
    + intros Hi. rewrite Hb by lia. split; [lia | apply bool_decide_true; lia].
  - intros Hset i Hi. apply bool_decide_iff. assert (i ∈ map_set m ↔ i ∈ (list_to_set (seqZ 0 k) : gset Z)) as Hiff by (by rewrite Hset).
    rewrite elem_of_map_set, elem_of_list_to_set, elem_of_seqZ in Hiff. intuition lia.
Qed.

Lemma bits_in_bytes m : map_ok m → 0 ≤ (n_bits m - 1) / 8 < 4 * (last_word_ptr m + 1) ∧
  8 * ((n_bits m - 1) / 8) < n_bits m ≤ 8 * ((n_bits m - 1) / 8) + 8.
Proof.
  intros Hm. pose proof (mo_bits _ Hm). pose proof (mo_last _ Hm).
  pose proof (Z.div_mod (n_bits m - 1) 8). pose proof (Z.mod_pos_bound (n_bits m - 1) 8). lia.
Qed.

Lemma set_prefix_ok m k :
  map_ok m → 0 ≤ k → ∃ m', bitmap_set_prefix m k = Ret m' ∧ map_ok m' ∧ n_bits m' = n_bits m ∧ prefix_bits m' (Z.min k (n_bits m)).
Proof.
  intros Hm Hk. pose proof (mo_buf _ Hm) as B. destruct (bits_in_bytes m Hm) as [Hbytes HB]. destruct (no_words_ok m Hm) as (_ & _ & Hnb).
  pose proof (mo_bits _ Hm) as HN. unfold bitmap_set_prefix. set (p := Z.min k (n_bits m)). assert (0 ≤ p ≤ n_bits m) as Hp by (unfold p; lia).
  destruct (bit_index p ltac:(lia)) as [Hsplit Hr]. set (pb := p / 8) in *. set (r := Z.land p 7) in *. rewrite Hnb.
  set (e := (n_bits m - 1) / 8) in *.
  destruct (memset_bits _ 255 ltac:(lia) (Z.to_nat pb) 0 _ B) as (ws1 & -> & B1 & Hb1); [lia | lia |]. obind.
  assert (∃ ws2 q, (if bool_decide (r = 0) then Ret (ws1, pb) else ws ← store_byte ws1 pb (Z.shiftl 1 r - 1); Ret (ws, pb + 1)) = Ret (ws2, q) ∧
    buffer (last_word_ptr m + 1) ws2 ∧ 0 ≤ q ≤ e + 1 ∧ p ≤ 8 * q ∧ ∀ i, 0 ≤ i < 8 * q → bit_of ws2 i = bool_decide (i < p)) as (ws2 & q & -> & B2 & Hq & Hpq & Hb2).
  { assert (∀ i, 0 ≤ i < 8 * pb → bit_of ws1 i = true) as Hfull.
    { intros i Hi. rewrite Hb1, bool_decide_true by lia. change 255 with (Z.ones 8). apply Z.ones_spec_low. apply Z.mod_pos_bound. lia. }
    destruct (decide (r = 0)).
    - rewrite bool_decide_true by done. exists ws1, pb. split_and!; [done | done | lia | lia | lia |].
      intros i Hi. rewrite Hfull, bool_decide_true by lia. done.
    - rewrite bool_decide_false by done. assert (0 ≤ Z.shiftl 1 r - 1 < 256).
      { rewrite Z.shiftl_mul_pow2 by lia. assert (2 ^ r ≤ 2 ^ 8) by (apply Z.pow_le_mono_r; lia). pose proof (Z.pow_pos_nonneg 2 r). lia. }
      destruct (store_byte_bits _ ws1 pb (Z.shiftl 1 r - 1) B1) as (ws2 & -> & B2 & Hb2); [lia | done |]. obind.
      exists ws2, (pb + 1). split_and!; [done | done | lia | lia | lia |]. intros i Hi. rewrite Hb2 by lia. destruct (decide (8 * pb ≤ i)).
      + rewrite bool_decide_true by lia. replace (Z.shiftl 1 r - 1) with (Z.ones r) by (rewrite Z.ones_equiv, Z.shiftl_mul_pow2; lia).
        destruct (decide (i < p)); [rewrite Z.ones_spec_low, bool_decide_true by lia | rewrite Z.ones_spec_high, bool_decide_false by lia]; done.
      + rewrite bool_decide_false, Hfull, bool_decide_true by lia. done. }
  obind. assert (u32 (e + 1 - q) = e + 1 - q) as -> by (apply Z.mod_small; lia).
  destruct (memset_bits _ 0 ltac:(lia) (Z.to_nat (e + 1 - q)) q _ B2) as (ws3 & -> & B3 & Hb3); [lia | lia |]. obind.
  eexists. split; [done |]. split_and!; [by apply map_ok_with | done |]. intros i Hi. cbn in *. rewrite Hb3 by lia.
  destruct (decide (8 * q ≤ i)).
  - rewrite bool_decide_true, Z.bits_0, bool_decide_false by lia. done.
  - rewrite bool_decide_false, Hb2 by lia. done.
Qed.

Lemma full_byte ws n q : buffer n ws → 0 ≤ q < 4 * n → byte_at ws q = 0xFF ↔ ∀ j, 0 ≤ j < 8 → bit_of ws (8 * q + j) = true.
Proof.
  intros Hws Hq. rewrite (byte_at_eq n) by (done || lia). apply forall_proper; intros j. apply impl_proper_l; intros Hj.
  change 0xFF with (Z.ones 8). by rewrite Z.ones_spec_low by lia.
Qed.

Lemma zero_byte ws n q : buffer n ws → 0 ≤ q < 4 * n → byte_at ws q = 0 ↔ ∀ j, 0 ≤ j < 8 → bit_of ws (8 * q + j) = false.
Proof.
  intros Hws Hq. rewrite (byte_at_eq n) by (done || lia). apply forall_proper; intros j. apply impl_proper_l; intros Hj.
  by rewrite Z.bits_0.
Qed.

(** The significant bits of the last byte of the map. *)
Lemma last_byte_eq m b :
  map_ok m → 0 ≤ b < 256 → let e := (n_bits m - 1) / 8 in
  (∀ j, 0 ≤ j < 8 → n_bits m ≤ 8 * e + j → Z.testbit b j = false) →
  Z.land (byte_at (bitmap m) e) (last_byte_mask (n_bits m)) = b ↔
  ∀ j, 0 ≤ j < 8 → 8 * e + j < n_bits m → bit_of (bitmap m) (8 * e + j) = Z.testbit b j.
Proof.
  intros Hm Hb e Hhigh. pose proof (mo_buf _ Hm) as B. destruct (bits_in_bytes m Hm) as [He HB]. fold e in He, HB.
  pose proof (mo_bits _ Hm). destruct (last_byte_mask_bits (n_bits m) ltac:(lia)) as [Hlb Hlbits]. fold e in Hlbits.
  rewrite byte_ext; [| apply (land_bound _ _ 8); lia | done].
  assert (∀ j, 0 ≤ j < 8 → Z.testbit (Z.land (byte_at (bitmap m) e) (last_byte_mask (n_bits m))) j =
    bit_of (bitmap m) (8 * e + j) && bool_decide (8 * e + j < n_bits m)) as Hbits.
  { intros j Hj. rewrite Z.land_spec, (byte_at_bits _ _ _ _ B), Hlbits, bool_decide_true by lia. done. }
  split; intros Hall j Hj.
  - intros Hlt. rewrite <- Hall, Hbits, bool_decide_true by done. by rewrite andb_true_r.
  - rewrite Hbits by done. destruct (decide (8 * e + j < n_bits m)).
    + rewrite bool_decide_true by done. rewrite andb_true_r. by apply Hall.
    + rewrite bool_decide_false by done. rewrite andb_false_r. symmetry. apply Hhigh; lia.
Qed.

(** A byte in the middle of the map against the mask of the prefix. *)
Lemma prefix_byte_eq m k q :
  map_ok m → 0 < k ≤ n_bits m → q = (k - 1) / 8 → q < (n_bits m - 1) / 8 →
  byte_at (bitmap m) q = last_byte_mask k ↔ ∀ j, 0 ≤ j < 8 → bit_of (bitmap m) (8 * q + j) = bool_decide (8 * q + j < k).
Proof.
  intros Hm Hk -> Hq. pose proof (mo_bits _ Hm). destruct (bits_in_bytes m Hm) as [He _].
  pose proof (Z.div_pos (k - 1) 8). destruct (last_byte_mask_bits k ltac:(lia)) as [Hlb Hlbits].
  rewrite (byte_at_eq _ _ _ _ (mo_buf _ Hm)) by lia. apply forall_proper; intros j. apply impl_proper_l; intros Hj. by rewrite Hlbits.
Qed.

Lemma byte_pos i : 0 ≤ i → i = 8 * (i / 8) + i mod 8 ∧ 0 ≤ i mod 8 < 8 ∧ 0 ≤ i / 8.
Proof. intros Hi. pose proof (Z.div_mod i 8). pose proof (Z.mod_pos_bound i 8). pose proof (Z.div_pos i 8). lia. Qed.

Lemma is_prefix_ok m k :
  map_ok m → 0 < k ≤ n_bits m → bitmap_is_prefix m k = Ret (bool_decide (map_set m = list_to_set (seqZ 0 k))).
Proof.
  intros Hm Hk. pose proof (mo_buf _ Hm) as B. destruct (bits_in_bytes m Hm) as [He HB]. destruct (no_words_ok m Hm) as (_ & _ & Hnb).
  pose proof (mo_bits _ Hm) as HN. destruct (last_byte_mask_bits k ltac:(lia)) as [Hlb Hlbits].
  enough (∃ b, bitmap_is_prefix m k = Ret b ∧ (b = true ↔ prefix_bits m k)) as (b & -> & Hb).
  { f_equal. apply bool_decide_iff. rewrite Hb. apply prefix_bits_set. lia. }
  unfold bitmap_is_prefix. rewrite bool_decide_false, Hnb by lia. replace ((n_bits m - 1) / 8 + 1 - 1) with ((n_bits m - 1) / 8) by lia.
  destruct (byte_pos (k - 1) ltac:(lia)) as (Hkp & Hkr & Hkd). pose proof (Z.div_le_mono (k - 1) (n_bits m - 1) 8 ltac:(lia) ltac:(lia)) as Hle.
  set (e := (n_bits m - 1) / 8) in *. set (ep := (k - 1) / 8) in *.
  destruct (scan_bytes_spec _ _ (λ b, bool_decide (b ≠ 255)) B (Z.to_nat ep) 0) as (r & -> & Hr & Hbefore & Hat); [lia | lia |]. obind.
  destruct (decide (r < ep)) as [Hlt | Hge].
  { rewrite (bool_decide_true (r < ep)) by done. exists false. split; [done |]. split; [done |]. intros Hp. exfalso.
    specialize (Hat ltac:(lia)). apply bool_decide_eq_true in Hat. apply Hat. apply (full_byte _ _ _ B); [lia |].
    intros j Hj. rewrite Hp, bool_decide_true by lia. done. }
  rewrite (bool_decide_false (r < ep)) by lia. assert (r = ep) as -> by lia. rewrite (load_byte_at _ _ ep B) by lia. obind.
  assert (∀ i, 0 ≤ i < 8 * ep → bit_of (bitmap m) i = true) as Hfull.
  { intros i Hi. destruct (byte_pos i ltac:(lia)) as (Hip & Hir & Hid). rewrite Hip. apply (proj1 (full_byte _ _ (i / 8) B ltac:(lia))); [| done].
    specialize (Hbefore (i / 8) ltac:(lia)). by apply bool_decide_eq_false, dec_stable in Hbefore. }
  destruct (decide (ep = e)) as [Hee | Hee].
  { rewrite (bool_decide_true (ep = e)) by done. eexists. split; [done |]. rewrite bool_decide_eq_true, Hee.
    pose proof (last_byte_eq m _ Hm Hlb) as Hlast. cbn zeta in Hlast. fold e in Hlast. rewrite Hlast; cycle 1.
    { intros j Hj Hj'. rewrite Hlbits by done. apply bool_decide_false. fold ep. lia. }
    clear Hlast. split.
    - intros Hlast i Hi. destruct (decide (i < 8 * e)); [rewrite Hfull, bool_decide_true by lia; done |].
      specialize (Hlast (i - 8 * e) ltac:(lia) ltac:(lia)). rewrite Hlbits in Hlast by lia. fold ep in Hlast. rewrite Hee in Hlast.
      by replace (8 * e + (i - 8 * e)) with i in Hlast by lia.
    - intros Hp j Hj Hlt. rewrite Hlbits, Hp by lia. fold ep. by rewrite Hee. }
  rewrite (bool_decide_false (ep = e)) by done. destruct (decide (byte_at (bitmap m) ep = last_byte_mask k)) as [Hbk | Hbk]; cycle 1.
  { rewrite (bool_decide_true (_ ≠ last_byte_mask k)) by done. exists false. split; [done |]. split; [done |]. intros Hp. exfalso. apply Hbk.
    apply (prefix_byte_eq m k ep Hm Hk eq_refl); [fold e; lia |]. intros j Hj. apply Hp. lia. }
  rewrite (bool_decide_false (_ ≠ last_byte_mask k)) by tauto. rewrite (prefix_byte_eq m k ep Hm Hk eq_refl) in Hbk by (fold e; lia).
  destruct (scan_bytes_spec _ _ (λ b, bool_decide (b ≠ 0)) B (Z.to_nat (e - (ep + 1))) (ep + 1)) as (r & -> & Hr' & Hbefore' & Hat'); [lia | lia |]. obind.
  destruct (decide (r < e)) as [Hlt | Hge'].
  { rewrite (bool_decide_true (r < e)) by done. exists false. split; [done |]. split; [done |]. intros Hp. exfalso.
    specialize (Hat' ltac:(lia)). apply bool_decide_eq_true in Hat'. apply Hat'. apply (zero_byte _ _ _ B); [lia |].
    intros j Hj. rewrite Hp, bool_decide_false by lia. done. }
  rewrite (bool_decide_false (r < e)) by lia. rewrite (load_byte_at _ _ e B) by lia. obind. eexists. split; [done |]. rewrite bool_decide_eq_true.
  pose proof (last_byte_eq m 0 Hm ltac:(lia)) as Hlast. cbn zeta in Hlast. fold e in Hlast.
  rewrite Hlast by (intros; apply Z.bits_0). clear Hlast. split.
  - intros Hlast i Hi. destruct (byte_pos i ltac:(lia)) as (Hip & Hir & Hid). destruct (decide (i < 8 * ep)); [rewrite Hfull, bool_decide_true by lia; done |].
    destruct (decide (i / 8 = ep)) as [Hx |]; [rewrite Hip, Hx; apply Hbk; lia |]. rewrite (bool_decide_false (i < k)) by lia.
    destruct (decide (i / 8 = e)) as [Hx |].
    + rewrite Hip, Hx, Hlast by lia. apply Z.bits_0.
    + rewrite Hip. apply (proj1 (zero_byte _ _ (i / 8) B ltac:(lia))); [| done]. specialize (Hbefore' (i / 8) ltac:(lia)).
      by apply bool_decide_eq_false, dec_stable in Hbefore'.
  - intros Hp j Hj Hlt. rewrite Hp, bool_decide_false, Z.bits_0 by lia. done.
Qed.

(** [bitmap_is_prefix] recognises exactly the maps that [bitmap_set_prefix] makes: after
    [bitmap_set_prefix] the map holds the bits below the prefix size and no others, and for a prefix
    of at least one bit [bitmap_is_prefix] returns whether the map is that set. *)
Theorem bitmap_prefix_roundtrip m k :
  map_ok m → 0 < k ≤ n_bits m →
  (∃ m', bitmap_set_prefix m k = Ret m' ∧ map_ok m' ∧ map_set m' = list_to_set (seqZ 0 k) ∧ bitmap_is_prefix m' k = Ret true) ∧
  bitmap_is_prefix m k = Ret (bool_decide (map_set m = list_to_set (seqZ 0 k))).
Proof.
  intros Hm Hk. split; [| by apply is_prefix_ok]. destruct (set_prefix_ok m k Hm ltac:(lia)) as (m' & He & Hm' & Hn & Hp).
  rewrite Z.min_l, prefix_bits_set in Hp by lia. exists m'. split_and!; [done | done | done |].
  rewrite is_prefix_ok by (done || lia). by rewrite bool_decide_true.
Qed.

Lemma bitmap_prefix_roundtrip_witness :
  bitmap_is_prefix map_a 13 = Ret false ∧ ∃ m', bitmap_set_prefix map_a 13 = Ret m' ∧ bitmap_is_prefix m' 13 = Ret true.
Proof.
  destruct (bitmap_prefix_roundtrip map_a 13) as [(m' & He & _ & _ & Hp) Hf]; [by apply map_check_ok | cbn; lia |].
  rewrite Hf. split; [f_equal; vm_compute; reflexivity | eauto].
Defined.

(** [bitmap_set_above] sets or clears the bits from a byte on. *)
Lemma set_above_ok m from_byte use_bit :
  map_ok m → 0 ≤ from_byte →
  ∃ m', bitmap_set_above m from_byte use_bit = Ret m' ∧ map_ok m' ∧ n_bits m' = n_bits m ∧
    ∀ i, 0 ≤ i < n_bits m → bit_of (bitmap m') i = if bool_decide (8 * from_byte ≤ i) then bool_decide (use_bit ≠ 0) else bit_of (bitmap m) i.
Proof.
  intros Hm Hf. destruct (bits_in_bytes m Hm) as [He HB]. destruct (no_words_ok m Hm) as (_ & _ & Hnb).
  unfold bitmap_set_above. change (u32 (n_bits m + 7) / 8) with (no_bytes_in_map m). rewrite Hnb. set (e := (n_bits m - 1) / 8) in *.
  set (b := if bool_decide (use_bit = 0) then 0 else 255).
  assert (0 ≤ b < 256) as Hb by (unfold b; case_bool_decide; lia).
  assert (∀ j, 0 ≤ j < 8 → Z.testbit b j = bool_decide (use_bit ≠ 0)) as Hbits.
  { intros j Hj. unfold b. destruct (decide (use_bit = 0)).
    - rewrite bool_decide_true, bool_decide_false by tauto. apply Z.bits_0.
    - rewrite bool_decide_false, bool_decide_true by done. change 255 with (Z.ones 8). apply Z.ones_spec_low. lia. }
  destruct (decide (from_byte ≤ e + 1)).
  - destruct (memset_bits _ b Hb (Z.to_nat (e + 1 - from_byte)) from_byte _ (mo_buf _ Hm)) as (ws & -> & Hws & Hbw); [lia | lia |].
    eexists. split; [done |]. split_and!; [by apply map_ok_with | done |]. intros i Hi. cbn. rewrite Hbw by lia.
    destruct (decide (8 * from_byte ≤ i)); [| by rewrite !bool_decide_false by lia].
    rewrite !(bool_decide_true (8 * from_byte ≤ i)), bool_decide_true by lia. apply Hbits. apply Z.mod_pos_bound. lia.
  - replace (Z.to_nat (e + 1 - from_byte)) with 0%nat by lia. eexists. split; [done |]. split_and!; [by destruct m | done |].
    intros i Hi. cbn. by rewrite bool_decide_false by lia.
Qed.

(** ** Several maps *)

Lemma intersect_word_ok (i : Z) : ∀ maps c,
  (∀ m, m ∈ maps → map_ok m ∧ 0 ≤ i ≤ last_word_ptr m) → in_u32 c →
  ∃ r, intersect_word maps i c = Ret r ∧ in_u32 r ∧
    ∀ j, 0 ≤ j < 32 → Z.testbit r j = true ↔ Z.testbit c j = true ∧ ∀ m, m ∈ maps → bit_of (bitmap m) (32 * i + j) = true.
Proof.
  induction maps as [| m maps IH]; intros c Hmaps Hc; cbn [intersect_word].
  { exists c. split_and!; [done | done |]. intros j Hj. set_solver. }
  destruct (Hmaps m ltac:(by left)) as [Hm Hi]. pose proof (mo_buf _ Hm) as B. case_bool_decide as Hz.
  - exists c. split_and!; [done | done |]. intros j Hj. subst c. rewrite Z.bits_0. naive_solver.
  - rewrite (vget_word _ _ _ B) by lia. obind.
    destruct (IH (Z.land c (word (bitmap m) i))) as (r & -> & Hr & Hbits); [intros; apply Hmaps; by right | eauto with bits |].
    exists r. split_and!; [done | done |]. intros j Hj. rewrite Hbits, Z.land_spec, andb_true_iff, word_bits by done.
    setoid_rewrite elem_of_cons. naive_solver.
Qed.

Lemma intersect_loop_ok (maps : list MY_BITMAP) : ∀ (c : nat) q,
  (∀ m, m ∈ maps → map_ok m ∧ q + Z.of_nat c ≤ last_word_ptr m) → 0 ≤ q →
  ∃ b, intersect_loop c maps q = Ret b ∧
    (b = true ↔ ∃ i, 32 * q ≤ i < 32 * (q + Z.of_nat c) ∧ ∀ m, m ∈ maps → bit_of (bitmap m) i = true).
Proof.
  induction c as [| c IH]; intros q Hmaps Hq; cbn [intersect_loop].
  { exists false. split; [done |]. split; [done |]. intros (i & Hi & _). lia. }
  destruct (intersect_word_ok q maps 0xFFFFFFFF) as (r & -> & Hr & Hbits); [| unfold in_u32; lia |].
  { intros m Hin. destruct (Hmaps m Hin). split; [done | lia]. }
  obind. destruct (decide (r = 0)) as [Hz | Hz].
  - rewrite bool_decide_false by tauto. destruct (IH (q + 1)) as (b & -> & Hb); [| lia |].
    { intros m Hin. destruct (Hmaps m Hin). split; [done | lia]. }
    exists b. split; [done |]. rewrite Hb. split; intros (i & Hi & Hall); exists i; (split; [| done]); [lia |].
    destruct (decide (i < 32 * (q + 1))); [| lia]. exfalso. rewrite word_zero in Hz by done. specialize (Hz (i - 32 * q) ltac:(lia)).
    assert (Z.testbit r (i - 32 * q) = true); [| congruence]. apply Hbits; [lia |].
    replace (32 * q + (i - 32 * q)) with i by lia. split; [apply full_bits; lia | done].
  - rewrite bool_decide_true by done. exists true. split; [done |]. split; [intros _ | done].
    assert (0 < r) by (unfold in_u32 in Hr; lia). assert (0 ≤ Z.log2 r < 32) as Hl.
    { split; [apply Z.log2_nonneg | apply Z.log2_lt_pow2; unfold in_u32 in Hr; lia]. }
    exists (32 * q + Z.log2 r). split; [lia |]. apply (Hbits (Z.log2 r) Hl). apply Z.bit_log2. lia.
Qed.

(** [bitmap_exists_intersection] returns whether some bit of the range is set in all maps,
    provided that one of the maps has no bits outside of the range, as its comment requires. *)
Theorem exists_intersection_exact maps start_bit end_bit m0 :
  (∀ m, m ∈ maps → map_ok m ∧ end_bit < n_bits m) → 0 ≤ start_bit ≤ end_bit →
  m0 ∈ maps → (∀ i, 0 ≤ i → bit_of (bitmap m0) i = true → start_bit ≤ i ≤ end_bit) →
  ∃ b, bitmap_exists_intersection maps start_bit end_bit = Ret b ∧
    (b = true ↔ ∃ i, start_bit ≤ i ≤ end_bit ∧ ∀ m, m ∈ maps → i ∈ map_set m).
Proof.
  intros Hmaps Hse Hm0 Houtside. unfold bitmap_exists_intersection. rewrite !Z.div_div by lia. change (8 * 4) with 32.
  pose proof (Z.div_mod start_bit 32 ltac:(lia)) as Hs. pose proof (Z.mod_pos_bound start_bit 32 ltac:(lia)) as Hsr.
  pose proof (Z.div_mod end_bit 32 ltac:(lia)) as He. pose proof (Z.mod_pos_bound end_bit 32 ltac:(lia)) as Her.
  set (s := start_bit / 32) in *. set (e := end_bit / 32) in *. assert (0 ≤ s ≤ e) as Hse' by (split; [apply Z.div_pos | apply Z.div_le_mono]; lia).
  assert (∀ i, (∃ i', i' = i ∧ start_bit ≤ i ≤ end_bit ∧ ∀ m, m ∈ maps → i ∈ map_set m) ↔ 0 ≤ i ∧ ∀ m, m ∈ maps → bit_of (bitmap m) i = true) as Hequiv.
  { intros i. split.
    - intros (i' & -> & Hi & Hall). split; [lia |]. intros m Hin. by apply Hall, elem_of_map_set in Hin as [_ ?].
    - intros [Hi Hall]. exists i. pose proof (Houtside i Hi (Hall m0 Hm0)). split_and!; [done | lia | lia |]. intros m Hin.
      destruct (Hmaps m Hin). apply elem_of_map_set. split; [lia | by apply Hall]. }
  assert (∀ m, m ∈ maps → map_ok m ∧ e ≤ last_word_ptr m) as Hlast.
  { intros m Hin. destruct (Hmaps m Hin) as [Hm Hlt]. split; [done |]. pose proof (mo_last _ Hm). lia. }
  destruct (intersect_loop_ok maps (Z.to_nat (e - s)) s) as (b & -> & Hb); [| lia |].
  { intros m Hin. destruct (Hlast m Hin). split; [done | lia]. }
  obind. destruct b.
  { exists true. split; [done |]. split; [intros _ | done]. destruct (proj1 Hb eq_refl) as (i & Hi & Hall).
    destruct (proj2 (Hequiv i)) as (i' & -> & ?); [split; [lia | done] |]. by exists i. }
  assert (in_u32 (last_word_mask_of end_bit) ∧ ∀ j, 0 ≤ j < 32 → Z.testbit (last_word_mask_of end_bit) j = bool_decide (end_bit + 1 ≤ 32 * e + j)) as [Hmu Hmask].
  { destruct (Hmaps m0 Hm0) as [Hm Hlt]. pose proof (mo_bits _ Hm). unfold last_word_mask_of.
    assert (u32 (end_bit + 1) = end_bit + 1) as -> by (apply Z.mod_small; lia). apply mask_of_bits; lia. }
  destruct (intersect_word_ok e maps (not32 (last_word_mask_of end_bit))) as (r & -> & Hr & Hbits);
    [intros m Hin; destruct (Hlast m Hin); split; [done | lia] | apply in_u32_not32 |].
  obind. eexists. split; [done |]. rewrite bool_decide_eq_true. split.
  - intros Hnz. assert (0 < r) by (unfold in_u32 in Hr; lia). assert (0 ≤ Z.log2 r < 32) as Hl.
    { split; [apply Z.log2_nonneg | apply Z.log2_lt_pow2; unfold in_u32 in Hr; lia]. }
    destruct (proj1 (Hbits (Z.log2 r) Hl)) as [_ Hall]; [apply Z.bit_log2; lia |].
    destruct (proj2 (Hequiv (32 * e + Z.log2 r))) as (i' & _ & ?); [split; [lia | done] |]. by eexists.
  - intros (i & Hi & Hall) Hz. destruct (proj1 (Hequiv i)) as [Hi0 Hbi]; [by exists i |].
    destruct (decide (i < 32 * e)) as [Hlt | Hge].
    { assert (false = true) by (apply Hb; exists i; split; [lia | done]). done. }
    rewrite word_zero in Hz by done. specialize (Hz (i - 32 * e) ltac:(lia)).
    assert (Z.testbit r (i - 32 * e) = true); [| congruence]. apply Hbits; [lia |].
    replace (32 * e + (i - 32 * e)) with i by lia. split; [| done]. rewrite testbit_not32, Hmask by lia.
    by rewrite bool_decide_false by lia.
Qed.
