(* ===== verification/RecLock.v ===== *)
(** * The latch-free record lock list of project 4
    (src/project4/mariadb/server/storage/innobase: lock/lock0lock.cc, trx/trx0trx.cc,
    trx/trx0sys.cc, include/lock0priv.h, ha/hash0hash.cc)

    The changes of project 4 to InnoDB: record locks are appended to the list of
    their hash cell with an atomic exchange of the tail and are always
    granted; a commit marks the locks of the transaction as deleted, unlinks marked
    locks on the way with compare-and-swap, and hands them to a list of
    garbage from which one committing transaction at a time frees those
    that are older than every active transaction.  No mutex protects the list.

    This file has the machine, one shared access per step, for one hash cell.
    Granting of waiting locks at the end of a release is left out: locks are
    created without the wait flag, so it finds nothing to grant. *)

From S2P Require Import Prelude.

(** ** Data *)

Definition LOCK_TYPE_MASK : Z := 240.
Definition LOCK_REC : Z := 32.

(** [lock_t]: the fields the list uses. *)
Record lock_t := mkLock {
  trx : nat;
  type_mode : Z;
  hash : option nat;
  timestamp : Z;
  state : bool;
  gc_hash : option nat
}.

(** [hash_cell_t]: the two ends of a list.  Its member [node], the chain of the tables
    that are protected by latches, is not used for the latch-free lists. *)
Record hash_cell_t := mkCell { c_head : option nat; c_tail : option nat }.

(** [trx_t]: [active] stands for the states ACTIVE and COMMITTED_IN_MEMORY. *)
Record trx_t := mkTrx { t_timestamp : Z; active : bool; trx_locks : list nat }.

(** Where a thread goes on after it has put a lock on the list of garbage. *)
Inductive after_gc := ToHead | ToWalk (cur : nat).

(** The points of a transaction.  [In*]: [project4_lock_add] and
    [project4_lock_rec_insert_to_tail]; [Release]: the loop of [lock_release]; [D*]:
    [project4_lock_rec_dequeue_from_page] of the lock [i]; [G*]: the hand-over to the
    list of garbage; [X*]: the physical deletion in [lock_trx_release_locks].
    [Aborted]: an assertion has failed. *)
Inductive rpc :=
| Idle
| InTas (l : nat)
| InLink (l : nat) (old : option nat)
| InTrx (l : nat)
| Release
| DHead (i : nat) (check : bool)
| DDead (i cur : nat)
| DRead1 (i cur : nat)
| DCas1 (i cur : nat) (next : option nat)
| GTas (i : nat) (k : after_gc) (n : nat)
| GStamp (i : nat) (k : after_gc) (n : nat) (old : option nat)
| GLink (i : nat) (k : after_gc) (n : nat) (old : option nat)
| DWalk (i cur : nat)
| DLive (i cur next : nat)
| DNext (i cur next : nat)
| DSpin (i cur next : nat)
| DRead2 (i cur next : nat)
| DCas2 (i cur next : nat) (nn : option nat)
| DMark (i : nat)
| DTrx (i : nat)
| XTas
| XRead
| XLoop (min_timestamp : Z) (old_tail prev cur : option nat)
| XRelease
| Aborted.

#[global] Instance after_gc_eq_dec : EqDecision after_gc.
Proof. solve_decision. Defined.
#[global] Instance rpc_eq_dec : EqDecision rpc.
Proof. solve_decision. Defined.

Record rsys := mkRsys {
  locks : gmap nat lock_t;
  cell : hash_cell_t;
  gclist : hash_cell_t;
  gclist_state : bool;
  n_rec_locks : Z;
  sys_timestamp : Z;
  trxs : list trx_t;
  rpcs : list rpc
}.

(** [hash_create] and the initialisations of [lock_sys] and [trx_sys]. *)
Definition rec_start (n : nat) : rsys :=
  mkRsys ∅ (mkCell None None) (mkCell None None) false 0 1 (replicate n (mkTrx 0 false [])) (replicate n Idle).

(** [project4_lock_alloc] *)
Definition project4_lock_alloc (t : nat) (tr : trx_t) (mode : Z) : lock_t :=
  mkLock t (Z.lor LOCK_REC (Z.land mode (Z.lnot LOCK_TYPE_MASK))) None (t_timestamp tr) true None.

(** ** Access to memory *)

Definition set_hash (p : option nat) (x : lock_t) : lock_t :=
  mkLock (trx x) (type_mode x) p (timestamp x) (state x) (gc_hash x).
Definition set_gc_hash (p : option nat) (x : lock_t) : lock_t :=
  mkLock (trx x) (type_mode x) (hash x) (timestamp x) (state x) p.
Definition set_timestamp (s : Z) (x : lock_t) : lock_t :=
  mkLock (trx x) (type_mode x) (hash x) s (state x) (gc_hash x).
Definition set_state (b : bool) (x : lock_t) : lock_t :=
  mkLock (trx x) (type_mode x) (hash x) (timestamp x) b (gc_hash x).

Definition get (σ : rsys) (l : nat) : outcome lock_t := of_option (locks σ !! l).

Definition with_locks (ls : gmap nat lock_t) (σ : rsys) : rsys :=
  mkRsys ls (cell σ) (gclist σ) (gclist_state σ) (n_rec_locks σ) (sys_timestamp σ) (trxs σ) (rpcs σ).
Definition with_cell (c : hash_cell_t) (σ : rsys) : rsys :=
  mkRsys (locks σ) c (gclist σ) (gclist_state σ) (n_rec_locks σ) (sys_timestamp σ) (trxs σ) (rpcs σ).
Definition with_gclist (c : hash_cell_t) (σ : rsys) : rsys :=
  mkRsys (locks σ) (cell σ) c (gclist_state σ) (n_rec_locks σ) (sys_timestamp σ) (trxs σ) (rpcs σ).
Definition with_gclist_state (b : bool) (σ : rsys) : rsys :=
  mkRsys (locks σ) (cell σ) (gclist σ) b (n_rec_locks σ) (sys_timestamp σ) (trxs σ) (rpcs σ).
Definition with_count (n : Z) (σ : rsys) : rsys :=
  mkRsys (locks σ) (cell σ) (gclist σ) (gclist_state σ) n (sys_timestamp σ) (trxs σ) (rpcs σ).
Definition with_sys_timestamp (n : Z) (σ : rsys) : rsys :=
  mkRsys (locks σ) (cell σ) (gclist σ) (gclist_state σ) (n_rec_locks σ) n (trxs σ) (rpcs σ).
Definition with_trx (t : nat) (tr : trx_t) (σ : rsys) : rsys :=
  mkRsys (locks σ) (cell σ) (gclist σ) (gclist_state σ) (n_rec_locks σ) (sys_timestamp σ) (<[t := tr]> (trxs σ)) (rpcs σ).
Definition goto (t : nat) (p : rpc) (σ : rsys) : rsys :=
  mkRsys (locks σ) (cell σ) (gclist σ) (gclist_state σ) (n_rec_locks σ) (sys_timestamp σ) (trxs σ) (<[t := p]> (rpcs σ)).

Definition put (σ : rsys) (l : nat) (f : lock_t → lock_t) : outcome rsys :=
  x ← get σ l; Ret (with_locks (<[l := f x]> (locks σ)) σ).

Definition get_trx (σ : rsys) (t : nat) : outcome trx_t := at_ (trxs σ) t.

(** ** The steps *)

(** What a transaction at rest does next: acquire a lock, in memory at [l] that
    [malloc] finds free, or commit. *)
Inductive action := Acquire (mode : Z) (l : nat) | Commit.

(** The minimum over the active transactions, starting from the largest [ulint]. *)
Definition ulint_max : Z := 2 ^ 64 - 1.

Definition min_active (ts : list trx_t) : Z :=
  foldl (λ m tr, if active tr && bool_decide (t_timestamp tr < m) then t_timestamp tr else m) ulint_max ts.

(** One turn of the loop of the physical deletion. *)
Definition gc_turn (min_timestamp : Z) (prev : option nat) (cur : nat) (σ : rsys) : outcome (option nat * option nat * rsys) :=
  c ← get σ cur;
  if decide (Some cur = c_head (gclist σ)) then
    if bool_decide (timestamp c < min_timestamp) then
      let σ := with_locks (delete cur (locks σ)) (with_gclist (mkCell (gc_hash c) (c_tail (gclist σ))) σ) in
      Ret (prev, gc_hash c, σ)
    else Ret (Some cur, gc_hash c, σ)
  else if bool_decide (timestamp c < min_timestamp) then
    p ← of_option prev;
    σ ← put σ p (set_gc_hash (gc_hash c));
    Ret (Some p, gc_hash c, with_locks (delete cur (locks σ)) σ)
  else Ret (Some cur, gc_hash c, σ).

Definition idle_step (t : nat) (a : action) (σ : rsys) : outcome (option rsys) :=
  tr ← get_trx σ t;
  match a with
  | Acquire mode l =>
      match locks σ !! l with
      | Some _ => Ret None
      | None =>
          let σ := with_locks (<[l := project4_lock_alloc t tr mode]> (locks σ)) σ in
          let σ := with_trx t (mkTrx (t_timestamp tr) true (trx_locks tr)) σ in
          Ret (Some (goto t (InTas l) (with_count (n_rec_locks σ + 1) σ)))
      end
  | Commit =>
      let tr := mkTrx (sys_timestamp σ) (active tr) (trx_locks tr) in
      let σ := with_trx t tr (with_sys_timestamp (sys_timestamp σ + 1) σ) in
      Ret (Some (match trx_locks tr with
                 | [] => with_trx t (mkTrx (t_timestamp tr) false []) σ
                 | _ => goto t Release σ
                 end))
  end.

(** [project4_lock_rec_insert_to_tail] and the list of the transaction. *)
Definition insert_step (t : nat) (p : rpc) (σ : rsys) : outcome (option rsys) :=
  match p with
  | InTas l => Ret (Some (goto t (InLink l (c_tail (cell σ))) (with_cell (mkCell (c_head (cell σ)) (Some l)) σ)))
  | InLink l None => Ret (Some (goto t (InTrx l) (with_cell (mkCell (Some l) (c_tail (cell σ))) σ)))
  | InLink l (Some old) => σ ← put σ old (set_hash (Some l)); Ret (Some (goto t (InTrx l) σ))
  | InTrx l =>
      tr ← get_trx σ t;
      Ret (Some (goto t Idle (with_trx t (mkTrx (t_timestamp tr) (active tr) (trx_locks tr ++ [l])) σ)))
  | _ => Ret None
  end.

(** The hand-over of the lock [n] to the list of garbage. *)
Definition garbage_step (t : nat) (p : rpc) (σ : rsys) : outcome (option rsys) :=
  match p with
  | GTas i k n => Ret (Some (goto t (GStamp i k n (c_tail (gclist σ))) (with_gclist (mkCell (c_head (gclist σ)) (Some n)) σ)))
  | GStamp i k n old => σ ← put σ n (set_timestamp (sys_timestamp σ)); Ret (Some (goto t (GLink i k n old) σ))
  | GLink i k n old =>
      σ ← match old with
          | None => Ret (with_gclist (mkCell (Some n) (c_tail (gclist σ))) σ)
          | Some o => put σ o (set_gc_hash (Some n))
          end;
      Ret (Some (goto t (match k with ToHead => DHead i false | ToWalk cur => DWalk i cur end) σ))
  | _ => Ret None
  end.

(** [project4_lock_rec_dequeue_from_page] *)
Definition dequeue_step (t : nat) (p : rpc) (σ : rsys) : outcome (option rsys) :=
  match p with
  | DHead i check =>
      match c_head (cell σ) with
      | None => if check then Ret (Some (goto t Aborted σ)) else UB
      | Some cur => Ret (Some (goto t (DDead i cur) σ))
      end
  | DDead i cur => c ← get σ cur; Ret (Some (goto t (if state c then DWalk i cur else DRead1 i cur) σ))
  | DRead1 i cur => c ← get σ cur; Ret (Some (goto t (DCas1 i cur (hash c)) σ))
  | DCas1 i cur next =>
      if decide (c_head (cell σ) = Some cur)
      then Ret (Some (goto t (GTas i ToHead cur) (with_cell (mkCell next (c_tail (cell σ))) σ)))
      else Ret (Some (goto t (DHead i false) σ))
  | DWalk i cur =>
      if decide (cur = i) then Ret (Some (goto t (DMark i) σ))
      else
        c ← get σ cur;
        match hash c with
        | None => Ret (Some (goto t Aborted σ))
        | Some next => Ret (Some (goto t (DLive i cur next) σ))
        end
  | DLive i cur next => c ← get σ cur; Ret (Some (goto t (if state c then DNext i cur next else DWalk i next) σ))
  | DNext i cur next => n ← get σ next; Ret (Some (goto t (if state n then DWalk i next else DSpin i cur next) σ))
  | DSpin i cur next =>
      n ← get σ next;
      Ret (Some (if decide (hash n = None ∧ c_tail (cell σ) ≠ Some next) then σ else goto t (DRead2 i cur next) σ))
  | DRead2 i cur next => n ← get σ next; Ret (Some (goto t (DCas2 i cur next (hash n)) σ))
  | DCas2 i cur next nn =>
      c ← get σ cur;
      if decide (hash c = Some next) then
        σ ← put σ cur (set_hash nn); Ret (Some (goto t (GTas i (ToWalk cur) next) σ))
      else Ret (Some (goto t (DWalk i cur) σ))
  | DMark i => σ ← put σ i (set_state false); Ret (Some (goto t (DTrx i) σ))
  | DTrx i =>
      tr ← get_trx σ t;
      Ret (Some (goto t Release (with_trx t (mkTrx (t_timestamp tr) (active tr) (filter (.≠ i) (trx_locks tr))) σ)))
  | _ => Ret None
  end.

(** The loop of [lock_release] and the end of [lock_trx_release_locks]. *)
Definition release_step (t : nat) (p : rpc) (σ : rsys) : outcome (option rsys) :=
  tr ← get_trx σ t;
  match p with
  | Release =>
      match last (trx_locks tr) with
      | Some i => Ret (Some (goto t (DHead i true) (with_count (n_rec_locks σ - 1) σ)))
      | None => Ret (Some (goto t XTas σ))
      end
  | XTas =>
      if gclist_state σ then Ret (Some (goto t Idle (with_trx t (mkTrx (t_timestamp tr) false (trx_locks tr)) σ)))
      else Ret (Some (goto t XRead (with_gclist_state true σ)))
  | XRead => Ret (Some (goto t (XLoop (min_active (trxs σ)) (c_tail (gclist σ)) None (c_head (gclist σ))) σ))
  | XLoop m old_tail prev None => Ret (Some (goto t XRelease σ))
  | XLoop m old_tail prev (Some cur) =>
      if decide (Some cur = old_tail) then Ret (Some (goto t XRelease σ))
      else '(prev, cur, σ) ← gc_turn m prev cur σ; Ret (Some (goto t (XLoop m old_tail prev cur) σ))
  | XRelease =>
      Ret (Some (goto t Idle (with_gclist_state false (with_trx t (mkTrx (t_timestamp tr) false (trx_locks tr)) σ))))
  | _ => Ret None
  end.

Definition rec_step (t : nat) (a : action) (σ : rsys) : outcome (option rsys) :=
  match rpcs σ !! t with
  | None => Ret None
  | Some p =>
      match p with
      | Idle => idle_step t a σ
      | InTas _ | InLink _ _ | InTrx _ => insert_step t p σ
      | GTas _ _ _ | GStamp _ _ _ _ | GLink _ _ _ _ => garbage_step t p σ
      | Release | XTas | XRead | XLoop _ _ _ _ | XRelease => release_step t p σ
      | Aborted => Ret None
      | _ => dequeue_step t p σ
      end
  end.

Inductive rstep : rsys → rsys → Prop :=
| rstep_intro t a σ σ' : rec_step t a σ = Ret (Some σ') → rstep σ σ'.

Fixpoint run_rec (sched : list (nat * action)) (σ : rsys) : outcome (option rsys) :=
  match sched with
  | [] => Ret (Some σ)
  | (t, a) :: sched =>
      r ← rec_step t a σ;
      match r with
      | None => Ret None
      | Some σ => run_rec sched σ
      end
  end.

Lemma run_rec_steps sched σ σ' : run_rec sched σ = Ret (Some σ') → rtc rstep σ σ'.
Proof.
  revert σ. induction sched as [| [t a] sched IH]; intros σ; cbn [run_rec]; [by intros [= ->] |].
  intros ([σ1 |] & H1 & H2)%bind_Ret_inv; [| done]. eapply rtc_l; [by econstructor | by apply IH].
Qed.
