(* ===== verification/RecLockSeq.v ===== *)
(** * Record locks of project 4: transactions that run one at a time

    When no two operations overlap, the latch-free list behaves as a queue: an
    acquisition appends its lock, a commit terminates and removes exactly the locks of the
    transaction, marked locks leave the list in order for the list of garbage, and the
    physical deletion frees what is older than every active transaction.
    These are the contracts the concurrent executions are measured against. *)

From S2P Require Import Prelude RecLock.

(** ** Lists in memory *)

(** [ns] is linked through the field [f], and ends with a null pointer. *)
Definition linked (ls : gmap nat lock_t) (f : lock_t → option nat) (ns : list nat) : Prop :=
  ∀ k x, ns !! k = Some x → f <$> ls !! x = Some (ns !! S k).

Definition cell_of (ns : list nat) : hash_cell_t := mkCell (head ns) (last ns).

Lemma linked_lookup ls f ns1 x ns2 :
  linked ls f (ns1 ++ x :: ns2) → ∃ y, ls !! x = Some y ∧ f y = head ns2.
Proof.
  intros Hl. specialize (Hl (length ns1) x (list_lookup_middle _ _ _ _ eq_refl)).
  destruct (ls !! x) as [y |]; [| done]. exists y. split; [done |]. cbn in Hl. injection Hl as ->.
  rewrite lookup_app_r by lia. replace (S (length ns1) - length ns1)%nat with 1%nat by lia. by destruct ns2.
Qed.

Lemma linked_cons ls f x ns :
  linked ls f (x :: ns) ↔ f <$> ls !! x = Some (head ns) ∧ linked ls f ns.
Proof.
  split.
  - intros Hl. split; [rewrite (Hl 0%nat x eq_refl); by destruct ns |]. intros k y Hy. by apply (Hl (S k)).
  - intros [Hx Hl] [| k] y Hy; [| by apply (Hl k)]. injection Hy as <-. rewrite Hx. by destruct ns.
Qed.

Lemma linked_app ls f ns1 x ns2 :
  linked ls f (ns1 ++ x :: ns2) ↔
  linked ls f (x :: ns2) ∧ ∀ k y, ns1 !! k = Some y → f <$> ls !! y = Some ((ns1 ++ [x]) !! S k).
Proof.
  induction ns1 as [| z ns1 IH]; [by split; [intros H; split; [done | by intros] | intros [? _]] |].
  cbn [app]. rewrite linked_cons, IH. split.
  - intros (Hz & Hx & Hns). split; [done |]. intros [| k] y Hy; [| by apply Hns].
    injection Hy as <-. rewrite Hz. by destruct ns1.
  - intros [Hx Hns]. split_and!; [| done |].
    + rewrite (Hns 0%nat z eq_refl). by destruct ns1.
    + intros k y Hy. by apply (Hns (S k)).
Qed.

Lemma linked_ext ls ls' f ns :
  (∀ x, x ∈ ns → f <$> ls' !! x = f <$> ls !! x) → linked ls f ns → linked ls' f ns.
Proof. intros Hext Hl k x Hx. rewrite Hext; [by apply Hl | by eapply list_elem_of_lookup_2]. Qed.

(** The list without the node after [x]. *)
Lemma linked_cut ls f g ns1 x y ns2 nx :
  (∀ q z, f (g q z) = q) → NoDup (ns1 ++ x :: y :: ns2) → ls !! x = Some nx →
  linked ls f (ns1 ++ x :: y :: ns2) → linked (<[x := g (head ns2) nx]> ls) f (ns1 ++ x :: ns2).
Proof.
  intros Hg Hnd Hx [Hl Hns]%linked_app. apply NoDup_app in Hnd as (_ & Hd & Hnd).
  apply NoDup_cons in Hnd as [Hnx Hnd]. apply NoDup_cons in Hnd as [Hny Hnd].
  apply linked_cons in Hl as [_ [_ Hl]%linked_cons]. apply linked_app. split.
  - apply linked_cons. rewrite lookup_insert_eq. cbn. rewrite Hg. split; [done |].
    eapply linked_ext; [| done]. intros z Hz. rewrite lookup_insert_ne; [done |]. intros <-. set_solver.
  - intros k z Hz. rewrite lookup_insert_ne; [by apply Hns |]. intros <-.
    apply (Hd x); [by eapply list_elem_of_lookup_2 | by left].
Qed.

Lemma linked_snoc ls f g ns x nx :
  (∀ q z, f (g q z) = q) → NoDup (ns ++ [x]) → f <$> ls !! x = Some None → last ns = None ∨ (∃ y, last ns = Some y ∧ ls !! y = Some nx) →
  linked ls f ns →
  linked (match last ns with Some y => <[y := g (Some x) nx]> ls | None => ls end) f (ns ++ [x]).
Proof.
  intros Hg Hnd Hx Hlast Hl. destruct (last ns) as [y |] eqn:Hy.
  - destruct Hlast as [? | (? & [= <-] & Hny)]; [done |]. apply last_Some in Hy as [ns1 ->].
    rewrite <- (assoc_L (++)) in Hnd |- *. cbn [app] in *. apply linked_app in Hl as [_ Hns]. apply linked_app. split.
    + apply linked_cons. rewrite lookup_insert_eq. cbn. rewrite Hg. split; [done |]. apply linked_cons. split; [| done].
      rewrite lookup_insert_ne; [done |]. intros <-. apply NoDup_app in Hnd as (_ & _ & Hnd).
      apply NoDup_cons in Hnd as [Hnd _]. set_solver.
    + intros k z Hz. rewrite lookup_insert_ne; [by apply Hns |]. intros <-.
      apply NoDup_app in Hnd as (_ & Hd & _). apply (Hd y); [by eapply list_elem_of_lookup_2 | by left].
  - apply last_None in Hy as ->. apply linked_cons. split; [done |]. done.
Qed.

(** ** Runs of one transaction *)

(** A step of [t] inside an operation. *)
Definition tstep (t : nat) (σ σ' : rsys) : Prop := rpcs σ !! t ≠ Some Idle ∧ rec_step t Commit σ = Ret (Some σ').

Lemma tstep_intro t p σ σ' :
  rpcs σ !! t = Some p → p ≠ Idle → rec_step t Commit σ = Ret (Some σ') → tstep t σ σ'.
Proof. intros Hp Hne Hs. split; [congruence | done]. Qed.

Record shape (σ : rsys) (ns gs : list nat) : Prop := {
  sh_cell : cell σ = cell_of ns;
  sh_gc : gclist σ = cell_of gs;
  sh_hash : linked (locks σ) hash ns;
  sh_gclink : linked (locks σ) gc_hash gs;
  sh_nogc x : x ∈ ns → gc_hash <$> locks σ !! x = Some None;
  sh_nodup : NoDup (ns ++ gs)
}.

(** The owner and the mark of a lock. *)
Definition status (σ : rsys) (l : nat) : option (nat * bool) := (λ x, (trx x, state x)) <$> locks σ !! l.

Definition alive (σ : rsys) (l : nat) : Prop := snd <$> status σ l = Some true.
#[global] Instance alive_dec σ l : Decision (alive σ l).
Proof. unfold alive. apply _. Defined.

(** What the unlinking of marked locks leaves as it is. *)
Record same (t : nat) (σ σ' : rsys) : Prop := {
  sa_trxs : trxs σ' = trxs σ;
  sa_count : n_rec_locks σ' = n_rec_locks σ;
  sa_time : sys_timestamp σ' = sys_timestamp σ;
  sa_gc : gclist_state σ' = gclist_state σ;
  sa_status l : status σ' l = status σ l;
  sa_pcs : ∃ p, rpcs σ' = <[t := p]> (rpcs σ)
}.

Lemma same_trans t σ1 σ2 σ3 : same t σ1 σ2 → same t σ2 σ3 → same t σ1 σ3.
Proof.
  intros [A1 A2 A3 A4 A5 [p A6]] [B1 B2 B3 B4 B5 [q B6]]. split; try congruence.
  exists q. rewrite B6, A6. by rewrite list_insert_insert_eq.
Qed.

(** From [σ] the transaction [t] gets to the point [p] with the lists [ns] and [gs]. *)
Definition reaches (t : nat) (σ : rsys) (ns gs : list nat) (p : rpc) : Prop :=
  ∃ σ', rtc (tstep t) σ σ' ∧ same t σ σ' ∧ shape σ' ns gs ∧ rpcs σ' !! t = Some p.

Lemma reaches_trans t σ σ1 ns gs p :
  rtc (tstep t) σ σ1 → same t σ σ1 → reaches t σ1 ns gs p → reaches t σ ns gs p.
Proof.
  intros Hr Hs (σ' & Hr' & Hs' & ?). exists σ'. split_and!; [by etrans | by eapply same_trans | tauto | tauto].
Qed.

Lemma goto_pc t p q σ : rpcs σ !! t = Some q → rpcs (goto t p σ) !! t = Some p.
Proof. intros H. cbn. apply list_lookup_insert_eq. by eapply lookup_lt_Some. Qed.

(** A step that only moves on. *)
Lemma same_goto t p σ : same t σ (goto t p σ).
Proof. split; try done. by exists p. Qed.

Lemma shape_goto t p σ ns gs : shape σ ns gs → shape (goto t p σ) ns gs.
Proof. by intros [? ? ? ? ? ?]. Qed.

Lemma step_goto t σ ns gs p q ns' gs' r :
  rpcs σ !! t = Some p → p ≠ Idle → rec_step t Commit σ = Ret (Some (goto t q σ)) → shape σ ns gs →
  (∀ σ', same t σ σ' → shape σ' ns gs → rpcs σ' !! t = Some q → reaches t σ' ns' gs' r) →
  reaches t σ ns' gs' r.
Proof.
  intros Hp Hne Hs Hsh Hk. eapply reaches_trans; [by eapply rtc_once, tstep_intro | apply same_goto |].
  apply Hk; [apply same_goto | by apply shape_goto | by eapply goto_pc].
Qed.

Lemma reaches_here t σ ns gs p : rpcs σ !! t = Some p → shape σ ns gs → reaches t σ ns gs p.
Proof. intros Hp Hsh. exists σ. split_and!; [apply rtc_refl | | done | done]. split; try done. exists p. by rewrite list_insert_id. Qed.

(** ** The hand-over to the list of garbage *)

Definition resume (i : nat) (k : after_gc) : rpc := match k with ToHead => DHead i false | ToWalk cur => DWalk i cur end.

Lemma status_put σ l x f :
  locks σ !! l = Some x → trx (f x) = trx x → state (f x) = state x →
  ∀ l', status (with_locks (<[l := f x]> (locks σ)) σ) l' = status σ l'.
Proof.
  intros Hl Ht Hs l'. unfold status. cbn. destruct (decide (l' = l)) as [-> | Hne].
  - rewrite lookup_insert_eq, Hl. cbn. by rewrite Ht, Hs.
  - by rewrite lookup_insert_ne.
Qed.

Lemma field_put {A} (g : lock_t → A) ls l x f :
  ls !! l = Some x → g (f x) = g x → ∀ l', g <$> <[l := f x]> ls !! l' = g <$> (ls : gmap nat lock_t) !! l'.
Proof.
  intros Hl Hg l'. destruct (decide (l' = l)) as [-> | Hne].
  - rewrite lookup_insert_eq, Hl. cbn. by rewrite Hg.
  - by rewrite lookup_insert_ne.
Qed.

Lemma last_snoc' {A} (l : list A) x : last (l ++ [x]) = Some x.
Proof. by rewrite last_snoc. Qed.

Lemma head_snoc {A} (l : list A) x : head (l ++ [x]) = match head l with Some y => Some y | None => Some x end.
Proof. by destruct l. Qed.

Lemma garbage_run t σ ns gs i k n :
  shape σ ns gs → rpcs σ !! t = Some (GTas i k n) → n ∉ ns ++ gs → gc_hash <$> locks σ !! n = Some None →
  reaches t σ ns (gs ++ [n]) (resume i k).
Proof.
  intros [S1 S2 S3 S4 S5 S6] Hpc Hn Hgc. destruct (locks σ !! n) as [nx |] eqn:Hnx; [| done]. injection Hgc as Hgc.
  set (old := last gs).
  set (σ1 := goto t (GStamp i k n old) (with_gclist (mkCell (c_head (gclist σ)) (Some n)) σ)).
  set (σ2 := goto t (GLink i k n old) (with_locks (<[n := set_timestamp (sys_timestamp σ) nx]> (locks σ)) σ1)).
  assert (tstep t σ σ1) as H1.
  { apply (tstep_intro _ _ _ _ Hpc ltac:(done)). unfold rec_step. rewrite Hpc. cbn. unfold σ1, old. by rewrite S2. }
  assert (rpcs σ1 !! t = Some (GStamp i k n old)) as P1 by (by eapply goto_pc).
  assert (tstep t σ1 σ2) as H2.
  { apply (tstep_intro _ _ _ _ P1 ltac:(done)). unfold rec_step. rewrite P1. cbn. unfold put, get. cbn. rewrite Hnx. done. }
  assert (rpcs σ2 !! t = Some (GLink i k n old)) as P2 by (by eapply goto_pc).
  assert (locks σ2 !! n = Some (set_timestamp (sys_timestamp σ) nx)) as Hn2 by apply lookup_insert_eq.
  assert (same t σ σ2) as Hsame.
  { split; try done; [| exists (GLink i k n old); cbn; by rewrite list_insert_insert_eq].
    intros l. by apply (status_put σ n nx (set_timestamp (sys_timestamp σ))). }
  assert (∀ f l, (∀ s z, f (set_timestamp s z) = f z) → f <$> locks σ2 !! l = (f <$> locks σ !! l : option (option nat))) as Hf.
  { intros f l Hfz. by apply (field_put f (locks σ) n nx (set_timestamp (sys_timestamp σ))). }
  assert (linked (locks σ2) gc_hash gs) as L4 by (eapply linked_ext; [| done]; intros; by apply Hf).
  assert (NoDup (gs ++ [n])) as Hnd.
  { apply NoDup_app. apply NoDup_app in S6 as (_ & _ & ?). split_and!; [done | | apply NoDup_singleton].
    intros x Hx ->%list_elem_of_singleton. set_solver. }
  set (ls3 := match old with Some o => match locks σ2 !! o with Some z => <[o := set_gc_hash (Some n) z]> (locks σ2) | None => locks σ2 end | None => locks σ2 end).
  assert (∃ z, last gs = None ∨ ∃ y, last gs = Some y ∧ locks σ2 !! y = Some z) as [z Hz].
  { destruct (last gs) as [y |] eqn:Hy; [| exists nx; by left]. apply last_Some in Hy as [gs1 ->].
    destruct (linked_lookup _ _ _ _ _ L4) as (z & Hz & _). exists z. right. eauto. }
  assert (gc_hash <$> locks σ2 !! n = Some None) as Hgn by (rewrite Hn2; cbn; by rewrite Hgc).
  pose proof (linked_snoc (locks σ2) gc_hash set_gc_hash gs n z (λ _ _, eq_refl) Hnd Hgn Hz L4) as L4'.
  assert (ls3 = match last gs with Some y => <[y := set_gc_hash (Some n) z]> (locks σ2) | None => locks σ2 end) as Hls3.
  { unfold ls3, old. destruct Hz as [-> | (y & -> & ->)]; done. }
  rewrite <- Hls3 in L4'.
  set (σ3 := goto t (resume i k) (with_gclist (cell_of (gs ++ [n])) (with_locks ls3 σ2))).
  assert (tstep t σ2 σ3) as H3.
  { apply (tstep_intro _ _ _ _ P2 ltac:(done)). unfold rec_step. rewrite P2. unfold garbage_step. unfold σ3, ls3, cell_of. rewrite last_snoc', head_snoc.
    fold old in Hz |- *. destruct Hz as [Ho | (y & Ho & Hy)]; rewrite Ho.
    - apply last_None in Ho as ->. by destruct k.
    - unfold put, get. rewrite Hy. cbn [of_option]. obind. unfold σ2, σ1, goto, with_locks, with_gclist. cbn.
      rewrite S2. cbn. destruct gs; [done |]. by destruct k. }
  exists σ3. split_and!; [by eapply rtc_l, rtc_l, rtc_once | | | by eapply goto_pc].
  - eapply same_trans; [exact Hsame |]. split; try done; [| by exists (resume i k)]. intros l. unfold σ3, ls3.
    destruct Hz as [Ho | (y & Ho & Hy)]; fold old in Ho; rewrite Ho; [done |]. rewrite Hy.
    by apply (status_put σ2 y z (set_gc_hash (Some n))).
  - assert (∀ l f, (∀ q z, f (set_gc_hash q z) = f z) → f <$> ls3 !! l = (f <$> locks σ2 !! l : option (option nat))) as Hf3.
    { intros l f Hfz. unfold ls3. destruct Hz as [Ho | (y & Ho & Hy)]; fold old in Ho; rewrite Ho; [done |]. rewrite Hy.
      by apply (field_put f (locks σ2) y z (set_gc_hash (Some n))). }
    split; cbn; try done.
    + eapply linked_ext; [| exact S3]. intros x Hx. rewrite Hf3 by done. by apply Hf.
    + intros x Hx. rewrite Hls3. rewrite <- (S5 x Hx), <- (Hf gc_hash x) by done.
      destruct Hz as [-> | (y & Hy & _)]; [done |]. rewrite Hy, lookup_insert_ne; [done |].
      intros <-. apply NoDup_app in S6 as (_ & Hd & _). apply (Hd y Hx). apply last_Some in Hy as [? ->]. set_solver.
    + rewrite (assoc_L (++)). apply NoDup_app. split_and!; [done | | apply NoDup_singleton].
      intros x Hx ->%list_elem_of_singleton. done.
Qed.

(** ** The two loops of the release *)

Lemma reaches_bind t σ ns gs p ns' gs' q :
  reaches t σ ns gs p →
  (∀ σ', same t σ σ' → shape σ' ns gs → rpcs σ' !! t = Some p → reaches t σ' ns' gs' q) →
  reaches t σ ns' gs' q.
Proof. intros (σ' & Hr & Hs & Hsh & Hp) Hk. eapply reaches_trans; [done | done |]. by apply Hk. Qed.

Lemma alive_same t σ σ' l : same t σ σ' → alive σ' l ↔ alive σ l.
Proof. intros Hs. unfold alive. by rewrite (sa_status _ _ _ Hs). Qed.

Lemma alive_state σ l x : locks σ !! l = Some x → state x = bool_decide (alive σ l).
Proof.
  intros Hl. assert (alive σ l ↔ state x = true) as Ha.
  { unfold alive, status. rewrite Hl. cbn. split; [by intros [= ->] | by intros ->]. }
  destruct (state x); [rewrite bool_decide_true | rewrite bool_decide_false]; naive_solver.
Qed.

Lemma shape_lookup σ ns1 x ns2 gs :
  shape σ (ns1 ++ x :: ns2) gs → ∃ y, locks σ !! x = Some y ∧ hash y = head ns2 ∧ state y = bool_decide (alive σ x).
Proof.
  intros Hsh. destruct (linked_lookup _ _ _ _ _ (sh_hash _ _ _ Hsh)) as (y & Hy & Hh).
  exists y. split_and!; [done | done | by apply alive_state].
Qed.

Lemma app_cons_assoc {A} (a : list A) x l : a ++ x :: l = (a ++ [x]) ++ l.
Proof. by rewrite <- (assoc_L (++)). Qed.

Lemma last_cons_ne {A} (x : A) l : l ≠ [] → last (x :: l) = last l.
Proof. by destruct l. Qed.

(** Marked locks at the head leave the list. *)
Lemma prune_head t ds x r gs i c σ :
  shape σ (ds ++ x :: r) gs → Forall (λ d, ¬ alive σ d) ds → alive σ x → rpcs σ !! t = Some (DHead i c) →
  reaches t σ (x :: r) (gs ++ ds) (DWalk i x).
Proof.
  revert gs c σ. induction ds as [| d ds IH]; intros gs c σ Hsh Hds Hx Hp.
  - rewrite (right_id_L [] (++)). destruct (shape_lookup σ [] x r gs Hsh) as (y & Hy & _ & Hst).
    rewrite bool_decide_true in Hst by done.
    eapply step_goto; [done | done | unfold rec_step; rewrite Hp; cbn; by rewrite (sh_cell _ _ _ Hsh) | done |].
    intros σ1 Hs1 Hsh1 Hp1. destruct (shape_lookup σ1 [] x r gs Hsh1) as (y1 & Hy1 & _ & Hst1).
    rewrite bool_decide_true in Hst1 by (by rewrite (alive_same _ _ _ _ Hs1)).
    eapply step_goto; [done | done | | done | intros σ2 _ Hsh2 Hp2; by apply reaches_here].
    unfold rec_step. rewrite Hp1. cbn. unfold get. rewrite Hy1. cbn. by rewrite Hst1.
  - apply Forall_cons in Hds as [Hd Hds]. cbn [app] in Hsh.
    eapply step_goto; [done | done | unfold rec_step; rewrite Hp; cbn; by rewrite (sh_cell _ _ _ Hsh) | done |].
    intros σ1 Hs1 Hsh1 Hp1. destruct (shape_lookup σ1 [] d (ds ++ x :: r) gs Hsh1) as (y1 & Hy1 & Hh1 & Hst1).
    rewrite bool_decide_false in Hst1 by (by rewrite (alive_same _ _ _ _ Hs1)).
    eapply (step_goto t σ1 _ _ _ (DRead1 i d)); [done | done | | done |].
    { unfold rec_step. rewrite Hp1. cbn. unfold get. rewrite Hy1. cbn. by rewrite Hst1. }
    intros σ2 Hs2 Hsh2 Hp2. destruct (shape_lookup σ2 [] d (ds ++ x :: r) gs Hsh2) as (y2 & Hy2 & Hh2 & _).
    eapply (step_goto t σ2 _ _ _ (DCas1 i d (head (ds ++ x :: r)))); [done | done | | done |].
    { unfold rec_step. rewrite Hp2. cbn. unfold get. rewrite Hy2. cbn. by rewrite Hh2. }
    intros σ3 Hs3 Hsh3 Hp3. pose proof Hsh3 as [S1 S2 S3 S4 S5 S6].
    set (σ4 := goto t (GTas i ToHead d) (with_cell (cell_of (ds ++ x :: r)) σ3)).
    assert (tstep t σ3 σ4) as Hstep.
    { apply (tstep_intro _ _ _ _ Hp3 ltac:(done)). unfold rec_step. rewrite Hp3. unfold dequeue_step. rewrite S1. cbn [cell_of c_head c_tail head].
      rewrite decide_True by done. unfold σ4, cell_of. rewrite last_cons_ne by (by destruct ds). done. }
    assert (same t σ3 σ4) as Hs4 by (split; try done; by exists (GTas i ToHead d)).
    assert (d ∉ (ds ++ x :: r) ++ gs) as Hdn by (by apply NoDup_cons in S6 as [? _]).
    eapply reaches_trans; [by apply rtc_once | done |].
    eapply reaches_bind; [eapply (garbage_run t σ4 (ds ++ x :: r) gs) |].
    + split; cbn; try done; [by apply linked_cons in S3 as [_ ?] | | by apply NoDup_cons in S6 as [_ ?]].
      intros z Hz. apply S5. by right.
    + by eapply goto_pc.
    + done.
    + cbn. apply S5. by left.
    + intros σ5 Hs5 Hsh5 Hp5. replace (gs ++ d :: ds) with ((gs ++ [d]) ++ ds) by (by rewrite <- (assoc_L (++))).
      assert (same t σ σ5) as Hs by (eauto using same_trans).
      eapply IH; [done | | by rewrite (alive_same _ _ _ _ Hs) | done].
      eapply Forall_impl; [done |]. intros z. by rewrite (alive_same _ _ _ _ Hs).
Qed.

(** From an unmarked lock [cur] with the next lock [y] to the test of [y]. *)
Lemma walk_test t a cur y rest gs i σ :
  shape σ (a ++ cur :: y :: rest) gs → alive σ cur → cur ≠ i → rpcs σ !! t = Some (DWalk i cur) →
  reaches t σ (a ++ cur :: y :: rest) gs (DNext i cur y).
Proof.
  intros Hsh Hcur Hne Hp. destruct (shape_lookup _ _ _ _ _ Hsh) as (c & Hc & Hh & _).
  eapply (step_goto t σ _ _ _ (DLive i cur y)); [done | done | | done |].
  { unfold rec_step. rewrite Hp. cbn. rewrite decide_False by done. unfold get. rewrite Hc. cbn. by rewrite Hh. }
  intros σ1 Hs1 Hsh1 Hp1. destruct (shape_lookup _ _ _ _ _ Hsh1) as (c1 & Hc1 & _ & Hst1).
  rewrite bool_decide_true in Hst1 by (by rewrite (alive_same _ _ _ _ Hs1)).
  eapply (step_goto t σ1 _ _ _ (DNext i cur y)); [done | done | | done | intros; by apply reaches_here].
  unfold rec_step. rewrite Hp1. cbn. unfold get. rewrite Hc1. cbn. by rewrite Hst1.
Qed.

Lemma walk_skip t a cur y rest gs i σ :
  shape σ (a ++ cur :: y :: rest) gs → alive σ cur → alive σ y → cur ≠ i → rpcs σ !! t = Some (DWalk i cur) →
  reaches t σ (a ++ cur :: y :: rest) gs (DWalk i y).
Proof.
  intros Hsh Hcur Hy Hne Hp. eapply reaches_bind; [by eapply walk_test |]. intros σ1 Hs1 Hsh1 Hp1.
  pose proof Hsh1 as Hsh1'. rewrite app_cons_assoc in Hsh1'.
  destruct (shape_lookup _ _ _ _ _ Hsh1') as (y1 & Hy1 & _ & Hst1).
  rewrite bool_decide_true in Hst1 by (by rewrite (alive_same _ _ _ _ Hs1)).
  eapply (step_goto t σ1 _ _ _ (DWalk i y)); [done | done | | exact Hsh1 | intros; by apply reaches_here].
  unfold rec_step. rewrite Hp1. cbn. unfold get. rewrite Hy1. cbn. by rewrite Hst1.
Qed.

(** To the point before the compare-and-swap on [cur->hash]. *)
Lemma walk_to_cas t a cur y z rest gs i σ :
  shape σ (a ++ cur :: y :: z :: rest) gs → alive σ cur → ¬ alive σ y → cur ≠ i → rpcs σ !! t = Some (DWalk i cur) →
  reaches t σ (a ++ cur :: y :: z :: rest) gs (DCas2 i cur y (Some z)).
Proof.
  intros Hsh Hcur Hy Hne Hp. eapply reaches_bind; [by eapply walk_test |]. intros σ1 Hs1 Hsh1 Hp1.
  assert (∀ σ', shape σ' (a ++ cur :: y :: z :: rest) gs → same t σ σ' →
    ∃ y', locks σ' !! y = Some y' ∧ hash y' = Some z ∧ state y' = false) as Hlk.
  { intros σ' Hsh' Hs'. rewrite app_cons_assoc in Hsh'. destruct (shape_lookup _ _ _ _ _ Hsh') as (y' & Hy' & Hh' & Hst').
    exists y'. rewrite bool_decide_false in Hst' by (by rewrite (alive_same _ _ _ _ Hs')). done. }
  destruct (Hlk σ1 Hsh1 Hs1) as (y1 & Hy1 & _ & Hst1).
  eapply (step_goto t σ1 _ _ _ (DSpin i cur y)); [done | done | | done |].
  { unfold rec_step. rewrite Hp1. cbn. unfold get. rewrite Hy1. cbn. by rewrite Hst1. }
  intros σ2 Hs2 Hsh2 Hp2. assert (same t σ σ2) as Hs02 by (eauto using same_trans).
  destruct (Hlk σ2 Hsh2 Hs02) as (y2 & Hy2 & Hh2 & _).
  eapply (step_goto t σ2 _ _ _ (DRead2 i cur y)); [done | done | | done |].
  { unfold rec_step. rewrite Hp2. cbn. unfold get. rewrite Hy2. cbn. rewrite decide_False; [done |]. rewrite Hh2. naive_solver. }
  intros σ3 Hs3 Hsh3 Hp3. destruct (Hlk σ3 Hsh3) as (y3 & Hy3 & Hh3 & _); [eauto using same_trans |].
  eapply (step_goto t σ3 _ _ _ (DCas2 i cur y (Some z))); [done | done | | done | intros; by apply reaches_here].
  unfold rec_step. rewrite Hp3. cbn. unfold get. rewrite Hy3. cbn. by rewrite Hh3.
Qed.

Lemma walk_cut t a cur y z rest gs i σ :
  shape σ (a ++ cur :: y :: z :: rest) gs → alive σ cur → ¬ alive σ y → cur ≠ i → rpcs σ !! t = Some (DWalk i cur) →
  reaches t σ (a ++ cur :: z :: rest) (gs ++ [y]) (DWalk i cur).
Proof.
  intros Hsh Hcur Hy Hne Hp. eapply reaches_bind; [by eapply walk_to_cas |]. intros σ1 Hs1 Hsh1 Hp1.
  pose proof Hsh1 as [S1 S2 S3 S4 S5 S6]. destruct (shape_lookup _ _ _ _ _ Hsh1) as (c & Hc & Hh & _).
  set (σ2 := goto t (GTas i (ToWalk cur) y) (with_locks (<[cur := set_hash (Some z) c]> (locks σ1)) σ1)).
  assert (tstep t σ1 σ2) as Hstep.
  { apply (tstep_intro _ _ _ _ Hp1 ltac:(done)). unfold rec_step. rewrite Hp1. unfold dequeue_step, put, get. rewrite Hc. cbn [of_option]. obind.
    rewrite decide_True by done. done. }
  assert (same t σ1 σ2) as Hs2.
  { split; try done; [| by exists (GTas i (ToWalk cur) y)]. intros l. by apply (status_put σ1 cur c (set_hash (Some z))). }
  assert (NoDup (a ++ cur :: y :: z :: rest)) as Hnd by (by apply NoDup_app in S6 as [? _]).
  assert (y :: (a ++ cur :: z :: rest) ++ gs ≡ₚ (a ++ cur :: y :: z :: rest) ++ gs) as Hperm by solve_Permutation.
  rewrite <- Hperm in S6. apply NoDup_cons in S6 as [Hyn S6].
  assert (∀ l, gc_hash <$> <[cur := set_hash (Some z) c]> (locks σ1) !! l = gc_hash <$> locks σ1 !! l) as Hg.
  { by apply (field_put gc_hash (locks σ1) cur c (set_hash (Some z))). }
  eapply reaches_trans; [by apply rtc_once | done |].
  apply (garbage_run t σ2 (a ++ cur :: z :: rest) gs i (ToWalk cur) y).
  - split; cbn; try done.
    + rewrite S1. unfold cell_of. f_equal; [by destruct a | by rewrite !last_app_cons, !last_cons_cons].
    + by apply (linked_cut (locks σ1) hash set_hash a cur y (z :: rest) c).
    + eapply linked_ext; [intros x _; apply Hg | done].
    + intros x Hx. rewrite Hg. apply S5. set_solver.
  - by eapply goto_pc.
  - done.
  - cbn. rewrite Hg. apply S5. set_solver.
Qed.

(** From an unmarked lock on, the marked locks before [i] leave the list. *)
Lemma prune_walk t r a cur i q gs σ :
  shape σ (a ++ cur :: r ++ i :: q) gs → alive σ cur → alive σ i → rpcs σ !! t = Some (DWalk i cur) →
  reaches t σ (a ++ cur :: filter (alive σ) r ++ i :: q) (gs ++ filter (λ d, ¬ alive σ d) r) (DWalk i i).
Proof.
  revert a cur gs σ. induction r as [| y r IH]; intros a cur gs σ Hsh Hcur Hi Hp.
  - cbn [app] in *. rewrite !filter_nil, (right_id_L [] (++)). cbn [app]. eapply walk_skip; try done.
    intros ->. pose proof (sh_nodup _ _ _ Hsh) as Hnd. apply NoDup_app in Hnd as [Hnd _].
    apply NoDup_app in Hnd as (_ & _ & Hnd). apply NoDup_cons in Hnd as [Hnd _]. set_solver.
  - assert (cur ≠ i) as Hne.
    { intros ->. pose proof (sh_nodup _ _ _ Hsh) as Hnd. apply NoDup_app in Hnd as [Hnd _].
      apply NoDup_app in Hnd as (_ & _ & Hnd). apply NoDup_cons in Hnd as [Hnd _]. set_solver. }
    assert (∀ σ', same t σ σ' → filter (alive σ') r = filter (alive σ) r ∧
      filter (λ d, ¬ alive σ' d) r = filter (λ d, ¬ alive σ d) r) as Hfil.
    { intros σ' Hs'. split; apply list_filter_iff; intros x; by rewrite (alive_same _ _ _ _ Hs'). }
    cbn [app] in Hsh. rewrite !filter_cons. destruct (decide (alive σ y)) as [Hy | Hy].
    + rewrite (decide_False (P := ¬ alive σ y)) by (by intros H; apply H).
      eapply reaches_bind; [by eapply walk_skip |]. intros σ1 Hs1 Hsh1 Hp1. destruct (Hfil σ1 Hs1) as [<- <-].
      cbn [app]. rewrite app_cons_assoc in Hsh1 |- *. apply IH; [done | by rewrite (alive_same _ _ _ _ Hs1) | by rewrite (alive_same _ _ _ _ Hs1) | done].
    + rewrite (decide_True (P := ¬ alive σ y)) by done.
      assert (∃ z rest, r ++ i :: q = z :: rest) as (z & rest & He) by (destruct r; cbn; eauto).
      rewrite He in Hsh. eapply reaches_bind; [by eapply walk_cut |]. intros σ1 Hs1 Hsh1 Hp1.
      destruct (Hfil σ1 Hs1) as [<- <-]. rewrite <- He in Hsh1.
      change (gs ++ y :: filter (λ d, ¬ alive σ1 d) r) with (gs ++ [y] ++ filter (λ d, ¬ alive σ1 d) r).
      rewrite (assoc_L (++)). apply IH; [done | by rewrite (alive_same _ _ _ _ Hs1) | by rewrite (alive_same _ _ _ _ Hs1) | done].
Qed.

Lemma split_marked σ p :
  ∃ ds r, p = ds ++ r ∧ Forall (λ d, ¬ alive σ d) ds ∧ match r with [] => True | x :: _ => alive σ x end.
Proof.
  induction p as [| x p (ds & r & -> & Hds & Hr)]; [by exists [], [] |].
  destruct (decide (alive σ x)) as [Hx | Hx].
  - by exists [], (x :: ds ++ r).
  - exists (x :: ds), r. split_and!; [done | by constructor | done].
Qed.

Lemma filter_dead σ ds :
  Forall (λ d, ¬ alive σ d) ds → filter (alive σ) ds = [] ∧ filter (λ d, ¬ alive σ d) ds = ds.
Proof.
  induction 1 as [| d ds Hd _ [IH1 IH2]]; [done |]. rewrite !filter_cons.
  by rewrite (decide_False (P := alive σ d)), (decide_True (P := ¬ alive σ d)), IH1, IH2.
Qed.

(** Both loops: from the head to the lock [i] itself. *)
Lemma prune t p i q gs c σ :
  shape σ (p ++ i :: q) gs → alive σ i → rpcs σ !! t = Some (DHead i c) →
  reaches t σ (filter (alive σ) p ++ i :: q) (gs ++ filter (λ d, ¬ alive σ d) p) (DWalk i i).
Proof.
  intros Hsh Hi Hp. destruct (split_marked σ p) as (ds & r & -> & Hds & Hr).
  destruct (filter_dead σ ds Hds) as [Hf1 Hf2]. rewrite !filter_app, Hf1, Hf2. cbn [app].
  rewrite <- (assoc_L (++)) in Hsh. destruct r as [| x r].
  - rewrite !filter_nil, (right_id_L [] (++)). by eapply prune_head.
  - cbn [app] in Hsh. eapply reaches_bind; [by eapply (prune_head t ds x (r ++ i :: q)) |].
    intros σ1 Hs1 Hsh1 Hp1. rewrite !filter_cons.
    rewrite (decide_True (P := alive σ x)), (decide_False (P := ¬ alive σ x)) by (done || by intros H; apply H).
    assert (filter (alive σ1) r = filter (alive σ) r ∧ filter (λ d, ¬ alive σ1 d) r = filter (λ d, ¬ alive σ d) r) as [<- <-].
    { split; apply list_filter_iff; intros y; by rewrite (alive_same _ _ _ _ Hs1). }
    rewrite (assoc_L (++)). apply (prune_walk t r [] x); [done | by rewrite (alive_same _ _ _ _ Hs1) .. | done].
Qed.

(** ** The state between operations *)

(** [ns]: the locks of the cell, marked ones included; [gs]: the list of garbage. *)
Record rec_ok (σ : rsys) (ns gs : list nat) : Prop := {
  ro_shape : shape σ ns gs;
  ro_dom l : is_Some (locks σ !! l) ↔ l ∈ ns ++ gs;
  ro_gone l : l ∈ gs → ¬ alive σ l;
  ro_owned t tr l : trxs σ !! t = Some tr → l ∈ trx_locks tr ↔ status σ l = Some (t, true);
  ro_nodup t tr : trxs σ !! t = Some tr → NoDup (trx_locks tr);
  ro_count : n_rec_locks σ = Z.of_nat (length (filter (alive σ) ns))
}.

(** The granted locks in the order of their requests. *)
Definition granted (σ : rsys) (ns : list nat) : list nat := filter (alive σ) ns.

Definition set_trx_locks (ls : list nat) (tr : trx_t) : trx_t := mkTrx (t_timestamp tr) (active tr) ls.

(** The step that marks [i]. *)
Lemma mark_run t p i q gs σ tr :
  shape σ (p ++ i :: q) gs → trxs σ !! t = Some tr → rpcs σ !! t = Some (DWalk i i) →
  ∃ σ', rtc (tstep t) σ σ' ∧ shape σ' (p ++ i :: q) gs ∧
    trxs σ' = <[t := set_trx_locks (filter (.≠ i) (trx_locks tr)) tr]> (trxs σ) ∧
    rpcs σ' = <[t := Release]> (rpcs σ) ∧ n_rec_locks σ' = n_rec_locks σ ∧
    sys_timestamp σ' = sys_timestamp σ ∧ gclist_state σ' = gclist_state σ ∧
    (∀ l, status σ' l = if decide (l = i) then (λ x, (trx x, false)) <$> locks σ !! i else status σ l).
Proof.
  intros Hsh Ht Hp. pose proof Hsh as [S1 S2 S3 S4 S5 S6].
  destruct (shape_lookup _ _ _ _ _ Hsh) as (x & Hx & _ & _).
  set (σ1 := goto t (DMark i) σ).
  set (σ2 := goto t (DTrx i) (with_locks (<[i := set_state false x]> (locks σ)) σ1)).
  set (σ3 := goto t Release (with_trx t (set_trx_locks (filter (.≠ i) (trx_locks tr)) tr) σ2)).
  assert (rpcs σ1 !! t = Some (DMark i)) as P1 by (by eapply goto_pc).
  assert (rpcs σ2 !! t = Some (DTrx i)) as P2 by (by eapply goto_pc).
  exists σ3. split_and!; try done.
  - eapply rtc_l; [| eapply rtc_l; [| apply rtc_once]].
    + apply (tstep_intro _ _ _ _ Hp ltac:(done)). unfold rec_step. rewrite Hp. cbn. by rewrite decide_True.
    + apply (tstep_intro _ _ _ _ P1 ltac:(done)). unfold rec_step. change (rpcs (goto t (DMark i) σ)) with (rpcs σ1). rewrite P1. cbn. unfold put, get. cbn.
      rewrite Hx. done.
    + apply (tstep_intro _ _ _ _ P2 ltac:(done)). unfold rec_step. change (rpcs (goto t (DTrx i) _)) with (rpcs σ2). rewrite P2. cbn [dequeue_step].
      change (get_trx _ t) with (at_ (trxs σ) t). by rewrite (at_lookup _ _ _ Ht).
  - assert (∀ (f : lock_t → option nat) l, (∀ z, f (set_state false z) = f z) →
      f <$> <[i := set_state false x]> (locks σ) !! l = f <$> locks σ !! l) as Hf.
    { intros f l Hfz. by apply (field_put f (locks σ) i x (set_state false)). }
    split; cbn; try done.
    + eapply linked_ext; [| done]. intros l _. by apply Hf.
    + eapply linked_ext; [| done]. intros l _. by apply Hf.
    + intros l Hl. rewrite Hf by done. by apply S5.
  - cbn. by rewrite !list_insert_insert_eq.
  - intros l. unfold status. cbn. case_decide as Hl; [subst l | by rewrite lookup_insert_ne].
    rewrite lookup_insert_eq, Hx. done.
Qed.

(** ** The release of one lock *)

Lemma length_filter_ne (l : list nat) i : NoDup l → i ∈ l → length (filter (.≠ i) l) = (length l - 1)%nat.
Proof.
  intros Hnd Hi. apply list_elem_of_split in Hi as (l1 & l2 & ->). apply NoDup_app in Hnd as (_ & Hd & Hnd).
  apply NoDup_cons in Hnd as [Hi _].
  assert (∀ m : list nat, i ∉ m → filter (.≠ i) m = m) as Hid.
  { induction m as [| x m IH]; intros Hm; [done |]. rewrite filter_cons, decide_True by set_solver. f_equal. set_solver. }
  rewrite filter_app, filter_cons, decide_False by naive_solver. rewrite !Hid; [| done | intros H; apply (Hd i); [done | by left]].
  rewrite !length_app. cbn. lia.
Qed.

Lemma release_one t σ ns gs tr ls i :
  rec_ok σ ns gs → rpcs σ !! t = Some Release → trxs σ !! t = Some tr → trx_locks tr = ls ++ [i] →
  ∃ σ' ns' gs', rtc (tstep t) σ σ' ∧ rec_ok σ' ns' gs' ∧ granted σ' ns' = filter (.≠ i) (granted σ ns) ∧
    rpcs σ' = <[t := Release]> (rpcs σ) ∧ trxs σ' = <[t := set_trx_locks ls tr]> (trxs σ) ∧
    sys_timestamp σ' = sys_timestamp σ ∧ gclist_state σ' = gclist_state σ.
Proof.
  intros [R1 R2 R3 R4 R5 R6] Hpc Ht Hls.
  assert (status σ i = Some (t, true)) as Hst by (apply (R4 t tr i Ht); rewrite Hls; set_solver).
  assert (alive σ i) as Hal by (unfold alive; by rewrite Hst).
  assert (is_Some (locks σ !! i)) as Hsi by (unfold status in Hst; by destruct (locks σ !! i)).
  assert (i ∈ ns) as Hin.
  { apply R2, elem_of_app in Hsi as [? | Hg]; [done |]. by apply R3 in Hg. }
  assert (filter (.≠ i) (trx_locks tr) = ls) as Hfl.
  { pose proof (R5 t tr Ht) as Hnd. rewrite Hls in Hnd |- *. apply NoDup_app in Hnd as (_ & Hd & _).
    rewrite filter_app, filter_cons, decide_False, filter_nil, (right_id_L [] (++)) by naive_solver.
    assert (i ∉ ls) as Hi by (intros H; apply (Hd i H); by left). clear - Hi. induction ls as [| x ls IH]; [done |].
    rewrite filter_cons, decide_True by set_solver. f_equal. set_solver. }
  pose proof (sh_nodup _ _ _ R1) as Hnd. pose proof Hin as (p & q & Hns)%list_elem_of_split.
  set (σ1 := goto t (DHead i true) (with_count (n_rec_locks σ - 1) σ)).
  assert (tstep t σ σ1) as Hstep.
  { apply (tstep_intro _ _ _ _ Hpc ltac:(done)). unfold rec_step. rewrite Hpc. unfold release_step, get_trx. rewrite (at_lookup _ _ _ Ht). obind.
    by rewrite Hls, last_snoc. }
  assert (∀ l, status σ1 l = status σ l) as Hst1 by done.
  rewrite Hns in R1. destruct (prune t p i q gs true σ1) as (σ2 & Hr2 & Hs2 & Hsh2 & Hp2);
    [by destruct R1 | done | by eapply goto_pc |].
  destruct (mark_run t _ i q _ σ2 tr Hsh2) as (σ3 & Hr3 & Hsh3 & T3 & P3 & C3 & Y3 & G3 & St3); [by rewrite (sa_trxs _ _ _ Hs2) | done |].
  assert (∀ l, status σ3 l = if decide (l = i) then Some (t, false) else status σ l) as Hstat.
  { intros l. rewrite St3. case_decide; [| by rewrite (sa_status _ _ _ Hs2)].
    pose proof (sa_status _ _ _ Hs2 i) as He. rewrite Hst1, Hst in He. unfold status in He.
    destruct (locks σ2 !! i) as [x |]; [| done]. cbn in He |- *. injection He as -> _. done. }
  assert (∀ l, alive σ3 l ↔ l ≠ i ∧ alive σ l) as Hali.
  { intros l. unfold alive. rewrite Hstat. case_decide; naive_solver. }
  set (ns3 := filter (alive σ) p ++ i :: q). set (gs3 := gs ++ filter (λ d, ¬ alive σ d) p).
  assert (ns3 ++ gs3 ≡ₚ ns ++ gs) as Hperm.
  { unfold ns3, gs3. rewrite Hns. rewrite <- (filter_app_complement (alive σ) p) at 3. solve_Permutation. }
  assert (granted σ3 ns3 = filter (.≠ i) (granted σ ns)) as Hgr.
  { unfold granted, ns3. rewrite Hns, !list_filter_filter.
    rewrite (list_filter_iff (alive σ3) (λ x, x ≠ i ∧ alive σ x) (filter (alive σ) p ++ i :: q)) by done.
    rewrite !filter_app, list_filter_filter. f_equal. apply list_filter_iff. naive_solver. }
  exists σ3, ns3, gs3. split_and!; [by eapply rtc_l; [| etrans] | | done | | | |].
  - split; [done | | | | |].
    + intros l. rewrite Hperm, <- R2. pose proof (Hstat l) as He. unfold status in He at 1.
      case_decide as Hl; [subst l; by destruct (locks σ3 !! i) |]. unfold status in He.
      destruct (locks σ3 !! l), (locks σ !! l); done || by split.
    + intros l [Hl | [Hd Hl]%list_elem_of_filter]%elem_of_app; rewrite Hali; [intros [_ ?]; by apply (R3 l) | naive_solver].
    + intros u tru l Hu. rewrite T3, (sa_trxs _ _ _ Hs2) in Hu. rewrite Hstat.
      apply list_lookup_insert_Some in Hu as [(<- & <- & _) | [Hne Hu]].
      * cbn. rewrite list_elem_of_filter, (R4 t tr l Ht). case_decide; naive_solver.
      * rewrite (R4 u tru l Hu). case_decide as Hl; [subst l | done]. rewrite Hst. naive_solver.
    + intros u tru Hu. rewrite T3, (sa_trxs _ _ _ Hs2) in Hu.
      apply list_lookup_insert_Some in Hu as [(<- & <- & _) | [_ Hu]]; [| by eapply R5]. cbn. apply NoDup_filter. by eapply R5.
    + change (filter (alive σ3) ns3) with (granted σ3 ns3). rewrite Hgr, C3, (sa_count _ _ _ Hs2). cbn.
      apply NoDup_app in Hnd as [Hnd _].
      assert (i ∈ granted σ ns) as Hig by (by apply list_elem_of_filter).
      rewrite length_filter_ne by (done || by apply NoDup_filter). rewrite R6. fold (granted σ ns).
      assert (0 < length (granted σ ns))%nat by (destruct (granted σ ns); [by apply not_elem_of_nil in Hig | cbn; lia]). lia.
  - rewrite P3. destruct (sa_pcs _ _ _ Hs2) as [p2 ->]. cbn. by rewrite !list_insert_insert_eq.
  - by rewrite T3, (sa_trxs _ _ _ Hs2), Hfl.
  - by rewrite Y3, (sa_time _ _ _ Hs2).
  - by rewrite G3, (sa_gc _ _ _ Hs2).
Qed.

Lemma release_all t ls : ∀ σ ns gs tr,
  rec_ok σ ns gs → rpcs σ !! t = Some Release → trxs σ !! t = Some tr → trx_locks tr = ls →
  ∃ σ' ns' gs', rtc (tstep t) σ σ' ∧ rec_ok σ' ns' gs' ∧ granted σ' ns' = filter (.∉ ls) (granted σ ns) ∧
    rpcs σ' = rpcs σ ∧ trxs σ' = <[t := set_trx_locks [] tr]> (trxs σ) ∧
    sys_timestamp σ' = sys_timestamp σ ∧ gclist_state σ' = gclist_state σ.
Proof.
  induction ls as [| i ls IH] using rev_ind; intros σ ns gs tr Hok Hpc Ht Hls.
  - exists σ, ns, gs. split_and!; [apply rtc_refl | done | | done | | done | done].
    + symmetry. apply list_filter_total. set_solver.
    + destruct tr as [ts a l]. cbn in Hls. subst l. unfold set_trx_locks. cbn. by rewrite list_insert_id.
  - destruct (release_one t σ ns gs tr ls i Hok Hpc Ht Hls) as (σ1 & ns1 & gs1 & Hr1 & Hok1 & Hg1 & P1 & T1 & Y1 & G1).
    destruct (IH σ1 ns1 gs1 (set_trx_locks ls tr)) as (σ2 & ns2 & gs2 & Hr2 & Hok2 & Hg2 & P2 & T2 & Y2 & G2).
    + done.
    + rewrite P1. apply list_lookup_insert_eq. by eapply lookup_lt_Some.
    + rewrite T1. apply list_lookup_insert_eq. by eapply lookup_lt_Some.
    + done.
    + exists σ2, ns2, gs2. split_and!; [by etrans | done | | | | congruence | congruence].
      * rewrite Hg2, Hg1, list_filter_filter. apply list_filter_iff. intros x. set_solver.
      * rewrite P2, P1. by apply list_insert_id.
      * rewrite T2, T1, list_insert_insert_eq. done.
Qed.
