(* ===== verification/RecLockGc.v ===== *)
(** * Record locks of project 4: commits and acquisitions as a whole

    The physical deletion at the end of a commit, and the contracts of the two operations
    when nothing else runs: [acquire_alone] and [commit_alone]. *)

From S2P Require Import Prelude RecLock RecLockSeq.

(** ** The physical deletion *)

Definition ts_of (σ : rsys) (l : nat) : Z := match locks σ !! l with Some x => timestamp x | None => 0 end.

(** What the deletion leaves; [ds] are the freed locks. *)
Record freed (t : nat) (ds : list nat) (σ σ' : rsys) : Prop := {
  fr_trxs : trxs σ' = trxs σ;
  fr_count : n_rec_locks σ' = n_rec_locks σ;
  fr_time : sys_timestamp σ' = sys_timestamp σ;
  fr_gc : gclist_state σ' = gclist_state σ;
  fr_keep l : l ∉ ds → status σ' l = status σ l ∧ ts_of σ' l = ts_of σ l;
  fr_gone l : l ∈ ds → locks σ' !! l = None;
  fr_pcs : ∃ p, rpcs σ' = <[t := p]> (rpcs σ)
}.

Lemma freed_trans t ds1 ds2 σ1 σ2 σ3 :
  freed t ds1 σ1 σ2 → freed t ds2 σ2 σ3 → freed t (ds1 ++ ds2) σ1 σ3.
Proof.
  intros [A1 A2 A3 A4 A5 A6 [p A7]] [B1 B2 B3 B4 B5 B6 [q B7]]. split; try congruence.
  - intros l [H1 H2]%not_elem_of_app. destruct (A5 l H1), (B5 l H2). split; congruence.
  - intros l Hl. destruct (decide (l ∈ ds2)) as [H2 | H2]; [by apply B6 |].
    apply elem_of_app in Hl as [H1 | ?]; [| done]. destruct (B5 l H2) as [Hs _]. unfold status in Hs.
    rewrite (A6 l H1) in Hs. by destruct (locks σ3 !! l).
  - exists q. by rewrite B7, A7, list_insert_insert_eq.
Qed.

Lemma freed_one t p x σ ls c' :
  rpcs σ !! t = Some p → ls !! x = None →
  (∀ l, l ≠ x → timestamp <$> ls !! l = timestamp <$> locks σ !! l) →
  (∀ l, l ≠ x → (λ z, (trx z, state z)) <$> ls !! l = status σ l) →
  freed t [x] σ (with_locks ls (with_gclist c' σ)).
Proof.
  intros Hp Hx Ht Hs. split; try done.
  - intros l [Hl _]%not_elem_of_cons. split; [by apply Hs |]. unfold ts_of. cbn.
    specialize (Ht l Hl). destruct (ls !! l), (locks σ !! l); naive_solver.
  - by intros l ->%list_elem_of_singleton.
  - exists p. cbn. by rewrite list_insert_id.
Qed.

Lemma freed_nothing t p σ : rpcs σ !! t = Some p → freed t [] σ σ.
Proof. intros Hp. split; try done; [by intros l Hl%not_elem_of_nil | exists p; by rewrite list_insert_id]. Qed.

(** The deletion of a lock of the list of garbage, at its head or after [ks]. *)
Lemma shape_free_head σ ns x rest :
  shape σ ns (x :: rest) → rest ≠ [] →
  shape (with_locks (delete x (locks σ)) (with_gclist (mkCell (head rest) (c_tail (gclist σ))) σ)) ns rest.
Proof.
  intros [S1 S2 S3 S4 S5 S6] Hrest. apply NoDup_app in S6 as (H1 & H2 & [H3 H4]%NoDup_cons).
  assert (x ∉ ns) as Hx by (intros Hx; apply (H2 x Hx); by left).
  split; cbn; try done.
  - rewrite S2. unfold cell_of. cbn [c_tail]. by rewrite last_cons_ne.
  - eapply linked_ext; [| done]. intros l Hl. rewrite lookup_delete_ne; [done | congruence].
  - apply linked_cons in S4 as [_ S4]. eapply linked_ext; [| done]. intros l Hl. rewrite lookup_delete_ne; [done | congruence].
  - intros l Hl. rewrite lookup_delete_ne; [by apply S5 | congruence].
  - apply NoDup_app. split_and!; [done | | done]. intros y Hy Hy'. apply (H2 y Hy). by right.
Qed.

Lemma shape_free_after σ ns ks k x rest ck :
  shape σ ns (ks ++ k :: x :: rest) → rest ≠ [] → locks σ !! k = Some ck →
  shape (with_locks (delete x (<[k := set_gc_hash (head rest) ck]> (locks σ))) σ) ns (ks ++ k :: rest).
Proof.
  intros [S1 S2 S3 S4 S5 S6] Hrest Hk. apply NoDup_app in S6 as (H1 & H2 & H3).
  assert (x ∉ ks ++ k :: rest ∧ NoDup (ks ++ k :: rest)) as [Hx Hnd].
  { rewrite app_cons_assoc in H3. apply NoDup_app in H3 as (A & B & [C D]%NoDup_cons). rewrite (app_cons_assoc ks k rest).
    split; [intros [?%B | ?]%elem_of_app; set_solver | apply NoDup_app; split_and!; [done | | done]; set_solver]. }
  assert (x ∉ ns ∧ k ∉ ns) as [Hxn Hkn] by (split; intros Hn; apply (H2 _ Hn); set_solver).
  split; cbn; try done.
  - rewrite S2. unfold cell_of. f_equal; [by destruct ks |]. rewrite !last_app_cons, !last_cons_ne by (done || by destruct rest). done.
  - eapply linked_ext; [| done]. intros l Hl. rewrite lookup_delete_ne, lookup_insert_ne by congruence. done.
  - eapply linked_ext; [| by eapply (linked_cut _ gc_hash set_gc_hash ks k x rest ck)].
    intros l Hl. rewrite lookup_delete_ne by congruence. done.
  - intros l Hl. rewrite lookup_delete_ne, lookup_insert_ne by congruence. by apply S5.
  - apply NoDup_app. split_and!; [done | | done]. intros y Hy Hy'. apply (H2 y Hy). set_solver.
Qed.

(** One turn of the loop at the lock [x], with the locks [ks] before it kept. *)
Lemma gc_turn_spec t m ks x rest ns σ p :
  rpcs σ !! t = Some p → shape σ ns (ks ++ x :: rest) → rest ≠ [] →
  ∃ σ1, gc_turn m (last ks) x σ = Ret (if decide (m ≤ ts_of σ x) then Some x else last ks, head rest, σ1) ∧
    shape σ1 ns (ks ++ (if decide (m ≤ ts_of σ x) then [x] else []) ++ rest) ∧
    freed t (if decide (m ≤ ts_of σ x) then [] else [x]) σ σ1 ∧ rpcs σ1 = rpcs σ.
Proof.
  intros Hpc Hsh Hrest. pose proof Hsh as [S1 S2 S3 S4 S5 S6].
  destruct (linked_lookup _ _ _ _ _ S4) as (c & Hc & Hh).
  assert (ts_of σ x = timestamp c) as Hts by (unfold ts_of; by rewrite Hc). rewrite Hts.
  unfold gc_turn. unfold get at 1. rewrite Hc. cbn [of_option]. obind. rewrite S2, Hh. cbn [cell_of c_head c_tail].
  destruct (decide (m ≤ timestamp c)) as [Hkeep | Hfree].
  { rewrite !bool_decide_false by lia. exists σ. split_and!; [by case_decide | done | by eapply freed_nothing | done]. }
  rewrite !bool_decide_true by lia. destruct ks as [| k ks _] using rev_ind.
  - rewrite decide_True by done. eexists. split_and!; [done | | | done].
    + pose proof (shape_free_head σ ns x rest Hsh Hrest) as Hs. rewrite S2 in Hs. exact Hs.
    + eapply freed_one; [done | apply lookup_delete_eq | |]; intros l Hl; unfold status; by rewrite lookup_delete_ne.
  - rewrite <- (assoc_L (++)) in *. cbn [app] in *. destruct (linked_lookup _ _ _ _ _ S4) as (ck & Hk & _).
    assert (x ≠ k ∧ Some x ≠ head (ks ++ k :: x :: rest)) as [Hne Hhd].
    { apply NoDup_app in S6 as (_ & _ & Hnd). split.
      - apply NoDup_app in Hnd as (_ & _ & [Hnd _]%NoDup_cons). set_solver.
      - destruct ks; cbn in *; apply NoDup_cons in Hnd as [Hnd _]; set_solver. }
    rewrite decide_False by done. rewrite last_snoc. cbn [of_option]. obind. unfold put, get. rewrite Hk. cbn [of_option]. obind.
    eexists. split_and!; [done | rewrite <- app_cons_assoc; by apply (shape_free_after σ ns ks k x rest ck) | | done].
    eapply (freed_one t p x σ _ (gclist σ)); [done | apply lookup_delete_eq | |]; intros l Hl; rewrite lookup_delete_ne by done.
    + by apply (field_put timestamp (locks σ) k ck (set_gc_hash (head rest))).
    + by apply (status_put σ k ck (set_gc_hash (head rest))).
Qed.

(** The whole loop: of the locks before the old tail [z] those younger than [m] stay. *)
Lemma gc_loop t m z todo : ∀ ks σ ns,
  shape σ ns (ks ++ todo ++ [z]) → rpcs σ !! t = Some (XLoop m (Some z) (last ks) (head (todo ++ [z]))) →
  is_Some (trxs σ !! t) →
  ∃ σ', rtc (tstep t) σ σ' ∧ shape σ' ns (ks ++ filter (λ l, m ≤ ts_of σ l) todo ++ [z]) ∧
    freed t (filter (λ l, ¬ m ≤ ts_of σ l) todo) σ σ' ∧ rpcs σ' !! t = Some XRelease.
Proof.
  induction todo as [| x todo IH]; intros ks σ ns Hsh Hp [tr Htr].
  { exists (goto t XRelease σ). split_and!.
    - apply rtc_once. apply (tstep_intro _ _ _ _ Hp ltac:(done)). unfold rec_step. rewrite Hp. unfold release_step, get_trx. rewrite (at_lookup _ _ _ Htr). cbn.
      by rewrite decide_True.
    - by apply shape_goto.
    - split; try done; [by intros l Hl%not_elem_of_nil | by exists XRelease].
    - by eapply goto_pc. }
  destruct (gc_turn_spec t m ks x (todo ++ [z]) ns σ _ Hp Hsh ltac:(by destruct todo)) as (σ1 & Ht & Hsh1 & Hfr & Hpcs).
  assert (x ≠ z) as Hxz.
  { pose proof (sh_nodup _ _ _ Hsh) as Hnd. apply NoDup_app in Hnd as (_ & _ & Hnd). apply NoDup_app in Hnd as (_ & _ & Hnd).
    cbn in Hnd. apply NoDup_cons in Hnd as [Hnd _]. set_solver. }
  set (ks' := ks ++ (if decide (m ≤ ts_of σ x) then [x] else [])).
  set (σ2 := goto t (XLoop m (Some z) (last ks') (head (todo ++ [z]))) σ1).
  assert (tstep t σ σ2) as Hstep.
  { apply (tstep_intro _ _ _ _ Hp ltac:(done)). unfold rec_step. rewrite Hp. unfold release_step, get_trx. rewrite (at_lookup _ _ _ Htr). cbn [of_option app head]. obind.
    rewrite decide_False by congruence. rewrite Ht. obind. unfold σ2, ks'. do 4 f_equal.
    destruct (decide _); [by rewrite last_snoc | by rewrite (right_id_L [] (++))]. }
  assert (freed t (if decide (m ≤ ts_of σ x) then [] else [x]) σ σ2) as Hfr2.
  { rewrite <- (app_nil_r (if decide _ then [] else [x])). eapply freed_trans; [exact Hfr |]. split; try done;
      [by intros l Hl%not_elem_of_nil | by eexists]. }
  assert (∀ l, l ∈ todo → ts_of σ2 l = ts_of σ l) as Hts.
  { intros l Hl. apply (fr_keep _ _ _ _ Hfr2). destruct (decide _); [set_solver |].
    pose proof (sh_nodup _ _ _ Hsh) as Hnd. apply NoDup_app in Hnd as (_ & _ & Hnd). apply NoDup_app in Hnd as (_ & _ & Hnd).
    cbn in Hnd. apply NoDup_cons in Hnd as [Hnd _]. set_solver. }
  destruct (IH ks' σ2 ns) as (σ3 & Hr & Hsh3 & Hfr3 & Hp3).
  - unfold ks'. rewrite <- (assoc_L (++)). by apply shape_goto.
  - eapply goto_pc. by rewrite Hpcs.
  - rewrite (fr_trxs _ _ _ _ Hfr2). eauto.
  - rewrite (filter_ext_in _ (λ l, m ≤ ts_of σ l)) in Hsh3 by (intros l Hl; by rewrite Hts).
    rewrite (filter_ext_in _ (λ l, ¬ m ≤ ts_of σ l)) in Hfr3 by (intros l Hl; by rewrite Hts).
    exists σ3. split_and!; [by eapply rtc_l | | | done].
    + unfold ks' in Hsh3. rewrite filter_cons. destruct (decide _); [| by rewrite (right_id_L [] (++)) in Hsh3].
      by rewrite <- (assoc_L (++)) in Hsh3.
    + pose proof (freed_trans _ _ _ _ _ _ Hfr2 Hfr3) as Hf. rewrite filter_cons.
      repeat destruct (decide _); tauto || done.
Qed.

(** ** Commits *)

Lemma status_dom σ l : is_Some (locks σ !! l) ↔ is_Some (status σ l).
Proof. unfold status. by rewrite fmap_is_Some. Qed.

Lemma rec_ok_freed t ds σ σ' ns gs gs' :
  rec_ok σ ns gs → shape σ' ns gs' → freed t ds σ σ' → gs ≡ₚ ds ++ gs' → rec_ok σ' ns gs'.
Proof.
  intros [R1 R2 R3 R4 R5 R6] Hsh Hfr Hgs.
  assert (∀ l, l ∈ ds → l ∉ ns ++ gs') as Hds.
  { pose proof (sh_nodup _ _ _ R1) as Hnd. rewrite Hgs in Hnd. apply NoDup_app in Hnd as (_ & H1 & H2).
    apply NoDup_app in H2 as (_ & H2 & _). intros l Hl [Hn | Hg]%elem_of_app; [apply (H1 l Hn); set_solver | by apply (H2 l)]. }
  assert (∀ l, l ∉ ds → status σ' l = status σ l) as Hst by (intros l Hl; by apply Hfr).
  assert (∀ l, l ∈ ds → ¬ is_Some (status σ' l)) as Hgone.
  { intros l Hl. rewrite <- status_dom, (fr_gone _ _ _ _ Hfr l Hl). by intros [??]. }
  split; [done | | | | |].
  - intros l. destruct (decide (l ∈ ds)) as [Hl | Hl].
    + rewrite status_dom. split; [by intros ?%Hgone | by intros ?%Hds].
    + rewrite status_dom, Hst, <- status_dom, R2, Hgs by done. set_solver.
  - intros l Hl. unfold alive. rewrite Hst; [apply R3; rewrite Hgs; set_solver |]. intros ?%Hds. set_solver.
  - intros t' tr l Htr. rewrite (fr_trxs _ _ _ _ Hfr) in Htr. rewrite (R4 t' tr l Htr).
    destruct (decide (l ∈ ds)) as [Hl | Hl]; [| by rewrite Hst]. split; intros Hs.
    + exfalso. apply (R3 l); [rewrite Hgs; set_solver |]. unfold alive. by rewrite Hs.
    + exfalso. apply (Hgone l Hl). by rewrite Hs.
  - intros t' tr Htr. rewrite (fr_trxs _ _ _ _ Hfr) in Htr. by apply (R5 t').
  - rewrite (fr_count _ _ _ _ Hfr), R6. do 2 f_equal. apply filter_ext_in. intros l Hl. unfold alive.
    rewrite Hst; [done |]. intros ?%Hds. set_solver.
Qed.

(** No transaction is inside an operation. *)
Record quiet (σ : rsys) (ns gs : list nat) : Prop := {
  qu_ok : rec_ok σ ns gs;
  qu_idle : rpcs σ = replicate (length (trxs σ)) Idle;
  qu_gc : gclist_state σ = false
}.

(** The invariant depends on the transactions through their lists of locks only. *)
Lemma rec_ok_trxs σ σ' ns gs :
  rec_ok σ ns gs → locks σ' = locks σ → cell σ' = cell σ → gclist σ' = gclist σ → n_rec_locks σ' = n_rec_locks σ →
  trx_locks <$> trxs σ' = trx_locks <$> trxs σ → rec_ok σ' ns gs.
Proof.
  intros [[S1 S2 S3 S4 S5 S6] R2 R3 R4 R5 R6] E1 E2 E3 E4 E5.
  assert (∀ l, status σ' l = status σ l) as Hst by (intros l; unfold status; by rewrite E1).
  assert (∀ t tr, trxs σ' !! t = Some tr → ∃ tr0, trxs σ !! t = Some tr0 ∧ trx_locks tr0 = trx_locks tr) as Htr.
  { intros t tr Htr. assert ((trx_locks <$> trxs σ') !! t = Some (trx_locks tr)) as Hl by (by rewrite list_lookup_fmap, Htr).
    rewrite E5, list_lookup_fmap in Hl. destruct (trxs σ !! t) as [tr0 |]; [| done]. exists tr0. by injection Hl as ->. }
  split; [split; rewrite ?E1, ?E2, ?E3; done | by rewrite E1 | | | |].
  - intros l Hl. unfold alive. rewrite Hst. by apply R3.
  - intros t tr l (tr0 & Ht0 & <-)%Htr. rewrite Hst. by apply R4.
  - intros t tr (tr0 & Ht0 & <-)%Htr. by eapply R5.
  - rewrite E4, R6. do 2 f_equal. apply list_filter_iff. intros l. unfold alive. by rewrite Hst.
Qed.

Lemma trx_locks_insert (trs : list trx_t) t tr tr' :
  trs !! t = Some tr → trx_locks tr' = trx_locks tr → trx_locks <$> <[t := tr']> trs = trx_locks <$> trs.
Proof. intros Ht Hl. rewrite list_fmap_insert, Hl. apply list_insert_id. by rewrite list_lookup_fmap, Ht. Qed.

Lemma gc_all t m σ ns gs :
  shape σ ns gs → rpcs σ !! t = Some (XLoop m (last gs) None (head gs)) → is_Some (trxs σ !! t) →
  ∃ σ' ds gs', rtc (tstep t) σ σ' ∧ shape σ' ns gs' ∧ freed t ds σ σ' ∧ rpcs σ' !! t = Some XRelease ∧
    gs ≡ₚ ds ++ gs' ∧ ∀ l, l ∈ gs' → Some l ≠ last gs' → m ≤ ts_of σ' l.
Proof.
  intros Hsh Hp [tr Ht]. destruct gs as [| z todo _] using rev_ind.
  - exists (goto t XRelease σ), [], []. split_and!; [| by apply shape_goto | | by eapply goto_pc | done | set_solver].
    + apply rtc_once. apply (tstep_intro _ _ _ _ Hp ltac:(done)). unfold rec_step. rewrite Hp. unfold release_step, get_trx. by rewrite (at_lookup _ _ _ Ht).
    + split; try done; [by intros l Hl%not_elem_of_nil | by eexists].
  - rewrite last_snoc in Hp. destruct (gc_loop t m z todo [] σ ns) as (σ' & Hr & Hsh' & Hfr & Hp'); [done | done | eauto |].
    exists σ', (filter (λ l, ¬ m ≤ ts_of σ l) todo), (filter (λ l, m ≤ ts_of σ l) todo ++ [z]).
    split_and!; try done.
    + rewrite (assoc_L (++)), (comm (++) (filter _ _)). f_equiv. symmetry. apply filter_app_complement.
    + intros l Hl Hne. rewrite last_snoc in Hne. apply elem_of_app in Hl as [Hl | Hl]; [| set_solver].
      apply list_elem_of_filter in Hl as [Hm Hl].
      destruct (fr_keep _ _ _ _ Hfr l) as [_ ->]; [by intros []%list_elem_of_filter | done].
Qed.

(** From the end of the releases to the next operation: the deletion of the garbage. *)
Lemma clean_up t σ ns gs tr :
  rec_ok σ ns gs → rpcs σ !! t = Some Release → trxs σ !! t = Some tr → trx_locks tr = [] → gclist_state σ = false →
  ∃ σ' gs', rtc (tstep t) σ σ' ∧ rec_ok σ' ns gs' ∧ granted σ' ns = granted σ ns ∧
    rpcs σ' = <[t := Idle]> (rpcs σ) ∧ trxs σ' = <[t := mkTrx (t_timestamp tr) false []]> (trxs σ) ∧
    sys_timestamp σ' = sys_timestamp σ ∧ gclist_state σ' = false ∧
    (∀ l, l ∈ gs' → Some l ≠ last gs' → min_active (trxs σ) ≤ ts_of σ' l).
Proof.
  intros Hok Hp Ht Hls Hgc. set (m := min_active (trxs σ)). pose proof Hok as [Hsh _ _ _ _ _].
  set (σ1 := goto t XTas σ). set (σ2 := goto t XRead (with_gclist_state true σ1)).
  set (σ3 := goto t (XLoop m (last gs) None (head gs)) σ2).
  assert (rpcs σ1 !! t = Some XTas) as P1 by (by eapply goto_pc).
  assert (rpcs σ2 !! t = Some XRead) as P2 by (by eapply goto_pc).
  assert (rpcs σ3 !! t = Some (XLoop m (last gs) None (head gs))) as P3 by (by eapply goto_pc).
  assert (rtc (tstep t) σ σ3) as Hr3.
  { eapply rtc_l; [| eapply (rtc_l _ σ1 σ2); [| apply rtc_once]].
    - apply (tstep_intro _ _ _ _ Hp ltac:(done)). unfold rec_step. rewrite Hp. unfold release_step, get_trx. rewrite (at_lookup _ _ _ Ht). obind. by rewrite Hls.
    - apply (tstep_intro _ _ _ _ P1 ltac:(done)). unfold rec_step. rewrite P1. unfold release_step, get_trx, σ1. cbn [trxs goto gclist_state].
      rewrite (at_lookup _ _ _ Ht). obind. by rewrite Hgc.
    - apply (tstep_intro _ _ _ _ P2 ltac:(done)). unfold rec_step. rewrite P2. unfold release_step, get_trx, σ2, σ1. cbn [trxs goto with_gclist_state gclist].
      rewrite (at_lookup _ _ _ Ht). obind. by rewrite (sh_gc _ _ _ Hsh). }
  destruct (gc_all t m σ3 ns gs) as (σ4 & ds & gs' & Hr4 & Hsh4 & Hfr & P4 & Hperm & Hold); [by destruct Hsh; split | done | by exists tr |].
  assert (rec_ok σ3 ns gs) as Hok3 by (by eapply rec_ok_trxs).
  pose proof (rec_ok_freed _ _ _ _ _ _ _ Hok3 Hsh4 Hfr Hperm) as Hok4.
  set (σ5 := goto t Idle (with_gclist_state false (with_trx t (mkTrx (t_timestamp tr) false (trx_locks tr)) σ4))).
  assert (trxs σ4 !! t = Some tr) as Ht4 by (by rewrite (fr_trxs _ _ _ _ Hfr)).
  exists σ5, gs'. split_and!.
  - etrans; [exact Hr3 |]. etrans; [exact Hr4 |]. apply rtc_once. apply (tstep_intro _ _ _ _ P4 ltac:(done)). unfold rec_step. rewrite P4.
    unfold release_step, get_trx. by rewrite (at_lookup _ _ _ Ht4).
  - eapply rec_ok_trxs; [exact Hok4 | done | done | done | done | by eapply trx_locks_insert].
  - unfold granted. apply filter_ext_in. intros l Hl. unfold alive. change (status σ5 l) with (status σ4 l).
    change (status σ l) with (status σ3 l). rewrite (proj1 (fr_keep _ _ _ _ Hfr l ltac:(
      pose proof (sh_nodup _ _ _ Hsh) as Hnd; rewrite Hperm in Hnd; apply NoDup_app in Hnd as (_ & Hd & _);
      intros Hx; apply (Hd l Hl); set_solver))). done.
  - destruct (fr_pcs _ _ _ _ Hfr) as [p Hpcs]. cbn. rewrite Hpcs. cbn. by rewrite !list_insert_insert_eq.
  - cbn. rewrite (fr_trxs _ _ _ _ Hfr), Hls. done.
  - apply (fr_time _ _ _ _ Hfr).
  - done.
  - done.
Qed.

(** A whole operation of [t], with no step of another transaction in between. *)
Definition run_op (t : nat) (a : action) (σ σ' : rsys) : Prop :=
  ∃ σ1, rec_step t a σ = Ret (Some σ1) ∧ rtc (tstep t) σ1 σ' ∧ rpcs σ' !! t = Some Idle.

Lemma commit_alone t σ ns gs tr :
  quiet σ ns gs → trxs σ !! t = Some tr →
  ∃ σ' ns' gs', run_op t Commit σ σ' ∧ quiet σ' ns' gs' ∧
    granted σ' ns' = filter (.∉ trx_locks tr) (granted σ ns) ∧
    trxs σ' = <[t := mkTrx (sys_timestamp σ) false []]> (trxs σ) ∧
    sys_timestamp σ' = sys_timestamp σ + 1 ∧
    (trx_locks tr ≠ [] → ∀ l, l ∈ gs' → Some l ≠ last gs' →
      min_active (<[t := mkTrx (sys_timestamp σ) (active tr) []]> (trxs σ)) ≤ ts_of σ' l).
Proof.
  intros [Hok Hidle Hgc] Ht. set (tr1 := mkTrx (sys_timestamp σ) (active tr) (trx_locks tr)).
  assert (rpcs σ !! t = Some Idle) as Hp by (rewrite Hidle; apply lookup_replicate_2; by eapply lookup_lt_Some).
  set (σ0 := with_trx t tr1 (with_sys_timestamp (sys_timestamp σ + 1) σ)).
  assert (rec_ok σ0 ns gs) as Hok0 by (eapply rec_ok_trxs; [exact Hok | done | done | done | done | by eapply trx_locks_insert]).
  assert (trxs σ0 !! t = Some tr1) as Ht0 by (apply list_lookup_insert_eq; by eapply lookup_lt_Some).
  destruct (trx_locks tr) as [| i ls] eqn:Hls.
  - exists (with_trx t (mkTrx (sys_timestamp σ) false []) σ0), ns, gs.
    assert (trxs (with_trx t (mkTrx (sys_timestamp σ) false []) σ0) = <[t := mkTrx (sys_timestamp σ) false []]> (trxs σ)) as Htr.
    { cbn. by rewrite list_insert_insert_eq. }
    split_and!; try done.
    + eexists. split_and!; [| apply rtc_refl | done]. unfold rec_step. rewrite Hp. unfold idle_step, get_trx.
      rewrite (at_lookup _ _ _ Ht). obind. cbn [trx_locks]. by rewrite Hls.
    + split; [| by rewrite Htr, length_insert | done].
      eapply rec_ok_trxs; [exact Hok0 | done | done | done | done |]. by eapply trx_locks_insert.
    + symmetry. apply list_filter_total. set_solver.
  - set (σ1 := goto t Release σ0).
    assert (rpcs σ1 !! t = Some Release) as P1 by (by eapply goto_pc).
    destruct (release_all t (i :: ls) σ1 ns gs tr1) as (σ2 & ns2 & gs2 & Hr2 & Hok2 & Hg2 & P2 & T2 & Y2 & G2);
      [by eapply (rec_ok_trxs σ0) | done | done | done |].
    assert (trxs σ2 !! t = Some (set_trx_locks [] tr1)) as Ht2.
    { rewrite T2. apply list_lookup_insert_eq. by eapply lookup_lt_Some. }
    destruct (clean_up t σ2 ns2 gs2 (set_trx_locks [] tr1)) as (σ3 & gs3 & Hr3 & Hok3 & Hg3 & P3 & T3 & Y3 & G3 & Hold);
      [done | by rewrite P2 | done | done | by rewrite G2 |].
    assert (trxs σ3 = <[t := mkTrx (sys_timestamp σ) false []]> (trxs σ)) as Htr.
    { rewrite T3, T2. cbn. by rewrite !list_insert_insert_eq. }
    exists σ3, ns2, gs3. split_and!; [| | by rewrite Hg3, Hg2 | done | by rewrite Y3, Y2 |].
    + exists σ1. split_and!; [| by etrans; [exact Hr2 | exact Hr3] |].
      * unfold rec_step. rewrite Hp. unfold idle_step, get_trx. rewrite (at_lookup _ _ _ Ht). obind.
        cbn [trx_locks]. by rewrite Hls.
      * rewrite P3. apply list_lookup_insert_eq. rewrite P2. by eapply lookup_lt_Some.
    + split; [done | | done]. rewrite Htr, length_insert, P3, P2. cbn. rewrite list_insert_insert_eq, Hidle.
      apply list_insert_id. apply lookup_replicate_2. by eapply lookup_lt_Some.
    + intros _. rewrite T2 in Hold. cbn in Hold. by rewrite list_insert_insert_eq in Hold.
Qed.

(** ** Acquisitions *)

(** The memory after a lock [x] at [l] is linked behind [ns]. *)
Definition appended (ls : gmap nat lock_t) (ns : list nat) (l : nat) (x : lock_t) : gmap nat lock_t :=
  match last ns with
  | Some y => alter (set_hash (Some l)) y (<[l := x]> ls)
  | None => <[l := x]> ls
  end.

Lemma appended_lookup ls ns l x :
  l ∉ ns → appended ls ns l x !! l = Some x ∧
  ∀ l', l' ≠ l → ∀ {A} (f : lock_t → A), (∀ p z, f (set_hash p z) = f z) → f <$> appended ls ns l x !! l' = f <$> ls !! l'.
Proof.
  intros Hl. unfold appended. destruct (last ns) as [y |] eqn:Hy.
  - assert (y ≠ l) as Hne by (intros ->; apply Hl; apply last_Some in Hy as [? ->]; set_solver).
    split; [by rewrite lookup_alter_ne, lookup_insert_eq |]. intros l' Hl' A f Hf.
    destruct (decide (l' = y)) as [-> |]; [| by rewrite lookup_alter_ne, lookup_insert_ne].
    rewrite lookup_alter_eq, lookup_insert_ne by done. destruct (ls !! y); cbn; [by rewrite Hf | done].
  - split; [by rewrite lookup_insert_eq |]. intros l' Hl' A f _. by rewrite lookup_insert_ne.
Qed.

Lemma linked_fresh ls f l x ns : l ∉ ns → linked ls f ns → linked (<[l := x]> ls) f ns.
Proof. intros Hl. apply linked_ext. intros y Hy. by rewrite lookup_insert_ne by congruence. Qed.

Lemma alter_as_insert (ls : gmap nat lock_t) y z f : ls !! y = Some z → alter f y ls = <[y := f z]> ls.
Proof.
  intros Hz. apply map_eq. intros k. destruct (decide (k = y)) as [-> |].
  - by rewrite lookup_alter_eq, lookup_insert_eq, Hz.
  - by rewrite lookup_alter_ne, lookup_insert_ne.
Qed.

(** The four steps of an acquisition. *)
Lemma acquire_run t mode l σ ns gs tr x :
  shape σ ns gs → rpcs σ !! t = Some Idle → trxs σ !! t = Some tr → locks σ !! l = None → l ∉ ns →
  x = project4_lock_alloc t tr mode →
  ∃ σ1, rec_step t (Acquire mode l) σ = Ret (Some σ1) ∧
    rtc (tstep t) σ1 (mkRsys (appended (locks σ) ns l x) (cell_of (ns ++ [l])) (gclist σ) (gclist_state σ)
      (n_rec_locks σ + 1) (sys_timestamp σ) (<[t := mkTrx (t_timestamp tr) true (trx_locks tr ++ [l])]> (trxs σ))
      (<[t := Idle]> (rpcs σ))).
Proof.
  intros [S1 S2 S3 S4 S5 S6] Hp Ht Hl Hln Hx. set (ls := <[l := x]> (locks σ)).
  assert (t < length (trxs σ) ∧ t < length (rpcs σ))%nat as [Hlt Hlp] by (split; by eapply lookup_lt_Some).
  set (tr1 := mkTrx (t_timestamp tr) true (trx_locks tr)).
  set (st c ls p := mkRsys ls c (gclist σ) (gclist_state σ) (n_rec_locks σ + 1) (sys_timestamp σ) (<[t := tr1]> (trxs σ)) (<[t := p]> (rpcs σ))).
  assert (∀ c ls p, rpcs (st c ls p) !! t = Some p) as Hpc by (intros; by apply list_lookup_insert_eq).
  assert (∀ c ls p q c' ls', goto t p (st c ls q) = st c ls p ∧ with_cell c' (st c ls p) = st c' ls p ∧ with_locks ls' (st c ls p) = st c ls' p) as Hst.
  { intros. split_and!; [unfold goto, st; cbn; by rewrite list_insert_insert_eq | done | done]. }
  exists (st (cell σ) ls (InTas l)). split.
  { unfold rec_step. rewrite Hp. unfold idle_step, get_trx. rewrite (at_lookup _ _ _ Ht). obind. rewrite Hl. by rewrite <- Hx. }
  set (c1 := mkCell (head ns) (Some l)).
  apply (rtc_l _ _ (st c1 ls (InLink l (last ns)))).
  { eapply tstep_intro; [apply Hpc | done |]. unfold rec_step. rewrite Hpc. unfold insert_step. cbn [cell st]. rewrite S1. cbn [cell_of c_tail c_head].
    by rewrite (proj1 (proj2 (Hst _ _ _ (InTas l) c1 ls))), (proj1 (Hst _ _ _ _ c1 ls)). }
  apply (rtc_l _ _ (st (cell_of (ns ++ [l])) (appended (locks σ) ns l x) (InTrx l))).
  { eapply tstep_intro; [apply Hpc | done |]. unfold rec_step. rewrite Hpc. unfold insert_step, appended, cell_of. rewrite last_snoc, head_snoc.
    destruct (last ns) as [y |] eqn:Hy.
    - apply last_Some in Hy as [ns1 ->]. destruct (linked_lookup _ _ _ _ _ S3) as (z & Hz & _).
      assert (ls !! y = Some z) as Hz' by (unfold ls; rewrite lookup_insert_ne; [done | set_solver]).
      unfold put, get. cbn [locks st]. rewrite Hz'. cbn [of_option]. obind. fold ls.
      rewrite (alter_as_insert ls y z _ Hz'). unfold c1. rewrite head_snoc. unfold goto, with_locks, st. cbn.
      rewrite list_insert_insert_eq. by destruct (head ns1).
    - apply last_None in Hy as ->. unfold goto, with_cell, st. cbn. by rewrite list_insert_insert_eq. }
  apply rtc_once. eapply tstep_intro; [apply Hpc | done |]. unfold rec_step. rewrite Hpc. unfold insert_step, get_trx. cbn [trxs st].
  erewrite at_lookup by (by apply list_lookup_insert_eq). obind. unfold goto, with_trx, st. cbn. by rewrite !list_insert_insert_eq.
Qed.

Lemma shape_appended σ ns gs l x σ' :
  shape σ ns gs → l ∉ ns ++ gs → hash x = None → gc_hash x = None →
  locks σ' = appended (locks σ) ns l x → cell σ' = cell_of (ns ++ [l]) → gclist σ' = gclist σ →
  shape σ' (ns ++ [l]) gs.
Proof.
  intros [S1 S2 S3 S4 S5 S6] Hl Hh Hgc E1 E2 E3. apply not_elem_of_app in Hl as [Hln Hlg].
  destruct (appended_lookup (locks σ) ns l x Hln) as [Hx Hrest].
  assert (∀ y, y ∈ ns ++ gs → y ≠ l) as Hne by (intros y Hy ->; set_solver).
  apply NoDup_app in S6 as (H1 & H2 & H3).
  split; rewrite ?E1; [done | congruence | | | |].
  - set (ls := <[l := x]> (locks σ)).
    assert (linked ls hash ns) as Hlk by (by apply linked_fresh).
    assert (∃ z, last ns = None ∨ ∃ y, last ns = Some y ∧ ls !! y = Some z) as [z Hz].
    { destruct (last ns) as [y |] eqn:Hy; [| exists x; by left]. apply last_Some in Hy as [ns1 ->].
      destruct (linked_lookup _ _ _ _ _ Hlk) as (z & Hz & _). exists z. right. eauto. }
    assert (appended (locks σ) ns l x = match last ns with Some y => <[y := set_hash (Some l) z]> ls | None => ls end) as ->.
    { unfold appended. destruct Hz as [-> | (y & -> & Hz)]; [done |]. by apply alter_as_insert. }
    apply linked_snoc; [done | | unfold ls; rewrite lookup_insert_eq; cbn; by rewrite Hh | done | done].
    apply NoDup_app. split_and!; [done | | apply NoDup_singleton]. intros y Hy ->%list_elem_of_singleton. done.
  - eapply linked_ext; [| done]. intros y Hy. apply Hrest; [| done]. apply Hne. set_solver.
  - intros y [Hy | ->%list_elem_of_singleton]%elem_of_app; [| by rewrite Hx; cbn; rewrite Hgc].
    rewrite (Hrest y (Hne y ltac:(set_solver))) by done. by apply S5.
  - rewrite <- (assoc_L (++)). apply NoDup_app. split_and!; [done | | ].
    + intros y Hy [-> | ?]%elem_of_cons; [done | by apply (H2 y)].
    + by apply NoDup_cons.
Qed.

Lemma acquire_alone t mode l σ ns gs tr :
  quiet σ ns gs → trxs σ !! t = Some tr → locks σ !! l = None →
  ∃ σ', run_op t (Acquire mode l) σ σ' ∧ quiet σ' (ns ++ [l]) gs ∧
    granted σ' (ns ++ [l]) = granted σ ns ++ [l] ∧
    trxs σ' = <[t := mkTrx (t_timestamp tr) true (trx_locks tr ++ [l])]> (trxs σ).
Proof.
  intros [Hok Hidle Hgc] Ht Hl. pose proof Hok as [R1 R2 R3 R4 R5 R6].
  assert (rpcs σ !! t = Some Idle) as Hp by (rewrite Hidle; apply lookup_replicate_2; by eapply lookup_lt_Some).
  assert (l ∉ ns ++ gs) as Hln by (rewrite <- R2, Hl; by intros [??]).
  pose proof (proj1 (proj1 (not_elem_of_app _ _ _) Hln)) as Hln'.
  set (x := project4_lock_alloc t tr mode).
  destruct (acquire_run t mode l σ ns gs tr x R1 Hp Ht Hl Hln' eq_refl) as (σ1 & Hs1 & Hr).
  match type of Hr with rtc _ _ ?s => set (σ' := s) in Hr end.
  destruct (appended_lookup (locks σ) ns l x Hln') as [Hx Hrest].
  assert (∀ l', status σ' l' = if decide (l' = l) then Some (t, true) else status σ l') as Hst.
  { intros l'. unfold status. cbn. case_decide as Hl'; [by rewrite Hl', Hx | by apply Hrest]. }
  assert (granted σ' (ns ++ [l]) = granted σ ns ++ [l]) as Hg.
  { unfold granted. rewrite filter_app. f_equal.
    - apply filter_ext_in. intros y Hy. unfold alive. rewrite Hst, decide_False; [done | congruence].
    - rewrite filter_cons_True; [done |]. unfold alive. by rewrite Hst, decide_True. }
  assert (t < length (trxs σ))%nat as Hlt by (by eapply lookup_lt_Some).
  exists σ'. split_and!; [exists σ1; split_and!; [done | done | apply list_lookup_insert_eq; by eapply lookup_lt_Some] | | done | done].
  split; [| cbn; rewrite length_insert, Hidle; apply list_insert_id; by apply lookup_replicate_2 | done].
  split.
  - by apply (shape_appended σ ns gs l x).
  - intros l'. rewrite status_dom, Hst. case_decide as Hl'; [subst; set_solver |]. rewrite <- status_dom, R2. set_solver.
  - intros l' Hl'. unfold alive. rewrite Hst, decide_False; [by apply R3 | intros ->; set_solver].
  - intros t' tr' l' Htr'. rewrite Hst. cbn in Htr'. destruct (decide (t' = t)) as [-> | Hne].
    + rewrite list_lookup_insert_eq in Htr' by done. injection Htr' as <-. cbn. rewrite elem_of_app, (R4 t tr l' Ht).
      rewrite list_elem_of_singleton. case_decide; naive_solver.
    + rewrite list_lookup_insert_ne in Htr' by done. rewrite (R4 t' tr' l' Htr'). case_decide as Hl'; [| done]. subst l'.
      split; [intros Hs | congruence]. apply mk_is_Some, status_dom in Hs. rewrite Hl in Hs. by destruct Hs.
  - intros t' tr' Htr'. cbn in Htr'. destruct (decide (t' = t)) as [-> | Hne].
    + rewrite list_lookup_insert_eq in Htr' by done. injection Htr' as <-. cbn. apply NoDup_app.
      split_and!; [by apply (R5 t) | | apply NoDup_singleton]. intros y Hy ->%list_elem_of_singleton.
      apply (R4 t tr l Ht), mk_is_Some, status_dom in Hy. rewrite Hl in Hy. by destruct Hy.
    + rewrite list_lookup_insert_ne in Htr' by done. by apply (R5 t').
  - cbn. rewrite R6. change (filter (alive σ') (ns ++ [l])) with (granted σ' (ns ++ [l])).
    rewrite Hg, length_app. unfold granted. cbn. lia.
Qed.

(** ** Histories of whole operations *)

(** The abstract queue: the granted locks of the record in the order of the requests,
    and the locks each transaction holds. *)
Record lock_queue := mkQueue { queue : list nat; held : list (list nat) }.

Definition queue_op (t : nat) (a : action) (s : lock_queue) : lock_queue :=
  match a with
  | Acquire _ l => mkQueue (queue s ++ [l]) (alter (.++ [l]) t (held s))
  | Commit => mkQueue (filter (.∉ held s !!! t) (queue s)) (<[t := []]> (held s))
  end.

(** The states after whole operations, with the queue the same operations give. *)
Inductive serial (n : nat) : rsys → lock_queue → Prop :=
| serial_start : serial n (rec_start n) (mkQueue [] (replicate n []))
| serial_op t a σ σ' s : serial n σ s → (t < n)%nat → run_op t a σ σ' → serial n σ' (queue_op t a s).

Lemma rec_start_quiet n : quiet (rec_start n) [] [].
Proof.
  split; [| cbn; by rewrite length_replicate | done].
  split; [split; cbn; try done; [intros x Hx; by apply not_elem_of_nil in Hx | constructor] | | | | |]; cbn.
  - intros l. split; [by intros [? ?] | set_solver].
  - set_solver.
  - intros t tr l [-> _]%lookup_replicate. unfold status. cbn. set_solver.
  - intros t tr [-> _]%lookup_replicate. constructor.
  - done.
Qed.

Lemma rtc_det {A} (R : A → A → Prop) (Q : A → Prop) :
  (∀ x y z, R x y → R x z → y = z) → (∀ x y, Q x → ¬ R x y) →
  ∀ x y z, rtc R x y → rtc R x z → Q y → Q z → y = z.
Proof.
  intros Hdet Hstop x y z Hy. revert z. induction Hy as [x | x x1 y H1 _ IH]; intros z Hz HQy HQz.
  - destruct Hz as [| x z1 z H2 _]; [done |]. by apply Hstop in H2.
  - destruct Hz as [x | x z1 z H2 Hz]; [by apply Hstop in H1 |]. apply IH; [| done | done].
    by rewrite (Hdet _ _ _ H1 H2).
Qed.

Lemma run_op_det t a σ σ1 σ2 : run_op t a σ σ1 → run_op t a σ σ2 → σ1 = σ2.
Proof.
  intros (τ1 & Hs1 & Hr1 & Hp1) (τ2 & Hs2 & Hr2 & Hp2). rewrite Hs1 in Hs2. injection Hs2 as <-.
  eapply (rtc_det (tstep t) (λ σ, rpcs σ !! t = Some Idle)); [| | done | done | done | done].
  - intros x y z [_ Hy] [_ Hz]. congruence.
  - by intros x y Hx [Hne _].
Qed.

Lemma run_op_fresh t mode l σ σ' : rpcs σ !! t = Some Idle → run_op t (Acquire mode l) σ σ' → locks σ !! l = None.
Proof.
  intros Hp (σ1 & Hs & _). unfold rec_step in Hs. rewrite Hp in Hs. unfold idle_step in Hs.
  apply bind_Ret_inv in Hs as (tr & _ & Hs). by destruct (locks σ !! l).
Qed.

Lemma serial_quiet n σ s :
  serial n σ s → length (trxs σ) = n ∧
  ∃ ns gs, quiet σ ns gs ∧ granted σ ns = queue s ∧ trx_locks <$> trxs σ = held s.
Proof.
  induction 1 as [| t a σ σ' s _ (Hlen & ns & gs & Hq & Hg & Hh) Hlt Hrun].
  { split; [by cbn; rewrite length_replicate |]. exists [], []. split_and!; [apply rec_start_quiet | done |].
    cbn. by rewrite fmap_replicate. }
  destruct (lookup_lt_is_Some_2 (trxs σ) t ltac:(lia)) as [tr Htr].
  assert (held s !! t = Some (trx_locks tr)) as Hht by (rewrite <- Hh, list_lookup_fmap, Htr; done).
  destruct a as [mode l |].
  - assert (rpcs σ !! t = Some Idle) as Hp by (rewrite (qu_idle _ _ _ Hq); apply lookup_replicate_2; lia).
    pose proof (run_op_fresh _ _ _ _ _ Hp Hrun) as Hl.
    destruct (acquire_alone t mode l σ ns gs tr Hq Htr Hl) as (σ2 & Hrun2 & Hq2 & Hg2 & Ht2).
    rewrite (run_op_det _ _ _ _ _ Hrun Hrun2). split; [by rewrite Ht2, length_insert |].
    exists (ns ++ [l]), gs. split_and!; [done | by rewrite Hg2, Hg |]. cbn.
    rewrite Ht2, list_fmap_insert, Hh. symmetry. apply list_eq. intros k. cbn [trx_locks].
    destruct (decide (k = t)) as [-> |]; [| by rewrite list_lookup_alter_ne, list_lookup_insert_ne].
    rewrite list_lookup_alter_eq, Hht, list_lookup_insert_eq; [done |]. by eapply lookup_lt_Some.
  - destruct (commit_alone t σ ns gs tr Hq Htr) as (σ2 & ns2 & gs2 & Hrun2 & Hq2 & Hg2 & Ht2 & _).
    rewrite (run_op_det _ _ _ _ _ Hrun Hrun2). split; [by rewrite Ht2, length_insert |].
    exists ns2, gs2. split_and!; [done | |].
    + rewrite Hg2, Hg. cbn. by rewrite (list_lookup_total_correct _ _ _ Hht).
    + cbn. by rewrite Ht2, list_fmap_insert, Hh.
Qed.

(** [run_op] as a function: the steps up to the end of the operation. *)
Fixpoint finish_op (fuel t : nat) (σ : rsys) : outcome (option rsys) :=
  match rpcs σ !! t with
  | Some Idle => Ret (Some σ)
  | _ => match fuel with
         | O => NoFuel
         | S fuel => o ← rec_step t Commit σ; match o with Some σ => finish_op fuel t σ | None => Ret None end
         end
  end.

Definition run_alone (fuel t : nat) (a : action) (σ : rsys) : outcome (option rsys) :=
  o ← rec_step t a σ; match o with Some σ => finish_op fuel t σ | None => Ret None end.

Lemma finish_op_sound fuel t : ∀ σ σ',
  finish_op fuel t σ = Ret (Some σ') → rtc (tstep t) σ σ' ∧ rpcs σ' !! t = Some Idle.
Proof.
  induction fuel as [| fuel IH]; intros σ σ' Hf; cbn [finish_op] in Hf;
    destruct (decide (rpcs σ !! t = Some Idle)) as [Hp | Hp].
  1, 3: rewrite Hp in Hf; injection Hf as <-; by split; [apply rtc_refl |].
  - destruct (rpcs σ !! t) as [[] |]; done.
  - assert ((o ← rec_step t Commit σ; match o with Some σ => finish_op fuel t σ | None => Ret None end) = Ret (Some σ')) as Hf'
      by (destruct (rpcs σ !! t) as [[] |]; done).
    apply bind_Ret_inv in Hf' as ([σ1 |] & Hs & Hf'); [| done]. destruct (IH _ _ Hf') as [Hr Hp'].
    split; [| done]. by eapply rtc_l.
Qed.

Lemma run_alone_sound fuel t a σ σ' : run_alone fuel t a σ = Ret (Some σ') → run_op t a σ σ'.
Proof.
  intros ([σ1 |] & Hs & Hf)%bind_Ret_inv; [| done]. destruct (finish_op_sound _ _ _ _ Hf). by exists σ1.
Qed.

Fixpoint run_serial (fuel : nat) (ops : list (nat * action)) (σ : rsys) : outcome (option rsys) :=
  match ops with
  | [] => Ret (Some σ)
  | (t, a) :: ops =>
      o ← run_alone fuel t a σ; match o with Some σ => run_serial fuel ops σ | None => Ret None end
  end.

Lemma run_serial_serial fuel n ops : ∀ σ s σ',
  serial n σ s → Forall (λ o, (fst o < n)%nat) ops → run_serial fuel ops σ = Ret (Some σ') →
  serial n σ' (foldl (λ s o, queue_op (fst o) (snd o) s) s ops).
Proof.
  induction ops as [| [t a] ops IH]; intros σ s σ' Hs Hops Hr; [by injection Hr as <- |].
  apply Forall_cons in Hops as [Ht Hops]. apply bind_Ret_inv in Hr as ([σ1 |] & H1 & Hr); [| done].
  eapply IH; [| done | exact Hr]. eapply serial_op; [done | done | by eapply run_alone_sound].
Qed.

(** C13: When operations do not overlap, the latch-free list of record locks refines a queue:
    after every history of whole operations the unmarked locks of the cell's list, in their
    order, are the queue that appends every request and removes at a commit exactly the locks
    of the committing transaction; each transaction's own list agrees, and the two lists in
    memory are well formed, disjoint and hold all memory in use. *)
Theorem serial_refines n σ s :
  serial n σ s → ∃ ns gs, quiet σ ns gs ∧ granted σ ns = queue s ∧ trx_locks <$> trxs σ = held s.
Proof. intros Hs. by destruct (serial_quiet n σ s Hs) as [_ ?]. Qed.

(** C38: Operations that do not overlap terminate: after every history of whole operations, a
    commit, and an acquisition in free memory, runs to its end. *)
Theorem serial_completes n σ s t a :
  serial n σ s → (t < n)%nat → (∀ mode l, a = Acquire mode l → locks σ !! l = None) → ∃ σ', run_op t a σ σ'.
Proof.
  intros Hs Hlt Hfree. destruct (serial_quiet n σ s Hs) as (Hlen & ns & gs & Hq & _).
  destruct (lookup_lt_is_Some_2 (trxs σ) t ltac:(lia)) as [tr Htr]. destruct a as [mode l |].
  - destruct (acquire_alone t mode l σ ns gs tr Hq Htr (Hfree mode l eq_refl)) as (σ' & ? & _). eauto.
  - destruct (commit_alone t σ ns gs tr Hq Htr) as (σ' & ? & ? & ? & _). eauto.
Qed.

(** The physical deletion at the end of a commit that releases a lock leaves, but for the
    tail, no lock on the list of garbage that was unlinked before the time stamp of the
    oldest active transaction, and it frees no lock that is still in the list of the cell. *)
Theorem commit_collects n σ s t σ' tr :
  serial n σ s → (t < n)%nat → trxs σ !! t = Some tr → trx_locks tr ≠ [] → run_op t Commit σ σ' →
  ∃ ns gs, quiet σ' ns gs ∧ (∀ l, l ∈ ns → is_Some (locks σ' !! l)) ∧
    ∀ l, l ∈ gs → Some l ≠ last gs →
      min_active (<[t := mkTrx (sys_timestamp σ) (active tr) []]> (trxs σ)) ≤ ts_of σ' l.
Proof.
  intros Hs Hlt Htr Hne Hrun. destruct (serial_quiet n σ s Hs) as (_ & ns & gs & Hq & _).
  destruct (commit_alone t σ ns gs tr Hq Htr) as (σ2 & ns2 & gs2 & Hrun2 & Hq2 & _ & _ & _ & Hold).
  rewrite (run_op_det _ _ _ _ _ Hrun Hrun2). exists ns2, gs2. split_and!; [done | | by apply Hold].
  intros l Hl. apply (ro_dom _ _ _ (qu_ok _ _ _ Hq2)). set_solver.
Qed.

(** Two transactions queue, the first commits twice with new requests in between. *)
Definition serial_example : list (nat * action) :=
  [(0%nat, Acquire 3 10); (1%nat, Acquire 2 11); (0%nat, Acquire 2 12); (0%nat, Commit); (0%nat, Acquire 3 13)].

Lemma serial_refines_witness :
  ∃ σ, run_serial 40 serial_example (rec_start 2) = Ret (Some σ) ∧
    ∃ ns gs, quiet σ ns gs ∧ granted σ ns = [11; 13]%nat ∧ trx_locks <$> trxs σ = [[13]; [11]]%nat.
Proof.
  eexists. split; [vm_compute; reflexivity |].
  refine (serial_refines 2 _ (mkQueue [11; 13]%nat [[13]; [11]]%nat) _).
  refine (run_serial_serial 40 2 serial_example _ _ _ (serial_start 2) _ _); [repeat constructor; cbn; lia | vm_compute; reflexivity].
Defined.

Lemma serial_completes_witness :
  ∃ σ, run_serial 40 serial_example (rec_start 2) = Ret (Some σ) ∧ ∃ σ', run_op 0 Commit σ σ'.
Proof.
  eexists. split; [vm_compute; reflexivity |].
  refine (serial_completes 2 _ (mkQueue [11; 13]%nat [[13]; [11]]%nat) 0 Commit _ _ _); [| lia | done].
  refine (run_serial_serial 40 2 serial_example _ _ _ (serial_start 2) _ _); [repeat constructor; cbn; lia | vm_compute; reflexivity].
Defined.

Lemma commit_collects_witness :
  ∃ σ σ', run_serial 40 serial_example (rec_start 2) = Ret (Some σ) ∧ run_op 0 Commit σ σ' ∧
    ∃ ns gs, quiet σ' ns gs ∧ (∀ l, l ∈ ns → is_Some (locks σ' !! l)) ∧
      ∀ l, l ∈ gs → Some l ≠ last gs →
        min_active (<[0%nat := mkTrx (sys_timestamp σ) true []]> (trxs σ)) ≤ ts_of σ' l.
Proof.
  eexists. eexists. split; [vm_compute; reflexivity |]. split; [apply (run_alone_sound 40); vm_compute; reflexivity |].
  refine (commit_collects 2 _ (mkQueue [11; 13]%nat [[13]; [11]]%nat) 0 _ (mkTrx 1 true [13%nat]) _ _ _ _ _);
    [| lia | vm_compute; reflexivity | done | apply (run_alone_sound 40); vm_compute; reflexivity].
  refine (run_serial_serial 40 2 serial_example _ _ _ (serial_start 2) _ _); [repeat constructor; cbn; lia | vm_compute; reflexivity].
Defined.
