(* ===== verification/RecLockConc.v ===== *)
(** * Record locks of project 4: overlapping operations

    Acquisitions may overlap freely: no lock is lost and no step touches memory that is
    not there ([concurrent_acquisitions], [ins_step]).  Overlap with a commit is not
    safe: [commit_aborts_server] and [garbage_lock_lost] are executions of the code in which
    an assertion of the server fails, and in which a lock is lost for the collection. *)

From S2P Require Import Prelude RecLock RecLockSeq.

(** ** Acquisitions only *)

(** The values of the tail of the cell before a step and after it. *)
Definition tails (os : list nat) (σ σ' : rsys) : list nat :=
  if decide (c_tail (cell σ') = c_tail (cell σ)) then os else os ++ option_list (c_tail (cell σ')).

(** An execution in which transactions only acquire locks; [os] are the locks the
    tail of the cell was set to, in this order. *)
Inductive acquires (n : nat) : list nat → rsys → Prop :=
| acquires_start : acquires n [] (rec_start n)
| acquires_step os σ t mode l σ' :
    acquires n os σ → rec_step t (Acquire mode l) σ = Ret (Some σ') → acquires n (tails os σ σ') σ'.

(** The lock linked before the [k]th. *)
Definition before (os : list nat) (k : nat) : option nat := match k with O => None | S k => os !! k end.

(** [os] are the locks in the order of the exchanges of the tail; the link to one of
    them is in memory, or a thread is about to write it. *)
Record ins_ok (σ : rsys) (os : list nat) : Prop := {
  in_pc t p : rpcs σ !! t = Some p → match p with Idle | InTas _ | InLink _ _ | InTrx _ => True | _ => False end;
  in_len : length (rpcs σ) = length (trxs σ);
  in_nodup : NoDup os;
  in_tail : c_tail (cell σ) = last os;
  in_new t l : rpcs σ !! t = Some (InTas l) → l ∉ os ∧ hash <$> locks σ !! l = Some None;
  in_new_one t t' l : rpcs σ !! t = Some (InTas l) → rpcs σ !! t' = Some (InTas l) → t = t';
  in_dom l : is_Some (locks σ !! l) ↔ l ∈ os ∨ ∃ t, rpcs σ !! t = Some (InTas l);
  in_head : c_head (cell σ) = head os ∨ ∃ t y, head os = Some y ∧ rpcs σ !! t = Some (InLink y None) ∧ c_head (cell σ) = None;
  in_link k x : os !! k = Some x → hash <$> locks σ !! x = Some (os !! S k) ∨
    ∃ t y, os !! S k = Some y ∧ rpcs σ !! t = Some (InLink y (Some x));
  in_pend t y o : rpcs σ !! t = Some (InLink y o) → ∃ k, os !! k = Some y ∧ before os k = o;
  in_state l x : locks σ !! l = Some x → state x = true
}.

Lemma ins_start n : ins_ok (rec_start n) [].
Proof.
  split; cbn; try done.
  - by intros t p [-> _]%lookup_replicate.
  - by rewrite !length_replicate.
  - constructor.
  - by intros t l [? _]%lookup_replicate.
  - by intros t t' l [? _]%lookup_replicate.
  - intros l. split; [by intros [? ?] | by intros [?%not_elem_of_nil | (t & [? _]%lookup_replicate)]].
  - by left.
  - by intros t y o [? _]%lookup_replicate.
Qed.

Lemma pcs_insert (ps : list rpc) t q p t' p' :
  ps !! t = Some q → <[t := p]> ps !! t' = Some p' ↔ (t' = t ∧ p' = p) ∨ (t' ≠ t ∧ ps !! t' = Some p').
Proof.
  intros Hq. destruct (decide (t' = t)) as [-> | Hne].
  - rewrite list_lookup_insert_eq by (by eapply lookup_lt_Some). naive_solver.
  - rewrite list_lookup_insert_ne by done. naive_solver.
Qed.

(** The point of a thread other than the one that has moved. *)
Ltac other_thread Hpcs := apply Hpcs; right; split; [congruence | done].

(** A thread at rest allocates a lock. *)
Lemma ins_alloc t tr mode l σ os :
  ins_ok σ os → rpcs σ !! t = Some Idle → locks σ !! l = None →
  ins_ok (goto t (InTas l) (with_count (n_rec_locks σ + 1)
    (with_trx t (mkTrx (t_timestamp tr) true (trx_locks tr))
      (with_locks (<[l := project4_lock_alloc t tr mode]> (locks σ)) σ)))) os.
Proof.
  intros [I1 I2 I3 I4 I5 I6 I7 I8 I9 I10 I11] Hp Hl.
  assert (l ∉ os ∧ ∀ t', rpcs σ !! t' ≠ Some (InTas l)) as [Hlo Hlp].
  { split; [intros Hx | intros t' Hx]; assert (is_Some (locks σ !! l)) as [? ?] by (apply I7; eauto); congruence. }
  assert (∀ x, x ∈ os → x ≠ l) as Hne by (by intros x Hx ->).
  pose proof (λ p t' p', pcs_insert (rpcs σ) t Idle p t' p' Hp) as Hpcs.
  split; cbn.
  - intros t' p [[-> ->] | [_ ?]]%Hpcs; [done | by eapply I1].
  - by rewrite !length_insert.
  - done.
  - done.
  - intros t' l' [[-> [= ->]] | [_ Hx]]%Hpcs; [by rewrite lookup_insert_eq |].
    rewrite lookup_insert_ne; [by eapply I5 |]. intros <-. by apply (Hlp t').
  - intros t1 t2 l' [[-> [= ->]] | [_ H1]]%Hpcs [[-> ?] | [_ H2]]%Hpcs; try done; [by apply Hlp in H2 | simplify_eq; by apply Hlp in H1 | by eapply I6].
  - intros l'. destruct (decide (l' = l)) as [-> | Hll].
    + rewrite lookup_insert_eq. split; [| by eauto]. intros _. right. exists t. apply Hpcs. by left.
    + rewrite lookup_insert_ne, I7 by done. apply or_iff_compat_l. split; intros [t' Ht']; exists t'.
      * other_thread Hpcs.
      * apply Hpcs in Ht' as [[_ [= ->]] | [_ ?]]; done.
  - destruct I8 as [? | (t' & y & ? & Ht' & ?)]; [by left |]. right. exists t', y. split_and!; try done.
    other_thread Hpcs.
  - intros k x Hx. rewrite lookup_insert_ne by (apply not_eq_sym, Hne; by eapply list_elem_of_lookup_2).
    destruct (I9 k x Hx) as [? | (t' & y & Hy & Ht')]; [by left |]. right. exists t', y. split; [done |].
    other_thread Hpcs.
  - intros t' y o [[_ ?] | [_ Ht']]%Hpcs; [done | by eapply I10].
  - intros l' x [[<- <-] | [_ Hx]]%lookup_insert_Some; [done | by eapply I11].
Qed.

(** The exchange of the tail. *)
Lemma ins_tas t l σ os :
  ins_ok σ os → rpcs σ !! t = Some (InTas l) →
  ins_ok (goto t (InLink l (c_tail (cell σ))) (with_cell (mkCell (c_head (cell σ)) (Some l)) σ)) (os ++ [l]).
Proof.
  intros [I1 I2 I3 I4 I5 I6 I7 I8 I9 I10 I11] Hp. destruct (I5 t l Hp) as [Hlo Hh].
  pose proof (λ p t' p', pcs_insert (rpcs σ) t (InTas l) p t' p' Hp) as Hpcs.
  assert (∀ k y, os !! k = Some y → (os ++ [l]) !! k = Some y) as Happ by (intros k y; apply lookup_app_l_Some).
  split; cbn.
  - intros t' p [[-> ->] | [_ ?]]%Hpcs; [done | by eapply I1].
  - by rewrite length_insert.
  - apply NoDup_app. split_and!; [done | by intros x Hx ->%list_elem_of_singleton | apply NoDup_singleton].
  - by rewrite last_snoc.
  - intros t' l' [[_ ?] | [Hne Ht']]%Hpcs; [done |]. destruct (I5 t' l' Ht') as [? ?]. split; [| done].
    rewrite not_elem_of_app, list_elem_of_singleton. split; [done |]. intros ->. by apply Hne, (I6 t' t l).
  - intros t1 t2 l' [[_ ?] | [_ H1]]%Hpcs [[_ ?] | [_ H2]]%Hpcs; try done. by eapply I6.
  - intros l'. rewrite I7, elem_of_app, list_elem_of_singleton. split.
    + intros [? | [t' Ht']]; [by left; left |]. destruct (decide (t' = t)) as [-> | Hne]; [left; right; congruence |].
      right. exists t'. apply Hpcs. by right.
    + intros [[? | ->] | [t' [[_ ?] | [_ Ht']]%Hpcs]]; [by left | by right; exists t | done | by right; exists t'].
  - rewrite head_snoc. destruct I8 as [I8 | (t' & y & Hy & Ht' & Hn)].
    + destruct (head os) as [y |] eqn:Hhd; [by left |]. right. exists t, l. split_and!; [done | | done].
      apply Hpcs. left. rewrite I4. by destruct os.
    + right. exists t', y. rewrite Hy. split_and!; [done | | done]. other_thread Hpcs.
  - intros k x [Hx | [Hk Hx]]%lookup_app_Some.
    + destruct (I9 k x Hx) as [Hl | (t' & y & Hy & Ht')].
      * destruct (os !! S k) as [y |] eqn:Hy; [left; by rewrite (Happ _ _ Hy) |].
        right. exists t, l. apply lookup_lt_Some in Hx as Hk. apply lookup_ge_None in Hy.
        assert (length os = S k) as Hlen by lia. split; [rewrite lookup_app_r by lia; by rewrite Hlen, Nat.sub_diag |].
        apply Hpcs. left. split; [done |]. rewrite I4, last_lookup, Hlen. cbn. by rewrite Hx.
      * right. exists t', y. split; [by apply Happ |]. other_thread Hpcs.
    + apply list_lookup_singleton_Some in Hx as [Hk0 <-]. left. rewrite Hh. f_equal. symmetry.
      apply lookup_ge_None. rewrite length_app. cbn. lia.
  - intros t' y o [[_ [= -> ->]] | [_ Ht']]%Hpcs.
    + exists (length os). split; [by rewrite list_lookup_middle |]. rewrite I4, last_lookup.
      destruct (length os) as [| k] eqn:Hlen; cbn; [by destruct os |]. rewrite lookup_app_l by lia. done.
    + destruct (I10 t' y o Ht') as (k & Hk & <-). exists k. split; [by apply Happ |].
      destruct k as [| k]; [done |]. cbn. apply lookup_app_l. apply lookup_lt_Some in Hk. lia.
  - done.
Qed.

(** The write of the link. *)
Lemma ins_link_head t y σ os :
  ins_ok σ os → rpcs σ !! t = Some (InLink y None) →
  ins_ok (goto t (InTrx y) (with_cell (mkCell (Some y) (c_tail (cell σ))) σ)) os.
Proof.
  intros [I1 I2 I3 I4 I5 I6 I7 I8 I9 I10 I11] Hp.
  pose proof (λ p t' p', pcs_insert (rpcs σ) t (InLink y None) p t' p' Hp) as Hpcs.
  assert (head os = Some y) as Hy.
  { destruct (I10 t y None Hp) as ([| k] & Hk & Hb); [by destruct os |]. cbn in Hb. apply lookup_lt_Some in Hk.
    apply lookup_ge_None in Hb. lia. }
  split; cbn; try done.
  - intros t' p [[-> ->] | [_ ?]]%Hpcs; [done | by eapply I1].
  - by rewrite length_insert.
  - intros t' l' [[_ ?] | [_ Ht']]%Hpcs; [done | by eapply I5].
  - intros t1 t2 l' [[_ ?] | [_ H1]]%Hpcs [[_ ?] | [_ H2]]%Hpcs; try done. by eapply I6.
  - intros l'. rewrite I7. apply or_iff_compat_l. split; intros [t' Ht']; exists t'.
    + other_thread Hpcs.
    + by apply Hpcs in Ht' as [[_ ?] | [_ ?]].
  - by left.
  - intros k x Hx. destruct (I9 k x Hx) as [? | (t' & z & Hz & Ht')]; [by left |]. right. exists t', z. split; [done |].
    other_thread Hpcs.
  - intros t' z o [[_ ?] | [_ Ht']]%Hpcs; [done | by eapply I10].
Qed.

Lemma ins_link_after t y x nx σ os :
  ins_ok σ os → rpcs σ !! t = Some (InLink y (Some x)) → locks σ !! x = Some nx →
  ins_ok (goto t (InTrx y) (with_locks (<[x := set_hash (Some y) nx]> (locks σ)) σ)) os.
Proof.
  intros [I1 I2 I3 I4 I5 I6 I7 I8 I9 I10 I11] Hp Hnx.
  pose proof (λ p t' p', pcs_insert (rpcs σ) t (InLink y (Some x)) p t' p' Hp) as Hpcs.
  assert (∃ k, os !! k = Some x ∧ os !! S k = Some y) as (k & Hk & Hk1).
  { destruct (I10 t y _ Hp) as ([| k] & Hk & Hb); [done |]. by exists k. }
  assert (x ∈ os) as Hxo by (by eapply list_elem_of_lookup_2).
  split; cbn; try done.
  - intros t' p [[-> ->] | [_ ?]]%Hpcs; [done | by eapply I1].
  - by rewrite length_insert.
  - intros t' l' [[_ ?] | [_ Ht']]%Hpcs; [done |]. destruct (I5 t' l' Ht') as [? ?]. split; [done |].
    rewrite lookup_insert_ne; [done | congruence].
  - intros t1 t2 l' [[_ ?] | [_ H1]]%Hpcs [[_ ?] | [_ H2]]%Hpcs; try done. by eapply I6.
  - intros l'. transitivity (is_Some (locks σ !! l')).
    { destruct (decide (l' = x)) as [-> |]; [rewrite lookup_insert_eq, Hnx; split; eauto | by rewrite lookup_insert_ne]. }
    rewrite I7. apply or_iff_compat_l. split; intros [t' Ht']; exists t'.
    + other_thread Hpcs.
    + by apply Hpcs in Ht' as [[_ ?] | [_ ?]].
  - destruct I8 as [? | (t' & z & Hz & Ht' & ?)]; [by left |]. right. exists t', z. split_and!; [done | | done].
    other_thread Hpcs.
  - intros k' x' Hx'. destruct (decide (x' = x)) as [-> | Hne].
    + left. rewrite (NoDup_lookup _ _ _ _ I3 Hx' Hk), lookup_insert_eq, Hk1. done.
    + rewrite lookup_insert_ne by done. destruct (I9 k' x' Hx') as [? | (t' & z & Hz & Ht')]; [by left |].
      right. exists t', z. split; [done |]. other_thread Hpcs.
  - intros t' z o [[_ ?] | [_ Ht']]%Hpcs; [done | by eapply I10].
  - intros l' x' [[<- <-] | [_ Hx]]%lookup_insert_Some; [cbn; by eapply I11 | by eapply I11].
Qed.

Lemma ins_trx t l tr σ os :
  ins_ok σ os → rpcs σ !! t = Some (InTrx l) → ins_ok (goto t Idle (with_trx t tr σ)) os.
Proof.
  intros [I1 I2 I3 I4 I5 I6 I7 I8 I9 I10 I11] Hp.
  pose proof (λ p t' p', pcs_insert (rpcs σ) t (InTrx l) p t' p' Hp) as Hpcs.
  split; cbn; try done.
  - intros t' p [[-> ->] | [_ ?]]%Hpcs; [done | by eapply I1].
  - by rewrite !length_insert.
  - intros t' l' [[_ ?] | [_ Ht']]%Hpcs; [done | by eapply I5].
  - intros t1 t2 l' [[_ ?] | [_ H1]]%Hpcs [[_ ?] | [_ H2]]%Hpcs; try done. by eapply I6.
  - intros l'. rewrite I7. apply or_iff_compat_l. split; intros [t' Ht']; exists t'.
    + other_thread Hpcs.
    + by apply Hpcs in Ht' as [[_ ?] | [_ ?]].
  - destruct I8 as [? | (t' & z & Hz & Ht' & ?)]; [by left |]. right. exists t', z. split_and!; [done | | done].
    other_thread Hpcs.
  - intros k x Hx. destruct (I9 k x Hx) as [? | (t' & z & Hz & Ht')]; [by left |]. right. exists t', z. split; [done |].
    other_thread Hpcs.
  - intros t' z o [[_ ?] | [_ Ht']]%Hpcs; [done | by eapply I10].
Qed.

Lemma tails_same os σ σ' : c_tail (cell σ') = c_tail (cell σ) → tails os σ σ' = os.
Proof. intros H. unfold tails. by rewrite decide_True. Qed.

(** No step touches memory that is not there, and every step keeps the invariant. *)
Lemma ins_step t mode l σ os :
  ins_ok σ os → ∃ o, rec_step t (Acquire mode l) σ = Ret o ∧ from_option (λ σ', ins_ok σ' (tails os σ σ')) True o.
Proof.
  intros Hok. unfold rec_step. destruct (rpcs σ !! t) as [p |] eqn:Hp; [| by exists None].
  pose proof (in_pc _ _ Hok t p Hp) as Hpc.
  destruct (lookup_lt_is_Some_2 (trxs σ) t) as [tr Htr]; [rewrite <- (in_len _ _ Hok); by eapply lookup_lt_Some |].
  destruct p as [| l' | y [x |] | l' | | | | | | | | | | | | | | | | | | | | |]; try done; cbn [insert_step idle_step].
  - unfold idle_step, get_trx. rewrite (at_lookup _ _ _ Htr). obind. destruct (locks σ !! l) eqn:Hl; [by exists None |].
    eexists. split; [done |]. cbn [from_option]. rewrite tails_same by done. exact (ins_alloc t tr mode l σ os Hok Hp Hl).
  - eexists. split; [done |]. cbn [from_option]. unfold tails. rewrite decide_False; [by apply ins_tas |].
    cbn. rewrite (in_tail _ _ Hok). intros Hl%eq_sym%last_Some_elem_of. by destruct (in_new _ _ Hok t l' Hp).
  - destruct (in_pend _ _ Hok t y _ Hp) as ([| k] & _ & Hx); [done |]. cbn in Hx.
    destruct (proj2 (in_dom _ _ Hok x)) as [nx Hnx]; [left; by eapply list_elem_of_lookup_2 |].
    unfold put, get. rewrite Hnx. eexists. split; [done |]. cbn [from_option]. rewrite tails_same by done. by apply ins_link_after.
  - eexists. split; [done |]. cbn [from_option]. rewrite tails_same by done. by apply ins_link_head.
  - unfold get_trx. rewrite (at_lookup _ _ _ Htr). eexists. split; [done |]. cbn [from_option].
    rewrite tails_same by done. by eapply ins_trx.
Qed.

Lemma ins_reachable n os σ : acquires n os σ → ins_ok σ os.
Proof.
  induction 1 as [| os σ t mode l σ' _ IH Hs]; [apply ins_start |].
  destruct (ins_step t mode l σ os IH) as (o & Ho & Hk). rewrite Hs in Ho. by injection Ho as <-.
Qed.

(** C23: Acquisitions of any number of transactions in any interleaving lose no lock: whenever
    no acquisition is under way, all locks ever requested are in the list of the cell, once
    each, linked from its head to its tail in the order in which the tail of the cell was
    exchanged for them, and none is marked. *)
Theorem concurrent_acquisitions n os σ :
  acquires n os σ → Forall (eq Idle) (rpcs σ) →
  NoDup os ∧ cell σ = cell_of os ∧ linked (locks σ) hash os ∧
    (∀ l, is_Some (locks σ !! l) ↔ l ∈ os) ∧ ∀ l, l ∈ os → alive σ l.
Proof.
  intros Hok%ins_reachable Hidle. rewrite Forall_lookup in Hidle. split_and!.
  - apply Hok.
  - pose proof (in_tail _ _ Hok) as Ht. destruct (in_head _ _ Hok) as [Hh | (t & y & _ & Ht' & _)]; [| by apply Hidle in Ht'].
    unfold cell_of. destruct (cell σ). by cbn in *; subst.
  - intros k x Hx. destruct (in_link _ _ Hok k x Hx) as [? | (t & y & _ & Ht)]; [done | by apply Hidle in Ht].
  - intros l. rewrite (in_dom _ _ Hok). split; [intros [? | [t Ht]]; [done | by apply Hidle in Ht] | by left].
  - intros l Hl. destruct (proj2 (in_dom _ _ Hok l) (or_introl Hl)) as [x Hx]. unfold alive, status. rewrite Hx. cbn.
    by rewrite (in_state _ _ Hok l x Hx).
Qed.

(** Running a schedule of acquisitions, with the values of the tail. *)
Fixpoint run_acquires (sched : list (nat * action)) (os : list nat) (σ : rsys) : option (list nat * rsys) :=
  match sched with
  | [] => Some (os, σ)
  | (t, Acquire mode l) :: sched =>
      match rec_step t (Acquire mode l) σ with
      | Ret (Some σ') => run_acquires sched (tails os σ σ') σ'
      | _ => None
      end
  | _ => None
  end.

Lemma run_acquires_steps n sched os σ os' σ' :
  acquires n os σ → run_acquires sched os σ = Some (os', σ') → acquires n os' σ'.
Proof.
  revert os σ. induction sched as [| [t [mode l |]] sched IH]; intros os σ Ha; cbn [run_acquires]; [by intros [= <- <-] | | done].
  destruct (rec_step t (Acquire mode l) σ) as [[σ1 |] | |] eqn:Hs; try done. apply IH. by econstructor.
Qed.

(** Two acquisitions that overlap, with the links written in the opposite order. *)
Definition overlap_example : list (nat * action) :=
  let a := (0%nat, Acquire 3 10) in let b := (1%nat, Acquire 3 11) in [a; b; a; b; b; a; b; a].

Lemma concurrent_acquisitions_witness :
  ∃ σ, run_acquires overlap_example [] (rec_start 2) = Some ([10; 11]%nat, σ) ∧
    NoDup [10; 11]%nat ∧ cell σ = cell_of [10; 11]%nat ∧ linked (locks σ) hash [10; 11]%nat ∧
      (∀ l, is_Some (locks σ !! l) ↔ l ∈ [10; 11]%nat) ∧ ∀ l, l ∈ [10; 11]%nat → alive σ l.
Proof.
  eexists. split; [vm_compute; reflexivity |].
  refine (concurrent_acquisitions 2 _ _ _ _); [| repeat constructor].
  eapply (run_acquires_steps 2 overlap_example [] (rec_start 2)); [constructor | vm_compute; reflexivity].
Defined.

(** ** Commits that overlap *)

(** A commit that overlaps an acquisition can abort the server: while the first request
    for a record has replaced the tail of the cell but not yet written its head, another
    transaction can request the same record, commit, and fail the assertion that the list is
    not empty. *)
Theorem commit_aborts_server :
  ∃ σ, rtc rstep (rec_start 2) σ ∧ rpcs σ !! 1%nat = Some Aborted ∧ rpcs σ !! 0%nat = Some (InLink 10 None).
Proof.
  pose (a := (0%nat, Acquire 3 10)). pose (b := (1%nat, Acquire 3 11)). pose (c := (1%nat, Commit)).
  eexists. split; [apply (run_rec_steps ([a; a; b; b; b; b] ++ [c; c; c])); vm_compute; reflexivity |]. split; reflexivity.
Qed.

(** [t] runs [k] steps of its request or of its commit. *)
Definition steps_of (a : action) (k t : nat) : list (nat * action) := replicate k (t, a).

(** Locks 10 to 14 of the transactions 0 to 4 are in the list.  Transaction 2 commits;
    transaction 3 stops before it unlinks lock 12 from lock 11; transaction 1 commits;
    transaction 4 stops before it unlinks lock 11, whose successor it has read to be 12;
    then 3 and 4 go on. *)
Definition lost_example : list (nat * action) :=
  concat ((λ t, steps_of (Acquire 3 (10 + t)%nat) 4 t) <$> seq 0 5) ++
  steps_of Commit 18 2 ++ steps_of Commit 12 3 ++ steps_of Commit 15 1 ++ steps_of Commit 9 4 ++
  steps_of Commit 14 3 ++ steps_of Commit 34 4.

(** Commits that overlap can lose memory: of two transactions that unlink adjacent
    marked locks at the same time, one puts back the lock the other has unlinked, which is
    then unlinked and put on the list of garbage a second time; the lock between the two is in
    neither list when all transactions are done, and is never freed. *)
Theorem garbage_lock_lost :
  ∃ σ l, rtc rstep (rec_start 5) σ ∧ Forall (eq Idle) (rpcs σ) ∧ is_Some (locks σ !! l) ∧
    ∃ ns gs, cell σ = cell_of ns ∧ linked (locks σ) hash ns ∧ gclist σ = cell_of gs ∧ linked (locks σ) gc_hash gs ∧
      l ∉ ns ++ gs.
Proof.
  eexists _, 11%nat. split; [apply (run_rec_steps lost_example); vm_compute; reflexivity |].
  split_and!; [repeat constructor | by eexists |]. exists [10; 14]%nat, [12; 13]%nat.
  split_and!; [done | | done | | set_solver].
  - by intros [| [| k]] x [= <-].
  - by intros [| [| k]] x [= <-].
Qed.
